(* ===== verification/_CoqProject ===== *)
-Q . S2P
Prelude.v
Nostr.v
Relay.v
State.v
Write.v
Query.v
Evaluator.v
EventCache.v
MemoryCache.v
Routing.v
Routers.v
Receipts.v
MemoryStore.v
StoreInvariant.v
Session.v
Delivery.v
Edits.v
Nip02.v
Bookmarks.v
SavedGroups.v
Publication.v
PublicationProps.v
PublicationWitness.v
Transport.v
TransportProps.v
Mailbox.v
WebSocket.v
WebSocketProps.v
Auth.v
AuthProps.v
Subscriptions.v
StandardPlanner.v
Grouping.v
PlannerConformance.v
OnePerDemand.v
PlannerWitness.v
Diagnostics.v
Observations.v
ObservationsProps.v
Ingest.v
ObserveEngine.v
ObserveEngineProps.v
ObserveSafety.v
ObservePlans.v
ObserveReconcile.v
ObserveWitness.v
Differential.v
Projection.v
Observer.v
ObserverProps.v
ObserverSafety.v
CurrentAccount.v
ObserverWitness.v
Publisher.v
Groups.v
Redb.v
PersistentCache.v
PersistentCacheProps.v
PersistentCacheWitness.v
RedbStore.v
RedbStoreProps.v
RedbStoreDurable.v
RedbStoreRestart.v
RedbStoreLife.v
RedbStoreWitness.v
Settlement.v
Facade.v
Cancel.v
Runtime.v
FetchCache.v
