(* ===== verification/Prelude.v ===== *)
(** * Fava: a verification library for the Nostr client engine

    Fava is a Rust client engine for Nostr.  An application declares queries
    and hands over events to publish; the engine evaluates the queries over what
    it has cached and what it has written locally, decides which relays to read
    from and write to, maps the demand of all queries to wire subscriptions, and
    tracks every local write from acceptance through signing to its delivery at
    each relay.  This library models the deterministic core of that engine as
    executable definitions and proves what its components promise each other.

    ** The components and their files

    - [Prelude]: results, calls that may panic, the state-and-error monad,
      machine-width counters, ordered iteration over maps ([BTreeMap]) and the
      list lemmas every file shares.
    - [Nostr]: the protocol values of the [nostr] crate, and the class [Nostr]
      of the functions of that crate Fava calls.  The crate is a dependency, so
      these functions are parameters; [EventIdBinding] is the one law a theorem
      needs (an id determines the body of a verified event).
    - [Relay] ([crates/fava-relay]): bounded relay text, authorities.
    - [State] ([crates/fava-state]): relay contributions, event coordinates,
      the version order, deletion and expiration, and the mutations one
      admission makes ([mutations_for_event]).
    - [Write] ([crates/fava-write]): event values, write intents, explicit
      routes, edits, receipts and delivery outcomes.
    - [Query] ([crates/fava-query]): queries, selections, account binding,
      source snapshots, evidence and round identities.
    - [Evaluator] ([crates/fava-query-standard]): [evaluate], from source
      snapshots to an ordered answer.
    - [EventCache] ([crates/fava-event-cache]): the provider interface, a class
      with laws, and the trait's own [admit] and [expire] proved against it.
    - [MemoryCache] ([crates/fava-event-cache-memory]): the bounded provider,
      with the instance that discharges those laws.
    - [PersistentCache], [PersistentCacheProps], [PersistentCacheWitness]
      ([crates/fava-event-cache-persistent]): the second provider, the same batches
      over a redb file; [Redb]: the engine both durable providers call, a class
      with laws, and one concrete engine.  serde_json is the class [Serde].
    - [Routing] ([crates/fava-routing]): route requests, contributions, plans
      and the router chain ([preview], [open], [replace], [close]).
    - [Routers] ([crates/fava-nip65], [crates/fava-router-*]): NIP-65 relay lists
      and the four standard routing policies with their sessions.
    - [Receipts] ([crates/fava-write-store]): how a route plan changes a receipt.
    - [MemoryStore], [StoreInvariant] ([crates/fava-write-store-memory]): every
      operation of the write store as a program of the monad [Op] over the
      ledger [WriteState], and the step relation, invariants and atomicity of
      its runs.
    - [RedbStore] ([crates/fava-write-store-redb]): the durable write store, every
      operation with the transaction it commits, loading, validation and
      recovery.  [RedbStoreProps]: the file as a mirror of the ledger, and rules
      for operations; [RedbStoreDurable]: every operation keeps the mirror;
      [RedbStoreRestart]: loading and recovery; [RedbStoreLife]: its theorems over
      any number of runs; [RedbStoreWitness]: concrete runs.
    - [Session] ([crates/fava-session], [crates/fava-signer]): the accounts, their
      signers with attachment generations, and the selected account.
    - [Delivery] ([crates/fava-delivery], [crates/fava-delivery-standard],
      [crates/fava-publisher]): the delivery policy and the lane of one relay.
    - [Edits] ([crates/fava-write]): the event builder, the edit codecs and
      appliers; [Nip02], [Bookmarks], [SavedGroups] ([crates/fava-nip02],
      [crates/fava-bookmarks], the edits of [crates/fava-simple-groups]): the
      list-editing capabilities built on it.
    - [Groups] (the rest of [crates/fava-simple-groups]): the queries of a group,
      the decoders of its state events and the events that manage it.
    - [Publication], [PublicationProps], [PublicationWitness]
      ([crates/fava-publication]): the owner of publication, from acceptance over
      re-application of edits and signing to delivery, as a step relation over
      the store, the session and the running tasks.
    - [Transport], [TransportProps] ([crates/fava-transport]): mailboxes, the
      router of one relay session, its handles and verbs, each run without
      interruption; [Mailbox]: the operations on subscriptions split at their
      locks and interleaved.
    - [WebSocket], [WebSocketProps] ([crates/fava-transport-websocket]): the
      session driver, reconnection, the registry of shared sessions and leases.
    - [Auth], [AuthProps] ([crates/fava-auth]): the NIP-42 authenticator.
    - [Publisher] ([crates/fava-publisher-nip01]): one publication attempt over
      the router of its session.
    - [Ingest] ([crates/fava-ingest]): admission of an event a subscription
      carried; [Diagnostics] ([crates/fava-diagnostics]): the bounded facts.
    - The observation owner ([crates/fava-observe]).  [Observations],
      [ObservationsProps]: the registry of observations, their demand and
      evidence.  [ObserveEngine], [ObserveEngineProps]: the slots, the
      reconciliation of demand with connections, and the handlers of every
      report.  [ObserveSafety], [ObservePlans], [ObserveReconcile]: its
      invariant and what late reports, executed plans and reconciliation do.
      [Projection]: the delivery task of an observation and the application's
      handle.  [Observer], [ObserverProps], [ObserverSafety]: the open sequence,
      its routes and their followers.  [CurrentAccount]: observations that follow
      the current account.  [ObserveWitness], [ObserverWitness]: concrete runs.
    - [Subscriptions] ([crates/fava-subscriptions]): demand, declared limits,
      installed subscriptions, plans, filter coverage and [validate_plan].
    - [StandardPlanner], [Grouping], [PlannerConformance]
      ([crates/fava-subscriptions-standard]): the planner, the exactness of its
      merges, and its conformance.
    - [OnePerDemand] ([crates/fava-subscriptions-no-grouping]): the planner that
      never groups, and its agreement with the standard one.
    - [PlannerWitness]: a concrete matcher and encoder, and the planner theorems
      applied to a small session.
    - [Differential] ([crates/fava-subscriptions-testkit]): the harness that
      compares what two planners deliver.
    - [Settlement] ([wait_until] of [crates/fava-publication], the predicates of
      [crates/fava]): waiting for a receipt, interleaved with the store.
      [Facade] (the rest of [crates/fava]): publication expressions, the account
      and signer calls, and the assembly of an engine.
    - [Cancel], [Runtime] ([crates/fava-runtime]): cancellation tokens, bounded
      channels, the task registry, provider operations and shutdown, at the
      grain of their atomic operations.
    - [FetchCache] ([crates/fava-fetch-cache]): the fetch cache, NIP-05 and
      NIP-11.

    ** How they interact

    Queries read source snapshots that the event cache ([MemoryCache.publish])
    and the write store ([MemoryStore.store_snapshot]) publish; [evaluate] merges
    them.  The cache changes only through [transact] with mutations computed by
    [State].  Write intents ([Write]) enter the store; a route plan ([Routing])
    reaches a receipt through [Receipts.apply_route_to_receipt]; signing and
    delivery then move the receipt's state machine.  Read routes assign queries
    to relays, and the planners turn the demand of one relay session into
    subscriptions under the contract [conforms].  Publication drives the store
    with the router chain's plans, the session's signers and the delivery lanes;
    its state contains the store's, and its theorems rest on the store's step
    relation.  Subscriptions, hand-offs and authentication run over the sessions
    of the transport: the WebSocket driver moves the router of [Transport], the
    authenticator answers the questions that router shows, and a publication
    attempt waits on it.  Opening a query binds a route ([Routing]), registers the
    demand ([Observations]) and starts the task that evaluates it
    ([Projection]); the engine reads the demand of the whole registry, asks a
    planner for every relay, executes the plan over a session and admits what the
    subscriptions carry ([Ingest]) into the cache, the registry and the facts.
    The planner, the matcher and the evaluator are parameters there, so the
    engine's theorems hold for both planners.

    ** What the theorems show

    - Write store: every reachable state is coherent, refusals are atomic,
      terminal delivery outcomes are never lost, and an event is signed only
      under an authorization of its exact generation.  The durable store's file
      is its ledger at all times, a restart resolves what was left open and
      nothing else, and a refusal, of the engine or of the encoding too, changes
      nothing.  Encoding a row may fail ([LedgerSerde]): JSON refuses a route
      plan's coverage, whose keys are not text.
    - Evaluator: the answer is exactly the sorted coordinate winners among the
      entitled records, it leaks nothing across authorities or provenance, and
      loses nothing that qualifies; binding an account only narrows.
    - Event cache: admission keeps the event state sound for every lawful
      provider, deleted events do not return, answers are truthful; the memory
      provider stays in its capacity, reports retractions exactly, keeps
      tombstones and refuses exactly when it must.  The durable provider is the
      memory provider with a file under it, and a restart recovers what was held.
    - Routing: router failures are isolated, attribution cannot be forged,
      absence settles only on answers; every standard router keeps its coverage
      coherent, follows NIP-65, and its live session agrees with its preview.
    - Receipts: a newer route keeps delivery facts, and routes replay.
    - Planners: merged filters ask for exactly the union of their members; plans
      terminate, conform and serve what they claim; both planners ask alike.
    - State, Write, Relay: the version order, occurrences, deletion tags, route
      normalisation, bounded text.

    - Session and delivery: a reachable session is coherent, a retired signer
      generation never becomes current again; a lane with the store to itself
      ends with a terminal outcome within the policy's attempts, or awaits a
      publication that stays pending.
    - List edits: from its constructor through codec and applier, an edit changes
      the rows of its target only.
    - Publication: its own invariant over every interleaving of calls and tasks,
      panicking ones included (only an acceptance that panics leaves its
      reservation), corrections settle, completions of retired signers are inert.
    - Transport: every run keeps the router and the registry coherent; a reader
      gets an ordered selection of its messages with the losses counted, however
      the locks interleave; an ended connection finishes its readers; a connection
      lost in any way is redialled and spends its budget; releases count; wire
      identifiers can be read back.
    - Authentication: a session is established as an account only by the verdict
      on an answer its signer signed and the checked connection carried; answers
      are bounded.
    - Publication attempts: a reported verdict is the relay's own, anonymous work
      is sent once, and only an attempt ended by its deadline leaves a mailbox.
    - Observation: the registry and the engine are coherent in every run; the
      demand it plans is exactly what the open observations want; a late report
      changes nothing; a carried event reaches exactly the observations it
      matches; an executed plan serves what the planner promised; reconciliation
      covers all demand; diagnostics stay bounded and say what they dropped.
    - Opening: what existed before is untouched; a refused open of a query that
      names its accounts keeps nothing but a failed first start, one that follows
      the current account leaves its observation withdrawn; a projection's turn
      answers on exactly the sources its wake-up leaves, with the registry's
      evidence of that moment, no revision goes missing silently, and an
      observation of the current account delivers only answers for the account
      that is selected.
    - Groups: requested metadata is read back as requested, a group's query
      selects the group's events, its context is added once.
    - Facade: an expression publishes what it asked for, by whom, where and under
      which authority, and starts its owner and nothing else; a wait for a
      receipt never oversleeps, and waiting for
      terminal outcomes fails only for cancelled writes; the assembly of an
      engine is what its builder selected.
    - Runtime: cancellation reaches exactly the subtree of the cancelled token
      and every call to cancel ends; the registry accounts for all work within
      its bounds; after a shutdown no registration races, a task still runs only
      if it was aborted, which is not awaited, and is named in the error.
    - Fetch cache: an answer lasts its lifetime.

    Some theorems show behaviour the code does not mean to have:
    [absence_answer_lost], the panic disjunct of [preview_isolates_failures],
    [terminal_custody_breaks_capacity], [lowered_limit_withdraws_running],
    [give_up_unrecordable], [lone_source_loss_ignored],
    [accept_panic_strands_coordinate], [repeated_challenge_unheard],
    [exhaustion_read_as_disconnect], [shutdown_misses_dial],
    [dead_challenge_on_live_socket], [overlapping_questions_all_signed],
    [superseded_answer_sent], [newer_question_overwritten],
    [replaced_connection_established], [message_after_ending],
    [ended_before_queue_is_read], [resend_unbounded], [unanswered_mailboxes_kept],
    [returned_relay_not_desired], [attached_demand_claimed_twice],
    [withdrawn_relay_revived], [unnamed_subscription_forgotten],
    [closed_query_fact_kept], [interrupted_creation_refused],
    [offered_again_lost_on_restart], [reopened_over_capacity],
    [ledger_interrupted_creation], [cancelled_authorization_refused],
    [failure_then_successor_refused], [composed_without_destination_refused],
    [recovered_over_terminal_bound], [tied_successor_refused],
    [targeted_successor_refused],
    [removed_receipt_frees_live_coordinate], [registration_outlives_shutdown],
    [second_shutdown_returns_early], [dropped_shutdown_loses_tasks],
    [aborted_provider_keeps_slot], [found_key_never_refetched],
    [identifier_chooses_path], [composed_edit_drops_account],
    [refused_build_keeps_answering], and the examples of [ObserveWitness] and
    [ObserverWitness].

    ** Representation, bounds and fuel

    [u64] and [u32] counters are [N] with their checked successor written out;
    counts and lengths are [nat]; [BTreeMap] and [BTreeSet] are [gmap] and [gset]
    iterated in key order ([entries], [ordered_elements]); strings are byte
    strings, and the places that cut them model UTF-8 boundaries.  Two loops of
    [StandardPlanner] run on fuel, where the header says why it is enough; no run
    is cut short ([standard_plan_conforms], [group_exact]).  The delivery lane of
    [Delivery] runs on fuel that [lane_settles] shows to suffice, and the
    reconciliation loop of [Publication] counts down the code's own bound.
    [open_fuel] bounds the nesting of router inputs of an open, which recurses
    through the routers' own queries; its theorems hold for every fuel.  Opening
    for the current account makes the code's 64 attempts.
    Asynchronous code is split where it awaits: each stretch between two awaits
    is one definition, and the step relations interleave them freely.  Where
    other threads can come between two operations of one stretch and a theorem
    depends on it, the stretch is split further: a projection's turn, the check
    and the write of an accepted verdict, the operations of [Mailbox], [Cancel]
    and [Runtime].  Atomic operations are sequentially consistent.

    ** What is not modelled

    Threads below that granularity, the poisoning of locks, the executor (a task
    it drops is a step of [Runtime]) and HTTP; serialisation, which is the parameters [Serde] and [LedgerSerde]; the redb
    engine; key material ([fava-signer-local]); the wiring of the observer in the
    facade; the testkits apart from [Differential], and the examples. *)

From stdpp Require Export base list gmap strings sorting pretty option.
From stdpp Require Export fin_maps fin_map_dom.
From Stdlib Require Export Ascii.
From Stdlib Require String.
From Stdlib Require Import OrdersEx.

#[global] Open Scope general_if_scope.

(** ** Results: [Result<A, E>] as a monad for stdpp's bind notation *)

Inductive result (E A : Type) : Type :=
| Ok (a : A)
| Err (e : E).
Arguments Ok {E A} a.
Arguments Err {E A} e.

#[global] Instance result_ret {E} : MRet (result E) := fun _ a => Ok a.
#[global] Instance result_bind {E} : MBind (result E) := fun _ _ f r =>
  match r with Ok a => f a | Err e => Err e end.
#[global] Instance result_fmap {E} : FMap (result E) := fun _ _ f r =>
  match r with Ok a => Ok (f a) | Err e => Err e end.

Definition is_ok {E A} (r : result E A) : bool :=
  match r with Ok _ => true | Err _ => false end.

(** [Option::ok_or_else]. *)
Definition ok_or {E A} (o : option A) (e : E) : result E A :=
  match o with Some a => Ok a | None => Err e end.

(** An early return [if !b { return Err(e) }]. *)
Definition ensure {E} (b : bool) (e : E) : result E unit :=
  if b then Ok tt else Err e.

(** [iter.map(f).collect::<Result<Vec<_>, _>>()]. *)
Fixpoint collect_results {E A} (l : list (result E A)) : result E (list A) :=
  match l with
  | [] => Ok []
  | r :: l => a ← r; as_ ← collect_results l; Ok (a :: as_)
  end.

Section results.
Context {E A B : Type}.

Lemma bind_Ok (r : result E A) (f : A → result E B) b :
  r ≫= f = Ok b ↔ ∃ a, r = Ok a ∧ f a = Ok b.
Proof. destruct r; simpl; naive_solver. Qed.

Lemma bind_Err (r : result E A) (f : A → result E B) e :
  r ≫= f = Err e ↔ r = Err e ∨ ∃ a, r = Ok a ∧ f a = Err e.
Proof. destruct r; simpl; naive_solver. Qed.

Lemma ok_or_Ok (o : option A) (e : E) a : ok_or o e = Ok a ↔ o = Some a.
Proof. destruct o; simpl; naive_solver. Qed.

Lemma ensure_Ok b (e : E) u : ensure b e = Ok u ↔ b = true.
Proof. destruct b, u; simpl; naive_solver. Qed.

Lemma ensure_Err b (e e' : E) : ensure b e = Err e' ↔ b = false ∧ e = e'.
Proof. destruct b; simpl; naive_solver. Qed.

Lemma collect_results_Ok (l : list (result E A)) l' :
  collect_results l = Ok l' ↔ Forall2 (λ r a, r = Ok a) l l'.
Proof.
  revert l'. induction l as [|r l IH]; intros l'; simpl.
  - split; [intros [= <-]; constructor|by inversion 1].
  - destruct r as [a|e]; simpl; [|by split; [|inversion 1]].
    split.
    + destruct (collect_results l) as [l1|e]; simpl; [|done].
      intros [= <-]. constructor; [done|by apply IH].
    + intros (b & l1 & Hb & Hl & ->)%Forall2_cons_inv_l.
      apply IH in Hl. rewrite Hl. simpl. congruence.
Qed.
End results.

(** [for x in l { f(x)? }]. *)
Definition for_each {E A} (f : A → result E unit) (l : list A) : result E unit :=
  foldr (λ x rest, _ ← f x; rest) (Ok tt) l.

Lemma for_each_Ok {E A} (f : A → result E unit) l :
  for_each f l = Ok tt ↔ ∀ x, x ∈ l → f x = Ok tt.
Proof.
  induction l as [|x l IH].
  - split; [by intros _ y ?%not_elem_of_nil|done].
  - change (for_each f (x :: l)) with (_ ← f x; for_each f l).
    rewrite bind_Ok. setoid_rewrite elem_of_cons. split.
    + intros ([] & Hx & Hl) y [->|?]; [done|]. by apply IH.
    + intros Hall. exists tt. split; [auto|]. apply IH. auto.
Qed.

(** ** Calls that may panic *)

Inductive outcome (A : Type) : Type :=
| Returned (a : A)
| Panicked.
Arguments Returned {A} a.
Arguments Panicked {A}.

#[global] Instance outcome_ret : MRet outcome := fun _ a => Returned a.
#[global] Instance outcome_bind : MBind outcome := fun _ _ f r =>
  match r with Returned a => f a | Panicked => Panicked end.

Lemma bind_Returned {A B} (r : outcome A) (f : A → outcome B) b :
  r ≫= f = Returned b ↔ ∃ a, r = Returned a ∧ f a = Returned b.
Proof. destruct r; simpl; naive_solver. Qed.

(** ** Fallible operations on a state: a failure keeps the state it reached *)

Definition stateM (S E A : Type) : Type := S → result E A * S.

#[global] Instance stateM_ret {S E} : MRet (stateM S E) := fun _ a s => (Ok a, s).
#[global] Instance stateM_bind {S E} : MBind (stateM S E) := fun _ _ f m s =>
  match m s with (Ok a, s') => f a s' | (Err e, s') => (Err e, s') end.

Definition stateM_get {S E} : stateM S E S := fun s => (Ok s, s).
Definition stateM_put {S E} (s : S) : stateM S E unit := fun _ => (Ok tt, s).
(** The operator [?] on a computed result. *)
Definition lift {S E A} (r : result E A) : stateM S E A := fun s => (r, s).

Section state_monad.
Context {S E A B : Type}.

Lemma stateM_bind_Ok (m : stateM S E A) (f : A → stateM S E B) s b s' :
  (m ≫= f) s = (Ok b, s') ↔ ∃ a s1, m s = (Ok a, s1) ∧ f a s1 = (Ok b, s').
Proof. unfold mbind, stateM_bind. destruct (m s) as [[]]; naive_solver. Qed.

Lemma stateM_bind_Err (m : stateM S E A) (f : A → stateM S E B) s e s' :
  (m ≫= f) s = (Err e, s') ↔
  m s = (Err e, s') ∨ ∃ a s1, m s = (Ok a, s1) ∧ f a s1 = (Err e, s').
Proof. unfold mbind, stateM_bind. destruct (m s) as [[]]; naive_solver. Qed.
End state_monad.

(** ** Machine integers *)

Definition u64_max : N := 18446744073709551615.
Definition u32_max : N := 4294967295.

(** [u64::checked_add(1)]. *)
Definition checked_succ (n : N) : option N :=
  if bool_decide (n < u64_max)%N then Some (n + 1)%N else None.

(** [u32::checked_add(1)]. *)
Definition checked_succ32 (n : N) : option N :=
  if bool_decide (n < u32_max)%N then Some (n + 1)%N else None.

(** [usize::saturating_add] on a 64-bit target. *)
Definition saturating_add (n m : N) : N := N.min u64_max (n + m).

Lemma saturating_add_le n m : (saturating_add n m ≤ u64_max)%N.
Proof. unfold saturating_add. lia. Qed.

Lemma checked_succ_Some n m : checked_succ n = Some m ↔ (n < u64_max)%N ∧ m = (n + 1)%N.
Proof. unfold checked_succ. case_bool_decide; naive_solver. Qed.

Lemma checked_succ_None n : checked_succ n = None ↔ (u64_max ≤ n)%N.
Proof. unfold checked_succ. case_bool_decide; naive_solver lia. Qed.

(** ** Ordered keys: the iteration order of [BTreeMap] and [BTreeSet] *)

Class KeyOrder (K : Type) := {
  key_le : relation K;
  key_le_dec :: RelDecision key_le;
  key_le_total :: Total key_le;
  key_le_trans :: Transitive key_le;
  key_le_anti :: AntiSymm (=) key_le
}.
#[global] Arguments key_le {K _} : simpl never.

#[global] Instance key_le_refl `{KeyOrder K} : Reflexive (key_le (K := K)).
Proof. intros k. by destruct (total key_le k k). Qed.

#[global] Instance N_key_order : KeyOrder N.
Proof.
  refine {| key_le := N.le |}; apply _.
Defined.

(** Byte-wise order of Rust's [String]. *)
Definition string_le (a b : string) : Prop := a = b ∨ String_as_OT.lt a b.

#[global] Instance string_key_order : KeyOrder string.
Proof.
  refine {| key_le := string_le |}; unfold string_le.
  - intros a b. unfold Decision.
    destruct (String_as_OT.compare a b) eqn:E;
      pose proof (String_as_OT.compare_spec a b) as Hs; rewrite E in Hs.
    + left. left. by inversion Hs.
    + left. by right.
    + right. inversion Hs as [| |Hgt]. intros [->|Hlt].
      * by destruct (irreflexivity String_as_OT.lt b).
      * destruct (irreflexivity String_as_OT.lt a). by etrans.
  - intros a b. destruct (String_as_OT.compare_spec a b); auto.
  - intros a b c [->|Hab] [->|Hbc]; auto. right. by etrans.
  - intros a b [->|Hab] [Hba|Hba]; auto.
    destruct (irreflexivity String_as_OT.lt a). by etrans.
Defined.

(** Lexicographic order on pairs, as derived for tuples and structs. *)
Definition lex_le {A B} `{KeyOrder A, KeyOrder B} (x y : A * B) : Prop :=
  (key_le x.1 y.1 ∧ x.1 ≠ y.1) ∨ (x.1 = y.1 ∧ key_le x.2 y.2).

#[global] Instance prod_key_order {A B} `{EqDecision A, KeyOrder A, KeyOrder B} : KeyOrder (A * B).
Proof.
  refine {| key_le := lex_le |}.
  - intros x y. unfold lex_le. apply _.
  - intros [a1 b1] [a2 b2]. unfold lex_le; simpl. destruct (decide (a1 = a2)) as [->|].
    + destruct (total key_le b1 b2); [left|right]; right; done.
    + destruct (total key_le a1 a2); [left|right]; left; done.
  - intros [a1 b1] [a2 b2] [a3 b3]. unfold lex_le; simpl.
    intros [[H1 N1]|[E1 H1]] [[H2 N2]|[E2 H2]]; subst; auto.
    + left. split; [by etrans|]. intros ->. by apply N1, (anti_symm key_le).
    + right. split; [done|by etrans].
  - intros [a1 b1] [a2 b2]. unfold lex_le; simpl.
    intros [[H1 N1]|[E1 H1]] [[H2 N2]|[E2 H2]]; subst; try done.
    + destruct N1. by apply (anti_symm key_le).
    + f_equal. by apply (anti_symm key_le).
Defined.

(** [None < Some _], as derived for [Option]. *)
Definition option_le {A} `{KeyOrder A} (x y : option A) : Prop :=
  match x, y with
  | None, _ => True
  | Some _, None => False
  | Some a, Some b => key_le a b
  end.

#[global] Instance option_key_order {A} `{KeyOrder A} : KeyOrder (option A).
Proof.
  refine {| key_le := option_le |}.
  - intros [a|] [b|]; simpl; apply _.
  - intros [a|] [b|]; simpl; auto. apply (total key_le).
  - intros [a|] [b|] [c|]; simpl; try done. apply transitivity.
  - intros [a|] [b|]; simpl; try done. intros. f_equal. by apply (anti_symm key_le).
Defined.

(** An order transported along an injection (derived orders of enums). *)
Definition inj_key_order {A B} `{KeyOrder B} (f : A → B) (Hf : ∀ x y, f x = f y → x = y) :
  KeyOrder A.
Proof.
  refine {| key_le := λ x y, key_le (f x) (f y) |}.
  - intros x y. apply _.
  - intros x y. apply (total key_le).
  - intros x y z. apply transitivity.
  - intros x y ??. apply Hf. by apply (anti_symm key_le).
Defined.

(** ** Ordered iteration over maps and sets *)

Section ordered.
Context {K V : Type} `{Countable K} `{!KeyOrder K}.

Definition entry_le (p q : K * V) : Prop := key_le p.1 q.1.

#[global] Instance entry_le_dec : RelDecision entry_le.
Proof. intros p q. unfold entry_le. apply _. Defined.
#[global] Instance entry_le_trans : Transitive entry_le.
Proof. intros p q r. apply (transitivity (R := key_le)). Qed.
#[global] Instance entry_le_total : Total entry_le.
Proof. intros p q. apply (total key_le). Qed.

(** Entries of a [BTreeMap] in iteration order. *)
Definition entries (m : gmap K V) : list (K * V) := merge_sort entry_le (map_to_list m).

(** [BTreeMap::values] and [BTreeMap::keys] (also a [BTreeSet]'s iterator). *)
Definition values (m : gmap K V) : list V := snd <$> entries m.
Definition keys (m : gmap K V) : list K := fst <$> entries m.

Definition ordered_elements (s : gset K) : list K := merge_sort key_le (elements s).

Lemma entries_perm (m : gmap K V) : entries m ≡ₚ map_to_list m.
Proof. apply merge_sort_Permutation. Qed.

Lemma elem_of_entries (m : gmap K V) k v : (k, v) ∈ entries m ↔ m !! k = Some v.
Proof. by rewrite entries_perm, elem_of_map_to_list. Qed.

Lemma elem_of_values (m : gmap K V) v : v ∈ values m ↔ ∃ k, m !! k = Some v.
Proof.
  unfold values. rewrite list_elem_of_fmap. setoid_rewrite <- elem_of_entries.
  split; [intros ([k ?] & -> & ?); eauto|intros [k ?]; by exists (k, v)].
Qed.

Lemma elem_of_keys (m : gmap K V) k : k ∈ keys m ↔ is_Some (m !! k).
Proof.
  unfold keys. rewrite list_elem_of_fmap. unfold is_Some.
  setoid_rewrite <- elem_of_entries.
  split; [intros ([? v] & -> & ?); eauto|intros [v ?]; by exists (k, v)].
Qed.

Lemma length_entries (m : gmap K V) : length (entries m) = size m.
Proof. by rewrite entries_perm, length_map_to_list. Qed.

Lemma length_values (m : gmap K V) : length (values m) = size m.
Proof. unfold values. by rewrite length_fmap, length_entries. Qed.

Lemma NoDup_keys (m : gmap K V) : NoDup (keys m).
Proof.
  unfold keys. eapply NoDup_Permutation_proper; [by rewrite entries_perm|].
  apply NoDup_fst_map_to_list.
Qed.

Lemma entries_sorted (m : gmap K V) : StronglySorted entry_le (entries m).
Proof. apply StronglySorted_merge_sort; apply _. Qed.

Lemma elem_of_ordered_elements (s : gset K) k : k ∈ ordered_elements s ↔ k ∈ s.
Proof. unfold ordered_elements. by rewrite merge_sort_Permutation, elem_of_elements. Qed.

Lemma NoDup_ordered_elements (s : gset K) : NoDup (ordered_elements s).
Proof.
  unfold ordered_elements. eapply NoDup_Permutation_proper; [apply merge_sort_Permutation|].
  apply NoDup_elements.
Qed.

Lemma length_ordered_elements (s : gset K) : length (ordered_elements s) = size s.
Proof. unfold ordered_elements. by rewrite merge_sort_Permutation. Qed.
End ordered.

(** ** Boolean list predicates: [Iterator::any], [all], [contains] *)

Section booleans.
Context {A : Type}.

Lemma existsb_elem (f : A → bool) l : existsb f l = true ↔ ∃ x, x ∈ l ∧ f x = true.
Proof. rewrite existsb_exists. by setoid_rewrite list_elem_of_In. Qed.

Lemma existsb_not_elem (f : A → bool) l : existsb f l = false ↔ ∀ x, x ∈ l → f x = false.
Proof.
  rewrite <- not_true_iff_false, existsb_elem. split.
  - intros Hn x Hx. apply not_true_is_false. intros Hf. apply Hn. eauto.
  - intros Hf (x & Hx & Ht). by rewrite Hf in Ht.
Qed.

Lemma forallb_elem (f : A → bool) l : forallb f l = true ↔ ∀ x, x ∈ l → f x = true.
Proof. rewrite forallb_forall. by setoid_rewrite list_elem_of_In. Qed.

Lemma find_elem (f : A → bool) l x : List.find f l = Some x → x ∈ l ∧ f x = true.
Proof. intros [? ?]%find_some. by rewrite list_elem_of_In. Qed.

Lemma find_not_elem (f : A → bool) l : List.find f l = None → ∀ x, x ∈ l → f x = false.
Proof. intros Hf x Hx. apply (find_none _ _ Hf). by apply list_elem_of_In. Qed.

Lemma elem_of_filterb (f : A → bool) l x : x ∈ List.filter f l ↔ f x = true ∧ x ∈ l.
Proof. rewrite !list_elem_of_In, filter_In. tauto. Qed.
End booleans.

Lemma elem_of_snoc {A} (l : list A) x y : x ∈ l ++ [y] ↔ x ∈ l ∨ x = y.
Proof. rewrite elem_of_app, list_elem_of_singleton. done. Qed.

Lemma NoDup_snoc {A} (l : list A) x : NoDup l → x ∉ l → NoDup (l ++ [x]).
Proof.
  intros Hl Hx. apply NoDup_app. split_and!; [done| |apply NoDup_singleton].
  intros y Hy ->%list_elem_of_singleton. done.
Qed.

(** ** Decimal text *)

Lemma size_nat_log2 n : (0 < n)%N → N.of_nat (N.size_nat n) = (N.log2 n + 1)%N.
Proof.
  intros Hn. pose proof (N.size_log2 n ltac:(lia)) as Hs. rewrite N.add_1_r, <- Hs.
  destruct n as [|p]; [lia|]. simpl. clear. induction p; simpl; lia.
Qed.

Lemma size_nat_div10 x : (0 < x)%N → S (N.size_nat (x / 10)) ≤ N.size_nat x.
Proof.
  intros Hx. destruct (decide (x / 10 = 0)%N) as [->|Hd].
  { destruct x as [|[]]; simpl; lia. }
  pose proof (size_nat_log2 x Hx). assert (0 < x / 10)%N as Hpos by (by apply N.neq_0_lt_0).
  pose proof (size_nat_log2 (x / 10)%N Hpos).
  assert (N.log2 (x / 10) < N.log2 x)%N; [|lia].
  assert (H2 : (N.log2 (2 * (x / 10)) ≤ N.log2 x)%N)
    by (apply N.log2_le_mono; pose proof (N.mul_div_le x 10); lia).
  rewrite N.log2_double in H2; lia.
Qed.

Lemma length_pretty_N_go x s : String.length (pretty_N_go x s) ≤ N.size_nat x + String.length s.
Proof.
  revert s. induction (N.lt_wf_0 x) as [x _ IH]; intros s.
  destruct (decide (x = 0)%N) as [->|Hx]; [by rewrite pretty_N_go_0|].
  rewrite pretty_N_go_step by lia. etrans; [apply IH; apply N.div_lt; lia|].
  pose proof (size_nat_div10 x). simpl. lia.
Qed.

(** A number of at most 64 bits prints in at most 64 digits. *)
Lemma length_pretty_u64 (n : N) : (n ≤ u64_max)%N → String.length (pretty n) ≤ 64.
Proof.
  intros Hn. unfold pretty, pretty_N. case_decide; [simpl; lia|].
  etrans; [apply length_pretty_N_go|]. simpl. rewrite Nat.add_0_r.
  pose proof (size_nat_log2 n ltac:(lia)) as Hs.
  assert (Hl : (N.log2 n ≤ N.log2 u64_max)%N) by (by apply N.log2_le_mono).
  change (N.log2 u64_max) with 63%N in Hl. lia.
Qed.

(** ** Automation *)

(** Facts about ordered iteration that close side conditions everywhere. *)
Create HintDb fava.
#[export] Hint Resolve NoDup_keys NoDup_ordered_elements entries_sorted NoDup_snoc key_le_refl : fava.
#[export] Hint Extern 1 (_ ∈ _ ++ _) => apply elem_of_app; (left + right); assumption : fava.

(** ** Tactics *)

(** Case analysis on membership in a concrete list. *)
Ltac elem_cases H :=
  lazymatch type of H with
  | _ ∈ [] => by apply not_elem_of_nil in H
  | _ ∈ _ :: _ => apply elem_of_cons in H as [->|H]; [|elem_cases H]
  end.

(** Split every boolean conjunction and disjunction in a hypothesis. *)
Ltac bool_hyp H := rewrite ?andb_true_iff, ?orb_true_iff, ?negb_true_iff,
  ?andb_false_iff, ?orb_false_iff, ?negb_false_iff, ?bool_decide_eq_true, ?bool_decide_eq_false in H.
