(* ===== verification/Nostr.v ===== *)
(** * Nostr data and the operations of the [nostr] crate

    The protocol values every Fava crate passes around, as the [nostr] crate
    defines them, and the interface [Nostr] that stands for the functions of
    that crate Fava calls.  The crate is a dependency, not part of the
    repository, so its functions are fields of a class: every definition that
    uses one is generic in the instance, and a law of the crate that a theorem
    needs is a named hypothesis ([EventIdBinding], ...).  [Module Sample] holds
    one concrete instance, used only to evaluate definitions on examples.

    Representation: event ids and public keys are 256-bit numbers (their
    [Ord] is the big-endian byte order, that is the numeric one), kinds are
    their [u16] value, timestamps their [u64] value, relay URLs their
    normalised text, tags their slice of strings. *)

From S2P Require Import Prelude.

Abbreviation EventId := N (only parsing).
Abbreviation PublicKey := N (only parsing).
Abbreviation Kind := N (only parsing).
Abbreviation Timestamp := N (only parsing).
Abbreviation RelayUrl := string (only parsing).
Abbreviation SingleLetterTag := N (only parsing).
Abbreviation Tag := (list string) (only parsing).

Record Event := mkEvent {
  ev_id : EventId;
  ev_pubkey : PublicKey;
  ev_created_at : Timestamp;
  ev_kind : Kind;
  ev_tags : list Tag;
  ev_content : string;
  ev_sig : N
}.

Record UnsignedEvent := mkUnsigned {
  un_id : option EventId;
  un_pubkey : PublicKey;
  un_created_at : Timestamp;
  un_kind : Kind;
  un_tags : list Tag;
  un_content : string
}.

Record Coordinate := mkCoordinate {
  co_kind : Kind;
  co_public_key : PublicKey;
  co_identifier : string
}.

#[global] Instance Event_eq_dec : EqDecision Event.
Proof. solve_decision. Defined.
#[global] Instance UnsignedEvent_eq_dec : EqDecision UnsignedEvent.
Proof. solve_decision. Defined.
#[global] Instance Coordinate_eq_dec : EqDecision Coordinate.
Proof. solve_decision. Defined.

(** [nostr::filter::Filter]: every field of the NIP-01 filter object. *)
Record Filter := mkFilter {
  fl_ids : option (gset EventId);
  fl_authors : option (gset PublicKey);
  fl_kinds : option (gset Kind);
  fl_search : option string;
  fl_since : option Timestamp;
  fl_until : option Timestamp;
  fl_limit : option nat;
  fl_generic_tags : gmap SingleLetterTag (gset string)
}.

#[global] Instance Filter_eq_dec : EqDecision Filter.
Proof. solve_decision. Defined.

Definition Filter_new : Filter := mkFilter None None None None None None None ∅.

(** [Kind::EventDeletion]. *)
Definition kind_event_deletion : Kind := 5%N.

(** The functions of the [nostr] crate that Fava calls.  A fallible function
    returns [None] for its error, or its error text where Fava keeps it; the
    two [_json_len] fields are the length of the [serde_json] encoding. *)
Class Nostr := {
  kind_is_replaceable : Kind → bool;
  kind_is_addressable : Kind → bool;
  event_id_from_hex : string → option EventId;
  event_id_parse : string → option EventId;
  public_key_parse : string → option PublicKey;
  public_key_to_hex : PublicKey → string;
  relay_url_parse : string → option RelayUrl;
  coordinate_parse : string → option Coordinate;
  event_verify : Event → option string;
  unsigned_verify_id : UnsignedEvent → option string;
  unsigned_ensure_id : UnsignedEvent → UnsignedEvent;
  tags_expiration : list Tag → option Timestamp;
  tag_single_letter : Tag → option SingleLetterTag;
  tag_content : Tag → option string;
  event_id_to_string : EventId → string;
  public_key_debug : PublicKey → string;
  event_id_debug : EventId → string;
  unsigned_json_len : UnsignedEvent → result string nat;
  event_json_len : Event → result string nat
}.

(** NIP-01: the id of a verified event is the hash of its body, so two
    verified events with one id have one body. *)
Definition EventIdBinding `{Nostr} : Prop := ∀ e1 e2 : Event,
  event_verify e1 = None → event_verify e2 = None → ev_id e1 = ev_id e2 →
  ev_pubkey e1 = ev_pubkey e2 ∧ ev_kind e1 = ev_kind e2 ∧
  ev_created_at e1 = ev_created_at e2 ∧ ev_tags e1 = ev_tags e2.

(** ** [str::parse::<u64>] of the standard library *)

Definition digit_value (c : ascii) : option N :=
  let n := N_of_ascii c in
  if bool_decide (48 ≤ n ∧ n ≤ 57)%N then Some (n - 48)%N else None.

Fixpoint parse_digits (acc : N) (s : string) : option N :=
  match s with
  | EmptyString => Some acc
  | String c s =>
      d ← digit_value c;
      let acc' := (acc * 10 + d)%N in
      if bool_decide (acc' ≤ u64_max)%N then parse_digits acc' s else None
  end.

Definition parse_u64 (s : string) : option N :=
  match s with
  | EmptyString => None
  | String "+" EmptyString => None
  | String "+" s => parse_digits 0 s
  | s => parse_digits 0 s
  end.

Example parse_u64_ok : parse_u64 "1700000000" = Some 1700000000%N.
Proof. reflexivity. Qed.
Example parse_u64_overflow : parse_u64 "18446744073709551616" = None.
Proof. reflexivity. Qed.
Example parse_u64_sign : (parse_u64 "+7", parse_u64 "-7", parse_u64 "+", parse_u64 "") = (Some 7%N, None, None, None).
Proof. reflexivity. Qed.

(** ** A concrete instance, for evaluating examples *)
Module Sample.
(** Hexadecimal text with [=]-free lower-case digits. *)
Definition hex_value (c : ascii) : option N :=
  let n := N_of_ascii c in
  if bool_decide (48 ≤ n ∧ n ≤ 57)%N then Some (n - 48)%N
  else if bool_decide (97 ≤ n ∧ n ≤ 102)%N then Some (n - 87)%N
  else None.

Fixpoint hex_number (acc : N) (s : string) : option N :=
  match s with
  | EmptyString => Some acc
  | String c s => d ← hex_value c; hex_number (acc * 16 + d)%N s
  end.

Definition is_replaceable (k : N) : bool :=
  bool_decide (k = 0 ∨ k = 3 ∨ (10000 ≤ k ∧ k < 20000))%N.
Definition is_addressable (k : N) : bool := bool_decide (30000 ≤ k ∧ k < 40000)%N.

(** [kind:hexkey:identifier] with one-digit fields is enough for examples. *)
Definition coordinate (s : string) : option Coordinate :=
  match s with
  | String k1 (String ":" (String a (String ":" d))) =>
      k ← digit_value k1; p ← hex_value a; Some (mkCoordinate (k * 10000) p d)
  | _ => None
  end.

Definition expiration (tags : list Tag) : option N :=
  match List.find (λ t, match t with "expiration"%string :: _ => true | _ => false end) tags with
  | Some (_ :: v :: _) => parse_u64 v
  | _ => None
  end.

Definition single_letter (t : Tag) : option N :=
  match t with
  | String c EmptyString :: _ => Some (N_of_ascii c)
  | _ => None
  end.

#[global] Instance sample_nostr : Nostr := {
  kind_is_replaceable := is_replaceable;
  kind_is_addressable := is_addressable;
  event_id_from_hex := hex_number 0;
  event_id_parse := hex_number 0;
  public_key_parse := hex_number 0;
  public_key_to_hex := λ p, pretty p;
  relay_url_parse := λ s, if bool_decide (s = ""%string) then None else Some s;
  coordinate_parse := coordinate;
  event_verify := λ e,
    if bool_decide (ev_sig e = ev_id e) then None else Some "invalid signature"%string;
  unsigned_verify_id := λ e,
    match un_id e with Some _ => None | None => Some "missing id"%string end;
  unsigned_ensure_id := λ e,
    match un_id e with
    | Some _ => e
    | None => mkUnsigned (Some (un_created_at e)) (un_pubkey e) (un_created_at e)
                (un_kind e) (un_tags e) (un_content e)
    end;
  tags_expiration := expiration;
  tag_single_letter := single_letter;
  tag_content := λ t, t !! 1;
  event_id_to_string := λ i, pretty i;
  public_key_debug := λ p, pretty p;
  event_id_debug := λ i, pretty i;
  unsigned_json_len := λ e, Ok (200 + String.length (un_content e));
  event_json_len := λ e, Ok (330 + String.length (ev_content e))
}.

(** An instance whose ids are an injective code of the signed body, so that
    it satisfies [EventIdBinding]; only the id check is computed. *)
Definition body_id (pubkey created_at kind : N) (tags : list Tag) : EventId :=
  N.pos (encode (pubkey, created_at, kind, tags)).

Definition hashed_nostr : Nostr := {|
  kind_is_replaceable := is_replaceable;
  kind_is_addressable := is_addressable;
  event_id_from_hex := hex_number 0;
  event_id_parse := hex_number 0;
  public_key_parse := hex_number 0;
  public_key_to_hex := λ p, pretty p;
  relay_url_parse := λ s, if bool_decide (s = ""%string) then None else Some s;
  coordinate_parse := coordinate;
  event_verify := λ e,
    if bool_decide (ev_id e = body_id (ev_pubkey e) (ev_created_at e) (ev_kind e) (ev_tags e))
    then None else Some "invalid event id"%string;
  unsigned_verify_id := λ _, None;
  unsigned_ensure_id := λ e,
    mkUnsigned (Some (body_id (un_pubkey e) (un_created_at e) (un_kind e) (un_tags e)))
      (un_pubkey e) (un_created_at e) (un_kind e) (un_tags e) (un_content e);
  tags_expiration := expiration;
  tag_single_letter := single_letter;
  tag_content := λ t, t !! 1;
  event_id_to_string := λ i, pretty i;
  public_key_debug := λ p, pretty p;
  event_id_debug := λ i, pretty i;
  unsigned_json_len := λ e, Ok (200 + String.length (un_content e));
  event_json_len := λ e, Ok (330 + String.length (ev_content e))
|}.

Definition sealed (pubkey created_at kind : N) (tags : list Tag) : Event :=
  mkEvent (body_id pubkey created_at kind tags) pubkey created_at kind tags ""%string 0.

Lemma hashed_binding : @EventIdBinding hashed_nostr.
Proof.
  intros e1 e2. simpl.
  case_bool_decide as E1; [|done]. case_bool_decide as E2; [|done]. intros _ _ Hid.
  rewrite E1, E2 in Hid. unfold body_id in Hid. injection Hid as Hid.
  apply (inj encode) in Hid. by injection Hid as -> -> -> ->.
Qed.
End Sample.
