(* ===== verification/Relay.v ===== *)
(** * Relay identity, authority and bounded text ([crates/fava-relay])

    [BoundedText] keeps relay-supplied text under a byte bound without cutting
    a UTF-8 character; [Authority] is what work requires of a connection and
    [Authentication] what a connection has proved; [can_serve] decides whether
    the two fit. *)

From S2P Require Import Prelude Nostr.

(** ** UTF-8 byte boundaries: [str::is_char_boundary] *)

(** A continuation byte is [10xxxxxx]. *)
Definition is_continuation (c : ascii) : bool :=
  let n := N_of_ascii c in bool_decide (128 ≤ n ∧ n < 192)%N.

Definition is_char_boundary (text : string) (i : nat) : bool :=
  if bool_decide (i = 0) then true
  else match String.get i text with
       | Some c => negb (is_continuation c)
       | None => bool_decide (i = String.length text)
       end.

(** ** [BoundedText] *)

Definition MAX_BYTES : nat := 512.

Record BoundedText := mkBoundedText {
  bt_text : string;
  bt_truncated_bytes : nat
}.

#[global] Instance BoundedText_eq_dec : EqDecision BoundedText.
Proof. solve_decision. Defined.

(** [while end > 0 && !text.is_char_boundary(end) { end -= 1; }] *)
Fixpoint boundary_at_most (text : string) (e : nat) : nat :=
  match e with
  | 0 => 0
  | S e' => if is_char_boundary text e then e else boundary_at_most text e'
  end.

Definition BoundedText_new (text : string) : BoundedText :=
  let e := boundary_at_most text (String.length text `min` MAX_BYTES) in
  {| bt_text := String.substring 0 e text;
     bt_truncated_bytes := String.length text - e |}.

(** Well-formed UTF-8 never has four continuation bytes in a row: every
    window of four positions holds a character boundary. *)
Definition utf8_window (text : string) : Prop :=
  ∀ i, i + 3 ≤ String.length text →
    ∃ j, i ≤ j ≤ i + 3 ∧ is_char_boundary text j = true.

(** ** Authority and authentication *)

Inductive Authority := Unauthenticated | As (account : PublicKey).

#[global] Instance Authority_eq_dec : EqDecision Authority.
Proof. solve_decision. Defined.

Inductive Progress :=
| Idle
| Requested (challenge : string)
| Answering (as_of : PublicKey)
| Declined
| AuthRefused (reason : BoundedText)
| Unanswerable (reason : BoundedText).

Record Authentication := mkAuthentication {
  established : option PublicKey;
  progress : Progress
}.

Definition unoffered : Authentication := mkAuthentication None Idle.

Definition can_serve (a : Authentication) (authority : Authority) : bool :=
  match authority, established a with
  | Unauthenticated, est => bool_decide (est = None)
  | As want, Some est => bool_decide (est = want)
  | As want, None =>
      negb (match progress a with
            | Answering as_of => bool_decide (as_of ≠ want)
            | _ => false
            end)
  end.

(** ** Lemmas *)

Lemma boundary_at_most_le text e : boundary_at_most text e ≤ e.
Proof. induction e as [|e IH]; simpl; [done|]. case_match; lia. Qed.

Lemma boundary_at_most_boundary text e :
  is_char_boundary text (boundary_at_most text e) = true.
Proof.
  induction e as [|e IH]; cbn [boundary_at_most]; [done|].
  destruct (is_char_boundary text (S e)) eqn:Hb; done.
Qed.

Lemma boundary_at_most_greatest text e j :
  j ≤ e → is_char_boundary text j = true → j ≤ boundary_at_most text e.
Proof.
  induction e as [|e IH]; cbn [boundary_at_most]; [lia|].
  intros Hj Hb. destruct (is_char_boundary text (S e)) eqn:Hs; [done|].
  destruct (decide (j = S e)) as [->|]; [congruence|]. apply IH; [lia|done].
Qed.

Lemma get_length text : String.get (String.length text) text = None.
Proof. by induction text. Qed.

Lemma is_char_boundary_length text : is_char_boundary text (String.length text) = true.
Proof.
  unfold is_char_boundary. case_bool_decide; [done|].
  by rewrite get_length, bool_decide_eq_true_2.
Qed.

Lemma length_substring_prefix text e :
  e ≤ String.length text → String.length (String.substring 0 e text) = e.
Proof.
  revert e. induction text as [|c text IH]; intros [|e]; simpl; try lia.
  intros He. rewrite IH; lia.
Qed.

Lemma string_length_app (a b : string) :
  String.length (a +:+ b) = String.length a + String.length b.
Proof. induction a as [|c a IH]; [done|]. cbn. by rewrite <- IH. Qed.

Lemma substring_prefix_app text e :
  e ≤ String.length text →
  ∃ dropped, text = (String.substring 0 e text +:+ dropped)%string.
Proof.
  revert e. induction text as [|c text IH]; intros [|e]; simpl; try lia; intros He.
  - by exists ""%string.
  - by exists (String c text).
  - destruct (IH e) as [d Hd]; [lia|]. exists d.
    change (String c text = String c (String.substring 0 e text +:+ d)). congruence.
Qed.

Lemma substring_all text : String.substring 0 (String.length text) text = text.
Proof. induction text as [|c text IH]; simpl; [done|]. by rewrite IH. Qed.

(** ** Properties *)

(** [BoundedText::new] keeps a prefix of the text that is at most 512
    bytes long, ends on a character boundary and accounts for every byte it
    drops; text within the bound is kept whole; and well-formed UTF-8 loses
    fewer than four bytes to the boundary search. *)
Theorem bounded_text_new_exact (text : string) (Hutf8 : utf8_window text) :
  let b := BoundedText_new text in
  String.length (bt_text b) ≤ MAX_BYTES ∧
  (∃ dropped, text = (bt_text b +:+ dropped)%string ∧
              String.length dropped = bt_truncated_bytes b) ∧
  is_char_boundary text (String.length (bt_text b)) = true ∧
  (String.length text ≤ MAX_BYTES → b = mkBoundedText text 0) ∧
  (MAX_BYTES < String.length text → MAX_BYTES - 3 ≤ String.length (bt_text b)).
Proof.
  unfold BoundedText_new; cbn [bt_text bt_truncated_bytes].
  set (e := boundary_at_most text (String.length text `min` MAX_BYTES)).
  assert (He : e ≤ String.length text `min` MAX_BYTES) by apply boundary_at_most_le.
  rewrite length_substring_prefix by lia.
  split_and!.
  - lia.
  - destruct (substring_prefix_app text e) as [d Hd]; [lia|]. exists d. split; [done|].
    apply (f_equal String.length) in Hd. rewrite string_length_app, length_substring_prefix in Hd; lia.
  - apply boundary_at_most_boundary.
  - intros Hshort. assert (e = String.length text) as ->.
    { apply Nat.le_antisymm; [lia|]. apply boundary_at_most_greatest; [lia|].
      apply is_char_boundary_length. }
    by rewrite substring_all, Nat.sub_diag.
  - intros Hlong. destruct (Hutf8 (MAX_BYTES - 3)) as (j & Hj & Hb); [unfold MAX_BYTES in *; lia|].
    enough (j ≤ e) by lia. apply boundary_at_most_greatest; [unfold MAX_BYTES in *; lia|done].
Qed.

(** A text of ASCII bytes has a boundary everywhere. *)
Lemma bounded_text_new_exact_witness :
  bt_truncated_bytes (BoundedText_new "auth-required: sign in") = 0.
Proof.
  assert (H : utf8_window "auth-required: sign in").
  { intros i Hi. exists i. split; [lia|].
    do 20 (destruct i as [|i]; [reflexivity|]). simpl in Hi. lia. }
  destruct (bounded_text_new_exact _ H) as (_ & _ & _ & Hshort & _).
  rewrite Hshort; [reflexivity|unfold MAX_BYTES; simpl; lia].
Defined.
