(* ===== verification/State.v ===== *)
(** * Universal event state ([crates/fava-state])

    Pure values and decisions: relay occurrences, event coordinates, the
    winner order, NIP-09 deletion, NIP-40 expiration, and the ordered mutation
    batches an incoming event or a sweep produces. *)

From S2P Require Import Prelude Nostr Relay.

Record RelayOccurrence := mkOccurrence {
  oc_session : RelayUrl;
  oc_authority : Authority;
  oc_observed_at : Timestamp
}.

Record RelayOccurrences := mkOccurrences {
  ocs_event_id : EventId;
  ocs_occurrences : gmap RelayUrl RelayOccurrence
}.

Record RelayEvent := mkRelayEvent {
  re_event : Event;
  re_occurrence : RelayOccurrence
}.

#[global] Instance RelayOccurrence_eq_dec : EqDecision RelayOccurrence.
Proof. solve_decision. Defined.
#[global] Instance RelayOccurrences_eq_dec : EqDecision RelayOccurrences.
Proof. solve_decision. Defined.
#[global] Instance RelayEvent_eq_dec : EqDecision RelayEvent.
Proof. solve_decision. Defined.

Definition RelayEvent_new (event : Event) (session : RelayUrl) (authority : Authority)
    (observed_at : Timestamp) : RelayEvent :=
  mkRelayEvent event (mkOccurrence session authority observed_at).

Abbreviation re_id r := (ev_id (re_event r)).
Abbreviation re_session r := (oc_session (re_occurrence r)).
Abbreviation re_observed_at r := (oc_observed_at (re_occurrence r)).

(** ** Aggregating occurrences *)

(** [and_modify(..).or_insert_with(..)] of one contribution. *)
Definition merge_occurrence (acc : gmap RelayUrl RelayOccurrence) (incoming : RelayOccurrence)
    : gmap RelayUrl RelayOccurrence :=
  match acc !! oc_session incoming with
  | Some current =>
      if bool_decide (oc_observed_at incoming < oc_observed_at current)%N
      then <[oc_session incoming :=
              mkOccurrence (oc_session current) (oc_authority current) (oc_observed_at incoming)]> acc
      else acc
  | None => <[oc_session incoming := incoming]> acc
  end.

Definition relay_occurrences_for_event (event_id : EventId) (contributions : list RelayEvent)
    : option RelayOccurrences :=
  if existsb (λ c, bool_decide (re_id c ≠ event_id)) contributions then None
  else Some (mkOccurrences event_id
               (foldl merge_occurrence ∅ (re_occurrence <$> contributions))).

(** ** Coordinates *)

Inductive EventCoordinate :=
| CoordEvent (id : EventId)
| CoordReplaceable (author : PublicKey) (kind : Kind) (identifier : option string).

#[global] Instance EventCoordinate_eq_dec : EqDecision EventCoordinate.
Proof. solve_decision. Defined.

(** Variant index first, then the fields: the derived [Ord]. *)
Definition coordinate_code (c : EventCoordinate) : N * (N * (N * option string)) :=
  match c with
  | CoordEvent id => (0, (id, (0, None)))
  | CoordReplaceable author kind identifier => (1, (author, (kind, identifier)))
  end%N.

Lemma coordinate_code_inj c1 c2 : coordinate_code c1 = coordinate_code c2 → c1 = c2.
Proof. destruct c1, c2; simpl; congruence. Qed.

#[global] Instance coordinate_code_Inj : Inj (=) (=) coordinate_code := coordinate_code_inj.
#[global] Instance EventCoordinate_countable : Countable EventCoordinate :=
  inj_countable' coordinate_code
    (λ '(t, (a, (k, i))), if bool_decide (t = 0%N) then CoordEvent a else CoordReplaceable a k i)
    ltac:(by intros []).
#[global] Instance EventCoordinate_key_order : KeyOrder EventCoordinate :=
  inj_key_order coordinate_code coordinate_code_inj.

Definition addressable_range (kind : Kind) : bool :=
  bool_decide (30000 ≤ kind ∧ kind < 40000)%N.

(** [values.first().map(String::as_str) == Some(name)]. *)
Definition tag_named (name : string) (tag : Tag) : bool :=
  bool_decide (head tag = Some name).

(** [tags.iter().find_map(..).unwrap_or_default()]: the first [d] tag's value. *)
Definition d_identifier (tags : list Tag) : string :=
  match List.find (tag_named "d") tags with
  | Some tag => default ""%string (tag !! 1)
  | None => ""%string
  end.

Section state.
Context `{Nostr}.

Definition event_coordinate (id : EventId) (author : PublicKey) (kind : Kind) (tags : list Tag)
    : EventCoordinate :=
  if addressable_range kind then CoordReplaceable author kind (Some (d_identifier tags))
  else if kind_is_replaceable kind then CoordReplaceable author kind None
  else CoordEvent id.

Definition coordinate_of (e : Event) : EventCoordinate :=
  event_coordinate (ev_id e) (ev_pubkey e) (ev_kind e) (ev_tags e).

Definition event_is_newer (candidate current : Timestamp * EventId) : bool :=
  bool_decide (current.1 < candidate.1)%N ||
  (bool_decide (candidate.1 = current.1) && bool_decide (candidate.2 < current.2)%N).

(** ** NIP-09 deletion *)

Definition names_event (target_id : EventId) (tag : Tag) : bool :=
  tag_named "e" tag && bool_decide ((tag !! 1 ≫= event_id_from_hex) = Some target_id).

Definition names_coordinate (target : EventCoordinate) (tag : Tag) : bool :=
  tag_named "a" tag &&
  match tag !! 1 ≫= coordinate_parse with
  | Some c =>
      bool_decide (target =
        CoordReplaceable (co_public_key c) (co_kind c)
          (if addressable_range (co_kind c) then Some (co_identifier c) else None))
  | None => false
  end.

Definition deletion_applies (deletion : PublicKey * Kind * Timestamp * list Tag)
    (target : EventId * PublicKey * Kind * Timestamp * list Tag) : bool :=
  let '(deletion_author, deletion_kind, deletion_at, deletion_tags) := deletion in
  let '(target_id, target_author, target_kind, target_at, target_tags) := target in
  if bool_decide (deletion_kind ≠ kind_event_deletion)
     || bool_decide (target_kind = kind_event_deletion)
     || bool_decide (deletion_author ≠ target_author) then false
  else if existsb (names_event target_id) deletion_tags then true
  else if bool_decide (deletion_at < target_at)%N then false
  else existsb (names_coordinate (event_coordinate target_id target_author target_kind target_tags))
         deletion_tags.

Definition event_tuple (e : Event) : PublicKey * Kind * Timestamp * list Tag :=
  (ev_pubkey e, ev_kind e, ev_created_at e, ev_tags e).
Definition target_tuple (e : Event) : EventId * PublicKey * Kind * Timestamp * list Tag :=
  (ev_id e, ev_pubkey e, ev_kind e, ev_created_at e, ev_tags e).

(** [d] is an authorized deletion of [t]. *)
Definition deletes (d t : Event) : bool := deletion_applies (event_tuple d) (target_tuple t).

(** ** NIP-40 expiration *)

Definition event_is_expired (tags : list Tag) (now : Timestamp) : bool :=
  existsb (λ tag, tag_named "expiration" tag &&
             match tag !! 1 ≫= parse_u64 with
             | Some expiry => bool_decide (expiry ≤ now)%N
             | None => false
             end) tags.

(** ** Mutations *)

Inductive RetractionCause :=
| Deleted (deletion : EventId)
| Superseded (by_ : EventId)
| Expired
| Evicted.

#[global] Instance RetractionCause_eq_dec : EqDecision RetractionCause.
Proof. solve_decision. Defined.

Inductive EventStateMutation :=
| Upsert (e : RelayEvent)
| Retract (event_id : EventId) (session : RelayUrl) (cause : RetractionCause).

#[global] Instance EventStateMutation_eq_dec : EqDecision EventStateMutation.
Proof. solve_decision. Defined.

Definition retract_of (cause : RetractionCause) (known : RelayEvent) : EventStateMutation :=
  Retract (re_id known) (re_session known) cause.

Definition stamp (e : Event) : Timestamp * EventId := (ev_created_at e, ev_id e).

Definition mutations_for_event (current : list RelayEvent) (incoming : RelayEvent)
    (now : Timestamp) : list EventStateMutation :=
  let incoming_event := re_event incoming in
  if event_is_expired (ev_tags incoming_event) now
     || existsb (λ known, deletes (re_event known) incoming_event) current
  then []
  else if bool_decide (ev_kind incoming_event = kind_event_deletion) then
    (retract_of (Deleted (ev_id incoming_event)) <$>
       List.filter (λ known, deletes incoming_event (re_event known)) current)
    ++ [Upsert incoming]
  else
    let incoming_session := re_session incoming in
    let coordinate := coordinate_of incoming_event in
    match List.find (λ known, bool_decide (re_id known = ev_id incoming_event) &&
                       bool_decide (re_session known = incoming_session)) current with
    | Some existing =>
        if bool_decide (re_observed_at incoming < re_observed_at existing)%N
        then [Upsert incoming] else []
    | None =>
        match coordinate with
        | CoordReplaceable _ _ _ =>
            let same_session :=
              List.filter (λ known, bool_decide (re_session known = incoming_session) &&
                             bool_decide (coordinate_of (re_event known) = coordinate)) current in
            if existsb (λ known, negb (event_is_newer (stamp incoming_event) (stamp (re_event known))))
                 same_session
            then []
            else
              (retract_of (Superseded (ev_id incoming_event)) <$>
                 List.filter (λ known, bool_decide (re_id known ≠ ev_id incoming_event)) same_session)
              ++ [Upsert incoming]
        | CoordEvent _ => [Upsert incoming]
        end
    end.

Definition mutations_for_expiration (current : list RelayEvent) (now : Timestamp)
    : list EventStateMutation :=
  retract_of Expired <$> List.filter (λ known, event_is_expired (ev_tags (re_event known)) now) current.

End state.

(** ** Lemmas *)

Section state_lemmas.
Context `{Nostr}.

(** *** The winner order *)

Definition newer (p q : Timestamp * EventId) : Prop :=
  (q.1 < p.1)%N ∨ (p.1 = q.1 ∧ (p.2 < q.2)%N).

Lemma event_is_newer_spec p q : event_is_newer p q = true ↔ newer p q.
Proof.
  unfold event_is_newer, newer.
  rewrite orb_true_iff, andb_true_iff, !bool_decide_eq_true. done.
Qed.

Lemma event_is_newer_false p q : event_is_newer p q = false ↔ ¬ newer p q.
Proof. rewrite <- event_is_newer_spec. destruct (event_is_newer p q); naive_solver. Qed.

#[global] Instance newer_dec : RelDecision newer.
Proof. intros p q. unfold newer. apply _. Defined.

#[global] Instance newer_strict : StrictOrder newer.
Proof.
  split.
  - intros [t i]. unfold newer, complement; simpl. lia.
  - intros [t1 i1] [t2 i2] [t3 i3]. unfold newer; simpl. lia.
Qed.

Lemma newer_total p q : newer p q ∨ p = q ∨ newer q p.
Proof.
  destruct p as [t1 i1], q as [t2 i2]. unfold newer; simpl.
  destruct (N.lt_total t1 t2) as [|[->|]]; [lia| |lia].
  destruct (N.lt_total i1 i2) as [|[->|]]; auto with lia.
Qed.

(** *** Deletion *)

Lemma deletes_kind d t : deletes d t = true →
  ev_kind d = kind_event_deletion ∧ ev_kind t ≠ kind_event_deletion ∧ ev_pubkey d = ev_pubkey t.
Proof.
  unfold deletes, deletion_applies, event_tuple, target_tuple.
  destruct (_ || _) eqn:E; [done|]. intros _.
  rewrite !orb_false_iff, !bool_decide_eq_false in E.
  destruct E as [[E1 E2] E3]. split_and!; [by apply dec_stable|done|by apply dec_stable].
Qed.

Lemma deletes_not_deletion d t :
  ev_kind d ≠ kind_event_deletion → deletes d t = false.
Proof.
  intros Hk. apply not_true_is_false. intros Hd. by apply deletes_kind in Hd as [? _].
Qed.

Lemma deletes_deletion_target d t :
  ev_kind t = kind_event_deletion → deletes d t = false.
Proof.
  intros Hk. apply not_true_is_false. intros Hd. by apply deletes_kind in Hd as (_ & ? & _).
Qed.

(** *** The four outcomes of an admission decision *)

Abbreviation same_contribution k r := (re_id k = re_id r ∧ re_session k = re_session r).

Inductive admission (current : list RelayEvent) (incoming : RelayEvent) (now : Timestamp)
    : list EventStateMutation → Prop :=
| admission_refused : admission current incoming now []
| admission_deletion :
    ev_kind (re_event incoming) = kind_event_deletion →
    event_is_expired (ev_tags (re_event incoming)) now = false →
    admission current incoming now
      ((retract_of (Deleted (re_id incoming)) <$>
          List.filter (λ k, deletes (re_event incoming) (re_event k)) current) ++ [Upsert incoming])
| admission_earlier existing :
    ev_kind (re_event incoming) ≠ kind_event_deletion →
    event_is_expired (ev_tags (re_event incoming)) now = false →
    (∀ k, k ∈ current → deletes (re_event k) (re_event incoming) = false) →
    existing ∈ current → same_contribution existing incoming →
    (re_observed_at incoming < re_observed_at existing)%N →
    admission current incoming now [Upsert incoming]
| admission_new victims :
    ev_kind (re_event incoming) ≠ kind_event_deletion →
    event_is_expired (ev_tags (re_event incoming)) now = false →
    (∀ k, k ∈ current → deletes (re_event k) (re_event incoming) = false) →
    (∀ k, k ∈ current → ¬ same_contribution k incoming) →
    (∀ v, v ∈ victims → v ∈ current ∧ re_session v = re_session incoming ∧
       coordinate_of (re_event v) = coordinate_of (re_event incoming) ∧
       newer (stamp (re_event incoming)) (stamp (re_event v))) →
    (∀ k, k ∈ current → re_session k = re_session incoming →
       coordinate_of (re_event k) = coordinate_of (re_event incoming) →
       k ∈ victims ∨ coordinate_of (re_event incoming) = CoordEvent (re_id incoming)) →
    admission current incoming now
      ((retract_of (Superseded (re_id incoming)) <$> victims) ++ [Upsert incoming]).

Lemma coordinate_of_event e id : coordinate_of e = CoordEvent id → id = ev_id e.
Proof. unfold coordinate_of, event_coordinate. repeat case_match; congruence. Qed.

Lemma find_same_contribution_None current incoming :
  List.find (λ known, bool_decide (re_id known = ev_id (re_event incoming)) &&
               bool_decide (re_session known = re_session incoming)) current = None →
  ∀ k, k ∈ current → ¬ same_contribution k incoming.
Proof.
  intros Hf k Hk [Hid Hs]. apply (find_not_elem _ _ Hf) in Hk.
  by rewrite Hid, Hs, !bool_decide_eq_true_2 in Hk.
Qed.

Lemma mutations_for_event_admission current incoming now :
  admission current incoming now (mutations_for_event current incoming now).
Proof.
  unfold mutations_for_event.
  destruct (_ || _) eqn:Hguard; [constructor|].
  apply orb_false_iff in Hguard as [Hexp Hdel].
  rewrite existsb_not_elem in Hdel. rename Hdel into Hnodel.
  case_bool_decide as Hkind; [by constructor|].
  destruct (List.find _ current) as [existing|] eqn:Hfind.
  - apply find_elem in Hfind as [Hin Hsame].
    rewrite andb_true_iff, !bool_decide_eq_true in Hsame.
    case_bool_decide; [by eapply admission_earlier|constructor].
  - pose proof (find_same_contribution_None _ _ Hfind) as Hfresh.
    destruct (coordinate_of (re_event incoming)) as [id|a k i] eqn:Hcoord.
    + rewrite (coordinate_of_event _ _ Hcoord) in Hcoord.
      apply (admission_new current incoming now []); try done.
      * by intros v Hv%elem_of_nil.
      * by right.
    + destruct (existsb _ _) eqn:Hnewer; [constructor|].
      rewrite existsb_not_elem in Hnewer.
      apply admission_new; try done.
      * intros v. rewrite !elem_of_filterb, andb_true_iff, !bool_decide_eq_true.
        intros (_ & [Hs Hc] & Hv). split_and!; try done; [congruence|].
        apply event_is_newer_spec, negb_false_iff, Hnewer.
        rewrite elem_of_filterb, andb_true_iff, !bool_decide_eq_true. done.
      * intros v Hv Hs Hc. left.
        rewrite !elem_of_filterb, andb_true_iff, !bool_decide_eq_true.
        split; [|split; [split; [done|congruence]|done]].
        intros Hid. by apply (Hfresh v).
Qed.

End state_lemmas.

(** ** Properties *)

Section occurrences.

(** What one contribution does to the entry of its own session. *)
Definition keep_earliest (o : option RelayOccurrence) (incoming : RelayOccurrence)
    : option RelayOccurrence :=
  match o with
  | None => Some incoming
  | Some current =>
      Some (mkOccurrence (oc_session current) (oc_authority current)
              (N.min (oc_observed_at current) (oc_observed_at incoming)))
  end.

Lemma lookup_merge_occurrence acc o s :
  merge_occurrence acc o !! s =
  if bool_decide (oc_session o = s) then keep_earliest (acc !! s) o else acc !! s.
Proof.
  unfold merge_occurrence. case_bool_decide as Hs; subst.
  - destruct (acc !! oc_session o) as [[s' a t]|] eqn:Hl; simpl.
    + case_bool_decide.
      * rewrite lookup_insert_eq. do 2 f_equal. lia.
      * rewrite Hl. do 2 f_equal. lia.
    + by rewrite lookup_insert_eq.
  - destruct (acc !! oc_session o); [case_bool_decide|]; by rewrite ?lookup_insert_ne.
Qed.

Definition of_session (s : RelayUrl) (l : list RelayOccurrence) : list RelayOccurrence :=
  List.filter (λ o, bool_decide (oc_session o = s)) l.

Lemma lookup_merge_occurrences acc l s :
  foldl merge_occurrence acc l !! s = foldl keep_earliest (acc !! s) (of_session s l).
Proof.
  revert acc. induction l as [|o l IH]; intros acc; simpl; [done|].
  rewrite IH, lookup_merge_occurrence. by case_bool_decide.
Qed.

Lemma keep_earliest_fold current l :
  foldl keep_earliest (Some current) l =
  Some (mkOccurrence (oc_session current) (oc_authority current)
          (foldl N.min (oc_observed_at current) (oc_observed_at <$> l))).
Proof.
  revert current. induction l as [|o l IH]; intros current; simpl; [by destruct current|].
  by rewrite IH.
Qed.

Lemma size_merge_occurrences acc l : size (foldl merge_occurrence acc l) ≤ size acc + length l.
Proof.
  revert acc. induction l as [|o l IH]; intros acc; simpl; [lia|].
  rewrite IH. enough (size (merge_occurrence acc o) ≤ S (size acc)) by lia.
  unfold merge_occurrence. destruct (acc !! oc_session o) eqn:Hl; [case_bool_decide|].
  - rewrite map_size_insert_Some by done. lia.
  - lia.
  - rewrite map_size_insert_None by done. lia.
Qed.

(** [relay_occurrences_for_event] refuses exactly the slices that mix
    event ids; otherwise it reports one occurrence per session that delivered
    the event, under the authority of that session's first contribution and
    with the earliest observation time of the session, and never more
    occurrences than contributions. *)
Theorem relay_occurrences_exact (event_id : EventId) (cs : list RelayEvent) :
  match relay_occurrences_for_event event_id cs with
  | None => ∃ c, c ∈ cs ∧ re_id c ≠ event_id
  | Some occs =>
      (∀ c, c ∈ cs → re_id c = event_id) ∧
      ocs_event_id occs = event_id ∧
      size (ocs_occurrences occs) ≤ length cs ∧
      ∀ s, ocs_occurrences occs !! s =
        match of_session s (re_occurrence <$> cs) with
        | [] => None
        | first :: rest =>
            Some (mkOccurrence s (oc_authority first)
                    (foldl N.min (oc_observed_at first) (oc_observed_at <$> rest)))
        end
  end.
Proof.
  unfold relay_occurrences_for_event. destruct (existsb _ _) eqn:Hex.
  - apply existsb_elem in Hex as (c & Hc & Hid). rewrite bool_decide_eq_true in Hid. eauto.
  - rewrite existsb_not_elem in Hex. simpl. split_and!; [|done| |].
    + intros c Hc. specialize (Hex c Hc). rewrite bool_decide_eq_false in Hex.
      by apply dec_stable.
    + rewrite size_merge_occurrences, map_size_empty, length_fmap. done.
    + intros s. rewrite lookup_merge_occurrences, lookup_empty.
      destruct (of_session s _) as [|first rest] eqn:Hs; [done|]. simpl.
      rewrite keep_earliest_fold.
      assert (Hf : first ∈ of_session s (re_occurrence <$> cs)) by (rewrite Hs; left).
      unfold of_session in Hf. rewrite elem_of_filterb, bool_decide_eq_true in Hf.
      by destruct Hf as [-> _].
Qed.

End occurrences.

Section state_properties.
Context `{Nostr}.

(** [event_is_newer] is a strict total order on [(created_at, id)]: it is
    irreflexive, transitive, and decides every pair of distinct candidates, so
    a coordinate always has exactly one winner. *)
Theorem event_is_newer_strict_total (p q r : Timestamp * EventId) :
  event_is_newer p p = false ∧
  (event_is_newer p q = true → event_is_newer q r = true → event_is_newer p r = true) ∧
  (p ≠ q → event_is_newer p q = negb (event_is_newer q p)).
Proof.
  rewrite event_is_newer_false, !event_is_newer_spec. split_and!.
  - apply irreflexivity, _.
  - apply transitivity.
  - intros Hne. destruct (event_is_newer q p) eqn:Hqp; simpl.
    + apply event_is_newer_spec in Hqp. apply event_is_newer_false. intros Hpq.
      apply (irreflexivity newer p). by etrans.
    + apply event_is_newer_false in Hqp. apply event_is_newer_spec.
      by destruct (newer_total p q) as [|[?|]].
Qed.

Lemma deletion_applies_guard (author : PublicKey) kind at_ tags target :
  deletion_applies (author, kind, at_, tags) target =
  let '(target_id, target_author, target_kind, target_at, target_tags) := target in
  bool_decide (kind = kind_event_deletion ∧ target_kind ≠ kind_event_deletion ∧
               author = target_author) &&
  existsb (λ tag, names_event target_id tag ||
             (bool_decide (target_at ≤ at_)%N &&
              names_coordinate (event_coordinate target_id target_author target_kind target_tags) tag))
    tags.
Proof.
  destruct target as [[[[id ta] tk] tat] tt]. unfold deletion_applies.
  destruct (_ || _) eqn:E.
  - rewrite bool_decide_eq_false_2; [done|]. intros (-> & ? & ->).
    rewrite !orb_true_iff, !bool_decide_eq_true in E. naive_solver.
  - rewrite !orb_false_iff, !bool_decide_eq_false in E. destruct E as [[E1 E2] E3].
    apply dec_stable in E1, E3.
    rewrite (bool_decide_eq_true_2 (kind = _ ∧ _)) by (split_and!; done). simpl.
    induction tags as [|tag tags IH]; simpl; [by destruct (bool_decide _)|].
    destruct (names_event id tag); simpl; [done|]. rewrite <- IH.
    destruct (existsb (names_event id) tags); [by rewrite orb_true_r|].
    repeat case_bool_decide; simpl; done || lia.
Qed.

(** A deletion's tags act independently: a kind-5 event deletes a target
    exactly when one of its tags alone would.  Malformed, short, repeated or
    unknown sibling tags neither hide a valid target nor add one. *)
Theorem deletion_tags_independent (author : PublicKey) (kind : Kind) (at_ : Timestamp)
    (tags : list Tag) (target : EventId * PublicKey * Kind * Timestamp * list Tag) :
  deletion_applies (author, kind, at_, tags) target =
  existsb (λ tag, deletion_applies (author, kind, at_, [tag]) target) tags.
Proof.
  rewrite deletion_applies_guard. destruct target as [[[[id ta] tk] tat] tt].
  induction tags as [|tag tags IH]; cbn [existsb]; [by rewrite andb_false_r|].
  rewrite andb_orb_distrib_r, IH, (deletion_applies_guard _ _ _ [tag]). simpl.
  by rewrite orb_false_r.
Qed.

End state_properties.
