(* ===== verification/Write.v ===== *)
(** * Write vocabulary ([crates/fava-write])

    Event values, edits, routing modes, write intents and the receipt types
    that write owners and queries share. *)

From S2P Require Import Prelude Nostr Relay State.

Definition MAX_EVENT_BYTES : nat := Pos.to_nat 131072.
Definition MAX_EXPLICIT_RELAYS : nat := 256.
Definition MAX_RAW_EXPLICIT_RELAYS : nat := 1024.

(** ** Event values *)

Inductive EventValue :=
| Unsigned (e : UnsignedEvent)
| Signed (e : Event).

#[global] Instance EventValue_eq_dec : EqDecision EventValue.
Proof. solve_decision. Defined.

Definition value_id (v : EventValue) : option EventId :=
  match v with Unsigned e => un_id e | Signed e => Some (ev_id e) end.
Definition value_author (v : EventValue) : PublicKey :=
  match v with Unsigned e => un_pubkey e | Signed e => ev_pubkey e end.
Definition value_kind (v : EventValue) : Kind :=
  match v with Unsigned e => un_kind e | Signed e => ev_kind e end.
Definition value_created_at (v : EventValue) : Timestamp :=
  match v with Unsigned e => un_created_at e | Signed e => ev_created_at e end.
Definition value_tags (v : EventValue) : list Tag :=
  match v with Unsigned e => un_tags e | Signed e => ev_tags e end.

Definition is_signed (v : EventValue) : bool :=
  match v with Signed _ => true | Unsigned _ => false end.

Inductive InvalidEventValue := MissingId.

#[global] Instance InvalidEventValue_eq_dec : EqDecision InvalidEventValue.
Proof. solve_decision. Defined.

Definition value_coordinate `{Nostr} (v : EventValue) : result InvalidEventValue EventCoordinate :=
  match value_id v with
  | Some id => Ok (event_coordinate id (value_author v) (value_kind v) (value_tags v))
  | None => Err MissingId
  end.

(** ** Intent errors *)

Inductive WriteIntentError :=
| EmptyExplicitRelays
| TooManyExplicitRelays (actual maximum : nat)
| TooManyRawExplicitRelays (actual maximum : nat)
| DuplicateExplicitRelay (relay : RelayUrl)
| InvalidEvent (reason : string)
| IntentExpired
| TooManyTags (actual maximum : nat)
| TooLarge (bytes maximum : nat)
| Encoding (reason : string)
| ExplicitRoutingAttached
| ConflictingExplicitRoutes.

#[global] Instance WriteIntentError_eq_dec : EqDecision WriteIntentError.
Proof. solve_decision. Defined.

(** ** Routing mode *)

Inductive WriteRouting :=
| Automatic
| Explicit (relays : list RelayUrl).

#[global] Instance WriteRouting_eq_dec : EqDecision WriteRouting.
Proof. solve_decision. Defined.

Definition refuse_raw_input (actual : nat) : result WriteIntentError unit :=
  ensure (bool_decide (actual ≤ MAX_RAW_EXPLICIT_RELAYS))
    (TooManyRawExplicitRelays actual MAX_RAW_EXPLICIT_RELAYS).

(** The loop of [explicit] and [append]: keep first occurrences, in order. *)
Fixpoint push_distinct (seen : gset RelayUrl) (ordered relays : list RelayUrl)
    : result WriteIntentError (list RelayUrl) :=
  match relays with
  | [] => Ok ordered
  | relay :: relays =>
      if bool_decide (relay ∈ seen) then push_distinct seen ordered relays
      else
        let ordered := ordered ++ [relay] in
        if bool_decide (MAX_EXPLICIT_RELAYS < length ordered)
        then Err (TooManyExplicitRelays (length ordered) MAX_EXPLICIT_RELAYS)
        else push_distinct ({[relay]} ∪ seen) ordered relays
  end.

Definition explicit (relays : list RelayUrl) : result WriteIntentError WriteRouting :=
  _ ← refuse_raw_input (length relays);
  ordered ← push_distinct ∅ [] relays;
  _ ← ensure (negb (bool_decide (ordered = []))) EmptyExplicitRelays;
  Ok (Explicit ordered).

Definition append (self : WriteRouting) (relays : list RelayUrl)
    : result WriteIntentError WriteRouting :=
  let ordered := match self with Automatic => [] | Explicit relays => relays end in
  ordered ← push_distinct (list_to_set ordered) ordered relays;
  _ ← ensure (negb (bool_decide (ordered = []))) EmptyExplicitRelays;
  Ok (Explicit ordered).

(** The duplicate scan of [validate]. *)
Fixpoint refuse_duplicate (seen : gset RelayUrl) (relays : list RelayUrl)
    : result WriteIntentError unit :=
  match relays with
  | [] => Ok tt
  | relay :: relays =>
      if bool_decide (relay ∈ seen) then Err (DuplicateExplicitRelay relay)
      else refuse_duplicate ({[relay]} ∪ seen) relays
  end.

Definition validate (self : WriteRouting) : result WriteIntentError unit :=
  match self with
  | Automatic => Ok tt
  | Explicit relays =>
      _ ← ensure (negb (bool_decide (relays = []))) EmptyExplicitRelays;
      _ ← ensure (bool_decide (length relays ≤ MAX_EXPLICIT_RELAYS))
            (TooManyExplicitRelays (length relays) MAX_EXPLICIT_RELAYS);
      refuse_duplicate ∅ relays
  end.

(** ** Edits *)

Record EventEdit := mkEdit {
  ed_kind : Kind;
  ed_identifier : option string;
  ed_change : list N
}.

#[global] Instance EventEdit_eq_dec : EqDecision EventEdit.
Proof. solve_decision. Defined.

Section intents.
Context `{Nostr}.

Definition validate_coordinate (kind : Kind) (identifier : option string)
    : result WriteIntentError unit :=
  match identifier with
  | None =>
      ensure (kind_is_replaceable kind)
        (InvalidEvent "replaceable-event edit kind requires an addressable identifier")
  | Some _ =>
      ensure (kind_is_addressable kind)
        (InvalidEvent "replaceable-event edit identifier requires an addressable kind")
  end.

Definition validate_bytes (value : list N) : result WriteIntentError unit :=
  ensure (bool_decide (length value ≤ MAX_EVENT_BYTES)) (TooLarge (length value) MAX_EVENT_BYTES).

Definition EventEdit_new (kind : Kind) (identifier : option string) (change : list N)
    : result WriteIntentError EventEdit :=
  _ ← validate_coordinate kind identifier;
  _ ← validate_bytes change;
  Ok (mkEdit kind identifier change).

(** ** Intents *)

Inductive WritePayload :=
| PayloadEvent (event : UnsignedEvent)
| PayloadEdit (edit : EventEdit) (author : PublicKey)
| PayloadPresigned (event : Event).

Record WriteIntent := mkIntent {
  in_payload : WritePayload;
  in_routing : WriteRouting;
  in_access : Authority
}.

Definition under (intent : WriteIntent) (access : Authority) : WriteIntent :=
  mkIntent (in_payload intent) (in_routing intent) access.

Definition validate_event_size (bytes : result string nat) : result WriteIntentError unit :=
  match bytes with
  | Err reason => Err (Encoding reason)
  | Ok bytes => ensure (bool_decide (bytes ≤ MAX_EVENT_BYTES)) (TooLarge bytes MAX_EVENT_BYTES)
  end.

(** [event.verify_id().map_err(..)] and [event.verify().map_err(..)]. *)
Definition invalid_event (failure : option string) : result WriteIntentError unit :=
  match failure with None => Ok tt | Some reason => Err (InvalidEvent reason) end.

Definition refuse_expired (tags : list Tag) (now : Timestamp) : result WriteIntentError unit :=
  ensure (negb (match tags_expiration tags with
                | Some expiry => bool_decide (expiry ≤ now)%N
                | None => false
                end)) IntentExpired.

(** [now] stands for [Timestamp::now()]. *)
Definition intent_event (now : Timestamp) (event : UnsignedEvent) (routing : WriteRouting)
    : result WriteIntentError WriteIntent :=
  let event := unsigned_ensure_id event in
  _ ← invalid_event (unsigned_verify_id event);
  _ ← validate routing;
  _ ← validate_event_size (unsigned_json_len event);
  _ ← refuse_expired (un_tags event) now;
  Ok (mkIntent (PayloadEvent event) routing Unauthenticated).

Definition intent_presigned (now : Timestamp) (event : Event) (routing : WriteRouting)
    : result WriteIntentError WriteIntent :=
  _ ← invalid_event (event_verify event);
  _ ← validate routing;
  _ ← validate_event_size (event_json_len event);
  _ ← refuse_expired (ev_tags event) now;
  Ok (mkIntent (PayloadPresigned event) routing Unauthenticated).

Definition intent_edit_as (edit : EventEdit) (author : PublicKey) (routing : WriteRouting)
    : result WriteIntentError WriteIntent :=
  _ ← validate routing;
  Ok (mkIntent (PayloadEdit edit author) routing Unauthenticated).

Definition intent_author (intent : WriteIntent) : PublicKey :=
  match in_payload intent with
  | PayloadEvent event => un_pubkey event
  | PayloadEdit _ author => author
  | PayloadPresigned event => ev_pubkey event
  end.

End intents.

(** ** Publication evidence and receipts *)

(** [WriteId], [ReceiptId] and [RevisionId] are [NonZeroU64]. *)
Abbreviation WriteId := N (only parsing).
Abbreviation ReceiptId := N (only parsing).
Abbreviation RevisionId := N (only parsing).

Definition revision_first : RevisionId := 1%N.

(** [RevisionId::checked_next]. *)
Definition revision_checked_next (r : RevisionId) : option RevisionId := checked_succ r.

Inductive SignatureState :=
| SigUnsigned
| SigAuthorized
| SigRetryable (reason : string)
| SigSigned
| SigRefused (reason : string).

Inductive RelayDeliveryOutcome :=
| Pending
| Attempting
| Retryable (reason : string)
| Acknowledged (message : string)
| Rejected (message : string)
| AuthenticationDenied (reason : string)
| GivenUp (reason : string)
| Unknown (reason : string)
| CancelledBeforeHandoff.

#[global] Instance SignatureState_eq_dec : EqDecision SignatureState.
Proof. solve_decision. Defined.
#[global] Instance RelayDeliveryOutcome_eq_dec : EqDecision RelayDeliveryOutcome.
Proof. solve_decision. Defined.

Definition outcome_is_terminal (o : RelayDeliveryOutcome) : bool :=
  match o with
  | Acknowledged _ | Rejected _ | AuthenticationDenied _ | GivenUp _ | Unknown _
  | CancelledBeforeHandoff => true
  | Pending | Attempting | Retryable _ => false
  end.

Record PublicationEvidence := mkPublication {
  pub_receipt_id : ReceiptId;
  pub_write_id : WriteId;
  pub_revision_id : RevisionId;
  pub_revision_source : option EventId;
  pub_revision_failure : option string;
  pub_retired_revisions : list (RevisionId * EventId * option EventId * option string);
  pub_signature : SignatureState;
  pub_destinations : gmap RelayUrl RelayDeliveryOutcome
}.

Record LocalWriteEvent := mkLocal {
  lw_id : EventId;
  lw_event : EventValue;
  lw_publication : PublicationEvidence
}.

Definition LocalWriteEvent_new (event : EventValue) (publication : PublicationEvidence)
    : result InvalidEventValue LocalWriteEvent :=
  id ← ok_or (value_id event) MissingId;
  Ok (mkLocal id event publication).

Inductive ReceiptOutcome := Open | Cancelled | Complete | NoDestination.

Record Receipt := mkReceipt {
  rc_write_id : WriteId;
  rc_receipt_id : ReceiptId;
  rc_current : LocalWriteEvent;
  rc_routing : WriteRouting;
  rc_access : Authority;
  rc_outcome : ReceiptOutcome;
  rc_route_revision : N;
  rc_route_settled : bool;
  rc_route_shortfalls : list string;
  rc_desired_destinations : gset RelayUrl;
  rc_attempts : gmap RelayUrl N
}.

#[global] Instance PublicationEvidence_eq_dec : EqDecision PublicationEvidence.
Proof. solve_decision. Defined.
#[global] Instance LocalWriteEvent_eq_dec : EqDecision LocalWriteEvent.
Proof. solve_decision. Defined.
#[global] Instance ReceiptOutcome_eq_dec : EqDecision ReceiptOutcome.
Proof. solve_decision. Defined.
#[global] Instance Receipt_eq_dec : EqDecision Receipt.
Proof. solve_decision. Defined.

Definition receipt_is_terminal (r : Receipt) : bool := negb (bool_decide (rc_outcome r = Open)).
Definition rc_destinations (r : Receipt) : gmap RelayUrl RelayDeliveryOutcome :=
  pub_destinations (lw_publication (rc_current r)).

Definition count_destinations (P : RelayDeliveryOutcome → bool) (r : Receipt) : nat :=
  length (List.filter P (values (rc_destinations r))).
Definition acknowledged : Receipt → nat :=
  count_destinations (λ o, match o with Acknowledged _ => true | _ => false end).
Definition rejected : Receipt → nat :=
  count_destinations (λ o, match o with Rejected _ => true | _ => false end).
Definition desired (r : Receipt) : nat := size (rc_desired_destinations r).
Definition desires (r : Receipt) (session : RelayUrl) : bool :=
  bool_decide (session ∈ rc_desired_destinations r).

(** ** Lemmas: explicit routes keep first occurrences *)

Fixpoint first_occurrences (l : list RelayUrl) : list RelayUrl :=
  match l with
  | [] => []
  | x :: l => x :: filter (λ y, y ≠ x) (first_occurrences l)
  end.

Lemma elem_of_first_occurrences l x : x ∈ first_occurrences l ↔ x ∈ l.
Proof.
  induction l as [|y l IH]; simpl; [done|].
  rewrite !elem_of_cons, list_elem_of_filter, IH.
  destruct (decide (x = y)); naive_solver.
Qed.

Lemma NoDup_first_occurrences l : NoDup (first_occurrences l).
Proof.
  induction l as [|y l IH]; simpl; constructor.
  - rewrite list_elem_of_filter. naive_solver.
  - by apply NoDup_filter.
Qed.

Lemma first_occurrences_NoDup l : NoDup l → first_occurrences l = l.
Proof.
  induction 1 as [|y l Hy _ IH]; simpl; [done|]. f_equal. rewrite IH.
  clear IH. induction l as [|z l IH]; [done|].
  rewrite filter_cons_True by set_solver. f_equal. apply IH. set_solver.
Qed.

Lemma length_first_occurrences l : length (first_occurrences l) = size (list_to_set l : gset RelayUrl).
Proof.
  rewrite <- (size_list_to_set (C := gset RelayUrl)) by apply NoDup_first_occurrences.
  f_equal. apply set_eq. intros x. by rewrite !elem_of_list_to_set, elem_of_first_occurrences.
Qed.

(** What the loop appends to the relays it already holds. *)
Abbreviation fresh ordered relays :=
  (filter (λ y : string, y ∉ ordered) (first_occurrences relays)).

Lemma fresh_seen (ordered : list RelayUrl) relay relays :
  relay ∈ ordered → fresh ordered (relay :: relays) = fresh ordered relays.
Proof.
  intros Hin. simpl. rewrite filter_cons_False by naive_solver.
  rewrite list_filter_filter. apply list_filter_iff. intros x. set_solver.
Qed.

Lemma fresh_new (ordered : list RelayUrl) relay relays :
  relay ∉ ordered →
  fresh ordered (relay :: relays) = relay :: fresh (ordered ++ [relay]) relays.
Proof.
  intros Hin. simpl. rewrite filter_cons_True by done. f_equal.
  rewrite list_filter_filter. apply list_filter_iff. intros x. set_solver.
Qed.

Lemma push_distinct_spec (seen : gset RelayUrl) ordered relays :
  (∀ x, x ∈ seen ↔ x ∈ ordered) → length ordered ≤ MAX_EXPLICIT_RELAYS →
  let result := ordered ++ fresh ordered relays in
  push_distinct seen ordered relays =
  if bool_decide (length result ≤ MAX_EXPLICIT_RELAYS) then Ok result
  else Err (TooManyExplicitRelays (S MAX_EXPLICIT_RELAYS) MAX_EXPLICIT_RELAYS).
Proof.
  revert seen ordered. induction relays as [|relay relays IH]; intros seen ordered Hseen Hlen;
    cbn [push_distinct].
  - simpl. rewrite app_nil_r. by rewrite bool_decide_eq_true_2.
  - case_bool_decide as Hin; rewrite Hseen in Hin.
    + rewrite (fresh_seen _ _ _ Hin). by apply IH.
    + rewrite (fresh_new _ _ _ Hin). rewrite length_app; cbn [length].
      case_bool_decide as Hlong.
      * rewrite bool_decide_eq_false_2; [|rewrite length_app; simpl; lia].
        do 2 f_equal. lia.
      * replace (ordered ++ relay :: fresh (ordered ++ [relay]) relays)
          with ((ordered ++ [relay]) ++ fresh (ordered ++ [relay]) relays)
          by (by rewrite <- (assoc_L (++))).
        apply IH; [set_solver|]. rewrite length_app; simpl; lia.
Qed.

Lemma fresh_nil relays : fresh [] relays = first_occurrences relays.
Proof.
  induction (first_occurrences relays) as [|x l IH]; [done|].
  rewrite filter_cons_True by apply not_elem_of_nil. by rewrite IH.
Qed.

Lemma explicit_unfold relays :
  length relays ≤ MAX_RAW_EXPLICIT_RELAYS →
  explicit relays =
  if bool_decide (length (first_occurrences relays) ≤ MAX_EXPLICIT_RELAYS)
  then if bool_decide (relays = []) then Err EmptyExplicitRelays
       else Ok (Explicit (first_occurrences relays))
  else Err (TooManyExplicitRelays (S MAX_EXPLICIT_RELAYS) MAX_EXPLICIT_RELAYS).
Proof.
  intros Hraw. unfold explicit, refuse_raw_input.
  rewrite (bool_decide_eq_true_2 (length relays ≤ _)) by done. cbn [mbind result_bind ensure].
  rewrite push_distinct_spec by (set_solver || (simpl; lia)).
  rewrite fresh_nil, app_nil_l. case_bool_decide; [|done].
  destruct relays as [|x relays]; [done|]. simpl. done.
Qed.

Lemma explicit_over_raw relays :
  ¬ length relays ≤ MAX_RAW_EXPLICIT_RELAYS →
  explicit relays = Err (TooManyRawExplicitRelays (length relays) MAX_RAW_EXPLICIT_RELAYS).
Proof.
  intros Hraw. unfold explicit, refuse_raw_input. by rewrite bool_decide_eq_false_2.
Qed.

Lemma refuse_duplicate_Ok (seen : gset RelayUrl) relays :
  refuse_duplicate seen relays = Ok tt ↔ NoDup relays ∧ ∀ x, x ∈ relays → x ∉ seen.
Proof.
  revert seen. induction relays as [|x relays IH]; intros seen; simpl.
  - split; [|done]. split; [constructor|set_solver].
  - case_bool_decide as Hin.
    + split; [done|]. intros [_ Hx]. destruct (Hx x); [left|done].
    + rewrite IH, NoDup_cons. set_solver.
Qed.

Lemma validate_explicit_Ok relays :
  validate (Explicit relays) = Ok tt ↔
  relays ≠ [] ∧ length relays ≤ MAX_EXPLICIT_RELAYS ∧ NoDup relays.
Proof.
  unfold validate. rewrite bind_Ok. setoid_rewrite bind_Ok.
  setoid_rewrite ensure_Ok. setoid_rewrite refuse_duplicate_Ok.
  setoid_rewrite negb_true_iff. setoid_rewrite bool_decide_eq_false.
  setoid_rewrite bool_decide_eq_true. split.
  - intros (_ & ? & _ & ? & ? & _). done.
  - intros (? & ? & ?). exists tt. split; [done|]. exists tt. set_solver.
Qed.

(** ** Properties *)

(** [WriteRouting::explicit] normalises a route to its first occurrences
    in caller order: the result is duplicate-free, non-empty, within 256
    relays, names exactly the relays supplied and passes [validate]; it
    refuses exactly an empty route, raw input over 1,024 entries and more than
    256 distinct relays. *)
Theorem explicit_normalizes (relays : list RelayUrl) :
  match explicit relays with
  | Ok r =>
      r = Explicit (first_occurrences relays) ∧ validate r = Ok tt ∧
      (∀ x, x ∈ first_occurrences relays ↔ x ∈ relays) ∧ relays ≠ []
  | Err EmptyExplicitRelays => relays = []
  | Err (TooManyRawExplicitRelays actual _) =>
      actual = length relays ∧ MAX_RAW_EXPLICIT_RELAYS < length relays
  | Err (TooManyExplicitRelays _ _) =>
      MAX_EXPLICIT_RELAYS < size (list_to_set relays : gset RelayUrl)
  | Err _ => False
  end.
Proof.
  destruct (decide (length relays ≤ MAX_RAW_EXPLICIT_RELAYS)) as [Hraw|Hraw].
  - rewrite explicit_unfold by done. case_bool_decide as Hlen; [|rewrite length_first_occurrences in Hlen; lia].
    case_bool_decide as Hne; [done|]. split_and!; [done| |apply elem_of_first_occurrences|done].
    apply validate_explicit_Ok. split_and!; [by destruct relays|done|apply NoDup_first_occurrences].
  - rewrite explicit_over_raw by done. lia.
Qed.

(** Normalisation and validation agree: a relay list passes [validate]
    exactly when [explicit] returns it unchanged. *)
Theorem explicit_validate_roundtrip (relays : list RelayUrl) :
  validate (Explicit relays) = Ok tt ↔ explicit relays = Ok (Explicit relays).
Proof.
  rewrite validate_explicit_Ok. split.
  - intros (Hne & Hlen & Hnd).
    rewrite explicit_unfold by (unfold MAX_RAW_EXPLICIT_RELAYS, MAX_EXPLICIT_RELAYS in *; lia).
    rewrite (first_occurrences_NoDup _ Hnd), bool_decide_eq_true_2 by done.
    by rewrite bool_decide_eq_false_2.
  - intros He. destruct (decide (length relays ≤ MAX_RAW_EXPLICIT_RELAYS)) as [Hraw|Hraw];
      [|by rewrite explicit_over_raw in He].
    rewrite explicit_unfold in He by done. repeat case_bool_decide; try done.
    injection He as Heq. rewrite Heq in *. split_and!; [done|done|].
    rewrite <- Heq. apply NoDup_first_occurrences.
Qed.
