(* ===== verification/Query.v ===== *)
(** * Declarative queries, sources and snapshots ([crates/fava-query])

    The query value and its builder operations ([lib.rs], [selection.rs]),
    source snapshots and evidence ([evidence.rs]), event records, and the
    identity allocators ([identity.rs]). *)

From S2P Require Import Prelude Nostr Relay State Write.

(** ** Selection *)

Record FilterSelection := mkSelection {
  fs_ids : option (gset EventId);
  fs_authors : option (gset PublicKey);
  fs_authors_current_account : bool;
  fs_kinds : option (gset Kind);
  fs_tag_values : gmap SingleLetterTag (gset string);
  fs_tag_values_current_account : gset SingleLetterTag
}.

Definition default_selection : FilterSelection := mkSelection None None false None ∅ ∅.

(** ** Query *)

Inductive QueryAcquisition := AcquireAutomatic | AcquireExplicit (relays : gset RelayUrl).
Inductive ResultAuthority := AnyLocal | OnlyRelays (relays : gset RelayUrl).

Record QuerySourcePolicy := mkPolicy {
  qs_acquisition : QueryAcquisition;
  qs_authority : ResultAuthority
}.

(** A [Duration] in nanoseconds. *)
Inductive Freshness := CacheOnly | MaxAge (age : N) | Live.
Inductive QueryOrdering := NewestFirst | OldestFirst.

Record Query := mkQuery {
  q_selection : FilterSelection;
  q_source : QuerySourcePolicy;
  q_access : Authority;
  q_freshness : Freshness;
  q_ordering : QueryOrdering;
  q_limit : option nat
}.

Inductive QueryError := QueryEmptyExplicitRelays | ZeroLimit.

(** [Query::default] and [Query::events]. *)
Definition events : Query :=
  mkQuery default_selection (mkPolicy AcquireAutomatic AnyLocal) Unauthenticated Live NewestFirst None.

Definition with_selection (q : Query) (s : FilterSelection) : Query :=
  mkQuery s (q_source q) (q_access q) (q_freshness q) (q_ordering q) (q_limit q).
Definition with_source (q : Query) (p : QuerySourcePolicy) : Query :=
  mkQuery (q_selection q) p (q_access q) (q_freshness q) (q_ordering q) (q_limit q).
Definition with_freshness (q : Query) (f : Freshness) : Query :=
  mkQuery (q_selection q) (q_source q) (q_access q) f (q_ordering q) (q_limit q).

Definition with_relay_access (q : Query) (access : Authority) : Query :=
  mkQuery (q_selection q) (q_source q) access (q_freshness q) (q_ordering q) (q_limit q).

Definition non_empty_relays (relays : list RelayUrl) : result QueryError (gset RelayUrl) :=
  let relays : gset RelayUrl := list_to_set relays in
  if bool_decide (relays = ∅) then Err QueryEmptyExplicitRelays else Ok relays.

Definition from_relays (q : Query) (relays : list RelayUrl) : result QueryError Query :=
  relays ← non_empty_relays relays;
  Ok (with_source q (mkPolicy (AcquireExplicit relays) AnyLocal)).

Definition only_from_relays (q : Query) (relays : list RelayUrl) : result QueryError Query :=
  relays ← non_empty_relays relays;
  Ok (with_source q (mkPolicy (AcquireExplicit relays) (OnlyRelays relays))).

Definition cache_only (q : Query) : Query := with_freshness q CacheOnly.
Definition max_age (q : Query) (age : N) : Query := with_freshness q (MaxAge age).

Definition limit (q : Query) (limit : nat) : result QueryError Query :=
  if bool_decide (limit = 0) then Err ZeroLimit
  else Ok (mkQuery (q_selection q) (q_source q) (q_access q) (q_freshness q) (q_ordering q) (Some limit)).

Definition oldest_first (q : Query) : Query :=
  mkQuery (q_selection q) (q_source q) (q_access q) (q_freshness q) OldestFirst (q_limit q).

(** ** Selection builders *)

Definition set_authors (s : FilterSelection) (a : option (gset PublicKey)) : FilterSelection :=
  mkSelection (fs_ids s) a (fs_authors_current_account s) (fs_kinds s) (fs_tag_values s)
    (fs_tag_values_current_account s).
Definition set_tag_values (s : FilterSelection) (t : gmap SingleLetterTag (gset string))
    : FilterSelection :=
  mkSelection (fs_ids s) (fs_authors s) (fs_authors_current_account s) (fs_kinds s) t
    (fs_tag_values_current_account s).

Definition authors (q : Query) (authors : list PublicKey) : Query :=
  with_selection q (set_authors (q_selection q) (Some (list_to_set authors))).

Definition authors_current_account (q : Query) : Query :=
  let s := q_selection q in
  with_selection q (mkSelection (fs_ids s) (fs_authors s) true (fs_kinds s) (fs_tag_values s)
                      (fs_tag_values_current_account s)).

Definition kinds (q : Query) (kinds : list Kind) : Query :=
  let s := q_selection q in
  with_selection q (mkSelection (fs_ids s) (fs_authors s) (fs_authors_current_account s)
                      (Some (list_to_set kinds)) (fs_tag_values s) (fs_tag_values_current_account s)).

Definition ids (q : Query) (ids : list EventId) : Query :=
  let s := q_selection q in
  with_selection q (mkSelection (Some (list_to_set ids)) (fs_authors s) (fs_authors_current_account s)
                      (fs_kinds s) (fs_tag_values s) (fs_tag_values_current_account s)).

(** [entry(key).or_default()] extended by the values. *)
Definition tag_values (q : Query) (key : SingleLetterTag) (values : list string) : Query :=
  let s := q_selection q in
  let old : gset string := default ∅ (fs_tag_values s !! key) in
  with_selection q (set_tag_values s (<[key := old ∪ list_to_set values]> (fs_tag_values s))).

Definition tag_value_current_account (q : Query) (key : SingleLetterTag) : Query :=
  let s := q_selection q in
  with_selection q (mkSelection (fs_ids s) (fs_authors s) (fs_authors_current_account s) (fs_kinds s)
                      (fs_tag_values s) ({[key]} ∪ fs_tag_values_current_account s)).

(** An absent axis becomes [supplied]; a present one is intersected with it. *)
Definition narrow_axis {A} `{Countable A} (axis : option (gset A)) (supplied : gset A) : gset A :=
  match axis with Some existing => existing ∩ supplied | None => supplied end.

Definition narrow_tag (supplied : gset string) (t : gmap SingleLetterTag (gset string))
    (key : SingleLetterTag) : gmap SingleLetterTag (gset string) :=
  <[key := narrow_axis (t !! key) supplied]> t.

Definition intersect_tag_values (q : Query) (key : SingleLetterTag) (values : list string) : Query :=
  let s := q_selection q in
  with_selection q (set_tag_values s (narrow_tag (list_to_set values) (fs_tag_values s) key)).

Definition selection_depends_on_current_account (s : FilterSelection) : bool :=
  fs_authors_current_account s || negb (bool_decide (fs_tag_values_current_account s = ∅)).

Definition depends_on_current_account (q : Query) : bool :=
  selection_depends_on_current_account (q_selection q).

(** Resolve every current-account dependency to one session snapshot. *)
Definition bind_current_account `{Nostr} (q : Query) (current : option PublicKey) : Query :=
  let s := q_selection q in
  let authors :=
    if fs_authors_current_account s
    then Some (narrow_axis (fs_authors s) (match current with Some p => {[p]} | None => ∅ end))
    else fs_authors s in
  let supplied : gset string :=
    match current with Some p => {[public_key_to_hex p]} | None => ∅ end in
  let tags := foldl (narrow_tag supplied) (fs_tag_values s)
                (ordered_elements (fs_tag_values_current_account s)) in
  with_selection q (mkSelection (fs_ids s) authors false (fs_kinds s) tags ∅).

Definition empty_axis {A} `{Countable A} (axis : option (gset A)) : bool :=
  match axis with Some s => bool_decide (s = ∅) | None => false end.

Definition matches_nothing (q : Query) : bool :=
  let s := q_selection q in
  depends_on_current_account q
  || empty_axis (fs_ids s) || empty_axis (fs_authors s) || empty_axis (fs_kinds s)
  || existsb (λ v : gset string, bool_decide (v = ∅)) (values (fs_tag_values s)).

(** ** Sources and their evidence *)

Inductive SourceKind := EventCacheSource | WriteStoreSource | LiveRelay (session : RelayUrl).

Inductive SourceTerminationCause :=
| LocalClose
| ProviderClosed
| ProviderFailed (detail : BoundedText)
| Shutdown.

Inductive SourceStatus := SourceOpen | SourceClosed (cause : SourceTerminationCause).

Record SourceRetraction := mkRetraction {
  sr_event_id : EventId;
  sr_cause : RetractionCause
}.

#[global] Instance SourceRetraction_eq_dec : EqDecision SourceRetraction.
Proof. solve_decision. Defined.

Definition is_protocol_rule (r : SourceRetraction) : bool :=
  negb (bool_decide (sr_cause r = Evicted)).

Inductive SourceEvent :=
| SourceRelay (e : RelayEvent)
| SourceLocal (e : LocalWriteEvent).

Record SourceSnapshot := mkSnapshot {
  ss_kind : SourceKind;
  ss_revision : N;
  ss_status : SourceStatus;
  ss_events : list SourceEvent;
  ss_retractions : list SourceRetraction
}.

Definition SourceSnapshot_empty (kind : SourceKind) : SourceSnapshot :=
  mkSnapshot kind 0 SourceOpen [] [].

Definition SourceSnapshot_current (kind : SourceKind) (revision : N) (events : list SourceEvent)
    : SourceSnapshot :=
  mkSnapshot kind revision SourceOpen events [].

Record SourceEvidence := mkSourceEvidence {
  se_kind : SourceKind;
  se_revision : N;
  se_status : SourceStatus;
  se_retractions : list SourceRetraction
}.

Definition retraction (s : SourceEvidence) (event_id : EventId) : option RetractionCause :=
  sr_cause <$> List.find (λ r, bool_decide (sr_event_id r = event_id)) (se_retractions s).

(** One relay session's proven completion of one filter. *)
Record SourceCoverage := mkCoverage {
  cv_session : RelayUrl;
  cv_filter : Filter;
  cv_completed_at : Timestamp
}.

(** ** Event records *)

Record EventRecord := mkRecord {
  er_id : EventId;
  er_event : EventValue;
  er_relay_occurrences : RelayOccurrences;
  er_publication : option PublicationEvidence
}.

#[global] Instance EventRecord_eq_dec : EqDecision EventRecord.
Proof. solve_decision. Defined.

Inductive QueryEvaluationError :=
| MissingEventId
| RelayOccurrenceEventMismatch (event occurrences : EventId)
| EvaluationRefused (reason : BoundedText).

Definition EventRecord_new (event : EventValue) (occurrences : RelayOccurrences)
    (publication : option PublicationEvidence) : result QueryEvaluationError EventRecord :=
  id ← ok_or (value_id event) MissingEventId;
  if bool_decide (id ≠ ocs_event_id occurrences)
  then Err (RelayOccurrenceEventMismatch id (ocs_event_id occurrences))
  else Ok (mkRecord id event occurrences publication).

Definition er_created_at (r : EventRecord) : Timestamp := value_created_at (er_event r).

(** ** Relay evidence *)

Record Round := mkRound {
  rd_authority : N;
  rd_sequence : N
}.

#[global] Instance Round_eq_dec : EqDecision Round.
Proof. solve_decision. Defined.

Inductive RelayDeadline := DeadlineEstablish | DeadlineWrite | DeadlineIdle | DeadlineClose.
Inductive RelayWithdrawal := RouteWithdrawn | ObservationClosed | WithdrawnShutdown.

Inductive RelaySourceState :=
| Planned
| StateConnecting
| StateOpen (requested_at : Timestamp)
| StoredEventsComplete (at_ : Timestamp)
| StateRefused (message : BoundedText) (at_ : Timestamp)
| AuthenticationRequired (progress : Progress) (at_ : Timestamp)
| TimedOut (deadline : RelayDeadline) (after_ms : N)
| StateDisconnected (detail : BoundedText)
| Unreachable (attempts : nat) (detail : BoundedText)
| OwnerRefused (detail : BoundedText)
| Withdrawn (reason : RelayWithdrawal).

Inductive RouteOrigin := OriginExplicit | OriginAutomatic (revision : N).

Record RelayShortfall := mkRelayShortfall {
  rs_branches : list N;
  rs_detail : BoundedText
}.

Record RelayQueryEvidence := mkRelayEvidence {
  rq_session : RelayUrl;
  rq_generation : option Round;
  rq_plan_revision : N;
  rq_branches : list N;
  rq_state : RelaySourceState;
  rq_shared_with : list N;
  rq_shortfall : option RelayShortfall;
  rq_route : RouteOrigin
}.

Definition stored_events_complete (e : RelayQueryEvidence) : bool :=
  match rq_state e with StoredEventsComplete _ => true | _ => false end.

Definition is_live (e : RelayQueryEvidence) : bool :=
  match rq_state e with StateOpen _ | StoredEventsComplete _ => true | _ => false end.

Record DesiredPlanEvidence := mkDesiredPlan {
  dp_revision : N;
  dp_relays : list RelayUrl;
  dp_installed : nat
}.

Inductive QueryShortfall :=
| CoalescedUpdates (dropped : N)
| ResultLimitApplied (limit : nat)
| LiveRetentionLimit (session : RelayUrl) (limit : nat) (refused : N)
| SourceUnavailable (kind : SourceKind) (detail : BoundedText).

Record QueryEvidence := mkEvidence {
  qe_sources : list SourceEvidence;
  qe_relays : list RelayQueryEvidence;
  qe_plan : option DesiredPlanEvidence;
  qe_shortfalls : list QueryShortfall
}.

Definition default_evidence : QueryEvidence := mkEvidence [] [] None [].

Definition relay (e : QueryEvidence) (session : RelayUrl) : option RelayQueryEvidence :=
  List.find (λ r, bool_decide (rq_session r = session)) (qe_relays e).

Definition all_relays_stored_events_complete (e : QueryEvidence) : bool :=
  match qe_relays e with
  | [] => false
  | relays => forallb stored_events_complete relays
  end.

(** ** Query snapshots *)

Record QuerySnapshot := mkQuerySnapshot {
  qn_revision : N;
  qn_events : list EventRecord;
  qn_evidence : QueryEvidence
}.

Definition evidence_of (s : SourceSnapshot) : SourceEvidence :=
  mkSourceEvidence (ss_kind s) (ss_revision s) (ss_status s) (ss_retractions s).

Definition evaluated (evs : list EventRecord) (sources : list SourceSnapshot) : QuerySnapshot :=
  mkQuerySnapshot 0 evs (mkEvidence (evidence_of <$> sources) [] None []).

(** ** Identity allocation *)

(** [ObservationIds::allocate]: [fetch_update] stores [value + 1] and returns
    the old value, which is then incremented once more for the identity. *)
Definition observation_allocate (next : N) : option N * N :=
  match checked_succ next with
  | Some next' => (checked_succ next, next')
  | None => (None, next)
  end.

Record RoundIssuer := mkIssuer {
  ri_authority : N;
  ri_next : option N
}.

Inductive RoundsExhausted := ExhaustedAuthorities | ExhaustedSequence.

(** [RoundIssuer::new] over the process-wide authority counter. *)
Definition issuer_new (next_authority : N) : result RoundsExhausted RoundIssuer * N :=
  match checked_succ next_authority with
  | Some a => (Ok (mkIssuer a (Some 1%N)), a)
  | None => (Err ExhaustedAuthorities, next_authority)
  end.

Definition issuer_allocate (i : RoundIssuer) : result RoundsExhausted Round * RoundIssuer :=
  match ri_next i with
  | None => (Err ExhaustedSequence, i)
  | Some sequence =>
      (Ok (mkRound (ri_authority i) sequence), mkIssuer (ri_authority i) (checked_succ sequence))
  end.
