(* ===== verification/Evaluator.v ===== *)
(** * The reference query evaluator ([crates/fava-query-standard])

    [evaluate] merges complete source snapshots into one ordered, deduplicated
    answer.  The properties state that it is total on well-formed sources,
    sound and complete for the query's selection and source policy, ordered,
    one winner per coordinate, and bounded by the query's limit. *)

From S2P Require Import Prelude Nostr Relay State Write Query.

Record Candidate := mkCandidate {
  ca_event : EventValue;
  ca_relay : list RelayEvent;
  ca_publication : option PublicationEvidence
}.

(** [candidate.into_record(id)]. *)
Definition into_record (id : EventId) (c : Candidate) : result QueryEvaluationError EventRecord :=
  occurrences ← ok_or (relay_occurrences_for_event id (ca_relay c))
    (RelayOccurrenceEventMismatch id
       (match List.find (λ r, bool_decide (re_id r ≠ id)) (ca_relay c) with
        | Some contribution => re_id contribution
        | None => id
        end));
  EventRecord_new (ca_event c) occurrences (ca_publication c).

Definition relay_qualifies (q : Query) (r : RelayEvent) : bool :=
  if bool_decide (oc_authority (re_occurrence r) ≠ q_access q) then false
  else match qs_authority (q_source q) with
       | AnyLocal => true
       | OnlyRelays relays => bool_decide (re_session r ∈ relays)
       end.

Definition admits_local (q : Query) : bool :=
  match qs_authority (q_source q) with AnyLocal => true | OnlyRelays _ => false end.

(** Fold one source contribution into the candidates, keyed by event id. *)
Definition merge_qualifying_contribution (q : Query) (records : gmap EventId Candidate)
    (contribution : SourceEvent) : gmap EventId Candidate :=
  match contribution with
  | SourceRelay r =>
      if negb (relay_qualifies q r) then records
      else
        let c := default (mkCandidate (Signed (re_event r)) [] None) (records !! re_id r) in
        <[re_id r :=
            mkCandidate (if is_signed (ca_event c) then ca_event c else Signed (re_event r))
              (ca_relay c ++ [r]) (ca_publication c)]> records
  | SourceLocal l =>
      if negb (admits_local q) then records
      else
        let c := default (mkCandidate (lw_event l) [] None) (records !! lw_id l) in
        <[lw_id l :=
            mkCandidate (if is_signed (lw_event l) then lw_event l else ca_event c)
              (ca_relay c) (Some (default (lw_publication l) (ca_publication c)))]> records
  end.

Section evaluator.
Context `{Nostr}.

Definition in_axis {A} `{Countable A} (axis : option (gset A)) (a : A) : bool :=
  match axis with None => true | Some s => bool_decide (a ∈ s) end.

Definition tag_matches (event_tags : list Tag) (key : SingleLetterTag) (accepted : gset string) : bool :=
  existsb (λ tag, bool_decide (tag_single_letter tag = Some key) &&
             match tag_content tag with
             | Some value => bool_decide (value ∈ accepted)
             | None => false
             end) event_tags.

Definition matches_selection (s : FilterSelection) (r : EventRecord) : bool :=
  in_axis (fs_ids s) (er_id r) &&
  in_axis (fs_authors s) (value_author (er_event r)) &&
  in_axis (fs_kinds s) (value_kind (er_event r)) &&
  forallb (λ '(key, accepted), tag_matches (value_tags (er_event r)) key accepted)
    (entries (fs_tag_values s)).

Definition record_stamp (r : EventRecord) : Timestamp * EventId := (er_created_at r, er_id r).

Definition record_coordinate (r : EventRecord) : EventCoordinate :=
  event_coordinate (er_id r) (value_author (er_event r)) (value_kind (er_event r))
    (value_tags (er_event r)).

(** [insert_newest] under the record's coordinate. *)
Definition insert_newest (records : gmap EventCoordinate EventRecord) (incoming : EventRecord)
    : gmap EventCoordinate EventRecord :=
  let key := record_coordinate incoming in
  match records !! key with
  | None => <[key := incoming]> records
  | Some held =>
      if event_is_newer (record_stamp incoming) (record_stamp held)
      then <[key := incoming]> records else records
  end.

Definition coordinate_winners (records : list EventRecord) : list EventRecord :=
  values (foldl insert_newest ∅ records).

(** [left] may precede [right] in the result order. *)
Definition record_le (o : QueryOrdering) (left right : EventRecord) : Prop :=
  match o with
  | NewestFirst => key_le (record_stamp right) (record_stamp left)
  | OldestFirst => key_le (record_stamp left) (record_stamp right)
  end.

#[global] Instance record_le_dec o : RelDecision (record_le o).
Proof. intros l r. destruct o; simpl; apply _. Defined.

(** Every qualifying contribution of every source, merged by event id. *)
Definition merge_sources (q : Query) (sources : list SourceSnapshot) : gmap EventId Candidate :=
  foldl (merge_qualifying_contribution q) ∅ (sources ≫= ss_events).

Definition matching_records (q : Query) (sources : list SourceSnapshot)
    : result QueryEvaluationError (list EventRecord) :=
  records ← collect_results ((λ '(id, c), into_record id c) <$> entries (merge_sources q sources));
  Ok (List.filter (matches_selection (q_selection q)) records).

Definition evaluate (q : Query) (sources : list SourceSnapshot)
    : result QueryEvaluationError QuerySnapshot :=
  if matches_nothing q then Ok (evaluated [] sources)
  else
    records ← matching_records q sources;
    let evs := merge_sort (record_le (q_ordering q)) (coordinate_winners records) in
    let evs := match q_limit q with Some n => take n evs | None => evs end in
    Ok (evaluated evs sources).

End evaluator.

(** ** Lemmas: winners *)

Section winners.
Context `{Nostr}.

Abbreviation record_newer r s := (newer (record_stamp r) (record_stamp s)).

(** The state of [insert_newest] after the records [seen]. *)
Definition winners_inv (m : gmap EventCoordinate EventRecord) (seen : list EventRecord) : Prop :=
  (∀ k r, m !! k = Some r →
     r ∈ seen ∧ record_coordinate r = k ∧
     ∀ r', r' ∈ seen → record_coordinate r' = k → ¬ record_newer r' r) ∧
  (∀ r, r ∈ seen → is_Some (m !! record_coordinate r)).

Lemma winners_inv_step m seen r :
  winners_inv m seen → winners_inv (insert_newest m r) (seen ++ [r]).
Proof.
  intros [Hm Hs].
  assert (Hkeep : ∀ k v, m !! k = Some v → (k = record_coordinate r → ¬ record_newer r v) →
    v ∈ seen ++ [r] ∧ record_coordinate v = k ∧
    ∀ r', r' ∈ seen ++ [r] → record_coordinate r' = k → ¬ record_newer r' v).
  { intros k v Hk Hnew. destruct (Hm k v Hk) as (Hv & Hc & Hmax).
    split_and!; [set_solver|done|]. intros r' [?| ->]%elem_of_snoc ?; auto. }
  assert (Htake : ∀ held, (m !! record_coordinate r = None ∨
      m !! record_coordinate r = Some held ∧ record_newer r held) →
    ∀ r', r' ∈ seen ++ [r] → record_coordinate r' = record_coordinate r → ¬ record_newer r' r).
  { intros held Hcase r' [Hr'| ->]%elem_of_snoc Hc; [|apply irreflexivity, _].
    destruct (Hs r' Hr') as [v Hv]. rewrite Hc in Hv.
    destruct Hcase as [?|[Hheld Hnew]]; [congruence|].
    destruct (Hm _ _ Hheld) as (_ & _ & Hmax). intros Hr'r.
    apply (Hmax r' Hr' Hc). by etrans. }
  assert (Hins : ∀ held, (m !! record_coordinate r = None ∨
      m !! record_coordinate r = Some held ∧ record_newer r held) →
    winners_inv (<[record_coordinate r := r]> m) (seen ++ [r])).
  { intros held Hcase. split.
    - intros k v. rewrite lookup_insert. case_decide as Hk.
      + intros [= <-]. split_and!; [set_solver|done|]. subst. eauto.
      + intros Hkv. apply Hkeep; [done|congruence].
    - intros r' [Hr'| ->]%elem_of_snoc; rewrite lookup_insert;
        case_decide; eauto; done. }
  unfold insert_newest. destruct (m !! record_coordinate r) as [held|] eqn:Hheld.
  - destruct (event_is_newer _ _) eqn:Hnew.
    + apply event_is_newer_spec in Hnew. apply (Hins held). auto.
    + apply event_is_newer_false in Hnew. split.
      * intros k v Hk. apply Hkeep; [done|]. intros ->. congruence.
      * intros r' [Hr'| ->]%elem_of_snoc; eauto.
  - apply (Hins r). auto.
Qed.

Lemma winners_inv_fold m seen l :
  winners_inv m seen → winners_inv (foldl insert_newest m l) (seen ++ l).
Proof.
  revert m seen. induction l as [|r l IH]; intros m seen Hi; simpl; [by rewrite app_nil_r|].
  rewrite (cons_middle r), (assoc_L (++)). by apply IH, winners_inv_step.
Qed.

Lemma winners_inv_final l : winners_inv (foldl insert_newest ∅ l) l.
Proof.
  apply (winners_inv_fold ∅ []). split; [by intros k r ?%lookup_empty_Some|].
  by intros r ?%not_elem_of_nil.
Qed.

(** A record wins its coordinate when nothing in the pool is newer there. *)
Definition wins (pool : list EventRecord) (r : EventRecord) : Prop :=
  r ∈ pool ∧ ∀ r', r' ∈ pool → record_coordinate r' = record_coordinate r → ¬ record_newer r' r.

Lemma coordinate_winners_win l r : r ∈ coordinate_winners l → wins l r.
Proof.
  unfold coordinate_winners. rewrite elem_of_values. intros [k Hk].
  destruct (winners_inv_final l) as [Hm _]. destruct (Hm k r Hk) as (? & <- & ?). done.
Qed.

Lemma record_stamp_id r r' : record_stamp r = record_stamp r' → er_id r = er_id r'.
Proof. unfold record_stamp. by intros [= _ ?]. Qed.

Lemma elem_of_coordinate_winners l r :
  NoDup (er_id <$> l) → r ∈ coordinate_winners l ↔ wins l r.
Proof.
  intros Hnd. split; [apply coordinate_winners_win|]. intros [Hr Hmax].
  unfold coordinate_winners. rewrite elem_of_values.
  destruct (winners_inv_final l) as [Hm Hs]. destruct (Hs r Hr) as [v Hv].
  exists (record_coordinate r). rewrite Hv. f_equal.
  destruct (Hm _ _ Hv) as (Hvl & Hvc & Hvmax).
  destruct (newer_total (record_stamp v) (record_stamp r)) as [Hn|[Heq|Hn]].
  - by destruct (Hmax v Hvl Hvc).
  - apply record_stamp_id in Heq.
    apply list_elem_of_lookup in Hvl as [i Hi], Hr as [j Hj].
    assert (i = j) as ->; [|congruence].
    apply (NoDup_lookup _ _ _ (er_id v) Hnd); rewrite list_lookup_fmap, ?Hi, ?Hj; simpl; congruence.
  - by destruct (Hvmax r Hr eq_refl).
Qed.

Lemma coordinate_winners_distinct l : NoDup (record_coordinate <$> coordinate_winners l).
Proof.
  unfold coordinate_winners, values. rewrite <- list_fmap_compose.
  destruct (winners_inv_final l) as [Hm _]. revert Hm.
  generalize (foldl insert_newest ∅ l) as m. intros m Hm.
  replace ((record_coordinate ∘ snd) <$> entries m) with (keys m); [apply NoDup_keys|].
  unfold keys. apply list_fmap_ext. intros i [k v] Hk. simpl.
  apply list_elem_of_lookup_2 in Hk. rewrite elem_of_entries in Hk.
  by destruct (Hm k v Hk) as (_ & -> & _).
Qed.

End winners.

(** ** Lemmas: candidates *)

Section candidates.
Context (q : Query).

Definition contribution_id (x : SourceEvent) : EventId :=
  match x with SourceRelay r => re_id r | SourceLocal l => lw_id l end.
Definition contribution_value (x : SourceEvent) : EventValue :=
  match x with SourceRelay r => Signed (re_event r) | SourceLocal l => lw_event l end.
Definition qualifies (x : SourceEvent) : bool :=
  match x with SourceRelay r => relay_qualifies q r | SourceLocal _ => admits_local q end.

(** [LocalWriteEvent::new] binds the local id to the event's own id. *)
Definition wf_contribution (x : SourceEvent) : Prop :=
  value_id (contribution_value x) = Some (contribution_id x).

Definition wf_sources (sources : list SourceSnapshot) : Prop :=
  Forall (λ s, Forall wf_contribution (ss_events s)) sources.

(** The qualifying relay contributions for one id, in source order. *)
Definition relay_part (id : EventId) (seen : list SourceEvent) : list RelayEvent :=
  omap (λ x, match x with
             | SourceRelay r =>
                 if relay_qualifies q r && bool_decide (re_id r = id) then Some r else None
             | SourceLocal _ => None
             end) seen.

Lemma relay_part_snoc id seen x :
  relay_part id (seen ++ [x]) = relay_part id seen ++ relay_part id [x].
Proof. apply omap_app. Qed.

Lemma elem_of_relay_part id seen r :
  r ∈ relay_part id seen ↔
  SourceRelay r ∈ seen ∧ relay_qualifies q r = true ∧ re_id r = id.
Proof.
  unfold relay_part. rewrite list_elem_of_omap. split.
  - intros ([r'|l] & Hx & Hf); [|done].
    destruct (relay_qualifies q r' && bool_decide (re_id r' = id)) eqn:E; [|done].
    injection Hf as ->. by rewrite andb_true_iff, bool_decide_eq_true in E.
  - intros (Hin & Hq & Hid). exists (SourceRelay r). split; [done|].
    by rewrite Hq, bool_decide_eq_true_2.
Qed.

(** What the candidate of [id] holds after the contributions [seen]. *)
Definition candidate_inv (seen : list SourceEvent) (id : EventId) (o : option Candidate) : Prop :=
  match o with
  | None => ∀ x, x ∈ seen → qualifies x = true → contribution_id x ≠ id
  | Some c =>
      ca_relay c = relay_part id seen ∧
      (∃ x, x ∈ seen ∧ qualifies x = true ∧ contribution_id x = id ∧
            ca_event c = contribution_value x) ∧
      (∀ x, x ∈ seen → qualifies x = true → contribution_id x = id →
            is_signed (contribution_value x) = true → is_signed (ca_event c) = true)
  end.

Lemma candidate_inv_skip seen x id o :
  (qualifies x = false ∨ contribution_id x ≠ id) →
  candidate_inv seen id o → candidate_inv (seen ++ [x]) id o.
Proof.
  intros Hskip. assert (Hrp : relay_part id [x] = []).
  { apply elem_of_nil_inv. intros r (Hx%list_elem_of_singleton & Hq & Hid)%elem_of_relay_part.
    subst x. simpl in Hskip. destruct Hskip; congruence. }
  destruct o as [c|]; simpl.
  - rewrite relay_part_snoc, Hrp, app_nil_r. intros (? & (y & ? & ? & ? & ?) & Hs).
    split_and!; [done|exists y; set_solver|].
    intros z [?| ->]%elem_of_snoc ???; [by apply (Hs z)|]. destruct Hskip; congruence.
  - intros Hn z [?| ->]%elem_of_snoc ?; [by apply (Hn z)|]. destruct Hskip; congruence.
Qed.

Lemma relay_part_nil seen id :
  (∀ x, x ∈ seen → qualifies x = true → contribution_id x ≠ id) → relay_part id seen = [].
Proof.
  intros Hn. apply elem_of_nil_inv. intros r (Hin & Hq & Hid)%elem_of_relay_part.
  by apply (Hn _ Hin).
Qed.

Lemma candidate_inv_relay seen id o r :
  candidate_inv seen id o → relay_qualifies q r = true → re_id r = id →
  let c := default (mkCandidate (Signed (re_event r)) [] None) o in
  candidate_inv (seen ++ [SourceRelay r]) id
    (Some (mkCandidate (if is_signed (ca_event c) then ca_event c else Signed (re_event r))
             (ca_relay c ++ [r]) (ca_publication c))).
Proof.
  intros Hinv Hq Hid.
  assert (Hrp : relay_part id [SourceRelay r] = [r])
    by (unfold relay_part; cbn; rewrite Hq; cbn; by rewrite bool_decide_eq_true_2).
  destruct o as [c|]; cbn in Hinv |- *.
  - destruct Hinv as (Hrel & (y & ? & ? & ? & Hv) & Hs). rewrite relay_part_snoc, Hrp, Hrel.
    split_and!; [done| |].
    + destruct (is_signed (ca_event c)); [exists y; set_solver|].
      exists (SourceRelay r). set_solver.
    + intros _ _ _ _ _. by destruct (is_signed (ca_event c)) eqn:?.
  - rewrite relay_part_snoc, Hrp, (relay_part_nil _ _ Hinv). split_and!; [done| |done].
    exists (SourceRelay r). set_solver.
Qed.

Lemma candidate_inv_local seen id o l :
  candidate_inv seen id o → admits_local q = true → lw_id l = id →
  let c := default (mkCandidate (lw_event l) [] None) o in
  candidate_inv (seen ++ [SourceLocal l]) id
    (Some (mkCandidate (if is_signed (lw_event l) then lw_event l else ca_event c)
             (ca_relay c) (Some (default (lw_publication l) (ca_publication c))))).
Proof.
  intros Hinv Hq Hid.
  assert (Hrp : relay_part id [SourceLocal l] = []) by done.
  destruct o as [c|]; cbn in Hinv |- *; rewrite relay_part_snoc, Hrp, app_nil_r.
  - destruct Hinv as (Hrel & (y & ? & ? & ? & Hv) & Hs).
    split_and!; [done| |].
    + destruct (is_signed (lw_event l)); [|exists y; set_solver].
      exists (SourceLocal l). set_solver.
    + intros x [Hx| ->]%elem_of_snoc Hqx Hidx Hsx;
        destruct (is_signed (lw_event l)) eqn:?; simpl in *; try done; eauto. congruence.
  - rewrite (relay_part_nil _ _ Hinv). split_and!; [done| |].
    + exists (SourceLocal l). destruct (is_signed (lw_event l)); set_solver.
    + intros x [Hx| ->]%elem_of_snoc Hqx Hidx; [by destruct (Hinv x)|].
      by destruct (is_signed (lw_event l)) eqn:?.
Qed.

Lemma candidate_inv_step seen m x :
  (∀ id, candidate_inv seen id (m !! id)) →
  ∀ id, candidate_inv (seen ++ [x]) id (merge_qualifying_contribution q m x !! id).
Proof.
  intros Hinv id. destruct x as [r|l]; simpl.
  - destruct (relay_qualifies q r) eqn:Hq; simpl; [|by apply candidate_inv_skip; auto].
    rewrite lookup_insert. case_decide as Hid; [|apply candidate_inv_skip; auto].
    subst id. apply candidate_inv_relay; auto.
  - destruct (admits_local q) eqn:Hq; simpl; [|by apply candidate_inv_skip; auto].
    rewrite lookup_insert. case_decide as Hid; [|apply candidate_inv_skip; auto].
    subst id. apply candidate_inv_local; auto.
Qed.

Lemma candidate_inv_fold seen m l :
  (∀ id, candidate_inv seen id (m !! id)) →
  ∀ id, candidate_inv (seen ++ l) id (foldl (merge_qualifying_contribution q) m l !! id).
Proof.
  revert seen m. induction l as [|x l IH]; intros seen m Hinv; simpl; [by rewrite app_nil_r|].
  rewrite (cons_middle x), (assoc_L (++)). by apply IH, candidate_inv_step.
Qed.

Lemma merge_sources_inv sources id :
  candidate_inv (sources ≫= ss_events) id (merge_sources q sources !! id).
Proof.
  apply (candidate_inv_fold [] ∅). intros id'. rewrite lookup_empty.
  by intros x ?%not_elem_of_nil.
Qed.

(** The record of a candidate whose contributions agree on their id. *)
Definition record_of (id : EventId) (c : Candidate) : EventRecord :=
  mkRecord id (ca_event c)
    (mkOccurrences id (foldl merge_occurrence ∅ (re_occurrence <$> ca_relay c))) (ca_publication c).

Lemma wf_sources_elem sources x :
  wf_sources sources → x ∈ sources ≫= ss_events → wf_contribution x.
Proof.
  intros Hwf (s & Hx & Hs)%list_elem_of_bind. unfold wf_sources in Hwf.
  rewrite Forall_forall in Hwf. specialize (Hwf s Hs). rewrite Forall_forall in Hwf. auto.
Qed.

Lemma into_record_ok sources id c :
  wf_sources sources → merge_sources q sources !! id = Some c →
  into_record id c = Ok (record_of id c).
Proof.
  intros Hwf Hc. pose proof (merge_sources_inv sources id) as Hinv. rewrite Hc in Hinv.
  destruct Hinv as (Hrel & (x & Hx & _ & Hid & Hv) & _).
  apply (wf_sources_elem _ _ Hwf) in Hx. unfold wf_contribution in Hx.
  unfold into_record, relay_occurrences_for_event.
  rewrite (proj2 (existsb_not_elem _ _)).
  - simpl. unfold EventRecord_new. rewrite Hv, Hx, Hid. simpl.
    rewrite bool_decide_eq_false_2 by naive_solver. by rewrite <- Hv.
  - intros r. rewrite Hrel. intros (_ & _ & Hr)%elem_of_relay_part.
    by rewrite bool_decide_eq_false_2 by naive_solver.
Qed.

End candidates.

(** ** Lemmas: the pool of matching records *)

Section pool.
Context `{Nostr}.

Definition merged_records (q : Query) (sources : list SourceSnapshot) : list EventRecord :=
  (λ '(id, c), record_of id c) <$> entries (merge_sources q sources).

(** Every record the query may answer with, before winners are selected. *)
Definition pool (q : Query) (sources : list SourceSnapshot) : list EventRecord :=
  List.filter (matches_selection (q_selection q)) (merged_records q sources).

Lemma matching_records_ok q sources :
  wf_sources sources → matching_records q sources = Ok (pool q sources).
Proof.
  intros Hwf. unfold matching_records.
  assert (Hc : collect_results ((λ '(id, c), into_record id c) <$> entries (merge_sources q sources))
            = Ok (merged_records q sources)); [|by rewrite Hc].
  apply collect_results_Ok. unfold merged_records.
  apply Forall2_fmap_l, Forall2_fmap_r, Forall_Forall2_diag, Forall_forall.
  intros [id c] Hic. apply elem_of_entries in Hic. by eapply into_record_ok.
Qed.

Lemma merged_records_ids q sources : er_id <$> merged_records q sources = keys (merge_sources q sources).
Proof.
  unfold merged_records, keys. rewrite <- list_fmap_compose.
  apply list_fmap_ext. by intros i [id c] _.
Qed.

Lemma NoDup_pool_ids q sources : NoDup (er_id <$> pool q sources).
Proof.
  assert (Hm : NoDup (er_id <$> merged_records q sources))
    by (rewrite merged_records_ids; apply NoDup_keys).
  revert Hm. unfold pool. generalize (merged_records q sources) as l.
  induction l as [|r l IH]; simpl; [done|]. rewrite NoDup_cons. intros [Hr Hl].
  destruct (matches_selection _ r); simpl; [|by apply IH].
  apply NoDup_cons. split; [|by apply IH].
  rewrite list_elem_of_fmap. intros (r' & Hid & [_ Hr']%elem_of_filterb).
  apply Hr. rewrite Hid. by apply list_elem_of_fmap_2.
Qed.

Lemma elem_of_pool q sources r :
  r ∈ pool q sources ↔
  matches_selection (q_selection q) r = true ∧
  ∃ c, merge_sources q sources !! er_id r = Some c ∧ r = record_of (er_id r) c.
Proof.
  unfold pool, merged_records. rewrite elem_of_filterb, list_elem_of_fmap.
  split; intros [Hm Hr]; (split; [done|]).
  - destruct Hr as ([id c] & -> & Hic). rewrite elem_of_entries in Hic. eauto.
  - destruct Hr as (c & Hc & Heq). exists (er_id r, c). by rewrite elem_of_entries.
Qed.

(** The shortcut of [matches_nothing] only skips work once the query is bound. *)
Lemma pool_empty_axis q sources :
  matches_nothing q = true → depends_on_current_account q = false → pool q sources = [].
Proof.
  intros Hn Hb. apply elem_of_nil_inv. intros r [Hm _]%elem_of_pool.
  unfold matches_nothing in Hn. rewrite Hb in Hn. simpl in Hn.
  unfold matches_selection in Hm. rewrite !andb_true_iff in Hm. destruct Hm as [[[H1 H2] H3] H4].
  rewrite !orb_true_iff in Hn.
  assert (Haxis : ∀ (axis : option (gset N)) a, empty_axis axis = true → in_axis axis a = false).
  { intros [s|] a; simpl; [|done]. rewrite bool_decide_eq_true. intros ->.
    by rewrite bool_decide_eq_false_2 by set_solver. }
  destruct Hn as [[[Hn|Hn]|Hn]|Hn]; try (apply (Haxis _ (er_id r)) in Hn; congruence).
  - apply (Haxis _ (value_author (er_event r))) in Hn. congruence.
  - apply (Haxis _ (value_kind (er_event r))) in Hn. congruence.
  - apply existsb_elem in Hn as (v & (k & Hk)%elem_of_values & Hv).
    rewrite bool_decide_eq_true in Hv. subst v. rewrite forallb_elem in H4.
    specialize (H4 (k, ∅)). rewrite elem_of_entries in H4. specialize (H4 Hk). simpl in H4.
    unfold tag_matches in H4. apply existsb_elem in H4 as (t & _ & Ht).
    rewrite andb_true_iff in Ht. destruct Ht as [_ Ht]. case_match; [|done].
    by rewrite bool_decide_eq_true in Ht.
Qed.

Lemma merge_sort_strict o l :
  NoDup (er_id <$> l) →
  StronglySorted (λ a b, record_le o a b ∧ er_id a ≠ er_id b) (merge_sort (record_le o) l).
Proof.
  intros Hnd.
  assert (Htr : Transitive (record_le o)).
  { intros a b c. destruct o; simpl; [intros ??; by etrans|apply transitivity]. }
  assert (Htot : Total (record_le o)).
  { intros a b. destruct o; simpl; [destruct (total key_le (record_stamp a) (record_stamp b)); auto|].
    apply (total key_le). }
  assert (Hnd' : NoDup (er_id <$> merge_sort (record_le o) l))
    by (by rewrite merge_sort_Permutation).
  pose proof (StronglySorted_merge_sort (record_le o) l) as Hs.
  revert Hnd' Hs. generalize (merge_sort (record_le o) l) as k.
  induction k as [|r k IH]; simpl; [constructor|].
  rewrite NoDup_cons. intros [Hr Hk] [Hf Hs]%StronglySorted_cons.
  constructor; [by apply IH|]. rewrite Forall_forall in *. intros x Hx. split; [by apply Hf|].
  intros Heq. apply Hr. rewrite Heq. by apply list_elem_of_fmap_2.
Qed.

End pool.

(** ** Properties *)

Section evaluator_properties.
Context `{Nostr}.

(** The result order, strict: no two answers share an id. *)
Definition answer_order (o : QueryOrdering) (a b : EventRecord) : Prop :=
  record_le o a b ∧ er_id a ≠ er_id b.

Definition truncate_answer (l : option nat) (answer : list EventRecord) : list EventRecord :=
  match l with Some n => take n answer | None => answer end.

(** The pool the query is entitled to: nothing while it is still unbound. *)
Definition entitled (q : Query) (sources : list SourceSnapshot) : list EventRecord :=
  if depends_on_current_account q then [] else pool q sources.

Lemma evaluate_unfold q sources :
  wf_sources sources →
  evaluate q sources =
  Ok (evaluated (truncate_answer (q_limit q)
        (merge_sort (record_le (q_ordering q)) (coordinate_winners (entitled q sources)))) sources).
Proof.
  intros Hwf. unfold evaluate, entitled. rewrite matching_records_ok by done.
  destruct (matches_nothing q) eqn:Hn.
  - destruct (depends_on_current_account q) eqn:Hd; [|rewrite (pool_empty_axis q sources Hn Hd)];
      by destruct (q_limit q) as [[|n]|].
  - assert (depends_on_current_account q = false) as ->; [|done].
    unfold matches_nothing in Hn. rewrite !orb_false_iff in Hn. tauto.
Qed.

Lemma coordinate_winners_ids l : NoDup (er_id <$> l) → NoDup (er_id <$> coordinate_winners l).
Proof.
  intros Hnd. apply NoDup_fmap_2_strong.
  - intros x y Hx%coordinate_winners_win Hy%coordinate_winners_win Hxy.
    destruct Hx as [[i Hi]%list_elem_of_lookup _], Hy as [[j Hj]%list_elem_of_lookup _].
    assert (i = j) as ->; [|congruence].
    apply (NoDup_lookup _ _ _ (er_id x) Hnd); rewrite list_lookup_fmap, ?Hi, ?Hj; simpl; congruence.
  - eapply NoDup_fmap_1, coordinate_winners_distinct.
Qed.

Lemma entitled_ids q sources : NoDup (er_id <$> entitled q sources).
Proof. unfold entitled. case_match; [constructor|apply NoDup_pool_ids]. Qed.

(** C8. [evaluate] implements its specification: on well-formed sources it
    never fails, and its answer is the strictly ordered list of exactly the
    matching records that win their coordinate, cut at the query's limit.  An
    unbound query answers nothing, and the empty-axis shortcut agrees with
    full evaluation. *)
Theorem evaluate_refines_winners (q : Query) (sources : list SourceSnapshot)
    (Hwf : wf_sources sources) :
  ∃ answer,
    (∀ r, r ∈ answer ↔ wins (entitled q sources) r) ∧
    StronglySorted (answer_order (q_ordering q)) answer ∧
    evaluate q sources = Ok (evaluated (truncate_answer (q_limit q) answer) sources).
Proof.
  exists (merge_sort (record_le (q_ordering q)) (coordinate_winners (entitled q sources))).
  split_and!.
  - intros r. rewrite merge_sort_Permutation. apply elem_of_coordinate_winners, entitled_ids.
  - apply merge_sort_strict, coordinate_winners_ids, entitled_ids.
  - by apply evaluate_unfold.
Qed.

Lemma elem_of_truncate l answer r : r ∈ truncate_answer l answer → r ∈ answer.
Proof. destruct l; simpl; [|done]. intros (i & Hi & _)%elem_of_take.
  by eapply list_elem_of_lookup_2. Qed.

Lemma evaluate_elem q sources snap r :
  wf_sources sources → evaluate q sources = Ok snap → r ∈ qn_events snap → r ∈ pool q sources.
Proof.
  intros Hwf. rewrite evaluate_unfold by done. intros [= <-]. simpl.
  intros Hr%elem_of_truncate. rewrite merge_sort_Permutation in Hr.
  apply coordinate_winners_win in Hr as [Hr _]. unfold entitled in Hr. by case_match; [set_solver|].
Qed.

Lemma relay_qualifies_spec q r :
  relay_qualifies q r = true ↔
  oc_authority (re_occurrence r) = q_access q ∧
  ∀ relays, qs_authority (q_source q) = OnlyRelays relays → re_session r ∈ relays.
Proof.
  unfold relay_qualifies. case_bool_decide as Ha.
  - split; [done|]. by intros [? _].
  - destruct (qs_authority (q_source q)); [naive_solver|].
    rewrite bool_decide_eq_true. naive_solver.
Qed.

(** Answers never leak across authorities or provenance: every answered
    record matches the selection and carries the value of a contribution that
    qualified; each relay occurrence it reports was delivered under exactly
    the authority the query asked for, by a relay of the required set; and
    when the query demands provenance from a relay set, the record has such an
    occurrence. *)
Theorem evaluate_sound (q : Query) (sources : list SourceSnapshot) (snap : QuerySnapshot)
    (r : EventRecord)
    (Hwf : wf_sources sources) (Heval : evaluate q sources = Ok snap) (Hr : r ∈ qn_events snap) :
  matches_selection (q_selection q) r = true ∧
  (∃ x, x ∈ sources ≫= ss_events ∧ qualifies q x = true ∧
        contribution_id x = er_id r ∧ contribution_value x = er_event r) ∧
  (∀ s o, ocs_occurrences (er_relay_occurrences r) !! s = Some o →
     oc_authority o = q_access q ∧
     (∀ relays, qs_authority (q_source q) = OnlyRelays relays → s ∈ relays) ∧
     ∃ c, SourceRelay c ∈ sources ≫= ss_events ∧ re_id c = er_id r ∧ re_session c = s) ∧
  (∀ relays, qs_authority (q_source q) = OnlyRelays relays →
     ocs_occurrences (er_relay_occurrences r) ≠ ∅).
Proof.
  apply (evaluate_elem _ _ _ _ Hwf Heval) in Hr. apply elem_of_pool in Hr as (Hm & c & Hc & Hr).
  pose proof (merge_sources_inv q sources (er_id r)) as Hinv. rewrite Hc in Hinv.
  destruct Hinv as (Hrel & (x & Hx & Hqx & Hidx & Hvx) & _).
  assert (Hocc : ∀ s, ocs_occurrences (er_relay_occurrences r) !! s =
    foldl keep_earliest None (of_session s (re_occurrence <$> relay_part q (er_id r) (sources ≫= ss_events)))).
  { intros s. rewrite Hr at 1. simpl. by rewrite lookup_merge_occurrences, lookup_empty, Hrel. }
  split_and!; [done| | |].
  - exists x. split_and!; try done. rewrite Hr; simpl; congruence.
  - intros s o. rewrite Hocc.
    destruct (of_session s _) as [|first rest] eqn:Hs; [done|]. simpl.
    rewrite keep_earliest_fold. intros [= <-]. simpl.
    assert (Hf : first ∈ of_session s (re_occurrence <$> relay_part q (er_id r) (sources ≫= ss_events)))
      by (rewrite Hs; left).
    unfold of_session in Hf. rewrite elem_of_filterb, bool_decide_eq_true in Hf.
    destruct Hf as [Hses (c' & -> & (Hin & Hq & Hid)%elem_of_relay_part)%list_elem_of_fmap].
    apply relay_qualifies_spec in Hq as [? Hq]. rewrite <- Hses. eauto 10.
  - intros relays Hrel' Hempty. destruct x as [re|l]; simpl in Hqx;
      [|unfold admits_local in Hqx; by rewrite Hrel' in Hqx].
    assert (Hre : re ∈ relay_part q (er_id r) (sources ≫= ss_events))
      by (by apply elem_of_relay_part).
    specialize (Hocc (re_session re)). rewrite Hempty, lookup_empty in Hocc.
    assert (Hof : re_occurrence re ∈ of_session (re_session re)
       (re_occurrence <$> relay_part q (er_id r) (sources ≫= ss_events))).
    { apply elem_of_filterb. split; [by rewrite bool_decide_eq_true|by apply list_elem_of_fmap_2]. }
    destruct (of_session _ _) as [|first rest]; [set_solver|]. simpl in Hocc.
    by rewrite keep_earliest_fold in Hocc.
Qed.

(** Contributions that share an id share the fields a selection reads. *)
Definition consistent_sources (sources : list SourceSnapshot) : Prop :=
  ∀ x y, x ∈ sources ≫= ss_events → y ∈ sources ≫= ss_events →
    contribution_id x = contribution_id y →
    let v := contribution_value x in let w := contribution_value y in
    value_author v = value_author w ∧ value_kind v = value_kind w ∧
    value_tags v = value_tags w ∧ value_created_at v = value_created_at w.

(** The record a contribution would make on its own. *)
Definition lone_record (x : SourceEvent) : EventRecord :=
  mkRecord (contribution_id x) (contribution_value x) (mkOccurrences (contribution_id x) ∅) None.

Lemma lone_record_same q sources x :
  wf_sources sources → consistent_sources sources →
  x ∈ sources ≫= ss_events → qualifies q x = true →
  ∃ c, merge_sources q sources !! contribution_id x = Some c ∧
    let r := record_of (contribution_id x) c in
    matches_selection (q_selection q) r = matches_selection (q_selection q) (lone_record x) ∧
    record_coordinate r = record_coordinate (lone_record x) ∧
    record_stamp r = record_stamp (lone_record x).
Proof.
  intros Hwf Hcons Hx Hq. pose proof (merge_sources_inv q sources (contribution_id x)) as Hinv.
  destruct (merge_sources q sources !! contribution_id x) as [c|]; simpl in Hinv;
    [|by destruct (Hinv x)].
  exists c. split; [done|]. destruct Hinv as (_ & (y & Hy & _ & Hid & Hv) & _).
  destruct (Hcons y x Hy Hx Hid) as (Ha & Hk & Ht & Hc').
  unfold matches_selection, record_coordinate, record_stamp, er_created_at; simpl.
  by rewrite Hv, Ha, Hk, Ht, Hc'.
Qed.

Lemma wins_exists l r :
  NoDup (er_id <$> l) → r ∈ l →
  ∃ w, w ∈ coordinate_winners l ∧ record_coordinate w = record_coordinate r ∧
       ¬ newer (record_stamp r) (record_stamp w).
Proof.
  intros Hnd Hr. destruct (winners_inv_final l) as [Hm Hs].
  destruct (Hs r Hr) as [w Hw]. destruct (Hm _ _ Hw) as (_ & Hwc & Hmax).
  exists w. split; [|by auto]. unfold coordinate_winners. apply elem_of_values. eauto.
Qed.

(** Nothing that qualifies is lost: for a bound query without a limit,
    every qualifying contribution that matches the selection is represented in
    the answer by a record of its coordinate that is at least as new. *)
Theorem evaluate_complete (q : Query) (sources : list SourceSnapshot) (x : SourceEvent)
    (Hwf : wf_sources sources) (Hcons : consistent_sources sources)
    (Hbound : depends_on_current_account q = false) (Hlimit : q_limit q = None)
    (Hx : x ∈ sources ≫= ss_events) (Hq : qualifies q x = true)
    (Hm : matches_selection (q_selection q) (lone_record x) = true) :
  ∃ snap w, evaluate q sources = Ok snap ∧ w ∈ qn_events snap ∧
    record_coordinate w = record_coordinate (lone_record x) ∧
    event_is_newer (record_stamp (lone_record x)) (record_stamp w) = false.
Proof.
  destruct (lone_record_same _ _ _ Hwf Hcons Hx Hq) as (c & Hc & Hmr & Hcr & Hsr).
  assert (Hr : record_of (contribution_id x) c ∈ entitled q sources).
  { unfold entitled. rewrite Hbound. apply elem_of_pool. rewrite Hmr. simpl. eauto. }
  destruct (wins_exists _ _ (entitled_ids q sources) Hr) as (w & Hw & Hwc & Hwn).
  eexists _, w. rewrite evaluate_unfold by done. split; [done|]. rewrite Hlimit. simpl.
  rewrite merge_sort_Permutation. split_and!; [done|congruence|].
  apply event_is_newer_false. by rewrite <- Hsr.
Qed.

End evaluator_properties.

(** ** Current-account binding *)

Section binding.
Context `{Nostr}.

(** The current-account constraints a selection declares, read as a predicate. *)
Definition account_matches (s : FilterSelection) (current : option PublicKey) (r : EventRecord) : bool :=
  (if fs_authors_current_account s
   then bool_decide (current = Some (value_author (er_event r))) else true) &&
  forallb (λ key, match current with
                  | Some p => tag_matches (value_tags (er_event r)) key {[public_key_to_hex p]}
                  | None => false
                  end) (ordered_elements (fs_tag_values_current_account s)).

Definition account_value (current : option PublicKey) : gset string :=
  match current with Some p => {[public_key_to_hex p]} | None => ∅ end.

Lemma tag_matches_spec tags key accepted :
  tag_matches tags key accepted = true ↔
  ∃ tag value, tag ∈ tags ∧ tag_single_letter tag = Some key ∧
               tag_content tag = Some value ∧ value ∈ accepted.
Proof.
  unfold tag_matches. rewrite existsb_elem. split.
  - intros (tag & Hin & Ht). rewrite andb_true_iff, bool_decide_eq_true in Ht.
    destruct Ht as [Hk Hv]. destruct (tag_content tag) as [v|] eqn:Hc; [|done].
    rewrite bool_decide_eq_true in Hv. eauto 10.
  - intros (tag & v & Hin & Hk & Hc & Hv). exists tag. split; [done|].
    by rewrite Hk, Hc, !bool_decide_eq_true_2.
Qed.

Lemma lookup_narrow_tags supplied t ks key :
  NoDup ks →
  foldl (narrow_tag supplied) t ks !! key =
  if bool_decide (key ∈ ks) then Some (narrow_axis (t !! key) supplied) else t !! key.
Proof.
  revert t. induction ks as [|k ks IH]; intros t Hnd; cbn [foldl].
  - by rewrite bool_decide_eq_false_2 by set_solver.
  - apply NoDup_cons in Hnd as [Hk Hnd]. rewrite IH by done. unfold narrow_tag.
    destruct (decide (k = key)) as [->|Hne].
    + rewrite (bool_decide_eq_false_2 (key ∈ ks)), lookup_insert_eq by done.
      by rewrite bool_decide_eq_true_2 by set_solver.
    + rewrite lookup_insert_ne by done.
      destruct (decide (key ∈ ks)).
      * by rewrite !bool_decide_eq_true_2 by set_solver.
      * by rewrite !bool_decide_eq_false_2 by set_solver.
Qed.

Lemma forallb_entries {V} (m : gmap N V) (f : N → V → bool) :
  forallb (λ '(k, v), f k v) (entries m) = true ↔ ∀ k v, m !! k = Some v → f k v = true.
Proof.
  rewrite forallb_elem. split.
  - intros Hf k v Hk. apply (Hf (k, v)). by rewrite elem_of_entries.
  - intros Hf [k v] Hk. apply Hf. by rewrite <- elem_of_entries.
Qed.

(** One tag key holds a single value in the record's tags. *)
Definition single_valued (r : EventRecord) (key : SingleLetterTag) : Prop :=
  ∀ t1 t2, t1 ∈ value_tags (er_event r) → t2 ∈ value_tags (er_event r) →
    tag_single_letter t1 = Some key → tag_single_letter t2 = Some key →
    tag_content t1 = tag_content t2.

Lemma author_axis_bound s current (a : PublicKey) :
  in_axis (if fs_authors_current_account s
           then Some (narrow_axis (fs_authors s) (match current with Some p => {[p]} | None => ∅ end))
           else fs_authors s) a =
  in_axis (fs_authors s) a &&
  (if fs_authors_current_account s then bool_decide (current = Some a) else true).
Proof.
  destruct (fs_authors_current_account s); [|by rewrite andb_true_r].
  assert (Hc : bool_decide (current = Some a) =
    bool_decide (a ∈ match current with Some p => {[p]} | None => ∅ : gset N end)).
  { apply bool_decide_ext. destruct current; set_solver. }
  rewrite Hc. destruct (fs_authors s) as [l|]; simpl; [|done].
  by rewrite <- bool_decide_and; apply bool_decide_ext; rewrite elem_of_intersection.
Qed.

Lemma bind_current_account_forward (q : Query) current r :
  let s := q_selection q in
  matches_selection (q_selection (bind_current_account q current)) r = true →
  matches_selection s r && account_matches s current r = true.
Proof.
  intros s.
  unfold matches_selection, bind_current_account, account_matches. cbn -[in_axis].
  fold s. rewrite author_axis_bound, !andb_true_iff.
  intros [[[Hi [Ha Hc]] Hk] Ht]. rewrite forallb_entries in Ht.
  assert (Hlook : ∀ key, foldl (narrow_tag (account_value current)) (fs_tag_values s)
      (ordered_elements (fs_tag_values_current_account s)) !! key =
    if bool_decide (key ∈ ordered_elements (fs_tag_values_current_account s))
    then Some (narrow_axis (fs_tag_values s !! key) (account_value current))
    else fs_tag_values s !! key)
    by (intros key; apply lookup_narrow_tags, NoDup_ordered_elements).
  split_and!; try done.
  - rewrite forallb_entries. intros key v Hv. specialize (Hlook key). rewrite Hv in Hlook.
    case_bool_decide.
    + specialize (Ht _ _ Hlook). simpl in Ht. apply tag_matches_spec in Ht as (t & w & ? & ? & ? & ?).
      apply tag_matches_spec. exists t, w. set_solver.
    + by apply Ht in Hlook.
  - rewrite forallb_elem. intros key Hkey. specialize (Hlook key).
    rewrite bool_decide_eq_true_2 in Hlook by done. specialize (Ht _ _ Hlook).
    apply tag_matches_spec in Ht as (t & w & ? & ? & ? & Hw).
    assert (Hw' : w ∈ account_value current) by (destruct (fs_tag_values s !! key); set_solver).
    destruct current as [p|]; simpl in Hw'; [|set_solver].
    apply tag_matches_spec. exists t, w. done.
Qed.

(** Binding the current account narrows a query and never widens it: the
    bound query depends on no account, and every record it matches is matched
    by the literal axes and satisfies every declared account constraint.  When
    each account-bound tag key holds one value in the record, the two
    readings coincide exactly. *)
Theorem bind_current_account_narrows (q : Query) (current : option PublicKey) (r : EventRecord) :
  let s := q_selection q in
  let bound := bind_current_account q current in
  depends_on_current_account bound = false ∧
  (matches_selection (q_selection bound) r = true →
     matches_selection s r && account_matches s current r = true) ∧
  ((∀ key, key ∈ fs_tag_values_current_account s → single_valued r key) →
     matches_selection (q_selection bound) r = matches_selection s r && account_matches s current r).
Proof.
  intros s bound.
  split_and!; [by unfold depends_on_current_account, selection_depends_on_current_account, bound|by apply bind_current_account_forward|].
  intros Hsingle. apply eq_true_iff_eq.
  split; [by apply bind_current_account_forward|].
  unfold matches_selection, bound, bind_current_account, account_matches. cbn -[in_axis]. fold s.
  rewrite author_axis_bound, !andb_true_iff. intros [[[[Hi Ha] Hk] Ht] [Hc Hacc]].
  split_and!; try done. rewrite forallb_entries in Ht |- *. intros key v.
  rewrite (lookup_narrow_tags (account_value current)) by apply NoDup_ordered_elements.
  destruct (decide (key ∈ ordered_elements (fs_tag_values_current_account s))) as [Hkey|Hkey];
    [rewrite bool_decide_eq_true_2 by done|rewrite bool_decide_eq_false_2 by done; by apply Ht].
  intros [= <-]. rewrite forallb_elem in Hacc. specialize (Hacc key Hkey).
  destruct current as [p|]; [|done].
  apply tag_matches_spec in Hacc as (t & w & Ht1 & Ht2 & Ht3 & Hw). simpl.
  destruct (fs_tag_values s !! key) as [lit|] eqn:Hlit; simpl.
  - specialize (Ht _ _ Hlit). apply tag_matches_spec in Ht as (t' & w' & ? & ? & ? & ?).
    apply elem_of_ordered_elements in Hkey.
    assert (Some w = Some w') as [= ->] by (rewrite <- Ht3; by rewrite (Hsingle key Hkey t t')).
    apply tag_matches_spec. exists t, w'. set_solver.
  - apply tag_matches_spec. by exists t, w.
Qed.

End binding.

(** ** Witnesses *)

Module EvaluatorWitness.
Definition note : Event := mkEvent 1 7 10 1 [["t"; "nostr"]] "hello" 1.
Definition profile_old : Event := mkEvent 2 7 5 0 [] "old" 2.
Definition profile_new : Event := mkEvent 3 7 9 0 [] "new" 3.
Definition seen (e : Event) : SourceEvent := SourceRelay (RelayEvent_new e "wss://a" Unauthenticated 100).
Definition cache : SourceSnapshot :=
  SourceSnapshot_current EventCacheSource 3 [seen note; seen profile_old; seen profile_new].

Lemma cache_wf : wf_sources [cache].
Proof. repeat constructor. Qed.

Lemma cache_consistent : consistent_sources [cache].
Proof.
  intros x y Hx Hy. change (x ∈ [seen note; seen profile_old; seen profile_new]) in Hx.
  change (y ∈ [seen note; seen profile_old; seen profile_new]) in Hy.
  elem_cases Hx; elem_cases Hy; done.
Qed.

(** The answer of an unconstrained query: the note, then the newer profile. *)
Lemma evaluate_refines_winners_witness :
  ∃ answer, evaluate events [cache] = Ok (evaluated answer [cache]).
Proof.
  destruct (evaluate_refines_winners events [cache] cache_wf) as (answer & _ & _ & Heq).
  by exists answer.
Defined.

Example evaluate_example :
  (er_id <$> match evaluate events [cache] with Ok s => qn_events s | Err _ => [] end) = [1%N; 3%N].
Proof. vm_compute. reflexivity. Qed.

Lemma evaluate_sound_witness :
  matches_selection (q_selection events)
    (record_of 1 (mkCandidate (Signed note) [RelayEvent_new note "wss://a" Unauthenticated 100] None)) = true.
Proof.
  refine (proj1 (evaluate_sound events [cache] _ _ cache_wf eq_refl _)).
  vm_compute. left.
Defined.

Lemma evaluate_complete_witness :
  ∃ snap w, evaluate events [cache] = Ok snap ∧ w ∈ qn_events snap ∧
    record_coordinate w = CoordReplaceable 7 0 None ∧
    event_is_newer (5%N, 2%N) (record_stamp w) = false.
Proof.
  refine (evaluate_complete events [cache] (seen profile_old) cache_wf cache_consistent
            eq_refl eq_refl _ eq_refl eq_refl).
  right. left.
Defined.
End EvaluatorWitness.
