(* ===== verification/EventCache.v ===== *)
(** * The event-cache contract ([crates/fava-event-cache])

    [EventCache] is the provider contract: the retained contributions and the
    single serialized writer [transact].  [admit] and [expire] are the trait's
    default methods, written once over the contract.  [EventCacheLaws] states
    what a provider promises; the theorems on admission are proved from these
    promises, so they hold of every provider that discharges them. *)

From S2P Require Import Prelude Nostr Relay State Write Query.

Inductive EventCacheError :=
| CacheClosed
| CacheRefused (reason : string).

(** [transact] reads the current contributions, lets the caller decide a
    batch from them, and commits it.  [A] is what the deciding closure leaves
    in the cells it captures. *)
Class EventCache (S : Type) := {
  ec_current : S → list RelayEvent;
  ec_transact : ∀ {A}, S → (list RelayEvent → list EventStateMutation * A) →
    result EventCacheError (nat * A) * S
}.

Section contract.
Context `{Nostr} {S : Type} `{!EventCache S}.

Definition still_live (now : Timestamp) (current : list RelayEvent) : list RelayEvent :=
  List.filter (λ known, negb (event_is_expired (ev_tags (re_event known)) now)) current.

(** The closure of [admit]: sweep, then decide against what is still live. *)
Definition admit_decide (event : RelayEvent) (now : Timestamp) (current : list RelayEvent)
    : list EventStateMutation * bool :=
  let admission := mutations_for_event (still_live now current) event now in
  (mutations_for_expiration current now ++ admission, negb (bool_decide (admission = []))).

Definition admit_event (s : S) (event : RelayEvent) (now : Timestamp) : result EventCacheError bool * S :=
  let '(r, s') := ec_transact s (admit_decide event now) in
  (match r with Ok (_, admitted) => Ok admitted | Err e => Err e end, s').

Definition expire (s : S) (now : Timestamp) : result EventCacheError nat * S :=
  let '(r, s') := ec_transact s (λ current, (mutations_for_expiration current now, tt)) in
  (match r with Ok (n, _) => Ok n | Err e => Err e end, s').

(** ** What a provider promises *)

Definition contribution_key (r : RelayEvent) : EventId * RelayUrl := (re_id r, re_session r).

Definition retracts (batch : list EventStateMutation) (r : RelayEvent) : Prop :=
  ∃ cause, Retract (re_id r) (re_session r) cause ∈ batch.

(** Retained contributions have distinct keys and verified events. *)
Definition well_kept (current : list RelayEvent) : Prop :=
  NoDup (contribution_key <$> current) ∧
  ∀ r, r ∈ current → event_verify (re_event r) = None.

(** What a committed batch may leave behind. *)
Definition batch_committed (current : list RelayEvent) (batch : list EventStateMutation)
    (current' : list RelayEvent) : Prop :=
  (∀ r, r ∈ current' → (r ∈ current ∧ ¬ retracts batch r) ∨ Upsert r ∈ batch) ∧
  (∀ pre r, batch = pre ++ [Upsert r] → (∀ r', Upsert r' ∉ pre) →
     ∃ r', r' ∈ current' ∧ contribution_key r' = contribution_key r ∧
           (re_observed_at r' ≤ re_observed_at r)%N).

Class EventCacheLaws := {
  (** states a provider can be in, closed under its writer *)
  ec_valid : S → Prop;
  ec_valid_transact A s (decide : list RelayEvent → list EventStateMutation * A) :
    ec_valid s → ec_valid (ec_transact s decide).2;
  ec_well_kept s : ec_valid s → well_kept (ec_current s);
  (** an error, or an empty batch, leaves the contributions alone *)
  ec_transact_err A s (decide : list RelayEvent → list EventStateMutation * A) e s' :
    ec_transact s decide = (Err e, s') → ec_current s' = ec_current s;
  ec_transact_nil A s (decide : list RelayEvent → list EventStateMutation * A) a :
    decide (ec_current s) = ([], a) → ec_transact s decide = (Ok (0, a), s);
  (** success commits exactly the batch that was decided from current state; a
      provider may count a batch that changes nothing as no mutation at all *)
  ec_transact_ok A s (decide : list RelayEvent → list EventStateMutation * A) n a s' :
    ec_valid s → ec_transact s decide = (Ok (n, a), s') →
    ∃ batch, decide (ec_current s) = (batch, a) ∧ (n = length batch ∨ (n = 0 ∧ s' = s)) ∧
      batch_committed (ec_current s) batch (ec_current s')
}.

End contract.
#[global] Arguments EventCacheLaws {_} S {_}.

(** ** Admission keeps the event state sound *)

Section admission.
Context `{Nostr} {S : Type} `{!EventCache S} `{!EventCacheLaws S}.

(** No retained event is covered by a retained deletion. *)
Definition no_tombstoned (current : list RelayEvent) : Prop :=
  ∀ d t, d ∈ current → t ∈ current → deletes (re_event d) (re_event t) = false.

(** One session holds at most one version of a replaceable coordinate. *)
Definition one_per_coordinate (current : list RelayEvent) : Prop :=
  ∀ r1 r2 author kind identifier, r1 ∈ current → r2 ∈ current →
    re_session r1 = re_session r2 →
    ev_kind (re_event r1) ≠ kind_event_deletion → ev_kind (re_event r2) ≠ kind_event_deletion →
    coordinate_of (re_event r1) = CoordReplaceable author kind identifier →
    coordinate_of (re_event r2) = CoordReplaceable author kind identifier → r1 = r2.

Definition event_state_sound (current : list RelayEvent) : Prop :=
  no_tombstoned current ∧ one_per_coordinate current.

Lemma elem_of_still_live now current r :
  r ∈ still_live now current ↔ r ∈ current ∧ event_is_expired (ev_tags (re_event r)) now = false.
Proof. unfold still_live. rewrite elem_of_filterb, negb_true_iff. tauto. Qed.

Lemma elem_of_expirations now current m :
  m ∈ mutations_for_expiration current now ↔
  ∃ r, r ∈ current ∧ event_is_expired (ev_tags (re_event r)) now = true ∧ m = retract_of Expired r.
Proof.
  unfold mutations_for_expiration. rewrite list_elem_of_fmap.
  setoid_rewrite elem_of_filterb. naive_solver.
Qed.

Lemma expirations_retract now current r :
  r ∈ current → event_is_expired (ev_tags (re_event r)) now = true →
  retracts (mutations_for_expiration current now) r.
Proof. intros Hr He. exists Expired. apply elem_of_expirations. eauto. Qed.

Lemma expirations_no_upsert now current r : Upsert r ∉ mutations_for_expiration current now.
Proof. intros (k & _ & _ & Hk)%elem_of_expirations. done. Qed.

Lemma retracts_fmap cause victims v batch :
  v ∈ victims → retracts ((retract_of cause <$> victims) ++ batch) v.
Proof.
  intros Hv. exists cause. apply elem_of_app. left. apply list_elem_of_fmap. by exists v.
Qed.

Lemma retracts_app_l b1 b2 r : retracts b1 r → retracts (b1 ++ b2) r.
Proof. intros [c Hc]. exists c. apply elem_of_app. by left. Qed.
Lemma retracts_app_r b1 b2 r : retracts b2 r → retracts (b1 ++ b2) r.
Proof. intros [c Hc]. exists c. apply elem_of_app. by right. Qed.

Lemma upsert_snoc_retracts cause victims r r' :
  Upsert r' ∈ (retract_of cause <$> victims) ++ [Upsert r] → r' = r.
Proof.
  intros [(v & ? & _)%list_elem_of_fmap|Hr]%elem_of_snoc; [done|]. by injection Hr.
Qed.

(** Survivors of a committed batch, seen against the live contributions. *)
Lemma committed_survivor current now admission current' r :
  batch_committed current (mutations_for_expiration current now ++ admission) current' →
  r ∈ current' →
  (r ∈ still_live now current ∧ ¬ retracts admission r) ∨ Upsert r ∈ admission.
Proof.
  intros [Hfrom _] Hr. destruct (Hfrom r Hr) as [[Hc Hn]|Hu].
  - left. split; [|by intros ?%(retracts_app_r (mutations_for_expiration current now))].
    apply elem_of_still_live. split; [done|]. apply not_true_is_false. intros He.
    apply Hn, retracts_app_l. by apply expirations_retract.
  - right. apply elem_of_app in Hu as [Hu|?]; [|done]. by apply expirations_no_upsert in Hu.
Qed.

Lemma NoDup_key_eq current r1 r2 :
  NoDup (contribution_key <$> current) → r1 ∈ current → r2 ∈ current →
  contribution_key r1 = contribution_key r2 → r1 = r2.
Proof.
  intros Hnd [i Hi]%list_elem_of_lookup [j Hj]%list_elem_of_lookup Hk.
  assert (i = j) as ->; [|congruence].
  apply (NoDup_lookup _ _ _ (contribution_key r1) Hnd); rewrite list_lookup_fmap, ?Hi, ?Hj; simpl; congruence.
Qed.

Lemma sound_subset current current' :
  (∀ r, r ∈ current' → r ∈ current) → event_state_sound current → event_state_sound current'.
Proof. intros Hsub [Ht Ho]. split; [intros d t ??|intros r1 r2 ??????]; eauto. Qed.

Lemma admission_upsert current incoming now batch :
  admission current incoming now batch → ∀ r, Upsert r ∈ batch → r = incoming.
Proof.
  destruct 1; intros r Hr.
  - by apply not_elem_of_nil in Hr.
  - by apply upsert_snoc_retracts in Hr.
  - apply list_elem_of_singleton in Hr. by injection Hr.
  - by apply upsert_snoc_retracts in Hr.
Qed.

Lemma retracts_no_upsert cause (victims : list RelayEvent) r : Upsert r ∉ (retract_of cause <$> victims).
Proof. by intros (v & ? & _)%list_elem_of_fmap. Qed.

Lemma admission_upsert_last current incoming now batch :
  admission current incoming now batch → batch ≠ [] →
  ∃ pre, batch = pre ++ [Upsert incoming] ∧ ∀ r, Upsert r ∉ pre.
Proof.
  destruct 1; intros Hne; [done|..].
  - eexists. split; [done|]. intros r. apply retracts_no_upsert.
  - exists []. split; [done|]. intros r. apply not_elem_of_nil.
  - eexists. split; [done|]. intros r. apply retracts_no_upsert.
Qed.

Lemma admission_live current incoming now batch :
  admission current incoming now batch → batch ≠ [] →
  event_is_expired (ev_tags (re_event incoming)) now = false.
Proof. by destruct 1. Qed.

Lemma admission_not_deleted current incoming now batch :
  admission current incoming now batch → batch ≠ [] →
  ∀ k, k ∈ current → deletes (re_event k) (re_event incoming) = false.
Proof. destruct 1; intros Hne k Hk; [done|by apply deletes_deletion_target|auto|auto]. Qed.

Lemma tombstones_kept current now incoming batch current' :
  no_tombstoned current → admission (still_live now current) incoming now batch → batch ≠ [] →
  batch_committed current (mutations_for_expiration current now ++ batch) current' →
  no_tombstoned current'.
Proof.
  intros Hno Hadm Hne Hc d t Hd Ht.
  pose proof (committed_survivor _ _ _ _ _ Hc Hd) as Hd'.
  pose proof (committed_survivor _ _ _ _ _ Hc Ht) as Ht'.
  assert (Hlive : ∀ r, r ∈ still_live now current → r ∈ current)
    by (intros r ?%elem_of_still_live; tauto).
  pose proof (admission_upsert _ _ _ _ Hadm) as Hup.
  destruct Hd' as [[Hd1 Hd2]| ->%Hup], Ht' as [[Ht1 Ht2]| ->%Hup].
  - by apply Hno; apply Hlive.
  - by eapply admission_not_deleted.
  - destruct Hadm; [done| |by apply deletes_not_deletion|by apply deletes_not_deletion].
    apply not_true_is_false. intros Hdel. apply Ht2, retracts_fmap.
    apply elem_of_filterb. done.
  - destruct (decide (ev_kind (re_event incoming) = kind_event_deletion)).
    + by apply deletes_deletion_target.
    + by apply deletes_not_deletion.
Qed.

Lemma coordinate_of_binding e1 e2 :
  EventIdBinding → event_verify e1 = None → event_verify e2 = None → ev_id e1 = ev_id e2 →
  coordinate_of e1 = coordinate_of e2.
Proof.
  intros Hb H1 H2 Hid. destruct (Hb e1 e2 H1 H2 Hid) as (Hp & Hk & _ & Ht).
  unfold coordinate_of. by rewrite Hid, Hp, Hk, Ht.
Qed.

(** A survivor in the incoming event's own slot of a coordinate is the incoming event. *)
Lemma incoming_slot current now incoming batch current' r author kind identifier :
  EventIdBinding → well_kept current → well_kept current' → one_per_coordinate current →
  admission (still_live now current) incoming now batch → batch ≠ [] →
  batch_committed current (mutations_for_expiration current now ++ batch) current' →
  incoming ∈ current' → r ∈ current' → r ∈ still_live now current → ¬ retracts batch r →
  re_session r = re_session incoming →
  ev_kind (re_event incoming) ≠ kind_event_deletion → ev_kind (re_event r) ≠ kind_event_deletion →
  coordinate_of (re_event incoming) = CoordReplaceable author kind identifier →
  coordinate_of (re_event r) = CoordReplaceable author kind identifier → r = incoming.
Proof.
  intros Hb [Hk Hv] [Hk' Hv'] Hone Hadm Hne Hc Hin Hr Hlive Hnr Hs Hki Hkr Hci Hcr.
  apply (NoDup_key_eq current'); try done.
  inversion Hadm as [|Hdel|existing ? ? ? Hex [Hid Hse] ?|victims ? ? ? ? ? Hvic]; subst; try done.
  - assert (r = existing) as ->; [|unfold contribution_key; congruence].
    apply elem_of_still_live in Hlive as [Hrc _]. apply elem_of_still_live in Hex as [Hexc _].
    assert (Hce : coordinate_of (re_event existing) = coordinate_of (re_event incoming))
      by (apply coordinate_of_binding; auto).
    eapply Hone; try done; [congruence| |congruence].
    destruct (Hb (re_event existing) (re_event incoming)) as (_ & -> & _); auto.
  - exfalso. destruct (Hvic r Hlive Hs) as [Hrv|Hce]; [congruence| |congruence].
    by apply Hnr, retracts_fmap.
Qed.

Lemma coordinates_kept current now incoming batch current' :
  EventIdBinding → well_kept current → well_kept current' → one_per_coordinate current →
  admission (still_live now current) incoming now batch → batch ≠ [] →
  batch_committed current (mutations_for_expiration current now ++ batch) current' →
  one_per_coordinate current'.
Proof.
  intros Hb Hw Hw' Hone Hadm Hne Hc r1 r2 a k i H1 H2 Hs Hk1 Hk2 Hc1 Hc2.
  pose proof (admission_upsert _ _ _ _ Hadm) as Hup.
  destruct (committed_survivor _ _ _ _ _ Hc H1) as [[L1 N1]|E1%Hup],
    (committed_survivor _ _ _ _ _ Hc H2) as [[L2 N2]|E2%Hup].
  - apply elem_of_still_live in L1 as [? _], L2 as [? _]. by eapply Hone.
  - subst r2. by apply (incoming_slot current now incoming batch current' r1 a k i).
  - subst r1. symmetry. by apply (incoming_slot current now incoming batch current' r2 a k i).
  - by subst.
Qed.

(** ** Properties *)

(** C21. Admission keeps the event state sound, for every lawful provider: if
    no retained event is covered by a retained deletion and every session
    holds one version per replaceable coordinate, the same holds after
    [admit], whatever it returns. *)
Theorem admit_keeps_event_state_sound (s : S) (event : RelayEvent) (now : Timestamp)
    (Hbind : EventIdBinding) (Hvalid : ec_valid s) (Hsound : event_state_sound (ec_current s)) :
  ec_valid (admit_event s event now).2 ∧ event_state_sound (ec_current (admit_event s event now).2).
Proof.
  unfold admit_event. pose proof (ec_valid_transact _ s (admit_decide event now) Hvalid) as Hv'.
  destruct (ec_transact s (admit_decide event now)) as [r s'] eqn:Ht. simpl in *.
  split; [done|]. destruct r as [[n admitted]|e];
    [|by rewrite (ec_transact_err _ _ _ _ _ Ht)].
  destruct (ec_transact_ok _ _ _ _ _ _ Hvalid Ht) as (batch & Hbatch & _ & Hc).
  unfold admit_decide in Hbatch. injection Hbatch as <- _.
  pose proof (mutations_for_event_admission (still_live now (ec_current s)) event now) as Hadm.
  destruct (decide (mutations_for_event (still_live now (ec_current s)) event now = [])) as [E|E].
  - apply (sound_subset (ec_current s)); [|done]. intros r Hr.
    rewrite E in Hc. destruct (committed_survivor _ _ _ _ _ Hc Hr) as [[Hl _]|Hu];
      [by apply elem_of_still_live in Hl as [? _]|by apply not_elem_of_nil in Hu].
  - destruct Hsound as [Hno Hone]. split.
    + by eapply tombstones_kept.
    + apply (coordinates_kept _ now event _ _ Hbind (ec_well_kept _ Hvalid) (ec_well_kept _ Hv')
               Hone Hadm E Hc).
Qed.

(** A deleted event is never resurrected: while a lawful provider retains
    a live deletion of an event, admitting that event reports [false] and the
    event does not become retained. *)
Theorem admit_never_resurrects (s : S) (d : RelayEvent) (event : RelayEvent) (now : Timestamp)
    (Hvalid : ec_valid s) (Hd : d ∈ ec_current s)
    (Hlive : event_is_expired (ev_tags (re_event d)) now = false)
    (Hdel : deletes (re_event d) (re_event event) = true)
    (Habsent : event ∉ ec_current s) :
  ((admit_event s event now).1 = Ok false ∨ ∃ e, (admit_event s event now).1 = Err e) ∧
  event ∉ ec_current (admit_event s event now).2.
Proof.
  assert (Hnil : mutations_for_event (still_live now (ec_current s)) event now = []).
  { unfold mutations_for_event. rewrite (proj2 (orb_true_iff _ _)); [done|]. right.
    apply existsb_elem. exists d. by rewrite elem_of_still_live. }
  unfold admit_event. destruct (ec_transact s (admit_decide event now)) as [r s'] eqn:Ht. simpl.
  destruct r as [[n admitted]|e].
  - destruct (ec_transact_ok _ _ _ _ _ _ Hvalid Ht) as (batch & Hbatch & _ & Hc).
    unfold admit_decide in Hbatch. rewrite Hnil in Hbatch. simpl in Hbatch.
    injection Hbatch as <- <-. split; [by left|].
    intros Hin. destruct (committed_survivor _ _ _ _ _ Hc Hin) as [[Hl _]|Hu].
    + by apply elem_of_still_live in Hl as [? _].
    + by apply not_elem_of_nil in Hu.
  - split; [eauto|]. by rewrite (ec_transact_err _ _ _ _ _ Ht).
Qed.

(** [admit] tells the truth: when it reports [true], a contribution for
    exactly that event and session is retained afterwards, observed no later
    than the delivery admitted; and no expired contribution survives a
    committed admission. *)
Theorem admit_true_retains (s : S) (event : RelayEvent) (now : Timestamp) (s' : S)
    (admitted : bool)
    (Hvalid : ec_valid s) (Hadmit : admit_event s event now = (Ok admitted, s')) :
  (admitted = true →
     ∃ r, r ∈ ec_current s' ∧ contribution_key r = contribution_key event ∧
          (re_observed_at r ≤ re_observed_at event)%N) ∧
  (∀ r, r ∈ ec_current s' → event_is_expired (ev_tags (re_event r)) now = false).
Proof.
  unfold admit_event in Hadmit. destruct (ec_transact s (admit_decide event now)) as [r0 s0] eqn:Ht.
  destruct r0 as [[n a]|e]; [injection Hadmit as -> ->|done].
  destruct (ec_transact_ok _ _ _ _ _ _ Hvalid Ht) as (batch & Hbatch & _ & Hc).
  unfold admit_decide in Hbatch. injection Hbatch as <- <-.
  pose proof (mutations_for_event_admission (still_live now (ec_current s)) event now) as Hadm.
  split.
  - rewrite negb_true_iff, bool_decide_eq_false. intros Hne. destruct Hc as [_ Hkeep].
    destruct (admission_upsert_last _ _ _ _ Hadm Hne) as (pre & Heq & Hpre). rewrite Heq in Hkeep.
    eapply Hkeep; [by rewrite (assoc_L (++))|].
    intros r [?%expirations_no_upsert|?%Hpre]%elem_of_app; done.
  - intros r Hr. destruct (committed_survivor _ _ _ _ _ Hc Hr) as [[Hl _]|Hu].
    + by apply elem_of_still_live in Hl as [_ ?].
    + pose proof (admission_upsert _ _ _ _ Hadm _ Hu) as ->. eapply admission_live; [exact Hadm|].
      intros Hnil. rewrite Hnil in Hu. by apply not_elem_of_nil in Hu.
Qed.

End admission.
