(* ===== verification/MemoryCache.v ===== *)
(** * The bounded in-memory event cache ([crates/fava-event-cache-memory])

    [MemoryEventCache] holds the state behind the cache's lock and the snapshot
    it last published on its watch channel.  Every operation takes the whole
    lock, so an operation is a function on that pair; a poisoned lock (a panic
    inside the deciding closure) is not modelled.  The file discharges the
    [EventCache] contract and adds what is particular to this provider: the
    capacity bound, tombstone-preserving eviction, exact retraction reports and
    snapshot coherence. *)

From S2P Require Import Prelude Nostr Relay State Write Query EventCache.

Abbreviation cache_key := (EventId * RelayUrl)%type (only parsing).

Record CacheState := mkCacheState {
  cs_revision : N;
  cs_events : gmap (EventId * RelayUrl) RelayEvent;
  cs_retractions : list SourceRetraction;
  cs_coverage : list SourceCoverage
}.

Record MemoryEventCache := mkCache {
  mc_capacity : nat;
  mc_state : CacheState;
  mc_latest : SourceSnapshot
}.

Definition default_cache_state : CacheState := mkCacheState 0 ∅ [] [].

(** [MemoryEventCache::bounded]; the capacity is a [NonZeroUsize]. *)
Definition bounded (capacity : nat) : MemoryEventCache :=
  mkCache capacity default_cache_state (SourceSnapshot_empty EventCacheSource).

Definition snapshot (state : CacheState) : SourceSnapshot :=
  mkSnapshot EventCacheSource (cs_revision state) SourceOpen
    (SourceRelay <$> values (cs_events state)) (cs_retractions state).

(** The working copy a batch builds: retained events and this revision's retractions. *)
Abbreviation working := (gmap (EventId * RelayUrl) RelayEvent * list SourceRetraction)%type (only parsing).

(** The retraction half of [apply]'s loop. *)
Definition apply_retract (w : gmap (EventId * RelayUrl) RelayEvent * list SourceRetraction)
    (event_id : EventId) (session : RelayUrl) (cause : RetractionCause)
    : gmap (EventId * RelayUrl) RelayEvent * list SourceRetraction :=
  match w.1 !! (event_id, session) with
  | Some _ => (delete (event_id, session) w.1, w.2 ++ [mkRetraction event_id cause])
  | None => w
  end.

(** [for mutation in mutations]: retract at once, set upserts aside. *)
Fixpoint apply_retracts (w : gmap (EventId * RelayUrl) RelayEvent * list SourceRetraction)
    (mutations : list EventStateMutation)
    : (gmap (EventId * RelayUrl) RelayEvent * list SourceRetraction) * list RelayEvent :=
  match mutations with
  | [] => (w, [])
  | Retract id session cause :: mutations => apply_retracts (apply_retract w id session cause) mutations
  | Upsert incoming :: mutations =>
      let '(w', upserts) := apply_retracts w mutations in (w', incoming :: upserts)
  end.

(** [iter().filter(non-deletion).min_by_key((created_at, id))]: the first
    least entry in iteration order. *)
Definition stamp_lt (p q : Timestamp * EventId) : Prop := key_le p q ∧ p ≠ q.

#[global] Instance stamp_lt_dec : RelDecision stamp_lt.
Proof. intros p q. unfold stamp_lt. apply _. Defined.

Definition min_step (acc : option (EventId * RelayUrl * RelayEvent))
    (entry : EventId * RelayUrl * RelayEvent) : option (EventId * RelayUrl * RelayEvent) :=
  if bool_decide (ev_kind (re_event entry.2) = kind_event_deletion) then acc
  else match acc with
       | None => Some entry
       | Some least =>
           if bool_decide (stamp_lt (stamp (re_event entry.2)) (stamp (re_event least.2)))
           then Some entry else acc
       end.

Definition eviction_candidate (events : gmap (EventId * RelayUrl) RelayEvent)
    : option (EventId * RelayUrl * RelayEvent) :=
  foldl min_step None (entries events).

Section memory.
Context `{Nostr}.

Definition refused {A} (reason : string) : result EventCacheError A := Err (CacheRefused reason).

(** One iteration of [for incoming in upserts]. *)
Definition apply_upsert (capacity : nat)
    (w : gmap (EventId * RelayUrl) RelayEvent * list SourceRetraction) (incoming : RelayEvent)
    : result EventCacheError (gmap (EventId * RelayUrl) RelayEvent * list SourceRetraction) :=
  match event_verify (re_event incoming) with
  | Some error => refused ("invalid signed event: " +:+ error)
  | None =>
      let key := contribution_key incoming in
      match w.1 !! key with
      | Some retained =>
          Ok (if bool_decide (re_observed_at incoming < re_observed_at retained)%N
              then (<[key := incoming]> w.1, w.2) else w)
      | None =>
          if bool_decide (capacity ≤ size w.1) then
            if bool_decide (ev_kind (re_event incoming) ≠ kind_event_deletion)
            then refused ("bounded event cache capacity " +:+ pretty capacity +:+ " reached")
            else
              evicted ← ok_or (eviction_candidate w.1)
                (CacheRefused ("bounded event cache capacity " +:+ pretty capacity +:+ " holds only deletions"));
              Ok (<[key := incoming]> (delete evicted.1 w.1), w.2 ++ [mkRetraction evicted.1.1 Evicted])
          else Ok (<[key := incoming]> w.1, w.2)
      end
  end.

Fixpoint apply_upserts (capacity : nat)
    (w : gmap (EventId * RelayUrl) RelayEvent * list SourceRetraction) (upserts : list RelayEvent)
    : result EventCacheError (gmap (EventId * RelayUrl) RelayEvent * list SourceRetraction) :=
  match upserts with
  | [] => Ok w
  | incoming :: upserts => w ← apply_upsert capacity w incoming; apply_upserts capacity w upserts
  end.

(** [MemoryEventCache::apply]. *)
Definition apply (capacity : nat) (current : CacheState) (mutations : list EventStateMutation)
    : result EventCacheError CacheState :=
  let '(w, upserts) := apply_retracts (cs_events current, []) mutations in
  w ← apply_upserts capacity w upserts;
  Ok (mkCacheState (cs_revision current) w.1 w.2
        (if bool_decide (w.1 = cs_events current) then cs_coverage current else [])).

(** [MemoryEventCache::publish]. *)
Definition publish (c : MemoryEventCache) (next : CacheState)
    : result EventCacheError unit * MemoryEventCache :=
  match checked_succ (cs_revision next) with
  | None => (refused "source revision exhausted", c)
  | Some revision =>
      let next := mkCacheState revision (cs_events next) (cs_retractions next) (cs_coverage next) in
      (Ok tt, mkCache (mc_capacity c) next (snapshot next))
  end.

Definition commit (c : MemoryEventCache) (mutations : list EventStateMutation)
    : result EventCacheError unit * MemoryEventCache :=
  match apply (mc_capacity c) (mc_state c) mutations with
  | Err e => (Err e, c)
  | Ok next => publish c next
  end.

Definition transact {A} (c : MemoryEventCache)
    (decide : list RelayEvent → list EventStateMutation * A)
    : result EventCacheError (nat * A) * MemoryEventCache :=
  let '(mutations, a) := decide (values (cs_events (mc_state c))) in
  let count := length mutations in
  if bool_decide (count = 0) then (Ok (0, a), c)
  else
    let '(r, c') := commit c mutations in
    (match r with Ok _ => Ok (count, a) | Err e => Err e end, c').

(** ** Coverage and reads *)

Definition covers_request (session : RelayUrl) (filter : Filter) (coverage : SourceCoverage) : bool :=
  bool_decide (cv_session coverage = session) && bool_decide (cv_filter coverage = filter).

Definition source_coverage (c : MemoryEventCache) (session : RelayUrl) (filter : Filter)
    : option SourceCoverage :=
  List.find (covers_request session filter) (cs_coverage (mc_state c)).

(** Replace the first entry for the same request. *)
Fixpoint replace_coverage (coverage : SourceCoverage) (l : list SourceCoverage)
    : option (list SourceCoverage) :=
  match l with
  | [] => None
  | existing :: l =>
      if covers_request (cv_session coverage) (cv_filter coverage) existing then Some (coverage :: l)
      else cons existing <$> replace_coverage coverage l
  end.

Definition retain_source_coverage (c : MemoryEventCache) (coverage : SourceCoverage)
    : MemoryEventCache :=
  let state := mc_state c in
  let held := cs_coverage state in
  let next :=
    match replace_coverage coverage held with
    | Some next => next
    | None =>
        (if bool_decide (mc_capacity c ≤ length held) then drop 1 held else held) ++ [coverage]
    end in
  mkCache (mc_capacity c)
    (mkCacheState (cs_revision state) (cs_events state) (cs_retractions state) next) (mc_latest c).

Definition event (c : MemoryEventCache) (id : EventId) : option RelayEvent :=
  snd <$> List.find (λ entry : EventId * RelayUrl * RelayEvent, bool_decide (entry.1.1 = id))
            (entries (cs_events (mc_state c))).

Definition len (c : MemoryEventCache) : nat := size (cs_events (mc_state c)).

(** [QuerySource::open]: the initial snapshot is the last one published. *)
Definition open_initial (c : MemoryEventCache) : SourceSnapshot := mc_latest c.

#[global] Instance memory_event_cache : EventCache MemoryEventCache := {
  ec_current := λ c, values (cs_events (mc_state c));
  ec_transact := @transact
}.

(** ** Well-formed caches *)

(** Every entry sits under its own key and carries a verified event. *)
Definition keyed (events : gmap (EventId * RelayUrl) RelayEvent) : Prop :=
  ∀ k r, events !! k = Some r → k = contribution_key r ∧ event_verify (re_event r) = None.

Definition request_of (coverage : SourceCoverage) : RelayUrl * Filter :=
  (cv_session coverage, cv_filter coverage).

Record cache_valid (c : MemoryEventCache) : Prop := {
  cache_keyed : keyed (cs_events (mc_state c));
  cache_bounded : size (cs_events (mc_state c)) ≤ mc_capacity c;
  cache_coverage_bounded : length (cs_coverage (mc_state c)) ≤ mc_capacity c;
  cache_coverage_distinct : NoDup (request_of <$> cs_coverage (mc_state c));
  cache_published : mc_latest c = snapshot (mc_state c)
}.

Lemma keyed_delete events k : keyed events → keyed (delete k events).
Proof. intros Hk k' r [_ ?]%lookup_delete_Some. by apply Hk. Qed.

Lemma keyed_insert events r :
  keyed events → event_verify (re_event r) = None → keyed (<[contribution_key r := r]> events).
Proof. intros Hk Hv k r' [[<- <-]|[_ ?]]%lookup_insert_Some; [done|by apply Hk]. Qed.

(** *** The retraction pass *)

Definition upserts_of (mutations : list EventStateMutation) : list RelayEvent :=
  omap (λ m, match m with Upsert r => Some r | _ => None end) mutations.

Definition retracted_by (mutations : list EventStateMutation) (k : EventId * RelayUrl) : Prop :=
  ∃ cause, Retract k.1 k.2 cause ∈ mutations.

Definition retracts_key (k : EventId * RelayUrl) (m : EventStateMutation) : bool :=
  match m with Retract i s _ => bool_decide ((i, s) = k) | Upsert _ => false end.

Lemma retracted_by_existsb mutations k :
  retracted_by mutations k ↔ existsb (retracts_key k) mutations = true.
Proof.
  rewrite existsb_elem. unfold retracted_by. split.
  - intros [cause Hc]. eexists. split; [exact Hc|]. apply bool_decide_eq_true. by destruct k.
  - intros ([|i s cause] & Hin & Heq); [done|]. apply bool_decide_eq_true in Heq. subst k. eauto.
Qed.

#[global] Instance retracted_by_dec mutations k : Decision (retracted_by mutations k).
Proof.
  destruct (existsb (retracts_key k) mutations) eqn:E; [left|right]; rewrite retracted_by_existsb;
    [done|by rewrite E].
Defined.

Lemma elem_of_upserts_of mutations r : r ∈ upserts_of mutations ↔ Upsert r ∈ mutations.
Proof.
  unfold upserts_of. rewrite list_elem_of_omap. split.
  - intros ([] & ? & [=]); by subst.
  - intros ?. by exists (Upsert r).
Qed.

Lemma apply_retracts_upserts w mutations : (apply_retracts w mutations).2 = upserts_of mutations.
Proof.
  revert w. induction mutations as [|[]  mutations IH]; intros w; simpl; [done| |by apply IH].
  specialize (IH w). destruct (apply_retracts w mutations). simpl in *. by rewrite IH.
Qed.

Lemma apply_retracts_cons_retract w id session cause mutations :
  (apply_retracts w (Retract id session cause :: mutations)).1 =
  (apply_retracts (apply_retract w id session cause) mutations).1.
Proof. done. Qed.
Lemma apply_retracts_cons_upsert w r mutations :
  (apply_retracts w (Upsert r :: mutations)).1 = (apply_retracts w mutations).1.
Proof. simpl. by destruct (apply_retracts w mutations). Qed.

Lemma apply_retract_events w id session cause :
  (apply_retract w id session cause).1 = delete (id, session) w.1.
Proof.
  unfold apply_retract. destruct (w.1 !! (id, session)) eqn:E; [done|]. by rewrite delete_id.
Qed.

Lemma apply_retracts_lookup mutations w k r :
  (apply_retracts w mutations).1.1 !! k = Some r ↔ w.1 !! k = Some r ∧ ¬ retracted_by mutations k.
Proof.
  revert w. induction mutations as [|[r'|id session cause] mutations IH]; intros w.
  - split; [intros ?; split; [done|]|by intros [? _]]. intros [? ?%not_elem_of_nil]. done.
  - rewrite apply_retracts_cons_upsert, IH. unfold retracted_by.
    setoid_rewrite elem_of_cons. naive_solver.
  - rewrite apply_retracts_cons_retract, IH, apply_retract_events, lookup_delete_Some.
    unfold retracted_by. setoid_rewrite elem_of_cons. split.
    + intros [[Hne Hl] Hn]. split; [done|]. intros [c [E|E]]; [|by eauto].
      injection E as E1 E2 _. apply Hne. by rewrite <- E1, <- E2, <- surjective_pairing.
    + intros [Hl Hn]. split_and!; [|done|naive_solver].
      intros <-. apply Hn. eauto.
Qed.

(** *** One upsert *)

Inductive upserted (capacity : nat) (incoming : RelayEvent) :
    gmap (EventId * RelayUrl) RelayEvent * list SourceRetraction →
    gmap (EventId * RelayUrl) RelayEvent * list SourceRetraction → Prop :=
| upserted_known w retained :
    w.1 !! contribution_key incoming = Some retained →
    (re_observed_at retained ≤ re_observed_at incoming)%N →
    upserted capacity incoming w w
| upserted_earlier w retained :
    w.1 !! contribution_key incoming = Some retained →
    (re_observed_at incoming < re_observed_at retained)%N →
    upserted capacity incoming w (<[contribution_key incoming := incoming]> w.1, w.2)
| upserted_room w :
    w.1 !! contribution_key incoming = None → size w.1 < capacity →
    upserted capacity incoming w (<[contribution_key incoming := incoming]> w.1, w.2)
| upserted_evicting w k victim :
    w.1 !! contribution_key incoming = None → capacity ≤ size w.1 →
    ev_kind (re_event incoming) = kind_event_deletion →
    eviction_candidate w.1 = Some (k, victim) →
    upserted capacity incoming w
      (<[contribution_key incoming := incoming]> (delete k w.1), w.2 ++ [mkRetraction k.1 Evicted]).

Lemma apply_upsert_upserted capacity w incoming w' :
  apply_upsert capacity w incoming = Ok w' →
  event_verify (re_event incoming) = None ∧ upserted capacity incoming w w'.
Proof.
  unfold apply_upsert. destruct (event_verify (re_event incoming)) eqn:Hv; [done|].
  intros Hw. split; [done|]. revert Hw.
  destruct (w.1 !! contribution_key incoming) as [retained|] eqn:Hl.
  - case_bool_decide; intros [= <-]; [by eapply upserted_earlier|].
    eapply upserted_known; [done|lia].
  - case_bool_decide as Hcap; [|intros [= <-]; apply upserted_room; [done|lia]].
    case_bool_decide as Hdel; [done|].
    intros ([k victim] & Hc%ok_or_Ok & [= <-])%bind_Ok.
    apply (upserted_evicting _ _ w k victim); [done|done|by destruct (decide (ev_kind (re_event incoming) = kind_event_deletion))|done].
Qed.

(** *** The eviction choice *)

Definition evictable (entry : EventId * RelayUrl * RelayEvent) : Prop :=
  ev_kind (re_event entry.2) ≠ kind_event_deletion.

Lemma fold_min_step l acc entry :
  foldl min_step acc l = Some entry →
  (acc = Some entry ∨ (entry ∈ l ∧ evictable entry)) ∧
  (∀ e, acc = Some e ∨ (e ∈ l ∧ evictable e) → key_le (stamp (re_event entry.2)) (stamp (re_event e.2))).
Proof.
  revert acc. induction l as [|x l IH]; intros acc; simpl.
  - intros ->. split; [by left|].
    intros e [E|[Hin _]]; [by injection E as ->; reflexivity|by apply not_elem_of_nil in Hin].
  - intros Hf. destruct (IH _ Hf) as [Hin Hmin]. clear IH Hf.
    unfold min_step in Hin, Hmin. case_bool_decide as Hd.
    { split; [set_solver|]. intros e [->|[[->|?]%elem_of_cons He]]; [auto|by destruct He|auto]. }
    destruct acc as [least|].
    + case_bool_decide as Hlt.
      * split; [unfold evictable; set_solver|].
        intros e [[= ->]|[[->|?]%elem_of_cons ?]]; [|by auto|by auto].
        etrans; [by apply Hmin; left|apply Hlt].
      * split; [set_solver|].
        intros e [He|[[->|?]%elem_of_cons ?]]; [by auto| |by auto].
        etrans; [by apply Hmin; left|]. destruct (total key_le (stamp (re_event least.2)) (stamp (re_event x.2))) as [|Hle]; [done|].
        destruct (decide (stamp (re_event x.2) = stamp (re_event least.2))) as [E|E]; [by rewrite E|].
        by destruct Hlt.
    + split; [unfold evictable; set_solver|].
      intros e [|[[->|?]%elem_of_cons ?]]; [done|by auto|by auto].
Qed.

Lemma fold_min_step_None l acc :
  foldl min_step acc l = None → acc = None ∧ ∀ e, e ∈ l → ¬ evictable e.
Proof.
  revert acc. induction l as [|x l IH]; intros acc; simpl.
  - intros ->. split; [done|]. by intros e ?%not_elem_of_nil.
  - intros Hf. destruct (IH _ Hf) as [Hacc Hl]. unfold min_step in Hacc.
    case_bool_decide as Hd.
    + split; [done|]. intros e [->|?]%elem_of_cons; [by intros Hn; apply Hn|auto].
    + destruct acc; [|done]. by case_bool_decide.
Qed.

Lemma eviction_candidate_Some events k victim :
  eviction_candidate events = Some (k, victim) →
  events !! k = Some victim ∧ ev_kind (re_event victim) ≠ kind_event_deletion ∧
  ∀ k' r, events !! k' = Some r → ev_kind (re_event r) ≠ kind_event_deletion →
    key_le (stamp (re_event victim)) (stamp (re_event r)).
Proof.
  unfold eviction_candidate. intros [[?|[Hin He]] Hmin]%fold_min_step; [done|].
  apply elem_of_entries in Hin. split_and!; [done|done|].
  intros k' r Hr Hk. apply (Hmin (k', r)). right. by rewrite elem_of_entries.
Qed.

Lemma eviction_candidate_None events :
  eviction_candidate events = None →
  ∀ k r, events !! k = Some r → ev_kind (re_event r) = kind_event_deletion.
Proof.
  unfold eviction_candidate. intros [_ Hl]%fold_min_step_None k r Hr%elem_of_entries.
  specialize (Hl _ Hr). by destruct (decide (ev_kind (re_event r) = kind_event_deletion)).
Qed.

(** *** What one upsert keeps *)

Lemma upserted_keyed capacity incoming w w' :
  upserted capacity incoming w w' → event_verify (re_event incoming) = None →
  keyed w.1 → keyed w'.1.
Proof.
  intros Hu Hv Hk. destruct Hu; simpl; [done|by apply keyed_insert..|].
  by apply keyed_insert, Hv; apply keyed_delete.
Qed.

(** Whatever is held stays within any bound that is at least the capacity. *)
Lemma upserted_size capacity incoming w w' bound :
  upserted capacity incoming w w' → capacity ≤ bound → size w.1 ≤ bound → size w'.1 ≤ bound.
Proof.
  intros Hu Hb Hs. destruct Hu as [w r Hl|w r Hl|w Hl|w k victim Hl Hcap _ Hev]; simpl.
  - done.
  - by rewrite map_size_insert_Some by eauto.
  - rewrite map_size_insert_None by done. lia.
  - apply eviction_candidate_Some in Hev as (Hv' & _).
    rewrite map_size_insert_None by (apply lookup_delete_None; by right).
    rewrite map_size_delete, Hv'. assert (size w.1 ≠ 0); [|lia].
    apply map_size_ne_0_lookup. eauto.
Qed.

Lemma upserted_lookup capacity incoming w w' k r :
  upserted capacity incoming w w' → w'.1 !! k = Some r →
  w.1 !! k = Some r ∨ (k = contribution_key incoming ∧ r = incoming).
Proof.
  destruct 1; simpl; [by left|..]; intros [[<- <-]|[_ Hl]]%lookup_insert_Some; auto.
  apply lookup_delete_Some in Hl as [_ ?]. by left.
Qed.

Lemma upserted_present capacity incoming w w' :
  upserted capacity incoming w w' →
  ∃ r, w'.1 !! contribution_key incoming = Some r ∧ (re_observed_at r ≤ re_observed_at incoming)%N.
Proof.
  destruct 1; simpl; [eauto|..]; exists incoming; by rewrite lookup_insert_eq.
Qed.

Lemma upserted_tombstones capacity incoming w w' k r :
  EventIdBinding → upserted capacity incoming w w' → event_verify (re_event incoming) = None →
  keyed w.1 → w.1 !! k = Some r → ev_kind (re_event r) = kind_event_deletion →
  ∃ r', w'.1 !! k = Some r' ∧ ev_kind (re_event r') = kind_event_deletion.
Proof.
  intros Hb Hu Hv Hk Hl Hd. destruct Hu as [w|w ret Hret|w Hn|w kv victim Hn ? Hdel Hev]; simpl; [eauto|..].
  - destruct (decide (k = contribution_key incoming)) as [->|Hne];
      [|rewrite lookup_insert_ne by done; eauto].
    exists incoming. rewrite lookup_insert_eq. split; [done|].
    destruct (Hk _ _ Hl) as [Hkey Hvr]. injection Hkey as Hid _.
    destruct (Hb (re_event incoming) (re_event r)) as (_ & -> & _); auto.
  - exists r. rewrite lookup_insert_ne by congruence. done.
  - exists r. rewrite lookup_insert_ne by congruence.
    apply eviction_candidate_Some in Hev as (Hv' & Hnd & _).
    rewrite lookup_delete_ne; [done|]. intros ->. congruence.
Qed.

(** Reports only grow, and what an upsert removes it reports as evicted. *)
Lemma upserted_reports capacity incoming w w' :
  upserted capacity incoming w w' →
  ∃ new, w'.2 = w.2 ++ new ∧
    (∀ x, x ∈ new → ∃ k, is_Some (w.1 !! k) ∧ x = mkRetraction k.1 Evicted) ∧
    (∀ k, is_Some (w.1 !! k) → w'.1 !! k = None → mkRetraction k.1 Evicted ∈ new).
Proof.
  destruct 1 as [w|w|w|w k victim Hn Hcap Hdel Hev]; simpl.
  1-3: exists []; rewrite app_nil_r; split_and!; [done|by intros x ?%not_elem_of_nil|].
  - by intros k [? ->].
  - intros k [? Hk]. rewrite lookup_insert_None. by intros [? _]; congruence.
  - intros k [? Hk]. rewrite lookup_insert_None. by intros [? _]; congruence.
  - apply eviction_candidate_Some in Hev as (Hv & _). eexists. split_and!; [done|..].
    + intros x ->%list_elem_of_singleton. exists k. eauto.
    + intros k' [? Hk'] [Hnone Hne]%lookup_insert_None. apply list_elem_of_singleton.
      apply lookup_delete_None in Hnone as [->|?]; [done|congruence].
Qed.

(** *** A whole batch of upserts *)

Lemma apply_upserts_cons capacity w incoming upserts w' :
  apply_upserts capacity w (incoming :: upserts) = Ok w' ↔
  ∃ w1, apply_upsert capacity w incoming = Ok w1 ∧ apply_upserts capacity w1 upserts = Ok w'.
Proof. apply bind_Ok. Qed.

Lemma apply_upserts_keyed capacity upserts w w' :
  apply_upserts capacity w upserts = Ok w' → keyed w.1 → keyed w'.1.
Proof.
  revert w. induction upserts as [|incoming upserts IH]; intros w; [by intros [= <-]|].
  intros (w1 & [Hv Hu]%apply_upsert_upserted & Hrest)%apply_upserts_cons Hk.
  apply (IH w1 Hrest). by eapply upserted_keyed.
Qed.

Lemma apply_upserts_size capacity upserts w w' bound :
  apply_upserts capacity w upserts = Ok w' → capacity ≤ bound → size w.1 ≤ bound → size w'.1 ≤ bound.
Proof.
  revert w. induction upserts as [|incoming upserts IH]; intros w; [by intros [= <-]|].
  intros (w1 & [Hv Hu]%apply_upsert_upserted & Hrest)%apply_upserts_cons Hb Hs.
  apply (IH w1 Hrest Hb). by eapply upserted_size.
Qed.

Lemma apply_upserts_lookup capacity upserts w w' k r :
  apply_upserts capacity w upserts = Ok w' → w'.1 !! k = Some r →
  w.1 !! k = Some r ∨ (k = contribution_key r ∧ r ∈ upserts).
Proof.
  revert w. induction upserts as [|incoming upserts IH]; intros w.
  - intros [= <-]. by left.
  - intros (w1 & [Hv Hu]%apply_upsert_upserted & Hrest)%apply_upserts_cons Hl.
    destruct (IH w1 Hrest Hl) as [H1|[-> H1]]; [|right; by split; [|right]].
    destruct (upserted_lookup _ _ _ _ _ _ Hu H1) as [?|[-> ->]]; [by left|].
    right. by split; [|left].
Qed.

Lemma apply_upserts_tombstones capacity upserts w w' k r :
  EventIdBinding → apply_upserts capacity w upserts = Ok w' → keyed w.1 → size w.1 ≤ capacity →
  w.1 !! k = Some r → ev_kind (re_event r) = kind_event_deletion →
  ∃ r', w'.1 !! k = Some r' ∧ ev_kind (re_event r') = kind_event_deletion.
Proof.
  intros Hb. revert w r. induction upserts as [|incoming upserts IH]; intros w r.
  - intros [= <-]. eauto.
  - intros (w1 & [Hv Hu]%apply_upsert_upserted & Hrest)%apply_upserts_cons Hk Hs Hl Hd.
    pose proof (upserted_keyed _ _ _ _ Hu Hv Hk).
    pose proof (upserted_size _ _ _ _ _ Hu (Nat.le_refl _) Hs).
    destruct (upserted_tombstones _ _ _ _ _ _ Hb Hu Hv Hk Hl Hd) as (r1 & ? & ?).
    by apply (IH w1 r1).
Qed.

Lemma apply_upserts_reports capacity upserts w w' :
  apply_upserts capacity w upserts = Ok w' →
  ∃ new, w'.2 = w.2 ++ new ∧
    (∀ x, x ∈ new → ∃ k, (is_Some (w.1 !! k) ∨ ∃ r, r ∈ upserts ∧ contribution_key r = k) ∧
                        x = mkRetraction k.1 Evicted) ∧
    (∀ k, is_Some (w.1 !! k) → w'.1 !! k = None → mkRetraction k.1 Evicted ∈ new).
Proof.
  revert w. induction upserts as [|incoming upserts IH]; intros w.
  - intros [= <-]. exists []. rewrite app_nil_r. split_and!; [done|by intros x ?%not_elem_of_nil|].
    by intros k [? ->].
  - intros (w1 & [_ Hu]%apply_upsert_upserted & Hrest)%apply_upserts_cons.
    destruct (upserted_reports _ _ _ _ Hu) as (new1 & E1 & Hn1 & Hd1).
    destruct (IH w1 Hrest) as (new2 & E2 & Hn2 & Hd2).
    exists (new1 ++ new2). rewrite E2, E1, (assoc_L (++)). split_and!; [done|..].
    + intros x [(k & Hk & ->)%Hn1|(k & Hk & ->)%Hn2]%elem_of_app; exists k; (split; [|done]); [by left|].
      destruct Hk as [[r Hr]|(r & Hr & Hkr)]; [|right; exists r; by split; [right|]].
      destruct (upserted_lookup _ _ _ _ _ _ Hu Hr) as [?|[-> ->]]; [left; eauto|].
      right. exists incoming. by split; [left|].
    + intros k Hk Hnone. rewrite elem_of_app. destruct (w1.1 !! k) eqn:E; [right|left]; eauto.
Qed.

(** *** The retraction pass again: sizes and reports *)

Lemma apply_retracts_keeps mutations w :
  keyed w.1 → keyed (apply_retracts w mutations).1.1 ∧ size (apply_retracts w mutations).1.1 ≤ size w.1.
Proof.
  revert w. induction mutations as [|[r|id session cause] mutations IH]; intros w Hk; [done|..].
  - rewrite apply_retracts_cons_upsert. by apply IH.
  - rewrite apply_retracts_cons_retract.
    destruct (IH (apply_retract w id session cause)) as [Hk' Hs];
      rewrite apply_retract_events in *; [by apply keyed_delete|].
    split; [done|]. etrans; [exact Hs|]. rewrite map_size_delete. destruct (w.1 !! (id, session)); simpl; lia.
Qed.

Lemma apply_retracts_reports mutations w :
  ∃ new, (apply_retracts w mutations).1.2 = w.2 ++ new ∧
    (∀ x, x ∈ new → ∃ k cause, is_Some (w.1 !! k) ∧ Retract k.1 k.2 cause ∈ mutations ∧
                              x = mkRetraction k.1 cause) ∧
    (∀ k, is_Some (w.1 !! k) → retracted_by mutations k →
       ∃ cause, Retract k.1 k.2 cause ∈ mutations ∧ mkRetraction k.1 cause ∈ new).
Proof.
  revert w. induction mutations as [|[r|id session cause] mutations IH]; intros w.
  - exists []. rewrite app_nil_r. split_and!; [done|by intros x ?%not_elem_of_nil|].
    by intros k _ [? ?%not_elem_of_nil].
  - rewrite apply_retracts_cons_upsert. destruct (IH w) as (new & -> & Hn & Hd).
    exists new. split_and!; [done|..].
    + intros x (k & c & ? & ? & ->)%Hn. exists k, c. split_and!; [done|by right|done].
    + intros k Hk [c [?|Hc]%elem_of_cons]; [done|].
      destruct (Hd k Hk) as (c' & ? & ?); [by exists c|]. exists c'. split; [by right|done].
  - rewrite apply_retracts_cons_retract.
    destruct (IH (apply_retract w id session cause)) as (new & Hnew & Hn & Hd).
    rewrite apply_retract_events in Hn, Hd. rewrite Hnew. unfold apply_retract.
    assert (Hrest : ∀ x, x ∈ new → ∃ k c, is_Some (w.1 !! k) ∧
      Retract k.1 k.2 c ∈ Retract id session cause :: mutations ∧ x = mkRetraction k.1 c).
    { intros x (k & c & [? [_ ?]%lookup_delete_Some] & ? & ->)%Hn. exists k, c.
      split_and!; [eauto|by right|done]. }
    assert (Hdep : ∀ k, is_Some (w.1 !! k) → k ≠ (id, session) →
      retracted_by (Retract id session cause :: mutations) k →
      ∃ c, Retract k.1 k.2 c ∈ Retract id session cause :: mutations ∧ mkRetraction k.1 c ∈ new).
    { intros k Hk Hne [c [Hc|Hc]%elem_of_cons];
        [injection Hc as E1 E2 _; destruct Hne; by rewrite <- E1, <- E2, <- surjective_pairing|].
      destruct (Hd k) as (c' & ? & ?); [by rewrite lookup_delete_ne|by exists c|].
      exists c'. by split; [right|]. }
    destruct (w.1 !! (id, session)) as [r|] eqn:E; simpl.
    + eexists ([_] ++ new). rewrite (assoc_L (++)). split_and!; [done|..].
      * intros x [->|?]%elem_of_cons; [|by apply Hrest].
        exists (id, session), cause. split_and!; [eauto|left|done].
      * intros k Hk Hr. destruct (decide (k = (id, session))) as [->|Hne].
        { exists cause. simpl. split; left. }
        destruct (Hdep k Hk Hne Hr) as (c & ? & ?). exists c. split; [done|by right].
    + exists new. split_and!; [done|done|]. intros k Hk Hr. apply Hdep; [done| |done].
      intros ->. destruct Hk. congruence.
Qed.

(** *** Whole batches *)

Lemma apply_Ok capacity current mutations next :
  apply capacity current mutations = Ok next ↔
  ∃ w, apply_upserts capacity (apply_retracts (cs_events current, []) mutations).1
         (upserts_of mutations) = Ok w ∧
    next = mkCacheState (cs_revision current) w.1 w.2
             (if bool_decide (w.1 = cs_events current) then cs_coverage current else []).
Proof.
  unfold apply. rewrite <- (apply_retracts_upserts (cs_events current, [])).
  destruct (apply_retracts (cs_events current, []) mutations) as [w upserts]. simpl.
  rewrite bind_Ok. split; intros (w' & ? & E); exists w'; (split; [done|]); [by injection E|by subst].
Qed.

Lemma commit_Ok c mutations c' :
  commit c mutations = (Ok tt, c') ↔
  ∃ next revision, apply (mc_capacity c) (mc_state c) mutations = Ok next ∧
    checked_succ (cs_revision (mc_state c)) = Some revision ∧
    mc_capacity c' = mc_capacity c ∧
    mc_state c' = mkCacheState revision (cs_events next) (cs_retractions next) (cs_coverage next) ∧
    mc_latest c' = snapshot (mc_state c').
Proof.
  unfold commit, publish. split.
  - destruct (apply (mc_capacity c) (mc_state c) mutations) as [next|] eqn:E; [|done].
    pose proof E as (w & _ & Hn)%apply_Ok.
    assert (cs_revision next = cs_revision (mc_state c)) as Hrev by (by subst).
    rewrite Hrev. destruct (checked_succ _) as [rev|] eqn:Hs; [|done].
    intros Hc. injection Hc as <-. exists next, rev. done.
  - intros (next & rev & E & Hs & Hc & Hst & Hl). rewrite E.
    pose proof E as (w & _ & Hn)%apply_Ok.
    assert (cs_revision next = cs_revision (mc_state c)) as -> by (by subst).
    rewrite Hs. f_equal. destruct c'; simpl in *. by subst.
Qed.

Lemma commit_Err c mutations e c' : commit c mutations = (Err e, c') → c' = c.
Proof.
  unfold commit, publish. destruct (apply _ _ _); [case_match|]; intros Hc; by simplify_eq.
Qed.

(** A successful transaction either changed nothing or committed its batch. *)
Lemma transact_Ok {A} c (decide : list RelayEvent → list EventStateMutation * A) n a c' :
  transact c decide = (Ok (n, a), c') →
  ∃ batch, decide (values (cs_events (mc_state c))) = (batch, a) ∧ n = length batch ∧
    ((batch = [] ∧ c' = c) ∨ (batch ≠ [] ∧ commit c batch = (Ok tt, c'))).
Proof.
  unfold transact. destruct (decide _) as [batch a'] eqn:Hd.
  case_bool_decide as Hlen.
  - intros Hc. injection Hc as <- <- <-. exists batch. apply nil_length_inv in Hlen as ->. eauto.
  - destruct (commit c batch) as [[[]|e] c1] eqn:Hcm; intros Hc; [|done].
    injection Hc as <- <- <-. exists batch. split_and!; [done|done|]. right.
    split; [by intros ->|done].
Qed.

Lemma transact_Err {A} c (decide : list RelayEvent → list EventStateMutation * A) e c' :
  transact c decide = (Err e, c') → c' = c.
Proof.
  unfold transact. destruct (decide _) as [batch a']. case_bool_decide; [done|].
  destruct (commit c batch) as [[[]|e'] c1] eqn:Hcm; [done|]. intros Hc.
  injection Hc as _ <-. exact (commit_Err _ _ _ _ Hcm).
Qed.

Lemma apply_keyed capacity current mutations next :
  apply capacity current mutations = Ok next → keyed (cs_events current) → keyed (cs_events next).
Proof.
  intros (w & Hw & ->)%apply_Ok Hk. simpl. eapply apply_upserts_keyed; [exact Hw|].
  by apply apply_retracts_keeps.
Qed.

Lemma apply_size capacity current mutations next bound :
  apply capacity current mutations = Ok next → keyed (cs_events current) → capacity ≤ bound →
  size (cs_events current) ≤ bound → size (cs_events next) ≤ bound.
Proof.
  intros (w & Hw & ->)%apply_Ok Hk Hb Hs. simpl.
  destruct (apply_retracts_keeps mutations (cs_events current, []) Hk) as [_ Hs']. simpl in *.
  eapply apply_upserts_size; [exact Hw|done|lia].
Qed.

Lemma commit_valid c mutations c' :
  cache_valid c → commit c mutations = (Ok tt, c') → cache_valid c'.
Proof.
  intros [Hk Hb Hcb Hcd _] (next & rev & Ha & _ & Hcap & Hst & Hl)%commit_Ok.
  pose proof (apply_keyed _ _ _ _ Ha Hk) as Hk'.
  pose proof (apply_size _ _ _ _ _ Ha Hk (Nat.le_refl _) Hb) as Hb'.
  apply apply_Ok in Ha as (w & _ & ->). simpl in *.
  split; rewrite ?Hcap, ?Hst; simpl; try done.
  - case_bool_decide; simpl; [done|lia].
  - case_bool_decide; simpl; [done|constructor].
  - by rewrite Hl, Hst.
Qed.

Lemma transact_valid {A} c (decide : list RelayEvent → list EventStateMutation * A) :
  cache_valid c → cache_valid (transact c decide).2.
Proof.
  intros Hc. destruct (transact c decide) as [[[n a]|e] c'] eqn:Ht; simpl.
  - apply transact_Ok in Ht as (batch & _ & _ & [[_ ->]|[_ Hcm]]); [done|by eapply commit_valid].
  - by apply transact_Err in Ht as ->.
Qed.

(** *** Retained coverage *)

Lemma covers_request_eq session filter coverage :
  covers_request session filter coverage = true ↔ request_of coverage = (session, filter).
Proof.
  unfold covers_request, request_of. rewrite andb_true_iff, !bool_decide_eq_true. naive_solver.
Qed.

Lemma replace_coverage_requests coverage l l' :
  replace_coverage coverage l = Some l' → request_of <$> l' = request_of <$> l.
Proof.
  revert l'. induction l as [|x l IH]; intros l'; simpl; [done|].
  destruct (covers_request _ _ x) eqn:E.
  - intros [= <-]. apply covers_request_eq in E. csimpl. by rewrite E.
  - intros (l1 & Hl & ->)%fmap_Some. csimpl. by rewrite (IH l1 Hl).
Qed.

Lemma replace_coverage_None coverage l :
  replace_coverage coverage l = None → request_of coverage ∉ request_of <$> l.
Proof.
  induction l as [|x l IH]; simpl; [by intros _ ?%not_elem_of_nil|].
  destruct (covers_request _ _ x) eqn:E; [done|]. intros Hn%fmap_None.
  rewrite elem_of_cons. intros [Hx|?]; [|by apply IH].
  apply not_true_iff_false in E. apply E, covers_request_eq. by rewrite <- Hx.
Qed.

Lemma retain_coverage_valid c coverage :
  0 < mc_capacity c → cache_valid c → cache_valid (retain_source_coverage c coverage).
Proof.
  intros Hcap [Hk Hb Hcb Hcd Hp]. unfold retain_source_coverage.
  destruct (replace_coverage coverage (cs_coverage (mc_state c))) as [next|] eqn:E.
  - apply replace_coverage_requests in E. split; simpl; [done|done| |by rewrite E|by rewrite Hp].
    rewrite <- (length_fmap request_of), E, length_fmap. done.
  - apply replace_coverage_None in E. split; simpl; [done|done|..|by rewrite Hp].
    + case_bool_decide; rewrite length_app, ?length_drop; simpl; lia.
    + rewrite fmap_app. apply NoDup_app. split_and!; [|..|apply NoDup_singleton].
      * case_bool_decide; [|done]. rewrite fmap_drop. rewrite <- (take_drop 1) in Hcd. by apply NoDup_app in Hcd as (_ & _ & ?).
      * intros x Hx ->%list_elem_of_singleton. apply E. revert Hx. case_bool_decide; [|done].
        rewrite fmap_drop. intros Hx. rewrite <- (take_drop 1), elem_of_app. by right.
Qed.

(** ** The provider contract *)

Lemma values_keys (events : gmap (EventId * RelayUrl) RelayEvent) :
  keyed events → contribution_key <$> values events = keys events.
Proof.
  intros Hk. unfold values, keys. rewrite <- list_fmap_compose. apply list_fmap_ext.
  intros i [k r] Hi%list_elem_of_lookup_2%elem_of_entries. simpl. symmetry. by apply Hk.
Qed.

Lemma keyed_well_kept events : keyed events → well_kept (values events).
Proof.
  intros Hk. split; [rewrite values_keys by done; apply NoDup_keys|].
  intros r (k & Hr)%elem_of_values. by apply (Hk k).
Qed.

Lemma keyed_values events r :
  keyed events → r ∈ values events ↔ events !! contribution_key r = Some r.
Proof.
  intros Hk. rewrite elem_of_values. split; [|eauto].
  intros (k & Hr). destruct (Hk _ _ Hr) as [-> _]. done.
Qed.

Lemma apply_committed capacity current batch next :
  keyed (cs_events current) → apply capacity current batch = Ok next →
  batch_committed (values (cs_events current)) batch (values (cs_events next)).
Proof.
  intros Hk Ha. pose proof (apply_keyed _ _ _ _ Ha Hk) as Hk'.
  apply apply_Ok in Ha as (w & Hw & ->). simpl in *. split.
  - intros r Hr%(keyed_values _ _ Hk').
    destruct (apply_upserts_lookup _ _ _ _ _ _ Hw Hr) as [Hl|[_ Hl]];
      [|right; by apply elem_of_upserts_of].
    apply apply_retracts_lookup in Hl as [Hl Hn]. left. by rewrite keyed_values.
  - intros pre r -> Hpre.
    assert (Hups : upserts_of (pre ++ [Upsert r]) = [r]).
    { unfold upserts_of. rewrite omap_app. change (omap _ [Upsert r]) with [r].
      destruct (omap _ pre) as [|x l] eqn:E; [done|]. destruct (Hpre x).
      apply elem_of_upserts_of. unfold upserts_of. rewrite E. left. }
    rewrite Hups in Hw. apply apply_upserts_cons in Hw as (w1 & [_ Hu]%apply_upsert_upserted & Hn).
    injection Hn as ->. destruct (upserted_present _ _ _ _ Hu) as (r' & Hr' & Hle).
    exists r'. destruct (Hk' _ _ Hr') as [Hkey _]. split_and!; [|done|done].
    apply elem_of_values. eauto.
Qed.

Lemma commit_committed c batch c' :
  cache_valid c → commit c batch = (Ok tt, c') →
  batch_committed (values (cs_events (mc_state c))) batch (values (cs_events (mc_state c'))).
Proof.
  intros Hc (next & rev & Ha & _ & _ & -> & _)%commit_Ok. simpl.
  eapply apply_committed; [apply Hc|exact Ha].
Qed.

#[global] Instance memory_event_cache_laws : EventCacheLaws MemoryEventCache.
Proof.
  refine {| ec_valid := cache_valid |}.
  - intros A s decide. apply transact_valid.
  - intros s Hv. by apply keyed_well_kept, cache_keyed.
  - intros A s decide e s' Ht. by rewrite (transact_Err _ _ _ _ Ht).
  - intros A s decide a Hd. simpl. unfold transact. unfold ec_current in Hd. simpl in Hd. by rewrite Hd.
  - intros A s decide n a s' Hv Ht. destruct (transact_Ok _ _ _ _ _ Ht) as (batch & Hd & Hn & Hc).
    exists batch. split_and!; [done|by left|]. destruct Hc as [[-> ->]|[_ Hc]]; [|by apply commit_committed].
    split; [|by intros [] ? [=]]. intros r Hr. left. split; [done|]. by intros [? ?%not_elem_of_nil].
Defined.

(** ** Properties *)

(** The states a cache of one capacity reaches through its public writers. *)
Inductive cache_reachable (capacity : nat) : MemoryEventCache → Prop :=
| reach_bounded : cache_reachable capacity (bounded capacity)
| reach_transact A c (decide : list RelayEvent → list EventStateMutation * A) :
    cache_reachable capacity c → cache_reachable capacity (transact c decide).2
| reach_commit c mutations :
    cache_reachable capacity c → cache_reachable capacity (commit c mutations).2
| reach_coverage c coverage :
    cache_reachable capacity c → cache_reachable capacity (retain_source_coverage c coverage).

Lemma transact_capacity {A} c (decide : list RelayEvent → list EventStateMutation * A) :
  mc_capacity (transact c decide).2 = mc_capacity c.
Proof.
  destruct (transact c decide) as [[[n a]|e] c'] eqn:Ht; simpl.
  - apply transact_Ok in Ht as (batch & _ & _ & [[_ ->]|[_ Hcm]]); [done|].
    by apply commit_Ok in Hcm as (? & ? & _ & _ & ? & _).
  - by apply transact_Err in Ht as ->.
Qed.

Lemma commit_keeps_valid c mutations :
  cache_valid c → mc_capacity (commit c mutations).2 = mc_capacity c ∧ cache_valid (commit c mutations).2.
Proof.
  intros Hc. destruct (commit c mutations) as [[[]|e] c'] eqn:Hcm; simpl.
  - split; [|by eapply commit_valid]. by apply commit_Ok in Hcm as (? & ? & _ & _ & ? & _).
  - by apply commit_Err in Hcm as ->.
Qed.

Lemma bounded_valid capacity : cache_valid (bounded capacity).
Proof.
  split; simpl; [|by rewrite map_size_empty; lia|lia|constructor|done].
  intros k r Hkr. by rewrite lookup_empty in Hkr.
Qed.

(** C22. Whatever batches the transactions of a bounded cache decide, whatever
    batches are committed directly and whatever coverage is retained, the cache stays within its capacity (events
    and coverage), every entry sits under its own identity and holds a verified
    event, one request has one coverage record, and the snapshot published to
    queries is exactly the committed state. *)
Theorem memory_cache_invariant (capacity : nat) (c : MemoryEventCache)
    (Hcap : 0 < capacity) (Hreach : cache_reachable capacity c) :
  mc_capacity c = capacity ∧ len c ≤ capacity ∧ cache_valid c.
Proof.
  unfold len. cut (mc_capacity c = capacity ∧ cache_valid c).
  { intros [Hc Hv]. split_and!; [done| |done]. rewrite <- Hc. apply Hv. }
  induction Hreach as [|A c decide _ [Hc Hv]|c mutations _ [Hc Hv]|c coverage _ [Hc Hv]].
  - split; [done|apply bounded_valid].
  - split; [by rewrite transact_capacity|by apply transact_valid].
  - destruct (commit_keeps_valid c mutations Hv) as [-> ?]. by rewrite Hc.
  - split; [done|]. apply retain_coverage_valid; [lia|done].
Qed.

(** The retractions a revision publishes are exact: every contribution
    that was retained and no longer is gets reported, under a cause its batch
    gave or as evicted, and every report names a contribution that was
    retained, or was offered in the same batch. *)
Theorem memory_retractions_exact (c : MemoryEventCache) (batch : list EventStateMutation)
    (c' : MemoryEventCache) (Hcommit : commit c batch = (Ok tt, c')) :
  (∀ k, is_Some (cs_events (mc_state c) !! k) → cs_events (mc_state c') !! k = None →
     ∃ cause, mkRetraction k.1 cause ∈ cs_retractions (mc_state c') ∧
              (cause = Evicted ∨ Retract k.1 k.2 cause ∈ batch)) ∧
  (∀ x, x ∈ cs_retractions (mc_state c') →
     ∃ k, sr_event_id x = k.1 ∧
       ((is_Some (cs_events (mc_state c) !! k) ∧ Retract k.1 k.2 (sr_cause x) ∈ batch) ∨
        (sr_cause x = Evicted ∧
         (is_Some (cs_events (mc_state c) !! k) ∨ ∃ r, Upsert r ∈ batch ∧ contribution_key r = k)))).
Proof.
  apply commit_Ok in Hcommit as (next & rev & Ha & _ & _ & Hst & _). rewrite Hst. simpl.
  apply apply_Ok in Ha as (w & Hw & ->). simpl.
  destruct (apply_retracts_reports batch (cs_events (mc_state c), [])) as (n1 & E1 & Hn1 & Hd1).
  destruct (apply_upserts_reports _ _ _ _ Hw) as (n2 & E2 & Hn2 & Hd2).
  simpl in *. rewrite E2, E1. split.
  - intros k [r Hk] Hnone. setoid_rewrite elem_of_app.
    destruct ((apply_retracts (cs_events (mc_state c), []) batch).1.1 !! k) eqn:Hmid.
    + exists Evicted. split; [right; by apply Hd2|by left].
    + destruct (decide (retracted_by batch k)) as [Hr|Hnr].
      * destruct (Hd1 k) as (cause & ? & ?); [eauto|done|]. eauto.
      * exfalso. rewrite (proj2 (apply_retracts_lookup batch (cs_events (mc_state c), []) k r)) in Hmid; done.
  - intros x [(k & cause & Hk & Hin & ->)%Hn1|(k & Hk & ->)%Hn2]%elem_of_app; exists k; (split; [done|]).
    + by left.
    + right. split; [done|]. destruct Hk as [[r [? _]%apply_retracts_lookup]|(r & ?%elem_of_upserts_of & ?)];
        [left|right]; eauto.
Qed.

(** Tombstones outlive capacity pressure: a retained deletion that a
    committed batch does not itself retract is still retained afterwards,
    whatever the batch evicts or replaces. *)
Theorem memory_tombstones_survive (c : MemoryEventCache) (batch : list EventStateMutation)
    (c' : MemoryEventCache) (k : EventId * RelayUrl) (r : RelayEvent)
    (Hbind : EventIdBinding) (Hvalid : cache_valid c) (Hcommit : commit c batch = (Ok tt, c'))
    (Hr : cs_events (mc_state c) !! k = Some r)
    (Hdel : ev_kind (re_event r) = kind_event_deletion) (Hkeep : ¬ retracted_by batch k) :
  ∃ r', cs_events (mc_state c') !! k = Some r' ∧ ev_kind (re_event r') = kind_event_deletion.
Proof.
  destruct Hvalid as [Hk Hb _ _ _].
  apply commit_Ok in Hcommit as (next & rev & Ha & _ & _ & Hst & _). rewrite Hst. simpl.
  apply apply_Ok in Ha as (w & Hw & ->). simpl.
  destruct (apply_retracts_keeps batch (cs_events (mc_state c), []) Hk) as [Hk' Hs']. simpl in Hs'.
  apply (apply_upserts_tombstones _ _ _ _ k r Hbind Hw Hk'); [lia| |done].
  by apply apply_retracts_lookup.
Qed.

Lemma apply_retracts_filter batch events reports :
  (apply_retracts (events, reports) batch).1.1 = filter (λ p, ¬ retracted_by batch p.1) events.
Proof.
  apply map_eq. intros k. apply option_eq. intros r.
  by rewrite apply_retracts_lookup, map_lookup_filter_Some.
Qed.

Lemma apply_upsert_is_ok capacity w incoming :
  is_ok (apply_upsert capacity w incoming) = true ↔
  event_verify (re_event incoming) = None ∧
  (is_Some (w.1 !! contribution_key incoming) ∨ size w.1 < capacity ∨
   (ev_kind (re_event incoming) = kind_event_deletion ∧
    ∃ k r, w.1 !! k = Some r ∧ ev_kind (re_event r) ≠ kind_event_deletion)).
Proof.
  unfold apply_upsert. destruct (event_verify (re_event incoming)); [naive_solver|].
  destruct (w.1 !! contribution_key incoming) eqn:Hl; [simpl; naive_solver|].
  case_bool_decide as Hcap; [|simpl; naive_solver lia].
  case_bool_decide as Hdel; [simpl; split; [done|]; intros (_ & [[? ?]|[?|[? _]]]); [done|lia|done]|].
  destruct (eviction_candidate w.1) as [[k v]|] eqn:Hev; simpl.
  - split; [|done]. intros _. split; [done|]. right. right.
    apply eviction_candidate_Some in Hev as (? & ? & _).
    destruct (decide (ev_kind (re_event incoming) = kind_event_deletion)); [|done]. eauto.
  - split; [done|]. intros (_ & [[? ?]|[?|(_ & k & r & Hr & Hn)]]); [done|lia|].
    by apply (eviction_candidate_None _ Hev) in Hr.
Qed.

(** A batch is refused exactly when it must be.  One that only retracts
    always applies, full cache or not; one that upserts a single event (every
    admission) applies exactly when the event verifies and, once the batch's
    retractions are made, the contribution is already held, or there is room,
    or a deletion can take the place of some event that is not one. *)
Theorem memory_apply_refuses_exactly (capacity : nat) (current : CacheState)
    (batch : list EventStateMutation) :
  let kept := filter (λ p, ¬ retracted_by batch p.1) (cs_events current) in
  (upserts_of batch = [] → is_ok (apply capacity current batch) = true) ∧
  (∀ incoming, upserts_of batch = [incoming] →
     (is_ok (apply capacity current batch) = true ↔
      event_verify (re_event incoming) = None ∧
      (is_Some (kept !! contribution_key incoming) ∨ size kept < capacity ∨
       (ev_kind (re_event incoming) = kind_event_deletion ∧
        ∃ k r, kept !! k = Some r ∧ ev_kind (re_event r) ≠ kind_event_deletion)))).
Proof.
  intros kept. unfold apply. pose proof (apply_retracts_upserts (cs_events current, []) batch) as Hu.
  pose proof (apply_retracts_filter batch (cs_events current) []) as Hk. fold kept in Hk.
  destruct (apply_retracts (cs_events current, []) batch) as [w upserts]. simpl in Hu, Hk. subst upserts.
  split.
  - by intros ->.
  - intros incoming ->. rewrite <- Hk, <- apply_upsert_is_ok. simpl.
    by destruct (apply_upsert capacity w incoming).
Qed.

End memory.

(** ** Witnesses *)

Module MemoryCacheWitness.
Local Existing Instance Sample.hashed_nostr | 0.

Definition held (pubkey created_at kind : N) (tags : list Tag) (at_ : N) : RelayEvent :=
  mkRelayEvent (Sample.sealed pubkey created_at kind tags) (mkOccurrence "wss://a" Unauthenticated at_).

Definition note := held 1 10 1 [] 100.
Definition profile := held 1 10 0 [] 100.
Definition profile' := held 1 20 0 [] 200.
Definition deletion := held 1 30 kind_event_deletion [["a"; "0:1:"]] 300.

Definition store (capacity : nat) (events : list RelayEvent) : MemoryEventCache :=
  foldl (λ c e, (transact c (λ _, ([Upsert e], tt))).2) (bounded capacity) events.

Lemma store_valid capacity events : cache_valid (store capacity events).
Proof.
  unfold store. generalize (bounded_valid capacity). generalize (bounded capacity).
  induction events as [|e events IH]; intros c Hc; [done|]. simpl. by apply IH, transact_valid.
Qed.

Lemma admit_keeps_event_state_sound_witness :
  ec_valid (admit_event (store 4 [profile]) profile' 1000).2 ∧
  event_state_sound (ec_current (admit_event (store 4 [profile]) profile' 1000).2).
Proof.
  apply (admit_keeps_event_state_sound (store 4 [profile]) profile' 1000 Sample.hashed_binding).
  - apply store_valid.
  - assert (ec_current (store 4 [profile]) = [profile]) as -> by (vm_compute; reflexivity).
    split.
    + intros d t ->%list_elem_of_singleton ->%list_elem_of_singleton. vm_compute. reflexivity.
    + by intros r1 r2 ??? ->%list_elem_of_singleton ->%list_elem_of_singleton.
Defined.

Lemma admit_never_resurrects_witness :
  ((admit_event (store 4 [deletion]) profile 1000).1 = Ok false ∨
   ∃ e, (admit_event (store 4 [deletion]) profile 1000).1 = Err e) ∧
  profile ∉ ec_current (admit_event (store 4 [deletion]) profile 1000).2.
Proof.
  assert (E : ec_current (store 4 [deletion]) = [deletion]) by (vm_compute; reflexivity).
  apply (admit_never_resurrects (store 4 [deletion]) deletion profile 1000).
  - apply store_valid.
  - rewrite E. left.
  - vm_compute. reflexivity.
  - vm_compute. reflexivity.
  - rewrite E. intros Hin%list_elem_of_singleton. discriminate Hin.
Defined.

Lemma admit_true_retains_witness :
  ∃ s', admit_event (bounded 4) note 1000 = (Ok true, s') ∧
    ∃ r, r ∈ ec_current s' ∧ contribution_key r = contribution_key note.
Proof.
  exists (store 4 [note]).
  assert (E : admit_event (bounded 4) note 1000 = (Ok true, store 4 [note])) by (vm_compute; reflexivity).
  split; [exact E|].
  assert (Hv : ec_valid (bounded 4)) by apply bounded_valid.
  destruct (admit_true_retains (bounded 4) note 1000 (store 4 [note]) true Hv E) as [Hr _].
  destruct (Hr eq_refl) as (r & Hin & Hkey & _). exists r. split; [exact Hin|exact Hkey].
Defined.

Lemma memory_cache_invariant_witness : len (bounded 3) ≤ 3 ∧ cache_valid (bounded 3).
Proof. apply (memory_cache_invariant 3 (bounded 3)); [lia|constructor]. Defined.

(** A full cache makes room for the deletion by evicting the note. *)
Definition pressed : MemoryEventCache := (commit (store 1 [note]) [Upsert deletion]).2.

Lemma memory_retractions_exact_witness :
  cs_events (mc_state pressed) !! contribution_key note = None ∧
  ∃ cause, mkRetraction (re_id note) cause ∈ cs_retractions (mc_state pressed).
Proof.
  assert (E : commit (store 1 [note]) [Upsert deletion] = (Ok tt, pressed)) by (vm_compute; reflexivity).
  assert (Hn : cs_events (mc_state pressed) !! contribution_key note = None)
    by (vm_compute; reflexivity).
  split; [exact Hn|].
  destruct (memory_retractions_exact (store 1 [note]) [Upsert deletion] pressed E) as [Hout _].
  destruct (Hout (contribution_key note)) as (cause & Hc & _); [|exact Hn|exists cause; exact Hc].
  exists note. vm_compute. reflexivity.
Defined.

Lemma memory_tombstones_survive_witness :
  ∃ r', cs_events (mc_state (commit (store 2 [deletion; note]) [Upsert (held 2 9 5 [] 7)]).2)
          !! contribution_key deletion = Some r' ∧
        ev_kind (re_event r') = kind_event_deletion.
Proof.
  apply (memory_tombstones_survive (store 2 [deletion; note]) [Upsert (held 2 9 5 [] 7)] _
           (contribution_key deletion) deletion Sample.hashed_binding).
  - apply store_valid.
  - vm_compute. reflexivity.
  - vm_compute. reflexivity.
  - reflexivity.
  - rewrite retracted_by_existsb. vm_compute. discriminate.
Defined.
End MemoryCacheWitness.
