(* ===== verification/Routing.v ===== *)
(** * Ordered composition of relay-routing contributions ([crates/fava-routing])

    Requests, targets, contributions and plans ([lib.rs]), and the composer
    that runs an ordered chain of routers over them ([chain.rs]): [preview],
    [open] and the opened chain's [replace].  A router is code outside this
    crate, so it is a record of functions whose calls may also panic; [isolate]
    turns a panic into a refusal as [catch_unwind] does. *)

From S2P Require Import Prelude Nostr Relay State Write Query.

(** ** Requests and targets *)

Inductive RouteTarget :=
| WholeRequest
| TargetAuthor (author : PublicKey)
| TargetRecipient (recipient : PublicKey)
| TargetReferencedEvent (event : EventId).

#[global] Instance RouteTarget_eq_dec : EqDecision RouteTarget.
Proof. solve_decision. Defined.

Definition target_code (t : RouteTarget) : N * N :=
  match t with
  | WholeRequest => (0, 0)
  | TargetAuthor k => (1, k)
  | TargetRecipient k => (2, k)
  | TargetReferencedEvent i => (3, i)
  end%N.

Lemma target_code_inj t1 t2 : target_code t1 = target_code t2 → t1 = t2.
Proof. destruct t1, t2; simpl; congruence. Qed.

#[global] Instance RouteTarget_countable : Countable RouteTarget :=
  inj_countable' target_code
    (λ '(i, k), match i with
                | 1 => TargetAuthor k | 2 => TargetRecipient k | 3 => TargetReferencedEvent k
                | _ => WholeRequest
                end%N) ltac:(by intros []).
#[global] Instance RouteTarget_key_order : KeyOrder RouteTarget :=
  inj_key_order target_code target_code_inj.

Inductive RouteRequest :=
| RouteRead (query : Query)
| RouteWrite (event : EventValue) (access : Authority).

Section targets.
Context `{Nostr}.

(** [Some(set)] when present and not empty. *)
Definition non_empty {K} `{Countable K} (s : option (gset K)) : option (gset K) :=
  match s with
  | Some s => if bool_decide (s = ∅) then None else Some s
  | None => None
  end.

(** The targets one tag of a write adds. *)
Definition tag_targets (tag : Tag) : list RouteTarget :=
  (if tag_named "p" tag
   then match tag !! 1 with
        | Some value => match public_key_parse value with Some k => [TargetRecipient k] | None => [] end
        | None => []
        end
   else []) ++
  (if tag_named "e" tag
   then match tag !! 1 with
        | Some value => match event_id_parse value with Some i => [TargetReferencedEvent i] | None => [] end
        | None => []
        end
   else []).

Definition targets (request : RouteRequest) : gset RouteTarget :=
  match request with
  | RouteRead query =>
      match non_empty (fs_authors (q_selection query)) with
      | Some authors => set_map TargetAuthor authors
      | None =>
          match non_empty (fs_ids (q_selection query)) with
          | Some ids => set_map TargetReferencedEvent ids
          | None => {[ WholeRequest ]}
          end
      end
  | RouteWrite event _ =>
      list_to_set (TargetAuthor (value_author event) ::
                   List.flat_map tag_targets (value_tags event))
  end.

End targets.

Definition request_access (request : RouteRequest) : Authority :=
  match request with
  | RouteRead query => q_access query
  | RouteWrite _ access => access
  end.

Definition request_event (request : RouteRequest) : option EventValue :=
  match request with RouteRead _ => None | RouteWrite event _ => Some event end.

Definition is_read (request : RouteRequest) : bool :=
  match request with RouteRead _ => true | RouteWrite _ _ => false end.
Definition is_write (request : RouteRequest) : bool := negb (is_read request).

(** ** Coverage, contributions, plans *)

Inductive CoverageState :=
| Covered (sessions : gset RelayUrl)
| Unresolved
| SettledAbsent.

#[global] Instance CoverageState_eq_dec : EqDecision CoverageState.
Proof. solve_decision. Defined.

Record RouteDestination := mkDestination {
  rd_session : RelayUrl;
  rd_targets : gset RouteTarget;
  rd_router : string;
  rd_reason : string
}.

Definition RouteDestination_new (session : RelayUrl) (targets : gset RouteTarget) (reason : string)
    : RouteDestination := mkDestination session targets "" reason.

Definition set_router (router : string) (d : RouteDestination) : RouteDestination :=
  mkDestination (rd_session d) (rd_targets d) router (rd_reason d).

Record RouteContribution := mkContribution {
  cb_destinations : list RouteDestination;
  cb_coverage : gmap RouteTarget CoverageState;
  cb_unresolved : gset RouteTarget;
  cb_shortfalls : list string
}.

Definition default_contribution : RouteContribution := mkContribution [] ∅ ∅ [].

Record PlannedRelay := mkPlanned {
  pr_session : RelayUrl;
  pr_targets : gset RouteTarget;
  pr_reasons : gset (string * string)
}.

Record RoutePlan := mkPlan {
  rp_revision : N;
  rp_destinations : gmap RelayUrl PlannedRelay;
  rp_coverage : gmap RouteTarget CoverageState;
  rp_unresolved : gset RouteTarget;
  rp_shortfalls : list string
}.

Definition default_plan : RoutePlan := mkPlan 0 ∅ ∅ ∅ [].

#[global] Instance RouteDestination_eq_dec : EqDecision RouteDestination.
Proof. solve_decision. Defined.
#[global] Instance RouteContribution_eq_dec : EqDecision RouteContribution.
Proof. solve_decision. Defined.
#[global] Instance PlannedRelay_eq_dec : EqDecision PlannedRelay.
Proof. solve_decision. Defined.
#[global] Instance RoutePlan_eq_dec : EqDecision RoutePlan.
Proof. solve_decision. Defined.

Inductive RouterError :=
| RouterRefused (reason : string)
| RouterClosed.

(** [impl Display for RouterError]. *)
Definition router_error_text (e : RouterError) : string :=
  match e with
  | RouterRefused reason => "router refused work: " +:+ reason
  | RouterClosed => "router session closed"
  end.

Definition settled (plan : RoutePlan) : bool := bool_decide (rp_unresolved plan = ∅).

Definition merge_coverage (current incoming : CoverageState) : CoverageState :=
  match incoming with
  | Covered incoming =>
      match current with
      | Covered current => Covered (current ∪ incoming)
      | _ => Covered incoming
      end
  | Unresolved => match current with Covered s => Covered s | _ => Unresolved end
  | SettledAbsent => current
  end.

(** [merge_coverage(coverage.entry(target).or_insert(Unresolved), state)]. *)
Definition merge_entry (coverage : gmap RouteTarget CoverageState) (target : RouteTarget)
    (state : CoverageState) : gmap RouteTarget CoverageState :=
  <[target := merge_coverage (default Unresolved (coverage !! target)) state]> coverage.

(** ** Bounds *)

Definition MAX_DESTINATIONS : nat := 256.
Definition MAX_COVERED_SESSIONS : nat := 256.
Definition MAX_SHORTFALLS : nat := 256.
Definition MAX_TEXT_BYTES : nat := 4096.

(** [bounded(label, actual, maximum)]. *)
Definition check_bounded (label : string) (actual maximum : nat) : result RouterError unit :=
  ensure (bool_decide (actual ≤ maximum))
    (RouterRefused (label +:+ " exceed bound: " +:+ pretty actual +:+ " > " +:+ pretty maximum)).

Definition validate_bounds (c : RouteContribution) : result RouterError unit :=
  _ ← check_bounded "route destinations"
        (size (list_to_set (rd_session <$> cb_destinations c) : gset RelayUrl)) MAX_DESTINATIONS;
  _ ← for_each (λ d, check_bounded "route reason" (String.length (rd_reason d)) MAX_TEXT_BYTES)
        (cb_destinations c);
  _ ← for_each (λ state, match state with
                         | Covered sessions =>
                             check_bounded "covered relay sessions" (size sessions) MAX_COVERED_SESSIONS
                         | _ => Ok tt
                         end) (values (cb_coverage c));
  for_each (λ s, check_bounded "route shortfall" (String.length s) MAX_TEXT_BYTES) (cb_shortfalls c).

(** ** Building a plan *)

(** One destination's effect on the plan's destinations. *)
Definition plan_destination (destinations : gmap RelayUrl PlannedRelay) (d : RouteDestination)
    : gmap RelayUrl PlannedRelay :=
  let planned := default (mkPlanned (rd_session d) ∅ ∅) (destinations !! rd_session d) in
  <[rd_session d := mkPlanned (pr_session planned) (pr_targets planned ∪ rd_targets d)
                      ({[ (rd_router d, rd_reason d) ]} ∪ pr_reasons planned)]> destinations.

(** ... and on its coverage. *)
Definition cover_targets (coverage : gmap RouteTarget CoverageState) (d : RouteDestination)
    : gmap RouteTarget CoverageState :=
  foldl (λ coverage target, merge_entry coverage target (Covered {[ rd_session d ]}))
    coverage (ordered_elements (rd_targets d)).

Definition unresolved_targets (coverage : gmap RouteTarget CoverageState) : gset RouteTarget :=
  dom (filter (λ p : RouteTarget * CoverageState, p.2 = Unresolved) coverage).

Definition from_contribution (revision : N) (c : RouteContribution) : result RouterError RoutePlan :=
  _ ← validate_bounds c;
  Ok (mkPlan revision
        (foldl plan_destination ∅ (cb_destinations c))
        (foldl cover_targets (cb_coverage c) (cb_destinations c))
        (cb_unresolved c ∪ unresolved_targets (cb_coverage c))
        (cb_shortfalls c)).

(** [RoutePlan::explicit]. *)
Definition explicit_plan (relays : list RelayUrl) (targets : gset RouteTarget)
    : result RouterError RoutePlan :=
  from_contribution 1
    (mkContribution
       ((λ relay, set_router "explicit"
                    (RouteDestination_new relay targets "application-selected relay")) <$> relays)
       ∅ ∅ []).

Section shortfall.
Context `{Nostr}.
(** [RoutePlan::shortfall]. *)
Definition plan_shortfall (revision : N) (request : RouteRequest) (reason : string) : RoutePlan :=
  mkPlan revision ∅ (gset_to_gmap Unresolved (targets request)) (targets request) [reason].
End shortfall.

(** ** Combining contributions *)

Definition combine_coverage (coverage : gmap RouteTarget CoverageState) (c : RouteContribution)
    : gmap RouteTarget CoverageState :=
  foldl (λ coverage '(target, state), merge_entry coverage target state)
    coverage (entries (cb_coverage c)).

Definition combine (contributions : list RouteContribution) : RouteContribution :=
  mkContribution
    (List.flat_map cb_destinations contributions)
    (foldl combine_coverage ∅ contributions)
    (⋃ (cb_unresolved <$> contributions))
    (List.flat_map cb_shortfalls contributions).

(** One target of [complete_targets]. *)
Definition complete_target (all_answered : bool) (c : RouteContribution) (target : RouteTarget)
    : RouteContribution :=
  match cb_coverage c !! target with
  | Some _ => c
  | None =>
      if all_answered
      then mkContribution (cb_destinations c) (<[target := SettledAbsent]> (cb_coverage c))
             (cb_unresolved c) (cb_shortfalls c)
      else mkContribution (cb_destinations c) (<[target := Unresolved]> (cb_coverage c))
             ({[ target ]} ∪ cb_unresolved c) (cb_shortfalls c)
  end.

Definition complete_targets (c : RouteContribution) (targets : gset RouteTarget) (all_answered : bool)
    : RouteContribution :=
  foldl (complete_target all_answered) c (ordered_elements targets).

(** ** The composer *)

Record Composer := mkComposer {
  cm_contributions : list RouteContribution;
  cm_answered : list bool;
  cm_shortfalls : list string;
  cm_discarded : N;
  cm_targets : gset RouteTarget
}.

Definition Composer_new (routers : nat) (targets : gset RouteTarget) : Composer :=
  mkComposer (replicate routers default_contribution) (replicate routers false) [] 0 targets.

Definition record (shortfall : string) (c : Composer) : Composer :=
  if bool_decide (length (cm_shortfalls c) < MAX_SHORTFALLS)
  then mkComposer (cm_contributions c) (cm_answered c) (cm_shortfalls c ++ [shortfall])
         (cm_discarded c) (cm_targets c)
  else mkComposer (cm_contributions c) (cm_answered c) (cm_shortfalls c)
         (saturating_add (cm_discarded c) 1) (cm_targets c).

(** [format!("{router}: {error}")] cut by [String::truncate], which panics when
    the cut is not a character boundary. *)
Definition bounded_error (router : string) (e : RouterError) : outcome string :=
  let text := router +:+ ": " +:+ router_error_text e in
  if bool_decide (MAX_TEXT_BYTES ≤ String.length text)
  then if is_char_boundary text MAX_TEXT_BYTES
       then Returned (String.substring 0 MAX_TEXT_BYTES text) else Panicked
  else Returned text.

(** [composer.record(&bounded_error(router, &error))]. *)
Definition record_error (router : string) (e : RouterError) (c : Composer) : outcome Composer :=
  text ← bounded_error router e; Returned (record text c).

Definition all_answered (c : Composer) : bool := forallb id (cm_answered c).

Definition merged (c : Composer) : RouteContribution :=
  complete_targets (combine (cm_contributions c)) (cm_targets c) (all_answered c).

Definition accept (index : nat) (router : string) (contribution : RouteContribution) (c : Composer)
    : outcome Composer :=
  let c' := mkComposer (<[index := contribution]> (cm_contributions c))
              (<[index := true]> (cm_answered c)) (cm_shortfalls c) (cm_discarded c) (cm_targets c) in
  match validate_bounds (merged c') with
  | Ok _ => Returned c'
  | Err error => record_error router error c
  end.

Definition discarded_text (discarded : N) : string :=
  "chain: " +:+ pretty discarded +:+ " further route shortfalls discarded beyond the "
    +:+ pretty MAX_SHORTFALLS +:+ "-entry bound".

(** The overflow rule of [combined] on the whole shortfall list. *)
Definition bound_shortfalls (shortfalls : list string) (discarded : N) : list string :=
  let '(shortfalls, discarded) :=
    if bool_decide (MAX_SHORTFALLS ≤ length shortfalls)
    then (take (MAX_SHORTFALLS - 1) shortfalls,
          saturating_add discarded (N.of_nat (length shortfalls - MAX_SHORTFALLS + 1)))
    else (shortfalls, discarded) in
  if bool_decide (0 < discarded)%N then shortfalls ++ [discarded_text discarded] else shortfalls.

Definition combined (c : Composer) : RouteContribution :=
  let m := merged c in
  mkContribution (cb_destinations m) (cb_coverage m) (cb_unresolved m)
    (bound_shortfalls (cb_shortfalls m ++ cm_shortfalls c) (cm_discarded c)).

Definition upstream_plan (c : Composer) (index : nat) (revision : N) : RoutePlan :=
  let answered := bool_decide (length (cm_contributions c) ≤ index) && all_answered c in
  match from_contribution revision
          (complete_targets (combine (take index (cm_contributions c))) (cm_targets c) answered) with
  | Ok plan => plan
  | Err _ => default_plan
  end.

Definition composer_plan (c : Composer) (revision : N) : result RouterError RoutePlan :=
  from_contribution revision (combined c).

Definition attribute (contribution : RouteContribution) (router : string)
    : result RouterError RouteContribution :=
  let contribution := mkContribution (set_router router <$> cb_destinations contribution)
    (cb_coverage contribution) (cb_unresolved contribution) (cb_shortfalls contribution) in
  _ ← check_bounded "route shortfalls" (length (cb_shortfalls contribution)) MAX_SHORTFALLS;
  _ ← validate_bounds contribution;
  Ok contribution.

(** ** The chain *)

(** What an opened router session offers; [A]'s calls may panic. *)
Class RouterSession (A : Type) := {
  session_current : A → outcome RouteContribution;
  session_replace : A → RoutePlan → list QuerySnapshot → outcome (result RouterError RouteContribution) * A;
  session_close : A → outcome unit * A
}.

Record Router (A : Type) := mkRouter {
  router_name : string;
  router_queries : RouteRequest → RoutePlan → outcome (result RouterError (list Query));
  router_preview : RouteRequest → RoutePlan → list QuerySnapshot → outcome (result RouterError RouteContribution);
  router_open : RouteRequest → RoutePlan → list QuerySnapshot → outcome (result RouterError A)
}.
Arguments router_name {A} _.
Arguments router_queries {A} _.
Arguments router_preview {A} _.
Arguments router_open {A} _.

Section chain.
Context `{Nostr} {A : Type} `{!RouterSession A}.

Definition isolate {B} (action : string) (call : outcome (result RouterError B)) : result RouterError B :=
  match call with
  | Returned r => r
  | Panicked => Err (RouterRefused ("router panicked while " +:+ action))
  end.

Fixpoint validate_names_from (names : gset string) (routers : list (Router A)) : result RouterError unit :=
  match routers with
  | [] => Ok tt
  | router :: routers =>
      _ ← ensure (negb (bool_decide (router_name router = ""))) (RouterRefused "router name is empty");
      _ ← check_bounded "router name" (String.length (router_name router)) MAX_TEXT_BYTES;
      _ ← ensure (negb (bool_decide (router_name router ∈ names)))
            (RouterRefused ("duplicate router name: " +:+ router_name router));
      validate_names_from ({[ router_name router ]} ∪ names) routers
  end.
Definition validate_names (routers : list (Router A)) : result RouterError unit :=
  validate_names_from ∅ routers.

Definition queries (routers : list (Router A)) (request : RouteRequest)
    : result RouterError (list (list Query)) :=
  _ ← validate_names routers;
  let composer := Composer_new (length routers) (targets request) in
  collect_results (imap (λ index router,
    isolate "declaring queries" (router_queries router request (upstream_plan composer index 1))) routers).

Definition exact_inputs (declared : list Query) (inputs : list QuerySnapshot) : result RouterError unit :=
  ensure (bool_decide (length declared = length inputs))
    (RouterRefused "router input count does not match declaration").

(** What one router of [preview] contributes before attribution. *)
Definition preview_router (request : RouteRequest) (upstream : RoutePlan) (router : Router A)
    (inputs : list QuerySnapshot) : result RouterError RouteContribution :=
  declared ← isolate "declaring queries" (router_queries router request upstream);
  _ ← exact_inputs declared inputs;
  value ← isolate "previewing" (router_preview router request upstream inputs);
  attribute value (router_name router).

Fixpoint preview_from (request : RouteRequest) (index : nat) (composer : Composer)
    (routers : list (Router A * list QuerySnapshot)) : outcome Composer :=
  match routers with
  | [] => Returned composer
  | (router, inputs) :: routers =>
      composer ←
        match preview_router request (upstream_plan composer index 1) router inputs with
        | Ok value => accept index (router_name router) value composer
        | Err error => record_error (router_name router) error composer
        end;
      preview_from request (S index) composer routers
  end.

Definition input_groups_error : RouterError := RouterRefused "router input groups do not match routers".

Definition preview (routers : list (Router A)) (request : RouteRequest)
    (inputs : list (list QuerySnapshot)) : outcome (result RouterError RoutePlan) :=
  match (_ ← validate_names routers;
         ensure (bool_decide (length inputs = length routers)) input_groups_error) with
  | Err e => Returned (Err e)
  | Ok _ =>
      composer ← preview_from request 0 (Composer_new (length routers) (targets request))
                   (zip routers inputs);
      Returned (composer_plan composer 1)
  end.

(** *** Opened chains *)

Record OpenedChain := mkChain {
  oc_sessions : list (option (string * A));
  oc_composer : Composer;
  oc_counts : list nat;
  oc_closed : bool
}.

Definition current_contribution (session : A) (router : string) : result RouterError RouteContribution :=
  value ← isolate "reading its current contribution"
            (match session_current session with Returned c => Returned (Ok c) | Panicked => Panicked end);
  attribute value router.

(** One router of [open]: the session it leaves, the composer after it and
    the number of inputs it declared. *)
Definition open_router (request : RouteRequest) (index : nat) (composer : Composer)
    (router : Router A) (inputs : list QuerySnapshot)
    : outcome (option (string * A) * Composer * nat) :=
  let upstream := upstream_plan composer index 1 in
  let '(count, opened) :=
    match isolate "declaring queries" (router_queries router request upstream) with
    | Ok declared =>
        (length declared,
         _ ← exact_inputs declared inputs;
         isolate "opening" (router_open router request upstream inputs))
    | Err error => (0, Err error)
    end in
  match opened with
  | Ok session =>
      match current_contribution session (router_name router) with
      | Ok contribution =>
          composer ← accept index (router_name router) contribution composer;
          Returned (Some (router_name router, session), composer, count)
      | Err error =>
          composer ← record_error (router_name router) error composer;
          Returned (None, composer, count)
      end
  | Err error =>
      composer ← record_error (router_name router) error composer;
      Returned (None, composer, count)
  end.

Fixpoint open_from (request : RouteRequest) (index : nat) (chain : OpenedChain)
    (routers : list (Router A * list QuerySnapshot)) : outcome OpenedChain :=
  match routers with
  | [] => Returned chain
  | (router, inputs) :: routers =>
      '(session, composer, count) ← open_router request index (oc_composer chain) router inputs;
      open_from request (S index)
        (mkChain (oc_sessions chain ++ [session]) composer (oc_counts chain ++ [count]) false) routers
  end.

Definition open (routers : list (Router A)) (request : RouteRequest)
    (inputs : list (list QuerySnapshot)) : outcome (result RouterError OpenedChain) :=
  match (_ ← validate_names routers;
         ensure (bool_decide (length inputs = length routers)) input_groups_error) with
  | Err e => Returned (Err e)
  | Ok _ =>
      chain ← open_from request 0
                (mkChain [] (Composer_new (length routers) (targets request)) [] false)
                (zip routers inputs);
      Returned (Ok chain)
  end.

Definition chain_current (chain : OpenedChain) : RouteContribution := combined (oc_composer chain).

(** The loop of [replace]: sessions still to visit, with their input counts. *)
Fixpoint replace_from (index : nat) (composer : Composer) (inputs : list QuerySnapshot)
    (sessions : list (option (string * A) * nat))
    : outcome (Composer * list (option (string * A))) :=
  match sessions with
  | [] => Returned (composer, [])
  | (entry, count) :: sessions =>
      let next := take count inputs in
      let upstream := upstream_plan composer index 1 in
      '(entry, composer) ←
        match entry with
        | None => Returned (None, composer)
        | Some (name, session) =>
            let '(answer, session) := session_replace session upstream next in
            composer ←
              match (value ← isolate "replacing" answer; attribute value name) with
              | Ok value => accept index name value composer
              | Err error => record_error name error composer
              end;
            Returned (Some (name, session), composer)
        end;
      '(composer, rest) ← replace_from (S index) composer (drop count inputs) sessions;
      Returned (composer, entry :: rest)
  end.

Definition replace (chain : OpenedChain) (inputs : list QuerySnapshot)
    : outcome (result RouterError RouteContribution * OpenedChain) :=
  if oc_closed chain then Returned (Err RouterClosed, chain)
  else if bool_decide (length inputs ≠ sum_list (oc_counts chain))
  then Returned (Err (RouterRefused "router replacement input count changed"), chain)
  else
    '(composer, sessions) ←
      replace_from 0 (oc_composer chain) inputs (zip (oc_sessions chain) (oc_counts chain));
    let chain := mkChain sessions composer (oc_counts chain) false in
    Returned (Ok (chain_current chain), chain).

Definition close (chain : OpenedChain) : OpenedChain :=
  if oc_closed chain then chain
  else mkChain
         ((λ entry : option (string * A),
             match entry with
             | Some (name, session) => Some (name, (session_close session).2)
             | None => None
             end) <$> oc_sessions chain)
         (oc_composer chain) (oc_counts chain) true.

End chain.

(** ** Lemmas: bounds *)

Lemma check_bounded_Ok label actual maximum :
  check_bounded label actual maximum = Ok tt ↔ actual ≤ maximum.
Proof. unfold check_bounded. by rewrite ensure_Ok, bool_decide_eq_true. Qed.

(** What a contribution within the routing bounds is. *)
Record contribution_bounded (c : RouteContribution) : Prop := {
  bounded_sessions : size (list_to_set (rd_session <$> cb_destinations c) : gset RelayUrl) ≤ MAX_DESTINATIONS;
  bounded_reasons : ∀ d, d ∈ cb_destinations c → String.length (rd_reason d) ≤ MAX_TEXT_BYTES;
  bounded_coverage : ∀ t s, cb_coverage c !! t = Some (Covered s) → size s ≤ MAX_COVERED_SESSIONS;
  bounded_texts : ∀ s, s ∈ cb_shortfalls c → String.length s ≤ MAX_TEXT_BYTES
}.

Lemma validate_bounds_Ok c : validate_bounds c = Ok tt ↔ contribution_bounded c.
Proof.
  unfold validate_bounds. split.
  - intros ([] & H1 & ([] & H2 & ([] & H3 & H4)%bind_Ok)%bind_Ok)%bind_Ok.
    pose proof (proj1 (for_each_Ok _ _) H2) as H2'. pose proof (proj1 (for_each_Ok _ _) H3) as H3'.
    pose proof (proj1 (for_each_Ok _ _) H4) as H4'. simpl in *.
    split; [by apply check_bounded_Ok in H1|..].
    + intros d Hd. eapply check_bounded_Ok. by apply H2'.
    + intros t s Hs. eapply check_bounded_Ok. apply (H3' (Covered s)), elem_of_values. eauto.
    + intros s Hs. eapply check_bounded_Ok. by apply H4'.
  - intros [H1 H2 H3 H4]. apply bind_Ok. exists tt. split; [by apply check_bounded_Ok|].
    apply bind_Ok. exists tt. split; [apply for_each_Ok; intros d Hd; by apply check_bounded_Ok, H2|].
    apply bind_Ok. exists tt. split; apply for_each_Ok.
    + intros [s| |] (t & Ht)%elem_of_values; [|done|done]. by eapply check_bounded_Ok, H3.
    + intros s Hs. by apply check_bounded_Ok, H4.
Qed.

Lemma from_contribution_Ok revision c plan :
  from_contribution revision c = Ok plan ↔
  contribution_bounded c ∧
  plan = mkPlan revision (foldl plan_destination ∅ (cb_destinations c))
           (foldl cover_targets (cb_coverage c) (cb_destinations c))
           (cb_unresolved c ∪ unresolved_targets (cb_coverage c)) (cb_shortfalls c).
Proof.
  unfold from_contribution. rewrite bind_Ok. setoid_rewrite <- validate_bounds_Ok. split.
  - intros ([] & ? & E). split; [done|]. by injection E.
  - intros [? ->]. by exists tt.
Qed.

(** ** Lemmas: combining coverage *)

(** What an entry becomes when one contribution's state is merged into it. *)
Definition merged_state (current incoming : option CoverageState) : option CoverageState :=
  match incoming with
  | Some state => Some (merge_coverage (default Unresolved current) state)
  | None => current
  end.

Lemma merge_entry_lookup coverage target state t :
  merge_entry coverage target state !! t =
  if decide (t = target) then Some (merge_coverage (default Unresolved (coverage !! t)) state)
  else coverage !! t.
Proof.
  unfold merge_entry. case_decide as E; [subst; by rewrite lookup_insert_eq|by rewrite lookup_insert_ne].
Qed.

Lemma fold_merge_entries (l : list (RouteTarget * CoverageState)) coverage t :
  NoDup l.*1 →
  foldl (λ coverage '(target, state), merge_entry coverage target state) coverage l !! t =
  merged_state (coverage !! t) ((list_to_map l : gmap RouteTarget CoverageState) !! t).
Proof.
  revert coverage. induction l as [|[t' s] l IH]; intros coverage Hnd; simpl; [done|].
  apply NoDup_cons in Hnd as [Hnot Hnd]. rewrite IH by done. rewrite merge_entry_lookup.
  case_decide as E.
  - subst t'. rewrite (not_elem_of_list_to_map_1 _ _ Hnot), lookup_insert_eq. done.
  - by rewrite lookup_insert_ne.
Qed.

Lemma combine_coverage_lookup coverage c t :
  combine_coverage coverage c !! t = merged_state (coverage !! t) (cb_coverage c !! t).
Proof.
  unfold combine_coverage. rewrite fold_merge_entries by apply NoDup_keys.
  f_equal. unfold entries.
  rewrite (list_to_map_proper _ (map_to_list (cb_coverage c))).
  - by rewrite list_to_map_to_list.
  - apply NoDup_keys.
  - apply merge_sort_Permutation.
Qed.

(** A target's sessions over a list of contributions, and whether any covers it. *)
Definition covered_sessions (t : RouteTarget) (c : RouteContribution) : gset RelayUrl :=
  match cb_coverage c !! t with Some (Covered s) => s | _ => ∅ end.
Definition covers (t : RouteTarget) (c : RouteContribution) : bool :=
  match cb_coverage c !! t with Some (Covered _) => true | _ => false end.
Definition mentions (t : RouteTarget) (c : RouteContribution) : bool :=
  match cb_coverage c !! t with Some _ => true | None => false end.

(** The state [combine] gives a target. *)
Definition combined_state (t : RouteTarget) (cs : list RouteContribution) : option CoverageState :=
  if existsb (covers t) cs then Some (Covered (⋃ (covered_sessions t <$> cs)))
  else if existsb (mentions t) cs then Some Unresolved else None.

Lemma combine_coverage_snoc t cs c :
  merged_state (combined_state t cs) (cb_coverage c !! t) = combined_state t (cs ++ [c]).
Proof.
  unfold combined_state. rewrite !existsb_app, fmap_app, union_list_app_L. simpl.
  change (covers t c) with (match cb_coverage c !! t with Some (Covered _) => true | _ => false end).
  change (mentions t c) with (match cb_coverage c !! t with Some _ => true | None => false end).
  change (covered_sessions t c) with (match cb_coverage c !! t with Some (Covered s) => s | _ => ∅ end).
  assert (Hcov : existsb (covers t) cs = false → ⋃ (covered_sessions t <$> cs) = ∅).
  { rewrite existsb_not_elem. intros Hn. apply empty_union_list_L, Forall_forall.
    intros s (c' & -> & Hc')%list_elem_of_fmap. specialize (Hn c' Hc').
    unfold covers in Hn. unfold covered_sessions. by repeat case_match. }
  destruct (cb_coverage c !! t) as [[s| |]|]; simpl; rewrite ?orb_true_r, ?orb_false_r, ?union_empty_r_L;
    destruct (existsb (covers t) cs); simpl; rewrite ?Hcov, ?union_empty_l_L by done;
    destruct (existsb (mentions t) cs); done.
Qed.

Lemma combine_lookup cs t : cb_coverage (combine cs) !! t = combined_state t cs.
Proof.
  unfold combine. simpl. induction cs as [|c cs IH] using rev_ind.
  - simpl. by rewrite lookup_empty.
  - by rewrite foldl_app, <- combine_coverage_snoc, <- IH, <- combine_coverage_lookup.
Qed.

(** ** Lemmas: completing targets *)

Lemma complete_target_fixed answered c t :
  cb_destinations (complete_target answered c t) = cb_destinations c ∧
  cb_shortfalls (complete_target answered c t) = cb_shortfalls c.
Proof. unfold complete_target. by repeat case_match. Qed.

Definition absent_state (answered : bool) : CoverageState := if answered then SettledAbsent else Unresolved.

Lemma complete_fold answered l c :
  let c' := foldl (complete_target answered) c l in
  cb_destinations c' = cb_destinations c ∧ cb_shortfalls c' = cb_shortfalls c ∧
  (∀ t, cb_coverage c' !! t =
        match cb_coverage c !! t with
        | Some s => Some s
        | None => if decide (t ∈ l) then Some (absent_state answered) else None
        end) ∧
  (∀ t, t ∈ cb_unresolved c' ↔
        t ∈ cb_unresolved c ∨ (answered = false ∧ t ∈ l ∧ cb_coverage c !! t = None)).
Proof.
  simpl. revert c. induction l as [|x l IH]; intros c.
  - split_and!; try done; intros t.
    + destruct (decide (t ∈ [])) as [Hx|_]; [by apply not_elem_of_nil in Hx|].
      simpl. by destruct (cb_coverage c !! t).
    + set_solver.
  - cbn [foldl]. destruct (IH (complete_target answered c x)) as (-> & -> & Hc & Hu).
    destruct (complete_target_fixed answered c x) as [-> ->]. split_and!; try done; intros t.
    + rewrite Hc. unfold complete_target. destruct (cb_coverage c !! x) eqn:Ex.
      { destruct (cb_coverage c !! t) eqn:Et; [done|].
        assert (t ≠ x) by congruence. repeat case_decide; try done; set_solver. }
      destruct answered; simpl; rewrite lookup_insert;
        (case_decide as E; [subst; rewrite Ex; rewrite decide_True by set_solver; done|]);
        (destruct (cb_coverage c !! t); [done|]);
        repeat case_decide; try done; set_solver.
    + rewrite Hu. unfold complete_target. destruct (cb_coverage c !! x) eqn:Ex.
      { assert (t = x → cb_coverage c !! t ≠ None) by (intros ->; congruence). set_solver. }
      destruct answered; simpl; [set_solver|].
      rewrite lookup_insert. case_decide as E; [subst; set_solver|]. set_solver.
Qed.

Lemma merged_destinations c : cb_destinations (merged c) = List.flat_map cb_destinations (cm_contributions c).
Proof. unfold merged, complete_targets. by destruct (complete_fold (all_answered c) (ordered_elements (cm_targets c)) (combine (cm_contributions c))) as (-> & _). Qed.

Lemma merged_shortfalls c : cb_shortfalls (merged c) = List.flat_map cb_shortfalls (cm_contributions c).
Proof. unfold merged, complete_targets. by destruct (complete_fold (all_answered c) (ordered_elements (cm_targets c)) (combine (cm_contributions c))) as (_ & -> & _). Qed.

Lemma merged_coverage c t :
  cb_coverage (merged c) !! t =
  match combined_state t (cm_contributions c) with
  | Some s => Some s
  | None => if decide (t ∈ cm_targets c) then Some (absent_state (all_answered c)) else None
  end.
Proof.
  unfold merged, complete_targets.
  destruct (complete_fold (all_answered c) (ordered_elements (cm_targets c)) (combine (cm_contributions c)))
    as (_ & _ & -> & _).
  rewrite combine_lookup. destruct (combined_state t (cm_contributions c)); [done|].
  destruct (decide (t ∈ ordered_elements (cm_targets c))) as [E1|E1],
    (decide (t ∈ cm_targets c)) as [E2|E2]; rewrite elem_of_ordered_elements in E1; done.
Qed.

Lemma merged_unresolved c t :
  t ∈ cb_unresolved (merged c) ↔
  (∃ x, x ∈ cm_contributions c ∧ t ∈ cb_unresolved x) ∨
  (all_answered c = false ∧ t ∈ cm_targets c ∧ combined_state t (cm_contributions c) = None).
Proof.
  unfold merged, complete_targets.
  destruct (complete_fold (all_answered c) (ordered_elements (cm_targets c)) (combine (cm_contributions c)))
    as (_ & _ & _ & Hu).
  rewrite Hu, elem_of_ordered_elements, combine_lookup. unfold combine. simpl.
  rewrite elem_of_union_list. setoid_rewrite list_elem_of_fmap. naive_solver.
Qed.

(** ** Lemmas: error text *)

Definition ascii_only (s : string) : Prop := ∀ i c, String.get i s = Some c → (N_of_ascii c < 128)%N.

Lemma get_app_l a b i : i < String.length a → String.get i (a +:+ b) = String.get i a.
Proof. intros Hi. symmetry. by apply String.append_correct1. Qed.

Lemma get_app_r a b i : String.length a ≤ i → String.get i (a +:+ b) = String.get (i - String.length a) b.
Proof.
  intros Hi. rewrite <- (Nat.sub_add (String.length a) i) at 1 by done.
  symmetry. apply String.append_correct2.
Qed.

Lemma get_None_length s i : String.get i s = None ↔ String.length s ≤ i.
Proof.
  revert i. induction s as [|c s IH]; intros i; simpl; [split; [lia|by destruct i]|].
  destruct i; [split; [done|lia]|]. rewrite IH. lia.
Qed.

Lemma ascii_only_app a b : ascii_only a → ascii_only b → ascii_only (a +:+ b).
Proof.
  intros Ha Hb i c. destruct (decide (i < String.length a)).
  - rewrite get_app_l by done. apply Ha.
  - rewrite get_app_r by lia. apply Hb.
Qed.

Lemma ascii_only_cons c s : (N_of_ascii c < 128)%N → ascii_only s → ascii_only (String c s).
Proof. intros Hc Hs [|i] d; simpl; [by intros [= <-]|apply Hs]. Qed.

Lemma pretty_char_ascii d : (N_of_ascii (pretty_N_char d) < 128)%N.
Proof. destruct d as [|[[[[]|[]|]|[[]|[]|]|]|[[[]|[]|]|[[]|[]|]|]|]]; vm_compute; done. Qed.

Lemma ascii_only_pretty_go x s : ascii_only s → ascii_only (pretty_N_go x s).
Proof.
  revert s. induction (N.lt_wf_0 x) as [x _ IH]; intros s Hs.
  destruct (decide (x = 0)%N) as [->|Hx]; [by rewrite pretty_N_go_0|].
  rewrite pretty_N_go_step by lia. apply IH; [apply N.div_lt; lia|].
  apply ascii_only_cons; [apply pretty_char_ascii|done].
Qed.

Lemma ascii_only_pretty (n : nat) : ascii_only (pretty n).
Proof.
  unfold pretty, pretty_nat, pretty, pretty_N. case_decide.
  - apply ascii_only_cons; [by vm_compute|]. intros [] ? [=].
  - apply ascii_only_pretty_go. intros [] ? [=].
Qed.

(** Decides [ascii_only] of literals. *)
Fixpoint ascii_onlyb (s : string) : bool :=
  match s with
  | EmptyString => true
  | String c s => bool_decide (N_of_ascii c < 128)%N && ascii_onlyb s
  end.
Lemma ascii_onlyb_true s : ascii_onlyb s = true → ascii_only s.
Proof.
  induction s as [|c s IH]; simpl; [by intros _ [] ? [=]|].
  rewrite andb_true_iff, bool_decide_eq_true. intros [??]. apply ascii_only_cons; auto.
Qed.

(** A prefix within the cut followed by ASCII text is never cut inside a character. *)
Lemma ascii_suffix_boundary a b i :
  String.length a ≤ i → i ≤ String.length (a +:+ b) → ascii_only b →
  is_char_boundary (a +:+ b) i = true.
Proof.
  intros Hi Hlen Hb. unfold is_char_boundary. case_bool_decide; [done|].
  rewrite get_app_r by done. destruct (String.get _ b) as [c|] eqn:E.
  - apply Hb in E. unfold is_continuation. rewrite bool_decide_eq_false_2 by lia. done.
  - apply get_None_length in E. rewrite bool_decide_eq_true_2; [done|].
    rewrite string_length_app in *. lia.
Qed.

(** The refusal [check_bounded] gives. *)
Definition bound_refusal (e : RouterError) : Prop :=
  ∃ label actual maximum : string, ascii_only label ∧ ascii_only actual ∧ ascii_only maximum ∧
    e = RouterRefused (label +:+ " exceed bound: " +:+ actual +:+ " > " +:+ maximum).

Lemma check_bounded_Err label actual maximum e :
  ascii_onlyb label = true → check_bounded label actual maximum = Err e → bound_refusal e.
Proof.
  unfold check_bounded. intros Hl [_ <-]%ensure_Err. eexists _, _, _.
  split_and!; [by apply ascii_onlyb_true|apply ascii_only_pretty|apply ascii_only_pretty|done].
Qed.

Lemma for_each_Err {A E} (f : A → result E unit) l (e : E) :
  for_each f l = Err e → ∃ x, x ∈ l ∧ f x = Err e.
Proof.
  induction l as [|x l IH]; [done|]. change (for_each f (x :: l)) with (_ ← f x; for_each f l).
  rewrite bind_Err. intros [?|(? & _ & (y & ? & ?)%IH)]; [exists x|exists y]; split; try done; [left|by right].
Qed.

Lemma validate_bounds_Err c e : validate_bounds c = Err e → bound_refusal e.
Proof.
  unfold validate_bounds.
  intros [Hb|(_ & _ & [Hb|(_ & _ & [Hb|(_ & _ & Hb)]%bind_Err)]%bind_Err)]%bind_Err.
  - by eapply check_bounded_Err in Hb.
  - apply for_each_Err in Hb as (? & _ & Hb). by eapply check_bounded_Err in Hb.
  - apply for_each_Err in Hb as ([] & _ & Hb); [|done|done]. by eapply check_bounded_Err in Hb.
  - apply for_each_Err in Hb as (? & _ & Hb). by eapply check_bounded_Err in Hb.
Qed.

Lemma bounded_error_length router e text :
  bounded_error router e = Returned text → String.length text ≤ MAX_TEXT_BYTES.
Proof.
  unfold bounded_error. case_bool_decide; [case_match; [|done]|]; intros [= <-]; [|lia].
  by rewrite length_substring_prefix.
Qed.

Lemma bounded_error_bound router e :
  String.length router ≤ MAX_TEXT_BYTES → bound_refusal e → ∃ text, bounded_error router e = Returned text.
Proof.
  intros Hlen (label & actual & maximum & Hl & Ha & Hm & ->). unfold bounded_error.
  case_bool_decide as Hlong; [|eauto]. rewrite ascii_suffix_boundary; [eauto|done|done|].
  unfold router_error_text.
  repeat (apply ascii_only_app; [first [by apply ascii_onlyb_true|done]|]). done.
Qed.

(** ** Lemmas: the composer's invariant *)

Record composer_ok (names : list string) (c : Composer) : Prop := {
  composer_bounded : contribution_bounded (merged c);
  composer_shortfalls : length (cm_shortfalls c) ≤ MAX_SHORTFALLS;
  composer_texts : ∀ s, s ∈ cm_shortfalls c → String.length s ≤ MAX_TEXT_BYTES;
  composer_discarded : (cm_discarded c ≤ u64_max)%N;
  composer_attributed : ∀ x d, x ∈ cm_contributions c → d ∈ cb_destinations x → rd_router d ∈ names
}.

Lemma combine_defaults n : combine (replicate n default_contribution) = default_contribution.
Proof.
  unfold combine, default_contribution. f_equal; induction n as [|n IH]; try done.
  cbn [replicate fmap list_fmap union_list]. set_solver.
Qed.

Lemma Composer_new_ok names n targets : composer_ok names (Composer_new n targets).
Proof.
  split; simpl.
  - split; rewrite ?merged_destinations, ?merged_shortfalls; simpl.
    + replace (List.flat_map cb_destinations (replicate n default_contribution))
        with (cb_destinations (combine (replicate n default_contribution))) by done.
      rewrite combine_defaults. vm_compute. lia.
    + intros d Hd. change (d ∈ cb_destinations (combine (replicate n default_contribution))) in Hd.
      rewrite combine_defaults in Hd. by apply not_elem_of_nil in Hd.
    + intros t s. rewrite merged_coverage. simpl. rewrite <- combine_lookup, combine_defaults. simpl.
      rewrite lookup_empty. case_decide; [|done]. by destruct (all_answered _).
    + intros s Hs. change (s ∈ cb_shortfalls (combine (replicate n default_contribution))) in Hs.
      rewrite combine_defaults in Hs. by apply not_elem_of_nil in Hs.
  - lia.
  - by intros s ?%not_elem_of_nil.
  - lia.
  - intros x d ->%elem_of_replicate_inv ?%not_elem_of_nil. done.
Qed.

Lemma record_ok names c text :
  composer_ok names c → String.length text ≤ MAX_TEXT_BYTES → composer_ok names (record text c).
Proof.
  intros [Hb Hs Ht Hd Ha] Htext. unfold record. case_bool_decide; split; simpl; try done.
  - rewrite length_app. simpl. lia.
  - intros s [?| ->]%elem_of_snoc; auto.
  - apply saturating_add_le.
Qed.

Lemma record_error_ok names router e c c' :
  composer_ok names c → record_error router e c = Returned c' → composer_ok names c'.
Proof.
  intros Hc (text & Ht & E)%bind_Returned. injection E as <-.
  by apply record_ok, (bounded_error_length _ _ _ Ht).
Qed.

Lemma accept_ok names index router x c c' :
  composer_ok names c → (∀ d, d ∈ cb_destinations x → rd_router d ∈ names) →
  accept index router x c = Returned c' → composer_ok names c'.
Proof.
  intros Hc Hx. unfold accept. destruct (validate_bounds _) as [[]|e] eqn:E;
    [|by apply record_error_ok].
  apply validate_bounds_Ok in E. intros [= <-]. destruct Hc as [_ Hs Ht Hd Ha].
  split; simpl; try done.
  intros y d [i Hi]%list_elem_of_lookup Hdy.
  destruct (decide (i = index)) as [->|Hne].
  - destruct (decide (index < length (cm_contributions c))).
    + rewrite list_lookup_insert_eq in Hi by done. injection Hi as <-. auto.
    + rewrite list_insert_ge in Hi by lia. eapply Ha; [by eapply list_elem_of_lookup_2|done].
  - rewrite list_lookup_insert_ne in Hi by done. eapply Ha; [by eapply list_elem_of_lookup_2|done].
Qed.

Lemma attribute_Ok x router y :
  attribute x router = Ok y →
  contribution_bounded y ∧ (∀ d, d ∈ cb_destinations y → rd_router d = router) ∧
  cb_coverage y = cb_coverage x ∧ cb_unresolved y = cb_unresolved x ∧ cb_shortfalls y = cb_shortfalls x.
Proof.
  intros ([] & _ & ([] & Hv%validate_bounds_Ok & E)%bind_Ok)%bind_Ok. injection E as <-.
  split_and!; try done. simpl. by intros d (d' & -> & _)%list_elem_of_fmap.
Qed.

Lemma accept_returns names index router x c :
  composer_ok names c → String.length router ≤ MAX_TEXT_BYTES → ∃ c', accept index router x c = Returned c'.
Proof.
  intros Hc Hr. unfold accept. destruct (validate_bounds _) as [[]|e] eqn:E; [eauto|].
  destruct (bounded_error_bound router e Hr) as (text & Ht); [by eapply validate_bounds_Err|].
  unfold record_error. rewrite Ht. simpl. eauto.
Qed.

(** ** Lemmas: the combined plan *)

Lemma discarded_text_length n : (n ≤ u64_max)%N → String.length (discarded_text n) ≤ MAX_TEXT_BYTES.
Proof.
  intros Hn. unfold discarded_text. rewrite !string_length_app.
  pose proof (length_pretty_u64 n Hn). unfold MAX_TEXT_BYTES.
  change (String.length (pretty MAX_SHORTFALLS)) with 3. simpl. lia.
Qed.

Lemma bound_shortfalls_ok shortfalls discarded :
  (discarded ≤ u64_max)%N → (∀ s, s ∈ shortfalls → String.length s ≤ MAX_TEXT_BYTES) →
  length (bound_shortfalls shortfalls discarded) ≤ MAX_SHORTFALLS ∧
  (∀ s, s ∈ bound_shortfalls shortfalls discarded → String.length s ≤ MAX_TEXT_BYTES).
Proof.
  intros Hd Hs. unfold bound_shortfalls.
  set (p := if bool_decide _ then _ else _).
  assert (Hp : length p.1 < MAX_SHORTFALLS ∧ (p.2 ≤ u64_max)%N ∧ ∀ s, s ∈ p.1 → s ∈ shortfalls).
  { unfold p. case_bool_decide; cbn [fst snd].
    - split_and!; [|apply saturating_add_le|intros s (i & Hi & _)%elem_of_take; by eapply list_elem_of_lookup_2].
      rewrite length_take. unfold MAX_SHORTFALLS. lia.
    - split_and!; [lia|done|done]. }
  destruct p as [l n]. cbn [fst snd] in Hp. destruct Hp as (Hl & Hn & Hsub). case_bool_decide.
  - split; [rewrite length_app; simpl; lia|].
    intros s [?| ->]%elem_of_snoc; [auto|by apply discarded_text_length].
  - split; [lia|auto].
Qed.

Lemma combined_ok names c :
  composer_ok names c →
  contribution_bounded (combined c) ∧ length (cb_shortfalls (combined c)) ≤ MAX_SHORTFALLS.
Proof.
  intros [[H1 H2 H3 H4] Hs Ht Hd _].
  destruct (bound_shortfalls_ok (cb_shortfalls (merged c) ++ cm_shortfalls c) (cm_discarded c) Hd)
    as [Hlen Htext]; [intros s [?|?]%elem_of_app; auto|].
  split; [by split|done].
Qed.

(** *** What [from_contribution] makes of destinations *)

Definition destinations_at (s : RelayUrl) (l : list RouteDestination) : list RouteDestination :=
  filter (λ d, rd_session d = s) l.

(** The planned relay a list of destinations for one session amounts to. *)
Definition planned_relay (s : RelayUrl) (l : list RouteDestination) : option PlannedRelay :=
  match destinations_at s l with
  | [] => None
  | at_s => Some (mkPlanned s (⋃ (rd_targets <$> at_s))
                    (list_to_set ((λ d, (rd_router d, rd_reason d)) <$> at_s)))
  end.

Lemma destinations_at_snoc s l d :
  destinations_at s (l ++ [d]) = destinations_at s l ++ (if decide (rd_session d = s) then [d] else []).
Proof.
  unfold destinations_at. by rewrite filter_app.
Qed.

Lemma plan_destinations_lookup l s :
  foldl plan_destination ∅ l !! s = planned_relay s l.
Proof.
  induction l as [|d l IH] using rev_ind; [done|].
  rewrite foldl_app. simpl. unfold plan_destination at 1. unfold planned_relay.
  rewrite destinations_at_snoc. case_decide as E.
  - subst s. rewrite lookup_insert_eq, IH. unfold planned_relay.
    destruct (destinations_at (rd_session d) l) as [|x at_s] eqn:Hat.
    + simpl. f_equal. f_equal; set_solver.
    + change ((x :: at_s) ++ [d]) with (x :: (at_s ++ [d])). cbn iota beta.
      rewrite (app_comm_cons at_s [d] x), !fmap_app, union_list_app_L, list_to_set_app_L.
      simpl. f_equal. f_equal; set_solver.
  - rewrite lookup_insert_ne by done. rewrite IH, app_nil_r. done.
Qed.

Lemma plan_destinations_size l :
  size (foldl plan_destination ∅ l) = size (list_to_set (rd_session <$> l) : gset RelayUrl).
Proof.
  rewrite <- size_dom. f_equal. apply set_eq. intros s.
  rewrite elem_of_dom, plan_destinations_lookup, elem_of_list_to_set, list_elem_of_fmap.
  unfold planned_relay. split.
  - intros [p Hp]. destruct (destinations_at s l) as [|d at_s] eqn:E; [done|].
    assert (Hd : d ∈ destinations_at s l) by (rewrite E; left).
    apply list_elem_of_filter in Hd as [<- ?]. eauto.
  - intros (d & -> & Hd). destruct (destinations_at (rd_session d) l) as [|x at_s] eqn:E; [|eauto].
    assert (Hd' : d ∈ destinations_at (rd_session d) l) by (by apply list_elem_of_filter).
    rewrite E in Hd'. by apply not_elem_of_nil in Hd'.
Qed.

Lemma planned_relay_Some s l p :
  planned_relay s l = Some p →
  pr_session p = s ∧ ∀ router reason, (router, reason) ∈ pr_reasons p →
    ∃ d, d ∈ l ∧ rd_session d = s ∧ rd_router d = router ∧ rd_reason d = reason.
Proof.
  unfold planned_relay. destruct (destinations_at s l) as [|x at_s] eqn:E; [done|].
  rewrite <- E. intros [= <-]. simpl. split; [done|].
  intros router reason (d & [= -> ->] & [<- ?]%list_elem_of_filter)%elem_of_list_to_set%list_elem_of_fmap.
  eauto.
Qed.

(** Destinations only ever turn a target's state into [Covered]. *)
Lemma cover_targets_lookup coverage d t :
  cover_targets coverage d !! t =
  if decide (t ∈ rd_targets d)
  then Some (merge_coverage (default Unresolved (coverage !! t)) (Covered {[ rd_session d ]}))
  else coverage !! t.
Proof.
  unfold cover_targets.
  pose proof (elem_of_ordered_elements (rd_targets d)) as Hel.
  pose proof (NoDup_ordered_elements (rd_targets d)) as Hnd.
  assert (Hgen : ∀ l cov, NoDup l →
    foldl (λ coverage target, merge_entry coverage target (Covered {[ rd_session d ]})) cov l !! t =
    if decide (t ∈ l) then Some (merge_coverage (default Unresolved (cov !! t)) (Covered {[ rd_session d ]}))
    else cov !! t).
  { induction l as [|x l IH]; intros cov Hl; [done|]. apply NoDup_cons in Hl as [Hx Hl].
    cbn [foldl]. rewrite IH by done. rewrite !merge_entry_lookup.
    destruct (decide (t = x)) as [->|Hne].
    - by rewrite (decide_False (P := x ∈ l)), decide_True by set_solver.
    - destruct (decide (t ∈ l)); [rewrite decide_True by set_solver|rewrite decide_False by set_solver]; done. }
  rewrite Hgen by done.
  destruct (decide (t ∈ ordered_elements (rd_targets d))) as [E1|E1],
    (decide (t ∈ rd_targets d)) as [E2|E2]; rewrite Hel in E1; done.
Qed.

Lemma cover_fold_state l coverage t :
  match foldl cover_targets coverage l !! t with
  | Some (Covered _) => True
  | other => other = coverage !! t
  end.
Proof.
  revert coverage. induction l as [|d l IH]; intros coverage; simpl; [by destruct (coverage !! t) as [[]|]|].
  specialize (IH (cover_targets coverage d)). rewrite cover_targets_lookup in IH.
  destruct (foldl cover_targets (cover_targets coverage d) l !! t) as [[]|]; [done|..];
    case_decide; try done; by destruct (coverage !! t) as [[]|].
Qed.

(** ** Lemmas: running the chain *)

Section preview_lemmas.
Context `{Nostr} {A : Type}.

(** Router [i] of the chain answered within bounds, at some upstream plan. *)
Definition answers (request : RouteRequest) (chain : list (Router A * list QuerySnapshot)) (i : nat) : Prop :=
  ∃ router inputs upstream value, chain !! i = Some (router, inputs) ∧
    preview_router request upstream router inputs = Ok value.

Lemma record_error_fixed router e c c' :
  record_error router e c = Returned c' →
  cm_contributions c' = cm_contributions c ∧ cm_answered c' = cm_answered c ∧ cm_targets c' = cm_targets c.
Proof.
  intros (text & _ & E)%bind_Returned. injection E as <-. unfold record. by case_bool_decide.
Qed.

Lemma accept_fixed index router x c c' :
  accept index router x c = Returned c' →
  cm_targets c' = cm_targets c ∧ length (cm_answered c') = length (cm_answered c) ∧
  ∀ i, cm_answered c' !! i = Some true → cm_answered c !! i = Some true ∨ i = index.
Proof.
  unfold accept. destruct (validate_bounds _) as [[]|e].
  - intros [= <-]. simpl. split_and!; [done|by rewrite length_insert|].
    intros i Hi. destruct (decide (i = index)) as [->|]; [by right|].
    rewrite list_lookup_insert_ne in Hi by done. by left.
  - intros (_ & -> & ->)%record_error_fixed. eauto.
Qed.

Lemma preview_router_Ok request upstream (router : Router A) inputs value :
  preview_router request upstream router inputs = Ok value →
  ∀ d, d ∈ cb_destinations value → rd_router d = router_name router.
Proof.
  intros (declared & _ & ([] & _ & (v & _ & Hv)%bind_Ok)%bind_Ok)%bind_Ok.
  by apply attribute_Ok in Hv as (_ & Ha & _).
Qed.

Lemma preview_from_ok names request (routers : list (Router A * list QuerySnapshot)) index c c' :
  composer_ok names c → (∀ r, r ∈ routers.*1 → router_name r ∈ names) →
  preview_from request index c routers = Returned c' →
  composer_ok names c' ∧ cm_targets c' = cm_targets c ∧ length (cm_answered c') = length (cm_answered c) ∧
  ∀ i, cm_answered c' !! i = Some true →
    cm_answered c !! i = Some true ∨ (∃ j, i = index + j ∧ answers request routers j).
Proof.
  revert index c. induction routers as [|[router inputs] routers IH]; intros index c Hc Hn.
  { intros [= <-]. eauto. }
  cbn [preview_from]. intros (c1 & Hstep & Hrest)%bind_Returned.
  assert (H1 : composer_ok names c1 ∧ cm_targets c1 = cm_targets c ∧
    length (cm_answered c1) = length (cm_answered c) ∧
    ∀ i, cm_answered c1 !! i = Some true →
      cm_answered c !! i = Some true ∨ (i = index ∧ answers request ((router, inputs) :: routers) 0)).
  { destruct (preview_router request _ router inputs) as [value|e] eqn:Hp.
    - destruct (accept_fixed _ _ _ _ _ Hstep) as (Ht & Hl & Ha). split_and!; [|done|done|].
      + eapply accept_ok; [exact Hc| |exact Hstep]. intros d Hd.
        rewrite (preview_router_Ok _ _ _ _ _ Hp d Hd). apply Hn. left.
      + intros i [?| ->]%Ha; [by left|]. right. split; [done|]. eexists _, _, _, _. split; [done|exact Hp].
    - destruct (record_error_fixed _ _ _ _ Hstep) as (_ & -> & ->).
      split_and!; [by eapply record_error_ok|done|done|by left]. }
  destruct H1 as (Hc1 & Ht1 & Hl1 & Ha1).
  destruct (IH (S index) c1) as (Hc' & Ht & Hl & Ha); [done|by intros r Hr; apply Hn; right|done|].
  split_and!; [done|congruence|congruence|].
  intros i [[?|[-> Hans]]%Ha1|(j & -> & Hans)]%Ha; [by left|right; exists 0; split; [lia|done]|].
  right. exists (S j). split; [lia|exact Hans].
Qed.

Lemma preview_from_panics names request (routers : list (Router A * list QuerySnapshot)) index c :
  composer_ok names c → (∀ r, r ∈ routers.*1 → router_name r ∈ names) →
  (∀ name, name ∈ names → String.length name ≤ MAX_TEXT_BYTES) →
  preview_from request index c routers = Panicked →
  ∃ router inputs upstream e, router ∈ routers.*1 ∧
    preview_router request upstream router inputs = Err e ∧ bounded_error (router_name router) e = Panicked.
Proof.
  intros Hc Hn Hlen. revert index c Hc. induction routers as [|[router inputs] routers IH]; intros index c Hc; [done|].
  cbn [preview_from]. destruct (preview_router request _ router inputs) as [value|e] eqn:Hp.
  - destruct (accept_returns names index (router_name router) value c Hc) as [c1 Hacc];
      [apply Hlen, Hn; left|]. rewrite Hacc. simpl. intros Hpanic.
    destruct (IH ltac:(intros r Hr; apply Hn; by right) (S index) c1) as (r & i & u & e & Hr & ? & ?); [|done|].
    + eapply accept_ok; [exact Hc| |exact Hacc]. intros d Hd.
      rewrite (preview_router_Ok _ _ _ _ _ Hp d Hd). apply Hn. left.
    + exists r, i, u, e. split_and!; [by right|done|done].
  - unfold record_error. destruct (bounded_error (router_name router) e) as [text|] eqn:Hb; simpl.
    + intros Hpanic.
      destruct (IH ltac:(intros r Hr; apply Hn; by right) (S index) (record text c)) as (r & i & u & e' & Hr & ? & ?);
        [by apply record_ok, (bounded_error_length _ _ _ Hb)|done|].
      exists r, i, u, e'. split_and!; [by right|done|done].
    + intros _. eexists router, inputs, _, e. split_and!; [left|exact Hp|done].
Qed.

Lemma validate_names_lengths (seen : gset string) (routers : list (Router A)) :
  validate_names_from seen routers = Ok tt →
  ∀ name, name ∈ router_name <$> routers → String.length name ≤ MAX_TEXT_BYTES.
Proof.
  revert seen. induction routers as [|r routers IH]; intros seen; [by intros _ ? ?%not_elem_of_nil|].
  cbn [validate_names_from].
  intros (? & _ & ([] & Hb & (? & _ & Hrest)%bind_Ok)%bind_Ok)%bind_Ok name [->|Hin]%elem_of_cons.
  - by apply check_bounded_Ok in Hb.
  - by eapply IH.
Qed.

End preview_lemmas.

(** ** Properties *)

Section routing_properties.
Context `{Nostr} {A : Type}.

(** Router failures are isolated.  With valid names and one input group
    per router, [preview] always returns a plan, however many routers refuse,
    panic or exceed their bounds: at most 256 destinations, at most 256
    shortfalls of at most 4,096 bytes, and a coverage state for every target of
    the request.  The one exception is the panic of [bounded_error]: a router
    whose own error text would be cut inside a character. *)
Theorem preview_isolates_failures (routers : list (Router A)) (request : RouteRequest)
    (inputs : list (list QuerySnapshot))
    (Hnames : validate_names routers = Ok tt) (Hinputs : length inputs = length routers) :
  (∃ plan, preview routers request inputs = Returned (Ok plan) ∧
     size (rp_destinations plan) ≤ MAX_DESTINATIONS ∧ length (rp_shortfalls plan) ≤ MAX_SHORTFALLS ∧
     (∀ s, s ∈ rp_shortfalls plan → String.length s ≤ MAX_TEXT_BYTES) ∧
     (∀ t, t ∈ targets request → is_Some (rp_coverage plan !! t))) ∨
  (preview routers request inputs = Panicked ∧
   ∃ router input upstream e, router ∈ routers ∧
     preview_router request upstream router input = Err e ∧ bounded_error (router_name router) e = Panicked).
Proof.
  pose proof (validate_names_lengths ∅ routers Hnames) as Hlen.
  assert (Hzip : (zip routers inputs).*1 = routers) by (apply fst_zip; lia).
  assert (Hin : ∀ r, r ∈ (zip routers inputs).*1 → router_name r ∈ router_name <$> routers)
    by (intros r Hr; rewrite Hzip in Hr; apply list_elem_of_fmap; eauto).
  pose proof (Composer_new_ok (router_name <$> routers) (length routers) (targets request)) as Hc.
  unfold preview. rewrite Hnames. cbn [mbind result_bind].
  rewrite bool_decide_eq_true_2 by done. cbn [ensure].
  destruct (preview_from request 0 _ _) as [c|] eqn:Hrun.
  - left. destruct (preview_from_ok _ _ _ _ _ _ Hc Hin Hrun) as (Hok & Ht & _). simpl.
    destruct (combined_ok _ _ Hok) as [Hb Hs].
    eexists. split; [unfold composer_plan; by rewrite (proj2 (from_contribution_Ok 1 _ _) (conj Hb eq_refl))|].
    simpl. split_and!; [|done|by apply Hb|].
    + rewrite plan_destinations_size. apply Hb.
    + intros t Hin_t. pose proof (cover_fold_state (cb_destinations (merged c)) (cb_coverage (merged c)) t) as Hst.
      rewrite merged_coverage, Ht in Hst. simpl in Hst. rewrite decide_True in Hst by done.
      destruct (foldl cover_targets _ _ !! t) as [[]|]; [eauto|eauto|eauto|].
      by destruct (combined_state t (cm_contributions c)).
  - right. split; [done|].
    destruct (preview_from_panics _ _ _ _ _ Hc Hin Hlen Hrun) as (r & i & u & e & Hr & ? & ?).
    exists r, i, u, e. rewrite Hzip in Hr. done.
Qed.

(** Attribution cannot be forged: every planned relay is keyed by its own
    session, and every [(router, reason)] pair that selected it names a router
    of the chain that answered. *)
Theorem preview_attribution (routers : list (Router A)) (request : RouteRequest)
    (inputs : list (list QuerySnapshot)) (plan : RoutePlan) (s : RelayUrl) (p : PlannedRelay)
    (Hpreview : preview routers request inputs = Returned (Ok plan))
    (Hp : rp_destinations plan !! s = Some p) :
  pr_session p = s ∧
  ∀ router reason, (router, reason) ∈ pr_reasons p → router ∈ router_name <$> routers.
Proof.
  unfold preview in Hpreview. destruct (_ ← validate_names routers; _) as [[]|]; [|done].
  apply bind_Returned in Hpreview as (c & Hrun & E). injection E as E.
  apply from_contribution_Ok in E as [_ ->]. simpl in Hp.
  rewrite plan_destinations_lookup in Hp. destruct (planned_relay_Some _ _ _ Hp) as [Hs Hr].
  split; [done|]. intros router reason (d & Hd & _ & <- & _)%Hr.
  assert (Hin : ∀ r, r ∈ (zip routers inputs).*1 → router_name r ∈ router_name <$> routers).
  { intros r ([r' i] & -> & Hx%elem_of_zip_l)%list_elem_of_fmap. apply list_elem_of_fmap. eauto. }
  destruct (preview_from_ok _ _ _ _ _ _ (Composer_new_ok (router_name <$> routers) _ _) Hin Hrun)
    as (Hok & _).
  rewrite merged_destinations in Hd. apply list_elem_of_In, in_flat_map in Hd as (x & Hx & Hd).
  apply (composer_attributed _ _ Hok x); by apply list_elem_of_In.
Qed.

(** Absence settles only on an answer: if the plan reports a target as
    [SettledAbsent], every router of the chain answered, within bounds. *)
Theorem preview_absence_needs_answers (routers : list (Router A)) (request : RouteRequest)
    (inputs : list (list QuerySnapshot)) (plan : RoutePlan) (t : RouteTarget)
    (Hpreview : preview routers request inputs = Returned (Ok plan))
    (Hinputs : length inputs = length routers)
    (Ht : rp_coverage plan !! t = Some SettledAbsent) :
  ∀ i, i < length routers → answers request (zip routers inputs) i.
Proof.
  unfold preview in Hpreview. destruct (_ ← validate_names routers; _) as [[]|]; [|done].
  apply bind_Returned in Hpreview as (c & Hrun & E). injection E as E.
  apply from_contribution_Ok in E as [_ ->]. simpl in Ht.
  pose proof (cover_fold_state (cb_destinations (merged c)) (cb_coverage (merged c)) t) as Hst.
  rewrite Ht, merged_coverage in Hst.
  assert (Hin : ∀ r, r ∈ (zip routers inputs).*1 → router_name r ∈ router_name <$> (zip routers inputs).*1)
    by (intros r Hr; apply list_elem_of_fmap; eauto).
  destruct (preview_from_ok _ _ _ _ _ _ (Composer_new_ok _ _ _) Hin Hrun) as (_ & _ & Hl & Ha).
  assert (Hall : all_answered c = true).
  { unfold combined_state in Hst. repeat (case_match; simplify_eq/=; try done).
    unfold absent_state in Hst. by destruct (all_answered c). }
  intros i Hi. simpl in Hl. rewrite length_replicate in Hl.
  destruct (lookup_lt_is_Some_2 (cm_answered c) i) as [b Hb]; [lia|].
  assert (b = true) as ->.
  { unfold all_answered in Hall. rewrite forallb_elem in Hall. apply (Hall b).
    by eapply list_elem_of_lookup_2. }
  destruct (Ha i Hb) as [Hf|(j & -> & Hans)]; [|done].
  simpl in Hf. by apply lookup_replicate in Hf as [? _].
Qed.

(** A router's own answer of absence is lost when contributions are
    combined: a target some contribution reports [SettledAbsent] and none
    covers is [Unresolved] in every plan, so that plan never settles. *)
Theorem absence_answer_lost (c : Composer) (x : RouteContribution) (t : RouteTarget)
    (revision : N) (plan : RoutePlan)
    (Hx : x ∈ cm_contributions c) (Habsent : cb_coverage x !! t = Some SettledAbsent)
    (Hnone : ∀ y, y ∈ cm_contributions c → covers t y = false)
    (Hplan : composer_plan c revision = Ok plan) :
  t ∈ rp_unresolved plan ∧ settled plan = false.
Proof.
  assert (Hin : t ∈ rp_unresolved plan).
  { apply from_contribution_Ok in Hplan as [_ ->]. simpl. apply elem_of_union_r.
    unfold unresolved_targets. apply elem_of_dom. exists Unresolved.
    apply map_lookup_filter_Some. split; [|done]. rewrite merged_coverage. unfold combined_state.
    rewrite (proj2 (existsb_not_elem _ _) Hnone), (proj2 (existsb_elem _ _)); [done|].
    exists x. split; [done|]. unfold mentions. by rewrite Habsent. }
  split; [done|]. unfold settled. apply bool_decide_eq_false. set_solver.
Qed.

End routing_properties.

(** ** Witnesses *)

Module RoutingWitness.
Definition fixed (name : string) (answer : outcome (result RouterError RouteContribution)) : Router unit :=
  mkRouter unit name (λ _ _, Returned (Ok [])) (λ _ _ _, answer) (λ _ _ _, Returned (Ok tt)).

Definition request : RouteRequest := RouteRead events.
Definition giving : Router unit :=
  fixed "giving" (Returned (Ok (mkContribution
    [RouteDestination_new "wss://a" {[ WholeRequest ]} "configured"] ∅ ∅ []))).
Definition panicking : Router unit := fixed "panicking" Panicked.
Definition silent : Router unit := fixed "silent" (Returned (Ok default_contribution)).
Definition absence : RouteContribution := mkContribution [] {[ WholeRequest := SettledAbsent ]} ∅ [].

Lemma preview_isolates_failures_witness :
  ∃ plan, preview [panicking; giving] request [[]; []] = Returned (Ok plan) ∧
          size (rp_destinations plan) ≤ MAX_DESTINATIONS.
Proof.
  assert (Hn : validate_names [panicking; giving] = Ok tt) by (vm_compute; reflexivity).
  destruct (preview_isolates_failures [panicking; giving] request [[]; []] Hn eq_refl)
    as [(plan & Hp & Hs & _)|[Hp _]].
  - exists plan. split; [exact Hp|exact Hs].
  - exfalso. vm_compute in Hp. discriminate Hp.
Defined.

Definition given_plan : RoutePlan :=
  mkPlan 1 {[ "wss://a" := mkPlanned "wss://a" {[ WholeRequest ]} {[ ("giving", "configured") ]} ]}
    {[ WholeRequest := Covered {[ "wss://a" ]} ]} ∅ [].

Lemma preview_attribution_witness :
  preview [giving] request [[]] = Returned (Ok given_plan) ∧ "giving" ∈ router_name <$> [giving].
Proof.
  destruct (preview_attribution [giving] request [[]] given_plan "wss://a"
              (mkPlanned "wss://a" {[ WholeRequest ]} {[ ("giving", "configured") ]})) as [_ Hr].
  - vm_compute. reflexivity.
  - vm_compute. reflexivity.
  - split; [vm_compute; reflexivity|]. apply (Hr "giving" "configured"). vm_compute. reflexivity.
Defined.

Definition silent_plan : RoutePlan := mkPlan 1 ∅ {[ WholeRequest := SettledAbsent ]} ∅ [].

Lemma preview_absence_needs_answers_witness : answers request (zip [silent] [[]]) 0.
Proof.
  apply (preview_absence_needs_answers [silent] request [[]] silent_plan WholeRequest).
  - vm_compute. reflexivity.
  - reflexivity.
  - reflexivity.
  - simpl. lia.
Defined.

(** The whole chain: one router that answers absence leaves the plan unsettled. *)
Definition absent_composer : Composer :=
  mkComposer [absence] [true] [] 0 (targets request).

Lemma absence_answer_lost_witness :
  ∃ plan, composer_plan absent_composer 1 = Ok plan ∧
    preview [fixed "absent" (Returned (Ok absence))] request [[]] = Returned (Ok plan) ∧
    settled plan = false.
Proof.
  exists (mkPlan 1 ∅ {[ WholeRequest := Unresolved ]} {[ WholeRequest ]} []).
  split; [vm_compute; reflexivity|]. split; [vm_compute; reflexivity|].
  apply (absence_answer_lost absent_composer absence WholeRequest 1 _).
  - left.
  - reflexivity.
  - intros y ->%list_elem_of_singleton. reflexivity.
  - vm_compute. reflexivity.
Defined.
End RoutingWitness.
