(* ===== verification/Routers.v ===== *)
(** * The standard routers ([crates/fava-nip65], [crates/fava-router-*])

    NIP-65 relay lists and the four routing policies the facade installs: the
    application's relays, fallback relays, author outboxes and recipient
    inboxes, and reference hints.  Each is a [Router] of the chain with its
    session; [StandardSession] is the [Box<dyn RouterSession>] they return. *)

From S2P Require Import Prelude Nostr Relay State Write Query Routing.

(** ** NIP-65 relay lists *)

Record RelayList := mkRelayList {
  rl_author : PublicKey;
  rl_read_relays : gset RelayUrl;
  rl_write_relays : gset RelayUrl
}.

Inductive RelayListError := WrongKind (actual : N).

Definition relay_list_error_text (e : RelayListError) : string :=
  match e with WrongKind actual => "expected kind 10002, got " +:+ pretty actual end.

Definition kind_relay_list : Kind := 10002%N.

(** [impl Display for QueryError]. *)
Definition query_error_text (e : QueryError) : string :=
  match e with
  | QueryEmptyExplicitRelays => "explicit relay acquisition requires a non-empty relay set"
  | ZeroLimit => "query limit must be greater than zero"
  end.

Section routers.
Context `{Nostr}.

(** The [(read, write)] meaning of an [r] tag's marker; [None] skips the tag. *)
Definition marker_directions (marker : option string) : option (bool * bool) :=
  match marker with
  | None => Some (true, true)
  | Some marker =>
      if bool_decide (marker = "read") then Some (true, false)
      else if bool_decide (marker = "write") then Some (false, true)
      else None
  end.

(** The loop body of [RelayList::from_event]. *)
Definition relay_list_step (acc : gset RelayUrl * gset RelayUrl) (tag : Tag) : gset RelayUrl * gset RelayUrl :=
  if negb (tag_named "r" tag) then acc
  else match tag !! 1 with
       | None => acc
       | Some raw_relay =>
           match relay_url_parse raw_relay with
           | None => acc
           | Some relay =>
               match marker_directions (tag !! 2) with
               | None => acc
               | Some (read, write) =>
                   (if read then {[ relay ]} ∪ acc.1 else acc.1,
                    if write then {[ relay ]} ∪ acc.2 else acc.2)
               end
           end
       end.

Definition RelayList_from_event (event : EventValue) : result RelayListError RelayList :=
  if bool_decide (value_kind event ≠ kind_relay_list) then Err (WrongKind (value_kind event))
  else
    let '(read_relays, write_relays) := foldl relay_list_step (∅, ∅) (value_tags event) in
    Ok (mkRelayList (value_author event) read_relays write_relays).

Definition relay_lists (authors : list PublicKey) : result QueryError Query :=
  limit (Query.authors (kinds events [kind_relay_list]) authors) 4096.

(** ** Author outboxes and recipient inboxes ([fava-router-outbox]) *)

(** Five minutes, in nanoseconds. *)
Definition MAX_AGE : N := 300000000000%N.
Definition OUTBOX_MAX_SHORTFALLS : nat := 256.

Record OutboxRouter := mkOutbox { ob_name : string; ob_indexers : gset RelayUrl }.

Definition requested_authors (request : RouteRequest) : gset PublicKey :=
  list_to_set (omap (λ target,
    match target with
    | TargetAuthor author | TargetRecipient author => Some author
    | WholeRequest | TargetReferencedEvent _ => None
    end) (ordered_elements (targets request))).

Definition refuse_query {A} (r : result QueryError A) : result RouterError A :=
  match r with Ok a => Ok a | Err e => Err (RouterRefused (query_error_text e)) end.

Definition outbox_query (router : OutboxRouter) (request : RouteRequest) : result RouterError (list Query) :=
  let authors := requested_authors request in
  if bool_decide (authors = ∅) || bool_decide (ob_indexers router = ∅) then Ok []
  else
    query ← refuse_query (relay_lists (ordered_elements authors));
    query ← refuse_query (from_relays query (ordered_elements (ob_indexers router)));
    Ok [max_age (with_relay_access query (request_access request)) MAX_AGE].

Definition bounded_push (shortfalls : list string) (value : string) : list string :=
  if bool_decide (length shortfalls < OUTBOX_MAX_SHORTFALLS) then shortfalls ++ [value] else shortfalls.

(** [candidate > held], on the derived order of tuples. *)
Definition stamp_gt (candidate held : Timestamp * EventId) : bool :=
  bool_decide (held.1 < candidate.1)%N ||
  (bool_decide (candidate.1 = held.1) && bool_decide (held.2 < candidate.2)%N).

Definition decode_step (acc : gmap PublicKey (RelayList * (Timestamp * EventId)) * list string)
    (record : EventRecord) : gmap PublicKey (RelayList * (Timestamp * EventId)) * list string :=
  match RelayList_from_event (er_event record) with
  | Ok list =>
      let candidate := (er_created_at record, er_id record) in
      let replace := match acc.1 !! rl_author list with
                     | None => true
                     | Some (_, held) => stamp_gt candidate held
                     end in
      (if replace then <[rl_author list := (list, candidate)]> acc.1 else acc.1, acc.2)
  | Err error => (acc.1, bounded_push acc.2 (relay_list_error_text error))
  end.

(** [decode]. *)
Definition decode_lists (snapshot : QuerySnapshot) : gmap PublicKey RelayList * list string :=
  let '(values, shortfalls) := foldl decode_step (∅, []) (qn_events snapshot) in
  (fst <$> values, shortfalls).

(** Destinations, coverage and unresolved targets under construction. *)
Record Draft := mkDraft {
  df_destinations : list RouteDestination;
  df_coverage : gmap RouteTarget CoverageState;
  df_unresolved : gset RouteTarget
}.

Definition default_draft : Draft := mkDraft [] ∅ ∅.

Definition set_coverage (target : RouteTarget) (state : CoverageState) (draft : Draft) : Draft :=
  mkDraft (df_destinations draft) (<[target := state]> (df_coverage draft)) (df_unresolved draft).

(** A covered target with one destination per session, or a settled absence. *)
Definition cover_target (target : RouteTarget) (sessions : gset RelayUrl) (reason : string) (draft : Draft) : Draft :=
  if bool_decide (sessions = ∅) then set_coverage target SettledAbsent draft
  else mkDraft
         (df_destinations draft ++
          ((λ session, RouteDestination_new session {[ target ]} reason) <$> ordered_elements sessions))
         (<[target := Covered sessions]> (df_coverage draft)) (df_unresolved draft).

Definition outbox_step (lists : gmap PublicKey RelayList) (settled : bool) (draft : Draft) (target : RouteTarget)
    : Draft :=
  let place relays reason :=
    match relays with
    | Some relays => cover_target target relays reason draft
    | None =>
        if settled then set_coverage target SettledAbsent draft
        else mkDraft (df_destinations draft) (<[target := Unresolved]> (df_coverage draft))
               ({[ target ]} ∪ df_unresolved draft)
    end in
  match target with
  | TargetAuthor author => place (rl_write_relays <$> lists !! author) "NIP-65 author write relay"%string
  | TargetRecipient author => place (rl_read_relays <$> lists !! author) "NIP-65 recipient read relay"%string
  | WholeRequest | TargetReferencedEvent _ => draft
  end.

(** [contribution]. *)
Definition outbox_contribution (request : RouteRequest) (lists : gmap PublicKey RelayList) (settled : bool)
    (shortfalls : list string) : RouteContribution :=
  let draft := foldl (outbox_step lists settled) default_draft (ordered_elements (targets request)) in
  mkContribution (df_destinations draft) (df_coverage draft) (df_unresolved draft) shortfalls.

(** [project] of the outbox router. *)
Definition outbox_project (request : RouteRequest) (inputs : list QuerySnapshot)
    : result RouterError RouteContribution :=
  if bool_decide (1 < length inputs) then Err (RouterRefused "outbox router declares at most one query")
  else if bool_decide (requested_authors request = ∅) then Ok default_contribution
  else
    let '(lists, shortfalls) := match head inputs with Some s => decode_lists s | None => (∅, []) end in
    let settled := match head inputs with
                   | Some s => all_relays_stored_events_complete (qn_evidence s)
                   | None => false
                   end in
    Ok (outbox_contribution request lists settled shortfalls).

(** ** Reference hints ([fava-router-hints]) *)

Definition referenced_events (request : RouteRequest) : gset EventId :=
  list_to_set (omap (λ target, match target with TargetReferencedEvent id => Some id | _ => None end)
                 (ordered_elements (targets request))).

Definition hint_queries (request : RouteRequest) : result RouterError (list Query) :=
  let referenced := referenced_events request in
  if bool_decide (referenced = ∅) then Ok []
  else Ok [with_relay_access (cache_only (ids events (ordered_elements referenced))) (request_access request)].

(** [by_target.entry(target).or_default().extend(relays)]. *)
Definition hint_at (target : RouteTarget) (relays : gset RelayUrl) (by_target : gmap RouteTarget (gset RelayUrl))
    : gmap RouteTarget (gset RelayUrl) :=
  <[target := default ∅ (by_target !! target) ∪ relays]> by_target.

(** An [e] tag with an id and a relay. *)
Definition tag_hint (tag : Tag) : option (EventId * RelayUrl) :=
  if negb (tag_named "e" tag) then None
  else
    event_id ← tag !! 1 ≫= event_id_parse;
    value ← tag !! 2;
    if bool_decide (value = "") then None
    else relay ← relay_url_parse value; Some (event_id, relay).

Definition tag_hint_step (by_target : gmap RouteTarget (gset RelayUrl)) (tag : Tag)
    : gmap RouteTarget (gset RelayUrl) :=
  match tag_hint tag with
  | Some (event_id, relay) => hint_at (TargetReferencedEvent event_id) {[ relay ]} by_target
  | None => by_target
  end.

Definition record_hint_step (by_target : gmap RouteTarget (gset RelayUrl)) (record : EventRecord)
    : gmap RouteTarget (gset RelayUrl) :=
  hint_at (TargetReferencedEvent (er_id record))
    (list_to_set (oc_session <$> values (ocs_occurrences (er_relay_occurrences record)))) by_target.

Definition collect_hints (request : RouteRequest) (inputs : list QuerySnapshot)
    : gmap RouteTarget (gset RelayUrl) :=
  let tags := match request_event request with Some event => value_tags event | None => [] end in
  let records := match head inputs with Some s => qn_events s | None => [] end in
  foldl record_hint_step (foldl tag_hint_step ∅ tags) records.

Definition hint_step (by_target : gmap RouteTarget (gset RelayUrl)) (draft : Draft) (target : RouteTarget) : Draft :=
  match target with
  | TargetReferencedEvent _ =>
      cover_target target (default ∅ (by_target !! target)) "Nostr reference hint or admitted relay evidence" draft
  | _ => draft
  end.

(** [project] of the hint router. *)
Definition hint_project (request : RouteRequest) (inputs : list QuerySnapshot)
    : result RouterError RouteContribution :=
  if bool_decide (1 < length inputs) then Err (RouterRefused "hint router declares at most one query")
  else
    let draft := foldl (hint_step (collect_hints request inputs)) default_draft
                   (ordered_elements (targets request)) in
    Ok (mkContribution (df_destinations draft) (df_coverage draft) ∅ []).

(** ** Application relays ([fava-router-app-relays]) *)

Record AppRelayRouter := mkApp {
  ap_name : string;
  ap_relays : gset RelayUrl;
  ap_reads : bool;
  ap_writes : bool
}.

(** The destinations and coverage of one session set over one target set. *)
Definition uniform_contribution (sessions : gset RelayUrl) (over : gset RouteTarget) (state : CoverageState)
    (reason : string) : RouteContribution :=
  mkContribution ((λ session, RouteDestination_new session over reason) <$> ordered_elements sessions)
    (gset_to_gmap state over) ∅ [].

Definition silent_for (request : RouteRequest) (reads writes : bool) : bool :=
  (is_read request && negb reads) || (is_write request && negb writes).

Definition app_contribution (router : AppRelayRouter) (request : RouteRequest) : RouteContribution :=
  if silent_for request (ap_reads router) (ap_writes router) then default_contribution
  else uniform_contribution (ap_relays router) (targets request) (Covered (ap_relays router))
         "configured application relay".

(** ** Fallback relays ([fava-router-fallback-relays]) *)

Record FallbackRelayRouter := mkFallback {
  fb_name : string;
  fb_relays : gset RelayUrl;
  fb_minimum : nat;
  fb_reads : bool;
  fb_writes : bool
}.

Definition covered (plan : RoutePlan) (target : RouteTarget) : nat :=
  match rp_coverage plan !! target with
  | Some (Covered relays) => size relays
  | Some Unresolved | Some SettledAbsent | None => 0
  end.

Definition fallback_contribution (router : FallbackRelayRouter) (request : RouteRequest) (upstream : RoutePlan)
    : RouteContribution :=
  if silent_for request (fb_reads router) (fb_writes router) then default_contribution
  else
    let low := filter (λ target, covered upstream target < fb_minimum router) (targets request) in
    if bool_decide (low = ∅) then default_contribution
    else uniform_contribution (fb_relays router) low
           (if bool_decide (fb_relays router = ∅) then SettledAbsent else Covered (fb_relays router))
           ("upstream coverage below " +:+ pretty (fb_minimum router)).

(** ** Sessions *)

Record StaticSession := mkStatic { ss_current : RouteContribution }.

(** The session copies the router's relays, minimum and directions. *)
Record FallbackSession := mkFallbackSession {
  fs_request : RouteRequest;
  fs_upstream : RoutePlan;
  fs_current : RouteContribution;
  fs_router : FallbackRelayRouter
}.

Record OutboxSession := mkOutboxSession {
  os_request : RouteRequest;
  os_inputs : list QuerySnapshot;
  os_current : RouteContribution;
  os_closed : bool
}.

Record HintSession := mkHintSession { hs_request : RouteRequest; hs_current : RouteContribution }.

(** Refuse any input. *)
Definition no_inputs {A} (inputs : list QuerySnapshot) (message : string) (k : result RouterError A)
    : result RouterError A :=
  if bool_decide (length inputs = 0) then k else Err (RouterRefused message).

Definition app_inputs : string := "app-relay router accepts no query inputs".
Definition fallback_inputs : string := "fallback router accepts no query inputs".

Definition static_replace (s : StaticSession) (upstream : RoutePlan) (inputs : list QuerySnapshot)
    : result RouterError RouteContribution * StaticSession :=
  (no_inputs inputs app_inputs (Ok (ss_current s)), s).

Definition fallback_replace (s : FallbackSession) (upstream : RoutePlan) (inputs : list QuerySnapshot)
    : result RouterError RouteContribution * FallbackSession :=
  match no_inputs inputs fallback_inputs (Ok (fallback_contribution (fs_router s) (fs_request s) upstream)) with
  | Ok next => (Ok next, mkFallbackSession (fs_request s) upstream next (fs_router s))
  | Err e => (Err e, s)
  end.

Definition outbox_replace (s : OutboxSession) (upstream : RoutePlan) (inputs : list QuerySnapshot)
    : result RouterError RouteContribution * OutboxSession :=
  if os_closed s then (Err RouterClosed, s)
  else match outbox_project (os_request s) inputs with
       | Ok next => (Ok next, mkOutboxSession (os_request s) inputs next (os_closed s))
       | Err e => (Err e, s)
       end.

Definition outbox_close (s : OutboxSession) : OutboxSession :=
  mkOutboxSession (os_request s) (os_inputs s) (os_current s) true.

Definition hint_replace (s : HintSession) (upstream : RoutePlan) (inputs : list QuerySnapshot)
    : result RouterError RouteContribution * HintSession :=
  match hint_project (hs_request s) inputs with
  | Ok next => (Ok next, mkHintSession (hs_request s) next)
  | Err e => (Err e, s)
  end.

(** The dynamic dispatch of [Box<dyn RouterSession>]. *)
Inductive StandardSession :=
| SessionStatic (s : StaticSession)
| SessionFallback (s : FallbackSession)
| SessionOutbox (s : OutboxSession)
| SessionHint (s : HintSession).

Definition standard_current (s : StandardSession) : RouteContribution :=
  match s with
  | SessionStatic s => ss_current s
  | SessionFallback s => fs_current s
  | SessionOutbox s => os_current s
  | SessionHint s => hs_current s
  end.

Definition standard_replace (s : StandardSession) (upstream : RoutePlan) (inputs : list QuerySnapshot)
    : result RouterError RouteContribution * StandardSession :=
  match s with
  | SessionStatic s => let '(r, s) := static_replace s upstream inputs in (r, SessionStatic s)
  | SessionFallback s => let '(r, s) := fallback_replace s upstream inputs in (r, SessionFallback s)
  | SessionOutbox s => let '(r, s) := outbox_replace s upstream inputs in (r, SessionOutbox s)
  | SessionHint s => let '(r, s) := hint_replace s upstream inputs in (r, SessionHint s)
  end.

Definition standard_close (s : StandardSession) : StandardSession :=
  match s with SessionOutbox s => SessionOutbox (outbox_close s) | s => s end.

#[global] Instance standard_session : RouterSession StandardSession := {|
  session_current := λ s, Returned (standard_current s);
  session_replace := λ s upstream inputs,
    let '(r, s') := standard_replace s upstream inputs in (Returned r, s');
  session_close := λ s, (Returned tt, standard_close s)
|}.

(** ** Routers *)

Definition app_router (r : AppRelayRouter) : Router StandardSession :=
  mkRouter StandardSession (ap_name r)
    (λ _ _, Returned (Ok []))
    (λ request _ inputs, Returned (no_inputs inputs app_inputs (Ok (app_contribution r request))))
    (λ request _ inputs, Returned (no_inputs inputs app_inputs (Ok (SessionStatic (mkStatic (app_contribution r request)))))).

Definition fallback_router (r : FallbackRelayRouter) : Router StandardSession :=
  mkRouter StandardSession (fb_name r)
    (λ _ _, Returned (Ok []))
    (λ request upstream inputs,
      Returned (no_inputs inputs fallback_inputs (Ok (fallback_contribution r request upstream))))
    (λ request upstream inputs,
      Returned (no_inputs inputs fallback_inputs
        (Ok (SessionFallback (mkFallbackSession request upstream
               (fallback_contribution r request upstream) r))))).

Definition outbox_router (r : OutboxRouter) : Router StandardSession :=
  mkRouter StandardSession (ob_name r)
    (λ request _, Returned (outbox_query r request))
    (λ request _ inputs, Returned (outbox_project request inputs))
    (λ request _ inputs, Returned (
      current ← outbox_project request inputs; Ok (SessionOutbox (mkOutboxSession request inputs current false)))).

Definition hint_router (name : string) : Router StandardSession :=
  mkRouter StandardSession name
    (λ request _, Returned (hint_queries request))
    (λ request _ inputs, Returned (hint_project request inputs))
    (λ request _ inputs, Returned (
      current ← hint_project request inputs; Ok (SessionHint (mkHintSession request current)))).
End routers.

(** ** Coherent contributions *)

(** What a router promises the chain: it speaks only of the request's targets,
    a covered target is covered by exactly the relays it is routed to, and a
    target is unresolved exactly when its state says so. *)
Record coherent (over : gset RouteTarget) (c : RouteContribution) : Prop := mkCoherent {
  coh_targets : ∀ t, is_Some (cb_coverage c !! t) → t ∈ over;
  coh_covered : ∀ t s r, cb_coverage c !! t = Some (Covered s) →
    r ∈ s ↔ ∃ d, d ∈ cb_destinations c ∧ rd_session d = r ∧ t ∈ rd_targets d;
  coh_destinations : ∀ d t, d ∈ cb_destinations c → t ∈ rd_targets d →
    ∃ s, cb_coverage c !! t = Some (Covered s);
  coh_unresolved : ∀ t, t ∈ cb_unresolved c ↔ cb_coverage c !! t = Some Unresolved
}.

Definition draft_contribution (d : Draft) : RouteContribution :=
  mkContribution (df_destinations d) (df_coverage d) (df_unresolved d) [].

Lemma coherent_default over : coherent over default_contribution.
Proof.
  split; simpl.
  - intros t. rewrite lookup_empty. by intros [].
  - intros t s r. by rewrite lookup_empty.
  - by intros d t ?%not_elem_of_nil.
  - intros t. rewrite lookup_empty. set_solver.
Qed.

(** Targets not yet placed can be placed without disturbing the others. *)
Section placing.
Variables (over : gset RouteTarget) (d : Draft) (t : RouteTarget).
Hypothesis (Hd : coherent over (draft_contribution d)) (Ht : t ∈ over) (Hnew : df_coverage d !! t = None).

Lemma no_destination_yet dest : dest ∈ df_destinations d → t ∉ rd_targets dest.
Proof. intros Hdest Hin. destruct (coh_destinations _ _ Hd dest t Hdest Hin) as [s Hs]. simpl in Hs. congruence. Qed.

Lemma coherent_state state unresolved :
  (∀ s, state ≠ Covered s) → (∀ x, x ∈ unresolved ↔ x ∈ df_unresolved d ∨ (x = t ∧ state = Unresolved)) →
  coherent over (draft_contribution (mkDraft (df_destinations d) (<[t := state]> (df_coverage d)) unresolved)).
Proof.
  intros Hstate Hun. destruct Hd as [H1 H2 H3 H4]. split; simpl in *.
  - intros x [y Hy]. destruct (decide (x = t)) as [->|Hne]; [done|]. rewrite lookup_insert_ne in Hy by done. eauto.
  - intros x s r. destruct (decide (x = t)) as [->|Hne].
    + rewrite lookup_insert_eq. intros [= ->]. by destruct (Hstate s).
    + rewrite lookup_insert_ne by done. apply H2.
  - intros dest x Hdest Hin. destruct (decide (x = t)) as [->|Hne]; [by destruct (no_destination_yet dest Hdest)|].
    rewrite lookup_insert_ne by done. eauto.
  - intros x. rewrite Hun. destruct (decide (x = t)) as [->|Hne].
    + rewrite lookup_insert_eq, H4, Hnew. naive_solver.
    + rewrite lookup_insert_ne by done. rewrite H4. naive_solver.
Qed.

Lemma coherent_cover sessions reason : coherent over (draft_contribution (cover_target t sessions reason d)).
Proof.
  unfold cover_target. case_bool_decide as Hs.
  { apply coherent_state; [done|]. intros x. naive_solver. }
  destruct Hd as [H1 H2 H3 H4]. split; simpl in *.
  - intros x [y Hy]. destruct (decide (x = t)) as [->|Hne]; [done|]. rewrite lookup_insert_ne in Hy by done. eauto.
  - intros x s r. setoid_rewrite elem_of_app. setoid_rewrite list_elem_of_fmap.
    setoid_rewrite elem_of_ordered_elements. destruct (decide (x = t)) as [->|Hne].
    + rewrite lookup_insert_eq. intros [= <-]. split.
      * intros Hr. exists (RouteDestination_new r {[t]} reason). split_and!; [right; eauto|done|set_solver].
      * intros (dest & [Hdest|(r' & -> & Hr')] & <- & Hin); [by destruct (no_destination_yet dest Hdest)|done].
    + rewrite lookup_insert_ne by done. intros Hx. rewrite (H2 x s r Hx). split; [naive_solver|].
      intros (dest & [Hdest|(r' & -> & Hr')] & Hr & Hin); [eauto|]. simpl in Hin. set_solver.
  - intros dest x. rewrite elem_of_app, list_elem_of_fmap. intros [Hdest|(r & -> & _)] Hin.
    + rewrite lookup_insert_ne; [eauto|]. intros <-. by apply (no_destination_yet dest).
    + simpl in Hin. apply elem_of_singleton in Hin as ->. rewrite lookup_insert_eq. eauto.
  - intros x. rewrite H4. destruct (decide (x = t)) as [->|Hne]; [rewrite lookup_insert_eq, Hnew; naive_solver|].
    by rewrite lookup_insert_ne.
Qed.
End placing.

Lemma cover_target_lookup t sessions reason d x :
  df_coverage (cover_target t sessions reason d) !! x =
  if bool_decide (x = t) then Some (if bool_decide (sessions = ∅) then SettledAbsent else Covered sessions)
  else df_coverage d !! x.
Proof.
  unfold cover_target, set_coverage. case_bool_decide; simpl;
    (case_bool_decide; [subst; by rewrite lookup_insert_eq|by rewrite lookup_insert_ne]).
Qed.

(** A loop over distinct targets that places each at most once, in state
    [state t], builds a coherent draft with exactly those states. *)
Lemma draft_fold (over : gset RouteTarget) (step : Draft → RouteTarget → Draft)
    (state : RouteTarget → option CoverageState) (l : list RouteTarget) :
  (∀ d t, t ∈ over → coherent over (draft_contribution d) → df_coverage d !! t = None →
     coherent over (draft_contribution (step d t)) ∧
     ∀ x, df_coverage (step d t) !! x = if bool_decide (x = t) then state t else df_coverage d !! x) →
  NoDup l → (∀ t, t ∈ l → t ∈ over) →
  ∀ d, coherent over (draft_contribution d) → (∀ t, t ∈ l → df_coverage d !! t = None) →
  coherent over (draft_contribution (foldl step d l)) ∧
  ∀ x, df_coverage (foldl step d l) !! x = if bool_decide (x ∈ l) then state x else df_coverage d !! x.
Proof.
  intros Hstep. induction l as [|t l IH]; intros Hnd Hl d Hd Hnew; simpl; [done|].
  apply NoDup_cons in Hnd as [Hin Hnd].
  destruct (Hstep d t) as [Hd' Hcov]; [apply Hl; left|done|apply Hnew; left|].
  destruct (IH Hnd (λ x Hx, Hl x (proj2 (elem_of_cons _ _ _) (or_intror Hx))) (step d t) Hd') as [Hc Hs].
  { intros x Hx. rewrite Hcov, bool_decide_eq_false_2 by (by intros ->). apply Hnew. by right. }
  split; [done|]. intros x. rewrite Hs, Hcov. destruct (decide (x = t)) as [->|Hne].
  - rewrite (bool_decide_eq_false_2 (t ∈ l)), (bool_decide_eq_true_2 (t = t)), bool_decide_eq_true_2; [done|left|done|done].
  - rewrite (bool_decide_eq_false_2 (x = t)) by done.
    rewrite (bool_decide_ext (x ∈ t :: l) (x ∈ l)); [done|]. rewrite elem_of_cons. naive_solver.
Qed.

Lemma coherent_shortfalls over c c' :
  cb_destinations c = cb_destinations c' → cb_coverage c = cb_coverage c' → cb_unresolved c = cb_unresolved c' →
  coherent over c → coherent over c'.
Proof. intros H1 H2 H3 [? ? ? ?]. split; rewrite <- ?H1, <- ?H2, <- ?H3; done. Qed.

Lemma coherent_uniform (over low : gset RouteTarget) sessions state reason :
  low ⊆ over → state = Covered sessions ∨ (sessions = ∅ ∧ state = SettledAbsent) →
  coherent over (uniform_contribution sessions low state reason).
Proof.
  intros Hlow Hstate. unfold uniform_contribution. split; simpl.
  - intros t [x [Ht _]%lookup_gset_to_gmap_Some]. by apply Hlow.
  - intros t s r [Ht Hs]%lookup_gset_to_gmap_Some. destruct Hstate as [->|[_ ->]]; [|done].
    injection Hs as <-. setoid_rewrite list_elem_of_fmap. setoid_rewrite elem_of_ordered_elements. split.
    + intros Hr. exists (RouteDestination_new r low reason). naive_solver.
    + intros (d & (r' & -> & Hr') & <- & _). done.
  - intros d t (r & -> & Hr%elem_of_ordered_elements)%list_elem_of_fmap Ht. simpl in Ht.
    destruct Hstate as [->|[-> _]]; [|set_solver]. eexists. apply lookup_gset_to_gmap_Some. done.
  - intros t. rewrite lookup_gset_to_gmap_Some. destruct Hstate as [->|[_ ->]]; set_solver.
Qed.

(** ** The policies *)

Section policies.
Context `{Nostr}.

Definition place_state (relays : option (gset RelayUrl)) (settled : bool) : CoverageState :=
  match relays with
  | Some relays => if bool_decide (relays = ∅) then SettledAbsent else Covered relays
  | None => if settled then SettledAbsent else Unresolved
  end.

Definition outbox_state (lists : gmap PublicKey RelayList) (settled : bool) (t : RouteTarget) : option CoverageState :=
  match t with
  | TargetAuthor a => Some (place_state (rl_write_relays <$> lists !! a) settled)
  | TargetRecipient a => Some (place_state (rl_read_relays <$> lists !! a) settled)
  | _ => None
  end.

Lemma outbox_step_ok over lists settled d t :
  t ∈ over → coherent over (draft_contribution d) → df_coverage d !! t = None →
  coherent over (draft_contribution (outbox_step lists settled d t)) ∧
  ∀ x, df_coverage (outbox_step lists settled d t) !! x =
    if bool_decide (x = t) then outbox_state lists settled t else df_coverage d !! x.
Proof.
  intros Ht Hd Hnew.
  assert (Hskip : coherent over (draft_contribution d) ∧
    ∀ x, df_coverage d !! x = if bool_decide (x = t) then None else df_coverage d !! x).
  { split; [done|]. intros x. by case_bool_decide as Hx; [rewrite Hx|]. }
  assert (Hplace : ∀ relays reason,
    let step := match relays with
      | Some relays => cover_target t relays reason d
      | None => if settled then set_coverage t SettledAbsent d
                else mkDraft (df_destinations d) (<[t := Unresolved]> (df_coverage d)) ({[ t ]} ∪ df_unresolved d)
      end in
    coherent over (draft_contribution step) ∧
    ∀ x, df_coverage step !! x = if bool_decide (x = t) then Some (place_state relays settled) else df_coverage d !! x).
  { intros [relays|] reason; simpl.
    - split; [by apply coherent_cover|]. intros x. by rewrite cover_target_lookup.
    - split.
      + destruct settled; apply coherent_state; try done; intros x; simpl; set_solver.
      + intros x. destruct settled; simpl;
          (case_bool_decide; [subst; by rewrite lookup_insert_eq|by rewrite lookup_insert_ne]). }
  destruct t as [|a|a|i]; [exact Hskip|apply Hplace|apply Hplace|exact Hskip].
Qed.

Lemma outbox_contribution_ok request lists settled shortfalls :
  coherent (targets request) (outbox_contribution request lists settled shortfalls) ∧
  ∀ t, t ∈ targets request →
    cb_coverage (outbox_contribution request lists settled shortfalls) !! t = outbox_state lists settled t.
Proof.
  unfold outbox_contribution. cbn zeta.
  destruct (draft_fold (targets request) (outbox_step lists settled) (outbox_state lists settled)
              (ordered_elements (targets request))) with (d := default_draft) as [Hc Hs].
  - intros d t. apply outbox_step_ok.
  - auto with fava.
  - intros t. by rewrite elem_of_ordered_elements.
  - apply coherent_default.
  - done.
  - split; [by eapply coherent_shortfalls; [..|exact Hc]|]. intros t Ht. cbn [cb_coverage].
    rewrite Hs, bool_decide_eq_true_2; [done|]. by apply elem_of_ordered_elements.
Qed.

Definition hint_state (by_target : gmap RouteTarget (gset RelayUrl)) (t : RouteTarget) : option CoverageState :=
  match t with
  | TargetReferencedEvent _ => Some (place_state (Some (default ∅ (by_target !! t))) true)
  | _ => None
  end.

Lemma hint_step_ok over by_target d t :
  t ∈ over → coherent over (draft_contribution d) → df_coverage d !! t = None →
  coherent over (draft_contribution (hint_step by_target d t)) ∧
  ∀ x, df_coverage (hint_step by_target d t) !! x =
    if bool_decide (x = t) then hint_state by_target t else df_coverage d !! x.
Proof.
  intros Ht Hd Hnew.
  assert (Hskip : coherent over (draft_contribution d) ∧
    ∀ x, df_coverage d !! x = if bool_decide (x = t) then None else df_coverage d !! x).
  { split; [done|]. intros x. by case_bool_decide as Hx; [rewrite Hx|]. }
  destruct t as [|a|a|i]; [exact Hskip..|]. simpl.
  split; [by apply coherent_cover|]. intros x. by rewrite cover_target_lookup.
Qed.

Lemma hint_project_ok request inputs c :
  hint_project request inputs = Ok c → coherent (targets request) c ∧
  ∀ t, t ∈ targets request → cb_coverage c !! t = hint_state (collect_hints request inputs) t.
Proof.
  unfold hint_project. case_bool_decide; [done|]. intros [= <-].
  set (by_target := collect_hints request inputs).
  destruct (draft_fold (targets request) (hint_step by_target) (hint_state by_target)
              (ordered_elements (targets request))) with (d := default_draft) as [Hc Hs].
  - intros d t. apply hint_step_ok.
  - auto with fava.
  - intros t. by rewrite elem_of_ordered_elements.
  - apply coherent_default.
  - done.
  - assert (Hcov : ∀ t, t ∈ targets request →
      df_coverage (foldl (hint_step by_target) default_draft (ordered_elements (targets request))) !! t =
      hint_state by_target t).
    { intros t Ht. rewrite Hs, bool_decide_eq_true_2; [done|]. by apply elem_of_ordered_elements. }
    split; [|done]. eapply coherent_shortfalls; [..|exact Hc]; [done|done|]. simpl.
    apply set_eq. intros t. rewrite (coh_unresolved _ _ Hc). simpl. split; [|set_solver]. intros Hu.
    assert (t ∈ targets request) as Ht by (apply (coh_targets _ _ Hc); by eexists).
    rewrite Hcov in Hu by done. destruct t; simpl in Hu; try done. by case_bool_decide.
Qed.

Inductive StandardRouter :=
| UseAppRelays (router : AppRelayRouter)
| UseFallbackRelays (router : FallbackRelayRouter)
| UseOutbox (router : OutboxRouter)
| UseHints (name : string).

Definition standard_router (r : StandardRouter) : Router StandardSession :=
  match r with
  | UseAppRelays router => app_router router
  | UseFallbackRelays router => fallback_router router
  | UseOutbox router => outbox_router router
  | UseHints name => hint_router name
  end.

Lemma no_inputs_Ok {A} inputs message (k : result RouterError A) a :
  no_inputs inputs message k = Ok a → length inputs = 0 ∧ k = Ok a.
Proof. unfold no_inputs. by case_bool_decide. Qed.

Lemma outbox_project_Ok request inputs c :
  outbox_project request inputs = Ok c → coherent (targets request) c.
Proof.
  unfold outbox_project. case_bool_decide; [done|]. case_bool_decide.
  { intros [= <-]. apply coherent_default. }
  destruct (match head inputs with Some s => decode_lists s | None => (∅, []) end) as [lists sf].
  intros [= <-]. apply outbox_contribution_ok.
Qed.

(** C25. Every standard router keeps its promise to the chain, whatever it is
    given: its contribution speaks only of the request's targets, marks a target
    covered by exactly the relays it routes it to, routes nothing it does not
    mark covered, and lists a target as unresolved exactly when its coverage
    says so. *)
Theorem standard_routers_coherent (r : StandardRouter) (request : RouteRequest) (upstream : RoutePlan)
    (inputs : list QuerySnapshot) (c : RouteContribution)
    (Hpreview : router_preview (standard_router r) request upstream inputs = Returned (Ok c)) :
  coherent (targets request) c.
Proof.
  destruct r as [r|r|r|name]; simpl in Hpreview; injection Hpreview as Hp.
  - apply no_inputs_Ok in Hp as [_ [= <-]]. unfold app_contribution.
    destruct (silent_for _ _ _); [apply coherent_default|]. apply coherent_uniform; [done|by left].
  - apply no_inputs_Ok in Hp as [_ [= <-]]. unfold fallback_contribution.
    destruct (silent_for _ _ _); [apply coherent_default|]. case_bool_decide; [apply coherent_default|].
    apply coherent_uniform; [set_solver|]. case_bool_decide; [by right|by left].
  - by eapply outbox_project_Ok.
  - by apply hint_project_ok in Hp as [? _].
Qed.

(** Live routing never drifts from previewing: replacing the upstream plan
    and inputs of a session a standard router opened answers exactly what
    [preview] answers on them, the answer becomes the session's contribution,
    and a refusal leaves the session's contribution as it was. *)
Theorem replace_is_preview (r : StandardRouter) (request : RouteRequest) (upstream upstream' : RoutePlan)
    (inputs inputs' : list QuerySnapshot) (s : StandardSession)
    (Hopen : router_open (standard_router r) request upstream inputs = Returned (Ok s)) :
  router_preview (standard_router r) request upstream inputs = Returned (Ok (standard_current s)) ∧
  ∃ answer s', session_replace s upstream' inputs' = (Returned answer, s') ∧
    router_preview (standard_router r) request upstream' inputs' = Returned answer ∧
    standard_current s' = match answer with Ok c => c | Err _ => standard_current s end.
Proof.
  destruct r as [r|r|r|name]; simpl in *; injection Hopen as Ho.
  - apply no_inputs_Ok in Ho as [Hin [= <-]]. unfold no_inputs at 1. rewrite bool_decide_eq_true_2 by done.
    split; [done|]. simpl. eexists _, _. split_and!; [done|done|]. unfold no_inputs. by case_bool_decide.
  - apply no_inputs_Ok in Ho as [Hin [= <-]]. unfold no_inputs at 1. rewrite bool_decide_eq_true_2 by done.
    split; [done|]. simpl. unfold fallback_replace, no_inputs. case_bool_decide; simpl; eexists _, _; done.
  - apply bind_Ok in Ho as (c & Hc & [= <-]). rewrite Hc. split; [done|]. simpl. unfold outbox_replace.
    simpl. destruct (outbox_project request inputs'); eexists _, _; done.
  - apply bind_Ok in Ho as (c & Hc & [= <-]). rewrite Hc. split; [done|]. simpl. unfold hint_replace.
    simpl. destruct (hint_project request inputs'); eexists _, _; done.
Qed.
End policies.

(** ** NIP-65 *)

Section outbox.
Context `{Nostr}.

(** An [r] tag declares a relay for a direction ([marker] is [read] or [write]). *)
Definition tag_declares (tag : Tag) (marker : string) (r : RelayUrl) : Prop :=
  tag_named "r" tag = true ∧ (tag !! 1 ≫= relay_url_parse) = Some r ∧
  (tag !! 2 = None ∨ tag !! 2 = Some marker).

Definition declares (event : EventValue) (marker : string) (r : RelayUrl) : Prop :=
  ∃ tag, tag ∈ value_tags event ∧ tag_declares tag marker r.

Definition direction (marker : string) (list : RelayList) : gset RelayUrl :=
  if bool_decide (marker = "read") then rl_read_relays list else rl_write_relays list.

Lemma relay_list_step_elem tag acc r :
  (r ∈ (relay_list_step acc tag).1 ↔ r ∈ acc.1 ∨ tag_declares tag "read" r) ∧
  (r ∈ (relay_list_step acc tag).2 ↔ r ∈ acc.2 ∨ tag_declares tag "write" r).
Proof.
  unfold relay_list_step, tag_declares. destruct (tag_named "r" tag); simpl; [|naive_solver].
  destruct (tag !! 1) as [raw|]; simpl; [|naive_solver].
  destruct (relay_url_parse raw) as [relay|]; [|naive_solver].
  destruct (tag !! 2) as [m|]; simpl; [|set_solver].
  destruct (decide (m = "read")) as [->|H1]; [simpl; set_solver|].
  destruct (decide (m = "write")) as [->|H2]; [simpl; set_solver|].
  rewrite !bool_decide_eq_false_2 by done. naive_solver.
Qed.

Lemma relay_list_fold tags acc r :
  (r ∈ (foldl relay_list_step acc tags).1 ↔ r ∈ acc.1 ∨ ∃ tag, tag ∈ tags ∧ tag_declares tag "read" r) ∧
  (r ∈ (foldl relay_list_step acc tags).2 ↔ r ∈ acc.2 ∨ ∃ tag, tag ∈ tags ∧ tag_declares tag "write" r).
Proof.
  revert acc. induction tags as [|tag tags IH]; intros acc; simpl.
  { setoid_rewrite elem_of_nil. naive_solver. }
  destruct (IH (relay_list_step acc tag)) as [-> ->]. clear IH.
  destruct (relay_list_step_elem tag acc r) as [-> ->]. setoid_rewrite elem_of_cons. naive_solver.
Qed.

Lemma relay_list_exact event :
  match RelayList_from_event event with
  | Ok list => value_kind event = kind_relay_list ∧ rl_author list = value_author event ∧
      ∀ marker r, marker = "read" ∨ marker = "write" → r ∈ direction marker list ↔ declares event marker r
  | Err _ => value_kind event ≠ kind_relay_list
  end.
Proof.
  unfold RelayList_from_event. case_bool_decide as Hk; [done|].
  pose proof (relay_list_fold (value_tags event) (∅, ∅)) as Hf.
  destruct (foldl relay_list_step (∅, ∅) (value_tags event)) as [reads writes]. simpl in *.
  split_and!; [done|done|]. intros marker r Hm. unfold direction, declares. destruct (Hf r) as [Hr Hw].
  destruct Hm as [->| ->]; simpl.
  - rewrite Hr. set_solver.
  - rewrite Hw. set_solver.
Qed.

(** The author's relay list with the greatest [(created_at, id)] of a snapshot. *)
Definition record_pair (record : EventRecord) : Timestamp * EventId := (er_created_at record, er_id record).

Definition lists_by (records : list EventRecord) (a : PublicKey) (record : EventRecord) : Prop :=
  record ∈ records ∧ value_kind (er_event record) = kind_relay_list ∧ value_author (er_event record) = a.

Definition newest_list (records : list EventRecord) (a : PublicKey) (record : EventRecord) : Prop :=
  lists_by records a record ∧
  ∀ other, lists_by records a other → stamp_gt (record_pair other) (record_pair record) = false.

Lemma stamp_gt_spec p q : stamp_gt p q = true ↔ (q.1 < p.1)%N ∨ (p.1 = q.1 ∧ q.2 < p.2)%N.
Proof. unfold stamp_gt. rewrite orb_true_iff, andb_true_iff, !bool_decide_eq_true. done. Qed.

Lemma stamp_gt_false p q : stamp_gt p q = false ↔ ¬ ((q.1 < p.1)%N ∨ (p.1 = q.1 ∧ q.2 < p.2)%N).
Proof. rewrite <- stamp_gt_spec, not_true_iff_false. done. Qed.

(** What [decode] holds for one author after part of the records. *)
Definition decoded (records : list EventRecord) (a : PublicKey)
    (held : option (RelayList * (Timestamp * EventId))) : Prop :=
  match held with
  | Some (list, held_pair) => ∃ record, newest_list records a record ∧ held_pair = record_pair record ∧
      RelayList_from_event (er_event record) = Ok list
  | None => ∀ record, ¬ lists_by records a record
  end.

Lemma lists_by_snoc records record a other :
  lists_by (records ++ [record]) a other ↔ lists_by records a other ∨
  (other = record ∧ value_kind (er_event record) = kind_relay_list ∧ value_author (er_event record) = a).
Proof. unfold lists_by. rewrite elem_of_snoc. naive_solver. Qed.

Lemma decoded_skip records record a held :
  ¬ (value_kind (er_event record) = kind_relay_list ∧ value_author (er_event record) = a) →
  decoded records a held → decoded (records ++ [record]) a held.
Proof.
  intros Hskip. destruct held as [[l p]|]; simpl.
  - intros (r & [Hr Hmax] & Hp & Hfr). exists r. split_and!; [|done|done].
    split; [by apply lists_by_snoc; left|]. intros other [Ho|(-> & Ho)]%lists_by_snoc; [by apply Hmax|done].
  - intros Hacc r [Hr|(-> & Ho)]%lists_by_snoc; [by apply (Hacc r)|done].
Qed.

Lemma decode_step_ok records acc record :
  (∀ a, decoded records a (acc.1 !! a)) → ∀ a, decoded (records ++ [record]) a ((decode_step acc record).1 !! a).
Proof.
  intros Hacc a. specialize (Hacc a). pose proof (relay_list_exact (er_event record)) as Hl.
  unfold decode_step. destruct (RelayList_from_event (er_event record)) as [list|e] eqn:Hfrom; simpl.
  2:{ apply decoded_skip; [by intros [? _]|done]. }
  destruct Hl as (Hk & Ha & _). destruct (decide (rl_author list = a)) as [Heq|Hne].
  2:{ destruct (acc.1 !! rl_author list) as [[? held]|]; [destruct (stamp_gt _ _)|];
        rewrite ?lookup_insert_ne by done; (apply decoded_skip; [intros [_ ?]; congruence|done]). }
  subst a. assert (Hown : lists_by (records ++ [record]) (rl_author list) record).
  { apply lists_by_snoc. right. by rewrite Ha. }
  destruct (acc.1 !! rl_author list) as [[l p]|] eqn:Hheld; simpl in Hacc.
  - destruct Hacc as (r & [Hr Hmax] & -> & Hfr). destruct (stamp_gt _ _) eqn:Hgt.
    + rewrite lookup_insert_eq. exists record. split_and!; [|done|done]. split; [done|].
      intros other [Ho|(-> & _)]%lists_by_snoc.
      * specialize (Hmax other Ho). apply stamp_gt_spec in Hgt. rewrite stamp_gt_false in Hmax |- *.
        unfold record_pair in *. simpl in *. lia.
      * rewrite stamp_gt_false. lia.
    + rewrite Hheld. exists r. split_and!; [|done|done]. split; [by apply lists_by_snoc; left|].
      intros other [Ho|(-> & _)]%lists_by_snoc; [by apply Hmax|done].
  - rewrite lookup_insert_eq. exists record. split_and!; [|done|done]. split; [done|].
    intros other [Ho|(-> & _)]%lists_by_snoc; [by destruct (Hacc other)|]. rewrite stamp_gt_false. lia.
Qed.

Lemma decode_fold records done_ acc :
  (∀ a, decoded done_ a (acc.1 !! a)) → ∀ a, decoded (done_ ++ records) a ((foldl decode_step acc records).1 !! a).
Proof.
  revert done_ acc. induction records as [|record records IH]; intros done_ acc Hacc; simpl.
  { by rewrite (right_id_L [] (++)). }
  intros a. rewrite (cons_middle record). rewrite (assoc_L (++)). apply IH. by apply decode_step_ok.
Qed.

Lemma decode_lists_ok snapshot a :
  match (decode_lists snapshot).1 !! a with
  | Some list => ∃ record, newest_list (qn_events snapshot) a record ∧
      RelayList_from_event (er_event record) = Ok list
  | None => ∀ record, ¬ lists_by (qn_events snapshot) a record
  end.
Proof.
  unfold decode_lists. pose proof (decode_fold (qn_events snapshot) [] (∅, [])) as Hf.
  destruct (foldl decode_step (∅, []) (qn_events snapshot)) as [values sf]. simpl in *.
  rewrite lookup_fmap.
  assert (Hinit : ∀ b, decoded [] b ((∅ : gmap PublicKey (RelayList * (Timestamp * EventId))) !! b)).
  { intros b. rewrite lookup_empty. by intros r [?%not_elem_of_nil _]. }
  specialize (Hf Hinit a).
  destruct (values !! a) as [[list p]|]; simpl in *; [|done].
  destruct Hf as (record & Hn & _ & Hl). eauto.
Qed.

(** The direction a target reads its relays from. *)
Definition target_direction (t : RouteTarget) : option (PublicKey * string) :=
  match t with
  | TargetAuthor a => Some (a, "write"%string)
  | TargetRecipient a => Some (a, "read"%string)
  | _ => None
  end.

(** The outbox router follows NIP-65: it places an author target on
    exactly the write relays, and a recipient target on exactly the read relays,
    of the author's newest relay list in the snapshot; a list without such
    relays settles the target as absent; and without a list the target is absent
    once every relay asked is complete, and unresolved before. *)
Theorem outbox_follows_relay_lists (request : RouteRequest) (snapshot : QuerySnapshot)
    (c : RouteContribution) (t : RouteTarget) (a : PublicKey) (marker : string)
    (Hproject : outbox_project request [snapshot] = Ok c)
    (Ht : t ∈ targets request) (Hdir : target_direction t = Some (a, marker)) :
  match cb_coverage c !! t with
  | Some (Covered s) => s ≠ ∅ ∧ ∃ record, newest_list (qn_events snapshot) a record ∧
      ∀ r, r ∈ s ↔ declares (er_event record) marker r
  | Some SettledAbsent =>
      (∃ record, newest_list (qn_events snapshot) a record ∧ ∀ r, ¬ declares (er_event record) marker r) ∨
      ((∀ record, ¬ lists_by (qn_events snapshot) a record) ∧
       all_relays_stored_events_complete (qn_evidence snapshot) = true)
  | Some Unresolved =>
      (∀ record, ¬ lists_by (qn_events snapshot) a record) ∧
      all_relays_stored_events_complete (qn_evidence snapshot) = false
  | None => False
  end.
Proof.
  unfold outbox_project in Hproject. rewrite bool_decide_eq_false_2 in Hproject by (simpl; lia).
  case_bool_decide as Hauth.
  { exfalso. assert (a ∈ requested_authors request) as Hin; [|rewrite Hauth in Hin; set_solver].
    unfold requested_authors. apply elem_of_list_to_set, list_elem_of_omap. exists t.
    rewrite elem_of_ordered_elements. split; [done|]. by destruct t; simplify_eq/=. }
  simpl in Hproject. pose proof (decode_lists_ok snapshot a) as Hlists.
  destruct (decode_lists snapshot) as [lists sf]. simpl in Hlists. injection Hproject as <-.
  destruct (outbox_contribution_ok request lists (all_relays_stored_events_complete (qn_evidence snapshot)) sf)
    as [_ Hcov]. rewrite (Hcov t Ht). clear Hcov.
  assert (Hst : outbox_state lists (all_relays_stored_events_complete (qn_evidence snapshot)) t =
    Some (place_state (direction marker <$> lists !! a) (all_relays_stored_events_complete (qn_evidence snapshot)))
    ∧ (marker = "read" ∨ marker = "write")).
  { destruct t; simplify_eq/=; auto. }
  destruct Hst as [-> Hm]. destruct (lists !! a) as [list|]; simpl.
  - destruct Hlists as (record & Hn & Hfrom). pose proof (relay_list_exact (er_event record)) as Hx.
    rewrite Hfrom in Hx. destruct Hx as (_ & _ & Hx). case_bool_decide as He; simpl.
    + left. exists record. split; [done|]. intros r Hr. apply (Hx marker r Hm) in Hr. rewrite He in Hr. set_solver.
    + split; [done|]. exists record. split; [done|]. intros r. by apply Hx.
  - destruct (all_relays_stored_events_complete _) eqn:Hc; simpl; [by right|done].
Qed.
End outbox.

(** ** Witnesses *)

Module RoutersWitness.
Import Sample.

(** A note by account 7, and what the indexers returned about its author. *)
Definition note : EventValue := Signed (mkEvent 1 7 1000 1 [["e"; "3"; "wss://hint.example"]] "hello" 0).
Definition request : RouteRequest := RouteWrite note Unauthenticated.

Definition list_event (at_ : Timestamp) (tags : list Tag) : EventValue :=
  Signed (mkEvent (100 + at_)%N 7 at_ 10002 tags "" 0).
Definition list_record (at_ : Timestamp) (tags : list Tag) : EventRecord :=
  mkRecord (100 + at_)%N (list_event at_ tags) (mkOccurrences (100 + at_)%N ∅) None.
Definition snapshot : QuerySnapshot :=
  mkQuerySnapshot 1 [list_record 5 [["r"; "wss://old.example"]];
                     list_record 9 [["r"; "wss://out.example"; "write"]; ["r"; "wss://in.example"; "read"]]]
    default_evidence.

Definition app : StandardRouter := UseAppRelays (mkApp "app" {[ "wss://app.example" ]} true true).
Definition outbox : StandardRouter := UseOutbox (mkOutbox "outbox" {[ "wss://index.example" ]}).

Definition contribution_of (r : outcome (result RouterError RouteContribution)) : RouteContribution :=
  match r with Returned (Ok c) => c | _ => default_contribution end.

Lemma standard_routers_coherent_witness :
  coherent (targets request) (contribution_of (router_preview (standard_router outbox) request default_plan [snapshot])).
Proof. apply (standard_routers_coherent outbox request default_plan [snapshot]). vm_compute. reflexivity. Defined.

Lemma replace_is_preview_witness :
  router_preview (standard_router app) request default_plan [] =
    Returned (Ok (app_contribution (mkApp "app" {[ "wss://app.example" ]} true true) request)).
Proof.
  apply (replace_is_preview app request default_plan default_plan [] []
           (SessionStatic (mkStatic (app_contribution (mkApp "app" {[ "wss://app.example" ]} true true) request)))).
  reflexivity.
Defined.

Lemma outbox_follows_relay_lists_witness :
  ∃ record, newest_list (qn_events snapshot) 7 record ∧ declares (er_event record) "write" "wss://out.example".
Proof.
  pose proof (outbox_follows_relay_lists request snapshot
    (contribution_of (router_preview (standard_router outbox) request default_plan [snapshot]))
    (TargetAuthor 7) 7 "write") as Hx.
  assert (Hp : outbox_project request [snapshot] =
    Ok (contribution_of (router_preview (standard_router outbox) request default_plan [snapshot])))
    by (vm_compute; reflexivity).
  assert (Ht : TargetAuthor 7 ∈ targets request) by (vm_compute; reflexivity).
  specialize (Hx Hp Ht eq_refl).
  assert (Hc : cb_coverage (contribution_of (router_preview (standard_router outbox) request default_plan [snapshot]))
    !! TargetAuthor 7 = Some (Covered {[ "wss://out.example" ]})) by (vm_compute; reflexivity).
  rewrite Hc in Hx. destruct Hx as [_ (record & Hn & Hs)]. exists record. split; [exact Hn|].
  apply Hs. apply elem_of_singleton. reflexivity.
Defined.
End RoutersWitness.
