(* ===== verification/Receipts.v ===== *)
(** * Receipts under a changing route ([crates/fava-write-store])

    The provider-neutral receipt rules every write store applies: text bounds,
    currentness of a named revision, and how one complete route plan changes a
    receipt without losing a delivery fact ([receipt.rs]). *)

From S2P Require Import Prelude Nostr Relay State Write Query Routing.

Inductive WriteStoreError :=
| StoreClosed
| StoreInvalidEvent (e : InvalidEventValue)
| StoreInvalidIntent (e : WriteIntentError)
| StoreRefused (reason : string).

Record AcceptedWrite := mkAccepted {
  aw_write_id : WriteId;
  aw_receipt_id : ReceiptId;
  aw_current : LocalWriteEvent
}.

Definition MAX_RECEIPT_TEXT_BYTES : nat := 4096.
Definition destination_evidence_capacity : nat := 256.

Definition validate_receipt_text (value : string) : result WriteStoreError unit :=
  ensure (bool_decide (String.length value ≤ MAX_RECEIPT_TEXT_BYTES))
    (StoreRefused ("receipt text exceeds bound: " +:+ pretty (String.length value)
                   +:+ " > " +:+ pretty MAX_RECEIPT_TEXT_BYTES)).

Definition validate_delivery_outcome (o : RelayDeliveryOutcome) : result WriteStoreError unit :=
  match o with
  | Retryable reason | AuthenticationDenied reason | GivenUp reason | Unknown reason =>
      validate_receipt_text reason
  | Acknowledged message | Rejected message => validate_receipt_text message
  | Pending | Attempting | CancelledBeforeHandoff => Ok tt
  end.

Abbreviation rc_publication r := (lw_publication (rc_current r)).

Definition validate_current_revision (r : Receipt) (write_id : WriteId) (revision_id : RevisionId)
    (event_id : EventId) : result WriteStoreError unit :=
  ensure (negb (receipt_is_terminal r || negb (bool_decide (rc_write_id r = write_id))
                || negb (bool_decide (pub_revision_id (rc_publication r) = revision_id))
                || negb (bool_decide (lw_id (rc_current r) = event_id))))
    (StoreRefused "write revision is not current").

(** ** Field updates *)

Definition with_destinations (d : gmap RelayUrl RelayDeliveryOutcome) (p : PublicationEvidence)
    : PublicationEvidence :=
  mkPublication (pub_receipt_id p) (pub_write_id p) (pub_revision_id p) (pub_revision_source p)
    (pub_revision_failure p) (pub_retired_revisions p) (pub_signature p) d.
Definition with_signature (s : SignatureState) (p : PublicationEvidence) : PublicationEvidence :=
  mkPublication (pub_receipt_id p) (pub_write_id p) (pub_revision_id p) (pub_revision_source p)
    (pub_revision_failure p) (pub_retired_revisions p) s (pub_destinations p).
Definition with_failure (f : option string) (p : PublicationEvidence) : PublicationEvidence :=
  mkPublication (pub_receipt_id p) (pub_write_id p) (pub_revision_id p) (pub_revision_source p)
    f (pub_retired_revisions p) (pub_signature p) (pub_destinations p).
Definition with_publication (p : PublicationEvidence) (l : LocalWriteEvent) : LocalWriteEvent :=
  mkLocal (lw_id l) (lw_event l) p.
Definition with_current (l : LocalWriteEvent) (r : Receipt) : Receipt :=
  mkReceipt (rc_write_id r) (rc_receipt_id r) l (rc_routing r) (rc_access r) (rc_outcome r)
    (rc_route_revision r) (rc_route_settled r) (rc_route_shortfalls r) (rc_desired_destinations r)
    (rc_attempts r).
Definition with_outcome (o : ReceiptOutcome) (r : Receipt) : Receipt :=
  mkReceipt (rc_write_id r) (rc_receipt_id r) (rc_current r) (rc_routing r) (rc_access r) o
    (rc_route_revision r) (rc_route_settled r) (rc_route_shortfalls r) (rc_desired_destinations r)
    (rc_attempts r).
Definition with_attempts (a : gmap RelayUrl N) (r : Receipt) : Receipt :=
  mkReceipt (rc_write_id r) (rc_receipt_id r) (rc_current r) (rc_routing r) (rc_access r) (rc_outcome r)
    (rc_route_revision r) (rc_route_settled r) (rc_route_shortfalls r) (rc_desired_destinations r) a.
Definition with_route (revision : N) (is_settled : bool) (shortfalls : list string)
    (desired : gset RelayUrl) (r : Receipt) : Receipt :=
  mkReceipt (rc_write_id r) (rc_receipt_id r) (rc_current r) (rc_routing r) (rc_access r) (rc_outcome r)
    revision is_settled shortfalls desired (rc_attempts r).

Definition update_publication (f : PublicationEvidence → PublicationEvidence) (r : Receipt) : Receipt :=
  with_current (with_publication (f (rc_publication r)) (rc_current r)) r.

(** ** Routes *)

Definition settle_route (r : Receipt) : Receipt :=
  if negb (rc_route_settled r) || existsb (λ o, negb (outcome_is_terminal o)) (values (rc_destinations r))
  then with_outcome Open r
  else if bool_decide (rc_desired_destinations r = ∅) then with_outcome NoDestination r
  else with_outcome Complete r.

(** One withdrawn destination: destinations and attempts after it. *)
Definition retire_destination (w : gmap RelayUrl RelayDeliveryOutcome * gmap RelayUrl N)
    (session : RelayUrl) : gmap RelayUrl RelayDeliveryOutcome * gmap RelayUrl N :=
  match w.1 !! session with
  | Some Pending => (delete session w.1, delete session w.2)
  | Some (Retryable _) => (<[session := CancelledBeforeHandoff]> w.1, w.2)
  | _ => w
  end.

(** [entry(session).or_insert(Pending)]. *)
Definition add_destination (d : gmap RelayUrl RelayDeliveryOutcome) (session : RelayUrl)
    : gmap RelayUrl RelayDeliveryOutcome :=
  match d !! session with Some _ => d | None => <[session := Pending]> d end.

Section routes.
Context `{Nostr}.

(** [impl Debug for RouteTarget]. *)
Definition target_debug (t : RouteTarget) : string :=
  match t with
  | WholeRequest => "WholeRequest"
  | TargetAuthor k => "Author(" +:+ public_key_debug k +:+ ")"
  | TargetRecipient k => "Recipient(" +:+ public_key_debug k +:+ ")"
  | TargetReferencedEvent i => "ReferencedEvent(" +:+ event_id_debug i +:+ ")"
  end.

Definition route_shortfalls (plan : RoutePlan) : list string :=
  rp_shortfalls plan ++
  ((λ p : RouteTarget * CoverageState, "no relay destination for " +:+ target_debug p.1) <$>
     filter (λ p : RouteTarget * CoverageState, p.2 = SettledAbsent) (entries (rp_coverage plan))).

Definition bound_refused (label : string) (actual : nat) : WriteStoreError :=
  StoreRefused (label +:+ " exceeds bound: " +:+ pretty actual +:+ " > "
                +:+ pretty destination_evidence_capacity).

Definition apply_newer_route_to_receipt (r : Receipt) (plan : RoutePlan) : result WriteStoreError Receipt :=
  _ ← ensure (bool_decide (size (rp_destinations plan) ≤ destination_evidence_capacity))
        (bound_refused "route destination fan-out" (size (rp_destinations plan)));
  let desired := dom (rp_destinations plan) in
  let shortfalls := route_shortfalls plan in
  _ ← ensure (bool_decide (length shortfalls ≤ destination_evidence_capacity))
        (bound_refused "route shortfall count" (length shortfalls));
  _ ← for_each validate_receipt_text shortfalls;
  let removed := ordered_elements (rc_desired_destinations r ∖ desired) in
  let '(destinations, attempts) := foldl retire_destination (rc_destinations r, rc_attempts r) removed in
  let destinations := foldl add_destination destinations (ordered_elements desired) in
  Ok (settle_route
        (with_route (rp_revision plan) (settled plan) shortfalls desired
           (with_attempts attempts (update_publication (with_destinations destinations) r)))).

Definition persisted_route_effect_matches (r : Receipt) (plan : RoutePlan) : bool :=
  let candidate :=
    with_attempts ∅ (with_route 0 false [] ∅ (with_outcome Open
      (update_publication (with_destinations ∅) r))) in
  match apply_newer_route_to_receipt candidate plan with
  | Err _ => false
  | Ok candidate =>
      bool_decide (rc_outcome candidate = rc_outcome r) &&
      bool_decide (rc_route_revision candidate = rc_route_revision r) &&
      bool_decide (rc_route_settled candidate = rc_route_settled r) &&
      bool_decide (rc_route_shortfalls candidate = rc_route_shortfalls r) &&
      bool_decide (rc_desired_destinations candidate = rc_desired_destinations r) &&
      bool_decide (rc_attempts candidate = rc_attempts r) &&
      bool_decide (rc_destinations candidate = rc_destinations r)
  end.

Definition apply_route_to_receipt (r : Receipt) (plan : RoutePlan) : result WriteStoreError Receipt :=
  match rc_routing r with
  | Explicit _ => Err (StoreRefused "automatic route cannot mutate an explicit receipt")
  | Automatic =>
      if bool_decide (rp_revision plan < rc_route_revision r)%N
      then Err (StoreRefused ("route revision is stale: " +:+ pretty (rp_revision plan)
                              +:+ " < " +:+ pretty (rc_route_revision r)))
      else if bool_decide (rp_revision plan = rc_route_revision r)
      then if bool_decide (rp_revision plan = 0%N)
           then Err (StoreRefused "route revision zero has no persisted effect to replay")
           else if persisted_route_effect_matches r plan then Ok r
           else Err (StoreRefused ("route revision " +:+ pretty (rp_revision plan)
                                   +:+ " has a different persisted effect"))
      else apply_newer_route_to_receipt r plan
  end.

End routes.

(** ** Lemmas: what a route does to each destination *)

(** A withdrawn destination: untouched work disappears, a retryable attempt is
    cancelled, and whatever may have been handed off stays. *)
Definition retire_state (o : option RelayDeliveryOutcome) : option RelayDeliveryOutcome :=
  match o with
  | Some Pending => None
  | Some (Retryable _) => Some CancelledBeforeHandoff
  | o => o
  end.

Lemma retire_destination_lookup w session s :
  (retire_destination w session).1 !! s = if decide (s = session) then retire_state (w.1 !! s) else w.1 !! s.
Proof.
  unfold retire_destination. case_decide as E; [subst s|].
  - destruct (w.1 !! session) as [[]|] eqn:Ew; simpl; rewrite ?lookup_delete_eq, ?lookup_insert_eq, ?Ew; done.
  - destruct (w.1 !! session) as [[]|]; simpl; rewrite ?lookup_delete_ne, ?lookup_insert_ne by done; done.
Qed.

Lemma retire_state_idem o : retire_state (retire_state o) = retire_state o.
Proof. by destruct o as [[]|]. Qed.

Lemma retire_fold_lookup l w s :
  (foldl retire_destination w l).1 !! s = if decide (s ∈ l) then retire_state (w.1 !! s) else w.1 !! s.
Proof.
  revert w. induction l as [|x l IH]; intros w; [done|].
  cbn [foldl]. rewrite IH, retire_destination_lookup.
  destruct (decide (s = x)) as [->|Hne].
  - rewrite (decide_True (P := x ∈ x :: l)) by set_solver. case_decide; [by rewrite retire_state_idem|done].
  - destruct (decide (s ∈ l)); [rewrite decide_True by set_solver|rewrite decide_False by set_solver]; done.
Qed.

Lemma add_fold_lookup l d s :
  foldl add_destination d l !! s = if decide (s ∈ l) then Some (default Pending (d !! s)) else d !! s.
Proof.
  revert d. induction l as [|x l IH]; intros d; [done|].
  cbn [foldl]. rewrite IH. unfold add_destination.
  destruct (decide (s = x)) as [->|Hne].
  - rewrite (decide_True (P := x ∈ x :: l)) by set_solver.
    destruct (d !! x) eqn:E; rewrite ?E, ?lookup_insert_eq; by case_decide.
  - assert (Hl : (match d !! x with Some _ => d | None => <[x:=Pending]> d end) !! s = d !! s)
      by (destruct (d !! x); [done|by rewrite lookup_insert_ne]).
    rewrite Hl. destruct (decide (s ∈ l)); [rewrite decide_True by set_solver|rewrite decide_False by set_solver]; done.
Qed.

(** The state of one destination after a newer plan. *)
Definition routed_state (r : Receipt) (plan : RoutePlan) (s : RelayUrl) : option RelayDeliveryOutcome :=
  if bool_decide (s ∈ dom (rp_destinations plan))
  then Some (default Pending (rc_destinations r !! s))
  else if bool_decide (s ∈ rc_desired_destinations r) then retire_state (rc_destinations r !! s)
  else rc_destinations r !! s.

(** The outcome a receipt's evidence calls for. *)
Definition settled_outcome (is_settled : bool) (destinations : gmap RelayUrl RelayDeliveryOutcome)
    (desired : gset RelayUrl) : ReceiptOutcome :=
  if negb is_settled || existsb (λ o, negb (outcome_is_terminal o)) (values destinations) then Open
  else if bool_decide (desired = ∅) then NoDestination else Complete.

Lemma settle_route_fields r :
  rc_outcome (settle_route r) =
    settled_outcome (rc_route_settled r) (rc_destinations r) (rc_desired_destinations r) ∧
  settle_route r = with_outcome (rc_outcome (settle_route r)) r.
Proof. unfold settle_route, settled_outcome. repeat case_match; done. Qed.

Section route_lemmas.
Context `{Nostr}.

Lemma newer_route_Ok r plan r' :
  apply_newer_route_to_receipt r plan = Ok r' ↔
  size (rp_destinations plan) ≤ destination_evidence_capacity ∧
  length (route_shortfalls plan) ≤ destination_evidence_capacity ∧
  (∀ s, s ∈ route_shortfalls plan → String.length s ≤ MAX_RECEIPT_TEXT_BYTES) ∧
  r' = (let desired := dom (rp_destinations plan) in
        let w := foldl retire_destination (rc_destinations r, rc_attempts r)
                   (ordered_elements (rc_desired_destinations r ∖ desired)) in
        settle_route
          (with_route (rp_revision plan) (settled plan) (route_shortfalls plan) desired
             (with_attempts w.2
                (update_publication
                   (with_destinations (foldl add_destination w.1 (ordered_elements desired))) r)))).
Proof.
  unfold apply_newer_route_to_receipt.
  destruct (foldl retire_destination _ _) as [d a]. cbn [fst snd]. split.
  - intros ([] & H1%ensure_Ok%bool_decide_eq_true & ([] & H2%ensure_Ok%bool_decide_eq_true &
      ([] & H3 & E)%bind_Ok)%bind_Ok)%bind_Ok.
    injection E as <-. split_and!; try done.
    intros s Hs. pose proof (proj1 (for_each_Ok _ _) H3 s Hs) as Ht.
    by apply ensure_Ok, bool_decide_eq_true in Ht.
  - intros (H1 & H2 & H3 & ->). apply bind_Ok. exists tt. split; [by apply ensure_Ok, bool_decide_eq_true|].
    apply bind_Ok. exists tt. split; [by apply ensure_Ok, bool_decide_eq_true|].
    apply bind_Ok. exists tt. split; [|done]. apply for_each_Ok. intros s Hs.
    by apply ensure_Ok, bool_decide_eq_true, H3.
Qed.

Lemma newer_route_destinations r plan r' s :
  apply_newer_route_to_receipt r plan = Ok r' → rc_destinations r' !! s = routed_state r plan s.
Proof.
  intros (_ & _ & _ & ->)%newer_route_Ok. cbv zeta.
  rewrite (proj2 (settle_route_fields _)).
  change (rc_destinations (with_outcome _ (with_route _ _ _ _ (with_attempts _
    (update_publication (with_destinations ?d) r))))) with d.
  rewrite add_fold_lookup, retire_fold_lookup. cbn [fst]. unfold routed_state.
  destruct (decide (s ∈ ordered_elements (dom (rp_destinations plan)))) as [E|E];
    rewrite elem_of_ordered_elements in E;
    [rewrite bool_decide_eq_true_2 by done|rewrite bool_decide_eq_false_2 by done];
    destruct (decide (s ∈ ordered_elements (rc_desired_destinations r ∖ dom (rp_destinations plan)))) as [E'|E'];
    rewrite elem_of_ordered_elements, elem_of_difference in E'.
  - naive_solver.
  - done.
  - by rewrite bool_decide_eq_true_2 by naive_solver.
  - by rewrite bool_decide_eq_false_2 by naive_solver.
Qed.

Lemma newer_route_fields r plan r' :
  apply_newer_route_to_receipt r plan = Ok r' →
  rc_write_id r' = rc_write_id r ∧ rc_receipt_id r' = rc_receipt_id r ∧
  rc_routing r' = rc_routing r ∧ rc_access r' = rc_access r ∧
  lw_id (rc_current r') = lw_id (rc_current r) ∧ lw_event (rc_current r') = lw_event (rc_current r) ∧
  rc_publication r' = with_destinations (rc_destinations r') (rc_publication r) ∧
  rc_route_revision r' = rp_revision plan ∧ rc_route_settled r' = settled plan ∧
  rc_route_shortfalls r' = route_shortfalls plan ∧
  rc_desired_destinations r' = dom (rp_destinations plan) ∧
  rc_outcome r' = settled_outcome (settled plan) (rc_destinations r') (dom (rp_destinations plan)).
Proof.
  intros (_ & _ & _ & ->)%newer_route_Ok. cbv zeta.
  pose proof (settle_route_fields (with_route (rp_revision plan) (settled plan) (route_shortfalls plan)
    (dom (rp_destinations plan)) (with_attempts
      (foldl retire_destination (rc_destinations r, rc_attempts r)
         (ordered_elements (rc_desired_destinations r ∖ dom (rp_destinations plan)))).2
      (update_publication (with_destinations (foldl add_destination
         (foldl retire_destination (rc_destinations r, rc_attempts r)
            (ordered_elements (rc_desired_destinations r ∖ dom (rp_destinations plan)))).1
         (ordered_elements (dom (rp_destinations plan))))) r)))) as [Ho He].
  rewrite He. cbn [rc_outcome with_outcome]. rewrite Ho. repeat split; done.
Qed.

End route_lemmas.

(** ** Properties *)

Section receipt_properties.
Context `{Nostr}.

(** Work that may have left the process: an attempt under way or a result. *)
Definition handed_off (o : RelayDeliveryOutcome) : bool :=
  bool_decide (o = Attempting) || outcome_is_terminal o.

Lemma routed_state_handed_off r plan s o :
  rc_destinations r !! s = Some o → handed_off o = true → routed_state r plan s = Some o.
Proof.
  intros Hs Ho. unfold routed_state. rewrite Hs. simpl.
  repeat case_bool_decide; try done. by destruct o.
Qed.

(** A newer route never loses a delivery fact: every destination whose
    work may have been handed off keeps its exact outcome, a desired
    destination not seen before becomes [Pending], a withdrawn one disappears
    only while [Pending], and the receipt closes exactly when the plan is
    settled and every destination is terminal. *)
Theorem newer_route_keeps_facts (r r' : Receipt) (plan : RoutePlan)
    (Hroute : apply_newer_route_to_receipt r plan = Ok r') :
  (∀ s o, rc_destinations r !! s = Some o → handed_off o = true → rc_destinations r' !! s = Some o) ∧
  (∀ s, s ∈ dom (rp_destinations plan) →
     rc_destinations r' !! s = Some (default Pending (rc_destinations r !! s))) ∧
  (∀ s o, rc_destinations r !! s = Some o → rc_destinations r' !! s = None → o = Pending) ∧
  (receipt_is_terminal r' = true ↔
     settled plan = true ∧ ∀ s o, rc_destinations r' !! s = Some o → outcome_is_terminal o = true).
Proof.
  pose proof (λ s, newer_route_destinations r plan r' s Hroute) as Hd.
  split_and!.
  - intros s o Hs Ho. rewrite Hd. by apply routed_state_handed_off.
  - intros s Hs. rewrite Hd. unfold routed_state. by rewrite bool_decide_eq_true_2.
  - intros s o Hs. rewrite Hd. unfold routed_state. rewrite Hs. repeat case_bool_decide; try done. by destruct o.
  - destruct (newer_route_fields _ _ _ Hroute) as (_ & _ & _ & _ & _ & _ & _ & _ & _ & _ & _ & Ho).
    unfold receipt_is_terminal. rewrite Ho. unfold settled_outcome.
    rewrite negb_true_iff, bool_decide_eq_false.
    destruct (settled plan); simpl; [|naive_solver].
    destruct (existsb _ _) eqn:E.
    + apply existsb_elem in E as (o & (s & Hs)%elem_of_values & Hn%negb_true_iff).
      split; [done|]. intros [_ Hall]. rewrite (Hall s o Hs) in Hn. done.
    + rewrite existsb_not_elem in E. split; [|by case_bool_decide].
      intros _. split; [done|]. intros s o Hs. apply negb_false_iff, E. apply elem_of_values. eauto.
Qed.

Lemma retire_fold_empty l : foldl retire_destination (∅, ∅) l = (∅, ∅).
Proof. induction l as [|s l IH]; [done|]. simpl. unfold retire_destination. simpl. by rewrite lookup_empty. Qed.

(** Nothing routed, nothing attempted. *)
Definition unrouted (r : Receipt) : Prop :=
  rc_destinations r = ∅ ∧ rc_attempts r = ∅.

(** Applying a plan to an unrouted receipt depends only on the plan. *)
Lemma newer_route_unrouted r plan r' :
  unrouted r → apply_newer_route_to_receipt r plan = Ok r' →
  rc_attempts r' = ∅ ∧
  rc_destinations r' = foldl add_destination ∅ (ordered_elements (dom (rp_destinations plan))).
Proof.
  intros [Hd Ha] (_ & _ & _ & ->)%newer_route_Ok. cbv zeta. rewrite Hd, Ha, retire_fold_empty.
  rewrite (proj2 (settle_route_fields _)). done.
Qed.

Lemma newer_route_any r r0 plan r' :
  apply_newer_route_to_receipt r plan = Ok r' → ∃ r0', apply_newer_route_to_receipt r0 plan = Ok r0'.
Proof. intros (? & ? & ? & _)%newer_route_Ok. eexists. by apply newer_route_Ok. Qed.

(** Routes are applied once and in order: an accepted plan never has a
    lower revision than the one held, a plan of the held revision changes
    nothing, and replaying the plan that routed an unrouted automatic receipt
    is accepted as its own persisted effect. *)
Theorem route_replay (r r' : Receipt) (plan : RoutePlan)
    (Happly : apply_route_to_receipt r plan = Ok r') :
  (rc_route_revision r ≤ rp_revision plan)%N ∧ rc_route_revision r' = rp_revision plan ∧
  (rp_revision plan = rc_route_revision r → r' = r) ∧
  (unrouted r → (rc_route_revision r < rp_revision plan)%N → apply_route_to_receipt r' plan = Ok r').
Proof.
  unfold apply_route_to_receipt in Happly. destruct (rc_routing r) eqn:Hrt; [|done].
  case_bool_decide as Hstale; [done|]. case_bool_decide as Hsame.
  - case_bool_decide; [done|]. destruct (persisted_route_effect_matches r plan); [|done].
    injection Happly as <-. split_and!; [lia|done|done|lia].
  - destruct (newer_route_fields _ _ _ Happly) as (_ & _ & Hr & _ & _ & _ & _ & Hrev & Hs & Hsh & Hde & Ho).
    split_and!; [lia|done|done|]. intros Hun Hlt.
    destruct (newer_route_unrouted _ _ _ Hun Happly) as [Ha Hd].
    unfold apply_route_to_receipt. rewrite Hr, Hrt, Hrev.
    rewrite bool_decide_eq_false_2, bool_decide_eq_true_2, bool_decide_eq_false_2 by lia.
    unfold persisted_route_effect_matches.
    set (cand := with_attempts ∅ _).
    assert (Hcun : unrouted cand) by done.
    destruct (newer_route_any _ cand _ _ Happly) as [c' Hc']. rewrite Hc'.
    destruct (newer_route_fields _ _ _ Hc') as (_ & _ & _ & _ & _ & _ & _ & Hrev' & Hs' & Hsh' & Hde' & Ho').
    destruct (newer_route_unrouted _ _ _ Hcun Hc') as [Ha' Hd'].
    assert (Hdd : rc_destinations c' = rc_destinations r') by (by rewrite Hd, Hd').
    rewrite Hdd, <- Ho in Ho'.
    rewrite !bool_decide_eq_true_2; [done|congruence..].
Qed.

End receipt_properties.

(** ** Witnesses *)

Module ReceiptsWitness.
Definition publication : PublicationEvidence :=
  mkPublication 1 1 1 None None [] SigUnsigned ∅.
Definition receipt : Receipt :=
  mkReceipt 1 1 (mkLocal 7 (Unsigned (mkUnsigned (Some 7%N) 1 10 1 [] "")) publication)
    Automatic Unauthenticated Open 0 false [] ∅ ∅.
Definition plan : RoutePlan :=
  mkPlan 1 {[ "wss://a" := mkPlanned "wss://a" {[ WholeRequest ]} ∅ ]}
    {[ WholeRequest := Covered {[ "wss://a" ]} ]} ∅ [].
Definition routed : Receipt :=
  match apply_route_to_receipt receipt plan with Ok r => r | Err _ => receipt end.

Lemma newer_route_keeps_facts_witness :
  rc_destinations routed !! "wss://a" = Some Pending ∧ receipt_is_terminal routed = false.
Proof.
  assert (E : apply_newer_route_to_receipt receipt plan = Ok routed) by (vm_compute; reflexivity).
  destruct (newer_route_keeps_facts receipt routed plan E) as (_ & Hd & _ & _).
  split; [|vm_compute; reflexivity].
  rewrite (Hd "wss://a"); [reflexivity|]. apply elem_of_dom. eexists. vm_compute. reflexivity.
Defined.

Lemma route_replay_witness : apply_route_to_receipt routed plan = Ok routed.
Proof.
  assert (E : apply_route_to_receipt receipt plan = Ok routed) by (vm_compute; reflexivity).
  destruct (route_replay receipt routed plan E) as (_ & _ & _ & Hr).
  apply Hr; [split; reflexivity|]. simpl. lia.
Defined.
End ReceiptsWitness.
