(* ===== verification/MemoryStore.v ===== *)
(** * The bounded in-memory write store ([crates/fava-write-store-memory])

    The ledger behind the store's lock ([WriteState]), the snapshot it last
    published to queries and the receipt changes it broadcast.  Every operation
    takes the whole lock, so it is a function on that record; it lives in a
    state monad whose failures keep the state they reached, since two
    operations mutate the ledger before a step that may still refuse.  A
    poisoned lock is not modelled; [now] stands for [Timestamp::now()]. *)

From S2P Require Import Prelude Nostr Relay State Write Query Routing Receipts.

(** A selected source: its event id and creation time. *)
Abbreviation Source := (option (EventId * Timestamp)) (only parsing).

(** The ordered edits, their author, the selected source and the last failed one. *)
Record Custody := mkCustody {
  cu_edits : list EventEdit;
  cu_author : PublicKey;
  cu_source : option (EventId * Timestamp);
  cu_failed_source : option EventId
}.

Record Successor := mkSuccessor {
  su_edit : option EventEdit;
  su_event : UnsignedEvent;
  su_source : option (EventId * Timestamp);
  su_route : option RoutePlan
}.

Record WriteState := mkWriteState {
  ws_revision : N;
  ws_next_identity : N;
  ws_next_reservation : N;
  ws_reservations : gmap N EventCoordinate;
  ws_writes : gmap ReceiptId Receipt;
  ws_coordinates : gmap EventCoordinate ReceiptId;
  ws_successors : gmap ReceiptId Successor;
  ws_edits : gmap ReceiptId Custody
}.

Record MemoryWriteStore := mkStore {
  ms_capacity : nat;
  ms_state : WriteState;
  ms_latest : SourceSnapshot;
  ms_changes : list (ReceiptId * option Receipt)
}.

Definition default_write_state : WriteState := mkWriteState 0 1 1 ∅ ∅ ∅ ∅ ∅.

(** [MemoryWriteStore::bounded]. *)
Definition store_bounded (capacity : nat) : MemoryWriteStore :=
  mkStore capacity default_write_state (SourceSnapshot_empty WriteStoreSource) [].

(** ** Field updates *)

Definition set_revision (n : N) (st : WriteState) : WriteState :=
  mkWriteState n (ws_next_identity st) (ws_next_reservation st) (ws_reservations st) (ws_writes st)
    (ws_coordinates st) (ws_successors st) (ws_edits st).
Definition set_next_identity (n : N) (st : WriteState) : WriteState :=
  mkWriteState (ws_revision st) n (ws_next_reservation st) (ws_reservations st) (ws_writes st)
    (ws_coordinates st) (ws_successors st) (ws_edits st).
Definition set_reservations (next : N) (m : gmap N EventCoordinate) (st : WriteState) : WriteState :=
  mkWriteState (ws_revision st) (ws_next_identity st) next m (ws_writes st)
    (ws_coordinates st) (ws_successors st) (ws_edits st).
Definition set_writes (m : gmap ReceiptId Receipt) (st : WriteState) : WriteState :=
  mkWriteState (ws_revision st) (ws_next_identity st) (ws_next_reservation st) (ws_reservations st) m
    (ws_coordinates st) (ws_successors st) (ws_edits st).
Definition set_coordinates (m : gmap EventCoordinate ReceiptId) (st : WriteState) : WriteState :=
  mkWriteState (ws_revision st) (ws_next_identity st) (ws_next_reservation st) (ws_reservations st)
    (ws_writes st) m (ws_successors st) (ws_edits st).
Definition set_successors (m : gmap ReceiptId Successor) (st : WriteState) : WriteState :=
  mkWriteState (ws_revision st) (ws_next_identity st) (ws_next_reservation st) (ws_reservations st)
    (ws_writes st) (ws_coordinates st) m (ws_edits st).
Definition set_edits (m : gmap ReceiptId Custody) (st : WriteState) : WriteState :=
  mkWriteState (ws_revision st) (ws_next_identity st) (ws_next_reservation st) (ws_reservations st)
    (ws_writes st) (ws_coordinates st) (ws_successors st) m.

(** ** The operations' monad *)

Definition Op (A : Type) : Type := stateM MemoryWriteStore WriteStoreError A.

#[global] Instance op_ret : MRet Op := fun A => mret (M := stateM MemoryWriteStore WriteStoreError).
#[global] Instance op_bind : MBind Op := fun A B => mbind (M := stateM MemoryWriteStore WriteStoreError).

(** [self.lock_state()?] *)
Definition lock_state : Op WriteState := fun s => (Ok (ms_state s), s).
(** Assignment through the guard. *)
Definition put_state (st : WriteState) : Op unit :=
  fun s => (Ok tt, mkStore (ms_capacity s) st (ms_latest s) (ms_changes s)).
Definition try_ {A} (r : result WriteStoreError A) : Op A := fun s => (r, s).
Definition refuse {A} (reason : string) : Op A := try_ (Err (StoreRefused reason)).
Definition require (b : bool) (reason : string) : Op unit := try_ (ensure b (StoreRefused reason)).
Definition get_capacity : Op nat := fun s => (Ok (ms_capacity s), s).

Definition or_refuse {A} (o : option A) (reason : string) : Op A := try_ (ok_or o (StoreRefused reason)).
Definition or_invalid_event {A} (r : result InvalidEventValue A) : Op A :=
  try_ (match r with Ok a => Ok a | Err e => Err (StoreInvalidEvent e) end).

(** ** Snapshots and notifications *)

Definition is_cancelled (r : Receipt) : bool := bool_decide (rc_outcome r = Cancelled).

(** [filter(|receipt| seen_event_ids.insert(receipt.current.id()))]. *)
Fixpoint first_per_id (seen : gset EventId) (l : list Receipt) : list Receipt :=
  match l with
  | [] => []
  | r :: l =>
      if bool_decide (lw_id (rc_current r) ∈ seen) then first_per_id seen l
      else r :: first_per_id ({[ lw_id (rc_current r) ]} ∪ seen) l
  end.

Definition visible_receipts (st : WriteState) : list Receipt :=
  reverse (first_per_id ∅ (List.filter (λ r, negb (is_cancelled r)) (reverse (values (ws_writes st))))).

Definition store_snapshot (st : WriteState) : SourceSnapshot :=
  mkSnapshot WriteStoreSource (ws_revision st) SourceOpen
    ((λ r, SourceLocal (rc_current r)) <$> visible_receipts st) [].

Definition publish_snapshot (st : WriteState) : Op unit :=
  fun s => (Ok tt, mkStore (ms_capacity s) (ms_state s) (store_snapshot st) (ms_changes s)).
Definition publish_change (id : ReceiptId) (r : option Receipt) : Op unit :=
  fun s => (Ok tt, mkStore (ms_capacity s) (ms_state s) (ms_latest s) (ms_changes s ++ [(id, r)])).
Definition publish_receipt_only (r : Receipt) : Op unit := publish_change (rc_receipt_id r) (Some r).
Definition publish_receipt (st : WriteState) (r : Receipt) : Op unit :=
  _ ← publish_snapshot st; publish_receipt_only r.

(** Assign the new ledger through the guard and publish one committed receipt. *)
Definition commit_state (st : WriteState) (r : Receipt) : Op Receipt :=
  _ ← put_state st; _ ← publish_receipt st r; mret r.

(** ** Bookkeeping ([state.rs], [model.rs]) *)

Definition edit_coordinate (edit : EventEdit) (author : PublicKey) : EventCoordinate :=
  CoordReplaceable author (ed_kind edit) (ed_identifier edit).

Definition next_revision (st : WriteState) : result WriteStoreError N :=
  ok_or (checked_succ (ws_revision st)) (StoreRefused "source revision exhausted").
Definition next_identity (current : N) : result WriteStoreError N :=
  ok_or (checked_succ current) (StoreRefused "write identity exhausted").

Definition active_count (st : WriteState) : nat :=
  length (List.filter (λ r, negb (receipt_is_terminal r)) (values (ws_writes st))).

Definition reserved_new (st : WriteState) : nat :=
  length (List.filter (λ c, bool_decide (ws_coordinates st !! c = None)) (values (ws_reservations st))).

Definition capacity_reached (st : WriteState) (capacity : nat) : bool :=
  bool_decide (capacity ≤ active_count st + reserved_new st).

Definition capacity_refused (capacity : nat) : string :=
  "bounded write-store capacity " +:+ pretty capacity +:+ " reached".

Definition release_semantic (id : ReceiptId) (st : WriteState) : WriteState :=
  let st := set_successors (delete id (ws_successors st)) st in
  match ws_edits st !! id with
  | None => st
  | Some custody =>
      let st := set_edits (delete id (ws_edits st)) st in
      match last (cu_edits custody) with
      | Some edit => set_coordinates (delete (edit_coordinate edit (cu_author custody)) (ws_coordinates st)) st
      | None => st
      end
  end.

Definition qualified_source (current candidate : option (EventId * Timestamp)) : bool :=
  match current, candidate with
  | None, Some _ | Some _, None => true
  | Some (current_id, current_time), Some (candidate_id, candidate_time) =>
      event_is_newer (candidate_time, candidate_id) (current_time, current_id)
  | None, None => false
  end.

Definition require_qualified_source (current candidate : option (EventId * Timestamp))
    : result WriteStoreError unit :=
  ensure (qualified_source current candidate)
    (StoreRefused "source event is equal, older, or already consumed").

Definition require_failure_source (current failed : option (EventId * Timestamp))
    : result WriteStoreError unit :=
  if bool_decide (current = failed) then Ok tt else require_qualified_source current failed.

Definition destinations (routing : WriteRouting) : gmap RelayUrl RelayDeliveryOutcome :=
  match routing with
  | Automatic => ∅
  | Explicit relays => list_to_map ((λ relay, (relay, Pending)) <$> relays)
  end.

Definition settle (r : Receipt) : Receipt :=
  if rc_route_settled r && forallb outcome_is_terminal (values (rc_destinations r))
  then with_outcome (if bool_decide (rc_desired_destinations r = ∅) then NoDestination else Complete) r
  else r.

(** [UnsignedEventView::from(unsigned) == UnsignedEventView::from(&event)]. *)
Definition same_view (u : UnsignedEvent) (e : Event) : bool :=
  bool_decide ((un_id u, un_pubkey u, un_created_at u, un_kind u, un_tags u, un_content u) =
               (Some (ev_id e), ev_pubkey e, ev_created_at e, ev_kind e, ev_tags e, ev_content e)).

Definition is_explicit (routing : WriteRouting) : bool :=
  match routing with Explicit _ => true | Automatic => false end.

(** The receipt of a revision nothing has been attempted for. *)
Definition open_receipt (write_id : WriteId) (receipt_id : ReceiptId) (current : LocalWriteEvent)
    (routing : WriteRouting) (access : Authority) : Receipt :=
  mkReceipt write_id receipt_id current routing access Open
    (if is_explicit routing then 1 else 0)%N (is_explicit routing) []
    (dom (pub_destinations (lw_publication current))) ∅.

(** [retired.push(..)]: the revision being replaced, as history. *)
Definition retire_revision (r : Receipt) : list (RevisionId * EventId * option EventId * option string) :=
  pub_retired_revisions (rc_publication r) ++
  [(pub_revision_id (rc_publication r), lw_id (rc_current r), pub_revision_source (rc_publication r),
    pub_revision_failure (rc_publication r))].

Section store.
Context `{Nostr} (now : Timestamp).

(** ** Acceptance of whole events *)

Definition accept (intent : WriteIntent) : Op AcceptedWrite :=
  guard ← lock_state;
  capacity ← get_capacity;
  _ ← require (negb (capacity_reached guard capacity)) (capacity_refused capacity);
  let identity := ws_next_identity guard in
  next_identity ← try_ (next_identity identity);
  '(event, signature) ←
    match in_payload intent with
    | PayloadEvent event => mret (Unsigned event, SigUnsigned)
    | PayloadEdit _ _ => refuse "replaceable-event edit requires revision before acceptance"
    | PayloadPresigned event => mret (Signed event, SigSigned)
    end;
  let publication := mkPublication identity identity revision_first None None [] signature
                       (destinations (in_routing intent)) in
  current ← or_invalid_event (LocalWriteEvent_new event publication);
  let receipt := open_receipt identity identity current (in_routing intent) (in_access intent) in
  next_revision ← try_ (next_revision guard);
  _ ← commit_state
        (set_writes (<[identity := receipt]> (ws_writes guard))
           (set_revision next_revision (set_next_identity next_identity guard))) receipt;
  mret (mkAccepted identity identity current).

(** ** Validation of semantic revisions ([semantic_acceptance.rs]) *)

Definition validate_source (edit : EventEdit) (author : PublicKey) (source : option EventValue)
    : result WriteStoreError (option (EventId * Timestamp)) :=
  match source with
  | None => Ok None
  | Some source =>
      _ ← match (match source with
                 | Signed event => event_verify event
                 | Unsigned event => unsigned_verify_id event
                 end) with
          | Some error => Err (StoreRefused error)
          | None => Ok tt
          end;
      id ← ok_or (value_id source) (StoreRefused "revision source has no event id");
      _ ← ensure (bool_decide (event_coordinate id (value_author source) (value_kind source)
                                 (value_tags source) = edit_coordinate edit author))
            (StoreRefused "revision source does not match edit coordinate");
      Ok (Some (id, value_created_at source))
  end.

Definition event_coordinate_of_unsigned (event : UnsignedEvent) : result WriteStoreError EventCoordinate :=
  id ← ok_or (un_id event) (StoreRefused "revision has no event id");
  Ok (event_coordinate id (un_pubkey event) (un_kind event) (un_tags event)).

Definition mismatched_revision : WriteStoreError :=
  StoreRefused "revision actor or coordinate does not match edit".

Definition validate_revision (edit : EventEdit) (author : PublicKey) (event : UnsignedEvent)
    (source : option EventValue) (routing : WriteRouting)
    : result WriteStoreError (option (EventId * Timestamp)) :=
  _ ← match intent_event now event routing with Ok _ => Ok tt | Err e => Err (StoreInvalidIntent e) end;
  _ ← ensure (bool_decide (un_pubkey event = author)) mismatched_revision;
  coordinate ← event_coordinate_of_unsigned event;
  _ ← ensure (bool_decide (coordinate = edit_coordinate edit author)) mismatched_revision;
  selected ← validate_source edit author source;
  match selected with
  | None => Ok None
  | Some (source_id, source_time) =>
      event_id ← ok_or (un_id event) (StoreRefused "revision has no stable id");
      _ ← ensure (event_is_newer (un_created_at event, event_id) (source_time, source_id))
            (StoreRefused "revision is not newer than its selected source");
      Ok selected
  end.

Definition source_id (source : option (EventId * Timestamp)) : option EventId := fst <$> source.

Definition require_current (r : Receipt) (write_id : WriteId) (expected : RevisionId)
    (expected_source : option EventId) (current_source : option (EventId * Timestamp))
    : result WriteStoreError unit :=
  ensure (negb (receipt_is_terminal r || negb (bool_decide (rc_write_id r = write_id))
                || negb (bool_decide (pub_revision_id (rc_publication r) = expected))
                || negb (bool_decide (source_id current_source = expected_source))))
    (StoreRefused "semantic revision is not current").

Definition attributed_failure (revision_id : RevisionId) (source : option EventId) (reason : string)
    : string :=
  let source := match source with None => "empty state" | Some id => event_id_to_string id end in
  let prefix := "revision " +:+ pretty revision_id +:+ " from source " +:+ source +:+ " failed" in
  let attributed := prefix +:+ ": " +:+ reason in
  if is_ok (validate_receipt_text attributed) then attributed else prefix.

(** ** Composition of same-coordinate edits ([semantic_composition.rs]) *)

(** [if let Some(plan) = .. { apply_route_to_receipt(&mut receipt, plan)?; }] *)
Definition apply_initial_route (route : option RoutePlan) (r : Receipt) : result WriteStoreError Receipt :=
  match route with
  | None => Ok r
  | Some plan => apply_route_to_receipt r plan
  end.

Definition next_revision_id (r : Receipt) : result WriteStoreError RevisionId :=
  ok_or (revision_checked_next (pub_revision_id (rc_publication r)))
    (StoreRefused "revision identity exhausted").

(** The plan under the revision that follows the receipt's own. *)
Definition successor_plan (r : Receipt) (route : option RoutePlan) : result WriteStoreError (option RoutePlan) :=
  match route with
  | None => Ok None
  | Some plan =>
      revision ← ok_or (checked_succ (rc_route_revision r)) (StoreRefused "route revision exhausted");
      Ok (Some (mkPlan revision (rp_destinations plan) (rp_coverage plan) (rp_unresolved plan)
                  (rp_shortfalls plan)))
  end.

Definition compose_semantic (receipt_id : ReceiptId) (edit : EventEdit) (author : PublicKey)
    (routing : WriteRouting) (event : UnsignedEvent) (source : option EventValue)
    (initial_route : option RoutePlan) : Op AcceptedWrite :=
  state ← lock_state;
  receipt ← or_refuse (ws_writes state !! receipt_id) "coordinate owner is missing";
  custody ← or_refuse (ws_edits state !! receipt_id) "semantic custody is missing";
  _ ← require (bool_decide (cu_author custody = author) && bool_decide (rc_routing receipt = routing))
        "same-coordinate edit author or routing differs from the active operation";
  _ ← require (negb (is_signed (lw_event (rc_current receipt))))
        "same-coordinate edit composition requires an unsigned current generation";
  selected ← try_ (validate_source edit author source);
  _ ← require (bool_decide (source = Some (lw_event (rc_current receipt))) &&
               bool_decide (source_id selected = Some (lw_id (rc_current receipt))))
        "same-coordinate edit source is not the exact current generation";
  _ ← require (bool_decide (length (pub_retired_revisions (rc_publication receipt))
                            < destination_evidence_capacity))
        "retired revision evidence capacity reached";
  successor_route ← try_ (successor_plan receipt initial_route);
  _ ← try_ (apply_initial_route successor_route receipt);
  if bool_decide (pub_signature (rc_publication receipt) = SigAuthorized) then
    _ ← require (bool_decide (ws_successors state !! receipt_id = None))
          "replaceable coordinate already has a durable successor";
    _ ← put_state (set_successors
          (<[receipt_id := mkSuccessor (Some edit) event (cu_source custody) successor_route]>
             (ws_successors state)) state);
    _ ← publish_receipt_only receipt;
    mret (mkAccepted (rc_write_id receipt) receipt_id (rc_current receipt))
  else
    revision_id ← try_ (next_revision_id receipt);
    let publication := mkPublication receipt_id (rc_write_id receipt) revision_id
      (source_id (cu_source custody)) None (retire_revision receipt) SigUnsigned (destinations routing) in
    current ← or_invalid_event (LocalWriteEvent_new (Unsigned event) publication);
    updated ← try_ (apply_initial_route successor_route
      (open_receipt (rc_write_id receipt) (rc_receipt_id receipt) current (rc_routing receipt) (rc_access receipt)));
    let edits := cu_edits custody ++ [edit] in
    revision ← try_ (next_revision state);
    let state := set_revision revision state in
    let state :=
      if receipt_is_terminal updated
      then set_edits (delete receipt_id (ws_edits state))
             (set_coordinates (delete (edit_coordinate edit author) (ws_coordinates state)) state)
      else set_edits (<[receipt_id := mkCustody edits author (cu_source custody) None]> (ws_edits state)) state in
    _ ← commit_state (set_writes (<[receipt_id := updated]> (ws_writes state)) state) updated;
    mret (mkAccepted (rc_write_id updated) receipt_id (rc_current updated)).

(** ** Semantic acceptance ([semantic.rs]) *)

(** The reservation step of [accept_semantic_inner]: check, then consume. *)
Definition consume_reservation (reservation : option N) (coordinate : EventCoordinate) : Op bool :=
  match reservation with
  | None => mret false
  | Some reservation =>
      state ← lock_state;
      reserved ← or_refuse (ws_reservations state !! reservation) "active reservation is not current";
      _ ← require (bool_decide (reserved = coordinate))
            "active reservation belongs to a different replaceable coordinate";
      _ ← put_state (set_reservations (ws_next_reservation state)
                       (delete reservation (ws_reservations state)) state);
      mret true
  end.

(** Whether this acceptance repeats the one the coordinate's owner holds. *)
Definition repeats_acceptance (receipt : Receipt) (custody : Custody) (edit : EventEdit)
    (author : PublicKey) (selected : option (EventId * Timestamp)) (routing : WriteRouting)
    (event : UnsignedEvent) (initial_route : option RoutePlan) : bool :=
  bool_decide (cu_edits custody = [edit]) && bool_decide (cu_author custody = author) &&
  bool_decide (cu_source custody = selected) && bool_decide (rc_routing receipt = routing) &&
  bool_decide (lw_event (rc_current receipt) = Unsigned event) &&
  match initial_route with
  | None => true
  | Some plan => bool_decide (rp_revision plan = rc_route_revision receipt)
                 && is_ok (apply_route_to_receipt receipt plan)
  end.

(** [accept_semantic_inner] once the reservation step is done. *)
Definition accept_validated (reserved : bool) (edit : EventEdit) (author : PublicKey)
    (routing : WriteRouting) (access : Authority) (event : UnsignedEvent)
    (source : option EventValue) (initial_route : option RoutePlan) : Op AcceptedWrite :=
  let coordinate := edit_coordinate edit author in
  selected ← try_ (validate_revision edit author event source routing);
  state ← lock_state;
  match ws_coordinates state !! coordinate with
  | Some receipt_id =>
      receipt ← or_refuse (ws_writes state !! receipt_id) "coordinate owner is missing";
      custody ← or_refuse (ws_edits state !! receipt_id) "semantic custody is missing";
      if repeats_acceptance receipt custody edit author selected routing event initial_route
      then mret (mkAccepted (rc_write_id receipt) (rc_receipt_id receipt) (rc_current receipt))
      else compose_semantic receipt_id edit author routing event source initial_route
  | None =>
      capacity ← get_capacity;
      _ ← require (reserved || negb (capacity_reached state capacity)) (capacity_refused capacity);
      let identity := ws_next_identity state in
      next_identity ← try_ (next_identity identity);
      let publication := mkPublication identity identity revision_first (source_id selected) None []
                           SigUnsigned (destinations routing) in
      current ← or_invalid_event (LocalWriteEvent_new (Unsigned event) publication);
      receipt ← try_ (apply_initial_route initial_route
                        (open_receipt identity identity current routing access));
      revision ← try_ (next_revision state);
      let state := set_revision revision (set_next_identity next_identity state) in
      let state :=
        if receipt_is_terminal receipt then state
        else set_edits (<[identity := mkCustody [edit] author selected None]> (ws_edits state))
               (set_coordinates (<[coordinate := identity]> (ws_coordinates state)) state) in
      _ ← commit_state (set_writes (<[identity := receipt]> (ws_writes state)) state) receipt;
      mret (mkAccepted identity identity (rc_current receipt))
  end.

Definition accept_semantic_inner (reservation : option N) (intent : WriteIntent) (event : UnsignedEvent)
    (source : option EventValue) (initial_route : option RoutePlan) : Op AcceptedWrite :=
  '(edit, author) ←
    match in_payload intent with
    | PayloadEdit edit author => mret (edit, author)
    | _ => refuse "semantic acceptance requires a replaceable-event edit"
    end;
  reserved ← consume_reservation reservation (edit_coordinate edit author);
  accept_validated reserved edit author (in_routing intent) (in_access intent) event source initial_route.

Definition accept_applied_edit (intent : WriteIntent) (event : UnsignedEvent)
    (source : option EventValue) : Op AcceptedWrite :=
  accept_semantic_inner None intent event source None.

Definition accept_reserved_applied_edit (reservation : N) (intent : WriteIntent) (event : UnsignedEvent)
    (source : option EventValue) (initial_route : option RoutePlan) : Op AcceptedWrite :=
  accept_semantic_inner (Some reservation) intent event source initial_route.

(** [install_semantic]: replace the current revision after a source correction. *)
Definition install_semantic (write_id : WriteId) (receipt_id : ReceiptId) (expected : RevisionId)
    (expected_source : option EventId) (applied_edits : list EventEdit) (event : UnsignedEvent)
    (source : option EventValue) (initial_route : option RoutePlan) : Op Receipt :=
  state ← lock_state;
  receipt ← or_refuse (ws_writes state !! receipt_id) "receipt does not exist";
  custody ← or_refuse (ws_edits state !! receipt_id) "semantic custody does not exist";
  _ ← try_ (require_current receipt write_id expected expected_source (cu_source custody));
  _ ← require (bool_decide (cu_edits custody = applied_edits))
        "successor did not apply the complete durable semantic edit sequence";
  edit ← or_refuse (last (cu_edits custody)) "semantic edit sequence is empty";
  selected ← try_ (validate_revision edit (cu_author custody) event source (rc_routing receipt));
  if bool_decide (lw_event (rc_current receipt) = Unsigned event) &&
     bool_decide (pub_revision_source (rc_publication receipt) = source_id selected)
  then mret receipt
  else
    _ ← try_ (require_qualified_source (cu_source custody) selected);
    event_id ← or_refuse (un_id event) "successor revision has no stable id";
    _ ← require (event_is_newer (un_created_at event, event_id)
                   (value_created_at (lw_event (rc_current receipt)), lw_id (rc_current receipt)))
          "successor revision is not newer than current event";
    _ ← require (bool_decide (length (pub_retired_revisions (rc_publication receipt))
                              < destination_evidence_capacity))
          "retired revision evidence capacity reached";
    _ ← try_ (apply_initial_route initial_route receipt);
    if bool_decide (pub_signature (rc_publication receipt) = SigAuthorized) then
      _ ← require (bool_decide (ws_successors state !! receipt_id = None))
            "replaceable coordinate already has a durable successor";
      _ ← put_state (set_successors
            (<[receipt_id := mkSuccessor None event selected initial_route]> (ws_successors state)) state);
      _ ← publish_receipt_only receipt;
      mret receipt
    else
      let correction := rc_desired_destinations receipt ∪ dom (rc_destinations receipt) in
      _ ← require (bool_decide (size correction ≤ destination_evidence_capacity))
            "correction destination capacity reached";
      revision_id ← try_ (next_revision_id receipt);
      current ← or_invalid_event (LocalWriteEvent_new (Unsigned event)
        (mkPublication receipt_id write_id revision_id (source_id selected) None
           (retire_revision receipt) SigUnsigned (gset_to_gmap Pending correction)));
      let updated := with_attempts ∅
        (with_route (rc_route_revision receipt) (rc_route_settled receipt) (rc_route_shortfalls receipt)
           correction (with_outcome Open (with_current current receipt))) in
      updated ← try_ (apply_initial_route initial_route updated);
      revision ← try_ (next_revision state);
      commit_state
        (set_writes (<[receipt_id := updated]> (ws_writes state))
           (set_edits (<[receipt_id := mkCustody (cu_edits custody) (cu_author custody) selected None]>
                         (ws_edits state)) (set_revision revision state))) updated.

(** [record_semantic_failure]. *)
Definition record_semantic_failure (write_id : WriteId) (receipt_id : ReceiptId) (expected : RevisionId)
    (expected_source : option EventId) (source : option EventValue) (reason : string) : Op Receipt :=
  state ← lock_state;
  receipt ← or_refuse (ws_writes state !! receipt_id) "receipt does not exist";
  custody ← or_refuse (ws_edits state !! receipt_id) "semantic custody does not exist";
  _ ← try_ (require_current receipt write_id expected expected_source (cu_source custody));
  edit ← or_refuse (last (cu_edits custody)) "semantic edit sequence is empty";
  failed ← try_ (validate_source edit (cu_author custody) source);
  _ ← try_ (require_failure_source (cu_source custody) failed);
  let failure := attributed_failure expected (source_id failed) reason in
  if bool_decide (cu_failed_source custody = source_id failed) &&
     bool_decide (pub_revision_failure (rc_publication receipt) = Some failure)
  then mret receipt
  else
    let updated := update_publication (with_failure (Some failure)) receipt in
    revision ← try_ (next_revision state);
    commit_state
      (set_writes (<[receipt_id := updated]> (ws_writes state))
         (set_edits (<[receipt_id := mkCustody (cu_edits custody) (cu_author custody) (cu_source custody)
                                       (source_id failed)]> (ws_edits state))
            (set_revision revision state))) updated.

(** ** Reservations ([semantic_reservation.rs]) *)

Definition reserve_active (edit : EventEdit) (author : PublicKey) : Op N :=
  state ← lock_state;
  capacity ← get_capacity;
  let coordinate := edit_coordinate edit author in
  _ ← require (negb (existsb (λ reserved, bool_decide (reserved = coordinate))
                       (values (ws_reservations state))))
        "replaceable coordinate already has an active reservation";
  _ ← require (negb (match ws_coordinates state !! coordinate with
                     | Some receipt_id => bool_decide (is_Some (ws_successors state !! receipt_id))
                     | None => false
                     end))
        "replaceable coordinate already has a durable successor";
  _ ← require (bool_decide (is_Some (ws_coordinates state !! coordinate)) ||
               negb (capacity_reached state capacity)) (capacity_refused capacity);
  let reservation := ws_next_reservation state in
  next ← or_refuse (checked_succ reservation) "active reservation exhausted";
  _ ← put_state (set_reservations next (<[reservation := coordinate]> (ws_reservations state)) state);
  mret reservation.

Definition release_active (reservation : N) : Op unit :=
  state ← lock_state;
  coordinate ← or_refuse (ws_reservations state !! reservation) "active reservation is not current";
  let state := set_reservations (ws_next_reservation state)
                 (delete reservation (ws_reservations state)) state in
  _ ← put_state state;
  match ws_coordinates state !! coordinate ≫= λ receipt_id, ws_writes state !! receipt_id with
  | Some receipt => publish_receipt_only receipt
  | None => mret tt
  end.

(** ** Signing ([lifecycle.rs]) *)

(** [promote_authorized_successor]: the waiting successor becomes current. *)
Definition promote_authorized_successor (receipt_id : ReceiptId) : Op Receipt :=
  state ← lock_state;
  revision ← try_ (next_revision state);
  successor ← or_refuse (ws_successors state !! receipt_id) "durable semantic successor is missing";
  let state := set_successors (delete receipt_id (ws_successors state)) state in
  _ ← put_state state;
  receipt ← or_refuse (ws_writes state !! receipt_id) "coordinate owner is missing";
  custody ← or_refuse (ws_edits state !! receipt_id) "semantic custody is missing";
  revision_id ← try_ (next_revision_id receipt);
  let successor_destinations :=
    match su_edit successor with
    | None => gset_to_gmap Pending (rc_desired_destinations receipt ∪ dom (rc_destinations receipt))
    | Some _ => destinations (rc_routing receipt)
    end in
  let publication := mkPublication receipt_id (rc_write_id receipt) revision_id
    (source_id (su_source successor)) None (retire_revision receipt) SigUnsigned successor_destinations in
  current ← or_invalid_event (LocalWriteEvent_new (Unsigned (su_event successor)) publication);
  updated ← try_ (apply_initial_route (su_route successor)
    (open_receipt (rc_write_id receipt) (rc_receipt_id receipt) current (rc_routing receipt) (rc_access receipt)));
  let edits := cu_edits custody ++ match su_edit successor with Some edit => [edit] | None => [] end in
  commit_state
    (set_revision revision
       (set_writes (<[receipt_id := updated]> (ws_writes state))
          (set_edits (<[receipt_id := mkCustody edits (cu_author custody) (su_source successor) None]>
                        (ws_edits state)) state))) updated.

Definition install_signed (write_id : WriteId) (receipt_id : ReceiptId) (revision_id : RevisionId)
    (event_id : EventId) (event : Event) : Op Receipt :=
  _ ← match event_verify event with Some error => refuse error | None => mret tt end;
  state ← lock_state;
  receipt ← or_refuse (ws_writes state !! receipt_id) "receipt does not exist";
  _ ← try_ (validate_current_revision receipt write_id revision_id event_id);
  match lw_event (rc_current receipt) with
  | Signed current =>
      if bool_decide (current = event) then mret receipt
      else refuse "event is already signed differently"
  | Unsigned unsigned =>
      _ ← require (same_view unsigned event) "signature does not match current unsigned event";
      _ ← require (bool_decide (pub_signature (rc_publication receipt) = SigAuthorized) ||
                   bool_decide (pub_signature (rc_publication receipt) = SigSigned))
            "signature completion was not authorized";
      revision ← try_ (next_revision state);
      if bool_decide (is_Some (ws_successors state !! receipt_id))
      then promote_authorized_successor receipt_id
      else
        let current := with_current
          (mkLocal (lw_id (rc_current receipt)) (Signed event)
             (with_signature SigSigned (rc_publication receipt))) receipt in
        commit_state (set_revision revision
          (set_writes (<[receipt_id := current]> (ws_writes state)) state)) current
  end.

(** Commit one signature state of the current receipt. *)
Definition commit_signature (state : WriteState) (revision : N) (receipt_id : ReceiptId)
    (receipt : Receipt) (signature : SignatureState) : Op Receipt :=
  let current := update_publication (with_signature signature) receipt in
  commit_state (set_revision revision (set_writes (<[receipt_id := current]> (ws_writes state)) state)) current.

Definition record_signer_refusal (write_id : WriteId) (receipt_id : ReceiptId) (revision_id : RevisionId)
    (event_id : EventId) (reason : string) : Op Receipt :=
  _ ← try_ (validate_receipt_text reason);
  state ← lock_state;
  receipt ← or_refuse (ws_writes state !! receipt_id) "receipt does not exist";
  _ ← try_ (validate_current_revision receipt write_id revision_id event_id);
  let commit : Op Receipt :=
    revision ← try_ (next_revision state);
    if bool_decide (is_Some (ws_successors state !! receipt_id))
    then promote_authorized_successor receipt_id
    else commit_signature state revision receipt_id receipt (SigRefused reason) in
  match pub_signature (rc_publication receipt) with
  | SigRefused current =>
      if bool_decide (current = reason) then mret receipt else refuse "signer refusal is not current"
  | SigAuthorized => commit
  | SigUnsigned | SigRetryable _ => refuse "signer refusal was not authorized"
  | SigSigned => refuse "signer refusal is not current"
  end.

Definition deferred_signing (write_id : WriteId) (receipt_id : ReceiptId) (revision_id : RevisionId)
    (event_id : EventId) : string :=
  "signing authorization for write " +:+ pretty write_id +:+ " receipt " +:+ pretty receipt_id
  +:+ " revision " +:+ pretty revision_id +:+ " event " +:+ event_id_to_string event_id
  +:+ " deferred until its coordinate reservation resolves".

(** Whether a reservation stands on the coordinate this receipt's edits own. *)
Definition coordinate_reserved (state : WriteState) (receipt_id : ReceiptId) : bool :=
  match ws_edits state !! receipt_id with
  | None => false
  | Some custody =>
      match last (cu_edits custody) with
      | None => false
      | Some edit => existsb (λ value, bool_decide (value = edit_coordinate edit (cu_author custody)))
                       (values (ws_reservations state))
      end
  end.

Definition authorize_signing (write_id : WriteId) (receipt_id : ReceiptId) (revision_id : RevisionId)
    (event_id : EventId) : Op Receipt :=
  state ← lock_state;
  receipt ← or_refuse (ws_writes state !! receipt_id) "receipt does not exist";
  _ ← try_ (validate_current_revision receipt write_id revision_id event_id);
  _ ← require (negb (is_signed (lw_event (rc_current receipt)))) "event is already signed";
  let commit : Op Receipt :=
    let signature := if coordinate_reserved state receipt_id
                     then SigRetryable (deferred_signing write_id receipt_id revision_id event_id)
                     else SigAuthorized in
    if bool_decide (pub_signature (rc_publication receipt) = signature) then mret receipt
    else
      revision ← try_ (next_revision state);
      commit_signature state revision receipt_id receipt signature in
  match pub_signature (rc_publication receipt) with
  | SigAuthorized => mret receipt
  | SigUnsigned | SigRetryable _ => commit
  | SigSigned | SigRefused _ => refuse "signing authorization is not current"
  end.

Definition record_signer_retryable (write_id : WriteId) (receipt_id : ReceiptId) (revision_id : RevisionId)
    (event_id : EventId) (reason : string) : Op Receipt :=
  _ ← try_ (validate_receipt_text reason);
  state ← lock_state;
  receipt ← or_refuse (ws_writes state !! receipt_id) "receipt does not exist";
  _ ← try_ (validate_current_revision receipt write_id revision_id event_id);
  _ ← require (match pub_signature (rc_publication receipt) with
               | SigUnsigned | SigAuthorized | SigRetryable _ => true
               | SigSigned | SigRefused _ => false
               end) "retryable signer failure is not current";
  if bool_decide (pub_signature (rc_publication receipt) = SigAuthorized) &&
     bool_decide (is_Some (ws_successors state !! receipt_id))
  then promote_authorized_successor receipt_id
  else
    revision ← try_ (next_revision state);
    commit_signature state revision receipt_id receipt (SigRetryable reason).

Definition signing_successor (write_id : WriteId) (receipt_id : ReceiptId) (revision_id : RevisionId)
    (event_id : EventId) : Op bool :=
  state ← lock_state;
  receipt ← or_refuse (ws_writes state !! receipt_id) "receipt does not exist";
  _ ← try_ (validate_current_revision receipt write_id revision_id event_id);
  mret (bool_decide (is_Some (ws_successors state !! receipt_id))).

(** ** Routes and delivery ([lifecycle.rs]) *)

Definition apply_route (write_id : WriteId) (receipt_id : ReceiptId) (revision_id : RevisionId)
    (event_id : EventId) (plan : RoutePlan) : Op Receipt :=
  state ← lock_state;
  receipt ← or_refuse (ws_writes state !! receipt_id) "receipt does not exist";
  _ ← try_ (validate_current_revision receipt write_id revision_id event_id);
  updated ← try_ (apply_route_to_receipt receipt plan);
  if bool_decide (updated = receipt) then mret updated
  else
    revision ← try_ (next_revision state);
    let state := set_revision revision (set_writes (<[receipt_id := updated]> (ws_writes state)) state) in
    commit_state (if receipt_is_terminal updated then release_semantic receipt_id state else state) updated.

(** Set one destination's outcome. *)
Definition set_destination (session : RelayUrl) (outcome : RelayDeliveryOutcome) (r : Receipt) : Receipt :=
  update_publication (with_destinations (<[session := outcome]> (rc_destinations r))) r.

Definition begin_attempt (write_id : WriteId) (receipt_id : ReceiptId) (revision_id : RevisionId)
    (event_id : EventId) (session : RelayUrl) (attempt : N) : Op Receipt :=
  state ← lock_state;
  receipt ← or_refuse (ws_writes state !! receipt_id) "receipt does not exist";
  _ ← try_ (validate_current_revision receipt write_id revision_id event_id);
  let current_attempt := default 0%N (rc_attempts receipt !! session) in
  if bool_decide (current_attempt = attempt) &&
     bool_decide (rc_destinations receipt !! session = Some Attempting)
  then mret receipt
  else
    expected_attempt ← or_refuse (checked_succ32 current_attempt) "attempt count exhausted";
    _ ← require (bool_decide (attempt = expected_attempt)) "attempt is not current";
    outcome ← or_refuse (rc_destinations receipt !! session) "destination does not exist";
    _ ← require (match outcome with Pending | Retryable _ => true | _ => false end)
          "destination is not pending";
    revision ← try_ (next_revision state);
    let current := with_attempts (<[session := attempt]> (rc_attempts receipt))
                     (set_destination session Attempting receipt) in
    commit_state (set_revision revision
      (set_writes (<[receipt_id := current]> (ws_writes state)) state)) current.

Definition is_retryable (o : RelayDeliveryOutcome) : bool :=
  match o with Retryable _ => true | _ => false end.

(** [may_transition]. *)
Definition may_transition (current outcome : RelayDeliveryOutcome) : bool :=
  bool_decide (current = Attempting) ||
  (is_retryable current && match outcome with GivenUp _ => true | _ => false end).

Definition record_outcome (write_id : WriteId) (receipt_id : ReceiptId) (revision_id : RevisionId)
    (event_id : EventId) (session : RelayUrl) (attempt : N) (outcome : RelayDeliveryOutcome) : Op Receipt :=
  _ ← try_ (validate_delivery_outcome outcome);
  _ ← require (outcome_is_terminal outcome || is_retryable outcome)
        "recorded delivery outcome is not terminal or retryable";
  state ← lock_state;
  receipt ← or_refuse (ws_writes state !! receipt_id) "receipt does not exist";
  _ ← try_ (validate_current_revision receipt write_id revision_id event_id);
  _ ← require (bool_decide (rc_attempts receipt !! session = Some attempt)) "attempt is not current";
  current ← or_refuse (rc_destinations receipt !! session) "destination does not exist";
  if bool_decide (current = outcome) then mret receipt
  else
    _ ← require (may_transition current outcome) "attempt is not current";
    revision ← try_ (next_revision state);
    let updated := settle (set_destination session outcome receipt) in
    let state := set_revision revision (set_writes (<[receipt_id := updated]> (ws_writes state)) state) in
    commit_state (if receipt_is_terminal updated then release_semantic receipt_id state else state) updated.

(** ** Cancellation, removal and reads ([lib.rs], [recovery.rs]) *)

Definition cancellable (o : RelayDeliveryOutcome) : bool :=
  match o with Pending | Retryable _ => true | _ => false end.

Definition cancel (receipt_id : ReceiptId) : Op (option Receipt) :=
  state ← lock_state;
  revision ← try_ (next_revision state);
  match ws_writes state !! receipt_id with
  | None => mret None
  | Some receipt =>
      if is_cancelled receipt then mret (Some receipt)
      else
        _ ← require (negb (receipt_is_terminal receipt ||
                           existsb (λ o, negb (cancellable o)) (values (rc_destinations receipt))))
              "receipt can no longer be cancelled before handoff";
        let current := with_outcome Cancelled
          (update_publication
             (with_destinations ((λ _, CancelledBeforeHandoff) <$> rc_destinations receipt)) receipt) in
        let state := set_revision revision (set_writes (<[receipt_id := current]> (ws_writes state)) state) in
        _ ← commit_state (release_semantic receipt_id state) current;
        mret (Some current)
  end.

Definition remove_receipt (receipt_id : ReceiptId) : Op bool :=
  state ← lock_state;
  match ws_writes state !! receipt_id with
  | None => mret false
  | Some receipt =>
      _ ← require (receipt_is_terminal receipt) "active receipt cannot be removed";
      revision ← try_ (next_revision state);
      let state := release_semantic receipt_id state in
      let state := set_revision revision (set_writes (delete receipt_id (ws_writes state)) state) in
      _ ← put_state state;
      _ ← publish_snapshot state;
      _ ← publish_change receipt_id None;
      mret true
  end.

Definition receipt (receipt_id : ReceiptId) (st : WriteState) : option Receipt :=
  ws_writes st !! receipt_id.

Definition recover_open (st : WriteState) : list Receipt :=
  List.filter (λ r, negb (receipt_is_terminal r)) (values (ws_writes st)).

Definition store_len (st : WriteState) : nat :=
  length (List.filter (λ r, negb (is_cancelled r)) (values (ws_writes st))).

(** [recover_semantic]: live custody in receipt order. *)
Definition recover_applied_edits (st : WriteState) : list (Receipt * Custody) :=
  omap (λ '(id, custody),
          match ws_writes st !! id with
          | Some receipt => if receipt_is_terminal receipt then None else Some (receipt, custody)
          | None => None
          end) (entries (ws_edits st)).

(** [semantic_custody]. *)
Definition applied_edits (receipt_id : ReceiptId) (expected : RevisionId) (st : WriteState)
    : result WriteStoreError (option Custody) :=
  match ws_writes st !! receipt_id with
  | None => Ok None
  | Some receipt =>
      _ ← ensure (bool_decide (pub_revision_id (rc_publication receipt) = expected))
            (StoreRefused "semantic custody generation is not current");
      Ok (ws_edits st !! receipt_id)
  end.

End store.

(** ** Reasoning about operations: weakest preconditions *)

Definition wp {A} (m : Op A) (Q : result WriteStoreError A → MemoryWriteStore → Prop)
    (s : MemoryWriteStore) : Prop := Q (m s).1 (m s).2.

(** The store after committing a ledger and one receipt. *)
Definition committed (s : MemoryWriteStore) (st : WriteState) (r : Receipt) : MemoryWriteStore :=
  mkStore (ms_capacity s) st (store_snapshot st) (ms_changes s ++ [(rc_receipt_id r, Some r)]).
Definition assigned (s : MemoryWriteStore) (st : WriteState) : MemoryWriteStore :=
  mkStore (ms_capacity s) st (ms_latest s) (ms_changes s).
Definition notified (s : MemoryWriteStore) (id : ReceiptId) (r : option Receipt) : MemoryWriteStore :=
  mkStore (ms_capacity s) (ms_state s) (ms_latest s) (ms_changes s ++ [(id, r)]).

Section wp_rules.
Context {A B : Type} (Q : result WriteStoreError B → MemoryWriteStore → Prop).
Implicit Types (s : MemoryWriteStore) (f : A → Op B).

Lemma wp_try (r : result WriteStoreError A) f s :
  (∀ a, r = Ok a → wp (f a) Q s) → (∀ e, r = Err e → Q (Err e) s) → wp (try_ r ≫= f) Q s.
Proof. intros H1 H2. destruct r; [exact (H1 _ eq_refl)|exact (H2 _ eq_refl)]. Qed.

Lemma wp_or_refuse (o : option A) reason f s :
  (∀ a, o = Some a → wp (f a) Q s) → (o = None → Q (Err (StoreRefused reason)) s) →
  wp (or_refuse o reason ≫= f) Q s.
Proof. intros H1 H2. destruct o; [exact (H1 _ eq_refl)|exact (H2 eq_refl)]. Qed.

Lemma wp_or_invalid (r : result InvalidEventValue A) f s :
  (∀ a, r = Ok a → wp (f a) Q s) → (∀ e, r = Err e → Q (Err (StoreInvalidEvent e)) s) →
  wp (or_invalid_event r ≫= f) Q s.
Proof. intros H1 H2. destruct r; [exact (H1 _ eq_refl)|exact (H2 _ eq_refl)]. Qed.

Lemma wp_require b reason (f : unit → Op B) s :
  (b = true → wp (f tt) Q s) → (b = false → Q (Err (StoreRefused reason)) s) →
  wp (require b reason ≫= f) Q s.
Proof. intros H1 H2. destruct b; [exact (H1 eq_refl)|exact (H2 eq_refl)]. Qed.

Lemma wp_lock (f : WriteState → Op B) s : wp (f (ms_state s)) Q s → wp (lock_state ≫= f) Q s.
Proof. done. Qed.
Lemma wp_capacity (f : nat → Op B) s : wp (f (ms_capacity s)) Q s → wp (get_capacity ≫= f) Q s.
Proof. done. Qed.
Lemma wp_put st (f : unit → Op B) s : wp (f tt) Q (assigned s st) → wp (put_state st ≫= f) Q s.
Proof. done. Qed.
Lemma wp_notify r (f : unit → Op B) s :
  wp (f tt) Q (notified s (rc_receipt_id r) (Some r)) → wp (publish_receipt_only r ≫= f) Q s.
Proof. done. Qed.
Lemma wp_commit st r (f : Receipt → Op B) s : wp (f r) Q (committed s st r) → wp (commit_state st r ≫= f) Q s.
Proof. done. Qed.
Lemma wp_bind_ret (a : A) f s : wp (f a) Q s → wp (mret a ≫= f) Q s.
Proof. done. Qed.
Lemma wp_bind_refuse reason f s : Q (Err (StoreRefused reason)) s → wp (refuse reason ≫= f) Q s.
Proof. done. Qed.
Lemma wp_ret (b : B) s : Q (Ok b) s → wp (mret b) Q s.
Proof. done. Qed.
Lemma wp_refuse reason s : Q (Err (StoreRefused reason)) s → wp (refuse reason) Q s.
Proof. done. Qed.
End wp_rules.

Lemma wp_commit_end Q st r s : Q (Ok r) (committed s st r) → wp (commit_state st r) Q s.
Proof. done. Qed.

Lemma wp_mono {A} (m : Op A) (Q Q' : result WriteStoreError A → MemoryWriteStore → Prop) s :
  wp m Q s → (∀ r s', Q r s' → Q' r s') → wp m Q' s.
Proof. unfold wp. auto. Qed.

(** One step of symbolic execution; refusals close with [tac]. *)
Ltac op_step tac :=
  lazymatch goal with
  | |- wp (mbind _ (lock_state)) _ _ => apply wp_lock
  | |- wp (mbind _ (get_capacity)) _ _ => apply wp_capacity
  | |- wp (mbind _ (put_state _)) _ _ => apply wp_put
  | |- wp (mbind _ (publish_receipt_only _)) _ _ => apply wp_notify
  | |- wp (mbind _ (commit_state _ _)) _ _ => apply wp_commit
  | |- wp (mbind _ (mret _)) _ _ => apply wp_bind_ret
  | |- wp (mbind _ (refuse _)) _ _ => apply wp_bind_refuse; tac
  | |- wp (mbind _ (require _ _)) _ _ => apply wp_require; [intros|intros; tac]
  | |- wp (mbind _ (or_refuse _ _)) _ _ => apply wp_or_refuse; [intros|intros; tac]
  | |- wp (mbind _ (or_invalid_event _)) _ _ => apply wp_or_invalid; [intros|intros; tac]
  | |- wp (mbind _ (try_ _)) _ _ => apply wp_try; [intros|intros; tac]
  | |- wp (mret _) _ _ => apply wp_ret
  | |- wp (refuse _) _ _ => apply wp_refuse; tac
  | |- wp (commit_state _ _) _ _ => apply wp_commit_end
  end; cbv beta.
