(* ===== verification/StoreInvariant.v ===== *)
(** * The write store's invariant and its transitions

    Every operation of [MemoryStore] is shown to make one of eight ledger
    transitions, or to refuse.  The ledger invariant ([store_ok]: identities,
    revision history, custody and its coordinates, waiting successors) is then
    preserved by induction on the transition, and the properties of the store
    follow: atomic refusals, coherence of everything reachable, delivery facts
    that are never overwritten, and the signing gate. *)

From S2P Require Import Prelude Nostr Relay State Write Query Routing Receipts MemoryStore.

Section invariant.
Context `{Nostr}.

(** ** The ledger invariant *)

Record receipt_ok (id next : N) (r : Receipt) : Prop := {
  ro_receipt_id : rc_receipt_id r = id;
  ro_write_id : rc_write_id r = id;
  ro_publication : pub_receipt_id (rc_publication r) = id ∧ pub_write_id (rc_publication r) = id;
  ro_issued : (id < next)%N;
  ro_event_id : value_id (lw_event (rc_current r)) = Some (lw_id (rc_current r));
  ro_signed : is_signed (lw_event (rc_current r)) = bool_decide (pub_signature (rc_publication r) = SigSigned);
  ro_revision : pub_revision_id (rc_publication r) =
                (1 + N.of_nat (length (pub_retired_revisions (rc_publication r))))%N;
  ro_retired : length (pub_retired_revisions (rc_publication r)) ≤ destination_evidence_capacity
}.

(** The coordinate a custody record owns. *)
Definition owns (cu : Custody) (c : EventCoordinate) : Prop :=
  ∃ edit, last (cu_edits cu) = Some edit ∧ c = edit_coordinate edit (cu_author cu).

(** A plan every unrouted automatic receipt accepts. *)
Definition route_fits (plan : RoutePlan) : Prop :=
  (0 < rp_revision plan)%N ∧ size (rp_destinations plan) ≤ destination_evidence_capacity ∧
  length (route_shortfalls plan) ≤ destination_evidence_capacity ∧
  ∀ s, s ∈ route_shortfalls plan → String.length s ≤ MAX_RECEIPT_TEXT_BYTES.

(** A successor that can be promoted onto its receipt. *)
Record promotable (r : Receipt) (cu : Custody) (su : Successor) : Prop := {
  pm_authorized : pub_signature (rc_publication r) = SigAuthorized;
  pm_retired : length (pub_retired_revisions (rc_publication r)) < destination_evidence_capacity;
  pm_event : is_Some (un_id (su_event su));
  pm_route : ∀ plan, su_route su = Some plan → rc_routing r = Automatic ∧ route_fits plan;
  pm_edit : ∀ edit c, su_edit su = Some edit → owns cu c → c = edit_coordinate edit (cu_author cu)
}.

Record store_ok (st : WriteState) : Prop := {
  so_writes : ∀ id r, ws_writes st !! id = Some r → receipt_ok id (ws_next_identity st) r;
  so_custody : ∀ id cu, ws_edits st !! id = Some cu →
    is_Some (ws_writes st !! id) ∧ ∃ c, owns cu c ∧ ws_coordinates st !! c = Some id;
  so_coordinates : ∀ c id, ws_coordinates st !! c = Some id → ∃ cu, ws_edits st !! id = Some cu ∧ owns cu c;
  so_successors : ∀ id su, ws_successors st !! id = Some su →
    ∃ r cu, ws_writes st !! id = Some r ∧ ws_edits st !! id = Some cu ∧ promotable r cu su;
  so_reservations : ∀ n c, ws_reservations st !! n = Some c → (n < ws_next_reservation st)%N
}.

Lemma owns_fun cu c1 c2 : owns cu c1 → owns cu c2 → c1 = c2.
Proof. intros (e1 & H1 & ->) (e2 & H2 & ->). congruence. Qed.

(** ** Transitions *)

(** One receipt changes in place, within its revision. *)
Record receipt_step (r r' : Receipt) : Prop := {
  rs_ids : rc_receipt_id r' = rc_receipt_id r ∧ rc_write_id r' = rc_write_id r;
  rs_pub_ids : pub_receipt_id (rc_publication r') = pub_receipt_id (rc_publication r) ∧
               pub_write_id (rc_publication r') = pub_write_id (rc_publication r);
  rs_lw_id : lw_id (rc_current r') = lw_id (rc_current r);
  rs_routing : rc_routing r' = rc_routing r;
  rs_revision : pub_revision_id (rc_publication r') = pub_revision_id (rc_publication r);
  rs_retired : pub_retired_revisions (rc_publication r') = pub_retired_revisions (rc_publication r);
  rs_event : (lw_event (rc_current r') = lw_event (rc_current r) ∧
              (pub_signature (rc_publication r') = SigSigned ↔ pub_signature (rc_publication r) = SigSigned)) ∨
             (∃ u e, lw_event (rc_current r) = Unsigned u ∧ lw_event (rc_current r') = Signed e ∧
                event_verify e = None ∧ same_view u e = true ∧
                (pub_signature (rc_publication r) = SigAuthorized ∨ pub_signature (rc_publication r) = SigSigned) ∧
                pub_signature (rc_publication r') = SigSigned);
  rs_facts : ∀ s o, rc_destinations r !! s = Some o → outcome_is_terminal o = true →
               rc_destinations r' !! s = Some o
}.

(** A new revision replaces the receipt's current one, which becomes history. *)
Record receipt_revision (id : ReceiptId) (r r' : Receipt) : Prop := {
  rr_ids : rc_receipt_id r' = rc_receipt_id r ∧ rc_write_id r' = rc_write_id r;
  rr_pub_ids : pub_receipt_id (rc_publication r') = id ∧ pub_write_id (rc_publication r') = rc_write_id r;
  rr_event : ∃ u, lw_event (rc_current r') = Unsigned u ∧ un_id u = Some (lw_id (rc_current r'));
  rr_signature : pub_signature (rc_publication r') = SigUnsigned;
  rr_revision : pub_revision_id (rc_publication r') = (pub_revision_id (rc_publication r) + 1)%N;
  rr_retired : pub_retired_revisions (rc_publication r') = retire_revision r;
  rr_room : length (pub_retired_revisions (rc_publication r)) < destination_evidence_capacity
}.

Definition released (release : bool) (id : ReceiptId) (st : WriteState) : WriteState :=
  if release then release_semantic id st else st.

Inductive transition (st : WriteState) : WriteState → Prop :=
| tr_same : transition st st
| tr_reserve c next :
    (ws_next_reservation st < next)%N →
    transition st (set_reservations next (<[ws_next_reservation st := c]> (ws_reservations st)) st)
| tr_unreserve n :
    transition st (set_reservations (ws_next_reservation st) (delete n (ws_reservations st)) st)
| tr_successor id r cu su :
    ws_writes st !! id = Some r → ws_edits st !! id = Some cu → promotable r cu su →
    transition st (set_successors (<[id := su]> (ws_successors st)) st)
| tr_update id r r' revision release :
    ws_writes st !! id = Some r → receipt_step r r' →
    (pub_signature (rc_publication r') = pub_signature (rc_publication r) ∨ ws_successors st !! id = None) →
    transition st (released release id (set_revision revision (set_writes (<[id := r']> (ws_writes st)) st)))
| tr_failure id r r' cu cu' revision :
    ws_writes st !! id = Some r → ws_edits st !! id = Some cu → receipt_step r r' →
    pub_signature (rc_publication r') = pub_signature (rc_publication r) →
    cu_edits cu' = cu_edits cu → cu_author cu' = cu_author cu →
    transition st (set_writes (<[id := r']> (ws_writes st))
                     (set_edits (<[id := cu']> (ws_edits st)) (set_revision revision st)))
| tr_accept r next revision custody :
    receipt_ok (ws_next_identity st) next r → (ws_next_identity st < next)%N →
    (∀ c cu, custody = Some (c, cu) → owns cu c ∧ ws_coordinates st !! c = None) →
    transition st
      (mkWriteState revision next (ws_next_reservation st) (ws_reservations st)
         (<[ws_next_identity st := r]> (ws_writes st))
         (match custody with Some (c, _) => <[c := ws_next_identity st]> (ws_coordinates st)
                           | None => ws_coordinates st end)
         (ws_successors st)
         (match custody with Some (_, cu) => <[ws_next_identity st := cu]> (ws_edits st)
                           | None => ws_edits st end))
| tr_revise id r r' c cu custody revision :
    ws_writes st !! id = Some r → ws_edits st !! id = Some cu → owns cu c → receipt_revision id r r' →
    (∀ cu', custody = Some cu' → owns cu' c) →
    transition st
      (mkWriteState revision (ws_next_identity st) (ws_next_reservation st) (ws_reservations st)
         (<[id := r']> (ws_writes st))
         (match custody with Some _ => ws_coordinates st | None => delete c (ws_coordinates st) end)
         (delete id (ws_successors st))
         (match custody with Some cu' => <[id := cu']> (ws_edits st) | None => delete id (ws_edits st) end))
| tr_remove id r revision :
    ws_writes st !! id = Some r → receipt_is_terminal r = true →
    transition st (set_revision revision
      (set_writes (delete id (ws_writes st)) (release_semantic id st))).

(** ** Preservation *)

Lemma receipt_step_ok id next r r' : receipt_ok id next r → receipt_step r r' → receipt_ok id next r'.
Proof.
  intros [H1 H2 [H3 H3'] H4 H5 H6 H7 H8] [[S1 S1'] [S2 S2'] S3 S4 S5 S6 S7 S8].
  split; try congruence; [split; congruence|..].
  - destruct S7 as [[-> _]|(u & e & Hu & -> & _ & Hv & _)]; [congruence|].
    rewrite Hu in H5. simpl in *. apply bool_decide_eq_true in Hv. injection Hv as Hv _. congruence.
  - destruct S7 as [[-> Hs]|(u & e & Hu & -> & _ & _ & _ & ->)]; [|done].
    rewrite H6. by apply bool_decide_ext.
Qed.

Lemma receipt_revision_ok id next r r' :
  receipt_ok id next r → receipt_revision id r r' → receipt_ok id next r'.
Proof.
  intros [H1 H2 [H3 H3'] H4 H5 H6 H7 H8] [[R1 R1'] [R2 R2'] (u & Ru & Ri) R4 R5 R6 R7].
  split; try congruence; [split; congruence|..].
  - by rewrite Ru.
  - by rewrite Ru, R4.
  - rewrite R5, R6, H7. unfold retire_revision. rewrite length_app. simpl. lia.
  - rewrite R6. unfold retire_revision. rewrite length_app. simpl. lia.
Qed.

Lemma promotable_step r r' cu cu' su :
  receipt_step r r' → pub_signature (rc_publication r') = pub_signature (rc_publication r) →
  cu_edits cu' = cu_edits cu → cu_author cu' = cu_author cu →
  promotable r cu su → promotable r' cu' su.
Proof.
  intros [_ _ _ S4 _ S6 _ _] Hs He Ha [P1 P2 P3 P4 P5]. split; try congruence.
  - intros plan. rewrite S4. auto.
  - intros edit c Hed (e & Hl & ->). rewrite He in Hl. rewrite Ha. apply P5; [done|]. by exists e.
Qed.

Lemma owns_same cu cu' c :
  cu_edits cu' = cu_edits cu → cu_author cu' = cu_author cu → owns cu c → owns cu' c.
Proof. intros He Ha (e & Hl & ->). exists e. by rewrite He, Ha. Qed.

Lemma release_semantic_spec id st :
  release_semantic id st =
  mkWriteState (ws_revision st) (ws_next_identity st) (ws_next_reservation st) (ws_reservations st)
    (ws_writes st)
    (match ws_edits st !! id with
     | Some cu => match last (cu_edits cu) with
                  | Some edit => delete (edit_coordinate edit (cu_author cu)) (ws_coordinates st)
                  | None => ws_coordinates st
                  end
     | None => ws_coordinates st
     end) (delete id (ws_successors st)) (delete id (ws_edits st)).
Proof.
  unfold release_semantic. simpl. destruct (ws_edits st !! id) as [cu|] eqn:E; simpl.
  - by destruct (last (cu_edits cu)).
  - unfold set_successors. by rewrite (delete_id (ws_edits st)).
Qed.

(** Releasing a receipt's custody keeps the ledger coherent. *)
Lemma release_ok id st : store_ok st → store_ok (release_semantic id st).
Proof.
  intros Hok. rewrite release_semantic_spec. destruct Hok as [Hw Hcu Hco Hsu Hre].
  destruct (ws_edits st !! id) as [cu0|] eqn:E.
  - destruct (Hcu id cu0 E) as (_ & c0 & (edit0 & Hl0 & ->) & Hc0). rewrite Hl0.
    split; simpl; [done|..|done].
    + intros i cu [Hne Hi]%lookup_delete_Some. destruct (Hcu i cu Hi) as (? & c & Hown & Hc).
      split; [done|]. exists c. split; [done|]. rewrite lookup_delete_ne; [done|]. intros <-. congruence.
    + intros c i [Hne Hc]%lookup_delete_Some. destruct (Hco c i Hc) as (cu & Hi & Hown).
      exists cu. split; [|done]. rewrite lookup_delete_ne; [done|]. intros <-.
      rewrite E in Hi. injection Hi as <-. apply Hne. eapply owns_fun; [|exact Hown]. by exists edit0.
    + intros i su [Hne Hi]%lookup_delete_Some. destruct (Hsu i su Hi) as (r & cu & ? & ? & ?).
      exists r, cu. by rewrite lookup_delete_ne.
  - split; simpl; rewrite ?(delete_id (ws_edits st)) by done; try done.
    intros i su [Hne Hi]%lookup_delete_Some. eauto.
Qed.
Lemma update_ok id r r' revision st :
  store_ok st → ws_writes st !! id = Some r → receipt_step r r' →
  (pub_signature (rc_publication r') = pub_signature (rc_publication r) ∨ ws_successors st !! id = None) →
  store_ok (set_revision revision (set_writes (<[id := r']> (ws_writes st)) st)).
Proof.
  intros [Hw Hcu Hco Hsu Hre] Hr Hstep Hsig. split; simpl; [..|done].
  - intros i x [[<- <-]|[_ Hi]]%lookup_insert_Some; [|by apply Hw].
    eapply receipt_step_ok; [by apply Hw|done].
  - intros i cu Hi. destruct (Hcu i cu Hi) as [? Hc]. split; [|done].
    destruct (decide (i = id)) as [->|]; [by rewrite lookup_insert_eq|by rewrite lookup_insert_ne].
  - done.
  - intros i su Hi. destruct (Hsu i su Hi) as (x & cu & Hx & Hcx & Hp).
    destruct (decide (i = id)) as [->|]; [|exists x, cu; by rewrite lookup_insert_ne].
    exists r', cu. rewrite lookup_insert_eq. split_and!; [done|done|].
    destruct Hsig as [Hsig|Hnone]; [|congruence]. rewrite Hr in Hx. injection Hx as <-.
    by apply (promotable_step r r' cu cu).
Qed.

Lemma failure_ok id r r' cu cu' revision st :
  store_ok st → ws_writes st !! id = Some r → ws_edits st !! id = Some cu → receipt_step r r' →
  pub_signature (rc_publication r') = pub_signature (rc_publication r) →
  cu_edits cu' = cu_edits cu → cu_author cu' = cu_author cu →
  store_ok (set_writes (<[id := r']> (ws_writes st))
              (set_edits (<[id := cu']> (ws_edits st)) (set_revision revision st))).
Proof.
  intros [Hw Hcu Hco Hsu Hre] Hr Hc Hstep Hsig He Ha. split; simpl; [..|done].
  - intros i x [[<- <-]|[_ Hi]]%lookup_insert_Some; [|by apply Hw].
    eapply receipt_step_ok; [by apply Hw|done].
  - intros i x [[<- <-]|[Hne Hi]]%lookup_insert_Some.
    + rewrite lookup_insert_eq. split; [done|]. destruct (Hcu id cu Hc) as (_ & c & Hown & Hcc).
      exists c. split; [by apply (owns_same cu)|done].
    + rewrite lookup_insert_ne by done. by apply Hcu.
  - intros c i Hi. destruct (Hco c i Hi) as (x & Hx & Hown).
    destruct (decide (i = id)) as [->|]; [|exists x; by rewrite lookup_insert_ne].
    exists cu'. rewrite lookup_insert_eq. split; [done|]. apply (owns_same cu); congruence.
  - intros i su Hi. destruct (Hsu i su Hi) as (x & y & Hx & Hy & Hp).
    destruct (decide (i = id)) as [->|]; [|exists x, y; by rewrite !lookup_insert_ne].
    exists r', cu'. rewrite !lookup_insert_eq. split_and!; [done|done|].
    apply (promotable_step r r' cu cu'); congruence.
Qed.

Lemma accept_ok_store st r next revision custody :
  store_ok st → receipt_ok (ws_next_identity st) next r → (ws_next_identity st < next)%N →
  (∀ c cu, custody = Some (c, cu) → owns cu c ∧ ws_coordinates st !! c = None) →
  store_ok (mkWriteState revision next (ws_next_reservation st) (ws_reservations st)
         (<[ws_next_identity st := r]> (ws_writes st))
         (match custody with Some (c, _) => <[c := ws_next_identity st]> (ws_coordinates st)
                           | None => ws_coordinates st end)
         (ws_successors st)
         (match custody with Some (_, cu) => <[ws_next_identity st := cu]> (ws_edits st)
                           | None => ws_edits st end)).
Proof.
  intros [Hw Hcu Hco Hsu Hre] Hr Hnext Hcust.
  assert (Hfresh : ws_writes st !! ws_next_identity st = None).
  { destruct (ws_writes st !! ws_next_identity st) as [x|] eqn:E; [|done].
    pose proof (ro_issued _ _ _ (Hw _ _ E)). lia. }
  assert (Hfe : ws_edits st !! ws_next_identity st = None).
  { destruct (ws_edits st !! ws_next_identity st) as [x|] eqn:E; [|done].
    destruct (Hcu _ _ E) as [[? ?] _]. congruence. }
  split; simpl; [..|done].
  - intros i x [[<- <-]|[_ Hi]]%lookup_insert_Some; [done|].
    destruct (Hw i x Hi). split; try done. lia.
  - intros i cu Hi. destruct custody as [[c0 cu0]|].
    + destruct (Hcust _ _ eq_refl) as [Hown Hnone].
      apply lookup_insert_Some in Hi as [[<- <-]|[Hne Hi]].
      { rewrite lookup_insert_eq. split; [done|]. exists c0. by rewrite lookup_insert_eq. }
      destruct (Hcu i cu Hi) as (? & c & Hc & Hci). rewrite lookup_insert_ne by done. split; [done|].
      exists c. split; [done|]. rewrite lookup_insert_ne; [done|]. intros <-. congruence.
    + destruct (Hcu i cu Hi) as (? & Hc). split; [|done]. rewrite lookup_insert_ne; [done|]. congruence.
  - intros c i Hi. destruct custody as [[c0 cu0]|]; [|by apply Hco].
    destruct (Hcust _ _ eq_refl) as [Hown Hnone].
    apply lookup_insert_Some in Hi as [[<- <-]|[Hne Hi]].
    + exists cu0. by rewrite lookup_insert_eq.
    + destruct (Hco c i Hi) as (cu & Hi' & ?). exists cu. rewrite lookup_insert_ne; [done|]. congruence.
  - intros i su Hi. destruct (Hsu i su Hi) as (x & cu & Hx & Hcx & ?). exists x, cu.
    rewrite lookup_insert_ne by congruence. split; [done|]. split; [|done].
    destruct custody as [[c0 cu0]|]; [|done]. rewrite lookup_insert_ne; [done|]. congruence.
Qed.

Lemma revise_ok id r r' c cu custody revision st :
  store_ok st → ws_writes st !! id = Some r → ws_edits st !! id = Some cu → owns cu c →
  receipt_revision id r r' → (∀ cu', custody = Some cu' → owns cu' c) →
  store_ok (mkWriteState revision (ws_next_identity st) (ws_next_reservation st) (ws_reservations st)
         (<[id := r']> (ws_writes st))
         (match custody with Some _ => ws_coordinates st | None => delete c (ws_coordinates st) end)
         (delete id (ws_successors st))
         (match custody with Some cu' => <[id := cu']> (ws_edits st) | None => delete id (ws_edits st) end)).
Proof.
  intros [Hw Hcu Hco Hsu Hre] Hr Hc Hown Hrev Hcust.
  assert (Hcid : ws_coordinates st !! c = Some id).
  { destruct (Hcu id cu Hc) as (_ & c1 & Ho1 & ?). by rewrite (owns_fun _ _ _ Hown Ho1). }
  split; simpl; [..|done].
  - intros i x [[<- <-]|[_ Hi]]%lookup_insert_Some; [|by apply Hw].
    eapply receipt_revision_ok; [by apply Hw|done].
  - intros i x Hi. assert (Hdom : ∀ j, is_Some (ws_writes st !! j) → is_Some (<[id:=r']> (ws_writes st) !! j)).
    { intros j Hj. destruct (decide (j = id)) as [->|]; [by rewrite lookup_insert_eq|by rewrite lookup_insert_ne]. }
    destruct custody as [cu'|].
    + apply lookup_insert_Some in Hi as [[<- <-]|[Hne Hi]].
      * rewrite lookup_insert_eq. split; [done|]. exists c. split; [by apply Hcust|done].
      * destruct (Hcu i x Hi). auto.
    + apply lookup_delete_Some in Hi as [Hne Hi]. destruct (Hcu i x Hi) as (? & c1 & ? & ?).
      split; [auto|]. exists c1. split; [done|]. rewrite lookup_delete_ne; [done|]. intros <-. congruence.
  - intros c1 i Hi. destruct custody as [cu'|].
    + destruct (Hco c1 i Hi) as (x & Hx & Ho). destruct (decide (i = id)) as [->|].
      * exists cu'. rewrite lookup_insert_eq. split; [done|]. rewrite Hc in Hx. injection Hx as <-.
        rewrite <- (owns_fun _ _ _ Hown Ho). by apply Hcust.
      * exists x. by rewrite lookup_insert_ne.
    + apply lookup_delete_Some in Hi as [Hne Hi]. destruct (Hco c1 i Hi) as (x & Hx & Ho). exists x.
      rewrite lookup_delete_ne; [done|]. intros <-. rewrite Hc in Hx. injection Hx as <-.
      apply Hne. by apply (owns_fun cu).
  - intros i su [Hne Hi]%lookup_delete_Some. destruct (Hsu i su Hi) as (x & y & Hx & Hy & Hp).
    exists x, y. rewrite lookup_insert_ne by done. split; [done|]. split; [|done].
    destruct custody; [by rewrite lookup_insert_ne|by rewrite lookup_delete_ne].
Qed.

Lemma transition_ok st st' : store_ok st → transition st st' → store_ok st'.
Proof.
  intros Hok Htr. destruct Htr as [|c next Hlt|n|id r cu su Hr Hc Hp|id r r' revision release Hr Hs Hsig
    |id r r' cu cu' revision Hr Hc Hs Hsig He Ha|r next revision custody Hr Hn Hcu
    |id r r' c cu custody revision Hr Hc Hown Hrev Hcust|id r revision Hr Hterm].
  - done.
  - destruct Hok as [Hw Hcu Hco Hsu Hre]. split; simpl; try done.
    intros n c0 [[<- <-]|[_ Hi]]%lookup_insert_Some; [done|]. apply Hre in Hi. lia.
  - destruct Hok as [Hw Hcu Hco Hsu Hre]. split; simpl; try done.
    intros m c0 [_ Hi]%lookup_delete_Some. by eapply Hre.
  - destruct Hok as [Hw Hcu Hco Hsu Hre]. split; simpl; try done.
    intros i x [[<- <-]|[_ Hi]]%lookup_insert_Some; [eauto|by apply Hsu].
  - assert (store_ok (set_revision revision (set_writes (<[id:=r']> (ws_writes st)) st)))
      by (by eapply update_ok). destruct release; simpl; [by apply release_ok|done].
  - by eapply failure_ok.
  - by apply accept_ok_store.
  - by eapply revise_ok.
  - pose proof (release_ok id st Hok) as [Hw Hcu Hco Hsu Hre].
    rewrite release_semantic_spec in *. simpl in *. split; simpl; try done.
    + intros i x [_ Hi]%lookup_delete_Some. by apply Hw.
    + intros i x Hi. pose proof Hi as [Hne _]%lookup_delete_Some. destruct (Hcu i x Hi) as [? ?].
      split; [|done]. by rewrite lookup_delete_ne.
    + intros i su Hi. pose proof Hi as [Hne _]%lookup_delete_Some.
      destruct (Hsu i su Hi) as (x & y & ? & ? & ?). exists x, y. by rewrite lookup_delete_ne.
Qed.

(** ** Receipts the operations build *)

(** What applying a route leaves alone. *)
Lemma apply_route_fixed r plan r' :
  apply_route_to_receipt r plan = Ok r' →
  rc_write_id r' = rc_write_id r ∧ rc_receipt_id r' = rc_receipt_id r ∧ rc_routing r' = rc_routing r ∧
  lw_id (rc_current r') = lw_id (rc_current r) ∧ lw_event (rc_current r') = lw_event (rc_current r) ∧
  rc_publication r' = with_destinations (rc_destinations r') (rc_publication r) ∧
  (∀ s o, rc_destinations r !! s = Some o → handed_off o = true → rc_destinations r' !! s = Some o).
Proof.
  unfold apply_route_to_receipt. destruct (rc_routing r) eqn:Hrt; [|done].
  case_bool_decide; [done|]. case_bool_decide.
  - case_bool_decide; [done|]. destruct (persisted_route_effect_matches r plan); [|done].
    intros [= <-]. split_and!; try done. { unfold rc_destinations. by destruct (rc_publication r). }
  - intros Hn. destruct (newer_route_fields _ _ _ Hn) as (? & ? & Hr & _ & ? & ? & ? & _).
    split_and!; try done; [congruence|]. intros s o Hs Ho.
    rewrite (newer_route_destinations _ _ _ s Hn). by apply routed_state_handed_off.
Qed.

Lemma apply_route_fits r plan r' :
  apply_route_to_receipt r plan = Ok r' → rc_routing r = Automatic ∧ route_fits plan.
Proof.
  unfold apply_route_to_receipt. destruct (rc_routing r); [|done]. unfold route_fits.
  case_bool_decide; [done|]. case_bool_decide.
  - case_bool_decide; [done|]. unfold persisted_route_effect_matches.
    destruct (apply_newer_route_to_receipt _ plan) as [c|] eqn:E; [|done].
    apply newer_route_Ok in E as (? & ? & ? & _). intros _. split_and!; try done. lia.
  - intros (? & ? & ? & _)%newer_route_Ok. split_and!; try done. lia.
Qed.

Lemma initial_route_fits route r r' plan :
  apply_initial_route route r = Ok r' → route = Some plan → rc_routing r = Automatic ∧ route_fits plan.
Proof. intros Ha ->. by eapply apply_route_fits. Qed.

(** An unrouted automatic receipt takes every plan that fits. *)
Lemma route_fits_applies r plan :
  rc_routing r = Automatic → rc_route_revision r = 0%N → route_fits plan →
  ∃ r', apply_route_to_receipt r plan = Ok r'.
Proof.
  intros Hr Hz (Hpos & ? & ? & ?). unfold apply_route_to_receipt. rewrite Hr, Hz.
  rewrite !bool_decide_eq_false_2 by lia. eexists. by apply newer_route_Ok.
Qed.

Lemma initial_route_fixed route r r' :
  apply_initial_route route r = Ok r' →
  rc_write_id r' = rc_write_id r ∧ rc_receipt_id r' = rc_receipt_id r ∧
  lw_id (rc_current r') = lw_id (rc_current r) ∧ lw_event (rc_current r') = lw_event (rc_current r) ∧
  rc_publication r' = with_destinations (rc_destinations r') (rc_publication r).
Proof.
  destruct route as [plan|]; simpl.
  - intros (? & ? & _ & ? & ? & ? & _)%apply_route_fixed. done.
  - intros [= <-]. split_and!; try done. unfold rc_destinations. by destruct (rc_publication r).
Qed.

Lemma local_new_Ok event publication current :
  LocalWriteEvent_new event publication = Ok current →
  lw_event current = event ∧ lw_publication current = publication ∧ value_id event = Some (lw_id current).
Proof. intros (id & Hid%ok_or_Ok & E)%bind_Ok. injection E as <-. done. Qed.

Lemma next_revision_id_Ok r n :
  next_revision_id r = Ok n → n = (pub_revision_id (rc_publication r) + 1)%N.
Proof. unfold next_revision_id. intros Hn%ok_or_Ok. by apply checked_succ_Some in Hn as [_ ->]. Qed.

(** Below the history bound there is always a next revision. *)
Lemma next_revision_id_exists id next r :
  receipt_ok id next r → length (pub_retired_revisions (rc_publication r)) < destination_evidence_capacity →
  ∃ n, next_revision_id r = Ok n.
Proof.
  intros Hok Hlen. unfold next_revision_id, revision_checked_next.
  destruct (checked_succ _) eqn:E; [eauto|]. apply checked_succ_None in E.
  rewrite (ro_revision _ _ _ Hok) in E. unfold u64_max, destination_evidence_capacity in *. lia.
Qed.

(** A new revision built as the operations build it. *)
Lemma revision_built id next r r' n current event publication base route :
  receipt_ok id next r →
  length (pub_retired_revisions (rc_publication r)) < destination_evidence_capacity →
  next_revision_id r = Ok n →
  LocalWriteEvent_new (Unsigned event) publication = Ok current →
  pub_receipt_id publication = id → pub_write_id publication = rc_write_id r →
  pub_signature publication = SigUnsigned → pub_revision_id publication = n →
  pub_retired_revisions publication = retire_revision r →
  apply_initial_route route base = Ok r' →
  rc_current base = current → rc_receipt_id base = rc_receipt_id r → rc_write_id base = rc_write_id r →
  receipt_revision id r r'.
Proof.
  intros Hok Hlen Hn%next_revision_id_Ok (He & Hp & Hid)%local_new_Ok P1 P2 P3 P4 P5
    (I1 & I2 & I3 & I4 & I5)%initial_route_fixed B1 B2 B3.
  rewrite B1 in *. rewrite Hp in *. split; rewrite ?I5; simpl; rewrite ?P1, ?P2, ?P3, ?P4, ?P5; try done.
  - split; congruence.
  - exists event. rewrite I4, He, I3. done.
Qed.

(** ** Steps within a revision *)

Lemma step_with_signature sig r :
  sig ≠ SigSigned → pub_signature (rc_publication r) ≠ SigSigned →
  receipt_step r (update_publication (with_signature sig) r).
Proof. intros H1 H2. split; simpl; try done. left. split; [done|]. simpl. tauto. Qed.

Lemma step_with_failure f r : receipt_step r (update_publication (with_failure f) r).
Proof. split; simpl; try done. by left. Qed.

Lemma step_route r plan r' : apply_route_to_receipt r plan = Ok r' → receipt_step r r'.
Proof.
  intros (? & ? & ? & ? & ? & Hp & Hf)%apply_route_fixed.
  split; rewrite ?Hp; simpl; try done; [by left|].
  intros s o Hs Ho. apply Hf; [done|]. unfold handed_off. by rewrite Ho, orb_true_r.
Qed.

(** Changing destinations and what the receipt concludes from them. *)
Lemma step_destinations r d r' :
  rc_current r' = with_publication (with_destinations d (rc_publication r)) (rc_current r) →
  rc_receipt_id r' = rc_receipt_id r → rc_write_id r' = rc_write_id r → rc_routing r' = rc_routing r →
  (∀ s o, rc_destinations r !! s = Some o → outcome_is_terminal o = true → d !! s = Some o) →
  receipt_step r r'.
Proof.
  intros Hc H1 H2 H3 Hf. split; try done; unfold rc_destinations; rewrite Hc; simpl; try done. by left.
Qed.

Lemma insert_keeps_terminal (d : gmap RelayUrl RelayDeliveryOutcome) session old new :
  d !! session = Some old → outcome_is_terminal old = false →
  ∀ s o, d !! s = Some o → outcome_is_terminal o = true → <[session := new]> d !! s = Some o.
Proof.
  intros Hold Hnt s o Hs Ho. rewrite lookup_insert_ne; [done|]. intros <-. congruence.
Qed.

Lemma settle_current r :
  rc_current (settle r) = rc_current r ∧ rc_receipt_id (settle r) = rc_receipt_id r ∧
  rc_write_id (settle r) = rc_write_id r ∧ rc_routing (settle r) = rc_routing r.
Proof. unfold settle. by case_match. Qed.

(** ** Every operation is a transition or a refusal *)

Record stepped (s s' : MemoryWriteStore) : Prop := {
  sd_transition : transition (ms_state s) (ms_state s');
  sd_capacity : ms_capacity s' = ms_capacity s;
  sd_latest : ms_latest s = store_snapshot (ms_state s) → ms_latest s' = store_snapshot (ms_state s')
}.

(** A refusal leaves the store exactly as it was. *)
Definition atomic {A} (s : MemoryWriteStore) (r : result WriteStoreError A) (s' : MemoryWriteStore) : Prop :=
  match r with Ok _ => stepped s s' | Err _ => s' = s end.

Lemma transition_eq st st1 st2 : transition st st1 → st1 = st2 → transition st st2.
Proof. by intros ? ->. Qed.

Lemma stepped_refl s : stepped s s.
Proof. split; [constructor|done|done]. Qed.

Lemma stepped_committed s s0 st r :
  transition (ms_state s) st → ms_capacity s0 = ms_capacity s → stepped s (committed s0 st r).
Proof. by split. Qed.

Lemma stepped_quiet s s' :
  transition (ms_state s) (ms_state s') → ms_capacity s' = ms_capacity s → ms_latest s' = ms_latest s →
  ws_revision (ms_state s') = ws_revision (ms_state s) → ws_writes (ms_state s') = ws_writes (ms_state s) →
  stepped s s'.
Proof.
  intros Ht Hc Hl Hr Hw. split; [done|done|]. rewrite Hl. intros ->.
  unfold store_snapshot, visible_receipts. by rewrite Hr, Hw.
Qed.

Ltac op_run := repeat op_step ltac:(reflexivity).

(** Run the next fallible step, naming its value and its equation. *)
Tactic Notation "op_as" ident(x) ident(E) :=
  lazymatch goal with
  | |- wp (mbind _ (or_refuse _ _)) _ _ => apply wp_or_refuse
  | |- wp (mbind _ (or_invalid_event _)) _ _ => apply wp_or_invalid
  | |- wp (mbind _ (try_ _)) _ _ => apply wp_try
  end; [intros x E; cbv beta|intros; try reflexivity].
(** Run the next guard, naming its equation. *)
Tactic Notation "op_guard" ident(E) := apply wp_require; [intros E; cbv beta|intros; reflexivity].

Lemma accept_atomic intent s : wp (accept intent) (atomic s) s.
Proof.
  unfold accept. do 4 op_step ltac:(reflexivity).
  rename a into next. apply ok_or_Ok, checked_succ_Some in H1 as [_ ->].
  assert (Hgo : ∀ event sig, is_signed event = bool_decide (sig = SigSigned) →
    wp (current ← or_invalid_event (LocalWriteEvent_new event
          (mkPublication (ws_next_identity (ms_state s)) (ws_next_identity (ms_state s)) revision_first
             None None [] sig (destinations (in_routing intent))));
        next_revision ← try_ (next_revision (ms_state s));
        _ ← commit_state
          (set_writes (<[ws_next_identity (ms_state s) :=
             open_receipt (ws_next_identity (ms_state s)) (ws_next_identity (ms_state s)) current
               (in_routing intent) (in_access intent)]> (ws_writes (ms_state s)))
             (set_revision next_revision (set_next_identity (ws_next_identity (ms_state s) + 1)%N (ms_state s))))
          (open_receipt (ws_next_identity (ms_state s)) (ws_next_identity (ms_state s)) current
             (in_routing intent) (in_access intent));
        mret (mkAccepted (ws_next_identity (ms_state s)) (ws_next_identity (ms_state s)) current))
      (atomic s) s).
  { intros event sig Hsig. op_run. apply stepped_committed; [|reflexivity].
    destruct (local_new_Ok _ _ _ H1) as (He & Hp & Hid).
    eapply transition_eq; [|reflexivity].
    apply (tr_accept (ms_state s)
      (open_receipt (ws_next_identity (ms_state s)) (ws_next_identity (ms_state s)) a
         (in_routing intent) (in_access intent)) (ws_next_identity (ms_state s) + 1)%N a0 None); [|lia|done].
    split; simpl; rewrite ?He, ?Hp; simpl; try done; lia. }
  destruct (in_payload intent); op_step ltac:(reflexivity).
  - by apply Hgo.
  - by apply Hgo.
Qed.

(** *** Signing *)

Lemma commit_signature_atomic s id r sig revision :
  ws_writes (ms_state s) !! id = Some r → sig ≠ SigSigned →
  pub_signature (rc_publication r) ≠ SigSigned → ws_successors (ms_state s) !! id = None →
  wp (commit_signature (ms_state s) revision id r sig) (atomic s) s.
Proof.
  intros Hr H1 H2 Hs. unfold commit_signature. op_run. apply stepped_committed; [|reflexivity].
  apply (tr_update _ id r _ revision false); [done|by apply step_with_signature|by right].
Qed.

Lemma promote_atomic s id su :
  store_ok (ms_state s) → ws_successors (ms_state s) !! id = Some su →
  wp (promote_authorized_successor id) (atomic s) s.
Proof.
  intros Hok Hsu. destruct (so_successors _ Hok _ _ Hsu) as (r & cu & Hr & Hc & [P1 P2 P3 P4 P5]).
  pose proof (so_writes _ Hok _ _ Hr) as Hro.
  destruct (so_custody _ Hok _ _ Hc) as (_ & c & Hown & _).
  destruct (next_revision_id_exists _ _ _ Hro P2) as [n Hn].
  destruct P3 as [eid Heid].
  unfold promote_authorized_successor. op_step idtac. op_as revision Hrev.
  op_as su' Esu; try (exfalso; congruence). assert (su' = su) as -> by congruence.
  op_step idtac. simpl. op_as r0 Er; try (exfalso; congruence). assert (r0 = r) as -> by congruence.
  op_as cu0 Ec; try (exfalso; congruence). assert (cu0 = cu) as -> by congruence.
  op_as n0 En; try (exfalso; congruence).
  op_as current Ecur; try (exfalso; unfold LocalWriteEvent_new in *; simpl in *; rewrite Heid in *; done).
  op_as updated Eup; cycle 1.
  { exfalso. destruct (su_route su) as [plan|] eqn:Hroute; [|done]. simpl in *.
    destruct (P4 plan eq_refl) as [Ha Hfit].
    destruct (route_fits_applies
      (open_receipt (rc_write_id r) (rc_receipt_id r) current (rc_routing r) (rc_access r)) plan)
      as [x Hx]; [done|by unfold open_receipt; rewrite Ha|done|congruence]. }
  op_run. apply stepped_committed; [|reflexivity]. eapply transition_eq; [|reflexivity].
  apply (tr_revise (ms_state s) id r updated c cu
    (Some (mkCustody (cu_edits cu ++ match su_edit su with Some edit => [edit] | None => [] end)
             (cu_author cu) (su_source su) None)) revision); try done.
  - exact (revision_built _ _ _ _ _ _ _ _ _ _ Hro P2 En Ecur
             eq_refl eq_refl eq_refl eq_refl eq_refl Eup eq_refl eq_refl eq_refl).
  - intros cu' [= <-]. destruct (su_edit su) as [edit|] eqn:Hed; simpl.
    + exists edit. cbn [cu_edits cu_author]. rewrite last_snoc. split; [done|]. by apply P5.
    + rewrite app_nil_r. by apply (owns_same cu).
Qed.


Lemma not_is_Some {A} (o : option A) : bool_decide (is_Some o) = false → o = None.
Proof. rewrite bool_decide_eq_false. by apply eq_None_not_Some. Qed.

(** Promote when a successor waits, commit otherwise. *)
Lemma promote_or_atomic s id (m : Op Receipt) :
  store_ok (ms_state s) → (ws_successors (ms_state s) !! id = None → wp m (atomic s) s) →
  wp (if bool_decide (is_Some (ws_successors (ms_state s) !! id))
      then promote_authorized_successor id else m) (atomic s) s.
Proof.
  intros Hok Hm. destruct (bool_decide _) eqn:E.
  - apply bool_decide_eq_true in E as [su Hsu]. by eapply promote_atomic.
  - by apply Hm, not_is_Some.
Qed.

Lemma install_signed_atomic w id rev ev e s :
  store_ok (ms_state s) → wp (install_signed w id rev ev e) (atomic s) s.
Proof.
  intros Hok. unfold install_signed.
  destruct (event_verify e) eqn:Hv; [by op_step ltac:(reflexivity)|]. do 2 op_step idtac.
  op_as r Hr. op_as u0 Hcur. destruct (lw_event (rc_current r)) as [u|cur] eqn:Hev.
  - op_guard Hview. op_guard Hsig. op_as revision Hrev. apply promote_or_atomic; [done|]. intros Hnone.
    op_run. apply stepped_committed; [|reflexivity].
    apply (tr_update _ id r _ revision false); [done| |by right].
    split; try done. right. exists u, e. split_and!; try done.
    apply orb_true_iff in Hsig as [?%bool_decide_eq_true|?%bool_decide_eq_true]; auto.
  - case_bool_decide; op_run. apply stepped_refl.
Qed.

Lemma record_signer_refusal_atomic w id rev ev reason s :
  store_ok (ms_state s) → wp (record_signer_refusal w id rev ev reason) (atomic s) s.
Proof.
  intros Hok. unfold record_signer_refusal. op_as u0 Htext. op_step idtac. op_as r Hr. op_as u1 Hcur.
  destruct (pub_signature (rc_publication r)) eqn:Hsig; op_run.
  - apply promote_or_atomic; [done|]. intros Hnone. by apply commit_signature_atomic; rewrite ?Hsig.
  - case_bool_decide; op_run. apply stepped_refl.
Qed.

Lemma authorize_signing_atomic w id rev ev s :
  store_ok (ms_state s) → wp (authorize_signing w id rev ev) (atomic s) s.
Proof.
  intros Hok. unfold authorize_signing. op_step idtac. op_as r Hr. op_as u0 Hcur. op_guard Hunsigned.
  assert (Hnone : pub_signature (rc_publication r) ≠ SigAuthorized → ws_successors (ms_state s) !! id = None).
  { intros Hne. destruct (ws_successors (ms_state s) !! id) as [su|] eqn:E; [|done].
    destruct (so_successors _ Hok _ _ E) as (r' & cu & Hr' & _ & [P1 _ _ _ _]). congruence. }
  assert (Hgo : pub_signature (rc_publication r) ≠ SigAuthorized → pub_signature (rc_publication r) ≠ SigSigned →
    ∀ sig, sig ≠ SigSigned →
    wp (if bool_decide (pub_signature (rc_publication r) = sig) then mret r
        else revision ← try_ (next_revision (ms_state s));
             commit_signature (ms_state s) revision id r sig) (atomic s) s).
  { intros Hna Hns sig Hsig. case_bool_decide; [op_run; apply stepped_refl|].
    op_as revision Hrev. apply commit_signature_atomic; auto. }
  destruct (pub_signature (rc_publication r)) eqn:Hsig; op_run;
    try (apply Hgo; [done|done|by case_match]). apply stepped_refl.
Qed.

Lemma record_signer_retryable_atomic w id rev ev reason s :
  store_ok (ms_state s) → wp (record_signer_retryable w id rev ev reason) (atomic s) s.
Proof.
  intros Hok. unfold record_signer_retryable. op_as u0 Htext. op_step idtac. op_as r Hr. op_as u1 Hcur.
  op_guard Hsig. destruct (bool_decide (pub_signature (rc_publication r) = SigAuthorized)) eqn:Ha; simpl.
  - apply (promote_or_atomic s id); [done|]. intros Hnone. op_as revision Hrev.
    apply commit_signature_atomic; try done. by destruct (pub_signature (rc_publication r)).
  - op_as revision Hrev. apply commit_signature_atomic; [done|done|by destruct (pub_signature (rc_publication r))|].
    apply bool_decide_eq_false in Ha.
    destruct (ws_successors (ms_state s) !! id) as [su|] eqn:E; [|done].
    destruct (so_successors _ Hok _ _ E) as (r' & cu & Hr' & _ & [P1 _ _ _ _]). congruence.
Qed.

(** *** Routes and delivery *)

Lemma released_if (b : bool) id st : (if b then release_semantic id st else st) = released b id st.
Proof. done. Qed.

Lemma apply_route_atomic w id rev ev plan s : wp (apply_route w id rev ev plan) (atomic s) s.
Proof.
  unfold apply_route. op_step idtac. op_as r Hr. op_as u0 Hcur. op_as r' Happ.
  case_bool_decide; [op_run; apply stepped_refl|]. op_as revision Hrev. op_run.
  apply stepped_committed; [|reflexivity]. rewrite released_if.
  apply (tr_update _ id r _ revision); [done|by eapply step_route|].
  left. apply apply_route_fixed in Happ as (_ & _ & _ & _ & _ & -> & _). done.
Qed.

Lemma begin_attempt_atomic w id rev ev session attempt s :
  wp (begin_attempt w id rev ev session attempt) (atomic s) s.
Proof.
  unfold begin_attempt. op_step idtac. op_as r Hr. op_as u0 Hcur.
  destruct (_ && _); [op_run; apply stepped_refl|].
  op_as expected He. op_guard Ha. op_as old Hold. op_guard Hp. op_as revision Hrev. op_run.
  apply stepped_committed; [|reflexivity].
  apply (tr_update _ id r _ revision false); [done| |by left].
  eapply step_destinations; [reflexivity|done|done|done|].
  eapply insert_keeps_terminal; [exact Hold|]. by destruct old.
Qed.

Lemma may_transition_nonterminal old new : may_transition old new = true → outcome_is_terminal old = false.
Proof. by destruct old. Qed.

Lemma record_outcome_atomic w id rev ev session attempt outcome s :
  wp (record_outcome w id rev ev session attempt outcome) (atomic s) s.
Proof.
  unfold record_outcome. op_as u0 Htext. op_guard Hkind. op_step idtac. op_as r Hr. op_as u1 Hcur.
  op_guard Hatt. clear Hatt. op_as old Hold. case_bool_decide; [op_run; apply stepped_refl|].
  op_guard Hmay. op_as revision Hrev. op_run. apply stepped_committed; [|reflexivity]. rewrite released_if.
  destruct (settle_current (set_destination session outcome r)) as (Hc & H1 & H2 & H3).
  apply (tr_update _ id r _ revision); [done| |by left; rewrite Hc].
  eapply step_destinations; [exact Hc|done|done|done|].
  eapply insert_keeps_terminal; [exact Hold|by eapply may_transition_nonterminal].
Qed.

(** *** Cancellation, removal and reservations *)

Lemma cancel_atomic id s : wp (cancel id) (atomic s) s.
Proof.
  unfold cancel. op_step idtac. op_as revision Hrev.
  destruct (ws_writes (ms_state s) !! id) as [r|] eqn:Hr; [|op_run; apply stepped_refl].
  destruct (is_cancelled r); [op_run; apply stepped_refl|]. op_guard Hg. op_run.
  apply stepped_committed; [|reflexivity].
  apply (tr_update _ id r _ revision true); [done| |by left].
  eapply step_destinations; [reflexivity|done|done|done|]. intros x o Hx Ho. exfalso.
  apply negb_true_iff, orb_false_iff in Hg as [_ Hg]. rewrite existsb_not_elem in Hg.
  assert (Hin : o ∈ values (rc_destinations r)) by (apply elem_of_values; eauto).
  apply Hg, negb_false_iff in Hin. by destruct o.
Qed.

Lemma remove_receipt_atomic id s : wp (remove_receipt id) (atomic s) s.
Proof.
  unfold remove_receipt. op_step idtac.
  destruct (ws_writes (ms_state s) !! id) as [r|] eqn:Hr; [|op_run; apply stepped_refl].
  op_guard Hterm. op_as revision Hrev. op_step idtac.
  split; simpl; [|done|done]. eapply transition_eq; [exact (tr_remove _ id r revision Hr Hterm)|].
  unfold set_writes, set_revision. rewrite release_semantic_spec. done.
Qed.

Lemma reserve_active_atomic edit author s : wp (reserve_active edit author) (atomic s) s.
Proof.
  unfold reserve_active. do 2 op_step idtac. op_guard H1. op_guard H2. op_guard H3. op_as next Hn.
  op_run. apply checked_succ_Some in Hn as [_ ->]. apply stepped_quiet; try done. simpl.
  apply (tr_reserve (ms_state s)). lia.
Qed.

Lemma release_active_atomic n s : wp (release_active n) (atomic s) s.
Proof.
  unfold release_active. op_step idtac. op_as c Hc. op_step idtac.
  assert (Hst : ∀ s', ms_state s' = ms_state (assigned s (set_reservations (ws_next_reservation (ms_state s))
      (delete n (ws_reservations (ms_state s))) (ms_state s))) → ms_capacity s' = ms_capacity s →
    ms_latest s' = ms_latest s → stepped s s').
  { intros s' E1 E2 E3. apply stepped_quiet; rewrite ?E1; try done. apply tr_unreserve. }
  destruct (_ ≫= _); by apply Hst.
Qed.

(** *** Semantic revisions *)

Lemma record_failure_atomic w id expected src source reason s :
  wp (record_semantic_failure w id expected src source reason) (atomic s) s.
Proof.
  unfold record_semantic_failure. op_step idtac. op_as r Hr. op_as cu Hc. op_as u0 Hcur. op_as edit He.
  op_as failed Hf. op_as u1 Hq. destruct (_ && _); [op_run; apply stepped_refl|].
  op_as revision Hrev. op_run. apply stepped_committed; [|reflexivity].
  apply (tr_failure _ id r _ cu); try done. apply step_with_failure.
Qed.

(** The promises [promotable] makes hold of what is enqueued. *)
Lemma enqueue_atomic {A} s id r cu su (f : unit → Op A) :
  ws_writes (ms_state s) !! id = Some r → ws_edits (ms_state s) !! id = Some cu → promotable r cu su →
  (∀ s', stepped s s' → wp (f tt) (atomic s) s') →
  wp (_ ← put_state (set_successors (<[id := su]> (ws_successors (ms_state s))) (ms_state s));
      _ ← publish_receipt_only r; f tt) (atomic s) s.
Proof.
  intros Hr Hc Hp Hf. op_step idtac. op_step idtac. apply Hf. apply stepped_quiet; try done. simpl.
  by apply (tr_successor _ id r cu).
Qed.

Lemma validate_revision_id now edit author event source routing selected :
  validate_revision now edit author event source routing = Ok selected →
  is_Some (un_id event) ∧ un_pubkey event = author.
Proof.
  unfold validate_revision. intros (? & _ & (? & Ha%ensure_Ok & (c & Hc & _)%bind_Ok)%bind_Ok)%bind_Ok.
  unfold event_coordinate_of_unsigned in Hc. apply bind_Ok in Hc as (i & Hi%ok_or_Ok & _).
  split; [eauto|by apply bool_decide_eq_true in Ha].
Qed.

Lemma no_successor s id r :
  store_ok (ms_state s) → ws_writes (ms_state s) !! id = Some r →
  pub_signature (rc_publication r) ≠ SigAuthorized → ws_successors (ms_state s) !! id = None.
Proof.
  intros Hok Hr Hne. destruct (ws_successors (ms_state s) !! id) as [su|] eqn:E; [|done].
  destruct (so_successors _ Hok _ _ E) as (r' & cu & Hr' & _ & [P1 _ _ _ _]). congruence.
Qed.

Lemma successor_plan_fits r route route' r' plan :
  successor_plan r route = Ok route' → apply_initial_route route' r = Ok r' → route' = Some plan →
  rc_routing r = Automatic ∧ route_fits plan.
Proof. intros _ Ha Hp. by eapply initial_route_fits. Qed.

Lemma compose_atomic id edit author routing event source route s :
  store_ok (ms_state s) → ws_coordinates (ms_state s) !! edit_coordinate edit author = Some id →
  is_Some (un_id event) →
  wp (compose_semantic id edit author routing event source route) (atomic s) s.
Proof.
  intros Hok Hcoord [eid Heid]. unfold compose_semantic. op_step idtac. op_as r Hr. op_as cu Hc.
  op_guard Hsame. op_guard Huns. op_as sel Hsel. op_guard Hsrc. op_guard Hret. op_as route' Hroute.
  op_as routed Hrouted.
  apply andb_true_iff in Hsame as [Hauth%bool_decide_eq_true Hrt%bool_decide_eq_true].
  apply bool_decide_eq_true in Hret.
  assert (Hown : owns cu (edit_coordinate edit author)).
  { destruct (so_coordinates _ Hok _ _ Hcoord) as (cu' & Hc' & ?). congruence. }
  destruct (bool_decide (pub_signature _ = SigAuthorized)) eqn:Hsig.
  - op_guard Hno. apply bool_decide_eq_true in Hsig.
    apply (enqueue_atomic s id r cu _ (λ _, mret _)); try done.
    split; simpl; [done|done|eauto|intros plan Hp; by eapply initial_route_fits|].
    intros edit' c [= <-] Hc'. rewrite Hauth. by apply (owns_fun cu).
  - apply bool_decide_eq_false in Hsig. pose proof (no_successor _ _ _ Hok Hr Hsig) as Hnone.
    op_as n Hn. op_as current Hcur. op_as updated Hup. op_as revision Hrev. op_run.
    apply stepped_committed; [|reflexivity].
    assert (Hrr : receipt_revision id r updated)
      by exact (revision_built _ _ _ _ _ _ _ _ _ _ (so_writes _ Hok _ _ Hr) Hret Hn Hcur
             eq_refl eq_refl eq_refl eq_refl eq_refl Hup eq_refl eq_refl eq_refl).
    eapply transition_eq.
    { apply (tr_revise (ms_state s) id r updated (edit_coordinate edit author) cu
        (if receipt_is_terminal updated then None
         else Some (mkCustody (cu_edits cu ++ [edit]) author (cu_source cu) None)) revision); try done.
      intros cu' Hcu'. destruct (receipt_is_terminal updated); [done|]. injection Hcu' as <-.
      exists edit. simpl. by rewrite last_snoc. }
    rewrite (delete_id (ws_successors _)) by done. by destruct (receipt_is_terminal updated).
Qed.

Lemma install_semantic_atomic now w id expected src edits event source route s :
  store_ok (ms_state s) →
  wp (install_semantic now w id expected src edits event source route) (atomic s) s.
Proof.
  intros Hok. unfold install_semantic. op_step idtac. op_as r Hr. op_as cu Hc. op_as u0 Hcur0.
  op_guard Hed. op_as edit Hlast. op_as sel Hsel.
  destruct (_ && _); [op_run; apply stepped_refl|].
  op_as u1 Hq. op_as eid Heid. op_guard Hnew. op_guard Hret. op_as routed Hrouted.
  apply bool_decide_eq_true in Hret.
  assert (Hw : rc_write_id r = w).
  { apply ensure_Ok, negb_true_iff in Hcur0. rewrite !orb_false_iff, !negb_false_iff in Hcur0.
    destruct Hcur0 as [[[_ Hw] _] _]. by apply bool_decide_eq_true in Hw. }
  destruct (so_custody _ Hok _ _ Hc) as (_ & c & Hown & _).
  destruct (bool_decide (pub_signature _ = SigAuthorized)) eqn:Hsig.
  - op_guard Hno. apply bool_decide_eq_true in Hsig.
    apply (enqueue_atomic s id r cu _ (λ _, mret _)); try done.
    split; simpl; [done|done|eauto|intros plan Hp; by eapply initial_route_fits|done].
  - apply bool_decide_eq_false in Hsig. pose proof (no_successor _ _ _ Hok Hr Hsig) as Hnone.
    op_guard Hcap. op_as n Hn. op_as current Hcur. op_as updated Hup. op_as revision Hrev. op_run.
    apply stepped_committed; [|reflexivity].
    assert (Hrr : receipt_revision id r updated)
      by exact (revision_built _ _ _ _ _ _ _ _ _ _ (so_writes _ Hok _ _ Hr) Hret Hn Hcur
             eq_refl (eq_sym Hw) eq_refl eq_refl eq_refl Hup eq_refl eq_refl eq_refl).
    eapply transition_eq.
    { apply (tr_revise (ms_state s) id r updated c cu
        (Some (mkCustody (cu_edits cu) (cu_author cu) sel None)) revision); try done.
      intros cu' [= <-]. by apply (owns_same cu). }
    by rewrite (delete_id (ws_successors _)) by done.
Qed.

(** *** Semantic acceptance *)

(** Past the reservation, acceptance is atomic like every other operation. *)
Lemma accept_validated_atomic now reserved edit author routing access event source route s :
  store_ok (ms_state s) →
  wp (accept_validated now reserved edit author routing access event source route) (atomic s) s.
Proof.
  intros Hok. unfold accept_validated. op_as sel Hsel. op_step idtac.
  destruct (validate_revision_id _ _ _ _ _ _ _ Hsel) as [Hid _].
  destruct (ws_coordinates (ms_state s) !! edit_coordinate edit author) as [id|] eqn:Hcoord.
  - op_as r Hr. op_as cu Hc. destruct (repeats_acceptance _ _ _ _ _ _ _ _); [op_run; apply stepped_refl|].
    by apply compose_atomic.
  - op_step idtac. op_guard Hcap. op_as next Hnext. op_as current Hcur. op_as r Hr. op_as revision Hrev.
    op_run. apply stepped_committed; [|reflexivity].
    apply ok_or_Ok, checked_succ_Some in Hnext as [_ ->].
    destruct (local_new_Ok _ _ _ Hcur) as (He & Hp & Hv).
    destruct (initial_route_fixed _ _ _ Hr) as (I1 & I2 & I3 & I4 & I5).
    eapply transition_eq.
    { apply (tr_accept (ms_state s) r (ws_next_identity (ms_state s) + 1)%N revision
        (if receipt_is_terminal r then None
         else Some (edit_coordinate edit author, mkCustody [edit] author sel None))); [|lia|].
      - split; rewrite ?I1, ?I2, ?I3, ?I4, ?I5; simpl; rewrite ?He, ?Hp; simpl; try done; lia.
      - intros c cu Hcu. destruct (receipt_is_terminal r); [done|]. injection Hcu as <- <-.
        split; [|done]. by exists edit. }
    by destruct (receipt_is_terminal r).
Qed.

(** The one state a reserved acceptance may leave when it refuses: the same
    store with its reservation consumed. *)
Definition unreserved (n : N) (s : MemoryWriteStore) : MemoryWriteStore :=
  assigned s (set_reservations (ws_next_reservation (ms_state s))
                (delete n (ws_reservations (ms_state s))) (ms_state s)).

Lemma unreserved_ok n s : store_ok (ms_state s) → store_ok (ms_state (unreserved n s)).
Proof. intros Hok. apply (transition_ok (ms_state s)); [done|apply tr_unreserve]. Qed.

Definition atomic_from {A} (n : option N) (s : MemoryWriteStore) (r : result WriteStoreError A)
    (s' : MemoryWriteStore) : Prop :=
  atomic s r s' ∨ ∃ m, n = Some m ∧ atomic (unreserved m s) r s'.

Lemma accept_semantic_atomic now reservation intent event source route s :
  store_ok (ms_state s) →
  wp (accept_semantic_inner now reservation intent event source route) (atomic_from reservation s) s.
Proof.
  intros Hok. unfold accept_semantic_inner.
  destruct (in_payload intent) as [|edit author|]; op_step ltac:(by left). destruct reservation as [n|]; simpl.
  - unfold consume_reservation.
    assert (Hgo : wp (state ← lock_state;
        reserved ← or_refuse (ws_reservations state !! n) "active reservation is not current";
        _ ← require (bool_decide (reserved = edit_coordinate edit author))
              "active reservation belongs to a different replaceable coordinate";
        _ ← put_state (set_reservations (ws_next_reservation state) (delete n (ws_reservations state)) state);
        accept_validated now true edit author (in_routing intent) (in_access intent) event source route)
      (atomic_from (Some n) s) s); [|].
    { do 3 op_step ltac:(by left). op_step idtac.
      apply (wp_mono _ (atomic (unreserved n s))).
      - apply accept_validated_atomic. by apply unreserved_ok.
      - intros r s' Hr. right. eauto. }
    revert Hgo. unfold wp, mbind, op_bind, mbind, stateM_bind, lock_state, or_refuse, try_, require, try_, put_state. simpl.
    destruct (ws_reservations (ms_state s) !! n); [|done]. simpl. by case_bool_decide.
  - op_step idtac. apply (wp_mono _ (atomic s)); [by apply accept_validated_atomic|by left].
Qed.

End invariant.

(** ** The store as a state machine *)

Inductive StoreOperation :=
| DoAccept (intent : WriteIntent)
| DoReserve (edit : EventEdit) (author : PublicKey)
| DoRelease (reservation : N)
| DoAcceptEdit (intent : WriteIntent) (event : UnsignedEvent) (source : option EventValue)
| DoAcceptReserved (reservation : N) (intent : WriteIntent) (event : UnsignedEvent)
    (source : option EventValue) (route : option RoutePlan)
| DoInstallRevision (write_id : WriteId) (receipt_id : ReceiptId) (expected : RevisionId)
    (expected_source : option EventId) (edits : list EventEdit) (event : UnsignedEvent)
    (source : option EventValue) (route : option RoutePlan)
| DoRecordFailure (write_id : WriteId) (receipt_id : ReceiptId) (expected : RevisionId)
    (expected_source : option EventId) (source : option EventValue) (reason : string)
| DoInstallSigned (write_id : WriteId) (receipt_id : ReceiptId) (revision_id : RevisionId)
    (event_id : EventId) (event : Event)
| DoAuthorize (write_id : WriteId) (receipt_id : ReceiptId) (revision_id : RevisionId) (event_id : EventId)
| DoRetryable (write_id : WriteId) (receipt_id : ReceiptId) (revision_id : RevisionId)
    (event_id : EventId) (reason : string)
| DoRefusal (write_id : WriteId) (receipt_id : ReceiptId) (revision_id : RevisionId)
    (event_id : EventId) (reason : string)
| DoApplyRoute (write_id : WriteId) (receipt_id : ReceiptId) (revision_id : RevisionId)
    (event_id : EventId) (plan : RoutePlan)
| DoBeginAttempt (write_id : WriteId) (receipt_id : ReceiptId) (revision_id : RevisionId)
    (event_id : EventId) (session : RelayUrl) (attempt : N)
| DoRecordOutcome (write_id : WriteId) (receipt_id : ReceiptId) (revision_id : RevisionId)
    (event_id : EventId) (session : RelayUrl) (attempt : N) (outcome : RelayDeliveryOutcome)
| DoCancel (receipt_id : ReceiptId)
| DoRemove (receipt_id : ReceiptId).

Section machine.
Context `{Nostr}.

Definition discard {A} (m : Op A) : Op unit := _ ← m; mret tt.

Definition perform (now : Timestamp) (op : StoreOperation) : Op unit :=
  match op with
  | DoAccept intent => discard (accept intent)
  | DoReserve edit author => discard (reserve_active edit author)
  | DoRelease n => discard (release_active n)
  | DoAcceptEdit intent event source => discard (accept_applied_edit now intent event source)
  | DoAcceptReserved n intent event source route =>
      discard (accept_reserved_applied_edit now n intent event source route)
  | DoInstallRevision w r e src edits event source route =>
      discard (install_semantic now w r e src edits event source route)
  | DoRecordFailure w r e src source reason => discard (record_semantic_failure w r e src source reason)
  | DoInstallSigned w r rev ev event => discard (install_signed w r rev ev event)
  | DoAuthorize w r rev ev => discard (authorize_signing w r rev ev)
  | DoRetryable w r rev ev reason => discard (record_signer_retryable w r rev ev reason)
  | DoRefusal w r rev ev reason => discard (record_signer_refusal w r rev ev reason)
  | DoApplyRoute w r rev ev plan => discard (apply_route w r rev ev plan)
  | DoBeginAttempt w r rev ev session attempt => discard (begin_attempt w r rev ev session attempt)
  | DoRecordOutcome w r rev ev session attempt outcome =>
      discard (record_outcome w r rev ev session attempt outcome)
  | DoCancel r => discard (cancel r)
  | DoRemove r => discard (remove_receipt r)
  end.

Definition reservation_of (op : StoreOperation) : option N :=
  match op with DoAcceptReserved n _ _ _ _ => Some n | _ => None end.

(** Every state the store reaches, whatever it is asked and whatever the clock says. *)
Inductive store_reachable (capacity : nat) : MemoryWriteStore → Prop :=
| reach_new : store_reachable capacity (store_bounded capacity)
| reach_perform now op s : store_reachable capacity s → store_reachable capacity (perform now op s).2.

Lemma discard_wp {A} (m : Op A) n s : wp m (atomic_from n s) s → wp (discard m) (atomic_from n s) s.
Proof.
  unfold discard, wp, mbind, op_bind, mbind, stateM_bind. by destruct (m s) as [[a|e] s'].
Qed.

Lemma atomic_weaken {A} (m : Op A) n s : wp m (atomic s) s → wp m (atomic_from n s) s.
Proof. intros Hm. apply (wp_mono _ _ _ _ Hm). by left. Qed.

Lemma perform_atomic now op s :
  store_ok (ms_state s) → wp (perform now op) (atomic_from (reservation_of op) s) s.
Proof.
  intros Hok. destruct op; simpl; apply discard_wp.
  4: by apply accept_semantic_atomic.
  4: by apply accept_semantic_atomic.
  all: apply atomic_weaken.
  - apply accept_atomic.
  - apply reserve_active_atomic.
  - apply release_active_atomic.
  - by apply install_semantic_atomic.
  - apply record_failure_atomic.
  - by apply install_signed_atomic.
  - by apply authorize_signing_atomic.
  - by apply record_signer_retryable_atomic.
  - by apply record_signer_refusal_atomic.
  - apply apply_route_atomic.
  - apply begin_attempt_atomic.
  - apply record_outcome_atomic.
  - apply cancel_atomic.
  - apply remove_receipt_atomic.
Qed.

(** A performed operation, seen from a store equal up to its reservations. *)
Lemma perform_steps now op s :
  store_ok (ms_state s) →
  ∃ s1, (s1 = s ∨ ∃ n, s1 = unreserved n s) ∧ (stepped s1 (perform now op s).2 ∨ (perform now op s).2 = s1).
Proof.
  intros Hok. pose proof (perform_atomic now op s Hok) as Hwp. unfold wp, atomic_from, atomic in Hwp.
  destruct (perform now op s) as [[a|e] s']; simpl in *;
    destruct Hwp as [Hs|(m & _ & Hs)]; eauto 10.
Qed.

Lemma stepped_ok s s' : stepped s s' → store_ok (ms_state s) → store_ok (ms_state s').
Proof. intros [Ht _ _] Hok. by eapply transition_ok. Qed.

(** Identities are never reused. *)
Lemma perform_identity now op s :
  store_ok (ms_state s) → (ws_next_identity (ms_state s) ≤ ws_next_identity (ms_state (perform now op s).2))%N.
Proof.
  intros Hok. destruct (perform_steps now op s Hok) as (s1 & Hs1 & Hs').
  assert (ws_next_identity (ms_state s1) = ws_next_identity (ms_state s)) as <- by (by destruct Hs1 as [->|[n ->]]).
  destruct Hs' as [[Htr _ _]| ->]; [|done].
  destruct Htr; simpl; unfold released; rewrite ?release_semantic_spec; simpl; try lia.
  destruct release; rewrite ?release_semantic_spec; simpl; lia.
Qed.

Lemma reachable_ok capacity s :
  store_reachable capacity s →
  store_ok (ms_state s) ∧ ms_capacity s = capacity ∧ ms_latest s = store_snapshot (ms_state s).
Proof.
  induction 1 as [|now op s _ (Hok & Hcap & Hlat)].
  - split_and!; [|done|done]. split; intros *; simpl; by rewrite lookup_empty.
  - destruct (perform_steps now op s Hok) as (s1 & Hs1 & Hs').
    assert (Hone : store_ok (ms_state s1) ∧ ms_capacity s1 = capacity ∧ ms_latest s1 = store_snapshot (ms_state s1)).
    { destruct Hs1 as [->|[n ->]]; [done|]. split_and!; [by apply unreserved_ok|done|done]. }
    destruct Hone as (Hok1 & Hcap1 & Hlat1). destruct Hs' as [Hst| ->]; [|done].
    split_and!; [by eapply stepped_ok|by rewrite (sd_capacity _ _ Hst)|by apply (sd_latest _ _ Hst)].
Qed.

(** What can happen to one receipt in one transition. *)
Lemma transition_receipt st st' id r :
  transition st st' → ws_writes st !! id = Some r → (∀ i x, ws_writes st !! i = Some x → (i < ws_next_identity st)%N) →
  (ws_writes st' !! id = None ∧ receipt_is_terminal r = true) ∨
  ∃ r', ws_writes st' !! id = Some r' ∧ (r' = r ∨ receipt_step r r' ∨ receipt_revision id r r').
Proof.
  intros Htr Hr Hissued.
  assert (Hins : ∀ i x y, ws_writes st !! i = Some x → (receipt_step x y ∨ receipt_revision i x y) →
    ∃ r', <[i := y]> (ws_writes st) !! id = Some r' ∧ (r' = r ∨ receipt_step r r' ∨ receipt_revision id r r')).
  { intros i x y Hx Hs. destruct (decide (i = id)) as [->|Hne].
    - exists y. rewrite lookup_insert_eq. split; [done|]. right. by simplify_eq.
    - exists r. rewrite lookup_insert_ne by done. auto. }
  destruct Htr; simpl; try by right; exists r; split; [|left].
  - right. destruct release; simpl; rewrite ?release_semantic_spec; simpl; eauto.
  - right. eauto.
  - right. exists r. rewrite lookup_insert_ne; [auto|]. intros <-. apply Hissued in Hr. lia.
  - right. eauto.
  - destruct (decide (id0 = id)) as [->|Hne].
    + left. rewrite lookup_delete_eq. split; [done|]. by simplify_eq.
    + right. exists r. rewrite lookup_delete_ne by done. auto.
Qed.

Lemma perform_receipt capacity now op s id r :
  store_reachable capacity s → ws_writes (ms_state s) !! id = Some r →
  (ws_writes (ms_state (perform now op s).2) !! id = None ∧ receipt_is_terminal r = true) ∨
  ∃ r', ws_writes (ms_state (perform now op s).2) !! id = Some r' ∧
        (r' = r ∨ receipt_step r r' ∨ receipt_revision id r r').
Proof.
  intros Hreach Hr. destruct (reachable_ok _ _ Hreach) as (Hok & _ & _).
  destruct (perform_steps now op s Hok) as (s1 & Hs1 & Hs').
  assert (H1 : ws_writes (ms_state s1) = ws_writes (ms_state s) ∧
               ws_next_identity (ms_state s1) = ws_next_identity (ms_state s))
    by (destruct Hs1 as [->|[n ->]]; done).
  destruct H1 as [Hw Hn]. destruct Hs' as [[Ht _ _]| ->]; [|right; exists r; rewrite Hw; auto].
  apply (transition_receipt (ms_state s1)); [done|by rewrite Hw|].
  intros i x. rewrite Hw, Hn. intros Hx. apply (ro_issued _ _ _ (so_writes _ Hok _ _ Hx)).
Qed.

(** ** Properties *)

(** C1. Everything a write store reaches is coherent: receipts sit under
    their own identity, below the next one to issue, with a history as long as
    their revision number; every custody record owns exactly one coordinate and
    every owned coordinate has custody; a waiting successor belongs to an
    authorized receipt and can be promoted; and the snapshot queries see is the
    committed ledger. *)
Theorem store_invariant (capacity : nat) (s : MemoryWriteStore) (Hreach : store_reachable capacity s) :
  store_ok (ms_state s) ∧ ms_capacity s = capacity ∧ ms_latest s = store_snapshot (ms_state s).
Proof. by apply reachable_ok. Qed.

(** C2. Refusals are atomic: whenever an operation of a reachable store
    refuses, the store is exactly what it was; the one exception is an
    acceptance that had a matching reservation, which is consumed. *)
Theorem store_refusals_atomic (capacity : nat) (s : MemoryWriteStore) (now : Timestamp)
    (op : StoreOperation) (e : WriteStoreError) (s' : MemoryWriteStore)
    (Hreach : store_reachable capacity s) (Hrun : perform now op s = (Err e, s')) :
  s' = s ∨ ∃ n, reservation_of op = Some n ∧ s' = unreserved n s.
Proof.
  destruct (reachable_ok _ _ Hreach) as (Hok & _ & _).
  pose proof (perform_atomic now op s Hok) as Hwp. unfold wp, atomic_from, atomic in Hwp.
  rewrite Hrun in Hwp. simpl in Hwp. naive_solver.
Qed.

(** C3. Delivery facts are permanent: a terminal outcome recorded for a
    relay in some revision is still that revision's outcome after any
    operation, or the revision has become history of the next one, or the
    receipt was terminal and has been removed. *)
Theorem delivery_facts_permanent (capacity : nat) (s : MemoryWriteStore) (now : Timestamp)
    (op : StoreOperation) (id : ReceiptId) (r : Receipt) (session : RelayUrl) (o : RelayDeliveryOutcome)
    (Hreach : store_reachable capacity s) (Hr : ws_writes (ms_state s) !! id = Some r)
    (Ho : rc_destinations r !! session = Some o) (Hterm : outcome_is_terminal o = true) :
  (ws_writes (ms_state (perform now op s).2) !! id = None ∧ receipt_is_terminal r = true) ∨
  ∃ r', ws_writes (ms_state (perform now op s).2) !! id = Some r' ∧
    ((pub_revision_id (rc_publication r') = pub_revision_id (rc_publication r) ∧
      rc_destinations r' !! session = Some o) ∨
     (pub_revision_id (rc_publication r') = (pub_revision_id (rc_publication r) + 1)%N ∧
      pub_retired_revisions (rc_publication r') = retire_revision r)).
Proof.
  destruct (perform_receipt _ now op _ _ _ Hreach Hr) as [?|(r' & Hr' & Hs)]; [by left|right].
  exists r'. split; [done|]. destruct Hs as [->|[Hs|Hs]]; [by left|left|right].
  - split; [apply Hs|by apply (rs_facts _ _ Hs)].
  - split; [apply (rr_revision _ _ _ Hs)|apply (rr_retired _ _ _ Hs)].
Qed.

(** C4. The signing gate: an event of a retained receipt turns from unsigned
    to signed only when the store had authorized signing of that exact
    generation, and only into a verified event with the same id, author, time,
    kind, tags and content; a signed event never changes. *)
Theorem signing_gate (capacity : nat) (s : MemoryWriteStore) (now : Timestamp) (op : StoreOperation)
    (id : ReceiptId) (r r' : Receipt) (e : Event)
    (Hreach : store_reachable capacity s) (Hr : ws_writes (ms_state s) !! id = Some r)
    (Hr' : ws_writes (ms_state (perform now op s).2) !! id = Some r')
    (Hsigned : lw_event (rc_current r') = Signed e) :
  lw_event (rc_current r) = Signed e ∨
  ∃ u, lw_event (rc_current r) = Unsigned u ∧ event_verify e = None ∧ same_view u e = true ∧
       pub_signature (rc_publication r) = SigAuthorized ∧
       pub_revision_id (rc_publication r') = pub_revision_id (rc_publication r).
Proof.
  destruct (perform_receipt _ now op _ _ _ Hreach Hr) as [[Hn _]|(x & Hx & Hs)]; [congruence|].
  assert (x = r') as -> by congruence. destruct Hs as [->|[Hs|Hs]]; [by left|..].
  - destruct (rs_event _ _ Hs) as [[He _]|(u & e' & Hu & He & Hv & Hsv & Hsig & _)].
    + left. by rewrite <- He.
    + right. assert (e' = e) as -> by congruence. exists u. split_and!; try done; [|apply Hs].
      destruct Hsig as [|Hsig]; [done|]. destruct (reachable_ok _ _ Hreach) as (Hok & _ & _).
      pose proof (ro_signed _ _ _ (so_writes _ Hok _ _ Hr)) as Hsd. rewrite Hu, Hsig in Hsd.
      by rewrite bool_decide_eq_true_2 in Hsd.
  - destruct (rr_event _ _ _ Hs) as (u & Hu & _). congruence.
Qed.

End machine.

(** ** Runs and witnesses *)

Module StoreRuns.
Definition run (capacity : nat) (ops : list StoreOperation) : MemoryWriteStore :=
  foldl (λ s op, (perform 0 op s).2) (store_bounded capacity) ops.

Lemma run_reachable capacity ops : store_reachable capacity (run capacity ops).
Proof.
  unfold run. generalize (reach_new capacity). generalize (store_bounded capacity).
  induction ops as [|op ops IH]; intros s Hs; [done|]. simpl. by apply IH, reach_perform.
Qed.

Definition unsigned (id created_at kind : N) : UnsignedEvent := mkUnsigned (Some id) 1 created_at kind [] "".
Definition signed (id created_at kind : N) : Event := mkEvent id 1 created_at kind [] "" id.
Definition note_intent : WriteIntent :=
  mkIntent (PayloadEvent (unsigned 7 10 1)) (Explicit ["wss://a"]) Unauthenticated.

(** One explicit write, signed and delivered. *)
Definition to_authorized : list StoreOperation := [DoAccept note_intent; DoAuthorize 1 1 1 7].
Definition to_delivered : list StoreOperation :=
  to_authorized ++ [DoInstallSigned 1 1 1 7 (signed 7 10 1); DoBeginAttempt 1 1 1 7 "wss://a" 1;
                    DoRecordOutcome 1 1 1 7 "wss://a" 1 (Acknowledged "saved")].

Definition receipt_of (s : MemoryWriteStore) : Receipt :=
  default (mkReceipt 0 0 (mkLocal 0 (Unsigned (unsigned 0 0 0)) (mkPublication 0 0 0 None None [] SigUnsigned ∅))
             Automatic Unauthenticated Open 0 false [] ∅ ∅) (ws_writes (ms_state s) !! 1%N).

Lemma store_invariant_witness : store_ok (ms_state (run 4 to_delivered)).
Proof. apply (store_invariant 4 (run 4 to_delivered)). apply run_reachable. Defined.

Lemma store_refusals_atomic_witness :
  (perform 0 (DoRemove 1) (run 4 to_authorized)).2 = run 4 to_authorized.
Proof.
  destruct (perform 0 (DoRemove 1) (run 4 to_authorized)) as [r s'] eqn:E.
  assert (Hr : r = Err (StoreRefused "active receipt cannot be removed")).
  { change r with ((r, s').1). rewrite <- E. vm_compute. reflexivity. }
  subst r.
  destruct (store_refusals_atomic 4 (run 4 to_authorized) 0 (DoRemove 1) _ s' (run_reachable _ _) E)
    as [Hs|(n & Hn & _)]; [exact Hs|discriminate Hn].
Defined.

(** A removal request after delivery: the acknowledged outcome is still there, or the receipt is gone. *)
Lemma delivery_facts_permanent_witness :
  let s := run 4 to_delivered in
  (ws_writes (ms_state (perform 0 (DoRemove 1) s).2) !! 1%N = None ∧
   receipt_is_terminal (receipt_of s) = true) ∨
  ∃ r', ws_writes (ms_state (perform 0 (DoRemove 1) s).2) !! 1%N = Some r'.
Proof.
  intros s.
  destruct (delivery_facts_permanent 4 s 0 (DoRemove 1) 1 (receipt_of s) "wss://a" (Acknowledged "saved"))
    as [Hgone|(r' & Hr' & _)].
  - apply run_reachable.
  - vm_compute. reflexivity.
  - vm_compute. reflexivity.
  - reflexivity.
  - left. exact Hgone.
  - right. exists r'. exact Hr'.
Defined.

Lemma signing_gate_witness :
  let s := run 4 to_authorized in
  let s' := (perform 0 (DoInstallSigned 1 1 1 7 (signed 7 10 1)) s).2 in
  lw_event (rc_current (receipt_of s')) = Signed (signed 7 10 1) ∧
  (lw_event (rc_current (receipt_of s)) = Signed (signed 7 10 1) ∨
   ∃ u, lw_event (rc_current (receipt_of s)) = Unsigned u ∧ same_view u (signed 7 10 1) = true).
Proof.
  intros s s'. split; [vm_compute; reflexivity|].
  destruct (signing_gate 4 s 0 (DoInstallSigned 1 1 1 7 (signed 7 10 1)) 1 (receipt_of s) (receipt_of s')
              (signed 7 10 1)) as [He|(u & Hu & _ & Hv & _)].
  - apply run_reachable.
  - vm_compute. reflexivity.
  - vm_compute. reflexivity.
  - vm_compute. reflexivity.
  - left. exact He.
  - right. exists u. split; [exact Hu|exact Hv].
Defined.

(** ** A revision that closes its receipt keeps its coordinate *)

Definition edit : EventEdit := mkEdit 10002 None [1%N].
Definition edit' : EventEdit := mkEdit 10002 None [2%N].
Definition edit_intent (e : EventEdit) : WriteIntent := mkIntent (PayloadEdit e 1) Automatic Unauthenticated.
Definition empty_route : RoutePlan := mkPlan 1 ∅ ∅ ∅ [].

(** Accept an edit, correct it under a settled route with no destination,
    fill the one slot of the store, then compose onto the closed receipt. *)
Definition closing : list StoreOperation :=
  [DoAcceptEdit (edit_intent edit) (unsigned 5 10 10002) None;
   DoInstallRevision 1 1 1 None [edit] (unsigned 6 30 10002) (Some (Signed (signed 4 20 10002)))
     (Some empty_route)].
Definition reopening : list StoreOperation :=
  closing ++ [DoAccept note_intent;
              DoAcceptEdit (edit_intent edit') (unsigned 8 40 10002) (Some (Unsigned (unsigned 6 30 10002)))].

(** A source correction under a settled, empty route closes its receipt
    without releasing the coordinate it owns, so a later edit of that
    coordinate reopens the terminal receipt outside the capacity check: a
    reachable store of capacity one then holds two active writes. *)
Theorem terminal_custody_breaks_capacity :
  (receipt_is_terminal (receipt_of (run 1 closing)) = true ∧
   ws_coordinates (ms_state (run 1 closing)) !! edit_coordinate edit 1 = Some 1%N) ∧
  store_reachable 1 (run 1 reopening) ∧ active_count (ms_state (run 1 reopening)) = 2 ∧
  receipt_is_terminal (receipt_of (run 1 reopening)) = false.
Proof.
  split_and!; [vm_compute; reflexivity|vm_compute; reflexivity|apply run_reachable|..];
    vm_compute; reflexivity.
Qed.
End StoreRuns.
