(* ===== verification/Session.v ===== *)
(** * The account session ([crates/fava-session])

    The bounded set of accounts, the current selection and the exact-key signer
    attachments of one running engine, with the revision every committed
    mutation advances ([lib.rs]).  A provider of the trait [Signer]
    ([crates/fava-signer]) is any type with an instance of the class below.  The
    mutex makes each method one atomic step, so a run is a sequence of
    operations; the watched revision is the value last sent. *)

From S2P Require Import Prelude Nostr.

Inductive SignerAvailability := Available | Unavailable.

Inductive SignerError :=
| SignerUnavailable (reason : string)
| SignerRejected (reason : string)
| SigningCancelled
| InvalidOutput (reason : string).

(** The trait [Signer]; [future] stands for the boxed future [sign_event]
    returns, and calling the provider may panic. *)
Class Signer (signer future : Type) := {
  signer_public_key : signer → PublicKey;
  signer_availability : signer → SignerAvailability;
  signer_sign_event : signer → UnsignedEvent → outcome future;
  (** [std::future::ready]. *)
  ready : result SignerError Event → future
}.

Inductive SessionError :=
| DuplicateAccount (k : PublicKey)
| MissingAccount (k : PublicKey)
| AccountCapacityExceeded (limit : nat)
| DuplicateSigner (k : PublicKey)
| MissingSigner (k : PublicKey)
| GenerationExhausted.

Definition ACCOUNT_CAPACITY : nat := 64.

Definition session_next_revision (current : N) : result SessionError N :=
  ok_or (checked_succ current) GenerationExhausted.

Section session.
Context {signer future : Type} `{Nostr} `{!Signer signer future}.

Record Attachment := mkAttachment {
  at_generation : N;
  at_signer : signer
}.

Record SessionState := mkSessionState {
  st_accounts : gset PublicKey;
  st_signers : gmap PublicKey Attachment;
  st_current_account : option PublicKey;
  st_current_account_revision : N;
  st_revision : N
}.

(** [Inner]: the guarded state and the value of the watch channel. *)
Record Session := mkSession {
  ses_state : SessionState;
  ses_signal : N
}.

Definition SessionOp (A : Type) : Type := stateM Session SessionError A.
#[local] Instance session_ret : MRet SessionOp := fun A => mret (M := stateM Session SessionError).
#[local] Instance session_bind : MBind SessionOp := fun A B => mbind (M := stateM Session SessionError).

Definition session_lock : SessionOp SessionState := fun s => (Ok (ses_state s), s).
Definition session_try {A} (r : result SessionError A) : SessionOp A := fun s => (r, s).
Definition session_require (b : bool) (e : SessionError) : SessionOp unit := session_try (ensure b e).

Definition with_accounts (accounts : gset PublicKey) (st : SessionState) : SessionState :=
  mkSessionState accounts (st_signers st) (st_current_account st) (st_current_account_revision st)
    (st_revision st).
Definition with_signers (signers : gmap PublicKey Attachment) (st : SessionState) : SessionState :=
  mkSessionState (st_accounts st) signers (st_current_account st) (st_current_account_revision st)
    (st_revision st).
Definition with_selection (current : option PublicKey) (revision : N) (st : SessionState) : SessionState :=
  mkSessionState (st_accounts st) (st_signers st) current revision (st_revision st).

(** The mutated guard stored under the new revision, which the channel sends. *)
Definition commit_revision (state : SessionState) (revision : N) : SessionOp unit :=
  fun _ => (Ok tt, mkSession (mkSessionState (st_accounts state) (st_signers state)
                                (st_current_account state) (st_current_account_revision state) revision)
                     revision).

(** ** Construction *)

(** One turn of the loop of [Session::new]. *)
Definition session_new_step (acc : gset PublicKey * gmap PublicKey Attachment * N) (s : signer)
    : result SessionError (gset PublicKey * gmap PublicKey Attachment * N) :=
  let '(accounts, indexed, revision) := acc in
  let public_key := signer_public_key s in
  if bool_decide (is_Some (indexed !! public_key)) then Err (DuplicateSigner public_key)
  else if bool_decide (size accounts = ACCOUNT_CAPACITY) then Err (AccountCapacityExceeded ACCOUNT_CAPACITY)
  else
    revision ← session_next_revision revision;
    Ok (accounts ∪ {[public_key]}, <[public_key := mkAttachment revision s]> indexed, revision).

Fixpoint session_new_loop (acc : gset PublicKey * gmap PublicKey Attachment * N) (signers : list signer)
    : result SessionError (gset PublicKey * gmap PublicKey Attachment * N) :=
  match signers with
  | [] => Ok acc
  | s :: signers => acc ← session_new_step acc s; session_new_loop acc signers
  end.

Definition Session_new (signers : list signer) : result SessionError Session :=
  '(accounts, indexed, revision) ← session_new_loop (∅, ∅, 0%N) signers;
  Ok (mkSession (mkSessionState accounts indexed None 0 revision) revision).

(** ** Accounts and the current selection *)

Definition add_account (public_key : PublicKey) : SessionOp unit :=
  state ← session_lock;
  _ ← session_require (negb (bool_decide (public_key ∈ st_accounts state))) (DuplicateAccount public_key);
  _ ← session_require (negb (bool_decide (size (st_accounts state) = ACCOUNT_CAPACITY)))
        (AccountCapacityExceeded ACCOUNT_CAPACITY);
  revision ← session_try (session_next_revision (st_revision state));
  commit_revision (with_accounts (st_accounts state ∪ {[public_key]}) state) revision.

Definition select_account (public_key : PublicKey) : SessionOp unit :=
  state ← session_lock;
  _ ← session_require (bool_decide (public_key ∈ st_accounts state)) (MissingAccount public_key);
  if bool_decide (st_current_account state = Some public_key) then mret tt
  else
    revision ← session_try (session_next_revision (st_revision state));
    commit_revision (with_selection (Some public_key) revision state) revision.

Definition clear_current_account : SessionOp unit :=
  state ← session_lock;
  if bool_decide (st_current_account state = None) then mret tt
  else
    revision ← session_try (session_next_revision (st_revision state));
    commit_revision (with_selection None revision state) revision.

Definition remove_account (public_key : PublicKey) : SessionOp unit :=
  state ← session_lock;
  _ ← session_require (bool_decide (public_key ∈ st_accounts state)) (MissingAccount public_key);
  revision ← session_try (session_next_revision (st_revision state));
  let state := with_accounts (st_accounts state ∖ {[public_key]}) state in
  let state := with_signers (delete public_key (st_signers state)) state in
  commit_revision (if bool_decide (st_current_account state = Some public_key)
                   then with_selection None revision state else state) revision.

Definition session_accounts (s : Session) : list PublicKey := ordered_elements (st_accounts (ses_state s)).
Definition session_current_account (s : Session) : option PublicKey := st_current_account (ses_state s).
Definition session_revision (s : Session) : N := st_revision (ses_state s).

Definition current_account_snapshot (s : Session) : option PublicKey * N :=
  (st_current_account (ses_state s), st_current_account_revision (ses_state s)).

(** The callback runs under the lock, so it is the value it returns. *)
Definition if_current_account {R} (s : Session) (expected : option PublicKey * N) (action : unit → R) : option R :=
  if bool_decide (current_account_snapshot s = expected) then Some (action tt) else None.

(** ** Signer attachments *)

Definition add_signer (sg : signer) : SessionOp unit :=
  let public_key := signer_public_key sg in
  state ← session_lock;
  _ ← session_require (negb (bool_decide (is_Some (st_signers state !! public_key)))) (DuplicateSigner public_key);
  _ ← session_require (negb (negb (bool_decide (public_key ∈ st_accounts state))
                             && bool_decide (size (st_accounts state) = ACCOUNT_CAPACITY)))
        (AccountCapacityExceeded ACCOUNT_CAPACITY);
  revision ← session_try (session_next_revision (st_revision state));
  let state := with_accounts (st_accounts state ∪ {[public_key]}) state in
  commit_revision (with_signers (<[public_key := mkAttachment revision sg]> (st_signers state)) state) revision.

Definition replace_signer (sg : signer) : SessionOp unit :=
  let public_key := signer_public_key sg in
  state ← session_lock;
  _ ← session_require (bool_decide (is_Some (st_signers state !! public_key))) (MissingSigner public_key);
  revision ← session_try (session_next_revision (st_revision state));
  commit_revision (with_signers (<[public_key := mkAttachment revision sg]> (st_signers state)) state) revision.

Definition remove_signer (public_key : PublicKey) : SessionOp unit :=
  state ← session_lock;
  _ ← session_require (bool_decide (is_Some (st_signers state !! public_key))) (MissingSigner public_key);
  revision ← session_try (session_next_revision (st_revision state));
  commit_revision (with_signers (delete public_key (st_signers state)) state) revision.

Definition session_signer (s : Session) (public_key : PublicKey) : option (N * SignerAvailability) :=
  attachment ← st_signers (ses_state s) !! public_key;
  Some (at_generation attachment, signer_availability (at_signer attachment)).

Definition panicked_reason (generation : N) (public_key : PublicKey) : string :=
  "signer attachment generation " +:+ pretty generation +:+ " for " +:+ public_key_to_hex public_key
  +:+ " panicked during provider invocation".

Definition invoke_signer (s : Session) (public_key : PublicKey) (generation : N) (event : UnsignedEvent)
    : option future :=
  attachment ← st_signers (ses_state s) !! public_key;
  if bool_decide (at_generation attachment = generation)
  then Some (match signer_sign_event (at_signer attachment) event with
             | Returned f => f
             | Panicked => ready (Err (SignerUnavailable (panicked_reason generation public_key)))
             end)
  else None.

Definition is_current (s : Session) (public_key : PublicKey) (generation : N) : bool :=
  match st_signers (ses_state s) !! public_key with
  | Some attachment => bool_decide (at_generation attachment = generation)
  | None => false
  end.

(** ** Runs: any sequence of calls, refused ones included *)

Inductive SessionCall :=
| CallAddAccount (k : PublicKey)
| CallSelectAccount (k : PublicKey)
| CallClearCurrentAccount
| CallRemoveAccount (k : PublicKey)
| CallAddSigner (sg : signer)
| CallReplaceSigner (sg : signer)
| CallRemoveSigner (k : PublicKey).

Definition session_perform (call : SessionCall) : SessionOp unit :=
  match call with
  | CallAddAccount k => add_account k
  | CallSelectAccount k => select_account k
  | CallClearCurrentAccount => clear_current_account
  | CallRemoveAccount k => remove_account k
  | CallAddSigner sg => add_signer sg
  | CallReplaceSigner sg => replace_signer sg
  | CallRemoveSigner k => remove_signer k
  end.

Definition session_after (s : Session) (call : SessionCall) : Session := (session_perform call s).2.
Definition session_run : Session → list SessionCall → Session := foldl session_after.

Inductive session_reachable : Session → Prop :=
| session_started signers s : Session_new signers = Ok s → session_reachable s
| session_continued s call : session_reachable s → session_reachable (session_after s call).

(** ** The contract *)

(** Each attachment belongs to an account, sits under its signer's key and has
    a generation of its own, none above [revision]. *)
Definition attachments_ok (accounts : gset PublicKey) (signers : gmap PublicKey Attachment) (revision : N) : Prop :=
  (∀ k a, signers !! k = Some a →
    k ∈ accounts ∧ signer_public_key (at_signer a) = k ∧ (0 < at_generation a ≤ revision)%N) ∧
  (∀ k1 k2 a1 a2, signers !! k1 = Some a1 → signers !! k2 = Some a2 →
    at_generation a1 = at_generation a2 → k1 = k2).

(** A coherent session: bounded accounts that include every attachment and the
    selection, attachments under their own key, each with a generation of its
    own, and no revision above the published one. *)
Record session_ok (s : Session) : Prop := {
  ok_capacity : size (st_accounts (ses_state s)) ≤ ACCOUNT_CAPACITY;
  ok_attachments : attachments_ok (st_accounts (ses_state s)) (st_signers (ses_state s)) (session_revision s);
  ok_current : ∀ k, st_current_account (ses_state s) = Some k → k ∈ st_accounts (ses_state s);
  ok_current_revision : (st_current_account_revision (ses_state s) ≤ session_revision s)%N;
  ok_revision : (session_revision s ≤ u64_max)%N;
  ok_signal : ses_signal s = session_revision s
}.

(** What one committed mutation may do to the guarded state. *)
Inductive session_commit : SessionState → SessionState → N → Prop :=
| commit_retain st k rev : k ∉ st_accounts st → size (st_accounts st) ≠ ACCOUNT_CAPACITY →
    session_commit st (with_accounts (st_accounts st ∪ {[k]}) st) rev
| commit_select st c rev : c ≠ st_current_account st → (∀ k, c = Some k → k ∈ st_accounts st) →
    session_commit st (with_selection c rev st) rev
| commit_forget st k rev : k ∈ st_accounts st →
    session_commit st
      (let st := with_signers (delete k (st_signers st)) (with_accounts (st_accounts st ∖ {[k]}) st) in
       if bool_decide (st_current_account st = Some k) then with_selection None rev st else st) rev
| commit_attach st sg rev :
    signer_public_key sg ∈ st_accounts st ∨ size (st_accounts st) ≠ ACCOUNT_CAPACITY →
    session_commit st
      (with_signers (<[signer_public_key sg := mkAttachment rev sg]> (st_signers st))
         (with_accounts (st_accounts st ∪ {[signer_public_key sg]}) st)) rev
| commit_replace st sg rev : is_Some (st_signers st !! signer_public_key sg) →
    session_commit st (with_signers (<[signer_public_key sg := mkAttachment rev sg]> (st_signers st)) st) rev
| commit_detach st k rev :
    session_commit st (with_signers (delete k (st_signers st)) st) rev.

Definition committed_session (st : SessionState) (rev : N) : Session := (commit_revision st rev (mkSession st 0)).2.

(** ** Every call either keeps the session or commits one mutation *)

Ltac run_session_call :=
  cbv [session_perform add_account select_account clear_current_account remove_account add_signer
       replace_signer remove_signer mbind session_bind stateM_bind session_lock session_require session_try
       ensure session_next_revision ok_or checked_succ mret session_ret stateM_ret session_revision];
  repeat (case_bool_decide; simpl); auto.

Lemma commit_forgotten st k rev st' : k ∈ st_accounts st →
  (let st := with_signers (delete k (st_signers st)) (with_accounts (st_accounts st ∖ {[k]}) st) in
   if bool_decide (st_current_account st = Some k) then with_selection None rev st else st) = st' →
  session_commit st st' rev.
Proof. intros Hin <-. by apply commit_forget. Qed.

Lemma session_perform_cases call s :
  (∃ r, session_perform call s = (r, s)) ∨
  ∃ st, session_perform call s = (Ok tt, committed_session st (session_revision s + 1)) ∧
        session_commit (ses_state s) st (session_revision s + 1) ∧ (session_revision s < u64_max)%N.
Proof.
  destruct call; run_session_call; eauto; right; eexists; (split; [reflexivity|split; [|done]]).
  all: first [apply commit_retain; done | apply commit_attach; auto; fail | apply commit_replace; done
             | apply commit_detach | apply commit_select; naive_solver
             | eapply commit_forgotten; [done|simpl; by case_bool_decide]].
Qed.

Lemma session_after_cases call s :
  session_after s call = s ∨
  ∃ st, session_after s call = committed_session st (session_revision s + 1) ∧
        session_commit (ses_state s) st (session_revision s + 1) ∧ (session_revision s < u64_max)%N.
Proof.
  unfold session_after. destruct (session_perform_cases call s) as [[r ->]|(st & -> & ?)]; eauto.
Qed.

(** ** The invariant *)

Lemma attachments_mono accounts accounts' signers revision revision' :
  attachments_ok accounts signers revision → accounts ⊆ accounts' → (revision ≤ revision')%N →
  attachments_ok accounts' signers revision'.
Proof.
  intros [Hok Hgen] Hsub Hle. split; [|done]. intros k a Ha.
  destruct (Hok k a Ha) as (? & ? & ?). split_and!; [set_solver|done|lia..].
Qed.

Lemma attachments_attach accounts signers revision sg :
  attachments_ok accounts signers revision →
  attachments_ok (accounts ∪ {[signer_public_key sg]}) (<[signer_public_key sg := mkAttachment (revision + 1) sg]> signers) (revision + 1).
Proof.
  intros [Hok Hgen]. split.
  - intros k a [[<- <-]|[? Ha]]%lookup_insert_Some; simpl; [split_and!; [set_solver|done|lia|lia]|].
    destruct (Hok k a Ha) as (? & ? & ?). split_and!; [set_solver|done|lia|lia].
  - intros k1 k2 a1 a2 [[<- <-]|[? H1]]%lookup_insert_Some [[<- <-]|[? H2]]%lookup_insert_Some; simpl; eauto.
    + destruct (Hok k2 a2 H2) as (_ & _ & ?). lia.
    + destruct (Hok k1 a1 H1) as (_ & _ & ?). lia.
Qed.

Lemma attachments_detach accounts signers revision revision' k :
  attachments_ok accounts signers revision → (revision ≤ revision')%N →
  attachments_ok (accounts ∖ {[k]}) (delete k signers) revision'.
Proof.
  intros [Hok Hgen] Hle. split.
  - intros k' a [? Ha]%lookup_delete_Some. destruct (Hok k' a Ha) as (? & ? & ?).
    split_and!; [set_solver|done|lia..].
  - intros k1 k2 a1 a2 [_ ?]%lookup_delete_Some [_ ?]%lookup_delete_Some. eauto.
Qed.

Lemma account_fits (accounts : gset PublicKey) k :
  size accounts ≤ ACCOUNT_CAPACITY → k ∈ accounts ∨ size accounts ≠ ACCOUNT_CAPACITY →
  size (accounts ∪ {[k]}) ≤ ACCOUNT_CAPACITY.
Proof.
  intros Hle Hk. destruct (decide (k ∈ accounts)) as [Hin|Hout].
  - by replace (accounts ∪ {[k]}) with accounts by set_solver.
  - rewrite size_union, size_singleton by set_solver. destruct Hk; [done|]. lia.
Qed.

#[local] Hint Resolve account_fits attachments_attach attachments_detach : session.

Lemma session_commit_ok s st :
  session_ok s → session_commit (ses_state s) st (session_revision s + 1) →
  (session_revision s < u64_max)%N → session_ok (committed_session st (session_revision s + 1)).
Proof.
  intros [Hcap Hatt Hcur Hcr Hrev Hsignal] Hc Hlt. unfold session_revision in *.
  assert (Hlater : ∀ accounts, st_accounts (ses_state s) ⊆ accounts →
    attachments_ok accounts (st_signers (ses_state s)) (st_revision (ses_state s) + 1))
    by (intros; eapply attachments_mono; [done|done|lia]).
  inversion Hc as [? k ? Hk Hsize|? c ? Hne Hc'|? k ? Hk|? sg ? Hfit|? sg ? [a Ha]|? k ?]; subst; clear Hc;
    simpl; try case_bool_decide; split; unfold session_revision; simpl; try done; try lia; auto with session.
  all: try (intros k' Hk'; specialize (Hcur k' Hk'); set_solver).
  - apply Hlater. set_solver.
  - trans (size (st_accounts (ses_state s))); [apply subseteq_size; set_solver|done].
  - eapply attachments_detach; [done|lia].
  - trans (size (st_accounts (ses_state s))); [apply subseteq_size; set_solver|done].
  - eapply attachments_detach; [done|lia].
  - eapply attachments_mono; [by apply attachments_attach| |done].
    destruct (proj1 Hatt _ _ Ha). set_solver.
  - eapply attachments_mono; [eapply attachments_detach; [done|]| |done]; [lia|set_solver].
Qed.

Lemma session_new_step_ok accounts indexed revision sg acc :
  session_ok (mkSession (mkSessionState accounts indexed None 0 revision) revision) →
  session_new_step (accounts, indexed, revision) sg = Ok acc →
  session_ok (mkSession (mkSessionState acc.1.1 acc.1.2 None 0 acc.2) acc.2).
Proof.
  intros Hok. unfold session_new_step. case_bool_decide; [done|]. case_bool_decide as Hsize; [done|].
  intros (rev & Hrev & [= <-])%bind_Ok. unfold session_next_revision in Hrev.
  apply ok_or_Ok, checked_succ_Some in Hrev as [Hlt ->].
  pose proof (commit_attach (mkSessionState accounts indexed None 0 revision) sg (revision + 1)
    (or_intror Hsize)) as Hc.
  exact (session_commit_ok _ _ Hok Hc Hlt).
Qed.

Lemma session_new_loop_ok signers acc acc' :
  session_ok (mkSession (mkSessionState acc.1.1 acc.1.2 None 0 acc.2) acc.2) →
  session_new_loop acc signers = Ok acc' →
  session_ok (mkSession (mkSessionState acc'.1.1 acc'.1.2 None 0 acc'.2) acc'.2).
Proof.
  revert acc. induction signers as [|sg signers IH]; simpl; intros [[accounts indexed] revision] Hok.
  - by intros [= <-].
  - intros (acc & Hstep & Hrest)%bind_Ok. eapply IH; [|done]. by eapply session_new_step_ok.
Qed.

Lemma session_empty_ok : session_ok (mkSession (mkSessionState ∅ ∅ None 0 0) 0).
Proof.
  split; try done. unfold ACCOUNT_CAPACITY. cbn [ses_state st_accounts]. rewrite size_empty. lia.
Qed.

Lemma session_new_ok signers s : Session_new signers = Ok s → session_ok s.
Proof.
  unfold Session_new. intros ([[accounts indexed] revision] & Hloop & [= <-])%bind_Ok.
  exact (session_new_loop_ok _ (∅, ∅, 0%N) _ session_empty_ok Hloop).
Qed.

Lemma session_after_ok s call : session_ok s → session_ok (session_after s call).
Proof.
  intros Hok. destruct (session_after_cases call s) as [->|(st & -> & Hc & Hlt)]; [done|].
  by apply session_commit_ok.
Qed.

Lemma session_reachable_ok s : session_reachable s → session_ok s.
Proof. induction 1; eauto using session_new_ok, session_after_ok. Qed.

Lemma session_run_ok s calls : session_ok s → session_ok (session_run s calls).
Proof. revert s. induction calls; simpl; eauto using session_after_ok. Qed.

Lemma session_run_app s before after :
  session_run s (before ++ after) = session_run (session_run s before) after.
Proof. apply foldl_app. Qed.

(** ** What a later session still knows of an earlier one *)

(** A commit that changes the selection gives it the new revision. *)
Lemma session_commit_selection st st' rev :
  session_commit st st' rev →
  (st_current_account st', st_current_account_revision st') =
    (st_current_account st, st_current_account_revision st) ∨
  (st_current_account st' ≠ st_current_account st ∧ st_current_account_revision st' = rev).
Proof.
  destruct 1; simpl; auto. case_bool_decide as Hc; simpl in *; [right; rewrite Hc|]; auto.
Qed.

(** A commit attaches nothing but its own revision. *)
Lemma session_commit_attachment st st' rev k a :
  session_commit st st' rev → st_signers st' !! k = Some a → at_generation a ≠ rev →
  st_signers st !! k = Some a.
Proof.
  destruct 1; simpl; auto.
  - case_bool_decide; simpl; intros [_ ?]%lookup_delete_Some; auto.
  - intros [[<- <-]|[_ ?]]%lookup_insert_Some; simpl; congruence.
  - intros [[<- <-]|[_ ?]]%lookup_insert_Some; simpl; congruence.
  - intros [_ ?]%lookup_delete_Some; auto.
Qed.

(** Selections of a later session: the same one, or a newer revision. *)
Definition selection_later (s s' : Session) : Prop :=
  current_account_snapshot s' = current_account_snapshot s ∨
  ((current_account_snapshot s').2 > session_revision s)%N.

Lemma session_after_selection s call :
  selection_later s (session_after s call) ∧ (session_revision s ≤ session_revision (session_after s call))%N.
Proof.
  destruct (session_after_cases call s) as [->|(st & -> & Hc & Hlt)]; [by split; [left|]|].
  split; [|unfold session_revision; simpl; lia]. unfold selection_later, current_account_snapshot; simpl.
  destruct (session_commit_selection _ _ _ Hc) as [->|[_ ->]]; [by left|right; lia].
Qed.

Lemma session_run_selection s calls :
  session_ok s → selection_later s (session_run s calls) ∧ (session_revision s ≤ session_revision (session_run s calls))%N.
Proof.
  revert s. induction calls as [|call calls IH]; intros s Hok; [by split; [left|]|]. simpl.
  destruct (session_after_selection s call) as [Hl Hle].
  destruct (IH _ (session_after_ok s call Hok)) as [Hl' Hle']. split; [|lia].
  unfold selection_later in *. destruct Hl' as [->|Hgt]; [done|]. right. lia.
Qed.

Lemma is_current_attachment s k g :
  is_current s k g = true ↔ ∃ a, st_signers (ses_state s) !! k = Some a ∧ at_generation a = g.
Proof.
  unfold is_current. destruct (st_signers (ses_state s) !! k); [rewrite bool_decide_eq_true|]; naive_solver.
Qed.

Lemma session_after_is_current s call k g :
  is_current (session_after s call) k g = true → (g ≤ session_revision s)%N → is_current s k g = true.
Proof.
  rewrite !is_current_attachment. intros (a & Ha & <-) Hle.
  destruct (session_after_cases call s) as [E|(st & E & Hc & Hlt)]; rewrite E in Ha; [by eauto|].
  exists a. split; [|done]. eapply session_commit_attachment; [done..|]. lia.
Qed.

Lemma session_run_is_current s calls k g :
  session_ok s → is_current (session_run s calls) k g = true → (g ≤ session_revision s)%N →
  is_current s k g = true.
Proof.
  revert s. induction calls as [|call calls IH]; intros s Hok; simpl; [done|]. intros Hcur Hle.
  eapply session_after_is_current; [|done]. apply IH; [by apply session_after_ok|done|].
  destruct (session_after_selection s call) as [_ ?]. lia.
Qed.

Lemma invoke_signer_current s k g event : invoke_signer s k g event = None ↔ is_current s k g = false.
Proof.
  unfold invoke_signer, is_current. destruct (st_signers (ses_state s) !! k); simpl; [|done].
  by case_bool_decide.
Qed.

(** ** Properties *)

(** Every session an engine can reach is coherent: at most
    [ACCOUNT_CAPACITY] accounts, each attachment under its signer's own key and
    of a retained account, generations distinct and never above the revision,
    the selection a retained account, and the watched value the committed
    revision; a refused call leaves the session exactly as it was. *)
Theorem session_invariant (s : Session) (Hreach : session_reachable s) :
  session_ok s ∧ ∀ call e, (session_perform call s).1 = Err e → session_after s call = s.
Proof.
  split; [by apply session_reachable_ok|]. intros call e. unfold session_after.
  destruct (session_perform_cases call s) as [[r ->]|(st & -> & _)]; done.
Qed.

(** The selection a caller snapshots is safe to act on later: whatever calls
    ran in between, if [if_current_account] still admits the snapshot then the
    selection was that one throughout, in every state on the way; a selection
    left and taken again is a different one. *)
Theorem session_selection_no_aba {R} (s : Session) (Hreach : session_reachable s) (calls : list SessionCall)
    (action : unit → R) (r : R)
    (Hadmit : if_current_account (session_run s calls) (current_account_snapshot s) action = Some r) :
  ∀ before after, calls = before ++ after →
    current_account_snapshot (session_run s before) = current_account_snapshot s.
Proof.
  apply session_reachable_ok in Hreach as Hok. unfold if_current_account in Hadmit.
  case_bool_decide as Hsame; [|done]. intros before after ->.
  rewrite session_run_app in Hsame.
  destruct (session_run_selection s before Hok) as [Hb Hle].
  pose proof (session_run_ok s before Hok) as Hok'.
  destruct (session_run_selection _ after Hok') as [[Ha|Ha] _].
  - congruence.
  - exfalso. rewrite Hsame in Ha. pose proof (ok_current_revision _ Hok). simpl in Ha. lia.
Qed.

(** An attachment generation that is not current never becomes current
    again: after any calls it is still stale and [invoke_signer] invokes no
    provider under it, so work authorised for a replaced or removed signer
    reaches neither the old nor the new one. *)
Theorem session_stale_generation (s : Session) (Hreach : session_reachable s) (k : PublicKey) (g : N)
    (Hstale : is_current s k g = false) (Hissued : (g ≤ session_revision s)%N) (calls : list SessionCall)
    (event : UnsignedEvent) :
  is_current (session_run s calls) k g = false ∧ invoke_signer (session_run s calls) k g event = None.
Proof.
  apply session_reachable_ok in Hreach as Hok.
  assert (is_current (session_run s calls) k g = false) as Hlater; [|by rewrite invoke_signer_current].
  apply not_true_is_false. intros Hcur. apply session_run_is_current in Hcur; [|done..]. congruence.
Qed.
End session.

(** ** A concrete session *)

Module SessionWitness.
Import Nostr.Sample.

(** A provider that signs for one key, or panics when asked. *)
Record TestSigner := mkTestSigner { ts_key : PublicKey; ts_panics : bool }.

#[export] Instance test_signer : Signer TestSigner (result SignerError Event) := {|
  signer_public_key := ts_key;
  signer_availability := λ s, if ts_panics s then Unavailable else Available;
  signer_sign_event := λ s u,
    if ts_panics s then Panicked
    else Returned (Ok (mkEvent (default 0%N (un_id u)) (ts_key s) (un_created_at u) (un_kind u)
                        (un_tags u) (un_content u) 1));
  ready := id
|}.

Definition sample_event : UnsignedEvent := mkUnsigned (Some 9%N) 1 10 1 [] "hello".
Definition sample_session : Session :=
  session_run (mkSession (mkSessionState ∅ ∅ None 0 0) 0)
    [CallAddSigner (mkTestSigner 1 false); CallAddAccount 2; CallSelectAccount 1].
Definition sample_replaced : Session :=
  session_after sample_session (CallReplaceSigner (mkTestSigner 1 true)).

Lemma sample_reachable : session_reachable sample_session.
Proof.
  unfold sample_session, session_run. simpl.
  do 3 apply session_continued. by apply (session_started []).
Qed.

Example sample_session_runs :
  session_accounts sample_session = [1; 2]%N ∧ session_revision sample_session = 3%N ∧
  current_account_snapshot sample_session = (Some 1, 3)%N ∧
  is_current sample_session 1 1 = true ∧
  is_current sample_replaced 1 1 = false ∧ is_current sample_replaced 1 4 = true ∧
  invoke_signer sample_replaced 1 1 sample_event = None ∧
  session_signer sample_replaced 1 = Some (4%N, Unavailable) ∧
  (session_perform (CallAddAccount 2) sample_session).1 = Err (DuplicateAccount 2).
Proof. vm_compute. done. Qed.

Lemma session_invariant_witness : session_ok sample_session.
Proof. apply (session_invariant sample_session sample_reachable). Defined.

Lemma session_selection_no_aba_witness :
  current_account_snapshot (session_run sample_session [CallAddAccount 3]) = (Some 1, 3)%N.
Proof.
  apply (session_selection_no_aba sample_session sample_reachable
    [CallAddAccount 3; CallRemoveAccount 2] (λ _, 7) 7 eq_refl [CallAddAccount 3] [CallRemoveAccount 2]).
  reflexivity.
Defined.

Lemma session_stale_generation_witness :
  invoke_signer (session_run sample_replaced [CallRemoveSigner 1; CallAddSigner (mkTestSigner 1 false)])
    1 1 sample_event = None.
Proof.
  apply (session_stale_generation sample_replaced (session_continued _ _ sample_reachable) 1 1 eq_refl).
  by vm_compute.
Defined.
End SessionWitness.
