(* ===== verification/Delivery.v ===== *)
(** * Delivery: policy, attempts and the lane of one destination

    - [crates/fava-delivery], [crates/fava-delivery-standard]: the replaceable
      policy that decides the next action from durable facts, and the standard
      finite-attempt policy.
    - [crates/fava-publisher]: what one publication attempt is and what it may
      come back with.  The publisher itself is a parameter.
    - [crates/fava-publication/src/delivery.rs]: which lanes a receipt starts,
      the lane of one destination as a loop over the write store of
      [MemoryStore], one attempt, and how a published outcome is recorded.

    A publication answers or stays pending for good, and the lane waits with it.
    The loop [run_destination] has fuel; [lane_settles] gives the fuel that is
    enough, in terms of the attempts the policy still allows.  Between its steps
    the lane sees the store no other task changes; what any interleaving of
    store operations keeps is proved in [StoreInvariant]. *)

From S2P Require Import Prelude Nostr Relay State Write Query Routing Receipts MemoryStore StoreInvariant.

(** ** The policy *)

Record DeliveryFacts := mkFacts {
  df_attempts : N;
  df_outcome : RelayDeliveryOutcome
}.

Inductive DeliveryDecision :=
| AttemptNow
| GiveUp (reason : string)
| DecisionSettled.

(** The trait [DeliveryPolicy]. *)
Class DeliveryPolicy (policy : Type) := decide_delivery : policy → DeliveryFacts → DeliveryDecision.

(** [maximum_attempts] is a [NonZeroU32]. *)
Record StandardDeliveryPolicy := mkStandardPolicy { maximum_attempts : N }.

Definition StandardDeliveryPolicy_default : StandardDeliveryPolicy := mkStandardPolicy 1.

Definition ceiling_reason (maximum : N) (reason : string) : string :=
  "attempt ceiling " +:+ pretty maximum +:+ " reached after: " +:+ reason.

Definition standard_decide (policy : StandardDeliveryPolicy) (facts : DeliveryFacts) : DeliveryDecision :=
  match df_outcome facts with
  | Pending =>
      if bool_decide (df_attempts facts < maximum_attempts policy)%N then AttemptNow else DecisionSettled
  | Retryable reason =>
      if bool_decide (df_attempts facts < maximum_attempts policy)%N then AttemptNow
      else GiveUp (ceiling_reason (maximum_attempts policy) reason)
  | Attempting | Acknowledged _ | Rejected _ | AuthenticationDenied _ | GivenUp _ | Unknown _
  | CancelledBeforeHandoff => DecisionSettled
  end.

#[global] Instance standard_delivery : DeliveryPolicy StandardDeliveryPolicy := standard_decide.

Lemma standard_decide_attempts maximum attempts o :
  match o with Pending | Retryable _ => true | _ => false end = true → (attempts < maximum)%N →
  standard_decide (mkStandardPolicy maximum) (mkFacts attempts o) = AttemptNow.
Proof.
  intros Ho Hlt. unfold standard_decide.
  destruct o; try done; cbn [df_outcome df_attempts maximum_attempts]; by rewrite bool_decide_true.
Qed.

Lemma standard_decide_gives_up maximum attempts reason :
  (maximum ≤ attempts)%N →
  standard_decide (mkStandardPolicy maximum) (mkFacts attempts (Retryable reason)) =
    GiveUp (ceiling_reason maximum reason).
Proof.
  intros Hle. unfold standard_decide. cbn [df_outcome df_attempts maximum_attempts].
  rewrite bool_decide_false; [done|lia].
Qed.

(** ** One attempt *)

Record PublishAttempt := mkAttempt {
  pa_write_id : WriteId;
  pa_receipt_id : ReceiptId;
  pa_revision_id : RevisionId;
  pa_number : N;
  pa_session : RelayUrl;
  pa_authority : Authority;
  pa_event : Event;
  pa_timeout : N
}.

Inductive PublishOutcome :=
| PublishAcknowledged (message : string)
| PublishRejected (message : string)
| AuthenticationRequired (message : string)
| NotHandedOff (reason : string)
| OutcomeUnknown (reason : string).

(** Seconds. *)
Definition ATTEMPT_TIMEOUT : N := 5.

Definition delivery_outcome (outcome : PublishOutcome) : RelayDeliveryOutcome :=
  match outcome with
  | PublishAcknowledged message => Acknowledged message
  | PublishRejected message => Rejected message
  | AuthenticationRequired message => AuthenticationDenied message
  | NotHandedOff reason => Retryable reason
  | OutcomeUnknown reason => Unknown reason
  end.

(** ** Lanes *)

(** What identifies the work a lane was started for. *)
Record LaneKey := mkLane {
  lane_write_id : WriteId;
  lane_receipt_id : ReceiptId;
  lane_revision_id : RevisionId;
  lane_event_id : EventId;
  lane_route_revision : N
}.

Definition lane_key (r : Receipt) : LaneKey :=
  mkLane (rc_write_id r) (rc_receipt_id r) (pub_revision_id (rc_publication r)) (lw_id (rc_current r))
    (rc_route_revision r).

(** The guard of the loop of [start_lanes]. *)
Definition starts_lane (r : Receipt) (active : gmap RelayUrl LaneKey) (session : RelayUrl) : bool :=
  match rc_destinations r !! session with
  | None => false
  | Some outcome =>
      match outcome with Pending | Retryable _ => true | _ => false end
      && negb (bool_decide (is_Some (active !! session)))
  end.

(** [start_lanes]: the lanes it spawns, in order, and the lanes then active. *)
Definition start_lanes (r : Receipt) (active : gmap RelayUrl LaneKey)
    : list (RelayUrl * LaneKey) * gmap RelayUrl LaneKey :=
  match lw_event (rc_current r) with
  | Signed _ =>
      foldl (λ '(started, active) session,
               if starts_lane r active session
               then (started ++ [(session, lane_key r)], <[session := lane_key r]> active)
               else (started, active))
        ([], active) (ordered_elements (rc_desired_destinations r))
  | Unsigned _ => ([], active)
  end.

(** A lane that finished leaves the active lanes, unless another took its place. *)
Definition lane_finished (session : RelayUrl) (key : LaneKey) (active : gmap RelayUrl LaneKey)
    : gmap RelayUrl LaneKey :=
  match active !! session with
  | Some current =>
      if bool_decide (lane_write_id current = lane_write_id key)
         && bool_decide (lane_receipt_id current = lane_receipt_id key)
         && bool_decide (lane_revision_id current = lane_revision_id key)
         && bool_decide (lane_event_id current = lane_event_id key)
         && bool_decide (lane_route_revision current = lane_route_revision key)
      then delete session active else active
  | None => active
  end.

Section lane.
Context `{Nostr} {policy : Type} `{!DeliveryPolicy policy}.
Context (delivery : policy) (publish : PublishAttempt → option PublishOutcome).
Context (write_id : WriteId) (receipt_id : ReceiptId) (revision_id : RevisionId) (event_id : EventId)
        (session : RelayUrl).

(** What one turn of the loop of [run_destination] does: return, go round, or
    await a publication that stays pending. *)
Inductive LaneTurn :=
| LaneReturns (s : MemoryWriteStore)
| LaneContinues (s : MemoryWriteStore)
| LaneAwaits (s : MemoryWriteStore).

(** [attempt]: authorise the next attempt durably, publish, record the outcome. *)
Definition attempt (prior_attempts : N) (s : MemoryWriteStore) : LaneTurn :=
  match checked_succ32 prior_attempts with
  | None => LaneContinues s
  | Some attempt_number =>
      match begin_attempt write_id receipt_id revision_id event_id session attempt_number s with
      | (Err _, s) => LaneContinues s
      | (Ok r, s) =>
          match lw_event (rc_current r) with
          | Unsigned _ => LaneContinues s
          | Signed event =>
              match publish (mkAttempt (rc_write_id r) receipt_id revision_id attempt_number
                               session (rc_access r) event ATTEMPT_TIMEOUT) with
              | None => LaneAwaits s
              | Some outcome =>
                  LaneContinues (record_outcome write_id receipt_id revision_id event_id session attempt_number
                                   (delivery_outcome outcome) s).2
              end
          end
      end
  end.

Definition lane_turn (cancelled : bool) (s : MemoryWriteStore) : LaneTurn :=
  match (if cancelled then None else receipt receipt_id (ms_state s)) with
  | None => LaneReturns s
  | Some r =>
      if negb (bool_decide (rc_write_id r = write_id))
         || negb (bool_decide (pub_revision_id (rc_publication r) = revision_id))
         || negb (bool_decide (lw_id (rc_current r) = event_id))
         || negb (desires r session)
      then LaneReturns s
      else
        match rc_destinations r !! session with
        | None => LaneReturns s
        | Some outcome =>
            let attempts := default 0%N (rc_attempts r !! session) in
            match decide_delivery delivery (mkFacts attempts outcome) with
            | DecisionSettled => LaneReturns s
            | GiveUp reason =>
                LaneReturns (record_outcome write_id receipt_id revision_id event_id session attempts
                               (GivenUp reason) s).2
            | AttemptNow => attempt attempts s
            end
        end
  end.

(** The loop; [cancel] says whether the lane is cancelled when turn [n] reads
    the receipt.  It returns or awaits; [LaneContinues] is a lane still turning
    when the fuel is spent. *)
Fixpoint run_destination (fuel : nat) (cancel : nat → bool) (s : MemoryWriteStore) : LaneTurn :=
  match fuel with
  | O => LaneContinues s
  | S fuel =>
      match lane_turn (cancel O) s with
      | LaneContinues s => run_destination fuel (λ n, cancel (S n)) s
      | turn => turn
      end
  end.
End lane.

(** ** What the store answers an open lane *)

(** The receipt a lane works on: retained, open, current, signed, still wanted. *)
Record lane_open (write_id : WriteId) (receipt_id : ReceiptId) (revision_id : RevisionId) (event_id : EventId)
    (session : RelayUrl) (s : MemoryWriteStore) (r : Receipt) : Prop := {
  lo_receipt : ws_writes (ms_state s) !! receipt_id = Some r;
  lo_outcome : rc_outcome r = Open;
  lo_write : rc_write_id r = write_id;
  lo_revision : pub_revision_id (rc_publication r) = revision_id;
  lo_event : lw_id (rc_current r) = event_id;
  lo_desired : session ∈ rc_desired_destinations r;
  lo_signed : ∃ e, lw_event (rc_current r) = Signed e
}.

Definition attempts_of (r : Receipt) (session : RelayUrl) : N := default 0%N (rc_attempts r !! session).

(** The receipt [begin_attempt] commits. *)
Definition attempting (session : RelayUrl) (n : N) (r : Receipt) : Receipt :=
  with_attempts (<[session := n]> (rc_attempts r)) (set_destination session Attempting r).

Section lane_lemmas.
Context `{Nostr}.
Context {write_id : WriteId} {receipt_id : ReceiptId} {revision_id : RevisionId} {event_id : EventId}
        {session : RelayUrl}.
Abbreviation lane_open := (lane_open write_id receipt_id revision_id event_id session).
Implicit Types (s : MemoryWriteStore) (r : Receipt) (o : RelayDeliveryOutcome).

Lemma lane_current s r :
  lane_open s r → validate_current_revision r write_id revision_id event_id = Ok tt.
Proof.
  intros [_ Ho Hw Hr He _ _]. unfold validate_current_revision, receipt_is_terminal.
  by rewrite !bool_decide_true.
Qed.

Lemma rc_destinations_set o r : rc_destinations (set_destination session o r) = <[session := o]> (rc_destinations r).
Proof. done. Qed.

Lemma begin_attempt_opens s r o :
  lane_open s r → rc_destinations r !! session = Some o →
  match o with Pending | Retryable _ => true | _ => false end = true →
  (attempts_of r session < u32_max)%N → (ws_revision (ms_state s) < u64_max)%N →
  ∃ s', begin_attempt write_id receipt_id revision_id event_id session (attempts_of r session + 1) s =
          (Ok (attempting session (attempts_of r session + 1) r), s') ∧
        lane_open s' (attempting session (attempts_of r session + 1) r) ∧
        ws_revision (ms_state s') = (ws_revision (ms_state s) + 1)%N.
Proof.
  intros Hlane Ho Hpend Hlt Hrev. pose proof (lane_current s r Hlane) as Hcur.
  pose proof Hlane as [Hr Hout Hw Hid He Hdes Hsig].
  unfold begin_attempt, mbind, op_bind, mbind, stateM_bind, lock_state, or_refuse, try_, require, try_.
  rewrite Hr. simpl. rewrite Hcur. simpl. fold (attempts_of r session).
  rewrite bool_decide_false by lia. simpl.
  unfold checked_succ32. rewrite bool_decide_true by done. simpl. rewrite bool_decide_true by done. simpl.
  rewrite Ho. simpl. rewrite Hpend. simpl. unfold next_revision, checked_succ.
  rewrite bool_decide_true by done. simpl. eexists. split; [reflexivity|].
  split; [|done]. split; simpl; try done. by rewrite lookup_insert_eq.
Qed.

(** A receipt with one destination changed and what it then concludes. *)
Lemma settle_fields r :
  rc_current (settle r) = rc_current r ∧ rc_write_id (settle r) = rc_write_id r ∧
  rc_desired_destinations (settle r) = rc_desired_destinations r ∧ rc_attempts (settle r) = rc_attempts r.
Proof. unfold settle. by case_match. Qed.

(** A receipt with an open destination concludes nothing. *)
Lemma settle_open r o :
  rc_destinations r !! session = Some o → outcome_is_terminal o = false → settle r = r.
Proof.
  intros Ho Hnt. unfold settle.
  destruct (rc_route_settled r && forallb outcome_is_terminal (values (rc_destinations r))) eqn:E; [|done].
  apply andb_true_iff in E as [_ Hall]. rewrite forallb_forall in Hall.
  assert (outcome_is_terminal o = true) as Ht; [|congruence].
  apply Hall, list_elem_of_In, elem_of_values. eauto.
Qed.

Lemma record_outcome_settles s r old o :
  lane_open s r → is_Some (rc_attempts r !! session) → rc_destinations r !! session = Some old →
  may_transition old o = true → old ≠ o → validate_delivery_outcome o = Ok tt →
  outcome_is_terminal o || is_retryable o = true → (ws_revision (ms_state s) < u64_max)%N →
  ∃ s', record_outcome write_id receipt_id revision_id event_id session (attempts_of r session) o s =
          (Ok (settle (set_destination session o r)), s') ∧
        ws_writes (ms_state s') !! receipt_id = Some (settle (set_destination session o r)) ∧
        ws_revision (ms_state s') = (ws_revision (ms_state s) + 1)%N.
Proof.
  intros Hlane [n Hn] Hold Hmay Hne Htext Hkind Hrev. pose proof (lane_current s r Hlane) as Hcur.
  pose proof Hlane as [Hr _ _ _ _ _ _].
  unfold record_outcome, mbind, op_bind, mbind, stateM_bind, lock_state, or_refuse, try_, require, try_.
  rewrite Htext. simpl. rewrite Hkind. simpl. rewrite Hr. simpl. rewrite Hcur. simpl.
  unfold attempts_of. rewrite Hn. simpl. rewrite bool_decide_true by done. simpl. rewrite Hold. simpl.
  rewrite bool_decide_false by done. rewrite Hmay. simpl. unfold next_revision, checked_succ.
  rewrite bool_decide_true by done. simpl. eexists. split; [reflexivity|]. simpl.
  destruct (receipt_is_terminal _); rewrite ?release_semantic_spec; simpl; by rewrite lookup_insert_eq.
Qed.

(** Recording a retryable outcome keeps the lane open. *)
Lemma lane_open_retryable s s' r reason :
  lane_open s r → ws_writes (ms_state s') !! receipt_id = Some (settle (set_destination session (Retryable reason) r)) →
  lane_open s' (set_destination session (Retryable reason) r) ∧
  settle (set_destination session (Retryable reason) r) = set_destination session (Retryable reason) r.
Proof.
  intros [Hr Hout Hw Hid He Hdes Hsig] Hw'.
  rewrite (settle_open _ (Retryable reason)) in Hw' |- *
    by (done || by rewrite rc_destinations_set, lookup_insert_eq).
  by split.
Qed.
End lane_lemmas.

(** ** The lane under the standard policy *)

Section standard_lane.
Context `{Nostr}.
Context (maximum : N) (publish : PublishAttempt → option PublishOutcome).
Context (write_id : WriteId) (receipt_id : ReceiptId) (revision_id : RevisionId) (event_id : EventId)
        (session : RelayUrl).
Abbreviation lane_open := (lane_open write_id receipt_id revision_id event_id session).
Abbreviation lane_turn :=
  (lane_turn (mkStandardPolicy maximum) publish write_id receipt_id revision_id event_id session).
Abbreviation run_destination :=
  (run_destination (mkStandardPolicy maximum) publish write_id receipt_id revision_id event_id session).
Abbreviation attempt := (attempt publish write_id receipt_id revision_id event_id session).

(** The publisher's texts fit a receipt, and so does the reason the policy
    gives up with after one of them. *)
Definition publisher_fits : Prop := ∀ at_ answer, publish at_ = Some answer →
  validate_delivery_outcome (delivery_outcome answer) = Ok tt ∧
  ∀ reason, answer = NotHandedOff reason → validate_receipt_text (ceiling_reason maximum reason) = Ok tt.

(** The attempt the lane makes as number [n] for receipt [r]. *)
Definition attempt_number (r : Receipt) (n : N) (e : Event) : PublishAttempt :=
  mkAttempt (rc_write_id r) receipt_id revision_id n session (rc_access r) e ATTEMPT_TIMEOUT.

Lemma attempt_records s r o e answer :
  lane_open s r → lw_event (rc_current r) = Signed e → rc_destinations r !! session = Some o →
  match o with Pending | Retryable _ => true | _ => false end = true →
  (attempts_of r session < u32_max)%N → (ws_revision (ms_state s) + 2 ≤ u64_max)%N → publisher_fits →
  let n := (attempts_of r session + 1)%N in
  publish (attempt_number r n e) = Some answer →
  let r' := settle (set_destination session (delivery_outcome answer) (attempting session n r)) in
  ∃ s', attempt (attempts_of r session) s = LaneContinues s' ∧ ws_writes (ms_state s') !! receipt_id = Some r' ∧
        ws_revision (ms_state s') = (ws_revision (ms_state s) + 2)%N.
Proof.
  intros Hlane He Ho Hpend Hlt Hrev Hpub n Hanswer r'. unfold attempt, checked_succ32.
  rewrite bool_decide_true by done. fold n.
  destruct (begin_attempt_opens s r o Hlane Ho Hpend Hlt) as (s1 & Hb & Hlane1 & Hrev1); [lia|].
  fold n in Hb, Hlane1. rewrite Hb. simpl. rewrite He. fold (attempt_number r n e). rewrite Hanswer.
  destruct (record_outcome_settles s1 (attempting session n r) Attempting (delivery_outcome answer) Hlane1)
    as (s2 & Hrec & Hw & Hrev2).
  - simpl. by rewrite lookup_insert_eq.
  - apply lookup_insert_eq.
  - done.
  - by destruct answer.
  - by apply (Hpub _ _ Hanswer).
  - by destruct answer.
  - lia.
  - replace (attempts_of (attempting session n r) session) with n in Hrec
      by (unfold attempts_of; simpl; by rewrite lookup_insert_eq).
    rewrite Hrec. eexists. split_and!; [done|done|]. simpl. lia.
Qed.

Lemma attempt_awaits s r o e :
  lane_open s r → lw_event (rc_current r) = Signed e → rc_destinations r !! session = Some o →
  match o with Pending | Retryable _ => true | _ => false end = true →
  (attempts_of r session < u32_max)%N → (ws_revision (ms_state s) < u64_max)%N →
  let n := (attempts_of r session + 1)%N in
  publish (attempt_number r n e) = None →
  ∃ s', attempt (attempts_of r session) s = LaneAwaits s' ∧
        ws_writes (ms_state s') !! receipt_id = Some (attempting session n r).
Proof.
  intros Hlane He Ho Hpend Hlt Hrev n Hnone. unfold attempt, checked_succ32. rewrite bool_decide_true by done. fold n.
  destruct (begin_attempt_opens s r o Hlane Ho Hpend Hlt Hrev) as (s1 & Hb & Hlane1 & _).
  fold n in Hb, Hlane1. rewrite Hb. simpl. rewrite He. fold (attempt_number r n e). rewrite Hnone.
  exists s1. split; [done|]. apply Hlane1.
Qed.

(** A lane whose destination is settled returns without touching the store. *)
Lemma lane_turn_terminal s r o :
  ws_writes (ms_state s) !! receipt_id = Some r → rc_destinations r !! session = Some o →
  outcome_is_terminal o = true → lane_turn false s = LaneReturns s.
Proof.
  intros Hr Ho Ht. unfold lane_turn, receipt. rewrite Hr. case_match; [done|].
  rewrite Ho. by destruct o.
Qed.

Lemma lane_turn_open s r o :
  lane_open s r → rc_destinations r !! session = Some o →
  lane_turn false s =
    match standard_decide (mkStandardPolicy maximum) (mkFacts (attempts_of r session) o) with
    | DecisionSettled => LaneReturns s
    | GiveUp reason =>
        LaneReturns (record_outcome write_id receipt_id revision_id event_id session (attempts_of r session)
                       (GivenUp reason) s).2
    | AttemptNow => attempt (attempts_of r session) s
    end.
Proof.
  intros [Hr _ Hw Hid He Hdes _] Ho. unfold lane_turn, receipt, desires. rewrite Hr.
  rewrite !bool_decide_true by done. simpl. by rewrite Ho.
Qed.

(** What a lane that returns leaves: the destination settled, with the answer to
    its last attempt or given up at the ceiling; what a lane that waits leaves:
    the destination at the attempt whose publication is pending.  Never more
    attempts than the ceiling, the other destinations as they were. *)
Record lane_result (waits : bool) (r r' : Receipt) : Prop := {
  lr_settled : ∃ o, rc_destinations r' !! session = Some o ∧
    if waits
    then o = Attempting ∧ ∃ e, lw_event (rc_current r) = Signed e ∧
           publish (attempt_number r (attempts_of r' session) e) = None
    else outcome_is_terminal o = true ∧
         ((∃ e answer, lw_event (rc_current r) = Signed e ∧ o = delivery_outcome answer ∧
             publish (attempt_number r (attempts_of r' session) e) = Some answer) ∨
          (maximum ≤ attempts_of r' session)%N ∧ ∃ reason, o = GivenUp (ceiling_reason maximum reason));
  lr_attempts : (attempts_of r session ≤ attempts_of r' session ≤ N.max (attempts_of r session) maximum)%N;
  lr_others : ∀ other, other ≠ session → rc_destinations r' !! other = rc_destinations r !! other
}.

(** The receipts a lane passes through differ only at its own destination. *)
Definition lane_same (r r' : Receipt) : Prop :=
  lw_event (rc_current r') = lw_event (rc_current r) ∧ rc_write_id r' = rc_write_id r ∧
  rc_access r' = rc_access r ∧
  ∀ other, other ≠ session → rc_destinations r' !! other = rc_destinations r !! other.

Lemma lane_result_trans waits r r1 r' :
  lane_same r r1 → (attempts_of r session ≤ attempts_of r1 session ≤ N.max (attempts_of r session) maximum)%N →
  lane_result waits r1 r' → lane_result waits r r'.
Proof.
  intros (Hev & Hw & Ha & Hoth) Hle [(o & Ho & Hcase) Hatt Hothers]. split.
  - exists o. split; [done|]. unfold attempt_number in *. rewrite Hev, Hw, Ha in Hcase. done.
  - lia.
  - intros other Hne. by rewrite Hothers, Hoth.
Qed.

Lemma attempting_attempts r n : attempts_of (attempting session n r) session = n.
Proof. unfold attempts_of. simpl. by rewrite lookup_insert_eq. Qed.

(** The receipt after an attempt that recorded outcome [o]. *)
Lemma after_attempt_same r n o : lane_same r (settle (set_destination session o (attempting session n r))).
Proof.
  set (r1 := set_destination session o (attempting session n r)).
  assert (rc_access (settle r1) = rc_access r1) as Hacc by (unfold settle; by case_match).
  destruct (settle_fields r1) as (Hc & Hw & _ & _). split_and!; [by rewrite Hc|by rewrite Hw|by rewrite Hacc|].
  intros other Hne. unfold rc_destinations. rewrite Hc. simpl. rewrite lookup_insert_ne by done.
  change (<[session := Attempting]> (rc_destinations r) !! other = rc_destinations r !! other).
  by rewrite lookup_insert_ne.
Qed.

Lemma after_attempt_attempts r n o :
  attempts_of (settle (set_destination session o (attempting session n r))) session = n.
Proof.
  unfold attempts_of. destruct (settle_fields (set_destination session o (attempting session n r))) as (_ & _ & _ & ->).
  simpl. by rewrite lookup_insert_eq.
Qed.

Lemma after_attempt_destination r o : rc_destinations (settle (set_destination session o r)) !! session = Some o.
Proof.
  unfold rc_destinations. destruct (settle_fields (set_destination session o r)) as (-> & _).
  apply lookup_insert_eq.
Qed.

(** At the ceiling a retryable destination is given up in one turn. *)
Lemma lane_gives_up s r reason :
  lane_open s r → rc_destinations r !! session = Some (Retryable reason) →
  is_Some (rc_attempts r !! session) → (maximum ≤ attempts_of r session)%N →
  validate_receipt_text (ceiling_reason maximum reason) = Ok tt → (ws_revision (ms_state s) < u64_max)%N →
  ∃ s' r', lane_turn false s = LaneReturns s' ∧ ws_writes (ms_state s') !! receipt_id = Some r' ∧
           lane_result false r r'.
Proof.
  intros Hlane Ho Hsome Hmax Htext Hrev. rewrite (lane_turn_open _ _ _ Hlane Ho), standard_decide_gives_up by done.
  destruct (record_outcome_settles s r (Retryable reason) (GivenUp (ceiling_reason maximum reason)) Hlane)
    as (s' & -> & Hw & _); try done.
  simpl. eexists _, _. split_and!; [done..|].
  assert (Hatt : attempts_of (settle (set_destination session (GivenUp (ceiling_reason maximum reason)) r)) session
                 = attempts_of r session).
  { unfold attempts_of. by destruct (settle_fields (set_destination session
      (GivenUp (ceiling_reason maximum reason)) r)) as (_ & _ & _ & ->). }
  split.
  - exists (GivenUp (ceiling_reason maximum reason)). rewrite after_attempt_destination, Hatt. eauto 10.
  - rewrite Hatt. lia.
  - intros other Hne. unfold rc_destinations.
    destruct (settle_fields (set_destination session (GivenUp (ceiling_reason maximum reason)) r)) as (-> & _).
    simpl. by rewrite lookup_insert_ne.
Qed.

(** What the lane needs to find: something to do, and a reason that fits if the
    policy gives up on it. *)
Definition lane_ready (r : Receipt) : Prop :=
  (rc_destinations r !! session = Some Pending ∧ (attempts_of r session < maximum)%N) ∨
  ∃ reason, rc_destinations r !! session = Some (Retryable reason) ∧ is_Some (rc_attempts r !! session) ∧
            validate_receipt_text (ceiling_reason maximum reason) = Ok tt.

(** How the lane ends: it has returned, or waits for a publication. *)
Definition lane_ends (turn : LaneTurn) (r : Receipt) : Prop :=
  ∃ s' r' waits, turn = (if waits : bool then LaneAwaits s' else LaneReturns s') ∧
    ws_writes (ms_state s') !! receipt_id = Some r' ∧ lane_result waits r r'.

Lemma lane_attempts s r o e :
  (maximum ≤ u32_max)%N → publisher_fits → lane_open s r → lw_event (rc_current r) = Signed e →
  rc_destinations r !! session = Some o → match o with Pending | Retryable _ => true | _ => false end = true →
  (attempts_of r session < maximum)%N → (ws_revision (ms_state s) + 2 ≤ u64_max)%N →
  let n := (attempts_of r session + 1)%N in
  lane_ends (lane_turn false s) r ∨
  ∃ s1 r1 , lane_turn false s = LaneContinues s1 ∧ ws_revision (ms_state s1) = (ws_revision (ms_state s) + 2)%N ∧
    ws_writes (ms_state s1) !! receipt_id = Some r1 ∧ lane_same r r1 ∧ attempts_of r1 session = n ∧
    ((∃ o1, rc_destinations r1 !! session = Some o1 ∧ outcome_is_terminal o1 = true ∧ lane_result false r r1) ∨
     (lane_open s1 r1 ∧ lane_ready r1)).
Proof.
  intros Hmax Hpub Hlane He Ho Hpend Hlt Hrev n. rewrite (lane_turn_open _ _ _ Hlane Ho), standard_decide_attempts by done.
  destruct (publish (attempt_number r n e)) as [answer|] eqn:Hp.
  - right. destruct (attempt_records s r o e answer) as (s1 & -> & Hw & Hrev1); try done; [lia|]. fold n in Hw.
    set (po := delivery_outcome answer) in *. eexists s1, _. split_and!; [done|done|done| | |].
    { apply after_attempt_same. }
    { apply after_attempt_attempts. }
    pose proof (after_attempt_destination (attempting session n r) po) as Hdest.
    pose proof (after_attempt_attempts r n po) as Hatt.
    destruct (outcome_is_terminal po) eqn:Ht.
    + left. exists po. split_and!; [done|done|].
      split; [|rewrite Hatt; lia|apply after_attempt_same]. exists po. rewrite Hatt. split_and!; [done..|]. left. eauto.
    + right. destruct answer as [| | |reason|]; try done. simpl in po.
      destruct (begin_attempt_opens s r o Hlane Ho Hpend) as (sb & _ & Hlaneb & _); [lia|lia|].
      destruct (lane_open_retryable sb s1 _ reason Hlaneb Hw) as [Hlane1 Heq]. fold n po in Hlane1, Heq.
      rewrite Heq in *. split; [done|]. right. exists reason. split_and!; [done| |by eapply Hpub].
      simpl. by rewrite lookup_insert_eq.
  - left. destruct (attempt_awaits s r o e) as (s1 & -> & Hw); try done; [lia|lia|]. fold n in Hw.
    exists s1, (attempting session n r), true. split_and!; [done|done|].
    split; [|rewrite attempting_attempts; lia|].
    + exists Attempting. split; [apply lookup_insert_eq|]. rewrite attempting_attempts. eauto.
    + intros other Hne. change (<[session := Attempting]> (rc_destinations r) !! other = rc_destinations r !! other).
      by rewrite lookup_insert_ne.
Qed.

Lemma lane_runs k s r :
  (maximum ≤ u32_max)%N → publisher_fits → lane_open s r → lane_ready r →
  N.to_nat (maximum - attempts_of r session) = k →
  (ws_revision (ms_state s) + 2 * N.of_nat k + 1 ≤ u64_max)%N →
  lane_ends (run_destination (S k) (λ _, false) s) r.
Proof.
  intros Hmax Hpub. revert s r. induction k as [|k IH]; intros s r Hlane Hready Hk Hrev.
  - destruct Hready as [[_ Hlt]|(reason & Ho & Hsome & Htext)]; [lia|].
    destruct (lane_gives_up s r reason) as (s' & r' & Hturn & Hw & Hres); [done|done|done|lia|done|lia|].
    exists s', r', false. cbn [Delivery.run_destination]. by rewrite Hturn.
  - assert (∃ o, rc_destinations r !! session = Some o ∧
              match o with Pending | Retryable _ => true | _ => false end = true) as (o & Ho & Hpend)
      by (destruct Hready as [[? _]|(reason & ? & _)]; eauto).
    destruct (lo_signed _ _ _ _ _ _ _ Hlane) as [e He]. cbn [Delivery.run_destination].
    destruct (lane_attempts s r o e) as [(s' & r' & waits & -> & Hend)|(s1 & r1 & -> & Hrev1 & Hw & Hsame & Hatt & Hnext)];
      try done; [lia|lia|exists s', r', waits; by destruct waits|].
    destruct Hnext as [(o1 & Ho1 & Ht & Hres)|[Hlane1 Hready1]].
    + exists s1, r1, false. cbn [Delivery.run_destination]. by rewrite (lane_turn_terminal _ _ _ Hw Ho1 Ht).
    + destruct (IH s1 r1 Hlane1 Hready1) as (s' & r' & waits & Hrun & Hw' & Hres); [lia|lia|].
      exists s', r', waits. split_and!; [done..|]. eapply lane_result_trans; [done| |done]. rewrite Hatt. lia.
Qed.

(** ** Properties *)

(** C33. A delivery lane under the standard policy, with the store to itself and
    texts that fit, never turns for ever: at most [maximum - attempts] attempts
    and one more turn after the last it has returned, and its destination is
    settled, with what the publisher answered to the last attempt or given up at
    the ceiling; or it awaits a publication that stays pending, and the
    destination reads [Attempting].  It never makes more attempts than the
    ceiling allows and leaves every other destination as it was.  When every
    publication answers, it returns. *)
Theorem lane_settles (Hmax : (maximum ≤ u32_max)%N) (Hpub : publisher_fits) (s : MemoryWriteStore) (r : Receipt)
    (Hlane : lane_open s r) (Hready : lane_ready r)
    (Hroom : (ws_revision (ms_state s) + 2 * (maximum - attempts_of r session) + 1 ≤ u64_max)%N) :
  ∃ s' r' waits, run_destination (S (N.to_nat (maximum - attempts_of r session))) (λ _, false) s =
                   (if waits : bool then LaneAwaits s' else LaneReturns s') ∧
    ws_writes (ms_state s') !! receipt_id = Some r' ∧ lane_result waits r r' ∧
    ((∀ at_, is_Some (publish at_)) → waits = false).
Proof.
  destruct (lane_runs (N.to_nat (maximum - attempts_of r session)) s r) as (s' & r' & waits & Hrun & Hw & Hres);
    try done; [lia|].
  exists s', r', waits. split_and!; [done..|]. intros Hanswers. destruct waits; [|done].
  destruct Hres as [(o & _ & _ & e & _ & Hnone) _ _]. specialize (Hanswers (attempt_number r (attempts_of r' session) e)).
  rewrite Hnone in Hanswers. by destruct Hanswers.
Qed.

Lemma start_lanes_step started (active : gmap RelayUrl LaneKey) r sessions :
  NoDup sessions → (∀ x, x ∈ sessions → starts_lane r active x = true → active !! x = None) →
  (foldl (λ '(started, active) x,
            if starts_lane r active x then (started ++ [(x, lane_key r)], <[x := lane_key r]> active)
            else (started, active)) (started, active) sessions).1 =
  started ++ ((λ x, (x, lane_key r)) <$> List.filter (starts_lane r active) sessions).
Proof.
  revert started active. induction sessions as [|x sessions IH]; intros started active Hnd Hact; simpl.
  { by rewrite app_nil_r. }
  apply NoDup_cons in Hnd as [Hx Hnd]. destruct (starts_lane r active x) eqn:Ex.
  - assert (Hsame : ∀ y, y ∈ sessions → starts_lane r (<[x := lane_key r]> active) y = starts_lane r active y).
    { intros y Hy. unfold starts_lane. rewrite lookup_insert_ne; [done|]. by intros ->. }
    rewrite IH; [|done|].
    + rewrite <- app_assoc. simpl. do 3 f_equal. clear -Hsame.
      induction sessions as [|y sessions IH]; simpl; [done|].
      rewrite Hsame by set_solver. rewrite IH by (intros; apply Hsame; set_solver). done.
    + intros y Hy. rewrite Hsame by done. rewrite lookup_insert_ne by (by intros ->). intros ?. apply Hact; [set_solver|done].
  - apply IH; [done|]. set_solver.
Qed.

(** The lanes a receipt starts: its desired open destinations that have none. *)
Lemma start_lanes_exact r active e :
  lw_event (rc_current r) = Signed e →
  (start_lanes r active).1 = (λ x, (x, lane_key r)) <$>
    List.filter (starts_lane r active) (ordered_elements (rc_desired_destinations r)).
Proof.
  intros He. unfold start_lanes. rewrite He. rewrite start_lanes_step; [done|auto with fava|].
  intros x _. unfold starts_lane. case_match; [|done]. intros [_ Hn%negb_true_iff%bool_decide_eq_false]%andb_true_iff.
  by apply eq_None_not_Some.
Qed.

Lemma lane_finished_own key (active : gmap RelayUrl LaneKey) :
  active !! session = Some key → lane_finished session key active = delete session active.
Proof. intros Hkey. unfold lane_finished. by rewrite Hkey, !bool_decide_true. Qed.

(** A destination can be retried forever: when the failure reason the
    store accepted leaves no room for the sentence the standard policy wraps it
    in, the store refuses the give-up, the lane returns with the store exactly
    as it was, and the owner, which starts a lane for every open destination
    without one, starts the same lane again. *)
Theorem give_up_unrecordable (s : MemoryWriteStore) (r : Receipt) (reason : string)
    (Hlane : lane_open s r) (Ho : rc_destinations r !! session = Some (Retryable reason))
    (Hmax : (maximum ≤ attempts_of r session)%N)
    (Hlong : MAX_RECEIPT_TEXT_BYTES < String.length (ceiling_reason maximum reason))
    (active : gmap RelayUrl LaneKey) (Hown : active !! session = Some (lane_key r)) :
  lane_turn false s = LaneReturns s ∧
  (session, lane_key r) ∈ (start_lanes r (lane_finished session (lane_key r) active)).1.
Proof.
  split.
  - rewrite (lane_turn_open _ _ _ Hlane Ho), standard_decide_gives_up by done. f_equal.
    unfold record_outcome, mbind, op_bind, mbind, stateM_bind, try_, validate_delivery_outcome, validate_receipt_text.
    by rewrite bool_decide_false by lia.
  - destruct (lo_signed _ _ _ _ _ _ _ Hlane) as [e He]. rewrite (start_lanes_exact _ _ e He).
    apply list_elem_of_fmap. exists session. split; [done|]. apply list_elem_of_In, filter_In.
    split; [apply list_elem_of_In, elem_of_ordered_elements, Hlane|].
    rewrite lane_finished_own by done. unfold starts_lane. rewrite Ho, lookup_delete_eq.
    rewrite bool_decide_false by apply is_Some_None. done.
Qed.
End standard_lane.

(** ** Concrete lanes *)

Module DeliveryWitness.
Import Nostr.Sample StoreInvariant.StoreRuns.

(** One explicit write to one relay, signed and waiting. *)
Definition to_signed : list StoreOperation := to_authorized ++ [DoInstallSigned 1 1 1 7 (signed 7 10 1)].
Definition waiting : MemoryWriteStore := run 4 to_signed.

(** A relay that is offline twice, then accepts. *)
Definition flaky (attempt : PublishAttempt) : option PublishOutcome :=
  Some (if bool_decide (pa_number attempt < 3)%N then NotHandedOff "offline" else PublishAcknowledged "saved").

Lemma waiting_open : lane_open 1 1 1 7 "wss://a" waiting (receipt_of waiting).
Proof.
  split; try (vm_compute; reflexivity).
  exists (signed 7 10 1). vm_compute. reflexivity.
Qed.

Lemma flaky_fits : publisher_fits 3 flaky.
Proof.
  intros attempt answer. unfold flaky. intros [= <-]. case_bool_decide; simpl; [|by split].
  split; [vm_compute; reflexivity|]. intros reason [= <-]. vm_compute. reflexivity.
Qed.

Definition final_destination (publish : PublishAttempt → option PublishOutcome) (maximum : N)
    : option (option RelayDeliveryOutcome) :=
  match run_destination (mkStandardPolicy maximum) publish 1 1 1 7 "wss://a" (S (N.to_nat maximum)) (λ _, false) waiting with
  | LaneContinues _ => None
  | LaneReturns s | LaneAwaits s => Some (rc_destinations (receipt_of s) !! "wss://a")
  end.

Example lane_acknowledged : final_destination flaky 3 = Some (Some (Acknowledged "saved")).
Proof. vm_compute. reflexivity. Qed.
Example lane_given_up :
  final_destination flaky 2 = Some (Some (GivenUp "attempt ceiling 2 reached after: offline")).
Proof. vm_compute. reflexivity. Qed.

(** A publication that is never answered. *)
Example lane_awaiting : final_destination (λ _, None) 2 = Some (Some Attempting).
Proof. vm_compute. reflexivity. Qed.

Lemma lane_settles_witness :
  ∃ s' r', run_destination (mkStandardPolicy 3) flaky 1 1 1 7 "wss://a" 4 (λ _, false) waiting = LaneReturns s' ∧
           ws_writes (ms_state s') !! 1%N = Some r' ∧
           lane_result 3 flaky 1 1 "wss://a" false (receipt_of waiting) r'.
Proof.
  assert (Hzero : attempts_of (receipt_of waiting) "wss://a" = 0%N) by (vm_compute; reflexivity).
  pose proof (lane_settles 3 flaky 1 1 1 7 "wss://a" ltac:(done) flaky_fits waiting (receipt_of waiting)
                waiting_open) as Hrun.
  rewrite Hzero in Hrun. destruct Hrun as (s' & r' & waits & Hr & Hw & Hres & Hret).
  - left. split; vm_compute; reflexivity.
  - apply N.leb_le. vm_compute. reflexivity.
  - specialize (Hret (λ at_, ex_intro _ _ eq_refl)). subst waits. exists s', r'. split; [exact Hr|]. split; [exact Hw|exact Hres].
Defined.

(** A reason the store accepts but the policy cannot repeat. *)
Definition long_reason : string := String.concat "" (replicate 4096 "x").
Definition exhausted : MemoryWriteStore :=
  run 4 (to_signed ++ [DoBeginAttempt 1 1 1 7 "wss://a" 1;
                       DoRecordOutcome 1 1 1 7 "wss://a" 1 (Retryable long_reason)]).

Lemma exhausted_open : lane_open 1 1 1 7 "wss://a" exhausted (receipt_of exhausted).
Proof.
  split; try (vm_compute; reflexivity).
  exists (signed 7 10 1). vm_compute. reflexivity.
Qed.

Lemma give_up_unrecordable_witness :
  lane_turn (mkStandardPolicy 1) flaky 1 1 1 7 "wss://a" false exhausted = LaneReturns exhausted.
Proof.
  apply (give_up_unrecordable 1 flaky 1 1 1 7 "wss://a" exhausted (receipt_of exhausted) long_reason
           exhausted_open) with (active := {["wss://a" := lane_key (receipt_of exhausted)]}).
  - vm_compute. reflexivity.
  - apply N.leb_le. vm_compute. reflexivity.
  - apply Nat.ltb_lt. vm_compute. reflexivity.
  - reflexivity.
Defined.
End DeliveryWitness.
