(* ===== verification/Edits.v ===== *)
(** * Event construction, byte codecs and edit appliers ([crates/fava-write])

    - [builder.rs]: [EventBuilder] and [AuthoredEventBuilder].
    - [edit_application.rs]: the trait [EditApplier], which a protocol crate
      implements to turn a durable edit and the source it edits into the next
      revision; here a class, with the contract its clients rely on as a second
      class.  [Nip02], [Bookmarks] and [SavedGroups] are its instances.
    - The standard-library byte functions the private edit codecs use: the bytes
      of a string, [str::from_utf8], big-endian integers.

    [NostrBytes] stands for the byte and text conversions of the [nostr] crate;
    [NostrBytesLaws] are their documented round trips. *)

From S2P Require Import Prelude Nostr Relay State Write.

(** ** Bytes of strings *)

Fixpoint bytes_of_string (s : string) : list N :=
  match s with
  | EmptyString => []
  | String c s => N_of_ascii c :: bytes_of_string s
  end.

Fixpoint string_of_bytes (bytes : list N) : string :=
  match bytes with
  | [] => EmptyString
  | b :: bytes => String (ascii_of_N b) (string_of_bytes bytes)
  end.

Definition byte_in (low high b : N) : bool := bool_decide (low ≤ b ≤ high)%N.
(** A continuation byte. *)
Definition is_continuation (b : N) : bool := byte_in 128 191 b.

(** The second byte of a three-byte and of a four-byte sequence. *)
Definition second_of_three (first b : N) : bool :=
  (bool_decide (first = 224)%N && byte_in 160 191 b)
  || (byte_in 225 236 first && byte_in 128 191 b)
  || (bool_decide (first = 237)%N && byte_in 128 159 b)
  || (byte_in 238 239 first && byte_in 128 191 b).
Definition second_of_four (first b : N) : bool :=
  (bool_decide (first = 240)%N && byte_in 144 191 b)
  || (byte_in 241 243 first && byte_in 128 191 b)
  || (bool_decide (first = 244)%N && byte_in 128 143 b).

(** What [core::str::from_utf8] accepts. *)
Fixpoint utf8_valid (bytes : list N) : bool :=
  match bytes with
  | [] => true
  | b :: rest =>
      if bool_decide (b < 128)%N then utf8_valid rest
      else if byte_in 194 223 b then
        match rest with b1 :: rest => is_continuation b1 && utf8_valid rest | _ => false end
      else if byte_in 224 239 b then
        match rest with
        | b1 :: b2 :: rest => second_of_three b b1 && is_continuation b2 && utf8_valid rest
        | _ => false
        end
      else if byte_in 240 244 b then
        match rest with
        | b1 :: b2 :: b3 :: rest =>
            second_of_four b b1 && is_continuation b2 && is_continuation b3 && utf8_valid rest
        | _ => false
        end
      else false
  end.

Definition from_utf8 (bytes : list N) : option string :=
  if utf8_valid bytes then Some (string_of_bytes bytes) else None.

(** The invariant of [str]. *)
Definition str_ok (s : string) : Prop := utf8_valid (bytes_of_string s) = true.

(** ** Big-endian integers: [to_be_bytes] and [from_be_bytes] *)

Fixpoint to_be_bytes (width : nat) (n : N) : list N :=
  match width with
  | O => []
  | S width => ((n / 256 ^ N.of_nat width) mod 256)%N :: to_be_bytes width n
  end.

#[global] Arguments to_be_bytes : simpl never.

Definition from_be_bytes (bytes : list N) : N := foldl (λ acc b, acc * 256 + b)%N 0%N bytes.

Definition u16_max : N := 65535.

(** [u32::try_from(usize)] and [u16::try_from(usize)]. *)
Definition try_u32 (n : nat) : option N :=
  if bool_decide (N.of_nat n ≤ u32_max)%N then Some (N.of_nat n) else None.
Definition try_u16 (n : nat) : option N :=
  if bool_decide (N.of_nat n ≤ u16_max)%N then Some (N.of_nat n) else None.

(** [slice.get(..n)] with the rest, and [slice.get(n..m)] after it. *)
Definition split_first_n {A} (n : nat) (l : list A) : option (list A * list A) :=
  if bool_decide (n ≤ length l) then Some (take n l, drop n l) else None.

(** ** The conversions of the [nostr] crate *)

Class NostrBytes := {
  public_key_as_bytes : PublicKey → list N;
  public_key_from_slice : list N → option PublicKey;
  public_key_from_hex : string → option PublicKey;
  event_id_as_bytes : EventId → list N;
  event_id_from_slice : list N → option EventId;
  event_id_to_hex : EventId → string;
  (** [Tag::parse], with the text of its error. *)
  tag_parse : list string → result string Tag
}.

(** Keys and event ids are 32 bytes. *)
Definition key_ok (k : N) : Prop := (k < 2 ^ 256)%N.

(** What the crate documents of them. *)
Class NostrBytesLaws `{Nostr} `{NostrBytes} : Prop := {
  public_key_bytes_length k : length (public_key_as_bytes k) = 32;
  public_key_bytes_roundtrip k : key_ok k → public_key_from_slice (public_key_as_bytes k) = Some k;
  public_key_from_slice_ok bytes k : public_key_from_slice bytes = Some k → key_ok k;
  public_key_hex_roundtrip k : key_ok k → public_key_from_hex (public_key_to_hex k) = Some k;
  event_id_bytes_length i : length (event_id_as_bytes i) = 32;
  event_id_bytes_roundtrip i : key_ok i → event_id_from_slice (event_id_as_bytes i) = Some i;
  event_id_from_slice_ok bytes i : event_id_from_slice bytes = Some i → key_ok i;
  event_id_hex_roundtrip i : key_ok i → event_id_from_hex (event_id_to_hex i) = Some i;
  (** [Tag::parse] refuses only an empty tag. *)
  tag_parse_cons kind values : tag_parse (kind :: values) = Ok (kind :: values)
}.

(** ** Building events ([builder.rs]) *)

Definition MAX_TAGS : nat := 2000.

Inductive EventBuildError :=
| BuildTooManyTags (actual maximum : nat)
| BuildTooLarge (bytes maximum : nat)
| BuildEncoding (reason : string)
| BuildExplicitRoutingAttached.

(** [impl Display for WriteIntentError]. *)
Definition intent_error_text (e : WriteIntentError) : string :=
  match e with
  | EmptyExplicitRelays => "explicit publication requires at least one relay"
  | TooManyExplicitRelays actual maximum =>
      "explicit relay count exceeds bound: " +:+ pretty actual +:+ " > " +:+ pretty maximum
  | TooManyRawExplicitRelays actual maximum =>
      "raw explicit relay input exceeds bound: " +:+ pretty actual +:+ " > " +:+ pretty maximum
  | DuplicateExplicitRelay relay => "explicit publication route repeats relay identity " +:+ relay
  | InvalidEvent reason => "event verification failed: " +:+ reason
  | IntentExpired => "event is already expired"
  | TooManyTags actual maximum => "event tags exceed bound: " +:+ pretty actual +:+ " > " +:+ pretty maximum
  | TooLarge bytes maximum => "event bytes exceed bound: " +:+ pretty bytes +:+ " > " +:+ pretty maximum
  | Encoding reason => "event encoding failed: " +:+ reason
  | ExplicitRoutingAttached => "event-only construction cannot discard explicit publication routing"
  | ConflictingExplicitRoutes => "builder and facade cannot both select an explicit publication route"
  end.

(** [impl From<EventBuildError> for WriteIntentError]. *)
Definition intent_error_from (e : EventBuildError) : WriteIntentError :=
  match e with
  | BuildTooManyTags actual maximum => TooManyTags actual maximum
  | BuildTooLarge bytes maximum => TooLarge bytes maximum
  | BuildEncoding reason => Encoding reason
  | BuildExplicitRoutingAttached => ExplicitRoutingAttached
  end.

Record EventBuilder := mkBuilder {
  eb_kind : Kind;
  eb_created_at : Timestamp;
  eb_content : string;
  eb_tags : list Tag;
  eb_routing : WriteRouting;
  eb_raw_routing_inputs : nat
}.

Record AuthoredEventBuilder := mkAuthored {
  ab_author : PublicKey;
  ab_kind : Kind;
  ab_created_at : Timestamp;
  ab_content : string;
  ab_tags : list Tag;
  ab_routing : WriteRouting;
  ab_raw_routing_inputs : nat
}.

(** [now] stands for [Timestamp::now()]. *)
Definition EventBuilder_new (now : Timestamp) (kind : Kind) : EventBuilder :=
  mkBuilder kind now "" [] Automatic 0.
Definition builder_created_at (created_at : Timestamp) (b : EventBuilder) : EventBuilder :=
  mkBuilder (eb_kind b) created_at (eb_content b) (eb_tags b) (eb_routing b) (eb_raw_routing_inputs b).
Definition builder_content (content : string) (b : EventBuilder) : EventBuilder :=
  mkBuilder (eb_kind b) (eb_created_at b) content (eb_tags b) (eb_routing b) (eb_raw_routing_inputs b).
Definition builder_tags (tags : list Tag) (b : EventBuilder) : EventBuilder :=
  mkBuilder (eb_kind b) (eb_created_at b) (eb_content b) (eb_tags b ++ tags) (eb_routing b)
    (eb_raw_routing_inputs b).
Definition builder_tag (tag : Tag) (b : EventBuilder) : EventBuilder := builder_tags [tag] b.

(** The body [to_relays] shares between the two builders: the new routing and
    the raw inputs counted so far. *)
Definition append_relays (routing : WriteRouting) (raw_routing_inputs : nat) (relays : list RelayUrl)
    : result WriteIntentError (WriteRouting * nat) :=
  let raw := raw_routing_inputs + length relays in
  _ ← ensure (bool_decide (N.of_nat raw ≤ u64_max)%N)
        (TooManyRawExplicitRelays (N.to_nat u64_max) MAX_RAW_EXPLICIT_RELAYS);
  _ ← refuse_raw_input raw;
  routing ← append routing relays;
  Ok (routing, raw).

Definition builder_to_relays (relays : list RelayUrl) (b : EventBuilder) : result WriteIntentError EventBuilder :=
  '(routing, raw) ← append_relays (eb_routing b) (eb_raw_routing_inputs b) relays;
  Ok (mkBuilder (eb_kind b) (eb_created_at b) (eb_content b) (eb_tags b) routing raw).

Definition builder_by (author : PublicKey) (b : EventBuilder) : AuthoredEventBuilder :=
  mkAuthored author (eb_kind b) (eb_created_at b) (eb_content b) (eb_tags b) (eb_routing b)
    (eb_raw_routing_inputs b).

Definition authored_from_parts (author : PublicKey) (kind : Kind) (created_at : Timestamp)
    (tags : list Tag) (content : string) : AuthoredEventBuilder :=
  mkAuthored author kind created_at content tags Automatic 0.
Definition authored_created_at (created_at : Timestamp) (b : AuthoredEventBuilder) : AuthoredEventBuilder :=
  mkAuthored (ab_author b) (ab_kind b) created_at (ab_content b) (ab_tags b) (ab_routing b)
    (ab_raw_routing_inputs b).
Definition authored_content (content : string) (b : AuthoredEventBuilder) : AuthoredEventBuilder :=
  mkAuthored (ab_author b) (ab_kind b) (ab_created_at b) content (ab_tags b) (ab_routing b)
    (ab_raw_routing_inputs b).
Definition authored_tags (tags : list Tag) (b : AuthoredEventBuilder) : AuthoredEventBuilder :=
  mkAuthored (ab_author b) (ab_kind b) (ab_created_at b) (ab_content b) (ab_tags b ++ tags) (ab_routing b)
    (ab_raw_routing_inputs b).
Definition authored_tag (tag : Tag) (b : AuthoredEventBuilder) : AuthoredEventBuilder := authored_tags [tag] b.

Definition authored_to_relays (relays : list RelayUrl) (b : AuthoredEventBuilder)
    : result WriteIntentError AuthoredEventBuilder :=
  '(routing, raw) ← append_relays (ab_routing b) (ab_raw_routing_inputs b) relays;
  Ok (mkAuthored (ab_author b) (ab_kind b) (ab_created_at b) (ab_content b) (ab_tags b) routing raw).

(** [impl From<UnsignedEvent> for AuthoredEventBuilder]. *)
Definition authored_from_event (event : UnsignedEvent) : AuthoredEventBuilder :=
  authored_from_parts (un_pubkey event) (un_kind event) (un_created_at event) (un_tags event)
    (un_content event).

Section builders.
Context `{Nostr}.

(** [UnsignedEvent::new] followed by [ensure_id]. *)
Definition unsigned_event (b : AuthoredEventBuilder) : UnsignedEvent :=
  unsigned_ensure_id
    (mkUnsigned None (ab_author b) (ab_created_at b) (ab_kind b) (ab_tags b) (ab_content b)).

Definition build_event (b : AuthoredEventBuilder) : result EventBuildError UnsignedEvent :=
  _ ← ensure (bool_decide (length (ab_tags b) ≤ MAX_TAGS)) (BuildTooManyTags (length (ab_tags b)) MAX_TAGS);
  let event := unsigned_event b in
  match unsigned_json_len event with
  | Err reason => Err (BuildEncoding reason)
  | Ok bytes =>
      _ ← ensure (bool_decide (bytes ≤ MAX_EVENT_BYTES)) (BuildTooLarge bytes MAX_EVENT_BYTES);
      Ok event
  end.

Definition build (b : AuthoredEventBuilder) : result EventBuildError UnsignedEvent :=
  match ab_routing b with
  | Explicit _ => Err BuildExplicitRoutingAttached
  | Automatic => build_event b
  end.

Definition into_event_and_routing (b : AuthoredEventBuilder)
    : result EventBuildError (UnsignedEvent * WriteRouting) :=
  event ← build_event b;
  Ok (event, ab_routing b).

(** [builder.build().map_err(WriteIntentError::from)]. *)
Definition build_intent (b : AuthoredEventBuilder) : result WriteIntentError UnsignedEvent :=
  match build b with Ok event => Ok event | Err e => Err (intent_error_from e) end.

(** [event.verify()] or [event.verify_id()], as an intent error. *)
Definition verify_value (v : EventValue) : result WriteIntentError unit :=
  match v with
  | Signed event => invalid_event (event_verify event)
  | Unsigned event => invalid_event (unsigned_verify_id event)
  end.

Definition value_content (v : EventValue) : string :=
  match v with Unsigned event => un_content event | Signed event => ev_content event end.
End builders.

(** ** Appliers ([edit_application.rs]) *)

(** The trait [EditApplier]. *)
Record EditApplier := mkApplier {
  applier_kind : Kind;
  applier_supports : EventEdit → bool;
  applier_apply : EventEdit → PublicKey → option EventValue → Timestamp → result WriteIntentError UnsignedEvent
}.

(** The loop the list appliers share: keep the tags that do not match; of those
    that do, keep the first (as [keep] of it) when adding, and none otherwise. *)
Fixpoint retain_loop {A} (matches_ : A → bool) (add : bool) (keep : A → A) (found : bool) (l : list A)
    : list A * bool :=
  match l with
  | [] => ([], found)
  | t :: l =>
      if matches_ t then
        if add && negb found then
          let '(rest, found) := retain_loop matches_ add keep true l in (keep t :: rest, found)
        else retain_loop matches_ add keep found l
      else
        let '(rest, found) := retain_loop matches_ add keep found l in (t :: rest, found)
  end.

(** The loop, then the new tag when adding found nothing. *)
Definition retain_or_push {A} (matches_ : A → bool) (add : bool) (keep : A → A) (row : A) (l : list A) : list A :=
  let '(tags, found) := retain_loop matches_ add keep false l in
  if add && negb found then tags ++ [row] else tags.

(** [values.first().map(String::as_str) == Some(name)]. *)
Definition tag_named (name : string) (tag : Tag) : bool := bool_decide (head tag = Some name).

(** ** The contract of an applier *)

(** Filling in the id changes nothing else; a parsed relay is in normal form. *)
Class NostrValueLaws `{Nostr} : Prop := {
  ensure_id_fields u :
    is_Some (un_id (unsigned_ensure_id u)) ∧
    un_pubkey (unsigned_ensure_id u) = un_pubkey u ∧ un_created_at (unsigned_ensure_id u) = un_created_at u ∧
    un_kind (unsigned_ensure_id u) = un_kind u ∧ un_tags (unsigned_ensure_id u) = un_tags u ∧
    un_content (unsigned_ensure_id u) = un_content u;
  relay_url_normal text relay : relay_url_parse text = Some relay → relay_url_parse relay = Some relay
}.

(** What an applied edit produces, and from what. *)
Record applied `{Nostr} (kind : Kind) (author : PublicKey) (source : option EventValue) (created_at : Timestamp)
    (event : UnsignedEvent) : Prop := {
  ap_identity : un_pubkey event = author ∧ un_kind event = kind ∧ un_created_at event = created_at;
  ap_id : is_Some (un_id event) ∧ unsigned_verify_id event = None;
  ap_tags : length (un_tags event) ≤ MAX_TAGS;
  ap_content : un_content event = match source with Some v => value_content v | None => ""%string end;
  ap_source : ∀ v, source = Some v → verify_value v = Ok tt ∧ value_author v = author ∧
                                     value_kind v = kind ∧ (value_created_at v < created_at)%N
}.

(** Every applier: an edit it does not support is refused; what it produces is
    a verified next revision by the same author of the same kind that keeps the
    source's content; and applying an edit again to its own result changes no
    tag. *)
Class EditApplierLaws `{Nostr} (a : EditApplier) : Prop := {
  applier_supported edit author source created_at event :
    applier_apply a edit author source created_at = Ok event →
    applier_supports a edit = true ∧ ed_kind edit = applier_kind a;
  applier_applied edit author source created_at event :
    applier_apply a edit author source created_at = Ok event →
    applied (applier_kind a) author source created_at event;
  applier_idempotent edit author source created_at event created_at' event' :
    applier_apply a edit author source created_at = Ok event →
    applier_apply a edit author (Some (Unsigned event)) created_at' = Ok event' →
    un_tags event' = un_tags event
}.

(** ** Lemmas: bytes *)

Lemma string_of_bytes_of_string s : string_of_bytes (bytes_of_string s) = s.
Proof. induction s as [|c s IH]; simpl; [done|]. by rewrite ascii_N_embedding, IH. Qed.

Lemma length_bytes_of_string s : length (bytes_of_string s) = String.length s.
Proof. induction s; simpl; congruence. Qed.

Lemma from_utf8_bytes s : str_ok s → from_utf8 (bytes_of_string s) = Some s.
Proof. unfold from_utf8, str_ok. intros ->. by rewrite string_of_bytes_of_string. Qed.

Lemma to_be_bytes_S width n :
  to_be_bytes (S width) n = ((n / 256 ^ N.of_nat width) mod 256)%N :: to_be_bytes width n.
Proof. done. Qed.

Lemma length_to_be_bytes width n : length (to_be_bytes width n) = width.
Proof. induction width; [done|]. rewrite to_be_bytes_S. simpl. congruence. Qed.

Lemma from_be_bytes_acc bytes acc :
  foldl (λ acc b, acc * 256 + b)%N acc bytes = (acc * 256 ^ N.of_nat (length bytes) + from_be_bytes bytes)%N.
Proof.
  unfold from_be_bytes. revert acc. induction bytes as [|b bytes IH]; intros acc.
  - simpl. lia.
  - cbn [foldl]. rewrite IH, (IH (0 * 256 + b)%N). cbn [length]. rewrite Nat2N.inj_succ, N.pow_succ_r'. lia.
Qed.

Lemma from_to_be_bytes width n : from_be_bytes (to_be_bytes width n) = (n mod 256 ^ N.of_nat width)%N.
Proof.
  induction width as [|width IH]; [by rewrite N.mod_1_r|].
  unfold from_be_bytes. rewrite to_be_bytes_S. cbn [foldl]. rewrite from_be_bytes_acc, length_to_be_bytes, IH.
  rewrite Nat2N.inj_succ, N.pow_succ_r', (N.mul_comm 256).
  set (p := (256 ^ N.of_nat width)%N). assert (p ≠ 0%N) by (apply N.pow_nonzero; done).
  rewrite (N.Div0.mod_mul_r n p 256). lia.
Qed.

Lemma from_to_be_small width n : (n < 256 ^ N.of_nat width)%N → from_be_bytes (to_be_bytes width n) = n.
Proof. intros Hn. rewrite from_to_be_bytes. by apply N.mod_small. Qed.

Lemma split_first_n_app {A} (l1 l2 : list A) : split_first_n (length l1) (l1 ++ l2) = Some (l1, l2).
Proof.
  unfold split_first_n. rewrite bool_decide_true by (rewrite length_app; lia).
  by rewrite take_app_length, drop_app_length.
Qed.

Lemma split_first_n_app' {A} n (l1 l2 : list A) : length l1 = n → split_first_n n (l1 ++ l2) = Some (l1, l2).
Proof. intros <-. apply split_first_n_app. Qed.

Lemma split_first_n_Some {A} n (l l1 l2 : list A) :
  split_first_n n l = Some (l1, l2) ↔ l = l1 ++ l2 ∧ length l1 = n.
Proof.
  unfold split_first_n. case_bool_decide as Hle; split.
  - intros [= <- <-]. split; [by rewrite take_drop|]. rewrite length_take. lia.
  - intros [-> <-]. by rewrite take_app_length, drop_app_length.
  - done.
  - intros [-> <-]. rewrite length_app in Hle. lia.
Qed.

Lemma try_u32_Some n m : try_u32 n = Some m ↔ m = N.of_nat n ∧ (N.of_nat n ≤ u32_max)%N.
Proof. unfold try_u32. case_bool_decide; naive_solver. Qed.
Lemma try_u16_Some n m : try_u16 n = Some m ↔ m = N.of_nat n ∧ (N.of_nat n ≤ u16_max)%N.
Proof. unfold try_u16. case_bool_decide; naive_solver. Qed.

(** ** Lemmas: the shared loop *)

Section filters.
Context {A : Type} (P : A → bool).

Lemma filter_none (l : list A) : List.filter P l = [] ↔ ∀ t, t ∈ l → P t = false.
Proof.
  induction l as [|x l IH]; simpl; [by split; [intros _ t ?%not_elem_of_nil|]|].
  destruct (P x) eqn:Hx; split.
  - done.
  - intros Hall. specialize (Hall x). rewrite Hall in Hx; [done|left].
  - intros Hl t [->|?]%elem_of_cons; [done|]. by apply IH.
  - intros Hall. apply IH. set_solver.
Qed.

Lemma first_match (l : list A) :
  (∀ t, t ∈ l → P t = false) ∨
  ∃ l1 t l2, l = l1 ++ t :: l2 ∧ (∀ x, x ∈ l1 → P x = false) ∧ P t = true.
Proof.
  induction l as [|x l [IH|(l1 & t & l2 & -> & Hall & Ht)]].
  - left. intros t ?%not_elem_of_nil. done.
  - destruct (P x) eqn:Hx; [|left; set_solver]. right. exists [], x, l. split_and!; [done| |done].
    intros y ?%not_elem_of_nil. done.
  - destruct (P x) eqn:Hx; [|right; exists (x :: l1), t, l2; set_solver].
    right. exists [], x, (l1 ++ t :: l2). split_and!; [done| |done]. intros y ?%not_elem_of_nil. done.
Qed.

Lemma filter_negb_idem (l : list A) :
  List.filter (λ x, negb (P x)) (List.filter (λ x, negb (P x)) l) = List.filter (λ x, negb (P x)) l.
Proof. induction l as [|x l IH]; simpl; [done|]. destruct (P x) eqn:Hx; simpl; rewrite ?Hx; simpl; congruence. Qed.

Lemma filter_negb_none (l : list A) : (∀ x, x ∈ l → P x = false) → List.filter (λ x, negb (P x)) l = l.
Proof. induction l as [|x l IH]; simpl; intros Hall; [done|]. rewrite (Hall x) by left. simpl. f_equal. set_solver. Qed.

Lemma elem_of_filter_negb (l : list A) x : x ∈ List.filter (λ x, negb (P x)) l → P x = false.
Proof. rewrite list_elem_of_In, filter_In. intros [_ Hx]. by apply negb_true_iff. Qed.

End filters.

Section retain.
Context {A : Type} (P : A → bool) (keep : A → A).

(** Removing leaves exactly the tags that do not match. *)
Lemma retain_remove found l : retain_loop P false keep found l = (List.filter (λ t, negb (P t)) l, found).
Proof. induction l as [|t l IH]; simpl; [done|]. destruct (P t); simpl; by rewrite IH. Qed.

(** Once one is kept, adding drops the rest. *)
Lemma retain_found l : retain_loop P true keep true l = (List.filter (λ t, negb (P t)) l, true).
Proof. induction l as [|t l IH]; simpl; [done|]. destruct (P t); simpl; by rewrite IH. Qed.

(** Adding where nothing matches changes nothing. *)
Lemma retain_absent add l :
  (∀ t, t ∈ l → P t = false) → retain_loop P add keep false l = (l, false).
Proof.
  induction l as [|t l IH]; simpl; intros Hall; [done|].
  rewrite (Hall t) by left. rewrite IH by set_solver. done.
Qed.

(** Adding where something matches keeps it once, in its place. *)
Lemma retain_present l1 t l2 :
  (∀ x, x ∈ l1 → P x = false) → P t = true →
  retain_loop P true keep false (l1 ++ t :: l2) = (l1 ++ keep t :: List.filter (λ x, negb (P x)) l2, true).
Proof.
  induction l1 as [|x l1 IH]; simpl; intros Hall Ht.
  - rewrite Ht. by rewrite retain_found.
  - rewrite (Hall x) by left. rewrite IH by set_solver. done.
Qed.

(** What adding leaves: the other tags as they were and exactly one that matches. *)
Lemma retain_or_push_add row l :
  P row = true → (∀ t, P t = true → P (keep t) = true) →
  ∃ l1 t l2, retain_or_push P true keep row l = l1 ++ t :: l2 ∧
    P t = true ∧ (∀ x, x ∈ l1 ++ l2 → P x = false) ∧ l1 ++ l2 = List.filter (λ x, negb (P x)) l ∧
    ((∃ t0, t0 ∈ l ∧ P t0 = true ∧ t = keep t0) ∨ (∀ x, x ∈ l → P x = false) ∧ t = row).
Proof.
  intros Hrow Hkeep. unfold retain_or_push. destruct (first_match P l) as [Hnone|(l1 & t & l2 & -> & Hall & Ht)].
  - rewrite retain_absent by done. simpl. exists l, row, []. rewrite app_nil_r.
    split_and!; [done..|by rewrite filter_negb_none|by right].
  - rewrite retain_present by done. simpl. exists l1, (keep t), (List.filter (λ x, negb (P x)) l2).
    split_and!; [done|by apply Hkeep| | |].
    + intros x [Hx|Hx]%elem_of_app; [by apply Hall|]. by apply elem_of_filter_negb in Hx.
    + rewrite List.filter_app, (filter_negb_none P l1) by done. cbn [List.filter]. by rewrite Ht.
    + left. exists t. split_and!; [set_solver|done..].
Qed.

Lemma retain_or_push_remove row l :
  retain_or_push P false keep row l = List.filter (λ x, negb (P x)) l.
Proof. unfold retain_or_push. by rewrite retain_remove. Qed.

(** One match, kept as it is: adding again changes nothing. *)
Lemma retain_or_push_again row l1 t l2 :
  P t = true → (∀ x, x ∈ l1 ++ l2 → P x = false) → keep t = t →
  retain_or_push P true keep row (l1 ++ t :: l2) = l1 ++ t :: l2.
Proof.
  intros Ht Hall Hkeep. unfold retain_or_push. rewrite retain_present by set_solver. simpl.
  rewrite Hkeep, filter_negb_none by set_solver. done.
Qed.

Lemma filter_negb_retain add row l :
  P row = true → (∀ t, P t = true → P (keep t) = true) →
  List.filter (λ x, negb (P x)) (retain_or_push P add keep row l) = List.filter (λ x, negb (P x)) l.
Proof.
  intros Hrow Hkeep. destruct add; [|by rewrite retain_or_push_remove, filter_negb_idem].
  destruct (retain_or_push_add row l Hrow Hkeep) as (l1 & t & l2 & -> & Ht & Hall & <- & _).
  rewrite List.filter_app. cbn [List.filter]. rewrite Ht. cbn [negb].
  rewrite <- List.filter_app. by apply filter_negb_none.
Qed.
End retain.

Lemma retain_or_push_idem {A} (P : A → bool) add row l :
  P row = true → retain_or_push P add id row (retain_or_push P add id row l) = retain_or_push P add id row l.
Proof.
  intros Hrow. destruct add; [|by rewrite !retain_or_push_remove, filter_negb_idem].
  destruct (retain_or_push_add P id row l Hrow) as (l1 & t & l2 & -> & Ht & Hall & _); [done|].
  by apply retain_or_push_again.
Qed.

(** ** Lemmas: built events *)

Section built.
Context `{Nostr} `{!NostrValueLaws}.

Lemma build_intent_Ok author kind created_at tags content event :
  build_intent (authored_from_parts author kind created_at tags content) = Ok event →
  un_pubkey event = author ∧ un_kind event = kind ∧ un_created_at event = created_at ∧
  un_tags event = tags ∧ un_content event = content ∧ is_Some (un_id event) ∧ length tags ≤ MAX_TAGS.
Proof.
  unfold build_intent, build. simpl. destruct (build_event _) as [e|] eqn:Hb; [|done]. intros [= ->].
  unfold build_event in Hb. simpl in Hb. apply bind_Ok in Hb as ([] & Hlen%ensure_Ok & Hb).
  apply bool_decide_eq_true in Hlen. destruct (unsigned_json_len _); [|done].
  apply bind_Ok in Hb as (_ & _ & [= <-]). unfold unsigned_event. simpl.
  destruct (ensure_id_fields (mkUnsigned None author created_at kind tags content)) as (? & -> & -> & -> & -> & ->).
  done.
Qed.

Lemma invalid_event_Ok failure : invalid_event failure = Ok tt ↔ failure = None.
Proof. by destruct failure. Qed.

(** Every applier ends by building and verifying its event. *)
Lemma built_applied kind author source created_at tags content event :
  build_intent (authored_from_parts author kind created_at tags content) = Ok event →
  invalid_event (unsigned_verify_id event) = Ok tt →
  content = match source with Some v => value_content v | None => ""%string end →
  (∀ v, source = Some v → verify_value v = Ok tt ∧ value_author v = author ∧
                           value_kind v = kind ∧ (value_created_at v < created_at)%N) →
  applied kind author source created_at event ∧ un_tags event = tags.
Proof.
  intros (Ha & Hk & Ht & Htags & Hcon & Hid & Hlen)%build_intent_Ok Hv%invalid_event_Ok Hc Hs.
  split; [|done]. split; [done..|by rewrite Htags|congruence|done].
Qed.
End built.

Lemma foldl_authored_tag tags b :
  foldl (λ b tag, authored_tag tag b) b tags =
  mkAuthored (ab_author b) (ab_kind b) (ab_created_at b) (ab_content b) (ab_tags b ++ tags) (ab_routing b)
    (ab_raw_routing_inputs b).
Proof.
  revert b. induction tags as [|tag tags IH]; intros b; simpl; [rewrite app_nil_r; by destruct b|].
  rewrite IH. simpl. by rewrite <- app_assoc.
Qed.

(** ** Properties of the builders *)

(** Repeated [to_relays] calls, as one run. *)
Fixpoint to_relays_all (b : EventBuilder) (calls : list (list RelayUrl)) : result WriteIntentError EventBuilder :=
  match calls with
  | [] => Ok b
  | relays :: calls => b ← builder_to_relays relays b; to_relays_all b calls
  end.

(** The routing after the relays [given] so far. *)
Definition routing_of (given : list RelayUrl) : WriteRouting :=
  match given with [] => Automatic | _ => Explicit (first_occurrences given) end.

Lemma first_occurrences_app l1 l2 :
  first_occurrences (l1 ++ l2) = first_occurrences l1 ++ fresh (first_occurrences l1) l2.
Proof.
  induction l1 as [|x l1 IH]; simpl; [by rewrite fresh_nil|]. f_equal.
  rewrite IH, filter_app, list_filter_filter. f_equal.
  apply list_filter_iff. intros y. rewrite elem_of_cons, list_elem_of_filter.
  destruct (decide (y = x)); tauto.
Qed.

Lemma append_relays_Ok given relays routing raw :
  length given ≤ MAX_RAW_EXPLICIT_RELAYS → length (first_occurrences given) ≤ MAX_EXPLICIT_RELAYS →
  append_relays (routing_of given) (length given) relays = Ok (routing, raw) ↔
  explicit (given ++ relays) = Ok routing ∧ raw = length (given ++ relays).
Proof.
  intros Hraw Hlen. unfold append_relays. rewrite <- length_app.
  destruct (decide (length (given ++ relays) ≤ MAX_RAW_EXPLICIT_RELAYS)) as [Hr|Hr].
  - rewrite (bool_decide_eq_true_2 (N.of_nat _ ≤ u64_max)%N) by (unfold u64_max, MAX_RAW_EXPLICIT_RELAYS in *; lia).
    unfold refuse_raw_input. rewrite (bool_decide_eq_true_2 (length (given ++ relays) ≤ _)) by done.
    rewrite explicit_unfold by done. cbn [mbind result_bind ensure].
    assert (Hold : match routing_of given with Automatic => [] | Explicit relays => relays end
                   = first_occurrences given) by (by destruct given).
    unfold append. rewrite Hold, push_distinct_spec by (done || set_solver). cbv zeta.
    rewrite <- first_occurrences_app. case_bool_decide; cbn [mbind result_bind]; [|naive_solver].
    destruct (given ++ relays); cbn [first_occurrences mbind result_bind ensure negb]; [naive_solver|].
    rewrite !bool_decide_eq_false_2 by done. cbn. naive_solver.
  - rewrite explicit_over_raw by done. unfold refuse_raw_input.
    rewrite (bool_decide_eq_false_2 (length (given ++ relays) ≤ _)) by done.
    case_bool_decide; cbn [mbind result_bind ensure]; naive_solver.
Qed.

Lemma explicit_Ok_bounds relays routing :
  explicit relays = Ok routing →
  routing = routing_of relays ∧ relays ≠ [] ∧ length relays ≤ MAX_RAW_EXPLICIT_RELAYS ∧
  length (first_occurrences relays) ≤ MAX_EXPLICIT_RELAYS.
Proof.
  destruct (decide (length relays ≤ MAX_RAW_EXPLICIT_RELAYS)) as [Hr|Hr];
    [rewrite explicit_unfold by done|by rewrite explicit_over_raw].
  case_bool_decide as Hlen; [|done]. case_bool_decide; [done|]. intros [= <-].
  split_and!; [|done..]. by destruct relays.
Qed.

(** A route that fits has every shorter one fit. *)
Lemma explicit_prefix l1 l2 routing :
  l1 ≠ [] → explicit (l1 ++ l2) = Ok routing → explicit l1 = Ok (routing_of l1).
Proof.
  intros Hne (_ & _ & Hr & Hl)%explicit_Ok_bounds. rewrite first_occurrences_app, length_app in *.
  rewrite explicit_unfold by lia. rewrite bool_decide_eq_true_2 by lia. rewrite bool_decide_eq_false_2 by done.
  by destruct l1.
Qed.

(** The builder holding [given]. *)
Definition holding (b : EventBuilder) (given : list RelayUrl) : EventBuilder :=
  mkBuilder (eb_kind b) (eb_created_at b) (eb_content b) (eb_tags b) (routing_of given) (length given).

Lemma to_relays_all_holding b given calls :
  length given ≤ MAX_RAW_EXPLICIT_RELAYS → length (first_occurrences given) ≤ MAX_EXPLICIT_RELAYS →
  (given ≠ [] ∨ ∀ relays, head calls = Some relays → relays ≠ []) →
  ∀ b', to_relays_all (holding b given) calls = Ok b' ↔
    b' = holding b (given ++ concat calls) ∧ (calls = [] ∨ is_ok (explicit (given ++ concat calls)) = true).
Proof.
  revert given. induction calls as [|relays calls IH]; intros given Hr Hl Hne b'; simpl.
  - rewrite app_nil_r. naive_solver.
  - unfold builder_to_relays. cbn [eb_routing eb_raw_routing_inputs holding].
    assert (Hne' : given ++ relays ≠ []).
    { destruct Hne as [?|Hh]; [by destruct given|]. specialize (Hh relays eq_refl). by destruct given, relays. }
    destruct (append_relays (routing_of given) (length given) relays) as [[routing raw]|e] eqn:Ha;
      cbn [mbind result_bind].
    + apply append_relays_Ok in Ha as [He ->]; [|done..].
      destruct (explicit_Ok_bounds _ _ He) as (-> & _ & Hr' & Hl').
      rewrite (IH (given ++ relays) Hr' Hl' (or_introl Hne')). rewrite <- app_assoc.
      split; intros [-> Hc]; (split; [done|]).
      * right. destruct Hc as [->|?]; [|done]. simpl. by rewrite app_nil_r, He.
      * destruct Hc as [?|?]; [done|by right].
    + split; [done|]. intros [_ [?|Hok]]; [done|]. rewrite app_assoc in Hok.
      destruct (explicit ((given ++ relays) ++ concat calls)) as [routing|] eqn:He; [|done].
      apply explicit_prefix in He; [|done].
      assert (append_relays (routing_of given) (length given) relays =
        Ok (routing_of (given ++ relays), length (given ++ relays))); [|congruence].
      by apply append_relays_Ok.
Qed.

(** Building a route call by call gives the route of all its relays at
    once: [to_relays], called repeatedly on a new builder, succeeds exactly when
    [WriteRouting::explicit] accepts the concatenated relays (the first call
    naming one), and then carries that same route, with the rest of the event
    as it was. *)
Theorem builder_routes_incrementally (now : Timestamp) (kind : Kind) (first : list RelayUrl)
    (calls : list (list RelayUrl)) (Hfirst : first ≠ []) :
  match to_relays_all (EventBuilder_new now kind) (first :: calls), explicit (first ++ concat calls) with
  | Ok b, Ok routing =>
      b = mkBuilder kind now "" [] routing (length (first ++ concat calls)) ∧ validate routing = Ok tt
  | Err _, Err _ => True
  | _, _ => False
  end.
Proof.
  assert (Hall : ∀ b', to_relays_all (EventBuilder_new now kind) (first :: calls) = Ok b' ↔
    b' = holding (EventBuilder_new now kind) (first ++ concat calls) ∧
    (first :: calls = [] ∨ is_ok (explicit (first ++ concat calls)) = true)).
  { apply (to_relays_all_holding (EventBuilder_new now kind) [] (first :: calls)).
    - simpl. lia.
    - simpl. lia.
    - right. intros relays [= <-]. done. }
  destruct (to_relays_all _ _) as [b|e] eqn:Hb; destruct (explicit _) as [routing|e'] eqn:He; try done.
  - destruct (proj1 (Hall b) eq_refl) as [-> _]. destruct (explicit_Ok_bounds _ _ He) as (-> & Hne & _ & Hl).
    split; [done|]. destruct (first ++ concat calls) as [|x l]; [done|].
    apply validate_explicit_Ok. split_and!; [done|done|]. apply NoDup_first_occurrences.
  - destruct (proj1 (Hall b) eq_refl) as [_ [?|?]]; done.
  - pose proof (proj2 (Hall _) (conj eq_refl (or_intror eq_refl))) as Hok. discriminate Hok.
Qed.

Lemma builder_routes_incrementally_witness :
  to_relays_all (EventBuilder_new 5 1) [["wss://a"]; ["wss://b"; "wss://a"]] =
    Ok (mkBuilder 1 5 "" [] (Explicit ["wss://a"; "wss://b"]) 3).
Proof.
  pose proof (builder_routes_incrementally 5 1 ["wss://a"] [["wss://b"; "wss://a"]] ltac:(done)) as Hw.
  destruct (to_relays_all _ _) as [b|e] eqn:Hb; [|by vm_compute in Hw].
  destruct (explicit _) as [routing|e] eqn:He; [|done]. destruct Hw as [-> _].
  vm_compute in He. injection He as <-. reflexivity.
Defined.

(** ** A concrete instance of the conversions, for evaluating examples *)

Module EditSample.
Import Nostr.Sample.

(** Keys and ids as their 32 bytes, also in text. *)
Definition key_slice (bytes : list N) : option N :=
  if bool_decide (length bytes = 32) && bool_decide (from_be_bytes bytes < 2 ^ 256)%N
  then Some (from_be_bytes bytes) else None.
Definition key_text (k : N) : string := string_of_bytes (to_be_bytes 32 k).

#[export] Instance byte_nostr : Nostr := {|
  kind_is_replaceable := is_replaceable;
  kind_is_addressable := is_addressable;
  event_id_from_hex := λ s, key_slice (bytes_of_string s);
  event_id_parse := λ s, key_slice (bytes_of_string s);
  public_key_parse := λ s, key_slice (bytes_of_string s);
  public_key_to_hex := key_text;
  relay_url_parse := λ s, if bool_decide (s = ""%string) then None else Some s;
  coordinate_parse := coordinate;
  event_verify := λ e, if bool_decide (ev_sig e = ev_id e) then None else Some "invalid signature"%string;
  unsigned_verify_id := λ e, match un_id e with Some _ => None | None => Some "missing id"%string end;
  unsigned_ensure_id := λ e,
    mkUnsigned (Some (un_created_at e)) (un_pubkey e) (un_created_at e) (un_kind e) (un_tags e) (un_content e);
  tags_expiration := expiration;
  tag_single_letter := single_letter;
  tag_content := λ t, t !! 1;
  event_id_to_string := key_text;
  public_key_debug := key_text;
  event_id_debug := key_text;
  unsigned_json_len := λ e, Ok (200 + String.length (un_content e));
  event_json_len := λ e, Ok (330 + String.length (ev_content e))
|}.

#[export] Instance byte_nostr_bytes : NostrBytes := {|
  public_key_as_bytes := to_be_bytes 32;
  public_key_from_slice := key_slice;
  public_key_from_hex := λ s, key_slice (bytes_of_string s);
  event_id_as_bytes := to_be_bytes 32;
  event_id_from_slice := key_slice;
  event_id_to_hex := key_text;
  tag_parse := λ values, match values with [] => Err "empty tag"%string | _ => Ok values end
|}.

Lemma to_be_bytes_range width n b : b ∈ to_be_bytes width n → (b < 256)%N.
Proof.
  induction width as [|width IH]; [by intros ?%not_elem_of_nil|]. rewrite to_be_bytes_S.
  intros [->|?]%elem_of_cons; [|by auto]. by apply N.mod_lt.
Qed.

Lemma bytes_of_string_of_bytes bytes : (∀ b, b ∈ bytes → (b < 256)%N) → bytes_of_string (string_of_bytes bytes) = bytes.
Proof.
  induction bytes as [|b bytes IH]; intros Hb; simpl; [done|].
  rewrite N_ascii_embedding by (apply Hb; left). f_equal. apply IH. set_solver.
Qed.

Lemma key_slice_bytes k : key_ok k → key_slice (to_be_bytes 32 k) = Some k.
Proof.
  intros Hk. unfold key_slice. rewrite from_to_be_small by done.
  rewrite !bool_decide_eq_true_2 by done. done.
Qed.

Lemma key_slice_ok bytes k : key_slice bytes = Some k → key_ok k.
Proof.
  unfold key_slice. destruct (_ && _) eqn:E; [|done]. intros [= <-].
  apply andb_true_iff in E as [_ E]. by apply bool_decide_eq_true in E.
Qed.

Lemma key_slice_text k : key_ok k → key_slice (bytes_of_string (key_text k)) = Some k.
Proof.
  intros Hk. unfold key_text. rewrite bytes_of_string_of_bytes by apply to_be_bytes_range.
  by apply key_slice_bytes.
Qed.

#[export] Instance byte_nostr_laws : NostrBytesLaws.
Proof.
  split; intros.
  - apply length_to_be_bytes.
  - by apply key_slice_bytes.
  - by eapply key_slice_ok.
  - by apply key_slice_text.
  - apply length_to_be_bytes.
  - by apply key_slice_bytes.
  - by eapply key_slice_ok.
  - by apply key_slice_text.
  - done.
Qed.

#[export] Instance byte_value_laws : NostrValueLaws.
Proof.
  split; [done|]. intros text relay. cbn. case_bool_decide; [done|]. intros [= <-].
  by rewrite bool_decide_eq_false_2.
Qed.
End EditSample.
