(* ===== verification/Nip02.v ===== *)
(** * Contact lists ([crates/fava-nip02])

    Reading kind-3 lists ([contact_list.rs]), the encoded-size bound on their
    sources ([bounds.rs]), the queries for them ([query.rs]) and the edits that
    follow and unfollow: their private byte codec and the applier that revises a
    list without losing a row ([edit.rs]).

    [unreachable!] in [map_build_error] is a panic, so reading a list returns an
    [outcome]; [contact_list_conserves_rows] shows it never panics.  Characters
    of a string are its bytes that are not continuation bytes. *)

From S2P Require Import Prelude Nostr Relay State Write Query Edits.

Definition kind_contact_list : Kind := 3.

(** ** Source bounds ([bounds.rs]) *)

Module Bounds.
Definition MAX_EVENT_BYTES : N := 131072.
Definition MIN_EVENT_WITH_ONE_TAG_BYTES : N := 334.
Definition MAX_TAG_VALUES : N := (MAX_EVENT_BYTES - MIN_EVENT_WITH_ONE_TAG_BYTES) / 3.
Definition EMPTY_EVENT_OBJECT_BYTES : N := 71.
Definition FIXED_HEX_BYTES : N := 64 + 64 + 128.

Definition add (bytes amount : N) : result WriteIntentError N :=
  let bytes := (bytes + amount)%N in
  _ ← ensure (bool_decide (bytes ≤ u64_max)%N) (Encoding "NIP-02 source encoded-size overflow");
  _ ← ensure (bool_decide (bytes ≤ MAX_EVENT_BYTES)%N) (TooLarge (N.to_nat bytes) (N.to_nat MAX_EVENT_BYTES));
  Ok bytes.

(** Decimal digits of a [u64]: [ilog10 + 1], and [1] for zero. *)
Fixpoint digits (fuel : nat) (value : N) : N :=
  match fuel with
  | O => 1
  | S fuel => if bool_decide (value < 10)%N then 1 else 1 + digits fuel (value / 10)
  end.
Definition decimal_len (value : N) : N := digits 19 value.

(** The encoded length of the character a byte starts, if it starts one. *)
Definition encoded_char (b : N) : option N :=
  if is_continuation b then None
  else Some (if bool_decide (b = 34 ∨ b = 92 ∨ b = 8 ∨ b = 9 ∨ b = 10 ∨ b = 12 ∨ b = 13)%N then 2
             else if bool_decide (b ≤ 31)%N then 6
             else if bool_decide (b < 128)%N then 1
             else if bool_decide (b < 224)%N then 2
             else if bool_decide (b < 240)%N then 3 else 4)%N.

Fixpoint add_all (bytes : N) (amounts : list N) : result WriteIntentError N :=
  match amounts with
  | [] => Ok bytes
  | amount :: amounts => bytes ← add bytes amount; add_all bytes amounts
  end.

Definition add_json_string (bytes : N) (value : string) : result WriteIntentError N :=
  bytes ← add bytes 2;
  add_all bytes (omap encoded_char (bytes_of_string value)).

(** The inner loop: the values of one tag; [first] is [value_index == 0]. *)
Fixpoint add_values (bytes value_count : N) (first : bool) (values : list string)
    : result WriteIntentError (N * N) :=
  match values with
  | [] => Ok (bytes, value_count)
  | value :: values =>
      let value_count := (value_count + 1)%N in
      _ ← ensure (bool_decide (value_count ≤ u64_max)%N) (Encoding "NIP-02 source tag-value count overflow");
      _ ← ensure (bool_decide (value_count ≤ MAX_TAG_VALUES)%N)
            (TooLarge (N.to_nat value_count) (N.to_nat MAX_TAG_VALUES));
      bytes ← (if first then Ok bytes else add bytes 1);
      bytes ← add_json_string bytes value;
      add_values bytes value_count false values
  end.

(** The outer loop; [first] is [tag_index == 0]. *)
Fixpoint add_tags (bytes value_count : N) (first : bool) (tags : list Tag) : result WriteIntentError N :=
  match tags with
  | [] => Ok bytes
  | tag :: tags =>
      bytes ← (if first then Ok bytes else add bytes 1);
      bytes ← add bytes 2;
      '(bytes, value_count) ← add_values bytes value_count true tag;
      add_tags bytes value_count false tags
  end.

Definition encoded_len_parts (created_at : Timestamp) (kind : Kind) (tags : list Tag) (content : string)
    : result WriteIntentError N :=
  bytes ← add EMPTY_EVENT_OBJECT_BYTES FIXED_HEX_BYTES;
  bytes ← add bytes (decimal_len created_at);
  bytes ← add bytes (decimal_len kind);
  bytes ← add bytes 2;
  bytes ← add_tags bytes 0 true tags;
  add_json_string bytes content.

Definition encoded_len (source : Event) : result WriteIntentError N :=
  encoded_len_parts (ev_created_at source) (ev_kind source) (ev_tags source) (ev_content source).

Definition validate_source (source : Event) : result WriteIntentError unit :=
  _ ← encoded_len source; Ok tt.

Definition validate_value_source (source : EventValue) : result WriteIntentError unit :=
  _ ← encoded_len_parts (value_created_at source) (value_kind source) (value_tags source) (value_content source);
  Ok tt.
End Bounds.

(** ** Reading lists ([contact_list.rs]) *)

Record Follow := mkFollow {
  fo_source_index : nat;
  fo_pubkey : PublicKey;
  fo_relay : option RelayUrl;
  fo_petname : option string
}.

Inductive ContactListRowEvidence :=
| MissingTarget (source_index : nat) (raw_row : list string)
| InvalidPublicKey (source_index : nat) (raw_row : list string)
| InvalidRelayHint (source_index : nat) (raw_row : list string)
| DuplicateTarget (source_index : nat) (raw_row : list string) (pubkey : PublicKey)
| UninterpretedExtraColumns (source_index : nat) (raw_row : list string).

Definition evidence_source_index (e : ContactListRowEvidence) : nat :=
  match e with
  | MissingTarget i _ | InvalidPublicKey i _ | InvalidRelayHint i _ | DuplicateTarget i _ _
  | UninterpretedExtraColumns i _ => i
  end.
Definition evidence_raw_row (e : ContactListRowEvidence) : list string :=
  match e with
  | MissingTarget _ r | InvalidPublicKey _ r | InvalidRelayHint _ r | DuplicateTarget _ r _
  | UninterpretedExtraColumns _ r => r
  end.

Record ContactList := mkContactList {
  cl_author : PublicKey;
  cl_follows : list Follow;
  cl_evidence : list ContactListRowEvidence
}.

Inductive ContactListError :=
| ContactWrongKind (kind : Kind)
| ContactMissingEventId
| ContactInvalidEvent (reason : string)
| ContactTooManyTags (actual maximum : nat)
| ContactTooLarge (bytes maximum : nat)
| ContactEncoding (reason : string)
| ContactDuplicateRelay (relay : RelayUrl)
| ContactInvalidRoute (reason : string).

Definition map_write_error (e : WriteIntentError) : ContactListError :=
  match e with
  | TooManyTags actual maximum => ContactTooManyTags actual maximum
  | TooLarge bytes maximum => ContactTooLarge bytes maximum
  | Encoding reason => ContactEncoding reason
  | DuplicateExplicitRelay relay => ContactDuplicateRelay relay
  | EmptyExplicitRelays | TooManyExplicitRelays _ _ | TooManyRawExplicitRelays _ _
  | ExplicitRoutingAttached | ConflictingExplicitRoutes => ContactInvalidRoute (intent_error_text e)
  | InvalidEvent reason => ContactInvalidEvent reason
  | IntentExpired => ContactInvalidEvent (intent_error_text e)
  end.

(** [map_build_error]; the last arm is [unreachable!]. *)
Definition map_build_error (e : EventBuildError) : outcome ContactListError :=
  match e with
  | BuildTooManyTags actual maximum => Returned (ContactTooManyTags actual maximum)
  | BuildTooLarge bytes maximum => Returned (ContactTooLarge bytes maximum)
  | BuildEncoding reason => Returned (ContactEncoding reason)
  | BuildExplicitRoutingAttached => Panicked
  end.

(** The operator [?] under [outcome]. *)
Definition try_outcome {E A B} (m : outcome (result E A)) (f : A → outcome (result E B)) : outcome (result E B) :=
  r ← m; match r with Ok a => f a | Err e => mret (Err e) end.

Section reading.
Context `{Nostr} `{NostrBytes}.

Definition parse_row (source_index : nat) (values : list string) (seen : gset PublicKey)
    : result ContactListRowEvidence Follow :=
  match values !! 1 with
  | None => Err (MissingTarget source_index values)
  | Some raw_pubkey =>
      pubkey ← ok_or (public_key_from_hex raw_pubkey) (InvalidPublicKey source_index values);
      relay ← match values !! 2 with
              | None | Some EmptyString => Ok None
              | Some raw_relay => Some <$> ok_or (relay_url_parse raw_relay) (InvalidRelayHint source_index values)
              end;
      _ ← ensure (bool_decide (length values ≤ 4)) (UninterpretedExtraColumns source_index values);
      _ ← ensure (negb (bool_decide (pubkey ∈ seen))) (DuplicateTarget source_index values pubkey);
      Ok (mkFollow source_index pubkey relay (values !! 3))
  end.

(** The loop of [from_event], from tag [source_index] on. *)
Fixpoint read_rows (source_index : nat) (seen : gset PublicKey) (tags : list Tag)
    : list Follow * list ContactListRowEvidence :=
  match tags with
  | [] => ([], [])
  | tag :: tags =>
      if tag_named "p" tag then
        match parse_row source_index tag seen with
        | Ok follow =>
            let '(follows, evidence) := read_rows (S source_index) ({[fo_pubkey follow]} ∪ seen) tags in
            (follow :: follows, evidence)
        | Err row_evidence =>
            let '(follows, evidence) := read_rows (S source_index) seen tags in
            (follows, row_evidence :: evidence)
        end
      else read_rows (S source_index) seen tags
  end.

Definition validate_unsigned_bound (event : UnsignedEvent) : outcome (result ContactListError unit) :=
  match build (authored_from_event event) with
  | Ok _ => mret (Ok tt)
  | Err e => e ← map_build_error e; mret (Err e)
  end.

Definition contact_invalid (failure : option string) : result ContactListError unit :=
  match failure with None => Ok tt | Some reason => Err (ContactInvalidEvent reason) end.

Definition validate_event (event : EventValue) : outcome (result ContactListError unit) :=
  match event with
  | Unsigned unsigned =>
      try_outcome (validate_unsigned_bound unsigned) (λ _,
        mret (_ ← ensure (bool_decide (is_Some (un_id unsigned))) ContactMissingEventId;
              contact_invalid (unsigned_verify_id unsigned)))
  | Signed signed =>
      mret (_ ← match Bounds.validate_source signed with Ok u => Ok u | Err e => Err (map_write_error e) end;
            contact_invalid (event_verify signed))
  end.

Definition ContactList_from_event (event : EventValue) : outcome (result ContactListError ContactList) :=
  if bool_decide (value_kind event ≠ kind_contact_list) then mret (Err (ContactWrongKind (value_kind event)))
  else
    try_outcome (validate_event event) (λ _,
      mret (_ ← ok_or (value_id event) ContactMissingEventId;
            let '(follows, evidence) := read_rows 0 ∅ (value_tags event) in
            Ok (mkContactList (value_author event) follows evidence))).

(** ** Queries ([query.rs]) *)

Definition contact_list (authors : list PublicKey) : result QueryError Query :=
  Ok (Query.authors (kinds events [kind_contact_list]) authors).

(** [SingleLetterTag::LOWERCASE_P]. *)
Definition lowercase_p : SingleLetterTag := N_of_ascii "p".

Definition followers_of (subject : PublicKey) : result QueryError Query :=
  Ok (tag_values (kinds events [kind_contact_list]) lowercase_p [public_key_to_hex subject]).

(** The loop of [follows_of]. *)
Fixpoint follows_in (records : list EventValue) : outcome (list PublicKey) :=
  match records with
  | [] => mret []
  | record :: records =>
      r ← ContactList_from_event record;
      rest ← follows_in records;
      mret (match r with Ok list => (fo_pubkey <$> cl_follows list) ++ rest | Err _ => rest end)
  end.
Definition follows_of (snapshot : QuerySnapshot) : outcome (list PublicKey) :=
  follows_in (er_event <$> qn_events snapshot).
End reading.

(** ** Edits ([edit.rs]) *)

Definition ADD : N := 1.
Definition REMOVE : N := 2.
Definition ADD_WITH_METADATA : N := 3.
Definition CODEC_LEN : nat := 33.
Definition MAX_EDIT_BYTES : nat := Pos.to_nat 131072.
Definition MAX_TARGET_TEXT_BYTES : nat := 69.

Inductive Operation :=
| Add
| AddWithMetadata (relay : option RelayUrl) (petname : option string)
| Remove.

Definition operation_code (o : Operation) : N :=
  match o with Add => ADD | AddWithMetadata _ _ => ADD_WITH_METADATA | Remove => REMOVE end.

Record Change := mkChange {
  ch_operation : Operation;
  ch_target : PublicKey
}.

Definition codec_refusal (reason : string) : WriteIntentError := Encoding reason.
Definition edit_too_large (bytes : nat) : WriteIntentError := TooLarge bytes MAX_EDIT_BYTES.

Definition opt_len (s : option string) : nat := match s with Some s => String.length s | None => 0 end.

(** [metadata_encoded_len]; its checked additions cannot overflow a [usize]
    below the bound, and refuse otherwise. *)
Definition metadata_encoded_len (relay : option RelayUrl) (petname : option string)
    : result WriteIntentError nat :=
  let encoded_len := CODEC_LEN + 4 + opt_len relay + 1 + (if petname then 4 else 0) + opt_len petname in
  _ ← ensure (bool_decide (N.of_nat encoded_len ≤ u64_max)%N) (codec_refusal "NIP-02 edit size overflow");
  _ ← ensure (bool_decide (encoded_len ≤ MAX_EDIT_BYTES)) (edit_too_large encoded_len);
  Ok encoded_len.

Section codec.
Context `{Nostr} `{NostrBytes}.

Definition encode (change : Change) : result WriteIntentError (list N) :=
  match ch_operation change with
  | AddWithMetadata relay petname =>
      _ ← metadata_encoded_len relay petname;
      let relay := default ""%string relay in
      relay_len ← ok_or (try_u32 (String.length relay)) (edit_too_large (String.length relay));
      petname_part ←
        match petname with
        | Some petname =>
            petname_len ← ok_or (try_u32 (String.length petname)) (edit_too_large (String.length petname));
            Ok (1%N :: to_be_bytes 4 petname_len ++ bytes_of_string petname)
        | None => Ok [0%N]
        end;
      Ok (operation_code (ch_operation change) :: public_key_as_bytes (ch_target change)
          ++ to_be_bytes 4 relay_len ++ bytes_of_string relay ++ petname_part)
  | Add | Remove => Ok (operation_code (ch_operation change) :: public_key_as_bytes (ch_target change))
  end.

Definition take_length_prefixed (bytes : list N) : result WriteIntentError (list N * list N) :=
  '(prefix, rest) ← ok_or (split_first_n 4 bytes) (codec_refusal "truncated NIP-02 metadata length");
  ok_or (split_first_n (N.to_nat (from_be_bytes prefix)) rest) (codec_refusal "truncated NIP-02 metadata value").

Definition decode_metadata (bytes : list N) : result WriteIntentError Operation :=
  '(relay_bytes, remaining) ← take_length_prefixed bytes;
  relay_text ← ok_or (from_utf8 relay_bytes) (codec_refusal "invalid NIP-02 relay encoding");
  relay ← (if bool_decide (relay_text = ""%string) then Ok None
           else Some <$> ok_or (relay_url_parse relay_text) (codec_refusal "invalid NIP-02 relay hint"));
  match remaining with
  | [] => Err (codec_refusal "malformed NIP-02 metadata edit")
  | presence :: remaining =>
      petname ←
        (if bool_decide (presence = 0%N) && bool_decide (remaining = []) then Ok None
         else if bool_decide (presence = 1%N) then
           '(petname, trailing) ← take_length_prefixed remaining;
           _ ← ensure (bool_decide (trailing = [])) (codec_refusal "trailing NIP-02 metadata edit bytes");
           Some <$> ok_or (from_utf8 petname) (codec_refusal "invalid NIP-02 petname encoding")
         else Err (codec_refusal "invalid NIP-02 petname presence"));
      Ok (AddWithMetadata relay petname)
  end.

Definition decode (bytes : list N) : result WriteIntentError Change :=
  match bytes with
  | [] => Err (codec_refusal "malformed NIP-02 edit")
  | code :: rest =>
      _ ← ensure (bool_decide (CODEC_LEN ≤ length bytes)) (codec_refusal "malformed NIP-02 edit");
      target ← ok_or (public_key_from_slice (take 32 rest)) (codec_refusal "invalid NIP-02 target public key");
      operation ←
        (if bool_decide (code = ADD) && bool_decide (length bytes = CODEC_LEN) then Ok Add
         else if bool_decide (code = REMOVE) && bool_decide (length bytes = CODEC_LEN) then Ok Remove
         else if bool_decide (code = ADD_WITH_METADATA) then decode_metadata (drop 32 rest)
         else Err (codec_refusal "unknown NIP-02 edit operation"));
      Ok (mkChange operation target)
  end.

Definition edit (target : PublicKey) (operation : Operation) : result WriteIntentError EventEdit :=
  change ← encode (mkChange operation target);
  EventEdit_new kind_contact_list None change.

(** [parse_target]: the target displays itself in [pieces] under the text bound,
    stopping at the first refused or failed one ([None]);
    [BoundedTargetText::write_str] is one step. *)
Fixpoint write_target (value : string) (pieces : list (option string)) : result WriteIntentError string :=
  match pieces with
  | [] => Ok value
  | None :: _ => Err (InvalidEvent "invalid NIP-02 target public key")
  | Some piece :: pieces =>
      let attempted := String.length value + String.length piece in
      _ ← ensure (bool_decide (attempted ≤ MAX_TARGET_TEXT_BYTES)) (TooLarge attempted MAX_TARGET_TEXT_BYTES);
      write_target (value +:+ piece) pieces
  end.

Definition parse_target (pieces : list (option string)) : result WriteIntentError PublicKey :=
  text ← write_target "" pieces;
  ok_or (public_key_parse text) (InvalidEvent "invalid NIP-02 target public key").

Definition follow (target : list (option string)) : result WriteIntentError EventEdit :=
  target ← parse_target target; edit target Add.
Definition unfollow (target : list (option string)) : result WriteIntentError EventEdit :=
  target ← parse_target target; edit target Remove.
Definition follow_with (target : list (option string)) (relay : option RelayUrl) (petname : option string)
    : result WriteIntentError EventEdit :=
  target ← parse_target target;
  match relay, petname with
  | None, None => edit target Add
  | _, _ =>
      _ ← metadata_encoded_len relay petname;
      edit target (AddWithMetadata relay petname)
  end.

(** ** Applying edits *)

Definition validate_edit_coordinate (e : EventEdit) : result WriteIntentError unit :=
  ensure (bool_decide (ed_kind e = kind_contact_list) && bool_decide (ed_identifier e = None))
    (InvalidEvent "NIP-02 edit requires a non-addressable kind-3 coordinate").

Definition decode_edit (e : EventEdit) : result WriteIntentError Change :=
  _ ← validate_edit_coordinate e; decode (ed_change e).

Definition tag_targets (target : PublicKey) (tag : Tag) : bool :=
  tag_named "p" tag && bool_decide ((tag !! 1) ≫= public_key_from_hex = Some target).

Definition canonical_row (change : Change) : result WriteIntentError Tag :=
  let metadata :=
    match ch_operation change with
    | AddWithMetadata relay petname =>
        (if bool_decide (is_Some relay ∨ is_Some petname) then [default ""%string relay] else [])
        ++ match petname with Some petname => [petname] | None => [] end
    | _ => []
    end in
  match tag_parse (["p"; public_key_to_hex (ch_target change)] ++ metadata) with
  | Ok tag => Ok tag
  | Err _ => Err (codec_refusal "invalid NIP-02 contact row")
  end.

Definition is_remove (o : Operation) : bool := match o with Remove => true | _ => false end.

(** [apply]; the capacity it reserves cannot overflow, so its refusal is out of
    reach and only the allocation depends on it. *)
Definition apply (source : list Tag) (change : Change) : result WriteIntentError (list Tag) :=
  let add := negb (is_remove (ch_operation change)) in
  let '(tags, found) := retain_loop (tag_targets (ch_target change)) add id false source in
  if add && negb found then row ← canonical_row change; Ok (tags ++ [row]) else Ok tags.

Definition qualified_source (author : PublicKey) (source : option EventValue) (created_at : Timestamp)
    : result WriteIntentError (string * list Tag) :=
  match source with
  | None => Ok (""%string, [])
  | Some source =>
      _ ← Bounds.validate_value_source source;
      _ ← verify_value source;
      _ ← ensure (bool_decide (value_author source = author) && bool_decide (value_kind source = kind_contact_list))
            (InvalidEvent "NIP-02 source author or kind does not match accepted write");
      _ ← ensure (bool_decide (value_created_at source < created_at)%N)
            (InvalidEvent "NIP-02 revision timestamp must succeed its source");
      Ok (value_content source, value_tags source)
  end.

(** [build]: the builder, one tag at a time. *)
Definition build_list (author : PublicKey) (content : string) (tags : list Tag) (created_at : Timestamp)
    : result WriteIntentError UnsignedEvent :=
  let builder := builder_by author
    (builder_content content (builder_created_at created_at (EventBuilder_new 0 kind_contact_list))) in
  build_intent (foldl (λ b tag, authored_tag tag b) builder tags).

Definition nip02_apply (e : EventEdit) (author : PublicKey) (source : option EventValue) (created_at : Timestamp)
    : result WriteIntentError UnsignedEvent :=
  change ← decode_edit e;
  '(content, source_tags) ← qualified_source author source created_at;
  tags ← apply source_tags change;
  event ← build_list author content tags created_at;
  _ ← invalid_event (unsigned_verify_id event);
  Ok event.

Definition Nip02Applier : EditApplier :=
  mkApplier kind_contact_list (λ e, is_ok (decode_edit e)) nip02_apply.
End codec.

(** ** Lemmas: the codec *)

Section codec_lemmas.
Context `{Nostr} `{NostrBytes} `{!NostrBytesLaws} `{!NostrValueLaws}.

#[local] Opaque to_be_bytes.

(** A relay and a petname the types of the source allow. *)
Definition relay_ok (r : RelayUrl) : Prop := str_ok r ∧ r ≠ ""%string ∧ relay_url_parse r = Some r.

Definition change_ok (c : Change) : Prop :=
  key_ok (ch_target c) ∧
  match ch_operation c with
  | AddWithMetadata relay petname => (∀ r, relay = Some r → relay_ok r) ∧ (∀ p, petname = Some p → str_ok p)
  | _ => True
  end.

Lemma take_length_prefixed_app n bytes rest :
  try_u32 (length bytes) = Some n →
  take_length_prefixed (to_be_bytes 4 n ++ bytes ++ rest) = Ok (bytes, rest).
Proof.
  intros [-> Hle]%try_u32_Some. unfold take_length_prefixed.
  rewrite split_first_n_app' by done. cbn [ok_or mbind result_bind].
  rewrite from_to_be_small by (unfold u32_max in Hle; simpl; lia).
  rewrite Nat2N.id, split_first_n_app. done.
Qed.

Lemma decode_metadata_app relay petname relay_len petname_part :
  (∀ r, relay = Some r → relay_ok r) → (∀ p, petname = Some p → str_ok p) →
  try_u32 (String.length (default ""%string relay)) = Some relay_len →
  match petname with
  | Some p => ∃ n, try_u32 (String.length p) = Some n ∧ petname_part = 1%N :: to_be_bytes 4 n ++ bytes_of_string p
  | None => petname_part = [0%N]
  end →
  decode_metadata (to_be_bytes 4 relay_len ++ bytes_of_string (default ""%string relay) ++ petname_part) =
    Ok (AddWithMetadata relay petname).
Proof.
  intros Hrelay Hpet Hlen Hpart. unfold decode_metadata.
  rewrite take_length_prefixed_app by (by rewrite length_bytes_of_string). cbn [mbind result_bind].
  assert (Hstr : str_ok (default ""%string relay)) by (destruct relay; [by apply Hrelay|done]).
  rewrite from_utf8_bytes by done. cbn [ok_or mbind result_bind].
  assert (Hr : (if bool_decide (default ""%string relay = ""%string) then Ok None
                else Some <$> ok_or (relay_url_parse (default ""%string relay))
                                (codec_refusal "invalid NIP-02 relay hint")) = Ok relay).
  { destruct relay as [r|]; simpl; [|done]. destruct (Hrelay r eq_refl) as (_ & Hne & Hp).
    rewrite bool_decide_eq_false_2 by done. by rewrite Hp. }
  rewrite Hr. cbn [mbind result_bind]. destruct petname as [p|].
  - destruct Hpart as (n & Hn & ->). rewrite <- (app_nil_r (bytes_of_string p)).
    rewrite take_length_prefixed_app by (by rewrite length_bytes_of_string).
    cbn. rewrite from_utf8_bytes by (by apply Hpet). done.
  - subst petname_part. done.
Qed.

Lemma contact_decode_encode c bytes : change_ok c → encode c = Ok bytes → decode bytes = Ok c.
Proof.
  destruct c as [op target]. intros [Hkey Hop] Henc. unfold encode in Henc. cbn [ch_operation ch_target] in Hop, Hkey, Henc.
  assert (Htake : ∀ rest, take 32 (public_key_as_bytes target ++ rest) = public_key_as_bytes target).
  { intros rest. rewrite <- (public_key_bytes_length target). apply take_app_length. }
  assert (Hdrop : ∀ rest, drop 32 (public_key_as_bytes target ++ rest) = rest).
  { intros rest. rewrite <- (public_key_bytes_length target). apply drop_app_length. }
  assert (Hplain : take 32 (public_key_as_bytes target) = public_key_as_bytes target)
    by (rewrite <- (app_nil_r (public_key_as_bytes target)) at 1; apply Htake).
  destruct op as [|relay petname|].
  - injection Henc as <-. unfold decode. cbn [length]. rewrite public_key_bytes_length, Hplain.
    rewrite public_key_bytes_roundtrip by done. done.
  - apply bind_Ok in Henc as (_ & _ & Henc). apply bind_Ok in Henc as (relay_len & Hrl%ok_or_Ok & Henc).
    apply bind_Ok in Henc as (part & Hpart & [= <-]).
    unfold decode.
    rewrite (bool_decide_eq_true_2 (CODEC_LEN ≤ _))
      by (cbn [length]; rewrite length_app, public_key_bytes_length; unfold CODEC_LEN; lia).
    cbn [mbind result_bind ensure].
    rewrite Htake, Hdrop, public_key_bytes_roundtrip by done. cbn [ok_or mbind result_bind].
    destruct Hop as [Hrelay Hpet]. rewrite (decode_metadata_app relay petname relay_len part); [done|done|done|done|].
    destruct petname as [p|]; [|by injection Hpart as <-].
    apply bind_Ok in Hpart as (n & Hn%ok_or_Ok & [= <-]). eauto.
  - injection Henc as <-. unfold decode. cbn [length]. rewrite public_key_bytes_length, Hplain.
    rewrite public_key_bytes_roundtrip by done. done.
Qed.

(** ** Lemmas: applying *)

Lemma canonical_row_Ok c : ∃ rest, canonical_row c = Ok (["p"%string; public_key_to_hex (ch_target c)] ++ rest).
Proof.
  unfold canonical_row. cbn [app]. rewrite tag_parse_cons. eauto.
Qed.

Lemma canonical_row_targets c row : key_ok (ch_target c) → canonical_row c = Ok row → tag_targets (ch_target c) row = true.
Proof.
  intros Hkey. destruct (canonical_row_Ok c) as [rest ->]. intros [= <-].
  apply andb_true_iff. split; apply bool_decide_eq_true_2; [done|]. cbn.
  by apply public_key_hex_roundtrip.
Qed.

Lemma contact_apply_retains source c tags :
  apply source c = Ok tags →
  ∃ row, canonical_row c = Ok row ∧
    tags = retain_or_push (tag_targets (ch_target c)) (negb (is_remove (ch_operation c))) id row source.
Proof.
  unfold apply, retain_or_push. destruct (canonical_row_Ok c) as [rest Hrow].
  destruct (retain_loop _ _ _ _ _) as [kept found]. intros Happ. eexists. split; [exact Hrow|].
  rewrite Hrow in Happ. destruct (_ && _); by injection Happ as <-.
Qed.

Lemma decode_key bytes c : decode bytes = Ok c → key_ok (ch_target c).
Proof.
  unfold decode. destruct bytes as [|code rest]; [done|].
  intros (_ & _ & (target & Ht%ok_or_Ok & (op & _ & [= <-])%bind_Ok)%bind_Ok)%bind_Ok.
  by eapply public_key_from_slice_ok.
Qed.

Lemma build_list_parts author content tags created_at :
  build_list author content tags created_at =
  build_intent (authored_from_parts author kind_contact_list created_at tags content).
Proof. unfold build_list. by rewrite foldl_authored_tag. Qed.

Lemma contact_qualified_source_Ok author source created_at content tags :
  qualified_source author source created_at = Ok (content, tags) →
  content = match source with Some v => value_content v | None => ""%string end ∧
  tags = match source with Some v => value_tags v | None => [] end ∧
  ∀ v, source = Some v → verify_value v = Ok tt ∧ value_author v = author ∧ value_kind v = kind_contact_list ∧
                          (value_created_at v < created_at)%N.
Proof.
  unfold qualified_source. destruct source as [v|]; [|intros [= <- <-]; done].
  intros (_ & _ & ([] & Hv & ([] & [Ha Hk]%ensure_Ok%andb_true_iff &
    ([] & Ht%ensure_Ok & [= <- <-])%bind_Ok)%bind_Ok)%bind_Ok)%bind_Ok.
  apply bool_decide_eq_true in Ha, Hk, Ht. split_and!; [done..|]. intros v' [= <-]. done.
Qed.

(** The steps of a successful application. *)
Lemma nip02_apply_Ok e author source created_at event :
  nip02_apply e author source created_at = Ok event →
  ∃ c row, decode_edit e = Ok c ∧ key_ok (ch_target c) ∧ canonical_row c = Ok row ∧
    applied kind_contact_list author source created_at event ∧
    un_tags event = retain_or_push (tag_targets (ch_target c)) (negb (is_remove (ch_operation c))) id row
                      match source with Some v => value_tags v | None => [] end.
Proof.
  intros (c & Hdec & ([content tags] & Hq & (out & Happ & (ev & Hb & ([] & Hv & [= <-])%bind_Ok)%bind_Ok)%bind_Ok)
    %bind_Ok)%bind_Ok.
  destruct (contact_apply_retains _ _ _ Happ) as (row & Hrow & ->). rewrite build_list_parts in Hb.
  destruct (contact_qualified_source_Ok _ _ _ _ _ Hq) as (Hc & -> & Hs).
  destruct (built_applied _ _ source _ _ _ _ Hb) as [Hap Htags]; [done..|].
  exists c, row. split_and!; [done| |done..]. unfold decode_edit in Hdec.
  apply bind_Ok in Hdec as (_ & _ & Hdec). by eapply decode_key.
Qed.

#[global] Instance nip02_lawful : EditApplierLaws Nip02Applier.
Proof.
  split; cbn [applier_apply applier_supports applier_kind Nip02Applier].
  - intros e author source created_at event (c & row & Hdec & _)%nip02_apply_Ok. rewrite Hdec.
    split; [done|]. apply bind_Ok in Hdec as ([] & [Hk _]%ensure_Ok%andb_true_iff & _).
    by apply bool_decide_eq_true in Hk.
  - intros e author source created_at event (c & row & _ & _ & _ & Hap & _)%nip02_apply_Ok. done.
  - intros e author source created_at event created_at' event'
      (c & row & Hdec & Hkey & Hrow & _ & Htags)%nip02_apply_Ok
      (c' & row' & Hdec' & _ & Hrow' & _ & Htags')%nip02_apply_Ok.
    assert (c' = c) as -> by congruence. assert (row' = row) as -> by congruence.
    rewrite Htags'. cbn [value_tags]. rewrite Htags.
    apply retain_or_push_idem. by apply canonical_row_targets.
Qed.

(** ** Lemmas: what a list says *)

(** The key a row names, if the row is one a list counts. *)
Definition row_key (tag : Tag) : option PublicKey :=
  if tag_named "p" tag then
    match parse_row 0 tag ∅ with Ok f => Some (fo_pubkey f) | Err _ => None end
  else None.

Definition followed (k : PublicKey) (tags : list Tag) : Prop :=
  ∃ f, f ∈ (read_rows 0 ∅ tags).1 ∧ fo_pubkey f = k.

Lemma parse_row_cases i tag seen :
  match parse_row 0 tag ∅ with
  | Ok f => parse_row i tag seen =
      if bool_decide (fo_pubkey f ∈ seen) then Err (DuplicateTarget i tag (fo_pubkey f))
      else Ok (mkFollow i (fo_pubkey f) (fo_relay f) (fo_petname f))
  | Err _ => ∃ e, parse_row i tag seen = Err e ∧ evidence_source_index e = i ∧ evidence_raw_row e = tag
  end.
Proof.
  unfold parse_row. destruct (tag !! 1) as [raw|]; [|eauto].
  destruct (public_key_from_hex raw) as [k|]; cbn [ok_or mbind result_bind]; [|eauto].
  assert (Hcol : ∀ relay,
    match (_ ← ensure (bool_decide (length tag ≤ 4)) (UninterpretedExtraColumns 0 tag);
           _ ← ensure (negb (bool_decide (k ∈ (∅ : gset PublicKey)))) (DuplicateTarget 0 tag k);
           Ok (mkFollow 0 k relay (tag !! 3))) with
    | Ok f =>
        (_ ← ensure (bool_decide (length tag ≤ 4)) (UninterpretedExtraColumns i tag);
         _ ← ensure (negb (bool_decide (k ∈ seen))) (DuplicateTarget i tag k);
         Ok (mkFollow i k relay (tag !! 3))) =
        if bool_decide (fo_pubkey f ∈ seen) then Err (DuplicateTarget i tag (fo_pubkey f))
        else Ok (mkFollow i (fo_pubkey f) (fo_relay f) (fo_petname f))
    | Err _ => ∃ e,
        (_ ← ensure (bool_decide (length tag ≤ 4)) (UninterpretedExtraColumns i tag);
         _ ← ensure (negb (bool_decide (k ∈ seen))) (DuplicateTarget i tag k);
         Ok (mkFollow i k relay (tag !! 3))) = Err e ∧ evidence_source_index e = i ∧ evidence_raw_row e = tag
    end).
  { intros relay. rewrite (bool_decide_eq_false_2 (k ∈ (∅ : gset PublicKey))) by set_solver.
    destruct (bool_decide (length tag ≤ 4)); cbn [ensure mbind result_bind negb]; [|eauto].
    cbn [fo_pubkey fo_relay fo_petname]. by destruct (bool_decide (k ∈ seen)). }
  destruct (tag !! 2) as [[|a t]|]; [apply Hcol| |apply Hcol].
  destruct (relay_url_parse _) as [relay|]; cbn [ok_or fmap result_fmap mbind result_bind]; [apply Hcol|eauto].
Qed.

(** Every row is read once: as the follow or as the evidence of its index. *)
Fixpoint p_indices (i : nat) (tags : list Tag) : list nat :=
  match tags with
  | [] => []
  | tag :: tags => if tag_named "p" tag then i :: p_indices (S i) tags else p_indices (S i) tags
  end.

Lemma read_rows_spec i seen tags follows evidence :
  read_rows i seen tags = (follows, evidence) →
  (fo_source_index <$> follows) ++ (evidence_source_index <$> evidence) ≡ₚ p_indices i tags ∧
  NoDup (fo_pubkey <$> follows) ∧ (∀ k, k ∈ fo_pubkey <$> follows → k ∉ seen) ∧
  (∀ k, k ∈ fo_pubkey <$> follows ↔ k ∉ seen ∧ ∃ tag, tag ∈ tags ∧ row_key tag = Some k) ∧
  (∀ e, e ∈ evidence → ∃ j, evidence_source_index e = i + j ∧ tags !! j = Some (evidence_raw_row e)).
Proof.
  revert i seen follows evidence. induction tags as [|tag tags IH]; intros i seen follows evidence; cbn [read_rows p_indices].
  { intros [= <- <-]. split_and!; [done|constructor|set_solver|set_solver|]. intros e ?%not_elem_of_nil. done. }
  assert (Hshift : ∀ evidence' : list ContactListRowEvidence, (∀ e, e ∈ evidence' → ∃ j, evidence_source_index e = S i + j ∧ tags !! j = Some (evidence_raw_row e)) →
    ∀ e, e ∈ evidence' → ∃ j, evidence_source_index e = i + j ∧ (tag :: tags) !! j = Some (evidence_raw_row e)).
  { intros evidence' He e (j & Hj & Hrow)%He. exists (S j). split; [lia|done]. }
  destruct (tag_named "p" tag) eqn:Hp.
  - pose proof (parse_row_cases i tag seen) as Hc. destruct (parse_row 0 tag ∅) as [f|e0] eqn:Hrow0.
    + assert (Hkey : row_key tag = Some (fo_pubkey f)) by (unfold row_key; by rewrite Hp, Hrow0).
      rewrite Hc. case_bool_decide as Hin.
      * destruct (read_rows (S i) seen tags) as [fs es] eqn:Hr. intros [= <- <-].
        destruct (IH _ _ _ _ Hr) as (Hperm & Hnd & Hns & Hiff & Hev). split_and!.
        -- cbn. rewrite <- Hperm. by rewrite Permutation_middle.
        -- done.
        -- done.
        -- intros k. rewrite Hiff. setoid_rewrite elem_of_cons. split; [naive_solver|].
           intros [Hk (t & [->|Ht] & Hrow)]; [|by eauto]. congruence.
        -- intros e [->|He]%elem_of_cons; [exists 0; split; [simpl; lia|done]|by apply (Hshift es)].
      * destruct (read_rows (S i) _ tags) as [fs es] eqn:Hr. intros [= <- <-].
        destruct (IH _ _ _ _ Hr) as (Hperm & Hnd & Hns & Hiff & Hev). split_and!.
        -- cbn. by rewrite <- Hperm.
        -- cbn. apply NoDup_cons. split; [|done]. intros Hk%Hns. cbn in Hk. set_solver.
        -- intros k. cbn. intros [->|Hk%Hns]%elem_of_cons; [done|]. set_solver.
        -- intros k. cbn [fmap list_fmap]. rewrite elem_of_cons, Hiff. cbn [fo_pubkey].
           setoid_rewrite elem_of_cons. split.
           ++ intros [->|(Hk & t & Ht & Hrow)]; [eauto|]. split; [set_solver|eauto].
           ++ intros [Hk (t & [->|Ht] & Hrow)]; [left; congruence|].
              destruct (decide (k = fo_pubkey f)) as [|Hne]; [by left|right]. split; [set_solver|eauto].
        -- by apply (Hshift es).
    + destruct Hc as (e & -> & Hi & Hraw). destruct (read_rows (S i) seen tags) as [fs es] eqn:Hr. intros [= <- <-].
      destruct (IH _ _ _ _ Hr) as (Hperm & Hnd & Hns & Hiff & Hev).
      assert (Hkey : row_key tag = None) by (unfold row_key; by rewrite Hp, Hrow0). split_and!.
      * cbn. rewrite Hi, <- Hperm. by rewrite Permutation_middle.
      * done.
      * done.
      * intros k. rewrite Hiff. setoid_rewrite elem_of_cons. split; [naive_solver|].
        intros [Hk (t & [->|Ht] & Hrow)]; [congruence|eauto].
      * intros e' [->|He]%elem_of_cons; [exists 0; split; [lia|by rewrite Hraw]|by apply (Hshift es)].
  - intros Hr. destruct (IH _ _ _ _ Hr) as (Hperm & Hnd & Hns & Hiff & Hev).
    assert (Hkey : row_key tag = None) by (unfold row_key; by rewrite Hp). split_and!; [done..| |by apply Hshift].
    intros k. rewrite Hiff. setoid_rewrite elem_of_cons. split; [naive_solver|].
    intros [Hk (t & [->|Ht] & Hrow)]; [congruence|eauto].
Qed.

Lemma followed_row_key k tags : followed k tags ↔ ∃ tag, tag ∈ tags ∧ row_key tag = Some k.
Proof.
  unfold followed. destruct (read_rows 0 ∅ tags) as [fs es] eqn:Hr.
  destruct (read_rows_spec _ _ _ _ _ Hr) as (_ & _ & _ & Hiff & _). specialize (Hiff k).
  rewrite list_elem_of_fmap in Hiff. simpl. set_solver.
Qed.

(** A counted row names the key it targets. *)
Lemma row_key_targets tag k : row_key tag = Some k → tag_targets k tag = true.
Proof.
  unfold row_key, tag_targets. destruct (tag_named "p" tag); [|done]. unfold parse_row.
  destruct (tag !! 1) as [raw|]; [|done]. cbn [mbind option_bind].
  destruct (public_key_from_hex raw) as [k'|]; [|done]. cbn [ok_or mbind result_bind].
  destruct (_ ≫= _) as [f|] eqn:E; [|done]. intros [= <-]. apply andb_true_iff. split; [done|].
  apply bool_decide_eq_true_2. f_equal. apply bind_Ok in E as (relay & _ & E).
  by apply bind_Ok in E as (_ & _ & (_ & _ & [= <-])%bind_Ok).
Qed.

Lemma tag_targets_inj tag k k' : tag_targets k tag = true → tag_targets k' tag = true → k = k'.
Proof.
  unfold tag_targets. intros [_ Hk]%andb_true_iff [_ Hk']%andb_true_iff.
  apply bool_decide_eq_true in Hk, Hk'. congruence.
Qed.

(** The row an edit appends is one a list counts. *)
Lemma canonical_row_key c row :
  change_ok c → is_remove (ch_operation c) = false → canonical_row c = Ok row → row_key row = Some (ch_target c).
Proof.
  intros [Hkey Hop] Hadd. unfold canonical_row. cbn [app]. rewrite tag_parse_cons. intros [= <-].
  unfold row_key, parse_row. cbn -[public_key_from_hex public_key_to_hex relay_url_parse].
  rewrite public_key_hex_roundtrip by done. cbn [ok_or mbind result_bind].
  destruct (ch_operation c) as [|relay petname|]; [done| |done]. destruct Hop as [Hrelay _].
  destruct relay as [r|]; [destruct (Hrelay r eq_refl) as (_ & Hne & Hp)|].
  - rewrite bool_decide_eq_true_2 by eauto.
    destruct r as [|a r]; [done|]. cbn -[relay_url_parse]. rewrite Hp. by destruct petname.
  - destruct petname; [|done]. rewrite bool_decide_eq_true_2 by eauto. done.
Qed.

Lemma contact_edit_decodes k op e : change_ok (mkChange op k) → edit k op = Ok e → decode_edit e = Ok (mkChange op k).
Proof.
  intros Hok (bytes & Henc & Hnew)%bind_Ok. apply bind_Ok in Hnew as (_ & _ & (_ & _ & [= <-])%bind_Ok).
  unfold decode_edit. cbn. by apply contact_decode_encode.
Qed.

(** ** Properties *)

(** Reading a kind-3 event never panics and conserves every row: each [p]
    tag is read exactly once, as the follow or as the evidence that carries its
    index (evidence with the exact row), and no key is followed twice. *)
Theorem contact_list_conserves_rows (event : EventValue) :
  ∃ r, ContactList_from_event event = Returned r ∧
    match r with
    | Ok list =>
        cl_author list = value_author event ∧
        (fo_source_index <$> cl_follows list) ++ (evidence_source_index <$> cl_evidence list)
          ≡ₚ p_indices 0 (value_tags event) ∧
        NoDup (fo_pubkey <$> cl_follows list) ∧
        ∀ e, e ∈ cl_evidence list → value_tags event !! evidence_source_index e = Some (evidence_raw_row e)
    | Err _ => True
    end.
Proof.
  unfold ContactList_from_event. case_bool_decide; [by eexists|].
  assert (∃ v, validate_event event = Returned v) as [v ->].
  { destruct event as [u|e]; simpl; [|by eexists]. unfold validate_unsigned_bound, build. simpl.
    destruct (build_event _) as [b|b] eqn:Hb; [by eexists|]. destruct b; try by eexists.
    unfold build_event in Hb. apply bind_Err in Hb as [[_ ?]%ensure_Err|(_ & _ & Hb)]; [done|].
    destruct (unsigned_json_len _); [|done]. by apply bind_Err in Hb as [[_ ?]%ensure_Err|(_ & _ & ?)]. }
  destruct v as [[]|e]; cbn; [|by eexists]. eexists. split; [done|].
  destruct (value_id event); cbn; [|done]. destruct (read_rows 0 ∅ (value_tags event)) as [fs es] eqn:Hr.
  destruct (read_rows_spec _ _ _ _ _ Hr) as (Hperm & Hnd & _ & _ & Hev). cbn. split_and!; [done..|].
  intros e (j & -> & Hj)%Hev. done.
Qed.

(** A follow edit, from its constructor through its codec and applier back
    to the list: everyone else is followed exactly as before, the tags that do
    not name the target stay as they were, in order; after a follow the target
    is followed, unless the list already held an unreadable row for it, which
    stays authoritative; after an unfollow it is not. *)
Theorem contact_edit_effect (k : PublicKey) (op : Operation) (e : EventEdit) (author : PublicKey)
    (source : option EventValue) (created_at : Timestamp) (event : UnsignedEvent)
    (Hok : change_ok (mkChange op k)) (Hedit : edit k op = Ok e)
    (Happ : applier_apply Nip02Applier e author source created_at = Ok event) :
  let before := match source with Some v => value_tags v | None => [] end in
  (∀ k', k' ≠ k → followed k' (un_tags event) ↔ followed k' before) ∧
  List.filter (λ t, negb (tag_targets k t)) (un_tags event) = List.filter (λ t, negb (tag_targets k t)) before ∧
  (op = Remove → ¬ followed k (un_tags event)) ∧
  (op ≠ Remove → (∀ t, t ∈ before → tag_targets k t = true → row_key t = Some k) → followed k (un_tags event)).
Proof.
  intros before. apply (contact_edit_decodes _ _ _ Hok) in Hedit.
  destruct (nip02_apply_Ok _ _ _ _ _ Happ) as (c & row & Hdec & Hkey & Hrow & _ & Htags). fold before in Htags.
  assert (c = mkChange op k) as -> by congruence. cbn [ch_target ch_operation] in *.
  assert (Hrt : tag_targets k row = true) by (by apply (canonical_row_targets (mkChange op k))).
  assert (Hrest : List.filter (λ t, negb (tag_targets k t)) (un_tags event) =
                  List.filter (λ t, negb (tag_targets k t)) before)
    by (rewrite Htags; by apply filter_negb_retain).
  split_and!.
  - intros k' Hne. rewrite !followed_row_key.
    assert (Hsub : ∀ tags, (∃ t, t ∈ tags ∧ row_key t = Some k') ↔
      ∃ t, t ∈ List.filter (λ t, negb (tag_targets k t)) tags ∧ row_key t = Some k').
    { intros tags. setoid_rewrite list_elem_of_In. setoid_rewrite filter_In. split; [|naive_solver].
      intros (t & Ht & Hk'). exists t. split_and!; [done| |done]. apply negb_true_iff, not_true_is_false.
      intros Hk. apply row_key_targets in Hk'. by apply Hne, (tag_targets_inj t). }
    by rewrite Hsub, Hrest, <- Hsub.
  - done.
  - intros ->. rewrite followed_row_key. intros (t & Ht & Hk%row_key_targets). rewrite Htags in Ht. cbn in Ht.
    rewrite retain_or_push_remove in Ht. apply elem_of_filter_negb in Ht. congruence.
  - intros Hadd Hrows. assert (is_remove op = false) as Hr by (by destruct op). rewrite Hr in Htags. cbn in Htags.
    destruct (retain_or_push_add (tag_targets k) id row before Hrt) as (l1 & t & l2 & Heq & Ht & _ & _ & Hcase); [done|].
    apply followed_row_key. exists t. rewrite Htags, Heq. split; [set_solver|].
    destruct Hcase as [(t0 & Hin & Ht0 & ->)|[_ ->]]; [by apply Hrows|].
    by apply (canonical_row_key (mkChange op k)).
Qed.
End codec_lemmas.

(** ** A concrete list *)

Module Nip02Witness.
Import EditSample.

Definition row (k : N) : Tag := ["p"%string; key_text k].
Definition sample_list : EventValue :=
  Signed (mkEvent 4 1 10 3 [row 7; ["t"%string; "x"%string]; row 8; row 7] "hi" 4).

Definition edit_of (k : N) (op : Operation) : EventEdit :=
  match edit k op with Ok e => e | Err _ => mkEdit 0 None [] end.
Definition revised (k : N) (op : Operation) : UnsignedEvent :=
  match nip02_apply (edit_of k op) 1 (Some sample_list) 20 with
  | Ok event => event
  | Err _ => mkUnsigned None 0 0 0 [] ""
  end.

Example follow_appends :
  un_tags (revised 9 (AddWithMetadata (Some "wss://a") (Some "nine"))) =
    [row 7; ["t"%string; "x"%string]; row 8; row 7; row 9 ++ ["wss://a"%string; "nine"%string]].
Proof. vm_compute. reflexivity. Qed.
Example unfollow_removes_every_row : un_tags (revised 7 Remove) = [["t"%string; "x"%string]; row 8].
Proof. vm_compute. reflexivity. Qed.

Lemma contact_edit_effect_witness : ¬ followed 7 (un_tags (revised 7 Remove)).
Proof.
  apply (contact_edit_effect 7 Remove (edit_of 7 Remove) 1 (Some sample_list) 20); [|vm_compute; reflexivity..].
  split; [|done]. apply N.ltb_lt. vm_compute. reflexivity.
Defined.

Definition sample_reading : outcome (result ContactListError ContactList) := ContactList_from_event sample_list.

Lemma contact_list_conserves_rows_witness :
  match sample_reading with
  | Returned (Ok list) => (fo_source_index <$> cl_follows list) ++ (evidence_source_index <$> cl_evidence list) ≡ₚ [0; 2; 3]
  | _ => False
  end.
Proof.
  destruct (contact_list_conserves_rows sample_list) as (r & Hr & Hrows). unfold sample_reading.
  assert (Hok : ∃ l, ContactList_from_event sample_list = Returned (Ok l)) by (vm_compute; by eexists).
  destruct Hok as [l Hl]. rewrite Hl in Hr |- *. injection Hr as <-. destruct Hrows as (_ & Hperm & _). exact Hperm.
Defined.
End Nip02Witness.
