(* ===== verification/Bookmarks.v ===== *)
(** * Bookmark lists ([crates/fava-bookmarks])

    The edits of a public NIP-51 bookmark list (kind 10003): their private byte
    codec and the applier that revises a list.  [TagOrder] is the [Ord] of the
    [nostr] crate's [Tag], which picks the richer of two rows of one length. *)

From S2P Require Import Prelude Nostr Relay State Write Edits.

Definition BOOKMARK_KIND : Kind := 10003.
Definition ADD : N := 1.
Definition REMOVE : N := 2.
Definition EVENT : N := 1.
Definition COORDINATE : N := 2.

Inductive Operation := Add | Remove.
Definition operation_code (o : Operation) : N := match o with Add => ADD | Remove => REMOVE end.

Inductive Target :=
| TargetEvent (id : EventId)
| TargetCoordinate (coordinate : EventCoordinate).

Record Change := mkChange {
  ch_operation : Operation;
  ch_target : Target
}.

Definition codec_refusal (reason : string) : WriteIntentError := Encoding reason.
Definition invalid_coordinate : WriteIntentError :=
  InvalidEvent "bookmark target requires a valid replaceable coordinate".

(** [tag <= other]. *)
Class TagOrder := tag_le : Tag → Tag → bool.

Section bookmarks.
Context `{Nostr} `{NostrBytes} `{TagOrder}.

Definition validate_target_coordinate (coordinate : EventCoordinate) : result WriteIntentError unit :=
  match coordinate with
  | CoordReplaceable _ kind identifier =>
      ensure (match identifier with None => kind_is_replaceable kind | Some _ => kind_is_addressable kind end)
        invalid_coordinate
  | CoordEvent _ => Err invalid_coordinate
  end.

Definition encode_coordinate (coordinate : EventCoordinate) : result WriteIntentError (list N) :=
  match coordinate with
  | CoordReplaceable author kind identifier =>
      let text := default ""%string identifier in
      length ← ok_or (try_u32 (String.length text))
                 (codec_refusal "identifier exceeds bookmark encoding capacity");
      Ok (to_be_bytes 2 kind ++ (if identifier then 1%N else 0%N) :: public_key_as_bytes author
          ++ to_be_bytes 4 length ++ bytes_of_string text)
  | CoordEvent _ => Err invalid_coordinate
  end.

Definition encode (change : Change) : result WriteIntentError (list N) :=
  match ch_target change with
  | TargetEvent id => Ok (operation_code (ch_operation change) :: EVENT :: event_id_as_bytes id)
  | TargetCoordinate coordinate =>
      bytes ← encode_coordinate coordinate;
      Ok (operation_code (ch_operation change) :: COORDINATE :: bytes)
  end.

(** [decode_coordinate]; its length check makes every slice below it exist. *)
Definition decode_coordinate (bytes : list N) : result WriteIntentError EventCoordinate :=
  _ ← ensure (bool_decide (39 ≤ length bytes)) (codec_refusal "malformed bookmark coordinate");
  let kind := from_be_bytes (take 2 bytes) in
  has_identifier ← match bytes !! 2 with
                   | Some 0%N => Ok false
                   | Some 1%N => Ok true
                   | _ => Err (codec_refusal "invalid bookmark coordinate identifier flag")
                   end;
  author ← ok_or (public_key_from_slice (take 32 (drop 3 bytes)))
             (codec_refusal "invalid bookmark coordinate author");
  let len := from_be_bytes (take 4 (drop 35 bytes)) in
  _ ← ensure (bool_decide (N.of_nat (length bytes) = 39 + len)%N)
        (codec_refusal "invalid bookmark coordinate identifier length");
  identifier ← ok_or (from_utf8 (drop 39 bytes)) (codec_refusal "bookmark coordinate identifier is not UTF-8");
  let coordinate := CoordReplaceable author kind (if (has_identifier : bool) then Some identifier else None) in
  _ ← validate_target_coordinate coordinate;
  Ok coordinate.

Definition decode (bytes : list N) : result WriteIntentError Change :=
  match bytes with
  | code :: target_kind :: rest =>
      operation ← (if bool_decide (code = ADD) then Ok Add
                   else if bool_decide (code = REMOVE) then Ok Remove
                   else Err (codec_refusal "unknown bookmark edit operation"));
      target ← (if bool_decide (target_kind = EVENT) && bool_decide (length bytes = 34)
                then TargetEvent <$> ok_or (event_id_from_slice rest) (codec_refusal "invalid bookmark event id")
                else if bool_decide (target_kind = COORDINATE)
                then TargetCoordinate <$> decode_coordinate rest
                else if bool_decide (target_kind = EVENT)
                then Err (codec_refusal "malformed bookmark event target")
                else Err (codec_refusal "unknown bookmark target kind"));
      Ok (mkChange operation target)
  | _ => Err (codec_refusal "malformed bookmark edit")
  end.

Definition edit (target : Target) (operation : Operation) : result WriteIntentError EventEdit :=
  change ← encode (mkChange operation target);
  EventEdit_new BOOKMARK_KIND None change.

Definition bookmark_event (target : EventId) : result WriteIntentError EventEdit := edit (TargetEvent target) Add.
Definition unbookmark_event (target : EventId) : result WriteIntentError EventEdit := edit (TargetEvent target) Remove.
Definition bookmark_coordinate (target : EventCoordinate) : result WriteIntentError EventEdit :=
  _ ← validate_target_coordinate target; edit (TargetCoordinate target) Add.
Definition unbookmark_coordinate (target : EventCoordinate) : result WriteIntentError EventEdit :=
  _ ← validate_target_coordinate target; edit (TargetCoordinate target) Remove.

Definition validate_edit_coordinate (e : EventEdit) : result WriteIntentError unit :=
  ensure (bool_decide (ed_kind e = BOOKMARK_KIND) && bool_decide (ed_identifier e = None))
    (InvalidEvent "bookmark edit requires a non-addressable kind-10003 coordinate").

Definition decode_edit (e : EventEdit) : result WriteIntentError Change :=
  _ ← validate_edit_coordinate e; decode (ed_change e).

(** ** Applying *)

Definition coordinate_text (coordinate : EventCoordinate) : string :=
  match coordinate with
  | CoordReplaceable author kind identifier =>
      pretty kind +:+ ":" +:+ public_key_to_hex author +:+ ":" +:+ default "" identifier
  | CoordEvent _ => ""
  end.

Definition tag_targets (target : Target) (tag : Tag) : bool :=
  match target with
  | TargetEvent id => tag_named "e" tag && bool_decide ((tag !! 1) ≫= event_id_from_hex = Some id)
  | TargetCoordinate coordinate =>
      tag_named "a" tag && bool_decide (tag !! 1 = Some (coordinate_text coordinate))
  end.

(** [Tag::event] is the tag [e] with the id in hexadecimal. *)
Definition target_tag (target : Target) : result WriteIntentError Tag :=
  match target with
  | TargetEvent id => Ok ["e"%string; event_id_to_hex id]
  | TargetCoordinate coordinate =>
      match tag_parse ["a"%string; coordinate_text coordinate] with
      | Ok tag => Ok tag
      | Err reason => Err (codec_refusal reason)
      end
  end.

Definition canonical_tag (one other : Tag) : Tag :=
  match Nat.compare (length one) (length other) with
  | Gt => one
  | Eq => if tag_le one other then one else other
  | Lt => other
  end.

(** The first loop of [apply]: the row kept for the target. *)
Definition retained_tag (target : Target) (source : list Tag) : option Tag :=
  foldl (λ retained tag,
           if tag_targets target tag
           then Some (match retained with None => tag | Some current => canonical_tag current tag end)
           else retained) None source.

(** [apply]; its counts cannot overflow, and [expect] is never reached because a
    matching tag has been retained when the second loop sees one. *)
Definition apply (source : list Tag) (change : Change) : result WriteIntentError (list Tag) :=
  let add := match ch_operation change with Add => true | Remove => false end in
  let retained := retained_tag (ch_target change) source in
  let '(tags, found) :=
    retain_loop (tag_targets (ch_target change)) add (λ tag, default tag retained) false source in
  if add && negb found then row ← target_tag (ch_target change); Ok (tags ++ [row]) else Ok tags.

Definition qualified_source (author : PublicKey) (source : option EventValue) (created_at : Timestamp)
    : result WriteIntentError (string * list Tag) :=
  match source with
  | None => Ok (""%string, [])
  | Some source =>
      _ ← ensure (bool_decide (value_author source = author) && bool_decide (value_kind source = BOOKMARK_KIND))
            (InvalidEvent "bookmark source author or kind does not match accepted write");
      _ ← ensure (bool_decide (value_created_at source < created_at)%N)
            (InvalidEvent "bookmark revision timestamp must succeed its source");
      Ok (value_content source, value_tags source)
  end.

Definition verify_source (source : option EventValue) : result WriteIntentError unit :=
  match source with None => Ok tt | Some source => verify_value source end.

Definition build_list (author : PublicKey) (content : string) (tags : list Tag) (created_at : Timestamp)
    : result WriteIntentError UnsignedEvent :=
  let builder := builder_by author
    (builder_content content (builder_created_at created_at (EventBuilder_new 0 BOOKMARK_KIND))) in
  build_intent (foldl (λ b tag, authored_tag tag b) builder tags).

Definition bookmark_apply (e : EventEdit) (author : PublicKey) (source : option EventValue) (created_at : Timestamp)
    : result WriteIntentError UnsignedEvent :=
  change ← decode_edit e;
  '(content, source_tags) ← qualified_source author source created_at;
  tags ← apply source_tags change;
  event ← build_list author content tags created_at;
  _ ← verify_source source;
  _ ← invalid_event (unsigned_verify_id event);
  Ok event.

Definition BookmarkApplier : EditApplier :=
  mkApplier BOOKMARK_KIND (λ e, is_ok (decode_edit e)) bookmark_apply.
End bookmarks.

(** ** Lemmas: the codec *)

Section lemmas.
Context `{Nostr} `{NostrBytes} `{TagOrder} `{!NostrBytesLaws} `{!NostrValueLaws}.

#[local] Opaque to_be_bytes.

(** What the types of the source allow, and the constructors validate. *)
Definition target_ok (t : Target) : Prop :=
  match t with
  | TargetEvent id => key_ok id
  | TargetCoordinate (CoordReplaceable author kind identifier) =>
      key_ok author ∧ (kind ≤ u16_max)%N ∧ (∀ i, identifier = Some i → str_ok i) ∧
      validate_target_coordinate (CoordReplaceable author kind identifier) = Ok tt
  | TargetCoordinate (CoordEvent _) => False
  end.

Lemma decode_encode_coordinate author kind identifier bytes :
  target_ok (TargetCoordinate (CoordReplaceable author kind identifier)) →
  encode_coordinate (CoordReplaceable author kind identifier) = Ok bytes →
  decode_coordinate bytes = Ok (CoordReplaceable author kind identifier).
Proof.
  intros (Hkey & Hkind & Hstr & Hvalid). unfold encode_coordinate.
  intros (len & [-> Hlen]%ok_or_Ok%try_u32_Some & [= <-])%bind_Ok.
  set (text := default ""%string identifier) in *. set (flag := if identifier then 1%N else 0%N).
  set (kb := to_be_bytes 2 kind). set (pk := public_key_as_bytes author).
  set (lb := to_be_bytes 4 (N.of_nat (String.length text))). set (tb := bytes_of_string text).
  assert (Hkb : length kb = 2) by apply length_to_be_bytes.
  assert (Hpk : length pk = 32) by apply public_key_bytes_length.
  assert (Hlb : length lb = 4) by apply length_to_be_bytes.
  assert (Htb : length tb = String.length text) by apply length_bytes_of_string.
  set (bytes := kb ++ flag :: pk ++ lb ++ tb).
  assert (Htotal : length bytes = 39 + String.length text)
    by (unfold bytes; rewrite length_app; cbn [length]; rewrite !length_app; lia).
  assert (Hd2 : take 2 bytes = kb) by (unfold bytes; rewrite <- Hkb; apply take_app_length).
  assert (Hf : bytes !! 2 = Some flag) by (unfold bytes; rewrite lookup_app_r by lia; by rewrite Hkb).
  assert (Hd3 : drop 3 bytes = pk ++ lb ++ tb).
  { unfold bytes. rewrite drop_app_ge by lia. by rewrite Hkb. }
  assert (H35 : drop 35 bytes = lb ++ tb).
  { change 35 with (3 + 32). rewrite <- drop_drop, Hd3, <- Hpk. apply drop_app_length. }
  assert (H39 : drop 39 bytes = tb).
  { change 39 with (35 + 4). rewrite <- drop_drop, H35, <- Hlb. apply drop_app_length. }
  clearbody bytes. unfold decode_coordinate. rewrite Hd2, Hf, Hd3, H35, H39.
  rewrite (bool_decide_eq_true_2 (39 ≤ _)) by lia. cbn [ensure mbind result_bind].
  assert (Hflag : match Some flag with
                  | Some 0%N => Ok false
                  | Some 1%N => Ok true
                  | _ => Err (codec_refusal "invalid bookmark coordinate identifier flag")
                  end = Ok (bool_decide (is_Some identifier))) by (by destruct identifier).
  rewrite Hflag. cbn [mbind result_bind].
  rewrite <- Hpk, take_app_length. unfold pk. rewrite public_key_bytes_roundtrip by done.
  cbn [ok_or mbind result_bind]. rewrite <- Hlb, take_app_length. unfold lb, kb.
  rewrite !from_to_be_small by (unfold u16_max, u32_max in *; simpl; lia).
  rewrite (bool_decide_eq_true_2 (N.of_nat (length bytes) = _)) by (rewrite Htotal; lia). cbn [ensure mbind result_bind].
  unfold tb. rewrite from_utf8_bytes by (unfold text; destruct identifier; [by apply Hstr|done]).
  cbn [ok_or mbind result_bind].
  assert (Hid : (if bool_decide (is_Some identifier) then Some text else None) = identifier) by (by destruct identifier).
  rewrite Hid, Hvalid. done.
Qed.

Lemma bookmark_decode_encode c bytes : target_ok (ch_target c) → encode c = Ok bytes → decode bytes = Ok c.
Proof.
  destruct c as [op [id|[id|author kind identifier]]]; cbn [ch_target]; [|done|]; intros Hok Henc.
  - injection Henc as <-. unfold decode. cbn [length]. rewrite event_id_bytes_length.
    rewrite event_id_bytes_roundtrip by done. by destruct op.
  - apply bind_Ok in Henc as (cb & Hcb & [= <-]). unfold decode. cbn [length].
    rewrite (decode_encode_coordinate _ _ _ _ Hok Hcb). by destruct op.
Qed.

(** ** Lemmas: applying *)

Lemma decode_target_ok bytes c :
  decode bytes = Ok c → match ch_target c with TargetEvent id => key_ok id | _ => True end.
Proof.
  unfold decode. destruct bytes as [|code [|tk rest]]; [done|done|].
  intros (op & _ & (target & Ht & [= <-])%bind_Ok)%bind_Ok. cbn [ch_target].
  destruct (_ && _); [|destruct (bool_decide (tk = COORDINATE)); [|by destruct (bool_decide (tk = EVENT))]].
  - destruct (event_id_from_slice rest) as [id|] eqn:E; [|done]. injection Ht as <-.
    by eapply event_id_from_slice_ok.
  - destruct (decode_coordinate rest); [|done]. by injection Ht as <-.
Qed.

Lemma target_tag_targets t row :
  match t with TargetEvent id => key_ok id | _ => True end → target_tag t = Ok row → tag_targets t row = true.
Proof.
  destruct t as [id|coordinate]; cbn [target_tag tag_targets]; intros Hkey Hrow.
  - injection Hrow as <-. apply andb_true_iff. split; apply bool_decide_eq_true_2; [done|]. cbn.
    by apply event_id_hex_roundtrip.
  - rewrite tag_parse_cons in Hrow. injection Hrow as <-.
    apply andb_true_iff. split; by apply bool_decide_eq_true_2.
Qed.

Lemma target_tag_Ok t : ∃ row, target_tag t = Ok row.
Proof. destruct t; cbn [target_tag]; rewrite ?tag_parse_cons; eauto. Qed.

Lemma canonical_tag_cases one other :
  (canonical_tag one other = one ∨ canonical_tag one other = other) ∧
  length one ≤ length (canonical_tag one other) ∧ length other ≤ length (canonical_tag one other).
Proof.
  unfold canonical_tag. destruct (Nat.compare_spec (length one) (length other)); [destruct (tag_le one other)|..];
    split_and!; auto; lia.
Qed.

(** The retained row is a matching row of maximal length. *)
Definition richest (t : Target) (rows : list Tag) (retained : option Tag) : Prop :=
  match retained with
  | Some r => r ∈ rows ∧ tag_targets t r = true ∧
              ∀ x, x ∈ rows → tag_targets t x = true → length x ≤ length r
  | None => ∀ x, x ∈ rows → tag_targets t x = false
  end.

Lemma retained_tag_richest t source : richest t source (retained_tag t source).
Proof.
  unfold retained_tag.
  assert (Hgen : ∀ rest seen retained, richest t seen retained →
    richest t (seen ++ rest)
      (foldl (λ retained tag, if tag_targets t tag
         then Some (match retained with None => tag | Some current => canonical_tag current tag end)
         else retained) retained rest)).
  { induction rest as [|x rest IH]; intros seen retained Hr; cbn [foldl]; [by rewrite app_nil_r|].
    replace (seen ++ x :: rest) with ((seen ++ [x]) ++ rest) by (by rewrite <- app_assoc). apply IH.
    destruct (tag_targets t x) eqn:Hx.
    - destruct retained as [r|]; cbn [richest] in *.
      + destruct Hr as (Hin & Hm & Hmax). destruct (canonical_tag_cases r x) as (Hcase & Hl1 & Hl2).
        split_and!; [destruct Hcase as [-> | ->]; set_solver|by destruct Hcase as [-> | ->]|].
        intros y [Hy|Hy%list_elem_of_singleton]%elem_of_app Hty; [|by subst]. by etrans; [apply Hmax|].
      + split_and!; [set_solver|done|].
        intros y [Hy|Hy%list_elem_of_singleton]%elem_of_app Hty; [|by subst]. rewrite Hr in Hty; done.
    - destruct retained as [r|]; cbn [richest] in *; [|set_solver]. destruct Hr as (Hin & Hm & Hmax).
      split_and!; [set_solver|done|]. intros y [Hy|Hy%list_elem_of_singleton]%elem_of_app; [auto|]. subst. congruence. }
  apply (Hgen source [] None). intros x ?%not_elem_of_nil. done.
Qed.

Abbreviation keep_of t source := (λ tag, default tag (retained_tag t source)).

Lemma keep_matches t source x : tag_targets t x = true → tag_targets t (keep_of t source x) = true.
Proof.
  intros Hx. pose proof (retained_tag_richest t source) as Hr.
  destruct (retained_tag t source); [by apply Hr|done].
Qed.

Lemma keep_single t l1 x l2 :
  tag_targets t x = true → (∀ y, y ∈ l1 ++ l2 → tag_targets t y = false) → keep_of t (l1 ++ x :: l2) x = x.
Proof.
  intros Hx Hrest. pose proof (retained_tag_richest t (l1 ++ x :: l2)) as Hr.
  destruct (retained_tag t _) as [r|]; [|done]. destruct Hr as (Hin & Hm & _). cbn.
  apply elem_of_app in Hin as [Hin|[->|Hin]%elem_of_cons]; [|done|];
    rewrite Hrest in Hm; set_solver.
Qed.

Definition adds (o : Operation) : bool := match o with Add => true | Remove => false end.

Lemma bookmark_apply_retains source c tags :
  apply source c = Ok tags →
  ∃ row, target_tag (ch_target c) = Ok row ∧
    tags = retain_or_push (tag_targets (ch_target c)) (adds (ch_operation c)) (keep_of (ch_target c) source) row source.
Proof.
  unfold apply, retain_or_push. fold (adds (ch_operation c)). destruct (target_tag_Ok (ch_target c)) as [row Hrow].
  destruct (retain_loop _ _ _ _ _) as [kept found]. intros Happ. exists row. split; [done|].
  rewrite Hrow in Happ. destruct (_ && _); by injection Happ as <-.
Qed.

Lemma bookmark_qualified_source_Ok author source created_at content tags :
  qualified_source author source created_at = Ok (content, tags) → verify_source source = Ok tt →
  content = match source with Some v => value_content v | None => ""%string end ∧
  tags = match source with Some v => value_tags v | None => [] end ∧
  ∀ v, source = Some v → verify_value v = Ok tt ∧ value_author v = author ∧ value_kind v = BOOKMARK_KIND ∧
                          (value_created_at v < created_at)%N.
Proof.
  unfold qualified_source. destruct source as [v|]; [|intros [= <- <-]; done].
  intros ([] & [Ha Hk]%ensure_Ok%andb_true_iff & ([] & Ht%ensure_Ok & [= <- <-])%bind_Ok)%bind_Ok Hv.
  apply bool_decide_eq_true in Ha, Hk, Ht. split_and!; [done..|]. intros v' [= <-]. done.
Qed.

Lemma bookmark_apply_Ok e author source created_at event :
  bookmark_apply e author source created_at = Ok event →
  let before := match source with Some v => value_tags v | None => [] end in
  ∃ c row, decode_edit e = Ok c ∧ target_tag (ch_target c) = Ok row ∧ tag_targets (ch_target c) row = true ∧
    applied BOOKMARK_KIND author source created_at event ∧
    un_tags event = retain_or_push (tag_targets (ch_target c)) (adds (ch_operation c))
                      (keep_of (ch_target c) before) row before.
Proof.
  intros (c & Hdec & ([content tags] & Hq & (out & Happ & (ev & Hb & ([] & Hvs & ([] & Hv & [= <-])%bind_Ok)
    %bind_Ok)%bind_Ok)%bind_Ok)%bind_Ok)%bind_Ok before.
  destruct (bookmark_apply_retains _ _ _ Happ) as (row & Hrow & ->).
  unfold build_list in Hb. rewrite foldl_authored_tag in Hb.
  destruct (bookmark_qualified_source_Ok _ _ _ _ _ Hq Hvs) as (Hc & -> & Hs).
  destruct (built_applied _ _ source _ _ _ _ Hb) as [Hap Htags]; [done..|].
  exists c, row. split_and!; [done|done| |done..]. apply target_tag_targets; [|done].
  apply bind_Ok in Hdec as (_ & _ & Hdec). by apply decode_target_ok in Hdec.
Qed.

#[global] Instance bookmark_lawful : EditApplierLaws BookmarkApplier.
Proof.
  split; cbn [applier_apply applier_supports applier_kind BookmarkApplier].
  - intros e author source created_at event (c & row & Hdec & _)%bookmark_apply_Ok. rewrite Hdec.
    split; [done|]. apply bind_Ok in Hdec as ([] & [Hk _]%ensure_Ok%andb_true_iff & _).
    by apply bool_decide_eq_true in Hk.
  - intros e author source created_at event (c & row & _ & _ & _ & Hap & _)%bookmark_apply_Ok. done.
  - intros e author source created_at event created_at' event'
      (c & row & Hdec & Hrow & Hm & _ & Htags)%bookmark_apply_Ok
      (c' & row' & Hdec' & Hrow' & _ & _ & Htags')%bookmark_apply_Ok.
    assert (c' = c) as -> by congruence. assert (row' = row) as -> by congruence.
    rewrite Htags'. cbn [value_tags]. rewrite Htags. destruct (adds (ch_operation c)).
    + destruct (retain_or_push_add (tag_targets (ch_target c)) (keep_of (ch_target c)
        match source with Some v => value_tags v | None => [] end) row
        match source with Some v => value_tags v | None => [] end Hm) as (l1 & x & l2 & -> & Hx & Hrest & _).
      { intros. by apply keep_matches. }
      apply retain_or_push_again; [done..|]. by apply keep_single.
    + rewrite !retain_or_push_remove. apply filter_negb_idem.
Qed.

Lemma bookmark_edit_decodes t op e : target_ok t → edit t op = Ok e → decode_edit e = Ok (mkChange op t).
Proof.
  intros Hok (bytes & Henc & Hnew)%bind_Ok. apply bind_Ok in Hnew as (_ & _ & (_ & _ & [= <-])%bind_Ok).
  unfold decode_edit. cbn. by apply bookmark_decode_encode.
Qed.

(** ** Properties *)

(** A bookmark edit, from its constructor through its codec and applier:
    the tags of every other bookmark stay as they were, in order; removing
    leaves no row of the target; adding leaves exactly one, which is the richest
    of the rows the list already had for it (none has more columns), or a new
    row where it had none. *)
Theorem bookmark_edit_effect (t : Target) (op : Operation) (e : EventEdit) (author : PublicKey)
    (source : option EventValue) (created_at : Timestamp) (event : UnsignedEvent)
    (Hok : target_ok t) (Hedit : edit t op = Ok e)
    (Happ : applier_apply BookmarkApplier e author source created_at = Ok event) :
  let before := match source with Some v => value_tags v | None => [] end in
  List.filter (λ x, negb (tag_targets t x)) (un_tags event) = List.filter (λ x, negb (tag_targets t x)) before ∧
  match op with
  | Remove => ∀ x, x ∈ un_tags event → tag_targets t x = false
  | Add => ∃ row, List.filter (tag_targets t) (un_tags event) = [row] ∧
      ((row ∈ before ∧ ∀ x, x ∈ before → tag_targets t x = true → length x ≤ length row) ∨
       (∀ x, x ∈ before → tag_targets t x = false) ∧ target_tag t = Ok row)
  end.
Proof.
  intros before. apply (bookmark_edit_decodes _ _ _ Hok) in Hedit.
  destruct (bookmark_apply_Ok _ _ _ _ _ Happ) as (c & row & Hdec & Hrow & Hm & _ & Htags). fold before in Htags.
  assert (c = mkChange op t) as -> by congruence. cbn [ch_target ch_operation] in *.
  assert (Hkeep : ∀ x, tag_targets t x = true → tag_targets t (keep_of t before x) = true)
    by (intros; by apply keep_matches).
  rewrite Htags. split; [by apply filter_negb_retain|]. destruct op; cbn [adds].
  - destruct (retain_or_push_add (tag_targets t) _ row before Hm Hkeep)
      as (l1 & x & l2 & -> & Hx & Hrest & _ & Hcase).
    exists x. split.
    { rewrite List.filter_app. cbn [List.filter]. rewrite Hx.
      rewrite (proj2 (filter_none _ l1)), (proj2 (filter_none _ l2)) by set_solver. done. }
    destruct Hcase as [(x0 & Hin & Hx0 & ->)|[Hnone ->]]; [left|by right].
    pose proof (retained_tag_richest t before) as Hr. cbn.
    destruct (retained_tag t before) as [r|]; cbn [default]; [by destruct Hr as (? & _ & ?)|].
    rewrite Hr in Hx0 by done. done.
  - intros x Hx. rewrite retain_or_push_remove in Hx. by apply elem_of_filter_negb in Hx.
Qed.
End lemmas.

(** ** A concrete list *)

Module BookmarksWitness.
Import EditSample.

Definition by_length : TagOrder := λ _ _, true.
#[local] Existing Instance by_length.

Definition row (id : N) (extra : list string) : Tag := "e"%string :: key_text id :: extra.
Definition sample_list : EventValue :=
  Signed (mkEvent 4 1 10 10003 [row 7 []; row 8 []; row 7 ["wss://a"%string]] "" 4).
Definition edit_of (t : Target) (op : Operation) : EventEdit :=
  match edit t op with Ok e => e | Err _ => mkEdit 0 None [] end.
Definition revised (t : Target) (op : Operation) : UnsignedEvent :=
  match bookmark_apply (edit_of t op) 1 (Some sample_list) 20 with
  | Ok event => event
  | Err _ => mkUnsigned None 0 0 0 [] ""
  end.

Example bookmark_keeps_richest : un_tags (revised (TargetEvent 7) Add) = [row 7 ["wss://a"%string]; row 8 []].
Proof. vm_compute. reflexivity. Qed.

Lemma bookmark_edit_effect_witness :
  ∃ r, List.filter (tag_targets (TargetEvent 7)) (un_tags (revised (TargetEvent 7) Add)) = [r].
Proof.
  destruct (bookmark_edit_effect (TargetEvent 7) Add (edit_of (TargetEvent 7) Add) 1 (Some sample_list) 20
    (revised (TargetEvent 7) Add)) as [_ (r & Hr & _)].
  - apply N.ltb_lt. vm_compute. reflexivity.
  - vm_compute. reflexivity.
  - vm_compute. reflexivity.
  - exists r. exact Hr.
Defined.
End BookmarksWitness.
