(* ===== verification/SavedGroups.v ===== *)
(** * Saved group lists ([crates/fava-simple-groups], [edit.rs] and [saved.rs])

    The kind-10009 Simple Group List: the group value edits are made of
    ([simple_group.rs]), reading a list, and the five edits of it with their
    private byte codec and their applier. *)

From S2P Require Import Prelude Nostr Relay State Write Edits.

Definition SAVED_KIND : Kind := 10009.
Definition SAVE_SIMPLE_GROUP : N := 1.
Definition REMOVE_SIMPLE_GROUP : N := 2.
Definition RENAME_SIMPLE_GROUP : N := 3.
Definition SAVE_RELAY : N := 4.
Definition REMOVE_RELAY : N := 5.

Definition codec_refusal (reason : string) : WriteIntentError := Encoding reason.

(** ** Groups ([simple_group.rs]) *)

Record SimpleGroup := mkGroup {
  sg_id : string;
  sg_relays : list RelayUrl
}.

Inductive SimpleGroupConstructionError := EmptyId | EmptyRelays.

(** The loop of [new]: first occurrences, in order. *)
Fixpoint normalize_relays (seen : gset RelayUrl) (relays : list RelayUrl) : list RelayUrl :=
  match relays with
  | [] => []
  | relay :: relays =>
      if bool_decide (relay ∈ seen) then normalize_relays seen relays
      else relay :: normalize_relays ({[relay]} ∪ seen) relays
  end.

Definition SimpleGroup_new (id : string) (relays : list RelayUrl)
    : result SimpleGroupConstructionError SimpleGroup :=
  _ ← ensure (negb (bool_decide (id = ""%string))) EmptyId;
  _ ← ensure (negb (bool_decide (relays = []))) EmptyRelays;
  Ok (mkGroup id (normalize_relays ∅ relays)).

(** ** Reading a list ([saved.rs]) *)

Record SavedSimpleGroup := mkSaved {
  sv_id : string;
  sv_relay : string;
  sv_display_name : option string
}.

Inductive SavedGroupListDecodeError :=
| SavedWrongEventKind (expected actual : Kind)
| SavedMissingTagValue (tag_index value_index : nat).

Record SavedGroupList := mkSavedList {
  sl_author : PublicKey;
  sl_simple_groups : list (result SavedGroupListDecodeError SavedSimpleGroup);
  sl_relays : list (result SavedGroupListDecodeError string)
}.

Definition required (values : list string) (tag_index value_index : nat)
    : result SavedGroupListDecodeError string :=
  ok_or (values !! value_index) (SavedMissingTagValue tag_index value_index).

Definition parse_group (values : list string) (tag_index : nat)
    : result SavedGroupListDecodeError SavedSimpleGroup :=
  id ← required values tag_index 1;
  relay ← required values tag_index 2;
  Ok (mkSaved id relay (values !! 3)).

Definition parse_relay (values : list string) (tag_index : nat) : result SavedGroupListDecodeError string :=
  required values tag_index 1.

(** The loop of [from_event], from tag [tag_index] on. *)
Fixpoint read_saved (tag_index : nat) (tags : list Tag)
    : list (result SavedGroupListDecodeError SavedSimpleGroup) * list (result SavedGroupListDecodeError string) :=
  match tags with
  | [] => ([], [])
  | tag :: tags =>
      let '(groups, relays) := read_saved (S tag_index) tags in
      if tag_named "group" tag then (parse_group tag tag_index :: groups, relays)
      else if tag_named "r" tag then (groups, parse_relay tag tag_index :: relays)
      else (groups, relays)
  end.

Definition SavedGroupList_from_event (event : EventValue) : result SavedGroupListDecodeError SavedGroupList :=
  _ ← ensure (bool_decide (value_kind event = SAVED_KIND)) (SavedWrongEventKind SAVED_KIND (value_kind event));
  let '(groups, relays) := read_saved 0 (value_tags event) in
  Ok (mkSavedList (value_author event) groups relays).

(** ** The codec ([edit.rs]) *)

Definition encode_text (value : string) : result WriteIntentError (list N) :=
  length ← ok_or (try_u32 (String.length value)) (codec_refusal "edit text is too long");
  Ok (to_be_bytes 4 length ++ bytes_of_string value).

Definition encode_optional (value : option string) : result WriteIntentError (list N) :=
  match value with
  | Some value => text ← encode_text value; Ok (1%N :: text)
  | None => Ok [0%N]
  end.

(** [for relay in relays { encode_text(bytes, relay)? }]. *)
Fixpoint encode_relays (relays : list RelayUrl) : result WriteIntentError (list N) :=
  match relays with
  | [] => Ok []
  | relay :: relays => text ← encode_text relay; rest ← encode_relays relays; Ok (text ++ rest)
  end.

Definition encode_simple_group (id : string) (relays : list RelayUrl) : result WriteIntentError (list N) :=
  text ← encode_text id;
  count ← ok_or (try_u16 (length relays)) (codec_refusal "too many simple group relays");
  rest ← encode_relays relays;
  Ok (text ++ to_be_bytes 2 count ++ rest).

Definition encode (operation : N) (id : string) (relays : list RelayUrl) (display_name : option string)
    : result WriteIntentError (list N) :=
  if bool_decide (operation = SAVE_SIMPLE_GROUP) then
    group ← encode_simple_group id relays;
    name ← encode_optional display_name;
    Ok (SAVE_SIMPLE_GROUP :: group ++ name)
  else if bool_decide (operation = REMOVE_SIMPLE_GROUP) then
    group ← encode_simple_group id relays;
    Ok (REMOVE_SIMPLE_GROUP :: group)
  else if bool_decide (operation = RENAME_SIMPLE_GROUP) then
    group ← encode_simple_group id relays;
    name ← ok_or display_name (codec_refusal "missing saved-list display name");
    text ← encode_text name;
    Ok (RENAME_SIMPLE_GROUP :: group ++ text)
  else if bool_decide (operation = SAVE_RELAY) || bool_decide (operation = REMOVE_RELAY) then
    relay ← ok_or (head relays) (codec_refusal "missing saved-list relay");
    text ← encode_text relay;
    Ok (operation :: text)
  else Err (codec_refusal "unknown saved-list edit operation").

(** [take_*]: a value off the front of the input, and the input left. *)
Definition take_byte (input : list N) : result WriteIntentError (N * list N) :=
  match input with
  | [] => Err (codec_refusal "truncated saved-list edit")
  | value :: remaining => Ok (value, remaining)
  end.

Definition take_text (input : list N) : result WriteIntentError (string * list N) :=
  '(length_bytes, rest) ← ok_or (split_first_n 4 input) (codec_refusal "truncated saved-list text length");
  '(value, rest) ← ok_or (split_first_n (N.to_nat (from_be_bytes length_bytes)) rest)
                     (codec_refusal "truncated saved-list text");
  text ← ok_or (from_utf8 value) (codec_refusal "saved-list text is not UTF-8");
  Ok (text, rest).

Definition take_optional_text (input : list N) : result WriteIntentError (option string * list N) :=
  '(flag, input) ← take_byte input;
  if bool_decide (flag = 0%N) then Ok (None, input)
  else if bool_decide (flag = 1%N) then '(text, input) ← take_text input; Ok (Some text, input)
  else Err (codec_refusal "invalid saved-list optional text flag").

Section codec.
Context `{Nostr}.

Definition take_relay (input : list N) : result WriteIntentError (RelayUrl * list N) :=
  '(text, input) ← take_text input;
  relay ← ok_or (relay_url_parse text) (codec_refusal "invalid saved-list relay");
  Ok (relay, input).

(** [for _ in 0..count]. *)
Fixpoint take_relays (count : nat) (seen : gset RelayUrl) (input : list N)
    : result WriteIntentError (list RelayUrl * list N) :=
  match count with
  | O => Ok ([], input)
  | S count =>
      '(relay, input) ← take_relay input;
      _ ← ensure (negb (bool_decide (relay ∈ seen))) (codec_refusal "duplicate saved-list simple-group relay");
      '(relays, input) ← take_relays count ({[relay]} ∪ seen) input;
      Ok (relay :: relays, input)
  end.

Definition take_simple_group (input : list N) : result WriteIntentError (string * list RelayUrl * list N) :=
  '(id, input) ← take_text input;
  '(count_bytes, input) ← ok_or (split_first_n 2 input) (codec_refusal "truncated saved-list relay count");
  let count := N.to_nat (from_be_bytes count_bytes) in
  _ ← ensure (negb (bool_decide (count = 0))) (codec_refusal "invalid saved-list relay count");
  '(relays, input) ← take_relays count ∅ input;
  Ok (id, relays, input).

(** What an edit says: operation, group id, relays, display name. *)
Record Decoded := mkDecoded {
  de_operation : N;
  de_id : string;
  de_relays : list RelayUrl;
  de_display_name : option string
}.

Definition decode (change : list N) : result WriteIntentError Decoded :=
  '(operation, input) ← take_byte change;
  '(decoded, input) ←
    (if bool_decide (operation = SAVE_SIMPLE_GROUP) then
       '(id, relays, input) ← take_simple_group input;
       '(display_name, input) ← take_optional_text input;
       Ok (mkDecoded operation id relays display_name, input)
     else if bool_decide (operation = REMOVE_SIMPLE_GROUP) then
       '(id, relays, input) ← take_simple_group input;
       Ok (mkDecoded operation id relays None, input)
     else if bool_decide (operation = RENAME_SIMPLE_GROUP) then
       '(id, relays, input) ← take_simple_group input;
       '(display_name, input) ← take_text input;
       Ok (mkDecoded operation id relays (Some display_name), input)
     else if bool_decide (operation = SAVE_RELAY) || bool_decide (operation = REMOVE_RELAY) then
       '(relay, input) ← take_relay input;
       Ok (mkDecoded operation "" [relay] None, input)
     else Err (codec_refusal "unknown saved-list edit operation"));
  _ ← ensure (bool_decide (input = [])) (codec_refusal "trailing saved-list edit bytes");
  Ok decoded.

Definition decode_edit (e : EventEdit) : result WriteIntentError Decoded :=
  _ ← ensure (bool_decide (ed_kind e = SAVED_KIND) && bool_decide (ed_identifier e = None))
        (codec_refusal "saved-list edit requires a non-addressable kind-10009 coordinate");
  decode (ed_change e).

Definition edit (operation : N) (id : string) (relays : list RelayUrl) (display_name : option string)
    : result WriteIntentError EventEdit :=
  change ← encode operation id relays display_name;
  EventEdit_new SAVED_KIND None change.

Definition save_simple_group (group : SimpleGroup) (display_name : option string) : result WriteIntentError EventEdit :=
  edit SAVE_SIMPLE_GROUP (sg_id group) (sg_relays group) display_name.
Definition remove_saved_simple_group (group : SimpleGroup) : result WriteIntentError EventEdit :=
  edit REMOVE_SIMPLE_GROUP (sg_id group) (sg_relays group) None.
Definition rename_saved_simple_group (group : SimpleGroup) (display_name : string) : result WriteIntentError EventEdit :=
  edit RENAME_SIMPLE_GROUP (sg_id group) (sg_relays group) (Some display_name).
Definition save_relay (relay : RelayUrl) : result WriteIntentError EventEdit := edit SAVE_RELAY "" [relay] None.
Definition remove_saved_relay (relay : RelayUrl) : result WriteIntentError EventEdit := edit REMOVE_RELAY "" [relay] None.
End codec.

(** ** Applying ([edit.rs]) *)

Section applying.
Context `{Nostr} `{NostrBytes}.

Definition parsed_tag (values : list string) : result WriteIntentError Tag :=
  match tag_parse values with Ok tag => Ok tag | Err reason => Err (codec_refusal reason) end.

Definition simple_group_target (id : string) (tag : Tag) : option RelayUrl :=
  if bool_decide (3 ≤ length tag) && tag_named "group" tag && bool_decide (tag !! 1 = Some id)
  then (tag !! 2) ≫= relay_url_parse else None.

Definition relay_target (tag : Tag) : option RelayUrl :=
  if bool_decide (2 ≤ length tag) && tag_named "r" tag then (tag !! 1) ≫= relay_url_parse else None.

Definition renamed_tag (tag : Tag) (name : string) : result WriteIntentError Tag :=
  parsed_tag (if bool_decide (length tag = 3) then tag ++ [name] else <[3 := name]> tag).

Definition simple_group_tag (id : string) (host : RelayUrl) (name : option string) : result WriteIntentError Tag :=
  parsed_tag (["group"%string; id; host] ++ match name with Some name => [name] | None => [] end).

(** [simple_group_target(tag, id).filter(|relay| selected.contains(relay))]. *)
Definition selected_target (id : string) (selected : gset RelayUrl) (tag : Tag) : option RelayUrl :=
  relay ← simple_group_target id tag; if bool_decide (relay ∈ selected) then Some relay else None.

(** What the first loop pushes for the first row of a selected relay. *)
Definition kept_row (operation : N) (display_name : option string) (tag : Tag)
    : result WriteIntentError (option Tag) :=
  if bool_decide (operation = SAVE_SIMPLE_GROUP) then Ok (Some tag)
  else if bool_decide (operation = REMOVE_SIMPLE_GROUP) then Ok None
  else if bool_decide (operation = RENAME_SIMPLE_GROUP) then
    name ← ok_or display_name (codec_refusal "missing saved-list display name");
    Some <$> renamed_tag tag name
  else Err (codec_refusal "invalid saved-list simple-group operation").

(** The first loop of [apply_simple_group]. *)
Fixpoint group_loop (operation : N) (id : string) (selected : gset RelayUrl) (display_name : option string)
    (found : gset RelayUrl) (source : list Tag) : result WriteIntentError (list Tag * gset RelayUrl) :=
  match source with
  | [] => Ok ([], found)
  | tag :: source =>
      match selected_target id selected tag with
      | None =>
          '(tags, found) ← group_loop operation id selected display_name found source;
          Ok (tag :: tags, found)
      | Some relay =>
          if bool_decide (relay ∈ found) then group_loop operation id selected display_name found source
          else
            row ← kept_row operation display_name tag;
            '(tags, found) ← group_loop operation id selected display_name ({[relay]} ∪ found) source;
            Ok (match row with Some row => row :: tags | None => tags end, found)
      end
  end.

(** The second loop: a row for every relay not found. *)
Fixpoint missing_rows (id : string) (name : option string) (found : gset RelayUrl) (relays : list RelayUrl)
    : result WriteIntentError (list Tag) :=
  match relays with
  | [] => Ok []
  | relay :: relays =>
      if bool_decide (relay ∈ found) then missing_rows id name found relays
      else
        row ← simple_group_tag id relay name;
        rows ← missing_rows id name ({[relay]} ∪ found) relays;
        Ok (row :: rows)
  end.

Definition apply_simple_group (source : list Tag) (id : string) (relays : list RelayUrl) (operation : N)
    (display_name : option string) : result WriteIntentError (list Tag) :=
  '(tags, found) ← group_loop operation id (list_to_set relays) display_name ∅ source;
  if bool_decide (operation = SAVE_SIMPLE_GROUP) then
    rows ← missing_rows id display_name found relays;
    Ok (tags ++ rows)
  else if bool_decide (operation = RENAME_SIMPLE_GROUP) then
    name ← ok_or display_name (codec_refusal "missing saved-list display name");
    rows ← missing_rows id (Some name) found relays;
    Ok (tags ++ rows)
  else if bool_decide (operation = REMOVE_SIMPLE_GROUP) then Ok tags
  else Err (codec_refusal "invalid saved-list simple-group operation").

Definition apply_relay (source : list Tag) (relay : RelayUrl) (save : bool) : result WriteIntentError (list Tag) :=
  let '(tags, found) := retain_loop (λ tag, bool_decide (relay_target tag = Some relay)) save id false source in
  if save && negb found then row ← parsed_tag ["r"%string; relay]; Ok (tags ++ [row]) else Ok tags.

Definition apply (source : list Tag) (operation : N) (id : string) (relays : list RelayUrl)
    (display_name : option string) : result WriteIntentError (list Tag) :=
  if bool_decide (operation = SAVE_SIMPLE_GROUP) || bool_decide (operation = REMOVE_SIMPLE_GROUP)
     || bool_decide (operation = RENAME_SIMPLE_GROUP)
  then apply_simple_group source id relays operation display_name
  else if bool_decide (operation = SAVE_RELAY) then
    relay ← ok_or (head relays) (codec_refusal "missing saved-list relay"); apply_relay source relay true
  else if bool_decide (operation = REMOVE_RELAY) then
    relay ← ok_or (head relays) (codec_refusal "missing saved-list relay"); apply_relay source relay false
  else Err (codec_refusal "unknown saved-list edit operation").

Definition qualified_source (author : PublicKey) (source : option EventValue) (created_at : Timestamp)
    : result WriteIntentError (string * list Tag) :=
  match source with
  | None => Ok (""%string, [])
  | Some source =>
      _ ← verify_value source;
      _ ← ensure (bool_decide (value_author source = author) && bool_decide (value_kind source = SAVED_KIND))
            (InvalidEvent "saved-list source author or kind does not match accepted write");
      _ ← ensure (bool_decide (value_created_at source < created_at)%N)
            (InvalidEvent "saved-list revision timestamp must succeed its source");
      Ok (value_content source, value_tags source)
  end.

Definition saved_apply (e : EventEdit) (author : PublicKey) (source : option EventValue) (created_at : Timestamp)
    : result WriteIntentError UnsignedEvent :=
  d ← decode_edit e;
  '(content, source_tags) ← qualified_source author source created_at;
  tags ← apply source_tags (de_operation d) (de_id d) (de_relays d) (de_display_name d);
  event ← build_intent (authored_from_parts author SAVED_KIND created_at tags content);
  _ ← invalid_event (unsigned_verify_id event);
  Ok event.

Definition SavedGroupListApplier : EditApplier :=
  mkApplier SAVED_KIND (λ e, is_ok (decode_edit e)) saved_apply.
End applying.

(** ** Lemmas: one row per key *)

Section retain_each.
Context {A K : Type} `{Countable K} (T : A → option K) (f : A → option A).

(** Keep the rows without a key, and [f] of the first row of each key. *)
Fixpoint retain_each (found : gset K) (l : list A) : list A * gset K :=
  match l with
  | [] => ([], found)
  | t :: l =>
      match T t with
      | None => let '(rest, found) := retain_each found l in (t :: rest, found)
      | Some k =>
          if bool_decide (k ∈ found) then retain_each found l
          else let '(rest, found) := retain_each ({[k]} ∪ found) l in
               (match f t with Some t' => t' :: rest | None => rest end, found)
      end
  end.

Lemma retain_each_found found l : (retain_each found l).2 = found ∪ list_to_set (omap T l).
Proof.
  revert found. induction l as [|t l IH]; intros found; simpl; [set_solver|].
  destruct (T t) as [k|] eqn:Ht; [case_bool_decide|].
  - rewrite IH. set_solver.
  - specialize (IH ({[k]} ∪ found)). destruct (retain_each _ l) as [rest found']; simpl in *. rewrite IH. set_solver.
  - specialize (IH found). destruct (retain_each _ l) as [rest found']; simpl in *. done.
Qed.

(** A list with each key once, its rows fixed by [f], is kept as it is. *)
Lemma retain_each_stable found l :
  NoDup (omap T l) → (∀ k, k ∈ omap T l → k ∉ found) → (∀ t, t ∈ l → T t ≠ None → f t = Some t) →
  (retain_each found l).1 = l.
Proof.
  revert found. induction l as [|t l IH]; intros found Hnd Hnf Hfix; simpl; [done|]. simpl in Hnd, Hnf.
  destruct (T t) as [k|] eqn:Ht.
  - apply NoDup_cons in Hnd as [Hk Hnd]. rewrite bool_decide_eq_false_2 by (apply Hnf; left).
    specialize (IH ({[k]} ∪ found) Hnd). destruct (retain_each _ l) as [rest found']; simpl in *.
    rewrite Hfix; [|left|congruence]. f_equal. apply IH; set_solver.
  - specialize (IH found Hnd). destruct (retain_each _ l) as [rest found']; simpl in *. f_equal. apply IH; set_solver.
Qed.
Hypothesis f_keeps : ∀ t t', f t = Some t' → T t' = T t.

Definition keyless (t : A) : bool := match T t with None => true | Some _ => false end.

Lemma retain_each_others found l : List.filter keyless (retain_each found l).1 = List.filter keyless l.
Proof.
  revert found. induction l as [|t l IH]; intros found; simpl; [done|]. unfold keyless at 2.
  destruct (T t) as [k|] eqn:Ht; [case_bool_decide|].
  - apply IH.
  - specialize (IH ({[k]} ∪ found)). destruct (retain_each _ l) as [rest found']; simpl in *.
    destruct (f t) as [t'|] eqn:Hf; [|done]. simpl. unfold keyless at 1. rewrite (f_keeps _ _ Hf), Ht. done.
  - specialize (IH found). destruct (retain_each _ l) as [rest found']; simpl in *. unfold keyless at 1.
    rewrite Ht. by f_equal.
Qed.

(** What is kept has each key at most once, none found before, and the rows
    are [f] of rows of [l]. *)
Lemma retain_each_keys found l :
  NoDup (omap T (retain_each found l).1) ∧
  (∀ k, k ∈ omap T (retain_each found l).1 → k ∉ found ∧ k ∈ omap T l) ∧
  (∀ t, t ∈ (retain_each found l).1 → T t ≠ None → ∃ t0, t0 ∈ l ∧ f t0 = Some t).
Proof.
  revert found. induction l as [|t l IH]; intros found; simpl.
  { split_and!; [constructor|set_solver|]. intros t ?%not_elem_of_nil. done. }
  destruct (T t) as [k|] eqn:Ht; [case_bool_decide as Hin|].
  - destruct (IH found) as (Hnd & Hk & Hf). split_and!; [done|set_solver|].
    intros x Hx Hne. destruct (Hf x Hx Hne) as (t0 & ? & ?). exists t0. set_solver.
  - destruct (IH ({[k]} ∪ found)) as (Hnd & Hk & Hf). destruct (retain_each _ l) as [rest found']; simpl in *.
    assert (Hrest : ∀ x, x ∈ rest → T x ≠ None → ∃ t0, t0 ∈ t :: l ∧ f t0 = Some x).
    { intros x Hx Hne. destruct (Hf x Hx Hne) as (t0 & ? & ?). exists t0. set_solver. }
    destruct (f t) as [t'|] eqn:Hft; [|split_and!; [done|set_solver|done]].
    simpl. rewrite (f_keeps _ _ Hft), Ht. split_and!.
    + apply NoDup_cons. split; [|done]. intros Hk'%Hk. set_solver.
    + set_solver.
    + intros x [->|Hx]%elem_of_cons Hne; [|by apply Hrest]. exists t. set_solver.
  - destruct (IH found) as (Hnd & Hk & Hf). destruct (retain_each _ l) as [rest found']; simpl in *.
    rewrite Ht. split_and!; [done|set_solver|].
    intros x [->|Hx]%elem_of_cons Hne; [done|]. destruct (Hf x Hx Hne) as (t0 & ? & ?). exists t0. set_solver.
Qed.

Lemma retain_each_all found l k :
  (∀ t, is_Some (f t)) → k ∈ omap T l → k ∉ found → k ∈ omap T (retain_each found l).1.
Proof.
  intros Hf. revert found. induction l as [|t l IH]; intros found; simpl; [by intros ?%not_elem_of_nil|].
  destruct (T t) as [k'|] eqn:Ht; [case_bool_decide as Hin|].
  - intros [->|?]%elem_of_cons ?; [done|by apply IH].
  - intros Hk Hn. specialize (IH ({[k']} ∪ found)). destruct (retain_each _ l) as [rest found']; simpl in *.
    destruct (Hf t) as [t' Hft]. rewrite Hft. simpl. rewrite (f_keeps _ _ Hft), Ht.
    destruct (decide (k = k')) as [->|Hne]; [left|right]. apply IH; set_solver.
  - intros Hk Hn. specialize (IH found). destruct (retain_each _ l) as [rest found']; simpl in *. rewrite Ht. by apply IH.
Qed.

End retain_each.

(** ** Lemmas: the codec *)

Section codec_lemmas.
Context `{Nostr}.

#[local] Opaque to_be_bytes.

Definition relay_ok (r : RelayUrl) : Prop := str_ok r ∧ relay_url_parse r = Some r.

(** What the constructors can encode. *)
Definition group_ok (id : string) (relays : list RelayUrl) : Prop :=
  str_ok id ∧ relays ≠ [] ∧ NoDup relays ∧ ∀ r, r ∈ relays → relay_ok r.

Definition decoded_ok (d : Decoded) : Prop :=
  (de_operation d = SAVE_SIMPLE_GROUP ∧ group_ok (de_id d) (de_relays d) ∧
     ∀ n, de_display_name d = Some n → str_ok n) ∨
  (de_operation d = REMOVE_SIMPLE_GROUP ∧ group_ok (de_id d) (de_relays d) ∧ de_display_name d = None) ∨
  (de_operation d = RENAME_SIMPLE_GROUP ∧ group_ok (de_id d) (de_relays d) ∧
     ∃ n, de_display_name d = Some n ∧ str_ok n) ∨
  ((de_operation d = SAVE_RELAY ∨ de_operation d = REMOVE_RELAY) ∧ de_id d = ""%string ∧
     (∃ r, de_relays d = [r] ∧ relay_ok r) ∧ de_display_name d = None).

Lemma take_text_app value text rest :
  str_ok value → encode_text value = Ok text → take_text (text ++ rest) = Ok (value, rest).
Proof.
  intros Hok (len & [-> Hlen]%ok_or_Ok%try_u32_Some & [= <-])%bind_Ok. unfold take_text.
  rewrite <- app_assoc, split_first_n_app' by apply length_to_be_bytes. cbn [ok_or mbind result_bind].
  rewrite from_to_be_small by (unfold u32_max in Hlen; simpl; lia).
  rewrite Nat2N.id, split_first_n_app' by apply length_bytes_of_string. cbn [ok_or mbind result_bind].
  by rewrite from_utf8_bytes.
Qed.

Lemma take_relay_app relay text rest :
  relay_ok relay → encode_text relay = Ok text → take_relay (text ++ rest) = Ok (relay, rest).
Proof.
  intros [Hstr Hparse] Henc. unfold take_relay. rewrite (take_text_app _ _ _ Hstr Henc). cbn. by rewrite Hparse.
Qed.

Lemma take_relays_app relays bytes seen rest :
  NoDup relays → (∀ r, r ∈ relays → relay_ok r ∧ r ∉ seen) → encode_relays relays = Ok bytes →
  take_relays (length relays) seen (bytes ++ rest) = Ok (relays, rest).
Proof.
  revert bytes seen. induction relays as [|r relays IH]; intros bytes seen Hnd Hall; cbn [encode_relays].
  { by intros [= <-]. }
  apply NoDup_cons in Hnd as [Hr Hnd]. destruct (Hall r) as [Hrok Hseen]; [left|].
  intros (text & Htext & (more & Hmore & [= <-])%bind_Ok)%bind_Ok. cbn [length take_relays].
  rewrite <- app_assoc, (take_relay_app r text) by done. cbn [mbind result_bind].
  rewrite bool_decide_eq_false_2 by done. cbn [negb ensure mbind result_bind].
  rewrite (IH more); [done|done| |done]. intros x Hx. destruct (Hall x) as [? ?]; [by right|]. set_solver.
Qed.

Lemma take_simple_group_app id relays bytes rest :
  group_ok id relays → encode_simple_group id relays = Ok bytes →
  take_simple_group (bytes ++ rest) = Ok (id, relays, rest).
Proof.
  intros (Hid & Hne & Hnd & Hall).
  intros (text & Htext & (count & [-> Hcount]%ok_or_Ok%try_u16_Some & (more & Hmore & [= <-])%bind_Ok)%bind_Ok)%bind_Ok.
  unfold take_simple_group. rewrite <- app_assoc, (take_text_app id text) by done. cbn [mbind result_bind].
  rewrite <- app_assoc, split_first_n_app' by apply length_to_be_bytes. cbn [ok_or mbind result_bind].
  rewrite from_to_be_small by (unfold u16_max in Hcount; simpl; lia). rewrite Nat2N.id.
  rewrite bool_decide_eq_false_2 by (by destruct relays). cbn [negb ensure mbind result_bind].
  rewrite (take_relays_app relays more); [done|done| |done]. intros r Hr. split; [by apply Hall|set_solver].
Qed.

Lemma take_optional_app name bytes :
  (∀ n, name = Some n → str_ok n) → encode_optional name = Ok bytes → take_optional_text bytes = Ok (name, []).
Proof.
  destruct name as [n|]; cbn [encode_optional]; [|by intros _ [= <-]].
  intros Hok (text & Htext & [= <-])%bind_Ok. unfold take_optional_text. cbn [take_byte mbind result_bind].
  cbn. rewrite <- (app_nil_r text), (take_text_app n text) by auto. done.
Qed.

Lemma saved_decode_encode d bytes :
  decoded_ok d → encode (de_operation d) (de_id d) (de_relays d) (de_display_name d) = Ok bytes →
  decode bytes = Ok d.
Proof.
  destruct d as [op id relays name]. unfold decoded_ok. cbn [de_operation de_id de_relays de_display_name].
  intros [(-> & Hg & Hn)|[(-> & Hg & ->)|[(-> & Hg & n & -> & Hn)|(Hop & -> & (r & -> & Hr) & ->)]]] Henc.
  - unfold encode in Henc. cbn in Henc.
    apply bind_Ok in Henc as (gb & Hgb & (nb & Hnb & [= <-])%bind_Ok).
    unfold decode. cbn. rewrite (take_simple_group_app id relays gb) by done. cbn.
    rewrite (take_optional_app name nb) by done. done.
  - unfold encode in Henc. cbn in Henc. apply bind_Ok in Henc as (gb & Hgb & [= <-]).
    unfold decode. cbn. rewrite <- (app_nil_r gb), (take_simple_group_app id relays gb) by done. done.
  - unfold encode in Henc. cbn in Henc.
    apply bind_Ok in Henc as (gb & Hgb & (nb & Hnb & [= <-])%bind_Ok).
    unfold decode. cbn. rewrite (take_simple_group_app id relays gb) by done. cbn.
    rewrite <- (app_nil_r nb), (take_text_app n nb) by done. done.
  - destruct Hop as [-> | ->]; unfold encode in Henc; cbn in Henc;
      apply bind_Ok in Henc as (text & Htext & [= <-]); unfold decode; cbn;
      rewrite <- (app_nil_r text), (take_relay_app r text) by done; done.
Qed.

Lemma saved_edit_decodes d e :
  decoded_ok d → edit (de_operation d) (de_id d) (de_relays d) (de_display_name d) = Ok e → decode_edit e = Ok d.
Proof.
  intros Hok (bytes & Henc & Hnew)%bind_Ok. apply bind_Ok in Hnew as (_ & _ & (_ & _ & [= <-])%bind_Ok).
  unfold decode_edit. cbn. by apply saved_decode_encode.
Qed.

(** Decoded relays are distinct and in normal form. *)
Lemma take_relay_normal `{!NostrValueLaws} input relay rest :
  take_relay input = Ok (relay, rest) → relay_url_parse relay = Some relay.
Proof.
  intros ([text rest'] & _ & (r & Hr%ok_or_Ok & [= <- <-])%bind_Ok)%bind_Ok. by eapply relay_url_normal.
Qed.

Lemma take_relays_normal `{!NostrValueLaws} count seen input relays rest :
  take_relays count seen input = Ok (relays, rest) →
  ∀ r, r ∈ relays → relay_url_parse r = Some r.
Proof.
  revert seen input relays. induction count as [|count IH]; intros seen input relays; cbn [take_relays].
  { intros [= <- <-] r ?%not_elem_of_nil. done. }
  intros ([r input'] & Hr & (_ & _ & ([rs rest'] & Hrs & [= <- <-])%bind_Ok)%bind_Ok)%bind_Ok x [->|Hx]%elem_of_cons.
  - by eapply take_relay_normal.
  - by eapply IH.
Qed.

Lemma take_relays_NoDup count seen input relays rest :
  take_relays count seen input = Ok (relays, rest) → NoDup relays ∧ ∀ r, r ∈ relays → r ∉ seen.
Proof.
  revert seen input relays. induction count as [|count IH]; intros seen input relays; cbn [take_relays].
  { intros [= <- <-]. split; [constructor|]. intros r ?%not_elem_of_nil. done. }
  intros ([r input'] & _ & ([] & Hr%ensure_Ok & ([rs rest'] & Hrs & [= <- <-])%bind_Ok)%bind_Ok)%bind_Ok.
  apply negb_true_iff, bool_decide_eq_false in Hr. apply IH in Hrs as [Hnd Hseen]. split.
  - apply NoDup_cons. split; [|done]. intros Hin%Hseen. set_solver.
  - intros x [->|Hx%Hseen]%elem_of_cons; [done|set_solver].
Qed.

(** The decoded operations of either family. *)
Definition group_op (operation : N) (name : option string) : Prop :=
  operation = SAVE_SIMPLE_GROUP ∨ operation = REMOVE_SIMPLE_GROUP ∨
  (operation = RENAME_SIMPLE_GROUP ∧ is_Some name).
Definition relay_op (operation : N) : Prop := operation = SAVE_RELAY ∨ operation = REMOVE_RELAY.

Definition normal_relays (d : Decoded) : Prop := ∀ r, r ∈ de_relays d → relay_url_parse r = Some r.

(** What a decoded edit is. *)
Lemma decode_shape `{!NostrValueLaws} bytes d :
  decode bytes = Ok d →
  normal_relays d ∧ NoDup (de_relays d) ∧
  (group_op (de_operation d) (de_display_name d) ∨ relay_op (de_operation d) ∧ ∃ r, de_relays d = [r]).
Proof.
  intros ([op input] & _ & ([d' rest] & Hd & ([] & _ & [= <-])%bind_Ok)%bind_Ok)%bind_Ok. unfold normal_relays.
  assert (Hgroup : ∀ input id relays rest, take_simple_group input = Ok (id, relays, rest) →
    (∀ r, r ∈ relays → relay_url_parse r = Some r) ∧ NoDup relays).
  { intros i id relays rest' ([id' ?] & _ & ([? ?] & _ & ([] & _ & ([rs ?] & Hrs & [= <- <- <-])%bind_Ok)
      %bind_Ok)%bind_Ok)%bind_Ok. split; [by eapply take_relays_normal|by eapply take_relays_NoDup]. }
  repeat case_bool_decide; cbn [orb] in Hd; try done.
  1: apply bind_Ok in Hd as ([[id rs] ?] & [? ?]%Hgroup & ([? ?] & _ & [= <- _])%bind_Ok).
  2: apply bind_Ok in Hd as ([[id rs] ?] & [? ?]%Hgroup & [= <- _]).
  3: apply bind_Ok in Hd as ([[id rs] ?] & [? ?]%Hgroup & ([? ?] & _ & [= <- _])%bind_Ok).
  1-3: cbn; split_and!; [done..|]; left; unfold group_op; eauto.
  all: apply bind_Ok in Hd as ([r ?] & Hr%take_relay_normal & [= <- _]); cbn; split_and!;
    [by intros x ->%list_elem_of_singleton|apply NoDup_singleton|right; unfold relay_op; eauto].
Qed.
End codec_lemmas.

(** ** Lemmas: applying *)

Section apply_lemmas.
Context `{Nostr} `{NostrBytes} `{!NostrBytesLaws} `{!NostrValueLaws}.

Definition renamed (name : string) (tag : Tag) : Tag :=
  if bool_decide (length tag = 3) then tag ++ [name] else <[3 := name]> tag.

(** The row an operation keeps. *)
Definition row_op (operation : N) (name : option string) (tag : Tag) : option Tag :=
  if bool_decide (operation = SAVE_SIMPLE_GROUP) then Some tag
  else if bool_decide (operation = REMOVE_SIMPLE_GROUP) then None
  else Some (renamed (default ""%string name) tag).

Definition group_row (id : string) (name : option string) (r : RelayUrl) : Tag :=
  ["group"%string; id; r] ++ match name with Some name => [name] | None => [] end.

Lemma parsed_tag_cons t values : parsed_tag (t :: values) = Ok (t :: values).
Proof. unfold parsed_tag. by rewrite tag_parse_cons. Qed.

Lemma renamed_same name tag j : j < 3 → renamed name tag !! j = tag !! j.
Proof.
  intros Hj. unfold renamed. case_bool_decide; [by rewrite lookup_app_l by lia|].
  by rewrite list_lookup_insert_ne by lia.
Qed.

Lemma renamed_length name tag : 3 ≤ length tag ↔ 3 ≤ length (renamed name tag).
Proof. unfold renamed. case_bool_decide; [rewrite length_app; lia|]. by rewrite length_insert. Qed.

Lemma renamed_idem name tag : renamed name (renamed name tag) = renamed name tag.
Proof.
  unfold renamed at 2 3. case_bool_decide as H3.
  - unfold renamed. rewrite bool_decide_eq_false_2 by (rewrite length_app; simpl; lia).
    rewrite insert_app_r_alt by lia. by rewrite H3.
  - unfold renamed. rewrite bool_decide_eq_false_2 by (by rewrite length_insert).
    by rewrite list_insert_insert_eq.
Qed.

Lemma selected_target_cons id selected tag k : selected_target id selected tag = Some k → 3 ≤ length tag.
Proof.
  unfold selected_target, simple_group_target. destruct (_ && _ && _) eqn:E; [|done].
  apply andb_true_iff in E as [[E _]%andb_true_iff _]. by apply bool_decide_eq_true in E.
Qed.

Lemma row_op_keeps id selected operation name t t' :
  row_op operation name t = Some t' → selected_target id selected t' = selected_target id selected t.
Proof.
  unfold row_op. case_bool_decide; [by intros [= <-]|]. case_bool_decide; [done|]. intros [= <-].
  unfold selected_target, simple_group_target. f_equal.
  rewrite !renamed_same by lia. unfold tag_named.
  rewrite !head_lookup, renamed_same by lia.
  by rewrite (bool_decide_ext _ _ (renamed_length (default ""%string name) t)).
Qed.

Lemma kept_row_op operation name tag :
  group_op operation name → 3 ≤ length tag → kept_row operation name tag = Ok (row_op operation name tag).
Proof.
  unfold kept_row, row_op. intros [-> |[-> |[-> [n ->]]]] Hlen; [done|done|].
  assert (Hn : renamed_tag tag n = Ok (renamed n tag)).
  { apply (renamed_length n) in Hlen. unfold renamed_tag. fold (renamed n tag).
    destruct (renamed n tag) as [|x values]; [simpl in Hlen; lia|]. apply parsed_tag_cons. }
  cbn. by rewrite Hn.
Qed.

Lemma group_loop_each operation id selected name found source :
  group_op operation name →
  group_loop operation id selected name found source =
  Ok (retain_each (selected_target id selected) (row_op operation name) found source).
Proof.
  intros Hop. revert found. induction source as [|tag source IH]; intros found; cbn [group_loop retain_each]; [done|].
  destruct (selected_target id selected tag) as [relay|] eqn:Ht.
  - case_bool_decide; [by apply IH|]. rewrite kept_row_op by (done || by eapply selected_target_cons).
    cbn [mbind result_bind]. rewrite IH. by destruct (retain_each _ _ _ source).
  - rewrite IH. by destruct (retain_each _ _ _ source).
Qed.

Lemma missing_rows_normal id name found relays :
  missing_rows id name found relays = Ok (group_row id name <$> normalize_relays found relays).
Proof.
  revert found. induction relays as [|r relays IH]; intros found; cbn [missing_rows normalize_relays]; [done|].
  case_bool_decide; [apply IH|]. rewrite (parsed_tag_cons _ _ : simple_group_tag id r name = Ok (group_row id name r)).
  cbn [mbind result_bind]. by rewrite IH.
Qed.

Lemma elem_of_normalize r seen relays : r ∈ normalize_relays seen relays ↔ r ∈ relays ∧ r ∉ seen.
Proof.
  revert seen. induction relays as [|r' relays IH]; intros seen; cbn [normalize_relays]; [set_solver|].
  case_bool_decide.
  - rewrite IH. set_solver.
  - rewrite !elem_of_cons, IH. destruct (decide (r = r')) as [->|]; set_solver.
Qed.

Lemma normalize_NoDup seen relays : NoDup (normalize_relays seen relays).
Proof.
  revert seen. induction relays as [|r relays IH]; intros seen; cbn [normalize_relays]; [constructor|].
  case_bool_decide; [apply IH|]. apply NoDup_cons. rewrite elem_of_normalize. split; [set_solver|apply IH].
Qed.

Lemma normalize_seen seen relays : (∀ r, r ∈ relays → r ∈ seen) → normalize_relays seen relays = [].
Proof.
  intros Hall. destruct (normalize_relays seen relays) as [|r l] eqn:E; [done|].
  assert (Hr : r ∈ normalize_relays seen relays) by (rewrite E; left).
  apply elem_of_normalize in Hr as [? []]. by apply Hall.
Qed.

Lemma group_row_target id selected name r :
  relay_url_parse r = Some r → r ∈ selected → selected_target id selected (group_row id name r) = Some r.
Proof.
  intros Hr Hin. unfold selected_target.
  assert (simple_group_target id (group_row id name r) = Some r) as ->.
  { unfold simple_group_target. rewrite !bool_decide_eq_true_2 by (done || simpl; lia). cbn. by rewrite Hr. }
  cbn [mbind option_bind]. by rewrite bool_decide_eq_true_2.
Qed.

(** The tags a group edit leaves. *)
Definition group_tags (d : Decoded) (source : list Tag) : list Tag :=
  let T := selected_target (de_id d) (list_to_set (de_relays d)) in
  (retain_each T (row_op (de_operation d) (de_display_name d)) ∅ source).1 ++
  (if bool_decide (de_operation d = REMOVE_SIMPLE_GROUP) then []
   else group_row (de_id d) (de_display_name d) <$> normalize_relays (list_to_set (omap T source)) (de_relays d)).

Lemma apply_simple_group_tags d source :
  group_op (de_operation d) (de_display_name d) →
  apply_simple_group source (de_id d) (de_relays d) (de_operation d) (de_display_name d) = Ok (group_tags d source).
Proof.
  intros Hop. unfold apply_simple_group, group_tags. rewrite group_loop_each by done. cbn [mbind result_bind].
  pose proof (retain_each_found (selected_target (de_id d) (list_to_set (de_relays d)))
    (row_op (de_operation d) (de_display_name d)) ∅ source) as Hfound.
  destruct (retain_each _ _ _ source) as [tags found]. cbn [fst snd] in *.
  rewrite (left_id_L ∅ (∪)) in Hfound. subst found.
  destruct Hop as [-> |[-> |[-> [n ->]]]]; cbn; rewrite ?missing_rows_normal, ?app_nil_r; done.
Qed.

Definition removes (operation : N) : Prop := operation = REMOVE_SIMPLE_GROUP ∨ operation = REMOVE_RELAY.
#[global] Instance relay_op_dec operation : Decision (relay_op operation) := _.
#[global] Instance removes_dec operation : Decision (removes operation) := _.

(** The relay a row of the edited group, or of the edited relays, is about. *)
Definition saved_target (d : Decoded) (tag : Tag) : option RelayUrl :=
  if bool_decide (relay_op (de_operation d)) then
    if bool_decide (relay_target tag = head (de_relays d)) then relay_target tag else None
  else selected_target (de_id d) (list_to_set (de_relays d)) tag.

Lemma group_rows_targets id selected name (l : list RelayUrl) :
  (∀ r, r ∈ l → relay_url_parse r = Some r ∧ r ∈ selected) →
  omap (selected_target id selected) (group_row id name <$> l) = l.
Proof.
  induction l as [|r l IH]; intros Hall; [done|]. rewrite fmap_cons. cbn [omap list_omap].
  destruct (Hall r) as [Hr Hin]; [left|]. rewrite group_row_target by done. f_equal. apply IH. set_solver.
Qed.

Section group_tags.
Context (d : Decoded) (source : list Tag) (Hnormal : normal_relays d) (Hnd : NoDup (de_relays d)).
Context (Hop : group_op (de_operation d) (de_display_name d)).
Notation T := (selected_target (de_id d) (list_to_set (de_relays d))).

Lemma missing_targets :
  let l := normalize_relays (list_to_set (omap T source)) (de_relays d) in
  omap T (group_row (de_id d) (de_display_name d) <$> l) = l.
Proof.
  cbv zeta. apply group_rows_targets. intros r [Hr _]%elem_of_normalize. split; [by apply Hnormal|set_solver].
Qed.

Lemma group_tags_others : List.filter (keyless T) (group_tags d source) = List.filter (keyless T) source.
Proof.
  unfold group_tags. rewrite List.filter_app, retain_each_others by apply row_op_keeps.
  case_bool_decide; [by rewrite app_nil_r|]. rewrite (proj2 (filter_none _ (_ <$> _))), app_nil_r; [done|].
  intros t (r & -> & [Hr _]%elem_of_normalize)%list_elem_of_fmap. unfold keyless.
  rewrite group_row_target; [done|by apply Hnormal|set_solver].
Qed.

Lemma selected_in_relays tag r : T tag = Some r → r ∈ de_relays d.
Proof.
  unfold selected_target. destruct (simple_group_target _ _) as [r'|]; cbn [mbind option_bind]; [|done].
  case_bool_decide as Hin; [|done]. intros [= <-]. by apply elem_of_list_to_set in Hin.
Qed.

Lemma kept_targets :
  let kept := (retain_each T (row_op (de_operation d) (de_display_name d)) ∅ source).1 in
  NoDup (omap T kept) ∧ (∀ k, k ∈ omap T kept → k ∈ omap T source) ∧
  (∀ t, t ∈ kept → T t ≠ None → ∃ t0, t0 ∈ source ∧ row_op (de_operation d) (de_display_name d) t0 = Some t).
Proof.
  destruct (retain_each_keys T (row_op (de_operation d) (de_display_name d)) (row_op_keeps _ _ _ _) ∅ source)
    as (Hkeys & Hin & Hrows). split_and!; [done| |done]. intros k Hk. by apply Hin.
Qed.

Lemma removed_targets : de_operation d = REMOVE_SIMPLE_GROUP → omap T (group_tags d source) = [].
Proof.
  intros Hs. destruct kept_targets as (_ & _ & Hrows). unfold group_tags. rewrite Hs in *.
  rewrite bool_decide_eq_true_2, app_nil_r by done.
  destruct (omap T _) as [|k ks] eqn:E; [done|]. exfalso.
  assert (Hk : k ∈ k :: ks) by left. rewrite <- E in Hk. apply list_elem_of_omap in Hk as (t & Ht & Hkt).
  destruct (Hrows t Ht) as (t0 & _ & Hf); [congruence|done].
Qed.

Lemma added_targets : de_operation d ≠ REMOVE_SIMPLE_GROUP → omap T (group_tags d source) ≡ₚ de_relays d.
Proof.
  intros Hs. destruct kept_targets as (Hkeys & Hin & _). unfold group_tags.
  rewrite bool_decide_eq_false_2, omap_app, missing_targets by done.
  apply NoDup_Permutation; [|done|].
  - apply NoDup_app. split_and!; [done| |apply normalize_NoDup].
    intros k Hk [_ Hk']%elem_of_normalize. apply Hin in Hk. set_solver.
  - intros r. rewrite elem_of_app, elem_of_normalize. split.
    + intros [(t & _ & Ht)%list_elem_of_omap|[]]; [by eapply selected_in_relays|done].
    + intros Hr. destruct (decide (r ∈ omap T source)) as [Hk|Hk]; [left|right; set_solver].
      apply retain_each_all; [apply row_op_keeps| |done|set_solver].
      intros t. unfold row_op. repeat case_bool_decide; done.
Qed.

(** What the rows of the edited group are. *)
Lemma group_tags_rows t :
  t ∈ group_tags d source → T t ≠ None →
  (∃ t0, t0 ∈ source ∧ row_op (de_operation d) (de_display_name d) t0 = Some t) ∨
  ∃ r, r ∈ de_relays d ∧ r ∉ omap T source ∧ t = group_row (de_id d) (de_display_name d) r.
Proof.
  unfold group_tags. intros [Ht|Ht]%elem_of_app Hne; [left; by apply kept_targets|].
  case_bool_decide; [by apply not_elem_of_nil in Ht|].
  apply list_elem_of_fmap in Ht as (r & -> & [? Hk]%elem_of_normalize). right. exists r.
  rewrite elem_of_list_to_set in Hk. done.
Qed.

Lemma renamed_column name t : 3 ≤ length t → renamed name t !! 3 = Some name.
Proof.
  intros Hlen. unfold renamed. case_bool_decide as H3; [by rewrite lookup_app_r, H3 by lia|].
  by rewrite list_lookup_insert_eq by lia.
Qed.

Lemma row_op_idem t t' :
  row_op (de_operation d) (de_display_name d) t = Some t' → row_op (de_operation d) (de_display_name d) t' = Some t'.
Proof. unfold row_op. repeat case_bool_decide; [by intros [= <-]|done|]. intros [= <-]. by rewrite renamed_idem. Qed.

Lemma group_tags_idem : group_tags d (group_tags d source) = group_tags d source.
Proof.
  unfold group_tags at 1. rewrite retain_each_stable.
  - destruct (decide (de_operation d = REMOVE_SIMPLE_GROUP)) as [Hr|Hr];
      [by rewrite bool_decide_eq_true_2, app_nil_r|].
    rewrite bool_decide_eq_false_2 by done. rewrite normalize_seen, app_nil_r; [done|].
    intros r Hin. by rewrite elem_of_list_to_set, (added_targets Hr).
  - destruct (decide (de_operation d = REMOVE_SIMPLE_GROUP)) as [Hr|Hr];
      [rewrite removed_targets by done; constructor|by rewrite added_targets].
  - set_solver.
  - intros t Ht Hne. destruct (group_tags_rows t Ht Hne) as [(t0 & _ & Hf)|(r & Hr & Hk & ->)];
      [by apply row_op_idem in Hf|].
    unfold row_op. destruct Hop as [-> |[Hs|[-> [n ->]]]]; [done| |done].
    exfalso. destruct (T (group_row _ _ r)) as [k|] eqn:E; [|done].
    assert (Hin : k ∈ omap T (group_tags d source)) by (apply list_elem_of_omap; by eexists).
    rewrite (removed_targets Hs) in Hin. by apply not_elem_of_nil in Hin.
Qed.
End group_tags.

Definition names_relay (r : RelayUrl) (tag : Tag) : bool := bool_decide (relay_target tag = Some r).

Lemma apply_relay_tags source r save :
  apply_relay source r save = Ok (retain_or_push (names_relay r) save id ["r"%string; r] source).
Proof.
  unfold apply_relay, retain_or_push. fold (names_relay r). destruct (retain_loop _ _ _ _ _) as [kept found].
  destruct (save && negb found); [|done]. by rewrite parsed_tag_cons.
Qed.

Lemma relay_row_names r : relay_url_parse r = Some r → names_relay r ["r"%string; r] = true.
Proof.
  intros Hr. apply bool_decide_eq_true. unfold relay_target.
  rewrite !bool_decide_eq_true_2 by (done || simpl; lia). cbn. by rewrite Hr.
Qed.

(** The tags an edit leaves. *)
Definition saved_tags (d : Decoded) (source : list Tag) : list Tag :=
  if bool_decide (relay_op (de_operation d)) then
    let r := default ""%string (head (de_relays d)) in
    retain_or_push (names_relay r) (bool_decide (de_operation d = SAVE_RELAY)) id ["r"%string; r] source
  else group_tags d source.

Lemma group_not_relay operation name : group_op operation name → ¬ relay_op operation.
Proof. intros [-> |[-> |[-> _]]] [?|?]; done. Qed.

Lemma apply_tags bytes d source :
  decode bytes = Ok d →
  apply source (de_operation d) (de_id d) (de_relays d) (de_display_name d) = Ok (saved_tags d source).
Proof.
  intros (_ & _ & [Hop|[Hop [r Hr]]])%decode_shape; unfold saved_tags.
  - rewrite bool_decide_eq_false_2 by (by eapply group_not_relay). unfold apply.
    rewrite apply_simple_group_tags by done. destruct Hop as [-> |[-> |[-> _]]]; done.
  - rewrite bool_decide_eq_true_2 by done. rewrite Hr. unfold apply.
    destruct Hop as [-> | ->]; [exact (apply_relay_tags source r true)|exact (apply_relay_tags source r false)].
Qed.

Lemma saved_tags_idem bytes d source :
  decode bytes = Ok d → saved_tags d (saved_tags d source) = saved_tags d source.
Proof.
  intros (Hn & Hnd & [Hop|[Hop [r Hr]]])%decode_shape; unfold saved_tags.
  - rewrite bool_decide_eq_false_2 by (by eapply group_not_relay). by apply group_tags_idem.
  - rewrite bool_decide_eq_true_2 by done. apply retain_or_push_idem, relay_row_names, Hn. rewrite Hr. left.
Qed.

(** The effect of a relay edit. *)
Lemma omap_single (T : Tag → option RelayUrl) (P : Tag → bool) r l :
  (∀ t, T t = if P t then Some r else None) → omap T l = (λ _, r) <$> List.filter P l.
Proof.
  intros HT. induction l as [|t l IH]; [done|]. cbn. rewrite HT. destruct (P t); cbn; by rewrite IH.
Qed.

Lemma saved_target_relay d r t :
  relay_op (de_operation d) → de_relays d = [r] → saved_target d t = if names_relay r t then Some r else None.
Proof.
  intros Hop Hr. unfold saved_target, names_relay. rewrite bool_decide_eq_true_2 by done. rewrite Hr. cbn [head].
  by case_bool_decide.
Qed.

Lemma keyless_relay d r l :
  relay_op (de_operation d) → de_relays d = [r] →
  List.filter (keyless (saved_target d)) l = List.filter (λ t, negb (names_relay r t)) l.
Proof.
  intros Hop Hr. apply filter_ext. intros t. unfold keyless. rewrite (saved_target_relay d r) by done.
  by destruct (names_relay r t).
Qed.

(** The effect of an edit on the tags. *)
Record saved_effect (d : Decoded) (before after : list Tag) : Prop := {
  se_others : List.filter (keyless (saved_target d)) after = List.filter (keyless (saved_target d)) before;
  se_targets : omap (saved_target d) after ≡ₚ (if bool_decide (removes (de_operation d)) then [] else de_relays d);
  se_renamed : de_operation d = RENAME_SIMPLE_GROUP →
    ∀ t, t ∈ after → saved_target d t ≠ None → t !! 3 = de_display_name d;
  se_saved : de_operation d = SAVE_SIMPLE_GROUP →
    ∀ t, t ∈ after → saved_target d t ≠ None → t ∈ before ∨ ∃ r, t = group_row (de_id d) (de_display_name d) r
}.

Lemma relay_tags_effect d r source :
  normal_relays d → relay_op (de_operation d) → de_relays d = [r] → saved_effect d source (saved_tags d source).
Proof.
  intros Hn Hop Hr. assert (Hrow : names_relay r ["r"%string; r] = true) by (apply relay_row_names, Hn; rewrite Hr; left).
  unfold saved_tags. rewrite bool_decide_eq_true_2 by done. cbv zeta.
  assert (default ""%string (head (de_relays d)) = r) as -> by (by rewrite Hr). rewrite ?Hr. split.
  - rewrite !(keyless_relay d r) by done. by apply filter_negb_retain.
  - rewrite (omap_single _ (names_relay r) r) by (intros; by apply saved_target_relay). destruct Hop as [Hs|Hs].
    + rewrite Hs. rewrite (bool_decide_eq_true_2 (SAVE_RELAY = SAVE_RELAY)) by done.
      destruct (retain_or_push_add (names_relay r) id ["r"%string; r] source Hrow)
        as (l1 & t & l2 & -> & Ht & Hall & _); [done|].
      rewrite List.filter_app. cbn [List.filter]. rewrite Ht.
      rewrite (proj2 (filter_none _ l1)), (proj2 (filter_none _ l2)) by set_solver.
      rewrite bool_decide_eq_false_2 by (by intros [?|?]). by rewrite Hr.
    + rewrite Hs. rewrite (bool_decide_eq_false_2 (REMOVE_RELAY = SAVE_RELAY)), retain_or_push_remove by done.
      rewrite (proj2 (filter_none _ _)); [|by intros t []%elem_of_filter_negb].
      by rewrite bool_decide_eq_true_2 by (by right).
  - intros Hs. destruct Hop as [Ho|Ho]; by rewrite Ho in Hs.
  - intros Hs. destruct Hop as [Ho|Ho]; by rewrite Ho in Hs.
Qed.

Lemma group_tags_effect d source :
  normal_relays d → NoDup (de_relays d) → group_op (de_operation d) (de_display_name d) →
  saved_effect d source (saved_tags d source).
Proof.
  intros Hn Hnd Hop. pose proof (group_not_relay _ _ Hop) as Hnr.
  assert (HT : saved_target d = selected_target (de_id d) (list_to_set (de_relays d)))
    by (unfold saved_target; by rewrite bool_decide_eq_false_2).
  unfold saved_tags. rewrite bool_decide_eq_false_2 by done. split; rewrite HT.
  - by apply group_tags_others.
  - case_bool_decide as Hr; [rewrite removed_targets; [done|..]|apply added_targets; [done..|]].
    all: unfold removes, relay_op in *; tauto.
  - intros Hs t Ht Hne. rewrite Hs in Hop. destruct Hop as [?|[?|[_ [n Hname]]]]; [done..|].
    destruct (group_tags_rows d source t Ht Hne) as [(t0 & Ht0 & Hf)|(r & _ & _ & ->)].
    + pose proof (row_op_keeps (de_id d) (list_to_set (de_relays d)) _ _ _ _ Hf) as Heq.
      unfold row_op in Hf. rewrite Hs, Hname in *. cbn in Hf. injection Hf as <-. apply renamed_column.
      destruct (selected_target _ _ t0) eqn:E; [by eapply selected_target_cons|congruence].
    + by rewrite Hname.
  - intros Hs t Ht Hne. destruct (group_tags_rows d source t Ht Hne) as [(t0 & Ht0 & Hf)|(r & _ & _ & ->)]; [left|eauto].
    unfold row_op in Hf. rewrite Hs in Hf. cbn in Hf. by injection Hf as <-.
Qed.

Lemma saved_tags_effect bytes d source : decode bytes = Ok d → saved_effect d source (saved_tags d source).
Proof.
  intros (Hn & Hnd & [Hop|[Hop [r Hr]]])%decode_shape; [by apply group_tags_effect|by eapply relay_tags_effect].
Qed.

Lemma saved_source_Ok author source created_at content tags :
  qualified_source author source created_at = Ok (content, tags) →
  content = match source with Some v => value_content v | None => ""%string end ∧
  tags = match source with Some v => value_tags v | None => [] end ∧
  ∀ v, source = Some v → verify_value v = Ok tt ∧ value_author v = author ∧ value_kind v = SAVED_KIND ∧
                          (value_created_at v < created_at)%N.
Proof.
  unfold qualified_source. destruct source as [v|]; [|intros [= <- <-]; done].
  intros ([] & Hv & ([] & [Ha Hk]%ensure_Ok%andb_true_iff & ([] & Ht%ensure_Ok & [= <- <-])%bind_Ok)%bind_Ok)%bind_Ok.
  apply bool_decide_eq_true in Ha, Hk, Ht. split_and!; [done..|]. intros v' [= <-]. done.
Qed.

Lemma saved_apply_Ok e author source created_at event :
  saved_apply e author source created_at = Ok event →
  ∃ d, decode_edit e = Ok d ∧ ed_kind e = SAVED_KIND ∧ applied SAVED_KIND author source created_at event ∧
    un_tags event = saved_tags d match source with Some v => value_tags v | None => [] end.
Proof.
  intros (d & Hdec & ([content tags] & Hq & (out & Happ & (ev & Hb & ([] & Hv & [= <-])%bind_Ok)
    %bind_Ok)%bind_Ok)%bind_Ok)%bind_Ok.
  pose proof Hdec as ([] & [Hk _]%ensure_Ok%andb_true_iff & Hbytes)%bind_Ok. apply bool_decide_eq_true in Hk.
  rewrite (apply_tags _ _ _ Hbytes) in Happ. injection Happ as <-.
  destruct (saved_source_Ok _ _ _ _ _ Hq) as (Hc & -> & Hs).
  destruct (built_applied _ _ source _ _ _ _ Hb) as [Hap Htags]; [done..|]. by exists d.
Qed.

#[global] Instance saved_group_lawful : EditApplierLaws SavedGroupListApplier.
Proof.
  split; cbn [applier_apply applier_supports applier_kind SavedGroupListApplier].
  - intros e author source created_at event (d & Hdec & Hk & _)%saved_apply_Ok. by rewrite Hdec.
  - by intros e author source created_at event (d & _ & _ & Hap & _)%saved_apply_Ok.
  - intros e author source created_at event created_at' event'
      (d & Hdec & _ & _ & Htags)%saved_apply_Ok (d' & Hdec' & _ & _ & Htags')%saved_apply_Ok.
    assert (d' = d) as -> by congruence. rewrite Htags'. cbn [value_tags]. rewrite Htags.
    apply bind_Ok in Hdec as (_ & _ & Hbytes). by eapply saved_tags_idem.
Qed.

(** ** Properties *)

(** A saved-list edit, from its constructor through its codec and applier:
    rows of other groups and relays stay as they were, in order; saving or
    renaming leaves exactly one row for each of the group's relays and removing
    leaves none (and so for saving and removing a relay); a rename puts the name in
    the display-name column of every row of the group, and a save keeps the rows
    already there. *)
Theorem saved_group_edit_effect (d : Decoded) (e : EventEdit) (author : PublicKey) (source : option EventValue)
    (created_at : Timestamp) (event : UnsignedEvent)
    (Hok : decoded_ok d) (Hedit : edit (de_operation d) (de_id d) (de_relays d) (de_display_name d) = Ok e)
    (Happ : applier_apply SavedGroupListApplier e author source created_at = Ok event) :
  saved_effect d match source with Some v => value_tags v | None => [] end (un_tags event).
Proof.
  apply (saved_edit_decodes _ _ Hok) in Hedit. apply saved_apply_Ok in Happ as (d' & Hdec & _ & _ & ->).
  assert (d' = d) as -> by congruence. apply bind_Ok in Hdec as (_ & _ & Hbytes). by eapply saved_tags_effect.
Qed.
End apply_lemmas.

(** ** A concrete list *)

Module SavedGroupsWitness.
Import EditSample.

Definition sample_edit : Decoded :=
  mkDecoded RENAME_SIMPLE_GROUP "g" ["wss://a"%string; "wss://b"%string] (Some "new"%string).
Definition sample_saved : EventValue :=
  Signed (mkEvent 4 1 10 10009
    [["group"%string; "g"%string; "wss://a"%string; "old"%string]; ["r"%string; "wss://c"%string];
     ["group"%string; "g"%string; "wss://a"%string]] "" 4).
Definition rename_edit : EventEdit :=
  match edit RENAME_SIMPLE_GROUP "g" (de_relays sample_edit) (Some "new"%string) with
  | Ok e => e | Err _ => mkEdit 0 None []
  end.
Definition renamed_list : UnsignedEvent :=
  match saved_apply rename_edit 1 (Some sample_saved) 20 with
  | Ok event => event | Err _ => mkUnsigned None 0 0 0 [] ""
  end.

Example rename_rewrites :
  un_tags renamed_list =
  [["group"%string; "g"%string; "wss://a"%string; "new"%string]; ["r"%string; "wss://c"%string];
   ["group"%string; "g"%string; "wss://b"%string; "new"%string]].
Proof. vm_compute. reflexivity. Qed.

Lemma saved_group_edit_effect_witness :
  omap (saved_target sample_edit) (un_tags renamed_list) ≡ₚ ["wss://a"%string; "wss://b"%string].
Proof.
  refine (se_targets _ _ _ (saved_group_edit_effect sample_edit rename_edit 1 (Some sample_saved) 20 renamed_list
    _ _ _)).
  - right. right. left. split_and!; [done| |by exists "new"%string].
    split_and!; [done|done| |].
    + apply (bool_decide_unpack _). vm_compute. exact I.
    + intros r Hr. cbn in Hr. rewrite !elem_of_cons, elem_of_nil in Hr. by destruct Hr as [-> |[-> |[]]].
  - vm_compute. reflexivity.
  - vm_compute. reflexivity.
Defined.
End SavedGroupsWitness.
