(* ===== verification/Publication.v ===== *)
(** * The publication owner ([crates/fava-publication])

    The owner of accepted writes over the memory store: selecting the source of
    a semantic edit, applying edits through the registered appliers, routing and
    accepting the result ([edit_application.rs], [lib.rs]), following source
    corrections ([run.rs], [recovery.rs]), and signing ([sign.rs]).  Its methods
    that do not wait are programs of [PubOp]: state passing with failures, whose
    calls into routers and appliers may panic.  The state keeps what the code
    hands to the runtime: the registered owners, the spawned tasks, and the
    change streams that are open. *)

From S2P Require Import Prelude Nostr Relay State Write Query Routing Receipts MemoryStore Session Edits.

(** ** Errors *)

Inductive PublicationError :=
| NotConfigured
| RuntimeUnavailable
| ReceiptMissing (receipt_id : ReceiptId)
| ReceiptChangesClosed
| PubRouting (reason : string)
| PubStore (e : WriteStoreError).

(** [impl Display for WriteStoreError]. *)
Definition store_error_text (e : WriteStoreError) : string :=
  match e with
  | StoreClosed => "write store is closed"
  | StoreInvalidEvent MissingId => "unsigned event has no computed event id"
  | StoreInvalidIntent e => intent_error_text e
  | StoreRefused reason => "write store refused operation: " +:+ reason
  end.

(** [impl Display for PublicationError]. *)
Definition publication_error_text (e : PublicationError) : string :=
  match e with
  | NotConfigured => "publication is not configured"
  | RuntimeUnavailable => "publication requires a running Tokio runtime"
  | ReceiptMissing id => "receipt ReceiptId(" +:+ pretty id +:+ ") does not exist"
  | ReceiptChangesClosed => "receipt change delivery closed"
  | PubRouting reason => "publication routing refused: " +:+ reason
  | PubStore e => store_error_text e
  end.

(** ** Sources ([edit_application.rs]) *)

(** A registered [dyn EditApplier]: calling it may panic. *)
Record HostApplier := mkHost {
  host_kind : Kind;
  host_supports : EventEdit → bool;
  host_apply : EventEdit → PublicKey → option EventValue → Timestamp
               → outcome (result WriteIntentError UnsignedEvent)
}.

(** The appliers of the list crates, which do not panic. *)
Definition hosted (a : EditApplier) : HostApplier :=
  mkHost (applier_kind a) (applier_supports a)
    (λ edit author source created_at, Returned (applier_apply a edit author source created_at)).

Definition MAX_APPLIERS : nat := 64.

(** Two opened sources: the ids of their change streams, their last snapshots,
    and which of them still report. *)
Record OpenedSemanticSources := mkSources {
  os_cache : N;
  os_writes : N;
  os_snapshots : SourceSnapshot * SourceSnapshot;
  os_live : bool * bool
}.

Definition sources_snapshots (o : OpenedSemanticSources) : list SourceSnapshot :=
  [(os_snapshots o).1; (os_snapshots o).2].

(** [next_change] when the source [index] (cache first) reports [changed]; the
    caller resumes only on live sources. *)
Definition source_kind (index : bool) : SourceKind := if index then EventCacheSource else WriteStoreSource.

Definition next_change (index : bool) (changed : result SourceStatus SourceSnapshot) (o : OpenedSemanticSources)
    : option (result SourceKind SourceKind) * OpenedSemanticSources :=
  let '(cache_live, writes_live) := os_live o in
  if negb cache_live && negb writes_live then (None, o)
  else
    let '(cache, writes) := os_snapshots o in
    match changed with
    | Ok snapshot =>
        (Some (Ok (source_kind index)),
         mkSources (os_cache o) (os_writes o) (if index then (snapshot, writes) else (cache, snapshot)) (os_live o))
    | Err status =>
        let closed s := mkSnapshot (ss_kind s) (ss_revision s) status (ss_events s) (ss_retractions s) in
        (Some (Err (source_kind index)),
         mkSources (os_cache o) (os_writes o) (if index then (closed cache, writes) else (cache, closed writes))
           (if index then (false, writes_live) else (cache_live, false)))
    end.

(** The id a source event is found under. *)
Definition source_event_id (e : SourceEvent) : option EventId :=
  match e with SourceRelay relay => Some (ev_id (re_event relay)) | SourceLocal local => value_id (lw_event local) end.
Definition source_event_value (e : SourceEvent) : EventValue :=
  match e with SourceRelay relay => Signed (re_event relay) | SourceLocal local => lw_event local end.

Definition selected (selected_id : option EventId) (o : OpenedSemanticSources) : option EventValue :=
  selected_id ← selected_id;
  source_event_value <$>
    List.find (λ e, bool_decide (source_event_id e = Some selected_id)) (sources_snapshots o ≫= ss_events).

Definition source_is_present (sources : list SourceSnapshot) (selected_id : EventId) : bool :=
  existsb (λ source, existsb (λ e, bool_decide (source_event_id e = Some selected_id)) (ss_events source)) sources.

(** ** A semantic revision's live state *)

Record SemanticState := mkSemantic {
  se_edits : list EventEdit;
  se_author : PublicKey;
  se_revision_id : RevisionId;
  se_selected_id : option EventId;
  se_source_floor : option Timestamp;
  se_failed_id : option EventId;
  se_sources : OpenedSemanticSources
}.

(** [SemanticState::recovered]: the persisted failure is not kept. *)
Definition semantic_recovered (custody : Custody) (revision_id : RevisionId) (sources : OpenedSemanticSources)
    : SemanticState :=
  mkSemantic (cu_edits custody) (cu_author custody) revision_id (fst <$> cu_source custody)
    (snd <$> cu_source custody) None sources.

Definition refresh_custody (revision_id : RevisionId) (custody : Custody) (state : SemanticState) : SemanticState :=
  mkSemantic (cu_edits custody) (cu_author custody) revision_id (fst <$> cu_source custody)
    (match cu_source custody with Some (_, timestamp) => Some timestamp | None => se_source_floor state end)
    (cu_failed_source custody) (se_sources state).

Definition with_failed_id (failed : option EventId) (state : SemanticState) : SemanticState :=
  mkSemantic (se_edits state) (se_author state) (se_revision_id state) (se_selected_id state)
    (se_source_floor state) failed (se_sources state).

(** ** The owner *)

Section publication.
Context {signer future A : Type} `{Nostr} `{!Signer signer future}.

(** What the owner hands to the runtime. *)
Inductive PublicationTask :=
| RunOwner (receipt_id : ReceiptId) (semantic : option SemanticState)
| AwaitSignature (authorized : Receipt) (public_key : PublicKey) (generation : N) (signing : future).

Record Publication := mkOwner {
  pn_store : MemoryWriteStore;
  pn_appliers : gmap Kind HostApplier;
  pn_session : @Session signer;
  pn_cancellations : gset ReceiptId;
  pn_stale : list (ReceiptId * WriteId * RevisionId * EventId * string);
  pn_tasks : list PublicationTask;
  pn_cancelled : list ReceiptId;
  pn_streams : gset N;
  pn_next_stream : N
}.

Definition pn_set_store (s : MemoryWriteStore) (p : Publication) : Publication :=
  mkOwner s (pn_appliers p) (pn_session p) (pn_cancellations p) (pn_stale p) (pn_tasks p) (pn_cancelled p)
    (pn_streams p) (pn_next_stream p).
Definition pn_set_stale (l : list (ReceiptId * WriteId * RevisionId * EventId * string)) (p : Publication)
    : Publication :=
  mkOwner (pn_store p) (pn_appliers p) (pn_session p) (pn_cancellations p) l (pn_tasks p) (pn_cancelled p)
    (pn_streams p) (pn_next_stream p).
Definition pn_set_streams (streams : gset N) (next : N) (p : Publication) : Publication :=
  mkOwner (pn_store p) (pn_appliers p) (pn_session p) (pn_cancellations p) (pn_stale p) (pn_tasks p)
    (pn_cancelled p) streams next.
Definition pn_set_owners (owners : gset ReceiptId) (tasks : list PublicationTask) (p : Publication) : Publication :=
  mkOwner (pn_store p) (pn_appliers p) (pn_session p) owners (pn_stale p) tasks (pn_cancelled p)
    (pn_streams p) (pn_next_stream p).
Definition pn_set_cancelled (owners : gset ReceiptId) (cancelled : list ReceiptId) (p : Publication) : Publication :=
  mkOwner (pn_store p) (pn_appliers p) (pn_session p) owners (pn_stale p) (pn_tasks p) cancelled
    (pn_streams p) (pn_next_stream p).

(** Programs on the owner: a panic leaves the state it reached. *)
Definition PubOp (B : Type) : Type := Publication → outcome (result PublicationError B) * Publication.

#[global] Instance pub_ret : MRet PubOp := fun _ b p => (Returned (Ok b), p).
#[global] Instance pub_bind : MBind PubOp := fun _ _ f m p =>
  match m p with
  | (Returned (Ok b), p') => f b p'
  | (Returned (Err e), p') => (Returned (Err e), p')
  | (Panicked, p') => (Panicked, p')
  end.

Definition pub_get : PubOp Publication := fun p => (Returned (Ok p), p).
Definition pub_put (f : Publication → Publication) : PubOp unit := fun p => (Returned (Ok tt), f p).
Definition pub_call {B} (o : outcome (result PublicationError B)) : PubOp B := fun p => (o, p).
Definition pub_try {B} (r : result PublicationError B) : PubOp B := pub_call (Returned r).
(** [match m { Ok(..) => .., Err(..) => .. }]: the failure as a value. *)
Definition pub_result {B} (m : PubOp B) : PubOp (result PublicationError B) := fun p =>
  match m p with (Returned r, p') => (Returned (Ok r), p') | (Panicked, p') => (Panicked, p') end.

(** A store call, its refusal as a value. *)
Definition pub_store {B} (op : Op B) : PubOp (result WriteStoreError B) := fun p =>
  let '(r, s) := op (pn_store p) in (Returned (Ok r), pn_set_store s p).
(** A store call with [?]. *)
Definition pub_store_try {B} (op : Op B) : PubOp B :=
  r ← pub_store op;
  pub_try (match r with Ok b => Ok b | Err e => Err (PubStore e) end).

(** ** Appliers, selection, application *)

(** The providers the owner was assembled with. *)
Context (runtime : bool) (now : Timestamp).
Context (event_source : Query → result string SourceSnapshot).
Context (evaluator : Query → list SourceSnapshot → result string QuerySnapshot).
Context (routers : list (Router A)).

(** The loop of [index_appliers]. *)
Fixpoint index_appliers (indexed : gmap Kind HostApplier) (appliers : list HostApplier)
    : result PublicationError (gmap Kind HostApplier) :=
  match appliers with
  | [] => Ok indexed
  | applier :: appliers =>
      _ ← ensure (negb (bool_decide (size indexed = MAX_APPLIERS)))
            (PubRouting ("applier selection exceeds bound: " +:+ pretty (N.of_nat (size indexed + 1))
                         +:+ " > " +:+ pretty (N.of_nat MAX_APPLIERS)));
      let kind := host_kind applier in
      _ ← ensure (negb (bool_decide (is_Some (indexed !! kind))))
            (PubRouting ("duplicate applier for kind " +:+ pretty kind));
      index_appliers (<[kind := applier]> indexed) appliers
  end.

Definition Publication_new (store : MemoryWriteStore) (appliers : list HostApplier) (session : @Session signer)
    : result PublicationError Publication :=
  appliers ← index_appliers ∅ appliers;
  Ok (mkOwner store appliers session ∅ [] [] [] ∅ 0).

Definition applier (p : Publication) (edit : EventEdit) : result PublicationError HostApplier :=
  let kind := ed_kind edit in
  applier ← ok_or (pn_appliers p !! kind) (PubRouting ("no selected applier for kind " +:+ pretty kind));
  _ ← ensure (host_supports applier edit)
        (PubRouting ("selected applier does not support kind " +:+ pretty kind +:+ " edit"));
  Ok applier.

(** [.expect] on the two axes: the builders never refuse one value. *)
Definition exact_query (edit : EventEdit) (author : PublicKey) : Query :=
  cache_only (authors (kinds events [ed_kind edit]) [author]).

Definition injected_timestamp (source current : option EventValue) : result PublicationError Timestamp :=
  let times := omap (fmap value_created_at) [source; current] in
  match times with
  | [] => Ok (N.max now 0)
  | time :: times =>
      minimum ← ok_or (checked_succ (foldl N.max time times)) (PubRouting "revision timestamp exhausted");
      Ok (N.max now minimum)
  end.

Definition check_revision (edit : EventEdit) (author : PublicKey) (event : UnsignedEvent)
    (injected_created_at : Timestamp) : result PublicationError unit :=
  id ← ok_or (un_id event) (PubRouting "semantic revision has no event id");
  let coordinate := event_coordinate id (un_pubkey event) (un_kind event) (un_tags event) in
  _ ← ensure (bool_decide (un_created_at event = injected_created_at))
        (PubRouting "semantic revision ignored the injected timestamp");
  ensure (bool_decide (un_pubkey event = author) && bool_decide (coordinate = edit_coordinate edit author))
    (PubRouting "semantic revision author or coordinate does not match accepted write").

(** One iteration of the loop of [apply_sequence_and_route]. *)
Definition apply_one (p : Publication) (total index : nat) (author : PublicKey) (created_at : Timestamp)
    (edit : EventEdit) (input : option EventValue) : result PublicationError UnsignedEvent :=
  let position := "semantic edit " +:+ pretty (N.of_nat (index + 1)) +:+ " of " +:+ pretty (N.of_nat total) in
  applier ← applier p edit;
  event ← match host_apply applier edit author input created_at with
          | Returned (Ok event) => Ok event
          | Returned (Err error) => Err (PubRouting (position +:+ " revision refused: " +:+ intent_error_text error))
          | Panicked => Err (PubRouting (position +:+ " applier panicked"))
          end;
  _ ← check_revision edit author event created_at;
  Ok event.

Fixpoint apply_sequence (p : Publication) (total index : nat) (author : PublicKey) (created_at : Timestamp)
    (edits : list EventEdit) (input : option EventValue) (output : option UnsignedEvent)
    : result PublicationError (option UnsignedEvent) :=
  match edits with
  | [] => Ok output
  | edit :: edits =>
      event ← apply_one p total index author created_at edit input;
      apply_sequence p total (S index) author created_at edits (Some (Unsigned event)) (Some event)
  end.

Definition routing_refused {B} (r : result RouterError B) : result PublicationError B :=
  match r with Ok b => Ok b | Err error => Err (PubRouting (router_error_text error)) end.

(** Composing the chain may panic (see [Routing.bounded_error]). *)
Definition route_for (event : UnsignedEvent) (routing : WriteRouting) (access : Authority)
    : outcome (result PublicationError RoutePlan) :=
  let request := RouteWrite (Unsigned event) access in
  match routing with
  | Explicit relays => Returned (routing_refused (explicit_plan relays (targets request)))
  | Automatic =>
      match preview routers request (replicate (length routers) []) with
      | Returned r => Returned (routing_refused r)
      | Panicked => Panicked
      end
  end.

Definition apply_sequence_and_route (p : Publication) (edits : list EventEdit) (author : PublicKey)
    (source current : option EventValue) (routing : WriteRouting) (access : Authority)
    : outcome (result PublicationError (UnsignedEvent * RoutePlan)) :=
  match edits with
  | [] => Returned (Err (PubRouting "semantic edit sequence is empty"))
  | _ =>
      match injected_timestamp source current with
      | Err e => Returned (Err e)
      | Ok created_at =>
          match apply_sequence p (length edits) 0 author created_at edits source None with
          | Err e => Returned (Err e)
          | Ok None => Panicked
          | Ok (Some event) =>
              match route_for event routing access with
              | Returned (Ok route) => Returned (Ok (event, route))
              | Returned (Err e) => Returned (Err e)
              | Panicked => Panicked
              end
          end
      end
  end.

(** The contributions [select_source] retains. *)
Definition at_coordinate (coordinate : EventCoordinate) (exclude_receipt : option ReceiptId) (e : SourceEvent) : bool :=
  match e with
  | SourceRelay relay =>
      bool_decide (event_coordinate (ev_id (re_event relay)) (ev_pubkey (re_event relay))
                     (ev_kind (re_event relay)) (ev_tags (re_event relay)) = coordinate)
  | SourceLocal local =>
      match value_coordinate (lw_event local) with
      | Ok candidate => bool_decide (candidate = coordinate)
      | Err _ => false
      end && match exclude_receipt with
             | None => true
             | Some receipt_id => negb (bool_decide (pub_receipt_id (lw_publication local) = receipt_id))
             end
  end.

Definition retain_events (keep : SourceEvent → bool) (s : SourceSnapshot) : SourceSnapshot :=
  mkSnapshot (ss_kind s) (ss_revision s) (ss_status s) (List.filter keep (ss_events s)) (ss_retractions s).

Definition select_source (edit : EventEdit) (author : PublicKey) (sources : list SourceSnapshot)
    (exclude_receipt : option ReceiptId) : result PublicationError (option EventValue) :=
  let qualified := retain_events (at_coordinate (edit_coordinate edit author) exclude_receipt) <$> sources in
  match evaluator (exact_query edit author) qualified with
  | Err error => Err (PubRouting error)
  | Ok snapshot => Ok (er_event <$> head (qn_events snapshot))
  end.

(** Whether the sources call for a new revision, and from which source. *)
Definition semantic_successor (state : SemanticState) (receipt_id : ReceiptId)
    : result PublicationError (bool * option EventValue) :=
  edit ← ok_or (last (se_edits state)) (PubRouting "semantic edit sequence is empty");
  candidate ← select_source edit (se_author state) (sources_snapshots (se_sources state)) (Some receipt_id);
  if bool_decide (candidate ≫= value_id = se_selected_id state) then Ok (false, None)
  else if bool_decide (candidate ≫= value_id = se_failed_id state) then Ok (false, None)
  else
    let selected_still_present :=
      match se_selected_id state with
      | Some selected_id => source_is_present (sources_snapshots (se_sources state)) selected_id
      | None => false
      end in
    match candidate with
    | Some candidate =>
        if match se_source_floor state with
           | None => true
           | Some floor =>
               match value_id candidate with
               | Some candidate_id =>
                   event_is_newer (value_created_at candidate, candidate_id)
                     (floor, default candidate_id (se_selected_id state))
               | None => false
               end
           end
        then Ok (true, Some candidate)
        else if bool_decide (is_Some (se_selected_id state)) && negb selected_still_present then Ok (true, None)
        else Ok (false, None)
    | None => if bool_decide (is_Some (se_selected_id state)) then Ok (true, None) else Ok (false, None)
    end.

(** ** Opening and closing sources *)

(** Opening one change stream, and closing a set of them. *)
Definition open_stream : PubOp N :=
  p ← pub_get;
  _ ← pub_put (pn_set_streams ({[pn_next_stream p]} ∪ pn_streams p) (pn_next_stream p + 1));
  mret (pn_next_stream p).

Definition close_streams (ids : gset N) : PubOp unit :=
  pub_put (λ p, pn_set_streams (pn_streams p ∖ ids) (pn_next_stream p) p).

Definition stream_ids (o : OpenedSemanticSources) : gset N := {[os_cache o; os_writes o]}.
Definition close_sources (o : OpenedSemanticSources) : PubOp unit := close_streams (stream_ids o).
Definition close_semantic (semantic : option SemanticState) : PubOp unit :=
  match semantic with Some state => close_sources (se_sources state) | None => mret tt end.

(** [MemoryWriteStore::open] never refuses. *)
Definition store_open (s : MemoryWriteStore) (query : Query) : result string SourceSnapshot := Ok (ms_latest s).

Definition open_semantic_sources (edit : EventEdit) (author : PublicKey) : PubOp OpenedSemanticSources :=
  let query := exact_query edit author in
  cache ← pub_try (match event_source query with Ok s => Ok s | Err error => Err (PubRouting error) end);
  cache_stream ← open_stream;
  p ← pub_get;
  match store_open (pn_store p) query with
  | Ok writes =>
      writes_stream ← open_stream;
      mret (mkSources cache_stream writes_stream (cache, writes) (true, true))
  | Err error =>
      _ ← close_streams {[cache_stream]};
      pub_try (Err (PubRouting error))
  end.

Record PreparedSemantic := mkPrepared {
  pp_event : UnsignedEvent;
  pp_source : option EventValue;
  pp_route : RoutePlan;
  pp_sources : OpenedSemanticSources
}.

(** Leaving a scope that owns opened sources by an error or a panic closes or
    drops them. *)
Definition owning {B} (ids : gset N) (m : PubOp B) : PubOp B := fun p =>
  match m p with
  | (Returned (Ok b), p') => (Returned (Ok b), p')
  | (left_, p') => (left_, pn_set_streams (pn_streams p' ∖ ids) (pn_next_stream p') p')
  end.
Definition or_close {B} (sources : OpenedSemanticSources) (m : PubOp B) : PubOp B := owning (stream_ids sources) m.

Definition edit_payload (intent : WriteIntent) : result PublicationError (EventEdit * PublicKey) :=
  match in_payload intent with
  | PayloadEdit edit author => Ok (edit, author)
  | _ => Err (PubRouting "semantic preparation requires a replaceable-event edit")
  end.

Definition apply_and_route (intent : WriteIntent) (source current : option EventValue)
    : PubOp (UnsignedEvent * RoutePlan) :=
  '(edit, author) ← pub_try (edit_payload intent);
  p ← pub_get;
  pub_call (apply_sequence_and_route p [edit] author source current (in_routing intent) (in_access intent)).

Definition prepare_semantic (intent : WriteIntent) (current : option EventValue) : PubOp PreparedSemantic :=
  '(edit, author) ← pub_try (edit_payload intent);
  p ← pub_get;
  _ ← pub_try (applier p edit);
  sources ← open_semantic_sources edit author;
  source ← or_close sources (pub_try (select_source edit author (sources_snapshots sources) None));
  '(event, route) ← or_close sources (apply_and_route intent source current);
  mret (mkPrepared event source route sources).

(** ** Owners ([run.rs]) *)

Definition start_owned (receipt_id : ReceiptId) (semantic : option SemanticState) : PubOp unit :=
  p ← pub_get;
  if bool_decide (receipt_id ∈ pn_cancellations p) then close_semantic semantic
  else pub_put (pn_set_owners ({[receipt_id]} ∪ pn_cancellations p)
                  (pn_tasks p ++ [RunOwner receipt_id semantic])).

Definition finished (receipt_id : ReceiptId) : PubOp unit :=
  pub_put (λ p, pn_set_cancelled (pn_cancellations p ∖ {[receipt_id]}) (pn_cancelled p) p).

(** ** The facade's operations ([lib.rs]) *)

Definition check_runtime : PubOp unit := pub_try (ensure runtime RuntimeUnavailable).

Definition store_read {B} (r : result WriteStoreError B) : result PublicationError B :=
  match r with Ok b => Ok b | Err e => Err (PubStore e) end.

(** [accept] of an edit, once the reservation is taken. *)
Definition accept_edit (intent : WriteIntent) (reservation : N) : PubOp AcceptedWrite :=
  prepared ← pub_result (prepare_semantic intent None);
  match prepared with
  | Err error =>
      release ← pub_store (release_active reservation);
      match release with
      | Ok _ => pub_try (Err error)
      | Err release =>
          pub_try (Err (PubStore (StoreRefused
            ("semantic preparation failed (" +:+ publication_error_text error +:+
             "); active reservation release also failed (" +:+ store_error_text release +:+ ")"))))
      end
  | Ok prepared =>
      let initial_route := match in_routing intent with Automatic => Some (pp_route prepared) | _ => None end in
      accepted ← or_close (pp_sources prepared) (pub_store_try
        (accept_reserved_applied_edit now reservation intent (pp_event prepared) (pp_source prepared) initial_route));
      p ← pub_get;
      let revision := pub_revision_id (lw_publication (aw_current accepted)) in
      custody ← or_close (pp_sources prepared) (pub_try (store_read
        (applied_edits (aw_receipt_id accepted) revision (ms_state (pn_store p)))));
      match custody with
      | None =>
          _ ← close_sources (pp_sources prepared);
          if match MemoryStore.receipt (aw_receipt_id accepted) (ms_state (pn_store p)) with
             | Some receipt => receipt_is_terminal receipt | None => false
             end
          then mret accepted
          else pub_try (Err (PubStore (StoreRefused "accepted semantic custody is missing")))
      | Some custody =>
          _ ← start_owned (aw_receipt_id accepted)
                (Some (semantic_recovered custody revision (pp_sources prepared)));
          mret accepted
      end
  end.

Definition publication_accept (intent : WriteIntent) : PubOp AcceptedWrite :=
  _ ← check_runtime;
  match in_payload intent with
  | PayloadEdit edit author =>
      reservation ← pub_store_try (reserve_active edit author);
      accept_edit intent reservation
  | _ =>
      accepted ← pub_store_try (MemoryStore.accept intent);
      _ ← start_owned (aw_receipt_id accepted) None;
      mret accepted
  end.

Definition preview_semantic_routes (intent : WriteIntent) : PubOp RoutePlan :=
  prepared ← prepare_semantic intent None;
  _ ← close_sources (pp_sources prepared);
  mret (pp_route prepared).

Definition publication_cancel (receipt_id : ReceiptId) : PubOp (option Receipt) :=
  receipt ← pub_store_try (MemoryStore.cancel receipt_id);
  p ← pub_get;
  _ ← (if match receipt with Some receipt => bool_decide (rc_outcome receipt = Cancelled) | None => false end
          && bool_decide (receipt_id ∈ pn_cancellations p)
       then pub_put (pn_set_cancelled (pn_cancellations p ∖ {[receipt_id]}) (pn_cancelled p ++ [receipt_id]))
       else mret tt);
  mret receipt.

Definition publication_receipt (p : Publication) (receipt_id : ReceiptId) : option Receipt :=
  MemoryStore.receipt receipt_id (ms_state (pn_store p)).

Definition publication_remove_receipt (receipt_id : ReceiptId) : PubOp bool :=
  pub_store_try (remove_receipt receipt_id).

(** ** Source corrections ([run.rs]) *)

Definition with_revision (revision : N) (plan : RoutePlan) : RoutePlan :=
  mkPlan revision (rp_destinations plan) (rp_coverage plan) (rp_unresolved plan) (rp_shortfalls plan).

(** What the store is told when a correction fails. *)
Definition record_failure (receipt : Receipt) (source : option EventValue) (reason : string) : PubOp unit :=
  let publication := rc_publication receipt in
  _ ← pub_store (record_semantic_failure (rc_write_id receipt) (rc_receipt_id receipt)
        (pub_revision_id publication) (pub_revision_source publication) source reason);
  mret tt.

Definition source_label (kind : SourceKind) : string :=
  match kind with
  | EventCacheSource => "event-cache"
  | WriteStoreSource => "write-store"
  | LiveRelay _ => "live-relay"
  end.

Definition record_source_failure (receipt : Receipt) (state : SemanticState) (kind : SourceKind) : PubOp unit :=
  record_failure receipt (selected (se_selected_id state) (se_sources state))
    (source_label kind +:+ " source observation closed").

(** [reapply] from the successor on. *)
Definition reapply_from (receipt : Receipt) (successor : option EventValue) (state : SemanticState)
    : PubOp SemanticState :=
  let publication := rc_publication receipt in
  let failed := with_failed_id (successor ≫= value_id) state in
  p ← pub_get;
  applied ← pub_result (pub_call (apply_sequence_and_route p (se_edits state) (se_author state) successor
                          (Some (lw_event (rc_current receipt))) (rc_routing receipt) (rc_access receipt)));
  match applied with
  | Err error => _ ← record_failure receipt successor (publication_error_text error); mret failed
  | Ok (event, route) =>
      match (match rc_routing receipt with
             | Automatic => match checked_succ (rc_route_revision receipt) with
                            | Some revision => Some (Some (with_revision revision route))
                            | None => None
                            end
             | Explicit _ => Some None
             end) with
      | None => mret state
      | Some initial_route =>
          installed ← pub_store (install_semantic now (rc_write_id receipt) (rc_receipt_id receipt)
            (pub_revision_id publication) (pub_revision_source publication) (se_edits state) event successor
            initial_route);
          match installed with
          | Err error => _ ← record_failure receipt successor (store_error_text error); mret failed
          | Ok installed =>
              mret (mkSemantic (se_edits state) (se_author state) (pub_revision_id (rc_publication installed))
                      (successor ≫= value_id)
                      (match successor with
                       | Some source => Some (value_created_at source)
                       | None => se_source_floor state
                       end) None (se_sources state))
          end
      end
  end.

Definition reapply (receipt : Receipt) (state : SemanticState) : PubOp SemanticState :=
  match semantic_successor state (rc_receipt_id receipt) with
  | Ok (true, successor) => reapply_from receipt successor state
  | _ => mret state
  end.

Definition committed_route_revision (p : Publication) (receipt : Receipt) : N :=
  match publication_receipt p (rc_receipt_id receipt) with
  | Some current =>
      if bool_decide (pub_revision_id (rc_publication current) = pub_revision_id (rc_publication receipt))
      then rc_route_revision current else rc_route_revision receipt
  | None => rc_route_revision receipt
  end.

(** [apply_route] of the owner: a plan the store refuses becomes a shortfall. *)
Definition owner_apply_route (receipt : Receipt) (revision : N) (request : RouteRequest)
    (contribution : RouteContribution) : PubOp N :=
  let plan := match from_contribution revision contribution with
              | Ok plan => plan
              | Err error => plan_shortfall revision request (router_error_text error)
              end in
  let submit plan := pub_store (apply_route (rc_write_id receipt) (rc_receipt_id receipt)
                       (pub_revision_id (rc_publication receipt)) (lw_id (rc_current receipt)) plan) in
  committed ← submit plan;
  match committed with
  | Ok committed => mret (rc_route_revision committed)
  | Err error =>
      committed ← submit (plan_shortfall revision request (store_error_text error));
      p ← pub_get;
      mret (match committed with
            | Ok committed => rc_route_revision committed
            | Err _ => committed_route_revision p receipt
            end)
  end.

Definition apply_route_change (receipt : Receipt) (revision : N) (contribution : RouteContribution) : PubOp N :=
  owner_apply_route receipt (saturating_add revision 1)
    (RouteWrite (lw_event (rc_current receipt)) (rc_access receipt)) contribution.

(** ** Recovery ([recovery.rs], [lib.rs]) *)

Definition recovered_refused {B} (reason : string) : result PublicationError B := Err (PubStore (StoreRefused reason)).

Definition refresh_recovered_custody (p : Publication) (receipt : Receipt) (state : SemanticState)
    : result PublicationError SemanticState :=
  let revision := pub_revision_id (rc_publication receipt) in
  let retry_persisted_failure :=
    bool_decide (revision = se_revision_id state) && bool_decide (se_failed_id state = None) in
  custody ← store_read (applied_edits (rc_receipt_id receipt) revision (ms_state (pn_store p)));
  match custody with
  | None => recovered_refused "recovered semantic custody is missing"
  | Some custody =>
      _ ← ensure (negb (bool_decide (cu_edits custody = [])))
            (PubStore (StoreRefused "recovered semantic edit sequence is empty"));
      let state := refresh_custody revision custody state in
      Ok (if retry_persisted_failure then with_failed_id None state else state)
  end.

Definition read_or_refuse (receipt_id : ReceiptId) (reason : string) : PubOp Receipt :=
  p ← pub_get;
  pub_try (ok_or (publication_receipt p receipt_id) (PubStore (StoreRefused reason))).

(** The loop of [reconcile_recovered]; [tries] counts its iterations down. *)
Fixpoint reconcile_loop (tries : nat) (receipt_id : ReceiptId) (state : SemanticState) : PubOp SemanticState :=
  match tries with
  | O => pub_try (recovered_refused ("semantic recovery reconciliation exceeds bound "
                                     +:+ pretty (N.of_nat (destination_evidence_capacity + 1))))
  | S tries =>
      receipt ← read_or_refuse receipt_id "recovered semantic receipt is missing";
      if receipt_is_terminal receipt then mret state
      else
        p ← pub_get;
        match refresh_recovered_custody p receipt state with
        | Err error =>
            current ← read_or_refuse receipt_id "revalidated semantic receipt is missing";
            if bool_decide (current = receipt) then pub_try (Err error) else reconcile_loop tries receipt_id state
        | Ok state =>
            current ← read_or_refuse receipt_id "revalidated semantic receipt is missing";
            if bool_decide (current = receipt) then
              state ← reapply current state;
              applied ← read_or_refuse receipt_id "reconciled semantic receipt is missing";
              if bool_decide (pub_revision_id (rc_publication applied) = se_revision_id state) then mret state
              else reconcile_loop tries receipt_id state
            else reconcile_loop tries receipt_id state
        end
  end.

Definition reconcile_recovered (receipt_id : ReceiptId) (state : SemanticState) : PubOp SemanticState :=
  reconcile_loop (destination_evidence_capacity + 1) receipt_id state.

(** [for edit in edits { self.applier(edit)?; }]. *)
Fixpoint check_appliers (p : Publication) (edits : list EventEdit) : result PublicationError unit :=
  match edits with
  | [] => Ok tt
  | edit :: edits => _ ← applier p edit; check_appliers p edits
  end.

Definition prepared_ids (prepared : list (ReceiptId * SemanticState)) : gset N :=
  ⋃ ((λ '(_, state), stream_ids (se_sources state)) <$> prepared).

(** The loop that opens the sources of every recovered coordinate. *)
Fixpoint open_recovered (prepared : list (ReceiptId * SemanticState)) (semantic : list (Receipt * Custody))
    : PubOp (list (ReceiptId * SemanticState)) :=
  match semantic with
  | [] => mret prepared
  | (receipt, custody) :: semantic =>
      sources ← owning (prepared_ids prepared) (
        edit ← pub_try (match last (cu_edits custody) with
                        | Some edit => Ok edit
                        | None => recovered_refused "recovered semantic edit sequence is empty"
                        end);
        open_semantic_sources edit (cu_author custody));
      let state := semantic_recovered custody (pub_revision_id (rc_publication receipt)) sources in
      open_recovered (prepared ++ [(rc_receipt_id receipt, state)]) semantic
  end.

(** [for index in 0..prepared.len()]: reconciling keeps every sources open. *)
Fixpoint reconcile_all (ids : gset N) (prepared : list (ReceiptId * SemanticState))
    : PubOp (list (ReceiptId * SemanticState)) :=
  match prepared with
  | [] => mret []
  | (receipt_id, state) :: prepared =>
      state ← owning ids (reconcile_recovered receipt_id state);
      rest ← reconcile_all ids prepared;
      mret ((receipt_id, state) :: rest)
  end.

Fixpoint start_all (l : list (ReceiptId * option SemanticState)) : PubOp unit :=
  match l with
  | [] => mret tt
  | (receipt_id, semantic) :: l => _ ← start_owned receipt_id semantic; start_all l
  end.

Definition recover : PubOp nat :=
  _ ← check_runtime;
  p ← pub_get;
  let receipts := recover_open (ms_state (pn_store p)) in
  let semantic := recover_applied_edits (ms_state (pn_store p)) in
  _ ← pub_try (check_appliers p (semantic ≫= λ '(_, custody), cu_edits custody));
  prepared ← open_recovered [] semantic;
  prepared ← reconcile_all (prepared_ids prepared) prepared;
  _ ← start_all ((λ '(receipt_id, state), (receipt_id, Some state)) <$> prepared);
  let rest := List.filter (λ r, negb (bool_decide (rc_receipt_id r ∈ (prepared.*1)))) receipts in
  _ ← start_all ((λ r, (rc_receipt_id r, None)) <$> rest);
  mret (length receipts).

(** ** Signing ([sign.rs]) *)

Definition STALE_COMPLETION_CAPACITY : nat := 256.

Definition reject_stale_completion (receipt : Receipt) (reason : string) : PubOp unit :=
  pub_put (λ p,
    let retained := if bool_decide (length (pn_stale p) = STALE_COMPLETION_CAPACITY)
                    then tail (pn_stale p) else pn_stale p in
    pn_set_stale (retained ++ [(rc_receipt_id receipt, rc_write_id receipt,
                                pub_revision_id (rc_publication receipt), lw_id (rc_current receipt), reason)]) p).

Definition signer_generation (p : Publication) (receipt : Receipt) : option N :=
  match lw_event (rc_current receipt) with
  | Unsigned unsigned => fst <$> session_signer (pn_session p) (un_pubkey unsigned)
  | Signed _ => None
  end.

(** The receipt's identities, as the store's signing calls take them. *)
Definition signing_call {B} (call : WriteId → ReceiptId → RevisionId → EventId → B) (receipt : Receipt) : B :=
  call (rc_write_id receipt) (rc_receipt_id receipt) (pub_revision_id (rc_publication receipt))
    (lw_id (rc_current receipt)).

Definition signing_subject (receipt : Receipt) (generation : string) : string :=
  "authorized signer operation for write " +:+ pretty (rc_write_id receipt) +:+ " receipt "
  +:+ pretty (rc_receipt_id receipt) +:+ " revision " +:+ pretty (pub_revision_id (rc_publication receipt))
  +:+ " event " +:+ event_id_to_string (lw_id (rc_current receipt)) +:+ " attachment generation " +:+ generation.

(** [start_signing]; a returned generation means the attachment was tried. *)
Definition start_signing (receipt : Receipt) : PubOp (option N) :=
  match lw_event (rc_current receipt) with
  | Signed _ => mret None
  | Unsigned unsigned =>
      p ← pub_get;
      let public_key := un_pubkey unsigned in
      match session_signer (pn_session p) public_key with
      | None => mret None
      | Some (generation, Unavailable) => mret (Some generation)
      | Some (generation, Available) =>
          authorized ← pub_store (signing_call authorize_signing receipt);
          match authorized with
          | Err _ => mret None
          | Ok authorized =>
              if negb (bool_decide (pub_signature (rc_publication authorized) = SigAuthorized)) then mret None
              else
                match invoke_signer (pn_session p) public_key generation unsigned with
                | Some signing =>
                    _ ← pub_put (λ p, pn_set_owners (pn_cancellations p)
                          (pn_tasks p ++ [AwaitSignature authorized public_key generation signing]) p);
                    mret (Some generation)
                | None =>
                    recorded ← pub_store (signing_call record_signer_retryable authorized
                      ("authorized signer attachment generation " +:+ pretty generation +:+ " for "
                       +:+ public_key_to_hex public_key
                       +:+ " was retired before provider invocation; retry is permitted"));
                    _ ← match recorded with
                        | Ok _ => mret tt
                        | Err error => reject_stale_completion authorized
                            ("retired pre-invocation transition was rejected: " +:+ store_error_text error)
                        end;
                    mret (Some generation)
                end
          end
      end
  end.

(** [cancel_authorized_signing]; the cancellation signal itself is the task's. *)
Definition cancel_authorized_signing (receipt : Receipt) (generation : option N) (cause : string) : PubOp unit :=
  if bool_decide (pub_signature (rc_publication receipt) = SigAuthorized) then
    let generation := match generation with Some generation => pretty generation | None => "unknown" end in
    recorded ← pub_store (signing_call record_signer_retryable receipt
      (signing_subject receipt generation +:+ " cancelled before effect because " +:+ cause
       +:+ "; retry is permitted"));
    match recorded with
    | Ok _ => mret tt
    | Err error => reject_stale_completion receipt
        ("authorized cancellation transition was rejected: " +:+ store_error_text error)
    end
  else mret tt.

(** [impl Display for SignerError]. *)
Definition signer_error_text (e : SignerError) : string :=
  match e with
  | SignerUnavailable reason => "signer unavailable: " +:+ reason
  | SignerRejected reason => "signer rejected event: " +:+ reason
  | SigningCancelled => "signing cancelled"
  | InvalidOutput reason => "signer returned invalid event: " +:+ reason
  end.

Definition record_refusal (receipt : Receipt) (refusal : string) : PubOp unit :=
  recorded ← pub_store (signing_call record_signer_refusal receipt refusal);
  match recorded with
  | Ok _ => mret tt
  | Err stale => reject_stale_completion receipt
      ("signer completion rejected (" +:+ refusal +:+ "); evidence refused (" +:+ store_error_text stale +:+ ")")
  end.

Definition finish_signing (receipt : Receipt) (public_key : PublicKey) (generation : N)
    (completion : result SignerError Event) : PubOp unit :=
  p ← pub_get;
  if negb (is_current (pn_session p) public_key generation) then
    reject_stale_completion receipt
      ("signer attachment generation " +:+ pretty generation +:+ " for " +:+ public_key_to_hex public_key
       +:+ " was retired before its completion arrived")
  else
    match completion with
    | Ok event =>
        installed ← pub_store (signing_call install_signed receipt event);
        match installed with
        | Ok _ => mret tt
        | Err error => record_refusal receipt (store_error_text error)
        end
    | Err SigningCancelled =>
        _ ← pub_store (signing_call record_signer_retryable receipt
          (signing_subject receipt (pretty generation) +:+ " cancelled before effect; retry is permitted"));
        mret tt
    | Err (SignerUnavailable reason) =>
        _ ← pub_store (signing_call record_signer_retryable receipt
          ("signer unavailable before effect: " +:+ reason +:+ "; retry is permitted"));
        mret tt
    | Err error => record_refusal receipt (signer_error_text error)
    end.

End publication.
