(* ===== verification/PublicationProps.v ===== *)
(** * What the publication owner promises

    The runs of [Publication] as a step relation over its methods, the coherence
    every run keeps (its store is a run of the store, no reservation and no
    change stream outlives the call or task that holds it), and how source
    corrections and signer completions settle. *)

From S2P Require Import Prelude Nostr Relay State Write Query Routing Receipts MemoryStore.
From S2P Require Import StoreInvariant Session Edits Publication.

(** ** Lemmas: programs of the owner *)

Section programs.
Context {signer future : Type}.
Abbreviation Pub := (@Publication signer future).
Abbreviation Prog := (@PubOp signer future).

(** A relation every step of a program keeps. *)
Definition pub_rel (R : Pub → Pub → Prop) {B} (m : Prog B) : Prop := ∀ p, R p (m p).2.

Section rel.
Context (R : Pub → Pub → Prop) `{!PreOrder R}.

Lemma rel_bind {B C} (m : Prog B) (f : B → Prog C) : pub_rel R m → (∀ b, pub_rel R (f b)) → pub_rel R (m ≫= f).
Proof.
  intros Hm Hf p. unfold mbind, pub_bind. specialize (Hm p). destruct (m p) as [[[b|e]|] p']; simpl in *; [|done|done].
  etrans; [done|]. apply Hf.
Qed.

Lemma rel_ret {B} (b : B) : pub_rel R (mret b).
Proof. intros p. reflexivity. Qed.
Lemma rel_get : pub_rel R pub_get.
Proof. intros p. reflexivity. Qed.
Lemma rel_call {B} (o : outcome (result PublicationError B)) : pub_rel R (pub_call o).
Proof. intros p. reflexivity. Qed.
Lemma rel_try {B} (r : result PublicationError B) : pub_rel R (pub_try r).
Proof. apply rel_call. Qed.
Lemma rel_result {B} (m : Prog B) : pub_rel R m → pub_rel R (pub_result m).
Proof. intros Hm p. specialize (Hm p). unfold pub_result. by destruct (m p) as [[]]. Qed.
Lemma rel_put f : (∀ p, R p (f p)) → pub_rel R (pub_put f).
Proof. intros Hf p. apply Hf. Qed.
Lemma rel_owning {B} ids (m : Prog B) :
  (∀ p ids n, R p (pn_set_streams ids n p)) → pub_rel R m → pub_rel R (owning ids m).
Proof.
  intros Hs Hm p. specialize (Hm p). unfold owning. destruct (m p) as [[[b|e]|] p']; simpl in *; [done|..].
  all: etrans; [done|apply Hs].
Qed.
End rel.

(** What a program that succeeds returns. *)
Definition yields {B} (φ : B → Prop) (m : Prog B) : Prop :=
  ∀ p, match m p with (Returned (Ok b), _) => φ b | _ => True end.

Lemma yields_bind {B C} (φ : B → Prop) (ψ : C → Prop) (m : Prog B) (f : B → Prog C) :
  yields φ m → (∀ b, φ b → yields ψ (f b)) → yields ψ (m ≫= f).
Proof.
  intros Hm Hf p. specialize (Hm p). unfold mbind, pub_bind. destruct (m p) as [[[b|e]|] p']; [|done|done].
  apply (Hf b Hm).
Qed.
Lemma yields_any {B} (m : Prog B) : yields (λ _, True) m.
Proof. intros p. by destruct (m p) as [[[]|]]. Qed.
Lemma yields_ret {B} (φ : B → Prop) b : φ b → yields φ (mret b).
Proof. by intros Hb p. Qed.
Lemma yields_try {B} (φ : B → Prop) (r : result PublicationError B) : (∀ b, r = Ok b → φ b) → yields φ (pub_try r).
Proof. intros Hr p. cbn. destruct r; auto. Qed.

Definition next_id (p : Pub) : N := ws_next_identity (ms_state (pn_store p)).

(** Every registered owner is that of an identity the store has issued. *)
Definition registered_ok (p : Pub) : Prop := ∀ id, id ∈ pn_cancellations p → (id < next_id p)%N.

(** The store after an owner's step is the store after a run of its operations,
    its identities only grow and the owners stay those of issued ones. *)
Definition runs_store `{Nostr} (p p' : Pub) : Prop :=
  ∀ capacity, store_reachable capacity (pn_store p) → registered_ok p →
    store_reachable capacity (pn_store p') ∧ registered_ok p' ∧ (next_id p ≤ next_id p')%N.

#[global] Instance runs_store_preorder `{Nostr} : PreOrder runs_store.
Proof.
  split; [by intros p c|]. intros p q r Hpq Hqr c Hp Hreg. destruct (Hpq c Hp Hreg) as (Hq & Hregq & Hle).
  destruct (Hqr c Hq Hregq) as (Hr & Hregr & Hle'). split_and!; [done|done|lia].
Qed.

Lemma runs_bind_from `{Nostr} {B C} (m : Prog B) (f : B → Prog C) p capacity :
  runs_store p (m p).2 → store_reachable capacity (pn_store p) → registered_ok p →
  (∀ b p', m p = (Returned (Ok b), p') → store_reachable capacity (pn_store p') → registered_ok p' →
     (next_id p ≤ next_id p')%N →
     store_reachable capacity (pn_store (f b p').2) ∧ registered_ok (f b p').2 ∧ (next_id p' ≤ next_id (f b p').2)%N) →
  store_reachable capacity (pn_store ((m ≫= f) p).2) ∧ registered_ok ((m ≫= f) p).2 ∧
  (next_id p ≤ next_id ((m ≫= f) p).2)%N.
Proof.
  intros Hm Hr Hreg Hf. specialize (Hm capacity Hr Hreg) as (Hr' & Hreg' & Hle). unfold mbind, pub_bind.
  destruct (m p) as [[[b|e]|] p'] eqn:E; simpl in *; [|done|done].
  destruct (Hf b p' eq_refl Hr' Hreg' Hle) as (? & ? & ?). split_and!; [done|done|lia].
Qed.

(** A program run from one state: what its parts keep, it keeps. *)
Lemma runs_bind_at `{Nostr} {B C} (m : Prog B) (f : B → Prog C) p :
  runs_store p (m p).2 → (∀ b p', m p = (Returned (Ok b), p') → runs_store p' (f b p').2) →
  runs_store p ((m ≫= f) p).2.
Proof.
  intros Hm Hf. unfold mbind, pub_bind. destruct (m p) as [[[b|e]|] p'] eqn:E; simpl in *; [|done|done].
  etrans; [done|]. by apply Hf.
Qed.

Lemma discard_state {B} (m : Op B) s : (discard m s).2 = (m s).2.
Proof. unfold discard, mbind, op_bind, mbind, stateM_bind. by destruct (m s) as [[]]. Qed.

Lemma rel_store `{Nostr} {B} (op : Op B) now sop :
  (∀ s, (perform now sop s).2 = (op s).2) → pub_rel runs_store (pub_store op).
Proof.
  intros Hop p capacity Hr Hreg. destruct (reachable_ok _ _ Hr) as (Hok & _).
  pose proof (perform_identity now sop _ Hok) as Hle. apply (reach_perform _ now sop) in Hr. rewrite Hop in Hr, Hle.
  unfold pub_store, registered_ok, next_id in *. destruct (op (pn_store p)) as [r s']. simpl in *.
  split_and!; [done| |done]. intros id Hid. specialize (Hreg id Hid). lia.
Qed.

Lemma runs_streams `{Nostr} (p : Pub) ids n : runs_store p (pn_set_streams ids n p).
Proof. by intros capacity. Qed.

(** Registrations and tasks changed without a new registration. *)
Lemma runs_fewer `{Nostr} (p p' : Pub) :
  pn_store p' = pn_store p → pn_cancellations p' ⊆ pn_cancellations p → runs_store p p'.
Proof.
  intros Hs Hc capacity Hr Hreg. unfold registered_ok, next_id in *. rewrite Hs. split_and!; [done| |done]. auto.
Qed.
End programs.

(** Solve [pub_rel runs_store m] by the shape of [m]. *)
Ltac rel_step :=
  match goal with
  | |- pub_rel _ (mbind _ _) => apply rel_bind; [apply _| |intros ?]
  | |- pub_rel _ (mret _) => apply rel_ret; apply _
  | |- pub_rel _ pub_get => apply rel_get; apply _
  | |- pub_rel _ (pub_try _) => apply rel_try; apply _
  | |- pub_rel _ (pub_call _) => apply rel_call; apply _
  | |- pub_rel _ (pub_result _) => apply rel_result
  | |- pub_rel _ (pub_put _) => apply rel_put; intros ?; apply runs_fewer; simpl; solve [done|set_solver]
  | |- pub_rel _ (owning _ _) => apply rel_owning; [apply _|intros; apply runs_streams|]
  | |- pub_rel _ (match ?x with _ => _ end) => destruct x
  end.

(** ** Lemmas: the owner's store is a run of the store *)

Create HintDb owner.

Section store_runs.
Context {signer future A : Type} `{Nostr} `{!Signer signer future}.
Context (runtime : bool) (now : Timestamp).
Context (event_source : Query → result string SourceSnapshot).
Context (evaluator : Query → list SourceSnapshot → result string QuerySnapshot).
Context (routers : list (Router A)).
Abbreviation keeps m := (pub_rel (signer := signer) (future := future) runs_store m).

Ltac performed_at t sop := apply (rel_store _ t sop); intros s; apply discard_state.
Ltac performed sop := performed_at 0%N sop.

Lemma runs_reserve edit author : keeps (pub_store (reserve_active edit author)).
Proof. performed (DoReserve edit author). Qed.
Lemma runs_release n : keeps (pub_store (release_active n)).
Proof. performed (DoRelease n). Qed.
Lemma runs_accept intent : keeps (pub_store (MemoryStore.accept intent)).
Proof. performed (DoAccept intent). Qed.
Lemma runs_accept_reserved n intent event source route :
  keeps (pub_store (accept_reserved_applied_edit now n intent event source route)).
Proof. performed_at now (DoAcceptReserved n intent event source route). Qed.
Lemma runs_install w r rev src edits event source route :
  keeps (pub_store (install_semantic now w r rev src edits event source route)).
Proof. performed_at now (DoInstallRevision w r rev src edits event source route). Qed.
Lemma runs_failure w r rev src source reason : keeps (pub_store (record_semantic_failure w r rev src source reason)).
Proof. performed (DoRecordFailure w r rev src source reason). Qed.
Lemma runs_install_signed w r rev ev e : keeps (pub_store (install_signed w r rev ev e)).
Proof. performed (DoInstallSigned w r rev ev e). Qed.
Lemma runs_authorize w r rev ev : keeps (pub_store (authorize_signing w r rev ev)).
Proof. performed (DoAuthorize w r rev ev). Qed.
Lemma runs_retryable w r rev ev reason : keeps (pub_store (record_signer_retryable w r rev ev reason)).
Proof. performed (DoRetryable w r rev ev reason). Qed.
Lemma runs_refusal w r rev ev reason : keeps (pub_store (record_signer_refusal w r rev ev reason)).
Proof. performed (DoRefusal w r rev ev reason). Qed.
Lemma runs_apply_route w r rev ev plan : keeps (pub_store (apply_route w r rev ev plan)).
Proof. performed (DoApplyRoute w r rev ev plan). Qed.
Lemma runs_cancel r : keeps (pub_store (MemoryStore.cancel r)).
Proof. performed (DoCancel r). Qed.
Lemma runs_remove r : keeps (pub_store (remove_receipt r)).
Proof. performed (DoRemove r). Qed.
End store_runs.

#[export] Hint Resolve runs_reserve runs_release runs_accept runs_accept_reserved runs_install runs_failure
  runs_install_signed runs_authorize runs_retryable runs_refusal runs_apply_route runs_cancel runs_remove : owner.

(** A program from one state, by what it keeps from any. *)
Ltac everywhere :=
  match goal with |- runs_store ?p (?m ?p).2 => let Hk := fresh in cut (pub_rel runs_store m); [intros Hk; apply Hk|] end.

Ltac keeps_store := repeat (rel_step || (progress cbv beta) || solve [eauto with owner]).

Section owner_runs.
Context {signer future A : Type} `{Nostr} `{!Signer signer future}.
Context (runtime : bool) (now : Timestamp).
Context (event_source : Query → result string SourceSnapshot).
Context (evaluator : Query → list SourceSnapshot → result string QuerySnapshot).
Context (routers : list (Router A)).
Abbreviation keeps m := (pub_rel (signer := signer) (future := future) runs_store m).

Lemma runs_open edit author : keeps (open_semantic_sources event_source edit author).
Proof. unfold open_semantic_sources, open_stream, close_streams. keeps_store. Qed.

Lemma runs_prepare intent current : keeps (prepare_semantic now event_source evaluator routers intent current).
Proof.
  unfold prepare_semantic, or_close, apply_and_route. keeps_store; apply runs_open.
Qed.

Lemma runs_start id semantic (p : @Publication signer future) :
  (∀ capacity, store_reachable capacity (pn_store p) → (id < next_id p)%N) →
  runs_store p (start_owned id semantic p).2.
Proof.
  intros Hid. unfold start_owned, mbind, pub_bind, pub_get. case_bool_decide.
  - assert (keeps (close_semantic semantic)) as Hk by (unfold close_semantic, close_sources, close_streams; keeps_store).
    apply Hk.
  - intros capacity Hr Hreg. specialize (Hid _ Hr). split_and!; [done| |done].
    intros j. simpl. rewrite elem_of_union, elem_of_singleton. intros [->|Hj]; [done|by apply Hreg].
Qed.

(** A receipt of a reachable store has an issued identity. *)
Lemma held_issued capacity (p : @Publication signer future) id :
  store_reachable capacity (pn_store p) → is_Some (ws_writes (ms_state (pn_store p)) !! id) → (id < next_id p)%N.
Proof.
  intros (Hok & _)%reachable_ok [r Hr]. exact (ro_issued _ _ _ (so_writes _ Hok _ _ Hr)).
Qed.

Lemma accept_held intent s a s' :
  MemoryStore.accept intent s = (Ok a, s') → is_Some (ws_writes (ms_state s') !! aw_receipt_id a).
Proof.
  intros Hrun.
  assert (Hwp : wp (MemoryStore.accept intent) (λ r s', ∀ a, r = Ok a →
    is_Some (ws_writes (ms_state s') !! aw_receipt_id a)) s).
  { unfold MemoryStore.accept. do 4 op_step ltac:(done).
    destruct (in_payload intent) as [event|edit author|event]; op_step idtac; repeat op_step ltac:(done);
      intros ? [= <-]; simpl; by rewrite lookup_insert_eq. }
  unfold wp in Hwp. rewrite Hrun in Hwp. by apply Hwp.
Qed.

Lemma runs_accept_edit intent n : keeps (accept_edit now event_source evaluator routers intent n).
Proof.
  unfold accept_edit, pub_store_try, or_close. apply rel_bind; [apply _|keeps_store; apply runs_prepare|].
  intros [prepared|error]; [|keeps_store]. cbv zeta. apply rel_bind; [apply _|keeps_store|]. intros accepted p.
  apply runs_bind_at; [done|]. intros q p1 [= <- <-]. cbv zeta.
  apply runs_bind_at; [by apply rel_owning; [apply _|intros; apply runs_streams|apply rel_try; apply _]|].
  intros custody p2. unfold owning, pub_try, pub_call, store_read.
  destruct (applied_edits _ _ _) as [custody'|e] eqn:Hc; [|done]. intros [= -> <-].
  destruct custody as [custody|].
  - apply runs_bind_at; [|intros [] p3 _; by intros capacity]. apply runs_start. intros capacity Hr.
    apply (held_issued capacity _ _ Hr). revert Hc. unfold applied_edits. by destruct (ws_writes _ !! _).
  - everywhere. unfold close_sources, close_streams. keeps_store. by intros ? ?.
Qed.

Lemma runs_owner_accept intent : keeps (publication_accept runtime now event_source evaluator routers intent).
Proof.
  unfold publication_accept, check_runtime. apply rel_bind; [apply _|keeps_store|]. intros _.
  assert (keeps (accepted ← pub_store_try (MemoryStore.accept intent);
                 _ ← start_owned (aw_receipt_id accepted) None; mret accepted)) as Hevent.
  { intros p. apply runs_bind_at; [everywhere; unfold pub_store_try; keeps_store|].
    intros a p' Ha. apply runs_bind_at; [|intros [] p3 _; by intros capacity]. apply runs_start. intros capacity Hr.
    apply (held_issued capacity _ _ Hr). revert Ha. unfold pub_store_try, pub_store, mbind, pub_bind, pub_try, pub_call.
    destruct (MemoryStore.accept intent (pn_store p)) as [[a'|e] s'] eqn:E; [|done]. intros [= <- <-].
    by apply (accept_held intent (pn_store p)). }
  destruct (in_payload intent); [exact Hevent| |exact Hevent].
  unfold pub_store_try. apply rel_bind; [apply _|keeps_store|]. intros n. apply runs_accept_edit.
Qed.

Lemma runs_record_failure receipt source reason : keeps (record_failure receipt source reason).
Proof. unfold record_failure. keeps_store. Qed.

Lemma runs_reapply receipt state : keeps (reapply now evaluator routers receipt state).
Proof.
  unfold reapply, reapply_from. keeps_store; apply runs_record_failure.
Qed.

Lemma runs_route_change receipt revision contribution : keeps (apply_route_change receipt revision contribution).
Proof. unfold apply_route_change, owner_apply_route. keeps_store. Qed.

Lemma runs_reconcile tries id state : keeps (reconcile_loop now evaluator routers tries id state).
Proof.
  revert state. induction tries as [|tries IH]; intros state; cbn [reconcile_loop]; unfold read_or_refuse;
    keeps_store; (apply runs_reapply || apply IH).
Qed.

Lemma runs_open_recovered prepared semantic : keeps (open_recovered event_source prepared semantic).
Proof.
  revert prepared. induction semantic as [|[r c] semantic IH]; intros prepared; cbn [open_recovered];
    keeps_store; (apply runs_open || apply IH).
Qed.

Lemma runs_reconcile_all ids prepared : keeps (reconcile_all now evaluator routers ids prepared).
Proof.
  induction prepared as [|[r st] prepared IH]; cbn [reconcile_all]; unfold reconcile_recovered; keeps_store;
    (apply runs_reconcile || apply IH).
Qed.

Lemma runs_start_all l (p : @Publication signer future) :
  (∀ id, id ∈ l.*1 → (id < next_id p)%N) → runs_store p (start_all l p).2.
Proof.
  revert p. induction l as [|[id st] l IH]; intros p Hl; cbn [start_all]; [by intros capacity|].
  assert (runs_store p (start_owned id st p).2) as Hstart by (apply runs_start; intros _ _; apply Hl; left).
  apply runs_bind_at; [done|]. intros [] p' Heq. rewrite Heq in Hstart. intros capacity Hr Hreg.
  assert (next_id p' = next_id p) as Hn.
  { revert Heq. unfold start_owned, mbind, pub_bind, pub_get, next_id. case_bool_decide; [destruct st|];
      by intros [= <-]. }
  apply IH; [|done|done]. intros j Hj. rewrite Hn. apply Hl. by right.
Qed.

(** The receipts recovery starts from have issued identities. *)
Lemma writes_issued capacity (p : @Publication signer future) r :
  store_reachable capacity (pn_store p) → r ∈ values (ws_writes (ms_state (pn_store p))) →
  (rc_receipt_id r < next_id p)%N.
Proof.
  intros (Hok & _)%reachable_ok (id & Hr)%elem_of_values. pose proof (so_writes _ Hok _ _ Hr) as Hro.
  rewrite (ro_receipt_id _ _ _ Hro). exact (ro_issued _ _ _ Hro).
Qed.

Lemma recovered_issued capacity (p : @Publication signer future) r c :
  store_reachable capacity (pn_store p) → (r, c) ∈ recover_applied_edits (ms_state (pn_store p)) →
  (rc_receipt_id r < next_id p)%N.
Proof.
  intros Hreach. unfold recover_applied_edits. intros ([id cu] & _ & Hin)%list_elem_of_omap.
  destruct (ws_writes _ !! id) as [r'|] eqn:Hr; [|done]. destruct (receipt_is_terminal r'); [done|].
  injection Hin as -> ->. apply (writes_issued capacity); [done|]. apply elem_of_values. by exists id.
Qed.

Lemma open_recovered_ids prepared semantic :
  yields (signer := signer) (future := future) (λ l, l.*1 = prepared.*1 ++ ((λ rc, rc_receipt_id rc.1) <$> semantic))
    (open_recovered event_source prepared semantic).
Proof.
  revert prepared. induction semantic as [|[r c] semantic IH]; intros prepared; cbn [open_recovered].
  - apply yields_ret. by rewrite app_nil_r.
  - eapply yields_bind; [apply yields_any|]. intros o _. cbv zeta.
    intros p. match goal with |- context [open_recovered _ ?l semantic p] => specialize (IH l p) end.
    destruct (open_recovered _ _ _ p) as [[[l|e]|] p']; [|done|done]. by rewrite IH, fmap_app, <- app_assoc.
Qed.

Lemma reconcile_all_ids ids prepared :
  yields (signer := signer) (future := future) (λ l, l.*1 = prepared.*1)
    (reconcile_all now evaluator routers ids prepared).
Proof.
  induction prepared as [|[r st] prepared IH]; cbn [reconcile_all]; [by apply yields_ret|].
  eapply yields_bind; [apply yields_any|]. intros st' _. eapply yields_bind; [apply IH|]. intros l Hl.
  apply yields_ret. cbn. by rewrite Hl.
Qed.

Lemma runs_recover : keeps (recover runtime now event_source evaluator routers).
Proof.
  unfold recover, check_runtime. apply rel_bind; [apply _|keeps_store|]. intros _ p capacity Hr Hreg.
  apply runs_bind_from; [by intros ?|done|done|]. intros p0 p' [= <- <-] _ _ _. cbv zeta.
  apply runs_bind_from; [by intros ?|done|done|]. intros [] p' Heq _ _ _.
  assert (p' = p) as -> by (unfold pub_try, pub_call in Heq; congruence). clear Heq.
  set (semantic := recover_applied_edits (ms_state (pn_store p))).
  apply runs_bind_from; [apply runs_open_recovered|done|done|]. intros prepared p1 H1 Hr1 Hreg1 Hn1.
  apply runs_bind_from; [apply runs_reconcile_all|done|done|]. intros prepared' p2 H2 Hr2 Hreg2 Hn2.
  pose proof (open_recovered_ids [] semantic p) as Hids1. rewrite H1 in Hids1.
  pose proof (reconcile_all_ids (prepared_ids prepared) prepared p1) as Hids2. rewrite H2 in Hids2.
  apply runs_bind_from; [apply runs_start_all|done|done|].
  { intros id. rewrite <- list_fmap_compose. intros ([j st] & -> & Hin)%list_elem_of_fmap. cbn.
    assert (j ∈ prepared'.*1) as Hj by (apply list_elem_of_fmap; by exists (j, st)).
    rewrite Hids2, Hids1 in Hj. cbn in Hj. apply list_elem_of_fmap in Hj as ([r c] & -> & Hrc).
    pose proof (recovered_issued capacity p r c Hr Hrc). cbn. lia. }
  intros [] p3 _ Hr3 Hreg3 Hn3. apply runs_bind_from; [apply runs_start_all|done|done|by intros].
  intros id. rewrite <- list_fmap_compose. intros (r & -> & Hin)%list_elem_of_fmap. cbn.
  apply list_elem_of_In, filter_In in Hin as [Hin _]. apply filter_In in Hin as [Hin%list_elem_of_In _].
  pose proof (writes_issued capacity p r Hr Hin). lia.
Qed.

Lemma runs_start_signing receipt : keeps (start_signing receipt).
Proof. unfold start_signing, signing_call, reject_stale_completion. keeps_store. Qed.

Lemma runs_cancel_signing receipt generation cause : keeps (cancel_authorized_signing receipt generation cause).
Proof. unfold cancel_authorized_signing, signing_call, reject_stale_completion. keeps_store. Qed.

Lemma runs_finish_signing receipt key generation completion :
  keeps (finish_signing receipt key generation completion).
Proof. unfold finish_signing, record_refusal, signing_call, reject_stale_completion. keeps_store. Qed.

Lemma runs_preview intent : keeps (preview_semantic_routes now event_source evaluator routers intent).
Proof.
  unfold preview_semantic_routes, close_sources, close_streams. keeps_store; apply runs_prepare.
Qed.

Lemma runs_owner_cancel id : keeps (publication_cancel id).
Proof.
  unfold publication_cancel, pub_store_try. apply rel_bind; [apply _|keeps_store|]. intros receipt p.
  apply runs_bind_at; [by intros ?|]. intros q p' [= <- <-].
  apply runs_bind_at; [|by intros [] p' _ ?]. destruct (_ && _); [|by intros ?].
  apply runs_fewer; simpl; [done|set_solver].
Qed.

Lemma runs_owner_remove id : keeps (publication_remove_receipt id).
Proof. unfold publication_remove_receipt, pub_store_try. keeps_store. Qed.
End owner_runs.

(** ** Lemmas: reservations *)

(** Operations that keep the reservations [held]. *)
Definition holds (held : gmap N EventCoordinate) {B} (m : Op B) : Prop :=
  ∀ s, ws_reservations (ms_state s) = held → ws_reservations (ms_state (m s).2) = held.

Lemma holds_bind held {B C} (m : Op B) (f : B → Op C) : holds held m → (∀ b, holds held (f b)) → holds held (m ≫= f).
Proof.
  intros Hm Hf s Hs. specialize (Hm s Hs). unfold mbind, op_bind, mbind, stateM_bind in *.
  destruct (m s) as [[b|e] s']; [by apply Hf|done].
Qed.

Lemma holds_lock held {B} (f : WriteState → Op B) :
  (∀ st, ws_reservations st = held → holds held (f st)) → holds held (lock_state ≫= f).
Proof. intros Hf s Hs. exact (Hf _ Hs s Hs). Qed.

Lemma holds_ret held {B} (b : B) : holds held (mret b).
Proof. by intros s Hs. Qed.
Lemma holds_try held {B} (r : result WriteStoreError B) : holds held (try_ r).
Proof. by intros s Hs. Qed.
Lemma holds_capacity held : holds held get_capacity.
Proof. by intros s Hs. Qed.
Lemma holds_put held st : ws_reservations st = held → holds held (put_state st).
Proof. by intros Hst s Hs. Qed.
Lemma holds_publish held st : holds held (publish_snapshot st).
Proof. by intros s Hs. Qed.
Lemma holds_change held id r : holds held (publish_change id r).
Proof. by intros s Hs. Qed.
Lemma holds_commit held st r : ws_reservations st = held → holds held (commit_state st r).
Proof. by intros Hst s Hs. Qed.

Lemma release_semantic_reservations id st : ws_reservations (release_semantic id st) = ws_reservations st.
Proof. unfold release_semantic. repeat case_match; done. Qed.

Ltac holds_step :=
  match goal with
  | |- holds _ (mbind _ lock_state) => apply holds_lock; intros ? ?
  | |- holds _ (mbind _ _) => apply holds_bind; [|intros ?]
  | |- holds _ (mret _) => apply holds_ret
  | |- holds _ (try_ _) => apply holds_try
  | |- holds _ (refuse _) => apply holds_try
  | |- holds _ (require _ _) => apply holds_try
  | |- holds _ (or_refuse _ _) => apply holds_try
  | |- holds _ (or_invalid_event _) => apply holds_try
  | |- holds _ get_capacity => apply holds_capacity
  | |- holds _ (put_state _) => apply holds_put
  | |- holds _ (publish_snapshot _) => apply holds_publish
  | |- holds _ (publish_change _ _) => apply holds_change
  | |- holds _ (publish_receipt_only _) => apply holds_change
  | |- holds _ (commit_state _ _) => apply holds_commit
  | |- holds _ (match ?x with _ => _ end) => destruct x
  | |- ws_reservations (if ?b then _ else _) = _ => destruct b
  | |- ws_reservations _ = _ => progress (simpl; rewrite ?release_semantic_reservations; simpl)
  | |- ws_reservations _ = _ => done
  end.
Ltac holding := cbv zeta; repeat (holds_step || (progress cbv beta zeta)); try done.

Section holding.
Context `{Nostr} (held : gmap N EventCoordinate).

Lemma accept_holds intent : holds held (MemoryStore.accept intent).
Proof. unfold MemoryStore.accept. holding. Qed.
Lemma compose_holds id edit author routing event source route :
  holds held (compose_semantic id edit author routing event source route).
Proof. unfold compose_semantic. holding. Qed.
Lemma accept_validated_holds now reserved edit author routing access event source route :
  holds held (accept_validated now reserved edit author routing access event source route).
Proof. unfold accept_validated. holding. apply compose_holds. Qed.
Lemma install_semantic_holds now w r rev src edits event source route :
  holds held (install_semantic now w r rev src edits event source route).
Proof. unfold install_semantic. holding. Qed.
Lemma record_failure_holds w r rev src source reason :
  holds held (record_semantic_failure w r rev src source reason).
Proof. unfold record_semantic_failure. holding. Qed.
Lemma promote_holds id : holds held (promote_authorized_successor id).
Proof. unfold promote_authorized_successor. holding. Qed.
Lemma install_signed_holds w r rev ev e : holds held (install_signed w r rev ev e).
Proof. unfold install_signed. holding. apply promote_holds. Qed.
Lemma authorize_holds w r rev ev : holds held (authorize_signing w r rev ev).
Proof. unfold authorize_signing, commit_signature. holding. Qed.
Lemma retryable_holds w r rev ev reason : holds held (record_signer_retryable w r rev ev reason).
Proof. unfold record_signer_retryable, commit_signature. holding. apply promote_holds. Qed.
Lemma refusal_holds w r rev ev reason : holds held (record_signer_refusal w r rev ev reason).
Proof. unfold record_signer_refusal, commit_signature. holding. apply promote_holds. Qed.
Lemma apply_route_holds w r rev ev plan : holds held (apply_route w r rev ev plan).
Proof. unfold apply_route. holding. Qed.
Lemma cancel_holds r : holds held (MemoryStore.cancel r).
Proof. unfold MemoryStore.cancel. holding. Qed.
Lemma remove_holds r : holds held (remove_receipt r).
Proof. unfold remove_receipt. holding. Qed.
End holding.

#[export] Hint Resolve accept_holds install_semantic_holds record_failure_holds install_signed_holds authorize_holds
  retryable_holds refusal_holds apply_route_holds cancel_holds remove_holds : owner.

(** ** Lemmas: what a call holds *)

Definition source_ids (o : OpenedSemanticSources) : list N := [os_cache o; os_writes o].

Section triples.
Context {signer future : Type}.
Abbreviation Pub := (@Publication signer future).
Abbreviation Prog := (@PubOp signer future).

Definition task_ids (t : @PublicationTask future) : list N :=
  match t with RunOwner _ (Some state) => source_ids (se_sources state) | _ => [] end.

(** The store holds the reservations [held]; the open streams are those of the
    running owners and the streams [mine] of the call in progress. *)
Record owned (held : gmap N EventCoordinate) (mine : list N) (p : Pub) : Prop := {
  od_reservations : ws_reservations (ms_state (pn_store p)) = held;
  od_streams : pn_streams p = list_to_set (mine ++ (pn_tasks p ≫= task_ids));
  od_distinct : NoDup (mine ++ (pn_tasks p ≫= task_ids));
  od_issued : ∀ n, n ∈ mine ++ (pn_tasks p ≫= task_ids) → (n < pn_next_stream p)%N;
  od_stale : length (pn_stale p) ≤ STALE_COMPLETION_CAPACITY
}.

(** From [P], a call that succeeds ends in [Q], one that fails in [E] and one
    that panics in [X]. *)
Definition triple {B} (P : Pub → Prop) (m : Prog B) (Q : B → Pub → Prop) (E X : Pub → Prop) : Prop :=
  ∀ p, P p → match m p with
             | (Returned (Ok b), p') => Q b p'
             | (Returned (Err _), p') => E p'
             | (Panicked, p') => X p'
             end.

Lemma tr_bind {B C} P (m : Prog B) (f : B → Prog C) R Q E X :
  triple P m R E X → (∀ b, triple (R b) (f b) Q E X) → triple P (m ≫= f) Q E X.
Proof.
  intros Hm Hf p Hp. specialize (Hm p Hp). unfold mbind, pub_bind. destruct (m p) as [[[b|e]|] p']; [|done|done].
  by apply Hf.
Qed.

Lemma tr_ret {B} (P : Pub → Prop) (b : B) E X : triple P (mret b) (λ b' p, b' = b ∧ P p) E X.
Proof. by intros p Hp. Qed.
Lemma tr_get (P : Pub → Prop) E X : triple P pub_get (λ _, P) E X.
Proof. by intros p Hp. Qed.
Lemma tr_try {B} P (r : result PublicationError B) X : triple P (pub_try r) (λ b p, r = Ok b ∧ P p) P X.
Proof. intros p Hp. by destruct r. Qed.
Lemma tr_call {B} P (o : outcome (result PublicationError B)) : triple P (pub_call o) (λ b p, o = Returned (Ok b) ∧ P p) P P.
Proof. intros p Hp. by destruct o as [[]|]. Qed.
Lemma tr_put P f (Q E X : Pub → Prop) : (∀ p, P p → Q (f p)) → triple P (pub_put f) (λ _, Q) E X.
Proof. intros Hf p Hp. by apply Hf. Qed.
Lemma tr_result {B} P (m : Prog B) Q E X E' :
  triple P m Q E X → triple P (pub_result m) (λ r p, match r with Ok b => Q b p | Err _ => E p end) E' X.
Proof. intros Hm p Hp. specialize (Hm p Hp). unfold pub_result. by destruct (m p) as [[[]|]]. Qed.
Lemma tr_conseq {B} (P P' : Pub → Prop) (m : Prog B) (Q Q' : B → Pub → Prop) (E E' X X' : Pub → Prop) :
  triple P m Q E X → (∀ p, P' p → P p) → (∀ b p, Q b p → Q' b p) → (∀ p, E p → E' p) → (∀ p, X p → X' p) →
  triple P' m Q' E' X'.
Proof.
  intros Hm HP HQ HE HX p Hp. specialize (Hm p (HP p Hp)). destruct (m p) as [[[b|e]|] p']; auto.
Qed.
Lemma tr_pure {B} (φ : Prop) (P : Pub → Prop) (m : Prog B) Q E X :
  (φ → triple P m Q E X) → triple (λ p, φ ∧ P p) m Q E X.
Proof. intros Hm p [Hφ Hp]. by apply Hm. Qed.

Lemma tr_store {B} held mine (op : Op B) E X :
  holds held op → triple (owned held mine) (pub_store op) (λ _, owned held mine) E X.
Proof.
  intros Hop p [Hr Hs Hd Hi Hst]. unfold pub_store. specialize (Hop _ Hr). destruct (op (pn_store p)) as [r s'].
  by split.
Qed.

Lemma tr_store_try {B} held mine (op : Op B) X :
  holds held op → triple (owned held mine) (pub_store_try op) (λ _, owned held mine) (owned held mine) X.
Proof.
  intros Hop. eapply tr_bind; [by apply tr_store|]. intros r.
  eapply tr_conseq; [apply tr_try|done|by intros ? ? [? ?]|done|done].
Qed.

Lemma owned_close held l mine p : owned held (l ++ mine) p →
  owned held mine (pn_set_streams (pn_streams p ∖ list_to_set l) (pn_next_stream p) p).
Proof.
  intros [Hr Hs Hd Hi Hst]. rewrite <- app_assoc in *. apply NoDup_app in Hd as (_ & Hdis & Hd). split; simpl; [done| |done| |done].
  - rewrite Hs, list_to_set_app_L. apply leibniz_equiv. set_solver.
  - intros n Hn. apply Hi, elem_of_app. by right.
Qed.

Lemma tr_close held l mine ids E X :
  ids = list_to_set l → triple (owned held (l ++ mine)) (close_streams ids) (λ _, owned held mine) E X.
Proof. intros -> p Hp. by apply owned_close. Qed.

Lemma tr_owning {B} P held held' l mine ids (m : Prog B) Q :
  ids = list_to_set l →
  triple P m Q (owned held (l ++ mine)) (owned held' (l ++ mine)) →
  triple P (owning ids m) Q (owned held mine) (owned held' mine).
Proof.
  intros -> Hm p Hp. specialize (Hm p Hp). unfold owning.
  destruct (m p) as [[[b|e]|] p']; [done|by apply owned_close..].
Qed.

Lemma tr_open_stream held mine E X :
  triple (owned held mine) open_stream (λ n, owned held (n :: mine)) E X.
Proof.
  intros p [Hr Hs Hd Hi Hst]. unfold open_stream, mbind, pub_bind, pub_get, pub_put, mret, pub_ret.
  split; simpl; [done|by rewrite Hs| | |done].
  - apply NoDup_cons. split; [|done]. intros Hin%Hi. lia.
  - intros n [->|Hn%Hi]%elem_of_cons; lia.
Qed.

Lemma tr_reject held mine receipt reason E X :
  triple (owned held mine) (reject_stale_completion receipt reason) (λ _, owned held mine) E X.
Proof.
  intros p [Hr Hs Hd Hi Hst]. split; simpl; [done..|]. rewrite length_app. simpl.
  case_bool_decide as Hfull; [|unfold STALE_COMPLETION_CAPACITY in *; lia].
  destruct (pn_stale p); simpl in *; unfold STALE_COMPLETION_CAPACITY in *; lia.
Qed.
End triples.

Section calm.
Context {signer future : Type}.
Abbreviation Pub := (@Publication signer future).
Abbreviation Prog := (@PubOp signer future).

(** Calls that take and release nothing. *)
Definition calm {B} (m : Prog B) : Prop :=
  ∀ held mine, triple (owned held mine) m (λ _, owned held mine) (owned held mine) (owned held mine).

Lemma calm_bind {B C} (m : Prog B) (f : B → Prog C) : calm m → (∀ b, calm (f b)) → calm (m ≫= f).
Proof. intros Hm Hf held mine. eapply tr_bind; [apply Hm|]. intros b. apply Hf. Qed.
Lemma calm_ret {B} (b : B) : calm (mret b).
Proof. by intros held mine p. Qed.
Lemma calm_get : calm pub_get.
Proof. by intros held mine p. Qed.
Lemma calm_call {B} (o : outcome (result PublicationError B)) : calm (pub_call o).
Proof. intros held mine p Hp. by destruct o as [[]|]. Qed.
Lemma calm_result {B} (m : Prog B) : calm m → calm (pub_result m).
Proof.
  intros Hm held mine. eapply tr_conseq; [apply tr_result, Hm|done| |done|done]. by intros [].
Qed.
Lemma calm_store {B} (op : Op B) : (∀ held, holds held op) → calm (pub_store op).
Proof. intros Hop held mine. by apply tr_store. Qed.
Lemma calm_reject receipt reason : calm (reject_stale_completion receipt reason).
Proof. intros held mine. apply tr_reject. Qed.
Lemma calm_await receipt key generation (f : future) :
  calm (pub_put (λ p, pn_set_owners (pn_cancellations p)
          (pn_tasks p ++ [AwaitSignature receipt key generation f]) p)).
Proof.
  intros held mine p [Hr Hs Hd Hi Hst].
  assert (Heq : (pn_tasks p ++ [AwaitSignature receipt key generation f]) ≫= task_ids = pn_tasks p ≫= task_ids)
    by (rewrite bind_app; cbn; by rewrite app_nil_r).
  split; simpl; rewrite ?Heq; done.
Qed.
Lemma calm_cancelled owners cancelled : calm (pub_put (pn_set_cancelled owners cancelled)).
Proof. intros held mine p [Hr Hs Hd Hi Hst]. by split. Qed.
Lemma calm_finished id : calm (finished id).
Proof. intros held mine p [Hr Hs Hd Hi Hst]. by split. Qed.
End calm.

Ltac calm_step :=
  match goal with
  | |- calm (mbind _ _) => apply calm_bind; [|intros ?]
  | |- calm (mret _) => apply calm_ret
  | |- calm pub_get => apply calm_get
  | |- calm (pub_try _) => apply calm_call
  | |- calm (pub_call _) => apply calm_call
  | |- calm (pub_result _) => apply calm_result
  | |- calm (reject_stale_completion _ _) => apply calm_reject
  | |- calm (pub_put (pn_set_cancelled _ _)) => apply calm_cancelled
  | |- calm (pub_put (λ p, pn_set_owners _ _ p)) => apply calm_await
  | |- calm (pub_store _) => apply calm_store; intros ?; solve [eauto with owner]
  | |- calm (match ?x with _ => _ end) => destruct x
  end.
Ltac calming := repeat (calm_step || (progress cbv beta zeta)).

Section calm_calls.
Context {signer future A : Type} `{Nostr} `{!Signer signer future}.
Context (now : Timestamp) (evaluator : Query → list SourceSnapshot → result string QuerySnapshot).
Context (routers : list (Router A)).
Abbreviation quiet m := (calm (signer := signer) (future := future) m).

Lemma calm_record_failure receipt source reason : quiet (record_failure receipt source reason).
Proof. unfold record_failure. calming. Qed.
Lemma calm_reapply receipt state : quiet (reapply now evaluator routers receipt state).
Proof. unfold reapply, reapply_from. calming; apply calm_record_failure. Qed.
Lemma calm_route_change receipt revision contribution : quiet (apply_route_change receipt revision contribution).
Proof. unfold apply_route_change, owner_apply_route. calming. Qed.
Lemma calm_reconcile tries id state : quiet (reconcile_loop now evaluator routers tries id state).
Proof.
  revert state. induction tries as [|tries IH]; intros state; cbn [reconcile_loop]; unfold read_or_refuse;
    calming; (apply calm_reapply || apply IH).
Qed.
Lemma calm_start_signing receipt : quiet (start_signing receipt).
Proof. unfold start_signing, signing_call. calming. Qed.
Lemma calm_cancel_signing receipt generation cause : quiet (cancel_authorized_signing receipt generation cause).
Proof. unfold cancel_authorized_signing, signing_call. calming. Qed.
Lemma calm_finish_signing receipt key generation completion :
  quiet (finish_signing receipt key generation completion).
Proof. unfold finish_signing, record_refusal, signing_call. calming. Qed.
Lemma calm_owner_cancel id : quiet (publication_cancel id).
Proof. unfold publication_cancel, pub_store_try. calming. Qed.
Lemma calm_remove id : quiet (publication_remove_receipt id).
Proof. unfold publication_remove_receipt, pub_store_try. calming. Qed.
End calm_calls.

(** ** Lemmas: calls that take reservations and streams *)

Section reservations.
Context `{Nostr}.

Lemma reserve_adds edit author held s :
  ws_reservations (ms_state s) = held → (∀ n, is_Some (held !! n) → (n < ws_next_reservation (ms_state s))%N) →
  match reserve_active edit author s with
  | (Ok n, s') => held !! n = None ∧ ws_reservations (ms_state s') = <[n := edit_coordinate edit author]> held
  | (Err _, s') => ws_reservations (ms_state s') = held
  end.
Proof.
  intros Hs Hn. unfold reserve_active, mbind, op_bind, mbind, stateM_bind, lock_state, get_capacity, require, try_,
    or_refuse, put_state, mret, op_ret, mret, stateM_ret, try_.
  repeat (destruct (ensure _ _) as [[]|]; simpl; [|done]). destruct (ok_or _ _); simpl; [|done]. rewrite Hs.
  split; [|done]. destruct (held !! ws_next_reservation (ms_state s)) eqn:E; [|done].
  pose proof (Hn _ (mk_is_Some _ _ E)). lia.
Qed.

Lemma reserve_taken edit author n s :
  ws_reservations (ms_state s) !! n = Some (edit_coordinate edit author) →
  reserve_active edit author s =
  (Err (StoreRefused "replaceable coordinate already has an active reservation"), s).
Proof.
  intros Hs. unfold reserve_active, mbind, op_bind, mbind, stateM_bind, lock_state, get_capacity, require, try_. cbn.
  replace (existsb _ _) with true; [done|]. symmetry. apply existsb_exists.
  exists (edit_coordinate edit author). split; [|by apply bool_decide_eq_true].
  apply list_elem_of_In, elem_of_values. by exists n.
Qed.

Lemma release_held n c held s :
  held !! n = None → ws_reservations (ms_state s) = <[n := c]> held →
  (release_active n s).1 = Ok tt ∧ ws_reservations (ms_state (release_active n s).2) = held.
Proof.
  intros Hn Hs. unfold release_active, mbind, op_bind, mbind, stateM_bind, lock_state, or_refuse, try_, put_state. cbn.
  rewrite Hs, lookup_insert_eq. cbn. unfold publish_receipt_only, publish_change, mret, op_ret, mret, stateM_ret.
  case_match; cbn; by rewrite delete_insert_id.
Qed.

Lemma accept_reserved_held now n intent edit author event source route held s :
  in_payload intent = PayloadEdit edit author →
  held !! n = None → ws_reservations (ms_state s) = <[n := edit_coordinate edit author]> held →
  ws_reservations (ms_state (accept_reserved_applied_edit now n intent event source route s).2) = held.
Proof.
  intros Hp Hn Hs. unfold accept_reserved_applied_edit, accept_semantic_inner. rewrite Hp.
  unfold consume_reservation, mbind, op_bind, mbind, stateM_bind, lock_state, or_refuse, require, try_, put_state,
    mret, op_ret, mret, stateM_ret. cbn.
  rewrite Hs, lookup_insert_eq. cbn. rewrite bool_decide_eq_true_2 by done. cbn.
  apply accept_validated_holds. cbn. by rewrite delete_insert_id.
Qed.
End reservations.

Section taking.
Context {signer future A : Type} `{Nostr} `{!Signer signer future}.
Context (runtime : bool) (now : Timestamp).
Context (event_source : Query → result string SourceSnapshot).
Context (evaluator : Query → list SourceSnapshot → result string QuerySnapshot).
Context (routers : list (Router A)).
Abbreviation triple := (triple (signer := signer) (future := future)).
Abbreviation owned := (owned (signer := signer) (future := future)).

Lemma owned_perm held mine mine' p : mine ≡ₚ mine' → owned held mine p → owned held mine' p.
Proof.
  intros Hp [Hr Hs Hd Hi Hst]. split; [done| | | |done].
  - rewrite Hs. apply leibniz_equiv. by rewrite Hp.
  - by rewrite <- Hp.
  - intros n. rewrite <- Hp. apply Hi.
Qed.

Lemma tr_open edit author held mine X :
  triple (owned held mine) (open_semantic_sources event_source edit author)
    (λ o, owned held (source_ids o ++ mine)) (owned held mine) X.
Proof.
  unfold open_semantic_sources. eapply tr_bind; [apply tr_try|]. intros cache. apply tr_pure. intros _.
  eapply tr_bind; [apply tr_open_stream|]. intros n0. eapply tr_bind; [apply tr_get|]. intros p0.
  unfold store_open. eapply tr_bind; [apply tr_open_stream|]. intros n1.
  eapply tr_conseq; [apply tr_ret|done| |done|done]. intros o p [-> Hp].
  eapply owned_perm; [|done]. cbn. apply perm_swap.
Qed.

Lemma tr_or_close {B} P held held' mine o (m : PubOp B) Q :
  triple P m Q (owned held (source_ids o ++ mine)) (owned held' (source_ids o ++ mine)) →
  triple P (or_close o m) Q (owned held mine) (owned held' mine).
Proof. apply tr_owning. unfold stream_ids, source_ids. cbn. apply leibniz_equiv. set_solver. Qed.

Lemma calm_apply_and_route intent source current :
  calm (signer := signer) (future := future) (apply_and_route now routers intent source current).
Proof. unfold apply_and_route. calming. Qed.

Lemma tr_prepare intent current held mine :
  triple (owned held mine) (prepare_semantic now event_source evaluator routers intent current)
    (λ prepared, owned held (source_ids (pp_sources prepared) ++ mine)) (owned held mine) (owned held mine).
Proof.
  unfold prepare_semantic. eapply tr_bind; [apply tr_try|]. intros [edit author]. apply tr_pure. intros _.
  eapply tr_bind; [apply tr_get|]. intros p0.
  eapply tr_bind; [apply tr_try|]. intros ap. apply tr_pure. intros _.
  eapply tr_bind; [apply tr_open|]. intros o.
  eapply tr_bind; [apply tr_or_close, tr_try|]. intros source. apply tr_pure. intros _.
  eapply tr_bind; [apply tr_or_close, calm_apply_and_route|]. intros [event route].
  eapply tr_conseq; [apply tr_ret|done| |done|done]. by intros prepared p [-> Hp].
Qed.

Lemma tr_start id semantic held mine E X :
  triple (owned held (match semantic with Some st => source_ids (se_sources st) | None => [] end ++ mine))
    (start_owned id semantic) (λ _, owned held mine) E X.
Proof.
  intros p Hp. unfold start_owned, mbind, pub_bind, pub_get. case_bool_decide.
  - destruct semantic as [st|]; cbn; [|done].
    apply (tr_close held (source_ids (se_sources st)) mine (stream_ids (se_sources st)) (λ _, True) (λ _, True)); [|done].
    unfold stream_ids, source_ids. cbn. apply leibniz_equiv. set_solver.
  - destruct Hp as [Hr Hs Hd Hi Hst]. unfold pub_put.
    assert (Heq : mine ++ ((pn_tasks p ++ [RunOwner id semantic]) ≫= task_ids) ≡ₚ
      (match semantic with Some st => source_ids (se_sources st) | None => [] end ++ mine) ++ (pn_tasks p ≫= task_ids)).
    { rewrite bind_app. cbn. rewrite app_nil_r, <- app_assoc. rewrite (Permutation_app_comm (pn_tasks p ≫= task_ids)).
      rewrite !app_assoc. f_equiv. apply Permutation_app_comm. }
    split; cbn; [done| | | |done].
    + rewrite Hs. apply leibniz_equiv. by rewrite Heq.
    + by rewrite Heq.
    + intros n. rewrite Heq. apply Hi.
Qed.

(** A store call that changes the reservations. *)
Lemma tr_store_to {B} held held' mine (op : Op B) (φ : result WriteStoreError B → Prop) E X :
  (∀ s, ws_reservations (ms_state s) = held → φ (op s).1 ∧ ws_reservations (ms_state (op s).2) = held') →
  triple (owned held mine) (pub_store op) (λ r p, φ r ∧ owned held' mine p) E X.
Proof.
  intros Hop p [Hr Hs Hd Hi Hst]. unfold pub_store. destruct (Hop _ Hr) as [Hφ Hres].
  destruct (op (pn_store p)) as [r s']. split; [done|]. by split.
Qed.

Lemma tr_close_sources held o mine E X :
  triple (owned held (source_ids o ++ mine)) (close_sources o) (λ _, owned held mine) E X.
Proof. apply tr_close. unfold stream_ids, source_ids. cbn. apply leibniz_equiv. set_solver. Qed.

Lemma tr_accept_edit intent edit author n held mine :
  in_payload intent = PayloadEdit edit author → held !! n = None →
  triple (owned (<[n := edit_coordinate edit author]> held) mine)
    (accept_edit now event_source evaluator routers intent n)
    (λ _, owned held mine) (owned held mine) (owned (<[n := edit_coordinate edit author]> held) mine).
Proof.
  intros Hp Hn. unfold accept_edit. eapply tr_bind; [eapply tr_result, tr_prepare|]. intros [prepared|error].
  2: { eapply tr_bind.
       - apply (tr_store_to _ held _ _ (λ r, r = Ok tt)). intros s Hs. by eapply release_held.
       - intros r. apply tr_pure. intros ->. by intros p. }
  cbv zeta. eapply tr_bind.
  { apply (tr_or_close _ _ _ _ _ _ (λ _, owned held (source_ids (pp_sources prepared) ++ mine))).
    eapply tr_bind; [apply (tr_store_to _ held _ _ (λ _, True))|].
    - intros s Hs. split; [done|]. by eapply accept_reserved_held.
    - intros r. apply tr_pure. intros _. eapply tr_conseq; [apply tr_try|done|by intros ? ? [_ ?]|done|done]. }
  intros accepted. eapply tr_bind; [apply tr_get|]. intros p0. cbv zeta.
  eapply tr_bind; [apply tr_or_close, tr_try|]. intros custody. apply tr_pure. intros _.
  destruct custody as [custody|].
  - eapply tr_bind.
    { apply (tr_start _ (Some (semantic_recovered custody (pub_revision_id (lw_publication (aw_current accepted)))
                                 (pp_sources prepared)))). }
    intros []. eapply tr_conseq; [apply tr_ret|done|by intros ? ? [_ ?]|done|done].
  - eapply tr_bind; [apply tr_close_sources|]. intros []. case_match; by intros p.
Qed.

(** Reservations are numbered below the next one. *)
Definition reservations_issued (p : @Publication signer future) : Prop :=
  ∀ n, is_Some (ws_reservations (ms_state (pn_store p)) !! n) → (n < ws_next_reservation (ms_state (pn_store p)))%N.

Lemma tr_reserve edit author held X :
  triple (λ p, reservations_issued p ∧ owned held [] p) (pub_store_try (reserve_active edit author))
    (λ n p, held !! n = None ∧ owned (<[n := edit_coordinate edit author]> held) [] p) (owned held []) X.
Proof.
  intros p [Hi Hp]. unfold pub_store_try, mbind, pub_bind, pub_store, pub_try, pub_call.
  pose proof (od_reservations _ _ _ Hp) as Hr. unfold reservations_issued in Hi. rewrite Hr in Hi.
  pose proof (reserve_adds edit author held _ Hr Hi) as Hres.
  destruct (reserve_active edit author (pn_store p)) as [[n|e] s']; destruct Hp; [|by split].
  destruct Hres as [Hn Hres]. split; [done|]. by split.
Qed.

(** What a panic of [accept] has left taken. *)
Definition stranded_by (intent : WriteIntent) (held : gmap N EventCoordinate) (p : @Publication signer future) : Prop :=
  ∃ edit author n, in_payload intent = PayloadEdit edit author ∧ held !! n = None ∧
    owned (<[n := edit_coordinate edit author]> held) [] p.

Lemma tr_accept intent held :
  triple (λ p, reservations_issued p ∧ owned held [] p)
    (publication_accept runtime now event_source evaluator routers intent)
    (λ _, owned held []) (owned held []) (stranded_by intent held).
Proof.
  unfold publication_accept, check_runtime. destruct runtime; [|by intros p [_ Hp]].
  destruct (in_payload intent) as [event|edit author|event] eqn:Hp.
  2: { apply (tr_bind _ _ _ (λ _ p, reservations_issued p ∧ owned held [] p)); [by intros p|]. intros [].
       eapply tr_bind; [apply tr_reserve|]. intros n. apply tr_pure. intros Hn.
       eapply tr_conseq; [by apply tr_accept_edit|done|done|done|]. intros p Ho. by exists edit, author, n. }
  all: apply (tr_conseq (owned held []) _ _ (λ _, owned held []) _ (owned held []) _ (λ _, False));
    [|by intros p [_ ?]|done|done|done];
    (apply (tr_bind _ _ _ (λ _, owned held [])); [by intros p|]); intros [];
    (eapply tr_bind; [by apply tr_store_try, accept_holds|]); intros accepted;
    (eapply tr_bind; [apply (tr_start _ None)|]; intros []; by intros p).
Qed.

Lemma tr_preview intent held :
  triple (owned held []) (preview_semantic_routes now event_source evaluator routers intent)
    (λ _, owned held []) (owned held []) (owned held []).
Proof.
  unfold preview_semantic_routes. eapply tr_bind; [apply tr_prepare|]. intros prepared.
  eapply tr_bind; [apply tr_close_sources|]. intros []. by intros p.
Qed.
End taking.

(** ** Lemmas: recovery *)

Section recovery.
Context {signer future A : Type} `{Nostr} `{!Signer signer future}.
Context (runtime : bool) (now : Timestamp).
Context (event_source : Query → result string SourceSnapshot).
Context (evaluator : Query → list SourceSnapshot → result string QuerySnapshot).
Context (routers : list (Router A)).
Abbreviation Prog := (@PubOp signer future).
Abbreviation triple := (triple (signer := signer) (future := future)).
Abbreviation owned := (owned (signer := signer) (future := future)).

Abbreviation yields := (yields (signer := signer) (future := future)).

Lemma tr_yields {B} P (m : Prog B) Q E X φ :
  triple P m Q E X → yields φ m → triple P m (λ b p, φ b ∧ Q b p) E X.
Proof. intros Hm Hy p Hp. specialize (Hm p Hp). specialize (Hy p). destruct (m p) as [[[]|]]; auto. Qed.

Abbreviation same_sources st := (λ st' : SemanticState, se_sources st' = se_sources st).

Lemma reapply_sources receipt st : yields (same_sources st) (reapply now evaluator routers receipt st).
Proof.
  unfold reapply. destruct (semantic_successor _ _ _) as [[[] successor]|]; [|by apply yields_ret..].
  unfold reapply_from. eapply yields_bind; [apply yields_any|]. intros p0 _.
  eapply yields_bind; [apply yields_any|]. intros [[event route]|error] _.
  - case_match; [|by apply yields_ret]. eapply yields_bind; [apply yields_any|]. intros [installed|error] _;
      [by apply yields_ret|]. eapply yields_bind; [apply yields_any|]. intros _ _. by apply yields_ret.
  - eapply yields_bind; [apply yields_any|]. intros _ _. by apply yields_ret.
Qed.

Lemma refreshed_sources (p : @Publication signer future) receipt st st' :
  refresh_recovered_custody p receipt st = Ok st' → se_sources st' = se_sources st.
Proof.
  unfold refresh_recovered_custody. intros (custody & _ & Hc)%bind_Ok. destruct custody as [custody|]; [|done].
  apply bind_Ok in Hc as ([] & _ & [= <-]). by case_match.
Qed.

Lemma reconcile_sources tries id st : yields (same_sources st) (reconcile_loop now evaluator routers tries id st).
Proof.
  revert st. induction tries as [|tries IH]; intros st; cbn [reconcile_loop]; [by apply yields_try|].
  eapply yields_bind; [apply yields_any|]. intros receipt _. case_match; [by apply yields_ret|].
  eapply yields_bind; [apply yields_any|]. intros p0 _.
  destruct (refresh_recovered_custody p0 receipt st) as [st'|error] eqn:Hr.
  - apply refreshed_sources in Hr. eapply yields_bind; [apply yields_any|]. intros current _.
    case_bool_decide; [|by rewrite <- Hr; apply IH].
    eapply yields_bind; [apply reapply_sources|]. intros st'' Hst''.
    eapply yields_bind; [apply yields_any|]. intros applied _. rewrite <- Hr, <- Hst''.
    case_bool_decide; [by apply yields_ret|apply IH].
  - eapply yields_bind; [apply yields_any|]. intros current _. case_bool_decide; [by apply yields_try|apply IH].
Qed.

Definition prepared_list (prepared : list (ReceiptId * SemanticState)) : list N :=
  prepared ≫= λ '(_, state), source_ids (se_sources state).

Lemma prepared_ids_list prepared : prepared_ids prepared = list_to_set (prepared_list prepared).
Proof.
  unfold prepared_ids, prepared_list. induction prepared as [|[id st] prepared IH]; [done|].
  cbn. rewrite IH. unfold stream_ids. apply leibniz_equiv. set_solver.
Qed.

Lemma tr_open_recovered held mine semantic prepared :
  triple (owned held (prepared_list prepared ++ mine)) (open_recovered event_source prepared semantic)
    (λ prepared', owned held (prepared_list prepared' ++ mine)) (owned held mine) (owned held mine).
Proof.
  revert prepared. induction semantic as [|[receipt custody] semantic IH]; intros prepared; cbn [open_recovered].
  { by intros p. }
  eapply tr_bind.
  - apply (tr_owning _ _ _ _ _ _ _ (λ o, owned held (source_ids o ++ prepared_list prepared ++ mine))
      (prepared_ids_list prepared)).
    eapply tr_bind; [apply tr_try|]. intros edit. apply tr_pure. intros _. apply tr_open.
  - intros o. cbv zeta. eapply tr_conseq; [apply IH| |done|done|done]. intros p.
    apply owned_perm. unfold prepared_list. rewrite bind_app. cbn. rewrite <- app_assoc. cbn.
    by rewrite <- !Permutation_middle.
Qed.

Lemma tr_reconcile_all held mine all prepared :
  triple (owned held (prepared_list all ++ mine)) (reconcile_all now evaluator routers (prepared_ids all) prepared)
    (λ prepared', λ p, prepared_list prepared' = prepared_list prepared ∧ owned held (prepared_list all ++ mine) p)
    (owned held mine) (owned held mine).
Proof.
  induction prepared as [|[id st] prepared IH]; cbn [reconcile_all]; [by intros p|].
  eapply tr_bind.
  - apply (tr_owning _ _ _ _ _ _ _ _ (prepared_ids_list all)).
    eapply tr_yields; [apply calm_reconcile|apply reconcile_sources].
  - intros st'. apply tr_pure. intros Hst'. eapply tr_bind; [apply IH|]. intros rest. apply tr_pure. intros Hrest.
    intros p Hp. split; [|done]. unfold prepared_list in *. cbn. by rewrite Hst', Hrest.
Qed.

Lemma tr_start_all held mine (l : list (ReceiptId * option SemanticState)) E X :
  triple (owned held ((l ≫= λ '(_, st), match st with Some st => source_ids (se_sources st) | None => [] end) ++ mine))
    (start_all l) (λ _, owned held mine) E X.
Proof.
  induction l as [|[id st] l IH]; cbn [start_all]; [by intros p|]. cbn [mbind list_bind]. rewrite <- app_assoc.
  eapply tr_bind; [apply tr_start|]. intros []. apply IH.
Qed.

Lemma tr_recover held :
  triple (owned held []) (recover runtime now event_source evaluator routers)
    (λ _, owned held []) (owned held []) (owned held []).
Proof.
  unfold recover, check_runtime. eapply tr_bind; [apply tr_try|]. intros []. apply tr_pure. intros _.
  eapply tr_bind; [apply tr_get|]. intros p0. cbv zeta. eapply tr_bind; [apply tr_try|]. intros []. apply tr_pure. intros _.
  eapply tr_bind; [apply (tr_open_recovered held [] _ [])|]. intros prepared.
  eapply tr_bind; [apply (tr_reconcile_all held [])|]. intros prepared'. apply tr_pure. intros Heq.
  rewrite <- Heq. eapply tr_bind.
  - eapply tr_conseq; [apply (tr_start_all held [])| |done|done|done]. intros p. apply owned_perm.
    unfold prepared_list. rewrite !app_nil_r. clear. induction prepared' as [|[id st] l IH]; cbn; [done|].
    by rewrite IH.
  - intros []. apply (tr_bind _ _ _ (λ _, owned held [])); [|intros []; by intros p].
    eapply tr_conseq; [apply (tr_start_all held [])| |done|done|done].
    intros p. apply owned_perm. rewrite app_nil_r. clear.
    induction (List.filter _ _) as [|r l IH]; [done|]. cbn. exact IH.
Qed.
End recovery.

(** ** Runs of the owner *)

Section runs.
Context {signer future A : Type} `{Nostr} `{!Signer signer future}.
Abbreviation Pub := (@Publication signer future).

(** A run task ends: its sources are closed and its registration removed. *)
Definition end_owner (id : ReceiptId) (semantic : option SemanticState) (rest : list (@PublicationTask future))
    : @PubOp signer future unit :=
  _ ← pub_put (λ p, pn_set_owners (pn_cancellations p) rest p);
  _ ← close_semantic semantic;
  finished id.

Definition set_session (s : @Session signer) (p : Pub) : Pub :=
  mkOwner (pn_store p) (pn_appliers p) s (pn_cancellations p) (pn_stale p) (pn_tasks p) (pn_cancelled p)
    (pn_streams p) (pn_next_stream p).

(** One call, whatever the providers answered and whether it returned or
    panicked; lanes and tasks run between the calls of the application.  A step
    is labelled with the coordinate of an edit whose acceptance panicked. *)
Definition panicked_edit {B} (intent : WriteIntent) (o : outcome B) : list EventCoordinate :=
  match o, in_payload intent with
  | Panicked, PayloadEdit edit author => [edit_coordinate edit author]
  | _, _ => []
  end.

Inductive owner_step (p : Pub) : list EventCoordinate → Pub → Prop :=
| owner_accepts runtime now source evaluator (routers : list (Router A)) intent o p' :
    publication_accept runtime now source evaluator routers intent p = (o, p') →
    owner_step p (panicked_edit intent o) p'
| owner_recovers runtime now source evaluator (routers : list (Router A)) :
    owner_step p [] (recover runtime now source evaluator routers p).2
| owner_previews now source evaluator (routers : list (Router A)) intent :
    owner_step p [] (preview_semantic_routes now source evaluator routers intent p).2
| owner_reapplies now evaluator (routers : list (Router A)) receipt state :
    owner_step p [] (reapply now evaluator routers receipt state p).2
| owner_cancels id : owner_step p [] (publication_cancel id p).2
| owner_removes id : owner_step p [] (publication_remove_receipt id p).2
| owner_source_fails receipt state kind : owner_step p [] (record_source_failure receipt state kind p).2
| owner_routes receipt revision contribution : owner_step p [] (apply_route_change receipt revision contribution p).2
| owner_signs receipt : owner_step p [] (start_signing receipt p).2
| owner_stops_signing receipt generation cause :
    owner_step p [] (cancel_authorized_signing receipt generation cause p).2
| owner_completes receipt key generation completion :
    owner_step p [] (finish_signing receipt key generation completion p).2
| owner_attempts now w r rev ev session attempt :
    owner_step p [] (pn_set_store (perform now (DoBeginAttempt w r rev ev session attempt) (pn_store p)).2 p)
| owner_delivers now w r rev ev session attempt outcome :
    owner_step p [] (pn_set_store (perform now (DoRecordOutcome w r rev ev session attempt outcome) (pn_store p)).2 p)
| owner_ends l1 id semantic l2 :
    pn_tasks p = l1 ++ RunOwner id semantic :: l2 → owner_step p [] (end_owner id semantic (l1 ++ l2) p).2
| owner_session s : owner_step p [] (set_session s p).

(** The owners of a store of one capacity, and the coordinates of the edits whose
    acceptance panicked on the way. *)
Inductive owner_reachable (capacity : nat) : list EventCoordinate → Pub → Prop :=
| owner_new appliers session p :
    Publication_new (store_bounded capacity) appliers session = Ok p → owner_reachable capacity [] p
| owner_next stranded p coordinates p' :
    owner_reachable capacity stranded p → owner_step p coordinates p' →
    owner_reachable capacity (coordinates ++ stranded) p'.

Lemma begin_attempt_holds held w r rev ev session attempt : holds held (begin_attempt w r rev ev session attempt).
Proof. unfold begin_attempt. holding. Qed.
Lemma record_outcome_holds held w r rev ev session attempt outcome :
  holds held (record_outcome w r rev ev session attempt outcome).
Proof. unfold record_outcome. holding. Qed.

Abbreviation owned := (owned (signer := signer) (future := future)).

Lemma calm_owned {B} (m : @PubOp signer future B) held p : calm m → owned held [] p → owned held [] (m p).2.
Proof. intros Hm Hp. specialize (Hm _ _ p Hp). by destruct (m p) as [[[]|]]. Qed.

Lemma triple_owned {B} (m : @PubOp signer future B) held p :
  triple (owned held []) m (λ _, owned held []) (owned held []) (owned held []) → owned held [] p →
  owned held [] (m p).2.
Proof. intros Hm Hp. specialize (Hm p Hp). by destruct (m p) as [[[]|]]. Qed.

Lemma end_owner_owned held l1 id semantic l2 p :
  pn_tasks p = l1 ++ RunOwner id semantic :: l2 → owned held [] p → owned held [] (end_owner id semantic (l1 ++ l2) p).2.
Proof.
  intros Htasks [Hr Hs Hd Hi Hst]. cbn [app] in *. set (mine := task_ids (future := future) (RunOwner id semantic)).
  assert (Hperm : pn_tasks p ≫= task_ids ≡ₚ mine ++ ((l1 ++ l2) ≫= task_ids)).
  { rewrite Htasks, !bind_app, bind_cons. fold mine. rewrite !app_assoc. f_equiv. apply Permutation_app_comm. }
  set (q := pn_set_owners (pn_cancellations p) (l1 ++ l2) p).
  assert (Hq : owned held (mine ++ []) q).
  { split; unfold q; cbn [pn_set_owners pn_store pn_streams pn_tasks pn_next_stream pn_stale];
      rewrite ?app_nil_r; [done| |by rewrite <- Hperm| |done].
    - rewrite Hs. apply leibniz_equiv. by rewrite Hperm.
    - intros n. rewrite <- Hperm. apply Hi. }
  assert (Hclosed : owned held [] (close_semantic semantic q).2).
  { destruct semantic as [st|]; [|done]. pose proof (tr_close_sources held (se_sources st) [] (λ _, True) (λ _, True) q Hq) as Hc.
    exact Hc. }
  apply (calm_owned (finished id) _ _ (calm_finished id)) in Hclosed. by destruct semantic.
Qed.

(** The reservations of [held] with those of the edits whose acceptance panicked. *)
Definition strands (held : gmap N EventCoordinate) (coordinates : list EventCoordinate) (held' : gmap N EventCoordinate)
    : Prop := (map_to_list held').*2 ≡ₚ coordinates ++ (map_to_list held).*2.

Lemma strands_none held : strands held [] held.
Proof. unfold strands. done. Qed.

Lemma owner_step_owned held p coordinates p' :
  reservations_issued p → owner_step p coordinates p' → owned held [] p →
  ∃ held', owned held' [] p' ∧ strands held coordinates held'.
Proof.
  intros Hissued Hstep Hp. destruct Hstep.
  1: { pose proof (tr_accept runtime now source evaluator routers intent held p (conj Hissued Hp)) as Ht.
       rewrite H0 in Ht. destruct o as [[a|e]|]; [exists held; by split; [|apply strands_none]..|].
       destruct Ht as (edit & author & n & Hi & Hn & Ho). eexists. split; [exact Ho|].
       unfold strands, panicked_edit. rewrite Hi, map_to_list_insert by done. done. }
  all: exists held; (split; [|apply strands_none]).
  - apply triple_owned; [apply tr_recover|done].
  - apply triple_owned; [apply tr_preview|done].
  - apply calm_owned; [apply calm_reapply|done].
  - apply calm_owned; [apply calm_owner_cancel|done].
  - apply calm_owned; [apply calm_remove|done].
  - apply calm_owned; [apply calm_record_failure|done].
  - apply calm_owned; [apply calm_route_change|done].
  - apply calm_owned; [apply calm_start_signing|done].
  - apply calm_owned; [apply calm_cancel_signing|done].
  - apply calm_owned; [apply calm_finish_signing|done].
  - destruct Hp. split; try done. cbn. rewrite discard_state. by apply begin_attempt_holds.
  - destruct Hp. split; try done. cbn. rewrite discard_state. by apply record_outcome_holds.
  - by apply end_owner_owned.
  - by destruct Hp.
Qed.

Lemma performed_runs now sop (p : Pub) : runs_store p (pn_set_store (perform now sop (pn_store p)).2 p).
Proof.
  pose proof (rel_store (signer := signer) (future := future) (perform now sop) now sop ltac:(done) p) as Hp.
  unfold pub_store in Hp. by destruct (perform now sop (pn_store p)).
Qed.

Lemma owner_step_runs p coordinates p' : owner_step p coordinates p' → runs_store p p'.
Proof.
  intros Hstep. destruct Hstep.
  - pose proof (runs_owner_accept runtime now source evaluator routers intent p) as Hr. by rewrite H0 in Hr.
  - apply runs_recover.
  - apply runs_preview.
  - apply runs_reapply.
  - apply runs_owner_cancel.
  - apply runs_owner_remove.
  - apply runs_record_failure.
  - apply runs_route_change.
  - apply runs_start_signing.
  - apply runs_cancel_signing.
  - apply runs_finish_signing.
  - apply performed_runs.
  - apply performed_runs.
  - apply runs_fewer; destruct semantic; cbn; try done; set_solver.
  - by intros capacity Hr.
Qed.

Lemma owner_reachable_ok capacity stranded p :
  owner_reachable capacity stranded p →
  store_reachable capacity (pn_store p) ∧ registered_ok p ∧
  ∃ held, owned held [] p ∧ (map_to_list held).*2 ≡ₚ stranded.
Proof.
  induction 1 as [appliers session p Hnew|stranded p coordinates p' _ (Hr & Hreg & held & Ho & Hh) Hstep].
  - apply bind_Ok in Hnew as (index & _ & [= <-]). split; [constructor|]. split; [by intros ? ?%elem_of_empty|].
    exists ∅. split; [|by rewrite map_to_list_empty].
    split; cbn; [done|done|constructor|by intros n ?%not_elem_of_nil|unfold STALE_COMPLETION_CAPACITY; lia].
  - destruct (owner_step_runs _ _ _ Hstep capacity Hr Hreg) as (Hr' & Hreg' & _). split_and!; [done|done|].
    assert (reservations_issued p) as Hi.
    { intros n [c Hc]. destruct (reachable_ok _ _ Hr) as (Hok & _). by eapply so_reservations. }
    destruct (owner_step_owned held p coordinates p' Hi Hstep Ho) as (held' & Ho' & Hst).
    exists held'. split; [done|]. unfold strands in Hst. by rewrite Hst, Hh.
Qed.

(** C28. Whatever the application asks, whatever the providers answer, and
    whatever order its calls and the tasks of the owner run in, one at a time:
    when no call is in progress the write store is in a state its own operations
    reach, the reservations left are exactly those of the edits whose acceptance
    panicked, none when no acceptance did, the open change streams are exactly
    those of the running owners, each owner has its own, every registered owner
    is that of an identity the store has issued, and at most 256 rejected
    completions are kept. *)
Theorem publication_invariant (capacity : nat) (stranded : list EventCoordinate) (p : Pub)
    (Hreach : owner_reachable capacity stranded p) :
  store_reachable capacity (pn_store p) ∧
  (map_to_list (ws_reservations (ms_state (pn_store p)))).*2 ≡ₚ stranded ∧
  pn_streams p = list_to_set (pn_tasks p ≫= task_ids) ∧
  NoDup (pn_tasks p ≫= task_ids) ∧
  (∀ id, id ∈ pn_cancellations p → (id < ws_next_identity (ms_state (pn_store p)))%N) ∧
  length (pn_stale p) ≤ STALE_COMPLETION_CAPACITY.
Proof.
  destruct (owner_reachable_ok capacity stranded p Hreach) as (Hr & Hreg & held & [Hres Hs Hd _ Hst] & Hh).
  rewrite Hres. by split_and!.
Qed.
End runs.

(** ** Source corrections *)

Section corrections.
Context {signer future A : Type} `{Nostr}.
Context (now : Timestamp) (evaluator : Query → list SourceSnapshot → result string QuerySnapshot).
Context (routers : list (Router A)).
Abbreviation Pub := (@Publication signer future).

(** The evaluator answers events that have ids. *)
Definition evaluator_identified : Prop :=
  ∀ q sources snapshot, evaluator q sources = Ok snapshot →
  ∀ r, r ∈ qn_events snapshot → is_Some (value_id (er_event r)).

(** The candidate a correction looks at. *)
Definition candidate_of (state : SemanticState) (receipt_id : ReceiptId) : result PublicationError (option EventValue) :=
  edit ← ok_or (last (se_edits state)) (PubRouting "semantic edit sequence is empty");
  select_source evaluator edit (se_author state) (sources_snapshots (se_sources state)) (Some receipt_id).

(** The decision once the candidate is known. *)
Definition successor_of (state : SemanticState) (candidate : option EventValue) : bool * option EventValue :=
  if bool_decide (candidate ≫= value_id = se_selected_id state) then (false, None)
  else if bool_decide (candidate ≫= value_id = se_failed_id state) then (false, None)
  else
    match candidate with
    | Some c =>
        if match se_source_floor state with
           | None => true
           | Some floor => match value_id c with
                           | Some id => event_is_newer (value_created_at c, id) (floor, default id (se_selected_id state))
                           | None => false
                           end
           end
        then (true, Some c)
        else if bool_decide (is_Some (se_selected_id state)) &&
                negb match se_selected_id state with
                     | Some id => source_is_present (sources_snapshots (se_sources state)) id
                     | None => false
                     end
        then (true, None) else (false, None)
    | None => if bool_decide (is_Some (se_selected_id state)) then (true, None) else (false, None)
    end.

Lemma semantic_successor_of state id :
  semantic_successor evaluator state id = successor_of state <$> candidate_of state id.
Proof.
  unfold semantic_successor, candidate_of. destruct (ok_or (last (se_edits state)) _) as [edit|]; [|done].
  cbn [mbind result_bind fmap result_fmap].
  destruct (select_source _ _ _ _ _) as [candidate|]; [|done]. cbn [mbind result_bind fmap result_fmap].
  unfold successor_of.
  do 2 (destruct (bool_decide _); [done|]).
  destruct candidate as [c|]; repeat (match goal with |- (if ?b then _ else _) = _ => destruct b; [done|] end); done.
Qed.

Lemma candidate_identified state id c :
  evaluator_identified → candidate_of state id = Ok (Some c) → is_Some (value_id c).
Proof.
  intros Hev (edit & _ & Hsel)%bind_Ok. unfold select_source in Hsel.
  destruct (evaluator _ _) as [snapshot|] eqn:He; [|done]. injection Hsel as Hsel.
  destruct (qn_events snapshot) as [|r l] eqn:Hl; [done|]. injection Hsel as <-.
  eapply Hev; [done|]. rewrite Hl. left.
Qed.

(** What a successful call of [reapply_from] returns. *)
Lemma reapply_from_state receipt successor state (p p' : Pub) state' :
  reapply_from now routers receipt successor state p = (Returned (Ok state'), p') →
  state' = with_failed_id (successor ≫= value_id) state ∨
  (state' = state ∧ checked_succ (rc_route_revision receipt) = None) ∨
  ∃ revision, state' = mkSemantic (se_edits state) (se_author state) revision (successor ≫= value_id)
    (match successor with Some s => Some (value_created_at s) | None => se_source_floor state end) None (se_sources state).
Proof.
  unfold reapply_from, mbind, pub_bind, pub_get, pub_result, pub_call.
  destruct (apply_sequence_and_route _ _ _ _ _ _ _ _ _) as [[[event route]|error]|]; [|..]; [| |done].
  - destruct (rc_routing receipt) as [|relays]; [destruct (checked_succ (rc_route_revision receipt)) eqn:Hr|].
    2: { intros [= <- <-]. right. left. done. }
    all: unfold pub_store; destruct (install_semantic _ _ _ _ _ _ _ _ _ _) as [[installed|error] s'];
      [intros [= <- <-]; right; right; by eexists|].
    all: unfold record_failure, mbind, pub_bind, pub_store; destruct (record_semantic_failure _ _ _ _ _ _ _) as [r s''];
      intros [= <- <-]; by left.
  - unfold record_failure, mbind, pub_bind, pub_store. destruct (record_semantic_failure _ _ _ _ _ _ _) as [r s''].
    intros [= <- <-]. by left.
Qed.

Definition floor_le (before after : option Timestamp) : Prop :=
  match before with None => True | Some t => ∃ t', after = Some t' ∧ (t ≤ t')%N end.

Lemma floor_le_refl f : floor_le f f.
Proof. destruct f; [|done]. eexists. split; [done|]. lia. Qed.

Lemma newer_floor c id floor selected :
  event_is_newer (value_created_at c, id) (floor, selected) = true → (floor ≤ value_created_at c)%N.
Proof. rewrite event_is_newer_spec. unfold newer. cbn. lia. Qed.

(** The decisions that call for a correction. *)
Lemma successor_of_true state candidate successor :
  successor_of state candidate = (true, successor) →
  candidate ≫= value_id ≠ se_selected_id state ∧ candidate ≫= value_id ≠ se_failed_id state ∧
  match successor with
  | Some c => candidate = Some c ∧ ∀ floor, se_source_floor state = Some floor → (floor ≤ value_created_at c)%N
  | None => is_Some (se_selected_id state) ∧
      ∀ c, candidate = Some c → ∃ floor, se_source_floor state = Some floor ∧
        ∀ id, value_id c = Some id →
        event_is_newer (value_created_at c, id) (floor, default id (se_selected_id state)) = false
  end.
Proof.
  unfold successor_of. case_bool_decide as Hsel; [done|]. case_bool_decide as Hfail; [done|].
  destruct candidate as [c|].
  - destruct (match se_source_floor state with None => true | _ => _ end) eqn:Hfloor.
    + intros [= <-]. split_and!; [done..|]. intros floor Hf. rewrite Hf in Hfloor.
      destruct (value_id c); [|done]. by apply newer_floor in Hfloor.
    + destruct (bool_decide (is_Some _) && _) eqn:Hgone; [|done]. intros [= <-].
      apply andb_true_iff in Hgone as [Hs _]. apply bool_decide_eq_true in Hs. split_and!; [done..|].
      intros c' [= <-]. destruct (se_source_floor state) as [floor|]; [|done]. exists floor. split; [done|].
      intros id Hid. by rewrite Hid in Hfloor.
  - case_bool_decide as Hs; [|done]. intros [= <-]. split_and!; [done..|]. by intros c.
Qed.

(** After installing a correction nothing is left to correct. *)
Lemma installed_settles state candidate successor revision :
  (∀ c, candidate = Some c → is_Some (value_id c)) → successor_of state candidate = (true, successor) →
  successor_of (mkSemantic (se_edits state) (se_author state) revision (successor ≫= value_id)
    (match successor with Some s => Some (value_created_at s) | None => se_source_floor state end) None
    (se_sources state)) candidate = (false, None).
Proof.
  intros Hid Hsucc. apply successor_of_true in Hsucc as (Hsel & Hfail & Hcase).
  unfold successor_of. cbn [se_selected_id se_failed_id se_source_floor se_sources].
  destruct successor as [c|]; [destruct Hcase as [-> _]; by rewrite bool_decide_eq_true_2|].
  destruct Hcase as [Hs Hold]. cbn [mbind option_bind]. destruct candidate as [c|]; [|done]. cbn [mbind option_bind].
  destruct (Hid c eq_refl) as [id Hc]. rewrite Hc. rewrite !bool_decide_eq_false_2 by done.
  destruct (Hold c eq_refl) as (floor & -> & Hnew). specialize (Hnew _ Hc).
  destruct (event_is_newer (value_created_at c, id) (floor, default id None)) eqn:E; [|done].
  exfalso. apply event_is_newer_spec in E. apply not_true_iff_false in Hnew. rewrite event_is_newer_spec in Hnew.
  unfold newer in *. cbn in *. lia.
Qed.

Lemma failed_settles state candidate c :
  successor_of state candidate = (true, Some c) →
  successor_of (with_failed_id (value_id c) state) candidate = (false, None).
Proof.
  intros (Hsel & _ & -> & _)%successor_of_true. unfold successor_of. cbn in Hsel |- *.
  rewrite (bool_decide_eq_false_2 (_ = se_selected_id state)) by done. by rewrite bool_decide_eq_true_2.
Qed.

(** C32. A source correction settles: once [reapply] has handled what the sources
    show, the same sources call for no further correction (unless they cannot be
    read), and the time floor of accepted sources never falls.  Two cases are
    excluded: the route revision counter ran out, or the edits were refused on
    empty state, when the selected source is still recorded as selected. *)
Theorem reapply_settles (receipt : Receipt) (state state' : SemanticState) (p p' : Pub)
    (Hev : evaluator_identified)
    (Hrun : reapply now evaluator routers receipt state p = (Returned (Ok state'), p'))
    (Hroute : (rc_route_revision receipt < u64_max)%N)
    (Hempty : semantic_successor evaluator state (rc_receipt_id receipt) = Ok (true, None) →
              se_selected_id state' = None) :
  floor_le (se_source_floor state) (se_source_floor state') ∧
  match semantic_successor evaluator state' (rc_receipt_id receipt) with
  | Ok decision => decision = (false, None)
  | Err _ => True
  end.
Proof.
  unfold reapply in Hrun. rewrite !semantic_successor_of in *.
  destruct (candidate_of state (rc_receipt_id receipt)) as [candidate|e] eqn:Hc; cbn in Hrun, Hempty.
  2: { injection Hrun as <- <-. rewrite Hc. split; [apply floor_le_refl|done]. }
  assert (Hids : ∀ c, candidate = Some c → is_Some (value_id c)).
  { intros c ->. by eapply candidate_identified. }
  destruct (successor_of state candidate) as [[] successor] eqn:Hs.
  2: { injection Hrun as <- <-. rewrite Hc. split; [apply floor_le_refl|]. cbn. rewrite Hs. f_equal. clear -Hs.
       unfold successor_of in Hs. repeat case_match; naive_solver. }
  apply reapply_from_state in Hrun as [->|[[-> Hr]|[revision ->]]].
  - split; [apply floor_le_refl|].
    replace (candidate_of (with_failed_id (successor ≫= value_id) state) (rc_receipt_id receipt)) with (Ok (E := PublicationError) candidate) by done.
    cbn. destruct successor as [c|]; [by apply failed_settles|].
    exfalso. specialize (Hempty eq_refl). apply successor_of_true in Hs as (_ & _ & [x Hx] & _). cbn in Hempty. congruence.
  - exfalso. unfold checked_succ in Hr. case_bool_decide; [done|]. lia.
  - split.
    + cbn. destruct successor as [c|]; [|apply floor_le_refl]. apply successor_of_true in Hs as (_ & _ & _ & Hf).
      destruct (se_source_floor state) as [floor|]; [|done]. eexists. split; [done|]. by apply Hf.
    + replace (candidate_of _ (rc_receipt_id receipt)) with (Ok (E := PublicationError) candidate) by done. cbn.
      by apply installed_settles.
Qed.

(** A missed correction.  When the source of a revision disappears and no
    other candidate is left, [reapply] does nothing: no candidate and no recorded
    failure are both [None], so the branch that would apply the edits to empty
    state is not reached.  With any failure on record it is. *)
Theorem lone_source_loss_ignored (receipt : Receipt) (state : SemanticState) (edit : EventEdit)
    (selected_id : EventId) (p : Pub)
    (Hlast : last (se_edits state) = Some edit)
    (Hselected : se_selected_id state = Some selected_id)
    (Hnone : select_source evaluator edit (se_author state) (sources_snapshots (se_sources state))
               (Some (rc_receipt_id receipt)) = Ok None)
    (Hfailed : se_failed_id state = None) :
  reapply now evaluator routers receipt state p = (Returned (Ok state), p) ∧
  ∀ failed, semantic_successor evaluator (with_failed_id (Some failed) state) (rc_receipt_id receipt) = Ok (true, None).
Proof.
  assert (Hc : ∀ st, se_edits st = se_edits state → se_author st = se_author state → se_sources st = se_sources state →
    candidate_of st (rc_receipt_id receipt) = Ok None).
  { intros st He Ha Hs. unfold candidate_of. rewrite He, Ha, Hs, Hlast. cbn. by rewrite Hnone. }
  split.
  - unfold reapply. rewrite semantic_successor_of, Hc by done. cbn. unfold successor_of. cbn.
    rewrite Hselected, Hfailed. done.
  - intros failed. rewrite semantic_successor_of, Hc by done. cbn. unfold successor_of. cbn. by rewrite Hselected.
Qed.
End corrections.

(** ** Signer completions *)

Section completions.
Context {signer future : Type} `{Nostr} `{!Signer signer future}.
Abbreviation Pub := (@Publication signer future).

(** The completion of a retired signer changes nothing: once an attachment
    is not current, whatever the session goes through, a completion that arrives
    under its generation leaves the store and every task as they were and is
    kept as the newest rejected completion, under the exact generation it was
    authorised for. *)
Theorem retired_signer_inert (s : @Session signer) (Hreach : session_reachable s) (key : PublicKey) (generation : N)
    (Hretired : is_current s key generation = false) (Hissued : (generation ≤ session_revision s)%N)
    (calls : list SessionCall) (p : Pub) (Hsession : pn_session p = session_run s calls)
    (receipt : Receipt) (completion : result SignerError Event) :
  ∃ p' reason, finish_signing receipt key generation completion p = (Returned (Ok tt), p') ∧
    pn_store p' = pn_store p ∧ pn_tasks p' = pn_tasks p ∧
    last (pn_stale p') = Some (rc_receipt_id receipt, rc_write_id receipt,
                               pub_revision_id (rc_publication receipt), lw_id (rc_current receipt), reason).
Proof.
  assert (Hstale : is_current (pn_session p) key generation = false).
  { rewrite Hsession. apply not_true_is_false. intros Hcur. apply session_reachable_ok in Hreach.
    apply session_run_is_current in Hcur; [congruence|done..]. }
  unfold finish_signing, mbind, pub_bind, pub_get. rewrite Hstale. cbn [negb].
  unfold reject_stale_completion, pub_put. do 2 eexists. split; [done|]. split_and!; [done..|].
  cbn [pn_set_stale pn_stale]. by rewrite last_snoc.
Qed.
End completions.

(** ** Panics while preparing an edit *)

Section panics.
Context {signer future A : Type} `{Nostr} `{!Signer signer future}.
Context (runtime : bool) (now : Timestamp).
Context (event_source : Query → result string SourceSnapshot).
Context (evaluator : Query → list SourceSnapshot → result string QuerySnapshot).
Context (routers : list (Router A)).
Abbreviation Pub := (@Publication signer future).

(** A panic while an edit is prepared strands its coordinate: the chain of
    routers can panic (see [preview_isolates_failures]), the reservation taken
    before is not released by unwinding, and from then on every edit of the
    coordinate is refused, by any later call under any providers. *)
Theorem accept_panic_strands_coordinate (intent : WriteIntent) (edit : EventEdit) (author : PublicKey) (p p' : Pub)
    (Hedit : in_payload intent = PayloadEdit edit author)
    (capacity : nat) (stranded : list EventCoordinate) (Hreach : owner_reachable (A := A) capacity stranded p)
    (Hpanic : publication_accept runtime now event_source evaluator routers intent p = (Panicked, p')) :
  ∀ now' event_source' evaluator' (routers' : list (Router A)) intent' edit',
    in_payload intent' = PayloadEdit edit' author → edit_coordinate edit' author = edit_coordinate edit author →
    publication_accept true now' event_source' evaluator' routers' intent' p' =
    (Returned (Err (PubStore (StoreRefused "replaceable coordinate already has an active reservation"))), p').
Proof.
  apply owner_reachable_ok in Hreach as (Hr & _ & held & Howned & _).
  assert (Hi : reservations_issued p).
  { intros n [c Hc]. destruct (reachable_ok _ _ Hr) as (Hok & _). by eapply so_reservations. }
  assert (Hheld : ∃ n, ws_reservations (ms_state (pn_store p')) !! n = Some (edit_coordinate edit author)).
  { pose proof (tr_accept runtime now event_source evaluator routers intent held p (conj Hi Howned)) as Hacc.
    rewrite Hpanic in Hacc. destruct Hacc as (edit0 & author0 & n & He & _ & [Hres _ _ _ _]).
    rewrite Hedit in He. injection He as <- <-. exists n. by rewrite Hres, lookup_insert_eq. }
  destruct Hheld as [n Hn]. intros now' source' evaluator' routers' intent' edit' Hedit' Hcoord.
  unfold publication_accept. rewrite Hedit'. unfold check_runtime, pub_store_try, pub_store, mbind, pub_bind. cbn [pub_try pub_call ensure].
  rewrite (reserve_taken edit' author n) by (by rewrite Hcoord). by destruct p'.
Qed.
End panics.
