(* ===== verification/PublicationWitness.v ===== *)
(** * A concrete publication owner

    An owner over an empty memory store of capacity 4 with the contact-list
    applier, one signer and the standard evaluator, and the theorems of
    [PublicationProps] applied to its runs. *)

From S2P Require Import Prelude Nostr Relay State Write Query Routing Receipts MemoryStore.
From S2P Require Import StoreInvariant Session Edits Publication PublicationProps Evaluator Nip02.

Module PublicationWitness.
Import EditSample SessionWitness Nip02Witness.

Definition standard_evaluator (q : Query) (sources : list SourceSnapshot) : result string QuerySnapshot :=
  match evaluate q sources with Ok snapshot => Ok snapshot | Err _ => Err "refused"%string end.

(** A cache that holds the contact list, or nothing. *)
Definition contact_cache (q : Query) : result string SourceSnapshot :=
  Ok (SourceSnapshot_current EventCacheSource 1
        match sample_list with
        | Signed e => [SourceRelay (RelayEvent_new e "wss://a" Unauthenticated 10)]
        | Unsigned _ => []
        end).
Definition empty_cache (q : Query) : result string SourceSnapshot := Ok (SourceSnapshot_empty EventCacheSource).

Definition the_owner : @Publication TestSigner (result SignerError Event) :=
  match Publication_new (store_bounded 4) [hosted Nip02Applier] sample_session with
  | Ok p => p
  | Err _ => mkOwner (store_bounded 4) ∅ sample_session ∅ [] [] [] ∅ 0
  end.
Definition unfollow_intent (routing : WriteRouting) : WriteIntent :=
  mkIntent (PayloadEdit (edit_of 7 Remove) 1) routing Unauthenticated.
Definition accepting (routers : list (Router unit)) (routing : WriteRouting) :=
  publication_accept true 20 contact_cache standard_evaluator routers (unfollow_intent routing) the_owner.
Definition accepted_owner : @Publication TestSigner (result SignerError Event) :=
  (accepting [] (Explicit ["wss://a"%string])).2.

Lemma the_owner_reachable : owner_reachable (A := unit) 4 [] the_owner.
Proof.
  apply (owner_new _ [hosted Nip02Applier] sample_session). unfold the_owner.
  assert (Hok : is_ok (Publication_new (future := result SignerError Event) (store_bounded 4) [hosted Nip02Applier]
    sample_session) = true) by (vm_compute; reflexivity).
  by destruct (Publication_new _ _ _).
Qed.

Lemma returned_pair {B S} (x : outcome (result PublicationError B) * S) :
  match x.1 with Returned (Ok _) => True | _ => False end → ∃ r, x = (Returned r, x.2).
Proof. destruct x as [[[b|]|] s]; [|done..]. intros _. by eexists. Qed.

Lemma accepted_reachable : owner_reachable (A := unit) 4 [] accepted_owner.
Proof.
  destruct (returned_pair (accepting [] (Explicit ["wss://a"%string]))) as [r Hr]; [vm_compute; exact I|].
  apply (owner_next 4 [] the_owner [] accepted_owner the_owner_reachable).
  exact (owner_accepts the_owner true 20 contact_cache standard_evaluator []
    (unfollow_intent (Explicit ["wss://a"%string])) (Returned r) accepted_owner Hr).
Qed.

(** The edit reached the store as an open receipt with the unfollowed list. *)
Example accepted_revision :
  (un_tags <$> match MemoryStore.receipt 1 (ms_state (pn_store accepted_owner)) with
               | Some r => match lw_event (rc_current r) with Unsigned u => Some u | Signed _ => None end
               | None => None
               end) = Some [["t"%string; "x"%string]; row 8] ∧
  pn_cancellations accepted_owner = {[1%N]}.
Proof. vm_compute. split; reflexivity. Qed.

(** The router whose refusal cannot be cut at the bound: the chain panics. *)
Definition wide_reason : string :=
  "x" +:+ String.concat "" (replicate 2100 (String (Ascii.ascii_of_N 195) (String (Ascii.ascii_of_N 169) ""))).
Definition wide_router : Router unit :=
  mkRouter unit "r" (λ _ _, Returned (Ok [])) (λ _ _ _, Returned (Err (RouterRefused wide_reason)))
    (λ _ _ _, Returned (Ok tt)).

(** After an acceptance that returned and one that panicked: the streams of the
    one, the reservation of the other. *)
Definition panicked_owner : @Publication TestSigner (result SignerError Event) := (accepting [wide_router] Automatic).2.

Lemma panicked_reachable :
  owner_reachable (A := unit) 4 [edit_coordinate (edit_of 7 Remove) 1] panicked_owner.
Proof.
  assert (Hp : (accepting [wide_router] Automatic).1 = Panicked) by (vm_compute; reflexivity).
  apply (owner_next 4 [] the_owner [edit_coordinate (edit_of 7 Remove) 1] panicked_owner the_owner_reachable).
  apply (owner_accepts the_owner true 20 contact_cache standard_evaluator [wide_router] (unfollow_intent Automatic) Panicked).
  rewrite <- Hp. apply surjective_pairing.
Qed.

Lemma publication_invariant_witness :
  pn_streams accepted_owner = {[0; 1]}%N ∧
  (map_to_list (ws_reservations (ms_state (pn_store accepted_owner)))).*2 ≡ₚ [] ∧
  (map_to_list (ws_reservations (ms_state (pn_store panicked_owner)))).*2 ≡ₚ [edit_coordinate (edit_of 7 Remove) 1].
Proof.
  destruct (publication_invariant 4 [] accepted_owner accepted_reachable) as (_ & Hres & Hs & _).
  destruct (publication_invariant 4 _ panicked_owner panicked_reachable) as (_ & Hleft & _).
  split; [|split; [exact Hres|exact Hleft]]. rewrite Hs. vm_compute. reflexivity.
Defined.

Lemma accept_panic_strands_coordinate_witness :
  (publication_accept (A := unit) true 30 contact_cache standard_evaluator [] (unfollow_intent (Explicit ["wss://a"%string]))
     (accepting [wide_router] Automatic).2).1 =
  Returned (Err (PubStore (StoreRefused "replaceable coordinate already has an active reservation"))).
Proof.
  assert (Hp : (accepting [wide_router] Automatic).1 = Panicked) by (vm_compute; reflexivity).
  assert (Hrun : accepting [wide_router] Automatic = (Panicked, (accepting [wide_router] Automatic).2))
    by (rewrite <- Hp; apply surjective_pairing).
  rewrite (accept_panic_strands_coordinate true 20 contact_cache standard_evaluator [wide_router]
    (unfollow_intent Automatic) (edit_of 7 Remove) 1 the_owner (accepting [wide_router] Automatic).2 eq_refl 4 []
    the_owner_reachable Hrun 30 contact_cache standard_evaluator [] (unfollow_intent (Explicit ["wss://a"%string]))
    (edit_of 7 Remove) eq_refl eq_refl). reflexivity.
Defined.

(** The standard evaluator answers events that have ids. *)
Lemma standard_identified : evaluator_identified standard_evaluator.
Proof.
  intros q sources snapshot Hev r Hr. unfold standard_evaluator, evaluate in Hev.
  destruct (matches_nothing q); [injection Hev as <-; by apply not_elem_of_nil in Hr|].
  destruct (matching_records q sources) as [records|] eqn:Hm; [|done]. cbn in Hev. injection Hev as <-.
  assert (Hin : r ∈ coordinate_winners records).
  { rewrite <- (merge_sort_Permutation (record_le (q_ordering q))).
    cbn in Hr. destruct (q_limit q); [|done]. eapply elem_of_submseteq; [done|]. apply sublist_submseteq, sublist_take. }
  apply coordinate_winners_win in Hin as [Hin _].
  apply bind_Ok in Hm as (all & Hall & [= <-]). apply list_elem_of_In, filter_In in Hin as [Hin _].
  apply list_elem_of_In in Hin. apply collect_results_Ok in Hall. apply list_elem_of_lookup in Hin as [i Hi].
  destruct (Forall2_lookup_r _ _ _ _ _ Hall Hi) as (o & Ho%list_elem_of_lookup_2 & Hrec).
  apply list_elem_of_fmap in Ho as ([id c] & -> & _).
  apply bind_Ok in Hrec as (occ & _ & (n & Hn%ok_or_Ok & Hnew)%bind_Ok).
  case_bool_decide; [done|]. injection Hnew as <-. by eexists.
Qed.

(** Source corrections of the accepted revision. *)
Definition accepted_receipt : Receipt :=
  default Receipts.ReceiptsWitness.receipt (MemoryStore.receipt 1 (ms_state (pn_store accepted_owner))).
Definition newer_list : Event := mkEvent 5 1 15 3 [row 7; row 9] "hi" 5.
Definition tracked (cache : SourceSnapshot) : SemanticState :=
  mkSemantic [edit_of 7 Remove] 1 1 (Some 4%N) (Some 10%N) None
    (mkSources 0 1 (cache, ms_latest (pn_store accepted_owner)) (true, true)).
Definition corrected_sources : SemanticState :=
  tracked (SourceSnapshot_current EventCacheSource 2 [SourceRelay (RelayEvent_new newer_list "wss://a" Unauthenticated 16)]).
Definition lost_sources : SemanticState := tracked (SourceSnapshot_empty EventCacheSource).

Definition correction := reapply (A := unit) 20 standard_evaluator [] accepted_receipt corrected_sources accepted_owner.
Definition corrected : SemanticState :=
  match correction.1 with Returned (Ok state) => state | _ => corrected_sources end.

Lemma returned_value {B S} (x : outcome (result PublicationError B) * S) d :
  match x.1 with Returned (Ok _) => True | _ => False end →
  x = (Returned (Ok match x.1 with Returned (Ok b) => b | _ => d end), x.2).
Proof. by destruct x as [[[b|]|] s]. Qed.

Lemma reapply_settles_witness :
  se_selected_id corrected = Some 5%N ∧
  semantic_successor standard_evaluator corrected (rc_receipt_id accepted_receipt) = Ok (false, None).
Proof.
  assert (Hok : is_ok (semantic_successor standard_evaluator corrected (rc_receipt_id accepted_receipt)) = true)
    by (vm_compute; reflexivity).
  assert (Hrun : correction = (Returned (Ok corrected), correction.2)).
  { apply returned_value. vm_compute. exact I. }
  assert (Hroute : (rc_route_revision accepted_receipt < u64_max)%N) by (vm_compute; reflexivity).
  assert (Hsel : se_selected_id corrected = Some 5%N) by (vm_compute; reflexivity).
  assert (Hempty : semantic_successor standard_evaluator corrected_sources (rc_receipt_id accepted_receipt) ≠ Ok (true, None))
    by (vm_compute; discriminate).
  split; [exact Hsel|].
  destruct (reapply_settles 20 standard_evaluator [] accepted_receipt corrected_sources corrected
    accepted_owner correction.2 standard_identified Hrun Hroute (λ H, False_ind _ (Hempty H))) as [_ Hs].
  destruct (semantic_successor standard_evaluator corrected _); [by rewrite Hs|discriminate Hok].
Defined.

Lemma lone_source_loss_ignored_witness :
  reapply (A := unit) 20 standard_evaluator [] accepted_receipt lost_sources accepted_owner =
  (Returned (Ok lost_sources), accepted_owner).
Proof.
  assert (Hnone : select_source standard_evaluator (edit_of 7 Remove) (se_author lost_sources)
    (sources_snapshots (se_sources lost_sources)) (Some (rc_receipt_id accepted_receipt)) = Ok None)
    by (vm_compute; reflexivity).
  destruct (lone_source_loss_ignored 20 standard_evaluator (@nil (Router unit)) accepted_receipt lost_sources
    (edit_of 7 Remove) 4 accepted_owner eq_refl eq_refl Hnone eq_refl) as [Hrun _]. exact Hrun.
Defined.

Lemma retired_signer_inert_witness :
  ∃ p' reason, finish_signing accepted_receipt 1 1 (Err (SignerRejected "late"))
                 (set_session sample_replaced accepted_owner) = (Returned (Ok tt), p') ∧
    last (pn_stale p') = Some (1%N, 1%N, 1%N, lw_id (rc_current accepted_receipt), reason).
Proof.
  assert (Hissued : (1 ≤ session_revision sample_replaced)%N) by (vm_compute; discriminate).
  assert (Hids : rc_receipt_id accepted_receipt = 1%N ∧ rc_write_id accepted_receipt = 1%N ∧
    pub_revision_id (rc_publication accepted_receipt) = 1%N) by (vm_compute; done).
  destruct Hids as (<- & <- & <-).
  destruct (retired_signer_inert sample_replaced (session_continued _ _ sample_reachable) 1 1 eq_refl
    Hissued [] (set_session sample_replaced accepted_owner) eq_refl accepted_receipt
    (Err (SignerRejected "late"))) as (p' & reason & Hrun & _ & _ & Hlast).
  exists p', reason. split; [exact Hrun|exact Hlast].
Defined.
End PublicationWitness.
