(* ===== verification/Transport.v ===== *)
(** * Relay sessions and their handles ([crates/fava-transport])

    One relay session owns a router: the handles that read a wire subscription
    or wait for an acknowledgement, each with a bounded mailbox, and the current
    state of the connection.  A mailbox is shared by the router and the handle
    ([Arc]), so mailboxes live in a heap of the session and the tables of the
    router, like the handles, name them by address.

    Each definition is its operation run without interruption; [Mailbox] splits
    the operations on subscriptions at their locks.  The wake-ups of [Notify]
    are not modelled, a reader that would wait answers [NextWaits].  The verbs
    of [RelaySessionExt] are split at their one [await], the completion of the
    frame they hand off, because deliveries and reconnects happen meanwhile.
    JSON text and the debug form of a message are third-party, the class
    [Wire]. *)

From S2P Require Import Prelude Nostr Relay.

(** ** Connectivity ([crates/fava-relay]) *)

Inductive Connectivity :=
| Disconnected (detail : BoundedText) (spent : option nat)
| Connecting
| Connected.

#[global] Instance Connectivity_eq_dec : EqDecision Connectivity.
Proof. solve_decision. Defined.
#[global] Instance Progress_eq_dec : EqDecision Progress.
Proof. solve_decision. Defined.
#[global] Instance Authentication_eq_dec : EqDecision Authentication.
Proof. solve_decision. Defined.

(** ** Identities of a session ([session.rs]) *)

Abbreviation SubscriptionId := string (only parsing).
Abbreviation Duration := N (only parsing).
Abbreviation HandoffCorrelation := N (only parsing).

Definition SUBSCRIPTION_ID_BYTES : nat := 21.

(** The format [016x]. *)
Definition hex_digit (n : N) : ascii :=
  ascii_of_N (if bool_decide (n < 10)%N then 48 + n else 87 + n)%N.

Fixpoint hex_padded (digits : nat) (n : N) (acc : string) : string :=
  match digits with
  | 0 => acc
  | S digits => hex_padded digits (n / 16)%N (String (hex_digit (n mod 16)%N) acc)
  end.

Definition subscription_id (counter : N) : SubscriptionId :=
  ("fava-" +:+ hex_padded 16 counter "")%string.

(** [RelayConnection(u64)], never zero. *)
Definition RelayConnection_new (value : N) : option N :=
  if bool_decide (value = 0)%N then None else Some value.

Definition checked_next (connection : N) : option N := checked_succ connection.

Record RelaySessionIdentity := mkSessionIdentity {
  si_relay : RelayUrl;
  si_connection : N
}.

#[global] Instance RelaySessionIdentity_eq_dec : EqDecision RelaySessionIdentity.
Proof. solve_decision. Defined.

Record Connection := mkConnection {
  cn_identity : RelaySessionIdentity;
  cn_connectivity : Connectivity;
  cn_authentication : Authentication
}.

#[global] Instance Connection_eq_dec : EqDecision Connection.
Proof. solve_decision. Defined.

Definition Connection_opening (identity : RelaySessionIdentity) : Connection :=
  mkConnection identity Connecting unoffered.

Definition Connection_can_serve (c : Connection) (authority : Authority) : bool :=
  bool_decide (cn_connectivity c = Connected) && can_serve (cn_authentication c) authority.

(** ** Hand-off outcomes ([handoff.rs]) *)

Inductive TransportFailure :=
| SessionClosed
| GenerationExhausted
| OutboundQueueFull (capacity : nat)
| FrameTooLarge (bytes maximum : nat)
| EstablishTimeout (after : Duration)
| IdleTimeout (after : Duration)
| FailureDisconnected (detail : BoundedText)
| FailureShuttingDown.

Inductive TransportAmbiguity :=
| FlushUnconfirmed (detail : BoundedText)
| WriteTimeout (after : Duration)
| DisconnectedInFlight (detail : BoundedText).

Inductive HandoffOutcome :=
| NotHandedOff (identity : RelaySessionIdentity) (correlation : HandoffCorrelation) (reason : TransportFailure)
| HandedOff (identity : RelaySessionIdentity) (correlation : HandoffCorrelation)
| HandoffAmbiguous (identity : RelaySessionIdentity) (correlation : HandoffCorrelation) (reason : TransportAmbiguity).

Definition outcome_identity (o : HandoffOutcome) : RelaySessionIdentity :=
  match o with NotHandedOff i _ _ | HandedOff i _ | HandoffAmbiguous i _ _ => i end.
Definition outcome_correlation (o : HandoffOutcome) : HandoffCorrelation :=
  match o with NotHandedOff _ c _ | HandedOff _ c | HandoffAmbiguous _ c _ => c end.

(** [ReleaseOutcome]; the count of holders that remain is never zero. *)
Inductive ReleaseOutcome := Retained (holders : nat) | ReleaseClosed.

(** ** Failures ([error.rs]) *)

Inductive TransportError :=
| ConnectionRefused (failure : TransportFailure)
| ErrorDisconnected (failure : TransportFailure)
| ErrorClosed (identity : RelaySessionIdentity)
| ErrorGenerationExhausted
| InboundFrameTooLarge (bytes maximum : nat)
| InboundLost (dropped : N)
| ErrorShuttingDown
| ShutdownIncomplete (remaining : nat).

(** ** Requests ([request.rs]) *)

Record TransportDeadlines := mkDeadlines {
  dl_establish : Duration;
  dl_write : Duration;
  dl_idle : Duration;
  dl_close : Duration
}.

Record TransportBounds := mkBounds {
  bd_inbound_frames : nat;
  bd_outbound_frames : nat;
  bd_max_frame_bytes : nat
}.

Record OpenRelaySession := mkOpenRelaySession {
  or_relay : RelayUrl;
  or_authority : Authority;
  or_deadlines : TransportDeadlines;
  or_bounds : TransportBounds;
  or_reconnect_attempts : option nat
}.

(** ** Wire messages ([crates/fava-wire], types of the [nostr] crate) *)

Inductive RelayMessage :=
| MsgEvent (subscription_id : SubscriptionId) (event : Event)
| MsgOk (event_id : EventId) (status : bool) (message : string)
| MsgEose (subscription_id : SubscriptionId)
| MsgNotice (message : string)
| MsgClosed (subscription_id : SubscriptionId) (message : string)
| MsgAuth (challenge : string)
| MsgCount (subscription_id : SubscriptionId) (count : nat)
| MsgNegMsg (subscription_id : SubscriptionId) (message : string)
| MsgNegErr (subscription_id : SubscriptionId) (message : string).

Inductive ClientMessage :=
| ClientReq (subscription_id : SubscriptionId) (filters : list Filter)
| ClientClose (subscription_id : SubscriptionId)
| ClientEvent (event : Event)
| ClientAuth (event : Event).

Class Wire := {
  encode_client : ClientMessage → result string string;
  decode_relay : string → result string RelayMessage;
  message_debug : RelayMessage → string;
  utf8_valid : string → bool
}.

(** ** Items of the handles ([routed.rs]) *)

Inductive SessionEnded :=
| EndedDisconnected (detail : BoundedText)
| ReconnectExhausted (attempts : nat) (detail : BoundedText).

Inductive SubscriptionItem :=
| ItemEvent (event : Event)
| ItemEndOfStoredEvents
| ItemClosed (reason : BoundedText)
| ItemLost (dropped : N)
| ItemEnded (ended : SessionEnded).

Inductive Settlement :=
| SettledAccepted (message : BoundedText)
| SettledRejected (message : BoundedText)
| SettledEnded (ended : SessionEnded).

Definition subscription_item `{Wire} (message : RelayMessage) : SubscriptionItem :=
  match message with
  | MsgEvent _ event => ItemEvent event
  | MsgEose _ => ItemEndOfStoredEvents
  | MsgClosed _ text => ItemClosed (BoundedText_new text)
  | other => ItemClosed (BoundedText_new ("unsupported relay message: " +:+ message_debug other))
  end.

Definition settlement `{Wire} (message : RelayMessage) : Settlement :=
  match message with
  | MsgOk _ true text => SettledAccepted (BoundedText_new text)
  | MsgOk _ false text => SettledRejected (BoundedText_new text)
  | other => SettledRejected (BoundedText_new ("unexpected acknowledgement: " +:+ message_debug other))
  end.

(** ** [Mailbox] ([router.rs]) *)

Record Mailbox (T : Type) := mkMailbox {
  mb_capacity : nat;
  mb_items : list T;
  mb_dropped : N;
  mb_closed : bool
}.
Arguments mkMailbox {T}.
Arguments mb_capacity {T}.
Arguments mb_items {T}.
Arguments mb_dropped {T}.
Arguments mb_closed {T}.

Section mailbox.
Context {T : Type}.

Definition Mailbox_new (capacity : nat) : Mailbox T := mkMailbox capacity [] 0 false.

(** [AtomicU64::fetch_add(1)] wraps. *)
Definition fetch_add_one (n : N) : N := ((n + 1) mod 2 ^ 64)%N.

Definition offer (item : T) (m : Mailbox T) : Mailbox T :=
  if mb_closed m then m
  else if bool_decide (mb_capacity m ≤ length (mb_items m))
  then mkMailbox (mb_capacity m) (mb_items m) (fetch_add_one (mb_dropped m)) (mb_closed m)
  else mkMailbox (mb_capacity m) (mb_items m ++ [item]) (mb_dropped m) (mb_closed m).

Definition take (m : Mailbox T) : option T * Mailbox T :=
  match mb_items m with
  | [] => (None, m)
  | item :: items => (Some item, mkMailbox (mb_capacity m) items (mb_dropped m) (mb_closed m))
  end.

Definition take_dropped (m : Mailbox T) : N * Mailbox T :=
  (mb_dropped m, mkMailbox (mb_capacity m) (mb_items m) 0 (mb_closed m)).

Definition mailbox_close (m : Mailbox T) : Mailbox T :=
  mkMailbox (mb_capacity m) (mb_items m) (mb_dropped m) true.
End mailbox.

(** ** [Router] ([router.rs]) *)

(** The watch channel of the connection: its sender, if it was not dropped, the
    last value, and how many changes watchers were told of. *)
Record ConnectionCell := mkCell {
  cc_sender : option Connection;
  cc_last : Connection;
  cc_version : N
}.

Record Router := mkRouter {
  rt_subscriptions : gmap SubscriptionId nat;
  rt_acknowledgements : gmap EventId (list nat);
  rt_cell : ConnectionCell;
  rt_sub_boxes : list (Mailbox SubscriptionItem);
  rt_ack_boxes : list (Mailbox Settlement)
}.

Definition rt_set_subscriptions s r := mkRouter s (rt_acknowledgements r) (rt_cell r) (rt_sub_boxes r) (rt_ack_boxes r).
Definition rt_set_acknowledgements a r := mkRouter (rt_subscriptions r) a (rt_cell r) (rt_sub_boxes r) (rt_ack_boxes r).
Definition rt_set_cell c r := mkRouter (rt_subscriptions r) (rt_acknowledgements r) c (rt_sub_boxes r) (rt_ack_boxes r).
Definition rt_set_sub_boxes b r := mkRouter (rt_subscriptions r) (rt_acknowledgements r) (rt_cell r) b (rt_ack_boxes r).
Definition rt_set_ack_boxes b r := mkRouter (rt_subscriptions r) (rt_acknowledgements r) (rt_cell r) (rt_sub_boxes r) b.

Definition Router_new (connection : Connection) : Router :=
  mkRouter ∅ ∅ (mkCell (Some connection) connection 0) [] [].

(** Writes through a shared reference. *)
Definition with_sub (b : nat) (f : Mailbox SubscriptionItem → Mailbox SubscriptionItem) (r : Router) : Router :=
  rt_set_sub_boxes (alter f b (rt_sub_boxes r)) r.
Definition with_ack (b : nat) (f : Mailbox Settlement → Mailbox Settlement) (r : Router) : Router :=
  rt_set_ack_boxes (alter f b (rt_ack_boxes r)) r.

Definition open_subscription (id : SubscriptionId) (capacity : nat) (r : Router) : nat * Router :=
  let b := length (rt_sub_boxes r) in
  (b, rt_set_subscriptions (<[id := b]> (rt_subscriptions r))
        (rt_set_sub_boxes (rt_sub_boxes r ++ [Mailbox_new capacity]) r)).

Definition release_subscription (id : SubscriptionId) (r : Router) : Router :=
  match rt_subscriptions r !! id with
  | Some b => with_sub b mailbox_close (rt_set_subscriptions (delete id (rt_subscriptions r)) r)
  | None => r
  end.

Definition await_acknowledgement (event : EventId) (r : Router) : nat * Router :=
  let b := length (rt_ack_boxes r) in
  let waiting := default [] (rt_acknowledgements r !! event) in
  (b, rt_set_acknowledgements (<[event := waiting ++ [b]]> (rt_acknowledgements r))
        (rt_set_ack_boxes (rt_ack_boxes r ++ [Mailbox_new 1]) r)).

Definition release_acknowledgement (event : EventId) (mailbox : nat) (r : Router) : Router :=
  match rt_acknowledgements r !! event with
  | Some waiting =>
      match List.filter (λ existing, negb (bool_decide (existing = mailbox))) waiting with
      | [] => rt_set_acknowledgements (delete event (rt_acknowledgements r)) r
      | rest => rt_set_acknowledgements (<[event := rest]> (rt_acknowledgements r)) r
      end
  | None => r
  end.

(** Ends every handle: the tables are emptied, each mailbox is told and closed. *)
Definition end_connection (ended : SessionEnded) (r : Router) : Router :=
  let r := fold_left (λ r b, with_sub b (λ m, mailbox_close (offer (ItemEnded ended) m)) r)
             (values (rt_subscriptions r)) (rt_set_subscriptions ∅ r) in
  fold_left (λ r b, with_ack b (λ m, mailbox_close (offer (SettledEnded ended) m)) r)
    (concat (values (rt_acknowledgements r))) (rt_set_acknowledgements ∅ r).

Definition is_terminal (c : Connection) : bool :=
  match cn_connectivity c with Disconnected _ (Some _) => true | _ => false end.

(** What a transition means for the handles. *)
Definition ending_of (before after : Connection) : option SessionEnded :=
  match cn_connectivity after with
  | Disconnected detail (Some attempts) => Some (ReconnectExhausted attempts detail)
  | Disconnected detail None => Some (EndedDisconnected detail)
  | _ => if bool_decide (cn_identity after ≠ cn_identity before)
            && bool_decide (cn_connectivity before = Connected)
         then Some (EndedDisconnected (BoundedText_new "session reconnected"))
         else None
  end.

(** [moved]; the closure may answer a value of its own. *)
Definition moved_with {A} (untouched : A) (next : Connection → Connection * A) (r : Router) : A * Router :=
  match cc_sender (rt_cell r) with
  | None => (untouched, r)
  | Some before =>
      let '(after, answer) := next before in
      let version := if bool_decide (after = before) then cc_version (rt_cell r) else (cc_version (rt_cell r) + 1)%N in
      let r := rt_set_cell (mkCell (if is_terminal after then None else Some after) after version) r in
      (answer, match ending_of before after with Some ended => end_connection ended r | None => r end)
  end.

Definition moved (next : Connection → Connection) (r : Router) : Router :=
  (moved_with tt (λ c, (next c, tt)) r).2.

Definition set_connectivity (v : Connectivity) (c : Connection) : Connection :=
  mkConnection (cn_identity c) v (cn_authentication c).
Definition set_authentication (v : Authentication) (c : Connection) : Connection :=
  mkConnection (cn_identity c) (cn_connectivity c) v.
Definition set_progress (p : Progress) (c : Connection) : Connection :=
  set_authentication (mkAuthentication (established (cn_authentication c)) p) c.

Definition close_connection (r : Router) : Router :=
  moved (λ c, if is_terminal c then c
              else set_connectivity (Disconnected (BoundedText_new "session closed") (Some 0)) c) r.

Definition router_close (r : Router) : Router := close_connection r.

(** The subscription a message is addressed to. *)
Definition addressed_to (message : RelayMessage) : option SubscriptionId :=
  match message with
  | MsgEvent id _ | MsgEose id | MsgClosed id _ | MsgCount id _ | MsgNegMsg id _ | MsgNegErr id _ => Some id
  | _ => None
  end.

Definition deliver `{Wire} (message : RelayMessage) (r : Router) : Router :=
  match message with
  | MsgEvent id _ | MsgEose id | MsgClosed id _ | MsgCount id _ | MsgNegMsg id _ | MsgNegErr id _ =>
      match rt_subscriptions r !! id with
      | Some mailbox => with_sub mailbox (offer (subscription_item message)) r
      | None => r
      end
  | MsgOk event_id _ _ =>
      match rt_acknowledgements r !! event_id with
      | Some waiting => fold_left (λ r mailbox, with_ack mailbox (offer (settlement message)) r) waiting r
      | None => r
      end
  | MsgAuth challenge => moved (set_progress (Requested challenge)) r
  | MsgNotice _ => r
  end.

(** ** The handles ([routed.rs]) *)

Record RoutedSubscription := mkRoutedSubscription {
  rs_id : SubscriptionId;
  rs_mailbox : nat;
  rs_armed : bool
}.

Record RoutedAcknowledgement := mkRoutedAcknowledgement {
  ra_event : EventId;
  ra_mailbox : nat
}.

(** Which way one turn of [Subscription::next] leaves its loop. *)
Inductive NextOutcome :=
| NextTook (item : SubscriptionItem)
| NextLost (dropped : N)
| NextEnded
| NextWaits.

Definition next_from (m : Mailbox SubscriptionItem) : NextOutcome * Mailbox SubscriptionItem :=
  match take m with
  | (Some item, m) => (NextTook item, m)
  | (None, m) =>
      let '(dropped, m) := take_dropped m in
      if bool_decide (0 < dropped)%N then (NextLost dropped, m)
      else if mb_closed m then (NextEnded, m) else (NextWaits, m)
  end.

Definition session_closed : SessionEnded := EndedDisconnected (BoundedText_new "session closed").

(** The item [next] returns; [None] while it waits. *)
Definition next_item (o : NextOutcome) : option SubscriptionItem :=
  match o with
  | NextTook item => Some item
  | NextLost dropped => Some (ItemLost dropped)
  | NextEnded => Some (ItemEnded session_closed)
  | NextWaits => None
  end.

Definition subscription_next (mailbox : nat) (r : Router) : NextOutcome * Router :=
  match rt_sub_boxes r !! mailbox with
  | Some m => let '(o, m) := next_from m in (o, rt_set_sub_boxes (<[mailbox := m]> (rt_sub_boxes r)) r)
  | None => (NextWaits, r)
  end.

(** One turn of [Acknowledgement::settled]. *)
Definition settled (handle : RoutedAcknowledgement) (r : Router) : option Settlement * Router :=
  match rt_ack_boxes r !! ra_mailbox handle with
  | Some m =>
      match take m with
      | (Some s, m) =>
          (Some s, release_acknowledgement (ra_event handle) (ra_mailbox handle)
                     (rt_set_ack_boxes (<[ra_mailbox handle := m]> (rt_ack_boxes r)) r))
      | (None, _) =>
          if mb_closed m
          then (Some (SettledEnded session_closed), release_acknowledgement (ra_event handle) (ra_mailbox handle) r)
          else (None, r)
      end
  | None => (None, r)
  end.

(** ** Encoding ([session.rs], [encoded]) *)

Section verbs.
Context `{Wire}.

(** The frame to hand off, or the outcome when there is none. *)
Definition encoded (identity : RelaySessionIdentity) (message : ClientMessage) : result HandoffOutcome string :=
  match encode_client message with
  | Ok frame => Ok frame
  | Err error => Err (NotHandedOff identity 0 (FailureDisconnected (BoundedText_new ("REQ encoding failed: " +:+ error))))
  end.

(** [subscribe]: up to the hand-off, and from its outcome on. *)
Definition subscribe_start (identity : RelaySessionIdentity) (id : SubscriptionId) (capacity : nat)
    (filters : list Filter) (r : Router) : (nat * result HandoffOutcome string) * Router :=
  let '(mailbox, r) := open_subscription id capacity r in
  ((mailbox, encoded identity (ClientReq id filters)), r).

Definition subscribe_finish (id : SubscriptionId) (mailbox : nat) (outcome : HandoffOutcome) (r : Router) :
    result HandoffOutcome RoutedSubscription * Router :=
  match outcome with
  | HandedOff _ _ => (Ok (mkRoutedSubscription id mailbox true), r)
  | refused => (Err refused, release_subscription id r)
  end.

(** [publish], split the same way. *)
Definition publish_start (identity : RelaySessionIdentity) (event : Event) (r : Router) :
    (nat * result HandoffOutcome string) * Router :=
  let '(mailbox, r) := await_acknowledgement (ev_id event) r in
  ((mailbox, encoded identity (ClientEvent event)), r).

Definition publish_finish (event : EventId) (mailbox : nat) (outcome : HandoffOutcome) (r : Router) :
    result HandoffOutcome RoutedAcknowledgement * Router :=
  match outcome with
  | HandedOff _ _ => (Ok (mkRoutedAcknowledgement event mailbox), r)
  | refused => (Err refused, release_acknowledgement event mailbox r)
  end.

(** Take up the question in front of the connection, if there is one. *)
Definition take_up (as_of : PublicKey) (c : Connection) : Connection * bool :=
  match progress (cn_authentication c) with
  | Requested _ => (set_progress (Answering as_of) c, true)
  | _ => (c, false)
  end.

(** [answer] up to its hand-off; it finishes like [publish]. *)
Definition answer_start (identity : RelaySessionIdentity) (event : Event) (r : Router) :
    result HandoffOutcome (nat * result HandoffOutcome string) * Router :=
  let '(taken_up, r) := moved_with false (take_up (ev_pubkey event)) r in
  if taken_up
  then let '(mailbox, r) := await_acknowledgement (ev_id event) r in
       (Ok (mailbox, encoded identity (ClientAuth event)), r)
  else (Err (NotHandedOff identity 0 (FailureDisconnected (BoundedText_new
          "the connection that was asked is gone; this answers a question it never received"))), r).

Definition record_progress (p : Progress) (r : Router) : Router := moved (set_progress p) r.

Definition record_accepted (account : PublicKey) (r : Router) : Router :=
  moved (set_authentication (mkAuthentication (Some account) Idle)) r.

Definition close_frame (id : SubscriptionId) : option string :=
  match encode_client (ClientClose id) with Ok frame => Some frame | Err _ => None end.

(** [Subscription::close]: the key is released; the frame is handed off. *)
Definition subscription_close (identity : RelaySessionIdentity) (h : RoutedSubscription) (r : Router) :
    result HandoffOutcome string * Router :=
  (match close_frame (rs_id h) with
   | Some frame => Ok frame
   | None => Err (NotHandedOff identity 0 SessionClosed)
   end, release_subscription (rs_id h) r).

(** [Drop]: the frame to enqueue, if any. *)
Definition subscription_drop (h : RoutedSubscription) (r : Router) : option string * Router :=
  if rs_armed h then (close_frame (rs_id h), release_subscription (rs_id h) r) else (None, r).

(** ** Runs of one router *)

(** Everything that touches a router: the verbs above are sequences of these. *)
Inductive RouterCall :=
| CallOpen (id : SubscriptionId) (capacity : nat)
| CallRelease (id : SubscriptionId)
| CallAwait (event : EventId)
| CallReleaseAck (event : EventId) (mailbox : nat)
| CallMoved (next : Connection → Connection)
| CallDeliver (message : RelayMessage)
| CallNext (mailbox : nat)
| CallSettled (event : EventId) (mailbox : nat).

Definition router_call (c : RouterCall) (r : Router) : Router :=
  match c with
  | CallOpen id capacity => (open_subscription id capacity r).2
  | CallRelease id => release_subscription id r
  | CallAwait event => (await_acknowledgement event r).2
  | CallReleaseAck event mailbox => release_acknowledgement event mailbox r
  | CallMoved next => moved next r
  | CallDeliver message => deliver message r
  | CallNext mailbox => (subscription_next mailbox r).2
  | CallSettled event mailbox => (settled (mkRoutedAcknowledgement event mailbox) r).2
  end.

Definition router_run (r : Router) (calls : list RouterCall) : Router :=
  fold_left (λ r c, router_call c r) calls r.

(** What the reader of a mailbox was answered in a run, in order. *)
Fixpoint reads_of (mailbox : nat) (r : Router) (calls : list RouterCall) : list NextOutcome :=
  match calls with
  | [] => []
  | c :: calls =>
      match c with
      | CallNext b => if bool_decide (b = mailbox) then [(subscription_next b r).1] else []
      | _ => []
      end ++ reads_of mailbox (router_call c r) calls
  end.

Definition taken (reads : list NextOutcome) : list SubscriptionItem :=
  omap (λ o, match o with NextTook item => Some item | _ => None end) reads.
Definition lost (reads : list NextOutcome) : N :=
  foldr N.add 0%N (omap (λ o, match o with NextLost n => Some n | _ => None end) reads).

(** The messages of a run addressed to a subscription. *)
Definition message_for (id : SubscriptionId) (c : RouterCall) : option RelayMessage :=
  match c with
  | CallDeliver message => if bool_decide (addressed_to message = Some id) then Some message else None
  | _ => None
  end.
Definition messages_for (id : SubscriptionId) (calls : list RouterCall) : list RelayMessage :=
  omap (message_for id) calls.
End verbs.

(** ** Authentication requests ([publish_authentication_requests]) *)

(** One turn of the loop: what it remembers, and whether it announces. *)
Definition request_turn (current : Connection) (seen : RelaySessionIdentity) (asked : option string) :
    bool * (RelaySessionIdentity * option string) :=
  let asked := if bool_decide (cn_identity current ≠ seen) then None else asked in
  match progress (cn_authentication current) with
  | Requested challenge =>
      if bool_decide (asked ≠ Some challenge)
      then (true, (cn_identity current, Some challenge))
      else (false, (cn_identity current, asked))
  | _ => (false, (cn_identity current, asked))
  end.

(** [awaiting_authentication] over the routers of the sessions. *)
Definition awaits_answer (r : Router) : bool :=
  match progress (cn_authentication (cc_last (rt_cell r))) with Requested _ => true | _ => false end.
