(* ===== verification/TransportProps.v ===== *)
(** * What a relay session promises its handles ([crates/fava-transport])

    Runs of the router of [Transport]: its tables and mailboxes stay coherent, a
    subscription reads exactly what its relay addressed to it, with every loss
    counted, an ended connection leaves no reader waiting, and a closed one
    never changes again.  Two theorems record where a reason is lost. *)

From S2P Require Import Prelude Nostr Relay Transport.

(** ** Mailboxes *)

Section mailboxes.
Context {T : Type}.
Implicit Types m : Mailbox T.

Definition mailbox_bounded m : Prop := length (mb_items m) ≤ mb_capacity m.

Lemma offer_closed item m : mb_closed m = true → offer item m = m.
Proof. unfold offer. by intros ->. Qed.

Lemma offer_flag item m : mb_closed (offer item m) = mb_closed m.
Proof. unfold offer. repeat case_match; done. Qed.

Lemma offer_capacity item m : mb_capacity (offer item m) = mb_capacity m.
Proof. unfold offer. repeat case_match; done. Qed.

Lemma offer_bounded item m : mailbox_bounded m → mailbox_bounded (offer item m).
Proof.
  unfold mailbox_bounded, offer. intros Hm. case_match; [done|]. case_bool_decide; cbn; [done|].
  rewrite length_app. cbn. lia.
Qed.

Lemma take_bounded m : mailbox_bounded m → mailbox_bounded (take m).2.
Proof. unfold mailbox_bounded, take. destruct (mb_items m) as [|x l] eqn:E; cbn; rewrite ?E; cbn; [done|lia]. Qed.

(** Ending a mailbox twice is ending it once. *)
Lemma end_idem item m : mailbox_close (offer item (mailbox_close (offer item m))) = mailbox_close (offer item m).
Proof. by rewrite offer_closed. Qed.
End mailboxes.

Lemma next_bounded m : mailbox_bounded m → mailbox_bounded (next_from m).2.
Proof.
  unfold mailbox_bounded, next_from, take, take_dropped. intros Hm. destruct (mb_items m) as [|x l] eqn:E; cbn in Hm |- *; [|lia].
  rewrite E. repeat case_match; simplify_eq/=; lia.
Qed.

Lemma next_flag m : mb_closed (next_from m).2 = mb_closed m.
Proof. unfold next_from, take, take_dropped. destruct (mb_items m); cbn; repeat case_match; done. Qed.

Lemma next_capacity m : mb_capacity (next_from m).2 = mb_capacity m.
Proof. unfold next_from, take, take_dropped. destruct (mb_items m); cbn; repeat case_match; done. Qed.

(** ** Folds of writes through references *)

Section heap.
Context {M : Type} (f : M → M).

Lemma alter_all_lookup (bs : list nat) (l : list M) i :
  NoDup bs ∨ (∀ m, f (f m) = f m) →
  fold_left (λ l b, alter f b l) bs l !! i = (if bool_decide (i ∈ bs) then f <$> l !! i else l !! i).
Proof.
  intros Hf. revert l. induction bs as [|b bs IH]; intros l; [done|]. cbn.
  rewrite IH by (destruct Hf as [Hn|]; [left; by apply NoDup_cons in Hn as []|by right]).
  destruct (decide (i = b)) as [->|Hne].
  - rewrite (bool_decide_eq_true_2 (b ∈ b :: bs)) by set_solver. rewrite list_lookup_alter_eq.
    case_bool_decide as Hb; [|done]. destruct Hf as [[]%NoDup_cons|Hf]; [done|].
    by destruct (l !! b) as [m|]; cbn; rewrite ?Hf.
  - rewrite list_lookup_alter_ne by done. by rewrite (bool_decide_ext (i ∈ b :: bs) (i ∈ bs)) by set_solver.
Qed.

Lemma length_alter_all (bs : list nat) (l : list M) : length (fold_left (λ l b, alter f b l) bs l) = length l.
Proof. revert l. induction bs as [|b bs IH]; intros l; [done|]. cbn. by rewrite IH, length_alter. Qed.
End heap.

Lemma fold_with_sub f bs r :
  fold_left (λ r b, with_sub b f r) bs r =
  rt_set_sub_boxes (fold_left (λ l b, alter f b l) bs (rt_sub_boxes r)) r.
Proof. revert r. induction bs as [|b bs IH]; intros r; [by destruct r|]. cbn. by rewrite IH. Qed.

Lemma fold_with_ack f bs r :
  fold_left (λ r b, with_ack b f r) bs r =
  rt_set_ack_boxes (fold_left (λ l b, alter f b l) bs (rt_ack_boxes r)) r.
Proof. revert r. induction bs as [|b bs IH]; intros r; [by destruct r|]. cbn. by rewrite IH. Qed.

(** ** Ending a connection *)

Definition registered (r : Router) (b : nat) : Prop := ∃ id, rt_subscriptions r !! id = Some b.
Definition awaited (r : Router) (b : nat) : Prop := ∃ e l, rt_acknowledgements r !! e = Some l ∧ b ∈ l.

Definition ended_sub (ended : SessionEnded) (m : Mailbox SubscriptionItem) := mailbox_close (offer (ItemEnded ended) m).
Definition ended_ack (ended : SessionEnded) (m : Mailbox Settlement) := mailbox_close (offer (SettledEnded ended) m).

#[global] Instance registered_dec r b : Decision (registered r b).
Proof.
  destruct (decide (b ∈ values (rt_subscriptions r))) as [Hb|Hb]; [left|right];
    rewrite elem_of_values in Hb; [destruct Hb; by eexists|intros [id Hid]; by apply Hb; exists id].
Defined.

#[global] Instance awaited_dec r b : Decision (awaited r b).
Proof.
  destruct (decide (b ∈ concat (values (rt_acknowledgements r)))) as [Hb|Hb]; [left|right].
  - apply list_elem_of_In, in_concat in Hb as (l & [e He]%list_elem_of_In%elem_of_values & Hl%list_elem_of_In). by exists e, l.
  - intros (e & l & He & Hl). apply Hb, list_elem_of_In, in_concat. exists l.
    rewrite <- !list_elem_of_In, elem_of_values. split; [by exists e|done].
Defined.

Lemma registered_values r b : b ∈ values (rt_subscriptions r) ↔ registered r b.
Proof. apply elem_of_values. Qed.

Lemma awaited_concat r b : b ∈ concat (values (rt_acknowledgements r)) ↔ awaited r b.
Proof.
  rewrite list_elem_of_In, in_concat. setoid_rewrite <- list_elem_of_In. setoid_rewrite elem_of_values.
  unfold awaited. naive_solver.
Qed.

(** The whole effect of [end_connection]. *)
Lemma end_connection_spec ended r :
  let r' := end_connection ended r in
  rt_subscriptions r' = ∅ ∧ rt_acknowledgements r' = ∅ ∧ rt_cell r' = rt_cell r ∧
  length (rt_sub_boxes r') = length (rt_sub_boxes r) ∧ length (rt_ack_boxes r') = length (rt_ack_boxes r) ∧
  (∀ b, rt_sub_boxes r' !! b = (if bool_decide (registered r b) then ended_sub ended <$> rt_sub_boxes r !! b
                                else rt_sub_boxes r !! b)) ∧
  (∀ b, rt_ack_boxes r' !! b = (if bool_decide (awaited r b) then ended_ack ended <$> rt_ack_boxes r !! b
                                else rt_ack_boxes r !! b)).
Proof.
  unfold end_connection. rewrite fold_with_sub, fold_with_ack. cbn. rewrite !length_alter_all.
  split_and!; [done..|intros b|intros b].
  - rewrite alter_all_lookup by (right; intros; apply end_idem).
    by rewrite (bool_decide_ext _ _ (registered_values r b)).
  - rewrite alter_all_lookup by (right; intros; apply end_idem).
    by rewrite (bool_decide_ext _ _ (awaited_concat r b)).
Qed.

(** ** The invariant of a router *)

(** Subscriptions: a registered mailbox is open and belongs to one wire key,
    every other one is closed, and no queue exceeds its capacity. *)
Record subs_ok (subs : gmap string nat) (boxes : list (Mailbox SubscriptionItem)) : Prop := {
  so_open id b : subs !! id = Some b → ∃ m, boxes !! b = Some m ∧ mb_closed m = false;
  so_inj i j b : subs !! i = Some b → subs !! j = Some b → i = j;
  so_orphan b m : boxes !! b = Some m → (∀ id, subs !! id ≠ Some b) → mb_closed m = true;
  so_bounded b m : boxes !! b = Some m → mailbox_bounded m
}.

(** Acknowledgements: an awaited mailbox is open and waits for one event, once;
    no event is kept without a waiter. *)
Record acks_ok (acks : gmap EventId (list nat)) (boxes : list (Mailbox Settlement)) : Prop := {
  ao_open e l b : acks !! e = Some l → b ∈ l → ∃ m, boxes !! b = Some m ∧ mb_closed m = false;
  ao_unique e1 e2 l1 l2 b : acks !! e1 = Some l1 → acks !! e2 = Some l2 → b ∈ l1 → b ∈ l2 → e1 = e2;
  ao_waiters e l : acks !! e = Some l → l ≠ [] ∧ NoDup l;
  ao_bounded b m : boxes !! b = Some m → mailbox_bounded m
}.

(** The connection: watchers see the last value, and the sender is gone exactly
    in a terminal state. *)
Definition cell_ok (c : ConnectionCell) : Prop :=
  match cc_sender c with
  | Some current => current = cc_last c ∧ is_terminal current = false
  | None => is_terminal (cc_last c) = true
  end.

Record router_ok (r : Router) : Prop := {
  rk_subs : subs_ok (rt_subscriptions r) (rt_sub_boxes r);
  rk_acks : acks_ok (rt_acknowledgements r) (rt_ack_boxes r);
  rk_cell : cell_ok (rt_cell r)
}.

(** A write that neither opens nor closes the mailbox and respects its bound. *)
Definition tame {T} (f : Mailbox T → Mailbox T) : Prop :=
  ∀ m, mb_closed (f m) = mb_closed m ∧ (mailbox_bounded m → mailbox_bounded (f m)).

Lemma tame_offer {T} (x : T) : tame (offer x).
Proof. intros m. split; [apply offer_flag|apply offer_bounded]. Qed.
Lemma tame_take {T} : tame (λ m : Mailbox T, (take m).2).
Proof. intros m. split; [unfold take; by destruct (mb_items m)|apply take_bounded]. Qed.
Lemma tame_next : tame (λ m, (next_from m).2).
Proof. intros m. split; [apply next_flag|apply next_bounded]. Qed.

Create HintDb transport.
#[export] Hint Resolve tame_offer tame_take tame_next : transport.

Lemma alter_lookup_Some {M} (f : M → M) (i b : nat) (l : list M) m :
  alter f i l !! b = Some m ↔ ∃ m0, l !! b = Some m0 ∧ m = (if bool_decide (b = i) then f m0 else m0).
Proof.
  destruct (decide (b = i)) as [->|Hne].
  - rewrite list_lookup_alter_eq, fmap_Some. by rewrite bool_decide_eq_true_2.
  - rewrite list_lookup_alter_ne by done. rewrite bool_decide_eq_false_2 by done. naive_solver.
Qed.

Lemma alter_as_insert {M} (f : M → M) (b : nat) (l : list M) m : l !! b = Some m → alter f b l = <[b := f m]> l.
Proof.
  intros Hm. apply list_eq. intros i. destruct (decide (i = b)) as [->|Hne].
  - rewrite list_lookup_alter_eq, Hm, list_lookup_insert_eq; [done|by eapply lookup_lt_Some].
  - by rewrite list_lookup_alter_ne, list_lookup_insert_ne.
Qed.

Lemma subs_ok_alter subs boxes f b : tame f → subs_ok subs boxes → subs_ok subs (alter f b boxes).
Proof.
  intros Hf [Ho Hi Hr Hb]. split; [intros id a Ha|done|intros a m Hm Hn|intros a m Hm].
  - destruct (Ho _ _ Ha) as (m & Hm & Hc). exists (if bool_decide (a = b) then f m else m). split.
    + apply alter_lookup_Some. eauto.
    + case_bool_decide; [|done]. by rewrite (proj1 (Hf m)).
  - apply alter_lookup_Some in Hm as (m0 & Hm0 & ->). case_bool_decide; [rewrite (proj1 (Hf m0))|]; eauto.
  - apply alter_lookup_Some in Hm as (m0 & Hm0 & ->). case_bool_decide; [apply Hf|]; eauto.
Qed.

Lemma acks_ok_alter acks boxes f b : tame f → acks_ok acks boxes → acks_ok acks (alter f b boxes).
Proof.
  intros Hf [Ho Hu Hw Hb]. split; [intros e l a Hl Ha|done|done|intros a m Hm].
  - destruct (Ho _ _ _ Hl Ha) as (m & Hm & Hc). exists (if bool_decide (a = b) then f m else m). split.
    + apply alter_lookup_Some. eauto.
    + case_bool_decide; [|done]. by rewrite (proj1 (Hf m)).
  - apply alter_lookup_Some in Hm as (m0 & Hm0 & ->). case_bool_decide; [apply Hf|]; eauto.
Qed.

Lemma acks_ok_fold acks f bs boxes :
  tame f → acks_ok acks boxes → acks_ok acks (fold_left (λ l b, alter f b l) bs boxes).
Proof. intros Hf. revert boxes. induction bs as [|b bs IH]; intros boxes Hok; [done|]. apply IH. by apply acks_ok_alter. Qed.

Lemma subs_ok_open id capacity r :
  rt_subscriptions r !! id = None → subs_ok (rt_subscriptions r) (rt_sub_boxes r) →
  subs_ok (rt_subscriptions (open_subscription id capacity r).2) (rt_sub_boxes (open_subscription id capacity r).2).
Proof.
  intros Hid [Ho Hi Hr Hb]. unfold open_subscription. cbn.
  assert (Hlt : ∀ i b, rt_subscriptions r !! i = Some b → b < length (rt_sub_boxes r)).
  { intros i b Hb'. destruct (Ho _ _ Hb') as (m & Hm & _). by eapply lookup_lt_Some. }
  split.
  - intros i b [[<- <-]|[_ Hb']]%lookup_insert_Some.
    + exists (Mailbox_new capacity). split; [by apply list_lookup_middle|done].
    + destruct (Ho _ _ Hb') as (m & Hm & Hc). exists m. split; [by apply lookup_app_l_Some|done].
  - intros i j b [[<- <-]|[_ Hib]]%lookup_insert_Some [[<- Hjb]|[_ Hjb]]%lookup_insert_Some; try done; subst; eauto.
    + apply Hlt in Hjb. lia.
    + apply Hlt in Hib. lia.
  - intros b m [Hm|(Hlen & Hm)]%lookup_app_Some Hn.
    + apply (Hr b); [done|]. intros i Hib. destruct (decide (i = id)) as [->|]; [congruence|].
      apply (Hn i). by rewrite lookup_insert_ne.
    + exfalso. apply (Hn id). rewrite lookup_insert_eq. f_equal. apply list_lookup_singleton_Some in Hm. lia.
  - intros b m [Hm|(Hlen & [_ <-]%list_lookup_singleton_Some)]%lookup_app_Some; [eauto|].
    unfold mailbox_bounded. cbn. lia.
Qed.

Lemma subs_ok_release id b subs boxes :
  subs !! id = Some b → subs_ok subs boxes → subs_ok (delete id subs) (alter mailbox_close b boxes).
Proof.
  intros Hid [Ho Hi Hr Hb]. split.
  - intros i a [Hne Ha]%lookup_delete_Some. destruct (Ho _ _ Ha) as (m & Hm & Hc). exists m. split; [|done].
    rewrite list_lookup_alter_ne; [done|]. intros ->. destruct Hne. eauto.
  - intros i j a [_ ?]%lookup_delete_Some [_ ?]%lookup_delete_Some. eauto.
  - intros a m (m0 & Hm0 & ->)%alter_lookup_Some Hn. case_bool_decide as Hab; [done|].
    apply (Hr a); [done|]. intros i Hi'. apply (Hn i). rewrite lookup_delete_ne; [done|]. intros ->. congruence.
  - intros a m (m0 & Hm0 & ->)%alter_lookup_Some. case_bool_decide; [|eauto]. apply (Hb a m0 Hm0).
Qed.

Lemma acks_ok_await event r :
  acks_ok (rt_acknowledgements r) (rt_ack_boxes r) →
  acks_ok (rt_acknowledgements (await_acknowledgement event r).2) (rt_ack_boxes (await_acknowledgement event r).2).
Proof.
  intros [Ho Hu Hw Hb]. unfold await_acknowledgement. cbn.
  assert (Hlt : ∀ e l b, rt_acknowledgements r !! e = Some l → b ∈ l → b < length (rt_ack_boxes r)).
  { intros e l b Hl Hb'. destruct (Ho _ _ _ Hl Hb') as (m & Hm & _). by eapply lookup_lt_Some. }
  assert (Hold : ∀ b, b ∈ default [] (rt_acknowledgements r !! event) →
    ∃ l, rt_acknowledgements r !! event = Some l ∧ b ∈ l).
  { intros b. destruct (rt_acknowledgements r !! event) as [l|]; cbn; [by exists l|by intros ?%not_elem_of_nil]. }
  split.
  - intros e l b [[<- <-]|[_ Hl]]%lookup_insert_Some Hin.
    + apply elem_of_snoc in Hin as [(l & Hl & Hin)%Hold| ->].
      * destruct (Ho _ _ _ Hl Hin) as (m & Hm & Hc). exists m. split; [by apply lookup_app_l_Some|done].
      * exists (Mailbox_new 1). split; [by apply list_lookup_middle|done].
    + destruct (Ho _ _ _ Hl Hin) as (m & Hm & Hc). exists m. split; [by apply lookup_app_l_Some|done].
  - intros e1 e2 l1 l2 b [[<- <-]|[Hn1 Hl1]]%lookup_insert_Some [[<- <-]|[Hn2 Hl2]]%lookup_insert_Some Hin1 Hin2; try done; eauto.
    + apply elem_of_snoc in Hin1 as [(l & Hl & Hin)%Hold| ->]; [eauto|]. apply (Hlt _ _ _ Hl2) in Hin2. lia.
    + apply elem_of_snoc in Hin2 as [(l & Hl & Hin)%Hold| ->]; [eauto|]. apply (Hlt _ _ _ Hl1) in Hin1. lia.
  - intros e l [[<- <-]|[_ Hl]]%lookup_insert_Some; [|eauto]. split; [by destruct (default _ _)|].
    apply NoDup_snoc.
    + destruct (rt_acknowledgements r !! event) as [l|] eqn:E; cbn; [by eapply Hw|constructor].
    + intros (l & Hl & Hin)%Hold. apply (Hlt _ _ _ Hl) in Hin. lia.
  - intros b m [Hm|(Hlen & [_ <-]%list_lookup_singleton_Some)]%lookup_app_Some; [eauto|].
    unfold mailbox_bounded. cbn. lia.
Qed.

Lemma acks_ok_shrink event rest (acks : gmap EventId (list nat)) boxes :
  (∃ l, acks !! event = Some l ∧ NoDup rest ∧ (∀ b, b ∈ rest → b ∈ l)) → rest ≠ [] →
  acks_ok acks boxes → acks_ok (<[event := rest]> acks) boxes.
Proof.
  intros (l & Hl & Hnd & Hsub) Hne [Ho Hu Hw Hb]. split; [| | |done].
  - intros e l' b [[<- <-]|[_ ?]]%lookup_insert_Some Hin; eauto.
  - intros e1 e2 l1 l2 b [[<- <-]|[? ?]]%lookup_insert_Some [[<- <-]|[? ?]]%lookup_insert_Some Hin1 Hin2; eauto.
  - intros e l' [[<- <-]|[_ ?]]%lookup_insert_Some; eauto.
Qed.

Lemma acks_ok_delete event (acks : gmap EventId (list nat)) boxes : acks_ok acks boxes → acks_ok (delete event acks) boxes.
Proof.
  intros [Ho Hu Hw Hb]. split; [| | |done].
  - intros e l b [_ ?]%lookup_delete_Some ?. eauto.
  - intros e1 e2 l1 l2 b [_ ?]%lookup_delete_Some [_ ?]%lookup_delete_Some. eauto.
  - intros e l [_ ?]%lookup_delete_Some. eauto.
Qed.

Lemma release_ack_ok event b r : router_ok r → router_ok (release_acknowledgement event b r).
Proof.
  intros [Hs Ha Hc]. unfold release_acknowledgement. destruct (rt_acknowledgements r !! event) as [l|] eqn:El; [|done].
  destruct (List.filter _ l) as [|x rest] eqn:Ef.
  - split; [done|by apply acks_ok_delete|done].
  - split; [done| |done]. apply acks_ok_shrink; [|done|done]. exists l. rewrite <- Ef. split_and!; [done| |].
    + apply NoDup_ListNoDup, List.NoDup_filter, NoDup_ListNoDup, (ao_waiters _ _ Ha _ _ El).
    + intros a [_ Ha']%elem_of_filterb. done.
Qed.

Lemma end_connection_ok ended r : router_ok r → router_ok (end_connection ended r).
Proof.
  intros [[Ho Hi Hr Hb] [Ao Au Aw Ab] Hc].
  destruct (end_connection_spec ended r) as (Es & Ea & Ec & _ & _ & Hsb & Hab). split; rewrite ?Es, ?Ea, ?Ec; [| |done].
  - split; [by intros ??|by intros ???| |].
    + intros b m Hm _. rewrite Hsb in Hm. case_bool_decide as Hreg.
      * apply fmap_Some in Hm as (m0 & _ & ->). done.
      * apply (Hr b); [done|]. intros id Hid. apply Hreg. by exists id.
    + intros b m Hm. rewrite Hsb in Hm. case_bool_decide; [|eauto].
      apply fmap_Some in Hm as (m0 & Hm0 & ->). by apply (offer_bounded (ItemEnded ended)), (Hb b).
  - split; [by intros ???|by intros ?????|by intros ??|].
    intros b m Hm. rewrite Hab in Hm. case_bool_decide; [|eauto].
    apply fmap_Some in Hm as (m0 & Hm0 & ->). by apply (offer_bounded (SettledEnded ended)), (Ab b).
Qed.

Lemma moved_ok {A} (x : A) next r : router_ok r → router_ok (moved_with x next r).2.
Proof.
  intros Hok. unfold moved_with. destruct (cc_sender (rt_cell r)) as [before|]; [|done].
  destruct (next before) as [after answer]. cbn. destruct Hok as [Hs Ha Hc].
  assert (Hmid : ∀ v, router_ok (rt_set_cell (mkCell (if is_terminal after then None else Some after) after v) r)).
  { intros v. split; [done|done|]. unfold cell_ok. cbn. destruct (is_terminal after) eqn:E; cbn; done. }
  destruct (ending_of before after); [apply end_connection_ok|]; apply Hmid.
Qed.

Section runs.
Context `{Wire}.

(** An opened wire key is not in use: the session mints a new one per request. *)
Definition fresh_call (r : Router) (c : RouterCall) : Prop :=
  match c with CallOpen id _ => rt_subscriptions r !! id = None | _ => True end.

Fixpoint fresh_calls (r : Router) (calls : list RouterCall) : Prop :=
  match calls with
  | [] => True
  | c :: calls => fresh_call r c ∧ fresh_calls (router_call c r) calls
  end.

Lemma router_call_ok c r : fresh_call r c → router_ok r → router_ok (router_call c r).
Proof.
  intros Hfresh Hok. pose proof Hok as [Hs Ha Hc].
  destruct c as [id capacity|id|event|event b|next|message|b|event b]; cbn [router_call].
  - split; [by apply subs_ok_open|done|done].
  - unfold release_subscription. destruct (rt_subscriptions r !! id) as [b|] eqn:E; [|done].
    split; [by apply subs_ok_release|done|done].
  - split; [done|by apply acks_ok_await|done].
  - by apply release_ack_ok.
  - by apply moved_ok.
  - destruct message as [id ?|e ? ?|id| |id ?|challenge|id ?|id ?|id ?]; cbn [deliver]; try done; try by apply moved_ok.
    all: first [ destruct (rt_subscriptions r !! id) as [b|]; [|done]; split; [apply subs_ok_alter; auto with transport|done|done]
               | idtac ].
    destruct (rt_acknowledgements r !! e) as [l|]; [|done]. rewrite fold_with_ack.
    split; [done|apply acks_ok_fold; auto with transport|done].
  - unfold subscription_next. destruct (rt_sub_boxes r !! b) as [m|] eqn:E; [|done].
    destruct (next_from m) as [o m'] eqn:En. split; cbn; [|done|done].
    replace (<[b:=m']> (rt_sub_boxes r)) with (alter (λ m, (next_from m).2) b (rt_sub_boxes r)).
    { apply subs_ok_alter; auto with transport. }
    erewrite alter_as_insert by done. by rewrite En.
  - unfold settled. cbn. destruct (rt_ack_boxes r !! b) as [m|] eqn:E; [|done].
    destruct (take m) as [[s|] m'] eqn:Et; cbn.
    + apply release_ack_ok. split; cbn; [done| |done].
      replace (<[b:=m']> (rt_ack_boxes r)) with (alter (λ m, (take m).2) b (rt_ack_boxes r)).
      { apply acks_ok_alter; auto with transport. }
      erewrite alter_as_insert by done. by rewrite Et.
    + destruct (mb_closed m); [by apply release_ack_ok|done].
Qed.

Lemma router_run_ok r calls : fresh_calls r calls → router_ok r → router_ok (router_run r calls).
Proof.
  revert r. induction calls as [|c calls IH]; intros r; [done|]. intros [Hf Hfs] Hok.
  apply (IH _ Hfs). by apply router_call_ok.
Qed.

(** ** One mailbox along a run *)

Lemma close_closed {T} (m : Mailbox T) : mb_closed m = true → mailbox_close m = m.
Proof. destruct m. cbn. by intros ->. Qed.

Lemma moved_boxes {A} (x : A) next r b m :
  rt_sub_boxes r !! b = Some m →
  let r' := (moved_with x next r).2 in
  (rt_subscriptions r' = rt_subscriptions r ∧ rt_sub_boxes r' !! b = Some m) ∨
  (∃ ended, rt_subscriptions r' = ∅ ∧
     rt_sub_boxes r' !! b = Some (if bool_decide (registered r b) then ended_sub ended m else m)).
Proof.
  intros Hm. unfold moved_with. destruct (cc_sender (rt_cell r)) as [before|]; [|by left].
  destruct (next before) as [after answer]. cbn. destruct (ending_of before after) as [ended|]; [right|by left].
  exists ended. destruct (end_connection_spec ended (rt_set_cell (mkCell (if is_terminal after then None else Some after) after
    (if bool_decide (after = before) then cc_version (rt_cell r) else (cc_version (rt_cell r) + 1)%N)) r))
    as (Es & _ & _ & _ & _ & Hb & _).
  split; [done|]. rewrite Hb. rewrite (bool_decide_ext (registered (rt_set_cell _ r) b) (registered r b)) by done.
  cbn [rt_set_cell rt_sub_boxes]. rewrite Hm. by destruct (bool_decide (registered r b)).
Qed.

(** A closed mailbox is only ever read. *)
Definition read_by (b : nat) (c : RouterCall) (m : Mailbox SubscriptionItem) : Mailbox SubscriptionItem :=
  match c with CallNext a => if bool_decide (a = b) then (next_from m).2 else m | _ => m end.

Lemma alter_other_or_same {M} (f : M → M) (a b : nat) (l : list M) m :
  l !! b = Some m → f m = m → alter f a l !! b = Some m.
Proof. intros Hm Hf. apply alter_lookup_Some. exists m. split; [done|]. by case_bool_decide. Qed.

Lemma release_ack_subs event a r :
  rt_subscriptions (release_acknowledgement event a r) = rt_subscriptions r ∧
  rt_sub_boxes (release_acknowledgement event a r) = rt_sub_boxes r.
Proof. unfold release_acknowledgement. repeat case_match; done. Qed.

Lemma settled_subs h r :
  rt_subscriptions (settled h r).2 = rt_subscriptions r ∧ rt_sub_boxes (settled h r).2 = rt_sub_boxes r.
Proof.
  unfold settled. destruct (rt_ack_boxes r !! ra_mailbox h) as [m|]; [|done]. destruct (take m) as [[s|] m']; cbn.
  - apply (release_ack_subs _ _ (rt_set_ack_boxes _ r)).
  - destruct (mb_closed m); [apply release_ack_subs|done].
Qed.

Lemma next_boxes a r b m :
  rt_sub_boxes r !! b = Some m → rt_sub_boxes (subscription_next a r).2 !! b = Some (read_by b (CallNext a) m).
Proof.
  intros Hm. unfold subscription_next, read_by. case_bool_decide as Hab.
  - subst a. rewrite Hm. destruct (next_from m) as [o m']. cbn. apply list_lookup_insert_eq. by eapply lookup_lt_Some.
  - destruct (rt_sub_boxes r !! a) as [ma|]; [|done]. destruct (next_from ma) as [o m']. cbn.
    by rewrite list_lookup_insert_ne.
Qed.

Lemma next_subs a r : rt_subscriptions (subscription_next a r).2 = rt_subscriptions r.
Proof. unfold subscription_next. repeat case_match; done. Qed.

(** Whether a message lands in a mailbox. *)
Definition lands (message : RelayMessage) (r : Router) (b : nat) : bool :=
  match addressed_to message with Some id => bool_decide (rt_subscriptions r !! id = Some b) | None => false end.

Lemma deliver_subs message r b m :
  rt_sub_boxes r !! b = Some m →
  (∃ challenge, message = MsgAuth challenge) ∨
  (rt_subscriptions (deliver message r) = rt_subscriptions r ∧
   rt_sub_boxes (deliver message r) !! b = Some (if lands message r b then offer (subscription_item message) m else m)).
Proof.
  intros Hm. unfold lands. destruct (addressed_to message) as [id|] eqn:Ea.
  - right. assert (deliver message r = match rt_subscriptions r !! id with
      | Some mailbox => with_sub mailbox (offer (subscription_item message)) r
      | None => r end) as ->.
    { destruct message; cbn in *; simplify_eq; done. }
    destruct (rt_subscriptions r !! id) as [a|] eqn:Eb; cbn; [|done]. split; [done|].
    apply alter_lookup_Some. exists m. split; [done|].
    by rewrite (bool_decide_ext (Some a = Some b) (b = a)) by naive_solver.
  - destruct message; try done; eauto. right. cbn. case_match; [|done]. by rewrite fold_with_ack.
Qed.

Lemma closed_box c r b m :
  rt_sub_boxes r !! b = Some m → mb_closed m = true → rt_sub_boxes (router_call c r) !! b = Some (read_by b c m).
Proof.
  intros Hm Hc. destruct c as [id capacity|id|event|event a|next|message|a|event a]; cbn [router_call read_by].
  - by apply lookup_app_l_Some.
  - unfold release_subscription. case_match; [|done]. apply alter_other_or_same; [done|by apply close_closed].
  - done.
  - by rewrite (proj2 (release_ack_subs _ _ _)).
  - destruct (moved_boxes tt (λ c, (next c, tt)) r b m Hm) as [[_ ?]|(ended & _ & Hb)]; [done|].
    unfold moved. rewrite Hb. unfold ended_sub. rewrite offer_closed, close_closed by done. by case_bool_decide.
  - destruct (deliver_subs message r b m Hm) as [[challenge ->]|[_ ->]].
    + cbn. destruct (moved_boxes tt (λ c, (set_progress (Requested challenge) c, tt)) r b m Hm) as [[_ ?]|(ended & _ & Hb)]; [done|].
      unfold moved. rewrite Hb. unfold ended_sub. rewrite offer_closed, close_closed by done. by case_bool_decide.
    + rewrite offer_closed by done. by destruct (lands message r b).
  - by apply next_boxes.
  - by rewrite (proj2 (settled_subs _ _)).
Qed.

Lemma messages_for_cons id c calls :
  messages_for id (c :: calls) = option_list (message_for id c) ++ messages_for id calls.
Proof.
  unfold messages_for. cbn [omap list_omap]. by destruct (message_for id c).
Qed.

(** One call on an open, registered mailbox: it stays registered and is read or
    offered the message addressed to it, or it is closed for good, possibly told
    why. *)
Lemma open_box c r id b m :
  router_ok r → rt_subscriptions r !! id = Some b → rt_sub_boxes r !! b = Some m →
  match c with CallOpen i _ => i ≠ id | _ => True end →
  (rt_subscriptions (router_call c r) !! id = Some b ∧
   rt_sub_boxes (router_call c r) !! b =
     Some (from_option (λ message, offer (subscription_item message) m) (read_by b c m) (message_for id c))) ∨
  (message_for id c = None ∧ (∀ a, c ≠ CallNext a) ∧ ∃ ending : option SessionEnded,
   rt_sub_boxes (router_call c r) !! b =
     Some (mailbox_close (from_option (λ e, offer (ItemEnded e) m) m ending))).
Proof.
  intros Hok Hid Hm Hc. assert (Hreg : registered r b) by by exists id.
  assert (Hmoved : ∀ next, let r' := moved next r in
    (rt_subscriptions r' !! id = Some b ∧ rt_sub_boxes r' !! b = Some m) ∨
    ∃ e, rt_sub_boxes r' !! b = Some (mailbox_close (offer (ItemEnded e) m))).
  { intros next. destruct (moved_boxes tt (λ c, (next c, tt)) r b m Hm) as [[Hs Hb]|(e & _ & Hb)]; unfold moved; cbn zeta.
    - left. by rewrite Hs, Hid.
    - right. exists e. rewrite Hb. by rewrite bool_decide_eq_true_2. }
  destruct c as [i capacity|i|event|event a|next|message|a|event a]; cbn [router_call read_by message_for from_option].
  - left. cbn. rewrite lookup_insert_ne by done. split; [done|by apply lookup_app_l_Some].
  - destruct (decide (i = id)) as [->|Hne].
    + right. split_and!; [done|done|]. exists None. unfold release_subscription. rewrite Hid. cbn.
      by rewrite list_lookup_alter_eq, Hm.
    + left. unfold release_subscription. destruct (rt_subscriptions r !! i) as [a|] eqn:Ei; [|done]. cbn.
      rewrite lookup_delete_ne by done. split; [done|]. rewrite list_lookup_alter_ne; [done|].
      intros ->. by apply Hne, (so_inj _ _ (rk_subs _ Hok) _ _ b).
  - by left.
  - left. destruct (release_ack_subs event a r) as [-> ->]. done.
  - destruct (Hmoved next) as [?|[e ?]]; [by left|right]. split_and!; [done|done|by exists (Some e)].
  - destruct (deliver_subs message r b m Hm) as [[challenge ->]|[Hs Hb]].
    + cbn. destruct (Hmoved (set_progress (Requested challenge))) as [?|[e ?]]; [by left|right].
      split_and!; [done|done|by exists (Some e)].
    + left. rewrite Hs. split; [done|]. rewrite Hb. f_equal. unfold lands. destruct (addressed_to message) as [i|]; [|done].
      destruct (decide (i = id)) as [->|Hne].
      * rewrite !bool_decide_eq_true_2 by done. done.
      * rewrite (bool_decide_eq_false_2 (Some i = Some id)) by congruence. rewrite bool_decide_eq_false_2; [done|].
        intros Hi. by apply Hne, (so_inj _ _ (rk_subs _ Hok) _ _ b).
  - left. rewrite next_subs. split; [done|by apply next_boxes].
  - left. destruct (settled_subs (mkRoutedAcknowledgement event a) r) as [-> ->]. done.
Qed.

(** ** Accounting *)

Lemma next_accounts m :
  taken [(next_from m).1] ++ mb_items (next_from m).2 = mb_items m ∧
  (lost [(next_from m).1] + mb_dropped (next_from m).2 = mb_dropped m)%N.
Proof.
  unfold next_from, take, take_dropped. destruct (mb_items m) as [|x l] eqn:E; cbn; [|split; [done|lia]].
  case_bool_decide; [cbn; rewrite E; split; [done|lia]|].
  destruct (mb_closed m); cbn; rewrite E; split; try done; lia.
Qed.

Lemma offer_accounts item (m : Mailbox SubscriptionItem) :
  mb_closed m = false → (mb_dropped m < u64_max)%N →
  ∃ kept, kept `sublist_of` [item] ∧ mb_items (offer item m) = mb_items m ++ kept ∧
    (mb_dropped (offer item m) + N.of_nat (length kept) = mb_dropped m + 1)%N.
Proof.
  intros Hc Hd. unfold offer. rewrite Hc. case_bool_decide.
  - exists []. split; [apply sublist_nil_l|]. cbn. rewrite app_nil_r. split; [done|].
    unfold fetch_add_one. unfold u64_max in Hd. rewrite N.mod_small; lia.
  - exists [item]. cbn. done.
Qed.

Lemma taken_app a b : taken (a ++ b) = taken a ++ taken b.
Proof. apply omap_app. Qed.
Lemma lost_app a b : lost (a ++ b) = (lost a + lost b)%N.
Proof.
  unfold lost. rewrite omap_app, foldr_app. generalize (omap (λ o, match o with NextLost n => Some n | _ => None end) b). intros l.
  induction (omap _ a) as [|x l' IH]; cbn; [done|]. rewrite IH. lia.
Qed.

(** The reads of one call. *)
Definition read_of (b : nat) (r : Router) (c : RouterCall) : list NextOutcome :=
  match c with
  | CallNext a => if bool_decide (a = b) then [(subscription_next a r).1] else []
  | _ => []
  end.

Lemma reads_of_cons b r c calls : reads_of b r (c :: calls) = read_of b r c ++ reads_of b (router_call c r) calls.
Proof. done. Qed.

Lemma read_accounts b r c m :
  rt_sub_boxes r !! b = Some m →
  taken (read_of b r c) ++ mb_items (read_by b c m) = mb_items m ∧
  (lost (read_of b r c) + mb_dropped (read_by b c m) = mb_dropped m)%N ∧
  mb_closed (read_by b c m) = mb_closed m ∧ mb_capacity (read_by b c m) = mb_capacity m.
Proof.
  intros Hm. destruct c as [| | | | | |a|]; cbn [read_of read_by]; try done.
  case_bool_decide as Ha; [subst a|done]. unfold subscription_next. rewrite Hm.
  pose proof (next_accounts m) as [H1 H2]. pose proof (next_flag m). pose proof (next_capacity m).
  destruct (next_from m) as [o m']. done.
Qed.

(** A closed mailbox gives its reader what it holds and nothing more. *)
Lemma closed_stream b calls r m :
  rt_sub_boxes r !! b = Some m → mb_closed m = true →
  ∃ m', rt_sub_boxes (router_run r calls) !! b = Some m' ∧ mb_closed m' = true ∧ mb_capacity m' = mb_capacity m ∧
    taken (reads_of b r calls) ++ mb_items m' = mb_items m ∧
    (lost (reads_of b r calls) + mb_dropped m' = mb_dropped m)%N.
Proof.
  revert r m. induction calls as [|c calls IH]; intros r m Hm Hc; [by exists m|].
  destruct (read_accounts b r c m Hm) as (Ht & Hl & Hf & Hcap).
  destruct (IH (router_call c r) (read_by b c m)) as (m' & Hm' & Hc' & Hcap' & Ht' & Hl').
  { by apply closed_box. }
  { congruence. }
  exists m'. rewrite reads_of_cons, taken_app, lost_app. split_and!; [done|done|congruence| |lia].
  by rewrite <- app_assoc, Ht', Ht.
Qed.

(** What was offered: the first [n] calls' messages, then perhaps an ending. *)
Definition offered_items (id : SubscriptionId) (calls : list RouterCall) (ending : option SessionEnded) :
    list SubscriptionItem :=
  (subscription_item <$> messages_for id calls) ++ option_list (ItemEnded <$> ending).

Lemma offered_cons id c calls ending :
  offered_items id (c :: calls) ending =
  (subscription_item <$> option_list (message_for id c)) ++ offered_items id calls ending.
Proof. unfold offered_items. by rewrite messages_for_cons, fmap_app, <- app_assoc. Qed.

(** One offered or skipped message on an open mailbox. *)
Lemma step_accounts id b c r m :
  rt_sub_boxes r !! b = Some m → mb_closed m = false → (mb_dropped m < u64_max)%N →
  let m' := from_option (λ message, offer (subscription_item message) m) (read_by b c m) (message_for id c) in
  mb_closed m' = false ∧ mb_capacity m' = mb_capacity m ∧ (mb_dropped m' ≤ mb_dropped m + 1)%N ∧
  ∃ kept, kept `sublist_of` (subscription_item <$> option_list (message_for id c)) ∧
    taken (read_of b r c) ++ mb_items m' = mb_items m ++ kept ∧
    (lost (read_of b r c) + mb_dropped m' + N.of_nat (length kept) =
     mb_dropped m + N.of_nat (length (option_list (message_for id c))))%N.
Proof.
  intros Hm Hc Hd. destruct (message_for id c) as [message|] eqn:Em; cbn.
  - assert (Hr : read_of b r c = []) by (by destruct c). rewrite Hr.
    destruct (offer_accounts (subscription_item message) m Hc Hd) as (kept & Hs & Hi & Hn).
    rewrite offer_flag, offer_capacity. split_and!; [done|done|lia|]. exists kept. cbn. split_and!; [done|done|lia].
  - destruct (read_accounts b r c m Hm) as (Ht & Hl & -> & ->). split_and!; [done|done|lia|].
    exists []. rewrite app_nil_r. split_and!; [constructor|done|cbn; lia].
Qed.

Lemma open_stream id b calls r m :
  router_ok r → rt_subscriptions r !! id = Some b → rt_sub_boxes r !! b = Some m →
  fresh_calls r calls → (∀ n, CallOpen id n ∉ calls) → (mb_dropped m + N.of_nat (length calls) < u64_max)%N →
  ∃ m' n ending kept, rt_sub_boxes (router_run r calls) !! b = Some m' ∧ mb_capacity m' = mb_capacity m ∧
    kept `sublist_of` offered_items id (firstn n calls) ending ∧
    taken (reads_of b r calls) ++ mb_items m' = mb_items m ++ kept ∧
    (lost (reads_of b r calls) + mb_dropped m' + N.of_nat (length kept) =
     mb_dropped m + N.of_nat (length (offered_items id (firstn n calls) ending)))%N ∧
    (mb_closed m' = false → n = length calls ∧ ending = None).
Proof.
  revert r m. induction calls as [|c calls IH]; intros r m Hok Hid Hm Hfresh Honce Hd.
  { exists m, 0, None, []. cbn. rewrite app_nil_r. split_and!; [done|done|constructor|done|lia|done]. }
  destruct Hfresh as [Hf Hfs]. assert (Hc : mb_closed m = false).
  { destruct (so_open _ _ (rk_subs _ Hok) _ _ Hid) as (m0 & Hm0 & Hc0). congruence. }
  destruct (open_box c r id b m Hok Hid Hm) as [[Hid' Hm']|(Hmsg & Hnext & ending & Hm')].
  { destruct c; try done. intros ->. eapply Honce. left. }
  - destruct (step_accounts id b c r m Hm Hc) as (Hc1 & Hcap1 & Hd1 & kept & Hs & Ht & Hl); [cbn in Hd; lia|].
    destruct (IH (router_call c r) _ (router_call_ok c r Hf Hok) Hid' Hm' Hfs) as (m' & n & ending & kept' & Hm2 & Hcap2 & Hs2 & Ht2 & Hl2 & Hend).
    { intros n Hn. eapply Honce. by right. }
    { cbn [length] in Hd. lia. }
    exists m', (S n), ending, (kept ++ kept'). rewrite reads_of_cons, taken_app, lost_app, firstn_cons, offered_cons.
    rewrite !length_app, length_fmap. split_and!.
    + done.
    + congruence.
    + by apply sublist_app.
    + by rewrite <- app_assoc, Ht2, !app_assoc, Ht.
    + lia.
    + intros [-> ->]%Hend. done.
  - assert (Hr : read_of b r c = []) by (destruct c; try done; by edestruct Hnext).
    destruct (closed_stream b calls (router_call c r) _ Hm' eq_refl) as (m' & Hm2 & Hc2 & Hcap2 & Ht2 & Hl2).
    assert (Hacc : ∃ kept, kept `sublist_of` option_list (ItemEnded <$> ending) ∧
      mb_items (from_option (λ e, offer (ItemEnded e) m) m ending) = mb_items m ++ kept ∧
      (mb_dropped (from_option (λ e, offer (ItemEnded e) m) m ending) + N.of_nat (length kept) =
       mb_dropped m + N.of_nat (length (option_list (ItemEnded <$> ending))))%N).
    { destruct ending as [e|]; cbn; [apply offer_accounts; [done|cbn in Hd; lia]|].
      exists []. rewrite app_nil_r. split_and!; [constructor|done|cbn; lia]. }
    destruct Hacc as (kept & Hk & Hi & Hn). exists m', 0, ending, kept.
    rewrite reads_of_cons, taken_app, lost_app, Hr. cbn in Hcap2, Ht2, Hl2 |- *. split_and!.
    + done.
    + rewrite Hcap2. destruct ending; cbn; [apply offer_capacity|done].
    + done.
    + by rewrite Ht2.
    + lia.
    + by rewrite Hc2.
Qed.

(** ** Properties *)

Lemma Router_new_ok connection : is_terminal connection = false → router_ok (Router_new connection).
Proof. intros Hc. split; [split|split|split]; done. Qed.

Lemma run_app r a b : router_run r (a ++ b) = router_run (router_run r a) b.
Proof. apply fold_left_app. Qed.

Lemma fresh_app r a b : fresh_calls r (a ++ b) ↔ fresh_calls r a ∧ fresh_calls (router_run r a) b.
Proof.
  revert r. induction a as [|c a IH]; intros r; cbn; [tauto|]. rewrite IH. unfold router_run. cbn. tauto.
Qed.

Lemma moved_with_closed {A} (x : A) next r : cc_sender (rt_cell r) = None → (moved_with x next r).2 = r.
Proof. unfold moved_with. by intros ->. Qed.

(** Nothing moves a connection whose sender is gone. *)
Lemma closed_cell_call c r : cc_sender (rt_cell r) = None → rt_cell (router_call c r) = rt_cell r.
Proof.
  intros Hn. destruct c as [| |event|event b|next|message|b|event b]; cbn; try done.
  - unfold release_subscription. by case_match.
  - unfold release_acknowledgement. by repeat case_match.
  - unfold moved. by rewrite moved_with_closed.
  - destruct message; cbn [deliver]; try done; try (by case_match).
    + case_match; [|done]. by rewrite fold_with_ack.
    + unfold moved. by rewrite moved_with_closed.
  - unfold subscription_next. by repeat case_match.
  - unfold settled, release_acknowledgement. by repeat case_match.
Qed.

Lemma closed_cell_run calls r : cc_sender (rt_cell r) = None → rt_cell (router_run r calls) = rt_cell r.
Proof.
  revert r. induction calls as [|c calls IH]; intros r Hn; [done|].
  change (router_run r (c :: calls)) with (router_run (router_call c r) calls). rewrite IH; by rewrite closed_cell_call.
Qed.

(** However deliveries, reconnects, requests and readers interleave on a
    session, its router stays coherent: a registered mailbox is open and serves
    one wire key, a subscription without a registration is closed so that its
    reader never waits, no queue exceeds its capacity, an acknowledgement waits
    once for one event, watchers see the last state; and once the connection
    reached its terminal state nothing ever changes it again. *)
Theorem router_invariant (connection : Connection) (calls : list RouterCall)
    (Hstart : is_terminal connection = false) (Hfresh : fresh_calls (Router_new connection) calls) :
  let r := router_run (Router_new connection) calls in
  router_ok r ∧
  (∀ b m, rt_sub_boxes r !! b = Some m → ¬ registered r b → (next_from m).1 ≠ NextWaits) ∧
  (is_terminal (cc_last (rt_cell r)) = true → ∀ later, rt_cell (router_run r later) = rt_cell r).
Proof.
  intros r. assert (Hok : router_ok r) by (apply router_run_ok; [done|by apply Router_new_ok]).
  split_and!; [done| |].
  - intros b m Hm Hreg. assert (Hc : mb_closed m = true).
    { apply (so_orphan _ _ (rk_subs _ Hok) b); [done|]. intros id Hid. apply Hreg. by exists id. }
    unfold next_from, take, take_dropped. destruct (mb_items m); cbn; [|done]. case_bool_decide; [done|]. by rewrite Hc.
  - intros Ht later. apply closed_cell_run. pose proof (rk_cell _ Hok) as Hcell. unfold cell_ok in Hcell.
    destruct (cc_sender (rt_cell r)) as [c|]; [|done]. destruct Hcell as [-> Hcell]. congruence.
Qed.

(** A subscription reads exactly its own stream.  From the moment its wire
    key is opened, what its reader took plus what is queued is, in order, a
    selection of the messages the relay addressed to that key up to some point,
    followed by at most one ending; every item left out is counted in a report
    of loss or still counted to be reported; the queue never exceeds its bound;
    and while the handle is open no message to it has been passed over. *)
Theorem subscription_stream_exact (connection : Connection) (before calls : list RouterCall)
    (id : SubscriptionId) (capacity : nat)
    (Hstart : is_terminal connection = false)
    (Hfresh : fresh_calls (Router_new connection) (before ++ CallOpen id capacity :: calls))
    (Honce : ∀ n, CallOpen id n ∉ calls) (Hcount : (N.of_nat (length calls) < u64_max)%N) :
  let r := router_run (Router_new connection) before in
  let '(b, opened) := open_subscription id capacity r in
  let reads := reads_of b opened calls in
  ∃ m n ending, rt_sub_boxes (router_run opened calls) !! b = Some m ∧
    let offered := offered_items id (firstn n calls) ending in
    length (mb_items m) ≤ capacity ∧
    (taken reads ++ mb_items m) `sublist_of` offered ∧
    N.of_nat (length offered) = (N.of_nat (length (taken reads) + length (mb_items m)) + lost reads + mb_dropped m)%N ∧
    (mb_closed m = false → n = length calls ∧ ending = None).
Proof.
  intros r. apply fresh_app in Hfresh as (Hb & Hid & Hfs). fold r in Hid, Hfs. cbn [fresh_call router_call] in Hid, Hfs.
  assert (Hok : router_ok r) by (apply router_run_ok; [done|by apply Router_new_ok]).
  destruct (open_subscription id capacity r) as [b opened] eqn:Eo.
  assert (Hok' : router_ok opened).
  { replace opened with (router_call (CallOpen id capacity) r) by (cbn [router_call]; by rewrite Eo). by apply router_call_ok. }
  unfold open_subscription in Eo. injection Eo as <- <-.
  edestruct (open_stream id (length (rt_sub_boxes r)) calls _ (Mailbox_new capacity) Hok')
    as (m & n & ending & kept & Hm & Hcap & Hs & Ht & Hl & Hend).
  { apply lookup_insert_eq. }
  { cbn. by apply list_lookup_middle. }
  { done. }
  { done. }
  { cbn. lia. }
  exists m, n, ending. cbn [mb_items Mailbox_new app mb_dropped mb_capacity] in *. rewrite Ht.
  split_and!; [done| |done| |done].
  - rewrite <- Hcap. eapply (so_bounded _ _ (rk_subs _ (router_run_ok _ calls Hfs Hok'))). apply Hm.
  - assert (length kept = length (taken (reads_of (length (rt_sub_boxes r)) _ calls)) + length (mb_items m)) as <-
      by (by rewrite <- length_app, Ht). lia.
Qed.
End runs.

(** ** Readers of an ended connection *)

(** What a reader is answered when it keeps reading. *)
Fixpoint drain (n : nat) (m : Mailbox SubscriptionItem) : list NextOutcome :=
  match n with
  | 0 => []
  | S n => (next_from m).1 :: drain n (next_from m).2
  end.

Definition loss_report (n : N) : list NextOutcome := if bool_decide (0 < n)%N then [NextLost n] else [].

Lemma drain_ended n capacity : drain n (mkMailbox capacity [] 0 true) = replicate n NextEnded.
Proof.
  assert (Hn : next_from (mkMailbox capacity [] 0 true) = (NextEnded, mkMailbox capacity [] 0 true)) by done.
  induction n as [|n IH]; [done|]. cbn [drain replicate]. rewrite Hn. cbn [fst snd]. by rewrite IH.
Qed.

(** A closed mailbox is read to its end: its items, its loss, the ending. *)
Lemma drain_closed m n :
  mb_closed m = true →
  drain (length (mb_items m) + length (loss_report (mb_dropped m)) + n) m =
  (NextTook <$> mb_items m) ++ loss_report (mb_dropped m) ++ replicate n NextEnded.
Proof.
  destruct m as [capacity items dropped closed]. cbn. intros ->. induction items as [|x items IH]; cbn; [|by rewrite IH].
  unfold loss_report, next_from, take, take_dropped. case_bool_decide as Hd; cbn.
  - unfold next_from, take, take_dropped. cbn. rewrite (bool_decide_eq_true_2 _ Hd). cbn. by rewrite drain_ended.
  - replace dropped with 0%N by lia. by rewrite drain_ended.
Qed.

Lemma ended_sub_full ended (m : Mailbox SubscriptionItem) :
  mb_closed m = false → mb_capacity m ≤ length (mb_items m) → (mb_dropped m < u64_max)%N →
  ended_sub ended m = mkMailbox (mb_capacity m) (mb_items m) (mb_dropped m + 1) true.
Proof.
  intros Hc Hf Hd. unfold ended_sub, offer. rewrite Hc, bool_decide_eq_true_2 by done. cbn. unfold mailbox_close, fetch_add_one.
  cbn. f_equal. unfold u64_max in Hd. rewrite N.mod_small; lia.
Qed.

Lemma ended_sub_room ended (m : Mailbox SubscriptionItem) :
  mb_closed m = false → length (mb_items m) < mb_capacity m →
  ended_sub ended m = mkMailbox (mb_capacity m) (mb_items m ++ [ItemEnded ended]) (mb_dropped m) true.
Proof. intros Hc Hf. unfold ended_sub, offer. rewrite Hc, bool_decide_eq_false_2 by lia. done. Qed.

Section endings.
Context `{Wire}.
Context (connection : Connection) (calls : list RouterCall).
Context (Hstart : is_terminal connection = false) (Hfresh : fresh_calls (Router_new connection) calls).
Context (next : Connection → Connection) (current : Connection) (ended : SessionEnded).
Context (Hcurrent : cc_sender (rt_cell (router_run (Router_new connection) calls)) = Some current).
Context (Hended : ending_of current (next current) = Some ended).

(** The mailbox of a registered handle when its connection ends. *)
Lemma ended_mailbox id b :
  let r := router_run (Router_new connection) calls in
  rt_subscriptions r !! id = Some b →
  ∃ m, rt_sub_boxes r !! b = Some m ∧ mb_closed m = false ∧ mailbox_bounded m ∧
    rt_sub_boxes (moved next r) !! b = Some (ended_sub ended m) ∧
    rt_subscriptions (moved next r) = ∅ ∧ rt_acknowledgements (moved next r) = ∅.
Proof.
  intros r Hid. assert (Hok : router_ok r) by (apply router_run_ok; [done|by apply Router_new_ok]).
  destruct (so_open _ _ (rk_subs _ Hok) _ _ Hid) as (m & Hm & Hc). exists m.
  pose proof (so_bounded _ _ (rk_subs _ Hok) _ _ Hm) as Hb.
  unfold moved, moved_with. fold r in Hcurrent. rewrite Hcurrent. cbn [snd]. rewrite Hended.
  match goal with |- context [end_connection ended ?r0] => destruct (end_connection_spec ended r0) as (Es & Ea & _ & _ & _ & Hsb & _) end.
  split_and!; [done..| |done|done]. rewrite Hsb. rewrite bool_decide_eq_true_2 by (by exists id).
  cbn [rt_set_cell rt_sub_boxes]. by rewrite Hm.
Qed.

(** When a connection ends, every reader learns of it and none is left
    waiting: each handle still registered reads the items it had queued, in
    order, then the reason of the ending when its queue has room for it, then
    the count of what it lost, and from then on only that the session ended;
    and no wire key stays registered. *)
Theorem ended_readers_finish (id : SubscriptionId) (b : nat) (n : nat)
    (Hid : rt_subscriptions (router_run (Router_new connection) calls) !! id = Some b) :
  let r := router_run (Router_new connection) calls in
  ∃ m m', rt_sub_boxes r !! b = Some m ∧ rt_sub_boxes (moved next r) !! b = Some m' ∧
    rt_subscriptions (moved next r) = ∅ ∧ rt_acknowledgements (moved next r) = ∅ ∧
    (length (mb_items m) < mb_capacity m →
     drain (length (mb_items m) + 1 + length (loss_report (mb_dropped m)) + n) m' =
     (NextTook <$> mb_items m ++ [ItemEnded ended]) ++ loss_report (mb_dropped m) ++ replicate n NextEnded) ∧
    (length (mb_items m) = mb_capacity m → (mb_dropped m < u64_max)%N →
     drain (length (mb_items m) + 1 + n) m' =
     (NextTook <$> mb_items m) ++ [NextLost (mb_dropped m + 1)] ++ replicate n NextEnded).
Proof.
  intros r. destruct (ended_mailbox id b Hid) as (m & Hm & Hc & Hb & Hm' & Hs & Ha).
  exists m, (ended_sub ended m). split_and!; [done..| |].
  - intros Hroom. rewrite ended_sub_room by done. set (m' := mkMailbox _ _ _ _).
    replace (length (mb_items m) + 1) with (length (mb_items m')) by (cbn; rewrite length_app; cbn; lia).
    exact (drain_closed m' n eq_refl).
  - intros Hfull Hd. rewrite ended_sub_full by (done || lia).
    assert (Hl : loss_report (mb_dropped m + 1) = [NextLost (mb_dropped m + 1)]).
    { unfold loss_report. rewrite bool_decide_eq_true_2 by lia. done. }
    pose proof (drain_closed (mkMailbox (mb_capacity m) (mb_items m) (mb_dropped m + 1) true) n eq_refl) as Hdrain.
    cbn [mb_items mb_dropped] in Hdrain. by rewrite Hl in Hdrain.
Qed.

(** A full queue loses the reason.  When the connection ends for good, a
    reader whose queue is full is never told so: however long it reads, the
    ending it gets is a plain disconnect, after which a reconnect may follow. *)
Theorem exhaustion_read_as_disconnect (id : SubscriptionId) (b : nat) (m : Mailbox SubscriptionItem)
    (attempts : nat) (detail : BoundedText) (Hexhausted : ended = ReconnectExhausted attempts detail)
    (Hid : rt_subscriptions (router_run (Router_new connection) calls) !! id = Some b)
    (Hm : rt_sub_boxes (router_run (Router_new connection) calls) !! b = Some m)
    (Hfull : length (mb_items m) = mb_capacity m) (Hcount : (mb_dropped m < u64_max)%N)
    (Hqueued : ∀ e, ItemEnded e ∉ mb_items m) :
  ∃ m', rt_sub_boxes (moved next (router_run (Router_new connection) calls)) !! b = Some m' ∧
    ∀ n, let reads := drain (length (mb_items m) + 1 + S n) m' in
      ItemEnded (EndedDisconnected (BoundedText_new "session closed")) ∈ omap next_item reads ∧
      ∀ e, ItemEnded e ∈ omap next_item reads → e = EndedDisconnected (BoundedText_new "session closed").
Proof.
  destruct (ended_mailbox id b Hid) as (m0 & Hm0 & Hc & Hb & Hm' & _).
  assert (m0 = m) as -> by congruence. exists (ended_sub ended m). split; [done|]. intros n.
  rewrite ended_sub_full by (done || lia).
  assert (Hl : loss_report (mb_dropped m + 1) = [NextLost (mb_dropped m + 1)]).
  { unfold loss_report. rewrite bool_decide_eq_true_2 by lia. done. }
  pose proof (drain_closed (mkMailbox (mb_capacity m) (mb_items m) (mb_dropped m + 1) true) (S n) eq_refl) as Hdrain.
  cbn [mb_items mb_dropped] in Hdrain. rewrite Hl in Hdrain. cbn [length] in Hdrain. rewrite Hdrain. split.
  - apply list_elem_of_omap. exists NextEnded. split; [|done]. rewrite !elem_of_app. right. right. by left.
  - intros e (o & Ho & He)%list_elem_of_omap. rewrite !elem_of_app in Ho.
    destruct Ho as [(x & -> & Hx)%list_elem_of_fmap|[->%list_elem_of_singleton|[-> _]%elem_of_replicate]].
    + cbn in He. injection He as ->. by destruct (Hqueued e).
    + done.
    + cbn in He. by injection He as <-.
Qed.
End endings.

(** ** Authentication requests *)

(** The loop of [publish_authentication_requests] on the states it sees. *)
Fixpoint request_loop (seen : RelaySessionIdentity) (asked : option string) (states : list Connection) : list bool :=
  match states with
  | [] => []
  | current :: states =>
      let '(announced, (seen, asked)) := request_turn current seen asked in
      announced :: request_loop seen asked states
  end.

(** A relay that asks again with the challenge it asked before is not heard:
    after a challenge was announced on a connection, no later state of that
    connection that asks the same challenge is announced, whatever happened to
    the first answer. *)
Theorem repeated_challenge_unheard (identity : RelaySessionIdentity) (challenge : string)
    (first : Connection) (states : list Connection)
    (Hfirst : cn_identity first = identity ∧ progress (cn_authentication first) = Requested challenge)
    (Hsame : Forall (λ c, cn_identity c = identity) states)
    (Hasked : Forall (λ c, ∀ other, progress (cn_authentication c) = Requested other → other = challenge) states) :
  request_loop identity None (first :: states) = true :: replicate (length states) false.
Proof.
  destruct Hfirst as [Hi Hp]. cbn [request_loop]. unfold request_turn at 1. rewrite Hp, Hi.
  rewrite (bool_decide_eq_false_2 (identity ≠ identity)) by naive_solver. rewrite bool_decide_eq_true_2 by done. f_equal.
  clear first Hi Hp. induction states as [|c states IH]; [done|].
  apply Forall_cons in Hsame as [Hc Hsame]. apply Forall_cons in Hasked as [Ha Hasked].
  cbn [request_loop length replicate]. unfold request_turn. rewrite Hc.
  rewrite (bool_decide_eq_false_2 (identity ≠ identity)) by naive_solver.
  destruct (progress (cn_authentication c)) as [|other| | | |] eqn:Ep; try (f_equal; by apply IH).
  rewrite (Ha other) by done. rewrite bool_decide_eq_false_2 by naive_solver. f_equal. by apply IH.
Qed.

(** ** Wire identifiers *)

(** The counter a wire identifier was minted from. *)
Definition minted_counter (id : SubscriptionId) : option N :=
  Sample.hex_number 0 (String.substring 5 16 id).

Lemma hex_digit_value n : (n < 16)%N → Sample.hex_value (hex_digit n) = Some n.
Proof.
  intros Hn. assert (Hin : n ∈ (N.of_nat <$> seq 0 16)).
  { apply list_elem_of_fmap. exists (N.to_nat n). rewrite N2Nat.id, elem_of_seq. split; [done|lia]. }
  cbn in Hin. repeat (apply elem_of_cons in Hin as [->|Hin]; [done|]). by apply not_elem_of_nil in Hin.
Qed.

(** The value of [hex_padded]: the low digits in front of the accumulator. *)
Lemma hex_padded_value digits n start acc :
  Sample.hex_number start (hex_padded digits n acc) =
  Sample.hex_number (start * 16 ^ N.of_nat digits + n mod 16 ^ N.of_nat digits)%N acc.
Proof.
  revert n acc. induction digits as [|digits IH]; intros n acc.
  - cbn [hex_padded]. replace (N.of_nat 0) with 0%N by done. rewrite N.pow_0_r, N.mod_1_r. f_equal. lia.
  - cbn [hex_padded]. rewrite IH. cbn [Sample.hex_number]. rewrite hex_digit_value by (apply N.mod_lt; lia). cbn.
    f_equal. rewrite Nat2N.inj_succ, N.pow_succ_r' , N.Div0.mod_mul_r. lia.
Qed.

Lemma hex_padded_length digits n acc : String.length (hex_padded digits n acc) = digits + String.length acc.
Proof. revert n acc. induction digits as [|digits IH]; intros n acc; [done|]. cbn [hex_padded]. rewrite IH. cbn. lia. Qed.

Lemma minted_counter_id counter : (counter ≤ u64_max)%N → minted_counter (subscription_id counter) = Some counter.
Proof.
  intros Hwidth. unfold subscription_id, minted_counter.
  assert (Hs : String.substring 5 16 ("fava-" +:+ hex_padded 16 counter "") = hex_padded 16 counter "").
  { pose proof (hex_padded_length 16 counter "") as Hl. cbn [Init.Nat.add String.length] in Hl.
    rewrite <- (substring_all (hex_padded 16 counter "")) at 2. by rewrite Hl. }
  rewrite Hs, hex_padded_value. cbn [Sample.hex_number]. f_equal.
  unfold u64_max in Hwidth. change (16 ^ N.of_nat 16)%N with 18446744073709551616%N. rewrite N.mod_small; lia.
Qed.

(** Every wire identifier has the declared width and carries its counter:
    the counter can be read back, so two requests of a session never share an
    identifier before the counter wraps. *)
Theorem subscription_id_roundtrip (counter : N) (Hwidth : (counter ≤ u64_max)%N) :
  String.length (subscription_id counter) = SUBSCRIPTION_ID_BYTES ∧
  minted_counter (subscription_id counter) = Some counter.
Proof.
  split; [|by apply minted_counter_id]. unfold subscription_id. rewrite string_length_app, hex_padded_length. done.
Qed.

(** ** A small session *)

Module TransportWitness.
Definition wire : Wire := {|
  encode_client := λ _, Ok "[]";
  decode_relay := λ text, Ok (MsgNotice text);
  message_debug := λ _, "message";
  utf8_valid := λ _, true
|}.
#[local] Existing Instance wire.

Definition identity : RelaySessionIdentity := mkSessionIdentity "wss://relay.example" 1.
Definition connection : Connection := mkConnection identity Connected unoffered.
Definition note : Event := mkEvent 7 1 100 1 [] "hello" 0.
Definition first_key : string := subscription_id 0.
Definition second_key : string := subscription_id 1.

Definition opened : list RouterCall := [CallOpen first_key 1].
(** Two subscriptions; the second, of capacity one, receives three messages and
    reads once. *)
Definition traffic : list RouterCall :=
  [CallDeliver (MsgEvent first_key note); CallDeliver (MsgEvent second_key note); CallNext 1;
   CallDeliver (MsgEose second_key); CallDeliver (MsgClosed second_key "enough"); CallAwait 7; CallDeliver (MsgOk 7 true "stored")].

Lemma session_fresh : fresh_calls (Router_new connection) (opened ++ CallOpen second_key 1 :: traffic).
Proof. cbn [fresh_calls opened traffic app]. repeat split; vm_compute; reflexivity. Qed.

Lemma router_invariant_witness :
  let r := router_run (Router_new connection) (opened ++ CallOpen second_key 1 :: traffic) in
  router_ok r ∧ rt_subscriptions r !! second_key = Some 1.
Proof.
  split; [|vm_compute; reflexivity].
  exact (proj1 (router_invariant connection (opened ++ CallOpen second_key 1 :: traffic) eq_refl session_fresh)).
Defined.

Lemma subscription_stream_exact_witness :
  (∃ m, rt_sub_boxes (router_run (Router_new connection) (opened ++ CallOpen second_key 1 :: traffic)) !! 1 = Some m ∧
    mb_dropped m = 1%N) ∧
  ∃ m n ending, rt_sub_boxes (router_run (Router_new connection) (opened ++ CallOpen second_key 1 :: traffic)) !! 1 = Some m ∧
    (mb_closed m = false → n = length traffic ∧ ending = None) ∧
    length (offered_items second_key (firstn n traffic) ending) = 3.
Proof.
  split; [eexists; split; vm_compute; reflexivity|].
  assert (Honce : ∀ n, CallOpen second_key n ∉ traffic).
  { intros n. unfold traffic. rewrite !elem_of_cons, elem_of_nil. naive_solver. }
  destruct (subscription_stream_exact connection opened traffic second_key 1 eq_refl session_fresh Honce eq_refl)
    as (m & n & ending & Hm & _ & _ & _ & Hopen).
  exists m, n, ending. split_and!; [exact Hm|exact Hopen|].
  vm_compute in Hm. injection Hm as <-. destruct (Hopen eq_refl) as [-> ->]. vm_compute. reflexivity.
Defined.

(** The relay is given up on after three attempts. *)
Definition exhausted : Connection → Connection :=
  set_connectivity (Disconnected (BoundedText_new "refused") (Some 3)).

Lemma ended_readers_finish_witness :
  let r := router_run (Router_new connection) (opened ++ CallOpen second_key 1 :: traffic) in
  rt_subscriptions (moved exhausted r) = ∅ ∧
  ∃ m', rt_sub_boxes (moved exhausted r) !! 1 = Some m' ∧
    drain 4 m' = [NextTook ItemEndOfStoredEvents; NextLost 2; NextEnded; NextEnded].
Proof.
  edestruct (ended_readers_finish connection (opened ++ CallOpen second_key 1 :: traffic) eq_refl session_fresh exhausted
    connection (ReconnectExhausted 3 (BoundedText_new "refused"))) with (id := second_key) (b := 1) (n := 2)
    as (m & m' & Hm & Hm' & Hs & Ha & _ & Hdrain).
  { vm_compute. reflexivity. }
  { reflexivity. }
  { vm_compute. reflexivity. }
  split; [exact Hs|]. exists m'. split; [exact Hm'|]. vm_compute in Hm. injection Hm as <-. exact (Hdrain eq_refl eq_refl).
Defined.

Lemma exhaustion_read_as_disconnect_witness :
  ∃ m', rt_sub_boxes (moved exhausted (router_run (Router_new connection) (opened ++ CallOpen second_key 1 :: traffic))) !! 1 = Some m' ∧
    ItemEnded (EndedDisconnected (BoundedText_new "session closed")) ∈ omap next_item (drain 3 m').
Proof.
  edestruct (exhaustion_read_as_disconnect connection (opened ++ CallOpen second_key 1 :: traffic) eq_refl session_fresh exhausted
    connection (ReconnectExhausted 3 (BoundedText_new "refused"))) with (id := second_key) (b := 1)
    (m := mkMailbox 1 [ItemEndOfStoredEvents] 1 false) (attempts := 3) (detail := BoundedText_new "refused")
    as (m' & Hm' & Hreads).
  { vm_compute. reflexivity. }
  { reflexivity. }
  { reflexivity. }
  { vm_compute. reflexivity. }
  { vm_compute. reflexivity. }
  { reflexivity. }
  { vm_compute. reflexivity. }
  { intros e He. cbn in He. apply list_elem_of_singleton in He. discriminate. }
  exists m'. split; [exact Hm'|]. exact (proj1 (Hreads 0)).
Defined.

Lemma repeated_challenge_unheard_witness :
  let asked := set_progress (Requested "challenge") connection in
  let refused := set_progress (AuthRefused (BoundedText_new "restricted: try again")) connection in
  request_loop identity None [asked; refused; asked] = [true; false; false].
Proof.
  intros asked refused. apply (repeated_challenge_unheard identity "challenge" asked [refused; asked]).
  - split; reflexivity.
  - repeat constructor.
  - repeat constructor; intros other Hother; cbn in Hother; congruence.
Defined.

Lemma subscription_id_roundtrip_witness :
  subscription_id 255 = "fava-00000000000000ff"%string ∧ minted_counter (subscription_id 255) = Some 255%N.
Proof.
  split; [vm_compute; reflexivity|].
  exact (proj2 (subscription_id_roundtrip 255 ltac:(vm_compute; discriminate))).
Defined.
End TransportWitness.
