(* ===== verification/Mailbox.v ===== *)
(** * Subscriptions under concurrency ([crates/fava-transport/src/router.rs], [routed.rs])

    [Transport] runs each operation of a router without interruption.  Here the
    operations on subscriptions are split where another thread can come between:
    [deliver] looks the mailbox up under the lock of the table, drops the lock,
    and [offer] tests [closed] before it takes the lock of the queue;
    [end_connection] holds the lock of the table while it offers the ending to
    each mailbox and closes it; [next] takes an item, then the count of losses,
    then reads [closed].  Messages come from the one task that reads the socket;
    a mailbox has one reader; connections are ended, and keys opened and released,
    by any thread.

    [deliver_uninterrupted], [next_uninterrupted] and [end_uninterrupted] show
    that the definitions of [Transport] are these steps run through. *)

From S2P Require Import Prelude Nostr Relay Transport TransportProps.

(** ** State *)

(** [offer] past its test, under the lock of the queue. *)
Definition is_full {T} (m : Mailbox T) : bool := bool_decide (mb_capacity m ≤ length (mb_items m)).

Definition mailbox_push {T} (item : T) (m : Mailbox T) : Mailbox T :=
  if is_full m
  then mkMailbox (mb_capacity m) (mb_items m) (fetch_add_one (mb_dropped m)) (mb_closed m)
  else mkMailbox (mb_capacity m) (mb_items m ++ [item]) (mb_dropped m) (mb_closed m).

(** Where the socket task is inside [deliver]. *)
Inductive Delivering :=
| Testing (mailbox : nat) (item : SubscriptionItem)
| Pushing (mailbox : nat) (item : SubscriptionItem).

(** Where the holder of the table's lock is inside [end_connection]; the first
    mailbox is the one it is at. *)
Inductive EndPhase := EndTesting | EndPushing | EndClosing.

Record Ending := mkEnding {
  en_reason : SessionEnded;
  en_phase : EndPhase;
  en_boxes : list nat
}.

(** Where the reader of a mailbox is inside [next], having found no item. *)
Inductive Reading := AtDropped | AtClosed.

Record Fine := mkFine {
  fi_table : gmap SubscriptionId nat;
  fi_boxes : list (Mailbox SubscriptionItem);
  fi_deliver : option Delivering;
  fi_ending : option Ending;
  fi_readers : gmap nat Reading
}.

Definition fi_set_table v s := mkFine v (fi_boxes s) (fi_deliver s) (fi_ending s) (fi_readers s).
Definition fi_set_boxes v s := mkFine (fi_table s) v (fi_deliver s) (fi_ending s) (fi_readers s).
Definition fi_set_deliver v s := mkFine (fi_table s) (fi_boxes s) v (fi_ending s) (fi_readers s).
Definition fi_set_ending v s := mkFine (fi_table s) (fi_boxes s) (fi_deliver s) v (fi_readers s).
Definition fi_set_readers v s := mkFine (fi_table s) (fi_boxes s) (fi_deliver s) (fi_ending s) v.

Definition Fine_new : Fine := mkFine ∅ [] None None ∅.

(** What a step shows. *)
Inductive FineEvent :=
| EvOpened (id : SubscriptionId) (mailbox : nat)
| EvLanded (mailbox : nat) (message : RelayMessage)
| EvQueued (mailbox : nat) (item : SubscriptionItem)
| EvFull (mailbox : nat) (item : SubscriptionItem)
| EvShut (mailbox : nat) (item : SubscriptionItem)
| EvEndQueued (mailbox : nat) (ended : SessionEnded)
| EvEndFull (mailbox : nat)
| EvEndShut (mailbox : nat)
| EvRead (mailbox : nat) (outcome : NextOutcome).

(** ** Steps *)

Section steps.
Context `{Wire}.

(** [open_subscription] and [release_subscription], under the lock. *)
Definition fine_open (id : SubscriptionId) (capacity : nat) (s : Fine) : list FineEvent * Fine :=
  match fi_ending s with
  | Some _ => ([], s)
  | None =>
      let b := length (fi_boxes s) in
      ([EvOpened id b], fi_set_table (<[id := b]> (fi_table s)) (fi_set_boxes (fi_boxes s ++ [Mailbox_new capacity]) s))
  end.

Definition fine_release (id : SubscriptionId) (s : Fine) : list FineEvent * Fine :=
  match fi_ending s, fi_table s !! id with
  | None, Some b => ([], fi_set_table (delete id (fi_table s)) (fi_set_boxes (alter mailbox_close b (fi_boxes s)) s))
  | _, _ => ([], s)
  end.

(** [deliver]: the look-up, under the lock; [offer]'s test; the push. *)
Definition fine_lookup (message : RelayMessage) (s : Fine) : list FineEvent * Fine :=
  match fi_deliver s, fi_ending s, addressed_to message with
  | None, None, Some id =>
      match fi_table s !! id with
      | Some b => ([EvLanded b message], fi_set_deliver (Some (Testing b (subscription_item message))) s)
      | None => ([], s)
      end
  | _, _, _ => ([], s)
  end.

Definition fine_offer (s : Fine) : list FineEvent * Fine :=
  match fi_deliver s with
  | Some (Testing b item) =>
      match fi_boxes s !! b with
      | Some m => if mb_closed m then ([EvShut b item], fi_set_deliver None s)
                  else ([], fi_set_deliver (Some (Pushing b item)) s)
      | None => ([], s)
      end
  | Some (Pushing b item) =>
      match fi_boxes s !! b with
      | Some m => ([if is_full m then EvFull b item else EvQueued b item],
                   fi_set_deliver None (fi_set_boxes (<[b := mailbox_push item m]> (fi_boxes s)) s))
      | None => ([], s)
      end
  | None => ([], s)
  end.

(** [end_connection]: the table is taken; each mailbox is offered the ending and
    closed; the lock goes when none is left. *)
Definition fine_end (ended : SessionEnded) (s : Fine) : list FineEvent * Fine :=
  match fi_ending s with
  | Some _ => ([], s)
  | None => ([], fi_set_table ∅ (fi_set_ending (Some (mkEnding ended EndTesting (values (fi_table s)))) s))
  end.

Definition fine_end_step (s : Fine) : list FineEvent * Fine :=
  match fi_ending s with
  | None => ([], s)
  | Some (mkEnding ended phase []) => ([], fi_set_ending None s)
  | Some (mkEnding ended phase (b :: bs)) =>
      match fi_boxes s !! b with
      | None => ([], s)
      | Some m =>
          match phase with
          | EndTesting =>
              if mb_closed m then ([EvEndShut b], fi_set_ending (Some (mkEnding ended EndClosing (b :: bs))) s)
              else ([], fi_set_ending (Some (mkEnding ended EndPushing (b :: bs))) s)
          | EndPushing =>
              ([if is_full m then EvEndFull b else EvEndQueued b ended],
               fi_set_ending (Some (mkEnding ended EndClosing (b :: bs)))
                 (fi_set_boxes (<[b := mailbox_push (ItemEnded ended) m]> (fi_boxes s)) s))
          | EndClosing =>
              ([], fi_set_ending (Some (mkEnding ended EndTesting bs))
                     (fi_set_boxes (<[b := mailbox_close m]> (fi_boxes s)) s))
          end
      end
  end.

(** One operation of [next]. *)
Definition fine_read (b : nat) (s : Fine) : list FineEvent * Fine :=
  match fi_boxes s !! b with
  | None => ([], s)
  | Some m =>
      match fi_readers s !! b with
      | None =>
          match take m with
          | (Some item, m) => ([EvRead b (NextTook item)], fi_set_boxes (<[b := m]> (fi_boxes s)) s)
          | (None, _) => ([], fi_set_readers (<[b := AtDropped]> (fi_readers s)) s)
          end
      | Some AtDropped =>
          let '(dropped, m) := take_dropped m in
          if bool_decide (0 < dropped)%N
          then ([EvRead b (NextLost dropped)],
                fi_set_readers (delete b (fi_readers s)) (fi_set_boxes (<[b := m]> (fi_boxes s)) s))
          else ([], fi_set_readers (<[b := AtClosed]> (fi_readers s)) (fi_set_boxes (<[b := m]> (fi_boxes s)) s))
      | Some AtClosed =>
          ([EvRead b (if mb_closed m then NextEnded else NextWaits)], fi_set_readers (delete b (fi_readers s)) s)
      end
  end.

Inductive FineOp :=
| FineOpen (id : SubscriptionId) (capacity : nat)
| FineRelease (id : SubscriptionId)
| FineLookup (message : RelayMessage)
| FineOffer
| FineEnd (ended : SessionEnded)
| FineEndStep
| FineRead (mailbox : nat).

Definition fine_step (op : FineOp) (s : Fine) : list FineEvent * Fine :=
  match op with
  | FineOpen id capacity => fine_open id capacity s
  | FineRelease id => fine_release id s
  | FineLookup message => fine_lookup message s
  | FineOffer => fine_offer s
  | FineEnd ended => fine_end ended s
  | FineEndStep => fine_end_step s
  | FineRead b => fine_read b s
  end.

(** Any interleaving, with all it shows. *)
Definition fine_run (ops : list FineOp) : list FineEvent * Fine :=
  fold_left (λ '(shown, s) op, let '(evs, s) := fine_step op s in (shown ++ evs, s)) ops ([], Fine_new).

(** ** What a run shows of one mailbox *)

Definition messages_at (b : nat) (shown : list FineEvent) : list RelayMessage :=
  omap (λ e, match e with EvLanded b' message => if bool_decide (b' = b) then Some message else None | _ => None end) shown.

(** Queued, in order. *)
Definition queued_at (b : nat) (shown : list FineEvent) : list SubscriptionItem :=
  omap (λ e, match e with
             | EvQueued b' item => if bool_decide (b' = b) then Some item else None
             | EvEndQueued b' ended => if bool_decide (b' = b) then Some (ItemEnded ended) else None
             | _ => None
             end) shown.

(** Deliveries decided, in order. *)
Definition decided_at (b : nat) (shown : list FineEvent) : list SubscriptionItem :=
  omap (λ e, match e with
             | EvQueued b' item | EvFull b' item | EvShut b' item => if bool_decide (b' = b) then Some item else None
             | _ => None
             end) shown.

Definition refused_at (b : nat) (shown : list FineEvent) : nat :=
  length (omap (λ e, match e with
             | EvFull b' _ | EvEndFull b' => if bool_decide (b' = b) then Some tt else None
             | _ => None
             end) shown).

Definition reads_at (b : nat) (shown : list FineEvent) : list NextOutcome :=
  omap (λ e, match e with EvRead b' outcome => if bool_decide (b' = b) then Some outcome else None | _ => None end) shown.

Definition is_ending (item : SubscriptionItem) : bool := match item with ItemEnded _ => true | _ => false end.

(** What follows the first ending. *)
Fixpoint after_ending (items : list SubscriptionItem) : option (list SubscriptionItem) :=
  match items with
  | [] => None
  | item :: items => if is_ending item then Some items else after_ending items
  end.

(** A message that is on its way to the mailbox. *)
Definition on_its_way (b : nat) (s : Fine) : list SubscriptionItem :=
  match fi_deliver s with
  | Some (Testing b' item) | Some (Pushing b' item) => if bool_decide (b' = b) then [item] else []
  | None => []
  end.
End steps.

(** ** The steps run through are the operations of [Transport] *)

Lemma offer_push {T} (item : T) (m : Mailbox T) : offer item m = if mb_closed m then m else mailbox_push item m.
Proof. unfold offer, mailbox_push, is_full. by repeat case_match. Qed.

Section account.
Context `{Wire}.

Definition embed (r : Router) : Fine := mkFine (rt_subscriptions r) (rt_sub_boxes r) None None ∅.

Definition fine_after (ops : list FineOp) (s : Fine) : Fine := fold_left (λ s op, (fine_step op s).2) ops s.

Lemma deliver_uninterrupted message r :
  is_Some (addressed_to message) → router_ok r →
  fine_after [FineLookup message; FineOffer; FineOffer] (embed r) = embed (deliver message r).
Proof.
  intros [id Hid] Hok. cbn. unfold fine_lookup. cbn. rewrite Hid.
  assert (Hd : deliver message r = match rt_subscriptions r !! id with
    | Some mailbox => with_sub mailbox (offer (subscription_item message)) r | None => r end).
  { destruct message; cbn in Hid |- *; try done; by injection Hid as ->. }
  rewrite Hd. destruct (rt_subscriptions r !! id) as [b|] eqn:Hb; [|done]. cbn. unfold fine_offer. cbn.
  destruct (so_open _ _ (rk_subs _ Hok) id b Hb) as (m & Hm & Hc). rewrite Hm, Hc. cbn. rewrite Hm. unfold embed. cbn.
  rewrite (alter_as_insert _ _ _ _ Hm), offer_push, Hc. done.
Qed.

(** [next], from its first operation to its answer. *)
Lemma next_uninterrupted b r m :
  rt_sub_boxes r !! b = Some m →
  ∃ n, let '(evs, s) := fold_left (λ '(shown, s) op, let '(evs, s) := fine_step op s in (shown ++ evs, s))
                          (replicate n (FineRead b)) ([], embed r) in
       evs = [EvRead b (subscription_next b r).1] ∧ s = embed (subscription_next b r).2.
Proof.
  intros Hm. unfold subscription_next. rewrite Hm. unfold next_from, take, take_dropped.
  destruct (mb_items m) as [|item items] eqn:Hi; [|exists 1; cbn; unfold fine_read, take; cbn; rewrite Hm, lookup_empty, Hi; done].
  assert (H1 : fine_read b (embed r) = ([], fi_set_readers {[b := AtDropped]} (embed r))).
  { unfold fine_read, take. cbn. by rewrite Hm, lookup_empty, Hi. }
  destruct (decide (0 < mb_dropped m)%N) as [Hd|Hd].
  - exists 2. cbn [replicate fold_left fine_step]. rewrite H1. cbn [fst snd app fine_step]. unfold fine_read. cbn [fi_boxes fi_readers fi_set_readers embed].
    rewrite Hm, lookup_singleton_eq. cbn. rewrite bool_decide_eq_true_2 by done. cbn. split; [done|]. unfold embed. cbn. by rewrite delete_singleton_eq.
  - exists 3. cbn [replicate fold_left fine_step]. rewrite H1. cbn [fst snd app fine_step].
    set (m' := mkMailbox (mb_capacity m) (mb_items m) 0 (mb_closed m)).
    assert (H2 : fine_read b (fi_set_readers {[b := AtDropped]} (embed r)) =
      ([], fi_set_readers {[b := AtClosed]} (fi_set_boxes (<[b := m']> (rt_sub_boxes r)) (embed r)))).
    { unfold fine_read. cbn [fi_boxes fi_readers fi_set_readers embed]. rewrite Hm, lookup_singleton_eq. cbn.
      rewrite bool_decide_eq_false_2 by done. by rewrite insert_singleton_eq. }
    rewrite H2. cbn [fst snd app fine_step]. unfold fine_read. cbn [fi_boxes fi_readers fi_set_readers fi_set_boxes embed].
    rewrite list_lookup_insert_eq by (by eapply lookup_lt_Some). rewrite lookup_singleton_eq. cbn.
    rewrite bool_decide_eq_false_2 by done. fold m'. unfold embed. cbn. rewrite delete_singleton_eq.
    by destruct (mb_closed m).
Qed.

(** ** One mailbox along a run *)

Definition event_box (e : FineEvent) : nat :=
  match e with
  | EvOpened _ b | EvLanded b _ | EvQueued b _ | EvFull b _ | EvShut b _ | EvEndQueued b _ | EvEndFull b | EvEndShut b
  | EvRead b _ => b
  end.

Definition registered_at (s : Fine) (b : nat) : Prop := ∃ id, fi_table s !! id = Some b.

(** Mailboxes [end_connection] has yet to offer the ending to. *)
Definition to_end (s : Fine) : list nat :=
  match fi_ending s with
  | None => []
  | Some (mkEnding _ EndClosing bs) => List.tl bs
  | Some (mkEnding _ _ bs) => bs
  end.

Record account (b : nat) (shown : list FineEvent) (s : Fine) (m : Mailbox SubscriptionItem) : Prop := {
  ac_queue : taken (reads_at b shown) ++ mb_items m = queued_at b shown;
  ac_bounded : mailbox_bounded m;
  ac_landed : subscription_item <$> messages_at b shown = decided_at b shown ++ on_its_way b s;
  ac_lost : (N.of_nat (refused_at b shown) ≤ u64_max)%N →
    (lost (reads_at b shown) + mb_dropped m)%N = N.of_nat (refused_at b shown);
  ac_one_end : (∃ e, e ∈ queued_at b shown ∧ is_ending e = true) → ¬ registered_at s b ∧ b ∉ to_end s;
  ac_after : ∀ post, after_ending (queued_at b shown) = Some post →
    length post + length (on_its_way b s) ≤ 1 ∧ Forall (λ item, is_ending item = false) post;
  ac_addressed : ∀ message, message ∈ messages_at b shown → ∃ id, EvOpened id b ∈ shown ∧ addressed_to message = Some id;
  ac_ended_read : NextEnded ∈ reads_at b shown → mb_closed m = true;
  ac_shut : ∀ item, EvShut b item ∈ shown → mb_closed m = true
}.

Record fine_ok (shown : list FineEvent) (s : Fine) : Prop := {
  fo_table id b : fi_table s !! id = Some b → b < length (fi_boxes s) ∧ EvOpened id b ∈ shown;
  fo_inj i j b : fi_table s !! i = Some b → fi_table s !! j = Some b → i = j;
  fo_locked : fi_ending s ≠ None → fi_table s = ∅;
  fo_ending e : fi_ending s = Some e → NoDup (en_boxes e);
  fo_opened id b : EvOpened id b ∈ shown → b < length (fi_boxes s) ∧ ∀ id', EvOpened id' b ∈ shown → id' = id;
  fo_box b : b < length (fi_boxes s) → ∃ id, EvOpened id b ∈ shown;
  fo_shown e : e ∈ shown → event_box e < length (fi_boxes s);
  fo_deliver b : on_its_way b s ≠ [] → b < length (fi_boxes s);
  fo_account b m : fi_boxes s !! b = Some m → account b shown s m
}.

(** Events of other mailboxes say nothing of this one. *)
Lemma omap_silent {A} (f : FineEvent → option A) b evs :
  (∀ e, event_box e ≠ b → f e = None) → (∀ e, e ∈ evs → event_box e ≠ b) → omap f evs = [].
Proof.
  intros Hf. induction evs as [|e evs IH]; intros Hev; [done|]. cbn. rewrite Hf by (apply Hev; by left).
  apply IH. intros e' He'. apply Hev. by right.
Qed.

Lemma at_app b shown evs :
  messages_at b (shown ++ evs) = messages_at b shown ++ messages_at b evs ∧
  queued_at b (shown ++ evs) = queued_at b shown ++ queued_at b evs ∧
  decided_at b (shown ++ evs) = decided_at b shown ++ decided_at b evs ∧
  refused_at b (shown ++ evs) = refused_at b shown + refused_at b evs ∧
  reads_at b (shown ++ evs) = reads_at b shown ++ reads_at b evs.
Proof.
  unfold messages_at, queued_at, decided_at, refused_at, reads_at. rewrite !omap_app, length_app. done.
Qed.

(** Nothing of the mailbox is shown. *)
Definition quiet_for (b : nat) (evs : list FineEvent) : Prop :=
  messages_at b evs = [] ∧ queued_at b evs = [] ∧ decided_at b evs = [] ∧ refused_at b evs = 0 ∧ reads_at b evs = [].

Lemma quiet_others b evs : (∀ e, e ∈ evs → event_box e ≠ b) → quiet_for b evs.
Proof.
  intros Hev. unfold quiet_for, messages_at, queued_at, decided_at, refused_at, reads_at.
  rewrite !(omap_silent _ b evs); [done|..]; try done; intros []; cbn; intros Hne; rewrite ?bool_decide_eq_false_2 by done; done.
Qed.

(** A step that does not concern the mailbox. *)
Lemma account_frame b shown evs s s' m :
  account b shown s m → quiet_for b evs → on_its_way b s' = on_its_way b s →
  (registered_at s' b ∨ b ∈ to_end s' → registered_at s b ∨ b ∈ to_end s) → account b (shown ++ evs) s' m.
Proof.
  intros [A1 A2 A3 A4 A5 A6 A7 A8 A9] (E1 & E2 & E3 & E4 & E5) Hway Hend.
  destruct (at_app b shown evs) as (P1 & P2 & P3 & P4 & P5). rewrite E1, app_nil_r in P1. rewrite E2, app_nil_r in P2.
  rewrite E3, app_nil_r in P3. rewrite E4, Nat.add_0_r in P4. rewrite E5, app_nil_r in P5.
  split; rewrite ?P1, ?P2, ?P3, ?P4, ?P5, ?Hway; try done.
  - intros Hq. destruct (A5 Hq). tauto.
  - intros message Hm. destruct (A7 message Hm) as (id & ? & ?). exists id. split; [set_solver|done].
  - intros item [Hin|Hin]%elem_of_app; [by eapply A9|]. exfalso. apply (not_elem_of_nil item). rewrite <- E3.
    apply list_elem_of_omap. exists (EvShut b item). split; [done|]. by rewrite bool_decide_eq_true_2.
Qed.

(** A write that leaves the queue and the losses, and does not reopen. *)
Lemma account_box b shown s m m' :
  account b shown s m → mb_items m' = mb_items m → mb_dropped m' = mb_dropped m → mb_capacity m' = mb_capacity m →
  (mb_closed m = true → mb_closed m' = true) → account b shown s m'.
Proof.
  intros [A1 A2 A3 A4 A5 A6 A7 A8 A9] E1 E2 E3 E4. split; rewrite ?E1, ?E2; eauto. unfold mailbox_bounded in *. by rewrite E1, E3.
Qed.

Lemma subscription_item_no_ending message : is_ending (subscription_item message) = false.
Proof. by destruct message. Qed.

Lemma on_its_way_le b s : length (on_its_way b s) ≤ 1.
Proof. unfold on_its_way. repeat case_match; cbn; lia. Qed.

Lemma after_ending_snoc items item :
  after_ending (items ++ [item]) =
  match after_ending items with Some post => Some (post ++ [item]) | None => if is_ending item then Some [] else None end.
Proof. induction items as [|x items IH]; cbn; [done|]. by destruct (is_ending x). Qed.

Lemma after_ending_Some items post : after_ending items = Some post → ∃ e, e ∈ items ∧ is_ending e = true.
Proof.
  induction items as [|x items IH]; cbn; [done|]. destruct (is_ending x) eqn:E.
  - intros _. exists x. split; [by left|done].
  - intros (e & ? & ?)%IH. exists e. split; [by right|done].
Qed.

(** A message on its way is no ending. *)
Lemma on_its_way_item b shown s m item : account b shown s m → item ∈ on_its_way b s → is_ending item = false.
Proof.
  intros Hac Hin. assert (Hm : item ∈ subscription_item <$> messages_at b shown) by (rewrite (ac_landed _ _ _ _ Hac); set_solver).
  apply list_elem_of_fmap in Hm as (message & -> & _). apply subscription_item_no_ending.
Qed.

Lemma lost_count shown n (m : Mailbox SubscriptionItem) (b : nat) :
  ((N.of_nat n ≤ u64_max)%N → (lost (reads_at b shown) + mb_dropped m)%N = N.of_nat n) →
  (N.of_nat (n + 1) ≤ u64_max)%N → (lost (reads_at b shown) + fetch_add_one (mb_dropped m))%N = N.of_nat (n + 1).
Proof.
  intros Hl Hn. unfold fetch_add_one. unfold u64_max in *. rewrite N.mod_small by lia. lia.
Qed.

#[local] Ltac at_self b shown ev :=
  let P := fresh "P" in
  pose proof (at_app b shown [ev]) as P; unfold messages_at at 3, queued_at at 3, decided_at at 3, refused_at at 3, reads_at at 3 in P;
  cbn in P; rewrite ?(bool_decide_eq_true_2 (b = b)) in P by done; cbn in P; rewrite ?app_nil_r in P; destruct P as (P1 & P2 & P3 & P4 & P5).

Lemma account_landed b shown s s' m message id :
  account b shown s m → on_its_way b s = [] → on_its_way b s' = [subscription_item message] →
  registered_at s b → EvOpened id b ∈ shown → addressed_to message = Some id →
  (registered_at s' b ∨ b ∈ to_end s' → registered_at s b ∨ b ∈ to_end s) →
  account b (shown ++ [EvLanded b message]) s' m.
Proof.
  intros [A1 A2 A3 A4 A5 A6 A7 A8 A9] W W' Hreg Hop Hid Hend. at_self b shown (EvLanded b message).
  split; rewrite ?P1, ?P2, ?P3, ?P4, ?P5, ?W'; try done.
  - rewrite W, app_nil_r in A3. by rewrite fmap_app, A3.
  - by rewrite Nat.add_0_r.
  - intros Hq. by destruct (A5 Hq).
  - intros post Hp. by destruct (A5 (after_ending_Some _ _ Hp)).
  - intros message' [Hm| ->%list_elem_of_singleton]%elem_of_app.
    + destruct (A7 message' Hm) as (id' & ? & ?). exists id'. split; [set_solver|done].
    + exists id. split; [set_solver|done].
  - intros item [Hin|[=]%list_elem_of_singleton]%elem_of_app. by eapply A9.
Qed.

Lemma account_shut b shown s s' m item :
  account b shown s m → on_its_way b s = [item] → on_its_way b s' = [] → mb_closed m = true →
  (registered_at s' b ∨ b ∈ to_end s' → registered_at s b ∨ b ∈ to_end s) →
  account b (shown ++ [EvShut b item]) s' m.
Proof.
  intros [A1 A2 A3 A4 A5 A6 A7 A8 A9] W W' Hc Hend. at_self b shown (EvShut b item).
  split; rewrite ?P1, ?P2, ?P3, ?P4, ?P5, ?W'; try done.
  - by rewrite A3, W, app_nil_r.
  - by rewrite Nat.add_0_r.
  - intros Hq. destruct (A5 Hq). tauto.
  - intros post Hp. destruct (A6 post Hp) as [Hlen ?]. split; [cbn; lia|done].
  - intros message Hm. destruct (A7 message Hm) as (id' & ? & ?). exists id'. split; [set_solver|done].
Qed.

Lemma account_pushed b shown s s' m item :
  account b shown s m → on_its_way b s = [item] → on_its_way b s' = [] →
  (registered_at s' b ∨ b ∈ to_end s' → registered_at s b ∨ b ∈ to_end s) →
  account b (shown ++ [if is_full m then EvFull b item else EvQueued b item]) s' (mailbox_push item m).
Proof.
  intros Hac W W' Hend. assert (Hi : is_ending item = false) by (eapply on_its_way_item; [done|rewrite W; by left]).
  destruct Hac as [A1 A2 A3 A4 A5 A6 A7 A8 A9]. unfold mailbox_push. destruct (is_full m) eqn:Hfull.
  - at_self b shown (EvFull b item). split; rewrite ?P1, ?P2, ?P3, ?P4, ?P5, ?W'; try done.
    + by rewrite A3, W, app_nil_r.
    + by apply lost_count.
    + intros Hq. destruct (A5 Hq). tauto.
    + intros post Hp. destruct (A6 post Hp) as [Hlen ?]. split; [cbn; lia|done].
    + intros message Hm. destruct (A7 message Hm) as (id' & ? & ?). exists id'. split; [set_solver|done].
    + intros item' [Hin|[=]%list_elem_of_singleton]%elem_of_app. by eapply A9.
  - apply bool_decide_eq_false_1 in Hfull.
    at_self b shown (EvQueued b item). split; rewrite ?P1, ?P2, ?P3, ?P4, ?P5, ?W'; try done.
    + cbn. by rewrite <- A1, app_assoc.
    + unfold mailbox_bounded in *. cbn. rewrite length_app. cbn. lia.
    + by rewrite A3, W, app_nil_r.
    + by rewrite Nat.add_0_r.
    + intros (e & [He| ->%list_elem_of_singleton]%elem_of_app & Hend'); [|congruence].
      assert (¬ registered_at s b ∧ b ∉ to_end s) by eauto. tauto.
    + intros post. rewrite after_ending_snoc, Hi. destruct (after_ending (queued_at b shown)) as [post'|] eqn:Hp; [|done].
      intros [= <-]. destruct (A6 post' eq_refl) as [Hlen Hall]. rewrite W in Hlen. rewrite length_app. cbn in *. split; [lia|].
      apply Forall_app. split; [done|by constructor].
    + intros message Hm. destruct (A7 message Hm) as (id' & ? & ?). exists id'. split; [set_solver|done].
    + intros item' [Hin|[=]%list_elem_of_singleton]%elem_of_app. by eapply A9.
Qed.

Lemma account_end_pushed b shown s s' m ended :
  account b shown s m → on_its_way b s' = on_its_way b s → b ∈ to_end s → ¬ registered_at s' b → b ∉ to_end s' →
  account b (shown ++ [if is_full m then EvEndFull b else EvEndQueued b ended]) s' (mailbox_push (ItemEnded ended) m).
Proof.
  intros [A1 A2 A3 A4 A5 A6 A7 A8 A9] W Hto Hreg Hno. unfold mailbox_push.
  assert (Hnone : after_ending (queued_at b shown) = None).
  { destruct (after_ending (queued_at b shown)) as [post|] eqn:Hp; [|done]. by destruct (A5 (after_ending_Some _ _ Hp)). }
  destruct (is_full m) eqn:Hfull.
  - at_self b shown (EvEndFull b). split; rewrite ?P1, ?P2, ?P3, ?P4, ?P5, ?W; try done.
    + by apply lost_count.
    + intros message Hm. destruct (A7 message Hm) as (id' & ? & ?). exists id'. split; [set_solver|done].
    + intros item' [Hin|[=]%list_elem_of_singleton]%elem_of_app. by eapply A9.
  - apply bool_decide_eq_false_1 in Hfull.
    at_self b shown (EvEndQueued b ended). split; rewrite ?P1, ?P2, ?P3, ?P4, ?P5, ?W; try done.
    + cbn. by rewrite <- A1, app_assoc.
    + unfold mailbox_bounded in *. cbn. rewrite length_app. cbn. lia.
    + by rewrite Nat.add_0_r.
    + intros post. rewrite after_ending_snoc, Hnone. cbn. intros [= <-]. split; [apply on_its_way_le|constructor].
    + intros message Hm. destruct (A7 message Hm) as (id' & ? & ?). exists id'. split; [set_solver|done].
    + intros item' [Hin|[=]%list_elem_of_singleton]%elem_of_app. by eapply A9.
Qed.

(** An answer of [next]. *)
Lemma account_read b shown s s' m m' outcome :
  account b shown s m → on_its_way b s' = on_its_way b s →
  (registered_at s' b ∨ b ∈ to_end s' → registered_at s b ∨ b ∈ to_end s) →
  taken [outcome] ++ mb_items m' = mb_items m → mailbox_bounded m' → (lost [outcome] + mb_dropped m')%N = mb_dropped m →
  mb_closed m' = mb_closed m → (outcome = NextEnded → mb_closed m = true) →
  account b (shown ++ [EvRead b outcome]) s' m'.
Proof.
  intros [A1 A2 A3 A4 A5 A6 A7 A8 A9] W Hend Htaken Hb Hlost Hc Hended. at_self b shown (EvRead b outcome).
  split; rewrite ?P1, ?P2, ?P3, ?P4, ?P5, ?W; try done.
  - by rewrite taken_app, <- app_assoc, Htaken.
  - rewrite Nat.add_0_r, lost_app. intros Hn. specialize (A4 Hn). lia.
  - intros Hq. destruct (A5 Hq). tauto.
  - intros message Hm. destruct (A7 message Hm) as (id' & ? & ?). exists id'. split; [set_solver|done].
  - rewrite Hc. intros [?|Ho%list_elem_of_singleton]%elem_of_app; [auto|]. by apply Hended.
  - rewrite Hc. intros item [Hin|[=]%list_elem_of_singleton]%elem_of_app. by eapply A9.
Qed.

(** ** Every step keeps the accounts *)

(** A step that neither opens a mailbox nor touches the table's entries. *)
Lemma fine_ok_step shown evs s s' :
  fine_ok shown s → length (fi_boxes s') = length (fi_boxes s) → fi_table s' ⊆ fi_table s →
  (fi_ending s' ≠ None → fi_table s' = ∅) → (∀ e, fi_ending s' = Some e → NoDup (en_boxes e)) →
  (∀ e, e ∈ evs → event_box e < length (fi_boxes s) ∧ ∀ id b, e ≠ EvOpened id b) →
  (∀ b, on_its_way b s' ≠ [] → b < length (fi_boxes s)) →
  (∀ b m m', fi_boxes s !! b = Some m → fi_boxes s' !! b = Some m' → account b shown s m → account b (shown ++ evs) s' m') →
  fine_ok (shown ++ evs) s'.
Proof.
  intros [F1 F2 F3 F4 F5 F6 F7 F8 F9] Hlen Hsub Hlock Hnd Hev Hway Hac. split; rewrite ?Hlen.
  - intros id b Hb. apply (lookup_weaken _ _ _ _ Hb) in Hsub. destruct (F1 id b Hsub). split; [done|set_solver].
  - intros i j b Hi Hj. eapply F2; by eapply lookup_weaken.
  - done.
  - done.
  - intros id b [Hin|Hin]%elem_of_app; [|by destruct (proj2 (Hev _ Hin) id b)]. destruct (F5 id b Hin) as [? Hu]. split; [done|].
    intros id' [Hin'|Hin']%elem_of_app; [by apply Hu|]. by destruct (proj2 (Hev _ Hin') id' b).
  - intros b Hb. destruct (F6 b Hb) as [id ?]. exists id. set_solver.
  - intros e [Hin|Hin]%elem_of_app; [by apply F7|]. by apply Hev.
  - done.
  - intros b m' Hm'. assert (is_Some (fi_boxes s !! b)) as [m Hm].
    { apply lookup_lt_is_Some. rewrite <- Hlen. by eapply lookup_lt_Some. }
    eapply Hac; eauto.
Qed.

(** Steps that show nothing and leave the mailboxes. *)
Lemma fine_ok_quiet shown s s' :
  fine_ok shown s → fi_boxes s' = fi_boxes s → fi_table s' ⊆ fi_table s →
  (fi_ending s' ≠ None → fi_table s' = ∅) → (∀ e, fi_ending s' = Some e → NoDup (en_boxes e)) →
  (∀ b, on_its_way b s' = on_its_way b s) →
  (∀ b, registered_at s' b ∨ b ∈ to_end s' → registered_at s b ∨ b ∈ to_end s) →
  fine_ok (shown ++ []) s'.
Proof.
  intros Hok Hb Hsub Hlock Hnd Hway Hend. apply (fine_ok_step shown [] s); try done; rewrite ?Hb; try done.
  - by intros e []%not_elem_of_nil.
  - intros b. rewrite Hway. apply (fo_deliver _ _ Hok).
  - intros b m m' Hm Hm' Hac. assert (m' = m) as -> by congruence. apply (account_frame b shown [] s); auto.
    apply quiet_others. by intros e []%not_elem_of_nil.
Qed.

(** Steps that write one mailbox. *)
Lemma fine_ok_write shown evs s s' b0 m0 m0' :
  fine_ok shown s → fi_boxes s !! b0 = Some m0 → fi_boxes s' = <[b0 := m0']> (fi_boxes s) → fi_table s' = fi_table s →
  (fi_ending s' ≠ None → fi_ending s ≠ None) → (∀ e, fi_ending s' = Some e → NoDup (en_boxes e)) →
  (∀ e, e ∈ evs → event_box e = b0 ∧ ∀ id b, e ≠ EvOpened id b) →
  (∀ b, b ≠ b0 → on_its_way b s' = on_its_way b s) →
  (∀ b, b ≠ b0 → b ∈ to_end s' → b ∈ to_end s) →
  (account b0 shown s m0 → account b0 (shown ++ evs) s' m0') →
  fine_ok (shown ++ evs) s'.
Proof.
  intros Hok Hm0 Hb Ht Hlock Hnd Hev Hway Hend Hac. pose proof (lookup_lt_Some _ _ _ Hm0) as Hlt.
  apply (fine_ok_step shown evs s); try done.
  - by rewrite Hb, length_insert.
  - by rewrite Ht.
  - intros He. rewrite Ht. by apply (fo_locked _ _ Hok), Hlock.
  - intros e He. destruct (Hev e He) as [-> ?]. done.
  - intros b. destruct (decide (b = b0)) as [->|Hne]; [done|]. rewrite Hway by done. apply (fo_deliver _ _ Hok).
  - intros b m m' Hm Hm' Hold. rewrite Hb in Hm'. destruct (decide (b = b0)) as [->|Hne].
    + rewrite list_lookup_insert_eq in Hm' by done. injection Hm' as <-. assert (m = m0) as -> by congruence. by apply Hac.
    + rewrite list_lookup_insert_ne in Hm' by done. assert (m' = m) as -> by congruence. apply (account_frame b shown evs s); [done| |by apply Hway|].
      * apply quiet_others. intros e He. destruct (Hev e He) as [-> _]. done.
      * unfold registered_at. rewrite Ht. naive_solver.
Qed.

Lemma fine_open_ok id capacity shown s : fine_ok shown s → fine_ok (shown ++ (fine_open id capacity s).1) (fine_open id capacity s).2.
Proof.
  intros Hok. unfold fine_open. destruct (fi_ending s) as [e|] eqn:He; [by rewrite app_nil_r|]. cbn.
  set (b0 := length (fi_boxes s)). destruct Hok as [F1 F2 F3 F4 F5 F6 F7 F8 F9].
  assert (Hnew : ∀ i b, fi_table s !! i = Some b → b < b0) by (intros i b Hi; by apply (F1 i)).
  assert (Hend : ∀ b, b ≠ b0 → registered_at (fi_set_table (<[id := b0]> (fi_table s)) s) b → registered_at s b).
  { intros b Hne [i Hi]. cbn in Hi. apply lookup_insert_Some in Hi as [[_ <-]|[_ Hi]]; [done|by exists i]. }
  split; cbn.
  - intros i b [[-> <-]|[_ Hi]]%lookup_insert_Some; rewrite length_app; cbn; [split; [lia|set_solver]|].
    destruct (F1 i b Hi). split; [lia|set_solver].
  - intros i j b [[Ei Eb]|[Hne Hi]]%lookup_insert_Some [[Ej Eb']|[Hne' Hj]]%lookup_insert_Some; [congruence|..].
    + apply Hnew in Hj. lia.
    + apply Hnew in Hi. lia.
    + by eapply F2.
  - by rewrite He.
  - by rewrite He.
  - intros i b [Hin|[= -> ->]%list_elem_of_singleton]%elem_of_app; rewrite length_app; cbn.
    + destruct (F5 i b Hin) as [Hlt Hu]. split; [lia|]. intros i' [Hin'|[= -> ->]%list_elem_of_singleton]%elem_of_app; [by apply Hu|unfold b0 in Hlt; lia].
    + split; [unfold b0; lia|]. intros i' [Hin'|[= ->]%list_elem_of_singleton]%elem_of_app; [|done]. apply F5 in Hin' as [Hlt _]. unfold b0 in Hlt. lia.
  - intros b. rewrite length_app. cbn. intros Hb. destruct (decide (b = b0)) as [->|Hne]; [exists id; set_solver|].
    destruct (F6 b) as [i ?]; [unfold b0 in Hne; lia|]. exists i. set_solver.
  - intros e [Hin| ->%list_elem_of_singleton]%elem_of_app; rewrite length_app; cbn; [apply F7 in Hin; lia|unfold b0; lia].
  - intros b Hb. rewrite length_app. cbn. specialize (F8 b Hb). lia.
  - intros b m Hm. destruct (decide (b = b0)) as [->|Hne].
    + unfold b0 in Hm. rewrite lookup_app_r, Nat.sub_diag in Hm by done. injection Hm as <-.
      destruct (quiet_others b0 shown) as (E1 & E2 & E3 & E4 & E5); [intros e Hin; apply F7 in Hin; unfold b0; lia|].
      assert (Hway : on_its_way b0 s = []).
      { destruct (on_its_way b0 s) eqn:Hw; [done|]. assert (b0 < length (fi_boxes s)) by (apply F8; by rewrite Hw). unfold b0 in *. lia. }
      destruct (at_app b0 shown [EvOpened id b0]) as (P1 & P2 & P3 & P4 & P5). rewrite E1 in P1. rewrite E2 in P2. rewrite E3 in P3.
      rewrite E4 in P4. rewrite E5 in P5. cbn in P1, P2, P3, P4, P5.
      split; rewrite ?P1, ?P2, ?P3, ?P4, ?P5; try done.
      * unfold mailbox_bounded. cbn. lia.
      * intros (e & []%not_elem_of_nil & _).
      * intros message []%not_elem_of_nil.
      * intros []%not_elem_of_nil.
      * intros item [Hin|[=]%list_elem_of_singleton]%elem_of_app. apply F7 in Hin. cbn in Hin. unfold b0 in Hin. lia.
    + assert (Hm' : fi_boxes s !! b = Some m).
      { rewrite lookup_app_l in Hm; [done|]. apply lookup_lt_Some in Hm. rewrite length_app in Hm. cbn in Hm. unfold b0 in Hne. lia. }
      apply (account_frame b shown _ s); [by apply F9| |done|].
      * apply quiet_others. intros e ->%list_elem_of_singleton. done.
      * unfold to_end. cbn. rewrite He. intros [Hr|[]%not_elem_of_nil]. left. by apply Hend.
Qed.

Lemma fine_release_ok id shown s : fine_ok shown s → fine_ok (shown ++ (fine_release id s).1) (fine_release id s).2.
Proof.
  intros Hok. unfold fine_release. destruct (fi_ending s) eqn:He; [by rewrite app_nil_r|].
  destruct (fi_table s !! id) as [b0|] eqn:Hb; [|by rewrite app_nil_r]. cbn.
  assert (Hsub : delete id (fi_table s) ⊆ fi_table s) by apply delete_subseteq.
  apply (fine_ok_step shown [] s); cbn; try done; try (by rewrite He).
  - apply length_alter.
  - by intros e []%not_elem_of_nil.
  - apply (fo_deliver _ _ Hok).
  - intros b m m' Hm Hm' Hac. apply alter_lookup_Some in Hm' as (m1 & Hm1 & ->). assert (m1 = m) as -> by congruence.
    apply (account_frame b shown [] s); [|apply quiet_others; by intros e []%not_elem_of_nil|done|].
    + case_bool_decide; [|done]. by eapply account_box.
    + intros [[i Hi]|Hin]; [left|by right]. exists i. by eapply lookup_weaken.
Qed.

Lemma fine_lookup_ok message shown s : fine_ok shown s → fine_ok (shown ++ (fine_lookup message s).1) (fine_lookup message s).2.
Proof.
  intros Hok. unfold fine_lookup. destruct (fi_deliver s) eqn:Hd; [by rewrite app_nil_r|].
  destruct (fi_ending s) eqn:He; [by rewrite app_nil_r|]. destruct (addressed_to message) as [id|] eqn:Ha; [|by rewrite app_nil_r].
  destruct (fi_table s !! id) as [b0|] eqn:Hb; [|by rewrite app_nil_r]. cbn.
  destruct (fo_table _ _ Hok id b0 Hb) as [Hlt Hop]. destruct (lookup_lt_is_Some_2 _ _ Hlt) as [m0 Hm0].
  apply (fine_ok_write shown _ s _ b0 m0 m0); cbn; try done; try (by rewrite He).
  - by rewrite list_insert_id.
  - intros e ->%list_elem_of_singleton. done.
  - intros b Hne. unfold on_its_way. cbn. rewrite Hd. by rewrite bool_decide_eq_false_2 by done.
  - intros Hac. apply (account_landed b0 shown s _ m0 message id); try done.
    + unfold on_its_way. by rewrite Hd.
    + unfold on_its_way. cbn. by rewrite bool_decide_eq_true_2.
    + by exists id.
Qed.

Lemma fine_offer_ok shown s : fine_ok shown s → fine_ok (shown ++ (fine_offer s).1) (fine_offer s).2.
Proof.
  intros Hok. unfold fine_offer. destruct (fi_deliver s) as [[b0 item|b0 item]|] eqn:Hd; [| |by rewrite app_nil_r].
  all: destruct (fi_boxes s !! b0) as [m0|] eqn:Hm0; [|by rewrite app_nil_r].
  all: assert (Hself : on_its_way b0 s = [item]) by (unfold on_its_way; rewrite Hd; by rewrite bool_decide_eq_true_2).
  all: assert (Hother : ∀ b, b ≠ b0 → on_its_way b s = []) by (intros b Hne; unfold on_its_way; rewrite Hd; by rewrite bool_decide_eq_false_2).
  - destruct (mb_closed m0) eqn:Hc; cbn.
    + apply (fine_ok_write shown _ s _ b0 m0 m0); cbn; try done.
      * by rewrite list_insert_id.
      * apply (fo_ending _ _ Hok).
      * intros e ->%list_elem_of_singleton. done.
      * intros b Hne. by rewrite (Hother b Hne).
      * intros Hac. by apply (account_shut b0 shown s).
    + apply (fine_ok_quiet shown s); cbn; try done; try apply (fo_locked _ _ Hok); try apply (fo_ending _ _ Hok).
      intros b. unfold on_its_way. cbn. by rewrite Hd.
  - cbn. apply (fine_ok_write shown _ s _ b0 m0 (mailbox_push item m0)); cbn; try done.
    + apply (fo_ending _ _ Hok).
    + intros e ->%list_elem_of_singleton. by destruct (is_full m0).
    + intros b Hne. by rewrite (Hother b Hne).
    + intros Hac. by apply (account_pushed b0 shown s).
Qed.

Lemma NoDup_values (m : gmap SubscriptionId nat) : (∀ i j b, m !! i = Some b → m !! j = Some b → i = j) → NoDup (values m).
Proof.
  intros Hinj. unfold values. apply NoDup_fmap_2_strong; [|rewrite entries_perm; apply NoDup_map_to_list].
  intros [i b] [j b'] Hi Hj Heq. cbn in Heq. subst b'. apply elem_of_entries in Hi, Hj. f_equal. by eapply Hinj.
Qed.

Lemma fine_end_ok ended shown s : fine_ok shown s → fine_ok (shown ++ (fine_end ended s).1) (fine_end ended s).2.
Proof.
  intros Hok. unfold fine_end. destruct (fi_ending s) as [e|] eqn:He; [by rewrite app_nil_r|]. cbn.
  apply (fine_ok_quiet shown s); cbn; try done.
  - apply map_empty_subseteq.
  - intros e [= <-]. cbn. apply NoDup_values, (fo_inj _ _ Hok).
  - intros b [[i Hi]|Hin]; [done|]. left. by apply elem_of_values in Hin.
Qed.

Lemma fine_end_step_ok shown s : fine_ok shown s → fine_ok (shown ++ (fine_end_step s).1) (fine_end_step s).2.
Proof.
  intros Hok. unfold fine_end_step. destruct (fi_ending s) as [[ended phase [|b0 bs]]|] eqn:He; [| |by rewrite app_nil_r].
  { cbn. apply (fine_ok_quiet shown s); cbn; try done. unfold to_end. cbn. intros b [?|[]%not_elem_of_nil]. by left. }
  destruct (fi_boxes s !! b0) as [m0|] eqn:Hm0; [|by rewrite app_nil_r].
  assert (Hnd : NoDup (b0 :: bs)) by (apply (fo_ending _ _ Hok _ He)). pose proof (proj1 (NoDup_cons _ _) Hnd) as [Hnot Hbs].
  assert (Htable : fi_table s = ∅) by (apply (fo_locked _ _ Hok); by rewrite He).
  assert (Hnr : ¬ registered_at s b0) by (intros [i Hi]; by rewrite Htable in Hi).
  assert (Hsome : fi_ending s ≠ None) by (by rewrite He).
  destruct phase.
  - destruct (mb_closed m0) eqn:Hc; cbn.
    + apply (fine_ok_write shown _ s _ b0 m0 m0); cbn; try done.
      * by rewrite list_insert_id.
      * by intros e [= <-].
      * intros e ->%list_elem_of_singleton. done.
      * intros b Hne. unfold to_end. cbn. rewrite He. set_solver.
      * intros Hac. apply (account_frame b0 shown _ s); [done|done|done|]. unfold to_end. cbn. rewrite He. intros [?|?]; [by left|set_solver].
    + apply (fine_ok_quiet shown s); cbn; try done; [by intros e [= <-]|]. unfold to_end. cbn. rewrite He. done.
  - cbn. apply (fine_ok_write shown _ s _ b0 m0 (mailbox_push (ItemEnded ended) m0)); cbn; try done.
    + by intros e [= <-].
    + intros e ->%list_elem_of_singleton. by destruct (is_full m0).
    + intros b Hne. unfold to_end. cbn. rewrite He. set_solver.
    + intros Hac. apply (account_end_pushed b0 shown s); try done. unfold to_end. rewrite He. by left.
  - cbn. apply (fine_ok_write shown _ s _ b0 m0 (mailbox_close m0)); cbn; try done.
    + by intros e [= <-].
    + by intros e []%not_elem_of_nil.
    + intros b Hne. unfold to_end. cbn. rewrite He. done.
    + intros Hac. apply (account_frame b0 shown _ s); [by eapply account_box|apply quiet_others; by intros e []%not_elem_of_nil|done|].
      unfold to_end. cbn. rewrite He. done.
Qed.

Lemma fine_read_ok b0 shown s : fine_ok shown s → fine_ok (shown ++ (fine_read b0 s).1) (fine_read b0 s).2.
Proof.
  intros Hok. unfold fine_read. destruct (fi_boxes s !! b0) as [m0|] eqn:Hm0; [|by rewrite app_nil_r].
  pose proof (ac_bounded _ _ _ _ (fo_account _ _ Hok b0 m0 Hm0)) as Hb.
  destruct (fi_readers s !! b0) as [[]|]; cbn.
  - destruct (decide (0 < mb_dropped m0)%N) as [Hd|Hd]; [rewrite bool_decide_eq_true_2 by done|rewrite bool_decide_eq_false_2 by done]; cbn.
    + eapply (fine_ok_write shown _ s _ b0 m0); cbn; try done; [apply (fo_ending _ _ Hok)|intros e ->%list_elem_of_singleton; done|].
      intros Hac. eapply account_read; [exact Hac|done|auto|done|done|cbn; lia|done|done].
    + eapply (fine_ok_write shown _ s _ b0 m0); cbn; try done; [apply (fo_ending _ _ Hok)|by intros e []%not_elem_of_nil|].
      intros Hac. apply (account_frame b0 shown [] s); [|apply quiet_others; by intros e []%not_elem_of_nil|done|auto].
      eapply account_box; [done|done|cbn; lia|done|done].
  - apply (fine_ok_write shown _ s _ b0 m0 m0); cbn; try done; [by rewrite list_insert_id|apply (fo_ending _ _ Hok)| |].
    + intros e ->%list_elem_of_singleton. done.
    + intros Hac. destruct (mb_closed m0) eqn:Hc; (eapply account_read; [exact Hac|done|auto|done|done|done|done|done]).
  - unfold take. destruct (mb_items m0) as [|item items] eqn:Hi; cbn.
    + apply (fine_ok_quiet shown s); cbn; try done; [apply (fo_locked _ _ Hok)|apply (fo_ending _ _ Hok)].
    + eapply (fine_ok_write shown _ s _ b0 m0); cbn; try done; [apply (fo_ending _ _ Hok)|intros e ->%list_elem_of_singleton; done|].
      intros Hac. eapply account_read; [exact Hac|done|auto|cbn; by rewrite Hi| |done|done|done].
      unfold mailbox_bounded in *. rewrite Hi in Hb. cbn in *. lia.
Qed.

Lemma fine_step_ok op shown s : fine_ok shown s → fine_ok (shown ++ (fine_step op s).1) (fine_step op s).2.
Proof.
  intros Hok. destruct op; cbn [fine_step].
  - by apply fine_open_ok.
  - by apply fine_release_ok.
  - by apply fine_lookup_ok.
  - by apply fine_offer_ok.
  - by apply fine_end_ok.
  - by apply fine_end_step_ok.
  - by apply fine_read_ok.
Qed.

Lemma fine_new_ok : fine_ok [] Fine_new.
Proof.
  split; try done; cbn; try (by intros ? ? []%not_elem_of_nil); try (by intros ? []%not_elem_of_nil).
  intros b Hb. lia.
Qed.

Lemma fine_run_ok ops : fine_ok (fine_run ops).1 (fine_run ops).2.
Proof.
  unfold fine_run. assert (Hg : ∀ shown s, fine_ok shown s →
    let r := fold_left (λ '(shown, s) op, let '(evs, s) := fine_step op s in (shown ++ evs, s)) ops (shown, s) in fine_ok r.1 r.2).
  { induction ops as [|op ops IH]; intros shown s Hok; [done|]. cbn [fold_left].
    pose proof (fine_step_ok op shown s Hok) as Hs. destruct (fine_step op s) as [evs s']. by apply IH. }
  apply Hg, fine_new_ok.
Qed.

(** What is queued of the messages is a selection of what was decided. *)
Lemma queued_sublist b shown :
  Forall (λ item, is_ending item = false) (decided_at b shown) →
  List.filter (λ item, negb (is_ending item)) (queued_at b shown) `sublist_of` decided_at b shown.
Proof.
  induction shown as [|e shown IH]; [by constructor|]. unfold queued_at, decided_at in *.
  destruct e as [| |b' item|b' item|b' item|b' ended| | |]; cbn; try done; case_bool_decide; try done.
  - intros [Hi Hall]%Forall_cons. cbn. rewrite Hi. cbn. by apply sublist_skip, IH.
  - intros [Hi Hall]%Forall_cons. by apply sublist_cons, IH.
  - intros [Hi Hall]%Forall_cons. by apply sublist_cons, IH.
Qed.

(** C38. What a subscription reads, however deliveries, endings, releases and
    reads interleave at their locks.  A mailbox belongs to one wire key, and only
    messages addressed to that key reach it.  What [next] took and what is still
    queued are together exactly what was queued, in that order, never more than
    the capacity at once; the messages among it are a selection, in order, of
    those that reached the mailbox; every one of those is queued, refused for
    room, refused because the mailbox is closed, or still on its way.  What was
    refused for room is what [next] reported as lost plus what it has yet to
    report (below 2^64).  At most one ending is queued, at most one message after
    it, and [next] answers that the session ended, as often as it is asked, only
    when the mailbox is closed. *)
Theorem subscription_reads_exact (ops : list FineOp) (b : nat) (m : Mailbox SubscriptionItem)
    (Hbox : fi_boxes (fine_run ops).2 !! b = Some m) :
  let shown := (fine_run ops).1 in
  let s := (fine_run ops).2 in
  (∃ id, EvOpened id b ∈ shown ∧ (∀ id', EvOpened id' b ∈ shown → id' = id) ∧
     ∀ message, message ∈ messages_at b shown → addressed_to message = Some id) ∧
  taken (reads_at b shown) ++ mb_items m = queued_at b shown ∧ length (mb_items m) ≤ mb_capacity m ∧
  subscription_item <$> messages_at b shown = decided_at b shown ++ on_its_way b s ∧
  List.filter (λ item, negb (is_ending item)) (queued_at b shown) `sublist_of` (subscription_item <$> messages_at b shown) ∧
  ((N.of_nat (refused_at b shown) ≤ u64_max)%N →
     (lost (reads_at b shown) + mb_dropped m)%N = N.of_nat (refused_at b shown)) ∧
  (∀ post, after_ending (queued_at b shown) = Some post → length post ≤ 1 ∧ Forall (λ item, is_ending item = false) post) ∧
  (NextEnded ∈ reads_at b shown → mb_closed m = true) ∧
  (∀ item, EvShut b item ∈ shown → mb_closed m = true).
Proof.
  intros shown s. pose proof (fine_run_ok ops) as Hok. fold shown s in Hok, Hbox.
  pose proof (fo_account _ _ Hok b m Hbox) as [A1 A2 A3 A4 A5 A6 A7 A8 A9].
  destruct (fo_box _ _ Hok b (lookup_lt_Some _ _ _ Hbox)) as [id Hid]. destruct (fo_opened _ _ Hok id b Hid) as [_ Hu].
  split_and!; try done.
  - exists id. split_and!; [done|done|]. intros message Hm. destruct (A7 message Hm) as (id' & Hid' & ->). by rewrite (Hu id' Hid').
  - rewrite A3. etrans; [apply queued_sublist|by apply sublist_inserts_r]. apply Forall_forall. intros item Hin.
    assert (Hm : item ∈ subscription_item <$> messages_at b shown) by (rewrite A3; set_solver).
    apply list_elem_of_fmap in Hm as (message & -> & _). apply subscription_item_no_ending.
  - intros post Hp. destruct (A6 post Hp) as [Hlen ?]. split; [lia|done].
Qed.

(** ** [end_connection] run through *)

Lemma fine_after_app ops1 ops2 s : fine_after (ops1 ++ ops2) s = fine_after ops2 (fine_after ops1 s).
Proof. apply fold_left_app. Qed.

Lemma end_one ended b bs s m :
  fi_ending s = Some (mkEnding ended EndTesting (b :: bs)) → fi_boxes s !! b = Some m →
  ∃ n, fine_after (replicate n FineEndStep) s =
    fi_set_ending (Some (mkEnding ended EndTesting bs)) (fi_set_boxes (<[b := ended_sub ended m]> (fi_boxes s)) s).
Proof.
  intros He Hm. destruct s as [table boxes deliver ending readers]. cbn in He, Hm. subst ending.
  unfold ended_sub. rewrite offer_push. destruct (mb_closed m) eqn:Hc.
  - exists 2. unfold fine_after. cbn. rewrite Hm, Hc. cbn. by rewrite Hm.
  - exists 3. unfold fine_after. cbn. rewrite Hm, Hc. cbn. rewrite Hm. cbn.
    rewrite list_lookup_insert_eq by (by eapply lookup_lt_Some). cbn. by rewrite list_insert_insert_eq.
Qed.

Lemma end_loop ended bs s :
  fi_ending s = Some (mkEnding ended EndTesting bs) → Forall (λ b, b < length (fi_boxes s)) bs →
  ∃ n, fine_after (replicate n FineEndStep) s =
    fi_set_ending None (fi_set_boxes (fold_left (λ l b, alter (ended_sub ended) b l) bs (fi_boxes s)) s).
Proof.
  revert s. induction bs as [|b bs IH]; intros s He Hall.
  - exists 1. destruct s as [table boxes deliver ending readers]. cbn in He. by subst ending.
  - apply Forall_cons in Hall as [Hb Hall]. destruct (lookup_lt_is_Some_2 _ _ Hb) as [m Hm].
    destruct (end_one ended b bs s m He Hm) as [n1 Hn1].
    destruct (IH (fi_set_ending (Some (mkEnding ended EndTesting bs)) (fi_set_boxes (<[b := ended_sub ended m]> (fi_boxes s)) s)) eq_refl) as [n2 Hn2].
    { cbn. by rewrite length_insert. }
    exists (n1 + n2). rewrite replicate_add, fine_after_app, Hn1, Hn2. cbn. by rewrite (alter_as_insert _ _ _ _ Hm).
Qed.

Lemma end_uninterrupted ended r :
  router_ok r → ∃ n, fine_after (FineEnd ended :: replicate n FineEndStep) (embed r) = embed (end_connection ended r).
Proof.
  intros Hok. destruct (end_loop ended (values (rt_subscriptions r)) (fine_end ended (embed r)).2) as [n Hn]; [done| |].
  { apply Forall_forall. intros b [id Hb]%elem_of_values. destruct (so_open _ _ (rk_subs _ Hok) id b Hb) as (m & Hm & _).
    by eapply lookup_lt_Some. }
  exists n. change (fine_after (replicate n FineEndStep) (fine_end ended (embed r)).2 = embed (end_connection ended r)). rewrite Hn.
  unfold end_connection, embed. rewrite fold_with_sub, fold_with_ack. done.
Qed.
End account.

(** ** A small run *)

Module MailboxWitness.
#[local] Existing Instance TransportWitness.wire.
Definition key : string := TransportWitness.first_key.
Definition note : RelayMessage := MsgEvent key TransportWitness.note.
Definition gone : SessionEnded := EndedDisconnected (BoundedText_new "session reconnected").

(** Two messages for a queue of one, and the end of the connection. *)
Definition traffic : list FineOp :=
  [FineOpen key 1; FineLookup note; FineOffer; FineOffer; FineLookup (MsgEose key); FineOffer; FineOffer;
   FineRead 0; FineRead 0; FineRead 0; FineEnd gone; FineEndStep; FineEndStep; FineEndStep; FineEndStep; FineRead 0].

Lemma subscription_reads_exact_witness :
  taken (reads_at 0 (fine_run traffic).1) = [ItemEvent TransportWitness.note; ItemEnded gone] ∧
  lost (reads_at 0 (fine_run traffic).1) = 1%N ∧ queued_at 0 (fine_run traffic).1 = [ItemEvent TransportWitness.note; ItemEnded gone].
Proof.
  assert (Hbox : fi_boxes (fine_run traffic).2 !! 0 = Some (mkMailbox 1 [] 0 true)) by (vm_compute; reflexivity).
  destruct (subscription_reads_exact traffic 0 (mkMailbox 1 [] 0 true) Hbox) as (_ & Hq & _).
  assert (Ht : taken (reads_at 0 (fine_run traffic).1) = [ItemEvent TransportWitness.note; ItemEnded gone]) by (vm_compute; reflexivity).
  split; [exact Ht|]. split; [vm_compute; reflexivity|]. rewrite <- Hq, Ht. reflexivity.
Defined.

(** ** What the code does not mean to allow *)

(** A message whose delivery has passed the test of [closed] is queued after the
    ending. *)
Theorem message_after_ending :
  let '(shown, _) := fine_run [FineOpen key 2; FineLookup note; FineOffer; FineEnd gone; FineEndStep; FineEndStep; FineEndStep;
                               FineEndStep; FineOffer; FineRead 0; FineRead 0] in
  reads_at 0 shown = [NextTook (ItemEnded gone); NextTook (ItemEvent TransportWitness.note)].
Proof. vm_compute. reflexivity. Qed.

(** A reader that found no item before a message and the ending were queued, and
    reads [closed] after, is told the session ended with both still unread. *)
Theorem ended_before_queue_is_read :
  let '(shown, s) := fine_run [FineOpen key 2; FineRead 0; FineRead 0; FineLookup note; FineOffer; FineOffer; FineEnd gone;
                               FineEndStep; FineEndStep; FineEndStep; FineEndStep; FineRead 0] in
  reads_at 0 shown = [NextEnded] ∧
  (mb_items <$> fi_boxes s !! 0) = Some [ItemEvent TransportWitness.note; ItemEnded gone].
Proof. vm_compute. split; reflexivity. Qed.
End MailboxWitness.
