(* ===== verification/WebSocket.v ===== *)
(** * The WebSocket transport ([crates/fava-transport-websocket])

    A registry of shared sessions with their holders, and for each session the
    task that owns its socket: it pumps frames both ways, and reconnects under
    the caller's budget with jittered backoff.  Every session has an address in
    the heap of the transport ([Arc]); the leases callers hold are part of the
    state.

    The socket, timers and dialling are the environment: each [await] of the
    code is a place where a definition ends and the next one takes the result
    as an argument ([acquire_start] / [acquire_finish], [hand_off] /
    [hand_off_settled], the phases of [Driver]).  [failure_debug] is the debug
    form of a failure. *)

From S2P Require Import Prelude Nostr Relay Transport.

(** ** Reconnect pacing ([backoff.rs], durations in milliseconds) *)

Record ReconnectBackoff := mkBackoff {
  bo_attempt : N;
  bo_entropy : N
}.

Definition BASE : N := 100.
Definition CEILING : N := 30000.

Definition ReconnectBackoff_new (entropy : N) : ReconnectBackoff :=
  mkBackoff 0 (if bool_decide (entropy = 0)%N then 0x9E3779B97F4A7C15%N else entropy).

Definition u64_wrap (n : N) : N := (n mod 2 ^ 64)%N.

Definition jitter (b : ReconnectBackoff) : N * ReconnectBackoff :=
  let e := N.lxor (bo_entropy b) (u64_wrap (N.shiftl (bo_entropy b) 13)) in
  let e := N.lxor e (N.shiftr e 7) in
  let e := N.lxor e (u64_wrap (N.shiftl e 17)) in
  (e, mkBackoff (bo_attempt b) e).

(** [100 * 2^16] milliseconds do not saturate a [Duration]. *)
Definition doubled (attempt : N) : N := N.min (BASE * N.shiftl 1 (N.min attempt 16)) CEILING.

Definition next_delay (b : ReconnectBackoff) : N * ReconnectBackoff :=
  let span := doubled (bo_attempt b) in
  let b := mkBackoff (N.min (bo_attempt b + 1) u32_max) (bo_entropy b) in
  if bool_decide (span = 0)%N then (0%N, b)
  else let '(j, b) := jitter b in ((j mod (span + 1))%N, b).

Definition backoff_reset (b : ReconnectBackoff) : ReconnectBackoff := mkBackoff 0 (bo_entropy b).

(** ** Sessions ([session.rs], [identity.rs]) *)

(** One queued frame; the completion channel is a ticket of the session. *)
Record Outbound := mkOutbound {
  ob_frame : string;
  ob_correlation : HandoffCorrelation;
  ob_ticket : nat
}.

(** Where the task that owns the socket is. *)
Inductive Driver :=
| Pumping
| Writing (pending : Outbound)
| Closing
| Delaying (generation attempt : N) (delay : N) (last : TransportFailure)
| Dialling (generation attempt : N)
| Stopped.

Record WsSession := mkWs {
  ws_relay : RelayUrl;
  ws_generation : N;
  ws_bounds : TransportBounds;
  ws_deadlines : TransportDeadlines;
  ws_reconnect_attempts : option N;
  ws_closed : bool;
  ws_close_requested : bool;
  ws_backoff : ReconnectBackoff;
  ws_router : Router;
  ws_outbound : list Outbound;
  ws_driver : Driver;
  ws_tickets : nat;
  ws_completions : list (nat * HandoffOutcome)
}.

Definition ws_set_generation v s := mkWs (ws_relay s) v (ws_bounds s) (ws_deadlines s) (ws_reconnect_attempts s)
  (ws_closed s) (ws_close_requested s) (ws_backoff s) (ws_router s) (ws_outbound s) (ws_driver s) (ws_tickets s) (ws_completions s).
Definition ws_set_closed v s := mkWs (ws_relay s) (ws_generation s) (ws_bounds s) (ws_deadlines s) (ws_reconnect_attempts s)
  v (ws_close_requested s) (ws_backoff s) (ws_router s) (ws_outbound s) (ws_driver s) (ws_tickets s) (ws_completions s).
Definition ws_set_close_requested v s := mkWs (ws_relay s) (ws_generation s) (ws_bounds s) (ws_deadlines s) (ws_reconnect_attempts s)
  (ws_closed s) v (ws_backoff s) (ws_router s) (ws_outbound s) (ws_driver s) (ws_tickets s) (ws_completions s).
Definition ws_set_backoff v s := mkWs (ws_relay s) (ws_generation s) (ws_bounds s) (ws_deadlines s) (ws_reconnect_attempts s)
  (ws_closed s) (ws_close_requested s) v (ws_router s) (ws_outbound s) (ws_driver s) (ws_tickets s) (ws_completions s).
Definition ws_set_router v s := mkWs (ws_relay s) (ws_generation s) (ws_bounds s) (ws_deadlines s) (ws_reconnect_attempts s)
  (ws_closed s) (ws_close_requested s) (ws_backoff s) v (ws_outbound s) (ws_driver s) (ws_tickets s) (ws_completions s).
Definition ws_set_outbound v s := mkWs (ws_relay s) (ws_generation s) (ws_bounds s) (ws_deadlines s) (ws_reconnect_attempts s)
  (ws_closed s) (ws_close_requested s) (ws_backoff s) (ws_router s) v (ws_driver s) (ws_tickets s) (ws_completions s).
Definition ws_set_driver v s := mkWs (ws_relay s) (ws_generation s) (ws_bounds s) (ws_deadlines s) (ws_reconnect_attempts s)
  (ws_closed s) (ws_close_requested s) (ws_backoff s) (ws_router s) (ws_outbound s) v (ws_tickets s) (ws_completions s).
Definition ws_set_tickets v s := mkWs (ws_relay s) (ws_generation s) (ws_bounds s) (ws_deadlines s) (ws_reconnect_attempts s)
  (ws_closed s) (ws_close_requested s) (ws_backoff s) (ws_router s) (ws_outbound s) (ws_driver s) v (ws_completions s).
Definition ws_set_completions v s := mkWs (ws_relay s) (ws_generation s) (ws_bounds s) (ws_deadlines s) (ws_reconnect_attempts s)
  (ws_closed s) (ws_close_requested s) (ws_backoff s) (ws_router s) (ws_outbound s) (ws_driver s) (ws_tickets s) v.

(** [LiveIdentity::read] and [advance]. *)
Definition ws_identity (s : WsSession) : RelaySessionIdentity := mkSessionIdentity (ws_relay s) (ws_generation s).

Definition advance (generation : N) (s : WsSession) : RelaySessionIdentity * RelaySessionIdentity * WsSession :=
  let s' := ws_set_generation generation s in (ws_identity s, ws_identity s', s').

(** [SessionShared::new]: a session is created with its socket live. *)
Definition SessionShared_new (request : OpenRelaySession) (entropy generation : N) : WsSession :=
  let identity := mkSessionIdentity (or_relay request) generation in
  mkWs (or_relay request) generation (or_bounds request) (or_deadlines request)
    (N.of_nat <$> or_reconnect_attempts request) false false (ReconnectBackoff_new entropy)
    (Router_new (set_connectivity Connected (Connection_opening identity))) [] Pumping 0 [].

Definition on_router (f : Router → Router) (s : WsSession) : WsSession := ws_set_router (f (ws_router s)) s.

(** [mpsc::Sender::try_send]: a dropped receiver before a full queue. *)
Inductive TrySend := Sent | SendFull | SendClosed.

Definition try_send (frame : string) (correlation : HandoffCorrelation) (s : WsSession) : TrySend * WsSession :=
  match ws_driver s with
  | Stopped => (SendClosed, s)
  | _ =>
      if bool_decide (bd_outbound_frames (ws_bounds s) ≤ length (ws_outbound s)) then (SendFull, s)
      else (Sent, ws_set_outbound (ws_outbound s ++ [mkOutbound frame correlation (ws_tickets s)])
                    (ws_set_tickets (S (ws_tickets s)) s))
  end.

Definition enqueue (frame : string) (s : WsSession) : WsSession :=
  if ws_closed s then s else (try_send frame 0 s).2.

(** [hand_off]: refused at once, or queued under a ticket. *)
Definition hand_off (frame : string) (correlation : HandoffCorrelation) (s : WsSession) :
    result HandoffOutcome nat * WsSession :=
  let refuse reason := (Err (NotHandedOff (ws_identity s) correlation reason), s) in
  let maximum := bd_max_frame_bytes (ws_bounds s) in
  if bool_decide (maximum < String.length frame) then refuse (FrameTooLarge (String.length frame) maximum)
  else if ws_closed s then refuse SessionClosed
  else match try_send frame correlation s with
       | (SendFull, _) => refuse (OutboundQueueFull (bd_outbound_frames (ws_bounds s)))
       | (SendClosed, _) => refuse SessionClosed
       | (Sent, s') => (Ok (ws_tickets s), s')
       end.

(** How the wait for a completion ends, and the outcome; the identity is the one
    read when the frame was queued. *)
Inductive Awaited := Completed (outcome : HandoffOutcome) | SenderDropped | DeadlineExpired.

Definition hand_off_settled (identity : RelaySessionIdentity) (correlation : HandoffCorrelation) (deadline : Duration)
    (a : Awaited) : HandoffOutcome :=
  match a with
  | Completed outcome => outcome
  | SenderDropped => NotHandedOff identity correlation SessionClosed
  | DeadlineExpired => HandoffAmbiguous identity correlation (WriteTimeout deadline)
  end.

(** [close]: the first call asks the driver and waits; [close_finished] closes
    the router, and so does a second call at once. *)
Definition close_start (s : WsSession) : WsSession :=
  if ws_closed s then on_router router_close s
  else ws_set_close_requested true (ws_set_closed true s).

Definition close_finished (s : WsSession) : WsSession := on_router router_close s.

(** ** The socket task ([driver.rs]) *)

Section driver.
Context `{Wire} (failure_debug : TransportFailure → string).

Definition complete (ticket : nat) (outcome : HandoffOutcome) (s : WsSession) : WsSession :=
  ws_set_completions (ws_completions s ++ [(ticket, outcome)]) s.

Definition drain_unsent (reason : TransportFailure) (s : WsSession) : WsSession :=
  ws_set_outbound []
    (fold_left (λ s pending, complete (ob_ticket pending) (NotHandedOff (ws_identity s) (ob_correlation pending) reason) s)
       (ws_outbound s) s).

(** The end of [drive]; the receiver of the queue is dropped. *)
Definition drive_end (s : WsSession) : WsSession :=
  ws_set_driver Stopped (ws_set_outbound [] (on_router router_close (ws_set_closed true s))).

Definition reconnect_failed (attempts : N) (reason : TransportFailure) (s : WsSession) : WsSession :=
  drive_end (on_router (moved (set_connectivity (Disconnected (BoundedText_new (failure_debug reason)) (Some (N.to_nat attempts)))))
               (ws_set_closed true s)).

Definition reconnect_landed (generation : N) (s : WsSession) : WsSession :=
  let s := ws_set_backoff (backoff_reset (ws_backoff s)) s in
  let '(_, identity, s) := advance generation s in
  ws_set_driver Pumping (on_router (moved (λ _, mkConnection identity Connected unoffered)) s).

(** [counter.fetch_update(checked_add(1))]: the number minted and the counter. *)
Definition mint_generation (counter : N) : option N := checked_succ counter.

(** One turn of the retry loop begins with its delay. *)
Definition await_retry (generation attempt : N) (last : TransportFailure) (s : WsSession) : WsSession :=
  let '(delay, b) := next_delay (ws_backoff s) in
  ws_set_driver (Delaying generation attempt delay last) (ws_set_backoff b s).

Definition budget (s : WsSession) : N := default u64_max (ws_reconnect_attempts s).

(** [reconnect] up to its first delay; the counter is the transport's. *)
Definition reconnect_start (generations : N) (s : WsSession) : WsSession * N :=
  match mint_generation generations with
  | None => (reconnect_failed 0 GenerationExhausted s, generations)
  | Some generation => (await_retry generation 1 SessionClosed s, generation)
  end.

(** The delay is over. *)
Definition retry_due (s : WsSession) : WsSession :=
  match ws_driver s with
  | Delaying generation attempt _ _ =>
      if ws_closed s then reconnect_failed attempt SessionClosed s
      else ws_set_driver (Dialling generation attempt) s
  | _ => s
  end.

(** [establish] answered. *)
Definition retry_dialled (dialled : result TransportFailure unit) (s : WsSession) : WsSession :=
  match ws_driver s with
  | Dialling generation attempt =>
      match dialled with
      | Ok _ => reconnect_landed generation s
      | Err reason =>
          if bool_decide (attempt < budget s)%N then await_retry generation (attempt + 1) reason s
          else reconnect_failed (budget s) reason s
      end
  | _ => s
  end.

(** [establish]. *)
Inductive Dialled := DialTimeout | DialError (text : string) | DialOk.

Definition establish (deadlines : TransportDeadlines) (d : Dialled) : result TransportFailure unit :=
  match d with
  | DialTimeout => Err (EstablishTimeout (dl_establish deadlines))
  | DialError text => Err (FailureDisconnected (BoundedText_new text))
  | DialOk => Ok tt
  end.

(** What [drive] does when [pump] returns. *)
Definition after_pump (reason : TransportFailure) (generations : N) (s : WsSession) : WsSession * N :=
  let s := drain_unsent reason s in
  if ws_closed s then (drive_end s, generations) else reconnect_start generations s.

(** Inbound WebSocket messages ([admit], [admit_frame]). *)
Inductive SocketMessage :=
| SocketData (frame : string)
| SocketKeepalive
| SocketClose (reason : option string)
| SocketError (text : string)
| SocketEnd.

Definition admit_frame (frame : string) (s : WsSession) : option TransportFailure * WsSession :=
  let maximum := bd_max_frame_bytes (ws_bounds s) in
  if bool_decide (maximum < String.length frame)
  then (Some (FailureDisconnected (BoundedText_new
          ("relay sent " +:+ pretty (N.of_nat (String.length frame)) +:+
           " bytes, exceeding the declared bound " +:+ pretty (N.of_nat maximum)))), s)
  else if utf8_valid frame
  then match decode_relay frame with
       | Ok message => (None, on_router (deliver message) s)
       | Err _ => (None, s)
       end
  else (None, s).

Definition admit_message (message : SocketMessage) (s : WsSession) : option TransportFailure * WsSession :=
  match message with
  | SocketData frame => admit_frame frame s
  | SocketKeepalive => (None, s)
  | SocketClose reason =>
      (Some (FailureDisconnected (BoundedText_new (default "relay closed the session" reason))), s)
  | SocketError text => (Some (FailureDisconnected (BoundedText_new text)), s)
  | SocketEnd => (Some (FailureDisconnected (BoundedText_new "relay ended the stream")), s)
  end.

(** How the write of a frame ends ([write_frame]). *)
Inductive Written := WroteFrame | WriteError (text : string) | WriteExpired.

Definition write_outcome (w : Written) (identity : RelaySessionIdentity) (correlation : HandoffCorrelation)
    (deadline : Duration) : HandoffOutcome * option TransportFailure :=
  match w with
  | WroteFrame => (HandedOff identity correlation, None)
  | WriteError text =>
      (HandoffAmbiguous identity correlation (FlushUnconfirmed (BoundedText_new text)),
       Some (FailureDisconnected (BoundedText_new text)))
  | WriteExpired =>
      (HandoffAmbiguous identity correlation (WriteTimeout deadline),
       Some (FailureDisconnected (BoundedText_new "write deadline expired with bytes in the socket")))
  end.

(** [close_gracefully]: it sets the flag, then waits for the handshake. *)
Definition close_gracefully (s : WsSession) : WsSession := ws_set_driver Closing (ws_set_closed true s).

Definition closed_reason (in_time : bool) : TransportFailure :=
  if in_time then SessionClosed
  else FailureDisconnected (BoundedText_new "close deadline expired; session dropped").

(** What wakes the task: the branches of [pump]'s [select], the end of a write
    or of the closing handshake, the end of a retry delay or of its dial. *)
Inductive Wake :=
| WakeClose
| WakeOutbound
| WakeAbandoned
| WakeKeepaliveFailed
| WakeInbound (message : SocketMessage)
| WakeIdle
| WakeWritten (w : Written)
| WakeClosed (in_time : bool)
| WakeRetry
| WakeDialled (dialled : Dialled).

Definition or_after_pump (generations : N) (failed : option TransportFailure) (s : WsSession) : WsSession * N :=
  match failed with Some reason => after_pump reason generations s | None => (ws_set_driver Pumping s, generations) end.

Definition drive (w : Wake) (generations : N) (s : WsSession) : WsSession * N :=
  match ws_driver s, w with
  | Pumping, WakeClose =>
      if ws_close_requested s then (close_gracefully (ws_set_close_requested false s), generations) else (s, generations)
  | Pumping, WakeOutbound =>
      match ws_outbound s with
      | [] => (s, generations)
      | pending :: rest => (ws_set_driver (Writing pending) (ws_set_outbound rest s), generations)
      end
  | Pumping, WakeAbandoned => (close_gracefully s, generations)
  | Pumping, WakeKeepaliveFailed =>
      after_pump (FailureDisconnected (BoundedText_new "keepalive probe could not be written")) generations s
  | Pumping, WakeInbound message =>
      let '(failed, s) := admit_message message s in or_after_pump generations failed s
  | Pumping, WakeIdle => after_pump (IdleTimeout (dl_idle (ws_deadlines s))) generations s
  | Writing pending, WakeWritten w =>
      let '(outcome, failed) := write_outcome w (ws_identity s) (ob_correlation pending) (dl_write (ws_deadlines s)) in
      or_after_pump generations failed (complete (ob_ticket pending) outcome s)
  | Closing, WakeClosed in_time => after_pump (closed_reason in_time) generations s
  | Delaying _ _ _ _, WakeRetry => (retry_due s, generations)
  | Dialling _ _, WakeDialled dialled => (retry_dialled (establish (ws_deadlines s) dialled) s, generations)
  | _, _ => (s, generations)
  end.
End driver.

(** ** The registry ([lib.rs]) *)

Record Entry := mkEntry {
  et_session : nat;
  et_holders : nat;
  et_served : list Authority
}.

(** Served authorities are a set; a list without repetition stands for it. *)
Definition serve (authority : Authority) (served : list Authority) : list Authority :=
  if bool_decide (authority ∈ served) then served else served ++ [authority].

Record WsTransport := mkTransport {
  tp_entries : gmap RelayUrl (list Entry);
  tp_shutting_down : bool;
  tp_entropy : N;
  tp_generations : N;
  tp_subscriptions : N;
  tp_sessions : list WsSession;
  tp_leases : list nat
}.

Definition tp_set_entries v t := mkTransport v (tp_shutting_down t) (tp_entropy t) (tp_generations t) (tp_subscriptions t) (tp_sessions t) (tp_leases t).
Definition tp_set_shutting_down v t := mkTransport (tp_entries t) v (tp_entropy t) (tp_generations t) (tp_subscriptions t) (tp_sessions t) (tp_leases t).
Definition tp_set_counters e g t := mkTransport (tp_entries t) (tp_shutting_down t) e g (tp_subscriptions t) (tp_sessions t) (tp_leases t).
Definition tp_set_subscriptions v t := mkTransport (tp_entries t) (tp_shutting_down t) (tp_entropy t) (tp_generations t) v (tp_sessions t) (tp_leases t).
Definition tp_set_sessions v t := mkTransport (tp_entries t) (tp_shutting_down t) (tp_entropy t) (tp_generations t) (tp_subscriptions t) v (tp_leases t).
Definition tp_set_leases v t := mkTransport (tp_entries t) (tp_shutting_down t) (tp_entropy t) (tp_generations t) (tp_subscriptions t) (tp_sessions t) v.

Definition WebSocketTransport_new : WsTransport := mkTransport ∅ false 0 0 0 [] [].

(** [Entry::can_serve]: what the watch of the connection shows now. *)
Definition entry_can_serve (sessions : list WsSession) (authority : Authority) (e : Entry) : bool :=
  match sessions !! et_session e with
  | Some s => Connection_can_serve (cc_last (rt_cell (ws_router s))) authority
  | None => false
  end.

(** [iter_mut().find(..)] with one more holder of the entry it finds. *)
Fixpoint join (sessions : list WsSession) (authority : Authority) (l : list Entry) : option (nat * list Entry) :=
  match l with
  | [] => None
  | e :: l =>
      if entry_can_serve sessions authority e
      then Some (et_session e, mkEntry (et_session e) (S (et_holders e)) (serve authority (et_served e)) :: l)
      else '(s, l) ← join sessions authority l; Some (s, e :: l)
  end.

Definition reuse (relay : RelayUrl) (authority : Authority) (t : WsTransport) : option (nat * WsTransport) :=
  connections ← tp_entries t !! relay;
  '(s, connections) ← join (tp_sessions t) authority connections;
  Some (s, tp_set_leases (s :: tp_leases t) (tp_set_entries (<[relay := connections]> (tp_entries t)) t)).

Inductive Acquiring :=
| AcquireRefused (error : TransportError)
| AcquireLeased (session : nat)
| AcquireDialling (shared : WsSession).

(** [0x9E37_79B9] is added with wrap-around. *)
Definition acquire_start (request : OpenRelaySession) (t : WsTransport) : Acquiring * WsTransport :=
  if tp_shutting_down t then (AcquireRefused ErrorShuttingDown, t)
  else match reuse (or_relay request) (or_authority request) t with
       | Some (s, t) => (AcquireLeased s, t)
       | None =>
           match mint_generation (tp_generations t) with
           | None => (AcquireRefused ErrorGenerationExhausted, t)
           | Some generation =>
               (AcquireDialling (SessionShared_new request (tp_entropy t) generation),
                tp_set_counters (u64_wrap (tp_entropy t + 0x9E3779B9)) generation t)
           end
       end.

(** The dial is over: the session is created and registered, unless another one
    serves the authority by now, which is then leased and this one closed. *)
Definition acquire_finish (request : OpenRelaySession) (shared : WsSession) (dialled : Dialled) (t : WsTransport) :
    result TransportError nat * WsTransport :=
  match establish (ws_deadlines shared) dialled with
  | Err failure => (Err (ConnectionRefused failure), t)
  | Ok _ =>
      let address := length (tp_sessions t) in
      match reuse (or_relay request) (or_authority request) t with
      | Some (winner, t) => (Ok winner, tp_set_sessions (tp_sessions t ++ [close_start shared]) t)
      | None =>
          let entry := mkEntry address 1 [or_authority request] in
          let connections := default [] (tp_entries t !! or_relay request) in
          (Ok address,
           tp_set_leases (address :: tp_leases t)
             (tp_set_entries (<[or_relay request := connections ++ [entry]]> (tp_entries t))
                (tp_set_sessions (tp_sessions t ++ [shared]) t)))
      end
  end.

Definition sessions (t : WsTransport) : list nat := et_session <$> concat (values (tp_entries t)).

Definition holders (relay : RelayUrl) (authority : Authority) (t : WsTransport) : option nat :=
  connections ← tp_entries t !! relay;
  entry ← List.find (λ e, bool_decide (authority ∈ et_served e)) connections;
  if bool_decide (et_holders entry = 0) then None else Some (et_holders entry).

(** [iter().position(..)]. *)
Fixpoint position_of (session : nat) (l : list Entry) : option nat :=
  match l with
  | [] => None
  | e :: l => if bool_decide (et_session e = session) then Some 0 else S <$> position_of session l
  end.

Definition session_relay (session : nat) (t : WsTransport) : RelayUrl :=
  from_option ws_relay "" (tp_sessions t !! session).

Definition decrement (session : nat) (t : WsTransport) : option ReleaseOutcome * WsTransport :=
  let relay := session_relay session t in
  match tp_entries t !! relay with
  | None => (None, t)
  | Some connections =>
      match position_of session connections with
      | None => (None, t)
      | Some position =>
          match connections !! position with
          | None => (None, t)
          | Some entry =>
              let remaining := et_holders entry - 1 in
              if bool_decide (remaining = 0)
              then let rest := delete position connections in
                   (Some ReleaseClosed,
                    tp_set_entries (match rest with
                                    | [] => delete relay (tp_entries t)
                                    | _ => <[relay := rest]> (tp_entries t)
                                    end) t)
              else (Some (Retained remaining),
                    tp_set_entries (<[relay := <[position := mkEntry (et_session entry) remaining (et_served entry)]> connections]>
                                      (tp_entries t)) t)
          end
      end
  end.

Definition on_session (session : nat) (f : WsSession → WsSession) (t : WsTransport) : WsTransport :=
  tp_set_sessions (alter f session (tp_sessions t)) t.

Fixpoint remove_one (x : nat) (l : list nat) : list nat :=
  match l with [] => [] | y :: l => if bool_decide (x = y) then l else y :: remove_one x l end.

(** The release of one lease, dropped or awaited: the session is closed when the
    last holder lets go. *)
Definition release (session : nat) (t : WsTransport) : result TransportError ReleaseOutcome * WsTransport :=
  let t := tp_set_leases (remove_one session (tp_leases t)) t in
  match decrement session t with
  | (None, t) =>
      (Err (ErrorClosed (from_option ws_identity (mkSessionIdentity "" 0) (tp_sessions t !! session))), t)
  | (Some ReleaseClosed, t) => (Ok ReleaseClosed, on_session session close_start t)
  | (Some outcome, t) => (Ok outcome, t)
  end.

(** [shutdown]: every registered session is taken out and closed. *)
Definition shutdown_start (t : WsTransport) : list nat * WsTransport :=
  (sessions t, tp_set_entries ∅ (tp_set_shutting_down true t)).

Definition shutdown_finish (closing : list nat) (in_time : bool) : result TransportError unit :=
  if in_time then Ok tt else Err (ShutdownIncomplete (length closing)).

(** [mint_subscription_id]: the counter is the transport's and wraps. *)
Definition mint_subscription_id (t : WsTransport) : SubscriptionId * WsTransport :=
  (subscription_id (tp_subscriptions t), tp_set_subscriptions (u64_wrap (tp_subscriptions t + 1)) t).

Definition awaiting_authentication (t : WsTransport) : list nat :=
  List.filter (λ s, from_option (λ w, awaits_answer (ws_router w)) false (tp_sessions t !! s)) (sessions t).

(** ** The verbs of [RelaySessionExt] on these sessions *)

Section verbs.
Context `{Wire}.

(** [encoded] followed by [hand_off]. *)
Definition hand_off_encoded (frame : result HandoffOutcome string) (s : WsSession) : result HandoffOutcome nat * WsSession :=
  match frame with
  | Ok frame => hand_off frame 0 s
  | Err outcome => (Err outcome, s)
  end.

(** [subscribe] up to the wait: the key, the mailbox and the ticket, or why no
    frame left. *)
Definition subscribe (session : nat) (filters : list Filter) (t : WsTransport) :
    result HandoffOutcome (SubscriptionId * nat * nat) * WsTransport :=
  match tp_sessions t !! session with
  | None => (Err (NotHandedOff (mkSessionIdentity "" 0) 0 SessionClosed), t)
  | Some s =>
      let '(id, t) := mint_subscription_id t in
      let '((mailbox, frame), r) :=
        subscribe_start (ws_identity s) id (bd_inbound_frames (ws_bounds s)) filters (ws_router s) in
      match hand_off_encoded frame (ws_set_router r s) with
      | (Ok ticket, s) => (Ok (id, mailbox, ticket), tp_set_sessions (<[session := s]> (tp_sessions t)) t)
      | (Err refused, s) =>
          (Err refused, tp_set_sessions (<[session := on_router (release_subscription id) s]> (tp_sessions t)) t)
      end
  end.

(** [publish] and [answer] up to the wait: the mailbox and the ticket. *)
Definition publish (event : Event) (s : WsSession) : result HandoffOutcome (nat * nat) * WsSession :=
  let '((mailbox, frame), r) := publish_start (ws_identity s) event (ws_router s) in
  match hand_off_encoded frame (ws_set_router r s) with
  | (Ok ticket, s) => (Ok (mailbox, ticket), s)
  | (Err refused, s) => (Err refused, on_router (release_acknowledgement (ev_id event) mailbox) s)
  end.

Definition answer (event : Event) (s : WsSession) : result HandoffOutcome (nat * nat) * WsSession :=
  match answer_start (ws_identity s) event (ws_router s) with
  | (Err refused, r) => (Err refused, ws_set_router r s)
  | (Ok (mailbox, frame), r) =>
      match hand_off_encoded frame (ws_set_router r s) with
      | (Ok ticket, s) => (Ok (mailbox, ticket), s)
      | (Err refused, s) => (Err refused, on_router (release_acknowledgement (ev_id event) mailbox) s)
      end
  end.
End verbs.
