(* ===== verification/WebSocketProps.v ===== *)
(** * What the WebSocket transport promises ([crates/fava-transport-websocket])

    Runs of the transport of [WebSocket]: callers acquire and release, sessions
    open subscriptions and hand frames off, and the task of each socket wakes in
    any order.  The registry counts its holders exactly, connection numbers are
    never shared, every session keeps the invariant of its router, and a lost
    connection is retried within its budget and then ended for every handle. *)

From S2P Require Import Prelude Nostr Relay Transport TransportProps WebSocket.

(** ** Backoff *)

Lemma doubled_le attempt : (doubled attempt ≤ CEILING)%N ∧ (doubled attempt ≤ BASE * 2 ^ attempt)%N.
Proof.
  unfold doubled, BASE. split; [lia|]. rewrite N.shiftl_1_l.
  assert (2 ^ N.min attempt 16 ≤ 2 ^ attempt)%N by (apply N.pow_le_mono_r; lia). lia.
Qed.

(** A delay is at most the doubled base of its attempt, and the ceiling. *)
Lemma next_delay_bound b :
  ((next_delay b).1 ≤ doubled (bo_attempt b))%N ∧ bo_attempt (next_delay b).2 = N.min (bo_attempt b + 1) u32_max.
Proof.
  unfold next_delay. case_bool_decide as Hs; [cbn; split; [lia|done]|]. cbn. split; [|done].
  match goal with |- (?j mod ?k ≤ _)%N => pose proof (N.mod_lt j k) end. lia.
Qed.

(** ** Keys of a router *)

Section sessions.
Context `{Wire} (failure_debug : TransportFailure → string).

Lemma moved_keys {A} (x : A) next r :
  rt_subscriptions (moved_with x next r).2 ⊆ rt_subscriptions r.
Proof.
  unfold moved_with. destruct (cc_sender (rt_cell r)) as [before|]; [|done]. destruct (next before) as [after answer]. cbn.
  destruct (ending_of before after) as [ended|]; [|done].
  match goal with |- context [end_connection ended ?r0] => destruct (end_connection_spec ended r0) as (-> & _) end.
  apply map_empty_subseteq.
Qed.

(** Only opening a subscription adds a wire key. *)
Lemma call_keys c r :
  match c with CallOpen _ _ => False | _ => True end → rt_subscriptions (router_call c r) ⊆ rt_subscriptions r.
Proof.
  destruct c as [| |event|event b|next|message|b|event b]; cbn [router_call]; intros Hc; try done.
  - unfold release_subscription. case_match; [|done]. apply delete_subseteq.
  - by rewrite (proj1 (release_ack_subs _ _ _)).
  - apply moved_keys.
  - destruct message; cbn [deliver]; try done; try (by case_match); [|apply moved_keys].
    case_match; [|done]. by rewrite fold_with_ack.
  - by rewrite next_subs.
  - by rewrite (proj1 (settled_subs _ _)).
Qed.

(** Keys minted so far. *)
Definition keys_below (k : N) (r : Router) : Prop :=
  ∀ id b, rt_subscriptions r !! id = Some b → ∃ n, (n < k)%N ∧ id = subscription_id n.

Lemma keys_below_sub k r r' : rt_subscriptions r' ⊆ rt_subscriptions r → keys_below k r → keys_below k r'.
Proof. intros Hs Hk id b Hid. apply (Hk id b). by eapply lookup_weaken. Qed.

Lemma subscription_id_fresh k r :
  keys_below k r → (k ≤ u64_max)%N → rt_subscriptions r !! subscription_id k = None.
Proof.
  intros Hk Hle. destruct (rt_subscriptions r !! subscription_id k) as [b|] eqn:E; [|done].
  destruct (Hk _ _ E) as (n & Hn & Heq). apply (f_equal minted_counter) in Heq.
  rewrite !minted_counter_id in Heq by lia. simplify_eq. lia.
Qed.

(** ** One session *)

(** Connection numbers a session holds: its own and the one it is dialling. *)
Definition numbers_of (s : WsSession) : list N :=
  ws_generation s :: match ws_driver s with Delaying g _ _ _ | Dialling g _ => [g] | _ => [] end.

Definition writing (s : WsSession) : list nat :=
  match ws_driver s with Writing pending => [ob_ticket pending] | _ => [] end.

(** Frames handed over: completed, being written, queued. *)
Definition tickets_of (s : WsSession) : list nat :=
  (ws_completions s).*1 ++ writing s ++ (ob_ticket <$> ws_outbound s).

Record ws_ok (s : WsSession) : Prop := {
  sk_router : router_ok (ws_router s);
  sk_identity c : cc_sender (rt_cell (ws_router s)) = Some c → cn_identity c = ws_identity s;
  sk_tickets : NoDup (tickets_of s) ∧ Forall (λ n, n < ws_tickets s) (tickets_of s);
  sk_queue : length (ws_outbound s) ≤ bd_outbound_frames (ws_bounds s);
  sk_numbers : NoDup (numbers_of s);
  sk_stopped : ws_driver s = Stopped →
    ws_closed s = true ∧ cc_sender (rt_cell (ws_router s)) = None ∧ ws_outbound s = []
}.

(** A change of the router that keeps who the connection is. *)
Definition keeps_identity (f : Router → Router) : Prop :=
  ∀ r, (∀ c', cc_sender (rt_cell (f r)) = Some c' → ∃ c, cc_sender (rt_cell r) = Some c ∧ cn_identity c' = cn_identity c) .

Lemma moved_sender {A} (x : A) next r c' :
  cc_sender (rt_cell (moved_with x next r).2) = Some c' →
  ∃ c, cc_sender (rt_cell r) = Some c ∧ c' = (next c).1 ∧ is_terminal c' = false.
Proof.
  unfold moved_with. destruct (cc_sender (rt_cell r)) as [before|] eqn:E; [|cbn; rewrite E; done].
  destruct (next before) as [after answer] eqn:En. cbn.
  assert (Hc : ∀ v, cc_sender (rt_cell (match ending_of before after with
    | Some ended => end_connection ended (rt_set_cell (mkCell (if is_terminal after then None else Some after) after v) r)
    | None => rt_set_cell (mkCell (if is_terminal after then None else Some after) after v) r end)) =
    if is_terminal after then None else Some after).
  { intros v. destruct (ending_of before after); [|done]. by rewrite (proj1 (proj2 (proj2 (end_connection_spec _ _)))). }
  rewrite Hc. destruct (is_terminal after) eqn:Et; [done|]. intros [= <-]. exists before. by rewrite En.
Qed.

Lemma moved_last next r c : cc_sender (rt_cell r) = Some c → cc_last (rt_cell (moved next r)) = next c.
Proof.
  intros Hc. unfold moved, moved_with. rewrite Hc. cbn [snd]. destruct (ending_of c (next c)); [|done].
  by rewrite (proj1 (proj2 (proj2 (end_connection_spec _ _)))).
Qed.

Lemma moved_terminal next r :
  (∀ c, cc_sender (rt_cell r) = Some c → is_terminal (next c) = true) → cc_sender (rt_cell (moved next r)) = None.
Proof.
  intros Ht. unfold moved. destruct (cc_sender (rt_cell (moved_with tt (λ c, (next c, tt)) r).2)) as [c'|] eqn:E; [|done].
  apply moved_sender in E as (c & Hc & -> & Hn). cbn in Hn. by rewrite Ht in Hn.
Qed.

Lemma router_close_final r : cc_sender (rt_cell (router_close r)) = None.
Proof. apply moved_terminal. intros c _. by destruct (is_terminal c) eqn:E. Qed.

Lemma router_close_ok r : router_ok r → router_ok (router_close r).
Proof. apply moved_ok. Qed.

(** Moves that keep the identity of the connection. *)
Lemma moved_keeps {A} (x : A) next :
  (∀ c, cn_identity (next c).1 = cn_identity c) → keeps_identity (λ r, (moved_with x next r).2).
Proof. intros Hn r c' (c & Hc & -> & _)%moved_sender. by exists c. Qed.

Lemma call_keeps c :
  match c with CallMoved _ => False | _ => True end → keeps_identity (router_call c).
Proof.
  intros Hc r c'. destruct c as [| |event|event b|next|message|b|event b]; cbn [router_call]; try done; eauto.
  - unfold release_subscription. case_match; eauto.
  - unfold release_acknowledgement. repeat case_match; eauto.
  - destruct message; cbn [deliver]; try (case_match; eauto; fail); eauto.
    + case_match; [|eauto]. rewrite fold_with_ack. cbn. eauto.
    + by apply (moved_keeps tt (λ c, (set_progress (Requested challenge) c, tt))).
  - unfold subscription_next. repeat case_match; cbn; eauto.
  - unfold settled, release_acknowledgement. repeat case_match; cbn; eauto.
Qed.

Lemma session_on_router f s :
  (∀ r, router_ok r → router_ok (f r)) → keeps_identity f →
  (cc_sender (rt_cell (ws_router s)) = None → cc_sender (rt_cell (f (ws_router s))) = None) →
  ws_ok s → ws_ok (on_router f s).
Proof.
  intros Hf Hk Hn [Hr Hi Ht Hq Hg Hs]. split; cbn; auto.
  - intros c' (c & Hc & ->)%Hk. by apply Hi.
  - intros (Hcl & Hse & Ho)%Hs. auto.
Qed.

Lemma keeps_none f r : keeps_identity f → cc_sender (rt_cell r) = None → cc_sender (rt_cell (f r)) = None.
Proof.
  intros Hk Hn. destruct (cc_sender (rt_cell (f r))) as [c'|] eqn:E; [|done]. apply Hk in E as (c & Hc & _). congruence.
Qed.

Lemma session_keeping f s :
  (∀ r, router_ok r → router_ok (f r)) → keeps_identity f → ws_ok s → ws_ok (on_router f s).
Proof. intros Hf Hk. apply session_on_router; [done|done|]. by apply keeps_none. Qed.

Lemma router_close_keeps : keeps_identity router_close.
Proof. intros r c'. by rewrite router_close_final. Qed.

Lemma drain_fold reason l s :
  fold_left (λ s pending, complete (ob_ticket pending) (NotHandedOff (ws_identity s) (ob_correlation pending) reason) s) l s =
  ws_set_completions (ws_completions s ++
    ((λ pending, (ob_ticket pending, NotHandedOff (ws_identity s) (ob_correlation pending) reason)) <$> l)) s.
Proof.
  revert s. induction l as [|p l IH]; intros s; cbn; [rewrite app_nil_r; by destruct s|].
  rewrite IH. cbn. by rewrite <- app_assoc.
Qed.

(** Every frame behind a dead socket is refused, with its own correlation. *)
Lemma drain_unsent_spec reason s :
  drain_unsent reason s =
  ws_set_outbound [] (ws_set_completions (ws_completions s ++
    ((λ pending, (ob_ticket pending, NotHandedOff (ws_identity s) (ob_correlation pending) reason)) <$> ws_outbound s)) s).
Proof. unfold drain_unsent. by rewrite drain_fold. Qed.

(** What every part of [drive] needs of the session it works on. *)
Record idle_ok (s : WsSession) : Prop := {
  ik_router : router_ok (ws_router s);
  ik_identity c : cc_sender (rt_cell (ws_router s)) = Some c → cn_identity c = ws_identity s;
  ik_tickets : NoDup ((ws_completions s).*1 ++ (ob_ticket <$> ws_outbound s)) ∧
               Forall (λ n, n < ws_tickets s) ((ws_completions s).*1 ++ (ob_ticket <$> ws_outbound s));
  ik_queue : length (ws_outbound s) ≤ bd_outbound_frames (ws_bounds s)
}.

Lemma session_idle s : ws_ok s → writing s = [] → idle_ok s.
Proof. intros [Hr Hi Ht Hq _ _] Hw. split; [done..| |done]. unfold tickets_of in Ht. by rewrite Hw in Ht. Qed.

Lemma complete_idle s pending outcome :
  ws_ok s → ws_driver s = Writing pending → idle_ok (complete (ob_ticket pending) outcome s).
Proof.
  intros [Hr Hi Ht Hq _ _] Hw. split; [done..| |done]. unfold tickets_of, writing in Ht. rewrite Hw in Ht.
  cbn. rewrite fmap_app, <- app_assoc. done.
Qed.

Lemma idle_pumping s : idle_ok s → ws_ok (ws_set_driver Pumping s).
Proof. intros [Hr Hi Ht Hq]. split; [done..|by apply NoDup_singleton|done]. Qed.

Lemma idle_closed v s : idle_ok s → idle_ok (ws_set_closed v s).
Proof. by intros [Hr Hi Ht Hq]; split. Qed.

Lemma idle_drain reason s : idle_ok s → idle_ok (drain_unsent reason s).
Proof.
  intros [Hr Hi Ht Hq]. rewrite drain_unsent_spec. split; [done..| |cbn; lia].
  cbn. rewrite fmap_app, <- list_fmap_compose, app_nil_r. done.
Qed.

Lemma idle_router f s : (∀ r, router_ok r → router_ok (f r)) → keeps_identity f → idle_ok s → idle_ok (on_router f s).
Proof. intros Hf Hk [Hr Hi Ht Hq]. split; cbn; auto. intros c' (c & Hc & ->)%Hk. by apply Hi. Qed.

Lemma drive_end_ok s : idle_ok s → ws_ok (drive_end s).
Proof.
  intros [Hr Hi [Hn Hf] Hq]. unfold drive_end. split; cbn.
  - by apply router_close_ok.
  - intros c'. by rewrite router_close_final.
  - unfold tickets_of, writing. cbn. rewrite app_nil_r. apply NoDup_app in Hn as [Hn _]. by apply Forall_app in Hf as [Hf _].
  - lia.
  - by apply NoDup_singleton.
  - intros _. by rewrite router_close_final.
Qed.

Lemma reconnect_failed_ok attempts reason s : idle_ok s → ws_ok (reconnect_failed failure_debug attempts reason s).
Proof.
  intros Hs. apply drive_end_ok, idle_router, idle_closed, Hs; [intros r; apply moved_ok|].
  by apply (moved_keeps tt (λ c, (set_connectivity _ c, tt))).
Qed.

Lemma reconnect_landed_ok generation s : idle_ok s → ws_ok (reconnect_landed generation s).
Proof.
  intros [Hr Hi Ht Hq]. unfold reconnect_landed, advance. cbn. split; cbn; auto.
  - by apply moved_ok.
  - intros c' (c & Hc & -> & _)%moved_sender. done.
  - by apply NoDup_singleton.
  - done.
Qed.

Lemma await_retry_ok generation attempt last s :
  idle_ok s → ws_generation s ≠ generation → ws_ok (await_retry generation attempt last s).
Proof.
  intros [Hr Hi Ht Hq] Hg. unfold await_retry. destruct (next_delay _) as [delay b]. split; cbn; auto; [|done].
  unfold numbers_of. cbn. apply NoDup_cons. split; [by rewrite list_elem_of_singleton|by apply NoDup_singleton].
Qed.

(** Connection numbers are issued by the counter of the transport. *)
Definition issued (g : N) (s : WsSession) : Prop := ∀ n, n ∈ numbers_of s → (0 < n ≤ g)%N.

Lemma after_pump_ok reason g s :
  idle_ok s → (ws_generation s ≤ g)%N → ws_ok (after_pump failure_debug reason g s).1.
Proof.
  intros Hs Hg. unfold after_pump. apply (idle_drain reason) in Hs. destruct (ws_closed (drain_unsent reason s)); [by apply drive_end_ok|].
  unfold reconnect_start, mint_generation. destruct (checked_succ g) as [g'|] eqn:E; [|by apply reconnect_failed_ok].
  apply await_retry_ok; [done|]. apply checked_succ_Some in E as [Hlt ->]. rewrite drain_unsent_spec. cbn. lia.
Qed.

Lemma or_after_pump_ok g failed s :
  idle_ok s → (ws_generation s ≤ g)%N → ws_ok (or_after_pump failure_debug g failed s).1.
Proof. intros Hs Hg. destruct failed; [by apply after_pump_ok|by apply idle_pumping]. Qed.

Lemma admit_ok message s : idle_ok s → idle_ok (admit_message message s).2 ∧ ws_generation (admit_message message s).2 = ws_generation s.
Proof.
  intros Hs. destruct message as [frame| | | |]; cbn; try done. unfold admit_frame.
  case_bool_decide; [done|]. destruct (utf8_valid frame); [|done]. destruct (decode_relay frame) as [m|]; [|done]. cbn. split; [|done].
  apply idle_router; [| |done].
  - intros r Hr. by apply (router_call_ok (CallDeliver m)).
  - by apply (call_keeps (CallDeliver m)).
Qed.

Lemma drive_ok w g s : ws_ok s → (ws_generation s ≤ g)%N → ws_ok (drive failure_debug w g s).1.
Proof.
  intros Hs Hg. unfold drive. destruct (ws_driver s) as [|pending| |generation attempt delay last|generation attempt|] eqn:Ed.
  - assert (Hidle : idle_ok s) by (apply session_idle; [done|unfold writing; by rewrite Ed]).
    destruct w as [| | | |message| | | | |]; cbn [fst]; try done.
    + destruct (ws_close_requested s); [|done]. destruct Hidle as [Hr Hi Ht Hq]. split; cbn; auto; [by apply NoDup_singleton|done].
    + destruct (ws_outbound s) as [|pending rest] eqn:Eo; [done|]. destruct Hs as [Hr Hi Ht Hq Hn Hst].
      split; cbn; auto; [| |by apply NoDup_singleton|done].
      * unfold tickets_of, writing in *. cbn. rewrite Ed, Eo in Ht. done.
      * rewrite Eo in Hq. cbn in Hq. lia.
    + destruct Hidle as [Hr Hi Ht Hq]. split; cbn; auto; [by apply NoDup_singleton|done].
    + by apply after_pump_ok.
    + destruct (admit_ok message s Hidle) as [Ha Hga]. destruct (admit_message message s) as [failed s']. cbn in *.
      apply or_after_pump_ok; [done|]. by rewrite Hga.
    + by apply after_pump_ok.
  - destruct w; try done. destruct (write_outcome _ _ _ _) as [outcome failed]. by apply or_after_pump_ok; [apply complete_idle|].
  - assert (Hidle : idle_ok s) by (apply session_idle; [done|unfold writing; by rewrite Ed]).
    destruct w; try done. by apply after_pump_ok.
  - assert (Hidle : idle_ok s) by (apply session_idle; [done|unfold writing; by rewrite Ed]).
    destruct w; try done. cbn. unfold retry_due. rewrite Ed. destruct (ws_closed s); [by apply reconnect_failed_ok|].
    destruct Hs as [Hr Hi Ht Hq Hn Hst]. unfold numbers_of in Hn. rewrite Ed in Hn.
    destruct Hidle as [_ _ Ht' _]. split; cbn; auto; done.
  - assert (Hidle : idle_ok s) by (apply session_idle; [done|unfold writing; by rewrite Ed]).
    destruct w; try done. cbn. unfold retry_dialled. rewrite Ed.
    destruct (establish (ws_deadlines s) dialled) as [[]|reason]; [by apply reconnect_landed_ok|].
    case_bool_decide; [|by apply reconnect_failed_ok]. apply await_retry_ok; [done|].
    pose proof (sk_numbers _ Hs) as Hn. unfold numbers_of in Hn. rewrite Ed in Hn.
    apply NoDup_cons in Hn as [Hn _]. rewrite list_elem_of_singleton in Hn. done.
  - by destruct w.
Qed.

(** What a wake of the task may change of a session besides its own state. *)
Record evolves (g g' : N) (s s' : WsSession) : Prop := {
  ev_relay : ws_relay s' = ws_relay s;
  ev_keys : rt_subscriptions (ws_router s') ⊆ rt_subscriptions (ws_router s);
  ev_counter : (g ≤ g')%N;
  ev_numbers n : n ∈ numbers_of s' → n ∈ numbers_of s ∨ (g < n ≤ g')%N
}.

Lemma evolves_quiet g s s' :
  ws_relay s' = ws_relay s → rt_subscriptions (ws_router s') ⊆ rt_subscriptions (ws_router s) →
  (∀ n, n ∈ numbers_of s' → n ∈ numbers_of s) → evolves g g s s'.
Proof. intros Hr Hk Hn. split; [done|done|lia|auto]. Qed.

Lemma router_close_keys r : rt_subscriptions (router_close r) ⊆ rt_subscriptions r.
Proof. apply moved_keys. Qed.

Lemma drive_end_evolves g s s0 :
  ws_relay s = ws_relay s0 → rt_subscriptions (ws_router s) ⊆ rt_subscriptions (ws_router s0) →
  ws_generation s = ws_generation s0 → evolves g g s0 (drive_end s).
Proof.
  intros Hr Hk Hg. apply evolves_quiet; [done| |].
  - cbn. etrans; [apply router_close_keys|done].
  - intros n. unfold numbers_of at 1. cbn. rewrite list_elem_of_singleton. intros ->. rewrite Hg. left.
Qed.

Lemma reconnect_failed_evolves g attempts reason s s0 :
  ws_relay s = ws_relay s0 → rt_subscriptions (ws_router s) ⊆ rt_subscriptions (ws_router s0) →
  ws_generation s = ws_generation s0 → evolves g g s0 (reconnect_failed failure_debug attempts reason s).
Proof. intros Hr Hk Hg. apply drive_end_evolves; [done| |done]. cbn. etrans; [apply moved_keys|done]. Qed.

Lemma await_retry_evolves g g' generation attempt last s s0 :
  ws_relay s = ws_relay s0 → rt_subscriptions (ws_router s) ⊆ rt_subscriptions (ws_router s0) →
  ws_generation s = ws_generation s0 → (g ≤ g')%N → generation ∈ numbers_of s0 ∨ (g < generation ≤ g')%N →
  evolves g g' s0 (await_retry generation attempt last s).
Proof.
  intros Hr Hk Hg Hle Hin. unfold await_retry. destruct (next_delay _) as [delay b]. split; [done|done|done|].
  intros n. unfold numbers_of at 1. cbn. rewrite elem_of_cons, list_elem_of_singleton. intros [->| ->]; [left; rewrite Hg; left|done].
Qed.

Lemma after_pump_evolves reason g s s0 :
  ws_relay s = ws_relay s0 → rt_subscriptions (ws_router s) ⊆ rt_subscriptions (ws_router s0) →
  ws_generation s = ws_generation s0 →
  evolves g (after_pump failure_debug reason g s).2 s0 (after_pump failure_debug reason g s).1.
Proof.
  intros Hr Hk Hg. unfold after_pump. rewrite drain_unsent_spec. cbn [ws_closed ws_set_outbound ws_set_completions].
  destruct (ws_closed s); [by apply drive_end_evolves|].
  unfold reconnect_start, mint_generation. destruct (checked_succ g) as [g'|] eqn:E.
  - apply checked_succ_Some in E as [_ ->]. cbn [fst snd]. apply await_retry_evolves; [done..|lia|right; lia].
  - by apply reconnect_failed_evolves.
Qed.

Lemma or_after_pump_evolves g failed s s0 :
  ws_relay s = ws_relay s0 → rt_subscriptions (ws_router s) ⊆ rt_subscriptions (ws_router s0) →
  ws_generation s = ws_generation s0 →
  evolves g (or_after_pump failure_debug g failed s).2 s0 (or_after_pump failure_debug g failed s).1.
Proof.
  intros Hr Hk Hg. destruct failed; [by apply after_pump_evolves|]. apply evolves_quiet; [done..|].
  intros n. unfold numbers_of at 1. cbn. rewrite list_elem_of_singleton. intros ->. rewrite Hg. left.
Qed.

Lemma drive_evolves w g s : evolves g (drive failure_debug w g s).2 s (drive failure_debug w g s).1.
Proof.
  assert (Hsame : evolves g g s s) by (by apply evolves_quiet).
  assert (Hquiet : ∀ s', ws_relay s' = ws_relay s → ws_router s' = ws_router s → ws_generation s' = ws_generation s →
    (match ws_driver s' with Delaying _ _ _ _ | Dialling _ _ => False | _ => True end) → evolves g g s s').
  { intros s' Hr Hro Hg Hd. apply evolves_quiet; [done|by rewrite Hro|]. intros n. unfold numbers_of. rewrite Hg.
    destruct (ws_driver s'); try done; rewrite list_elem_of_singleton; intros ->; left. }
  unfold drive. destruct (ws_driver s) as [|pending| |generation attempt delay last|generation attempt|] eqn:Ed; destruct w; cbn [fst snd]; try done.
  - destruct (ws_close_requested s); [by apply Hquiet|done].
  - destruct (ws_outbound s); [done|by apply Hquiet].
  - by apply Hquiet.
  - by apply after_pump_evolves.
  - destruct (admit_message message s) as [failed s'] eqn:Ea.
    assert (s' = (admit_message message s).2) as Hs' by (by rewrite Ea).
    assert (ws_relay s' = ws_relay s ∧ rt_subscriptions (ws_router s') ⊆ rt_subscriptions (ws_router s) ∧ ws_generation s' = ws_generation s)
      as (H1 & H2 & H3); [|by apply or_after_pump_evolves].
    subst s'. clear Ea. destruct message as [frame| | | |]; cbn; try done. unfold admit_frame. case_bool_decide; [done|].
    destruct (utf8_valid frame); [|done]. destruct (decode_relay frame) as [m|]; [|done]. cbn. split_and!; [done| |done].
    by apply (call_keys (CallDeliver m)).
  - by apply after_pump_evolves.
  - destruct (write_outcome _ _ _ _) as [outcome failed]. by apply or_after_pump_evolves.
  - by apply after_pump_evolves.
  - unfold retry_due. rewrite Ed. destruct (ws_closed s); [by apply reconnect_failed_evolves|].
    apply evolves_quiet; [done|done|]. intros n. unfold numbers_of. cbn. by rewrite Ed.
  - unfold retry_dialled. rewrite Ed. destruct (establish _ _) as [[]|reason].
    + apply evolves_quiet; [done|apply moved_keys|]. intros n. unfold numbers_of. cbn. rewrite Ed, list_elem_of_singleton.
      intros ->. right. left.
    + case_bool_decide; [|by apply reconnect_failed_evolves].
      apply await_retry_evolves; [done..|left; unfold numbers_of; rewrite Ed; right; left].
Qed.

(** ** Session operations of callers *)

(** The session with one more frame queued. *)
Lemma queued_ok frame correlation s :
  ws_ok s → ws_driver s ≠ Stopped → length (ws_outbound s) < bd_outbound_frames (ws_bounds s) →
  ws_ok (ws_set_outbound (ws_outbound s ++ [mkOutbound frame correlation (ws_tickets s)])
                (ws_set_tickets (S (ws_tickets s)) s)).
Proof.
  intros [Hr Hi [Hn Hf] Hqueue Hnum Hst] Hd Hq. set (s' := ws_set_outbound _ _).
  assert (Ht : tickets_of s' = tickets_of s ++ [ws_tickets s]).
  { unfold tickets_of. change (writing s') with (writing s). cbn. by rewrite fmap_app, !app_assoc. }
  split; [done|done| |cbn; rewrite length_app; cbn; lia|done|done].
  rewrite Ht. cbn [ws_tickets s' ws_set_outbound ws_set_tickets]. split.
  - apply NoDup_snoc; [done|]. intros Hin. rewrite Forall_forall in Hf. apply Hf in Hin. lia.
  - apply Forall_app. split; [|constructor; [lia|constructor]]. eapply Forall_impl; [exact Hf|cbn; intros; lia].
Qed.

Lemma try_send_ok frame correlation s : ws_ok s → ws_ok (try_send frame correlation s).2.
Proof.
  intros Hs. unfold try_send. destruct (ws_driver s) eqn:Ed; try done.
  all: case_bool_decide as Hq; [done|]; apply queued_ok; [done|by rewrite Ed|lia].
Qed.

Lemma hand_off_ok frame correlation s : ws_ok s → ws_ok (hand_off frame correlation s).2.
Proof.
  intros Hs. unfold hand_off. case_bool_decide; [done|]. destruct (ws_closed s); [done|].
  pose proof (try_send_ok frame correlation s Hs) as Ht. destruct (try_send frame correlation s) as [[] s']; done.
Qed.

Lemma enqueue_ok frame s : ws_ok s → ws_ok (enqueue frame s).
Proof. intros Hs. unfold enqueue. destruct (ws_closed s); [done|by apply try_send_ok]. Qed.

Lemma close_start_ok s : ws_ok s → ws_ok (close_start s).
Proof.
  intros Hs. unfold close_start. destruct (ws_closed s).
  - apply session_keeping; [apply router_close_ok|apply router_close_keeps|done].
  - destruct Hs as [Hr Hi Ht Hq Hn Hst]. split; cbn; auto. intros Hd. destruct (Hst Hd) as (_ & ? & ?). done.
Qed.

Lemma close_finished_ok s : ws_ok s → ws_ok (close_finished s).
Proof. apply session_keeping; [apply router_close_ok|apply router_close_keeps]. Qed.

(** What these operations leave alone. *)
Definition same_numbers (s s' : WsSession) : Prop := ws_relay s' = ws_relay s ∧ numbers_of s' = numbers_of s.

Lemma try_send_same frame correlation s :
  same_numbers s (try_send frame correlation s).2 ∧ ws_router (try_send frame correlation s).2 = ws_router s.
Proof. unfold try_send, same_numbers. destruct (ws_driver s) eqn:Ed; try case_bool_decide; done. Qed.

Lemma hand_off_same frame correlation s :
  same_numbers s (hand_off frame correlation s).2 ∧ ws_router (hand_off frame correlation s).2 = ws_router s.
Proof.
  unfold hand_off. case_bool_decide; [done|]. destruct (ws_closed s); [done|].
  pose proof (try_send_same frame correlation s) as Ht. destruct (try_send frame correlation s) as [[] s']; done.
Qed.

Lemma enqueue_same frame s : same_numbers s (enqueue frame s) ∧ ws_router (enqueue frame s) = ws_router s.
Proof. unfold enqueue. destruct (ws_closed s); [done|apply try_send_same]. Qed.

Lemma close_start_same s :
  same_numbers s (close_start s) ∧ rt_subscriptions (ws_router (close_start s)) ⊆ rt_subscriptions (ws_router s).
Proof. unfold close_start. destruct (ws_closed s); (split; [done|]); [apply router_close_keys|done]. Qed.

Lemma new_session_ok request entropy generation :
  ws_ok (SessionShared_new request entropy generation).
Proof.
  unfold SessionShared_new. split; cbn; [by apply Router_new_ok|by intros c [= <-]|split; constructor|lia|by apply NoDup_singleton|done].
Qed.
End sessions.

(** ** The registry *)

Abbreviation lease_count leases i := (count_occ Nat.eq_dec leases i).

(** One entry per relay and connection, with exactly as many holders as leases
    are out on its session; until shutdown every lease is on a registered
    session. *)
Record entry_ok (t : WsTransport) (relay : RelayUrl) (e : Entry) : Prop := {
  eo_session : ∃ s, tp_sessions t !! et_session e = Some s ∧ ws_relay s = relay;
  eo_holders : et_holders e = lease_count (tp_leases t) (et_session e);
  eo_held : 0 < et_holders e
}.

Record registry_ok (t : WsTransport) : Prop := {
  rg_entries relay l : tp_entries t !! relay = Some l →
    l ≠ [] ∧ NoDup (et_session <$> l) ∧ Forall (entry_ok t relay) l;
  rg_leases i : i ∈ tp_leases t → i < length (tp_sessions t) ∧
    (tp_shutting_down t = false → ∃ relay l e, tp_entries t !! relay = Some l ∧ e ∈ l ∧ et_session e = i)
}.

Lemma count_elem leases i : 0 < lease_count leases i ↔ i ∈ leases.
Proof. rewrite list_elem_of_In. symmetry. apply count_occ_In. Qed.

(** An entry's session belongs to one entry of one relay. *)
Lemma entry_unique t r1 r2 l1 l2 e1 e2 :
  registry_ok t → tp_entries t !! r1 = Some l1 → tp_entries t !! r2 = Some l2 → e1 ∈ l1 → e2 ∈ l2 →
  et_session e1 = et_session e2 → r1 = r2.
Proof.
  intros Hok H1 H2 He1 He2 Heq. destruct (rg_entries _ Hok _ _ H1) as (_ & _ & F1). destruct (rg_entries _ Hok _ _ H2) as (_ & _ & F2).
  rewrite Forall_forall in F1, F2. destruct (eo_session _ _ _ (F1 _ He1)) as (s1 & Hs1 & <-).
  destruct (eo_session _ _ _ (F2 _ He2)) as (s2 & Hs2 & <-). congruence.
Qed.

(** The entries of a relay, or none. *)
Definition put_entries (relay : RelayUrl) (l : list Entry) (m : gmap RelayUrl (list Entry)) : gmap RelayUrl (list Entry) :=
  match l with [] => delete relay m | _ => <[relay := l]> m end.

Lemma put_entries_Some relay l m r k :
  put_entries relay l m !! r = Some k ↔ (r = relay ∧ k = l ∧ l ≠ []) ∨ (r ≠ relay ∧ m !! r = Some k).
Proof.
  unfold put_entries. destruct l as [|e l].
  - rewrite lookup_delete_Some. naive_solver.
  - rewrite lookup_insert_Some. naive_solver.
Qed.

(** One entry and the leases on its session change together. *)
Lemma registry_update t relay l1 e l2 es leases :
  registry_ok t → tp_entries t !! relay = Some (l1 ++ e :: l2) →
  (es = [] ∧ lease_count leases (et_session e) = 0) ∨
  (∃ e', es = [e'] ∧ et_session e' = et_session e ∧ et_holders e' = lease_count leases (et_session e) ∧ 0 < et_holders e') →
  (∀ i, i ≠ et_session e → lease_count leases i = lease_count (tp_leases t) i) →
  registry_ok (tp_set_leases leases (tp_set_entries (put_entries relay (l1 ++ es ++ l2) (tp_entries t)) t)).
Proof.
  intros Hok Hl Hes Hother. destruct (rg_entries _ Hok _ _ Hl) as (_ & Hnd & Hf).
  rewrite fmap_app, fmap_cons in Hnd. apply NoDup_app in Hnd as (Hn1 & Hdis & [Hne Hn2]%NoDup_cons).
  apply Forall_app in Hf as (F1 & [He F2]%Forall_cons).
  set (t' := tp_set_leases _ _).
  assert (Hkeep : ∀ r x, et_session x ≠ et_session e → entry_ok t r x → entry_ok t' r x).
  { intros r x Hx [Hs Hh Hp]. split; [done| |done]. cbn. by rewrite Hother. }
  assert (Hrest : ∀ x, x ∈ l1 ++ l2 → et_session x ≠ et_session e).
  { intros x [Hx|Hx]%elem_of_app Heq.
    - eapply (Hdis (et_session x)); [by apply list_elem_of_fmap_2|]. rewrite Heq. left.
    - apply Hne. rewrite <- Heq. by apply list_elem_of_fmap_2. }
  assert (Hin : ∀ i, i ∈ leases → i ≠ et_session e → i ∈ tp_leases t).
  { intros i Hi Hne'. apply count_elem. rewrite <- Hother by done. by apply count_elem. }
  split.
  - intros r k [(-> & -> & Hnil)|(Hr & Hk)]%put_entries_Some; split_and!.
    + done.
    + rewrite !fmap_app. assert (Hes' : et_session <$> es = [] ∨ et_session <$> es = [et_session e]).
      { destruct Hes as [[-> _]|(e' & -> & Heq & _)]; [by left|right]. cbn. by rewrite Heq. }
      destruct Hes' as [->| ->]; cbn; apply NoDup_app; split_and!; [done| |done|done| |by apply NoDup_cons].
      * intros x Hx Hx2. eapply Hdis; [exact Hx|by right].
      * intros x Hx Hx2. by eapply Hdis.
    + apply Forall_app. split; [|apply Forall_app; split].
      * rewrite Forall_forall in F1 |- *. intros x Hx. apply Hkeep; [apply Hrest; set_solver|by apply F1].
      * destruct Hes as [[-> _]|(e' & -> & Heq & Hh & Hp)]; [constructor|]. constructor; [|constructor].
        split; [|cbn; by rewrite Heq|done]. rewrite Heq. apply (eo_session _ _ _ He).
      * rewrite Forall_forall in F2 |- *. intros x Hx. apply Hkeep; [apply Hrest; set_solver|by apply F2].
    + by destruct (rg_entries _ Hok _ _ Hk).
    + by destruct (rg_entries _ Hok _ _ Hk) as (_ & ? & _).
    + destruct (rg_entries _ Hok _ _ Hk) as (_ & _ & F). rewrite Forall_forall in F |- *. intros x Hx.
      apply Hkeep; [|by apply F]. intros Heq. apply Hr. eapply (entry_unique t r relay k _ x e Hok Hk Hl Hx); [set_solver|done].
  - intros i Hi. cbn in Hi. destruct (decide (i = et_session e)) as [->|Hne'].
    + split. { destruct (eo_session _ _ _ He) as (s & Hs & _). cbn. by eapply lookup_lt_Some. }
      intros _. destruct Hes as [[_ H0]|(e' & -> & Heq & _)].
      { apply count_elem in Hi. lia. }
      exists relay, (l1 ++ [e'] ++ l2), e'. cbn [tp_entries t' tp_set_leases tp_set_entries]. split_and!; [|set_solver|done].
      apply put_entries_Some. left. split_and!; [done|done|]. by destruct l1.
    + destruct (rg_leases _ Hok i (Hin i Hi Hne')) as [Hlt Hreg]. split; [done|]. intros Hsd.
      destruct (Hreg Hsd) as (r & k & x & Hk & Hx & Hxi). destruct (decide (r = relay)) as [->|Hr].
      * assert (k = l1 ++ e :: l2) as -> by congruence.
        assert (Hx' : x ∈ l1 ++ l2) by (apply elem_of_app in Hx as [?|[->|?]%elem_of_cons]; [set_solver|congruence|set_solver]).
        exists relay, (l1 ++ es ++ l2), x. split_and!; [|set_solver|done].
        apply put_entries_Some. left. split_and!; [done|done|]. intros Hnil. apply app_nil in Hnil as [-> [_ ->]%app_nil].
        by apply not_elem_of_nil in Hx'.
      * exists r, k, x. split_and!; [|done|done]. apply put_entries_Some. by right.
Qed.

Lemma elem_of_sessions t i :
  i ∈ sessions t ↔ ∃ relay l e, tp_entries t !! relay = Some l ∧ e ∈ l ∧ et_session e = i.
Proof.
  unfold sessions. rewrite list_elem_of_fmap. split.
  - intros (e & -> & He). apply list_elem_of_In, in_concat in He as (l & [r Hl]%list_elem_of_In%elem_of_values & He%list_elem_of_In).
    by exists r, l, e.
  - intros (r & l & e & Hl & He & <-). exists e. split; [done|]. apply list_elem_of_In, in_concat. exists l.
    rewrite <- !list_elem_of_In, elem_of_values. split; [by exists r|done].
Qed.

(** Sessions may change, or new ones appear, as long as relays stay. *)
Lemma registry_sessions t new :
  registry_ok t →
  (∀ i s, tp_sessions t !! i = Some s → ∃ s', new !! i = Some s' ∧ ws_relay s' = ws_relay s) →
  registry_ok (tp_set_sessions new t).
Proof.
  intros Hok Hkeep. split.
  - intros relay l Hl. destruct (rg_entries _ Hok _ _ Hl) as (Hn & Hd & Hf). split_and!; [done|done|].
    eapply Forall_impl; [exact Hf|]. intros e [(s & Hs & Hr) Hh Hp]. split; [|done|done].
    destruct (Hkeep _ _ Hs) as (s' & Hs' & Hr'). exists s'. split; [done|congruence].
  - intros i Hi. destruct (rg_leases _ Hok i Hi) as [Hlt Hreg]. split; [|done].
    apply lookup_lt_is_Some in Hlt as [s Hs]. destruct (Hkeep _ _ Hs) as (s' & Hs' & _). cbn. by eapply lookup_lt_Some.
Qed.

Lemma registry_counters t e g k : registry_ok t → registry_ok (tp_set_subscriptions k (tp_set_counters e g t)).
Proof.
  intros [He Hl]. split; [|done]. intros relay l Hin. destruct (He _ _ Hin) as (Hn & Hd & Hf). split_and!; [done|done|].
  eapply Forall_impl; [exact Hf|]. by intros x [Hs Hh Hp]; split.
Qed.

Lemma join_Some sessions authority l i l' :
  join sessions authority l = Some (i, l') → ∃ l1 e l2, l = l1 ++ e :: l2 ∧ i = et_session e ∧
    entry_can_serve sessions authority e = true ∧
    l' = l1 ++ [mkEntry (et_session e) (S (et_holders e)) (serve authority (et_served e))] ++ l2.
Proof.
  revert i l'. induction l as [|e l IH]; intros i l'; [done|]. cbn [join].
  destruct (entry_can_serve sessions authority e) eqn:Ec.
  - intros [= <- <-]. by exists [], e, l.
  - destruct (join sessions authority l) as [[i0 l0]|]; [|done]. intros [= <- <-].
    destruct (IH i0 l0 eq_refl) as (l1 & e' & l2 & -> & -> & He & ->). by exists (e :: l1), e', l2.
Qed.

Lemma reuse_Some relay authority t i t' :
  reuse relay authority t = Some (i, t') → ∃ l1 e l2, tp_entries t !! relay = Some (l1 ++ e :: l2) ∧ i = et_session e ∧
    entry_can_serve (tp_sessions t) authority e = true ∧
    t' = tp_set_leases (i :: tp_leases t)
           (tp_set_entries (put_entries relay (l1 ++ [mkEntry i (S (et_holders e)) (serve authority (et_served e))] ++ l2)
              (tp_entries t)) t).
Proof.
  unfold reuse. destruct (tp_entries t !! relay) as [l|]; [|done]. cbn.
  destruct (join (tp_sessions t) authority l) as [[i0 l0]|] eqn:Ej; [|done]. cbn. intros [= <- <-].
  apply join_Some in Ej as (l1 & e & l2 & -> & -> & He & ->). exists l1, e, l2. split_and!; [done..|]. by destruct l1.
Qed.

Lemma reuse_ok relay authority t i t' : registry_ok t → reuse relay authority t = Some (i, t') → registry_ok t'.
Proof.
  intros Hok (l1 & e & l2 & Hl & -> & _ & ->)%reuse_Some. apply (registry_update _ _ _ e); [done|done| |].
  - right. eexists. split_and!; [done|done| |cbn; lia]. cbn. destruct (Nat.eq_dec _ _) as [_|]; [|done]. f_equal.
    destruct (rg_entries _ Hok _ _ Hl) as (_ & _ & F). apply Forall_app in F as (_ & [He _]%Forall_cons). apply He.
  - intros i Hi. cbn. by destruct (Nat.eq_dec _ _) as [|_].
Qed.

(** The session a dial opened is registered under its first lease. *)
Lemma register_ok relay authority (shared : WsSession) t :
  registry_ok t → ws_relay shared = relay →
  registry_ok (tp_set_leases (length (tp_sessions t) :: tp_leases t)
    (tp_set_entries (<[relay := default [] (tp_entries t !! relay) ++ [mkEntry (length (tp_sessions t)) 1 [authority]]]> (tp_entries t))
       (tp_set_sessions (tp_sessions t ++ [shared]) t))).
Proof.
  intros Hok Hrelay. set (address := length (tp_sessions t)). set (t' := tp_set_leases _ _).
  assert (Hnew : lease_count (tp_leases t) address = 0).
  { destruct (lease_count (tp_leases t) address) eqn:E; [done|]. assert (0 < lease_count (tp_leases t) address) as Hin by lia.
    apply count_elem in Hin. destruct (rg_leases _ Hok _ Hin). unfold address in *. lia. }
  assert (Hold : ∀ r l e, tp_entries t !! r = Some l → e ∈ l → et_session e < address ∧ entry_ok t' r e).
  { intros r l e Hl He. destruct (rg_entries _ Hok _ _ Hl) as (_ & _ & F). rewrite Forall_forall in F.
    destruct (F _ He) as [(s & Hs & Hr) Hh Hp]. pose proof (lookup_lt_Some _ _ _ Hs). split; [done|]. split; [|cbn|done].
    - exists s. split; [|done]. cbn. by apply lookup_app_l_Some.
    - destruct (Nat.eq_dec address (et_session e)); [|done]. unfold address in *. lia. }
  set (old := default [] (tp_entries t !! relay)).
  assert (Holds : NoDup (et_session <$> old) ∧ ∀ e, e ∈ old → et_session e < address ∧ entry_ok t' relay e).
  { unfold old. destruct (tp_entries t !! relay) as [l|] eqn:E; cbn; [|split; [constructor|by intros e ?%not_elem_of_nil]].
    split; [apply (rg_entries _ Hok _ _ E)|by intros e; apply (Hold _ _ _ E)]. }
  split.
  - intros r l Hrl. cbn [tp_entries t' tp_set_leases tp_set_entries] in Hrl. fold old in Hrl.
    apply lookup_insert_Some in Hrl as [[<- <-]|[Hr Hl]]; split_and!.
    + by destruct old.
    + rewrite fmap_app. apply NoDup_snoc; [apply Holds|]. intros (e & He & Hin)%list_elem_of_fmap. apply Holds in Hin. cbn in He. lia.
    + apply Forall_app. split; [apply Forall_forall; intros e He; by apply Holds|]. constructor; [|constructor]. split; cbn; [| |lia].
      * exists shared. split; [by apply list_lookup_middle|done].
      * destruct (Nat.eq_dec _ _); [lia|done].
    + by destruct (rg_entries _ Hok _ _ Hl).
    + by destruct (rg_entries _ Hok _ _ Hl) as (_ & ? & _).
    + apply Forall_forall. intros e He. by apply (Hold _ _ _ Hl).
  - intros i [->|Hi]%elem_of_cons; cbn; rewrite length_app; cbn.
    + split; [unfold address; lia|]. intros _. exists relay, (old ++ [mkEntry address 1 [authority]]), (mkEntry address 1 [authority]).
      split_and!; [by rewrite lookup_insert_eq|set_solver|done].
    + destruct (rg_leases _ Hok i Hi) as [Hlt Hreg]. split; [lia|]. intros Hsd.
      destruct (Hreg Hsd) as (r & l & e & Hl & He & Hei). destruct (decide (r = relay)) as [->|Hr].
      * exists relay, (old ++ [mkEntry address 1 [authority]]), e. split_and!; [by rewrite lookup_insert_eq| |done].
        unfold old. rewrite Hl. cbn. set_solver.
      * exists r, l, e. split_and!; [by rewrite lookup_insert_ne|done|done].
Qed.

Lemma position_of_Some session l p :
  position_of session l = Some p → ∃ l1 e l2, l = l1 ++ e :: l2 ∧ p = length l1 ∧ et_session e = session.
Proof.
  revert p. induction l as [|e l IH]; intros p; [done|]. cbn. case_bool_decide as He.
  - intros [= <-]. by exists [], e, l.
  - destruct (position_of session l) as [q|]; [|done]. intros [= <-]. destruct (IH q eq_refl) as (l1 & e' & l2 & -> & -> & ?).
    by exists (e :: l1), e', l2.
Qed.

Lemma position_of_elem session l e : e ∈ l → et_session e = session → is_Some (position_of session l).
Proof.
  induction l as [|x l IH]; [by intros ?%not_elem_of_nil|]. cbn. case_bool_decide; [done|].
  intros [->|He]%elem_of_cons Hs; [done|]. destruct (IH He Hs) as [p ->]. done.
Qed.

Lemma remove_one_count x l i : x ∈ l →
  lease_count (remove_one x l) i = (if bool_decide (i = x) then lease_count l i - 1 else lease_count l i).
Proof.
  induction l as [|y l IH]; [by intros ?%not_elem_of_nil|]. intros Hx. cbn [remove_one].
  destruct (decide (x = y)) as [->|Hxy].
  - rewrite (bool_decide_eq_true_2 (y = y)) by done. cbn.
    destruct (Nat.eq_dec y i) as [->|Hne]; [rewrite bool_decide_eq_true_2 by done; lia|by rewrite bool_decide_eq_false_2].
  - rewrite (bool_decide_eq_false_2 (x = y)) by done. apply elem_of_cons in Hx as [?|Hx]; [done|]. cbn. rewrite (IH Hx).
    destruct (Nat.eq_dec y i) as [->|Hne]; [|done]. by rewrite bool_decide_eq_false_2.
Qed.

(** Releasing a lease: one holder less, and the session closed with the last. *)
Definition released (session : nat) (t : WsTransport) (o : result TransportError ReleaseOutcome) (t' : WsTransport) : Prop :=
  registry_ok t' ∧ tp_leases t' = remove_one session (tp_leases t) ∧
  if bool_decide (lease_count (tp_leases t) session = 1)
  then o = Ok ReleaseClosed ∧ session ∉ sessions t' ∧ tp_sessions t' = alter close_start session (tp_sessions t)
  else o = Ok (Retained (lease_count (tp_leases t) session - 1)) ∧ tp_sessions t' = tp_sessions t.

(** A lease on a session shutdown has taken out of the registry. *)
Lemma release_unregistered session t :
  registry_ok t → session ∈ tp_leases t → (∀ relay l e, tp_entries t !! relay = Some l → e ∈ l → et_session e ≠ session) →
  tp_shutting_down t = true → registry_ok (tp_set_leases (remove_one session (tp_leases t)) t).
Proof.
  intros Hok Hin Hnot Hsd. split.
  - intros relay l Hl. destruct (rg_entries _ Hok _ _ Hl) as (Hn & Hd & Hf). split_and!; [done|done|].
    rewrite Forall_forall in Hf |- *. intros e He. destruct (Hf e He) as [Hs Hh Hp]. split; [done| |done].
    cbn. rewrite remove_one_count, bool_decide_eq_false_2; [done| |done]. by eapply Hnot.
  - intros i Hi. cbn in Hi |- *. split; [|congruence]. apply count_elem in Hi. rewrite remove_one_count in Hi by done.
    apply (rg_leases _ Hok), count_elem. case_bool_decide; lia.
Qed.

(** A lease on a registered session. *)
Lemma release_registered session t relay l e :
  registry_ok t → session ∈ tp_leases t → tp_entries t !! relay = Some l → e ∈ l → et_session e = session →
  released session t (release session t).1 (release session t).2.
Proof.
  intros Hok Hin Hl He Hes. destruct (rg_entries _ Hok _ _ Hl) as (_ & Hnd & Hf).
  assert (Hrelay : session_relay session t = relay).
  { rewrite Forall_forall in Hf. destruct (eo_session _ _ _ (Hf _ He)) as (s & Hs & Hr). unfold session_relay. rewrite <- Hes, Hs. done. }
  destruct (position_of_elem session l e He Hes) as [p Hp].
  pose proof (position_of_Some _ _ _ Hp) as (l1 & e' & l2 & -> & Hpos & Hes').
  assert (Hh : et_holders e' = lease_count (tp_leases t) session).
  { apply Forall_app in Hf as (_ & [He' _]%Forall_cons). rewrite <- Hes'. apply He'. }
  assert (Hpos1 : 0 < lease_count (tp_leases t) session) by (by apply count_elem).
  assert (Hcounts := remove_one_count session (tp_leases t)).
  assert (Hdel : delete p (l1 ++ e' :: l2) = l1 ++ [] ++ l2) by (subst p; by rewrite delete_middle).
  assert (Hat : (l1 ++ e' :: l2) !! p = Some e') by (subst p; by apply list_lookup_middle).
  unfold released, release, decrement. cbn [tp_entries tp_set_leases].
  change (session_relay session (tp_set_leases (remove_one session (tp_leases t)) t)) with (session_relay session t).
  rewrite Hrelay, Hl, Hp, Hat, Hh. rewrite (bool_decide_ext (lease_count (tp_leases t) session - 1 = 0) (lease_count (tp_leases t) session = 1)) by lia.
  case_bool_decide as Hone; cbn [fst snd].
  - set (t1 := tp_set_entries _ _).
    assert (Ht1 : registry_ok t1).
    { unfold t1. rewrite Hdel. change (registry_ok (tp_set_leases (remove_one session (tp_leases t))
        (tp_set_entries (put_entries relay (l1 ++ [] ++ l2) (tp_entries t)) t))).
      apply (registry_update t relay l1 e'); [done|done| |].
      - left. split; [done|]. rewrite Hes', Hcounts, bool_decide_eq_true_2 by done. lia.
      - intros i Hi. rewrite Hcounts by done. rewrite bool_decide_eq_false_2; [done|congruence]. }
    split_and!; [|done|done| |done].
    + apply registry_sessions; [done|]. intros i s Hs. destruct (decide (i = session)) as [->|Hne].
      * exists (close_start s). split; [by rewrite list_lookup_alter_eq, Hs|]. apply (proj1 (close_start_same s)).
      * exists s. split; [by rewrite list_lookup_alter_ne|done].
    + intros (r & k & x & Hr & Hxk & Hx)%elem_of_sessions.
      destruct (rg_entries _ Ht1 _ _ Hr) as (_ & _ & F). rewrite Forall_forall in F.
      pose proof (F x Hxk) as [_ Hhx Hpx]. rewrite Hhx, Hx in Hpx. cbn in Hpx. rewrite Hcounts, bool_decide_eq_true_2 in Hpx by done. lia.
  - split_and!; [|done|done|done].
    assert (Hins : <[p := mkEntry (et_session e') (lease_count (tp_leases t) session - 1) (et_served e')]> (l1 ++ e' :: l2) =
      l1 ++ [mkEntry (et_session e') (lease_count (tp_leases t) session - 1) (et_served e')] ++ l2).
    { subst p. by rewrite <- (Nat.add_0_r (length l1)), insert_app_r. }
    rewrite Hins. set (l' := l1 ++ [_] ++ l2).
    assert (Hput : <[relay := l']> (tp_entries t) = put_entries relay l' (tp_entries t)) by (unfold l'; by destruct l1).
    rewrite Hput. subst l'. change (registry_ok (tp_set_leases (remove_one session (tp_leases t))
      (tp_set_entries (put_entries relay (l1 ++ [mkEntry (et_session e') (lease_count (tp_leases t) session - 1) (et_served e')] ++ l2) (tp_entries t)) t))).
    apply (registry_update t relay l1 e'); [done|done| |].
    + right. eexists. split_and!; [done|done| |cbn; lia]. cbn. rewrite Hes', Hcounts, bool_decide_eq_true_2 by done. done.
    + intros i Hi. rewrite Hcounts by done. rewrite bool_decide_eq_false_2; [done|congruence].
Qed.

(** ** Runs of the transport *)

Section transport.
Context `{Wire} (failure_debug : TransportFailure → string).

(** The dials in progress are callers between the two halves of an acquire. *)
Abbreviation Dials := (list (OpenRelaySession * WsSession)).

(** What a handle does to the router of its session. *)
Definition handle_call (c : RouterCall) : bool :=
  match c with CallOpen _ _ | CallMoved _ | CallDeliver _ => false | _ => true end.

(** What the authenticator may write: the connection stays the one it was. *)
Definition authentication_only (next : Connection → Connection) : Prop :=
  ∀ c, cn_identity (next c) = cn_identity c ∧ cn_connectivity (next c) = cn_connectivity c.

Inductive transport_step : WsTransport * Dials → WsTransport * Dials → Prop :=
| step_reuse request t d i t' :
    acquire_start request t = (AcquireLeased i, t') → transport_step (t, d) (t', d)
| step_dial request t d shared t' :
    acquire_start request t = (AcquireDialling shared, t') → transport_step (t, d) (t', (request, shared) :: d)
| step_dialled t d1 request shared d2 dialled :
    transport_step (t, d1 ++ (request, shared) :: d2) ((acquire_finish request shared dialled t).2, d1 ++ d2)
| step_release t d i :
    i ∈ tp_leases t → transport_step (t, d) ((release i t).2, d)
| step_shutdown t d :
    transport_step (t, d) ((shutdown_start t).2, d)
| step_close t d i :
    transport_step (t, d) (on_session i close_start t, d)
| step_close_finished t d i :
    transport_step (t, d) (on_session i close_finished t, d)
| step_drive t d i s w :
    tp_sessions t !! i = Some s →
    transport_step (t, d) (let '(s', g) := drive failure_debug w (tp_generations t) s in
                           (tp_set_counters (tp_entropy t) g (tp_set_sessions (<[i := s']> (tp_sessions t)) t), d))
| step_subscribe t d i filters :
    (tp_subscriptions t < u64_max)%N → transport_step (t, d) ((subscribe i filters t).2, d)
| step_hand_off t d i frame correlation :
    transport_step (t, d) (on_session i (λ s, (hand_off frame correlation s).2) t, d)
| step_enqueue t d i frame :
    transport_step (t, d) (on_session i (enqueue frame) t, d)
| step_handle t d i c :
    handle_call c = true → transport_step (t, d) (on_session i (on_router (router_call c)) t, d)
| step_authenticate t d i next :
    authentication_only next → transport_step (t, d) (on_session i (on_router (moved next)) t, d).

Inductive transport_reachable : WsTransport * Dials → Prop :=
| reachable_new : transport_reachable (WebSocketTransport_new, [])
| reachable_step td td' : transport_reachable td → transport_step td td' → transport_reachable td'.

Record transport_ok (t : WsTransport) (d : Dials) : Prop := {
  tk_registry : registry_ok t;
  tk_sessions i s : tp_sessions t !! i = Some s →
    ws_ok s ∧ issued (tp_generations t) s ∧ keys_below (tp_subscriptions t) (ws_router s);
  tk_dials request shared : (request, shared) ∈ d → ∃ entropy generation,
    shared = SessionShared_new request entropy generation ∧ (0 < generation ≤ tp_generations t)%N;
  tk_distinct i j a b n : tp_sessions t !! i = Some a → tp_sessions t !! j = Some b →
    n ∈ numbers_of a → n ∈ numbers_of b → i = j;
  tk_dial_distinct i a request shared : tp_sessions t !! i = Some a → (request, shared) ∈ d →
    ws_generation shared ∉ numbers_of a;
  tk_dials_distinct : NoDup ((λ p, ws_generation p.2) <$> d)
}.

(** The sessions are as they were, or one of them changed within its own. *)
Lemma transport_session t d i (f : WsSession → WsSession) :
  transport_ok t d →
  (∀ s, ws_ok s → ws_ok (f s)) →
  (∀ s, ws_relay (f s) = ws_relay s ∧ (∀ n, n ∈ numbers_of (f s) → n ∈ numbers_of s) ∧
        rt_subscriptions (ws_router (f s)) ⊆ rt_subscriptions (ws_router s)) →
  transport_ok (on_session i f t) d.
Proof.
  intros [Hr Hs Hd Hx Hy Hz] Hok Hkeep.
  assert (Hback : ∀ j s', tp_sessions (on_session i f t) !! j = Some s' → ∃ s, tp_sessions t !! j = Some s ∧
    (s' = s ∨ s' = f s)).
  { intros j s'. cbn. rewrite alter_lookup_Some. intros (s & Hj & ->). exists s. split; [done|]. case_bool_decide; auto. }
  assert (Hnum : ∀ s s' n, s' = s ∨ s' = f s → n ∈ numbers_of s' → n ∈ numbers_of s).
  { intros s s' n [->| ->]; [done|]. apply Hkeep. }
  split; [| |done| | |done].
  - apply registry_sessions; [done|]. intros j s Hj. exists (if bool_decide (j = i) then f s else s). split.
    + apply alter_lookup_Some. eauto.
    + case_bool_decide; [apply Hkeep|done].
  - intros j s' (s & Hj & Hcase)%Hback. destruct (Hs _ _ Hj) as (Hso & Hi & Hk). destruct Hcase as [->| ->]; [done|].
    split_and!; [by apply Hok| |].
    + intros n Hn. apply Hi. by apply Hkeep.
    + eapply keys_below_sub; [|done]. apply Hkeep.
  - intros j k a b n (a0 & Ha & Hca)%Hback (b0 & Hb & Hcb)%Hback Hna Hnb. eapply (Hx j k a0 b0 n); eauto.
  - intros j a request shared (a0 & Ha & Hca)%Hback Hin Hn. eapply (Hy j a0); eauto.
Qed.

(** One session is replaced by its next state, with the counters it advanced. *)
Lemma session_replaced t d i s s' g' k :
  transport_ok t d → tp_sessions t !! i = Some s → ws_ok s' → ws_relay s' = ws_relay s →
  (tp_generations t ≤ g')%N → (∀ n, n ∈ numbers_of s' → n ∈ numbers_of s ∨ (tp_generations t < n ≤ g')%N) →
  (tp_subscriptions t ≤ k)%N → keys_below k (ws_router s') →
  transport_ok (tp_set_subscriptions k (tp_set_counters (tp_entropy t) g' (tp_set_sessions (<[i := s']> (tp_sessions t)) t))) d.
Proof.
  intros [Hr Hs Hd Hx Hy Hz] Hi Hok Hrel Hcount Hnum Hk' Hkeys.
  assert (Hback : ∀ j a, <[i := s']> (tp_sessions t) !! j = Some a →
    (j = i ∧ a = s') ∨ (j ≠ i ∧ tp_sessions t !! j = Some a)).
  { intros j a. destruct (decide (j = i)) as [->|Hne].
    - rewrite list_lookup_insert_eq by (by eapply lookup_lt_Some). intros [= <-]. auto.
    - rewrite list_lookup_insert_ne by done. auto. }
  assert (Hissued : ∀ j a n, tp_sessions t !! j = Some a → n ∈ numbers_of a → (0 < n ≤ tp_generations t)%N).
  { intros j a n Hj. apply (Hs j a Hj). }
  split; cbn [tp_sessions tp_set_counters tp_set_sessions tp_set_subscriptions tp_generations tp_subscriptions].
  - pose proof (registry_counters _ (tp_entropy t) g' k
      (registry_sessions t (<[i := s']> (tp_sessions t)) Hr ltac:(
        intros j a Hj; destruct (decide (j = i)) as [->|Hne];
          [exists s'; split; [by rewrite list_lookup_insert_eq by (by eapply lookup_lt_Some)|congruence]
          |exists a; split; [by rewrite list_lookup_insert_ne|done]]))) as Hreg. exact Hreg.
  - intros j a [[-> ->]|[Hne Hj]]%Hback.
    + split_and!; [done| |].
      * intros n [Hn|Hn]%Hnum; [apply (Hissued i s) in Hn; [lia|done]|]. lia.
      * done.
    + destruct (Hs j a Hj) as (Hso & His & Hkj). split_and!; [done| |].
      * intros n Hn. specialize (His n Hn). lia.
      * intros id b Hb. destruct (Hkj id b Hb) as (n & Hn & ->). exists n. split; [lia|done].
  - intros request shared Hin. destruct (Hd _ _ Hin) as (entropy & generation & -> & Hg). exists entropy, generation. split; [done|lia].
  - intros j l a b n [[-> ->]|[Hj Ha]]%Hback [[-> ->]|[Hl Hb]]%Hback Hna Hnb; try done.
    + exfalso. apply Hnum in Hna as [Hna|Hna]; [by apply Hl; eapply Hx|]. apply (Hissued l b) in Hnb; [lia|done].
    + exfalso. apply Hnum in Hnb as [Hnb|Hnb]; [by apply Hj; eapply Hx|]. apply (Hissued j a) in Hna; [lia|done].
    + by eapply Hx.
  - intros j a request shared [[-> ->]|[Hj Ha]]%Hback Hin Hn; [|by eapply (Hy j a)].
    apply Hnum in Hn as [Hn|Hn]; [by eapply (Hy i s)|]. destruct (Hd _ _ Hin) as (entropy & generation & -> & Hg). cbn in Hn. lia.
  - done.
Qed.

Lemma drive_step_ok t d i s w :
  transport_ok t d → tp_sessions t !! i = Some s →
  transport_ok (let '(s', g) := drive failure_debug w (tp_generations t) s in
    tp_set_counters (tp_entropy t) g (tp_set_sessions (<[i := s']> (tp_sessions t)) t)) d.
Proof.
  intros Hok Hi. destruct (tk_sessions _ _ Hok _ _ Hi) as (Hs & His & Hk).
  assert (Hg : (ws_generation s ≤ tp_generations t)%N) by (apply His; left).
  pose proof (drive_ok failure_debug w _ _ Hs Hg) as Hs'.
  destruct (drive_evolves failure_debug w (tp_generations t) s) as [Hr Hkeys Hc Hn].
  destruct (drive failure_debug w (tp_generations t) s) as [s' g]. cbn in *.
  apply (session_replaced t d i s s' g (tp_subscriptions t)); try done. by eapply keys_below_sub.
Qed.

(** Opening a subscription under the next identifier. *)
Lemma open_session_ok s k capacity :
  ws_ok s → keys_below k (ws_router s) → (k ≤ u64_max)%N →
  let s' := ws_set_router (open_subscription (subscription_id k) capacity (ws_router s)).2 s in
  ws_ok s' ∧ keys_below (k + 1) (ws_router s').
Proof.
  intros [Hr Hi Ht Hq Hn Hst] Hk Hle s'. pose proof (subscription_id_fresh k _ Hk Hle) as Hfresh. split.
  - split; [|done|done|done|done|done]. by apply (router_call_ok (CallOpen (subscription_id k) capacity)).
  - intros id b Hb. unfold s' in Hb. cbn in Hb. apply lookup_insert_Some in Hb as [[<- <-]|[_ Hid]]; [exists k; split; [lia|done]|].
    destruct (Hk id b Hid) as (n & Hn' & ->). exists n. split; [lia|done].
Qed.

Lemma hand_off_encoded_same frame s :
  same_numbers s (hand_off_encoded frame s).2 ∧ ws_router (hand_off_encoded frame s).2 = ws_router s ∧
  (ws_ok s → ws_ok (hand_off_encoded frame s).2).
Proof.
  destruct frame as [frame|outcome]; cbn; [|done]. destruct (hand_off_same frame 0 s) as [Hsame Hrouter].
  split_and!; [done|done|apply hand_off_ok].
Qed.

Lemma release_session_ok id s : ws_ok s → ws_ok (on_router (release_subscription id) s).
Proof.
  apply (session_keeping (router_call (CallRelease id))); [|by apply call_keeps].
  intros r Hr. by apply (router_call_ok (CallRelease id)).
Qed.

Lemma subscribe_ok i filters t d :
  transport_ok t d → (tp_subscriptions t < u64_max)%N → transport_ok (subscribe i filters t).2 d.
Proof.
  intros Hok Hlt. unfold subscribe. destruct (tp_sessions t !! i) as [s|] eqn:Hi; [|done].
  destruct (tk_sessions _ _ Hok _ _ Hi) as (Hs & His & Hk). unfold mint_subscription_id, subscribe_start.
  set (k := tp_subscriptions t) in *. set (capacity := bd_inbound_frames (ws_bounds s)).
  assert (Hwrap : u64_wrap (k + 1) = (k + 1)%N) by (unfold u64_wrap; unfold u64_max in Hlt; apply N.mod_small; lia).
  destruct (open_session_ok s k capacity Hs Hk) as [Hs1 Hk1]; [lia|].
  destruct (open_subscription (subscription_id k) capacity (ws_router s)) as [mailbox r] eqn:Eo. cbn [snd] in Hs1, Hk1.
  set (s1 := ws_set_router r s) in *. set (frame := encoded (ws_identity s) (ClientReq (subscription_id k) filters)).
  destruct (hand_off_encoded_same frame s1) as ([Hrel Hnum] & Hrouter & Hs2). specialize (Hs2 Hs1).
  destruct (hand_off_encoded frame s1) as [[ticket|refused] s2]; cbn [fst snd] in *; rewrite Hwrap.
  - apply (session_replaced t d i s s2 (tp_generations t) (k + 1)); try done; [|lia|by rewrite Hrouter].
    intros n. rewrite Hnum. auto.
  - apply (session_replaced t d i s (on_router (release_subscription (subscription_id k)) s2) (tp_generations t) (k + 1)); try done.
    + by apply release_session_ok.
    + intros n Hn. left. change (numbers_of s) with (numbers_of s1). by rewrite <- Hnum.
    + lia.
    + cbn. rewrite Hrouter. eapply keys_below_sub; [|exact Hk1]. by apply (call_keys (CallRelease (subscription_id k))).
Qed.

Lemma transport_registry t t' d :
  transport_ok t d → registry_ok t' → tp_sessions t' = tp_sessions t → tp_generations t' = tp_generations t →
  tp_subscriptions t' = tp_subscriptions t → transport_ok t' d.
Proof. intros [Hr Hs Hd Hx Hy Hz] Hr' Es Eg Ek. split; rewrite ?Es, ?Eg, ?Ek; done. Qed.

Lemma acquire_start_ok request t d r t' :
  transport_ok t d → acquire_start request t = (r, t') →
  transport_ok t' (match r with AcquireDialling shared => (request, shared) :: d | _ => d end).
Proof.
  intros Hok. unfold acquire_start. destruct (tp_shutting_down t); [by intros [= <- <-]|].
  destruct (reuse _ _ t) as [[i t1]|] eqn:Er.
  { intros [= <- <-]. apply (transport_registry t); [done|by eapply reuse_ok; [apply Hok|]|..];
      apply reuse_Some in Er as (l1 & e & l2 & _ & _ & _ & ->); done. }
  unfold mint_generation. destruct (checked_succ (tp_generations t)) as [g|] eqn:Eg; [|by intros [= <- <-]].
  apply checked_succ_Some in Eg as [Hlt ->]. intros [= <- <-]. destruct Hok as [Hr Hs Hd Hx Hy Hz].
  split; cbn [tp_sessions tp_set_counters tp_generations tp_subscriptions].
  - apply (registry_counters t _ _ (tp_subscriptions t) Hr).
  - intros i s Hi. destruct (Hs i s Hi) as (Hso & His & Hk). split_and!; [done| |done]. intros n Hn. specialize (His n Hn). lia.
  - intros req shared [[= -> ->]|Hin]%elem_of_cons.
    + eexists _, _. split; [done|]. lia.
    + destruct (Hd _ _ Hin) as (entropy & generation & -> & Hg). eexists _, _. split; [done|]. lia.
  - done.
  - intros i a req shared Ha [[= -> ->]|Hin]%elem_of_cons Hn; [|by eapply Hy].
    destruct (Hs i a Ha) as (_ & His & _). apply His in Hn. cbn in Hn. lia.
  - cbn. apply NoDup_cons. split; [|done]. intros ([req shared] & Heq & Hin)%list_elem_of_fmap.
    destruct (Hd _ _ Hin) as (entropy & generation & -> & Hg). cbn in Heq. lia.
Qed.

(** A dial that ends leaves the list; its session may join the heap. *)
Lemma dial_removed t d1 p d2 : transport_ok t (d1 ++ p :: d2) → transport_ok t (d1 ++ d2).
Proof.
  intros [Hr Hs Hd Hx Hy Hz]. split; [done|done| |done| |].
  - intros request shared Hin. apply Hd. set_solver.
  - intros i a request shared Ha Hin. apply (Hy i a request shared Ha). set_solver.
  - rewrite fmap_app in *. cbn in Hz. apply NoDup_app in Hz as (H1 & H2 & [_ H3]%NoDup_cons). apply NoDup_app. split_and!; [done| |done].
    intros x Hx1 Hx2. apply (H2 x Hx1). by right.
Qed.

Lemma session_created t d1 request shared d2 s' registry :
  transport_ok t (d1 ++ (request, shared) :: d2) → registry_ok registry →
  tp_sessions registry = tp_sessions t ++ [s'] → tp_generations registry = tp_generations t →
  tp_subscriptions registry = tp_subscriptions t →
  ws_ok s' → numbers_of s' = [ws_generation shared] → rt_subscriptions (ws_router s') = ∅ →
  transport_ok registry (d1 ++ d2).
Proof.
  intros Hok Hreg Es Eg Ek Hs' Hnum Hempty. pose proof (dial_removed _ _ _ _ Hok) as [Hr Hs Hd Hx Hy Hz].
  assert (Hin : (request, shared) ∈ d1 ++ (request, shared) :: d2) by set_solver.
  assert (Hself : ∀ p, p ∈ d1 ++ d2 → ws_generation p.2 ≠ ws_generation shared).
  { intros p Hp. pose proof (tk_dials_distinct _ _ Hok) as Hnd. rewrite fmap_app in Hnd. cbn in Hnd.
    apply NoDup_app in Hnd as (_ & H2 & [H3 _]%NoDup_cons). intros Heq. apply elem_of_app in Hp as [Hp|Hp].
    - apply (H2 (ws_generation p.2)); [by apply (list_elem_of_fmap_2 (λ p, ws_generation p.2))|rewrite Heq; left].
    - apply H3. rewrite <- Heq. by apply (list_elem_of_fmap_2 (λ p, ws_generation p.2)). }
  assert (Hback : ∀ i a, (tp_sessions t ++ [s']) !! i = Some a → tp_sessions t !! i = Some a ∨ (i = length (tp_sessions t) ∧ a = s')).
  { intros i a [?|(Hlen & Ha)]%lookup_app_Some; [by left|right]. apply list_lookup_singleton_Some in Ha as [H0 <-]. split; [lia|done]. }
  destruct (tk_dials _ _ Hok _ _ Hin) as (entropy & generation & Hsh & Hg).
  assert (Hother : ∀ i a n, tp_sessions t !! i = Some a → n ∈ numbers_of a → n ∈ numbers_of s' → False).
  { intros i a n Ha Hna. rewrite Hnum, list_elem_of_singleton. intros ->. by eapply (tk_dial_distinct _ _ Hok i a). }
  split; rewrite ?Es, ?Eg, ?Ek; [done| |done| | |done].
  - intros i a [Hi|[-> ->]]%Hback; [by apply (Hs i)|]. split_and!; [done| |].
    + intros n. rewrite Hnum, list_elem_of_singleton. intros ->. rewrite Hsh. cbn. done.
    + intros id b. by rewrite Hempty.
  - intros i j a b n [Ha|[-> ->]]%Hback [Hb|[-> ->]]%Hback Hna Hnb; [by eapply Hx|exfalso; by eapply (Hother i a)|exfalso; by eapply (Hother j b)|done].
  - intros i a req sh [Ha|[-> ->]]%Hback Hd'; [by eapply Hy|]. rewrite Hnum, list_elem_of_singleton. by apply (Hself (req, sh)).
Qed.

Lemma acquire_finish_ok request shared dialled t d1 d2 :
  transport_ok t (d1 ++ (request, shared) :: d2) → transport_ok (acquire_finish request shared dialled t).2 (d1 ++ d2).
Proof.
  intros Hok. destruct (tk_dials _ _ Hok request shared) as (entropy & generation & -> & Hg); [set_solver|].
  unfold acquire_finish. destruct (establish _ dialled) as [[]|failure]; [|by eapply dial_removed].
  set (shared := SessionShared_new request entropy generation) in *.
  destruct (reuse (or_relay request) (or_authority request) t) as [[i t1]|] eqn:Er; cbn [snd].
  - pose proof (reuse_ok _ _ _ _ _ (tk_registry _ _ Hok) Er) as Hr1. apply reuse_Some in Er as (l1 & e & l2 & _ & _ & _ & Ht1).
    apply (session_created t d1 request shared d2 (close_start shared)); try (by subst t1); try done.
    + apply registry_sessions; [done|]. intros j s Hj. exists s. split; [by apply lookup_app_l_Some|done].
    + apply close_start_ok, new_session_ok.
  - apply (session_created t d1 request shared d2 shared); try done.
    + apply (register_ok (or_relay request) (or_authority request) shared t (tk_registry _ _ Hok) eq_refl).
    + apply new_session_ok.
Qed.

Lemma release_lease_ok i t d : transport_ok t d → i ∈ tp_leases t → transport_ok (release i t).2 d.
Proof.
  intros Hok Hin. pose proof (tk_registry _ _ Hok) as Hreg.
  destruct (decide (i ∈ sessions t)) as [(r & l & e & Hl & He & Hei)%elem_of_sessions|Hno].
  - destruct (release_registered i t r l e Hreg Hin Hl He Hei) as (Hreg' & _ & Hcase).
    assert (Hcounters : tp_generations (release i t).2 = tp_generations t ∧ tp_subscriptions (release i t).2 = tp_subscriptions t ∧
      (tp_sessions (release i t).2 = tp_sessions t ∨ tp_sessions (release i t).2 = tp_sessions (on_session i close_start t))).
    { unfold release, decrement. repeat case_match; simplify_eq/=; auto. }
    destruct Hcounters as (Eg & Ek & [Es|Es]).
    + by apply (transport_registry t).
    + apply (transport_registry (on_session i close_start t)); try done.
      apply transport_session; [done|apply close_start_ok|]. intros s. destruct (close_start_same s) as [[? Hn] ?].
      split_and!; [done|by rewrite Hn|done].
  - assert (Hnot : ∀ relay l e, tp_entries t !! relay = Some l → e ∈ l → et_session e ≠ i).
    { intros relay l e Hl He Hei. apply Hno, elem_of_sessions. by exists relay, l, e. }
    assert (Hsd : tp_shutting_down t = true).
    { destruct (tp_shutting_down t) eqn:E; [done|]. destruct (rg_leases _ Hreg i Hin) as [_ Hr].
      destruct (Hr E) as (r & l & e & Hl & He & Hei). by destruct (Hnot r l e). }
    assert (Hrel : (release i t).2 = tp_set_leases (remove_one i (tp_leases t)) t).
    { unfold release, decrement. cbn [tp_entries tp_set_leases].
      destruct (tp_entries t !! session_relay i (tp_set_leases (remove_one i (tp_leases t)) t)) as [l|] eqn:El; [|done].
      destruct (position_of i l) as [p|] eqn:Ep; [|done]. apply position_of_Some in Ep as (l1 & e & l2 & -> & _ & Hei).
      destruct (Hnot _ _ e El); [set_solver|done]. }
    rewrite Hrel. apply (transport_registry t); try done. by apply release_unregistered.
Qed.

Lemma quiet_session (f : WsSession → WsSession) :
  (∀ s, same_numbers s (f s) ∧ ws_router (f s) = ws_router s) →
  ∀ s, ws_relay (f s) = ws_relay s ∧ (∀ n, n ∈ numbers_of (f s) → n ∈ numbers_of s) ∧
       rt_subscriptions (ws_router (f s)) ⊆ rt_subscriptions (ws_router s).
Proof. intros Hf s. destruct (Hf s) as [[Hr Hn] Hro]. split_and!; [done|by rewrite Hn|by rewrite Hro]. Qed.

Lemma transport_step_ok td td' : transport_step td td' → transport_ok td.1 td.2 → transport_ok td'.1 td'.2.
Proof.
  intros Hstep. destruct Hstep as
    [request t d i t' Ha|request t d shared t' Ha|t d1 request shared d2 dialled|t d i Hi|t d|t d i|t d i|t d i s w Hi
    |t d i filters Hk|t d i frame correlation|t d i frame|t d i c Hc|t d i next Hn]; cbn [fst snd]; intros Hok.
  - exact (acquire_start_ok _ _ _ _ _ Hok Ha).
  - exact (acquire_start_ok _ _ _ _ _ Hok Ha).
  - by apply acquire_finish_ok.
  - by apply release_lease_ok.
  - apply (transport_registry t); try done. split; [by intros relay l|].
    intros i Hi. destruct (rg_leases _ (tk_registry _ _ Hok) i Hi) as [Hlt _]. done.
  - apply transport_session; [done|apply close_start_ok|]. intros s. destruct (close_start_same s) as [[? Hn] ?].
    split_and!; [done|by rewrite Hn|done].
  - apply transport_session; [done|apply close_finished_ok|]. intros s. split_and!; [done|done|apply router_close_keys].
  - pose proof (drive_step_ok t d i s w Hok Hi) as Hd. by destruct (drive failure_debug w (tp_generations t) s).
  - by apply subscribe_ok.
  - apply transport_session; [done|intros; by apply hand_off_ok|]. apply quiet_session. intros. apply hand_off_same.
  - apply transport_session; [done|intros; by apply enqueue_ok|]. apply quiet_session. intros. apply enqueue_same.
  - apply transport_session; [done| |].
    + intros s. apply session_keeping; [|apply call_keeps; by destruct c].
      intros r Hr. apply router_call_ok; [by destruct c|done].
    + intros s. split_and!; [done|done|]. cbn. apply call_keys. by destruct c.
  - apply transport_session; [done| |].
    + intros s. apply session_keeping; [intros r; apply moved_ok|].
      apply (moved_keeps tt (λ c, (next c, tt))). intros c. apply Hn.
    + intros s. split_and!; [done|done|]. apply moved_keys.
Qed.

Lemma transport_reachable_ok td : transport_reachable td → transport_ok td.1 td.2.
Proof.
  induction 1 as [|td td' _ IH Hstep]; [|by eapply transport_step_ok].
  split; cbn; try done; [|by intros ???%not_elem_of_nil|constructor].
  split; [done|by intros i ?%not_elem_of_nil].
Qed.

(** C37. However acquires, dials, releases, subscriptions, hand-offs, socket
    wake-ups and shutdown interleave: each registered session has exactly as
    many holders as leases are out on it, at least one; until shutdown every
    lease is on a registered session; no two sessions ever wear, or are dialling
    for, the same connection number; and every session keeps its router coherent,
    its outbound queue within its bound, and completes no frame twice. *)
Theorem transport_invariant (t : WsTransport) (d : Dials) (Hreach : transport_reachable (t, d)) :
  (∀ relay l e, tp_entries t !! relay = Some l → e ∈ l →
     et_holders e = lease_count (tp_leases t) (et_session e) ∧ 0 < et_holders e) ∧
  (tp_shutting_down t = false → ∀ i, i ∈ tp_leases t → i ∈ sessions t) ∧
  (∀ i j a b n, tp_sessions t !! i = Some a → tp_sessions t !! j = Some b →
     n ∈ numbers_of a → n ∈ numbers_of b → i = j) ∧
  (∀ i s, tp_sessions t !! i = Some s → router_ok (ws_router s) ∧
     length (ws_outbound s) ≤ bd_outbound_frames (ws_bounds s) ∧ NoDup (tickets_of s)).
Proof.
  apply transport_reachable_ok in Hreach as [[He Hl] Hs _ Hx _ _]. split_and!.
  - intros relay l e Hrl Hin. destruct (He _ _ Hrl) as (_ & _ & F). rewrite Forall_forall in F. by destruct (F e Hin).
  - intros Hsd i Hi. destruct (Hl i Hi) as [_ Hreg]. by apply elem_of_sessions, Hreg.
  - done.
  - intros i s Hi. destruct (Hs i s Hi) as ([Hr _ [Hn _] Hq _ _] & _). done.
Qed.

(** Releasing a lease of a running transport always succeeds: with other
    holders the session stays open and their number is reported, with the last
    one the session leaves the registry and is closed. *)
Theorem release_counts (t : WsTransport) (d : Dials) (Hreach : transport_reachable (t, d)) (i : nat)
    (Hlease : i ∈ tp_leases t) (Hrunning : tp_shutting_down t = false) :
  released i t (release i t).1 (release i t).2.
Proof.
  apply transport_reachable_ok in Hreach as [Hreg _ _ _ _ _]. cbn in Hreg.
  destruct (rg_leases _ Hreg i Hlease) as [_ Hr]. destruct (Hr Hrunning) as (r & l & e & Hl & He & Hei).
  by eapply release_registered.
Qed.

(** Shutdown does not reach a dial in progress: an acquire that began before
    shutdown and whose dial ends after it registers a live session and leases it
    out, in a transport that reports itself shut down. *)
Theorem shutdown_misses_dial (t : WsTransport) (d1 d2 : Dials) (request : OpenRelaySession) (shared : WsSession)
    (Hreach : transport_reachable (t, d1 ++ (request, shared) :: d2))
    (Hshut : tp_shutting_down t = true) (Hempty : tp_entries t = ∅) :
  ∃ i t' s, acquire_finish request shared DialOk t = (Ok i, t') ∧ tp_shutting_down t' = true ∧
    i ∈ sessions t' ∧ tp_sessions t' !! i = Some s ∧ ws_closed s = false ∧ ws_driver s = Pumping.
Proof.
  apply transport_reachable_ok in Hreach as [_ _ Hd _ _ _]. cbn in Hd.
  destruct (Hd request shared) as (entropy & generation & -> & _); [set_solver|].
  unfold acquire_finish, reuse. cbn [establish ws_deadlines SessionShared_new]. rewrite Hempty, lookup_empty.
  cbn [mbind option_bind default from_option id]. do 3 eexists. split_and!; [done|done| |cbn; by apply list_lookup_middle|done|done].
  apply elem_of_sessions. exists (or_relay request). do 2 eexists. split_and!; [apply lookup_insert_eq|left|done].
Qed.
End transport.

(** ** Reconnecting *)

Section reconnecting.
Context `{Wire} (failure_debug : TransportFailure → string).

(** The ways [pump] loses a connection it was not asked to close. *)
Inductive loses (s : WsSession) : Wake → Prop :=
| lost_idle : ws_driver s = Pumping → loses s WakeIdle
| lost_keepalive : ws_driver s = Pumping → loses s WakeKeepaliveFailed
| lost_closed reason : ws_driver s = Pumping → loses s (WakeInbound (SocketClose reason))
| lost_error text : ws_driver s = Pumping → loses s (WakeInbound (SocketError text))
| lost_ended : ws_driver s = Pumping → loses s (WakeInbound SocketEnd)
| lost_oversized frame : ws_driver s = Pumping → bd_max_frame_bytes (ws_bounds s) < String.length frame →
    loses s (WakeInbound (SocketData frame))
| lost_write_error pending text : ws_driver s = Writing pending → loses s (WakeWritten (WriteError text))
| lost_write_expired pending : ws_driver s = Writing pending → loses s (WakeWritten WriteExpired).

(** What others may do to the session meanwhile: anything but closing it. *)
Record bystander (s s' : WsSession) : Prop := {
  by_driver : ws_driver s' = ws_driver s;
  by_backoff : ws_backoff s' = ws_backoff s;
  by_closed : ws_closed s' = ws_closed s;
  by_budget : ws_reconnect_attempts s' = ws_reconnect_attempts s;
  by_identity : ws_identity s' = ws_identity s;
  by_live : is_Some (cc_sender (rt_cell (ws_router s))) → is_Some (cc_sender (rt_cell (ws_router s')))
}.

(** Hand-offs, enqueued frames, the calls of handles and the writes of the
    authenticator are such. *)
Lemma hand_off_bystander frame correlation s : bystander s (hand_off frame correlation s).2.
Proof. unfold hand_off, try_send. repeat case_match; simplify_eq; by split. Qed.

Lemma enqueue_bystander frame s : bystander s (enqueue frame s).
Proof. unfold enqueue, try_send. repeat case_match; simplify_eq; by split. Qed.

Lemma router_bystander c s : handle_call c = true → bystander s (on_router (router_call c) s).
Proof.
  intros Hc. split; try done. cbn. assert (rt_cell (router_call c (ws_router s)) = rt_cell (ws_router s)) as ->; [|done].
  destruct c as [| |event|event b| | |b|event b]; try done; cbn.
  - unfold release_subscription. by case_match.
  - unfold release_acknowledgement. by repeat case_match.
  - unfold subscription_next. by repeat case_match.
  - unfold settled, release_acknowledgement. by repeat case_match.
Qed.

Lemma progress_bystander progress s c :
  cc_sender (rt_cell (ws_router s)) = Some c → is_terminal c = false → ending_of c (set_progress progress c) = None →
  bystander s (on_router (record_progress progress) s).
Proof.
  intros Hc Ht He. split; try done. intros _. cbn. unfold record_progress, moved, moved_with. rewrite Hc. cbn. rewrite He. cbn.
  assert (is_terminal (set_progress progress c) = false) as ->; [|done]. unfold is_terminal in *. by destruct c.
Qed.

(** The time from the loss of a connection on: [k] dials have failed. *)
Inductive outage (g : N) (s0 : WsSession) (w : Wake) : nat → WsSession → Prop :=
| outage_lost : outage g s0 w 0 (drive failure_debug w g s0).1
| outage_other k s s' : outage g s0 w k s → bystander s s' → outage g s0 w k s'
| outage_due k s g' : outage g s0 w k s → outage g s0 w k (drive failure_debug WakeRetry g' s).1
| outage_failed k s g' generation attempt dialled :
    outage g s0 w k s → ws_driver s = Dialling generation attempt → dialled ≠ DialOk →
    outage g s0 w (S k) (drive failure_debug (WakeDialled dialled) g' s).1.

(** The task waits to dial, or dials, for the [S k]-th time since the loss, and
    the connection is the lost one still. *)
Record redialling (s0 : WsSession) (generation : N) (k : nat) (s : WsSession) : Prop := {
  rd_driver : (∃ delay last, ws_driver s = Delaying generation (N.of_nat (S k)) delay last ∧
                 (delay ≤ CEILING)%N ∧ (delay ≤ BASE * 2 ^ N.of_nat k)%N) ∨
              ws_driver s = Dialling generation (N.of_nat (S k));
  rd_attempt : bo_attempt (ws_backoff s) = N.min (N.of_nat (S k)) u32_max;
  rd_open : ws_closed s = false;
  rd_budget : ws_reconnect_attempts s = ws_reconnect_attempts s0;
  rd_identity : ws_identity s = ws_identity s0;
  rd_live : is_Some (cc_sender (rt_cell (ws_router s)))
}.

Lemma await_retry_redialling s0 generation k last s :
  bo_attempt (ws_backoff s) = N.min (N.of_nat k) u32_max → ws_closed s = false →
  ws_reconnect_attempts s = ws_reconnect_attempts s0 → ws_identity s = ws_identity s0 →
  is_Some (cc_sender (rt_cell (ws_router s))) →
  redialling s0 generation k (await_retry generation (N.of_nat (S k)) last s) ∧
  ws_router (await_retry generation (N.of_nat (S k)) last s) = ws_router s.
Proof.
  intros Ha Hc Hb Hi Hl. pose proof (next_delay_bound (ws_backoff s)) as [Hd Hn]. unfold await_retry.
  destruct (next_delay (ws_backoff s)) as [delay b]. cbn in Hd, Hn. split; [|done]. split; cbn; try done.
  - left. exists delay, last. split; [done|]. destruct (doubled_le (bo_attempt (ws_backoff s))) as [H1 H2]. split; [lia|].
    etrans; [exact Hd|]. etrans; [exact H2|]. apply N.mul_le_mono_l, N.pow_le_mono_r; lia.
  - rewrite Hn, Ha. lia.
Qed.

(** The loss: what was queued is refused, and the first delay begins. *)
Lemma after_pump_lost s0 s reason g :
  ws_closed s = false → bo_attempt (ws_backoff s) = 0%N → is_Some (cc_sender (rt_cell (ws_router s))) →
  ws_reconnect_attempts s = ws_reconnect_attempts s0 → ws_identity s = ws_identity s0 → (g < u64_max)%N →
  let s' := (after_pump failure_debug reason g s).1 in
  redialling s0 (g + 1) 0 s' ∧ ws_router s' = ws_router s ∧ ws_outbound s' = [] ∧
  ∀ pending, pending ∈ ws_outbound s →
    (ob_ticket pending, NotHandedOff (ws_identity s0) (ob_correlation pending) reason) ∈ ws_completions s'.
Proof.
  intros Hopen Hfresh Hlive Hb Hi Hmint s'. unfold s', after_pump. rewrite drain_unsent_spec.
  cbn [ws_closed ws_set_outbound ws_set_completions]. rewrite Hopen. unfold reconnect_start, mint_generation, checked_succ.
  rewrite bool_decide_eq_true_2 by done. cbn [fst]. set (s1 := ws_set_outbound [] _).
  destruct (await_retry_redialling s0 (g + 1) 0 SessionClosed s1) as [Hr Hrouter]; [done..|].
  split_and!; [exact Hr|exact Hrouter| |].
  - unfold await_retry. by destruct (next_delay _).
  - intros pending Hin. unfold await_retry. destruct (next_delay _) as [delay b]. cbn. rewrite <- Hi.
    apply elem_of_app. right. apply list_elem_of_fmap. by exists pending.
Qed.

Lemma lost_redialling s w g :
  loses s w → ws_closed s = false → bo_attempt (ws_backoff s) = 0%N → is_Some (cc_sender (rt_cell (ws_router s))) → (g < u64_max)%N →
  let s' := (drive failure_debug w g s).1 in
  redialling s (g + 1) 0 s' ∧ ws_router s' = ws_router s ∧ ws_outbound s' = [] ∧
  ∀ pending, pending ∈ ws_outbound s →
    ∃ reason, (ob_ticket pending, NotHandedOff (ws_identity s) (ob_correlation pending) reason) ∈ ws_completions s'.
Proof.
  intros Hlost Hopen Hfresh Hlive Hmint.
  assert (Hmain : ∀ s1 reason, ws_closed s1 = false → ws_backoff s1 = ws_backoff s → ws_router s1 = ws_router s →
    ws_reconnect_attempts s1 = ws_reconnect_attempts s → ws_identity s1 = ws_identity s → ws_outbound s1 = ws_outbound s →
    let s' := (after_pump failure_debug reason g s1).1 in
    redialling s (g + 1) 0 s' ∧ ws_router s' = ws_router s ∧ ws_outbound s' = [] ∧
    ∀ pending, pending ∈ ws_outbound s →
      ∃ reason, (ob_ticket pending, NotHandedOff (ws_identity s) (ob_correlation pending) reason) ∈ ws_completions s').
  { intros s1 reason Hc Hb Hr Ha Hi Ho. destruct (after_pump_lost s s1 reason g) as (H1 & H2 & H3 & H4); rewrite ?Hr, ?Hb; try done.
    split_and!; [done|congruence|done|]. intros pending Hin. exists reason. apply H4. by rewrite Ho. }
  destruct Hlost as [Hd|Hd|reason Hd|text Hd|Hd|frame Hd Hsize|pending text Hd|pending Hd]; unfold drive; rewrite Hd; cbn;
    try (by apply Hmain).
  unfold admit_frame. rewrite bool_decide_eq_true_2 by done. cbn. by apply Hmain.
Qed.

(** The delay ends. *)
Lemma due_redialling s0 generation k g' s :
  redialling s0 generation k s →
  redialling s0 generation k (drive failure_debug WakeRetry g' s).1 ∧ ws_router (drive failure_debug WakeRetry g' s).1 = ws_router s.
Proof.
  intros [Hd Ha Ho Hb Hi Hl]. unfold drive. destruct Hd as [(delay & last & Hd & _)|Hd]; rewrite Hd; cbn.
  - unfold retry_due. rewrite Hd, Ho. split; [|done]. split; try done. by right.
  - split; [|done]. split; try done. by right.
Qed.

(** The router of a session whose last retry failed. *)
Lemma reconnect_failed_router attempts reason s c :
  cc_sender (rt_cell (ws_router s)) = Some c →
  let r := ws_router (reconnect_failed failure_debug attempts reason s) in
  rt_subscriptions r = ∅ ∧ rt_acknowledgements r = ∅ ∧
  cn_connectivity (cc_last (rt_cell r)) = Disconnected (BoundedText_new (failure_debug reason)) (Some (N.to_nat attempts)).
Proof.
  intros Hc. unfold reconnect_failed, drive_end. cbn [ws_router ws_set_driver ws_set_outbound on_router ws_set_router ws_set_closed].
  set (next := set_connectivity _).
  assert (Hnone : cc_sender (rt_cell (moved next (ws_router s))) = None) by (by apply moved_terminal).
  assert (Hclose : router_close (moved next (ws_router s)) = moved next (ws_router s)) by (by apply moved_with_closed).
  rewrite Hclose. unfold moved, moved_with. rewrite Hc. cbn.
  match goal with |- context [end_connection ?e ?r] => destruct (end_connection_spec e r) as (-> & -> & -> & _) end. done.
Qed.

(** A dial answers. *)
Lemma dialled_redialling s0 generation n k g' s dialled :
  redialling s0 generation k s → ws_reconnect_attempts s0 = Some (N.of_nat n) → k < n →
  (∃ generation' attempt, ws_driver s = Dialling generation' attempt) →
  let s' := (drive failure_debug (WakeDialled dialled) g' s).1 in
  match dialled with
  | DialOk =>
      ws_driver s' = Pumping ∧ ws_closed s' = false ∧ bo_attempt (ws_backoff s') = 0%N ∧
      ws_identity s' = mkSessionIdentity (ws_relay s0) generation ∧
      cc_last (rt_cell (ws_router s')) = mkConnection (mkSessionIdentity (ws_relay s0) generation) Connected unoffered
  | _ =>
      if bool_decide (S k < n) then redialling s0 generation (S k) s' ∧ ws_router s' = ws_router s
      else ws_driver s' = Stopped ∧ ws_closed s' = true ∧
           rt_subscriptions (ws_router s') = ∅ ∧ rt_acknowledgements (ws_router s') = ∅ ∧
           ∃ reason, cn_connectivity (cc_last (rt_cell (ws_router s'))) =
                     Disconnected (BoundedText_new (failure_debug reason)) (Some n)
  end.
Proof.
  intros [Hd Ha Ho Hb Hi [c Hl]] Hn Hk (generation' & attempt & Hdial) s'.
  destruct Hd as [(delay & last & Hd & _)|Hd]; [congruence|]. clear generation' attempt Hdial.
  assert (Hs' : s' = retry_dialled failure_debug (establish (ws_deadlines s) dialled) s) by (unfold s', drive; by rewrite Hd).
  assert (Hbud : budget s = N.of_nat n) by (unfold budget; by rewrite Hb, Hn).
  assert (Hfail : ∀ reason, establish (ws_deadlines s) dialled = Err reason →
    if bool_decide (S k < n) then redialling s0 generation (S k) s' ∧ ws_router s' = ws_router s
    else ws_driver s' = Stopped ∧ ws_closed s' = true ∧
         rt_subscriptions (ws_router s') = ∅ ∧ rt_acknowledgements (ws_router s') = ∅ ∧
         ∃ reason, cn_connectivity (cc_last (rt_cell (ws_router s'))) =
                   Disconnected (BoundedText_new (failure_debug reason)) (Some n)).
  { intros reason He. rewrite Hs'. unfold retry_dialled. rewrite Hd, He, Hbud. destruct (decide (S k < n)) as [Hlt|Hge].
    - rewrite !bool_decide_eq_true_2 by lia. replace (N.of_nat (S k) + 1)%N with (N.of_nat (S (S k))) by lia.
      apply await_retry_redialling; done.
    - rewrite !bool_decide_eq_false_2 by lia.
      destruct (reconnect_failed_router (N.of_nat n) reason s c Hl) as (H1 & H2 & H3). rewrite Nat2N.id in H3.
      split_and!; [done..|]. by exists reason. }
  destruct dialled; [by eapply Hfail|by eapply Hfail|]. rewrite Hs'. unfold retry_dialled. rewrite Hd. cbn [establish].
  assert (Hrel : ws_relay s = ws_relay s0) by (unfold ws_identity in Hi; by injection Hi).
  split_and!; [done|done|done|unfold ws_identity; cbn; by rewrite Hrel|].
  unfold reconnect_landed. cbn. erewrite moved_last by (exact Hl). unfold ws_identity. cbn. by rewrite Hrel.
Qed.

Lemma bystander_redialling s0 generation k s s' : bystander s s' → redialling s0 generation k s → redialling s0 generation k s'.
Proof.
  intros [B1 B2 B3 B4 B5 B6] [H1 H2 H3 H4 H5 H6]. split; rewrite ?B1, ?B2, ?B3, ?B4, ?B5; auto.
Qed.

(** C39. A lost connection is redialled within its budget and then given up for
    everyone.  However it is lost (silence, a failed keepalive, a close, an error
    or the end of the stream, an oversized frame, a write that fails or expires),
    what was still queued is refused, and whatever others do with the session
    meanwhile short of closing it: after [k] failed dials, fewer than the budget,
    it waits to dial again or dials under one new connection number, having waited
    at most 100 ms doubled with every attempt and never more than 30 s, and its
    own steps leave the router and so every handle alone.  A dial that answers
    puts the new connection in place, unauthenticated; when as many dials as the
    budget have failed, the task has stopped, the connection says for good how
    many attempts were spent, and no handle is left registered. *)
Theorem reconnect_spends_budget (s0 : WsSession) (w : Wake) (g : N) (n k : nat) (s : WsSession)
    (Hlost : loses s0 w) (Hopen : ws_closed s0 = false) (Hfresh : bo_attempt (ws_backoff s0) = 0%N)
    (Hlive : is_Some (cc_sender (rt_cell (ws_router s0))))
    (Hbudget : ws_reconnect_attempts s0 = Some (N.of_nat n)) (Hmint : (g < u64_max)%N)
    (Hout : outage g s0 w k s) (Hk : k < n) :
  (let s1 := (drive failure_debug w g s0).1 in
   ws_router s1 = ws_router s0 ∧ ws_outbound s1 = [] ∧
   ∀ pending, pending ∈ ws_outbound s0 →
     ∃ reason, (ob_ticket pending, NotHandedOff (ws_identity s0) (ob_correlation pending) reason) ∈ ws_completions s1) ∧
  redialling s0 (g + 1) k s ∧
  (∀ g', ws_router (drive failure_debug WakeRetry g' s).1 = ws_router s) ∧
  ∀ g' dialled, (∃ generation attempt, ws_driver s = Dialling generation attempt) →
    let s' := (drive failure_debug (WakeDialled dialled) g' s).1 in
    match dialled with
    | DialOk =>
        ws_driver s' = Pumping ∧ ws_closed s' = false ∧ bo_attempt (ws_backoff s') = 0%N ∧
        ws_identity s' = mkSessionIdentity (ws_relay s0) (g + 1) ∧
        cc_last (rt_cell (ws_router s')) = mkConnection (mkSessionIdentity (ws_relay s0) (g + 1)) Connected unoffered
    | _ =>
        if bool_decide (S k < n) then redialling s0 (g + 1) (S k) s' ∧ ws_router s' = ws_router s
        else ws_driver s' = Stopped ∧ ws_closed s' = true ∧
             rt_subscriptions (ws_router s') = ∅ ∧ rt_acknowledgements (ws_router s') = ∅ ∧
             ∃ reason, cn_connectivity (cc_last (rt_cell (ws_router s'))) =
                       Disconnected (BoundedText_new (failure_debug reason)) (Some n)
    end.
Proof.
  destruct (lost_redialling s0 w g Hlost Hopen Hfresh Hlive Hmint) as (Hfirst & Hrest). split; [done|].
  assert (Hr : redialling s0 (g + 1) k s).
  { clear Hrest. induction Hout as [|k s s' _ IH Hby|k s g' _ IH|k s g' generation attempt dialled _ IH Hd Hdial].
    - done.
    - eapply bystander_redialling; [done|]. by apply IH.
    - apply due_redialling. by apply IH.
    - pose proof (dialled_redialling s0 (g + 1) n k g' s dialled (IH ltac:(lia)) Hbudget ltac:(lia) ltac:(eauto)) as Hnext.
      rewrite bool_decide_eq_true_2 in Hnext by done. by destruct dialled; destruct Hnext. }
  split_and!; [done| |].
  - intros g'. by apply (due_redialling s0 (g + 1) k g' s Hr).
  - intros g' dialled Hd. by eapply dialled_redialling.
Qed.

(** A dead challenge's proof on a live socket.  While a lost connection is
    being redialled, the session still shows the question the lost connection
    asked, and [answer] takes it up; the frame waits in the queue, and when the
    dial lands it is handed to the new connection, which has been asked
    nothing. *)
Theorem dead_challenge_on_live_socket (s : WsSession) (g generation attempt : N) (c : Connection)
    (challenge frame : string) (event : Event)
    (Hdial : ws_driver s = Dialling generation attempt) (Hopen : ws_closed s = false)
    (Hlive : cc_sender (rt_cell (ws_router s)) = Some c) (Hconnected : cn_connectivity c = Connected)
    (Hasked : progress (cn_authentication c) = Requested challenge)
    (Hempty : ws_outbound s = []) (Hroom : 0 < bd_outbound_frames (ws_bounds s))
    (Hframe : encode_client (ClientAuth event) = Ok frame)
    (Hsize : String.length frame ≤ bd_max_frame_bytes (ws_bounds s)) :
  ∃ mailbox ticket s1, answer event s = (Ok (mailbox, ticket), s1) ∧
    let s2 := (drive failure_debug (WakeDialled DialOk) g s1).1 in
    let s3 := (drive failure_debug WakeOutbound g s2).1 in
    let s4 := (drive failure_debug (WakeWritten WroteFrame) g s3).1 in
    (ticket, HandedOff (mkSessionIdentity (ws_relay s) generation) 0) ∈ ws_completions s4 ∧
    cc_last (rt_cell (ws_router s2)) = mkConnection (mkSessionIdentity (ws_relay s) generation) Connected unoffered ∧
    ws_router s4 = ws_router s2.
Proof.
  unfold answer, answer_start, moved_with, take_up. rewrite Hlive, Hasked. cbn [fst snd].
  assert (Hterm : is_terminal (set_progress (Answering (ev_pubkey event)) c) = false)
    by (unfold is_terminal; cbn; by rewrite Hconnected).
  assert (Hend : ending_of c (set_progress (Answering (ev_pubkey event)) c) = None).
  { unfold ending_of. cbn. rewrite Hconnected. by rewrite bool_decide_eq_false_2 by naive_solver. }
  rewrite Hterm, Hend. set (r := rt_set_cell _ (ws_router s)).
  destruct (await_acknowledgement (ev_id event) r) as [mailbox r'] eqn:Ea.
  assert (Hr' : rt_cell r' = rt_cell r) by (unfold await_acknowledgement in Ea; by injection Ea as <- <-).
  unfold encoded. rewrite Hframe. cbn [hand_off_encoded]. unfold hand_off. cbn [ws_bounds ws_set_router ws_closed].
  rewrite bool_decide_eq_false_2 by lia. rewrite Hopen. unfold try_send. cbn [ws_driver ws_set_router ws_bounds ws_outbound].
  rewrite Hdial, Hempty. cbn [length]. rewrite bool_decide_eq_false_2 by lia.
  do 3 eexists. split; [reflexivity|]. cbn zeta.
  set (s1 := ws_set_outbound _ _). set (s2 := (drive failure_debug (WakeDialled DialOk) g s1).1).
  assert (Hs2 : s2 = reconnect_landed generation s1).
  { unfold s2, drive, s1. cbn. rewrite Hdial. unfold retry_dialled. cbn. by rewrite Hdial. }
  assert (Hq : ws_outbound s2 = [mkOutbound frame 0 (ws_tickets s)] ∧ ws_driver s2 = Pumping ∧
               ws_identity s2 = mkSessionIdentity (ws_relay s) generation) by (rewrite Hs2; done).
  destruct Hq as (Hq & Hd2 & Hi2).
  set (s3 := (drive failure_debug WakeOutbound g s2).1).
  assert (Hs3 : s3 = ws_set_driver (Writing (mkOutbound frame 0 (ws_tickets s))) (ws_set_outbound [] s2)).
  { unfold s3, drive. by rewrite Hd2, Hq. }
  split_and!.
  - unfold drive. rewrite Hs3. cbn. rewrite elem_of_app. right. rewrite list_elem_of_singleton. unfold ws_identity at 1. cbn.
    unfold ws_identity in Hi2. by rewrite Hi2.
  - rewrite Hs2. unfold reconnect_landed. cbn [advance ws_router ws_set_driver on_router ws_set_router ws_set_generation ws_set_backoff s1 ws_set_outbound ws_set_tickets].
    erewrite moved_last; [reflexivity|]. rewrite Hr'. reflexivity.
  - unfold drive. rewrite Hs3. done.
Qed.
End reconnecting.

(** ** A small run *)

Module WebSocketWitness.
#[local] Existing Instance TransportWitness.wire.
Definition debug : TransportFailure → string := λ _, "failure".
Definition request : OpenRelaySession :=
  mkOpenRelaySession "wss://relay.example" Unauthenticated (mkDeadlines 10 10 60 5) (mkBounds 2 2 512) (Some 2).
Definition shared : WsSession := SessionShared_new request 0 1.
Definition dialling : WsTransport := (acquire_start request WebSocketTransport_new).2.
Definition running : WsTransport := (acquire_finish request shared DialOk dialling).2.
(** A second holder, a subscription, and a frame written. *)
Definition shared_by_two : WsTransport := (acquire_start request running).2.
Definition subscribed : WsTransport := (subscribe 0 [] shared_by_two).2.

Lemma dialling_reachable : transport_reachable debug (dialling, [(request, shared)]).
Proof. eapply reachable_step; [constructor|]. by apply (step_dial debug request WebSocketTransport_new [] shared). Qed.

Lemma running_reachable : transport_reachable debug (running, []).
Proof. eapply reachable_step; [apply dialling_reachable|]. apply (step_dialled debug dialling [] request shared [] DialOk). Qed.

Lemma shared_reachable : transport_reachable debug (shared_by_two, []).
Proof.
  eapply reachable_step; [apply running_reachable|]. apply (step_reuse debug request running [] 0). vm_compute. reflexivity.
Qed.

Lemma subscribed_reachable : transport_reachable debug (subscribed, []).
Proof. eapply reachable_step; [apply shared_reachable|]. by apply (step_subscribe debug shared_by_two [] 0 []). Qed.

Lemma transport_invariant_witness :
  tp_leases subscribed = [0; 0] ∧ holders "wss://relay.example" Unauthenticated subscribed = Some 2 ∧
  ∀ i, i ∈ tp_leases subscribed → i ∈ sessions subscribed.
Proof.
  split; [vm_compute; reflexivity|]. split; [vm_compute; reflexivity|].
  exact (proj1 (proj2 (transport_invariant debug subscribed [] subscribed_reachable)) eq_refl).
Defined.

Lemma release_counts_witness :
  (release 0 subscribed).1 = Ok (Retained 1) ∧ released 0 subscribed (release 0 subscribed).1 (release 0 subscribed).2.
Proof.
  split; [vm_compute; reflexivity|].
  apply (release_counts debug subscribed [] subscribed_reachable 0); [|reflexivity].
  change (0 ∈ [0; 0]). left.
Defined.

Definition shut_down : WsTransport := (shutdown_start dialling).2.

Lemma shutdown_misses_dial_witness :
  ∃ i t' s, acquire_finish request shared DialOk shut_down = (Ok i, t') ∧ tp_shutting_down t' = true ∧
    i ∈ sessions t' ∧ tp_sessions t' !! i = Some s ∧ ws_closed s = false ∧ ws_driver s = Pumping.
Proof.
  apply (shutdown_misses_dial debug shut_down [] [] request shared); [|reflexivity|vm_compute; reflexivity].
  eapply reachable_step; [apply dialling_reachable|]. apply (step_shutdown debug dialling).
Defined.

(** A write fails with a frame still queued behind it; a frame is handed off
    between two dials; the second failed dial spends the budget of two. *)
Definition one_queued : WsSession := (hand_off "first" 1 shared).2.
Definition two_queued : WsSession := (hand_off "second" 2 one_queued).2.
Definition mid_write : WsSession := (drive debug WakeOutbound 1 two_queued).1.
Definition broken_pipe : Wake := WakeWritten (WriteError "broken pipe").
Definition once_failed : WsSession :=
  (drive debug (WakeDialled DialTimeout) 2 (drive debug WakeRetry 2 (drive debug broken_pipe 1 mid_write).1).1).1.
Definition dialling_again : WsSession := (drive debug WakeRetry 2 (hand_off "third" 3 once_failed).2).1.

Lemma dialling_again_outage : outage debug 1 mid_write broken_pipe 1 dialling_again.
Proof.
  apply outage_due. eapply outage_other; [|apply hand_off_bystander]. eapply outage_failed; [apply outage_due, outage_lost|vm_compute; reflexivity|discriminate].
Qed.

Lemma reconnect_spends_budget_witness :
  (1, NotHandedOff (mkSessionIdentity "wss://relay.example" 1) 2 (FailureDisconnected (BoundedText_new "broken pipe"))) ∈
    ws_completions (drive debug broken_pipe 1 mid_write).1 ∧
  let s' := (drive debug (WakeDialled (DialError "refused")) 2 dialling_again).1 in
  ws_driver s' = Stopped ∧ ∃ reason, cn_connectivity (cc_last (rt_cell (ws_router s'))) =
    Disconnected (BoundedText_new (debug reason)) (Some 2).
Proof.
  destruct (reconnect_spends_budget debug mid_write broken_pipe 1 2 1 dialling_again) as (_ & _ & _ & Hdial).
  - eapply lost_write_error. vm_compute. reflexivity.
  - vm_compute. reflexivity.
  - vm_compute. reflexivity.
  - eexists. vm_compute. reflexivity.
  - vm_compute. reflexivity.
  - vm_compute. reflexivity.
  - exact dialling_again_outage.
  - lia.
  - split; [vm_compute; apply list_elem_of_In; right; left; reflexivity|]. intros s'.
    destruct (Hdial 2%N (DialError "refused")) as (Hd & _ & _ & _ & Hc).
    + eexists _, _. vm_compute. reflexivity.
    + split; [exact Hd|exact Hc].
Defined.

(** The relay asked on connection 1; connection 2 is being dialled. *)
Definition asked : WsSession :=
  ws_set_driver (Dialling 2 1) (on_router (deliver (MsgAuth "challenge")) shared).
Definition proof_event : Event := mkEvent 9 1 100 22242 [["challenge"; "challenge"]] "" 0.

Lemma dead_challenge_on_live_socket_witness :
  ∃ mailbox ticket s1, answer proof_event asked = (Ok (mailbox, ticket), s1) ∧
    (ticket, HandedOff (mkSessionIdentity "wss://relay.example" 2) 0) ∈
      ws_completions (drive debug (WakeWritten WroteFrame) 2
        (drive debug WakeOutbound 2 (drive debug (WakeDialled DialOk) 2 s1).1).1).1.
Proof.
  edestruct (dead_challenge_on_live_socket debug asked 2 2 1
    (set_progress (Requested "challenge") (set_connectivity Connected (Connection_opening (mkSessionIdentity "wss://relay.example" 1))))
    "challenge" "[]" proof_event) as (mailbox & ticket & s1 & Ha & Hin & _).
  1-6: reflexivity.
  - cbn. lia.
  - reflexivity.
  - cbn. lia.
  - exists mailbox, ticket, s1. split; [exact Ha|exact Hin].
Defined.
End WebSocketWitness.
