(* ===== verification/Auth.v ===== *)
(** * Relay authentication ([crates/fava-auth])

    The owner of every NIP-42 challenge.  The transport announces a connection
    whose relay asked; the owner reads the question off the connection, lets the
    application's policy decide, has the account's signer sign the answer, sends
    it, and writes the relay's verdict back to the connection.

    Signing, the hand-off of the answer and the relay's verdict are awaited, so
    each is a task of the state and the code after the [await] a definition that
    takes the result.  The check of [record_accepted] and its write are two more
    steps, because the connection can be replaced between them.  The sessions, which other components open and whose
    connections the transport replaces, are shared: the state holds what the
    owner sees of each ([identity()], [router()], and whether anyone still holds
    it).  The clock, the policy and the debug form of an outcome are parameters;
    the runtime is assumed to accept the tasks it is given. *)

From S2P Require Import Prelude Nostr Relay Write Session Edits Publication Transport.

(** ** Challenges ([challenge.rs], [demand.rs], [policy.rs]) *)

Definition CHALLENGE_MAX_BYTES : nat := 512.

Inductive ChallengeError := ChallengeEmpty | ChallengeTooLarge (bytes maximum : nat).

Definition Challenge_new (text : string) : result ChallengeError string :=
  if bool_decide (text = ""%string) then Err ChallengeEmpty
  else if bool_decide (CHALLENGE_MAX_BYTES < String.length text)
  then Err (ChallengeTooLarge (String.length text) CHALLENGE_MAX_BYTES)
  else Ok text.

Definition challenge_error_text (e : ChallengeError) : string :=
  match e with
  | ChallengeEmpty => "relay challenge was empty"
  | ChallengeTooLarge bytes maximum =>
      "relay challenge is " +:+ pretty (N.of_nat bytes) +:+ " bytes, maximum " +:+ pretty (N.of_nat maximum)
  end.

Record AuthenticationDemand := mkDemand {
  ad_session : RelaySessionIdentity;
  ad_challenge : string
}.

Inductive AuthenticationDecision := Authenticate (as_of : PublicKey) | Decline | Defer.

Definition MAX_ATTEMPTS : N := 8.

(** ** The response ([event.rs]) *)

Definition AUTHENTICATION : Kind := 22242%N.

Section response.
Context `{Nostr} `{NostrBytes}.

Definition auth_event (now : Timestamp) (identity : PublicKey) (relay : RelayUrl) (challenge : string) :
    result EventBuildError UnsignedEvent :=
  match tag_parse ["relay"%string; relay] with
  | Err error => Err (BuildEncoding error)
  | Ok relay_tag =>
      match tag_parse ["challenge"%string; challenge] with
      | Err error => Err (BuildEncoding error)
      | Ok challenge_tag =>
          build (builder_by identity (builder_tag challenge_tag (builder_tag relay_tag (EventBuilder_new now AUTHENTICATION))))
      end
  end.
End response.

(** ** The owner ([authenticator.rs]) *)

#[global] Instance RelaySessionIdentity_countable : Countable RelaySessionIdentity.
Proof.
  apply (inj_countable' (λ i, (si_relay i, si_connection i)) (λ p, mkSessionIdentity p.1 p.2)). by intros [].
Defined.

(** A session as its holders see it. *)
Record AuthSession := mkAuthSession {
  au_identity : RelaySessionIdentity;
  au_router : Router;
  au_alive : bool
}.

(** The tasks of the owner: waiting for the signature asked of the signer attached
    under a generation; for the completion of the frame of an answer; for the
    relay's verdict; about to act on it; about to write that the account was
    accepted, the identity having been checked. *)
Inductive AuthTask :=
| AuthSigning (demand : AuthenticationDemand) (account : PublicKey) (session : nat) (generation : N) (unsigned : UnsignedEvent)
| AuthSending (demand : AuthenticationDemand) (account : PublicKey) (session : nat) (event : EventId) (mailbox : nat)
    (frame : string) (completion : option HandoffOutcome)
| AuthVerdict (identity : RelaySessionIdentity) (account : PublicKey) (session : nat) (handle : RoutedAcknowledgement)
| AuthRuled (identity : RelaySessionIdentity) (account : PublicKey) (session : nat) (settlement : Settlement)
| AuthAccepting (identity : RelaySessionIdentity) (account : PublicKey) (session : nat).

Record Authenticator := mkAuthenticator {
  an_attempts : gmap RelaySessionIdentity (N * nat);
  an_lagged : N;
  an_transport : bool;
  an_sessions : list AuthSession;
  an_tasks : list AuthTask
}.

Definition an_set_attempts v a := mkAuthenticator v (an_lagged a) (an_transport a) (an_sessions a) (an_tasks a).
Definition an_set_lagged v a := mkAuthenticator (an_attempts a) v (an_transport a) (an_sessions a) (an_tasks a).
Definition an_set_transport v a := mkAuthenticator (an_attempts a) (an_lagged a) v (an_sessions a) (an_tasks a).
Definition an_set_sessions v a := mkAuthenticator (an_attempts a) (an_lagged a) (an_transport a) v (an_tasks a).
Definition an_set_tasks v a := mkAuthenticator (an_attempts a) (an_lagged a) (an_transport a) (an_sessions a) v.

Definition Authenticator_new (sessions : list AuthSession) : Authenticator := mkAuthenticator ∅ 0 false sessions [].

(** Writes through a session's router. *)
Definition au_on_router (f : Router → Router) (s : AuthSession) : AuthSession :=
  mkAuthSession (au_identity s) (f (au_router s)) (au_alive s).
Definition an_on_session (session : nat) (f : Router → Router) (a : Authenticator) : Authenticator :=
  an_set_sessions (alter (au_on_router f) session (an_sessions a)) a.

Definition spawn (task : AuthTask) (a : Authenticator) : Authenticator := an_set_tasks (an_tasks a ++ [task]) a.

Definition identity_still_live (sessions : list AuthSession) (identity : RelaySessionIdentity) (session : nat) : bool :=
  match sessions !! session with
  | Some s => au_alive s && bool_decide (au_identity s = identity)
  | None => false
  end.

Definition prune_stale (sessions : list AuthSession) (attempts : gmap RelaySessionIdentity (N * nat)) :
    gmap RelaySessionIdentity (N * nat) :=
  filter (λ p, identity_still_live sessions p.1 p.2.2 = true) attempts.

Definition is_answering (p : Progress) : bool := match p with Answering _ => true | _ => false end.

(** One more answer spent on a connection. *)
Definition count_attempt (identity : RelaySessionIdentity) (session : nat) (a : Authenticator) : Authenticator :=
  let attempts := prune_stale (an_sessions a) (an_attempts a) in
  let '(spent, held) := default (0%N, session) (attempts !! identity) in
  an_set_attempts (<[identity := (N.min (spent + 1) u32_max, held)]> attempts) a.

Definition record (identity : RelaySessionIdentity) (session : nat) (progress : Progress) (a : Authenticator) : bool * Authenticator :=
  match an_sessions a !! session with
  | None => (false, a)
  | Some s =>
      if bool_decide (au_identity s ≠ identity) then (false, a)
      else (true, an_on_session session (record_progress progress)
                    (if is_answering progress then count_attempt identity session a else a))
  end.

(** [record_accepted]: the check of the identity, and the write. *)
Definition auth_record_accepted (identity : RelaySessionIdentity) (session : nat) (account : PublicKey) (a : Authenticator) :
    bool * Authenticator :=
  match an_sessions a !! session with
  | None => (false, a)
  | Some s =>
      if bool_decide (au_identity s ≠ identity) then (false, a)
      else (true, spawn (AuthAccepting identity account session) a)
  end.

Definition auth_write_accepted (session : nat) (account : PublicKey) (a : Authenticator) : Authenticator :=
  an_on_session session (record_accepted account) a.

Definition record_lagged (skipped : N) (a : Authenticator) : Authenticator :=
  an_set_lagged (N.min (an_lagged a + skipped) u64_max) a.

Definition unanswerable (reason : string) : Progress := Unanswerable (BoundedText_new reason).

(** The question in front of a connection, as its watch shows it. *)
Definition question (s : AuthSession) : option string :=
  match progress (cn_authentication (cc_last (rt_cell (au_router s)))) with Requested challenge => Some challenge | _ => None end.

Section owner.
Context {signer future : Type} `{Nostr} `{NostrBytes} `{!Signer signer future} `{Wire}.
Context (policy : AuthenticationDemand → AuthenticationDecision) (handoff_debug : HandoffOutcome → string).
Abbreviation Signers := (@Session signer).

(** [authenticate] up to the signature. *)
Definition authenticate (now : Timestamp) (signers : Signers) (demand : AuthenticationDemand) (account : PublicKey)
    (session : nat) (a : Authenticator) : Authenticator :=
  let identity := ad_session demand in
  match auth_event now account (si_relay identity) (ad_challenge demand) with
  | Err error => (record identity session (unanswerable (intent_error_text (intent_error_from error))) a).2
  | Ok unsigned =>
      match session_signer signers account with
      | None => (record identity session (unanswerable "no signer is attached for this account") a).2
      | Some (generation, _) =>
          match invoke_signer signers account generation unsigned with
          | None => (record identity session (unanswerable "the signer was detached before the response was signed") a).2
          | Some _ => spawn (AuthSigning demand account session generation unsigned) a
          end
      end
  end.

(** The hand-off of the answer was refused. *)
Definition answer_refused (demand : AuthenticationDemand) (session : nat) (refused : HandoffOutcome) (a : Authenticator) :
    Authenticator :=
  (record (ad_session demand) session (unanswerable (handoff_debug refused)) a).2.

(** The signature arrived: [answer] takes up the question and sends. *)
Definition authenticate_signed (demand : AuthenticationDemand) (account : PublicKey) (session : nat)
    (signed : result SignerError Event) (a : Authenticator) : Authenticator :=
  match signed with
  | Err error => (record (ad_session demand) session (unanswerable (signer_error_text error)) a).2
  | Ok event =>
      match an_sessions a !! session with
      | None => a
      | Some s =>
          match answer_start (au_identity s) event (au_router s) with
          | (Err refused, r) => answer_refused demand session refused (an_on_session session (λ _, r) a)
          | (Ok (mailbox, Err refused), r) =>
              answer_refused demand session refused
                (an_on_session session (λ _, release_acknowledgement (ev_id event) mailbox r) a)
          | (Ok (mailbox, Ok frame), r) =>
              spawn (AuthSending demand account session (ev_id event) mailbox frame None) (an_on_session session (λ _, r) a)
          end
      end
  end.

(** The hand-off completed; the verdict is awaited off to the side. *)
Definition authenticate_sent (demand : AuthenticationDemand) (account : PublicKey) (session : nat) (event : EventId)
    (mailbox : nat) (outcome : HandoffOutcome) (a : Authenticator) : Authenticator :=
  match an_sessions a !! session with
  | None => a
  | Some s =>
      match publish_finish event mailbox outcome (au_router s) with
      | (Err refused, r) => answer_refused demand session refused (an_on_session session (λ _, r) a)
      | (Ok handle, r) =>
          spawn (AuthVerdict (ad_session demand) account session handle)
            (record (ad_session demand) session (Answering account) (an_on_session session (λ _, r) a)).2
      end
  end.

(** The relay's verdict, once there is one. *)
Definition verdict (identity : RelaySessionIdentity) (account : PublicKey) (session : nat)
    (handle : RoutedAcknowledgement) (a : Authenticator) : option Authenticator :=
  s ← an_sessions a !! session;
  match settled handle (au_router s) with
  | (None, _) => None
  | (Some settlement, r) =>
      Some (spawn (AuthRuled identity account session settlement) (an_on_session session (λ _, r) a))
  end.

(** What the owner makes of it. *)
Definition ruled (identity : RelaySessionIdentity) (account : PublicKey) (session : nat) (settlement : Settlement)
    (a : Authenticator) : Authenticator :=
  match settlement with
  | SettledAccepted _ => (auth_record_accepted identity session account a).2
  | SettledRejected message => (record identity session (AuthRefused message) a).2
  | SettledEnded _ => a
  end.

(** [resolve]: decide one challenge and act on the decision. *)
Definition resolve (now : Timestamp) (signers : Signers) (identity : RelaySessionIdentity) (challenge : string)
    (session : nat) (a : Authenticator) : Authenticator :=
  let demand := mkDemand identity challenge in
  let attempts := from_option fst 0%N (an_attempts a !! identity) in
  if bool_decide (MAX_ATTEMPTS ≤ attempts)%N
  then (record identity session (unanswerable ("relay re-challenged past the " +:+ pretty MAX_ATTEMPTS +:+ " attempt bound")) a).2
  else match policy demand with
       | Decline => (record identity session Declined a).2
       | Defer => a
       | Authenticate as_of => authenticate now signers demand as_of session a
       end.

(** [asked]: one relay asked this session to authenticate. *)
Definition asked (now : Timestamp) (signers : Signers) (session : nat) (a : Authenticator) : Authenticator :=
  match an_sessions a !! session with
  | None => a
  | Some s =>
      match question s with
      | None => a
      | Some challenge =>
          let identity := cn_identity (cc_last (rt_cell (au_router s))) in
          match Challenge_new challenge with
          | Ok challenge => resolve now signers identity challenge session a
          | Err error => (record identity session (unanswerable (challenge_error_text error)) a).2
          end
      end
  end.

(** A person's answer ([answer.rs]); [waiting] is what the transport's
    [awaiting_authentication] lists. *)
Inductive AnswerError := AnswerUnknown | DeferredAgain.

Definition person_answer (now : Timestamp) (signers : Signers) (waiting : list nat) (connection : RelaySessionIdentity)
    (decision : AuthenticationDecision) (a : Authenticator) : result AnswerError unit * Authenticator :=
  match decision with
  | Defer => (Err DeferredAgain, a)
  | _ =>
      let candidates := if an_transport a then waiting else [] in
      match List.find (λ i, match an_sessions a !! i with
                            | Some s => bool_decide (au_identity s = connection) | None => false end) candidates with
      | None => (Err AnswerUnknown, a)
      | Some session =>
          match an_sessions a !! session ≫= question with
          | None => (Err AnswerUnknown, a)
          | Some text =>
              match Challenge_new text with
              | Err error => (Ok tt, (record connection session (unanswerable (challenge_error_text error)) a).2)
              | Ok challenge =>
                  (Ok tt, match decision with
                          | Authenticate as_of => authenticate now signers (mkDemand connection challenge) as_of session a
                          | _ => (record connection session Declined a).2
                          end)
              end
          end
      end
  end.
End owner.

(** [pending]: the identities of the sessions the transport lists as waiting. *)
Definition pending (waiting : list nat) (a : Authenticator) : list RelaySessionIdentity :=
  if an_transport a then omap (λ i, au_identity <$> an_sessions a !! i) waiting else [].
