(* ===== verification/AuthProps.v ===== *)
(** * What the authenticator promises ([crates/fava-auth])

    An account is established only by the relay's acceptance of an answer the
    account's signer signed and the connection carried; answers given one at a
    time stay within the bound.  Four theorems show where concurrent questions
    and reconnects escape these rules. *)

From S2P Require Import Prelude Nostr Relay Write Session Edits Publication Transport TransportProps.
From S2P Require Import WebSocketProps Auth.

Definition authentication_of (s : AuthSession) : Authentication := cn_authentication (cc_last (rt_cell (au_router s))).
Definition established_as (s : AuthSession) : option PublicKey := established (authentication_of s).

(** ** The cell of a router under its operations *)









Lemma await_cell event r : rt_cell (await_acknowledgement event r).2 = rt_cell r.
Proof. done. Qed.

(** ** Where a verdict comes from *)

(** A mailbox that waits for the verdict on one event: what it holds as accepted
    was [heard] for that event. *)
Definition box_for (heard : EventId → BoundedText → Prop) (id : EventId) (b : nat) (r : Router) : Prop :=
  (∃ m, rt_ack_boxes r !! b = Some m ∧ ∀ t, SettledAccepted t ∈ mb_items m → heard id t) ∧
  ∀ e l, rt_acknowledgements r !! e = Some l → b ∈ l → e = id.










Section router.
Context `{Wire}.





(** Calls that neither move the connection nor carry a message. *)
Definition quiet_call (c : RouterCall) : bool :=
  match c with CallMoved _ | CallDeliver _ => false | _ => true end.







End router.

(** ** What the owner's own work leaves alone *)

(** The connection a session wears is the one of an identity, or a later one. *)
Definition behind (identity current : RelaySessionIdentity) : Prop :=
  si_relay identity = si_relay current ∧ (si_connection identity ≤ si_connection current)%N.

#[global] Instance behind_preorder : PreOrder behind.
Proof. split; [by intros|]. intros a b c [? ?] [? ?]. split; [congruence|lia]. Qed.


Record session_ok (s : AuthSession) : Prop := {
  sk_router : router_ok (au_router s);
  sk_identity : behind (cn_identity (cc_last (rt_cell (au_router s)))) (au_identity s)
}.

(** A session stays the connection it was, with the account it had, and its
    mailboxes hear nothing new. *)
Record session_keeps (s s' : AuthSession) : Prop := {
  kp_router : router_ok (au_router s) → router_ok (au_router s');
  kp_identity : au_identity s' = au_identity s;
  kp_cell : router_ok (au_router s) → cn_identity (cc_last (rt_cell (au_router s'))) = cn_identity (cc_last (rt_cell (au_router s)));
  kp_established : router_ok (au_router s) → established_as s' = established_as s;
  kp_box heard id b : box_for heard id b (au_router s) → box_for heard id b (au_router s')
}.

#[global] Instance session_keeps_preorder : PreOrder session_keeps.
Proof.
  split; [by intros s; split|]. intros a b c [H1 H2 H3 H4 H5] [K1 K2 K3 K4 K5]. split; [auto|congruence| |..|eauto].
  - intros Hr. rewrite K3 by auto. auto.
  - intros Hr. rewrite K4 by auto. auto.
Qed.

Definition keeps (a a' : Authenticator) : Prop :=
  length (an_sessions a') = length (an_sessions a) ∧
  ∀ i s, an_sessions a !! i = Some s → ∃ s', an_sessions a' !! i = Some s' ∧ session_keeps s s'.

#[global] Instance keeps_preorder : PreOrder keeps.
Proof.
  split; [intros a; split; [done|]; intros i s Hs; by exists s|]. intros a b c [L1 Hab] [L2 Hbc]. split; [congruence|]. intros i s Hs.
  destruct (Hab i s Hs) as (s1 & Hs1 & Hk1). destruct (Hbc i s1 Hs1) as (s2 & Hs2 & Hk2).
  exists s2. split; [done|]. by etrans.
Qed.








Section owner.
Context {signer future : Type} `{Nostr} `{NostrBytes} `{!Signer signer future} `{Wire}.
Context (policy : AuthenticationDemand → AuthenticationDecision) (handoff_debug : HandoffOutcome → string).













(** ** Runs of the owner and of the world around it *)

(** The driver replaces a connection: the identity first, then the connection
    the router shows ([driver.rs], [drive]). *)
Definition advanced (identity : RelaySessionIdentity) (s : AuthSession) : AuthSession :=
  mkAuthSession identity (au_router s) (au_alive s).
Definition reconnected (s : AuthSession) : AuthSession :=
  au_on_router (moved (λ _, mkConnection (au_identity s) Connected unoffered)) s.

Definition take_task (l1 l2 : list AuthTask) (a : Authenticator) : Authenticator := an_set_tasks (l1 ++ l2) a.

(** What a run shows from outside: a signature the signer answered, a frame the
    transport handed off on a connection, an [OK] with [true] heard on a session. *)
Inductive AuthDid :=
| DidSign (demand : AuthenticationDemand) (account : PublicKey) (session : nat) (generation : N) (unsigned : UnsignedEvent)
    (event : Event)
| DidHandOff (demand : AuthenticationDemand) (account : PublicKey) (session : nat) (event : EventId) (mailbox : nat)
    (frame : string) (on : RelaySessionIdentity) (correlation : N)
| DidHear (session : nat) (event : EventId) (text : string).

Definition signature (demand : AuthenticationDemand) (account : PublicKey) (session : nat) (generation : N)
    (unsigned : UnsignedEvent) (signed : result SignerError Event) : list AuthDid :=
  match signed with Ok event => [DidSign demand account session generation unsigned event] | Err _ => [] end.
Definition hand_off (demand : AuthenticationDemand) (account : PublicKey) (session : nat) (event : EventId) (mailbox : nat)
    (frame : string) (outcome : HandoffOutcome) : list AuthDid :=
  match outcome with
  | HandedOff on correlation => [DidHandOff demand account session event mailbox frame on correlation]
  | _ => []
  end.
Definition acceptance (session : nat) (message : RelayMessage) : list AuthDid :=
  match message with MsgOk event true text => [DidHear session event text] | _ => [] end.

(** One turn of a task, or of the world.  A frame is handed off on the connection
    the session wears when it is written, and connections are numbered upwards.
    Sessions opened later are in the list from the start, untouched. *)
Inductive auth_turn : Authenticator → list AuthDid → Authenticator → Prop :=
| step_asked a now (signers : @Session signer) i : auth_turn a [] (asked policy now signers i a)
| step_person a now (signers : @Session signer) waiting connection decision :
    auth_turn a [] (person_answer now signers waiting connection decision a).2
| step_signed a l1 demand account i generation unsigned l2 signed :
    an_tasks a = l1 ++ AuthSigning demand account i generation unsigned :: l2 →
    auth_turn a (signature demand account i generation unsigned signed)
      (authenticate_signed handoff_debug demand account i signed (take_task l1 l2 a))
| step_written a l1 demand account i event b frame l2 outcome s :
    an_tasks a = l1 ++ AuthSending demand account i event b frame None :: l2 → an_sessions a !! i = Some s →
    (∀ on correlation, outcome = HandedOff on correlation → on = au_identity s) →
    auth_turn a (hand_off demand account i event b frame outcome)
      (an_set_tasks (l1 ++ AuthSending demand account i event b frame (Some outcome) :: l2) a)
| step_sent a l1 demand account i event b frame l2 outcome :
    an_tasks a = l1 ++ AuthSending demand account i event b frame (Some outcome) :: l2 →
    auth_turn a [] (authenticate_sent handoff_debug demand account i event b outcome (take_task l1 l2 a))
| step_verdict a l1 identity account i handle l2 a' :
    an_tasks a = l1 ++ AuthVerdict identity account i handle :: l2 →
    verdict identity account i handle (take_task l1 l2 a) = Some a' → auth_turn a [] a'
| step_ruled a l1 identity account i settlement l2 :
    an_tasks a = l1 ++ AuthRuled identity account i settlement :: l2 →
    auth_turn a [] (ruled identity account i settlement (take_task l1 l2 a))
| step_accepting a l1 identity account i l2 :
    an_tasks a = l1 ++ AuthAccepting identity account i :: l2 →
    auth_turn a [] (auth_write_accepted i account (take_task l1 l2 a))
| step_lagged a skipped : auth_turn a [] (record_lagged skipped a)
| step_message a i message : auth_turn a (acceptance i message) (an_on_session i (deliver message) a)
| step_advanced a i s identity :
    an_sessions a !! i = Some s → si_relay identity = si_relay (au_identity s) →
    (si_connection (au_identity s) < si_connection identity)%N →
    auth_turn a [] (an_set_sessions (alter (advanced identity) i (an_sessions a)) a)
| step_reconnected a i : auth_turn a [] (an_set_sessions (alter reconnected i (an_sessions a)) a)
| step_ended a i detail spent : auth_turn a [] (an_on_session i (moved (set_connectivity (Disconnected detail spent))) a)
| step_other a i c :
    quiet_call c = true → (∀ s, an_sessions a !! i = Some s → fresh_call (au_router s) c) →
    auth_turn a [] (an_on_session i (router_call c) a)
| step_dropped a i :
    auth_turn a [] (an_set_sessions (alter (λ s, mkAuthSession (au_identity s) (au_router s) false) i (an_sessions a)) a).

(** [record] checks the identity, counts and writes, and [authenticate] follows
    the read of the question; other work can fall between.  A run may therefore
    also write any progress and any counts at any time, and act on a question
    read before. *)
Inductive auth_step : Authenticator → list AuthDid → Authenticator → Prop :=
| step_turn a dids a' : auth_turn a dids a' → auth_step a dids a'
| step_late_record a i p attempts : auth_step a [] (an_on_session i (record_progress p) (an_set_attempts attempts a))
| step_late_decision a now (signers : @Session signer) demand account i s :
    an_sessions a !! i = Some s → behind (ad_session demand) (au_identity s) →
    auth_step a [] (authenticate now signers demand account i a).

(** Runs, with what they have shown. *)
Inductive auth_run : list AuthDid → Authenticator → Prop :=
| auth_new sessions : Forall session_ok sessions → auth_run [] (Authenticator_new sessions)
| auth_next h a dids a' : auth_run h a → auth_step a dids a' → auth_run (h ++ dids) a'.

(** ** Where a task comes from *)


Definition heard (h : list AuthDid) (i : nat) (id : EventId) (t : BoundedText) : Prop :=
  ∃ text, DidHear i id text ∈ h ∧ t = BoundedText_new text.


























Lemma on_session_self i f a s : an_sessions a !! i = Some s → an_sessions (an_on_session i f a) !! i = Some (au_on_router f s).
Proof. intros Hs. cbn. by rewrite list_lookup_alter_eq, Hs. Qed.
























(** ** The bound on answers *)

(** Answers decided for a connection whose hand-off is not over. *)
Definition in_flight (identity : RelaySessionIdentity) (task : AuthTask) : bool :=
  match task with
  | AuthSigning demand _ _ _ _ | AuthSending demand _ _ _ _ _ _ => bool_decide (ad_session demand = identity)
  | _ => false
  end.

Definition unsettled (identity : RelaySessionIdentity) (a : Authenticator) : nat :=
  length (List.filter (in_flight identity) (an_tasks a)).

Definition spent (identity : RelaySessionIdentity) (a : Authenticator) : N := from_option fst 0%N (an_attempts a !! identity).

(** What counts for the bound: answers sent and answers under way. *)
Definition within_bound (a : Authenticator) : Prop :=
  ∀ identity, (spent identity a + N.of_nat (unsettled identity a) ≤ MAX_ATTEMPTS)%N.

(** A run that decides a question of a connection only when no earlier answer of
    it is under way, and leaves deciding to the policy. *)
Inductive one_at_a_time : Authenticator → Prop :=
| one_new sessions : one_at_a_time (Authenticator_new sessions)
| one_asked a now (signers : @Session signer) i :
    one_at_a_time a →
    (∀ s, an_sessions a !! i = Some s → unsettled (cn_identity (cc_last (rt_cell (au_router s)))) a = 0) →
    one_at_a_time (asked policy now signers i a)
| one_other a dids a' : one_at_a_time a → auth_turn a dids a' →
    (∀ now (signers : @Session signer) i, a' ≠ asked policy now signers i a) →
    (∀ now (signers : @Session signer) waiting connection decision, a' ≠ (person_answer now signers waiting connection decision a).2) →
    one_at_a_time a'.

Lemma spent_prune identity a :
  (from_option fst 0%N (prune_stale (an_sessions a) (an_attempts a) !! identity) ≤ spent identity a)%N.
Proof.
  unfold spent, prune_stale. rewrite map_lookup_filter. destruct (an_attempts a !! identity) as [p|]; cbn; [|lia].
  case_guard; cbn; lia.
Qed.

(** Recording changes neither tasks nor, unless it counts an answer, attempts. *)
Lemma record_counts identity i p a :
  an_tasks (record identity i p a).2 = an_tasks a ∧
  ∀ id, (spent id (record identity i p a).2 ≤ spent id a + (if is_answering p && bool_decide (id = identity) then 1 else 0))%N.
Proof.
  unfold record. destruct (an_sessions a !! i) as [s|]; [|split; [done|intros; cbn; lia]].
  case_bool_decide; [split; [done|intros; cbn; lia]|]. cbn [snd]. destruct (is_answering p); cbn [andb].
  2: { split; [done|]. intros id. change (spent id (an_on_session i (record_progress p) a)) with (spent id a). lia. }
  unfold count_attempt. destruct (default _ _) as [n held] eqn:E. split; [done|]. intros id.
  unfold spent at 1. cbn [an_attempts an_on_session an_set_sessions an_set_attempts].
  pose proof (spent_prune id a) as Hp. destruct (decide (id = identity)) as [->|Hne].
  - rewrite lookup_insert_eq, bool_decide_eq_true_2 by done. cbn.
    destruct (prune_stale (an_sessions a) (an_attempts a) !! identity) as [[m h]|]; cbn in *; simplify_eq; lia.
  - rewrite lookup_insert_ne by done. rewrite bool_decide_eq_false_2 by done. lia.
Qed.

(** What a step may add to either count. *)
Definition adds (a a' : Authenticator) (identity : RelaySessionIdentity) (n : nat) : Prop :=
  (spent identity a' + N.of_nat (unsettled identity a') ≤ spent identity a + N.of_nat (unsettled identity a + n))%N.

Lemma record_quiet identity i p a id : is_answering p = false → adds a (record identity i p a).2 id 0.
Proof.
  intros Hp. destruct (record_counts identity i p a) as [Ht Hc]. specialize (Hc id). rewrite Hp in Hc. cbn in Hc.
  unfold adds, unsettled. rewrite Ht. lia.
Qed.

Lemma unsettled_spawn identity task a :
  unsettled identity (spawn task a) = unsettled identity a + (if in_flight identity task then 1 else 0).
Proof. unfold unsettled, spawn. cbn. rewrite List.filter_app, length_app. cbn. by destruct (in_flight identity task). Qed.

Lemma authenticate_adds now (signers : @Session signer) demand account i a id :
  adds a (authenticate now signers demand account i a) id (if bool_decide (ad_session demand = id) then 1 else 0).
Proof.
  assert (Hrec : ∀ reason, adds a (record (ad_session demand) i (unanswerable reason) a).2 id (if bool_decide (ad_session demand = id) then 1 else 0)).
  { intros reason. pose proof (record_quiet (ad_session demand) i (unanswerable reason) a id eq_refl). unfold adds in *. lia. }
  unfold authenticate. destruct (auth_event _ _ _ _); [|apply Hrec]. destruct (session_signer signers account) as [[g v]|]; [|apply Hrec].
  destruct (invoke_signer _ _ _ _); [|apply Hrec]. unfold adds. rewrite unsettled_spawn. cbn [in_flight]. unfold spent. cbn. lia.
Qed.

Lemma asked_within now (signers : @Session signer) i a :
  within_bound a → (∀ s, an_sessions a !! i = Some s → unsettled (cn_identity (cc_last (rt_cell (au_router s)))) a = 0) →
  within_bound (asked policy now signers i a).
Proof.
  intros Hw Hnone id. specialize (Hw id). unfold asked. destruct (an_sessions a !! i) as [s|]; [|done]. specialize (Hnone s eq_refl).
  destruct (question s) as [text|]; [|done]. set (identity := cn_identity _) in *. clearbody identity.
  assert (Hrec : ∀ p, is_answering p = false → (spent id (record identity i p a).2 + N.of_nat (unsettled id (record identity i p a).2) ≤ MAX_ATTEMPTS)%N).
  { intros p Hp. pose proof (record_quiet identity i p a id Hp). unfold adds in *. lia. }
  destruct (Challenge_new text) as [challenge|e]; [|by apply Hrec]. unfold resolve.
  fold (spent identity a). case_bool_decide as Hb; [by apply Hrec|].
  destruct (policy _) as [as_of| |]; [|by apply Hrec|done].
  pose proof (authenticate_adds now signers (mkDemand identity challenge) as_of i a id) as Ha. unfold adds in Ha. cbn [ad_session] in Ha.
  case_bool_decide as Heq; [|lia]. subst id. rewrite Hnone in Ha. unfold MAX_ATTEMPTS in *. lia.
Qed.

Lemma unsettled_take identity a l1 task l2 :
  an_tasks a = l1 ++ task :: l2 →
  unsettled identity a = unsettled identity (take_task l1 l2 a) + (if in_flight identity task then 1 else 0).
Proof.
  intros Ht. unfold unsettled, take_task. cbn. rewrite Ht, !List.filter_app. cbn.
  destruct (in_flight identity task); rewrite !length_app; cbn; lia.
Qed.

Lemma signed_adds demand account i signed a id :
  adds a (authenticate_signed handoff_debug demand account i signed a) id (if bool_decide (ad_session demand = id) then 1 else 0).
Proof.
  assert (Hrec : ∀ f reason, adds a (record (ad_session demand) i (unanswerable reason) (an_on_session i f a)).2 id (if bool_decide (ad_session demand = id) then 1 else 0)).
  { intros f reason. pose proof (record_quiet (ad_session demand) i (unanswerable reason) (an_on_session i f a) id eq_refl) as Hq. unfold adds in *.
    change (spent id (an_on_session i f a)) with (spent id a) in Hq. change (unsettled id (an_on_session i f a)) with (unsettled id a) in Hq. lia. }
  unfold authenticate_signed. destruct signed as [event|e].
  2: { pose proof (record_quiet (ad_session demand) i (unanswerable (signer_error_text e)) a id eq_refl). unfold adds in *. lia. }
  destruct (an_sessions a !! i) as [s|]; [|unfold adds; lia].
  destruct (answer_start _ _ _) as [[[mailbox [frame|refused]]|refused] r]; [|apply Hrec|apply Hrec].
  unfold adds. rewrite unsettled_spawn. cbn [in_flight]. unfold spent, unsettled. cbn. lia.
Qed.

Lemma sent_adds demand account i event b outcome a id :
  adds a (authenticate_sent handoff_debug demand account i event b outcome a) id (if bool_decide (ad_session demand = id) then 1 else 0).
Proof.
  unfold authenticate_sent. destruct (an_sessions a !! i) as [s|]; [|unfold adds; lia].
  destruct (publish_finish _ _ _ _) as [[handle|refused] r].
  - set (a1 := an_on_session i (λ _, r) a). destruct (record_counts (ad_session demand) i (Answering account) a1) as [Ht Hc]. specialize (Hc id).
    cbn [is_answering andb] in Hc. unfold adds. rewrite unsettled_spawn. cbn [in_flight].
    unfold unsettled at 1. rewrite Ht. change (an_tasks a1) with (an_tasks a). change (spent id a1) with (spent id a) in Hc.
    change (spent id (spawn (AuthVerdict (ad_session demand) account i handle) (record (ad_session demand) i (Answering account) a1).2))
      with (spent id (record (ad_session demand) i (Answering account) a1).2).
    rewrite (bool_decide_ext (ad_session demand = id) (id = ad_session demand)) by naive_solver. fold (unsettled id a). destruct (bool_decide _); lia.
  - pose proof (record_quiet (ad_session demand) i (unanswerable (handoff_debug refused)) (an_on_session i (λ _, r) a) id eq_refl) as Hq.
    unfold adds, answer_refused in *. change (spent id (an_on_session i (λ _, r) a)) with (spent id a) in Hq.
    change (unsettled id (an_on_session i (λ _, r) a)) with (unsettled id a) in Hq. lia.
Qed.

Lemma verdict_adds identity account i handle a a' id :
  verdict identity account i handle a = Some a' → adds a a' id 0.
Proof.
  unfold verdict. destruct (an_sessions a !! i) as [s|]; [|done]. cbn. destruct (settled _ _) as [[settlement|] r]; [|done]. intros [= <-].
  unfold adds. rewrite unsettled_spawn. unfold spent, unsettled. cbn. lia.
Qed.

Lemma ruled_adds identity account i settlement a id : adds a (ruled identity account i settlement a) id 0.
Proof.
  destruct settlement as [t|message|ended]; cbn [ruled].
  - unfold auth_record_accepted. destruct (an_sessions a !! i); [|unfold adds; cbn; lia].
    case_bool_decide; cbn [snd]; [unfold adds; lia|]. unfold adds. rewrite unsettled_spawn. unfold spent. cbn. lia.
  - by apply record_quiet.
  - unfold adds. lia.
Qed.

(** When a connection's questions are decided one at a time, the bound holds:
    the answers counted against it and those still under way are never more than
    eight together. *)
Theorem answers_bounded (a : Authenticator) (Hrun : one_at_a_time a) (identity : RelaySessionIdentity) :
  (spent identity a + N.of_nat (unsettled identity a) ≤ MAX_ATTEMPTS)%N.
Proof.
  revert identity. change (within_bound a). induction Hrun as [sessions|a now signers i _ IH Hnone|a dids a' _ IH Hstep Hna Hnp].
  - intros identity. unfold spent, unsettled. cbn. rewrite lookup_empty. done.
  - by apply asked_within.
  - intros id. specialize (IH id). destruct Hstep as
      [a now signers i|a now signers waiting connection decision|a l1 demand account i g u l2 signed Ht
      |a l1 demand account i event b frame l2 outcome s Ht Hs Hon|a l1 demand account i event b frame l2 outcome Ht
      |a l1 identity account i handle l2 a' Ht Hv|a l1 identity account i settlement l2 Ht|a l1 identity account i l2 Ht
      |a skipped|a i message|a i s identity Hs Hrelay Hlt|a i|a i detail spent0|a i c Hc Hfresh|a i]; try done.
    + by destruct (Hna now signers i).
    + by destruct (Hnp now signers waiting connection decision).
    + pose proof (signed_adds demand account i signed (take_task l1 l2 a) id) as Hd. unfold adds in Hd.
      rewrite (unsettled_take id _ _ _ _ Ht) in IH. cbn [in_flight] in IH. change (spent id (take_task l1 l2 a)) with (spent id a) in Hd. lia.
    + rewrite (unsettled_take id _ _ _ _ Ht) in IH. cbn [in_flight] in IH.
      set (a1 := an_set_tasks (l1 ++ AuthSending demand account i event b frame (Some outcome) :: l2) a).
      rewrite (unsettled_take id a1 l1 (AuthSending demand account i event b frame (Some outcome)) l2 eq_refl). cbn [in_flight].
      unfold spent, unsettled in *. cbn in *. lia.
    + pose proof (sent_adds demand account i event b outcome (take_task l1 l2 a) id) as Hd. unfold adds in Hd.
      rewrite (unsettled_take id _ _ _ _ Ht) in IH. cbn [in_flight] in IH. change (spent id (take_task l1 l2 a)) with (spent id a) in Hd. lia.
    + pose proof (verdict_adds _ _ _ _ _ _ id Hv) as Hd. unfold adds in Hd.
      rewrite (unsettled_take id _ _ _ _ Ht) in IH. cbn [in_flight] in IH. change (spent id (take_task l1 l2 a)) with (spent id a) in Hd. lia.
    + pose proof (ruled_adds identity account i settlement (take_task l1 l2 a) id) as Hd. unfold adds in Hd.
      rewrite (unsettled_take id _ _ _ _ Ht) in IH. cbn [in_flight] in IH. change (spent id (take_task l1 l2 a)) with (spent id a) in Hd. lia.
    + rewrite (unsettled_take id _ _ _ _ Ht) in IH. cbn [in_flight] in IH. unfold spent, unsettled in *. cbn in *. lia.
Qed.

(** ** Questions that overlap *)

(** A live connection, as its watchers and its writer see it. *)
Record live (s : AuthSession) (c : Connection) : Prop := {
  lv_sender : cc_sender (rt_cell (au_router s)) = Some c;
  lv_connected : cn_connectivity c = Connected;
  lv_identity : cn_identity c = au_identity s
}.

(** A move that keeps the connection up is seen as it is. *)
Lemma live_moved {A} (x : A) next s c :
  live s c → cn_identity (next c).1 = cn_identity c → cn_connectivity (next c).1 = Connected →
  live (mkAuthSession (au_identity s) (moved_with x next (au_router s)).2 (au_alive s)) (next c).1 ∧
  cc_last (rt_cell (moved_with x next (au_router s)).2) = (next c).1 ∧ (moved_with x next (au_router s)).1 = (next c).2.
Proof.
  intros [Hs Hc Hi] Hid Hcon. unfold moved_with. rewrite Hs. destruct (next c) as [after answer]. cbn in *.
  assert (Ht : is_terminal after = false) by (unfold is_terminal; by rewrite Hcon).
  assert (He : ending_of c after = None).
  { unfold ending_of. rewrite Hcon. by rewrite bool_decide_eq_false_2 by naive_solver. }
  rewrite Ht, He. split_and!; [|done|done]. split; cbn; [done|done|congruence].
Qed.

(** The relay asks on a live connection. *)
Lemma live_asked i t a s c :
  an_sessions a !! i = Some s → live s c →
  ∃ s', an_sessions (an_on_session i (deliver (MsgAuth t)) a) !! i = Some s' ∧ live s' (set_progress (Requested t) c) ∧
    question s' = Some t ∧ cc_last (rt_cell (au_router s')) = set_progress (Requested t) c.
Proof.
  intros Hs Hl. exists (au_on_router (deliver (MsgAuth t)) s). split; [by apply on_session_self|].
  destruct (live_moved tt (λ c, (set_progress (Requested t) c, tt)) s c Hl) as (Hl' & Hlast & _); [done|apply Hl|].
  split; [exact Hl'|]. unfold question. cbn [au_router au_on_router deliver]. unfold moved. rewrite Hlast. done.
Qed.

Lemma invoke_current (signers : @Session signer) k g v u :
  session_signer signers k = Some (g, v) → is_Some (invoke_signer signers k g u).
Proof.
  unfold session_signer, invoke_signer. destruct (st_signers (ses_state signers) !! k) as [at_|]; [|done]. cbn.
  intros [= <- _]. by rewrite bool_decide_eq_true_2.
Qed.

(** The bound does not bound signatures.  A relay that keeps asking before
    the first answer is signed has every one of its questions signed, as many as
    it asks: each finds no answer counted yet. *)
Theorem overlapping_questions_all_signed (now : Timestamp) (signers : @Session signer) (i : nat) (k : PublicKey)
    (generation : N) (availability : SignerAvailability)
    (challenges : list string) (events : list UnsignedEvent) (a : Authenticator) (s : AuthSession) (c : Connection)
    (Hs : an_sessions a !! i = Some s) (Hlive : live s c)
    (Hspent : (spent (au_identity s) a < MAX_ATTEMPTS)%N)
    (Hpolicy : ∀ demand, policy demand = Authenticate k)
    (Hsigner : session_signer signers k = Some (generation, availability))
    (Hchallenges : Forall2 (λ t u, Challenge_new t = Ok t ∧ auth_event now k (si_relay (au_identity s)) t = Ok u) challenges events) :
  let a' := fold_left (λ a t, asked policy now signers i (an_on_session i (deliver (MsgAuth t)) a)) challenges a in
  an_tasks a' = an_tasks a ++ zip_with (λ t u, AuthSigning (mkDemand (au_identity s) t) k i generation u) challenges events ∧
  an_attempts a' = an_attempts a.
Proof.
  revert events a s c Hs Hlive Hspent Hchallenges. induction challenges as [|t challenges IH]; intros events a s c Hs Hl Hsp Hf.
  { apply Forall2_nil_inv_l in Hf as ->. cbn. by rewrite app_nil_r. }
  apply Forall2_cons_inv_l in Hf as (u & rest & [Hnew Hev] & Hf & ->). cbn [fold_left zip_with].
  destruct (live_asked i t a s c Hs Hl) as (s1 & Hs1 & Hl1 & Hq & Hlast).
  set (a1 := an_on_session i (deliver (MsgAuth t)) a) in *.
  assert (Hid : au_identity s1 = au_identity s).
  { rewrite <- (lv_identity _ _ Hl1), <- (lv_identity _ _ Hl). done. }
  assert (Hask : asked policy now signers i a1 = spawn (AuthSigning (mkDemand (au_identity s) t) k i generation u) a1).
  { unfold asked. rewrite Hs1, Hq, Hnew, Hlast. cbn [cn_identity set_progress set_authentication]. rewrite (lv_identity _ _ Hl).
    unfold resolve. change (an_attempts a1) with (an_attempts a). fold (spent (au_identity s) a). rewrite bool_decide_eq_false_2 by lia.
    rewrite Hpolicy. unfold authenticate. cbn [ad_session ad_challenge].
    rewrite Hev, Hsigner.
    by destruct (invoke_current signers k generation availability u Hsigner) as [f ->]. }
  rewrite Hask. destruct (IH rest (spawn (AuthSigning (mkDemand (au_identity s) t) k i generation u) a1) s1 _ Hs1 Hl1) as [Ht Ha].
  { rewrite Hid. done. }
  { by rewrite Hid. }
  rewrite Ht, Ha, Hid. cbn. by rewrite <- app_assoc.
Qed.

(** An answer is taken up for a question it was not signed for: while the
    signer works, the relay asks again; the signature of the first question then
    finds a question in front of the connection, takes that one up and is sent
    for it, whatever the two challenges are, and the new question is gone. *)
Theorem superseded_answer_sent (i : nat) (a : Authenticator) (s : AuthSession) (c : Connection)
    (demand : AuthenticationDemand) (account : PublicKey) (event : Event) (frame newer : string)
    (Hs : an_sessions a !! i = Some s) (Hlive : live s c)
    (Hasked : progress (cn_authentication c) = Requested newer)
    (Hframe : encode_client (ClientAuth event) = Ok frame) :
  let a' := authenticate_signed handoff_debug demand account i (Ok event) a in
  ∃ mailbox s', an_tasks a' = an_tasks a ++ [AuthSending demand account i (ev_id event) mailbox frame None] ∧
    an_sessions a' !! i = Some s' ∧ progress (authentication_of s') = Answering (ev_pubkey event).
Proof.
  cbn zeta. unfold authenticate_signed. rewrite Hs. unfold answer_start.
  destruct (live_moved false (take_up (ev_pubkey event)) s c Hlive) as (_ & Hlast & Hup).
  { unfold take_up. by rewrite Hasked. }
  { unfold take_up. rewrite Hasked. apply Hlive. }
  destruct (moved_with false (take_up (ev_pubkey event)) (au_router s)) as [taken_up r]. cbn in Hlast, Hup.
  unfold take_up in Hlast, Hup. rewrite Hasked in Hlast, Hup. cbn in Hlast, Hup. subst taken_up.
  destruct (await_acknowledgement (ev_id event) r) as [mailbox r'] eqn:Ea.
  assert (Hcell : rt_cell r' = rt_cell r) by (by rewrite <- (await_cell (ev_id event) r), Ea).
  unfold encoded. rewrite Hframe. exists mailbox, (au_on_router (λ _, r') s). split_and!; [done|by apply on_session_self|].
  unfold authentication_of. cbn. rewrite Hcell, Hlast. done.
Qed.

(** Counting an answer drops the next question: a relay that asks again
    before the hand-off of the answer is reported has its question overwritten
    when the answer is counted, and the task told of it finds nothing to do. *)
Theorem newer_question_overwritten (i : nat) (a : Authenticator) (s : AuthSession) (c : Connection)
    (account : PublicKey) (event : EventId) (mailbox : nat) (identity : RelaySessionIdentity) (correlation : N)
    (older newer : string) (Hs : an_sessions a !! i = Some s) (Hlive : live s c) :
  let asked_again := an_on_session i (deliver (MsgAuth newer)) a in
  let a' := authenticate_sent handoff_debug (mkDemand (au_identity s) older) account i event mailbox (HandedOff identity correlation) asked_again in
  ∃ s1 s2, an_sessions asked_again !! i = Some s1 ∧ question s1 = Some newer ∧
    an_sessions a' !! i = Some s2 ∧ question s2 = None ∧
    ∀ now (signers : @Session signer), asked policy now signers i a' = a'.
Proof.
  intros asked_again a'. destruct (live_asked i newer a s c Hs Hlive) as (s1 & Hs1 & Hl1 & Hq & _). fold asked_again in Hs1.
  assert (Hid : au_identity s1 = au_identity s) by (rewrite <- (lv_identity _ _ Hl1), <- (lv_identity _ _ Hlive); done).
  destruct (live_moved tt (λ c, (set_progress (Answering account) c, tt)) s1 _ Hl1 eq_refl (lv_connected _ _ Hl1)) as (_ & Hlast & _).
  set (s2 := au_on_router (record_progress (Answering account)) s1).
  assert (Hs2 : an_sessions a' !! i = Some s2).
  { unfold a', authenticate_sent. rewrite Hs1. cbn [publish_finish]. set (a1 := an_on_session i (λ _, au_router s1) asked_again).
    assert (Ha1 : an_sessions a1 !! i = Some s1).
    { unfold a1. rewrite (on_session_self i _ _ s1 Hs1). by destruct s1. }
    unfold record. rewrite Ha1. cbn [ad_session]. rewrite bool_decide_eq_false_2 by (rewrite Hid; naive_solver). cbn [is_answering snd].
    change (an_sessions (an_on_session i (record_progress (Answering account)) (count_attempt (au_identity s) i a1)) !! i = Some s2).
    apply on_session_self. unfold count_attempt. by destruct (default _ _). }
  assert (Hq2 : question s2 = None).
  { unfold question, s2. cbn [au_router au_on_router record_progress]. unfold record_progress, moved. by rewrite Hlast. }
  exists s1, s2. split_and!; [done|done|done|done|]. intros now signers. unfold asked. by rewrite Hs2, Hq2.
Qed.
End owner.

(** ** A small authenticator *)

Module AuthWitness.
Import EditSample SessionWitness.
#[local] Existing Instance TransportWitness.wire.

Definition always (demand : AuthenticationDemand) : AuthenticationDecision := Authenticate 1.
Definition debug (o : HandoffOutcome) : string := "refused".
Definition connection : Connection := TransportWitness.connection.
Definition session : AuthSession := mkAuthSession TransportWitness.identity (Router_new connection) true.
Definition owner : Authenticator := Authenticator_new [session].

Lemma session_live : live session connection.
Proof. by split. Qed.

Lemma owner_runs : auth_run (signer := TestSigner) always debug [] owner.
Proof. apply auth_new. constructor; [|constructor]. split; [by apply Router_new_ok|done]. Qed.

(** One challenge, signed, sent and accepted. *)
Definition was_asked : Authenticator := an_on_session 0 (deliver (MsgAuth "nonce")) owner.
Definition signing : Authenticator := asked always 50 sample_session 0 was_asked.
Definition unsigned : UnsignedEvent :=
  mkUnsigned (Some 50%N) 1 50 22242 [["relay"; "wss://relay.example"]; ["challenge"; "nonce"]] "".
Definition proof_event : Event := mkEvent 9 1 50 22242 [["relay"; "wss://relay.example"]; ["challenge"; "nonce"]] "" 1.
Definition demand : AuthenticationDemand := mkDemand TransportWitness.identity "nonce".
Definition sending : Authenticator := authenticate_signed debug demand 1 0 (Ok proof_event) (take_task [] [] signing).
Definition written : Authenticator :=
  an_set_tasks [AuthSending demand 1 0 9 0 "[]" (Some (HandedOff TransportWitness.identity 0))] sending.
Definition sent : Authenticator :=
  authenticate_sent debug demand 1 0 9 0 (HandedOff TransportWitness.identity 0) (take_task [] [] written).
Definition answered_ok : Authenticator := an_on_session 0 (deliver (MsgOk 9 true "welcome")) sent.
Definition handle : RoutedAcknowledgement := mkRoutedAcknowledgement 9 0.
Definition settled_ok_state : Authenticator :=
  default answered_ok (verdict TransportWitness.identity 1 0 handle (take_task [] [] answered_ok)).
Definition accepting : Authenticator :=
  ruled TransportWitness.identity 1 0 (SettledAccepted (BoundedText_new "welcome")) (take_task [] [] settled_ok_state).

Definition shown : list AuthDid :=
  [DidSign demand 1 0 1 unsigned proof_event;
   DidHandOff demand 1 0 9 0 "[]" TransportWitness.identity 0;
   DidHear 0 9 "welcome"].

(** A turn of this run. *)
Lemma run_turn h a dids a' h' :
  auth_run (signer := TestSigner) always debug h a → auth_turn always debug a dids a' → h' = h ++ dids →
  auth_run always debug h' a'.
Proof. intros Hr Ht ->. eapply auth_next; [exact Hr|]. by apply step_turn. Qed.

Lemma accepting_runs : auth_run (signer := TestSigner) always debug shown accepting.
Proof.
  eapply run_turn; [|apply (step_ruled always debug settled_ok_state [] TransportWitness.identity 1 0 (SettledAccepted (BoundedText_new "welcome")) []);
    vm_compute; reflexivity|rewrite app_nil_r; reflexivity].
  eapply run_turn; [|eapply (step_verdict always debug answered_ok [] TransportWitness.identity 1 0 handle []);
    vm_compute; reflexivity|rewrite app_nil_r; reflexivity].
  eapply (run_turn [DidSign demand 1 0 1 unsigned proof_event; DidHandOff demand 1 0 9 0 "[]" TransportWitness.identity 0]);
    [|apply (step_message always debug sent 0 (MsgOk 9 true "welcome"))|reflexivity].
  eapply run_turn; [|apply (step_sent always debug written [] demand 1 0 9 0 "[]" [] (HandedOff TransportWitness.identity 0));
    vm_compute; reflexivity|rewrite app_nil_r; reflexivity].
  eapply (run_turn [DidSign demand 1 0 1 unsigned proof_event]);
    [|eapply (step_written always debug sending [] demand 1 0 9 0 "[]" [] (HandedOff TransportWitness.identity 0))|reflexivity].
  2: { vm_compute; reflexivity. }
  2: { vm_compute; reflexivity. }
  2: { intros on correlation [= <- _]. vm_compute. reflexivity. }
  eapply (run_turn []); [|apply (step_signed always debug signing [] demand 1 0 1 unsigned [] (Ok proof_event)); vm_compute; reflexivity|reflexivity].
  eapply (run_turn []); [|apply (step_asked always debug was_asked 50 sample_session 0)|reflexivity].
  eapply run_turn; [apply owner_runs|apply (step_message always debug owner 0 (MsgAuth "nonce"))|reflexivity].
Qed.


(** A connection replaced between the check of [record_accepted] and its write is
    established as the account that proved itself on the one before: the new
    connection has been asked nothing and was sent nothing. *)
Definition next_identity : RelaySessionIdentity := mkSessionIdentity "wss://relay.example" 2.
Definition worn_anew : Authenticator := an_set_sessions (alter (advanced next_identity) 0 (an_sessions accepting)) accepting.
Definition replaced_meanwhile : Authenticator := an_set_sessions (alter reconnected 0 (an_sessions worn_anew)) worn_anew.

Theorem replaced_connection_established :
  auth_run (signer := TestSigner) always debug shown replaced_meanwhile ∧
  let a := auth_write_accepted 0 1 (take_task [] [] replaced_meanwhile) in
  ∃ s, an_sessions a !! 0 = Some s ∧ au_identity s = next_identity ∧
    cn_identity (cc_last (rt_cell (au_router s))) = next_identity ∧ established_as s = Some 1%N.
Proof.
  split.
  - eapply run_turn; [|apply (step_reconnected always debug worn_anew 0)|rewrite app_nil_r; reflexivity].
    eapply run_turn; [apply accepting_runs|eapply (step_advanced always debug accepting 0 _ next_identity)|rewrite app_nil_r; reflexivity];
      vm_compute; reflexivity.
  - eexists. split_and!; vm_compute; reflexivity.
Qed.

Lemma answers_bounded_witness :
  unsettled TransportWitness.identity signing = 1 ∧
  (spent TransportWitness.identity signing + N.of_nat (unsettled TransportWitness.identity signing) ≤ MAX_ATTEMPTS)%N.
Proof.
  split; [vm_compute; reflexivity|]. apply (answers_bounded (signer := TestSigner) always debug signing).
  apply (one_asked always debug was_asked 50 sample_session 0).
  - eapply one_other; [apply one_new|apply (step_message always debug owner 0 (MsgAuth "nonce"))|..].
    + intros now signers i Heq. apply (f_equal (λ a, question <$> an_sessions a !! 0)) in Heq.
      unfold asked in Heq. destruct i as [|i]; vm_compute in Heq; discriminate.
    + intros now signers waiting connection decision Heq. apply (f_equal (λ a, question <$> an_sessions a !! 0)) in Heq.
      unfold person_answer in Heq. destruct decision; vm_compute in Heq; discriminate.
  - intros s Hs. vm_compute. reflexivity.
Defined.

Definition unsigned_nonce (t : string) : UnsignedEvent :=
  mkUnsigned (Some 50%N) 1 50 22242 [["relay"; "wss://relay.example"]; ["challenge"; t]]%string "".
Definition nonces : list string := ["first"; "second"; "third"; "4"; "5"; "6"; "7"; "8"; "9"; "10"]%string.

Definition unsigned_nonces : list UnsignedEvent := unsigned_nonce <$> nonces.

Lemma overlapping_questions_all_signed_witness :
  length (an_tasks (fold_left (λ a t, asked always 50 sample_session 0 (an_on_session 0 (deliver (MsgAuth t)) a)) nonces owner)) = 10.
Proof.
  destruct (overlapping_questions_all_signed always 50 sample_session 0 1 1 Available nonces unsigned_nonces owner session connection
    eq_refl session_live) as [Ht _].
  - vm_compute. reflexivity.
  - reflexivity.
  - vm_compute. reflexivity.
  - repeat constructor; vm_compute; reflexivity.
  - rewrite Ht. vm_compute. reflexivity.
Defined.

(** The signature for "nonce" arrives after the relay asked "newer". *)
Definition asked_newer : AuthSession := au_on_router (deliver (MsgAuth "newer")) session.

Lemma superseded_answer_sent_witness :
  ∃ mailbox s', an_tasks (authenticate_signed debug demand 1 0 (Ok proof_event) (Authenticator_new [asked_newer])) =
      [AuthSending demand 1 0 9 mailbox "[]" None] ∧
    an_sessions (authenticate_signed debug demand 1 0 (Ok proof_event) (Authenticator_new [asked_newer])) !! 0 = Some s' ∧
    progress (authentication_of s') = Answering 1.
Proof.
  apply (superseded_answer_sent debug 0 (Authenticator_new [asked_newer]) asked_newer
    (set_progress (Requested "newer") connection) demand 1 proof_event "[]" "newer"); [reflexivity| |reflexivity|reflexivity].
  split; reflexivity.
Defined.

Lemma newer_question_overwritten_witness :
  ∃ s1 s2, an_sessions (an_on_session 0 (deliver (MsgAuth "newer")) owner) !! 0 = Some s1 ∧ question s1 = Some "newer"%string ∧
    an_sessions (authenticate_sent debug (mkDemand (au_identity session) "nonce") 1 0 9 0 (HandedOff TransportWitness.identity 0)
      (an_on_session 0 (deliver (MsgAuth "newer")) owner)) !! 0 = Some s2 ∧ question s2 = None.
Proof.
  destruct (newer_question_overwritten (signer := TestSigner) always debug 0 owner session connection 1 9 0
    TransportWitness.identity 0 "nonce" "newer" eq_refl session_live) as (s1 & s2 & H1 & H2 & H3 & H4 & _).
  exists s1, s2. split; [exact H1|]. split; [exact H2|]. split; [exact H3|exact H4].
Defined.
End AuthWitness.
