(* ===== verification/Subscriptions.v ===== *)
(** * Relay demand, wire subscriptions and plan conformance ([crates/fava-subscriptions])

    Declared limits ([constraints.rs]), logical demand ([demand.rs],
    [demand_for_query] of [lib.rs]), what runs on a session ([installed.rs]),
    plans ([plan.rs]), coverage of one filter by another ([coverage.rs]) and the
    conformance rules every planner must satisfy ([conformance.rs]).

    A [NonZeroUsize] or [usize] count is a [nat]; wire ids are their text. *)

From S2P Require Import Prelude Nostr Relay State Write Query.

(** ** Declared limits *)

Inductive DeclaredLimit := Unknown | Declared (value : nat).

Definition limit_get (l : DeclaredLimit) : option nat :=
  match l with Unknown => None | Declared value => Some value end.

Record RelayReadConstraints := mkConstraints {
  max_subscriptions : DeclaredLimit;
  max_message_bytes : DeclaredLimit;
  max_subscription_id_chars : DeclaredLimit;
  max_filter_limit : DeclaredLimit;
  default_filter_limit : DeclaredLimit
}.

Definition unknown : RelayReadConstraints := mkConstraints Unknown Unknown Unknown Unknown Unknown.

(** ** Demand *)

Record DemandId := mkDemandId { di_owner : N; di_branch : N }.

#[global] Instance DemandId_eq_dec : EqDecision DemandId.
Proof. solve_decision. Defined.

Definition demand_id_pair (d : DemandId) : N * N := (di_owner d, di_branch d).

Lemma demand_id_pair_inj d d' : demand_id_pair d = demand_id_pair d' → d = d'.
Proof. destruct d, d'. unfold demand_id_pair. simpl. congruence. Qed.

#[global] Instance DemandId_countable : Countable DemandId.
Proof.
  refine (inj_countable' demand_id_pair (λ p, mkDemandId p.1 p.2) _). by intros [].
Defined.
#[global] Instance DemandId_order : KeyOrder DemandId := inj_key_order demand_id_pair demand_id_pair_inj.

(** [QueryBounds] of [fava-query]; the limit is a [NonZeroU32]. *)
Record QueryBounds := mkBounds {
  qb_since : option Timestamp;
  qb_until : option Timestamp;
  qb_limit : option N
}.
#[global] Instance QueryBounds_eq_dec : EqDecision QueryBounds.
Proof. solve_decision. Defined.

Record RelayDemand := mkDemand {
  rd_owner : N;
  rd_branch : N;
  rd_filter : Filter;
  rd_bounds : QueryBounds
}.
#[global] Instance RelayDemand_eq_dec : EqDecision RelayDemand.
Proof. solve_decision. Defined.

Definition demand_id (d : RelayDemand) : DemandId := mkDemandId (rd_owner d) (rd_branch d).

(** [demand.iter().map(RelayDemand::id).collect::<BTreeSet<_>>()]. *)
Definition demand_ids (demand : list RelayDemand) : gset DemandId := list_to_set (demand_id <$> demand).

Lemma demand_ids_elem demand d : d ∈ demand_ids demand ↔ ∃ m, d = demand_id m ∧ m ∈ demand.
Proof. unfold demand_ids. by rewrite elem_of_list_to_set, list_elem_of_fmap. Qed.

(** ** What runs on a session *)

Abbreviation SubscriptionId := string (only parsing).

Record InstalledSubscription := mkInstalled {
  is_filters : list Filter;
  is_serves : gset DemandId
}.

(** [InstalledSubscriptions]: its [entries]. *)
Abbreviation InstalledSubscriptions := (gmap string InstalledSubscription) (only parsing).

(** ** Plans *)

Inductive EoseCompleteness := Proven | LimitedRequest | RelayDefaultLimit.

Record PlannedSubscription := mkPlannedSub {
  ps_filters : list Filter;
  ps_serves : gset DemandId;
  ps_completeness : EoseCompleteness
}.

Record AttributedSubscription := mkAttributed {
  at_filters : list Filter;
  at_serves : gset DemandId;
  at_completeness : EoseCompleteness
}.

(** [SubscriptionAttribution]: its [entries]. *)
Abbreviation SubscriptionAttribution := (gmap string AttributedSubscription) (only parsing).

(** [SubscriptionAttribution::serves]: empty when unattributed. *)
Definition attribution_serves (a : SubscriptionAttribution) (id : SubscriptionId) : gset DemandId :=
  match a !! id with Some entry => at_serves entry | None => ∅ end.

Inductive ShortfallReason :=
| SubscriptionsExhausted (required maximum : nat)
| MessageTooLarge (bytes maximum : N)
| FilterLimitExceeded (required maximum : nat)
| NotExpressible (detail : BoundedText).

Record SubscriptionShortfall := mkShortfall {
  sf_demand : DemandId;
  sf_reason : ShortfallReason
}.

Record PlanRevision := mkPlanRevision { rev_authority : N; rev_sequence : N }.

Record SubscriptionPlan := mkSubscriptionPlan {
  sp_relay : RelayUrl;
  sp_revision : PlanRevision;
  sp_open : list PlannedSubscription;
  sp_retain : list SubscriptionId;
  sp_close : list SubscriptionId;
  sp_attribution : SubscriptionAttribution;
  sp_shortfalls : list SubscriptionShortfall
}.

Definition is_noop (p : SubscriptionPlan) : bool :=
  bool_decide (length (sp_open p) = 0) && bool_decide (length (sp_close p) = 0).

Definition installed_count (p : SubscriptionPlan) : nat := length (sp_open p) + length (sp_retain p).

(** ** Revisions *)

Record PlanRevisionIssuer := mkPlanIssuer { pi_authority : N; pi_next : option N }.

Inductive PlanRevisionExhausted := PlanAuthorities | PlanSequence.

(** [PlanRevisionIssuer::new] over the process-wide [NEXT_PLAN_AUTHORITY]. *)
Definition plan_issuer_new (next_authority : N) : result PlanRevisionExhausted PlanRevisionIssuer * N :=
  match checked_succ next_authority with
  | Some a => (Ok (mkPlanIssuer a (Some 1%N)), a)
  | None => (Err PlanAuthorities, next_authority)
  end.

Definition plan_issuer_allocate (i : PlanRevisionIssuer)
    : result PlanRevisionExhausted PlanRevision * PlanRevisionIssuer :=
  match pi_next i with
  | None => (Err PlanSequence, i)
  | Some sequence =>
      (Ok (mkPlanRevision (pi_authority i) sequence), mkPlanIssuer (pi_authority i) (checked_succ sequence))
  end.

(** ** The planner interface *)

(** What planners use of code outside the repository: the JSON text of a filter
    ([serde_json::to_string], which may fail) and its [Debug] text, the byte
    length of the [REQ] frame that carries filters under a 21-byte id (or the
    encoder's error text), and the derived order of [Vec<Filter>]. *)
Class FilterCodec := {
  filter_json : Filter → option string;
  filter_debug : Filter → string;
  req_frame_len : list Filter → result string N;
  filters_order :: KeyOrder (list Filter)
}.

Inductive SubscriptionPlanError :=
| DuplicateDemand (id : DemandId)
| Encoding (text : BoundedText).

(** [SubscriptionPlanner::plan].  A planner that runs a loop is modelled with
    fuel, and [None] is the answer of a run that exhausts it. *)
Definition Planner : Type :=
  RelayUrl → list RelayDemand → RelayReadConstraints → InstalledSubscriptions → PlanRevision →
  option (result SubscriptionPlanError SubscriptionPlan).

(** ** Coverage *)

(** [values.filter(|values| !values.is_empty())]: an empty set constrains
    nothing on [ids], [authors] and [kinds]. *)
Definition constrained {A} `{Countable A} (axis : option (gset A)) : option (gset A) :=
  values ← axis; if bool_decide (values = ∅) then None else Some values.

Definition covers_set {A} `{Countable A} (wide narrow : option (gset A)) : bool :=
  match constrained wide, constrained narrow with
  | None, _ => true
  | Some _, None => false
  | Some wide, Some narrow => bool_decide (narrow ⊆ wide)
  end.

Definition covers_window (wide narrow : Filter) : bool :=
  let since := match fl_since wide, fl_since narrow with
               | None, _ => true
               | Some _, None => false
               | Some wide, Some narrow => bool_decide (wide ≤ narrow)%N
               end in
  let until := match fl_until wide, fl_until narrow with
               | None, _ => true
               | Some _, None => false
               | Some wide, Some narrow => bool_decide (narrow ≤ wide)%N
               end in
  since && until.

Definition covers_tags (wide narrow : Filter) : bool :=
  forallb (λ '(name, wide_values),
    match fl_generic_tags narrow !! name with
    | Some narrow_values => bool_decide (narrow_values ⊆ wide_values)
    | None => false
    end) (entries (fl_generic_tags wide)).

(** [remainder_matches] of [coverage.rs]: every field outside the axes. *)
Definition coverage_remainder_matches (wide narrow : Filter) : bool :=
  bool_decide (fl_search wide = fl_search narrow).

Definition filter_covers (wide narrow : Filter) : bool :=
  if bool_decide (wide = narrow) then true
  else if bool_decide (is_Some (fl_limit wide)) || bool_decide (is_Some (fl_limit narrow)) then false
  else if negb (coverage_remainder_matches wide narrow) then false
  else covers_set (fl_ids wide) (fl_ids narrow)
       && covers_set (fl_authors wide) (fl_authors narrow)
       && covers_set (fl_kinds wide) (fl_kinds narrow)
       && covers_window wide narrow
       && covers_tags wide narrow.

(** ** Conformance *)

Inductive PlanConformanceError :=
| WrongRelay
| OverlappingBuckets (id : SubscriptionId)
| UnknownInstalled (id : SubscriptionId)
| AttributionMismatch
| EmptyFilters (position : nat)
| FilterAttributionMismatch (id : SubscriptionId)
| DemandUnaccounted (id : DemandId)
| DemandInvented (id : DemandId)
| DeclaredSubscriptionsExceeded (installed maximum : nat)
| ServedDemandDisagrees (id : SubscriptionId)
| UnknownSuccessor (id successor : SubscriptionId)
| RunningSubscriptionWithdrawn (id : SubscriptionId) (still_wanted : DemandId)
| DuplicateFilters (first : SubscriptionId) (second : nat)
| DuplicatePlannedFilters (position : nat).

(** CR-1. *)
Definition check_running_subscriptions (demand : list RelayDemand) (installed : InstalledSubscriptions)
    (plan : SubscriptionPlan) : result PlanConformanceError unit :=
  let requested := demand_ids demand in
  for_each (λ withdrawn,
    match installed !! withdrawn with
    | None => Ok tt
    | Some entry =>
        match List.find (λ served, bool_decide (served ∈ requested)) (ordered_elements (is_serves entry)) with
        | Some retained => Err (RunningSubscriptionWithdrawn withdrawn retained)
        | None => Ok tt
        end
    end) (sp_close plan).

(** CR-2: the loop over [plan.open.iter().enumerate()]. *)
Fixpoint distinct_filters_from (seen : list (SubscriptionId * list Filter))
    (planned_filters : list (list Filter)) (position : nat) (open : list PlannedSubscription)
    : result PlanConformanceError unit :=
  match open with
  | [] => Ok tt
  | planned :: open =>
      match List.find (λ p, bool_decide (p.2 = ps_filters planned)) seen with
      | Some (first, _) => Err (DuplicateFilters first position)
      | None =>
          if bool_decide (ps_filters planned ∈ planned_filters) then Err (DuplicatePlannedFilters position)
          else distinct_filters_from seen (planned_filters ++ [ps_filters planned]) (S position) open
      end
  end.

Definition check_distinct_filters (installed : InstalledSubscriptions) (plan : SubscriptionPlan)
    : result PlanConformanceError unit :=
  let seen := omap (λ id, entry ← installed !! id; Some (id, is_filters entry)) (sp_retain plan) in
  distinct_filters_from seen [] 0 (sp_open plan).

(** Rule 1: the relay. *)
Definition check_relay (relay : RelayUrl) (plan : SubscriptionPlan) : result PlanConformanceError unit :=
  ensure (bool_decide (sp_relay plan = relay)) WrongRelay.

(** Rule 4: the loop over [retain] then [close]. *)
Fixpoint buckets_from (installed : InstalledSubscriptions) (seen : gset SubscriptionId)
    (ids : list SubscriptionId) : result PlanConformanceError unit :=
  match ids with
  | [] => Ok tt
  | id :: ids =>
      if bool_decide (id ∈ seen) then Err (OverlappingBuckets id)
      else if bool_decide (installed !! id = None) then Err (UnknownInstalled id)
      else buckets_from installed ({[ id ]} ∪ seen) ids
  end.

Definition check_buckets (installed : InstalledSubscriptions) (plan : SubscriptionPlan)
    : result PlanConformanceError (gset SubscriptionId) :=
  _ ← buckets_from installed ∅ (sp_retain plan ++ sp_close plan);
  Ok (list_to_set (sp_retain plan)).

(** Rule 5: attribution. *)
Definition check_attribution_keys (resulting : gset SubscriptionId) (plan : SubscriptionPlan)
    : result PlanConformanceError unit :=
  ensure (bool_decide (dom (sp_attribution plan) = resulting)) AttributionMismatch.

(** Rule 6: filters. *)
Fixpoint check_open_filters (position : nat) (open : list PlannedSubscription)
    : result PlanConformanceError unit :=
  match open with
  | [] => Ok tt
  | planned :: open =>
      if bool_decide (ps_filters planned = []) then Err (EmptyFilters position)
      else check_open_filters (S position) open
  end.

Definition check_filters (installed : InstalledSubscriptions) (plan : SubscriptionPlan)
    : result PlanConformanceError unit :=
  _ ← check_open_filters 0 (sp_open plan);
  for_each (λ id,
    entry ← ok_or (installed !! id) (UnknownInstalled id);
    attributed ← ok_or (sp_attribution plan !! id) AttributionMismatch;
    ensure (bool_decide (at_filters attributed = is_filters entry)) (FilterAttributionMismatch id))
    (sp_retain plan).

(** The demand the plan serves: retained attribution, then what it opens. *)
Definition served_demand (plan : SubscriptionPlan) : list DemandId :=
  (keys (sp_attribution plan) ≫= λ id, ordered_elements (attribution_serves (sp_attribution plan) id))
  ++ (sp_open plan ≫= λ planned, ordered_elements (ps_serves planned)).

(** Rules 8 and 9: demand. *)
Definition check_demand (demand : list RelayDemand) (plan : SubscriptionPlan)
    : result PlanConformanceError unit :=
  let requested := demand_ids demand in
  _ ← for_each (λ served, ensure (bool_decide (served ∈ requested)) (DemandInvented served))
        (served_demand plan);
  let accounted : gset DemandId :=
    list_to_set (sf_demand <$> sp_shortfalls plan) ∪ list_to_set (served_demand plan) in
  _ ← for_each (λ id, ensure (bool_decide (id ∈ accounted)) (DemandUnaccounted id))
        (ordered_elements requested);
  for_each (λ entry, ensure (bool_decide (sf_demand entry ∈ requested)) (DemandInvented (sf_demand entry)))
    (sp_shortfalls plan).

(** Rule 10: declared limits. *)
Definition check_declared_limits (constraints : RelayReadConstraints) (plan : SubscriptionPlan)
    : result PlanConformanceError unit :=
  match limit_get (max_subscriptions constraints) with
  | Some maximum =>
      ensure (bool_decide (length (sp_open plan) ≤ maximum - length (sp_retain plan)))
        (DeclaredSubscriptionsExceeded (installed_count plan) maximum)
  | None => Ok tt
  end.

Definition validate_plan (relay : RelayUrl) (demand : list RelayDemand)
    (constraints : RelayReadConstraints) (installed : InstalledSubscriptions) (plan : SubscriptionPlan)
    : result PlanConformanceError unit :=
  _ ← check_relay relay plan;
  resulting ← check_buckets installed plan;
  _ ← check_attribution_keys resulting plan;
  _ ← check_filters installed plan;
  _ ← check_demand demand plan;
  _ ← check_running_subscriptions demand installed plan;
  _ ← check_distinct_filters installed plan;
  check_declared_limits constraints plan.

(** ** What the rules mean *)

(** A plan serves a demand through a retained wire id or through one it opens. *)
Definition plan_serves (plan : SubscriptionPlan) (d : DemandId) : Prop :=
  (∃ id entry, sp_attribution plan !! id = Some entry ∧ d ∈ at_serves entry) ∨
  (∃ planned, planned ∈ sp_open plan ∧ d ∈ ps_serves planned).

Definition plan_omits (plan : SubscriptionPlan) (d : DemandId) : Prop :=
  ∃ s, s ∈ sp_shortfalls plan ∧ sf_demand s = d.

(** The contract of a planner, rule by rule. *)
Record conforms (relay : RelayUrl) (demand : list RelayDemand) (constraints : RelayReadConstraints)
    (installed : InstalledSubscriptions) (plan : SubscriptionPlan) : Prop := mkConforms {
  cf_relay : sp_relay plan = relay;
  cf_once : NoDup (sp_retain plan ++ sp_close plan);
  cf_installed : ∀ id, id ∈ sp_retain plan ++ sp_close plan → is_Some (installed !! id);
  cf_attributed : ∀ id, is_Some (sp_attribution plan !! id) ↔ id ∈ sp_retain plan;
  cf_filters : ∀ planned, planned ∈ sp_open plan → ps_filters planned ≠ [];
  cf_unchanged : ∀ id a entry, id ∈ sp_retain plan → sp_attribution plan !! id = Some a →
    installed !! id = Some entry → at_filters a = is_filters entry;
  cf_accounted : ∀ d, d ∈ demand_ids demand → plan_serves plan d ∨ plan_omits plan d;
  cf_invented : ∀ d, plan_serves plan d ∨ plan_omits plan d → d ∈ demand_ids demand;
  cf_running : ∀ id entry d, id ∈ sp_close plan → installed !! id = Some entry →
    d ∈ is_serves entry → d ∉ demand_ids demand;
  cf_fresh : ∀ id entry planned, id ∈ sp_retain plan → installed !! id = Some entry →
    planned ∈ sp_open plan → ps_filters planned ≠ is_filters entry;
  cf_distinct : NoDup (ps_filters <$> sp_open plan);
  cf_budget : ∀ maximum, limit_get (max_subscriptions constraints) = Some maximum →
    length (sp_open plan) ≤ maximum - length (sp_retain plan)
}.

(** *** Each check decides its rule *)

Lemma buckets_from_Ok installed seen ids :
  buckets_from installed seen ids = Ok tt ↔
  NoDup ids ∧ (∀ id, id ∈ ids → id ∉ seen ∧ is_Some (installed !! id)).
Proof.
  revert seen. induction ids as [|id ids IH]; intros seen; simpl.
  { split; [|done]. intros _. split; [constructor|]. by intros ? ?%not_elem_of_nil. }
  case_bool_decide as Hseen; simpl.
  { split; [done|]. intros [_ Hids]. by destruct (Hids id ltac:(left)). }
  case_bool_decide as Hin; simpl.
  { split; [done|]. intros [_ Hids]. destruct (Hids id ltac:(left)) as [_ [? ?]]. congruence. }
  rewrite IH, NoDup_cons. setoid_rewrite elem_of_cons. split.
  - intros [Hnd Hids]. split; [split; [|done]|].
    + intros Hid. apply Hids in Hid as [Hid _]. set_solver.
    + intros x [->|Hx]; [split; [done|by apply not_eq_None_Some]|].
      destruct (Hids x Hx). set_solver.
  - intros [[Hnew Hnd] Hids]. split; [done|]. intros x Hx. destruct (Hids x (or_intror Hx)).
    set_solver.
Qed.

Lemma check_open_filters_Ok position open :
  check_open_filters position open = Ok tt ↔ ∀ planned, planned ∈ open → ps_filters planned ≠ [].
Proof.
  revert position. induction open as [|p open IH]; intros position; simpl.
  { split; [by intros _ ? ?%not_elem_of_nil|done]. }
  setoid_rewrite elem_of_cons. case_bool_decide as Hp; [naive_solver|].
  rewrite IH. naive_solver.
Qed.

Lemma distinct_filters_from_Ok seen planned_filters position open :
  distinct_filters_from seen planned_filters position open = Ok tt ↔
  (∀ p planned, p ∈ seen → planned ∈ open → ps_filters planned ≠ p.2) ∧
  NoDup (ps_filters <$> open) ∧
  (∀ planned, planned ∈ open → ps_filters planned ∉ planned_filters).
Proof.
  revert planned_filters position. induction open as [|o open IH]; intros planned_filters position; simpl.
  { split; [|done]. intros _. split_and!; [|constructor|]; by intros * ; rewrite elem_of_nil. }
  destruct (List.find _ seen) as [[first fs]|] eqn:Hfind.
  { apply find_elem in Hfind as [Hin Heq%bool_decide_eq_true]. simpl in Heq. split; [done|].
    intros [Hseen _]. destruct (Hseen _ o Hin ltac:(left)). done. }
  assert (Hnone : ∀ p, p ∈ seen → ps_filters o ≠ p.2).
  { intros p Hp ?. apply find_not_elem with (x := p) in Hfind; [|done].
    by apply bool_decide_eq_false in Hfind. }
  case_bool_decide as Hpl; simpl.
  { split; [done|]. intros (_ & _ & Hnot). by destruct (Hnot o ltac:(left)). }
  rewrite IH, NoDup_cons, list_elem_of_fmap. setoid_rewrite elem_of_cons.
  setoid_rewrite elem_of_snoc. naive_solver.
Qed.

Lemma elem_of_served_demand plan d : d ∈ served_demand plan ↔ plan_serves plan d.
Proof.
  unfold served_demand, plan_serves, attribution_serves.
  rewrite elem_of_app, !list_elem_of_bind. setoid_rewrite elem_of_ordered_elements.
  setoid_rewrite elem_of_keys. f_equiv; [|naive_solver]. split.
  - intros (id & Hd & [entry Hid]). rewrite Hid in Hd. eauto.
  - intros (id & entry & Hid & Hd). exists id. rewrite Hid. eauto.
Qed.

Lemma check_demand_Ok demand plan :
  check_demand demand plan = Ok tt ↔
  (∀ d, d ∈ demand_ids demand → plan_serves plan d ∨ plan_omits plan d) ∧
  (∀ d, plan_serves plan d ∨ plan_omits plan d → d ∈ demand_ids demand).
Proof.
  assert (Hacc : ∀ d, d ∈ (list_to_set (sf_demand <$> sp_shortfalls plan) ∪
      list_to_set (served_demand plan) : gset DemandId) ↔ plan_serves plan d ∨ plan_omits plan d).
  { intros d. rewrite elem_of_union, !elem_of_list_to_set, elem_of_served_demand, list_elem_of_fmap.
    unfold plan_omits. naive_solver. }
  unfold check_demand. cbn zeta. rewrite bind_Ok. setoid_rewrite bind_Ok. split.
  - intros ([] & H1 & [] & H2 & H3).
    pose proof (proj1 (for_each_Ok _ _) H1) as H1'. pose proof (proj1 (for_each_Ok _ _) H2) as H2'.
    pose proof (proj1 (for_each_Ok _ _) H3) as H3'. clear H1 H2 H3. split.
    + intros d Hd. apply Hacc. specialize (H2' d). rewrite elem_of_ordered_elements in H2'.
      specialize (H2' Hd). by apply ensure_Ok, bool_decide_eq_true in H2'.
    + intros d [Hd%elem_of_served_demand|(s & Hs & <-)].
      * apply H1' in Hd. by apply ensure_Ok, bool_decide_eq_true in Hd.
      * apply H3' in Hs. by apply ensure_Ok, bool_decide_eq_true in Hs.
  - intros [Hall Hinv]. exists tt. split; [|exists tt; split]; apply for_each_Ok; intros x Hx;
      apply ensure_Ok, bool_decide_eq_true.
    + apply Hinv. left. by apply elem_of_served_demand.
    + apply Hacc, Hall. by apply elem_of_ordered_elements.
    + apply Hinv. right. by exists x.
Qed.

Lemma check_running_Ok demand installed plan :
  check_running_subscriptions demand installed plan = Ok tt ↔
  ∀ id entry d, id ∈ sp_close plan → installed !! id = Some entry → d ∈ is_serves entry →
    d ∉ demand_ids demand.
Proof.
  unfold check_running_subscriptions. cbn zeta. rewrite for_each_Ok. split.
  - intros Hall id entry d Hid Hentry Hd Hreq. specialize (Hall id Hid). rewrite Hentry in Hall.
    destruct (List.find _ _) eqn:Hfind; [done|].
    apply find_not_elem with (x := d) in Hfind; [|by apply elem_of_ordered_elements].
    by apply bool_decide_eq_false in Hfind.
  - intros Hall id Hid. destruct (installed !! id) as [entry|] eqn:Hentry; [|done].
    destruct (List.find _ _) as [d|] eqn:Hfind; [|done].
    apply find_elem in Hfind as [Hd%elem_of_ordered_elements Hreq%bool_decide_eq_true].
    by destruct (Hall id entry d Hid Hentry Hd).
Qed.

Lemma check_distinct_Ok installed plan :
  check_distinct_filters installed plan = Ok tt ↔
  (∀ id entry planned, id ∈ sp_retain plan → installed !! id = Some entry →
     planned ∈ sp_open plan → ps_filters planned ≠ is_filters entry) ∧
  NoDup (ps_filters <$> sp_open plan).
Proof.
  unfold check_distinct_filters. cbn zeta. rewrite distinct_filters_from_Ok. split.
  - intros (Hseen & Hnd & _). split; [|done]. intros id entry planned Hid Hentry.
    apply (Hseen (id, is_filters entry)). apply list_elem_of_omap. exists id.
    split; [done|]. by rewrite Hentry.
  - intros [Hfresh Hnd]. split_and!; [|done|by intros ? ? ?%not_elem_of_nil].
    intros p planned (id & Hid & Hp)%list_elem_of_omap Hpl.
    apply bind_Some in Hp as (entry & Hentry & [= <-]). by eapply Hfresh.
Qed.

Lemma check_retained_Ok installed plan :
  check_filters installed plan = Ok tt ↔
  (∀ planned, planned ∈ sp_open plan → ps_filters planned ≠ []) ∧
  (∀ id, id ∈ sp_retain plan → ∃ a entry, sp_attribution plan !! id = Some a ∧
     installed !! id = Some entry ∧ at_filters a = is_filters entry).
Proof.
  unfold check_filters. rewrite bind_Ok. split.
  - intros ([] & Ho & Hr). split; [by eapply check_open_filters_Ok|].
    intros id Hid. apply (proj1 (for_each_Ok _ _) Hr) in Hid as
      (entry & Hentry%ok_or_Ok & (a & Ha%ok_or_Ok & Heq%ensure_Ok)%bind_Ok)%bind_Ok.
    apply bool_decide_eq_true in Heq. eauto.
  - intros [Ho Hr]. exists tt. split; [by apply check_open_filters_Ok|]. apply for_each_Ok.
    intros id Hid. destruct (Hr id Hid) as (a & entry & -> & -> & Heq). simpl.
    by apply ensure_Ok, bool_decide_eq_true.
Qed.

Lemma NoDup_app_disjoint {A} (l k : list A) : NoDup (l ++ k) → ∀ x, x ∈ l → x ∉ k.
Proof. rewrite NoDup_app. naive_solver. Qed.

Lemma validate_plan_conforms relay demand constraints installed plan :
  validate_plan relay demand constraints installed plan = Ok tt ↔
  conforms relay demand constraints installed plan.
Proof.
  unfold validate_plan. split.
  - intros ([] & Hrelay%ensure_Ok%bool_decide_eq_true & H)%bind_Ok.
    apply bind_Ok in H as (res & ([] & Hb%buckets_from_Ok & [= <-])%bind_Ok & H).
    apply bind_Ok in H as ([] & Hk%ensure_Ok%bool_decide_eq_true & H).
    apply bind_Ok in H as ([] & [Hopen Hret]%check_retained_Ok & H).
    apply bind_Ok in H as ([] & [Hacc Hinv]%check_demand_Ok & H).
    apply bind_Ok in H as ([] & Hrun & H).
    apply bind_Ok in H as ([] & [Hfresh Hdist]%check_distinct_Ok & H).
    destruct Hb as [Hnd Hids]. split; try done.
    + intros id Hid. by apply Hids.
    + intros id. rewrite <- elem_of_dom, Hk, elem_of_list_to_set. done.
    + intros id a entry Hid Ha Hentry. destruct (Hret id Hid) as (a' & entry' & ? & ? & ?). congruence.
    + by apply check_running_Ok.
    + intros maximum Hmax. unfold check_declared_limits in H. rewrite Hmax in H.
      by apply ensure_Ok, bool_decide_eq_true in H.
  - intros [Hrelay Hnd Hids Hattr Hopen Hunch Hacc Hinv Hrun Hfresh Hdist Hbud].
    apply bind_Ok. exists tt. split; [by apply ensure_Ok, bool_decide_eq_true|].
    apply bind_Ok. exists (list_to_set (sp_retain plan)). split.
    { apply bind_Ok. exists tt. split; [|done]. apply buckets_from_Ok. split; [done|].
      intros id Hid. split; [set_solver|by apply Hids]. }
    apply bind_Ok. exists tt. split.
    { apply ensure_Ok, bool_decide_eq_true, set_eq. intros id.
      by rewrite elem_of_dom, elem_of_list_to_set, Hattr. }
    apply bind_Ok. exists tt. split.
    { apply check_retained_Ok. split; [done|]. intros id Hid.
      destruct (proj2 (Hattr id) Hid) as [a Ha].
      destruct (Hids id) as [entry Hentry]; [apply elem_of_app; by left|].
      exists a, entry. split_and!; [done..|by eapply Hunch]. }
    apply bind_Ok. exists tt. split; [by apply check_demand_Ok|].
    apply bind_Ok. exists tt. split; [by apply check_running_Ok|].
    apply bind_Ok. exists tt. split; [by apply check_distinct_Ok|].
    unfold check_declared_limits. destruct (limit_get _) as [maximum|] eqn:Hmax; [|done].
    apply ensure_Ok, bool_decide_eq_true. by apply Hbud.
Qed.

(** ** What a filter asks for *)

(** NIP-01's conditions on one event.  An empty set constrains nothing on the
    first three axes; a named tag must carry one of its values, so a name with
    no values matches nothing; the count [limit] is no condition on an event. *)
Section matching.
Context `{Nostr}.

Definition axis_admits {A} `{Countable A} (axis : option (gset A)) (x : A) : Prop :=
  match constrained axis with None => True | Some values => x ∈ values end.

Definition tag_admits (name : SingleLetterTag) (values : gset string) (e : Event) : Prop :=
  ∃ tag value, tag ∈ ev_tags e ∧ tag_single_letter tag = Some name ∧
    tag_content tag = Some value ∧ value ∈ values.

Definition filter_admits (search_admits : option string → Event → Prop) (f : Filter) (e : Event) : Prop :=
  axis_admits (fl_ids f) (ev_id e) ∧ axis_admits (fl_authors f) (ev_pubkey e) ∧
  axis_admits (fl_kinds f) (ev_kind e) ∧ search_admits (fl_search f) e ∧
  (∀ since, fl_since f = Some since → (since ≤ ev_created_at e)%N) ∧
  (∀ until, fl_until f = Some until → (ev_created_at e ≤ until)%N) ∧
  (∀ name values, fl_generic_tags f !! name = Some values → tag_admits name values e).

(** The documented behaviour of [Filter::match_event]. *)
Definition Nip01Matching (match_event : Filter → Event → bool) : Prop :=
  ∃ search_admits, ∀ f e, match_event f e = true ↔ filter_admits search_admits f e.

Lemma constrained_Some {A} `{Countable A} (axis : option (gset A)) values :
  constrained axis = Some values ↔ axis = Some values ∧ values ≠ ∅.
Proof.
  unfold constrained. destruct axis as [v|]; simpl; [|naive_solver].
  case_bool_decide; naive_solver.
Qed.

Lemma covers_set_sound {A} `{Countable A} (wide narrow : option (gset A)) x :
  covers_set wide narrow = true → axis_admits narrow x → axis_admits wide x.
Proof.
  unfold covers_set, axis_admits. destruct (constrained wide), (constrained narrow); try done.
  intros ?%bool_decide_eq_true. set_solver.
Qed.

Lemma covers_window_sound wide narrow (t : N) :
  covers_window wide narrow = true →
  (∀ since, fl_since narrow = Some since → (since ≤ t)%N) →
  (∀ until, fl_until narrow = Some until → (t ≤ until)%N) →
  (∀ since, fl_since wide = Some since → (since ≤ t)%N) ∧
  (∀ until, fl_until wide = Some until → (t ≤ until)%N).
Proof.
  unfold covers_window. intros [Hs Hu]%andb_true_iff Hns Hnu. split.
  - intros since Hw. rewrite Hw in Hs. destruct (fl_since narrow) as [n|]; [|done].
    apply bool_decide_eq_true in Hs. specialize (Hns n eq_refl). lia.
  - intros u Hw. rewrite Hw in Hu. destruct (fl_until narrow) as [n|]; [|done].
    apply bool_decide_eq_true in Hu. specialize (Hnu n eq_refl). lia.
Qed.

Lemma covers_tags_sound wide narrow e :
  covers_tags wide narrow = true →
  (∀ name values, fl_generic_tags narrow !! name = Some values → tag_admits name values e) →
  (∀ name values, fl_generic_tags wide !! name = Some values → tag_admits name values e).
Proof.
  unfold covers_tags. intros Hc Hn name values Hw.
  pose proof (proj1 (forallb_elem _ _) Hc (name, values)) as Hc'. simpl in Hc'.
  rewrite elem_of_entries in Hc'. specialize (Hc' Hw).
  destruct (fl_generic_tags narrow !! name) as [nv|] eqn:Hnv; [|done].
  apply bool_decide_eq_true in Hc'. destruct (Hn name nv Hnv) as (tag & v & ? & ? & ? & ?).
  exists tag, v. split_and!; [done..|set_solver].
Qed.

Lemma filter_covers_admits search_admits wide narrow e :
  filter_covers wide narrow = true → filter_admits search_admits narrow e →
  filter_admits search_admits wide e.
Proof.
  unfold filter_covers. case_bool_decide as Heq; [by subst|].
  destruct (_ || _); [done|]. destruct (negb _) eqn:Hrem; [done|].
  apply negb_false_iff in Hrem. unfold coverage_remainder_matches in Hrem.
  apply bool_decide_eq_true in Hrem.
  intros Hc. rewrite !andb_true_iff in Hc. destruct Hc as [[[[Hi Ha] Hk] Hw] Ht].
  intros (Ni & Na & Nk & Ns & Nsi & Nun & Nt).
  destruct (covers_window_sound _ _ _ Hw Nsi Nun).
  unfold filter_admits. split_and!; [by eapply covers_set_sound..|by rewrite Hrem|done|done|].
  by eapply covers_tags_sound.
Qed.

(** Attaching loses nothing: when [filter_covers] lets a demand ride on a
    running filter, every event the demand's filter matches is matched by the
    running one. *)
Theorem filter_covers_sound (match_event : Filter → Event → bool) (wide narrow : Filter) (e : Event)
    (Hnip : Nip01Matching match_event) (Hcovers : filter_covers wide narrow = true)
    (Hmatch : match_event narrow e = true) :
  match_event wide e = true.
Proof.
  destruct Hnip as [search_admits Hspec]. apply Hspec. apply Hspec in Hmatch.
  by eapply filter_covers_admits.
Qed.
End matching.

(** C27. [validate_plan] is an exact decision procedure for the planner
    contract: it accepts a plan if and only if the plan is scoped to its relay,
    names each installed subscription once, attributes exactly what it retains
    without changing a filter, accounts for every demand and invents none,
    withdraws no subscription still wanted, opens no filters twice and stays in
    the declared budget. *)
Theorem validate_plan_exact (relay : RelayUrl) (demand : list RelayDemand)
    (constraints : RelayReadConstraints) (installed : InstalledSubscriptions) (plan : SubscriptionPlan) :
  is_ok (validate_plan relay demand constraints installed plan) = true ↔
  conforms relay demand constraints installed plan.
Proof.
  rewrite <- validate_plan_conforms. by destruct (validate_plan _ _ _ _ _) as [[]|].
Qed.
