(* ===== verification/StandardPlanner.v ===== *)
(** * The standard subscription planner ([crates/fava-subscriptions-standard])

    Attachment to running subscriptions ([attach.rs]), exact grouping of unsent
    demand ([grouping.rs]), the declared message and count bounds ([lib.rs],
    [wire.rs]) and the diff against what runs ([diff.rs]), composed as
    [StandardSubscriptionPlanner::plan] composes them.

    Two loops are not structural.  Merging removes one candidate per turn, so
    the number of candidates is enough fuel.  Splitting for the message bound
    replaces a group of [k > 1] members by at least two groups with [k] members
    in all, so [2k - 1] per queued group is enough; a run without fuel is
    [None], and [standard_plan_conforms] shows it does not happen.

    Sorting uses [merge_sort]; every key sorted here is distinct (demand ids,
    folded filters, map keys), so the result is the one of Rust's stable sort. *)

From S2P Require Import Prelude Nostr Relay State Write Query Subscriptions.

Abbreviation Candidate := (Filter * list RelayDemand)%type (only parsing).
Abbreviation Owners := (gmap string (gset DemandId)) (only parsing).

Section planner.
Context `{FilterCodec}.

(** ** Input checks *)

Fixpoint refuse_duplicates_from (seen : gset DemandId) (demand : list RelayDemand)
    : result SubscriptionPlanError unit :=
  match demand with
  | [] => Ok tt
  | item :: demand =>
      if bool_decide (demand_id item ∈ seen) then Err (DuplicateDemand (demand_id item))
      else refuse_duplicates_from ({[ demand_id item ]} ∪ seen) demand
  end.

Definition refuse_duplicate_demand (demand : list RelayDemand) : result SubscriptionPlanError unit :=
  refuse_duplicates_from ∅ demand.

(** [Some(required) if required > maximum.get()]. *)
Definition over_limit (maximum : nat) (item : RelayDemand) : option nat :=
  required ← fl_limit (rd_filter item); if bool_decide (maximum < required) then Some required else None.

Definition limit_step (maximum : nat) (acc : list RelayDemand * list SubscriptionShortfall)
    (item : RelayDemand) : list RelayDemand * list SubscriptionShortfall :=
  match over_limit maximum item with
  | Some required =>
      (acc.1, acc.2 ++ [mkShortfall (demand_id item) (FilterLimitExceeded required maximum)])
  | None => (acc.1 ++ [item], acc.2)
  end.

Definition admit_filter_limits (demand : list RelayDemand) (constraints : RelayReadConstraints)
    (shortfalls : list SubscriptionShortfall) : list RelayDemand * list SubscriptionShortfall :=
  match limit_get (max_filter_limit constraints) with
  | None => (demand, shortfalls)
  | Some maximum => foldl (limit_step maximum) ([], shortfalls) demand
  end.

(** ** Attachment *)

(** The loop of [host_for] over the installed entries, ascending. *)
Fixpoint host_from (demand : RelayDemand) (covering : option SubscriptionId)
    (installed : list (SubscriptionId * InstalledSubscription)) : option SubscriptionId :=
  match installed with
  | [] => covering
  | (id, entry) :: installed =>
      if bool_decide (demand_id demand ∈ is_serves entry) then Some id
      else host_from demand
             (if bool_decide (covering = None) &&
                 existsb (λ filter, filter_covers filter (rd_filter demand)) (is_filters entry)
              then Some id else covering) installed
  end.

Definition host_for (demand : RelayDemand) (installed : InstalledSubscriptions) : option SubscriptionId :=
  host_from demand None (entries installed).

(** [attached.entry(id).or_default().extend(ids)]. *)
Definition attach_ids (id : SubscriptionId) (ids : gset DemandId) (attached : Owners) : Owners :=
  <[id := default ∅ (attached !! id) ∪ ids]> attached.

(** The loop body, for a planner's choice of [host]. *)
Definition attach_step (host : RelayDemand → option SubscriptionId) (acc : Owners * list RelayDemand)
    (item : RelayDemand) : Owners * list RelayDemand :=
  match host item with
  | Some id => (attach_ids id {[ demand_id item ]} acc.1, acc.2)
  | None => (acc.1, acc.2 ++ [item])
  end.

(** [attach::admit]. *)
Definition attach_demand (demand : list RelayDemand) (installed : InstalledSubscriptions)
    : Owners * list RelayDemand :=
  foldl (attach_step (λ item, host_for item installed)) (∅, []) demand.

Definition surviving_owners (demand : list RelayDemand) (installed : InstalledSubscriptions)
    (attached : Owners) : Owners :=
  let requested := demand_ids demand in
  map_imap (λ id entry,
    let still := filter (λ served, served ∈ requested) (is_serves entry) ∪ default ∅ (attached !! id) in
    if bool_decide (still = ∅) then None else Some still) installed.

(** ** Grouping *)

Definition canonical_encoding (filter : Filter) : string :=
  match filter_json filter with Some text => text | None => filter_debug filter end.

Definition canonical_le (left right : string * RelayDemand) : Prop :=
  key_le (left.1, demand_id left.2) (right.1, demand_id right.2).
#[global] Instance canonical_le_dec : RelDecision canonical_le.
Proof. intros x y. unfold canonical_le. apply _. Defined.

Definition canonical_order (demand : list RelayDemand) : list RelayDemand :=
  snd <$> merge_sort canonical_le ((λ item, (canonical_encoding (rd_filter item), item)) <$> demand).

Definition uniform_bounds (members : list RelayDemand) : option QueryBounds :=
  anchor ← head members;
  if forallb (λ item, bool_decide (rd_bounds item = rd_bounds anchor)) members
  then Some (rd_bounds anchor) else None.

Definition bucket_step (acc : list string * gmap string Candidate) (item : RelayDemand)
    : list string * gmap string Candidate :=
  let key := canonical_encoding (rd_filter item) in
  match acc.2 !! key with
  | Some (filter, members) => (acc.1, <[key := (filter, members ++ [item])]> acc.2)
  | None => (acc.1 ++ [key], <[key := (rd_filter item, [item])]> acc.2)
  end.

(** [order.into_iter().filter_map(|key| buckets.remove(&key))]. *)
Fixpoint drain_buckets (order : list string) (buckets : gmap string Candidate) : list Candidate :=
  match order with
  | [] => []
  | key :: order =>
      match buckets !! key with
      | Some candidate => candidate :: drain_buckets order (delete key buckets)
      | None => drain_buckets order buckets
      end
  end.

Definition bucket_by_filter (demand : list RelayDemand) : list Candidate :=
  let '(order, buckets) := foldl bucket_step ([], ∅) demand in drain_buckets order buckets.

(** Extend the first candidate with this filter, or append a new one. *)
Fixpoint fold_candidate (folded : list Candidate) (filter : Filter) (members : list RelayDemand)
    : list Candidate :=
  match folded with
  | [] => [(filter, members)]
  | (seen, existing) :: folded =>
      if bool_decide (seen = filter) then (seen, existing ++ members) :: folded
      else (seen, existing) :: fold_candidate folded filter members
  end.

Definition fold_identical_unions (candidates : list Candidate) : list Candidate :=
  foldl (λ folded candidate, fold_candidate folded candidate.1 candidate.2) [] candidates.

(** [remainder_matches] of [grouping.rs]: every field outside the union axes. *)
Definition union_remainder_matches (left right : Filter) : bool :=
  bool_decide (fl_search left = fl_search right) && bool_decide (fl_since left = fl_since right) &&
  bool_decide (fl_until left = fl_until right).

Definition union_constrained {A} `{Countable A} (left right : option (gset A)) : option (gset A) :=
  left ← constrained left; right ← constrained right; Some (left ∪ right).

Definition union_ids (left right : Filter) : option Filter :=
  values ← union_constrained (fl_ids left) (fl_ids right);
  Some (mkFilter (Some values) (fl_authors left) (fl_kinds left) (fl_search left) (fl_since left)
          (fl_until left) (fl_limit left) (fl_generic_tags left)).

Definition union_authors (left right : Filter) : option Filter :=
  values ← union_constrained (fl_authors left) (fl_authors right);
  Some (mkFilter (fl_ids left) (Some values) (fl_kinds left) (fl_search left) (fl_since left)
          (fl_until left) (fl_limit left) (fl_generic_tags left)).

Definition union_kinds (left right : Filter) : option Filter :=
  values ← union_constrained (fl_kinds left) (fl_kinds right);
  Some (mkFilter (fl_ids left) (fl_authors left) (Some values) (fl_search left) (fl_since left)
          (fl_until left) (fl_limit left) (fl_generic_tags left)).

Definition union_tag (left right : Filter) (name : SingleLetterTag) : option Filter :=
  left_values ← fl_generic_tags left !! name;
  right_values ← fl_generic_tags right !! name;
  Some (mkFilter (fl_ids left) (fl_authors left) (fl_kinds left) (fl_search left) (fl_since left)
          (fl_until left) (fl_limit left) (<[name := left_values ∪ right_values]> (fl_generic_tags left))).

(** The tag names whose values differ. *)
Definition differing_tags (left right : Filter) : list SingleLetterTag :=
  fst <$> List.filter (λ '(name, values), bool_decide (fl_generic_tags right !! name ≠ Some values))
            (entries (fl_generic_tags left)).

Definition merge_on_sole_differing_axis (left right : Filter) : option Filter :=
  if bool_decide (is_Some (fl_limit left)) || bool_decide (is_Some (fl_limit right)) then None
  else if negb (union_remainder_matches left right) then None
  else if bool_decide (keys (fl_generic_tags left) ≠ keys (fl_generic_tags right)) then None
  else
    let differing := Nat.b2n (bool_decide (fl_ids left ≠ fl_ids right))
                     + Nat.b2n (bool_decide (fl_authors left ≠ fl_authors right))
                     + Nat.b2n (bool_decide (fl_kinds left ≠ fl_kinds right))
                     + length (differing_tags left right) in
    if bool_decide (differing ≠ 1) then None
    else if bool_decide (fl_ids left ≠ fl_ids right) then union_ids left right
    else if bool_decide (fl_authors left ≠ fl_authors right) then union_authors left right
    else if bool_decide (fl_kinds left ≠ fl_kinds right) then union_kinds left right
    else name ← head (differing_tags left right); union_tag left right name.

(** The inner loop: the first partner of [candidates[left]], from index [right]. *)
Fixpoint partner_from (bounds : QueryBounds) (filter : Filter) (right : nat) (candidates : list Candidate)
    : option (nat * Filter) :=
  match candidates with
  | [] => None
  | candidate :: candidates =>
      if bool_decide (uniform_bounds candidate.2 ≠ Some bounds)
      then partner_from bounds filter (S right) candidates
      else match merge_on_sole_differing_axis filter candidate.1 with
           | Some merged => Some (right, merged)
           | None => partner_from bounds filter (S right) candidates
           end
  end.

Fixpoint mergeable_from (left : nat) (candidates : list Candidate) : option (nat * nat * Filter) :=
  match candidates with
  | [] => None
  | candidate :: candidates =>
      match uniform_bounds candidate.2 with
      | None => mergeable_from (S left) candidates
      | Some bounds =>
          match partner_from bounds candidate.1 (S left) candidates with
          | Some (j, merged) => Some (left, j, merged)
          | None => mergeable_from (S left) candidates
          end
      end
  end.

Definition first_mergeable_pair (candidates : list Candidate) : option (nat * nat * Filter) :=
  mergeable_from 0 candidates.

(** [candidates.remove(right)], then the update of [candidates[left]]. *)
Definition absorb (left right : nat) (merged : Filter) (candidates : list Candidate) : list Candidate :=
  match candidates !! right with
  | None => candidates
  | Some (_, absorbed) =>
      alter (λ candidate : Candidate, (merged, candidate.2 ++ absorbed)) left (delete right candidates)
  end.

Fixpoint merge_loop (fuel : nat) (candidates : list Candidate) : list Candidate :=
  match fuel with
  | O => candidates
  | S fuel =>
      match first_mergeable_pair candidates with
      | None => candidates
      | Some (i, j, merged) => merge_loop fuel (absorb i j merged candidates)
      end
  end.

Definition merge_to_fixed_point (candidates : list Candidate) : list Candidate :=
  merge_loop (length candidates) candidates.

Definition group (demand : list RelayDemand) (constraints : RelayReadConstraints) : list Candidate :=
  let candidates := bucket_by_filter (canonical_order demand) in
  fold_identical_unions
    (if bool_decide (limit_get (default_filter_limit constraints) = None)
     then merge_to_fixed_point candidates else candidates).

(** ** Declared bounds *)

Definition completeness (filters : list Filter) (constraints : RelayReadConstraints) : EoseCompleteness :=
  if existsb (λ filter, bool_decide (is_Some (fl_limit filter))) filters then LimitedRequest
  else if bool_decide (is_Some (limit_get (default_filter_limit constraints))) then RelayDefaultLimit
  else Proven.

(** [wire::encoded_bytes]. *)
Definition encoded_bytes (filters : list Filter) : result SubscriptionPlanError N :=
  match req_frame_len filters with
  | Ok bytes => Ok bytes
  | Err text => Err (Encoding (BoundedText_new text))
  end.

Fixpoint fit_loop (fuel : nat) (constraints : RelayReadConstraints) (queue : list Candidate)
    (carried : list AttributedSubscription) (shortfalls : list SubscriptionShortfall)
    : option (result SubscriptionPlanError (list AttributedSubscription * list SubscriptionShortfall)) :=
  match fuel with
  | O => None
  | S fuel =>
      match queue with
      | [] => Some (Ok (carried, shortfalls))
      | (_, []) :: queue => fit_loop fuel constraints queue carried shortfalls
      | (filter, (first :: rest) as members) :: queue =>
          let filters := [filter] in
          match encoded_bytes filters with
          | Err error => Some (Err error)
          | Ok bytes =>
              let declared := N.of_nat <$> limit_get (max_message_bytes constraints) in
              if match declared with None => true | Some maximum => bool_decide (bytes ≤ maximum)%N end
              then fit_loop fuel constraints queue
                     (carried ++ [mkAttributed filters (demand_ids members) (completeness filters constraints)])
                     shortfalls
              else
                let maximum := default bytes declared in
                match rest with
                | [] => fit_loop fuel constraints queue carried
                          (shortfalls ++ [mkShortfall (demand_id first) (MessageTooLarge bytes maximum)])
                | _ =>
                    let midpoint := (length members + 1) / 2 in
                    fit_loop fuel constraints
                      (queue ++ group (take midpoint members) constraints
                             ++ group (drop midpoint members) constraints) carried shortfalls
                end
          end
      end
  end.

(** The turns one queued group may take. *)
Definition turns (candidate : Candidate) : nat := Nat.max 1 (2 * length candidate.2 - 1).

Definition fit_message_bound (grouped : list Candidate) (constraints : RelayReadConstraints)
    (shortfalls : list SubscriptionShortfall)
    : option (result SubscriptionPlanError (list AttributedSubscription * list SubscriptionShortfall)) :=
  fit_loop (S (sum_list (turns <$> grouped))) constraints grouped [] shortfalls.

Fixpoint fold_attributed (folded : list AttributedSubscription) (candidate : AttributedSubscription)
    : list AttributedSubscription :=
  match folded with
  | [] => [candidate]
  | seen :: folded =>
      if bool_decide (at_filters seen = at_filters candidate)
      then mkAttributed (at_filters seen) (at_serves seen ∪ at_serves candidate) (at_completeness seen) :: folded
      else seen :: fold_attributed folded candidate
  end.

Definition fold_identical_filters (candidates : list AttributedSubscription) : list AttributedSubscription :=
  foldl fold_attributed [] candidates.

(** The first running subscription that carries exactly these filters. *)
Definition running_with (installed : InstalledSubscriptions) (filters : list Filter)
    : option (SubscriptionId * InstalledSubscription) :=
  List.find (λ p, bool_decide (is_filters p.2 = filters)) (entries installed).

Definition running_step (installed : InstalledSubscriptions) (acc : list AttributedSubscription * Owners)
    (candidate : AttributedSubscription) : list AttributedSubscription * Owners :=
  match running_with installed (at_filters candidate) with
  | Some (id, _) => (acc.1, attach_ids id (at_serves candidate) acc.2)
  | None => (acc.1 ++ [candidate], acc.2)
  end.

Definition fold_into_running (candidates : list AttributedSubscription)
    (installed : InstalledSubscriptions) (attached : Owners) : list AttributedSubscription * Owners :=
  foldl (running_step installed) ([], attached) candidates.

Definition fit_residual_count (candidates : list AttributedSubscription) (constraints : RelayReadConstraints)
    (running : nat) (shortfalls : list SubscriptionShortfall)
    : list AttributedSubscription * list SubscriptionShortfall :=
  match limit_get (max_subscriptions constraints) with
  | None => (candidates, shortfalls)
  | Some maximum =>
      let residual := maximum - running in
      if bool_decide (length candidates ≤ residual) then (candidates, shortfalls)
      else
        let required := running + length candidates in
        (take residual candidates,
         shortfalls ++ (drop residual candidates ≫= λ dropped,
           (λ demand, mkShortfall demand (SubscriptionsExhausted required maximum)) <$>
             ordered_elements (at_serves dropped)))
  end.

(** ** The diff *)

Definition withdrawals (installed : InstalledSubscriptions) (owners : Owners) : list SubscriptionId :=
  List.filter (λ id, bool_decide (owners !! id = None)) (keys installed).

Definition open_le (left right : PlannedSubscription) : Prop :=
  key_le (ps_filters left) (ps_filters right).
#[global] Instance open_le_dec : RelDecision open_le.
Proof. intros x y. unfold open_le. apply _. Defined.

Definition retained_entries (constraints : RelayReadConstraints) (installed : InstalledSubscriptions)
    (owners : Owners) : list (SubscriptionId * AttributedSubscription) :=
  omap (λ '(id, serves),
    entry ← installed !! id;
    Some (id, mkAttributed (is_filters entry) serves (completeness (is_filters entry) constraints)))
    (entries owners).

Definition assemble (relay : RelayUrl) (revision : PlanRevision) (opened : list AttributedSubscription)
    (constraints : RelayReadConstraints) (installed : InstalledSubscriptions) (owners : Owners)
    (shortfalls : list SubscriptionShortfall) : SubscriptionPlan :=
  let open := (λ attributed, mkPlannedSub (at_filters attributed) (at_serves attributed)
                               (at_completeness attributed)) <$> opened in
  let attribution := retained_entries constraints installed owners in
  mkSubscriptionPlan relay revision (merge_sort open_le open) (merge_sort key_le (fst <$> attribution))
    (withdrawals installed owners) (list_to_map attribution) shortfalls.

(** [StandardSubscriptionPlanner::plan]. *)
Definition standard_plan : Planner := λ relay demand constraints installed revision,
  match refuse_duplicate_demand demand with
  | Err error => Some (Err error)
  | Ok _ =>
      let '(admissible, shortfalls) := admit_filter_limits demand constraints [] in
      let '(attached, pending) := attach_demand admissible installed in
      let grouped := group pending constraints in
      match fit_message_bound grouped constraints shortfalls with
      | None => None
      | Some (Err error) => Some (Err error)
      | Some (Ok (candidates, shortfalls)) =>
          let candidates := fold_identical_filters candidates in
          let '(candidates, attached) := fold_into_running candidates installed attached in
          let owners := surviving_owners admissible installed attached in
          let '(candidates, shortfalls) :=
            fit_residual_count candidates constraints (size owners) shortfalls in
          Some (Ok (assemble relay revision candidates constraints installed owners shortfalls))
      end
  end.
End planner.
