(* ===== verification/Grouping.v ===== *)
(** * Grouping is exact: lemmas on [grouping.rs] of the standard planner

    A merged filter asks for exactly the union of what its operands ask for,
    grouping partitions the demand it is given, and no two groups share a
    filter. *)

From S2P Require Import Prelude Nostr Relay State Write Query Subscriptions StandardPlanner.

Section unions.
Context `{Nostr}.

Lemma axis_admits_union {A} `{Countable A} (left right : option (gset A)) values x :
  union_constrained left right = Some values →
  axis_admits (Some values) x ↔ axis_admits left x ∨ axis_admits right x.
Proof.
  unfold union_constrained, axis_admits.
  intros (l & Hl & (r & Hr & [= <-])%bind_Some)%bind_Some. rewrite Hl, Hr.
  apply constrained_Some in Hl as [_ Hl]. assert (Hne : l ∪ r ≠ ∅) by set_solver.
  unfold constrained. simpl. rewrite bool_decide_eq_false_2 by done. set_solver.
Qed.

Lemma tag_admits_union name (l r : gset string) e :
  tag_admits name (l ∪ r) e ↔ tag_admits name l e ∨ tag_admits name r e.
Proof. unfold tag_admits. setoid_rewrite elem_of_union. naive_solver. Qed.

(** Tag constraints that agree but for the values of one name. *)
Lemma tags_admit_union (lt rt : gmap N (gset string)) name l r e :
  lt !! name = Some l → rt !! name = Some r → (∀ k, k ≠ name → rt !! k = lt !! k) →
  (∀ k v, <[name := l ∪ r]> lt !! k = Some v → tag_admits k v e) ↔
  (∀ k v, lt !! k = Some v → tag_admits k v e) ∨ (∀ k v, rt !! k = Some v → tag_admits k v e).
Proof.
  intros Hl Hr Hsame. split.
  - intros Hall. pose proof (Hall name (l ∪ r)) as Hn. rewrite lookup_insert_eq in Hn.
    assert (Hrest : ∀ k v, k ≠ name → lt !! k = Some v → tag_admits k v e).
    { intros k v Hk Hv. apply Hall. by rewrite lookup_insert_ne. }
    apply tag_admits_union in Hn as [Hn|Hn]; [left|right|done]; intros k v Hv;
      (destruct (decide (k = name)) as [->|Hk]; [naive_solver|]).
    + by apply Hrest.
    + apply Hrest; [done|]. by rewrite <- Hsame.
  - intros Hor k v. destruct (decide (k = name)) as [->|Hk].
    + rewrite lookup_insert_eq. intros [= <-]. apply tag_admits_union. naive_solver.
    + rewrite lookup_insert_ne by done. intros Hv. destruct Hor as [Hor|Hor]; apply Hor; [done|].
      by rewrite Hsame.
Qed.

Lemma differing_tags_spec left right name :
  keys (fl_generic_tags left) = keys (fl_generic_tags right) →
  name ∈ differing_tags left right ↔ fl_generic_tags left !! name ≠ fl_generic_tags right !! name.
Proof.
  intros Hkeys. unfold differing_tags. rewrite list_elem_of_fmap. split.
  - intros ([k v] & -> & [Hd Hk%elem_of_entries]%elem_of_filterb). simpl.
    apply bool_decide_eq_true in Hd. congruence.
  - intros Hd. destruct (fl_generic_tags left !! name) as [v|] eqn:Hl.
    + exists (name, v). split; [done|]. apply elem_of_filterb. rewrite elem_of_entries.
      split; [|done]. apply bool_decide_eq_true. congruence.
    + exfalso. destruct (fl_generic_tags right !! name) as [w|] eqn:Hr; [|done].
      assert (Hin : name ∈ keys (fl_generic_tags right)) by (apply elem_of_keys; eauto).
      rewrite <- Hkeys in Hin. apply elem_of_keys in Hin as [? ?]. congruence.
Qed.

Lemma differing_tags_nil left right :
  keys (fl_generic_tags left) = keys (fl_generic_tags right) →
  differing_tags left right = [] → fl_generic_tags left = fl_generic_tags right.
Proof.
  intros Hkeys Hnil. apply map_eq. intros name. apply dec_stable. intros Hd.
  apply (proj2 (differing_tags_spec left right name Hkeys)) in Hd. rewrite Hnil in Hd.
  by apply not_elem_of_nil in Hd.
Qed.

(** The operands of a merge agree everywhere but on one axis. *)
Inductive merged_on (left right merged : Filter) : Prop :=
| MergedIds values :
    union_constrained (fl_ids left) (fl_ids right) = Some values →
    fl_authors right = fl_authors left → fl_kinds right = fl_kinds left →
    fl_generic_tags right = fl_generic_tags left →
    merged = mkFilter (Some values) (fl_authors left) (fl_kinds left) (fl_search left)
               (fl_since left) (fl_until left) (fl_limit left) (fl_generic_tags left) →
    merged_on left right merged
| MergedAuthors values :
    union_constrained (fl_authors left) (fl_authors right) = Some values →
    fl_ids right = fl_ids left → fl_kinds right = fl_kinds left →
    fl_generic_tags right = fl_generic_tags left →
    merged = mkFilter (fl_ids left) (Some values) (fl_kinds left) (fl_search left)
               (fl_since left) (fl_until left) (fl_limit left) (fl_generic_tags left) →
    merged_on left right merged
| MergedKinds values :
    union_constrained (fl_kinds left) (fl_kinds right) = Some values →
    fl_ids right = fl_ids left → fl_authors right = fl_authors left →
    fl_generic_tags right = fl_generic_tags left →
    merged = mkFilter (fl_ids left) (fl_authors left) (Some values) (fl_search left)
               (fl_since left) (fl_until left) (fl_limit left) (fl_generic_tags left) →
    merged_on left right merged
| MergedTag name l r :
    fl_generic_tags left !! name = Some l → fl_generic_tags right !! name = Some r →
    (∀ k, k ≠ name → fl_generic_tags right !! k = fl_generic_tags left !! k) →
    fl_ids right = fl_ids left → fl_authors right = fl_authors left → fl_kinds right = fl_kinds left →
    merged = mkFilter (fl_ids left) (fl_authors left) (fl_kinds left) (fl_search left)
               (fl_since left) (fl_until left) (fl_limit left) (<[name := l ∪ r]> (fl_generic_tags left)) →
    merged_on left right merged.

Lemma merge_Some left right merged :
  merge_on_sole_differing_axis left right = Some merged →
  merged_on left right merged ∧ fl_limit left = None ∧ fl_limit right = None ∧
  fl_search right = fl_search left ∧ fl_since right = fl_since left ∧ fl_until right = fl_until left.
Proof.
  unfold merge_on_sole_differing_axis. destruct (_ || _) eqn:Hlim; [done|].
  apply orb_false_iff in Hlim as [Hll Hlr].
  apply bool_decide_eq_false, eq_None_not_Some in Hll, Hlr.
  destruct (negb _) eqn:Hrem; [done|]. apply negb_false_iff in Hrem.
  unfold union_remainder_matches in Hrem. rewrite !andb_true_iff, !bool_decide_eq_true in Hrem.
  destruct Hrem as [[Hs Hsi] Hun].
  case_bool_decide as Hkeys; [done|].
  case_bool_decide as Hone; [done|].
  intros Hm. split; [|by rewrite Hs, Hsi, Hun].
  assert (Hnil : length (differing_tags left right) = 0 → fl_generic_tags right = fl_generic_tags left).
  { intros Hz%nil_length_inv. symmetry. by apply differing_tags_nil. }
  case_bool_decide as Hids; case_bool_decide as Ha; case_bool_decide as Hk; simpl in Hone;
    try (exfalso; lia); [apply bind_Some in Hm as (values & Hv & [= <-])..|].
  { eapply MergedIds; [done|done|done| |done]. apply Hnil. lia. }
  { eapply MergedAuthors; [done|done|done| |done]. apply Hnil. lia. }
  { eapply MergedKinds; [done|done|done| |done]. apply Hnil. lia. }
  apply bind_Some in Hm as (name & Hname & Hm).
  apply bind_Some in Hm as (l & Hl & (r & Hr & [= <-])%bind_Some).
  eapply MergedTag; [done|done| |done..].
  intros k Hkn. symmetry. apply dec_stable. intros Hd.
  apply (proj2 (differing_tags_spec left right k Hkeys)) in Hd.
  destruct (differing_tags left right) as [|x [|y ds]]; simpl in *; [done| |lia].
  simplify_eq. apply list_elem_of_singleton in Hd. done.
Qed.

(** A merge asks for exactly what its two operands ask for. *)
Lemma merge_exact search_admits left right merged e :
  merge_on_sole_differing_axis left right = Some merged →
  filter_admits search_admits merged e ↔
  filter_admits search_admits left e ∨ filter_admits search_admits right e.
Proof.
  intros (Hm & _ & _ & Hs & Hsi & Hun)%merge_Some. unfold filter_admits.
  destruct Hm as [values Hv Ha Hk Ht ->|values Hv Hi Hk Ht ->|values Hv Hi Ha Ht ->|name l r Hl Hr Hsame Hi Ha Hk ->];
    rewrite Hs, Hsi, Hun; simpl.
  - rewrite Ha, Hk, Ht. pose proof (axis_admits_union _ _ _ (ev_id e) Hv). tauto.
  - rewrite Hi, Hk, Ht. pose proof (axis_admits_union _ _ _ (ev_pubkey e) Hv). tauto.
  - rewrite Hi, Ha, Ht. pose proof (axis_admits_union _ _ _ (ev_kind e) Hv). tauto.
  - rewrite Hi, Ha, Hk. pose proof (tags_admit_union _ _ name l r e Hl Hr Hsame). tauto.
Qed.

Lemma merge_limits left right merged :
  merge_on_sole_differing_axis left right = Some merged →
  fl_limit left = None ∧ fl_limit right = None ∧ fl_limit merged = None.
Proof.
  intros (Hm & Hl & Hr & _)%merge_Some. split_and!; [done..|].
  by destruct Hm as [? ? ? ? ? ->|? ? ? ? ? ->|? ? ? ? ? ->|? ? ? ? ? ? ? ? ? ->].
Qed.
End unions.

(** ** Candidates *)

(** All the demand a list of candidates carries. *)
Definition members_of (candidates : list Candidate) : list RelayDemand := candidates ≫= snd.

Lemma members_of_perm (cs cs' : list Candidate) : cs ≡ₚ cs' → members_of cs ≡ₚ members_of cs'.
Proof. intros Hp. unfold members_of. by rewrite Hp. Qed.

Lemma elem_of_members_of (cs : list Candidate) m : m ∈ members_of cs ↔ ∃ c, c ∈ cs ∧ m ∈ c.2.
Proof. unfold members_of. rewrite list_elem_of_bind. naive_solver. Qed.

Section candidates.
Context `{Nostr} `{FilterCodec}.

(** A candidate serves someone, asks for exactly what its members ask for, and
    shares a filter with a count bound only between equal requests. *)
Record candidate_ok (c : Candidate) : Prop := {
  cand_members : c.2 ≠ [];
  cand_exact : ∀ search_admits e, filter_admits search_admits c.1 e ↔
    ∃ m, m ∈ c.2 ∧ filter_admits search_admits (rd_filter m) e;
  cand_limit : ∀ m, m ∈ c.2 →
    rd_filter m = c.1 ∨ (fl_limit c.1 = None ∧ fl_limit (rd_filter m) = None)
}.

(** ... and while nothing is merged, all its members are one request. *)
Definition candidate_same (c : Candidate) : Prop := c.2 ≠ [] ∧ ∀ m, m ∈ c.2 → rd_filter m = c.1.

Lemma candidate_same_ok c : candidate_same c → candidate_ok c.
Proof.
  intros [Hne Hsame]. split; [done| |by left; apply Hsame].
  intros search_admits e. split.
  - intros Hc. destruct (c.2) as [|m ms]; [done|]. exists m. split; [left|].
    by rewrite Hsame by left.
  - intros (m & Hm & Ha). by rewrite Hsame in Ha.
Qed.

Lemma candidate_merge cl cr merged :
  merge_on_sole_differing_axis cl.1 cr.1 = Some merged → candidate_ok cl → candidate_ok cr →
  candidate_ok (merged, cl.2 ++ cr.2).
Proof.
  intros Hm [Hnl Hel Hll] [Hnr Her Hlr]. destruct (merge_limits _ _ _ Hm) as (Hl & Hr & Hmm).
  split; simpl.
  - by destruct (cl.2).
  - intros search_admits e. rewrite (merge_exact _ _ _ _ _ Hm), Hel, Her.
    setoid_rewrite elem_of_app. naive_solver.
  - intros m [Hin|Hin]%elem_of_app; right; (split; [done|]).
    + destruct (Hll m Hin) as [->|[_ ?]]; done.
    + destruct (Hlr m Hin) as [->|[_ ?]]; done.
Qed.

(** *** Merging *)

Lemma partner_from_Some bounds f right cs j merged :
  partner_from bounds f right cs = Some (j, merged) →
  ∃ j' c, j = right + j' ∧ cs !! j' = Some c ∧ merge_on_sole_differing_axis f c.1 = Some merged.
Proof.
  revert right. induction cs as [|c cs IH]; intros right; simpl; [done|].
  assert (Hrec : partner_from bounds f (S right) cs = Some (j, merged) →
    ∃ j' c', j = right + j' ∧ (c :: cs) !! j' = Some c' ∧ merge_on_sole_differing_axis f c'.1 = Some merged).
  { intros (j' & c' & -> & ? & ?)%IH. exists (S j'), c'. split_and!; [lia|done..]. }
  case_bool_decide; [done|]. destruct (merge_on_sole_differing_axis f c.1) eqn:Hm; [|done].
  intros [= <- <-]. exists 0, c. split_and!; [lia|done..].
Qed.

Lemma mergeable_from_Some left cs i j merged :
  mergeable_from left cs = Some (i, j, merged) →
  ∃ i' j' cl cr, i = left + i' ∧ j = left + j' ∧ i' < j' ∧ cs !! i' = Some cl ∧ cs !! j' = Some cr ∧
    merge_on_sole_differing_axis cl.1 cr.1 = Some merged.
Proof.
  revert left. induction cs as [|c cs IH]; intros left; simpl; [done|].
  assert (Hrec : mergeable_from (S left) cs = Some (i, j, merged) →
    ∃ i' j' cl cr, i = left + i' ∧ j = left + j' ∧ i' < j' ∧ (c :: cs) !! i' = Some cl ∧
      (c :: cs) !! j' = Some cr ∧ merge_on_sole_differing_axis cl.1 cr.1 = Some merged).
  { intros (i' & j' & cl & cr & -> & -> & ? & ? & ? & ?)%IH.
    exists (S i'), (S j'), cl, cr. split_and!; [lia..|done|done|done]. }
  destruct (uniform_bounds c.2) as [b|]; [|done].
  destruct (partner_from _ _ _ _) as [[j0 m0]|] eqn:Hp; [|done].
  intros [= <- <- <-]. apply partner_from_Some in Hp as (j' & cr & -> & Hj & Hm).
  exists 0, (S j'), c, cr. split_and!; [lia..|done|done|done].
Qed.

Lemma alter_Permutation {A} (f : A → A) i (l : list A) x :
  l !! i = Some x → alter f i l ≡ₚ f x :: delete i l.
Proof.
  revert i. induction l as [|y l IH]; intros [|i]; simpl; intros Hx; simplify_eq; [done|].
  unfold alter in IH. rewrite (IH i Hx). apply Permutation_swap.
Qed.

Lemma absorb_perm i j merged (cs : list Candidate) cl cr :
  i < j → cs !! i = Some cl → cs !! j = Some cr →
  ∃ rest, cs ≡ₚ cl :: cr :: rest ∧ absorb i j merged cs ≡ₚ (merged, cl.2 ++ cr.2) :: rest.
Proof.
  intros Hij Hi Hj. exists (delete i (delete j cs)).
  assert (Hi' : delete j cs !! i = Some cl) by (rewrite list_lookup_delete_lt; done).
  split.
  - rewrite (delete_Permutation cs j cr Hj) at 1. rewrite (delete_Permutation _ i cl Hi') at 1.
    apply Permutation_swap.
  - unfold absorb. rewrite Hj. destruct cr as [fr mr]. by rewrite (alter_Permutation _ i _ cl Hi').
Qed.

Lemma first_mergeable_absorb cs i j merged :
  first_mergeable_pair cs = Some (i, j, merged) →
  ∃ cl cr rest, merge_on_sole_differing_axis cl.1 cr.1 = Some merged ∧ cs ≡ₚ cl :: cr :: rest ∧
    absorb i j merged cs ≡ₚ (merged, cl.2 ++ cr.2) :: rest.
Proof.
  intros (i' & j' & cl & cr & -> & -> & Hij & Hi & Hj & Hm)%mergeable_from_Some.
  destruct (absorb_perm (0 + i') (0 + j') merged cs cl cr) as (rest & ? & ?); [done..|]. by exists cl, cr, rest.
Qed.

Lemma merge_loop_ok fuel cs :
  Forall candidate_ok cs →
  Forall candidate_ok (merge_loop fuel cs) ∧ members_of (merge_loop fuel cs) ≡ₚ members_of cs.
Proof.
  revert cs. induction fuel as [|fuel IH]; intros cs Hcs; simpl; [done|].
  destruct (first_mergeable_pair cs) as [[[i j] merged]|] eqn:Hp; [|done].
  apply first_mergeable_absorb in Hp as (cl & cr & rest & Hm & Hperm & Habs).
  destruct (IH (absorb i j merged cs)) as [Hok Hmem].
  { rewrite Habs. rewrite Hperm in Hcs. apply Forall_cons in Hcs as [Hcl Hcs].
    apply Forall_cons in Hcs as [Hcr Hcs]. constructor; [|done]. by apply candidate_merge. }
  split; [done|]. rewrite Hmem. rewrite (members_of_perm _ _ Habs), (members_of_perm _ _ Hperm).
  unfold members_of. simpl. by rewrite <- (assoc_L (++)).
Qed.

(** The loop stops because it runs out of pairs, never of fuel. *)
Lemma merge_loop_fixed fuel cs :
  length cs ≤ fuel → first_mergeable_pair (merge_loop fuel cs) = None.
Proof.
  revert cs. induction fuel as [|fuel IH]; intros cs Hlen; simpl.
  { by destruct cs; [|simpl in Hlen; lia]. }
  destruct (first_mergeable_pair cs) as [[[i j] merged]|] eqn:Hp; [|done].
  apply first_mergeable_absorb in Hp as (cl & cr & rest & _ & Hperm & Habs).
  apply IH. apply Permutation_length in Hperm, Habs. simpl in *. lia.
Qed.

(** *** Folding *)

Lemma fold_candidate_members cs f ms : members_of (fold_candidate cs f ms) ≡ₚ members_of cs ++ ms.
Proof.
  unfold members_of. induction cs as [|[g es] cs IH]; simpl; [by rewrite (right_id_L [] (++))|].
  case_bool_decide; simpl.
  - rewrite <- !(assoc_L (++)). f_equiv. apply Permutation_app_comm.
  - rewrite <- (assoc_L (++)). f_equiv. exact IH.
Qed.

Lemma fold_candidate_filters cs f ms g :
  g ∈ (fold_candidate cs f ms).*1 ↔ g ∈ cs.*1 ∨ g = f.
Proof.
  induction cs as [|[h es] cs IH]; csimpl.
  { rewrite list_elem_of_singleton. set_solver. }
  case_bool_decide as Heq; csimpl; rewrite !elem_of_cons; [naive_solver|]. rewrite IH. tauto.
Qed.

Lemma fold_candidate_NoDup cs f ms : NoDup cs.*1 → NoDup (fold_candidate cs f ms).*1.
Proof.
  induction cs as [|[h es] cs IH]; csimpl; [intros _; apply NoDup_singleton|].
  rewrite NoDup_cons. intros [Hh Hnd]. case_bool_decide as Heq; csimpl; rewrite NoDup_cons; [done|].
  split; [|by apply IH]. rewrite fold_candidate_filters. naive_solver.
Qed.

Lemma candidate_ok_app f es ms :
  candidate_ok (f, es) → candidate_ok (f, ms) → candidate_ok (f, es ++ ms).
Proof.
  intros [Hn He Hl] [Hn' He' Hl']. simpl in *. split; simpl.
  - by destruct es.
  - intros search_admits e. setoid_rewrite elem_of_app. split.
    + rewrite He. naive_solver.
    + intros (m & [Hm|Hm] & Ha); [apply He|apply He']; eauto.
  - intros m [Hm|Hm]%elem_of_app; auto.
Qed.

Lemma candidate_same_app f es ms :
  candidate_same (f, es) → candidate_same (f, ms) → candidate_same (f, es ++ ms).
Proof.
  intros [Hn Hs] [_ Hs']. simpl in *. split; simpl; [by destruct es|].
  intros m [Hm|Hm]%elem_of_app; auto.
Qed.

(** A property of candidates that survives joining two of one filter. *)
Lemma fold_candidate_Forall (P : Candidate → Prop) cs f ms :
  (∀ f es ms, P (f, es) → P (f, ms) → P (f, es ++ ms)) →
  Forall P cs → P (f, ms) → Forall P (fold_candidate cs f ms).
Proof.
  intros Happ. induction cs as [|[g es] cs IH]; simpl; intros Hcs Hf; [by constructor|].
  apply Forall_cons in Hcs as [Hg Hcs]. case_bool_decide as Heq; constructor; auto. subst. by apply Happ.
Qed.

Lemma fold_unions_spec (P : Candidate → Prop) cs :
  (∀ f es ms, P (f, es) → P (f, ms) → P (f, es ++ ms)) → Forall P cs →
  Forall P (fold_identical_unions cs) ∧ members_of (fold_identical_unions cs) ≡ₚ members_of cs ∧
  NoDup (fold_identical_unions cs).*1.
Proof.
  intros Happ. unfold fold_identical_unions.
  assert (Hgen : ∀ acc, Forall P acc → NoDup acc.*1 → Forall P cs →
    let res := foldl (λ folded candidate, fold_candidate folded candidate.1 candidate.2) acc cs in
    Forall P res ∧ members_of res ≡ₚ members_of acc ++ members_of cs ∧ NoDup res.*1).
  { induction cs as [|[f ms] cs IH]; intros acc Hacc Hnd Hcs; simpl.
    { split_and!; [done| |done]. by rewrite (right_id_L [] (++)). }
    apply Forall_cons in Hcs as [Hc Hcs].
    destruct (IH (fold_candidate acc f ms)) as (H1 & H2 & H3);
      [by apply fold_candidate_Forall|by apply fold_candidate_NoDup|done|].
    split_and!; [done| |done]. rewrite H2, fold_candidate_members. by rewrite <- (assoc_L (++)). }
  intros Hcs. destruct (Hgen []) as (? & ? & ?); [constructor|constructor|done|]. done.
Qed.
End candidates.

(** ** Buckets *)

Section buckets.
Context `{Nostr} `{FilterCodec}.

Lemma canonical_order_perm demand : canonical_order demand ≡ₚ demand.
Proof.
  unfold canonical_order. rewrite merge_sort_Permutation, <- list_fmap_compose.
  by rewrite (list_fmap_ext _ id) by done; rewrite list_fmap_id.
Qed.

(** What [bucket_by_filter] has built after part of the demand. *)
Record buckets_inv (done_ : list RelayDemand) (order : list string) (buckets : gmap string Candidate) : Prop := {
  bk_order : NoDup order;
  bk_keys : ∀ key, is_Some (buckets !! key) ↔ key ∈ order;
  bk_text : ∀ key c, buckets !! key = Some c → c.2 ≠ [] ∧ canonical_encoding c.1 = key ∧
    ∀ m, m ∈ c.2 → canonical_encoding (rd_filter m) = key;
  bk_members : (order ≫= λ key, from_option snd [] (buckets !! key)) ≡ₚ done_
}.

Lemma bind_insert_other (order : list string) (buckets : gmap string Candidate) key c :
  key ∉ order → (order ≫= λ k, from_option snd [] (<[key := c]> buckets !! k)) =
                (order ≫= λ k, from_option snd [] (buckets !! k)).
Proof.
  induction order as [|k order IH]; simpl; [done|]. rewrite not_elem_of_cons. intros [Hk Hin].
  rewrite lookup_insert_ne by done. f_equal. by apply IH.
Qed.

Lemma bind_insert_extend (order : list string) (buckets : gmap string Candidate) key f ms m :
  NoDup order → key ∈ order → buckets !! key = Some (f, ms) →
  (order ≫= λ k, from_option snd [] (<[key := (f, ms ++ [m])]> buckets !! k)) ≡ₚ
  (order ≫= λ k, from_option snd [] (buckets !! k)) ++ [m].
Proof.
  intros Hnd Hin Hk. apply list_elem_of_split in Hin as (o1 & o2 & ->).
  apply NoDup_app in Hnd as (_ & Hd & [Hk2 _]%NoDup_cons).
  assert (Hk1 : key ∉ o1) by (intros ?; destruct (Hd key); [done|left]).
  rewrite !bind_app, !bind_cons, lookup_insert_eq, Hk, !bind_insert_other by done. simpl.
  rewrite <- !(assoc_L (++)). f_equiv. f_equiv. apply Permutation_app_comm.
Qed.

Lemma bucket_step_inv done_ order buckets item :
  buckets_inv done_ order buckets →
  buckets_inv (done_ ++ [item]) (bucket_step (order, buckets) item).1 (bucket_step (order, buckets) item).2.
Proof.
  intros [Hnd Hkeys Htext Hmem]. unfold bucket_step. cbn zeta. simpl.
  set (key := canonical_encoding (rd_filter item)).
  destruct (buckets !! key) as [[f ms]|] eqn:Hk; simpl.
  - assert (Hin : key ∈ order) by (apply Hkeys; eauto).
    destruct (Htext key _ Hk) as (Hne & Hf & Hms). split; [done| | |].
    + intros k. rewrite <- Hkeys, lookup_insert_is_Some. destruct (decide (key = k)) as [<-|]; [|naive_solver].
      rewrite Hk. naive_solver.
    + intros k c. rewrite lookup_insert_Some. intros [[<- <-]|[_ Hc]]; [|by apply Htext].
      split_and!; [by destruct ms|done|]. intros m [Hm| ->]%elem_of_snoc; [by apply Hms|done].
    + rewrite (bind_insert_extend _ _ _ _ _ _ Hnd Hin Hk). by rewrite Hmem.
  - assert (Hnin : key ∉ order).
    { intros Hin. apply Hkeys in Hin as [c Hc]. congruence. }
    split.
    + by apply NoDup_snoc.
    + intros k. rewrite elem_of_snoc, <- Hkeys, lookup_insert_is_Some. naive_solver.
    + intros k c. rewrite lookup_insert_Some. intros [[<- <-]|[_ Hc]]; [|by apply Htext].
      split_and!; [done|done|]. intros m ->%list_elem_of_singleton. done.
    + rewrite bind_app, bind_cons, lookup_insert_eq, bind_insert_other by done. simpl. by rewrite Hmem.
Qed.

Lemma bucket_fold_inv demand done_ order buckets :
  buckets_inv done_ order buckets →
  buckets_inv (done_ ++ demand) (foldl bucket_step (order, buckets) demand).1
    (foldl bucket_step (order, buckets) demand).2.
Proof.
  revert done_ order buckets. induction demand as [|item demand IH]; intros done_ order buckets Hinv; simpl.
  { by rewrite (right_id_L [] (++)). }
  apply (bucket_step_inv _ _ _ item) in Hinv. destruct (bucket_step (order, buckets) item) as [o b].
  apply IH in Hinv. by rewrite <- (assoc_L (++)) in Hinv.
Qed.

Lemma drain_buckets_omap order buckets :
  NoDup order → drain_buckets order buckets = omap (λ key, buckets !! key) order.
Proof.
  revert buckets. induction order as [|key order IH]; intros buckets; simpl; [done|].
  rewrite NoDup_cons. intros [Hin Hnd]. destruct (buckets !! key) as [c|]; [|by apply IH].
  f_equal. rewrite IH by done. apply list_omap_ext, Forall2_same_length_lookup_2; [done|].
  intros i x y Hx Hy. simplify_eq. rewrite lookup_delete_ne; [done|].
  intros ->. by apply list_elem_of_lookup_2 in Hx.
Qed.

(** Equal canonical text means equal filters: the encoder loses nothing. *)
Definition FaithfulText : Prop := ∀ f g, canonical_encoding f = canonical_encoding g → f = g.

Lemma bucket_by_filter_spec demand :
  FaithfulText →
  Forall candidate_same (bucket_by_filter demand) ∧ members_of (bucket_by_filter demand) ≡ₚ demand.
Proof.
  intros Hinj. unfold bucket_by_filter.
  assert (Hinv : buckets_inv [] [] ∅).
  { split; [constructor| |done|done]. intros key. rewrite lookup_empty, elem_of_nil. by split; [intros []|]. }
  apply (bucket_fold_inv demand) in Hinv. simpl in Hinv.
  destruct (foldl bucket_step ([], ∅) demand) as [order buckets]. simpl in Hinv.
  destruct Hinv as [Hnd Hkeys Htext Hmem]. rewrite drain_buckets_omap by done. split.
  - apply Forall_forall. intros c (key & Hin & Hc)%list_elem_of_omap.
    destruct (Htext key c Hc) as (Hne & Hf & Hms). split; [done|]. intros m Hm. apply Hinj.
    by rewrite Hf, Hms.
  - rewrite <- Hmem. unfold members_of. clear Hmem Htext Hnd.
    assert (Hall : ∀ key, key ∈ order → is_Some (buckets !! key)) by (intros; by apply Hkeys).
    clear Hkeys. induction order as [|key order IH]; simpl; [done|].
    destruct (Hall key ltac:(left)) as [c ->]. simpl. f_equiv. apply IH. intros k Hk. apply Hall. by right.
Qed.

(** Grouping partitions its demand into exact candidates. *)
Lemma group_spec demand constraints :
  FaithfulText →
  Forall candidate_ok (group demand constraints) ∧ members_of (group demand constraints) ≡ₚ demand ∧
  NoDup (group demand constraints).*1 ∧
  (is_Some (limit_get (default_filter_limit constraints)) → Forall candidate_same (group demand constraints)).
Proof.
  intros Hinj. unfold group. cbn zeta.
  destruct (bucket_by_filter_spec (canonical_order demand) Hinj) as [Hsame Hmem].
  pose proof (transitivity Hmem (canonical_order_perm demand)) as Hmem'. clear Hmem.
  pose proof (Forall_impl _ _ _ Hsame candidate_same_ok) as Hok.
  case_bool_decide as Hlim.
  - destruct (merge_loop_ok (length (bucket_by_filter (canonical_order demand))) _ Hok) as [Hm1 Hm2].
    destruct (fold_unions_spec candidate_ok _ candidate_ok_app Hm1) as (? & Hm3 & ?).
    split_and!; [done| |done|]. { exact (transitivity Hm3 (transitivity Hm2 Hmem')). }
    rewrite Hlim. by intros [].
  - destruct (fold_unions_spec candidate_ok _ candidate_ok_app Hok) as (? & Hm3 & ?).
    destruct (fold_unions_spec candidate_same _ candidate_same_app Hsame) as (? & _ & _).
    split_and!; [done| |done|done]. exact (transitivity Hm3 Hmem').
Qed.

(** Grouping neither loses nor invents demand and never changes what is
    asked: the groups partition the unsent demand, no two carry one filter, and
    an event matches a group's filter exactly when it matches the filter of one
    of its members.  Members that carry a count limit, and all members when the
    relay applies a default limit, are byte-identical requests.  Merging stops
    only when no two candidates can be merged. *)
Theorem group_exact (match_event : Filter → Event → bool) (demand : list RelayDemand)
    (constraints : RelayReadConstraints)
    (Hnip : Nip01Matching match_event) (Htext : FaithfulText) :
  members_of (group demand constraints) ≡ₚ demand ∧ NoDup (group demand constraints).*1 ∧
  (∀ f members, (f, members) ∈ group demand constraints →
     members ≠ [] ∧
     (∀ e, match_event f e = true ↔ ∃ m, m ∈ members ∧ match_event (rd_filter m) e = true) ∧
     (∀ m, m ∈ members → fl_limit f ≠ None ∨ fl_limit (rd_filter m) ≠ None ∨
        limit_get (default_filter_limit constraints) ≠ None → rd_filter m = f)) ∧
  (∀ candidates, first_mergeable_pair (merge_to_fixed_point candidates) = None).
Proof.
  destruct (group_spec demand constraints Htext) as (Hok & Hmem & Hnd & Hsame).
  destruct Hnip as [search_admits Hspec]. split_and!; [done|done| |].
  - intros f members Hin. rewrite Forall_forall in Hok. destruct (Hok _ Hin) as [Hne Hex Hlim]. simpl in *.
    split_and!; [done| |].
    + intros e. rewrite Hspec, Hex. by setoid_rewrite Hspec.
    + intros m Hm Hor. destruct (Hlim m Hm) as [?|[Hf Hfm]]; [done|].
      destruct Hor as [?|[?|Hd]]; [done|done|]. apply not_eq_None_Some, Hsame in Hd.
      rewrite Forall_forall in Hd. by apply (Hd _ Hin).
  - intros candidates. by apply merge_loop_fixed.
Qed.
End buckets.
