(* ===== verification/PlannerConformance.v ===== *)
(** * The standard planner conforms

    Lemmas on each stage of [StandardSubscriptionPlanner::plan], the proof that
    its plans satisfy the planner contract and carry exactly the demand they
    attribute, and the one input on which they do not: a relay that lowers its
    declared filter limit under a running subscription. *)

From S2P Require Import Prelude Nostr Relay State Write Query Subscriptions StandardPlanner Grouping.

(** ** Input checks *)

Lemma refuse_duplicates_spec seen demand :
  match refuse_duplicates_from seen demand with
  | Ok _ => NoDup (demand_id <$> demand) ∧ ∀ m, m ∈ demand → demand_id m ∉ seen
  | Err (DuplicateDemand id) =>
      (id ∈ seen ∧ id ∈ demand_id <$> demand) ∨ ¬ NoDup (demand_id <$> demand)
  | Err (Encoding _) => False
  end.
Proof.
  revert seen. induction demand as [|m demand IH]; intros seen; csimpl.
  { split; [constructor|]. by intros ? ?%not_elem_of_nil. }
  case_bool_decide as Hin; [left; split; [done|left]|]. specialize (IH ({[demand_id m]} ∪ seen)).
  destruct (refuse_duplicates_from _ _) as [[]|[id|]];
    [|rewrite elem_of_cons, NoDup_cons; destruct IH as [[Hid Hids]|Hnd]|done].
  - rewrite NoDup_cons. destruct IH as [Hnd Hnew]. split; [split; [|done]|].
    + intros (m' & Heq & Hm')%list_elem_of_fmap. apply Hnew in Hm'.
      apply not_elem_of_union in Hm' as [Hm' _]. by rewrite Heq, not_elem_of_singleton in Hm'.
    + intros x [->|Hx]%elem_of_cons; [done|].
      apply Hnew in Hx. by apply not_elem_of_union in Hx as [_ Hx].
  - destruct (decide (id ∈ seen)) as [|Hn]; [by left; auto|]. right. intros [Hm _].
    assert (id = demand_id m) as -> by set_solver. done.
  - right. tauto.
Qed.

(** Demand set aside by a declared filter limit. *)
Definition over_declared (constraints : RelayReadConstraints) (item : RelayDemand) : bool :=
  match limit_get (max_filter_limit constraints) with
  | None => false
  | Some maximum => bool_decide (is_Some (over_limit maximum item))
  end.

Lemma limit_fold maximum demand acc sf :
  ∃ new, foldl (limit_step maximum) (acc, sf) demand =
    (acc ++ List.filter (λ m, negb (bool_decide (is_Some (over_limit maximum m)))) demand, sf ++ new) ∧
  ∀ d, d ∈ sf_demand <$> new ↔ ∃ m, m ∈ demand ∧ is_Some (over_limit maximum m) ∧ demand_id m = d.
Proof.
  revert acc sf. induction demand as [|m demand IH]; intros acc sf; simpl.
  { exists []. rewrite !(right_id_L [] (++)). split; [done|]. intros d. csimpl.
    rewrite elem_of_nil. split; [done|]. by intros (m & ?%not_elem_of_nil & _). }
  unfold limit_step at 2. setoid_rewrite elem_of_cons. destruct (over_limit maximum m) as [r|] eqn:Ho; simpl.
  - destruct (IH acc (sf ++ [mkShortfall (demand_id m) (FilterLimitExceeded r maximum)])) as (new & Hf & Hd).
    rewrite Hf. simpl. rewrite <- (assoc_L (++)).
    eexists. split; [done|]. intros d. csimpl. rewrite elem_of_cons, Hd. naive_solver.
  - destruct (IH (acc ++ [m]) sf) as (new & Hf & Hd). exists new.
    rewrite Hf. simpl. rewrite <- (assoc_L (++)).
    split; [done|]. intros d. rewrite Hd. split; [naive_solver|].
    intros (m' & [->|Hm] & Hs & ?); [rewrite Ho in Hs; by destruct Hs|eauto].
Qed.

Lemma admit_limits_spec demand constraints :
  ∃ sf, admit_filter_limits demand constraints [] =
    (List.filter (λ m, negb (over_declared constraints m)) demand, sf) ∧
  ∀ d, d ∈ sf_demand <$> sf ↔ ∃ m, m ∈ demand ∧ over_declared constraints m = true ∧ demand_id m = d.
Proof.
  unfold admit_filter_limits, over_declared. destruct (limit_get _) as [maximum|].
  - destruct (limit_fold maximum demand [] []) as (new & Hf & Hd). exists new. split; [done|].
    intros d. rewrite Hd. by setoid_rewrite bool_decide_eq_true.
  - exists []. split.
    + f_equal. induction demand as [|m demand IH]; simpl; [done|]. by f_equal.
    + intros d. csimpl. rewrite elem_of_nil. naive_solver.
Qed.

(** ** Attachment *)

Abbreviation owned m id := (default ∅ (m !! id)) (only parsing).

Lemma owned_attach_ids id ids (m : Owners) id' d :
  d ∈ owned (attach_ids id ids m) id' ↔ d ∈ owned m id' ∨ (id' = id ∧ d ∈ ids).
Proof.
  unfold attach_ids. destruct (decide (id = id')) as [->|Hne].
  - rewrite lookup_insert_eq. simpl. set_solver.
  - rewrite lookup_insert_ne by done. naive_solver.
Qed.

Lemma host_from_Some demand covering l id :
  host_from demand covering l = Some id →
  covering = Some id ∨ ∃ entry, (id, entry) ∈ l ∧
    (demand_id demand ∈ is_serves entry ∨
     ∃ f, f ∈ is_filters entry ∧ filter_covers f (rd_filter demand) = true).
Proof.
  revert covering. induction l as [|[id' entry] l IH]; intros covering; simpl; [by left|].
  case_bool_decide as Hs. { intros [= ->]. right. exists entry. split; [left|by left]. }
  intros Hh. apply IH in Hh as [Hc|(e & He & Hcov)]; [|right; exists e; split; [by right|done]].
  destruct (bool_decide (covering = None) && _) eqn:Hcov in Hc; [|by left].
  apply andb_true_iff in Hcov as [_ (f & Hf & Hff)%existsb_elem]. simplify_eq.
  right. exists entry. split; [left|right; eauto].
Qed.

Lemma host_for_Some demand installed id :
  host_for demand installed = Some id →
  ∃ entry, installed !! id = Some entry ∧
    (demand_id demand ∈ is_serves entry ∨
     ∃ f, f ∈ is_filters entry ∧ filter_covers f (rd_filter demand) = true).
Proof.
  intros [?|(entry & Hin%elem_of_entries & Hor)]%host_from_Some; [done|]. eauto.
Qed.

Lemma attach_fold host demand attached pending :
  let res := foldl (attach_step host) (attached, pending) demand in
  res.2 = pending ++ List.filter (λ m, bool_decide (host m = None)) demand ∧
  ∀ id d, d ∈ owned res.1 id ↔ d ∈ owned attached id ∨
    ∃ m, m ∈ demand ∧ host m = Some id ∧ demand_id m = d.
Proof.
  revert attached pending. induction demand as [|m demand IH]; intros attached pending; simpl.
  { rewrite (right_id_L [] (++)). split; [done|]. intros id d. setoid_rewrite elem_of_nil. naive_solver. }
  unfold attach_step at 2 4. setoid_rewrite elem_of_cons.
  destruct (host m) as [h|] eqn:Hh; simpl.
  - destruct (IH (attach_ids h {[demand_id m]} attached) pending) as [Hp Ho]. split; [done|].
    intros id d. rewrite Ho, owned_attach_ids, elem_of_singleton. split.
    + intros [[?|[-> ->]]|(m' & ? & ? & ?)]; [by left|right; exists m; auto|right; exists m'; auto].
    + intros [?|(m' & [->|?] & Hm' & ?)]; [auto| |eauto].
      rewrite Hh in Hm'. simplify_eq. auto.
  - destruct (IH attached (pending ++ [m])) as [Hp Ho]. rewrite <- (assoc_L (++)) in Hp.
    split; [done|]. intros id d. rewrite Ho. split; [naive_solver|].
    intros [?|(m' & [->|?] & Hm' & ?)]; [auto| |eauto]. congruence.
Qed.

Lemma surviving_owners_lookup demand installed attached id :
  surviving_owners demand installed attached !! id =
  entry ← installed !! id;
  let still := filter (λ served, served ∈ demand_ids demand) (is_serves entry) ∪ owned attached id in
  if bool_decide (still = ∅) then None else Some still.
Proof. unfold surviving_owners. cbn zeta. by rewrite map_lookup_imap. Qed.

Lemma surviving_owners_Some demand installed attached id serves :
  surviving_owners demand installed attached !! id = Some serves →
  ∃ entry, installed !! id = Some entry ∧ serves ≠ ∅ ∧
    ∀ d, d ∈ serves ↔ (d ∈ is_serves entry ∧ d ∈ demand_ids demand) ∨ d ∈ owned attached id.
Proof.
  rewrite surviving_owners_lookup. intros (entry & Hentry & Hs)%bind_Some. exists entry.
  split; [done|]. cbn zeta in Hs. case_bool_decide as He; [done|]. simplify_eq. split; [done|].
  intros d. rewrite elem_of_union, elem_of_filter. tauto.
Qed.

Lemma surviving_owners_attached demand installed attached id d :
  is_Some (installed !! id) → d ∈ owned attached id →
  ∃ serves, surviving_owners demand installed attached !! id = Some serves ∧ d ∈ serves.
Proof.
  intros [entry Hentry] Hd. rewrite surviving_owners_lookup, Hentry. simpl. case_bool_decide as He.
  - assert (d ∈ (∅ : gset DemandId)); [|set_solver]. rewrite <- He. by apply elem_of_union_r.
  - eexists. split; [done|]. by apply elem_of_union_r.
Qed.

Lemma surviving_owners_None demand installed attached id entry d :
  installed !! id = Some entry → surviving_owners demand installed attached !! id = None →
  d ∈ is_serves entry → d ∉ demand_ids demand.
Proof.
  rewrite surviving_owners_lookup. intros Hentry Hs Hd Hreq. rewrite Hentry in Hs. simpl in Hs.
  case_bool_decide as He; [|done]. assert (d ∈ (∅ : gset DemandId)); [|set_solver].
  rewrite <- He. apply elem_of_union_l, elem_of_filter. done.
Qed.

(** ** The message bound *)

Section fitting.
Context `{Nostr} `{FilterCodec}.

(** A carried request is one exact candidate of the demand queued. *)
Definition carries (queued : list RelayDemand) (a : AttributedSubscription) : Prop :=
  ∃ f ms, at_filters a = [f] ∧ at_serves a = demand_ids ms ∧ candidate_ok (f, ms) ∧ ms ⊆ queued.

(** What becomes of queued demand: carried, or reported. *)
Record fits (queued : list RelayDemand) (new_c : list AttributedSubscription)
    (new_s : list SubscriptionShortfall) : Prop := {
  fit_carries : ∀ a, a ∈ new_c → carries queued a;
  fit_accounts : ∀ m, m ∈ queued →
    (∃ a, a ∈ new_c ∧ demand_id m ∈ at_serves a) ∨ demand_id m ∈ sf_demand <$> new_s;
  fit_reports : ∀ d, d ∈ sf_demand <$> new_s → ∃ m, m ∈ queued ∧ demand_id m = d
}.

Lemma carries_mono queued queued' a : queued ⊆ queued' → carries queued a → carries queued' a.
Proof. intros Hsub (f & ms & ? & ? & ? & ?). exists f, ms. split_and!; [done..|by etrans]. Qed.

Lemma elem_of_demand_ids m ms : m ∈ ms → demand_id m ∈ demand_ids ms.
Proof. intros Hm. apply demand_ids_elem. eauto. Qed.

Lemma fits_carry f ms queued new_c new_s a :
  candidate_ok (f, ms) → at_filters a = [f] → at_serves a = demand_ids ms →
  fits queued new_c new_s → fits (ms ++ queued) (a :: new_c) new_s.
Proof.
  intros Hok Hf Hs [H1 H2 H3]. split.
  - intros x [->|Hx]%elem_of_cons.
    + exists f, ms. split_and!; [done..|]. intros y Hy. apply elem_of_app. by left.
    + eapply carries_mono; [|by apply H1]. intros y Hy. apply elem_of_app. by right.
  - intros m [Hm|Hm]%elem_of_app.
    + left. exists a. split; [left|]. rewrite Hs. by apply elem_of_demand_ids.
    + destruct (H2 m Hm) as [(x & Hx & Hxs)|Hs']; [left; exists x; split; [by right|done]|by right].
  - intros d (m & Hm & Hd)%H3. exists m. split; [apply elem_of_app; by right|done].
Qed.

Lemma fits_report m queued new_c new_s reason :
  fits queued new_c new_s → fits (m :: queued) new_c (mkShortfall (demand_id m) reason :: new_s).
Proof.
  intros [H1 H2 H3]. split; csimpl.
  - intros a Ha. eapply carries_mono; [|by apply H1]. by apply list_subseteq_cons.
  - intros x [->|Hx]%elem_of_cons; [right; left|]. rewrite elem_of_cons.
    destruct (H2 x Hx) as [?|?]; auto.
  - intros d [->|Hd]%elem_of_cons; [exists m; split; [left|done]|].
    destruct (H3 d Hd) as (x & Hx & ?). exists x. split; [by right|done].
Qed.

Lemma fits_perm queued queued' new_c new_s :
  queued ≡ₚ queued' → fits queued new_c new_s → fits queued' new_c new_s.
Proof.
  intros Hp [H1 H2 H3]. split.
  - intros a Ha. eapply carries_mono; [|by apply H1]. by rewrite Hp.
  - intros m. rewrite <- Hp. apply H2.
  - intros d (m & Hm & ?)%H3. exists m. by rewrite <- Hp.
Qed.

Lemma members_of_app cs cs' : members_of (cs ++ cs') = members_of cs ++ members_of cs'.
Proof. unfold members_of. apply bind_app. Qed.

Lemma fit_loop_spec fuel constraints queue carried sf carried' sf' :
  FaithfulText → Forall candidate_ok queue →
  fit_loop fuel constraints queue carried sf = Some (Ok (carried', sf')) →
  ∃ new_c new_s, carried' = carried ++ new_c ∧ sf' = sf ++ new_s ∧ fits (members_of queue) new_c new_s.
Proof.
  intros Htext. revert queue carried sf. induction fuel as [|fuel IH]; intros queue carried sf Hq; cbn [fit_loop]; [done|].
  destruct queue as [|[f [|first rest]] queue].
  { intros [= <- <-]. exists [], []. rewrite !(right_id_L [] (++)). split_and!; [done..|].
    split; [by intros ? ?%not_elem_of_nil|by intros ? ?%not_elem_of_nil|]. csimpl. by intros ? ?%not_elem_of_nil. }
  { apply Forall_cons in Hq as [Hc _]. by destruct (cand_members _ Hc). }
  apply Forall_cons in Hq as [Hc Hq].
  destruct (encoded_bytes [f]) as [bytes|]; [|done]. cbn zeta.
  assert (Hmem : members_of ((f, first :: rest) :: queue) = (first :: rest) ++ members_of queue) by done.
  destruct (match _ with None => true | Some _ => _ end).
  { intros Hl. apply IH in Hl as (new_c & new_s & -> & -> & Hfits); [|done].
    eexists (_ :: new_c), new_s. rewrite <- (assoc_L (++)). split_and!; [done..|]. rewrite Hmem.
    by eapply fits_carry. }
  destruct rest as [|second rest].
  { intros Hl. apply IH in Hl as (new_c & new_s & -> & -> & Hfits); [|done].
    eexists new_c, (_ :: new_s). rewrite <- (assoc_L (++)). split_and!; [done..|]. rewrite Hmem.
    by apply fits_report. }
  set (members := first :: second :: rest) in *. set (mid := (length members + 1) / 2).
  destruct (group_spec (take mid members) constraints Htext) as (Hl1 & Hl2 & _).
  destruct (group_spec (drop mid members) constraints Htext) as (Hr1 & Hr2 & _).
  intros Hl. apply IH in Hl as (new_c & new_s & -> & -> & Hfits); [|by rewrite !Forall_app].
  exists new_c, new_s. split_and!; [done..|]. eapply fits_perm; [|done].
  rewrite !members_of_app, Hmem, Hl2, Hr2, take_drop. apply Permutation_app_comm.
Qed.

(** *** The loop ends *)

Lemma turns_sum cs : Forall candidate_ok cs →
  sum_list (turns <$> cs) + length cs = 2 * length (members_of cs).
Proof.
  induction 1 as [|[f ms] cs Hc _ IH]; [done|].
  change (members_of ((f, ms) :: cs)) with (ms ++ members_of cs). csimpl.
  rewrite length_app. unfold turns at 1. destruct ms; [by destruct (cand_members _ Hc)|].
  cbn [snd length]. lia.
Qed.

Lemma sum_list_app' (l k : list nat) : sum_list (l ++ k) = sum_list l + sum_list k.
Proof. induction l; simpl; lia. Qed.

(** Splitting a group of several members makes progress. *)
Lemma turns_split constraints f first second rest :
  FaithfulText →
  let members := first :: second :: rest in
  let mid := (length members + 1) / 2 in
  sum_list (turns <$> group (take mid members) constraints ++ group (drop mid members) constraints)
  < turns (f, members).
Proof.
  intros Htext members mid.
  destruct (group_spec (take mid members) constraints Htext) as (Hl1 & Hl2 & _).
  destruct (group_spec (drop mid members) constraints Htext) as (Hr1 & Hr2 & _).
  pose proof (turns_sum _ Hl1) as Hls. pose proof (turns_sum _ Hr1) as Hrs.
  apply Permutation_length in Hl2, Hr2. rewrite length_take in Hl2. rewrite length_drop in Hr2.
  assert (Hmid : 0 < mid ∧ mid < length members).
  { unfold mid, members. simpl length. split; [apply Nat.div_str_pos; lia|].
    apply Nat.div_lt_upper_bound; lia. }
  assert (Hl0 : 0 < length (group (take mid members) constraints)).
  { destruct (group (take mid members) constraints); [|simpl; lia]. cbn [members_of] in Hl2.
    change (length (members_of [])) with 0 in Hl2. lia. }
  assert (Hr0 : 0 < length (group (drop mid members) constraints)).
  { destruct (group (drop mid members) constraints); [|simpl; lia]. cbn [members_of] in Hr2.
    change (length (members_of [])) with 0 in Hr2. lia. }
  rewrite fmap_app, sum_list_app'. unfold turns at 3. cbn [snd]. lia.
Qed.

Lemma fit_loop_total fuel constraints queue carried sf :
  FaithfulText → sum_list (turns <$> queue) < fuel →
  is_Some (fit_loop fuel constraints queue carried sf).
Proof.
  intros Htext. revert queue carried sf. induction fuel as [|fuel IH]; intros queue carried sf Hf; [lia|].
  cbn [fit_loop]. destruct queue as [|[f [|first rest]] queue]; [done| |].
  { apply IH. csimpl in Hf. change (turns (f, [])) with 1 in Hf. lia. }
  csimpl in Hf. assert (Hpos : 1 ≤ turns (f, first :: rest)) by (unfold turns; lia).
  destruct (encoded_bytes [f]); [|done]. cbn zeta.
  destruct (match _ with None => true | Some _ => _ end); [apply IH; lia|].
  destruct rest as [|second rest]; [apply IH; lia|].
  apply IH. rewrite fmap_app, sum_list_app'.
  pose proof (turns_split constraints f first second rest Htext) as Hs. cbn zeta in Hs. lia.
Qed.

Lemma fit_loop_Err fuel constraints queue carried sf error :
  fit_loop fuel constraints queue carried sf = Some (Err error) →
  ∃ filters text, req_frame_len filters = Err text ∧ error = Encoding (BoundedText_new text).
Proof.
  revert queue carried sf. induction fuel as [|fuel IH]; intros queue carried sf; cbn [fit_loop]; [done|].
  destruct queue as [|[f [|first rest]] queue]; [done|apply IH|].
  destruct (encoded_bytes [f]) as [bytes|e] eqn:He; cbn zeta.
  - destruct (match _ with None => true | Some _ => _ end); [apply IH|].
    destruct rest; apply IH.
  - intros [= ->]. unfold encoded_bytes in He. destruct (req_frame_len [f]) as [|text] eqn:Hr; [done|].
    injection He as <-. eauto.
Qed.
End fitting.

(** ** Folding and the residual budget *)

(** Some candidate serves the demand. *)
Definition carried_by (cs : list AttributedSubscription) (d : DemandId) : Prop :=
  ∃ a, a ∈ cs ∧ d ∈ at_serves a.

Lemma carried_by_nil d : ¬ carried_by [] d.
Proof. by intros (a & ?%not_elem_of_nil & _). Qed.
Lemma carried_by_cons a cs d : carried_by (a :: cs) d ↔ d ∈ at_serves a ∨ carried_by cs d.
Proof. unfold carried_by. setoid_rewrite elem_of_cons. naive_solver. Qed.
Lemma carried_by_app cs cs' d : carried_by (cs ++ cs') d ↔ carried_by cs d ∨ carried_by cs' d.
Proof. unfold carried_by. setoid_rewrite elem_of_app. naive_solver. Qed.

Lemma fold_attributed_carried cs a d : carried_by (fold_attributed cs a) d ↔ carried_by cs d ∨ d ∈ at_serves a.
Proof.
  induction cs as [|b cs IH]; simpl.
  { rewrite carried_by_cons. pose proof (carried_by_nil d). tauto. }
  case_bool_decide; rewrite !carried_by_cons; simpl; [rewrite elem_of_union|rewrite IH]; tauto.
Qed.

Lemma fold_attributed_filters cs a g :
  g ∈ at_filters <$> fold_attributed cs a ↔ g ∈ at_filters <$> cs ∨ g = at_filters a.
Proof.
  induction cs as [|b cs IH]; csimpl; [rewrite list_elem_of_singleton; set_solver|].
  case_bool_decide as Heq; csimpl; rewrite !elem_of_cons; [naive_solver|]. rewrite IH. tauto.
Qed.

Lemma fold_attributed_NoDup cs a : NoDup (at_filters <$> cs) → NoDup (at_filters <$> fold_attributed cs a).
Proof.
  induction cs as [|b cs IH]; csimpl; [intros _; apply NoDup_singleton|].
  rewrite NoDup_cons. intros [Hh Hnd]. case_bool_decide as Heq; csimpl; rewrite NoDup_cons; [done|].
  split; [|by apply IH]. rewrite fold_attributed_filters. naive_solver.
Qed.

Section exactness.
Context `{Nostr} `{FilterCodec}.

(** One filter, asking for exactly what the demand it serves asks for. *)
Definition exact_for (demand : list RelayDemand) (filters : list Filter) (serves : gset DemandId) : Prop :=
  ∃ f, filters = [f] ∧ (∀ d, d ∈ serves → d ∈ demand_ids demand) ∧
    ∀ search_admits e, filter_admits search_admits f e ↔
      ∃ m, m ∈ demand ∧ demand_id m ∈ serves ∧ filter_admits search_admits (rd_filter m) e.

Abbreviation candidate_exact demand a := (exact_for demand (at_filters a) (at_serves a)) (only parsing).

Lemma NoDup_demand_eq demand m m' :
  NoDup (demand_id <$> demand) → m ∈ demand → m' ∈ demand → demand_id m = demand_id m' → m = m'.
Proof.
  intros Hnd [i Hi]%list_elem_of_lookup [j Hj]%list_elem_of_lookup Heq.
  assert (i = j) as ->; [|congruence]. eapply NoDup_lookup; [done|by rewrite list_lookup_fmap, Hi|].
  by rewrite list_lookup_fmap, Hj, Heq.
Qed.

Lemma carries_exact demand queued a :
  NoDup (demand_id <$> demand) → queued ⊆ demand → carries queued a → candidate_exact demand a.
Proof.
  intros Hnd Hsub (f & ms & Hf & Hs & Hok & Hms). exists f. split; [done|].
  assert (Hin : ∀ m, m ∈ ms → m ∈ demand) by (intros m Hm; by apply Hsub, Hms).
  rewrite Hs. split.
  - intros d Hd. apply demand_ids_elem in Hd as (m & -> & Hm). by apply elem_of_demand_ids, Hin.
  - intros search_admits e. rewrite (cand_exact _ Hok). simpl. split.
    + intros (m & Hm & Ha). exists m. split_and!; [by apply Hin|by apply elem_of_demand_ids|done].
    + intros (m & Hm & Hid & Ha). exists m. split; [|done].
      apply demand_ids_elem in Hid as (m' & Heq & Hm').
      by rewrite (NoDup_demand_eq demand m m' Hnd Hm (Hin _ Hm') Heq).
Qed.

Lemma exact_for_union demand filters s s' :
  exact_for demand filters s → exact_for demand filters s' → exact_for demand filters (s ∪ s').
Proof.
  intros (f & -> & Hd & Hex) (f' & [= <-] & Hd' & Hex'). exists f. split; [done|]. split; [set_solver|].
  intros search_admits e. split.
  - intros Hf. apply Hex in Hf as (m & ? & ? & ?). exists m. set_solver.
  - intros (m & Hm & [Hs|Hs]%elem_of_union & Ha); [apply Hex|apply Hex']; eauto.
Qed.

Lemma fold_attributed_exact demand cs a :
  Forall (λ a, candidate_exact demand a) cs → candidate_exact demand a →
  Forall (λ a, candidate_exact demand a) (fold_attributed cs a).
Proof.
  induction cs as [|b cs IH]; simpl; intros Hcs Ha; [by constructor|].
  apply Forall_cons in Hcs as [Hb Hcs]. case_bool_decide as Heq; constructor; auto.
  simpl. rewrite <- Heq in Ha. by apply exact_for_union.
Qed.

Lemma fold_identical_filters_spec demand cs :
  Forall (λ a, candidate_exact demand a) cs →
  let res := fold_identical_filters cs in
  Forall (λ a, candidate_exact demand a) res ∧ NoDup (at_filters <$> res) ∧
  ∀ d, carried_by res d ↔ carried_by cs d.
Proof.
  unfold fold_identical_filters. cbn zeta.
  assert (Hgen : ∀ acc, Forall (λ a, candidate_exact demand a) acc → NoDup (at_filters <$> acc) →
    Forall (λ a, candidate_exact demand a) cs →
    let res := foldl fold_attributed acc cs in
    Forall (λ a, candidate_exact demand a) res ∧ NoDup (at_filters <$> res) ∧
    ∀ d, carried_by res d ↔ carried_by acc d ∨ carried_by cs d).
  { induction cs as [|a cs IH]; intros acc Hacc Hnd Hcs; simpl.
    { split_and!; [done|done|]. intros d. pose proof (carried_by_nil d). tauto. }
    apply Forall_cons in Hcs as [Ha Hcs].
    destruct (IH (fold_attributed acc a)) as (? & ? & Hd);
      [by apply fold_attributed_exact|by apply fold_attributed_NoDup|done|].
    split_and!; [done|done|]. intros d. rewrite Hd, fold_attributed_carried, carried_by_cons. tauto. }
  intros Hcs. destruct (Hgen []) as (? & ? & Hd); [constructor|constructor|done|].
  split_and!; [done|done|]. intros d. rewrite Hd. pose proof (carried_by_nil d). tauto.
Qed.
End exactness.

Lemma running_with_Some installed filters id entry :
  running_with installed filters = Some (id, entry) → installed !! id = Some entry ∧ is_filters entry = filters.
Proof.
  unfold running_with. intros [Hin%elem_of_entries Heq%bool_decide_eq_true]%find_elem. done.
Qed.

Lemma running_with_None installed filters id entry :
  running_with installed filters = None → installed !! id = Some entry → is_filters entry ≠ filters.
Proof.
  intros Hnone Hin Heq. pose proof (find_not_elem _ _ Hnone (id, entry)) as Hf.
  rewrite elem_of_entries in Hf. by apply Hf, bool_decide_eq_false in Hin.
Qed.

Lemma running_fold installed cs kept attached :
  let res := foldl (running_step installed) (kept, attached) cs in
  res.1 = kept ++ List.filter (λ c, bool_decide (running_with installed (at_filters c) = None)) cs ∧
  ∀ id d, d ∈ owned res.2 id ↔ d ∈ owned attached id ∨
    ∃ c entry, c ∈ cs ∧ running_with installed (at_filters c) = Some (id, entry) ∧ d ∈ at_serves c.
Proof.
  revert kept attached. induction cs as [|c cs IH]; intros kept attached; simpl.
  { rewrite (right_id_L [] (++)). split; [done|]. intros id d. setoid_rewrite elem_of_nil. naive_solver. }
  unfold running_step at 2 4. setoid_rewrite elem_of_cons.
  destruct (running_with installed (at_filters c)) as [[h entry]|] eqn:Hh; simpl.
  - destruct (IH kept (attach_ids h (at_serves c) attached)) as [Hk Ho]. split; [done|].
    intros id d. rewrite Ho, owned_attach_ids. split.
    + intros [[?|[-> ?]]|(c' & e & ? & ? & ?)]; [by left|right; exists c, entry; auto|right; exists c', e; auto].
    + intros [?|(c' & e & [->|?] & Hc' & ?)]; [auto| |eauto 10].
      rewrite Hh in Hc'. simplify_eq. auto.
  - destruct (IH (kept ++ [c]) attached) as [Hk Ho]. rewrite <- (assoc_L (++)) in Hk.
    split; [done|]. intros id d. rewrite Ho. split; [naive_solver|].
    intros [?|(c' & e & [->|?] & Hc' & ?)]; [auto| |eauto 10]. congruence.
Qed.

Lemma fit_residual_spec cs constraints running sf :
  ∃ dropped new, fit_residual_count cs constraints running sf = (take (length cs - length dropped) cs, sf ++ new) ∧
    cs = take (length cs - length dropped) cs ++ dropped ∧
    (∀ d, d ∈ sf_demand <$> new ↔ carried_by dropped d) ∧
    (∀ maximum, limit_get (max_subscriptions constraints) = Some maximum →
       length cs - length dropped ≤ maximum - running).
Proof.
  unfold fit_residual_count.
  assert (Hkeep : (∀ maximum, limit_get (max_subscriptions constraints) = Some maximum →
      length cs ≤ maximum - running) →
    ∃ dropped new, (cs, sf) = (take (length cs - length dropped) cs, sf ++ new) ∧
      cs = take (length cs - length dropped) cs ++ dropped ∧
      (∀ d, d ∈ sf_demand <$> new ↔ carried_by dropped d) ∧
      (∀ maximum, limit_get (max_subscriptions constraints) = Some maximum →
         length cs - length dropped ≤ maximum - running)).
  { intros Hm. exists [], []. cbn [length]. rewrite Nat.sub_0_r, !(right_id_L [] (++)), firstn_all.
    split_and!; [done|done| |done]. intros d. csimpl. rewrite elem_of_nil.
    pose proof (carried_by_nil d). tauto. }
  destruct (limit_get _) as [maximum|]; [|by apply Hkeep].
  case_bool_decide as Hlen. { apply Hkeep. by intros ? [= <-]. }
  set (residual := maximum - running) in *. eexists (drop residual cs), _.
  assert (Hl : length cs - length (drop residual cs) = residual) by (rewrite length_drop; lia).
  rewrite Hl. split_and!; [done|by rewrite take_drop| |by intros ? [= <-]].
  intros d. rewrite list_elem_of_fmap. split.
  - intros (s & -> & (a & (d' & -> & Hd)%list_elem_of_fmap & Ha)%list_elem_of_bind).
    exists a. split; [done|]. by apply elem_of_ordered_elements.
  - intros (a & Ha & Hd). exists (mkShortfall d (SubscriptionsExhausted (running + length cs) maximum)).
    split; [done|]. apply list_elem_of_bind. exists a. split; [|done].
    apply list_elem_of_fmap. exists d. split; [done|]. by apply elem_of_ordered_elements.
Qed.

(** ** The diff *)

Section diff.
Context `{FilterCodec} (constraints : RelayReadConstraints) (installed : InstalledSubscriptions) (owners : Owners).
Hypothesis Howners : ∀ id serves, owners !! id = Some serves → is_Some (installed !! id).

Lemma retained_ids : (retained_entries constraints installed owners).*1 = keys owners.
Proof.
  unfold retained_entries, keys.
  assert (Hall : ∀ id serves, (id, serves) ∈ entries owners → is_Some (installed !! id)).
  { intros id serves. rewrite elem_of_entries. apply Howners. }
  induction (entries owners) as [|[id serves] l IH]; [done|]. csimpl.
  destruct (Hall id serves ltac:(left)) as [entry ->]. csimpl. f_equal. apply IH.
  intros id' s' Hin. apply (Hall id' s'). by right.
Qed.

Lemma retained_lookup id a :
  list_to_map (M := gmap string AttributedSubscription) (retained_entries constraints installed owners) !! id = Some a ↔
  ∃ serves entry, owners !! id = Some serves ∧ installed !! id = Some entry ∧
    a = mkAttributed (is_filters entry) serves (completeness (is_filters entry) constraints).
Proof.
  rewrite <- elem_of_list_to_map by (rewrite retained_ids; auto with fava).
  unfold retained_entries. rewrite list_elem_of_omap. split.
  - intros ([id' serves] & Hin%elem_of_entries & (entry & Hentry & [= <- <-])%bind_Some). eauto.
  - intros (serves & entry & Ho & Hi & ->). exists (id, serves). rewrite elem_of_entries. split; [done|].
    simpl. by rewrite Hi.
Qed.

Lemma retain_perm : merge_sort key_le (retained_entries constraints installed owners).*1 ≡ₚ keys owners.
Proof. by rewrite merge_sort_Permutation, retained_ids. Qed.

Lemma elem_of_retain id :
  id ∈ merge_sort key_le (retained_entries constraints installed owners).*1 ↔ is_Some (owners !! id).
Proof. by rewrite retain_perm, elem_of_keys. Qed.

Lemma elem_of_withdrawals id :
  id ∈ withdrawals installed owners ↔ owners !! id = None ∧ is_Some (installed !! id).
Proof. unfold withdrawals. by rewrite elem_of_filterb, bool_decide_eq_true, elem_of_keys. Qed.

(** A diff conforms when its owners and what it opens account for exactly the
    demand, within the budget, without repeating filters. *)
Lemma diff_conforms relay revision demand open shortfalls :
  (∀ planned, planned ∈ open → ps_filters planned ≠ []) → NoDup (ps_filters <$> open) →
  (∀ id entry planned, installed !! id = Some entry → planned ∈ open → ps_filters planned ≠ is_filters entry) →
  (∀ d, d ∈ demand_ids demand ↔ (∃ id serves, owners !! id = Some serves ∧ d ∈ serves) ∨
     (∃ planned, planned ∈ open ∧ d ∈ ps_serves planned) ∨ d ∈ sf_demand <$> shortfalls) →
  (∀ id entry d, installed !! id = Some entry → owners !! id = None → d ∈ is_serves entry →
     d ∉ demand_ids demand) →
  (∀ maximum, limit_get (max_subscriptions constraints) = Some maximum →
     length open ≤ maximum - size owners) →
  conforms relay demand constraints installed
    (mkSubscriptionPlan relay revision open (merge_sort key_le (retained_entries constraints installed owners).*1)
       (withdrawals installed owners) (list_to_map (retained_entries constraints installed owners)) shortfalls).
Proof.
  intros Hne Hnd Hfresh Hacc Hrun Hbud.
  assert (Hserves : ∀ d, plan_serves (mkSubscriptionPlan relay revision open
      (merge_sort key_le (retained_entries constraints installed owners).*1) (withdrawals installed owners)
      (list_to_map (retained_entries constraints installed owners)) shortfalls) d ↔
    (∃ id serves, owners !! id = Some serves ∧ d ∈ serves) ∨ (∃ planned, planned ∈ open ∧ d ∈ ps_serves planned)).
  { intros d. unfold plan_serves. cbn [sp_attribution sp_open]. f_equiv. setoid_rewrite retained_lookup. split.
    - intros (id & a & (serves & entry & Ho & _ & ->) & Hd). eauto.
    - intros (id & serves & Ho & Hd). destruct (Howners _ _ Ho) as [entry Hi]. eauto 10. }
  split; try done; cbn [sp_retain sp_close sp_attribution sp_open sp_shortfalls].
  - apply NoDup_app. split_and!.
    + rewrite retain_perm. auto with fava.
    + intros id [s Hs]%elem_of_retain [Hn _]%elem_of_withdrawals. congruence.
    + unfold withdrawals. apply NoDup_ListNoDup, List.NoDup_filter, NoDup_ListNoDup, NoDup_keys.
  - intros id [[s Hs]%elem_of_retain|[_ Hi]%elem_of_withdrawals]%elem_of_app; [by eapply Howners|done].
  - intros id. rewrite elem_of_retain. split.
    + intros [a (serves & entry & Ho & _)%retained_lookup]. eauto.
    + intros [serves Ho]. destruct (Howners _ _ Ho) as [entry Hi]. eexists. apply retained_lookup. eauto.
  - intros id a entry _ (serves & entry' & Ho & Hi & ->)%retained_lookup Hentry. simpl. congruence.
  - intros d Hd. rewrite Hserves. apply Hacc in Hd as [?|[?|(s & -> & Hs)%list_elem_of_fmap]]; [tauto..|].
    right. by exists s.
  - intros d Hd. apply Hacc. rewrite Hserves in Hd. destruct Hd as [[?|?]|(s & Hs & <-)]; [tauto..|].
    right. right. by apply list_elem_of_fmap_2.
  - intros id entry d [Hn _]%elem_of_withdrawals Hentry Hd. by eapply Hrun.
  - intros id entry planned _ Hentry Hp. by eapply Hfresh.
  - intros maximum Hmax. rewrite retain_perm. unfold keys. rewrite length_fmap, length_entries. by apply Hbud.
Qed.
End diff.

(** ** A whole run *)

Section run.
Context `{Nostr} `{FilterCodec}.
Variables (relay : RelayUrl) (demand : list RelayDemand) (constraints : RelayReadConstraints)
  (installed : InstalledSubscriptions) (revision : PlanRevision).
Hypothesis Htext : FaithfulText.

(** The demand no declared filter limit sets aside. *)
Definition admissible : list RelayDemand := List.filter (λ m, negb (over_declared constraints m)) demand.

(** What the stages of one run establish: [folded] are the candidates after
    folding, [kept] those that are opened, [dropped] those over the budget. *)
Record plan_run (folded kept dropped : list AttributedSubscription) (attached owners : Owners)
    (shortfalls : list SubscriptionShortfall) : Prop := {
  run_ids : NoDup (demand_id <$> demand);
  run_exact : Forall (λ a, exact_for demand (at_filters a) (at_serves a)) folded;
  run_distinct : NoDup (at_filters <$> folded);
  run_split : List.filter (λ c, bool_decide (running_with installed (at_filters c) = None)) folded = kept ++ dropped;
  run_attached : ∀ id d, d ∈ owned attached id ↔
    (∃ m, m ∈ admissible ∧ host_for m installed = Some id ∧ demand_id m = d) ∨
    (∃ c entry, c ∈ folded ∧ running_with installed (at_filters c) = Some (id, entry) ∧ d ∈ at_serves c);
  run_owners : owners = surviving_owners admissible installed attached;
  run_pending : ∀ m, m ∈ admissible → host_for m installed = None →
    carried_by folded (demand_id m) ∨ demand_id m ∈ sf_demand <$> shortfalls;
  run_dropped : ∀ d, carried_by dropped d → d ∈ sf_demand <$> shortfalls;
  run_over : ∀ m, m ∈ demand → over_declared constraints m = true → demand_id m ∈ sf_demand <$> shortfalls;
  run_shortfalls : ∀ d, d ∈ sf_demand <$> shortfalls → d ∈ demand_ids demand;
  run_budget : ∀ maximum, limit_get (max_subscriptions constraints) = Some maximum →
    length kept ≤ maximum - size owners
}.

Lemma admissible_elem m : m ∈ admissible ↔ over_declared constraints m = false ∧ m ∈ demand.
Proof. unfold admissible. by rewrite elem_of_filterb, negb_true_iff. Qed.

Lemma standard_plan_run plan :
  standard_plan relay demand constraints installed revision = Some (Ok plan) →
  ∃ folded kept dropped attached owners shortfalls,
    plan_run folded kept dropped attached owners shortfalls ∧
    plan = assemble relay revision kept constraints installed owners shortfalls.
Proof.
  unfold standard_plan. pose proof (refuse_duplicates_spec ∅ demand) as Hdup.
  unfold refuse_duplicate_demand. destruct (refuse_duplicates_from ∅ demand) as [[]|]; [|done].
  destruct Hdup as [Hnd _]. destruct (admit_limits_spec demand constraints) as (sf0 & -> & Hsf0).
  change (List.filter _ demand) with admissible. destruct (attach_fold (λ m, host_for m installed) admissible ∅ []) as [Hpend Hatt].
  unfold attach_demand. destruct (foldl (attach_step _) (∅, []) admissible) as [att0 pending] eqn:Ha.
  cbn [fst snd] in Hpend, Hatt. rewrite (left_id_L [] (++)) in Hpend.
  assert (Hpin : ∀ m, m ∈ pending ↔ host_for m installed = None ∧ m ∈ admissible).
  { intros m. by rewrite Hpend, elem_of_filterb, bool_decide_eq_true. }
  assert (Hsub : pending ⊆ demand).
  { intros m [_ [_ Hm]%admissible_elem]%Hpin. done. }
  destruct (group_spec pending constraints Htext) as (Hg & Hgm & _).
  unfold fit_message_bound. destruct (fit_loop _ _ _ _ _) as [[[cs sf1]|]|] eqn:Hfit; [|done..].
  apply fit_loop_spec in Hfit as (new_c & new_s & -> & -> & Hfits); [|done..].
  rewrite (left_id_L [] (++)). apply (fits_perm _ _ _ _ Hgm) in Hfits as [Hc1 Hc2 Hc3].
  assert (Hex : Forall (λ a, exact_for demand (at_filters a) (at_serves a)) new_c).
  { apply Forall_forall. intros a Ha'. eapply carries_exact; [done|done|by apply Hc1]. }
  destruct (fold_identical_filters_spec demand new_c Hex) as (He & Hd & Hcar).
  set (folded := fold_identical_filters new_c) in *.
  destruct (running_fold installed folded [] att0) as [Hk Ho].
  unfold fold_into_running. destruct (foldl (running_step installed) ([], att0) folded) as [kept0 att1] eqn:Hr.
  cbn [fst snd] in Hk, Ho. rewrite (left_id_L [] (++)) in Hk.
  set (owners := surviving_owners admissible installed att1).
  destruct (fit_residual_spec kept0 constraints (size owners) (sf0 ++ new_s)) as (dropped & new & -> & Hsplit & Hnew & Hbud).
  intros [= <-]. exists folded, (take (length kept0 - length dropped) kept0), dropped, att1, owners, ((sf0 ++ new_s) ++ new).
  split; [|done]. split; try done.
  - by rewrite <- Hk.
  - intros id d. rewrite Ho, Hatt, lookup_empty. simpl. rewrite elem_of_empty. naive_solver.
  - intros m Hm Hh. rewrite Hcar, !fmap_app, !elem_of_app. destruct (Hc2 m) as [?|?]; [by apply Hpin|by left|tauto].
  - intros d Hdr. rewrite fmap_app, elem_of_app. right. by apply Hnew.
  - intros m Hm Hov. rewrite !fmap_app, !elem_of_app. left. left. apply Hsf0. eauto.
  - intros d. rewrite !fmap_app, !elem_of_app. intros [[Hin|Hin]|Hin].
    + apply Hsf0 in Hin as (m & Hm & _ & <-). by apply elem_of_demand_ids.
    + apply Hc3 in Hin as (m & Hm & <-). by apply elem_of_demand_ids, Hsub.
    + apply Hnew in Hin as (a & Hin & Hda). assert (Hf : a ∈ folded).
      { assert (a ∈ kept0) as Hk0 by (rewrite Hsplit; apply elem_of_app; by right).
        rewrite Hk in Hk0. by apply elem_of_filterb in Hk0 as [_ ?]. }
      rewrite Forall_forall in He. destruct (He a Hf) as (f & _ & Hids & _). by apply Hids.
  - intros maximum Hmax. rewrite length_take. specialize (Hbud maximum Hmax). lia.
Qed.

(** The owner map of a run. *)
Lemma run_owner_elem folded kept dropped attached owners shortfalls id serves d :
  plan_run folded kept dropped attached owners shortfalls →
  owners !! id = Some serves → d ∈ serves →
  d ∈ demand_ids demand ∧ ∃ entry, installed !! id = Some entry ∧
    (d ∈ is_serves entry ∨
     (∃ m f, m ∈ demand ∧ demand_id m = d ∧ f ∈ is_filters entry ∧ filter_covers f (rd_filter m) = true) ∨
     (∃ c, c ∈ folded ∧ at_filters c = is_filters entry ∧ d ∈ at_serves c)).
Proof.
  intros Hrun Ho Hd. rewrite (run_owners _ _ _ _ _ _ Hrun) in Ho.
  apply surviving_owners_Some in Ho as (entry & Hentry & _ & Hs). apply Hs in Hd as [[Hd Hreq]|Hd].
  { split; [|eauto]. apply demand_ids_elem in Hreq as (m & -> & [_ Hm]%admissible_elem). by apply elem_of_demand_ids. }
  apply (run_attached _ _ _ _ _ _ Hrun) in Hd as [(m & [_ Hm]%admissible_elem & Hh & <-)|(c & entry' & Hc & Hrw & Hd)].
  - split; [by apply elem_of_demand_ids|]. apply host_for_Some in Hh as (entry' & He & Hor).
    exists entry. split; [done|]. simplify_eq. destruct Hor as [?|(f & ? & ?)]; [by left|right; left; eauto 10].
  - apply running_with_Some in Hrw as [He Hf]. assert (entry' = entry) as -> by congruence.
    split; [|exists entry; split; [done|right; right; by exists c]].
    pose proof (run_exact _ _ _ _ _ _ Hrun) as Hex. rewrite Forall_forall in Hex.
    destruct (Hex c Hc) as (f & _ & Hids & _). by apply Hids.
Qed.

Lemma run_attached_owner folded kept dropped attached owners shortfalls id d :
  plan_run folded kept dropped attached owners shortfalls →
  is_Some (installed !! id) → d ∈ owned attached id → ∃ serves, owners !! id = Some serves ∧ d ∈ serves.
Proof.
  intros Hrun. rewrite (run_owners _ _ _ _ _ _ Hrun). apply surviving_owners_attached.
Qed.

Lemma run_kept_folded folded kept dropped attached owners shortfalls c :
  plan_run folded kept dropped attached owners shortfalls → c ∈ kept ++ dropped ↔
  c ∈ folded ∧ running_with installed (at_filters c) = None.
Proof.
  intros Hrun. rewrite <- (run_split _ _ _ _ _ _ Hrun), elem_of_filterb, bool_decide_eq_true. tauto.
Qed.

(** A folded candidate is opened, dropped over budget, or rides on a running one. *)
Lemma run_folded_accounted folded kept dropped attached owners shortfalls d :
  plan_run folded kept dropped attached owners shortfalls → carried_by folded d →
  (∃ id serves, owners !! id = Some serves ∧ d ∈ serves) ∨ carried_by kept d ∨ d ∈ sf_demand <$> shortfalls.
Proof.
  intros Hrun (c & Hc & Hd). destruct (running_with installed (at_filters c)) as [[id entry]|] eqn:Hrw.
  - left. exists id. eapply run_attached_owner; [done|by apply running_with_Some in Hrw as [-> _]|].
    apply (run_attached _ _ _ _ _ _ Hrun). right. eauto 10.
  - right. assert (Hin : c ∈ kept ++ dropped) by (by apply (run_kept_folded _ _ _ _ _ _ _ Hrun)).
    apply elem_of_app in Hin as [Hin|Hin]; [left; by exists c|]. right.
    apply (run_dropped _ _ _ _ _ _ Hrun). by exists c.
Qed.

Lemma run_accounts folded kept dropped attached owners shortfalls d :
  plan_run folded kept dropped attached owners shortfalls →
  d ∈ demand_ids demand ↔
  (∃ id serves, owners !! id = Some serves ∧ d ∈ serves) ∨ carried_by kept d ∨ d ∈ sf_demand <$> shortfalls.
Proof.
  intros Hrun. split.
  - intros Hd. apply demand_ids_elem in Hd as (m & -> & Hm).
    destruct (over_declared constraints m) eqn:Hov; [right; right; by apply (run_over _ _ _ _ _ _ Hrun)|].
    assert (Hadm : m ∈ admissible) by (by apply admissible_elem).
    destruct (host_for m installed) as [id|] eqn:Hh.
    + left. exists id. eapply run_attached_owner; [done|by apply host_for_Some in Hh as (? & -> & _)|].
      apply (run_attached _ _ _ _ _ _ Hrun). left. eauto.
    + destruct (run_pending _ _ _ _ _ _ Hrun m Hadm Hh) as [Hf|?]; [|auto].
      by eapply run_folded_accounted.
  - intros [(id & serves & Ho & Hd)|[(c & Hc & Hd)|Hd]].
    + by eapply run_owner_elem.
    + pose proof (run_exact _ _ _ _ _ _ Hrun) as Hex. rewrite Forall_forall in Hex.
      destruct (Hex c) as (f & _ & Hids & _); [|by apply Hids].
      eapply run_kept_folded; [done|]. auto with fava.
    + by apply (run_shortfalls _ _ _ _ _ _ Hrun).
Qed.

(** No demand a declared filter limit sets aside is running. *)
Definition limits_respected : Prop :=
  ∀ m id entry, m ∈ demand → over_declared constraints m = true →
    installed !! id = Some entry → demand_id m ∉ is_serves entry.

Definition planned_of (a : AttributedSubscription) : PlannedSubscription :=
  mkPlannedSub (at_filters a) (at_serves a) (at_completeness a).

Lemma planned_filters (cs : list AttributedSubscription) :
  ps_filters <$> (planned_of <$> cs) = at_filters <$> cs.
Proof. by rewrite <- list_fmap_compose. Qed.

Lemma run_conforms folded kept dropped attached owners shortfalls :
  plan_run folded kept dropped attached owners shortfalls → limits_respected →
  conforms relay demand constraints installed
    (assemble relay revision kept constraints installed owners shortfalls).
Proof.
  intros Hrun Hlim. unfold assemble. cbn zeta. fold planned_of.
  set (open := merge_sort open_le (planned_of <$> kept)).
  assert (Hopen : open ≡ₚ planned_of <$> kept) by apply merge_sort_Permutation.
  assert (Hin : ∀ p, p ∈ open → ∃ c, p = planned_of c ∧ c ∈ kept).
  { intros p. rewrite Hopen. by intros (c & -> & Hc)%list_elem_of_fmap; eauto. }
  assert (Hkf : ∀ c, c ∈ kept → c ∈ folded ∧ running_with installed (at_filters c) = None).
  { intros c Hc. eapply run_kept_folded; [done|]. auto with fava. }
  apply diff_conforms.
  - intros id serves Ho. rewrite (run_owners _ _ _ _ _ _ Hrun) in Ho.
    apply surviving_owners_Some in Ho as (entry & ? & _). eauto.
  - intros p (c & -> & Hc)%Hin. pose proof (run_exact _ _ _ _ _ _ Hrun) as Hex.
    rewrite Forall_forall in Hex. destruct (Hkf c Hc) as [Hf _]. destruct (Hex c Hf) as (f & Heq & _).
    simpl. by rewrite Heq.
  - rewrite Hopen, planned_filters. pose proof (run_distinct _ _ _ _ _ _ Hrun) as Hd.
    eapply sublist_NoDup; [exact Hd|]. apply fmap_sublist.
    trans (kept ++ dropped); [by apply sublist_inserts_r|].
    rewrite <- (run_split _ _ _ _ _ _ Hrun). clear. induction folded as [|c l IH]; simpl; [constructor|].
    case_bool_decide; by constructor.
  - intros id entry p Hentry (c & -> & Hc)%Hin. destruct (Hkf c Hc) as [_ Hn]. simpl.
    intros Heq. by eapply running_with_None.
  - intros d. rewrite (run_accounts _ _ _ _ _ _ d Hrun). unfold carried_by. setoid_rewrite Hopen.
    setoid_rewrite list_elem_of_fmap. naive_solver.
  - intros id entry d Hentry Ho Hd Hreq. rewrite (run_owners _ _ _ _ _ _ Hrun) in Ho.
    pose proof (surviving_owners_None _ _ _ _ _ _ Hentry Ho Hd) as Hn.
    apply demand_ids_elem in Hreq as (m & -> & Hm).
    destruct (over_declared constraints m) eqn:Hov; [by eapply Hlim|].
    by apply Hn, elem_of_demand_ids, admissible_elem.
  - intros maximum Hmax. rewrite Hopen, length_fmap. by apply (run_budget _ _ _ _ _ _ Hrun).
Qed.
End run.

(** ** The planner's promises *)

Section promises.
Context `{Nostr} `{FilterCodec}.

Lemma standard_plan_total relay demand constraints installed revision :
  FaithfulText → is_Some (standard_plan relay demand constraints installed revision).
Proof.
  intros Htext. unfold standard_plan. destruct (refuse_duplicate_demand demand); [|done].
  destruct (admit_filter_limits _ _ _) as [admissible sf]. destruct (attach_demand _ _) as [attached pending].
  unfold fit_message_bound.
  destruct (fit_loop_total (S (sum_list (turns <$> group pending constraints))) constraints
              (group pending constraints) [] sf Htext ltac:(lia)) as [r ->].
  destruct r as [[cs sf']|]; [|done]. destruct (fold_into_running _ _ _). by destruct (fit_residual_count _ _ _ _).
Qed.

Lemma standard_plan_Err relay demand constraints installed revision error :
  standard_plan relay demand constraints installed revision = Some (Err error) →
  match error with
  | DuplicateDemand _ => ¬ NoDup (demand_id <$> demand)
  | Encoding text => ∃ filters e, req_frame_len filters = Err e ∧ text = BoundedText_new e
  end.
Proof.
  unfold standard_plan, refuse_duplicate_demand. pose proof (refuse_duplicates_spec ∅ demand) as Hdup.
  destruct (refuse_duplicates_from ∅ demand) as [|e].
  - destruct (admit_filter_limits _ _ _) as [admissible sf]. destruct (attach_demand _ _) as [attached pending].
    unfold fit_message_bound. destruct (fit_loop _ _ _ _ _) as [[[cs sf']|e]|] eqn:Hfit; [|intros [= <-]|done].
    + destruct (fold_into_running _ _ _). by destruct (fit_residual_count _ _ _ _).
    + apply fit_loop_Err in Hfit as (filters & text & ? & ->). eauto.
  - intros [= <-]. destruct e as [id|]; [|done]. destruct Hdup as [[Hd _]|?]; [set_solver|done].
Qed.

(** C26. The standard planner terminates and conforms: on every input it
    returns; it refuses only repeated demand ids and filters the encoder cannot
    encode; and otherwise its plan passes [validate_plan], provided no demand
    over the declared filter limit is already running. *)
Theorem standard_plan_conforms (relay : RelayUrl) (demand : list RelayDemand)
    (constraints : RelayReadConstraints) (installed : InstalledSubscriptions) (revision : PlanRevision)
    (Htext : FaithfulText) (Hlimits : limits_respected demand constraints installed) :
  ∃ answer, standard_plan relay demand constraints installed revision = Some answer ∧
    match answer with
    | Ok plan => validate_plan relay demand constraints installed plan = Ok tt
    | Err (DuplicateDemand _) => ¬ NoDup (demand_id <$> demand)
    | Err (Encoding text) => ∃ filters e, req_frame_len filters = Err e ∧ text = BoundedText_new e
    end.
Proof.
  destruct (standard_plan_total relay demand constraints installed revision Htext) as [answer Hanswer].
  exists answer. split; [done|]. destruct answer as [plan|error].
  - apply standard_plan_run in Hanswer as (folded & kept & dropped & attached & owners & sf & Hrun & ->); [|done].
    apply validate_plan_conforms. by eapply run_conforms.
  - by apply standard_plan_Err in Hanswer.
Qed.

(** A plan asks the relay for what it claims to serve, no less and no
    more: each opened subscription carries one filter that matches an event
    exactly when one of the demands it serves wants it, and each demand
    attributed to a running subscription was already served by it or asks only
    for events one of its filters, left unchanged, already matches. *)
Theorem standard_plan_serves (match_event : Filter → Event → bool) (relay : RelayUrl)
    (demand : list RelayDemand) (constraints : RelayReadConstraints) (installed : InstalledSubscriptions)
    (revision : PlanRevision) (plan : SubscriptionPlan)
    (Hnip : Nip01Matching match_event) (Htext : FaithfulText)
    (Hplan : standard_plan relay demand constraints installed revision = Some (Ok plan)) :
  (∀ planned, planned ∈ sp_open plan → ∃ f, ps_filters planned = [f] ∧
     ∀ e, match_event f e = true ↔
       ∃ m, m ∈ demand ∧ demand_id m ∈ ps_serves planned ∧ match_event (rd_filter m) e = true) ∧
  (∀ id a m, sp_attribution plan !! id = Some a → m ∈ demand → demand_id m ∈ at_serves a →
     ∃ entry, installed !! id = Some entry ∧ at_filters a = is_filters entry ∧
       (demand_id m ∈ is_serves entry ∨
        ∃ f, f ∈ at_filters a ∧ ∀ e, match_event (rd_filter m) e = true → match_event f e = true)).
Proof.
  apply standard_plan_run in Hplan as (folded & kept & dropped & attached & owners & sf & Hrun & ->); [|done].
  destruct Hnip as [search_admits Hspec].
  pose proof (run_exact _ _ _ _ _ _ _ _ _ Hrun) as Hex. rewrite Forall_forall in Hex. split.
  - intros planned Hin. cbn [assemble sp_open] in Hin. rewrite merge_sort_Permutation in Hin.
    apply list_elem_of_fmap in Hin as (c & -> & Hc).
    destruct (Hex c) as (f & Hf & _ & Hadm).
    { eapply run_kept_folded; [done|]. auto with fava. }
    exists f. split; [done|]. intros e. rewrite Hspec, Hadm. by setoid_rewrite Hspec.
  - intros id a m Ha Hm Hd. cbn [assemble sp_attribution] in Ha.
    apply retained_lookup in Ha as (serves & entry & Ho & Hentry & ->).
    2:{ intros id' s' Ho'. rewrite (run_owners _ _ _ _ _ _ _ _ _ Hrun) in Ho'.
        apply surviving_owners_Some in Ho' as (? & ? & _). eauto. }
    exists entry. split_and!; [done..|]. cbn [at_filters at_serves] in *.
    destruct (run_owner_elem _ _ _ _ _ _ _ _ _ _ _ _ Hrun Ho Hd) as (_ & entry' & Hentry' & Hor).
    assert (entry' = entry) as -> by congruence. destruct Hor as [?|[(m' & f & Hm' & Heq & Hf & Hcov)|(c & Hc & Hcf & Hcd)]].
    + by left.
    + right. exists f. split; [done|]. intros e He. apply Hspec. apply Hspec in He.
      rewrite (NoDup_demand_eq _ _ _ (run_ids _ _ _ _ _ _ _ _ _ Hrun) Hm' Hm Heq) in Hcov.
      by eapply filter_covers_admits.
    + right. destruct (Hex c Hc) as (f & Hf & _ & Hadm). exists f.
      rewrite <- Hcf, Hf. split; [left|]. intros e He. apply Hspec, Hadm. apply Hspec in He. eauto.
Qed.
End promises.
