(* ===== verification/OnePerDemand.v ===== *)
(** * The planner that never groups ([crates/fava-subscriptions-no-grouping])

    One wire subscription per demand, under the same rules for running
    subscriptions.  [admit_filter_limits], [surviving_owners], [completeness]
    and the retained half of [assemble] are copies of the standard planner's and
    are shared with it here. *)

From S2P Require Import Prelude Nostr Relay State Write Query Subscriptions StandardPlanner Grouping.
From S2P Require Import PlannerConformance.

Section planner.
Context `{FilterCodec}.

Definition running_host (installed : InstalledSubscriptions) (demand : RelayDemand) : option SubscriptionId :=
  fst <$> List.find (λ p, bool_decide (demand_id demand ∈ is_serves p.2) ||
                          bool_decide (is_filters p.2 = [rd_filter demand])) (entries installed).

(** An unencodable frame counts as [usize::MAX] bytes. *)
Definition lone_encoded_bytes (filter : Filter) : N :=
  match req_frame_len [filter] with Ok bytes => bytes | Err _ => u64_max end.

(** Add a demand to the first carried request with these filters, if any. *)
Fixpoint join_carried (carried : list PlannedSubscription) (filters : list Filter) (id : DemandId)
    : option (list PlannedSubscription) :=
  match carried with
  | [] => None
  | planned :: carried =>
      if bool_decide (ps_filters planned = filters)
      then Some (mkPlannedSub (ps_filters planned) ({[ id ]} ∪ ps_serves planned) (ps_completeness planned)
                 :: carried)
      else carried ← join_carried carried filters id; Some (planned :: carried)
  end.

(** [carried.len() >= residual] under a declared maximum; [budget] is
    [(residual, maximum)]. *)
Definition exhausted (budget : option (nat * nat)) (required : nat) (carried : list PlannedSubscription)
    : option ShortfallReason :=
  '(residual, maximum) ← budget;
  if bool_decide (residual ≤ length carried) then Some (SubscriptionsExhausted required maximum) else None.

(** [bytes > maximum] under a declared message bound. *)
Definition oversize (constraints : RelayReadConstraints) (bytes : N) : option ShortfallReason :=
  maximum ← N.of_nat <$> limit_get (max_message_bytes constraints);
  if bool_decide (maximum < bytes)%N then Some (MessageTooLarge bytes maximum) else None.

(** The loop of [admit_pending]. *)
Fixpoint pending_loop (constraints : RelayReadConstraints) (budget : option (nat * nat)) (required : nat)
    (carried : list PlannedSubscription) (running_filters : list (list Filter))
    (shortfalls : list SubscriptionShortfall) (pending : list RelayDemand)
    : list PlannedSubscription * list SubscriptionShortfall :=
  match pending with
  | [] => (carried, shortfalls)
  | item :: pending =>
      let filters := [rd_filter item] in
      match exhausted budget required carried with
      | Some reason =>
          pending_loop constraints budget required carried running_filters
            (shortfalls ++ [mkShortfall (demand_id item) reason]) pending
      | None =>
          match join_carried carried filters (demand_id item) with
          | Some carried => pending_loop constraints budget required carried running_filters shortfalls pending
          | None =>
              if bool_decide (filters ∈ running_filters)
              then pending_loop constraints budget required carried running_filters shortfalls pending
              else
                match oversize constraints (lone_encoded_bytes (rd_filter item)) with
                | Some reason =>
                    pending_loop constraints budget required carried running_filters
                      (shortfalls ++ [mkShortfall (demand_id item) reason]) pending
                | None =>
                    pending_loop constraints budget required
                      (carried ++ [mkPlannedSub filters {[ demand_id item ]} (completeness filters constraints)])
                      (running_filters ++ [filters]) shortfalls pending
                end
          end
      end
  end.

Definition admit_pending (pending : list RelayDemand) (constraints : RelayReadConstraints)
    (installed : InstalledSubscriptions) (running : nat) (shortfalls : list SubscriptionShortfall)
    : list PlannedSubscription * list SubscriptionShortfall :=
  let budget := (λ maximum, (maximum - running, maximum)) <$> limit_get (max_subscriptions constraints) in
  pending_loop constraints budget (running + length pending) [] (is_filters <$> values installed) shortfalls pending.

Definition assemble_unsorted (relay : RelayUrl) (revision : PlanRevision) (open : list PlannedSubscription)
    (constraints : RelayReadConstraints) (installed : InstalledSubscriptions) (owners : Owners)
    (shortfalls : list SubscriptionShortfall) : SubscriptionPlan :=
  let attribution := retained_entries constraints installed owners in
  mkSubscriptionPlan relay revision open (merge_sort key_le (fst <$> attribution))
    (withdrawals installed owners) (list_to_map attribution) shortfalls.

Definition demand_le (left right : RelayDemand) : Prop := key_le (demand_id left) (demand_id right).
#[global] Instance demand_le_dec : RelDecision demand_le.
Proof. intros x y. unfold demand_le. apply _. Defined.

(** [OnePerDemand::plan]: no loop needs fuel. *)
Definition one_per_demand_plan : Planner := λ relay demand constraints installed revision,
  Some (
    _ ← refuse_duplicate_demand demand;
    let '(admissible, shortfalls) := admit_filter_limits demand constraints [] in
    let '(attached, pending) := foldl (attach_step (running_host installed)) (∅, []) admissible in
    let owners := surviving_owners admissible installed attached in
    let '(carried, shortfalls) :=
      admit_pending (merge_sort demand_le pending) constraints installed (size owners) shortfalls in
    Ok (assemble_unsorted relay revision carried constraints installed owners shortfalls)).
End planner.

(** ** Lemmas *)

Section lemmas.
Context `{FilterCodec}.

Lemma running_host_Some installed m id :
  running_host installed m = Some id → ∃ entry, installed !! id = Some entry ∧
    (demand_id m ∈ is_serves entry ∨ is_filters entry = [rd_filter m]).
Proof.
  unfold running_host. intros ([id' entry] & Hf & ->)%fmap_Some.
  apply find_elem in Hf as [Hin%elem_of_entries Hor%orb_true_iff]. simpl in *.
  rewrite !bool_decide_eq_true in Hor. eauto.
Qed.

Lemma running_host_None installed m id entry :
  running_host installed m = None → installed !! id = Some entry → is_filters entry ≠ [rd_filter m].
Proof.
  unfold running_host. intros Hn%fmap_None Hentry.
  pose proof (find_not_elem _ _ Hn (id, entry)) as Hf. rewrite elem_of_entries in Hf.
  apply Hf, orb_false_iff in Hentry as [_ Hne]. by apply bool_decide_eq_false in Hne.
Qed.

(** A carried request asks for exactly the filter of each demand it serves. *)
Definition serves_same (demand : list RelayDemand) (planned : PlannedSubscription) : Prop :=
  ∃ f, ps_filters planned = [f] ∧ ps_serves planned ≠ ∅ ∧
    ∀ d, d ∈ ps_serves planned → ∃ m, m ∈ demand ∧ demand_id m = d ∧ rd_filter m = f.

Abbreviation opened cs d := (∃ planned : PlannedSubscription, planned ∈ cs ∧ d ∈ ps_serves planned) (only parsing).

Lemma join_carried_None cs filters id : join_carried cs filters id = None ↔ filters ∉ ps_filters <$> cs.
Proof.
  induction cs as [|p cs IH]; csimpl; [split; [intros _; apply not_elem_of_nil|done]|].
  rewrite not_elem_of_cons. case_bool_decide as Hp; [naive_solver|].
  destruct (join_carried cs filters id); simpl; naive_solver.
Qed.

Lemma join_carried_Some cs filters id cs' :
  join_carried cs filters id = Some cs' →
  length cs' = length cs ∧ ps_filters <$> cs' = ps_filters <$> cs ∧
  (∀ d, opened cs' d ↔ opened cs d ∨ d = id) ∧
  (∀ demand m, m ∈ demand → demand_id m = id → filters = [rd_filter m] →
     Forall (serves_same demand) cs → Forall (serves_same demand) cs').
Proof.
  revert cs'. induction cs as [|p cs IH]; intros cs'; simpl; [done|]. case_bool_decide as Hp.
  - intros [= <-]. csimpl. split_and!; [done|done| |].
    + intros d. setoid_rewrite elem_of_cons. split.
      * intros (q & [->|Hq] & Hd); simpl in *; [|eauto 10].
        apply elem_of_union in Hd as [->%elem_of_singleton|Hd]; eauto 10.
      * intros [(q & [->|Hq] & Hd)| ->]; [|by eauto 10|].
        -- eexists. split; [by left|]. simpl. by apply elem_of_union_r.
        -- eexists. split; [by left|]. simpl. apply elem_of_union_l. by apply elem_of_singleton.
    + intros demand m Hm Hid Hf (Hpf & Hcs)%Forall_cons. constructor; [|done].
      destruct Hpf as (f & Hpf & Hne & Hs). exists f. simpl. split_and!; [done|set_solver|].
      intros d [->%elem_of_singleton|Hd]%elem_of_union; [|by apply Hs].
      exists m. split_and!; [done..|congruence].
  - intros (cs0 & Hj & [= <-])%bind_Some. destruct (IH _ Hj) as (Hl & Hfs & Ho & Hs). csimpl.
    split_and!; [by f_equal|by f_equal| |].
    + intros d. specialize (Ho d). setoid_rewrite elem_of_cons. split.
      * intros (q & [->|Hq] & Hd); [eauto 10|]. destruct Ho as [Ho _].
        destruct Ho as [(q' & ? & ?)|?]; [by exists q|left; eauto 10|by right].
      * intros Hor. destruct Ho as [_ Ho]. destruct Hor as [(q & [->|Hq] & Hd)|Hd]; [by eauto 10| |].
        -- destruct Ho as (q' & ? & ?); [left; by exists q|]. eauto 10.
        -- destruct Ho as (q' & ? & ?); [by right|]. eauto 10.
    + intros demand m Hm Hid Hf (Hp' & Hcs)%Forall_cons. constructor; [done|]. by eapply Hs.
Qed.

(** The requests carried so far, over the filters [base] that already run. *)
Record carried_inv (demand : list RelayDemand) (base : list (list Filter)) (budget : option (nat * nat))
    (carried : list PlannedSubscription) : Prop := {
  cv_same : Forall (serves_same demand) carried;
  cv_distinct : NoDup (ps_filters <$> carried);
  cv_fresh : ∀ filters, filters ∈ ps_filters <$> carried → filters ∉ base;
  cv_budget : ∀ residual maximum, budget = Some (residual, maximum) → length carried ≤ residual
}.

Lemma carried_inv_join demand base budget carried carried' m :
  carried_inv demand base budget carried → m ∈ demand →
  join_carried carried [rd_filter m] (demand_id m) = Some carried' → carried_inv demand base budget carried'.
Proof.
  intros [Hs Hd Hf Hb] Hm Hj. destruct (join_carried_Some _ _ _ _ Hj) as (Hl & Hfs & _ & Hsame).
  split; [by eapply Hsame|by rewrite Hfs|by rewrite Hfs|by rewrite Hl].
Qed.

Lemma carried_inv_snoc demand base budget required carried m completeness :
  carried_inv demand base budget carried → m ∈ demand → exhausted budget required carried = None →
  join_carried carried [rd_filter m] (demand_id m) = None → [rd_filter m] ∉ base →
  carried_inv demand base budget (carried ++ [mkPlannedSub [rd_filter m] {[ demand_id m ]} completeness]).
Proof.
  intros [Hs Hd Hf Hb] Hm Hex Hj%join_carried_None Hbase. split.
  - apply Forall_app. split; [done|]. constructor; [|constructor]. exists (rd_filter m).
    split_and!; [done|set_solver|]. simpl. intros d ->%elem_of_singleton. eauto.
  - rewrite fmap_app. by apply NoDup_snoc.
  - intros filters. rewrite fmap_app, elem_of_app. csimpl. rewrite list_elem_of_singleton. intros [?| ->]; [by apply Hf|done].
  - intros residual maximum ->. simpl in Hex. case_bool_decide; [done|]. rewrite length_app. simpl. lia.
Qed.

(** What the loop makes of the pending demand. *)
Lemma pending_loop_spec demand base constraints budget required pending :
  pending ⊆ demand → (∀ m, m ∈ pending → [rd_filter m] ∉ base) →
  ∀ carried running_filters sf,
  carried_inv demand base budget carried →
  (∀ filters, filters ∈ running_filters ↔ filters ∈ base ∨ filters ∈ ps_filters <$> carried) →
  ∃ carried' new,
    pending_loop constraints budget required carried running_filters sf pending = (carried', sf ++ new) ∧
    carried_inv demand base budget carried' ∧
    (∀ d, opened carried d → opened carried' d) ∧
    (∀ m, m ∈ pending → opened carried' (demand_id m) ∨ demand_id m ∈ sf_demand <$> new) ∧
    (∀ d, d ∈ sf_demand <$> new → d ∈ demand_ids demand).
Proof.
  induction pending as [|m pending IH]; intros Hsub Hbase carried running_filters sf Hinv Hrf.
  { exists carried, []. rewrite (right_id_L [] (++)). split_and!; [done..|by intros ? ?%not_elem_of_nil|].
    csimpl. by intros ? ?%not_elem_of_nil. }
  assert (Hm : m ∈ demand) by (apply Hsub; left).
  specialize (IH (λ x Hx, Hsub x (proj2 (elem_of_cons _ _ _) (or_intror Hx)))
                 (λ x Hx, Hbase x (proj2 (elem_of_cons _ _ _) (or_intror Hx)))).
  (* the demand is reported and the rest goes on *)
  assert (Hreport : ∀ reason, ∃ carried' new,
    pending_loop constraints budget required carried running_filters
      (sf ++ [mkShortfall (demand_id m) reason]) pending = (carried', sf ++ new) ∧
    carried_inv demand base budget carried' ∧ (∀ d, opened carried d → opened carried' d) ∧
    (∀ x, x ∈ m :: pending → opened carried' (demand_id x) ∨ demand_id x ∈ sf_demand <$> new) ∧
    (∀ d, d ∈ sf_demand <$> new → d ∈ demand_ids demand)).
  { intros reason. destruct (IH carried running_filters (sf ++ [mkShortfall (demand_id m) reason]) Hinv Hrf)
      as (carried' & new & -> & Hinv' & Hmono & Hacc & Hnew).
    exists carried', (mkShortfall (demand_id m) reason :: new). rewrite <- (assoc_L (++)).
    split_and!; [done|done|done| |]; csimpl.
    - intros x [->|Hx]%elem_of_cons; [right; left|]. rewrite elem_of_cons. destruct (Hacc x Hx); auto.
    - intros d [->|Hd]%elem_of_cons; [by apply elem_of_demand_ids|by apply Hnew]. }
  (* the demand is carried and the rest goes on *)
  assert (Hcarry : ∀ carried0 running0, carried_inv demand base budget carried0 →
    (∀ filters, filters ∈ running0 ↔ filters ∈ base ∨ filters ∈ ps_filters <$> carried0) →
    (∀ d, opened carried d → opened carried0 d) → opened carried0 (demand_id m) → ∃ carried' new,
    pending_loop constraints budget required carried0 running0 sf pending = (carried', sf ++ new) ∧
    carried_inv demand base budget carried' ∧ (∀ d, opened carried d → opened carried' d) ∧
    (∀ x, x ∈ m :: pending → opened carried' (demand_id x) ∨ demand_id x ∈ sf_demand <$> new) ∧
    (∀ d, d ∈ sf_demand <$> new → d ∈ demand_ids demand)).
  { intros carried0 running0 Hinv0 Hrf0 Hmono0 Hop. destruct (IH carried0 running0 sf Hinv0 Hrf0)
      as (carried' & new & -> & Hinv' & Hmono & Hacc & Hnew).
    exists carried', new. split_and!; [done|done|by auto| |done].
    intros x [->|Hx]%elem_of_cons; [left; by apply Hmono|by apply Hacc]. }
  cbn [pending_loop]. cbn zeta. destruct (exhausted budget required carried) as [reason|] eqn:Hex; [by apply Hreport|].
  destruct (join_carried carried [rd_filter m] (demand_id m)) as [carried0|] eqn:Hj.
  { pose proof (carried_inv_join _ _ _ _ _ _ Hinv Hm Hj) as Hinv0.
    destruct (join_carried_Some _ _ _ _ Hj) as (_ & Hfs & Ho & _).
    apply Hcarry; [done|by rewrite Hfs|intros d Hd; apply Ho; by left|apply Ho; by right]. }
  rewrite bool_decide_eq_false_2.
  2:{ rewrite Hrf. apply join_carried_None in Hj. intros [Hb|?]; [|done]. by apply (Hbase m ltac:(left)). }
  destruct (oversize _ _) as [reason|]; [by apply Hreport|].
  apply Hcarry; [eapply carried_inv_snoc; [done|done|done|done|apply Hbase; left]| | |].
  - intros filters. rewrite fmap_app, !elem_of_app, Hrf. csimpl. tauto.
  - intros d (p & Hp & Hd). exists p. split; [apply elem_of_app; by left|done].
  - eexists. split; [apply elem_of_app; right; left|]. simpl. by apply elem_of_singleton.
Qed.
End lemmas.

(** ** The planner's promises *)

Section promises.
Context `{FilterCodec}.

(** Whoever owns a running subscription is still in demand. *)
Lemma owner_demanded demand constraints installed attached id serves d :
  (∀ id d, d ∈ owned attached id → ∃ m, m ∈ admissible demand constraints ∧ demand_id m = d) →
  surviving_owners (admissible demand constraints) installed attached !! id = Some serves → d ∈ serves →
  d ∈ demand_ids demand.
Proof.
  intros Hatt (entry & _ & _ & Hs)%surviving_owners_Some Hd.
  assert (∃ m, m ∈ admissible demand constraints ∧ demand_id m = d) as (m & [_ Hm]%admissible_elem & <-).
  { apply Hs in Hd as [[_ (m & -> & Hm)%demand_ids_elem]|Hd]; [eauto|by eapply Hatt]. }
  by apply elem_of_demand_ids.
Qed.

Lemma one_per_demand_run relay demand constraints installed revision plan :
  one_per_demand_plan relay demand constraints installed revision = Some (Ok plan) →
  ∃ carried owners shortfalls,
    plan = assemble_unsorted relay revision carried constraints installed owners shortfalls ∧
    NoDup (demand_id <$> demand) ∧
    carried_inv demand (is_filters <$> values installed)
      ((λ maximum, (maximum - size owners, maximum)) <$> limit_get (max_subscriptions constraints)) carried ∧
    (∀ id serves, owners !! id = Some serves → is_Some (installed !! id)) ∧
    (∀ d, d ∈ demand_ids demand ↔ (∃ id serves, owners !! id = Some serves ∧ d ∈ serves) ∨
       (∃ planned, planned ∈ carried ∧ d ∈ ps_serves planned) ∨ d ∈ sf_demand <$> shortfalls) ∧
    (∀ id entry d, installed !! id = Some entry → owners !! id = None → d ∈ is_serves entry →
       d ∉ demand_ids (admissible demand constraints)).
Proof.
  unfold one_per_demand_plan, refuse_duplicate_demand. pose proof (refuse_duplicates_spec ∅ demand) as Hdup.
  destruct (refuse_duplicates_from ∅ demand) as [[]|]; simpl; [|done]. destruct Hdup as [Hnd _].
  destruct (admit_limits_spec demand constraints) as (sf0 & -> & Hsf0).
  change (List.filter _ demand) with (admissible demand constraints).
  destruct (attach_fold (running_host installed) (admissible demand constraints) ∅ []) as [Hpend Hatt].
  destruct (foldl _ (∅, []) (admissible demand constraints)) as [attached pending].
  cbn [fst snd] in Hpend, Hatt. rewrite (left_id_L [] (++)) in Hpend.
  assert (Hpin : ∀ m, m ∈ merge_sort demand_le pending ↔
    running_host installed m = None ∧ over_declared constraints m = false ∧ m ∈ demand).
  { intros m. rewrite merge_sort_Permutation, Hpend, elem_of_filterb, bool_decide_eq_true.
    by rewrite admissible_elem. }
  set (owners := surviving_owners (admissible demand constraints) installed attached).
  unfold admit_pending. cbn zeta. set (budget := _ <$> limit_get (max_subscriptions constraints)).
  destruct (pending_loop_spec demand (is_filters <$> values installed) constraints budget
              (size owners + length (merge_sort demand_le pending)) (merge_sort demand_le pending))
    with (carried := @nil PlannedSubscription) (running_filters := is_filters <$> values installed) (sf := sf0)
    as (carried & new & -> & Hinv & _ & Hacc & Hnew).
  { intros m Hm. by apply Hpin in Hm as (_ & _ & ?). }
  { intros m (Hh & _)%Hpin. intros (entry & Heq & [id Hid]%elem_of_values)%list_elem_of_fmap.
    by eapply running_host_None. }
  { split; [constructor|constructor|csimpl; by intros ? ?%not_elem_of_nil|intros; simpl; lia]. }
  { intros filters. csimpl. rewrite elem_of_nil. tauto. }
  intros [= <-]. exists carried, owners, (sf0 ++ new). split_and!; [done|done|done| | |].
  - intros id serves (entry & ? & _)%surviving_owners_Some. eauto.
  - intros d. rewrite fmap_app, elem_of_app. split.
    + intros Hd. apply demand_ids_elem in Hd as (m & -> & Hm).
      destruct (over_declared constraints m) eqn:Hov; [right; right; left; apply Hsf0; eauto|].
      destruct (running_host installed m) as [id|] eqn:Hh.
      * left. exists id. apply surviving_owners_attached;
          [by apply running_host_Some in Hh as (? & -> & _)|]. apply Hatt. right. exists m.
        by rewrite admissible_elem.
      * destruct (Hacc m) as [?|?]; [by apply Hpin|auto..].
    + intros [(id & serves & Ho & Hd)|[(p & Hp & Hd)|[Hd|Hd]]].
      * eapply owner_demanded; [|done|done].
        intros i x [Hx|(m & Hm & _ & ?)]%Hatt; [by rewrite lookup_empty in Hx|eauto].
      * pose proof (cv_same _ _ _ _ Hinv) as Hs. rewrite Forall_forall in Hs.
        destruct (Hs p Hp) as (f & _ & _ & Hsp). destruct (Hsp d Hd) as (m & Hm & <- & _). by apply elem_of_demand_ids.
      * apply Hsf0 in Hd as (m & Hm & _ & <-). by apply elem_of_demand_ids.
      * by apply Hnew.
  - intros id entry d Hentry Ho Hd. by eapply surviving_owners_None.
Qed.

Lemma one_per_demand_conforms_ok relay demand constraints installed revision plan :
  limits_respected demand constraints installed →
  one_per_demand_plan relay demand constraints installed revision = Some (Ok plan) →
  conforms relay demand constraints installed plan.
Proof.
  intros Hlim (carried & owners & sf & -> & Hnd & Hinv & Howners & Hacc & Hrun)%one_per_demand_run.
  apply diff_conforms; [done| | | |done| |].
  - intros p Hp. pose proof (cv_same _ _ _ _ Hinv) as Hs. rewrite Forall_forall in Hs.
    destruct (Hs p Hp) as (f & -> & _). done.
  - apply (cv_distinct _ _ _ _ Hinv).
  - intros id entry p Hentry Hp Heq. eapply (cv_fresh _ _ _ _ Hinv); [by apply list_elem_of_fmap_2|].
    rewrite Heq. apply list_elem_of_fmap_2, elem_of_values. eauto.
  - intros id entry d Hentry Ho Hd (m & -> & Hm)%demand_ids_elem.
    destruct (over_declared constraints m) eqn:Hov; [by eapply Hlim|].
    eapply Hrun; [done..|]. by apply elem_of_demand_ids, admissible_elem.
  - intros maximum Hmax. apply (cv_budget _ _ _ _ Hinv _ maximum). by rewrite Hmax.
Qed.

(** The ungrouped planner conforms too: it refuses only repeated demand
    ids, and otherwise its plan passes [validate_plan], provided no demand over
    the declared filter limit is already running; and every subscription it
    opens carries exactly the filter of each demand it serves. *)
Theorem one_per_demand_conforms (relay : RelayUrl) (demand : list RelayDemand)
    (constraints : RelayReadConstraints) (installed : InstalledSubscriptions) (revision : PlanRevision)
    (Hlimits : limits_respected demand constraints installed) :
  match one_per_demand_plan relay demand constraints installed revision with
  | Some (Ok plan) =>
      validate_plan relay demand constraints installed plan = Ok tt ∧
      ∀ planned, planned ∈ sp_open plan → serves_same demand planned
  | Some (Err (DuplicateDemand _)) => ¬ NoDup (demand_id <$> demand)
  | Some (Err (Encoding _)) | None => False
  end.
Proof.
  destruct (one_per_demand_plan _ _ _ _ _) as [[plan|error]|] eqn:Hplan; [| |done].
  - split; [by apply validate_plan_conforms; eapply one_per_demand_conforms_ok|].
    apply one_per_demand_run in Hplan as (carried & owners & sf & -> & _ & Hinv & _). simpl.
    apply Forall_forall, (cv_same _ _ _ _ Hinv).
  - unfold one_per_demand_plan, refuse_duplicate_demand in Hplan.
    pose proof (refuse_duplicates_spec ∅ demand) as Hdup.
    destruct (refuse_duplicates_from ∅ demand) as [|e]; simpl in Hplan.
    { destruct (admit_filter_limits _ _ _), (foldl _ _ _). by destruct (admit_pending _ _ _ _ _). }
    injection Hplan as ->. destruct error as [id|]; [|done]. destruct Hdup as [[Hd _]|?]; [set_solver|done].
Qed.
End promises.

(** ** The two planners ask alike *)

Section differential.
Context `{Nostr} `{FilterCodec}.

(** The events a plan asks a fresh session for. *)
Definition asks_for (match_event : Filter → Event → bool) (plan : SubscriptionPlan) (e : Event) : Prop :=
  ∃ planned f, planned ∈ sp_open plan ∧ f ∈ ps_filters planned ∧ match_event f e = true.

Definition wanted (match_event : Filter → Event → bool) (demand : list RelayDemand) (e : Event) : Prop :=
  ∃ m, m ∈ demand ∧ match_event (rd_filter m) e = true.

Lemma standard_asks match_event relay demand constraints revision plan e :
  Nip01Matching match_event → FaithfulText →
  standard_plan relay demand constraints ∅ revision = Some (Ok plan) → sp_shortfalls plan = [] →
  asks_for match_event plan e ↔ wanted match_event demand e.
Proof.
  intros [search_admits Hspec] Htext Hplan Hnone.
  apply standard_plan_run in Hplan as (folded & kept & dropped & attached & owners & sf & Hrun & ->); [|done].
  simpl in Hnone. subst sf. pose proof (run_exact _ _ _ _ _ _ _ _ _ Hrun) as Hex. rewrite Forall_forall in Hex.
  assert (Hkept : ∀ c, c ∈ kept → ∃ f, at_filters c = [f] ∧ ∀ e, match_event f e = true ↔
    ∃ m, m ∈ demand ∧ demand_id m ∈ at_serves c ∧ match_event (rd_filter m) e = true).
  { intros c Hc. destruct (Hex c) as (f & Hf & _ & Hadm).
    { eapply run_kept_folded; [done|]. auto with fava. }
    exists f. split; [done|]. intros e'. rewrite Hspec, Hadm. by setoid_rewrite Hspec. }
  unfold asks_for, wanted. cbn [assemble sp_open]. split.
  - intros (p & f & Hp & Hf & He). rewrite merge_sort_Permutation in Hp.
    apply list_elem_of_fmap in Hp as (c & -> & Hc). destruct (Hkept c Hc) as (f' & Hf' & Hadm). simpl in Hf.
    rewrite Hf', list_elem_of_singleton in Hf. subst f'. apply Hadm in He as (m & ? & _ & ?). eauto.
  - intros (m & Hm & He). pose proof (elem_of_demand_ids m demand Hm) as Hd.
    apply (run_accounts _ _ _ _ _ _ _ _ _ _ Hrun) in Hd as [(id & s & Ho & _)|[(c & Hc & Hd)|Hd]].
    + rewrite (run_owners _ _ _ _ _ _ _ _ _ Hrun) in Ho. by apply surviving_owners_Some in Ho as (? & ? & _).
    + destruct (Hkept c Hc) as (f & Hf & Hadm). exists (planned_of c), f. split_and!.
      * rewrite merge_sort_Permutation. by apply (list_elem_of_fmap_2 planned_of).
      * simpl. rewrite Hf. left.
      * apply Hadm. eauto.
    + csimpl in Hd. by apply not_elem_of_nil in Hd.
Qed.

Lemma one_per_demand_asks match_event relay demand constraints revision plan e :
  one_per_demand_plan relay demand constraints ∅ revision = Some (Ok plan) → sp_shortfalls plan = [] →
  asks_for match_event plan e ↔ wanted match_event demand e.
Proof.
  intros (carried & owners & sf & -> & Hnd & Hinv & Howners & Hacc & _)%one_per_demand_run Hnone.
  simpl in Hnone. subst sf. pose proof (cv_same _ _ _ _ Hinv) as Hs. rewrite Forall_forall in Hs.
  unfold asks_for, wanted. cbn [assemble_unsorted sp_open]. split.
  - intros (p & f & Hp & Hf & He). destruct (Hs p Hp) as (f' & Hf' & [d Hd]%set_choose_L & Hsp).
    rewrite Hf', list_elem_of_singleton in Hf. subst f'.
    destruct (Hsp d Hd) as (m & Hm & _ & <-). eauto.
  - intros (m & Hm & He). pose proof (elem_of_demand_ids m demand Hm) as Hd.
    apply Hacc in Hd as [(id & s & Ho & _)|[(p & Hp & Hd)|Hd]].
    + by apply Howners in Ho as [? ?].
    + destruct (Hs p Hp) as (f & Hf & _ & Hsp). destruct (Hsp _ Hd) as (m' & Hm' & Hid & Hfm).
      rewrite (NoDup_demand_eq demand m' m Hnd Hm' Hm Hid) in Hfm.
      exists p, f. rewrite Hf, <- Hfm. split_and!; [done|left|done].
    + csimpl in Hd. by apply not_elem_of_nil in Hd.
Qed.

(** Grouping does not change meaning: for a fresh session, whenever both
    planners carry all the demand, they ask the relay for the same events, and
    these are exactly the events some demand wants. *)
Theorem planners_ask_alike (match_event : Filter → Event → bool) (relay : RelayUrl)
    (demand : list RelayDemand) (constraints : RelayReadConstraints) (revision : PlanRevision)
    (grouped ungrouped : SubscriptionPlan) (e : Event)
    (Hnip : Nip01Matching match_event) (Htext : FaithfulText)
    (Hgrouped : standard_plan relay demand constraints ∅ revision = Some (Ok grouped))
    (Hungrouped : one_per_demand_plan relay demand constraints ∅ revision = Some (Ok ungrouped))
    (Hg : sp_shortfalls grouped = []) (Hu : sp_shortfalls ungrouped = []) :
  (asks_for match_event grouped e ↔ asks_for match_event ungrouped e) ∧
  (asks_for match_event grouped e ↔ wanted match_event demand e).
Proof.
  pose proof (standard_asks match_event relay demand constraints revision grouped e Hnip Htext Hgrouped Hg) as H1.
  pose proof (one_per_demand_asks match_event relay demand constraints revision ungrouped e Hungrouped Hu) as H2.
  split; [by rewrite H1, H2|done].
Qed.
End differential.

(** ** A relay that lowers its filter limit *)

Section lowered.
Context `{FilterCodec}.

(** The plan for one demand that runs under [id] and now exceeds the limit. *)
Definition withdrawing (relay : RelayUrl) (revision : PlanRevision) (id : SubscriptionId) (m : RelayDemand)
    (reason : ShortfallReason) : SubscriptionPlan :=
  mkSubscriptionPlan relay revision [] [] [id] ∅ [mkShortfall (demand_id m) reason].

Lemma withdrawing_rejected relay constraints revision id filters m reason :
  validate_plan relay [m] constraints {[ id := mkInstalled filters {[ demand_id m ]} ]}
    (withdrawing relay revision id m reason) = Err (RunningSubscriptionWithdrawn id (demand_id m)).
Proof.
  set (installed := {[ id := mkInstalled filters {[ demand_id m ]} ]} : InstalledSubscriptions).
  set (plan := withdrawing relay revision id m reason).
  assert (Hrun : check_running_subscriptions [m] installed plan =
    Err (RunningSubscriptionWithdrawn id (demand_id m))).
  { unfold check_running_subscriptions. simpl. unfold installed. rewrite lookup_singleton_eq. simpl.
    unfold ordered_elements. rewrite elements_singleton. simpl.
    by rewrite bool_decide_eq_true_2 by (apply demand_ids_elem; exists m; split; [done|left]). }
  assert (Hdem : check_demand [m] plan = Ok tt).
  { apply check_demand_Ok. split.
    - intros d (m' & -> & ->%list_elem_of_singleton)%demand_ids_elem. right. eexists. split; [left|done].
    - intros d [[(? & ? & Hl & _)|(? & Hin & _)]|(s & Hs & <-)].
      + simpl in Hl. by rewrite lookup_empty in Hl.
      + by apply not_elem_of_nil in Hin.
      + apply list_elem_of_singleton in Hs as ->. apply demand_ids_elem. exists m. split; [done|left]. }
  unfold validate_plan. rewrite Hdem. unfold check_relay. rewrite bool_decide_eq_true_2 by done. simpl.
  unfold check_buckets. simpl. rewrite bool_decide_eq_false_2 by set_solver.
  rewrite bool_decide_eq_false_2 by (unfold installed; by rewrite lookup_singleton_eq). simpl.
  unfold check_attribution_keys. rewrite bool_decide_eq_true_2 by (simpl; set_solver). simpl.
  unfold check_filters. simpl. by rewrite Hrun.
Qed.

(** A relay that lowers its declared filter limit makes both planners
    withdraw a running subscription that is still wanted, against CR-1: the
    demand is set aside before its running subscription is looked up, so the
    subscription has no owner left and its close violates [validate_plan]. *)
Theorem lowered_limit_withdraws_running (relay : RelayUrl) (constraints : RelayReadConstraints)
    (revision : PlanRevision) (id : SubscriptionId) (filters : list Filter) (m : RelayDemand)
    (required maximum : nat)
    (Hlimit : limit_get (max_filter_limit constraints) = Some maximum)
    (Hrequired : fl_limit (rd_filter m) = Some required) (Hover : maximum < required) :
  let installed := {[ id := mkInstalled filters {[ demand_id m ]} ]} in
  let plan := withdrawing relay revision id m (FilterLimitExceeded required maximum) in
  standard_plan relay [m] constraints installed revision = Some (Ok plan) ∧
  one_per_demand_plan relay [m] constraints installed revision = Some (Ok plan) ∧
  validate_plan relay [m] constraints installed plan =
    Err (RunningSubscriptionWithdrawn id (demand_id m)).
Proof.
  intros installed plan.
  assert (Hadmit : admit_filter_limits [m] constraints [] =
    ([], [mkShortfall (demand_id m) (FilterLimitExceeded required maximum)])).
  { unfold admit_filter_limits. rewrite Hlimit. simpl. unfold limit_step, over_limit. rewrite Hrequired. simpl.
    by rewrite bool_decide_eq_true_2. }
  assert (Howners : surviving_owners [] installed ∅ = ∅).
  { apply map_eq. intros k. rewrite surviving_owners_lookup, lookup_empty. unfold installed.
    destruct (decide (k = id)) as [->|Hk]; [|by rewrite lookup_singleton_ne].
    rewrite lookup_singleton_eq. cbn [mbind option_bind is_serves]. cbn zeta.
    rewrite bool_decide_eq_true_2; [done|]. apply empty_union_L. split; [|done].
    apply set_eq. intros d. rewrite elem_of_filter. set_solver. }
  assert (Hclose : withdrawals installed ∅ = [id]).
  { unfold withdrawals, keys, entries, installed. rewrite map_to_list_singleton. simpl.
    by rewrite bool_decide_eq_true_2. }
  assert (Hdup : refuse_duplicate_demand [m] = Ok tt).
  { unfold refuse_duplicate_demand. simpl. by rewrite bool_decide_eq_false_2 by set_solver. }
  split_and!.
  - assert (Hres : ∀ n sf, fit_residual_count [] constraints n sf = ([], sf)).
    { intros n sf. unfold fit_residual_count. destruct (limit_get (max_subscriptions constraints)); [|done].
      by rewrite bool_decide_eq_true_2 by (simpl; lia). }
    assert (Hgroup : group [] constraints = []) by (unfold group; by case_bool_decide).
    unfold standard_plan. rewrite Hdup, Hadmit. cbn [attach_demand foldl]. rewrite Hgroup.
    cbn [fit_message_bound fit_loop fmap list_fmap sum_list sum_list_with].
    cbn [fold_identical_filters fold_into_running foldl]. rewrite Hres.
    rewrite Howners. unfold assemble. simpl. by rewrite Hclose.
  - unfold one_per_demand_plan. rewrite Hdup. simpl. rewrite Hadmit. simpl. rewrite Howners.
    unfold assemble_unsorted. simpl. by rewrite Hclose.
  - apply withdrawing_rejected.
Qed.
End lowered.
