(* ===== verification/PlannerWitness.v ===== *)
(** * The planners on concrete input

    A concrete encoder and matcher that satisfy the hypotheses of the planner
    theorems, and each theorem applied to a small session. *)

From S2P Require Import Prelude Nostr Relay State Write Query Subscriptions StandardPlanner Grouping.
From S2P Require Import PlannerConformance OnePerDemand.

(** ** An executable matcher *)

Section matcher.
Context `{Nostr}.

Definition axis_matches {A} `{Countable A} (axis : option (gset A)) (x : A) : bool :=
  match constrained axis with None => true | Some values => bool_decide (x ∈ values) end.

Definition carries_tag (name : SingleLetterTag) (values : gset string) (e : Event) : bool :=
  existsb (λ tag,
    match tag_single_letter tag, tag_content tag with
    | Some n, Some v => bool_decide (n = name) && bool_decide (v ∈ values)
    | _, _ => false
    end) (ev_tags e).

(** A relay that ignores NIP-50 search terms. *)
Definition nip01_match (f : Filter) (e : Event) : bool :=
  axis_matches (fl_ids f) (ev_id e) && axis_matches (fl_authors f) (ev_pubkey e) &&
  axis_matches (fl_kinds f) (ev_kind e) &&
  match fl_since f with None => true | Some since => bool_decide (since ≤ ev_created_at e)%N end &&
  match fl_until f with None => true | Some until => bool_decide (ev_created_at e ≤ until)%N end &&
  forallb (λ '(name, values), carries_tag name values e) (entries (fl_generic_tags f)).

Lemma axis_matches_spec {A} `{Countable A} (axis : option (gset A)) x :
  axis_matches axis x = true ↔ axis_admits axis x.
Proof. unfold axis_matches, axis_admits. destruct (constrained axis); [apply bool_decide_eq_true|done]. Qed.

Lemma carries_tag_spec name values e : carries_tag name values e = true ↔ tag_admits name values e.
Proof.
  unfold carries_tag, tag_admits. rewrite existsb_elem. split.
  - intros (tag & Hin & Ht). destruct (tag_single_letter tag) as [n|] eqn:Hn; [|done].
    destruct (tag_content tag) as [v|] eqn:Hv; [|done].
    apply andb_true_iff in Ht as [->%bool_decide_eq_true ?%bool_decide_eq_true]. eauto 10.
  - intros (tag & v & Hin & Hn & Hv & ?). exists tag. split; [done|]. rewrite Hn, Hv.
    apply andb_true_iff. by rewrite !bool_decide_eq_true.
Qed.

Lemma nip01_match_law : Nip01Matching nip01_match.
Proof.
  exists (λ _ _, True). intros f e. unfold nip01_match, filter_admits.
  rewrite !andb_true_iff, !axis_matches_spec, forallb_elem.
  assert (Hs : match fl_since f with None => true | Some since => bool_decide (since ≤ ev_created_at e)%N end
    = true ↔ ∀ since, fl_since f = Some since → (since ≤ ev_created_at e)%N).
  { destruct (fl_since f); [rewrite bool_decide_eq_true|]; naive_solver. }
  assert (Hu : match fl_until f with None => true | Some until => bool_decide (ev_created_at e ≤ until)%N end
    = true ↔ ∀ until, fl_until f = Some until → (ev_created_at e ≤ until)%N).
  { destruct (fl_until f); [rewrite bool_decide_eq_true|]; naive_solver. }
  assert (Ht : (∀ x, x ∈ entries (fl_generic_tags f) → (let '(name, values) := x in carries_tag name values e) = true)
    ↔ ∀ name values, fl_generic_tags f !! name = Some values → tag_admits name values e).
  { split.
    - intros Hall name values Hl. apply carries_tag_spec. apply (Hall (name, values)). by apply elem_of_entries.
    - intros Hall [name values] Hin%elem_of_entries. by apply carries_tag_spec, Hall. }
  rewrite Hs, Hu, Ht. tauto.
Qed.
End matcher.

(** ** An injective encoder *)

Definition filter_fields (f : Filter) : list positive :=
  [encode (fl_ids f); encode (fl_authors f); encode (fl_kinds f); encode (fl_search f);
   encode (fl_since f); encode (fl_until f); encode (fl_limit f); encode (fl_generic_tags f)].

Definition filter_of_fields (fields : list positive) : option Filter :=
  match fields with
  | [ids; authors; kinds; search; since; until; limit; tags] =>
      ids ← decode ids; authors ← decode authors; kinds ← decode kinds; search ← decode search;
      since ← decode since; until ← decode until; limit ← decode limit; tags ← decode tags;
      Some (mkFilter ids authors kinds search since until limit tags)
  | _ => None
  end.

#[global] Instance Filter_countable : Countable Filter.
Proof.
  refine (inj_countable filter_fields filter_of_fields _). intros []. unfold filter_fields, filter_of_fields.
  rewrite decode_encode. simpl. repeat (rewrite decode_encode; simpl). reflexivity.
Defined.

Definition code {A} `{Countable A} (x : A) : N := N.pos (encode x).

Lemma code_inj {A} `{Countable A} (x y : A) : code x = code y → x = y.
Proof. intros [= Heq]. by apply (inj encode). Qed.

Module Samples.
#[global] Instance sample_codec : FilterCodec := {|
  filter_json := λ f, Some (pretty (code f));
  filter_debug := λ _, "filter";
  req_frame_len := λ filters, Ok (N.of_nat (40 + 10 * sum_list ((λ f : Filter,
    from_option size 0 (fl_authors f) + from_option size 0 (fl_kinds f)) <$> filters)));
  filters_order := inj_key_order code code_inj
|}.

Lemma sample_text : FaithfulText.
Proof. intros f g Heq. apply code_inj. by apply (inj pretty). Qed.

Definition filter_of (authors kinds : gset N) (limit : option nat) : Filter :=
  mkFilter None (Some authors) (Some kinds) None None None limit ∅.
Definition demand_of (owner : N) (f : Filter) : RelayDemand :=
  mkDemand owner 0 f (mkBounds None None None).

Definition alice : RelayDemand := demand_of 1 (filter_of {[ 7%N ]} {[ 1%N ]} None).
Definition bob : RelayDemand := demand_of 2 (filter_of {[ 8%N ]} {[ 1%N ]} None).
Definition carol : RelayDemand := demand_of 3 (filter_of {[ 9%N ]} {[ 2%N ]} None).
Definition revision : PlanRevision := mkPlanRevision 1 1.
Definition bounded : RelayReadConstraints :=
  mkConstraints (Declared 2) (Declared 60) Unknown (Declared 100) Unknown.

(** Alice and Bob share one request; Carol attaches to what already runs. *)
Definition running : InstalledSubscriptions :=
  {[ "fava-1" := mkInstalled [filter_of {[ 9%N; 10%N ]} {[ 2%N ]} None] {[ mkDemandId 9 0 ]} ]}.

Definition shared_plan : SubscriptionPlan :=
  mkSubscriptionPlan "wss://a" revision
    [mkPlannedSub [filter_of {[ 7%N; 8%N ]} {[ 1%N ]} None] {[ mkDemandId 1 0; mkDemandId 2 0 ]} Proven]
    ["fava-1"] []
    {[ "fava-1" := mkAttributed [filter_of {[ 9%N; 10%N ]} {[ 2%N ]} None] {[ mkDemandId 3 0 ]} Proven ]} [].

Example standard_plan_example :
  standard_plan "wss://a" [carol; bob; alice] unknown running revision = Some (Ok shared_plan).
Proof. vm_compute. reflexivity. Qed.

Definition event : Event := mkEvent 1 9 1000 2 [] "text" 0.

Lemma filter_covers_sound_witness :
  filter_covers (filter_of {[ 9%N; 10%N ]} {[ 2%N ]} None) (rd_filter carol) = true ∧
  nip01_match (filter_of {[ 9%N; 10%N ]} {[ 2%N ]} None) event = true.
Proof.
  assert (Hc : filter_covers (filter_of {[ 9%N; 10%N ]} {[ 2%N ]} None) (rd_filter carol) = true)
    by (vm_compute; reflexivity).
  split; [exact Hc|]. apply (filter_covers_sound nip01_match _ (rd_filter carol) event nip01_match_law Hc).
  vm_compute. reflexivity.
Defined.

Lemma group_exact_witness : members_of (group [alice; bob; carol] unknown) ≡ₚ [alice; bob; carol].
Proof. exact (proj1 (group_exact nip01_match [alice; bob; carol] unknown nip01_match_law sample_text)). Defined.

Lemma nothing_over : limits_respected [alice; bob; carol] bounded running.
Proof. intros m id entry Hm Hov. elem_cases Hm; vm_compute in Hov; discriminate Hov. Qed.

Lemma standard_plan_conforms_witness :
  ∃ plan, standard_plan "wss://a" [alice; bob; carol] bounded running revision = Some (Ok plan) ∧
    validate_plan "wss://a" [alice; bob; carol] bounded running plan = Ok tt.
Proof.
  destruct (standard_plan_conforms "wss://a" [alice; bob; carol] bounded running revision
              sample_text nothing_over) as ([plan|error] & Hrun & Hok).
  - exists plan. split; [exact Hrun|exact Hok].
  - exfalso. vm_compute in Hrun. discriminate Hrun.
Defined.

Lemma standard_plan_serves_witness :
  ∃ f, nip01_match f event = true ∧ f ∈ is_filters (mkInstalled [filter_of {[ 9%N; 10%N ]} {[ 2%N ]} None] ∅).
Proof.
  destruct (standard_plan_serves nip01_match "wss://a" [carol; bob; alice] unknown running revision shared_plan
              nip01_match_law sample_text standard_plan_example) as [_ Hatt].
  destruct (Hatt "fava-1" (mkAttributed [filter_of {[ 9%N; 10%N ]} {[ 2%N ]} None] {[ mkDemandId 3 0 ]} Proven) carol)
    as (entry & Hentry & _ & [Hserved|(f & Hf & Hmatch)]).
  - vm_compute. reflexivity.
  - left.
  - vm_compute. reflexivity.
  - exfalso. vm_compute in Hentry. injection Hentry as <-. vm_compute in Hserved. discriminate Hserved.
  - exists f. split; [apply Hmatch; vm_compute; reflexivity|exact Hf].
Defined.

Lemma one_per_demand_conforms_witness :
  ∃ plan, one_per_demand_plan "wss://a" [alice; bob; carol] bounded running revision = Some (Ok plan) ∧
    validate_plan "wss://a" [alice; bob; carol] bounded running plan = Ok tt.
Proof.
  pose proof (one_per_demand_conforms "wss://a" [alice; bob; carol] bounded running revision nothing_over) as H.
  destruct (one_per_demand_plan "wss://a" [alice; bob; carol] bounded running revision) as [[plan|error]|] eqn:Hrun.
  - exists plan. split; [reflexivity|exact (proj1 H)].
  - exfalso. vm_compute in Hrun. discriminate Hrun.
  - destruct H.
Defined.

Definition plan_of (r : option (result SubscriptionPlanError SubscriptionPlan)) : SubscriptionPlan :=
  match r with Some (Ok plan) => plan | _ => shared_plan end.

Lemma planners_ask_alike_witness :
  asks_for nip01_match (plan_of (standard_plan "wss://a" [alice; bob; carol] unknown ∅ revision)) event ∧
  asks_for nip01_match (plan_of (one_per_demand_plan "wss://a" [alice; bob; carol] unknown ∅ revision)) event.
Proof.
  destruct (planners_ask_alike nip01_match "wss://a" [alice; bob; carol] unknown revision
    (plan_of (standard_plan "wss://a" [alice; bob; carol] unknown ∅ revision))
    (plan_of (one_per_demand_plan "wss://a" [alice; bob; carol] unknown ∅ revision)) event
    nip01_match_law sample_text) as [Heq Hwant].
  - vm_compute. reflexivity.
  - vm_compute. reflexivity.
  - vm_compute. reflexivity.
  - vm_compute. reflexivity.
  - assert (Hg : asks_for nip01_match (plan_of (standard_plan "wss://a" [alice; bob; carol] unknown ∅ revision)) event).
    { apply Hwant. exists carol. split; [right; right; left|vm_compute; reflexivity]. }
    split; [exact Hg|]. apply Heq. exact Hg.
Defined.

(** A timeline of 500 notes runs when the relay announces a limit of 100. *)
Definition timeline : RelayDemand := demand_of 4 (filter_of {[ 7%N ]} {[ 1%N ]} (Some 500)).

Lemma lowered_limit_withdraws_running_witness :
  validate_plan "wss://a" [timeline] bounded
    {[ "fava-2" := mkInstalled [rd_filter timeline] {[ demand_id timeline ]} ]}
    (withdrawing "wss://a" revision "fava-2" timeline (FilterLimitExceeded 500 100)) =
  Err (RunningSubscriptionWithdrawn "fava-2" (mkDemandId 4 0)).
Proof.
  apply (lowered_limit_withdraws_running "wss://a" bounded revision "fava-2" [rd_filter timeline] timeline 500 100).
  - reflexivity.
  - reflexivity.
  - apply Nat.leb_le. vm_compute. reflexivity.
Defined.
End Samples.
