(* ===== verification/Diagnostics.v ===== *)
(** * Bounded diagnostic facts ([crates/fava-diagnostics])

    The five categories of current facts the owners publish, each a bounded
    queue with one fact per identity and a count of what the bound discarded
    ([lib.rs]); the facts themselves are records of [limits.rs],
    [providers.rs], [queries.rs], [relays.rs] and [writes.rs].  The mutex makes
    each call one step. *)

From S2P Require Import Prelude Nostr Relay State Write Query.

Abbreviation ObservationId := N (only parsing).

(** ** The facts *)

#[global] Instance RelayWithdrawal_eq_dec : EqDecision RelayWithdrawal.
Proof. solve_decision. Defined.
#[global] Instance Progress_same : EqDecision Progress.
Proof. solve_decision. Defined.
#[global] Instance RelayDeadline_eq_dec : EqDecision RelayDeadline.
Proof. solve_decision. Defined.
#[global] Instance RelaySourceState_eq_dec : EqDecision RelaySourceState.
Proof. solve_decision. Defined.

Inductive BoundKind :=
| RelaySessions | WireSubscriptions | OutboundFrameBytes | InboundFrameBytes | OutboundQueue | InboundQueue
| RouteFanOut | EventCacheCapacity | WriteStoreActiveWork | ObservationDelivery | DiagnosticsRetention
| ProviderOperations.

Record ProviderOperation := mkOperation {
  po_instance : BoundedText;
  po_generation : Round
}.

Inductive LimitScope :=
| ScopeEngine
| ScopeRelay (session : RelayUrl)
| ScopeObservation (observation : ObservationId)
| ScopeProvider (operation : ProviderOperation).

Record LimitDiagnostic := mkLimitFact {
  lf_bound : BoundKind;
  lf_limit : N;
  lf_required : N;
  lf_scope : LimitScope
}.

Inductive ProviderKind :=
| KindEventCache | KindWriteStore | KindFetchCache | KindQueryEvaluator | KindRouter | KindSubscriptionPlanner
| KindTransport | KindPublisher | KindDeliveryPolicy | KindSigner | KindService.

Inductive ProviderOperationState :=
| OperationRunning (deadline elapsed : N)
| OperationCompleted
| OperationTimedOut (after : N)
| OperationFailed (detail : BoundedText)
| OperationPanicked (detail : BoundedText)
| OperationCancelled.

Record ProviderDiagnostic := mkProviderFact {
  pf_provider : ProviderKind;
  pf_operation : ProviderOperation;
  pf_state : ProviderOperationState
}.

Record LogicalDemandDiagnostic := mkDemandFact {
  df_session : RelayUrl;
  df_branch : N;
  df_state : RelaySourceState
}.

Record ObservationWireBinding := mkWireBinding {
  wb_session : RelayUrl;
  wb_subscription : string;
  wb_shared_holders : nat
}.

Record QueryDiagnostic := mkQueryFact {
  qf_observation : ObservationId;
  qf_route_revision : option N;
  qf_route_relays : list RelayUrl;
  qf_demand : list LogicalDemandDiagnostic;
  qf_plan_revision : option N;
  qf_wire : list ObservationWireBinding;
  qf_shortfalls : list BoundedText;
  qf_pending_operation : option ProviderOperation;
  qf_coalesced_updates : N
}.

Inductive RelaySessionState :=
| SessionConnecting
| SessionOpen
| SessionReconnecting (detail : BoundedText)
| SessionUnreachable (detail : BoundedText)
| SessionStateClosed.

Record WireSubscriptionDiagnostic := mkWireFact {
  wf_id : string;
  wf_serves : list ObservationId;
  wf_stored_events_complete : bool;
  wf_closed : option BoundedText
}.

Record RelayDiagnostic := mkRelayFact {
  rf_session : RelayUrl;
  rf_generation : option Round;
  rf_state : RelaySessionState;
  rf_holders : nat;
  rf_subscriptions : list WireSubscriptionDiagnostic;
  rf_reconnect_attempts : N;
  rf_authentication : Authentication
}.

Inductive WriteStall :=
| StallUnrouted | StallUnsignable | StallAwaitingDelivery
| StallRetrying (attempts : nat)
| StallUndeliverable (detail : BoundedText).

Record WriteDiagnostic := mkWriteFact {
  wd_receipt : BoundedText;
  wd_classification : WriteStall;
  wd_stuck_for : N
}.

#[global] Instance BoundKind_eq_dec : EqDecision BoundKind.
Proof. solve_decision. Defined.
#[global] Instance ProviderOperation_eq_dec : EqDecision ProviderOperation.
Proof. solve_decision. Defined.
#[global] Instance LimitScope_eq_dec : EqDecision LimitScope.
Proof. solve_decision. Defined.
#[global] Instance ProviderKind_eq_dec : EqDecision ProviderKind.
Proof. solve_decision. Defined.

(** ** One category *)

Record Category (T : Type) := mkCategory {
  ca_facts : list T;
  ca_dropped : N
}.
Arguments mkCategory {T}.
Arguments ca_facts {T}.
Arguments ca_dropped {T}.

Definition Category_empty {T} : Category T := mkCategory [] 0.

(** [iter().position(same)]. *)
Fixpoint position {T} (same : T → bool) (l : list T) : option nat :=
  match l with
  | [] => None
  | x :: l => if same x then Some 0 else S <$> position same l
  end.

Definition category_publish {T} (capacity : nat) (fact : T) (same : T → bool) (c : Category T) : Category T :=
  match position same (ca_facts c) with
  | Some index => mkCategory (<[index := fact]> (ca_facts c)) (ca_dropped c)
  | None =>
      if bool_decide (capacity ≤ length (ca_facts c))
      then mkCategory (tail (ca_facts c) ++ [fact]) (saturating_add (ca_dropped c) 1)
      else mkCategory (ca_facts c ++ [fact]) (ca_dropped c)
  end.

Definition category_forget {T} (same : T → bool) (c : Category T) : Category T :=
  mkCategory (List.filter (λ fact, negb (same fact)) (ca_facts c)) (ca_dropped c).

(** ** The owner *)

Record Diagnostics := mkDiagnostics {
  dg_capacity : nat;
  dg_relays : Category RelayDiagnostic;
  dg_queries : Category QueryDiagnostic;
  dg_writes : Category WriteDiagnostic;
  dg_providers : Category ProviderDiagnostic;
  dg_limits : Category LimitDiagnostic
}.

Definition diagnostics_bounded (capacity : nat) : Diagnostics :=
  mkDiagnostics capacity Category_empty Category_empty Category_empty Category_empty Category_empty.

Definition diagnostics_default : Diagnostics := diagnostics_bounded 256.

Definition relay_key (f : RelayDiagnostic) : RelayUrl * option Round := (rf_session f, rf_generation f).
Definition query_key (f : QueryDiagnostic) : ObservationId := qf_observation f.
Definition write_key (f : WriteDiagnostic) : BoundedText := wd_receipt f.
Definition provider_key (f : ProviderDiagnostic) : ProviderKind * BoundedText :=
  (pf_provider f, po_instance (pf_operation f)).
Definition limit_key (f : LimitDiagnostic) : BoundKind * LimitScope := (lf_bound f, lf_scope f).

(** [|current| key(current) == key]. *)
Definition keyed_as {T K} `{EqDecision K} (key : T → K) (k : K) (current : T) : bool :=
  bool_decide (key current = k).

Definition dg_set_relays v d := mkDiagnostics (dg_capacity d) v (dg_queries d) (dg_writes d) (dg_providers d) (dg_limits d).
Definition dg_set_queries v d := mkDiagnostics (dg_capacity d) (dg_relays d) v (dg_writes d) (dg_providers d) (dg_limits d).
Definition dg_set_writes v d := mkDiagnostics (dg_capacity d) (dg_relays d) (dg_queries d) v (dg_providers d) (dg_limits d).
Definition dg_set_providers v d := mkDiagnostics (dg_capacity d) (dg_relays d) (dg_queries d) (dg_writes d) v (dg_limits d).
Definition dg_set_limits v d := mkDiagnostics (dg_capacity d) (dg_relays d) (dg_queries d) (dg_writes d) (dg_providers d) v.

Definition diagnostics_relay (fact : RelayDiagnostic) (d : Diagnostics) : Diagnostics :=
  dg_set_relays (category_publish (dg_capacity d) fact (keyed_as relay_key (relay_key fact)) (dg_relays d)) d.
Definition forget_relay (session : RelayUrl) (d : Diagnostics) : Diagnostics :=
  dg_set_relays (category_forget (keyed_as rf_session session) (dg_relays d)) d.

Definition diagnostics_query (fact : QueryDiagnostic) (d : Diagnostics) : Diagnostics :=
  dg_set_queries (category_publish (dg_capacity d) fact (keyed_as query_key (query_key fact)) (dg_queries d)) d.
Definition forget_query (observation : ObservationId) (d : Diagnostics) : Diagnostics :=
  dg_set_queries (category_forget (keyed_as query_key observation) (dg_queries d)) d.

Definition diagnostics_write (fact : WriteDiagnostic) (d : Diagnostics) : Diagnostics :=
  dg_set_writes (category_publish (dg_capacity d) fact (keyed_as write_key (write_key fact)) (dg_writes d)) d.
Definition forget_write (receipt : BoundedText) (d : Diagnostics) : Diagnostics :=
  dg_set_writes (category_forget (keyed_as write_key receipt) (dg_writes d)) d.

Definition diagnostics_provider (fact : ProviderDiagnostic) (d : Diagnostics) : Diagnostics :=
  dg_set_providers
    (category_publish (dg_capacity d) fact (keyed_as provider_key (provider_key fact)) (dg_providers d)) d.
Definition forget_provider (provider : ProviderKind) (instance : BoundedText) (d : Diagnostics) : Diagnostics :=
  dg_set_providers (category_forget (keyed_as provider_key (provider, instance)) (dg_providers d)) d.

Definition diagnostics_limit (fact : LimitDiagnostic) (d : Diagnostics) : Diagnostics :=
  dg_set_limits (category_publish (dg_capacity d) fact (keyed_as limit_key (limit_key fact)) (dg_limits d)) d.
Definition forget_limit (bound : BoundKind) (scope : LimitScope) (d : Diagnostics) : Diagnostics :=
  dg_set_limits (category_forget (keyed_as limit_key (bound, scope)) (dg_limits d)) d.

(** [DroppedFacts] and [snapshot]. *)
Record DroppedFacts := mkDropped {
  dr_relays : N; dr_queries : N; dr_writes : N; dr_providers : N; dr_limits : N
}.

Record DiagnosticsSnapshot := mkDiagnosticsSnapshot {
  dn_relays : list RelayDiagnostic;
  dn_queries : list QueryDiagnostic;
  dn_writes : list WriteDiagnostic;
  dn_providers : list ProviderDiagnostic;
  dn_limits : list LimitDiagnostic;
  dn_dropped_facts : DroppedFacts
}.

Definition diagnostics_snapshot (d : Diagnostics) : DiagnosticsSnapshot :=
  mkDiagnosticsSnapshot (ca_facts (dg_relays d)) (ca_facts (dg_queries d)) (ca_facts (dg_writes d))
    (ca_facts (dg_providers d)) (ca_facts (dg_limits d))
    (mkDropped (ca_dropped (dg_relays d)) (ca_dropped (dg_queries d)) (ca_dropped (dg_writes d))
       (ca_dropped (dg_providers d)) (ca_dropped (dg_limits d))).

(** ** Runs: the calls owners make, in the order the lock serialises them *)

Inductive FactCall :=
| PublishRelay (fact : RelayDiagnostic)
| ForgetRelay (session : RelayUrl)
| PublishQuery (fact : QueryDiagnostic)
| ForgetQuery (observation : ObservationId)
| PublishWrite (fact : WriteDiagnostic)
| ForgetWrite (receipt : BoundedText)
| PublishProvider (fact : ProviderDiagnostic)
| ForgetProvider (provider : ProviderKind) (instance : BoundedText)
| PublishLimit (fact : LimitDiagnostic)
| ForgetLimit (bound : BoundKind) (scope : LimitScope).

Definition fact_call (c : FactCall) (d : Diagnostics) : Diagnostics :=
  match c with
  | PublishRelay fact => diagnostics_relay fact d
  | ForgetRelay session => forget_relay session d
  | PublishQuery fact => diagnostics_query fact d
  | ForgetQuery observation => forget_query observation d
  | PublishWrite fact => diagnostics_write fact d
  | ForgetWrite receipt => forget_write receipt d
  | PublishProvider fact => diagnostics_provider fact d
  | ForgetProvider provider instance => forget_provider provider instance d
  | PublishLimit fact => diagnostics_limit fact d
  | ForgetLimit bound scope => forget_limit bound scope d
  end.

Definition facts_run (calls : list FactCall) (d : Diagnostics) : Diagnostics :=
  fold_left (λ d c, fact_call c d) calls d.

(** ** One category in every run *)

Section category.
Context {T K : Type} `{EqDecision K} (key : T → K).
Implicit Types c : Category T.

(** Within capacity, with one fact per identity. *)
Definition category_ok (capacity : nat) c : Prop :=
  length (ca_facts c) ≤ capacity ∧ NoDup (key <$> ca_facts c).

Lemma position_Some k (l : list T) i :
  position (keyed_as key k) l = Some i → ∃ x, l !! i = Some x ∧ key x = k.
Proof.
  revert i. induction l as [|x l IH]; intros i; [done|]. cbn. unfold keyed_as at 1.
  case_bool_decide as Hk; [intros [= <-]; eauto|].
  intros (i' & Hi & ->)%fmap_Some. by apply IH.
Qed.

Lemma position_None k (l : list T) : position (keyed_as key k) l = None ↔ k ∉ key <$> l.
Proof.
  induction l as [|x l IH]; cbn; [split; [intros _; apply not_elem_of_nil|done]|].
  unfold keyed_as at 1. rewrite not_elem_of_cons. case_bool_decide as Hk.
  - split; [done|]. intros [? _]. congruence.
  - rewrite fmap_None, IH. naive_solver.
Qed.

Lemma fmap_insert_same k (l : list T) i fact :
  position (keyed_as key k) l = Some i → key fact = k → key <$> <[i := fact]> l = key <$> l.
Proof.
  intros (x & Hx & Hk)%position_Some Hf. rewrite list_fmap_insert. apply list_insert_id.
  rewrite list_lookup_fmap, Hx. cbn. congruence.
Qed.

Lemma publish_category_ok capacity c fact :
  0 < capacity → category_ok capacity c →
  category_ok capacity (category_publish capacity fact (keyed_as key (key fact)) c).
Proof.
  intros Hcap [Hlen Hnd]. unfold category_publish.
  destruct (position _ (ca_facts c)) as [i|] eqn:Hp.
  { split; cbn; [by rewrite length_insert|]. by erewrite fmap_insert_same. }
  apply position_None in Hp. case_bool_decide as Hfull; split; cbn.
  - rewrite length_app. destruct (ca_facts c); cbn in *; lia.
  - destruct (ca_facts c) as [|x l]; cbn in *; [apply NoDup_singleton|].
    apply NoDup_cons in Hnd as [_ Hnd]. apply not_elem_of_cons in Hp as [_ Hp].
    rewrite fmap_app. by apply NoDup_snoc.
  - rewrite length_app. cbn. lia.
  - rewrite fmap_app. by apply NoDup_snoc.
Qed.

Lemma forget_category_ok capacity c same :
  category_ok capacity c → category_ok capacity (category_forget same c).
Proof.
  intros [Hlen Hnd]. unfold category_forget. split; cbn.
  - etrans; [apply List.filter_length_le|exact Hlen].
  - clear Hlen. induction (ca_facts c) as [|x l IH]; cbn; [constructor|].
    apply NoDup_cons in Hnd as [Hx Hnd]. case_match; cbn; [|auto].
    apply NoDup_cons. split; [|auto]. intros (y & Hy & Hin%list_elem_of_In)%list_elem_of_fmap.
    apply filter_In in Hin as [Hin%list_elem_of_In _]. apply Hx. rewrite Hy. by apply list_elem_of_fmap_2.
Qed.

(** A published fact is retained under its identity. *)
Lemma published_retained capacity c fact :
  fact ∈ ca_facts (category_publish capacity fact (keyed_as key (key fact)) c).
Proof.
  unfold category_publish. destruct (position _ (ca_facts c)) as [i|] eqn:Hp; cbn.
  - apply position_Some in Hp as (x & Hx & _). apply list_elem_of_lookup. exists i.
    apply list_lookup_insert_eq. by eapply lookup_lt_Some.
  - case_bool_decide; cbn; set_solver.
Qed.

(** A later publication keeps it, replaces it under the same identity, or
    counts the loss. *)
Lemma publish_keeps capacity c fact fact' :
  fact ∈ ca_facts c → key fact ≠ key fact' →
  fact ∈ ca_facts (category_publish capacity fact' (keyed_as key (key fact')) c) ∨
  ca_dropped (category_publish capacity fact' (keyed_as key (key fact')) c) = saturating_add (ca_dropped c) 1.
Proof.
  intros Hin Hne. unfold category_publish. destruct (position _ (ca_facts c)) as [i|] eqn:Hp; cbn.
  - left. apply position_Some in Hp as (x & Hx & Hk). apply list_elem_of_lookup in Hin as [j Hj].
    apply list_elem_of_lookup. exists j. rewrite list_lookup_insert_ne; [done|]. congruence.
  - case_bool_decide; cbn; [|set_solver]. by right.
Qed.

Lemma publish_dropped capacity c fact same :
  (ca_dropped c ≤ u64_max)%N →
  (ca_dropped c ≤ ca_dropped (category_publish capacity fact same c) ≤ u64_max)%N.
Proof.
  intros Hd. unfold category_publish. destruct (position same (ca_facts c)); cbn [ca_dropped]; [lia|].
  case_bool_decide; cbn [ca_dropped]; [unfold saturating_add|]; lia.
Qed.

Lemma forget_keeps c fact same : fact ∈ ca_facts c → same fact = false → fact ∈ ca_facts (category_forget same c).
Proof.
  intros Hin Hs. cbn. apply list_elem_of_In, filter_In. split; [by apply list_elem_of_In|]. by rewrite Hs.
Qed.
End category.

(** ** Every run *)

Record diagnostics_ok (d : Diagnostics) : Prop := {
  dgo_relays : category_ok relay_key (dg_capacity d) (dg_relays d);
  dgo_queries : category_ok query_key (dg_capacity d) (dg_queries d);
  dgo_writes : category_ok write_key (dg_capacity d) (dg_writes d);
  dgo_providers : category_ok provider_key (dg_capacity d) (dg_providers d);
  dgo_limits : category_ok limit_key (dg_capacity d) (dg_limits d)
}.

Lemma fact_call_capacity c d : dg_capacity (fact_call c d) = dg_capacity d.
Proof. by destruct c. Qed.

Lemma fact_call_ok c d : 0 < dg_capacity d → diagnostics_ok d → diagnostics_ok (fact_call c d).
Proof.
  intros Hcap [Hr Hq Hw Hp Hl].
  destruct c; constructor; cbn; try done; (by apply publish_category_ok) || (by apply forget_category_ok).
Qed.

Lemma facts_run_ok calls d :
  0 < dg_capacity d → diagnostics_ok d →
  diagnostics_ok (facts_run calls d) ∧ dg_capacity (facts_run calls d) = dg_capacity d.
Proof.
  revert d. induction calls as [|c calls IH]; intros d Hcap Hd; [done|].
  change (facts_run (c :: calls) d) with (facts_run calls (fact_call c d)).
  destruct (IH (fact_call c d)) as [Hok Hsame]; [by rewrite fact_call_capacity|by apply fact_call_ok|].
  split; [done|]. by rewrite Hsame, fact_call_capacity.
Qed.

Lemma bounded_ok capacity : diagnostics_ok (diagnostics_bounded capacity).
Proof. split; split; cbn; try lia; constructor. Qed.

(** Calls that publish nothing under a relay record's identity and do not
    forget its relay. *)
Definition leaves_relay (fact : RelayDiagnostic) (c : FactCall) : bool :=
  match c with
  | PublishRelay other => negb (bool_decide (relay_key other = relay_key fact))
  | ForgetRelay session => negb (bool_decide (rf_session fact = session))
  | _ => true
  end.

Lemma fact_call_dropped c d :
  (ca_dropped (dg_relays d) ≤ u64_max)%N →
  (ca_dropped (dg_relays d) ≤ ca_dropped (dg_relays (fact_call c d)) ≤ u64_max)%N.
Proof. intros Hd. destruct c; cbn; try lia. by apply publish_dropped. Qed.

Lemma facts_run_dropped calls d :
  (ca_dropped (dg_relays d) ≤ u64_max)%N →
  (ca_dropped (dg_relays d) ≤ ca_dropped (dg_relays (facts_run calls d)) ≤ u64_max)%N.
Proof.
  revert d. induction calls as [|c calls IH]; intros d Hd; [cbn; lia|].
  change (facts_run (c :: calls) d) with (facts_run calls (fact_call c d)).
  pose proof (fact_call_dropped c d Hd). specialize (IH (fact_call c d)). lia.
Qed.

Lemma relay_call_kept fact c d :
  fact ∈ ca_facts (dg_relays d) → leaves_relay fact c = true →
  fact ∈ ca_facts (dg_relays (fact_call c d)) ∨
  ca_dropped (dg_relays (fact_call c d)) = saturating_add (ca_dropped (dg_relays d)) 1.
Proof.
  intros Hin Hc. destruct c; try (by left).
  - apply negb_true_iff, bool_decide_eq_false in Hc. by apply publish_keeps.
  - left. apply forget_keeps; [done|]. cbn in Hc. unfold keyed_as. by apply negb_true_iff.
Qed.

Lemma relay_kept_or_counted fact calls d :
  fact ∈ ca_facts (dg_relays d) → (ca_dropped (dg_relays d) < u64_max)%N →
  forallb (leaves_relay fact) calls = true →
  fact ∈ ca_facts (dg_relays (facts_run calls d)) ∨
  (ca_dropped (dg_relays d) < ca_dropped (dg_relays (facts_run calls d)))%N.
Proof.
  revert d. induction calls as [|c calls IH]; intros d Hin Hd; [by left|].
  change (facts_run (c :: calls) d) with (facts_run calls (fact_call c d)).
  cbn [forallb]. intros [Hc Hcalls]%andb_true_iff.
  destruct (relay_call_kept fact c d Hin Hc) as [Hkept|Hlost].
  - pose proof (fact_call_dropped c d ltac:(lia)) as Hm.
    destruct (decide (ca_dropped (dg_relays (fact_call c d)) < u64_max)%N) as [Hlt|Hge].
    + destruct (IH _ Hkept Hlt Hcalls) as [?|?]; [by left|]. right. lia.
    + right. pose proof (facts_run_dropped calls (fact_call c d) ltac:(lia)) as Hr. lia.
  - right. pose proof (facts_run_dropped calls (fact_call c d)) as Hr.
    rewrite Hlost in Hr. unfold saturating_add in Hr. lia.
Qed.

(** C14. In every run of publications and removals each category of the
    diagnostics stays within the capacity and holds one fact per identity, and a
    relay fact once published is still in the snapshot until its identity is
    published again or its relay is forgotten, unless the count of dropped
    relay facts says one was lost. *)
Theorem diagnostics_bounded_and_honest capacity before fact after :
  0 < capacity →
  (ca_dropped (dg_relays (facts_run before (diagnostics_bounded capacity))) < u64_max)%N →
  forallb (leaves_relay fact) after = true →
  let published := facts_run (before ++ [PublishRelay fact]) (diagnostics_bounded capacity) in
  let d := facts_run (before ++ PublishRelay fact :: after) (diagnostics_bounded capacity) in
  diagnostics_ok d ∧ dg_capacity d = capacity ∧
  (fact ∈ dn_relays (diagnostics_snapshot d) ∨
   (dr_relays (dn_dropped_facts (diagnostics_snapshot published)) <
    dr_relays (dn_dropped_facts (diagnostics_snapshot d)))%N ∨
   dr_relays (dn_dropped_facts (diagnostics_snapshot d)) = u64_max).
Proof.
  intros Hcap Hroom Hafter published d.
  destruct (facts_run_ok (before ++ PublishRelay fact :: after) (diagnostics_bounded capacity)) as [Hok Hsame];
    [done|apply bounded_ok|].
  split; [done|]. split; [done|].
  assert (d = facts_run after published) as Hd.
  { unfold d, published, facts_run. by rewrite !fold_left_app. }
  assert (fact ∈ ca_facts (dg_relays published)) as Hin.
  { unfold published, facts_run. rewrite fold_left_app. apply published_retained. }
  assert (ca_dropped (dg_relays published) ≤ u64_max)%N as Hmax.
  { eapply (facts_run_dropped _ (diagnostics_bounded capacity)). cbn. lia. }
  cbn. rewrite Hd. destruct (decide (ca_dropped (dg_relays published) < u64_max)%N) as [Hlt|Hge].
  - destruct (relay_kept_or_counted fact after published Hin Hlt Hafter); auto.
  - right. right. pose proof (facts_run_dropped after published Hmax). lia.
Qed.

Module DiagnosticsWitness.
Definition quiet_fact (session : RelayUrl) (n : N) : RelayDiagnostic :=
  mkRelayFact session (Some (mkRound 1 n)) SessionOpen 1 [] 0 unoffered.

(** The theorem at a capacity of two, with a third relay evicting the first. *)
Lemma diagnostics_bounded_and_honest_witness :
  let d := facts_run [PublishRelay (quiet_fact "a" 1); PublishRelay (quiet_fact "b" 2);
                      PublishRelay (quiet_fact "c" 3)] (diagnostics_bounded 2) in
  diagnostics_ok d ∧ dg_capacity d = 2 ∧
  (quiet_fact "b" 2 ∈ dn_relays (diagnostics_snapshot d) ∨
   (0 < dr_relays (dn_dropped_facts (diagnostics_snapshot d)))%N ∨
   dr_relays (dn_dropped_facts (diagnostics_snapshot d)) = u64_max).
Proof.
  destruct (diagnostics_bounded_and_honest 2 [PublishRelay (quiet_fact "a" 1)] (quiet_fact "b" 2)
              [PublishRelay (quiet_fact "c" 3)]) as (Hok & Hcap & Hin).
  - lia.
  - by vm_compute.
  - by vm_compute.
  - split; [exact Hok|]. split; [exact Hcap|]. exact Hin.
Defined.
End DiagnosticsWitness.
