(* ===== verification/Observations.v ===== *)
(** * The observation registry ([crates/fava-observe], [registry.rs])

    Which observations exist, what demand each holds at each relay, and what is
    known about every relay serving them.  An observation is a root, which an
    application holds, or a child, one concrete generation of a root that
    follows the current account; only active observations contribute demand.

    The mutex makes each method one step.  What outlives an observation lives
    beside the table of observations: the latest value of its wake channel
    ([rg_wakes]) and whether its cancellation token fired ([rg_cancelled]); both
    are named by the observation's id, which is never reused below the maximum.
    Demand is compiled from a query by [demand_for_query]
    ([crates/fava-subscriptions]) and spread over a route plan by [demand_for]
    ([routes.rs]). *)

From S2P Require Import Prelude Nostr Relay State Write Query EventCache.
From S2P Require Import Subscriptions Diagnostics Routing.

(** ** Demand of a query *)

Definition ROOT : N := 0.

(** [NonZeroU32::new(u32::try_from(limit).unwrap_or(u32::MAX))]. *)
Definition narrow_limit (limit : nat) : option N :=
  let n := N.min (N.of_nat limit) u32_max in
  if bool_decide (n = 0)%N then None else Some n.

Definition bounds_for_query (q : Query) : QueryBounds :=
  mkBounds None None (q_limit q ≫= narrow_limit).

(** The filter builder sets exactly the axes of the selection. *)
Definition demand_for_query (owner branch : N) (q : Query) : RelayDemand :=
  let s := q_selection q in
  mkDemand owner branch
    (mkFilter (fs_ids s) (fs_authors s) (fs_kinds s) None None None (q_limit q) (fs_tag_values s))
    (bounds_for_query q).

(** ** Routes of an observation ([routes.rs]) *)

Inductive Origin := Explicit | Automatic.

Definition origin_at (o : Origin) (revision : N) : RouteOrigin :=
  match o with Explicit => OriginExplicit | Automatic => OriginAutomatic revision end.

Definition revision_of (o : Origin) (plan : RoutePlan) : option N :=
  match o with Explicit => None | Automatic => Some (rp_revision plan) end.

Definition demand_for (id branch : N) (q : Query) (plan : RoutePlan) (o : Origin)
    : gmap RelayUrl (RelayDemand * RouteOrigin) :=
  let demand := demand_for_query id branch q in
  (λ _, (demand, origin_at o (rp_revision plan))) <$> rp_destinations plan.

(** ** The state *)

Record Assigned := mkAssigned {
  as_demand : RelayDemand;
  as_evidence : RelayQueryEvidence
}.

Record LiveState := mkLive {
  lv_revision : N;
  lv_events : gmap EventId RelayEvent;
  lv_retractions : list SourceRetraction;
  lv_refused : N
}.

Definition LiveState_default : LiveState := mkLive 0 ∅ [] 0.

Definition LIVE_EVENTS_PER_SESSION : nat := 4096.

(** [Installed]; a task handle is a name the runtime gives. *)
Record Installed := mkObservation {
  ob_public : ObservationId;
  ob_active : bool;
  ob_active_child : option ObservationId;
  ob_children : gset ObservationId;
  ob_relays : gmap RelayUrl Assigned;
  ob_access : Authority;
  ob_plan : option DesiredPlanEvidence;
  ob_route_revision : option N;
  ob_coalesced : N;
  ob_live : gmap RelayUrl LiveState;
  ob_tasks : list nat
}.

Definition ob_set_active v o := mkObservation (ob_public o) v (ob_active_child o) (ob_children o) (ob_relays o)
  (ob_access o) (ob_plan o) (ob_route_revision o) (ob_coalesced o) (ob_live o) (ob_tasks o).
Definition ob_set_family child children o := mkObservation (ob_public o) (ob_active o) child children (ob_relays o)
  (ob_access o) (ob_plan o) (ob_route_revision o) (ob_coalesced o) (ob_live o) (ob_tasks o).
Definition ob_set_relays v o := mkObservation (ob_public o) (ob_active o) (ob_active_child o) (ob_children o) v
  (ob_access o) (ob_plan o) (ob_route_revision o) (ob_coalesced o) (ob_live o) (ob_tasks o).
Definition ob_set_route access revision o := mkObservation (ob_public o) (ob_active o) (ob_active_child o)
  (ob_children o) (ob_relays o) access (ob_plan o) revision (ob_coalesced o) (ob_live o) (ob_tasks o).
Definition ob_set_plan v o := mkObservation (ob_public o) (ob_active o) (ob_active_child o) (ob_children o)
  (ob_relays o) (ob_access o) v (ob_route_revision o) (ob_coalesced o) (ob_live o) (ob_tasks o).
Definition ob_set_coalesced v o := mkObservation (ob_public o) (ob_active o) (ob_active_child o) (ob_children o)
  (ob_relays o) (ob_access o) (ob_plan o) (ob_route_revision o) v (ob_live o) (ob_tasks o).
Definition ob_set_live v o := mkObservation (ob_public o) (ob_active o) (ob_active_child o) (ob_children o)
  (ob_relays o) (ob_access o) (ob_plan o) (ob_route_revision o) (ob_coalesced o) v (ob_tasks o).
Definition ob_set_tasks v o := mkObservation (ob_public o) (ob_active o) (ob_active_child o) (ob_children o)
  (ob_relays o) (ob_access o) (ob_plan o) (ob_route_revision o) (ob_coalesced o) (ob_live o) v.

Record Registry := mkRegistry {
  rg_next : N;
  rg_revision : N;
  rg_observations : gmap ObservationId Installed;
  rg_demand_changed : N;
  rg_wakes : gmap ObservationId N;
  rg_cancelled : gset ObservationId
}.

Definition Registry_default : Registry := mkRegistry 0 0 ∅ 0 ∅ ∅.

Definition rg_set_observations v r :=
  mkRegistry (rg_next r) (rg_revision r) v (rg_demand_changed r) (rg_wakes r) (rg_cancelled r).
Definition rg_put (id : ObservationId) (o : Installed) (r : Registry) : Registry :=
  rg_set_observations (<[id := o]> (rg_observations r)) r.

(** [bump] and the two channels a revision is sent on. *)
Definition bump (r : Registry) : Registry :=
  mkRegistry (rg_next r) (saturating_add (rg_revision r) 1) (rg_observations r) (rg_demand_changed r)
    (rg_wakes r) (rg_cancelled r).
Definition send_wake (id : ObservationId) (v : N) (r : Registry) : Registry :=
  mkRegistry (rg_next r) (rg_revision r) (rg_observations r) (rg_demand_changed r) (<[id := v]> (rg_wakes r))
    (rg_cancelled r).
Definition send_demand_changed (r : Registry) : Registry :=
  mkRegistry (rg_next r) (rg_revision r) (rg_observations r) (rg_revision r) (rg_wakes r) (rg_cancelled r).

(** [installed.cancel.cancel(); installed.wake.send_replace(u64::MAX); drop(installed.tasks)]
    of an observation just taken out of the table. *)
Definition retire (id : ObservationId) (r : Registry) : Registry :=
  mkRegistry (rg_next r) (rg_revision r) (delete id (rg_observations r)) (rg_demand_changed r)
    (<[id := u64_max]> (rg_wakes r)) ({[id]} ∪ rg_cancelled r).

(** ** Installation *)

Definition new_observation (public : ObservationId) (active : bool) : Installed :=
  mkObservation public active None ∅ ∅ Unauthenticated None None 0 ∅ [].

Definition install_for (public : option ObservationId) (r : Registry) : option ObservationId * Registry :=
  if match public with Some p => bool_decide (rg_observations r !! p = None) | None => false end
  then (None, r)
  else
    let id := saturating_add (rg_next r) 1 in
    let observations :=
      <[id := new_observation (default id public) (bool_decide (public = None))]> (rg_observations r) in
    let observations :=
      match public with
      | Some p => alter (λ parent, ob_set_family (ob_active_child parent) ({[id]} ∪ ob_children parent) parent)
                    p observations
      | None => observations
      end in
    (Some id, mkRegistry id (rg_revision r) observations (rg_demand_changed r)
                (<[id := 0%N]> (rg_wakes r)) (rg_cancelled r)).

(** [install]; the [expect] cannot fire for a root. *)
Definition install (r : Registry) : option ObservationId * Registry := install_for None r.
Definition install_child (public : ObservationId) (r : Registry) : option ObservationId * Registry :=
  install_for (Some public) r.

Definition activate_child (public child : ObservationId) (r : Registry) : bool * Registry :=
  match rg_observations r !! child, rg_observations r !! public with
  | Some installed, Some parent =>
      if bool_decide (ob_public installed = public) && negb (ob_active installed)
         && bool_decide (child ∈ ob_children parent)
      then
        let retired := ob_active_child parent in
        let r := rg_put public (ob_set_family (Some child) (ob_children parent) parent) r in
        let r := rg_set_observations (alter (ob_set_active true) child (rg_observations r)) r in
        let r := match retired with
                 | Some old =>
                     if bool_decide (old ≠ child)
                     then
                       let r := rg_set_observations
                         (alter (λ p, ob_set_family (ob_active_child p) (ob_children p ∖ {[old]}) p) public
                            (rg_observations r)) r in
                       match rg_observations r !! old with Some _ => retire old r | None => r end
                     else r
                 | None => r
                 end in
        (true, send_demand_changed (bump r))
      else (false, r)
  | _, _ => (false, r)
  end.

Definition withdraw (id : ObservationId) (r : Registry) : Registry :=
  match rg_observations r !! id with
  | None => r
  | Some installed =>
      let r := rg_set_observations (delete id (rg_observations r)) r in
      let r :=
        if bool_decide (ob_public installed ≠ id)
        then rg_set_observations
               (alter (λ parent,
                  ob_set_family (if bool_decide (ob_active_child parent = Some id) then None else ob_active_child parent)
                    (ob_children parent ∖ {[id]}) parent)
                  (ob_public installed) (rg_observations r)) r
        else r in
      let r := retire id r in
      let r := fold_left (λ r child, match rg_observations r !! child with Some _ => retire child r | None => r end)
                 (ordered_elements (ob_children installed)) r in
      send_demand_changed (bump r)
  end.

(** ** Assignment *)

(** [retain_withdrawn]. *)
Definition retain_withdrawn (w : RelayWithdrawal) : bool :=
  match w with RouteWithdrawn => true | _ => false end.

Definition set_state (v : RelaySourceState) (e : RelayQueryEvidence) : RelayQueryEvidence :=
  mkRelayEvidence (rq_session e) (rq_generation e) (rq_plan_revision e) (rq_branches e) v (rq_shared_with e)
    (rq_shortfall e) (rq_route e).
Definition set_generation (v : option Round) (e : RelayQueryEvidence) : RelayQueryEvidence :=
  mkRelayEvidence (rq_session e) v (rq_plan_revision e) (rq_branches e) (rq_state e) (rq_shared_with e)
    (rq_shortfall e) (rq_route e).
Definition set_route (v : RouteOrigin) (e : RelayQueryEvidence) : RelayQueryEvidence :=
  mkRelayEvidence (rq_session e) (rq_generation e) (rq_plan_revision e) (rq_branches e) (rq_state e)
    (rq_shared_with e) (rq_shortfall e) v.
Definition set_sharing (revision : N) (shared : list ObservationId) (short : option RelayShortfall)
    (e : RelayQueryEvidence) : RelayQueryEvidence :=
  mkRelayEvidence (rq_session e) (rq_generation e) revision (rq_branches e) (rq_state e) shared short (rq_route e).

Definition planned_evidence (session : RelayUrl) (branch : N) (route : RouteOrigin) : RelayQueryEvidence :=
  mkRelayEvidence session None 0 [branch] Planned [] None route.

(** The entry of one wanted relay. *)
Definition assign_one (branch : N) (relays : gmap RelayUrl Assigned) (w : RelayUrl * (RelayDemand * RouteOrigin))
    : gmap RelayUrl Assigned :=
  let '(session, (demand, route)) := w in
  match relays !! session with
  | Some assigned => <[session := mkAssigned demand (set_route route (as_evidence assigned))]> relays
  | None => <[session := mkAssigned demand (planned_evidence session branch route)]> relays
  end.

(** What an observation keeps of the relays it leaves. *)
Definition leave_relays (wanted : gmap RelayUrl (RelayDemand * RouteOrigin)) (w : RelayWithdrawal)
    (relays : gmap RelayUrl Assigned) : gmap RelayUrl Assigned :=
  map_imap (λ session assigned,
    match wanted !! session with
    | Some _ => Some assigned
    | None => if retain_withdrawn w
              then Some (mkAssigned (as_demand assigned) (set_state (Withdrawn w) (as_evidence assigned)))
              else None
    end) relays.

(** [live.entry(session).or_default()] for every wanted relay, the rest dropped. *)
Definition assign_live (wanted : gmap RelayUrl (RelayDemand * RouteOrigin)) (live : gmap RelayUrl LiveState)
    : gmap RelayUrl LiveState :=
  map_imap (λ session _, Some (default LiveState_default (live !! session))) wanted.

Definition assign (id : ObservationId) (branch : N) (access : Authority)
    (wanted : gmap RelayUrl (RelayDemand * RouteOrigin)) (route_revision : option N) (w : RelayWithdrawal)
    (r : Registry) : Registry :=
  match rg_observations r !! id with
  | None => r
  | Some installed =>
      let left_ := existsb (λ session, bool_decide (wanted !! session = None)) (keys (ob_relays installed)) in
      let kept := leave_relays wanted w (ob_relays installed) in
      let joined := existsb (λ session, bool_decide (kept !! session = None)) (keys wanted) in
      let installed :=
        ob_set_live (assign_live wanted (ob_live installed))
          (ob_set_relays (fold_left (assign_one branch) (entries wanted) kept)
             (ob_set_route access route_revision installed)) in
      let r := bump (rg_put id installed r) in
      let r := send_wake id (rg_revision r) r in
      if left_ || joined then send_demand_changed r else r
  end.

Definition attach_task (id : ObservationId) (task : nat) (r : Registry) : Registry :=
  match rg_observations r !! id with
  | Some installed => rg_put id (ob_set_tasks (ob_tasks installed ++ [task]) installed) r
  | None => r
  end.

(** ** Demand *)

Definition is_withdrawn (s : RelaySourceState) : bool :=
  match s with Withdrawn _ => true | _ => false end.

(** [desired.entry(session).or_default().push(item)]. *)
Definition push_at (session : RelayUrl) (item : RelayDemand * Authority)
    (desired : gmap RelayUrl (list (RelayDemand * Authority))) : gmap RelayUrl (list (RelayDemand * Authority)) :=
  <[session := default [] (desired !! session) ++ [item]]> desired.

Definition desired_of (desired : gmap RelayUrl (list (RelayDemand * Authority))) (installed : Installed)
    : gmap RelayUrl (list (RelayDemand * Authority)) :=
  if ob_active installed
  then fold_left (λ desired '(session, assigned),
         if is_withdrawn (rq_state (as_evidence assigned)) then desired
         else push_at session (as_demand assigned, ob_access installed) desired)
         (entries (ob_relays installed)) desired
  else desired.

Definition desired (r : Registry) : gmap RelayUrl (list (RelayDemand * Authority)) :=
  fold_left desired_of (values (rg_observations r)) ∅.

(** [desired().remove(relay).unwrap_or_default()]: the items desired at one relay. *)
Definition desired_at (r : Registry) (s : RelayUrl) : list (RelayDemand * Authority) := default [] (desired r !! s).

(** ** Evidence *)

#[global] Instance RelayShortfall_eq_dec : EqDecision RelayShortfall.
Proof. solve_decision. Defined.
#[global] Instance DesiredPlanEvidence_eq_dec : EqDecision DesiredPlanEvidence.
Proof. solve_decision. Defined.

(** [update]: [change] answers the new observation and whether to wake it. *)
Definition update (id : ObservationId) (change : Installed → bool * Installed) (r : Registry) : Registry :=
  match rg_observations r !! id with
  | None => r
  | Some installed =>
      let '(changed, installed) := change installed in
      let r := rg_put id installed r in
      if changed then let r := bump r in send_wake id (rg_revision r) r else r
  end.

(** The closures of the [record_*] methods, on the entry of one relay. *)
Definition on_relay (session : RelayUrl) (f : RelayQueryEvidence → bool * RelayQueryEvidence)
    (installed : Installed) : bool * Installed :=
  match ob_relays installed !! session with
  | None => (false, installed)
  | Some assigned =>
      let '(changed, evidence) := f (as_evidence assigned) in
      (changed, ob_set_relays (<[session := mkAssigned (as_demand assigned) evidence]> (ob_relays installed)) installed)
  end.

Definition record_state (id : ObservationId) (session : RelayUrl) (generation : option Round)
    (next : RelaySourceState) : Registry → Registry :=
  update id (on_relay session (λ e,
    (bool_decide (rq_state e ≠ next) || bool_decide (rq_generation e ≠ generation),
     set_state next (set_generation generation e)))).

Definition record_sharing (id : ObservationId) (session : RelayUrl) (plan_revision : N)
    (shared_with : list ObservationId) (shortfall : option RelayShortfall) : Registry → Registry :=
  update id (on_relay session (λ e,
    (bool_decide (rq_plan_revision e ≠ plan_revision) || bool_decide (rq_shared_with e ≠ shared_with)
       || bool_decide (rq_shortfall e ≠ shortfall),
     set_sharing plan_revision shared_with shortfall e))).

Definition record_plan (id : ObservationId) (plan : DesiredPlanEvidence) : Registry → Registry :=
  update id (λ installed, (bool_decide (ob_plan installed ≠ Some plan), ob_set_plan (Some plan) installed)).

Definition record_coalesced (id : ObservationId) (dropped : N) : Registry → Registry :=
  update id (λ installed, (false, ob_set_coalesced (saturating_add (ob_coalesced installed) dropped) installed)).

Section live.
Context `{Nostr}.

(** One mutation applied to the events and retractions being built. *)
Definition live_mutation (session : RelayUrl) (w : gmap EventId RelayEvent * list SourceRetraction)
    (m : EventStateMutation) : gmap EventId RelayEvent * list SourceRetraction :=
  match m with
  | Upsert incoming => (<[re_id incoming := incoming]> w.1, w.2)
  | Retract event_id retracted_session cause =>
      if bool_decide (retracted_session = session) && bool_decide (is_Some (w.1 !! event_id))
      then (delete event_id w.1, w.2 ++ [mkRetraction event_id cause])
      else w
  end.

Definition live_event (incoming : RelayEvent) (live : LiveState) : option LiveState :=
  let session := re_session incoming in
  match mutations_for_event (values (lv_events live)) incoming (re_observed_at incoming) with
  | [] => None
  | mutations =>
      let '(events, retractions) := fold_left (live_mutation session) mutations (lv_events live, []) in
      Some (if bool_decide (LIVE_EVENTS_PER_SESSION < size events)
            then mkLive (saturating_add (lv_revision live) 1) (lv_events live) [] (saturating_add (lv_refused live) 1)
            else mkLive (saturating_add (lv_revision live) 1) events retractions (lv_refused live))
  end.

Definition record_live_event (id : ObservationId) (incoming : RelayEvent) : Registry → Registry :=
  update id (λ installed,
    match ob_live installed !! re_session incoming with
    | None => (false, installed)
    | Some live =>
        match live_event incoming live with
        | None => (false, installed)
        | Some live => (true, ob_set_live (<[re_session incoming := live]> (ob_live installed)) installed)
        end
    end).
End live.

Definition live_snapshot (session : RelayUrl) (live : LiveState) : SourceSnapshot :=
  mkSnapshot (LiveRelay session) (lv_revision live) SourceOpen (SourceRelay <$> values (lv_events live))
    (lv_retractions live).

Definition live_snapshots (id : ObservationId) (r : Registry) : list SourceSnapshot :=
  match rg_observations r !! id with
  | None => []
  | Some installed => (λ '(session, live), live_snapshot session live) <$> entries (ob_live installed)
  end.

(** [public_ids]: translated, sorted, without duplicates. *)
Definition public_ids (ids : list ObservationId) (r : Registry) : list ObservationId :=
  ordered_elements (list_to_set (omap (λ id, ob_public <$> rg_observations r !! id) ids) : gset N).

Record ObservationEvidence := mkOwned {
  ow_relays : list RelayQueryEvidence;
  ow_plan : option DesiredPlanEvidence;
  ow_coalesced : N;
  ow_live_shortfalls : list QueryShortfall;
  ow_route_revision : option N
}.

Definition evidence_for (r : Registry) (installed : Installed) : ObservationEvidence :=
  mkOwned
    ((λ a, let e := as_evidence a in
           set_sharing (rq_plan_revision e) (public_ids (rq_shared_with e) r) (rq_shortfall e) e)
       <$> values (ob_relays installed))
    (ob_plan installed) (ob_coalesced installed)
    (omap (λ '(session, live),
       if bool_decide (0 < lv_refused live)%N
       then Some (LiveRetentionLimit session LIVE_EVENTS_PER_SESSION (lv_refused live)) else None)
       (entries (ob_live installed)))
    (ob_route_revision installed).

Definition evidence (id : ObservationId) (r : Registry) : ObservationEvidence :=
  match rg_observations r !! id with
  | None => mkOwned [] None 0 [] None
  | Some installed => evidence_for r installed
  end.

(** [with_publication_evidence]: what its action is given, [None] when it does not run. *)
Definition with_publication_evidence (public id : ObservationId) (r : Registry) : option ObservationEvidence :=
  installed ← rg_observations r !! id;
  let publishable :=
    if bool_decide (public = id) then ob_active installed
    else ob_active installed && bool_decide (ob_public installed = public)
         && bool_decide ((rg_observations r !! public ≫= ob_active_child) = Some id) in
  if publishable then Some (evidence_for r installed) else None.

Definition filter_for (id : ObservationId) (session : RelayUrl) (r : Registry) : option Filter :=
  installed ← rg_observations r !! id;
  assigned ← ob_relays installed !! session;
  Some (rd_filter (as_demand assigned)).

Definition registry_demand_id (id : ObservationId) (session : RelayUrl) (r : Registry) : option DemandId :=
  installed ← rg_observations r !! id;
  assigned ← ob_relays installed !! session;
  Some (demand_id (as_demand assigned)).

Definition open_observations (r : Registry) : list ObservationId := keys (rg_observations r).

(** ** Runs *)

Section runs.
Context `{Nostr}.

(** The calls of the crate.  An observation's relays come from [demand_for] with
    the query's own authority, and the routes an observation leaves are
    withdrawn routes ([Observer::retain], [follow_route_inputs]). *)
Inductive RegistryCall :=
| CallInstall
| CallInstallChild (public : ObservationId)
| CallActivate (public child : ObservationId)
| CallWithdraw (id : ObservationId)
| CallAssign (id : ObservationId) (q : Query) (plan : RoutePlan) (origin : Origin)
| CallAttach (id : ObservationId) (task : nat)
| CallState (id : ObservationId) (session : RelayUrl) (generation : option Round) (next : RelaySourceState)
| CallSharing (id : ObservationId) (session : RelayUrl) (plan_revision : N) (shared_with : list ObservationId)
    (shortfall : option RelayShortfall)
| CallPlan (id : ObservationId) (plan : DesiredPlanEvidence)
| CallCoalesced (id : ObservationId) (dropped : N)
| CallLive (id : ObservationId) (incoming : RelayEvent).

Definition assign_route (id : ObservationId) (q : Query) (plan : RoutePlan) (origin : Origin) : Registry → Registry :=
  assign id ROOT (q_access q) (demand_for id ROOT q plan origin) (revision_of origin plan) RouteWithdrawn.

Definition registry_call (c : RegistryCall) (r : Registry) : Registry :=
  match c with
  | CallInstall => (install r).2
  | CallInstallChild public => (install_child public r).2
  | CallActivate public child => (activate_child public child r).2
  | CallWithdraw id => withdraw id r
  | CallAssign id q plan origin => assign_route id q plan origin r
  | CallAttach id task => attach_task id task r
  | CallState id session generation next => record_state id session generation next r
  | CallSharing id session revision shared short => record_sharing id session revision shared short r
  | CallPlan id plan => record_plan id plan r
  | CallCoalesced id dropped => record_coalesced id dropped r
  | CallLive id incoming => record_live_event id incoming r
  end.

(** Identities below the maximum of [u64] are left; the parent of a child is a
    root, since [open_current_account] passes the identity [install] gave it; and
    a live event was admitted, so it is verified. *)
Definition call_allowed (c : RegistryCall) (r : Registry) : bool :=
  match c with
  | CallInstall => bool_decide (rg_next r < u64_max)%N
  | CallInstallChild public =>
      bool_decide (rg_next r < u64_max)%N &&
      match rg_observations r !! public with Some o => bool_decide (ob_public o = public) | None => true end
  | CallLive _ incoming => bool_decide (event_verify (re_event incoming) = None)
  | _ => true
  end.

Inductive registry_reachable : Registry → Prop :=
| registry_start : registry_reachable Registry_default
| registry_called r c :
    registry_reachable r → call_allowed c r = true → registry_reachable (registry_call c r).
End runs.
