(* ===== verification/ObservationsProps.v ===== *)
(** * Properties of the observation registry

    How each call changes the table of observations, the invariant of every run
    ([registry_coherent]), the exactness of the aggregated demand
    ([desired_exact]), and a relay that returns to a route without being desired
    again ([returned_relay_not_desired]). *)

From S2P Require Import Prelude Nostr Relay State Write Query EventCache.
From S2P Require Import Subscriptions Diagnostics Routing Observations.

(** ** Lookups *)

(** A fold over a map's entries whose steps touch only their own key. *)
Lemma fold_entries_lookup {K V A} `{Countable K} `{!KeyOrder K} (step : gmap K A → K * V → gmap K A)
    (g : K → V → option A → option A) (wanted : gmap K V) (m : gmap K A) j :
  (∀ m k v i, step m (k, v) !! i = if decide (i = k) then g k v (m !! k) else m !! i) →
  fold_left step (entries wanted) m !! j = match wanted !! j with Some v => g j v (m !! j) | None => m !! j end.
Proof.
  intros Hstep.
  assert (∀ l m, NoDup l.*1 → fold_left step l m !! j =
    match list_find (λ p, p.1 = j) l with Some (_, (_, v)) => g j v (m !! j) | None => m !! j end) as Hl.
  { clear m. induction l as [|[k v] l IH]; intros m Hnd; [done|]. cbn in Hnd.
    apply NoDup_cons in Hnd as [Hk Hnd]. cbn [fold_left list_find]. rewrite IH by done. rewrite Hstep.
    cbn [fst]. destruct (decide (k = j)) as [->|Hne].
    - rewrite decide_True by done. destruct (list_find _ l) as [[i [k' v']]|] eqn:Hf; [|done].
      apply list_find_Some in Hf as (Hi & Heq & _). cbn in Heq. subst k'. exfalso. apply Hk.
      apply list_elem_of_fmap. exists (j, v'). split; [done|]. by eapply list_elem_of_lookup_2.
    - rewrite decide_False by done.
      destruct (list_find _ l) as [[i [k' v']]|] eqn:Hf; done. }
  rewrite Hl by apply NoDup_keys. clear Hl.
  destruct (list_find _ (entries wanted)) as [[i [k v]]|] eqn:Hf.
  - apply list_find_Some in Hf as (Hi & Heq & _). cbn in Heq. subst k.
    apply list_elem_of_lookup_2, elem_of_entries in Hi. by rewrite Hi.
  - apply list_find_None in Hf. destruct (wanted !! j) as [v|] eqn:Hw; [|done].
    apply elem_of_entries in Hw. rewrite Forall_forall in Hf. by destruct (Hf _ Hw).
Qed.

Lemma lookup_leave_relays wanted w relays s :
  leave_relays wanted w relays !! s =
  a ← relays !! s;
  match wanted !! s with
  | Some _ => Some a
  | None => if retain_withdrawn w then Some (mkAssigned (as_demand a) (set_state (Withdrawn w) (as_evidence a))) else None
  end.
Proof. unfold leave_relays. by rewrite map_lookup_imap. Qed.

Lemma lookup_assigned branch wanted relays s :
  fold_left (assign_one branch) (entries wanted) relays !! s =
  match wanted !! s with
  | Some (demand, route) =>
      Some (mkAssigned demand
              (match relays !! s with
               | Some a => set_route route (as_evidence a)
               | None => planned_evidence s branch route
               end))
  | None => relays !! s
  end.
Proof.
  rewrite (fold_entries_lookup _ (λ k v o, Some (mkAssigned v.1
    (match o with Some a => set_route v.2 (as_evidence a) | None => planned_evidence k branch v.2 end)))).
  - by destruct (wanted !! s) as [[? ?]|].
  - intros m k [demand route] i. cbn. destruct (m !! k) as [a|] eqn:Hk; cbn; rewrite lookup_insert;
      repeat case_decide; congruence || done.
Qed.

Lemma lookup_assign_live wanted live s :
  assign_live wanted live !! s = _ ← wanted !! s; Some (default LiveState_default (live !! s)).
Proof. unfold assign_live. by rewrite map_lookup_imap. Qed.

Lemma retired_lookup l (r : Registry) j :
  rg_observations (fold_left (λ r child, match rg_observations r !! child with Some _ => retire child r | None => r end) l r) !! j =
  if decide (j ∈ l) then None else rg_observations r !! j.
Proof.
  revert r. induction l as [|x l IH]; intros r; cbn [fold_left]; [by rewrite decide_False by set_solver|].
  rewrite IH. destruct (decide (j ∈ l)) as [Hj|Hj]; [rewrite decide_True by set_solver; done|].
  destruct (decide (j = x)) as [->|Hne].
  - rewrite decide_True by set_solver. destruct (rg_observations r !! x) eqn:Hx; [|done]. apply lookup_delete_eq.
  - rewrite decide_False by set_solver. destruct (rg_observations r !! x) eqn:Hx; [|done].
    cbn. by rewrite lookup_delete_ne.
Qed.

Definition retire_all (l : list ObservationId) (r : Registry) : Registry :=
  fold_left (λ r child, match rg_observations r !! child with Some _ => retire child r | None => r end) l r.

Lemma retire_all_facts l (r : Registry) :
  rg_next (retire_all l r) = rg_next r ∧
  (∀ j, j ∈ rg_cancelled (retire_all l r) ↔ j ∈ rg_cancelled r ∨ j ∈ l ∧ is_Some (rg_observations r !! j)) ∧
  (∀ j, rg_wakes (retire_all l r) !! j =
        if decide (j ∈ l ∧ is_Some (rg_observations r !! j)) then Some u64_max else rg_wakes r !! j).
Proof.
  revert r. induction l as [|x l IH]; intros r.
  { split_and!; [done| |]; intros j; [set_solver|]. rewrite decide_False; [done|]. set_solver. }
  change (retire_all (x :: l) r) with
    (retire_all l (match rg_observations r !! x with Some _ => retire x r | None => r end)).
  destruct (rg_observations r !! x) as [o|] eqn:Hx; destruct (IH (match rg_observations r !! x with Some _ => retire x r | None => r end)) as (Hn & Hc & Hw);
    rewrite Hx in Hn, Hc, Hw; split_and!; [done| | |done| |]; intros j.
  - rewrite Hc. cbn. destruct (decide (j = x)) as [->|Hne].
    + rewrite lookup_delete_eq, Hx. split; [|set_solver]. intros _. right. split; [set_solver|eauto].
    + rewrite lookup_delete_ne by done. set_solver.
  - rewrite Hw. cbn. destruct (decide (j = x)) as [->|Hne].
    + rewrite lookup_delete_eq, lookup_insert_eq, Hx. rewrite decide_False by (intros [_ []]; done).
      rewrite decide_True; [done|]. split; [set_solver|eauto].
    + rewrite lookup_delete_ne, lookup_insert_ne by done. repeat case_decide; set_solver.
  - rewrite Hc. destruct (decide (j = x)) as [->|Hne]; [rewrite Hx; split; [set_solver|]; intros [?|[_ []]]; [by left|done]|set_solver].
  - rewrite Hw. destruct (decide (j = x)) as [->|Hne]; [|repeat case_decide; set_solver].
    rewrite Hx, !decide_False by (intros [_ []]; done). done.
Qed.

(** ** The invariant *)

(** A live source: bounded, keyed, holding verified events of its own relay, and
    sound as an event state. *)
Record live_ok `{Nostr} (s : RelayUrl) (l : LiveState) : Prop := {
  lo_bound : size (lv_events l) ≤ LIVE_EVENTS_PER_SESSION;
  lo_keyed : ∀ k e, lv_events l !! k = Some e → re_id e = k ∧ re_session e = s ∧ event_verify (re_event e) = None;
  lo_deletions : no_tombstoned (values (lv_events l));
  lo_versions : EventIdBinding → one_per_coordinate (values (lv_events l))
}.

(** What an observation holds of its own: its demand under its own identity, and
    live sources only of relays it has demand at. *)
Record content_ok `{Nostr} (id : ObservationId) (o : Installed) : Prop := {
  co_demand : ∀ s a, ob_relays o !! s = Some a →
    demand_id (as_demand a) = mkDemandId id ROOT ∧ rq_session (as_evidence a) = s;
  co_live : ∀ s l, ob_live o !! s = Some l → is_Some (ob_relays o !! s) ∧ live_ok s l
}.

(** How observations belong together: a root is active; a child belongs to one
    root, has no children, and is active exactly when its root says so. *)
Record family_ok (obs : gmap ObservationId Installed) : Prop := {
  fo_root : ∀ id o, obs !! id = Some o → ob_public o = id → ob_active o = true;
  fo_child : ∀ id o, obs !! id = Some o → ob_public o ≠ id →
    ob_children o = ∅ ∧ ob_active_child o = None ∧
    ∃ p, obs !! ob_public o = Some p ∧ ob_public p = ob_public o ∧ id ∈ ob_children p ∧
         (ob_active o = true ↔ ob_active_child p = Some id);
  fo_children : ∀ id o c, obs !! id = Some o → c ∈ ob_children o →
    c ≠ id ∧ ∃ oc, obs !! c = Some oc ∧ ob_public oc = id;
  fo_active_child : ∀ id o c, obs !! id = Some o → ob_active_child o = Some c → c ∈ ob_children o
}.

Record registry_ok `{Nostr} (r : Registry) : Prop := {
  ro_ids : ∀ id, is_Some (rg_observations r !! id) → (1 ≤ id ≤ rg_next r)%N;
  ro_tokens : ∀ id, id ∈ rg_cancelled r ↔ (1 ≤ id ≤ rg_next r)%N ∧ rg_observations r !! id = None;
  ro_wakes : ∀ id, id ∈ rg_cancelled r → rg_wakes r !! id = Some u64_max;
  ro_family : family_ok (rg_observations r);
  ro_content : map_Forall content_ok (rg_observations r)
}.

Section invariant.
Context `{Nostr}.

Definition family (o : Installed) : ObservationId * bool * option ObservationId * gset ObservationId :=
  (ob_public o, ob_active o, ob_active_child o, ob_children o).

Lemma family_ok_fmap obs obs' : family <$> obs' = family <$> obs → family_ok obs → family_ok obs'.
Proof.
  intros Heq [Hr Hc Hch Ha].
  assert (∀ id o', obs' !! id = Some o' → ∃ o, obs !! id = Some o ∧ family o' = family o) as Hfw.
  { intros id o' Ho'. pose proof (lookup_fmap family obs' id) as Hl. rewrite Ho', Heq, lookup_fmap in Hl.
    destruct (obs !! id) as [o|] eqn:Ho; [|done]. exists o. cbn in Hl. split; congruence. }
  assert (∀ id o, obs !! id = Some o → ∃ o', obs' !! id = Some o' ∧ family o' = family o) as Hbw.
  { intros id o Ho. pose proof (lookup_fmap family obs id) as Hl. rewrite Ho, <- Heq, lookup_fmap in Hl.
    destruct (obs' !! id) as [o'|] eqn:Ho'; [|done]. exists o'. cbn in Hl. split; congruence. }
  unfold family in Hfw, Hbw. split.
  - intros id o' (o & Ho & [=])%Hfw Hp. specialize (Hr id o Ho). naive_solver congruence.
  - intros id o' (o & Ho & [=])%Hfw Hp. destruct (Hc id o Ho ltac:(congruence)) as (Hn & Hac & p & Hpp & Hself & Hin & Hiff).
    destruct (Hbw _ _ Hpp) as (p' & Hp' & [=]). split_and!; [congruence..|]. exists p'.
    assert (ob_active o' = ob_active o) as -> by congruence.
    assert (ob_active_child p' = ob_active_child p) as -> by congruence.
    split_and!; [congruence..|done].
  - intros id o' c (o & Ho & [=])%Hfw Hin. destruct (Hch id o c Ho ltac:(congruence)) as (Hne & oc & Hoc & Hpub).
    destruct (Hbw _ _ Hoc) as (oc' & Hoc' & [=]). split; [done|]. exists oc'. split; [done|congruence].
  - intros id o' c (o & Ho & [=])%Hfw Hac. specialize (Ha id o c Ho). naive_solver congruence.
Qed.

(** A call that rewrites one observation's own content. *)
Lemma content_changed id o o' (r : Registry) :
  registry_ok r → rg_observations r !! id = Some o → family o' = family o → content_ok id o' →
  registry_ok (rg_put id o' r).
Proof.
  intros [Hids Htok Hwk Hfam Hcon] Ho Hf Hco. split; cbn.
  - intros j. destruct (decide (j = id)) as [->|?]; [intros _; apply Hids; eauto|].
    rewrite lookup_insert_ne by done. apply Hids.
  - intros j. destruct (decide (j = id)) as [->|?]; [|by rewrite lookup_insert_ne].
    rewrite lookup_insert_eq, Htok, Ho. naive_solver.
  - done.
  - eapply family_ok_fmap; [|exact Hfam]. rewrite fmap_insert, Hf, <- (fmap_insert family).
    by rewrite insert_id.
  - by apply map_Forall_insert_2.
Qed.

(** The channels do not matter to the invariant, as long as no retired
    observation is woken. *)
Lemma bump_ok r : registry_ok r → registry_ok (bump r).
Proof. intros []. by split. Qed.
Lemma send_demand_changed_ok r : registry_ok r → registry_ok (send_demand_changed r).
Proof. intros []. by split. Qed.
Lemma send_wake_ok id v r : is_Some (rg_observations r !! id) → registry_ok r → registry_ok (send_wake id v r).
Proof.
  intros [o Ho] [Hids Htok Hwk Hfam Hcon]. split; [done..| |done|done]. cbn. intros j Hj.
  rewrite lookup_insert_ne; [by apply Hwk|]. intros ->. apply Htok in Hj as [_ Hn]. congruence.
Qed.

Lemma registry_update_ok id change r :
  registry_ok r →
  (∀ o, rg_observations r !! id = Some o → family (change o).2 = family o ∧ content_ok id (change o).2) →
  registry_ok (update id change r).
Proof.
  intros Hok Hch. unfold update. destruct (rg_observations r !! id) as [o|] eqn:Ho; [|done].
  destruct (Hch o eq_refl) as [Hf Hco]. destruct (change o) as [changed o']. cbn in Hf, Hco.
  assert (registry_ok (rg_put id o' r)) as Hput by (by eapply content_changed).
  destruct changed; [|done]. apply send_wake_ok; [|by apply bump_ok]. cbn. by rewrite lookup_insert_eq.
Qed.

Lemma on_relay_ok id session f o :
  (∀ e, rq_session (f e).2 = rq_session e) → content_ok id o →
  family (on_relay session f o).2 = family o ∧ content_ok id (on_relay session f o).2.
Proof.
  intros Hs [Hd Hl]. unfold on_relay. destruct (ob_relays o !! session) as [a|] eqn:Ha; [|by split].
  specialize (Hs (as_evidence a)). destruct (f (as_evidence a)) as [changed e]. cbn in *. split; [done|]. split; cbn.
  - intros s a'. destruct (decide (s = session)) as [->|Hne]; [|rewrite lookup_insert_ne by done; apply Hd].
    rewrite lookup_insert_eq. intros [= <-]. destruct (Hd _ _ Ha) as [? ?]. cbn. split; congruence.
  - intros s l Hsl. destruct (Hl _ _ Hsl) as ([a' Ha'] & Hrest). split; [|done].
    destruct (decide (s = session)) as [->|Hne]; [by rewrite lookup_insert_eq|rewrite lookup_insert_ne by done; eauto].
Qed.

(** *** Live events *)

Lemma live_retracts_lookup s pre w k e :
  (∀ r, Upsert r ∉ pre) → (fold_left (live_mutation s) pre w).1 !! k = Some e →
  w.1 !! k = Some e ∧ ∀ cause, Retract k s cause ∉ pre.
Proof.
  revert w. induction pre as [|m pre IH]; intros w Hup Hk; [split; [done|]; intros ?; apply not_elem_of_nil|].
  cbn [fold_left] in Hk. apply IH in Hk as [Hk Hn]; [|set_solver].
  destruct m as [r|id s' c]; [by destruct (Hup r); set_solver|]. cbn in Hk.
  destruct (_ && _) eqn:Hb; cbn in Hk.
  - destruct (decide (k = id)) as [->|Hne]; [by rewrite lookup_delete_eq in Hk|].
    rewrite lookup_delete_ne in Hk by done. split; [done|]. intros cause [[= ]|?]%elem_of_cons; [done|by eapply Hn].
  - split; [done|]. intros cause [[= -> -> ->]|?]%elem_of_cons; [|by eapply Hn].
    rewrite !bool_decide_eq_true_2 in Hb by eauto. done.
Qed.

Lemma live_retracted cause (victims : list RelayEvent) e s k :
  e ∈ victims → re_id e = k → re_session e = s → Retract k s cause ∈ (retract_of cause <$> victims).
Proof. intros He <- <-. apply list_elem_of_fmap. by exists e. Qed.

(** An event that stays beside the incoming one is neither its target nor its deletion,
    and not another version of its coordinate. *)
Lemma live_survivor s l incoming now batch pre e :
  live_ok s l → re_session incoming = s → event_verify (re_event incoming) = None →
  admission (values (lv_events l)) incoming now batch → batch = pre ++ [Upsert incoming] →
  lv_events l !! re_id e = Some e → re_id e ≠ re_id incoming → (∀ cause, Retract (re_id e) s cause ∉ pre) →
  deletes (re_event incoming) (re_event e) = false ∧ deletes (re_event e) (re_event incoming) = false ∧
  (EventIdBinding → ev_kind (re_event incoming) ≠ kind_event_deletion → ev_kind (re_event e) ≠ kind_event_deletion →
   ∀ author kind identifier, coordinate_of (re_event incoming) = CoordReplaceable author kind identifier →
   coordinate_of (re_event e) ≠ CoordReplaceable author kind identifier).
Proof.
  intros [Hb Hkey Hdel Hver] Hs Hv Hadm Hbatch Hl Hne Hno.
  assert (e ∈ values (lv_events l)) as He by (apply elem_of_values; eauto).
  destruct (Hkey _ _ Hl) as (_ & Hse & Hve).
  inversion Hadm as [Hnil|Hk Hx Heq|existing Hk Hx Hd Hex [Hid Hss] Ho Heq|victims Hk Hx Hd Hsame Hvic Hall Heq];
    rewrite Hbatch in *.
  - symmetry in Hnil. by apply app_nil in Hnil as [_ ?].
  - apply app_inj_tail in Heq as [Heq _]. split_and!.
    + apply not_true_is_false. intros Htrue. apply (Hno (Deleted (re_id incoming))). rewrite <- Heq.
      apply (live_retracted _ _ e); [|done..]. apply elem_of_filterb. done.
    + by apply deletes_deletion_target.
    + intros _ ?. done.
  - split_and!; [by apply deletes_not_deletion|by apply Hd|]. intros Hbind Hki Hke author kind identifier Hci Hce.
    destruct (Hbind (re_event existing) (re_event incoming)) as (Hp & Hkk & _ & Ht); [| |done|].
    { apply elem_of_values in Hex as [j Hj]. by apply Hkey in Hj as (_ & _ & ?). } { done. }
    assert (coordinate_of (re_event existing) = coordinate_of (re_event incoming)) as Hcc.
    { change (ev_id (re_event existing) = ev_id (re_event incoming)) in Hid.
      unfold coordinate_of. by rewrite Hid, Hp, Hkk, Ht. }
    assert (e = existing) as ->; [|done].
    eapply (Hver Hbind); try done; congruence.
  - apply app_inj_tail in Heq as [Heq _]. split_and!; [by apply deletes_not_deletion|by apply Hd|].
    intros _ Hki Hke author kind identifier Hci Hce.
    destruct (Hall e He ltac:(congruence) ltac:(congruence)) as [Hin|Hc]; [|congruence].
    apply (Hno (Superseded (re_id incoming))). rewrite <- Heq. by apply (live_retracted _ _ e).
Qed.

Lemma live_event_ok s l l' incoming :
  live_ok s l → re_session incoming = s → event_verify (re_event incoming) = None →
  live_event incoming l = Some l' → live_ok s l'.
Proof.
  intros Hok Hs Hv. unfold live_event.
  pose proof (mutations_for_event_admission (values (lv_events l)) incoming (re_observed_at incoming)) as Hadm.
  destruct (mutations_for_event _ _ _) as [|m ms] eqn:Hm; [done|]. rewrite <- Hm in *.
  destruct (admission_upsert_last _ _ _ _ Hadm ltac:(congruence)) as (pre & Hpre & Hup). rewrite Hpre, Hs.
  rewrite fold_left_app. cbn [fold_left]. destruct (fold_left (live_mutation s) pre (lv_events l, [])) as [evs rets] eqn:Hf.
  cbn [live_mutation fst snd]. intros [= <-]. case_bool_decide as Hsize.
  { destruct Hok as [Hb Hkey Hdel Hver]. by split. }
  assert (∀ k e, <[re_id incoming := incoming]> evs !! k = Some e →
    e = incoming ∧ k = re_id e ∨ lv_events l !! k = Some e ∧ k = re_id e ∧ k ≠ re_id incoming ∧ ∀ cause, Retract k s cause ∉ pre) as Hin.
  { intros k e [[<- <-]|[Hne Hk]]%lookup_insert_Some; [by left|right].
    pose proof (live_retracts_lookup s pre (lv_events l, []) k e Hup) as Hr. rewrite Hf in Hr.
    destruct (Hr Hk) as [Hl Hno]. destruct (lo_keyed _ _ Hok _ _ Hl) as (<- & _). done. }
  pose proof (λ e Hl, live_survivor s l incoming _ _ pre e Hok Hs Hv Hadm Hpre Hl) as Hsur.
  split; cbn [lv_events].
  - lia.
  - intros k e Hk. destruct (Hin k e Hk) as [[-> ->]|(Hl & _)]; [done|by apply (lo_keyed _ _ Hok)].
  - intros d t [kd Hd]%elem_of_values [kt Ht]%elem_of_values.
    destruct (Hin _ _ Hd) as [[-> _]|(Hld & -> & Hnd & Hrd)], (Hin _ _ Ht) as [[-> _]|(Hlt & -> & Hnt & Hrt)].
    + destruct (decide (ev_kind (re_event incoming) = kind_event_deletion));
        [by apply deletes_deletion_target|by apply deletes_not_deletion].
    + by apply Hsur.
    + by apply Hsur.
    + apply (lo_deletions _ _ Hok); apply elem_of_values; eauto.
  - intros Hbind r1 r2 author kind identifier [k1 H1]%elem_of_values [k2 H2]%elem_of_values Hss Hk1 Hk2 Hc1 Hc2.
    destruct (Hin _ _ H1) as [[-> _]|(Hl1 & -> & Hn1 & Hr1)], (Hin _ _ H2) as [[-> _]|(Hl2 & -> & Hn2 & Hr2)]; [done| | |].
    + destruct (Hsur r2 Hl2 Hn2 Hr2) as (_ & _ & Hno). by destruct (Hno Hbind Hk1 Hk2 _ _ _ Hc1).
    + destruct (Hsur r1 Hl1 Hn1 Hr1) as (_ & _ & Hno). by destruct (Hno Hbind Hk2 Hk1 _ _ _ Hc2).
    + eapply (lo_versions _ _ Hok Hbind); try done; apply elem_of_values; eauto.
Qed.

(** *** Calls on one observation's content *)

Lemma live_default_ok s : live_ok s LiveState_default.
Proof.
  split; cbn.
  - rewrite map_size_empty. unfold LIVE_EVENTS_PER_SESSION. lia.
  - intros k e. by rewrite lookup_empty.
  - intros d t [k Hk]%elem_of_values. by rewrite lookup_empty in Hk.
  - intros _ r1 r2 ??? [k Hk]%elem_of_values. by rewrite lookup_empty in Hk.
Qed.

Lemma record_live_event_ok id incoming r :
  event_verify (re_event incoming) = None → registry_ok r → registry_ok (record_live_event id incoming r).
Proof.
  intros Hv Hok. apply registry_update_ok; [done|]. intros o Ho.
  assert (content_ok id o) as [Hd Hl] by (by apply (ro_content _ Hok)).
  destruct (ob_live o !! re_session incoming) as [l|] eqn:Hlive; [|by split].
  destruct (live_event incoming l) as [l'|] eqn:Hl'; [|by split]. split; [done|]. split; [done|]. cbn.
  intros s l1. destruct (decide (s = re_session incoming)) as [->|Hne]; [|rewrite lookup_insert_ne by done; apply Hl].
  rewrite lookup_insert_eq. intros [= <-]. destruct (Hl _ _ Hlive) as [? Hlok]. split; [done|]. by eapply live_event_ok.
Qed.

Lemma assign_content id q plan origin o kept :
  content_ok id o → (∀ s a, kept !! s = Some a → ∃ a', ob_relays o !! s = Some a' ∧ as_demand a = as_demand a' ∧
                            rq_session (as_evidence a) = rq_session (as_evidence a')) →
  let wanted := demand_for id ROOT q plan origin in
  content_ok id
    (ob_set_live (assign_live wanted (ob_live o))
       (ob_set_relays (fold_left (assign_one ROOT) (entries wanted) kept)
          (ob_set_route (q_access q) (revision_of origin plan) o))).
Proof.
  intros [Hd Hl] Hkept wanted. split; cbn.
  - intros s a. rewrite lookup_assigned. destruct (wanted !! s) as [[demand route]|] eqn:Hw.
    + intros [= <-]. unfold wanted, demand_for in Hw. rewrite lookup_fmap in Hw.
      apply fmap_Some in Hw as (x & _ & [= -> ->]). split; [done|].
      cbn. destruct (kept !! s) as [a|] eqn:Ha; [|done]. apply Hkept in Ha as (a' & Ha' & _ & He).
      cbn. rewrite He. by apply Hd.
    + intros (a' & Ha' & He & Hs)%Hkept. destruct (Hd _ _ Ha') as [Hi Hse]. split; [|congruence].
      by rewrite He.
  - intros s l. rewrite lookup_assign_live, lookup_assigned. destruct (wanted !! s) as [[demand route]|]; [|done].
    cbn. intros [= <-]. split; [eauto|]. destruct (ob_live o !! s) as [l|] eqn:Hs; cbn; [by apply Hl|].
    apply live_default_ok.
Qed.

Lemma assign_route_ok id q plan origin r : registry_ok r → registry_ok (assign_route id q plan origin r).
Proof.
  intros Hok. unfold assign_route, assign. destruct (rg_observations r !! id) as [o|] eqn:Ho; [|done].
  set (o' := ob_set_live _ _).
  assert (registry_ok (rg_put id o' r)) as Hput.
  { eapply content_changed; [done|done|done|]. apply assign_content; [by apply (ro_content _ Hok)|].
    intros s a. rewrite lookup_leave_relays. destruct (ob_relays o !! s) as [a'|]; [|done]. cbn.
    destruct (demand_for _ _ _ _ _ !! s); intros [= <-]; eauto. }
  assert (registry_ok (send_wake id (rg_revision (bump (rg_put id o' r))) (bump (rg_put id o' r)))) as Hw.
  { apply send_wake_ok; [|by apply bump_ok]. cbn. by rewrite lookup_insert_eq. }
  case_match; [by apply send_demand_changed_ok|done].
Qed.

(** *** Installation and retirement *)

Lemma default_ok : registry_ok Registry_default.
Proof.
  split; cbn.
  - intros id [o Ho]. by rewrite lookup_empty in Ho.
  - intros id. split; [set_solver|]. intros [? _]. lia.
  - set_solver.
  - split; intros *; by rewrite lookup_empty.
  - apply map_Forall_empty.
Qed.

Lemma new_content_ok id public active : content_ok id (new_observation public active).
Proof. split; cbn; intros *; by rewrite lookup_empty. Qed.

Lemma saturating_succ n : (n < u64_max)%N → saturating_add n 1 = (n + 1)%N.
Proof. unfold saturating_add. lia. Qed.

Lemma install_ok r : (rg_next r < u64_max)%N → registry_ok r → registry_ok (install r).2.
Proof.
  intros Hn [Hids Htok Hwk [Hr Hc Hch Ha] Hcon]. unfold install, install_for. cbn [snd].
  rewrite saturating_succ by done. set (id := (rg_next r + 1)%N).
  assert (rg_observations r !! id = None) as Hfresh.
  { destruct (rg_observations r !! id) eqn:Hi; [|done]. specialize (Hids id ltac:(eauto)). lia. }
  split; cbn.
  - intros j. destruct (decide (j = id)) as [->|Hj]; [lia|]. rewrite lookup_insert_ne by done.
    intros Hs%Hids. lia.
  - intros j. rewrite Htok. destruct (decide (j = id)) as [->|Hj].
    + rewrite lookup_insert_eq. split; [lia|by intros [_ ?]].
    + rewrite lookup_insert_ne by done. split; intros [? ?]; (split; [lia|done]).
  - intros j Hj. rewrite lookup_insert_ne; [by apply Hwk|]. apply Htok in Hj. lia.
  - split.
    + intros j o [[<- <-]|[_ Ho]]%lookup_insert_Some; [done|by apply Hr].
    + intros j o [[<- <-]|[Hj Ho]]%lookup_insert_Some; [done|]. intros Hp.
      destruct (Hc j o Ho Hp) as (? & ? & p & Hpp & ?). split_and!; [done..|]. exists p.
      rewrite lookup_insert_ne; [done|]. intros Heq. rewrite <- Heq in Hpp. congruence.
    + intros j o c [[<- <-]|[_ Ho]]%lookup_insert_Some Hcin; [set_solver|].
      destruct (Hch j o c Ho Hcin) as (? & oc & Hoc & ?). split; [done|]. exists oc.
      rewrite lookup_insert_ne; [done|]. intros Heq. rewrite <- Heq in Hoc. congruence.
    + intros j o c [[<- <-]|[_ Ho]]%lookup_insert_Some; [done|by apply (Ha j)].
  - apply map_Forall_insert_2; [apply new_content_ok|done].
Qed.

Ltac which j id p := destruct (decide (j = id)) as [->|?]; [|destruct (decide (j = p)) as [->|?]].

Lemma install_child_ok p r :
  (rg_next r < u64_max)%N → (∀ o, rg_observations r !! p = Some o → ob_public o = p) →
  registry_ok r → registry_ok (install_child p r).2.
Proof.
  intros Hn Hroot Hok. unfold install_child, install_for. case_bool_decide as Hp; [done|].
  destruct (rg_observations r !! p) as [o|] eqn:Ho; [clear Hp|done]. specialize (Hroot o eq_refl).
  destruct Hok as [Hids Htok Hwk [Hr Hc Hch Ha] Hcon]. cbn [snd default].
  rewrite saturating_succ, bool_decide_eq_false_2 by done. set (id := (rg_next r + 1)%N).
  assert (rg_observations r !! id = None) as Hfresh.
  { destruct (rg_observations r !! id) eqn:Hi; [|done]. specialize (Hids id ltac:(eauto)). lia. }
  assert (p ≠ id) as Hpid by congruence.
  set (o' := ob_set_family (ob_active_child o) ({[id]} ∪ ob_children o) o).
  assert (∀ j, alter (λ parent, ob_set_family (ob_active_child parent) ({[id]} ∪ ob_children parent) parent) p
      (<[id := new_observation p false]> (rg_observations r)) !! j =
    if decide (j = id) then Some (new_observation p false) else if decide (j = p) then Some o' else rg_observations r !! j) as Hl.
  { intros j. destruct (decide (j = p)) as [->|Hjp].
    - rewrite lookup_alter_eq, lookup_insert_ne, Ho by done. repeat case_decide; congruence || done.
    - rewrite lookup_alter_ne by done. rewrite lookup_insert. repeat case_decide; congruence || done. }
  split; cbn; [intros j|intros j|intros j Hj| |intros j x]; rewrite ?Hl.
  - which j id p; [lia| |]; intros Hs; [specialize (Hids p ltac:(eauto))|specialize (Hids j Hs)]; lia.
  - rewrite Htok. which j id p; [split; [lia|by intros [_ ?]]|rewrite Ho; split; by intros [_ ?]|].
    split; intros [? ?]; (split; [lia|done]).
  - rewrite lookup_insert_ne; [by apply Hwk|]. apply Htok in Hj. lia.
  - split; [intros j x|intros j x|intros j x c|intros j x c]; rewrite ?Hl.
    + which j id p; [intros [= <-] Heq; by destruct Hpid|intros [= <-] _; exact (Hr p o Ho Hroot)|apply Hr].
    + which j id p; [intros [= <-] _|intros [= <-] Hne; done|intros Hx Hne].
      * split_and!; [done..|]. exists o'. change (ob_public (new_observation p false)) with p. rewrite decide_False, decide_True by done.
        split_and!; [done|done|set_solver|]. split; [done|]. intros Hac. apply (Ha p o id Ho) in Hac.
        destruct (Hch p o id Ho Hac) as (_ & oc & Hoc & _). congruence.
      * destruct (Hc j x Hx Hne) as (? & ? & q & Hq & ? & ? & ?). split_and!; [done..|].
        destruct (decide (ob_public x = p)) as [Heq|Hnp].
        -- exists o'. rewrite ?Heq, decide_False by done. rewrite Heq in Hq.
           assert (q = o) as -> by congruence. cbn. split_and!; [done|congruence|set_solver|done].
        -- exists q. by rewrite decide_False by congruence.
    + which j id p; [intros [= <-]; set_solver|intros [= <-] Hin|intros Hx Hin].
      * cbn in Hin. apply elem_of_union in Hin as [->%elem_of_singleton|Hin].
        { split; [done|]. eexists. by rewrite decide_True. }
        destruct (Hch p o c Ho Hin) as (? & oc & Hoc & ?). split; [done|]. exists oc.
        rewrite decide_False by congruence. by rewrite decide_False.
      * destruct (Hch j x c Hx Hin) as (? & oc & Hoc & Hpub). split; [done|].
        destruct (decide (c = p)) as [->|?]; [congruence|]. exists oc.
        by rewrite decide_False by congruence.
    + which j id p; [by intros [= <-]|intros [= <-] Hac; apply (Ha p o c Ho) in Hac; set_solver|apply Ha].
  - which j id p; [intros [= <-]; apply new_content_ok|intros [= <-]|apply Hcon].
    destruct (Hcon _ _ Ho) as [Hd Hlv]. by split.
Qed.


(** The effect of an activation. *)
Record activated (p c : ObservationId) (o oc : Installed) (r r' : Registry) : Prop := {
  av_next : rg_next r' = rg_next r;
  av_observations : ∀ j, rg_observations r' !! j =
    if decide (j = p) then Some (ob_set_family (Some c)
        (match ob_active_child o with Some old => ob_children o ∖ {[old]} | None => ob_children o end) o)
    else if decide (j = c) then Some (ob_set_active true oc)
    else if decide (ob_active_child o = Some j) then None else rg_observations r !! j;
  av_cancelled : ∀ j, j ∈ rg_cancelled r' ↔ j ∈ rg_cancelled r ∨ ob_active_child o = Some j;
  av_wakes : ∀ j, rg_wakes r' !! j = if decide (ob_active_child o = Some j) then Some u64_max else rg_wakes r !! j
}.

Lemma activate_spec p c r :
  registry_ok r →
  (activate_child p c r = (false, r)) ∨
  ∃ o oc, rg_observations r !! p = Some o ∧ rg_observations r !! c = Some oc ∧
    ob_public oc = p ∧ ob_active oc = false ∧ c ∈ ob_children o ∧ p ≠ c ∧
    (activate_child p c r).1 = true ∧ activated p c o oc r (activate_child p c r).2.
Proof.
  intros Hok. pose proof (ro_family _ Hok) as [Hr Hc Hch Ha]. unfold activate_child.
  destruct (rg_observations r !! c) as [oc|] eqn:Hoc; [|by left].
  destruct (rg_observations r !! p) as [o|] eqn:Ho; [|by left].
  destruct (_ && _ && _) eqn:Hg; [|by left]. right. exists o, oc.
  apply andb_true_iff in Hg as [[Hpub Hact]%andb_true_iff Hin].
  apply bool_decide_eq_true in Hpub, Hin. apply negb_true_iff in Hact.
  destruct (Hch p o c Ho Hin) as (Hne & _).
  split_and!; [done..|congruence|done|]. cbn [snd].
  destruct (ob_active_child o) as [old|] eqn:Hold.
  2:{ split; cbn; [done| | |].
      - intros j. rewrite !lookup_alter, !lookup_insert.
        repeat case_decide; simplify_eq; rewrite ?Hoc, ?Hold; done.
      - intros j. naive_solver.
      - intros j. by rewrite Hold. }
  assert (c ≠ old) as Hco.
  { intros <-. destruct (Hc c oc Hoc) as (_ & _ & q & Hq & _ & _ & Hiff); [congruence|].
    rewrite Hpub, Ho in Hq. injection Hq as <-. destruct Hiff as [_ Hiff]. rewrite Hiff in Hact; done. }
  destruct (Hch p o old Ho (Ha _ _ _ Ho Hold)) as (Hpo & oo & Hoo & _).
  rewrite bool_decide_eq_true_2 by done. cbn [rg_observations rg_set_observations].
  assert (∀ j, alter (λ q, ob_set_family (ob_active_child q) (ob_children q ∖ {[old]}) q) p
      (alter (ob_set_active true) c (rg_observations (rg_put p (ob_set_family (Some c) (ob_children o) o) r))) !! j =
    if decide (j = p) then Some (ob_set_family (Some c) (ob_children o ∖ {[old]}) o)
    else if decide (j = c) then Some (ob_set_active true oc) else rg_observations r !! j) as Hl.
  { intros j. rewrite !lookup_alter. cbn. rewrite !lookup_insert. repeat case_decide; simplify_eq; rewrite ?Hoc; done. }
  rewrite Hl, decide_False, decide_False, Hoo by done.
  split; cbn [send_demand_changed bump retire rg_next rg_observations rg_cancelled rg_wakes rg_set_observations rg_put]; [done| | |].
  - intros j. rewrite lookup_delete, Hl. repeat case_decide; simplify_eq; rewrite ?Hold; done.
  - intros j. rewrite elem_of_union, elem_of_singleton. naive_solver.
  - intros j. rewrite lookup_insert. repeat case_decide; naive_solver.
Qed.

(** Observations taken out of the table: the tokens and channels of the rest. *)
Lemma removed_tokens (r r' : Registry) (gone : ObservationId → Prop) `{!∀ j, Decision (gone j)} :
  registry_ok r → rg_next r' = rg_next r →
  (∀ j, gone j → is_Some (rg_observations r !! j)) →
  (∀ j, is_Some (rg_observations r' !! j) ↔ is_Some (rg_observations r !! j) ∧ ¬ gone j) →
  (∀ j, j ∈ rg_cancelled r' ↔ j ∈ rg_cancelled r ∨ gone j) →
  (∀ j, rg_wakes r' !! j = if decide (gone j) then Some u64_max else rg_wakes r !! j) →
  (∀ id, is_Some (rg_observations r' !! id) → (1 ≤ id ≤ rg_next r')%N) ∧
  (∀ id, id ∈ rg_cancelled r' ↔ (1 ≤ id ≤ rg_next r')%N ∧ rg_observations r' !! id = None) ∧
  (∀ id, id ∈ rg_cancelled r' → rg_wakes r' !! id = Some u64_max).
Proof.
  intros [Hids Htok Hwk _ _] Hn Hg Hl Hc Hw. rewrite Hn. split_and!.
  - intros id [Hs _]%Hl. by apply Hids.
  - intros id. rewrite Hc, Htok, !eq_None_not_Some. split.
    + intros [[? Hno]|Hgone]; [split; [done|]; intros [? _]%Hl; done|].
      split; [by apply Hids, Hg|]. by intros [_ ?]%Hl.
    + intros [? Hno]. destruct (decide (gone id)); [by right|left]. split; [done|]. intros Hs. by apply Hno, Hl.
  - intros id. rewrite Hc, Hw. case_decide; [done|]. intros [?|?]; [by apply Hwk|done].
Qed.

Lemma content_same id o o' :
  ob_relays o' = ob_relays o → ob_live o' = ob_live o → content_ok id o → content_ok id o'.
Proof. intros Hr Hl [Hd Hlv]. split; rewrite ?Hr, ?Hl; done. Qed.

Lemma activate_child_ok p c r : registry_ok r → registry_ok (activate_child p c r).2.
Proof.
  intros Hok. destruct (activate_spec p c r Hok) as [->|(o & oc & Ho & Hoc & Hpub & Hact & Hin & Hpc & _ & [Hn Hl Hc Hw])];
    [done|].
  generalize dependent (activate_child p c r).2. intros r' Hn Hl Hc Hw.
  pose proof Hok as [_ _ _ [Fr Fc Fch Fa] Hcon].
  assert (∀ j, ob_active_child o = Some j → j ≠ p ∧ j ≠ c ∧ is_Some (rg_observations r !! j)) as Hold.
  { intros j Hj. destruct (Fch p o j Ho (Fa _ _ _ Ho Hj)) as (? & oo & Hoo & _). split_and!; [done| |eauto].
    intros ->. destruct (Fc c oc Hoc) as (_ & _ & q & Hq & _ & _ & Hiff); [congruence|].
    rewrite Hpub, Ho in Hq. injection Hq as <-. apply Hiff in Hj. congruence. }
  assert (ob_public o = p) as Hself.
  { destruct (Fc c oc Hoc) as (_ & _ & q & Hq & Hs & _); [congruence|]. rewrite Hpub, Ho in Hq. congruence. }
  destruct (removed_tokens r r' (λ j, ob_active_child o = Some j)) as (Hids & Htok & Hwk); try done.
  { intros j Hj. by apply Hold. }
  { intros j. rewrite Hl. which j p c; [| |case_decide; naive_solver];
      (split; [intros _|eauto]; split; [eauto|]; intros Hj%Hold; naive_solver). }
  split; [done..| |].
  - split.
    + intros j x. rewrite Hl. which j p c; [|by intros [= <-]|case_decide; [done|apply Fr]].
      intros [= <-] _. exact (Fr p o Ho Hself).
    + intros j x. rewrite Hl. which j p c; [| |case_decide; [done|]].
      * intros [= <-] Hne. by destruct Hne.
      * intros [= <-] Hne. destruct (Fc c oc Hoc Hne) as (? & ? & q & Hq & ? & ? & ?).
        split_and!; [done..|]. eexists. cbn. rewrite Hl, decide_True by done. split; [done|]. cbn.
        split_and!; [congruence| |done]. destruct (ob_active_child o) as [old|] eqn:Ha; [|done].
        apply elem_of_difference. split; [done|]. apply not_elem_of_singleton. destruct (Hold old eq_refl). naive_solver.
      * intros Hx Hne. destruct (Fc j x Hx Hne) as (Hnc & Hna & q & Hq & Hqs & Hjq & Hiff). split_and!; [done..|].
        destruct (decide (ob_public x = p)) as [Heq|Hnp].
        -- rewrite Heq in *. assert (q = o) as -> by congruence. eexists. rewrite Hl, decide_True by done.
           split; [done|]. cbn. split_and!; [done| |].
           ++ destruct (ob_active_child o) as [old|] eqn:Ha; [|done].
              apply elem_of_difference. split; [done|]. apply not_elem_of_singleton. naive_solver.
           ++ rewrite Hiff. split; intros ?; simplify_eq; done.
        -- exists q. rewrite Hl, decide_False by done. rewrite decide_False.
           2:{ intros Heq. rewrite Heq, Hoc in Hq. naive_solver. }
           rewrite decide_False; [done|]. intros Ha. destruct (Fch _ _ _ Ho (Fa _ _ _ Ho Ha)) as (_ & oo & Hoo & Hpo).
           rewrite Hoo in Hq. injection Hq as <-. congruence.
    + intros j x k. rewrite Hl. which j p c; [| |case_decide; [done|]].
      * intros [= <-]. cbn. intros Hk.
        assert (k ∈ ob_children o ∧ ob_active_child o ≠ Some k) as [Hko Hka] by (destruct (ob_active_child o); set_solver).
        destruct (Fch _ _ _ Ho Hko) as (? & ok & Hok' & ?). split; [done|].
        rewrite Hl, decide_False by done. case_decide; [subst k; eexists; split; [done|]; done|].
        rewrite decide_False by done. eauto.
      * intros [= <-]. cbn. destruct (Fc c oc Hoc) as (-> & _); [congruence|]. set_solver.
      * intros Hx Hk. destruct (Fch _ _ _ Hx Hk) as (? & ok & Hok' & Hpk). split; [done|].
        rewrite Hl. rewrite decide_False by (intros ->; congruence). rewrite decide_False by (intros ->; congruence).
        rewrite decide_False; [eauto|]. intros Ha. destruct (Fch _ _ _ Ho (Fa _ _ _ Ho Ha)) as (_ & oo & Hoo & Hpo).
        congruence.
    + intros j x k. rewrite Hl. which j p c; [| |case_decide; [done|]].
      * intros [= <-]. cbn. intros [= <-]. destruct (ob_active_child o) as [old|] eqn:Ha; [|done].
        apply elem_of_difference. split; [done|]. apply not_elem_of_singleton. destruct (Hold old eq_refl). naive_solver.
      * intros [= <-]. cbn. destruct (Fc c oc Hoc) as (_ & -> & _); [congruence|]. done.
      * apply Fa.
  - intros j x. rewrite Hl. which j p c; [intros [= <-]|intros [= <-]|case_decide; [done|apply Hcon]].
    + by apply (content_same _ o); [..|apply (Hcon _ _ Ho)].
    + by apply (content_same _ oc); [..|apply (Hcon _ _ Hoc)].
Qed.

(** The effect of a withdrawal: the observation and its children are gone, and
    a parent has forgotten the child. *)
Record withdrawn (id : ObservationId) (o : Installed) (r r' : Registry) : Prop := {
  wd_next : rg_next r' = rg_next r;
  wd_observations : ∀ j, rg_observations r' !! j =
    if decide (j = id ∨ j ∈ ob_children o) then None
    else if decide (ob_public o ≠ id ∧ j = ob_public o)
    then (λ p, ob_set_family (if decide (ob_active_child p = Some id) then None else ob_active_child p)
                 (ob_children p ∖ {[id]}) p) <$> rg_observations r !! j
    else rg_observations r !! j;
  wd_cancelled : ∀ j, j ∈ rg_cancelled r' ↔ j ∈ rg_cancelled r ∨ j = id ∨ j ∈ ob_children o;
  wd_wakes : ∀ j, rg_wakes r' !! j =
    if decide (j = id ∨ j ∈ ob_children o) then Some u64_max else rg_wakes r !! j
}.

Lemma withdraw_spec id o r :
  registry_ok r → rg_observations r !! id = Some o → withdrawn id o r (withdraw id r).
Proof.
  intros Hok Ho. pose proof (ro_family _ Hok) as [Fr Fc Fch Fa]. unfold withdraw. rewrite Ho.
  set (r1 := if bool_decide (ob_public o ≠ id) then _ else _).
  assert (∀ j, j ≠ id → rg_observations r1 !! j = if decide (ob_public o ≠ id ∧ j = ob_public o)
    then (λ p, ob_set_family (if decide (ob_active_child p = Some id) then None else ob_active_child p)
                 (ob_children p ∖ {[id]}) p) <$> rg_observations r !! j else rg_observations r !! j) as Hl1.
  { intros j Hj. unfold r1. case_bool_decide as Hp; cbn.
    - destruct (decide (j = ob_public o)) as [->|Hne].
      + rewrite lookup_alter_eq, lookup_delete_ne, decide_True by done.
        destruct (rg_observations r !! ob_public o); cbn; [|done]. do 2 f_equal. by case_bool_decide; case_decide.
      + rewrite lookup_alter_ne, lookup_delete_ne by done. by rewrite decide_False by tauto.
    - rewrite lookup_delete_ne by done. by rewrite decide_False by tauto. }
  assert (rg_next r1 = rg_next r ∧ rg_cancelled r1 = rg_cancelled r ∧ rg_wakes r1 = rg_wakes r) as (Hn1 & Hc1 & Hw1)
    by (unfold r1; by case_bool_decide).
  assert (∀ j, j ∈ ob_children o → j ≠ id ∧ is_Some (rg_observations (retire id r1) !! j)) as Hch.
  { intros j Hj. destruct (Fch id o j Ho Hj) as (Hne & oj & Hoj & _). split; [done|]. cbn.
    rewrite lookup_delete_ne, Hl1 by done. rewrite Hoj. destruct (decide (ob_public o ≠ id ∧ j = ob_public o)); by eexists. }
  change (fold_left _ (ordered_elements (ob_children o)) (retire id r1)) with
    (retire_all (ordered_elements (ob_children o)) (retire id r1)).
  destruct (retire_all_facts (ordered_elements (ob_children o)) (retire id r1)) as (Hn & Hc & Hw).
  split; cbn [send_demand_changed bump rg_next rg_observations rg_cancelled rg_wakes].
  - by rewrite Hn.
  - intros j. unfold retire_all. rewrite retired_lookup. cbn.
    destruct (decide (j = id)) as [->|Hj]; [rewrite (decide_True (P := id = id ∨ _)) by tauto; rewrite lookup_delete_eq; by destruct (decide (id ∈ _))|].
    rewrite lookup_delete_ne, Hl1 by done.
    destruct (decide (j ∈ ordered_elements (ob_children o))) as [Hin|Hin]; rewrite elem_of_ordered_elements in Hin.
    + by rewrite decide_True by tauto.
    + by rewrite (decide_False (P := j = id ∨ _)) by tauto.
  - intros j. rewrite Hc. cbn. rewrite Hc1, elem_of_ordered_elements. specialize (Hch j). set_solver.
  - intros j. rewrite Hw. destruct (decide (j ∈ ob_children o)) as [Hin|Hin].
    + destruct (Hch j Hin) as [Hne Hs].
      rewrite decide_True by (by rewrite elem_of_ordered_elements). by rewrite decide_True by tauto.
    + rewrite decide_False by (rewrite elem_of_ordered_elements; tauto). cbn. rewrite Hw1.
      destruct (decide (j = id)) as [->|Hne].
      * rewrite lookup_insert_eq. by rewrite decide_True by tauto.
      * rewrite lookup_insert_ne by done. by rewrite decide_False by tauto.
Qed.

Lemma empty_without (X : gset ObservationId) : ∅ ∖ X = ∅.
Proof. set_solver. Qed.

Lemma withdraw_ok id r : registry_ok r → registry_ok (withdraw id r).
Proof.
  intros Hok. destruct (rg_observations r !! id) as [o|] eqn:Ho; [|unfold withdraw; by rewrite Ho].
  destruct (withdraw_spec id o r Hok Ho) as [Hn Hl Hc Hw].
  generalize dependent (withdraw id r). intros r' Hn Hl Hc Hw.
  pose proof Hok as [_ _ _ [Fr Fc Fch Fa] Hcon].
  destruct (removed_tokens r r' (λ j, j = id ∨ j ∈ ob_children o)) as (Hids & Htok & Hwk); try done.
  { intros j [->|Hj]; [eauto|]. destruct (Fch id o j Ho Hj) as (_ & oj & ? & _). eauto. }
  { intros j. rewrite Hl. destruct (decide (j = id ∨ j ∈ ob_children o)); [split; [by intros []|tauto]|].
    destruct (decide (ob_public o ≠ id ∧ j = ob_public o)); [rewrite fmap_is_Some|]; tauto. }
  (* an observation that stays was there before, with at most the withdrawn child forgotten *)
  assert (∀ j x', rg_observations r' !! j = Some x' → ∃ x, rg_observations r !! j = Some x ∧ j ≠ id ∧ j ∉ ob_children o ∧
    ob_public x' = ob_public x ∧ ob_active x' = ob_active x ∧ ob_relays x' = ob_relays x ∧ ob_live x' = ob_live x ∧
    ob_children x' = (if decide (ob_public o ≠ id ∧ j = ob_public o) then ob_children x ∖ {[id]} else ob_children x) ∧
    ob_active_child x' = (if decide (ob_public o ≠ id ∧ j = ob_public o ∧ ob_active_child x = Some id) then None else ob_active_child x)) as Hb.
  { intros j x'. rewrite Hl. destruct (decide (j = id ∨ j ∈ ob_children o)) as [|Hg]; [done|].
    apply Decidable.not_or in Hg as [? ?]. destruct (decide (ob_public o ≠ id ∧ j = ob_public o)) as [Hp|Hp].
    - intros (x & Hx & ->)%fmap_Some. exists x. cbn. split_and!; try done. repeat case_decide; tauto || done.
    - intros Hx. exists x'. split_and!; try done. by rewrite decide_False by tauto. }
  assert (∀ j x, rg_observations r !! j = Some x → j ≠ id → j ∉ ob_children o → ∃ x', rg_observations r' !! j = Some x') as Hf.
  { intros j x Hx Hj Hc'. rewrite Hl, decide_False, Hx by tauto.
    destruct (decide (ob_public o ≠ id ∧ j = ob_public o)); by eexists. }
  split; [done..| |].
  - split.
    + intros j x' (x & Hx & _ & _ & Hp & -> & _)%Hb Heq. eapply Fr; [done|congruence].
    + intros j x' (x & Hx & Hj & Hjc & Hp & Hact & _ & _ & Hchil & Hac)%Hb Hne. rewrite Hp in *.
      destruct (Fc j x Hx Hne) as (Hnc & Hna & q & Hq & Hqs & Hjq & Hiff).
      assert (ob_children x' = ∅ ∧ ob_active_child x' = None) as [-> ->].
      { rewrite Hchil, Hac, Hnc, Hna. split; [|by destruct (decide (ob_public o ≠ id ∧ j = ob_public o ∧ None = Some id))].
        destruct (decide (ob_public o ≠ id ∧ j = ob_public o)); [apply empty_without|done]. }
      clear Hchil Hac. split_and!; [done..|].
      assert (ob_public x ≠ id) as Hpi.
      { intros Heq. rewrite Heq, Ho in Hq. injection Hq as ->. done. }
      assert (ob_public x ∉ ob_children o) as Hpc.
      { intros Hin. destruct (Fch _ _ _ Ho Hin) as (? & oq & Hoq & ?). rewrite Hoq in Hq. injection Hq as ->. congruence. }
      destruct (Hf _ _ Hq Hpi Hpc) as [q' Hq']. exists q'. split; [done|].
      destruct (Hb _ _ Hq') as (q0 & Hq0 & _ & _ & Hqp & _ & _ & _ & Hqc & Hqa). rewrite Hq in Hq0. injection Hq0 as <-.
      rewrite Hqp, Hqc, Hqa, Hact, Hiff. clear Hl Hw Hb Hqc Hqa. split; [done|]. split.
      { case_decide; [|done]. apply elem_of_difference. split; [done|]. by apply not_elem_of_singleton. }
      case_decide as Hd; [|done]. destruct Hd as (_ & _ & Hd). rewrite Hd. split; intros [= ]; done.
    + intros j x' k (x & Hx & Hj & Hjc & Hp & _ & _ & _ & Hchil & _)%Hb Hk.
      assert (k ∈ ob_children x ∧ k ≠ id) as [Hkx Hki].
      { rewrite Hchil in Hk. case_decide as Hd; [by apply elem_of_difference in Hk as [? ?%not_elem_of_singleton]|].
        split; [done|]. intros ->.
        destruct (Fch _ _ _ Hx Hk) as (? & oi & Hoi & Hpi). rewrite Ho in Hoi. injection Hoi as <-.
        apply Hd. split; [congruence|done]. }
      destruct (Fch _ _ _ Hx Hkx) as (? & ok & Hok' & Hpk). split; [done|].
      destruct (Hf _ _ Hok' Hki) as [ok' Hok1].
      { intros Hin. destruct (Fch _ _ _ Ho Hin) as (_ & ok2 & Hok2 & ?). rewrite Hok' in Hok2. injection Hok2 as <-. congruence. }
      exists ok'. split; [done|]. destruct (Hb _ _ Hok1) as (ok0 & Hok0 & _ & _ & -> & _). congruence.
    + intros j x' k (x & Hx & Hj & Hjc & Hp & _ & _ & _ & Hchil & Hac)%Hb. rewrite Hac. case_decide as Hd; [done|].
      intros Hk. pose proof (Fa _ _ _ Hx Hk) as Hin. rewrite Hchil. case_decide; [|done].
      apply elem_of_difference. split; [done|]. apply not_elem_of_singleton. intros ->. tauto.
  - intros j x' (x & Hx & _ & _ & _ & _ & Hre & Hli & _)%Hb. by apply (content_same _ x); [..|apply (Hcon _ _ Hx)].
Qed.

(** *** Every call *)

Lemma registry_call_ok c r : registry_ok r → call_allowed c r = true → registry_ok (registry_call c r).
Proof.
  intros Hok Hc. destruct c; cbn in *.
  - apply install_ok; [by apply bool_decide_eq_true in Hc|done].
  - apply andb_true_iff in Hc as [Hn%bool_decide_eq_true Hp]. apply install_child_ok; [done| |done].
    intros o Ho. rewrite Ho in Hp. by apply bool_decide_eq_true in Hp.
  - by apply activate_child_ok.
  - by apply withdraw_ok.
  - by apply assign_route_ok.
  - unfold attach_task. destruct (rg_observations r !! id) as [o|] eqn:Ho; [|done].
    eapply content_changed; [done..|]. apply (content_same _ o); [done..|]. by apply (ro_content _ Hok).
  - apply registry_update_ok; [done|]. intros o Ho. apply on_relay_ok; [done|]. by apply (ro_content _ Hok).
  - apply registry_update_ok; [done|]. intros o Ho. apply on_relay_ok; [done|]. by apply (ro_content _ Hok).
  - apply registry_update_ok; [done|]. intros o Ho. split; [done|]. apply (content_same _ o); [done..|]. by apply (ro_content _ Hok).
  - apply registry_update_ok; [done|]. intros o Ho. split; [done|]. apply (content_same _ o); [done..|]. by apply (ro_content _ Hok).
  - apply bool_decide_eq_true in Hc. by apply record_live_event_ok.
Qed.

Lemma registry_reachable_ok r : registry_reachable r → registry_ok r.
Proof. induction 1; [apply default_ok|by apply registry_call_ok]. Qed.
End invariant.

(** ** Demand *)

(** What one observation contributes at a relay. *)
Definition contributes (s : RelayUrl) (o : Installed) : option (RelayDemand * Authority) :=
  if ob_active o
  then a ← ob_relays o !! s;
       if is_withdrawn (rq_state (as_evidence a)) then None else Some (as_demand a, ob_access o)
  else None.

Lemma lookup_desired_of d o s :
  desired_of d o !! s =
  match contributes s o with Some item => Some (default [] (d !! s) ++ [item]) | None => d !! s end.
Proof.
  unfold desired_of, contributes. destruct (ob_active o); [|done].
  rewrite (fold_entries_lookup _ (λ k a old, if is_withdrawn (rq_state (as_evidence a)) then old
    else Some (default [] old ++ [(as_demand a, ob_access o)]))).
  - destruct (ob_relays o !! s) as [a|]; cbn; [|done]. by destruct (is_withdrawn _).
  - intros m k a i. destruct (is_withdrawn _).
    + case_decide; by subst.
    + unfold push_at. rewrite lookup_insert. repeat case_decide; congruence || done.
Qed.

Lemma desired_fold l d s :
  default [] (fold_left desired_of l d !! s) = default [] (d !! s) ++ omap (contributes s) l.
Proof.
  revert d. induction l as [|o l IH]; intros d; cbn [fold_left omap list_omap]; [by rewrite app_nil_r|].
  rewrite IH, lookup_desired_of. destruct (contributes s o) as [item|]; cbn; [|done].
  by rewrite <- app_assoc.
Qed.

Lemma desired_at_omap r s : desired_at r s = omap (contributes s) (values (rg_observations r)).
Proof. unfold desired_at, desired. rewrite desired_fold. by rewrite lookup_empty. Qed.

Lemma desired_some r s items : desired r !! s = Some items → items = desired_at r s ∧ items ≠ [].
Proof.
  intros Hs. unfold desired_at. rewrite Hs. split; [done|]. revert Hs. unfold desired.
  assert (∀ l d, (∀ x, d !! s = Some x → x ≠ []) → ∀ x, fold_left desired_of l d !! s = Some x → x ≠ []) as Hl.
  { induction l as [|o l IH]; intros d Hd x; cbn [fold_left]; [apply Hd|]. apply IH. intros y.
    rewrite lookup_desired_of. destruct (contributes s o); [|apply Hd]. intros [= <-]. by destruct (default [] _). }
  apply Hl. intros x. by rewrite lookup_empty.
Qed.

Lemma contributes_Some s o d access :
  contributes s o = Some (d, access) ↔
  ob_active o = true ∧ ob_access o = access ∧
  ∃ a, ob_relays o !! s = Some a ∧ is_withdrawn (rq_state (as_evidence a)) = false ∧ as_demand a = d.
Proof.
  unfold contributes. destruct (ob_active o); [|split; [done|by intros [? _]]].
  destruct (ob_relays o !! s) as [a|]; cbn; [|split; [done|by intros (_ & _ & a & ? & _)]].
  destruct (is_withdrawn (rq_state (as_evidence a))) eqn:Hw.
  - split; [done|]. intros (_ & _ & a' & [= <-] & Hn & _). congruence.
  - split; [intros [= <- <-]; eauto 10|]. by intros (_ & <- & a' & [= <-] & _ & <-).
Qed.

Section desired.
Context `{Nostr}.

Lemma elem_of_desired r s d access :
  registry_ok r →
  (d, access) ∈ desired_at r s ↔
  ∃ o, rg_observations r !! rd_owner d = Some o ∧ ob_active o = true ∧ ob_access o = access ∧
    ∃ a, ob_relays o !! s = Some a ∧ is_withdrawn (rq_state (as_evidence a)) = false ∧ as_demand a = d.
Proof.
  intros Hok. rewrite desired_at_omap, list_elem_of_omap. split.
  - intros (o & [id Ho]%elem_of_values & Hc). apply contributes_Some in Hc as (Hact & Hacc & a & Ha & Hw & Hd).
    destruct (co_demand _ _ (ro_content _ Hok _ _ Ho) _ _ Ha) as [Hid _]. rewrite Hd in Hid.
    injection Hid as Hown _. exists o. rewrite Hown. split_and!; [done..|]. by exists a.
  - intros (o & Ho & Hact & Hacc & a & Ha & Hw & Hd). exists o. split; [apply elem_of_values; eauto|].
    apply contributes_Some. split_and!; [done..|]. by exists a.
Qed.

Lemma contribution_owner r s id o item :
  registry_ok r → rg_observations r !! id = Some o → contributes s o = Some item →
  demand_id item.1 = mkDemandId id ROOT.
Proof.
  intros Hok Ho Hc. destruct item as [d access]. apply contributes_Some in Hc as (_ & _ & a & Ha & _ & <-).
  by apply (co_demand _ _ (ro_content _ Hok _ _ Ho) _ _ Ha).
Qed.

Lemma desired_distinct r s : registry_ok r → NoDup (demand_id ∘ fst <$> desired_at r s).
Proof.
  intros Hok. rewrite desired_at_omap. unfold values.
  pose proof (NoDup_keys (rg_observations r)) as Hnd. unfold keys in Hnd.
  assert (∀ p, p ∈ entries (rg_observations r) → rg_observations r !! p.1 = Some p.2) as Hin.
  { intros [k v] Hp. by apply elem_of_entries. }
  induction (entries (rg_observations r)) as [|[id o] l IH]; cbn; [constructor|]. cbn in Hnd.
  apply NoDup_cons in Hnd as [Hn Hnd].
  specialize (IH Hnd (λ p Hp, Hin p (list_elem_of_further _ _ _ Hp))).
  destruct (contributes s o) as [item|] eqn:Hc; [|done]. cbn. apply NoDup_cons. split; [|done].
  intros (item' & Heq & (o' & Ho'%list_elem_of_fmap & Hc')%list_elem_of_omap)%list_elem_of_fmap.
  destruct Ho' as ([id' x] & -> & Hp). cbn in *.
  pose proof (contribution_owner r s id o item Hok (Hin (id, o) (list_elem_of_here _ _)) Hc) as H1.
  pose proof (contribution_owner r s id' x item' Hok (Hin (id', x) (list_elem_of_further _ _ _ Hp)) Hc') as H2.
  apply Hn, list_elem_of_fmap. exists (id', x). split; [|done]. cbn. congruence.
Qed.

(** In every run of the registry its state is coherent: identities lie below
    the counter; the tokens that fired, and the channels that say so, are
    exactly those of observations no longer installed; children belong to one
    installed root and at most the one their root names is active; every
    observation's demand carries its own identity; and a live source is bounded,
    holds verified events of its own relay, no event next to its deletion and
    one version per replaceable coordinate. *)
Theorem registry_coherent r : registry_reachable r → registry_ok r.
Proof. apply registry_reachable_ok. Qed.

(** The demand aggregated for a relay is exactly the demand of the active
    observations whose evidence there is not withdrawn, each under the authority
    its own query requires: no demand is merged or repeated, no relay appears
    without demand, and of all generations of one current-account observation
    at most one contributes. *)
Theorem desired_exact r s :
  registry_reachable r →
  (∀ d access, (d, access) ∈ desired_at r s ↔
     ∃ o, rg_observations r !! rd_owner d = Some o ∧ ob_active o = true ∧ ob_access o = access ∧
       ∃ a, ob_relays o !! s = Some a ∧ is_withdrawn (rq_state (as_evidence a)) = false ∧ as_demand a = d) ∧
  NoDup (demand_id ∘ fst <$> desired_at r s) ∧
  (is_Some (desired r !! s) ↔ desired_at r s ≠ []) ∧
  (∀ d1 d2 a1 a2 o1 o2, (d1, a1) ∈ desired_at r s → (d2, a2) ∈ desired_at r s →
     rg_observations r !! rd_owner d1 = Some o1 → rg_observations r !! rd_owner d2 = Some o2 →
     ob_public o1 ≠ rd_owner d1 → ob_public o2 ≠ rd_owner d2 → ob_public o1 = ob_public o2 → d1 = d2).
Proof.
  intros Hok%registry_reachable_ok. split_and!.
  - intros d access. by apply elem_of_desired.
  - by apply desired_distinct.
  - split; [intros [l Hl]; destruct (desired_some _ _ _ Hl) as [<- ?]; done|].
    unfold desired_at. destruct (desired r !! s); [eauto|done].
  - intros d1 d2 a1 a2 o1 o2 Hd1 Hd2 Ho1 Ho2 Hn1 Hn2 Hp.
    pose proof (proj1 (elem_of_desired r s d1 a1 Hok) Hd1) as (x1 & Hx1 & Hact1 & _ & b1 & Hb1 & _ & <-).
    pose proof (proj1 (elem_of_desired r s d2 a2 Hok) Hd2) as (x2 & Hx2 & Hact2 & _ & b2 & Hb2 & _ & <-).
    rewrite Ho1 in Hx1. rewrite Ho2 in Hx2. injection Hx1 as <-. injection Hx2 as <-.
    destruct (fo_child _ (ro_family _ Hok) _ _ Ho1 Hn1) as (_ & _ & p1 & Hp1 & _ & _ & Hi1).
    destruct (fo_child _ (ro_family _ Hok) _ _ Ho2 Hn2) as (_ & _ & p2 & Hp2 & _ & _ & Hi2).
    rewrite Hp, Hp2 in Hp1. injection Hp1 as <-. apply Hi1 in Hact1. apply Hi2 in Hact2.
    rewrite Hact1 in Hact2. injection Hact2 as Heq. rewrite Heq in Ho1. congruence.
Qed.

(** A relay that left an observation's route and returns to it stays withdrawn:
    [assign] replaces its demand and route but not its state, so it is not
    desired again. *)
Theorem returned_relay_not_desired r id o s a q plan origin d access :
  registry_reachable r → rg_observations r !! id = Some o → ob_relays o !! s = Some a →
  is_withdrawn (rq_state (as_evidence a)) = true → is_Some (rp_destinations plan !! s) →
  (d, access) ∈ desired_at (assign_route id q plan origin r) s → rd_owner d ≠ id.
Proof.
  intros Hr Ho Ha Hw [p Hp] Hd <-. apply registry_reachable_ok in Hr as Hok.
  apply (elem_of_desired _ _ _ _ (assign_route_ok _ _ _ _ _ Hok)) in Hd as (o' & Ho' & _ & _ & a' & Ha' & Hw' & _).
  unfold assign_route, assign in Ho'. rewrite Ho in Ho'.
  set (o1 := ob_set_live _ _) in Ho'.
  assert (o' = o1) as ->.
  { revert Ho'. case_match; cbn; rewrite lookup_insert_eq; by intros [= <-]. }
  unfold o1 in Ha'. cbn in Ha'. rewrite lookup_assigned, lookup_leave_relays, Ha in Ha'.
  unfold demand_for in Ha'. rewrite lookup_fmap, Hp in Ha'. cbn in Ha'. injection Ha' as <-. cbn in Hw'. congruence.
Qed.
End desired.

(** ** Examples *)

Module ObservationsWitness.
Local Existing Instance Sample.hashed_nostr | 0.

Definition to (revision : N) (relays : list RelayUrl) : RoutePlan :=
  mkPlan revision (list_to_map ((λ s, (s, mkPlanned s ∅ ∅)) <$> relays)) ∅ ∅ [].

Definition run (calls : list RegistryCall) : Registry := fold_left (λ r c, registry_call c r) calls Registry_default.

Fixpoint allowed_from (r : Registry) (calls : list RegistryCall) : bool :=
  match calls with
  | [] => true
  | c :: calls => call_allowed c r && allowed_from (registry_call c r) calls
  end.

Lemma calls_run_reachable calls r :
  registry_reachable r → allowed_from r calls = true → registry_reachable (fold_left (λ r c, registry_call c r) calls r).
Proof.
  revert r. induction calls as [|c calls IH]; intros r Hr; [done|]. cbn.
  intros [Hc Hall]%andb_true_iff. apply IH; [by constructor|done].
Qed.

(** A root with demand at two relays and a following observation whose first
    child is current. *)
Definition calls : list RegistryCall :=
  [CallInstall; CallAssign 1 events (to 1 ["wss://a"; "wss://b"]) Automatic;
   CallInstall; CallInstallChild 2; CallAssign 3 events (to 1 ["wss://a"]) Explicit; CallActivate 2 3].

Lemma calls_reachable : registry_reachable (run calls).
Proof. apply calls_run_reachable; [constructor|by vm_compute]. Qed.

Lemma registry_coherent_witness : registry_ok (run calls) ∧ rg_next (run calls) = 3%N.
Proof. split; [|by vm_compute]. apply registry_coherent. exact calls_reachable. Defined.

Lemma desired_exact_witness :
  NoDup (demand_id ∘ fst <$> desired_at (run calls) "wss://a") ∧
  length (desired_at (run calls) "wss://a") = 2.
Proof.
  split; [|by vm_compute]. apply (desired_exact (run calls) "wss://a" calls_reachable).
Defined.

(** The relay [wss://b] leaves the route and returns. *)
Definition left_ : Registry := registry_call (CallAssign 1 events (to 2 ["wss://a"]) Automatic) (run calls).

Example returned_relay_example :
  desired_at (assign_route 1 events (to 3 ["wss://a"; "wss://b"]) Automatic left_) "wss://b" = [].
Proof. by vm_compute. Qed.
End ObservationsWitness.
