(* ===== verification/Ingest.v ===== *)
(** * Admission of relay events ([crates/fava-ingest])

    One function: an event a relay attributed to a subscription becomes a relay
    contribution when that subscription was accepted, the event verifies, and
    one of the accepted filters matches it.  [match_event] stands for
    [Filter::match_event] of the [nostr] crate with default options. *)

From S2P Require Import Prelude Nostr Relay State.

Inductive RelayIngestError :=
| WrongSubscription
| UnauthorizedSubscription
| OffFilter
| InvalidEvent (text : string).

Section ingest.
Context `{Nostr} (match_event : Filter → Event → bool).

Definition admit_subscription_event (session : RelayUrl) (authority : Authority)
    (accepted : gmap string (list Filter)) (attributed : string) (event : Event) (now : Timestamp)
    : result RelayIngestError RelayEvent :=
  filters ← ok_or (accepted !! attributed) WrongSubscription;
  _ ← ensure (negb (bool_decide (filters = []))) UnauthorizedSubscription;
  _ ← match event_verify event with Some text => Err (InvalidEvent text) | None => Ok tt end;
  _ ← ensure (existsb (λ filter, match_event filter event) filters) OffFilter;
  Ok (RelayEvent_new event session authority now).

(** An event is admitted exactly when it is attributed to an accepted
    subscription, verifies and matches one of that subscription's filters, and
    what is admitted is that event with the relay, authority and time of its
    arrival; every other event is refused with the first reason that applies. *)
Lemma admission_exact session authority accepted attributed event now :
  match admit_subscription_event session authority accepted attributed event now with
  | Ok r => (∃ filters filter, accepted !! attributed = Some filters ∧ filter ∈ filters ∧ match_event filter event = true) ∧
            event_verify event = None ∧ r = RelayEvent_new event session authority now
  | Err WrongSubscription => accepted !! attributed = None
  | Err UnauthorizedSubscription => accepted !! attributed = Some []
  | Err (InvalidEvent text) => event_verify event = Some text
  | Err OffFilter => event_verify event = None ∧
      ∃ filters, accepted !! attributed = Some filters ∧ ∀ filter, filter ∈ filters → match_event filter event = false
  end.
Proof.
  unfold admit_subscription_event. destruct (accepted !! attributed) as [filters|]; cbn; [|done].
  case_bool_decide as Hnil; cbn; [by rewrite Hnil|]. destruct (event_verify event) as [text|]; cbn; [done|].
  destruct (existsb _ filters) eqn:Hm; cbn.
  - apply existsb_elem in Hm as (filter & Hin & Hf). split; [by exists filters, filter|done].
  - split; [done|]. exists filters. split; [done|]. by apply existsb_not_elem.
Qed.
End ingest.
