(* ===== verification/ObserveEngine.v ===== *)
(** * The reconciliation owner ([crates/fava-observe])

    One owner per engine turns the demand of the registry into relay work: slots,
    one per relay connection ([slot.rs]), reconciliation ([engine.rs]), provider
    completions ([completions.rs]), the baseline a plan leaves ([plan.rs]) and
    the facts published ([facts.rs], [diagnostics.rs]).

    A handler of the owner is one definition on the state [Engine], which holds
    the registry, the event cache and the diagnostics the handler calls; a
    handler is not interleaved with other threads' calls on them.  Spawned work
    ([operations.rs]) is the log [en_operations]; its completions come back as
    values of [Report].  A session is named by the number of its lease, and
    [net] gives the connection it shows when a handler reads it; [now] is the
    clock of the handler.  Cancellation tokens are numbers: [en_cancelled] are the
    slots' tokens that were cancelled, [en_dropped] the tokens of attended
    subscriptions that were; the latter are children of their slot's token, so
    they also end with it.

    The planner is a parameter (the trait [SubscriptionPlanner]); debug forms
    and error texts are the class [EngineText]. *)

From S2P Require Import Prelude Nostr Relay State Write Query EventCache.
From S2P Require Import Transport Subscriptions Diagnostics Observations Ingest.

(** What the engine uses of derived formatting. *)
Class EngineText := {
  shortfall_debug : ShortfallReason → string;
  completeness_debug : EoseCompleteness → string;
  plan_error_text : SubscriptionPlanError → string;
  conformance_text : PlanConformanceError → string
}.

(** The coverage methods of the trait [EventCache]; a refusal is ignored here. *)
Class CoverageCache (S : Type) := {
  keep_coverage : SourceCoverage → S → S;
  kept_coverage : RelayUrl → Filter → S → option SourceCoverage
}.

Definition rounds_text (e : RoundsExhausted) : string :=
  match e with
  | ExhaustedAuthorities => "round authority space is exhausted"
  | ExhaustedSequence => "round sequence is exhausted"
  end.

Definition plan_revision_text (e : PlanRevisionExhausted) : string :=
  match e with
  | PlanAuthorities => "plan-revision authority space is exhausted"
  | PlanSequence => "plan-revision sequence is exhausted"
  end.

#[global] Instance PlanRevision_eq_dec : EqDecision PlanRevision.
Proof. solve_decision. Defined.

(** ** Slots ([slot.rs]) *)

Record Slot := mkSlot {
  sl_generation : Round;
  sl_cancel : nat;
  sl_lease : option nat;
  sl_session : option nat;
  sl_requested : Authority;
  sl_constraints : RelayReadConstraints;
  sl_installed : gmap string InstalledSubscription;
  sl_attending : gmap string nat;
  sl_completeness : gmap string EoseCompleteness;
  sl_settled : gmap string bool;
  sl_revision : option PlanRevision;
  sl_armed : bool;
  sl_busy : bool;
  sl_state : RelaySessionState;
  sl_reconnects : N
}.

Definition Slot_new (cancel : nat) (generation : Round) (requested : Authority) : Slot :=
  mkSlot generation cancel None None requested unknown ∅ ∅ ∅ ∅ None false false SessionConnecting 0.

Definition sl_set_held lease session busy state s :=
  mkSlot (sl_generation s) (sl_cancel s) lease session (sl_requested s) (sl_constraints s) (sl_installed s)
    (sl_attending s) (sl_completeness s) (sl_settled s) (sl_revision s) (sl_armed s) busy state (sl_reconnects s).
Definition sl_set_constraints v s :=
  mkSlot (sl_generation s) (sl_cancel s) (sl_lease s) (sl_session s) (sl_requested s) v (sl_installed s)
    (sl_attending s) (sl_completeness s) (sl_settled s) (sl_revision s) (sl_armed s) (sl_busy s) (sl_state s)
    (sl_reconnects s).
Definition sl_set_installed installed completeness settled s :=
  mkSlot (sl_generation s) (sl_cancel s) (sl_lease s) (sl_session s) (sl_requested s) (sl_constraints s) installed
    (sl_attending s) completeness settled (sl_revision s) (sl_armed s) (sl_busy s) (sl_state s) (sl_reconnects s).
Definition sl_set_attending v s :=
  mkSlot (sl_generation s) (sl_cancel s) (sl_lease s) (sl_session s) (sl_requested s) (sl_constraints s)
    (sl_installed s) v (sl_completeness s) (sl_settled s) (sl_revision s) (sl_armed s) (sl_busy s) (sl_state s)
    (sl_reconnects s).
Definition sl_set_revision v s :=
  mkSlot (sl_generation s) (sl_cancel s) (sl_lease s) (sl_session s) (sl_requested s) (sl_constraints s)
    (sl_installed s) (sl_attending s) (sl_completeness s) (sl_settled s) v (sl_armed s) (sl_busy s) (sl_state s)
    (sl_reconnects s).
Definition sl_set_armed v s :=
  mkSlot (sl_generation s) (sl_cancel s) (sl_lease s) (sl_session s) (sl_requested s) (sl_constraints s)
    (sl_installed s) (sl_attending s) (sl_completeness s) (sl_settled s) (sl_revision s) v (sl_busy s) (sl_state s)
    (sl_reconnects s).
Definition sl_set_state v s :=
  mkSlot (sl_generation s) (sl_cancel s) (sl_lease s) (sl_session s) (sl_requested s) (sl_constraints s)
    (sl_installed s) (sl_attending s) (sl_completeness s) (sl_settled s) (sl_revision s) (sl_armed s) (sl_busy s) v
    (sl_reconnects s).
Definition sl_set_reconnects v s :=
  mkSlot (sl_generation s) (sl_cancel s) (sl_lease s) (sl_session s) (sl_requested s) (sl_constraints s)
    (sl_installed s) (sl_attending s) (sl_completeness s) (sl_settled s) (sl_revision s) (sl_armed s) (sl_busy s)
    (sl_state s) v.

(** [Slot::advance]; [cancel] is the fresh child of the root token, and the
    engine cancels the old one. *)
Definition advance (cancel : nat) (generation : Round) (s : Slot) : Slot :=
  mkSlot generation cancel (sl_lease s) (sl_session s) (sl_requested s) (sl_constraints s) ∅ ∅ ∅ ∅ (sl_revision s)
    false false (sl_state s) (sl_reconnects s).

Definition slot_can_serve (net : nat → Connection) (authority : Authority) (s : Slot) : bool :=
  match sl_session s with
  | None => bool_decide (sl_requested s = authority)
  | Some session => can_serve (cn_authentication (net session)) authority
  end.

(** [admission::identities] is [demand_ids]. *)
Definition slot_covers (s : Slot) (d : RelayDemand) : bool :=
  existsb (λ entry, bool_decide (demand_id d ∈ is_serves entry)
                    || existsb (λ filter, filter_covers filter (rd_filter d)) (is_filters entry))
    (values (sl_installed s)).

Definition uncovered (s : Slot) (demand : list RelayDemand) : list RelayDemand :=
  List.filter (λ d, negb (slot_covers s d)) demand.

Definition orphaned (s : Slot) (demand : list RelayDemand) : bool :=
  existsb (λ entry, forallb (λ held, negb (bool_decide (held ∈ demand_ids demand))) (ordered_elements (is_serves entry)))
    (values (sl_installed s)).

(** [sort_unstable] and [dedup]. *)
Definition slot_owners (s : Slot) (id : string) : list ObservationId :=
  match sl_installed s !! id with
  | Some entry => ordered_elements (list_to_set (di_owner <$> ordered_elements (is_serves entry)) : gset N)
  | None => []
  end.

Definition serving (s : Slot) (d : DemandId) : option string :=
  fst <$> List.find (λ '(_, entry), bool_decide (d ∈ is_serves entry)) (entries (sl_installed s)).

(** [unwrap_or_default]: the default of [EoseCompleteness] is [Proven]. *)
Definition proves_completeness (s : Slot) (id : string) : EoseCompleteness := default Proven (sl_completeness s !! id).

(** ** The baseline a plan leaves ([plan.rs]) *)

(** [entries] in the order pushed; a later entry replaces an earlier one. *)
Definition from_entries (l : list (string * InstalledSubscription)) : gmap string InstalledSubscription :=
  fold_left (λ m '(id, entry), <[id := entry]> m) l ∅.

Definition accepted_retained (baseline : gmap string InstalledSubscription) (plan : SubscriptionPlan)
    (closed : gset string) : list (string * InstalledSubscription) :=
  omap (λ '(id, current),
    if bool_decide (id ∈ closed) then None
    else attributed ← sp_attribution plan !! id; Some (id, mkInstalled (is_filters current) (at_serves attributed)))
    (entries baseline).

Fixpoint accepted_opened (open : list PlannedSubscription) (opened : list (option string))
    : list (string * InstalledSubscription) :=
  match open, opened with
  | candidate :: open, Some id :: opened =>
      (id, mkInstalled (ps_filters candidate) (ps_serves candidate)) :: accepted_opened open opened
  | _ :: open, None :: opened => accepted_opened open opened
  | _, _ => []
  end.

Definition accepted (baseline : gmap string InstalledSubscription) (plan : SubscriptionPlan)
    (opened : list (option string)) (closed : gset string) : gmap string InstalledSubscription :=
  from_entries (accepted_retained baseline plan closed ++ accepted_opened (sp_open plan) opened).

(** ** Spawned work ([operations.rs]) and its reports *)

Inductive Operation :=
| OpAcquire (relay : RelayUrl) (authority : Authority) (generation : Round) (cancel : nat)
| OpListen (relay : RelayUrl) (generation : Round) (session : nat) (cancel : nat)
| OpFetchConstraints (relay : RelayUrl) (generation : Round) (cancel : nat)
| OpArm (relay : RelayUrl) (generation : Round)
| OpInstall (relay : RelayUrl) (generation : Round) (revision : PlanRevision) (session : nat)
    (plan : SubscriptionPlan) (cancel : nat)
| OpRelease (lease : nat) (generation : Round).

Inductive Report :=
| Acquired (relay : RelayUrl) (generation : Round) (lease : nat)
| Refused (relay : RelayUrl) (generation : Round) (detail : BoundedText)
| ReportInstalled (relay : RelayUrl) (generation : Round) (revision : PlanRevision) (plan : SubscriptionPlan)
    (opened : list (option string)) (attending : list (string * nat)) (closed : gset string)
| Flush (relay : RelayUrl) (generation : Round)
| ReportConnection (relay : RelayUrl) (generation : Round) (state : Connection)
| ConnectionReplaced (relay : RelayUrl) (generation : Round)
| ConnectionEnded
| Carried (relay : RelayUrl) (generation : Round) (subscription : string) (item : SubscriptionItem)
| ReportConstraints (relay : RelayUrl) (generation : Round) (constraints : RelayReadConstraints).

(** ** The owner ([engine.rs]) *)

Record Engine (S : Type) := mkEngine {
  en_registry : Registry;
  en_cache : S;
  en_diagnostics : Diagnostics;
  en_slots : gmap RelayUrl (list Slot);
  en_rounds : RoundIssuer;
  en_plan_revisions : PlanRevisionIssuer;
  en_next_token : nat;
  en_cancelled : gset nat;
  en_dropped : gset nat;
  en_operations : list Operation
}.
Arguments mkEngine {S}.
Arguments en_registry {S}.
Arguments en_cache {S}.
Arguments en_diagnostics {S}.
Arguments en_slots {S}.
Arguments en_rounds {S}.
Arguments en_plan_revisions {S}.
Arguments en_next_token {S}.
Arguments en_cancelled {S}.
Arguments en_dropped {S}.
Arguments en_operations {S}.

Section updates.
Context {S : Type}.
Implicit Types e : Engine S.

Definition on_registry (f : Registry → Registry) e : Engine S :=
  mkEngine (f (en_registry e)) (en_cache e) (en_diagnostics e) (en_slots e) (en_rounds e) (en_plan_revisions e)
    (en_next_token e) (en_cancelled e) (en_dropped e) (en_operations e).
Definition on_cache (f : S → S) e : Engine S :=
  mkEngine (en_registry e) (f (en_cache e)) (en_diagnostics e) (en_slots e) (en_rounds e) (en_plan_revisions e)
    (en_next_token e) (en_cancelled e) (en_dropped e) (en_operations e).
Definition on_diagnostics (f : Diagnostics → Diagnostics) e : Engine S :=
  mkEngine (en_registry e) (en_cache e) (f (en_diagnostics e)) (en_slots e) (en_rounds e) (en_plan_revisions e)
    (en_next_token e) (en_cancelled e) (en_dropped e) (en_operations e).
Definition en_set_slots v e : Engine S :=
  mkEngine (en_registry e) (en_cache e) (en_diagnostics e) v (en_rounds e) (en_plan_revisions e) (en_next_token e)
    (en_cancelled e) (en_dropped e) (en_operations e).
Definition en_set_rounds v e : Engine S :=
  mkEngine (en_registry e) (en_cache e) (en_diagnostics e) (en_slots e) v (en_plan_revisions e) (en_next_token e)
    (en_cancelled e) (en_dropped e) (en_operations e).
Definition en_set_plan_revisions v e : Engine S :=
  mkEngine (en_registry e) (en_cache e) (en_diagnostics e) (en_slots e) (en_rounds e) v (en_next_token e)
    (en_cancelled e) (en_dropped e) (en_operations e).
Definition spawn (op : Operation) e : Engine S :=
  mkEngine (en_registry e) (en_cache e) (en_diagnostics e) (en_slots e) (en_rounds e) (en_plan_revisions e)
    (en_next_token e) (en_cancelled e) (en_dropped e) (en_operations e ++ [op]).
Definition cancel_token (token : nat) e : Engine S :=
  mkEngine (en_registry e) (en_cache e) (en_diagnostics e) (en_slots e) (en_rounds e) (en_plan_revisions e)
    (en_next_token e) ({[token]} ∪ en_cancelled e) (en_dropped e) (en_operations e).
Definition drop_handle (token : nat) e : Engine S :=
  mkEngine (en_registry e) (en_cache e) (en_diagnostics e) (en_slots e) (en_rounds e) (en_plan_revisions e)
    (en_next_token e) (en_cancelled e) ({[token]} ∪ en_dropped e) (en_operations e).
(** [root.child()]. *)
Definition fresh_token e : nat * Engine S :=
  (en_next_token e,
   mkEngine (en_registry e) (en_cache e) (en_diagnostics e) (en_slots e) (en_rounds e) (en_plan_revisions e)
     (1 + en_next_token e) (en_cancelled e) (en_dropped e) (en_operations e)).

(** [slot_index_by_generation], [slot] and [slot_mut]. *)
Definition slot_index_by_generation (slots : gmap RelayUrl (list Slot)) (relay : RelayUrl) (generation : Round)
    : option nat :=
  bucket ← slots !! relay; position (λ s, bool_decide (sl_generation s = generation)) bucket.

Definition slot (slots : gmap RelayUrl (list Slot)) (relay : RelayUrl) (generation : Round) : option Slot :=
  index ← slot_index_by_generation slots relay generation; bucket ← slots !! relay; bucket !! index.

Definition slot_mut (relay : RelayUrl) (generation : Round) (f : Slot → Slot) e : Engine S :=
  match slot_index_by_generation (en_slots e) relay generation with
  | Some index => en_set_slots (alter (alter f index) relay (en_slots e)) e
  | None => e
  end.

Definition slot_index_for (net : nat → Connection) (slots : gmap RelayUrl (list Slot)) (relay : RelayUrl)
    (authority : Authority) : option nat :=
  bucket ← slots !! relay; position (slot_can_serve net authority) bucket.

Definition next_round e : result RoundsExhausted Round * Engine S :=
  let '(r, rounds) := issuer_allocate (en_rounds e) in (r, en_set_rounds rounds e).
Definition next_revision e : result PlanRevisionExhausted PlanRevision * Engine S :=
  let '(r, revisions) := plan_issuer_allocate (en_plan_revisions e) in (r, en_set_plan_revisions revisions e).

(** [demand_for_slot]: what is attached here, and what is routed here. *)
Definition attached (s : Slot) : gset DemandId := ⋃ (is_serves <$> values (sl_installed s)).

Definition demand_for_slot (net : nat → Connection) (relay : RelayUrl) (generation : Round) e : list RelayDemand :=
  match slot (en_slots e) relay generation with
  | None => []
  | Some s =>
      fst <$> List.filter (λ '(item, authority),
        bool_decide (demand_id item ∈ attached s)
        || match slot_index_for net (en_slots e) relay authority ≫= (λ i, bucket ← en_slots e !! relay; bucket !! i) with
           | Some candidate => bool_decide (sl_generation candidate = generation)
           | None => false
           end) (desired_at (en_registry e) relay)
  end.
End updates.

(** ** Published facts ([facts.rs], [diagnostics.rs]) *)

Section facts.
Context {S : Type} `{!EngineText}.
Implicit Types e : Engine S.

Definition publish_states (relay : RelayUrl) (demand : list RelayDemand) (generation : option Round)
    (state : RelaySourceState) e : Engine S :=
  fold_left (λ e item, on_registry (record_state (rd_owner item) relay generation state) e) demand e.

Definition publish_state_for_relay (net : nat → Connection) (relay : RelayUrl) (generation : Round)
    (state : RelaySourceState) e : Engine S :=
  publish_states relay (demand_for_slot net relay generation e) (Some generation) state e.

Definition publish_owners (relay : RelayUrl) (owners : list ObservationId) (generation : Round)
    (state : RelaySourceState) e : Engine S :=
  fold_left (λ e owner, on_registry (record_state owner relay (Some generation) state) e) owners e.

Definition publish_for_subscription (relay : RelayUrl) (generation : Round) (id : string) (state : RelaySourceState) e
    : Engine S :=
  match slot (en_slots e) relay generation with
  | None => e
  | Some s => publish_owners relay (slot_owners s id) generation state e
  end.

Definition revision_sequence (s : Slot) : N := match sl_revision s with Some r => rev_sequence r | None => 0%N end.

Definition publish_plan (relay : RelayUrl) (generation : Round) (cohort : list RelayDemand)
    (planned : option SubscriptionPlan) e : Engine S :=
  match slot (en_slots e) relay generation with
  | None => e
  | Some s =>
      let revision := match planned with Some plan => rev_sequence (sp_revision plan) | None => revision_sequence s end in
      fold_left (λ e item,
        let id := demand_id item in
        let shared_with := match serving s id with Some wire => slot_owners s wire | None => [] end in
        let shortfall :=
          plan ← planned;
          entry ← List.find (λ entry, bool_decide (sf_demand entry = id)) (sp_shortfalls plan);
          Some (mkRelayShortfall [rd_branch item] (BoundedText_new (shortfall_debug (sf_reason entry)))) in
        on_registry (record_plan (rd_owner item) (mkDesiredPlan revision [relay] (size (sl_installed s))))
          (on_registry (record_sharing (rd_owner item) relay revision shared_with shortfall) e)) cohort e
  end.

Definition publish_shortfall (now : Timestamp) (relay : RelayUrl) (generation : Round) (id : string)
    (completeness : EoseCompleteness) e : Engine S :=
  match slot (en_slots e) relay generation with
  | None => e
  | Some s =>
      let detail := BoundedText_new (completeness_debug completeness) in
      fold_left (λ e owner,
        let branches := match registry_demand_id owner relay (en_registry e) with
                        | Some d => [di_branch d] | None => [] end in
        on_registry (record_state owner relay (Some generation) (StateOpen now))
          (on_registry (record_sharing owner relay (revision_sequence s) (slot_owners s id)
                          (Some (mkRelayShortfall branches detail))) e)) (slot_owners s id) e
  end.

Definition wire_fact (id : string) (serves : list ObservationId) (stored_events_complete : bool)
    : WireSubscriptionDiagnostic := mkWireFact id serves stored_events_complete None.

Definition slot_authentication (net : nat → Connection) (s : Slot) : Authentication :=
  match sl_session s with Some session => cn_authentication (net session) | None => unoffered end.

Definition publish_relay_diagnostic (net : nat → Connection) (relay : RelayUrl) (generation : Round) e : Engine S :=
  match slot (en_slots e) relay generation with
  | None => e
  | Some s =>
      on_diagnostics (diagnostics_relay
        (mkRelayFact relay (Some (sl_generation s)) (sl_state s) (if sl_lease s then 1 else 0)
           ((λ id, wire_fact id (public_ids (slot_owners s id) (en_registry e)) (default false (sl_settled s !! id)))
              <$> keys (sl_installed s))
           (sl_reconnects s) (slot_authentication net s))) e
  end.

Definition refused_plan (relay : RelayUrl) (detail : BoundedText) : RelayDiagnostic :=
  mkRelayFact relay None (SessionUnreachable detail) 0 [] 0 unoffered.

(** A 64-bit [usize] holds every [u64]. *)
Definition inbound_loss (relay : RelayUrl) (dropped : N) : LimitDiagnostic :=
  mkLimitFact InboundQueue 0 dropped (ScopeRelay relay).

(** [str::contains]. *)
Definition str_contains (hay needle : string) : bool :=
  match String.index 0 needle hay with Some _ => true | None => false end.

Definition failure_state (detail : BoundedText) : RelaySourceState :=
  if str_contains (bt_text detail) "EstablishTimeout" then TimedOut DeadlineEstablish 0
  else if str_contains (bt_text detail) "IdleTimeout" then TimedOut DeadlineIdle 0
  else StateDisconnected detail.

Definition publish_owner_refusal (relay : RelayUrl) (demand : list RelayDemand) (generation : option Round)
    (error : string) : Engine S → Engine S :=
  publish_states relay demand generation (OwnerRefused (BoundedText_new error)).
End facts.

(** ** Operations of the owner *)

Section owner.
Context {S : Type} `{!Nostr} `{!EventCache S} `{!CoverageCache S} `{!EngineText}.
Context (planner : RelayUrl → list RelayDemand → RelayReadConstraints → gmap string InstalledSubscription →
                   PlanRevision → result SubscriptionPlanError SubscriptionPlan).
Context (match_event : Filter → Event → bool).
Implicit Types e : Engine S.

Definition arm (relay : RelayUrl) (generation : Round) : Engine S → Engine S := spawn (OpArm relay generation).

Definition release_lease (lease : nat) (generation : Round) : Engine S → Engine S := spawn (OpRelease lease generation).

Definition teardown_slot (s : Slot) e : Engine S :=
  let e := cancel_token (sl_cancel s) e in
  match sl_lease s with Some lease => release_lease lease (sl_generation s) e | None => e end.

Definition release_relay (relay : RelayUrl) e : Engine S :=
  match en_slots e !! relay with
  | None => e
  | Some bucket =>
      on_diagnostics (forget_relay relay)
        (fold_left (λ e s, teardown_slot s e) bucket (en_set_slots (delete relay (en_slots e)) e))
  end.

Definition release_slot (relay : RelayUrl) (generation : Round) e : Engine S :=
  match en_slots e !! relay with
  | None => e
  | Some bucket =>
      match position (λ s, bool_decide (sl_generation s = generation)) bucket with
      | None => e
      | Some index =>
          match bucket !! index with
          | None => e
          | Some s =>
              let rest := delete index bucket in
              teardown_slot s
                (match rest with
                 | [] => on_diagnostics (forget_relay relay) (en_set_slots (delete relay (en_slots e)) e)
                 | _ => en_set_slots (<[relay := rest]> (en_slots e)) e
                 end)
          end
      end
  end.

(** [attach]: the loop over demand, on the entries in wire-id order; the last
    component are the demands credited with a replay that already ended. *)
Fixpoint attach_entry (d : RelayDemand) (l : list (string * InstalledSubscription))
    : option (string * list (string * InstalledSubscription)) :=
  match l with
  | [] => None
  | (id, entry) :: l =>
      if existsb (λ filter, filter_covers filter (rd_filter d)) (is_filters entry)
      then Some (id, (id, mkInstalled (is_filters entry) ({[demand_id d]} ∪ is_serves entry)) :: l)
      else match attach_entry d l with
           | Some (wire, l) => Some (wire, (id, entry) :: l)
           | None => None
           end
  end.

Definition attach_item (s : Slot) (w : list (string * InstalledSubscription) * bool * list DemandId) (d : RelayDemand)
    : list (string * InstalledSubscription) * bool * list DemandId :=
  let '(l, changed, credited) := w in
  if existsb (λ '(_, entry), bool_decide (demand_id d ∈ is_serves entry)) l then w
  else match attach_entry d l with
       | None => w
       | Some (wire, l) =>
           (l, true, if default false (sl_settled s !! wire) then credited ++ [demand_id d] else credited)
       end.

Definition attach (net : nat → Connection) (now : Timestamp) (relay : RelayUrl) (generation : Round)
    (demand : list RelayDemand) e : Engine S :=
  match slot (en_slots e) relay generation with
  | None => e
  | Some s =>
      let '(l, changed, credited) := fold_left (attach_item s) demand (entries (sl_installed s), false, []) in
      if changed
      then
        let e := slot_mut relay generation
                   (λ s, sl_set_installed (from_entries l) (sl_completeness s) (sl_settled s) s) e in
        let e := publish_plan relay generation demand None e in
        let e := fold_left (λ e id, on_registry
                   (record_state (di_owner id) relay (Some generation) (StoredEventsComplete now)) e) credited e in
        publish_relay_diagnostic net relay generation e
      else e
  end.

(** [establish]: the answer is not used by its caller. *)
Definition establish (net : nat → Connection) (relay : RelayUrl) (authority : Authority) (demand : list RelayDemand) e
    : Engine S :=
  let '(index, e) :=
    match slot_index_for net (en_slots e) relay authority with
    | Some index => (Some index, e)
    | None =>
        let '(round, e) := next_round e in
        match round with
        | Err error => (None, publish_owner_refusal relay demand None (rounds_text error) e)
        | Ok generation =>
            let '(token, e) := fresh_token e in
            let bucket := default [] (en_slots e !! relay) in
            (Some (length bucket),
             en_set_slots (<[relay := bucket ++ [Slot_new token generation authority]]> (en_slots e)) e)
        end
    end in
  match index ≫= (λ i, bucket ← en_slots e !! relay; bucket !! i) with
  | None => e
  | Some s =>
      if sl_busy s || bool_decide (is_Some (sl_session s)) then e
      else
        let generation := sl_generation s in
        let e := slot_mut relay generation (sl_set_held (sl_lease s) None true SessionConnecting) e in
        let e := spawn (OpAcquire relay authority generation (sl_cancel s)) e in
        publish_states relay demand (Some generation) StateConnecting e
  end.

Definition record_installed (relay : RelayUrl) (generation : Round) (planned : SubscriptionPlan)
    (opened : list (option string)) (closed : gset string) : Engine S → Engine S :=
  slot_mut relay generation (λ s,
    let installed := accepted (sl_installed s) planned opened closed in
    let live := filter (λ kv : string * bool, is_Some (installed !! kv.1)) (sl_settled s) in
    let known := filter (λ kv : string * EoseCompleteness, is_Some (installed !! kv.1)) (sl_completeness s) in
    sl_set_installed installed known live s).

(** Completeness of every retained subscription, then the diff. *)
Definition execute (net : nat → Connection) (relay : RelayUrl) (generation : Round) (demand : list RelayDemand)
    (session : nat) (planned : SubscriptionPlan) e : Engine S :=
  let e := slot_mut relay generation
             (λ s, sl_set_installed (sl_installed s)
                     ((at_completeness <$> sp_attribution planned) ∪ sl_completeness s) (sl_settled s) s) e in
  if is_noop planned
  then publish_relay_diagnostic net relay generation
         (publish_plan relay generation demand (Some planned) (record_installed relay generation planned [] ∅ e))
  else match slot (en_slots e) relay generation with
       | None => e
       | Some s =>
           publish_relay_diagnostic net relay generation
             (spawn (OpInstall relay generation (sp_revision planned) session planned (sl_cancel s)) e)
       end.

(** The planner's answer, as far as it passes [validate_plan]. *)
Definition checked_plan (relay : RelayUrl) (demand : list RelayDemand) (constraints : RelayReadConstraints)
    (installed : gmap string InstalledSubscription) (revision : PlanRevision) : result string SubscriptionPlan :=
  match planner relay demand constraints installed revision with
  | Err error => Err (plan_error_text error)
  | Ok plan =>
      match validate_plan relay demand constraints installed plan with
      | Ok _ => Ok plan
      | Err error => Err (plan_error_text (Encoding (BoundedText_new (conformance_text error))))
      end
  end.

(** [flush]; its answer is always [false]. *)
Definition flush (net : nat → Connection) (relay : RelayUrl) (generation : Round) e : Engine S :=
  let demand := demand_for_slot net relay generation e in
  match slot (en_slots e) relay generation with
  | None => e
  | Some s =>
      let e := slot_mut relay generation (sl_set_armed false) e in
      if bool_decide (uncovered s demand = []) && negb (orphaned s demand) then e
      else match sl_session s with
           | None => arm relay generation (slot_mut relay generation (sl_set_armed true) e)
           | Some session =>
               let '(revision, e) := next_revision e in
               match revision with
               | Err error => publish_owner_refusal relay demand (Some generation) (plan_revision_text error) e
               | Ok revision =>
                   let e := slot_mut relay generation (sl_set_revision (Some revision)) e in
                   match checked_plan relay demand (sl_constraints s) (sl_installed s) revision with
                   | Ok planned => execute net relay generation demand session planned e
                   | Err text =>
                       on_diagnostics (diagnostics_relay (refused_plan relay (BoundedText_new text))) e
                   end
               end
           end
  end.

(** One slot of one relay, within [reconcile]. *)
Definition reconcile_slot (net : nat → Connection) (now : Timestamp) (relay : RelayUrl) e (generation : Round)
    : Engine S :=
  let demand := demand_for_slot net relay generation e in
  if bool_decide (demand = []) then release_slot relay generation e
  else
    let e := attach net now relay generation demand e in
    match slot (en_slots e) relay generation with
    | None => e
    | Some s =>
        if orphaned s demand then flush net relay generation e
        else if bool_decide (uncovered s demand = []) || sl_armed s then e
        else arm relay generation (slot_mut relay generation (sl_set_armed true) e)
    end.

Definition establish_missing (net : nat → Connection) (relay : RelayUrl) e (item : RelayDemand * Authority) : Engine S :=
  if bool_decide (slot_index_for net (en_slots e) relay item.2 = None)
  then establish net relay item.2 [item.1] e else e.

Definition reconcile_relay (net : nat → Connection) (now : Timestamp) e
    (entry : RelayUrl * list (RelayDemand * Authority)) : Engine S :=
  let '(relay, items) := entry in
  let e := fold_left (establish_missing net relay) items e in
  fold_left (reconcile_slot net now relay) (sl_generation <$> default [] (en_slots e !! relay)) e.

Definition reconcile (net : nat → Connection) (now : Timestamp) e : Engine S :=
  let wanted := desired (en_registry e) in
  let vacated := List.filter (λ relay, bool_decide (wanted !! relay = None)) (keys (en_slots e)) in
  fold_left (reconcile_relay net now) (entries wanted) (fold_left (λ e relay, release_relay relay e) vacated e).

(** ** Completions ([completions.rs]) *)

Definition acquired (net : nat → Connection) (relay : RelayUrl) (generation : Round) (lease : nat) e : bool * Engine S :=
  match slot (en_slots e) relay generation with
  | None => (false, release_lease lease generation e)
  | Some s =>
      let rearm := negb (sl_armed s) in
      let e := slot_mut relay generation
                 (λ s, sl_set_armed true (sl_set_held (Some lease) (Some lease) false SessionOpen s)) e in
      let e := spawn (OpListen relay generation lease (sl_cancel s)) e in
      let e := spawn (OpFetchConstraints relay generation (sl_cancel s)) e in
      let e := if rearm then arm relay generation e else e in
      (false, publish_relay_diagnostic net relay generation e)
  end.

(** [advance] on a slot of the engine. *)
Definition advance_slot (relay : RelayUrl) (old : Slot) (generation : Round) (f : Slot → Slot) e : Engine S :=
  let '(token, e) := fresh_token (cancel_token (sl_cancel old) e) in
  slot_mut relay (sl_generation old) (λ s, advance token generation (f s)) e.

Definition refused (net : nat → Connection) (relay : RelayUrl) (generation : Round) (detail : BoundedText) e
    : bool * Engine S :=
  let '(next, e) := next_round e in
  match next with
  | Err error =>
      (false, publish_owner_refusal relay (demand_for_slot net relay generation e) (Some generation) (rounds_text error) e)
  | Ok next_generation =>
      match slot (en_slots e) relay generation with
      | None => (false, e)
      | Some s =>
          let e := advance_slot relay s next_generation
                     (sl_set_held None None (sl_busy s) (SessionUnreachable detail)) e in
          let e := match sl_lease s with Some lease => release_lease lease generation e | None => e end in
          let e := publish_state_for_relay net relay next_generation (failure_state detail) e in
          (true, publish_relay_diagnostic net relay next_generation e)
      end
  end.

(** [attending] inserted, then the closed ones removed and cancelled. *)
Definition installed (net : nat → Connection) (now : Timestamp) (relay : RelayUrl) (generation : Round)
    (revision : PlanRevision) (plan : SubscriptionPlan) (opened : list (option string))
    (attending : list (string * nat)) (closed : gset string) e : Engine S :=
  match slot (en_slots e) relay generation with
  | None => e
  | Some s =>
      if bool_decide (sl_revision s ≠ Some revision) then e
      else
        let held := fold_left (λ m '(id, token), <[id := token]> m) attending (sl_attending s) in
        let tokens := omap (λ id, held !! id) (ordered_elements closed) in
        let e := slot_mut relay generation
                   (sl_set_attending (filter (λ kv : string * nat, kv.1 ∉ closed) held)) e in
        let e := fold_left (λ e token, drop_handle token e) tokens e in
        let e := record_installed relay generation plan opened closed e in
        let demand := demand_for_slot net relay generation e in
        let e := publish_plan relay generation demand (Some plan) e in
        match slot (en_slots e) relay generation with
        | None => e
        | Some s =>
            let owners := omap id opened ≫= slot_owners s in
            publish_relay_diagnostic net relay generation
              (publish_owners relay owners generation (StateOpen now) e)
        end
  end.

Definition connection (net : nat → Connection) (now : Timestamp) (relay : RelayUrl) (generation : Round)
    (state : Connection) e : Engine S :=
  match slot (en_slots e) relay generation with
  | None => e
  | Some s =>
      let e :=
        match sl_requested s, progress (cn_authentication state) with
        | As _, Requested challenge =>
            publish_relay_diagnostic net relay generation
              (publish_state_for_relay net relay generation (AuthenticationRequired (Requested challenge) now) e)
        | _, _ => e
        end in
      match cn_connectivity state with
      | Disconnected detail spent =>
          let '(slot_state, source) :=
            match spent with
            | None => (SessionReconnecting detail, StateDisconnected detail)
            | Some attempts => (SessionUnreachable detail, Unreachable attempts detail)
            end in
          let e := slot_mut relay generation (sl_set_state slot_state) e in
          publish_relay_diagnostic net relay generation (publish_state_for_relay net relay generation source e)
      | _ => e
      end
  end.

Definition reconnected (net : nat → Connection) (relay : RelayUrl) (generation : Round) e : Engine S :=
  let '(next, e) := next_round e in
  match next with
  | Err error =>
      publish_owner_refusal relay (demand_for_slot net relay generation e) (Some generation) (rounds_text error) e
  | Ok next =>
      match slot (en_slots e) relay generation with
      | None => e
      | Some s =>
          let e := advance_slot relay s next
                     (λ s, sl_set_state SessionOpen (sl_set_reconnects (saturating_add (sl_reconnects s) 1) s)) e in
          let e := match sl_session s, slot (en_slots e) relay next with
                   | Some session, Some s' => spawn (OpListen relay next session (sl_cancel s')) e
                   | _, _ => e
                   end in
          let demand := demand_for_slot net relay next e in
          match slot (en_slots e) relay next with
          | None => e
          | Some s =>
              let armed := negb (bool_decide (uncovered s demand = [])) in
              let e := slot_mut relay next (sl_set_armed armed) e in
              let e := if armed then arm relay next e else e in
              publish_relay_diagnostic net relay next (publish_state_for_relay net relay next StateConnecting e)
          end
      end
  end.

Definition current_authority (net : nat → Connection) (relay : RelayUrl) (generation : Round) e : Authority :=
  match slot (en_slots e) relay generation ≫= sl_session with
  | None => Unauthenticated
  | Some session => match established (cn_authentication (net session)) with
                    | Some account => As account | None => Unauthenticated end
  end.

Definition carried_event (net : nat → Connection) (now : Timestamp) (relay : RelayUrl) (generation : Round)
    (subscription : string) (event : Event) e : Engine S :=
  match slot (en_slots e) relay generation ≫= (λ s, sl_installed s !! subscription) with
  | None => e
  | Some entry =>
      match admit_subscription_event match_event relay (current_authority net relay generation e)
              {[subscription := is_filters entry]} subscription event now with
      | Err _ => e
      | Ok relay_event =>
          let owners := match slot (en_slots e) relay generation with Some s => slot_owners s subscription | None => [] end in
          let e := fold_left (λ e owner, on_registry (record_live_event owner relay_event) e) owners e in
          on_cache (λ c, (admit_event c relay_event (re_observed_at relay_event)).2) e
      end
  end.

Definition stored_complete (net : nat → Connection) (now : Timestamp) (relay : RelayUrl) (generation : Round)
    (id : string) e : Engine S :=
  let proves := match slot (en_slots e) relay generation with Some s => proves_completeness s id | None => Proven end in
  let e := slot_mut relay generation
             (λ s, sl_set_installed (sl_installed s) (sl_completeness s) (<[id := true]> (sl_settled s)) s) e in
  let e :=
    match proves with
    | Proven =>
        let owners := match slot (en_slots e) relay generation ≫= (λ s, sl_installed s !! id) with
                      | Some entry => di_owner <$> ordered_elements (is_serves entry)
                      | None => []
                      end in
        let e := fold_left (λ e owner,
                   match filter_for owner relay (en_registry e) with
                   | Some f => on_cache (keep_coverage (mkCoverage relay f now)) e
                   | None => e
                   end) owners e in
        publish_for_subscription relay generation id (StoredEventsComplete now) e
    | _ => publish_shortfall now relay generation id proves e
    end in
  publish_relay_diagnostic net relay generation e.

Definition subscription_refused (net : nat → Connection) (now : Timestamp) (relay : RelayUrl) (generation : Round)
    (id : string) (message : BoundedText) e : Engine S :=
  publish_relay_diagnostic net relay generation
    (publish_for_subscription relay generation id (StateRefused message now) e).

Definition carried (net : nat → Connection) (now : Timestamp) (relay : RelayUrl) (generation : Round)
    (subscription : string) (item : SubscriptionItem) e : Engine S :=
  match slot (en_slots e) relay generation with
  | None => e
  | Some _ =>
      match item with
      | ItemEvent event => carried_event net now relay generation subscription event e
      | ItemEndOfStoredEvents => stored_complete net now relay generation subscription e
      | ItemClosed reason => subscription_refused net now relay generation subscription reason e
      | ItemLost dropped => on_diagnostics (diagnostics_limit (inbound_loss relay dropped)) e
      | ItemEnded _ => e
      end
  end.

(** [accept]: whether reconciliation is due, and the new state. *)
Definition accept (net : nat → Connection) (now : Timestamp) (report : Report) e : bool * Engine S :=
  match report with
  | Acquired relay generation lease => acquired net relay generation lease e
  | Refused relay generation detail => refused net relay generation detail e
  | ReportInstalled relay generation revision plan opened attending closed =>
      (false, installed net now relay generation revision plan opened attending closed e)
  | Flush relay generation => (false, flush net relay generation e)
  | ReportConnection relay generation state => (false, connection net now relay generation state e)
  | ConnectionReplaced relay generation =>
      (false, match slot (en_slots e) relay generation with
              | None => e | Some _ => reconnected net relay generation e end)
  | ConnectionEnded => (false, e)
  | Carried relay generation subscription item => (false, carried net now relay generation subscription item e)
  | ReportConstraints relay generation constraints =>
      (false, slot_mut relay generation (sl_set_constraints constraints) e)
  end.

(** One turn of [Engine::run] on a report. *)
Definition engine_turn (net : nat → Connection) (now : Timestamp) (report : Report) e : Engine S :=
  let '(dirty, e) := accept net now report e in
  if dirty then reconcile net now e else e.

(** [Engine::start]. *)
Definition engine_start (registry : Registry) (cache : S) (diagnostics : Diagnostics) (authority plan_authority : N)
    : option (Engine S) :=
  match (issuer_new authority).1, (plan_issuer_new plan_authority).1 with
  | Ok rounds, Ok revisions => Some (mkEngine registry cache diagnostics ∅ rounds revisions 1 ∅ ∅ [])
  | _, _ => None
  end.

(** ** Runs: calls of other threads on the registry, reconciliations a changed
    demand asks for, and reports in any order and with any content *)

Inductive engine_step : Engine S → Engine S → Prop :=
| step_registry e c :
    call_allowed c (en_registry e) = true → engine_step e (on_registry (registry_call c) e)
| step_reconcile net now e : engine_step e (reconcile net now e)
| step_report net now report e : engine_step e (engine_turn net now report e).

Inductive engine_reachable : Engine S → Prop :=
| engine_started registry cache diagnostics authority plan_authority e :
    registry_reachable registry →
    engine_start registry cache diagnostics authority plan_authority = Some e → engine_reachable e
| engine_stepped e e' : engine_reachable e → engine_step e e' → engine_reachable e'.
End owner.
