(* ===== verification/ObserveEngineProps.v ===== *)
(** * The invariant of the reconciliation owner

    Lookup of slots by generation, names that no two slots share, names the owner
    issued, and the invariant [engine_ok]: every operation of the owner keeps it,
    so every reachable state has it.  Steps that only publish form the preorder
    [quiet]. *)

From S2P Require Import Prelude Nostr Relay State Write Query EventCache.
From S2P Require Import Transport Subscriptions Diagnostics Observations ObservationsProps Ingest ObserveEngine.

(** ** Slots by generation *)

(** A fact of every slot. *)
Definition every_slot (slots : gmap RelayUrl (list Slot)) (P : RelayUrl → Slot → Prop) : Prop :=
  ∀ relay bucket s, slots !! relay = Some bucket → s ∈ bucket → P relay s.

Lemma every_slot_mono (P Q : RelayUrl → Slot → Prop) slots :
  (∀ relay s, P relay s → Q relay s) → every_slot slots P → every_slot slots Q.
Proof. intros HPQ HP relay bucket s Hb Hs. apply HPQ. by eapply HP. Qed.

Lemma position_lookup {T} (same : T → bool) (l : list T) i :
  position same l = Some i → ∃ x, l !! i = Some x ∧ same x = true.
Proof.
  revert i. induction l as [|x l IH]; intros i; [done|]. cbn. destruct (same x) eqn:Hs; [intros [= <-]; eauto|].
  intros (i' & Hi & ->)%fmap_Some. by apply IH.
Qed.

Lemma position_absent {T} (same : T → bool) (l : list T) :
  position same l = None ↔ ∀ x, x ∈ l → same x = false.
Proof.
  induction l as [|x l IH]; cbn; [split; [intros _ x; set_solver|done]|].
  destruct (same x) eqn:Hs.
  - split; [done|]. intros Hall. rewrite Hall in Hs by set_solver. done.
  - rewrite fmap_None, IH. split; [intros Hall y [->|?]%elem_of_cons; auto|]. intros Hall y Hy. apply Hall. set_solver.
Qed.

Lemma slot_Some slots relay generation s :
  slot slots relay generation = Some s →
  ∃ bucket i, slots !! relay = Some bucket ∧ bucket !! i = Some s ∧ sl_generation s = generation ∧
    slot_index_by_generation slots relay generation = Some i.
Proof.
  unfold slot, slot_index_by_generation. destruct (slots !! relay) as [bucket|]; cbn; [|done].
  destruct (position _ bucket) as [i|] eqn:Hp; cbn; [|done]. intros Hs.
  apply position_lookup in Hp as (x & Hx & Hg%bool_decide_eq_true). assert (x = s) as -> by congruence. eauto 10.
Qed.

Lemma slot_index_Some slots relay generation i :
  slot_index_by_generation slots relay generation = Some i →
  ∃ bucket s, slots !! relay = Some bucket ∧ bucket !! i = Some s ∧ sl_generation s = generation ∧
    slot slots relay generation = Some s.
Proof.
  unfold slot. intros Hi. pose proof Hi as Hi'. unfold slot_index_by_generation in Hi.
  destruct (slots !! relay) as [bucket|]; cbn in Hi; [|done].
  apply position_lookup in Hi as (x & Hx & Hg%bool_decide_eq_true). rewrite Hi'. cbn. eauto 10.
Qed.

Lemma slot_None slots relay generation :
  slot slots relay generation = None ↔ slot_index_by_generation slots relay generation = None.
Proof.
  split.
  - intros Hs. destruct (slot_index_by_generation _ _ _) as [i|] eqn:Hi; [|done].
    apply slot_index_Some in Hi as (? & ? & ? & ? & ? & ?). congruence.
  - intros Hi. unfold slot. by rewrite Hi.
Qed.

Lemma slot_elem slots relay generation s P :
  every_slot slots P → slot slots relay generation = Some s → P relay s ∧ sl_generation s = generation.
Proof.
  intros HP (bucket & i & Hb & Hs & Hg & _)%slot_Some. split; [|done]. eapply HP; [done|]. by eapply list_elem_of_lookup_2.
Qed.

Section slots.
Context {S : Type}.
Implicit Types e : Engine S.

Lemma slot_mut_absent relay generation f e : slot (en_slots e) relay generation = None → slot_mut relay generation f e = e.
Proof. intros Hs. unfold slot_mut. by apply slot_None in Hs as ->. Qed.

Lemma slot_mut_every relay generation f e (P : RelayUrl → Slot → Prop) :
  every_slot (en_slots e) P → (∀ s, slot (en_slots e) relay generation = Some s → P relay s → P relay (f s)) →
  every_slot (en_slots (slot_mut relay generation f e)) P.
Proof.
  intros HP Hf. unfold slot_mut. destruct (slot_index_by_generation _ _ _) as [i|] eqn:Hi; [|done]. cbn.
  apply slot_index_Some in Hi as (bucket & x & Hb & Hx & Hg & Hs).
  intros r b s. destruct (decide (r = relay)) as [->|Hne].
  - rewrite lookup_alter_eq, Hb. intros [= <-] Hin. apply list_elem_of_lookup in Hin as [j Hj].
    rewrite list_lookup_alter in Hj. destruct (decide (i = j)) as [<-|Hij]; rewrite ?Hx in Hj; cbn in Hj.
    + injection Hj as <-. apply Hf; [done|]. eapply HP; [done|]. by eapply list_elem_of_lookup_2.
    + eapply HP; [done|]. by eapply list_elem_of_lookup_2.
  - rewrite lookup_alter_ne by done. apply HP.
Qed.

Lemma slot_mut_lookup relay generation f e r :
  en_slots (slot_mut relay generation f e) !! r =
  if decide (r = relay) then
    match slot_index_by_generation (en_slots e) relay generation with
    | Some i => alter f i <$> en_slots e !! r
    | None => en_slots e !! r
    end
  else en_slots e !! r.
Proof.
  unfold slot_mut. destruct (slot_index_by_generation _ _ _) as [i|] eqn:Hi; cbn; [|by case_decide].
  rewrite lookup_alter. repeat case_decide; subst; congruence || done.
Qed.
End slots.

(** ** Names that no two slots share *)

Definition at_ (slots : gmap RelayUrl (list Slot)) (relay : RelayUrl) (i : nat) (s : Slot) : Prop :=
  ∃ bucket, slots !! relay = Some bucket ∧ bucket !! i = Some s.

Definition distinct_by {K} (key : Slot → K) (slots : gmap RelayUrl (list Slot)) : Prop :=
  ∀ r1 i1 s1 r2 i2 s2, at_ slots r1 i1 s1 → at_ slots r2 i2 s2 → key s1 = key s2 → r1 = r2 ∧ i1 = i2.

Lemma every_at slots P relay i s : every_slot slots P → at_ slots relay i s → P relay s.
Proof. intros HP (bucket & Hb & Hs). eapply HP; [done|]. by eapply list_elem_of_lookup_2. Qed.

Lemma at_fun slots relay i s s' : at_ slots relay i s → at_ slots relay i s' → s = s'.
Proof. intros (b & Hb & Hs) (b' & Hb' & Hs'). congruence. Qed.

(** Every slot of [slots'] is an old slot at an injective place, or the new one. *)
Lemma distinct_embed {K} (key : Slot → K) slots slots' (old : RelayUrl → nat → option nat) :
  distinct_by key slots →
  (∀ r i s', at_ slots' r i s' → match old r i with Some j => ∃ s, at_ slots r j s ∧ key s = key s' | None =>
       ∀ r2 i2 s2, at_ slots r2 i2 s2 → key s2 ≠ key s' end) →
  (∀ r i1 i2 j, old r i1 = Some j → old r i2 = Some j → i1 = i2) →
  (∀ r1 i1 r2 i2, old r1 i1 = None → old r2 i2 = None → r1 = r2 ∧ i1 = i2) →
  distinct_by key slots'.
Proof.
  intros Hd Hold Hinj Hone r1 i1 s1 r2 i2 s2 H1 H2 Hk.
  pose proof (Hold _ _ _ H1) as Ho1. pose proof (Hold _ _ _ H2) as Ho2.
  destruct (old r1 i1) as [j1|] eqn:E1, (old r2 i2) as [j2|] eqn:E2.
  - destruct Ho1 as (x1 & Hx1 & K1), Ho2 as (x2 & Hx2 & K2).
    destruct (Hd _ _ _ _ _ _ Hx1 Hx2) as [-> ->]; [congruence|]. split; [done|]. by eapply Hinj.
  - destruct Ho1 as (x1 & Hx1 & K1). destruct (Ho2 _ _ _ Hx1). congruence.
  - destruct Ho2 as (x2 & Hx2 & K2). destruct (Ho1 _ _ _ Hx2). congruence.
  - by apply Hone.
Qed.

Lemma at_slot_mut {S} relay generation f (e : Engine S) r i s' :
  at_ (en_slots (slot_mut relay generation f e)) r i s' →
  (r = relay ∧ slot_index_by_generation (en_slots e) relay generation = Some i ∧
     ∃ s, at_ (en_slots e) r i s ∧ s' = f s) ∨
  (¬ (r = relay ∧ slot_index_by_generation (en_slots e) relay generation = Some i) ∧ at_ (en_slots e) r i s').
Proof.
  intros (b & Hb & Hs). rewrite slot_mut_lookup in Hb. destruct (decide (r = relay)) as [->|Hr].
  - destruct (slot_index_by_generation (en_slots e) relay generation) as [j|] eqn:Hj.
    + apply fmap_Some in Hb as (b0 & Hb0 & ->). rewrite list_lookup_alter in Hs.
      destruct (decide (j = i)) as [->|Hne].
      * apply fmap_Some in Hs as (s & Hs & ->). left. split_and!; [done..|]. exists s. split; [|done]. by exists b0.
      * right. split; [naive_solver|]. by exists b0.
    + right. split; [naive_solver|]. by exists b.
  - right. split; [naive_solver|]. by exists b.
Qed.

Section distinct.
Context {S : Type} {K : Type} (key : Slot → K).
Implicit Types e : Engine S.

Lemma distinct_slot_mut relay generation f e :
  distinct_by key (en_slots e) →
  (∀ s, slot (en_slots e) relay generation = Some s →
        key (f s) = key s ∨ ∀ r i s', at_ (en_slots e) r i s' → key s' ≠ key (f s)) →
  distinct_by key (en_slots (slot_mut relay generation f e)).
Proof.
  intros Hd Hf. destruct (slot (en_slots e) relay generation) as [s|] eqn:Hs; [|by rewrite slot_mut_absent].
  apply slot_Some in Hs as (b & i & Hb & Hbi & _ & Hi).
  assert (at_ (en_slots e) relay i s) as Hat by (by exists b).
  destruct (Hf s eq_refl) as [Hsame|Hfresh].
  - apply (distinct_embed key (en_slots e) _ (λ _ j, Some j)); [done| |congruence|congruence].
    intros r j s' [(-> & Hj & x & Hx & ->)|[_ Hx]]%at_slot_mut; [|eauto].
    assert (j = i) as -> by congruence. exists x. split; [done|]. by rewrite (at_fun _ _ _ _ _ Hx Hat).
  - apply (distinct_embed key (en_slots e) _ (λ r j, if decide (r = relay ∧ j = i) then None else Some j)); [done|..].
    + intros r j s' [(-> & Hj & x & Hx & ->)|[Hno Hx]]%at_slot_mut.
      * assert (j = i) as -> by congruence. rewrite decide_True by done.
        rewrite (at_fun _ _ _ _ _ Hx Hat). done.
      * rewrite decide_False by naive_solver. eauto.
    + intros r i1 i2 j. repeat case_decide; congruence.
    + intros r1 i1 r2 i2. repeat case_decide; naive_solver.
Qed.

Lemma distinct_append slots relay s :
  distinct_by key slots → (∀ r i s', at_ slots r i s' → key s' ≠ key s) →
  distinct_by key (<[relay := default [] (slots !! relay) ++ [s]]> slots).
Proof.
  intros Hd Hfresh. set (n := length (default [] (slots !! relay))).
  apply (distinct_embed key slots _ (λ r j, if decide (r = relay ∧ j = n) then None else Some j)); [done|..].
  - intros r j s' (b & Hb & Hj). apply lookup_insert_Some in Hb as [[<- <-]|[Hr Hb]].
    + apply lookup_app_Some in Hj as [Hj|[Hle Hj]].
      * rewrite decide_False by (apply lookup_lt_Some in Hj; unfold n; lia). exists s'. split; [|done].
        destruct (slots !! relay) as [b|] eqn:Hb; [by exists b|done].
      * assert (j = n) as ->.
        { unfold n. apply lookup_lt_Some in Hj. cbn in Hj. lia. }
        rewrite decide_True by done. unfold n in Hj. rewrite Nat.sub_diag in Hj. injection Hj as <-. done.
    + rewrite decide_False by naive_solver. exists s'. split; [|done]. by exists b.
  - intros r i1 i2 j. repeat case_decide; congruence.
  - intros r1 i1 r2 i2. repeat case_decide; naive_solver.
Qed.

Lemma distinct_delete slots relay : distinct_by key slots → distinct_by key (delete relay slots).
Proof.
  intros Hd r1 i1 s1 r2 i2 s2 (b1 & [_ Hb1]%lookup_delete_Some & H1) (b2 & [_ Hb2]%lookup_delete_Some & H2).
  apply Hd; [by exists b1|by exists b2].
Qed.

Lemma distinct_remove slots relay bucket i :
  slots !! relay = Some bucket → distinct_by key slots → distinct_by key (<[relay := delete i bucket]> slots).
Proof.
  intros Hb Hd.
  apply (distinct_embed key slots _ (λ r j, if decide (r = relay ∧ i ≤ j) then Some (1 + j) else Some j)); [done|..].
  - intros r j s' (b & Hbb & Hj). apply lookup_insert_Some in Hbb as [[<- <-]|[Hr Hbb]].
    + destruct (decide (i ≤ j)) as [Hle|Hlt].
      * rewrite decide_True by done. rewrite list_lookup_delete_ge in Hj by done. exists s'. split; [|done]. by exists bucket.
      * rewrite decide_False by tauto. rewrite list_lookup_delete_lt in Hj by lia. exists s'. split; [|done]. by exists bucket.
    + rewrite decide_False by naive_solver. exists s'. split; [|done]. by exists b.
  - intros r i1 i2 j. repeat case_decide; intros [= ?] [= ?]; subst; lia || naive_solver lia.
  - intros r1 i1 r2 i2. repeat case_decide; done.
Qed.
End distinct.

(** ** Issued names *)

Definition issued (i : RoundIssuer) (g : Round) : Prop :=
  rd_authority g = ri_authority i ∧ match ri_next i with Some n => (rd_sequence g < n)%N | None => True end.

Definition revision_issued (i : PlanRevisionIssuer) (r : PlanRevision) : Prop :=
  rev_authority r = pi_authority i ∧ match pi_next i with Some n => (rev_sequence r < n)%N | None => True end.

Lemma allocate_issued i g i' :
  issuer_allocate i = (Ok g, i') →
  issued i' g ∧ (∀ g', issued i g' → issued i' g' ∧ g' ≠ g).
Proof.
  unfold issuer_allocate. destruct (ri_next i) as [n|] eqn:Hn; [|done]. intros [= <- <-].
  unfold issued. cbn. rewrite Hn. unfold checked_succ. case_bool_decide; (split; [split; [done|]; lia || done|]);
    intros [a q] [Ha Hq]; cbn in *; (split; [split; [done|]; lia || done|]); intros [= -> ->]; lia.
Qed.

Lemma allocate_revision_issued i g i' :
  plan_issuer_allocate i = (Ok g, i') →
  revision_issued i' g ∧ (∀ g', revision_issued i g' → revision_issued i' g' ∧ g' ≠ g).
Proof.
  unfold plan_issuer_allocate. destruct (pi_next i) as [n|] eqn:Hn; [|done]. intros [= <- <-].
  unfold revision_issued. cbn. rewrite Hn. unfold checked_succ. case_bool_decide; (split; [split; [done|]; lia || done|]);
    intros [a q] [Ha Hq]; cbn in *; (split; [split; [done|]; lia || done|]); intros [= -> ->]; lia.
Qed.

(** ** The invariant *)

Section invariant.
Context {S : Type} `{!Nostr} `{!EventCache S} `{!CoverageCache S} `{!EngineText}.
Context (planner : RelayUrl → list RelayDemand → RelayReadConstraints → gmap string InstalledSubscription →
                   PlanRevision → result SubscriptionPlanError SubscriptionPlan).
Context (match_event : Filter → Event → bool).
Implicit Types e : Engine S.

(** A slot holds a lease exactly of the session it uses, dials only without one,
    carries a generation and a plan revision this owner issued and a token that
    has not fired. *)
Record slot_ok (e : Engine S) (s : Slot) : Prop := {
  sk_generation : issued (en_rounds e) (sl_generation s);
  sk_lease : sl_lease s = sl_session s;
  sk_busy : sl_busy s = true → sl_session s = None;
  sk_revision : ∀ r, sl_revision s = Some r → revision_issued (en_plan_revisions e) r;
  sk_token : sl_cancel s < en_next_token e ∧ sl_cancel s ∉ en_cancelled e
}.

(** A plan on its way to the wire came from the planner, for distinct demand and
    a revision this owner issued, and passed [validate_plan]. *)
Definition operation_ok (e : Engine S) (op : Operation) : Prop :=
  match op with
  | OpInstall relay generation revision session plan _ =>
      revision = sp_revision plan ∧ issued (en_rounds e) generation ∧
      ∃ demand constraints installed issued_revision,
        revision_issued (en_plan_revisions e) issued_revision ∧
        NoDup (demand_id <$> demand) ∧
        planner relay demand constraints installed issued_revision = Ok plan ∧
        validate_plan relay demand constraints installed plan = Ok tt
  | _ => True
  end.

Record engine_ok (e : Engine S) : Prop := {
  eo_registry : registry_reachable (en_registry e);
  eo_buckets : ∀ relay, en_slots e !! relay ≠ Some [];
  eo_generations : distinct_by sl_generation (en_slots e);
  eo_tokens : distinct_by sl_cancel (en_slots e);
  eo_slots : every_slot (en_slots e) (λ _, slot_ok e);
  eo_cancelled : ∀ token, token ∈ en_cancelled e → token < en_next_token e;
  eo_operations : ∀ op, op ∈ en_operations e → operation_ok e op
}.

(** Steps that publish: slots, counters, tokens and spawned work stay. *)
Record quiet (e e' : Engine S) : Prop := {
  qt_registry : registry_reachable (en_registry e) → registry_reachable (en_registry e');
  qt_slots : en_slots e' = en_slots e;
  qt_rounds : en_rounds e' = en_rounds e;
  qt_revisions : en_plan_revisions e' = en_plan_revisions e;
  qt_next : en_next_token e' = en_next_token e;
  qt_cancelled : en_cancelled e' = en_cancelled e;
  qt_dropped : en_dropped e' = en_dropped e;
  qt_operations : en_operations e' = en_operations e
}.

#[global] Instance quiet_preorder : PreOrder quiet.
Proof.
  split; [by intros e; split|]. intros e1 e2 e3 [] []. split; [tauto|congruence..].
Qed.

Lemma quiet_ok e e' : quiet e e' → engine_ok e → engine_ok e'.
Proof.
  intros [Hr Hs Hro Hrv Hn Hc Hd Ho] [Er Eb Eg Et Es Ec Eo]. split; rewrite ?Hs, ?Ho; [tauto|done..| | |].
  - eapply every_slot_mono; [|exact Es]. intros relay s []. split; rewrite ?Hro, ?Hrv, ?Hn, ?Hc; done.
  - by rewrite Hc, Hn.
  - intros op Hop. specialize (Eo op Hop). destruct op; try done. cbn in *. by rewrite Hro, Hrv.
Qed.

Lemma quiet_registry c e : call_allowed c (en_registry e) = true → quiet e (on_registry (registry_call c) e).
Proof. intros Hc. split; try done. intros Hr. by apply registry_called. Qed.

Lemma quiet_diagnostics f e : quiet e (on_diagnostics f e).
Proof. by split. Qed.
Lemma quiet_cache f e : quiet e (on_cache f e).
Proof. by split. Qed.

Lemma quiet_fold {A} (f : Engine S → A → Engine S) l e : (∀ e x, quiet e (f e x)) → quiet e (fold_left f l e).
Proof. intros Hf. revert e. induction l as [|x l IH]; intros e; [done|]. cbn. etrans; [apply Hf|apply IH]. Qed.

Lemma quiet_state id session generation next e : quiet e (on_registry (record_state id session generation next) e).
Proof. by apply (quiet_registry (CallState id session generation next)). Qed.
Lemma quiet_sharing id session revision shared short e :
  quiet e (on_registry (record_sharing id session revision shared short) e).
Proof. by apply (quiet_registry (CallSharing id session revision shared short)). Qed.
Lemma quiet_plan id plan e : quiet e (on_registry (record_plan id plan) e).
Proof. by apply (quiet_registry (CallPlan id plan)). Qed.
Hint Resolve quiet_state quiet_sharing quiet_plan quiet_diagnostics quiet_cache : quiet.

Lemma quiet_publish_states relay demand generation state e : quiet e (publish_states relay demand generation state e).
Proof. apply quiet_fold. auto with quiet. Qed.
Lemma quiet_publish_owners relay owners generation state e : quiet e (publish_owners relay owners generation state e).
Proof. apply quiet_fold. auto with quiet. Qed.
Lemma quiet_publish_for_relay net relay generation state e :
  quiet e (publish_state_for_relay net relay generation state e).
Proof. apply quiet_publish_states. Qed.
Lemma quiet_publish_for_subscription relay generation id state e :
  quiet e (publish_for_subscription relay generation id state e).
Proof. unfold publish_for_subscription. case_match; [apply quiet_publish_owners|done]. Qed.
Lemma quiet_publish_plan relay generation cohort planned e : quiet e (publish_plan relay generation cohort planned e).
Proof.
  unfold publish_plan. case_match; [|done]. apply quiet_fold. intros e' item.
  etrans; [apply quiet_sharing|apply quiet_plan].
Qed.
Lemma quiet_publish_shortfall now relay generation id completeness e :
  quiet e (publish_shortfall now relay generation id completeness e).
Proof.
  unfold publish_shortfall. case_match; [|done]. apply quiet_fold. intros e' owner.
  etrans; [apply quiet_sharing|apply quiet_state].
Qed.
Lemma quiet_publish_diagnostic net relay generation e : quiet e (publish_relay_diagnostic net relay generation e).
Proof. unfold publish_relay_diagnostic. case_match; [apply quiet_diagnostics|done]. Qed.
Lemma quiet_owner_refusal relay demand generation error e : quiet e (publish_owner_refusal relay demand generation error e).
Proof. apply quiet_publish_states. Qed.
Hint Resolve quiet_publish_states quiet_publish_owners quiet_publish_for_relay quiet_publish_for_subscription
  quiet_publish_plan quiet_publish_shortfall quiet_publish_diagnostic quiet_owner_refusal : quiet.

Lemma quiet_live_event owner incoming e :
  event_verify (re_event incoming) = None → quiet e (on_registry (record_live_event owner incoming) e).
Proof. intros Hv. apply (quiet_registry (CallLive owner incoming)). by apply bool_decide_eq_true. Qed.

(** *** Changes of the state *)

Lemma slot_mut_fields relay generation f e :
  let e' := slot_mut relay generation f e in
  en_registry e' = en_registry e ∧ en_rounds e' = en_rounds e ∧ en_plan_revisions e' = en_plan_revisions e ∧
  en_next_token e' = en_next_token e ∧ en_cancelled e' = en_cancelled e ∧ en_operations e' = en_operations e.
Proof. cbn. unfold slot_mut. by case_match. Qed.

(** Everything but the slots, up to what the invariant of a slot needs. *)
Lemma slots_replaced e e' :
  engine_ok e → en_registry e' = en_registry e → en_rounds e' = en_rounds e →
  en_plan_revisions e' = en_plan_revisions e → en_operations e' = en_operations e →
  (∀ relay, en_slots e' !! relay ≠ Some []) →
  distinct_by sl_generation (en_slots e') → distinct_by sl_cancel (en_slots e') →
  every_slot (en_slots e') (λ _, slot_ok e') → (∀ token, token ∈ en_cancelled e' → token < en_next_token e') →
  engine_ok e'.
Proof.
  intros [Er Eb Eg Et Es Ec Eo] Hr Hro Hrv Ho Hb Hg Ht Hs Hcan. split; rewrite ?Hr, ?Ho; [done..|].
  intros op Hop. specialize (Eo op Hop). destruct op; try done. cbn in *. by rewrite Hro, Hrv.
Qed.

Lemma slot_ok_same e e' s :
  en_rounds e' = en_rounds e → en_plan_revisions e' = en_plan_revisions e → en_next_token e' = en_next_token e →
  en_cancelled e' = en_cancelled e → slot_ok e s → slot_ok e' s.
Proof. intros Hro Hrv Hn Hc []. split; rewrite ?Hro, ?Hrv, ?Hn, ?Hc; done. Qed.

Lemma slot_mut_ok relay generation f e :
  engine_ok e →
  (∀ s, slot (en_slots e) relay generation = Some s → slot_ok e s →
        slot_ok e (f s) ∧ sl_generation (f s) = sl_generation s ∧ sl_cancel (f s) = sl_cancel s) →
  engine_ok (slot_mut relay generation f e).
Proof.
  intros Hok Hf. pose proof Hok as [Er Eb Eg Et Es Ec Eo].
  assert (∀ s, slot (en_slots e) relay generation = Some s →
    slot_ok e (f s) ∧ sl_generation (f s) = sl_generation s ∧ sl_cancel (f s) = sl_cancel s) as Hf'.
  { intros s Hs. apply Hf; [done|]. by apply (slot_elem _ _ _ _ _ Es Hs). }
  destruct (slot_mut_fields relay generation f e) as (? & Hro & Hrv & Hn & Hc & ?).
  apply (slots_replaced e); try done.
  - intros r. rewrite slot_mut_lookup. case_decide; [|apply Eb]. case_match; [|apply Eb].
    intros (b & Hb & Hnil)%fmap_Some. apply (Eb r). rewrite Hb. f_equal. symmetry in Hnil.
    by apply (f_equal length) in Hnil; rewrite length_alter in Hnil; destruct b.
  - apply distinct_slot_mut; [done|]. intros s Hs. left. by apply Hf'.
  - apply distinct_slot_mut; [done|]. intros s Hs. left. by apply Hf'.
  - apply slot_mut_every; [eapply every_slot_mono; [|exact Es]; intros ? s; by apply slot_ok_same|].
    intros s Hs _. apply (slot_ok_same e); try done. by apply Hf'.
  - by rewrite Hc, Hn.
Qed.

Lemma spawn_ok op e : engine_ok e → operation_ok e op → engine_ok (spawn op e).
Proof.
  intros [Er Eb Eg Et Es Ec Eo] Hop. split; try done; cbn.
  - eapply every_slot_mono; [|exact Es]. intros ? s. by apply slot_ok_same.
  - intros op' [Hin| ->%list_elem_of_singleton]%elem_of_app; [apply (Eo op' Hin)|done].
Qed.

Lemma drop_handle_ok token e : engine_ok e → engine_ok (drop_handle token e).
Proof.
  intros [Er Eb Eg Et Es Ec Eo]. split; try done; cbn.
  eapply every_slot_mono; [|exact Es]. intros ? s. by apply slot_ok_same.
Qed.

Lemma cancel_token_ok token e :
  engine_ok e → token < en_next_token e → every_slot (en_slots e) (λ _ s, sl_cancel s ≠ token) → engine_ok (cancel_token token e).
Proof.
  intros [Er Eb Eg Et Es Ec Eo] Hlt Hno. split; try done; cbn.
  - intros relay bucket s Hb Hs.
    destruct (Es _ _ _ Hb Hs) as [? ? ? ? [? ?]]. specialize (Hno _ _ _ Hb Hs). split; try done. cbn.
    split; [done|]. rewrite not_elem_of_union, not_elem_of_singleton. done.
  - intros t [->%elem_of_singleton|Ht]%elem_of_union; [done|by apply Ec].
Qed.

Lemma fresh_token_ok e :
  engine_ok e → engine_ok (fresh_token e).2 ∧ every_slot (en_slots e) (λ _ s, sl_cancel s ≠ (fresh_token e).1).
Proof.
  intros [Er Eb Eg Et Es Ec Eo]. split.
  - split; try done; cbn.
    + eapply every_slot_mono; [|exact Es]. intros ? s [? ? ? ? [? ?]]. split; try done. cbn. split; [lia|done].
    + intros t Ht%Ec. lia.
  - cbn. intros relay bucket s Hb Hs. destruct (sk_token _ _ (Es _ _ _ Hb Hs)). lia.
Qed.

Lemma next_round_ok e r e' :
  engine_ok e → next_round e = (r, e') →
  engine_ok e' ∧ en_slots e' = en_slots e ∧ en_registry e' = en_registry e ∧ en_next_token e' = en_next_token e ∧
  en_cancelled e' = en_cancelled e ∧ en_plan_revisions e' = en_plan_revisions e ∧
  ∀ g, r = Ok g → issued (en_rounds e') g ∧ every_slot (en_slots e) (λ _ s, sl_generation s ≠ g).
Proof.
  intros Hok. pose proof Hok as [Er Eb Eg Et Es Ec Eo]. unfold next_round.
  destruct (issuer_allocate (en_rounds e)) as [r' rounds] eqn:Ha. intros [= <- <-].
  assert (∀ g, issued (en_rounds e) g → issued rounds g) as Hmono.
  { destruct r' as [g|err]; [apply (allocate_issued _ _ _ Ha)|].
    unfold issuer_allocate in Ha. case_match; [done|]. by injection Ha as _ <-. }
  split_and!; try done.
  - split; try done; cbn.
    + eapply every_slot_mono; [|exact Es]. intros ? s []. split; try done. cbn. auto.
    + intros op Hop. specialize (Eo op Hop). destruct op; try done. cbn in *. destruct Eo as (? & ? & ?). auto.
  - intros g ->. destruct (allocate_issued _ _ _ Ha) as [Hi Hne]. split; [done|].
    intros relay bucket s Hb Hs. apply Hne. by apply (Es _ _ _ Hb Hs).
Qed.

Lemma next_revision_ok e r e' :
  engine_ok e → next_revision e = (r, e') →
  engine_ok e' ∧ en_slots e' = en_slots e ∧ en_registry e' = en_registry e ∧ en_rounds e' = en_rounds e ∧
  ∀ g, r = Ok g → revision_issued (en_plan_revisions e') g.
Proof.
  intros Hok. pose proof Hok as [Er Eb Eg Et Es Ec Eo]. unfold next_revision.
  destruct (plan_issuer_allocate (en_plan_revisions e)) as [r' revisions] eqn:Ha. intros [= <- <-].
  assert (∀ g, revision_issued (en_plan_revisions e) g → revision_issued revisions g) as Hmono.
  { destruct r' as [g|err]; [apply (allocate_revision_issued _ _ _ Ha)|].
    unfold plan_issuer_allocate in Ha. case_match; [done|]. by injection Ha as _ <-. }
  split_and!; try done.
  - split; try done; cbn.
    + eapply every_slot_mono; [|exact Es]. intros ? s []. split; try done. cbn. auto.
    + intros op Hop. specialize (Eo op Hop). destruct op; try done. cbn in *.
      destruct Eo as (? & ? & d & c & i & rv & ? & ?). split_and!; try done. exists d, c, i, rv. auto.
  - intros g ->. destruct (allocate_revision_issued _ _ _ Ha) as [Hi _]. exact Hi.
Qed.

(** *** Releasing *)

Lemma teardown_slot_ok s e :
  engine_ok e → sl_cancel s < en_next_token e → every_slot (en_slots e) (λ _ s', sl_cancel s' ≠ sl_cancel s) →
  engine_ok (teardown_slot s e) ∧ en_slots (teardown_slot s e) = en_slots e ∧
  en_next_token (teardown_slot s e) = en_next_token e.
Proof.
  intros Hok Hlt Hno. unfold teardown_slot. pose proof (cancel_token_ok _ _ Hok Hlt Hno) as Hc.
  destruct (sl_lease s); [|done]. split; [|done]. by apply spawn_ok.
Qed.

Lemma teardown_all_ok l e :
  engine_ok e → (∀ s, s ∈ l → sl_cancel s < en_next_token e ∧ every_slot (en_slots e) (λ _ s', sl_cancel s' ≠ sl_cancel s)) →
  engine_ok (fold_left (λ e s, teardown_slot s e) l e) ∧
  en_slots (fold_left (λ e s, teardown_slot s e) l e) = en_slots e.
Proof.
  revert e. induction l as [|s l IH]; intros e Hok Hl; [done|]. cbn.
  destruct (Hl s ltac:(set_solver)) as [Hlt Hno].
  destruct (teardown_slot_ok s e Hok Hlt Hno) as (Ht & Hs & Hn).
  destruct (IH (teardown_slot s e) Ht) as [? Heq]; [|by rewrite Heq].
  intros s' Hs'. rewrite Hs, Hn. apply Hl. set_solver.
Qed.

Lemma release_relay_ok relay e : engine_ok e → engine_ok (release_relay relay e).
Proof.
  intros Hok. unfold release_relay. destruct (en_slots e !! relay) as [bucket|] eqn:Hb; [|done].
  pose proof Hok as [Er Eb Eg Et Es Ec Eo].
  assert (engine_ok (en_set_slots (delete relay (en_slots e)) e)) as Hdel.
  { apply (slots_replaced e); try done; cbn.
    - intros r. rewrite lookup_delete. case_decide; [done|apply Eb].
    - by apply distinct_delete.
    - by apply distinct_delete.
    - intros r b s [_ Hbb]%lookup_delete_Some Hs. apply (slot_ok_same e); try done. by eapply Es. }
  eapply quiet_ok; [apply quiet_diagnostics|]. apply teardown_all_ok; [done|]. cbn.
  intros s [i Hi]%list_elem_of_lookup.
  split; [apply (sk_token e), (Es _ _ _ Hb); by eapply list_elem_of_lookup_2|]. intros r b s' [Hne Hbb]%lookup_delete_Some [j Hj]%list_elem_of_lookup Heq.
  destruct (Et r j s' relay i s) as [? _]; [by exists b|by exists bucket|done|congruence].
Qed.

Lemma release_slot_ok relay generation e : engine_ok e → engine_ok (release_slot relay generation e).
Proof.
  intros Hok. unfold release_slot. destruct (en_slots e !! relay) as [bucket|] eqn:Hb; [|done].
  destruct (position _ bucket) as [index|]; [|done]. destruct (bucket !! index) as [s|] eqn:Hs; [|done].
  pose proof Hok as [Er Eb Eg Et Es Ec Eo].
  assert (sl_cancel s < en_next_token e) as Hlt
    by (apply (sk_token e), (Es _ _ _ Hb); by eapply list_elem_of_lookup_2).
  assert (∀ r j s', at_ (<[relay := delete index bucket]> (en_slots e)) r j s' → sl_cancel s' ≠ sl_cancel s) as Hno.
  { intros r j s' (b & Hbb & Hj) Heq. apply lookup_insert_Some in Hbb as [[<- <-]|[Hne Hbb]].
    - destruct (decide (index ≤ j)) as [Hle|Hgt].
      + rewrite list_lookup_delete_ge in Hj by done.
        destruct (Et relay (1 + j) s' relay index s) as [_ ?]; [by exists bucket|by exists bucket|done|lia].
      + rewrite list_lookup_delete_lt in Hj by lia.
        destruct (Et relay j s' relay index s) as [_ ?]; [by exists bucket|by exists bucket|done|lia].
    - destruct (Et r j s' relay index s) as [? _]; [by exists b|by exists bucket|done|congruence]. }
  assert (∀ r b s', <[relay := delete index bucket]> (en_slots e) !! r = Some b → s' ∈ b → slot_ok e s') as Hall.
  { intros r b s' [[<- <-]|[Hne Hbb]]%lookup_insert_Some Hin; [|by eapply Es].
    eapply Es; [done|]. apply list_elem_of_lookup in Hin as [j Hj].
    rewrite list_lookup_delete in Hj. case_match; by eapply list_elem_of_lookup_2. }
  destruct (delete index bucket) as [|x rest] eqn:Hrest.
  - apply teardown_slot_ok.
    + eapply quiet_ok; [apply quiet_diagnostics|]. apply (slots_replaced e); try done; cbn.
      * intros r. rewrite lookup_delete. case_decide; [done|apply Eb].
      * by apply distinct_delete.
      * by apply distinct_delete.
      * intros r b s' [_ Hbb]%lookup_delete_Some Hin. apply (slot_ok_same e); try done. by eapply Es.
    + done.
    + cbn. intros r b s' [Hne Hbb]%lookup_delete_Some [j Hj]%list_elem_of_lookup.
      apply (Hno r j). exists b. by rewrite lookup_insert_ne.
  - rewrite <- Hrest in *. apply teardown_slot_ok.
    + apply (slots_replaced e); try done; cbn.
      * intros r. rewrite lookup_insert. case_decide; [rewrite Hrest; done|apply Eb].
      * by apply distinct_remove.
      * by apply distinct_remove.
      * intros r b s' Hbb Hin. apply (slot_ok_same e); try done. by eapply Hall.
    + done.
    + cbn. intros r b s' Hbb [j Hj]%list_elem_of_lookup. apply (Hno r j). by exists b.
Qed.

(** *** Reconciliation *)

(** A slot changed in fields the invariant does not name. *)
Ltac slot_kept := intros ? ? [? ? ? ? ?]; split; [by split|done].

Lemma attach_ok net now relay generation demand e : engine_ok e → engine_ok (attach net now relay generation demand e).
Proof.
  intros Hok. unfold attach. destruct (slot _ _ _); [|done]. destruct (fold_left _ _ _) as [[l changed] credited].
  destruct changed; [|done]. eapply quiet_ok; [apply quiet_publish_diagnostic|].
  eapply quiet_ok; [apply quiet_fold; intros; apply quiet_state|].
  eapply quiet_ok; [apply quiet_publish_plan|]. apply slot_mut_ok; [done|slot_kept].
Qed.

Lemma new_slot_ok relay authority generation e :
  engine_ok e → issued (en_rounds e) generation → every_slot (en_slots e) (λ _ s, sl_generation s ≠ generation) →
  let '(token, e1) := fresh_token e in
  engine_ok (en_set_slots (<[relay := default [] (en_slots e1 !! relay) ++ [Slot_new token generation authority]]>
                             (en_slots e1)) e1).
Proof.
  intros Hok Hi Hg. destruct (fresh_token_ok e Hok) as [Hf Ht].
  assert (∀ t, t ∈ en_cancelled e → t < en_next_token e) as Hcan by apply Hok.
  destruct (fresh_token e) as [token e1] eqn:He. cbn in Hf, Ht.
  assert (en_slots e1 = en_slots e ∧ en_rounds e1 = en_rounds e ∧ token < en_next_token e1 ∧
          token ∉ en_cancelled e1) as (Hs1 & Hr1 & Hlt & Hnc).
  { injection He as <- <-. cbn. split_and!; [done..|lia|]. intros Hc%Hcan. lia. }
  clear He. rewrite <- Hs1 in *. rewrite <- Hr1 in Hi. pose proof Hf as [Er Eb Eg Et Es Ec Eo].
  apply (slots_replaced e1); try done; cbn.
  - intros r. rewrite lookup_insert. case_decide; [|apply Eb]. intros [= Hnil]. by apply app_nil in Hnil as [_ ?].
  - apply distinct_append; [done|]. intros r i s Hat. by apply (every_at _ _ _ _ _ Hg Hat).
  - apply distinct_append; [done|]. intros r i s Hat. by apply (every_at _ _ _ _ _ Ht Hat).
  - intros r b s [[<- <-]|[_ Hb]]%lookup_insert_Some Hin; [|apply (slot_ok_same e1); try done; by eapply Es].
    apply elem_of_app in Hin as [Hin| ->%list_elem_of_singleton].
    + apply (slot_ok_same e1); try done.
      destruct (en_slots e1 !! relay) as [b|] eqn:Hb; [by eapply Es|by apply not_elem_of_nil in Hin].
    + by split.
Qed.

(** Marking a slot as dialling, and dialling. *)
Lemma dial_ok relay authority demand e i :
  engine_ok e →
  engine_ok
    (match i ≫= (λ i, bucket ← en_slots e !! relay; bucket !! i) with
     | None => e
     | Some s =>
         if sl_busy s || bool_decide (is_Some (sl_session s)) then e
         else publish_states relay demand (Some (sl_generation s)) StateConnecting
                (spawn (OpAcquire relay authority (sl_generation s) (sl_cancel s))
                   (slot_mut relay (sl_generation s) (sl_set_held (sl_lease s) None true SessionConnecting) e))
     end).
Proof.
  intros Hok. destruct i as [i|]; cbn; [|done]. destruct (en_slots e !! relay) as [bucket|] eqn:Hb; cbn; [|done].
  destruct (bucket !! i) as [s|] eqn:Hs; [|done]. destruct (sl_busy s || _) eqn:Hg; [done|].
  apply orb_false_iff in Hg as [_ Hn%bool_decide_eq_false].
  assert (slot_ok e s) as [_ Hl _ _ _] by (eapply eo_slots; [done..|by eapply list_elem_of_lookup_2]).
  eapply quiet_ok; [apply quiet_publish_states|]. apply spawn_ok; [|done].
  apply slot_mut_ok; [done|]. intros s' _ [? ? ? ? ?]. split; [|done]. split; try done. cbn.
  rewrite Hl. by apply eq_None_not_Some.
Qed.

Lemma establish_ok net relay authority demand e : engine_ok e → engine_ok (establish net relay authority demand e).
Proof.
  intros Hok. unfold establish. destruct (slot_index_for _ _ _ _) as [i|]; [by apply (dial_ok relay authority demand e (Some i))|].
  destruct (next_round e) as [round e1] eqn:Hr. destruct (next_round_ok e round e1 Hok Hr) as (Hok1 & Hs1 & _ & _ & _ & _ & Hg).
  destruct round as [generation|error]; [|eapply quiet_ok; [apply quiet_owner_refusal|done]].
  destruct (Hg generation eq_refl) as [Hi Hfresh]. rewrite <- Hs1 in Hfresh.
  pose proof (new_slot_ok relay authority generation e1 Hok1 Hi Hfresh) as Hnew.
  destruct (fresh_token e1) as [token e2]. by apply (dial_ok relay authority demand _ (Some _)).
Qed.

Lemma record_installed_ok relay generation planned opened closed e :
  engine_ok e → engine_ok (record_installed relay generation planned opened closed e).
Proof. intros Hok. apply slot_mut_ok; [done|slot_kept]. Qed.

Lemma operation_ok_fields e e' op :
  en_rounds e' = en_rounds e → en_plan_revisions e' = en_plan_revisions e → operation_ok e op → operation_ok e' op.
Proof. intros Hr Hv. destruct op; try done. cbn. by rewrite Hr, Hv. Qed.

Lemma execute_ok net relay generation demand session planned e :
  engine_ok e → (∀ c, operation_ok e (OpInstall relay generation (sp_revision planned) session planned c)) →
  engine_ok (execute net relay generation demand session planned e).
Proof.
  intros Hok Hop. unfold execute. set (e1 := slot_mut relay generation _ e).
  assert (engine_ok e1) as Hok1 by (apply slot_mut_ok; [done|slot_kept]).
  assert (en_rounds e1 = en_rounds e ∧ en_plan_revisions e1 = en_plan_revisions e) as [Hr Hv]
    by (unfold e1; split; apply slot_mut_fields).
  clearbody e1. destruct (is_noop planned).
  - eapply quiet_ok; [apply quiet_publish_diagnostic|]. eapply quiet_ok; [apply quiet_publish_plan|].
    by apply record_installed_ok.
  - destruct (slot _ _ _); [|done]. eapply quiet_ok; [apply quiet_publish_diagnostic|].
    apply spawn_ok; [done|]. by apply (operation_ok_fields e).
Qed.

Lemma NoDup_filtered {A B} (f : A → B) (P : A → bool) l : NoDup (f <$> l) → NoDup (f <$> List.filter P l).
Proof.
  induction l as [|x l IH]; cbn; [done|]. intros [Hx Hl]%NoDup_cons. destruct (P x); [|auto]. cbn.
  apply NoDup_cons. split; [|auto]. intros (y & Hy & Hin)%list_elem_of_fmap. apply Hx.
  rewrite Hy. apply list_elem_of_fmap_2. apply list_elem_of_In in Hin. apply filter_In in Hin as [Hin _]. by apply list_elem_of_In.
Qed.

Lemma demand_for_slot_distinct net relay generation e :
  engine_ok e → NoDup (demand_id <$> demand_for_slot net relay generation e).
Proof.
  intros Hok. unfold demand_for_slot. destruct (slot _ _ _); [|constructor].
  rewrite <- list_fmap_compose. apply NoDup_filtered. apply desired_distinct.
  apply registry_reachable_ok, Hok.
Qed.

Lemma checked_plan_ok relay generation demand constraints current revision session planned c e :
  checked_plan planner relay demand constraints current revision = Ok planned → NoDup (demand_id <$> demand) →
  issued (en_rounds e) generation → revision_issued (en_plan_revisions e) revision →
  operation_ok e (OpInstall relay generation (sp_revision planned) session planned c).
Proof.
  unfold checked_plan. intros Hplan Hnd Hi Hr. cbn. split_and!; [done..|].
  destruct (planner _ _ _ _ _) as [plan|] eqn:Hp; [|done].
  destruct (validate_plan _ _ _ _ plan) as [[]|] eqn:Hv; [|done]. injection Hplan as <-.
  by exists demand, constraints, current, revision.
Qed.

Lemma flush_ok net relay generation e : engine_ok e → engine_ok (flush planner net relay generation e).
Proof.
  intros Hok. unfold flush. destruct (slot (en_slots e) relay generation) as [s|] eqn:Hs; [|done].
  pose proof (demand_for_slot_distinct net relay generation e Hok) as Hnd.
  set (demand := demand_for_slot net relay generation e) in *. clearbody demand.
  assert (issued (en_rounds e) generation) as Hi.
  { destruct (slot_elem _ _ _ _ _ (eo_slots _ Hok) Hs) as [[] <-]. done. }
  set (e1 := slot_mut relay generation (sl_set_armed false) e).
  assert (engine_ok e1) as Hok1 by (apply slot_mut_ok; [done|slot_kept]).
  assert (en_rounds e1 = en_rounds e) as Hr by apply slot_mut_fields. rewrite <- Hr in Hi. clearbody e1. clear Hr Hok.
  destruct (_ && _); [done|]. destruct (sl_session s) as [session|].
  2:{ apply spawn_ok; [|done]. apply slot_mut_ok; [done|slot_kept]. }
  destruct (next_revision e1) as [revision e2] eqn:Hrev.
  destruct (next_revision_ok e1 revision e2 Hok1 Hrev) as (Hok2 & _ & _ & Hr2 & Hri). rewrite <- Hr2 in Hi.
  destruct revision as [revision|error]; [|eapply quiet_ok; [apply quiet_owner_refusal|done]].
  specialize (Hri revision eq_refl). clear Hr2 Hok1 Hrev.
  set (e3 := slot_mut relay generation (sl_set_revision (Some revision)) e2).
  assert (engine_ok e3) as Hok3.
  { apply slot_mut_ok; [done|]. intros s' _ [? ? ? ? ?]. split; [|done]. split; try done. cbn. by intros r [= <-]. }
  assert (en_rounds e3 = en_rounds e2 ∧ en_plan_revisions e3 = en_plan_revisions e2) as [Hr3 Hv3]
    by (unfold e3; split; apply slot_mut_fields).
  clearbody e3. destruct (checked_plan _ _ _ _ _ _) as [planned|text] eqn:Hplan;
    [|eapply quiet_ok; [apply quiet_diagnostics|done]].
  apply execute_ok; [done|]. intros c. apply (operation_ok_fields e2); [done..|]. by eapply checked_plan_ok.
Qed.

Lemma fold_ok {A} (f : Engine S → A → Engine S) l e :
  (∀ e x, engine_ok e → engine_ok (f e x)) → engine_ok e → engine_ok (fold_left f l e).
Proof. intros Hf. revert e. induction l as [|x l IH]; intros e He; [done|]. cbn. apply IH. by apply Hf. Qed.

Lemma reconcile_slot_ok net now relay generation e : engine_ok e → engine_ok (reconcile_slot planner net now relay e generation).
Proof.
  intros Hok. unfold reconcile_slot. case_bool_decide; [by apply release_slot_ok|].
  set (e1 := attach _ _ _ _ _ e). assert (engine_ok e1) as Hok1 by (by apply attach_ok). clearbody e1.
  destruct (slot _ _ _) as [s|]; [|done]. destruct (orphaned s _); [by apply flush_ok|].
  destruct (_ || _); [done|]. apply spawn_ok; [|done]. apply slot_mut_ok; [done|slot_kept].
Qed.

Lemma reconcile_ok net now e : engine_ok e → engine_ok (reconcile planner net now e).
Proof.
  intros Hok. unfold reconcile. apply fold_ok.
  - intros e' [relay items] Hok'. unfold reconcile_relay. apply fold_ok; [intros; by apply reconcile_slot_ok|].
    apply fold_ok; [|done]. intros e'' item Hok''. unfold establish_missing. case_bool_decide; [by apply establish_ok|done].
  - apply fold_ok; [intros; by apply release_relay_ok|done].
Qed.

(** *** Completions *)

Lemma advance_slot_ok relay s next f e :
  engine_ok e → slot (en_slots e) relay (sl_generation s) = Some s → issued (en_rounds e) next →
  every_slot (en_slots e) (λ _ s, sl_generation s ≠ next) → sl_lease (f s) = sl_session (f s) →
  sl_revision (f s) = sl_revision s → engine_ok (advance_slot relay s next f e).
Proof.
  intros Hok Hs Hi Hg Hl Hrev. unfold advance_slot. cbn. set (e1 := mkEngine _ _ _ _ _ _ _ _ _ _).
  set (g := λ s, advance _ _ _). pose proof Hok as [Er Eb Eg Et Es Ec Eo].
  destruct (slot_elem _ _ _ _ _ Es Hs) as [[_ _ _ Hr [Hlt _]] _].
  pose proof (slot_Some _ _ _ _ Hs) as (b & i & Hb & Hbi & _ & Hidx).
  assert (at_ (en_slots e) relay i s) as Hat by (by exists b).
  destruct (slot_mut_fields relay (sl_generation s) g e1) as (? & Hro & Hrv & Hn & Hc & ?).
  apply (slots_replaced e); try done.
  - intros r. rewrite slot_mut_lookup. case_decide; [|apply Eb]. case_match; [|apply Eb].
    intros (b' & Hb' & Hnil)%fmap_Some. apply (Eb r). cbn in Hb'. rewrite Hb'. f_equal. symmetry in Hnil.
    by apply (f_equal length) in Hnil; rewrite length_alter in Hnil; destruct b'.
  - apply distinct_slot_mut; [done|]. intros x _. right. intros r j s' Hx. by apply (every_at _ _ _ _ _ Hg Hx).
  - apply distinct_slot_mut; [done|]. intros x _. right. cbn. intros r j s' Hx.
    destruct (every_at _ _ _ _ _ Es Hx) as [_ _ _ _ [? _]]. lia.
  - intros r b' s' Hb' [j Hj]%list_elem_of_lookup.
    assert (at_ (en_slots (slot_mut relay (sl_generation s) g e1)) r j s') as Hx by (by exists b').
    apply at_slot_mut in Hx as [(-> & Hj' & x & Hx & ->)|[Hno Hx]]; cbn in Hx.
    + assert (j = i) as -> by (cbn in Hj'; congruence). rewrite (at_fun _ _ _ _ _ Hx Hat).
      split; rewrite ?Hro, ?Hrv, ?Hn, ?Hc; cbn; try done; [by rewrite Hrev|]. split; [lia|].
      rewrite not_elem_of_union, not_elem_of_singleton. split; [lia|]. intros ?%Ec. lia.
    + destruct (every_at _ _ _ _ _ Es Hx) as [? ? ? ? [? ?]].
      split; rewrite ?Hro, ?Hrv, ?Hn, ?Hc; cbn; try done. split; [lia|].
      rewrite not_elem_of_union, not_elem_of_singleton. split; [|done]. intros Heq.
      destruct (Et r j s' relay i s Hx Hat Heq) as [-> ->]. by apply Hno.
  - rewrite Hc, Hn. cbn. intros t [->%elem_of_singleton|Ht%Ec]%elem_of_union; lia.
Qed.

Lemma acquired_ok net relay generation lease e : engine_ok e → engine_ok (acquired net relay generation lease e).2.
Proof.
  intros Hok. unfold acquired. destruct (slot _ _ _) as [s|]; cbn; [|by apply spawn_ok].
  eapply quiet_ok; [apply quiet_publish_diagnostic|].
  set (e1 := slot_mut relay generation _ e).
  assert (engine_ok e1) as Hok1 by (apply slot_mut_ok; [done|]; intros s' _ [? ? ? ? ?]; by split).
  clearbody e1. case_match; repeat (apply spawn_ok; try done).
Qed.

Lemma refused_ok net relay generation detail e : engine_ok e → engine_ok (refused net relay generation detail e).2.
Proof.
  intros Hok. unfold refused. destruct (next_round e) as [next e1] eqn:Hr.
  destruct (next_round_ok e next e1 Hok Hr) as (Hok1 & Hs1 & _ & _ & _ & _ & Hg).
  destruct next as [next|error]; [|eapply quiet_ok; [apply quiet_owner_refusal|done]].
  destruct (Hg next eq_refl) as [Hi Hfresh]. rewrite <- Hs1 in Hfresh. clear Hg Hs1 Hr.
  destruct (slot (en_slots e1) relay generation) as [s|] eqn:Hs; [|done]. cbn [snd].
  eapply quiet_ok; [apply quiet_publish_diagnostic|]. eapply quiet_ok; [apply quiet_publish_for_relay|].
  destruct (slot_elem _ _ _ _ _ (eo_slots _ Hok1) Hs) as [_ <-].
  set (e2 := advance_slot _ _ _ _ _). assert (engine_ok e2) as Hok2 by (by apply advance_slot_ok).
  clearbody e2. case_match; [by apply spawn_ok|done].
Qed.

Lemma installed_ok net now relay generation revision plan opened attending closed e :
  engine_ok e → engine_ok (installed net now relay generation revision plan opened attending closed e).
Proof.
  intros Hok. unfold installed. destruct (slot _ _ _) as [s|]; [|done]. destruct (bool_decide _); [done|].
  set (e1 := record_installed _ _ _ _ _ _). assert (engine_ok e1) as Hok1.
  { apply record_installed_ok, fold_ok; [intros; by apply drop_handle_ok|]. apply slot_mut_ok; [done|slot_kept]. }
  clearbody e1. set (e2 := publish_plan _ _ _ _ _).
  assert (engine_ok e2) as Hok2 by (eapply quiet_ok; [apply quiet_publish_plan|done]). clearbody e2.
  case_match; [|done]. eapply quiet_ok; [apply quiet_publish_diagnostic|].
  eapply quiet_ok; [apply quiet_publish_owners|done].
Qed.

Lemma connection_ok net now relay generation state e :
  engine_ok e → engine_ok (connection net now relay generation state e).
Proof.
  intros Hok. unfold connection. destruct (slot _ _ _) as [s|]; [|done].
  set (e1 := match sl_requested s with As _ => _ | _ => _ end).
  assert (engine_ok e1) as Hok1.
  { unfold e1. repeat case_match; try done.
    eapply quiet_ok; [apply quiet_publish_diagnostic|]. by eapply quiet_ok; [apply quiet_publish_for_relay|]. }
  clearbody e1. repeat case_match; try done;
    (eapply quiet_ok; [apply quiet_publish_diagnostic|]; eapply quiet_ok; [apply quiet_publish_for_relay|];
     apply slot_mut_ok; [done|slot_kept]).
Qed.

Lemma reconnected_ok net relay generation e : engine_ok e → engine_ok (reconnected net relay generation e).
Proof.
  intros Hok. unfold reconnected. destruct (next_round e) as [next e1] eqn:Hr.
  destruct (next_round_ok e next e1 Hok Hr) as (Hok1 & Hs1 & _ & _ & _ & _ & Hg).
  destruct next as [next|error]; [|eapply quiet_ok; [apply quiet_owner_refusal|done]].
  destruct (Hg next eq_refl) as [Hi Hfresh]. rewrite <- Hs1 in Hfresh. clear Hg Hs1 Hr.
  destruct (slot (en_slots e1) relay generation) as [s|] eqn:Hs; [|done].
  destruct (slot_elem _ _ _ _ _ (eo_slots _ Hok1) Hs) as [[_ Hl _ _ _] <-].
  set (e2 := advance_slot _ _ _ _ _). assert (engine_ok e2) as Hok2 by (by apply advance_slot_ok). clearbody e2.
  set (e3 := match sl_session s with Some _ => _ | None => _ end).
  assert (engine_ok e3) as Hok3 by (unfold e3; repeat case_match; try done; by apply spawn_ok). clearbody e3.
  destruct (slot (en_slots e3) relay next) as [s3|]; [|done].
  eapply quiet_ok; [apply quiet_publish_diagnostic|]. eapply quiet_ok; [apply quiet_publish_for_relay|].
  set (e4 := slot_mut _ _ _ _). assert (engine_ok e4) by (apply slot_mut_ok; [done|slot_kept]). clearbody e4.
  case_match; [by apply spawn_ok|done].
Qed.

Lemma quiet_carried_event net now relay generation subscription event e :
  quiet e (carried_event match_event net now relay generation subscription event e).
Proof.
  unfold carried_event. destruct (slot _ _ _ ≫= _) as [entry|]; [|done].
  pose proof (admission_exact match_event relay (current_authority net relay generation e)
                {[subscription := is_filters entry]} subscription event now) as Ha.
  destruct (admit_subscription_event _ _ _ _ _ _ _) as [incoming|error]; [|done].
  destruct Ha as (_ & Hv & ->). etrans; [|apply quiet_cache]. apply quiet_fold.
  intros e' owner. by apply quiet_live_event.
Qed.

Lemma stored_complete_ok net now relay generation id e :
  engine_ok e → engine_ok (stored_complete net now relay generation id e).
Proof.
  intros Hok. unfold stored_complete. eapply quiet_ok; [apply quiet_publish_diagnostic|].
  set (e1 := slot_mut _ _ _ e). assert (engine_ok e1) as Hok1 by (apply slot_mut_ok; [done|slot_kept]). clearbody e1.
  destruct (match slot (en_slots e) relay generation with Some _ => _ | None => _ end);
    [|by eapply quiet_ok; [apply quiet_publish_shortfall|]..].
  eapply quiet_ok; [apply quiet_publish_for_subscription|]. eapply quiet_ok; [|done].
  apply quiet_fold. intros e' owner. case_match; [apply quiet_cache|done].
Qed.

Lemma carried_ok net now relay generation subscription item e :
  engine_ok e → engine_ok (carried match_event net now relay generation subscription item e).
Proof.
  intros Hok. unfold carried. destruct (slot _ _ _); [|done]. destruct item; try done.
  - by eapply quiet_ok; [apply quiet_carried_event|].
  - by apply stored_complete_ok.
  - eapply quiet_ok; [|done]. etrans; [apply quiet_publish_for_subscription|apply quiet_publish_diagnostic].
  - by eapply quiet_ok; [apply quiet_diagnostics|].
Qed.

Lemma accept_report_ok net now report e : engine_ok e → engine_ok (accept planner match_event net now report e).2.
Proof.
  intros Hok. destruct report; cbn.
  - by apply acquired_ok.
  - by apply refused_ok.
  - by apply installed_ok.
  - by apply flush_ok.
  - by apply connection_ok.
  - destruct (slot _ _ _); [by apply reconnected_ok|done].
  - done.
  - by apply carried_ok.
  - apply slot_mut_ok; [done|slot_kept].
Qed.

Lemma engine_turn_ok net now report e : engine_ok e → engine_ok (engine_turn planner match_event net now report e).
Proof.
  intros Hok. unfold engine_turn. pose proof (accept_report_ok net now report e Hok) as Ha.
  destruct (accept _ _ _ _ _ _) as [[] e1]; [by apply reconcile_ok|done].
Qed.

Lemma engine_reachable_ok e : engine_reachable planner match_event e → engine_ok e.
Proof.
  induction 1 as [registry cache diagnostics authority plan_authority e Hr He|e e' _ IH Hstep].
  - unfold engine_start in He. destruct (issuer_new authority).1 as [rounds|]; [|done].
    destruct (plan_issuer_new plan_authority).1 as [revisions|]; [|done]. injection He as <-.
    split; cbn; [done|done|by intros ? ? ? ? ? ? (? & ? & ?)..|by intros ? ? ?| |]; intros ? Hin; exfalso; revert Hin.
    + apply not_elem_of_empty.
    + apply not_elem_of_nil.
  - destruct Hstep as [e c Hc|net now e|net now report e].
    + by eapply quiet_ok; [apply quiet_registry|].
    + by apply reconcile_ok.
    + by apply engine_turn_ok.
Qed.
End invariant.
