(* ===== verification/ObserveSafety.v ===== *)
(** * What late reports can and cannot do to the reconciliation owner

    Reports reach the owner in any order and long after the slot that asked for
    them is gone.  A generation that no slot carries any more is never carried
    again, a report that names such a generation has no effect beyond giving
    back a lease, and an event of a live generation reaches the cache and the
    observations its subscription serves, or nothing at all. *)

From S2P Require Import Prelude Nostr Relay State Write Query EventCache.
From S2P Require Import Transport Subscriptions Diagnostics Observations ObservationsProps Ingest ObserveEngine.
From S2P Require Import ObserveEngineProps.

Section retired.
Context {S : Type} `{!Nostr} `{!EventCache S} `{!CoverageCache S} `{!EngineText}.
Context (planner : RelayUrl → list RelayDemand → RelayReadConstraints → gmap string InstalledSubscription →
                   PlanRevision → result SubscriptionPlanError SubscriptionPlan).
Context (match_event : Filter → Event → bool).
Implicit Types e : Engine S.

(** Some slot carries the generation. *)
Definition live_generation e (g : Round) : Prop := ∃ relay i s, at_ (en_slots e) relay i s ∧ sl_generation s = g.

(** Issued generations stay issued and are not taken up again. *)
Definition forgets e e' : Prop :=
  ∀ g, issued (en_rounds e) g → issued (en_rounds e') g ∧ (live_generation e' g → live_generation e g).

#[local] Instance forgets_preorder : PreOrder forgets.
Proof.
  split; [by intros e g Hg|]. intros e1 e2 e3 H12 H23 g Hg. destruct (H12 g Hg) as [Hg2 Hl2].
  destruct (H23 g Hg2) as [Hg3 Hl3]. auto.
Qed.

Lemma forgets_same e e' : en_slots e' = en_slots e → en_rounds e' = en_rounds e → forgets e e'.
Proof. intros Hs Hr g Hg. unfold live_generation. by rewrite Hs, Hr. Qed.

Lemma quiet_forgets e e' : quiet e e' → forgets e e'.
Proof. intros [_ Hs Hr _ _ _ _ _]. by apply forgets_same. Qed.

Lemma spawn_forgets op e : forgets e (spawn op e).
Proof. by apply forgets_same. Qed.

Lemma fold_forgets {A} (f : Engine S → A → Engine S) l e : (∀ e x, forgets e (f e x)) → forgets e (fold_left f l e).
Proof. intros Hf. revert e. induction l as [|x l IH]; intros e; [done|]. cbn. etrans; [apply Hf|apply IH]. Qed.

(** Slots of [e'] keep a generation of [e] or carry one that [e] had not issued. *)
Lemma forgets_slots e e' :
  (∀ g, issued (en_rounds e) g → issued (en_rounds e') g) →
  (∀ relay i s, at_ (en_slots e') relay i s → live_generation e (sl_generation s) ∨ ¬ issued (en_rounds e) (sl_generation s)) →
  forgets e e'.
Proof.
  intros Hr Hs g Hg. split; [auto|]. intros (relay & i & s & Hat & <-). by destruct (Hs _ _ _ Hat).
Qed.

Lemma at_live e relay i s : at_ (en_slots e) relay i s → live_generation e (sl_generation s).
Proof. intros Hat. by exists relay, i, s. Qed.

Lemma slot_mut_forgets relay generation f e :
  (∀ s, sl_generation (f s) = sl_generation s) → forgets e (slot_mut relay generation f e).
Proof.
  intros Hf. apply forgets_slots; [by destruct (slot_mut_fields relay generation f e) as (_ & -> & _)|].
  intros r i s Hat. left. apply at_slot_mut in Hat as [(_ & _ & x & Hx & ->)|[_ Hx]]; [rewrite Hf|]; by eapply at_live.
Qed.

Lemma next_round_rounds e r e' :
  next_round e = (r, e') →
  en_slots e' = en_slots e ∧ forgets e e' ∧ ∀ g, r = Ok g → ¬ issued (en_rounds e) g.
Proof.
  unfold next_round. destruct (issuer_allocate (en_rounds e)) as [r' rounds] eqn:Ha. intros [= <- <-].
  split; [done|]. destruct r' as [g|error].
  - destruct (allocate_issued _ _ _ Ha) as [_ Hi]. split; [intros g' Hg'; split; [by apply Hi|done]|].
    intros g' [= <-] Hg. by destruct (Hi g Hg).
  - split; [|done]. apply forgets_same; [done|]. cbn. unfold issuer_allocate in Ha. case_match; [done|].
    by injection Ha as _ <-.
Qed.

(** Generations of [e'] besides [next] are those of [e]. *)
Lemma fresh_forgets e e1 e' next :
  forgets e e1 → ¬ issued (en_rounds e) next → en_rounds e' = en_rounds e1 →
  (∀ relay i s, at_ (en_slots e') relay i s → live_generation e1 (sl_generation s) ∨ sl_generation s = next) →
  forgets e e'.
Proof.
  intros H1 Hnext Hr Hs g Hg. destruct (H1 g Hg) as [Hg1 Hl]. rewrite Hr. split; [done|].
  intros (relay & i & s & Hat & <-). destruct (Hs _ _ _ Hat) as [?|Heq]; [auto|]. by rewrite Heq in Hg.
Qed.

Lemma advance_forgets relay old next f e e1 :
  forgets e e1 → ¬ issued (en_rounds e) next → forgets e (advance_slot relay old next f e1).
Proof.
  intros H1 Hnext. eapply fresh_forgets; [done..| |].
  - unfold advance_slot. cbn. by rewrite (proj1 (proj2 (slot_mut_fields _ _ _ _))).
  - intros r i s Hat. unfold advance_slot in Hat. cbn in Hat.
    apply at_slot_mut in Hat as [(_ & _ & x & _ & ->)|[_ Hx]]; [by right|]. left. by eapply at_live.
Qed.

(** Peels the outermost change off the new state. *)
Ltac peel :=
  repeat lazymatch goal with
  | |- forgets _ (publish_relay_diagnostic _ _ _ ?x) =>
      transitivity x; [|apply quiet_forgets, quiet_publish_diagnostic]
  | |- forgets _ (publish_plan _ _ _ _ ?x) => transitivity x; [|apply quiet_forgets, quiet_publish_plan]
  | |- forgets _ (publish_state_for_relay _ _ _ _ ?x) =>
      transitivity x; [|apply quiet_forgets, quiet_publish_for_relay]
  | |- forgets _ (publish_states _ _ _ _ ?x) => transitivity x; [|apply quiet_forgets, quiet_publish_states]
  | |- forgets _ (publish_owners _ _ _ _ ?x) => transitivity x; [|apply quiet_forgets, quiet_publish_owners]
  | |- forgets _ (publish_for_subscription _ _ _ _ ?x) =>
      transitivity x; [|apply quiet_forgets, quiet_publish_for_subscription]
  | |- forgets _ (publish_shortfall _ _ _ _ _ ?x) => transitivity x; [|apply quiet_forgets, quiet_publish_shortfall]
  | |- forgets _ (publish_owner_refusal _ _ _ _ ?x) => transitivity x; [|apply quiet_forgets, quiet_owner_refusal]
  | |- forgets _ (on_diagnostics _ ?x) => transitivity x; [|apply quiet_forgets, quiet_diagnostics]
  | |- forgets _ (spawn _ ?x) => transitivity x; [|apply spawn_forgets]
  | |- forgets _ (arm _ _ ?x) => transitivity x; [|apply spawn_forgets]
  | |- forgets _ (release_lease _ _ ?x) => transitivity x; [|apply spawn_forgets]
  | |- forgets _ (record_installed _ _ _ _ _ ?x) => transitivity x; [|by apply slot_mut_forgets]
  | |- forgets _ (slot_mut _ _ _ ?x) => transitivity x; [|by apply slot_mut_forgets]
  | |- forgets _ (match ?x with _ => _ end) => destruct x
  end; try done.

Lemma teardown_forgets s e : forgets e (teardown_slot s e).
Proof. unfold teardown_slot. destruct (sl_lease s); by apply forgets_same. Qed.

Lemma release_relay_forgets relay e : forgets e (release_relay relay e).
Proof.
  unfold release_relay. destruct (en_slots e !! relay) as [bucket|]; [|done]. peel.
  etrans; [|apply fold_forgets; intros; apply teardown_forgets].
  apply forgets_slots; [done|]. cbn. intros r i s (b & [_ Hb]%lookup_delete_Some & Hi). left. apply (at_live e r i). by exists b.
Qed.

Lemma release_slot_forgets relay generation e : forgets e (release_slot relay generation e).
Proof.
  unfold release_slot. destruct (en_slots e !! relay) as [bucket|] eqn:Hb; [|done].
  destruct (position _ bucket) as [index|]; [|done]. destruct (bucket !! index) as [s|]; [|done].
  etrans; [|apply teardown_forgets].
  destruct (delete index bucket) as [|y rest] eqn:Hrest; peel; (apply forgets_slots; [done|]); cbn.
  - intros r i x (b & [_ Hbb]%lookup_delete_Some & Hi). left. apply (at_live e r i). by exists b.
  - intros r i x (b & [[<- <-]|[_ Hbb]]%lookup_insert_Some & Hi); left.
    + rewrite <- Hrest, list_lookup_delete in Hi. case_match; (eapply (at_live e relay); by exists bucket).
    + apply (at_live e r i). by exists b.
Qed.

Lemma attach_forgets net now relay generation demand e : forgets e (attach net now relay generation demand e).
Proof.
  unfold attach. destruct (slot _ _ _); [|done]. destruct (fold_left _ _ _) as [[l changed] credited].
  destruct changed; [|done]. peel. etrans; [|apply fold_forgets; intros; apply quiet_forgets, quiet_state]. peel.
Qed.

Lemma dial_forgets relay authority demand e i :
  forgets e
    (match i ≫= (λ i, bucket ← en_slots e !! relay; bucket !! i) with
     | None => e
     | Some s =>
         if sl_busy s || bool_decide (is_Some (sl_session s)) then e
         else publish_states relay demand (Some (sl_generation s)) StateConnecting
                (spawn (OpAcquire relay authority (sl_generation s) (sl_cancel s))
                   (slot_mut relay (sl_generation s) (sl_set_held (sl_lease s) None true SessionConnecting) e))
     end).
Proof. peel. Qed.

Lemma establish_forgets net relay authority demand e : forgets e (establish net relay authority demand e).
Proof.
  unfold establish. destruct (slot_index_for _ _ _ _) as [i|]; [apply (dial_forgets relay authority demand e (Some i))|].
  destruct (next_round e) as [round e1] eqn:Hr. destruct (next_round_rounds e round e1 Hr) as (Hs1 & H1 & Hg).
  destruct round as [generation|error]; [|cbn; by peel].
  etrans; [|apply (dial_forgets relay authority demand _ (Some _))].
  apply (fresh_forgets e e1 _ generation); [done|by apply Hg|done|]. cbn.
  intros r i s (b & [[<- <-]|[_ Hb]]%lookup_insert_Some & Hi); [|left; apply (at_live e1 r i); by exists b].
  apply lookup_app_Some in Hi as [Hi|[_ Hi]].
  - left. apply (at_live e1 relay i). destruct (en_slots e1 !! relay) as [b|] eqn:Hb; [by exists b|done].
  - right. by apply list_lookup_singleton_Some in Hi as [_ <-].
Qed.

Lemma execute_forgets net relay generation demand session planned e :
  forgets e (execute net relay generation demand session planned e).
Proof. unfold execute. peel. Qed.

Lemma flush_forgets net relay generation e : forgets e (flush planner net relay generation e).
Proof.
  unfold flush. destruct (slot _ _ _) as [s|]; [|done]. set (e1 := slot_mut _ _ _ e).
  assert (forgets e e1) as H1 by (unfold e1; peel). clearbody e1. etrans; [exact H1|]. clear H1.
  destruct (_ && _); [done|]. destruct (sl_session s) as [session|]; [|peel].
  destruct (next_revision e1) as [revision e2] eqn:Hrev.
  assert (forgets e1 e2) as H12.
  { unfold next_revision in Hrev. destruct (plan_issuer_allocate _). injection Hrev as <- <-. by apply forgets_same. }
  etrans; [exact H12|]. destruct revision; [|peel]. destruct (checked_plan _ _ _ _ _ _); [|peel].
  etrans; [|apply execute_forgets]. peel.
Qed.

Lemma reconcile_slot_forgets net now relay generation e : forgets e (reconcile_slot planner net now relay e generation).
Proof.
  unfold reconcile_slot. case_bool_decide; [apply release_slot_forgets|]. set (e1 := attach _ _ _ _ _ e).
  assert (forgets e e1) as He1 by apply attach_forgets. clearbody e1. etrans; [exact He1|].
  case_match; [|done]. case_match; [apply flush_forgets|]. peel.
Qed.

Lemma reconcile_forgets net now e : forgets e (reconcile planner net now e).
Proof.
  unfold reconcile. etrans.
  2:{ apply fold_forgets. intros e' [relay items]. unfold reconcile_relay.
      etrans; [|apply fold_forgets; intros; apply reconcile_slot_forgets].
      apply fold_forgets. intros e'' item. unfold establish_missing. case_bool_decide; [apply establish_forgets|done]. }
  apply fold_forgets. intros; apply release_relay_forgets.
Qed.

Lemma acquired_forgets net relay generation lease e : forgets e (acquired net relay generation lease e).2.
Proof. unfold acquired. destruct (slot _ _ _) as [s|]; cbn [snd]; peel. Qed.

Lemma refused_forgets net relay generation detail e : forgets e (refused net relay generation detail e).2.
Proof.
  unfold refused. destruct (next_round e) as [next e1] eqn:Hr. destruct (next_round_rounds e next e1 Hr) as (_ & H1 & Hg).
  destruct next as [next|error]; cbn [snd]; [|by peel].
  destruct (slot _ _ _) as [s|]; cbn [snd]; [|done]. peel; by apply advance_forgets, Hg.
Qed.

Lemma installed_forgets net now relay generation revision plan opened attending closed e :
  forgets e (installed net now relay generation revision plan opened attending closed e).
Proof.
  unfold installed. destruct (slot _ _ _) as [s|]; [|done]. destruct (bool_decide _); [done|].
  assert (∀ e' tokens, forgets e e' → forgets e (fold_left (λ e token, drop_handle token e) tokens e')) as Hdrop.
  { intros e' tokens He. etrans; [exact He|]. apply fold_forgets. intros; by apply forgets_same. }
  peel; apply Hdrop; peel.
Qed.

Lemma connection_forgets net now relay generation state e : forgets e (connection net now relay generation state e).
Proof. unfold connection. peel. Qed.

Lemma reconnected_forgets net relay generation e : forgets e (reconnected net relay generation e).
Proof.
  unfold reconnected. destruct (next_round e) as [next e1] eqn:Hr.
  destruct (next_round_rounds e next e1 Hr) as (_ & H1 & Hg). destruct next as [next|error]; [|by peel].
  destruct (slot (en_slots e1) relay generation) as [s|]; [|done].
  set (e2 := advance_slot _ _ _ _ _). assert (forgets e e2) as H2 by (by apply advance_forgets, Hg). clearbody e2.
  peel.
Qed.

Lemma carried_forgets net now relay generation subscription item e :
  forgets e (carried match_event net now relay generation subscription item e).
Proof.
  unfold carried. destruct (slot _ _ _); [|done].
  destruct item; [apply quiet_forgets, quiet_carried_event| |unfold subscription_refused; peel|peel|done].
  unfold stored_complete. peel. etrans; [|apply fold_forgets; intros e' owner; case_match;
    [apply quiet_forgets, quiet_cache|done]]. peel.
Qed.

Lemma step_forgets e e' : engine_step planner match_event e e' → forgets e e'.
Proof.
  destruct 1 as [e c _|net now e|net now report e]; [by apply forgets_same|apply reconcile_forgets|].
  unfold engine_turn.
  assert (forgets e (accept planner match_event net now report e).2) as Ha.
  { destruct report; cbn [accept snd].
    - apply acquired_forgets.
    - apply refused_forgets.
    - apply installed_forgets.
    - apply flush_forgets.
    - apply connection_forgets.
    - destruct (slot _ _ _); [apply reconnected_forgets|done].
    - done.
    - apply carried_forgets.
    - by apply slot_mut_forgets. }
  destruct (accept _ _ _ _ _ _) as [[] e1]; [|done]. etrans; [exact Ha|apply reconcile_forgets].
Qed.
End retired.

(** ** Observations a record reaches *)

Lemma update_observations id change (r : Registry) :
  rg_observations (update id change r) = alter (λ o, (change o).2) id (rg_observations r).
Proof.
  unfold update. destruct (rg_observations r !! id) as [o|] eqn:Ho.
  - destruct (change o) as [changed o'] eqn:Hc.
    assert (<[id := o']> (rg_observations r) = alter (λ o, (change o).2) id (rg_observations r)) as Heq.
    { apply map_eq. intros j. destruct (decide (id = j)) as [<-|Hne].
      - by rewrite lookup_insert_eq, lookup_alter_eq, Ho; cbn; rewrite Hc.
      - by rewrite lookup_insert_ne, lookup_alter_ne. }
    destruct changed; exact Heq.
  - symmetry. apply map_eq. intros j. destruct (decide (id = j)) as [<-|Hne]; [|by rewrite lookup_alter_ne].
    by rewrite lookup_alter_eq, Ho.
Qed.

(** Updates of distinct observations, one each. *)
Lemma updates_lookup (change : Installed → bool * Installed) l (r : Registry) j :
  NoDup l →
  rg_observations (fold_left (λ r id, update id change r) l r) !! j =
  if bool_decide (j ∈ l) then (λ o, (change o).2) <$> rg_observations r !! j else rg_observations r !! j.
Proof.
  revert r. induction l as [|x l IH]; intros r; [done|]. intros [Hx Hl]%NoDup_cons. cbn.
  rewrite IH, update_observations by done. destruct (decide (x = j)) as [->|Hne].
  - rewrite lookup_alter_eq, bool_decide_eq_false_2, bool_decide_eq_true_2 by (done || by left). done.
  - rewrite lookup_alter_ne by done. destruct (decide (j ∈ l)) as [Hj|Hj].
    + rewrite !bool_decide_eq_true_2; [done|by right|done].
    + rewrite !bool_decide_eq_false_2; [done|by intros [?|?]%elem_of_cons|done].
Qed.

(** ** Claims *)

(** The generation a report names. *)
Definition report_generation (report : Report) : option Round :=
  match report with
  | Acquired _ g _ | Refused _ g _ | ReportInstalled _ g _ _ _ _ _ | Flush _ g | ReportConnection _ g _
  | ConnectionReplaced _ g | Carried _ g _ _ | ReportConstraints _ g _ => Some g
  | ConnectionEnded => None
  end.

(** What an event leaves in an observation whose subscription carried it. *)
Definition observe_live `{!Nostr} (incoming : RelayEvent) (o : Installed) : Installed :=
  match ob_live o !! re_session incoming with
  | None => o
  | Some live =>
      match live_event incoming live with
      | None => o
      | Some live => ob_set_live (<[re_session incoming := live]> (ob_live o)) o
      end
  end.

Section claims.
Context {S : Type} `{!Nostr} `{!EventCache S} `{!CoverageCache S} `{!EngineText}.
Context (planner : RelayUrl → list RelayDemand → RelayReadConstraints → gmap string InstalledSubscription →
                   PlanRevision → result SubscriptionPlanError SubscriptionPlan).
Context (match_event : Filter → Event → bool).
Implicit Types e : Engine S.

Lemma not_live_slot e g relay : ¬ live_generation e g → slot (en_slots e) relay g = None.
Proof.
  intros Hno. destruct (slot _ _ _) as [s|] eqn:Hs; [|done]. destruct Hno.
  apply slot_Some in Hs as (b & i & Hb & Hi & <- & _). apply (at_live e relay i). by exists b.
Qed.

Lemma steps_forget e e' : rtc (engine_step planner match_event) e e' → forgets e e'.
Proof.
  induction 1 as [|e1 e2 e3 Hstep _ IH]; [by intros g Hg|]. intros g Hg.
  destruct (step_forgets planner match_event _ _ Hstep g Hg) as [Hg2 H12]. destruct (IH g Hg2). auto.
Qed.

Lemma deliver_fold owners incoming e :
  fold_left (λ e owner, on_registry (record_live_event owner incoming) e) owners e =
  on_registry (fold_left (λ r owner, record_live_event owner incoming r) owners) e.
Proof. revert e. induction owners as [|x l IH]; intros e; [by destruct e|]. cbn. by rewrite IH. Qed.

(** Everything but the counter of generations and the log of spawned work. *)
Definition undisturbed e e' : Prop :=
  en_registry e' = en_registry e ∧ en_cache e' = en_cache e ∧ en_diagnostics e' = en_diagnostics e ∧
  en_slots e' = en_slots e ∧ en_plan_revisions e' = en_plan_revisions e ∧ en_next_token e' = en_next_token e ∧
  en_cancelled e' = en_cancelled e ∧ en_dropped e' = en_dropped e.

(** C11. Once the slot that carried a generation is gone (released, refused or
    reconnected), no later step of the owner brings that generation back, and a
    report that still names it, however late and whatever it says, asks for no
    reconciliation and changes no observation, slot, cached event, diagnostic or
    token; the only work it starts is returning the lease a late acquisition
    brought. *)
Theorem late_report_inert e e' g report net now :
  issued (en_rounds e) g → ¬ live_generation e g → rtc (engine_step planner match_event) e e' →
  report_generation report = Some g →
  let '(dirty, e'') := accept planner match_event net now report e' in
  ¬ live_generation e' g ∧ dirty = false ∧ undisturbed e' e'' ∧
  en_operations e'' = en_operations e' ++ match report with Acquired _ _ lease => [OpRelease lease g] | _ => [] end.
Proof.
  intros Hi Hdead Hrun Hreport.
  assert (¬ live_generation e' g) as Hdead' by (intros Hlive; by apply Hdead, (steps_forget e e' Hrun g Hi)).
  pose proof (λ relay, not_live_slot e' g relay Hdead') as Hslot. clear Hdead Hrun Hi.
  destruct report; (discriminate Hreport || injection Hreport as ->); unfold accept, acquired, refused, installed, flush, connection, carried;
    rewrite ?Hslot, ?app_nil_r; try done; try (by rewrite slot_mut_absent).
  destruct (next_round e') as [next e1] eqn:Hr. unfold next_round in Hr. destruct (issuer_allocate _) as [r rounds].
  injection Hr as <- <-. destruct r as [next|error]; [cbn [en_slots en_set_rounds]|unfold demand_for_slot; cbn [en_slots en_set_rounds]];
    rewrite Hslot; cbn; by rewrite ?app_nil_r.
Qed.

(** C12. An event a relay attributes to a subscription is used only when a slot of
    that generation has the subscription installed, the event verifies, and one
    of the subscription's own filters matches it; then the cache is offered the
    event with this relay, the authority the session established and the arrival
    time, and exactly the observations the subscription serves take it into their
    live state.  Otherwise the owner's state is unchanged. *)
Theorem carried_event_exact e net now relay generation subscription event :
  let e' := carried match_event net now relay generation subscription (ItemEvent event) e in
  let incoming := RelayEvent_new event relay (current_authority net relay generation e) now in
  match slot (en_slots e) relay generation ≫= (λ s, sl_installed s !! subscription) with
  | None => e' = e
  | Some entry =>
      if bool_decide (event_verify event = None) && existsb (λ f, match_event f event) (is_filters entry)
      then en_cache e' = (admit_event (en_cache e) incoming now).2 ∧
           (∀ id, rg_observations (en_registry e') !! id =
              if bool_decide (id ∈ (set_map di_owner (is_serves entry) : gset ObservationId))
              then observe_live incoming <$> rg_observations (en_registry e) !! id
              else rg_observations (en_registry e) !! id) ∧
           en_slots e' = en_slots e ∧ en_operations e' = en_operations e ∧ en_diagnostics e' = en_diagnostics e
      else e' = e
  end.
Proof.
  unfold carried, carried_event. destruct (slot _ _ _) as [s|] eqn:Hs; cbn [mbind option_bind]; [|done].
  destruct (sl_installed s !! subscription) as [entry|] eqn:He; [|done].
  pose proof (admission_exact match_event relay (current_authority net relay generation e)
                {[subscription := is_filters entry]} subscription event now) as Ha.
  rewrite lookup_singleton_eq in Ha. destruct (admit_subscription_event _ _ _ _ _ _ _) as [incoming|error].
  - destruct Ha as ((filters & f & [= <-] & Hf & Hm) & Hv & ->). rewrite bool_decide_eq_true_2 by done.
    rewrite (proj2 (existsb_elem _ _)) by eauto. cbn [andb].
    rewrite deliver_fold. split_and!; try done. intros id. unfold slot_owners. rewrite He.
    cbn [en_registry on_registry on_cache]. unfold record_live_event.
    rewrite updates_lookup by apply NoDup_ordered_elements. set (A := bool_decide (_ ∈ ordered_elements _)). set (B := bool_decide _).
    assert (A = B) as ->.
    { apply bool_decide_ext. rewrite elem_of_ordered_elements, elem_of_list_to_set, list_elem_of_fmap, elem_of_map.
      by setoid_rewrite elem_of_ordered_elements. }
    destruct B; [|done]. destruct (rg_observations (en_registry e) !! id) as [o|]; [|done]. cbn. unfold observe_live.
    f_equal. cbn. destruct (ob_live o !! _); [|done]. by destruct (live_event _ _).
  - destruct (bool_decide (event_verify event = None)) eqn:Hv; [|done]. apply bool_decide_eq_true in Hv. cbn [andb].
    destruct error as [| | |text]; try done; [| |by rewrite Hv in Ha].
    + by injection Ha as ->.
    + destruct Ha as (_ & filters & [= <-] & Hno). by rewrite (proj2 (existsb_not_elem _ _)) by done.
Qed.

(** C9. Every state the owner can reach is coherent, whatever the order and the
    content of the reports: no two slots share a generation or a cancellation
    token, no relay keeps an empty bucket, a slot holds a lease exactly of the
    session it uses, dials only without one, and carries a generation and a plan
    revision this owner issued and a token that has not fired; and every plan
    handed to the wire is the planner's answer for distinct demand and passed
    [validate_plan]. *)
Theorem engine_invariant e : engine_reachable planner match_event e → engine_ok planner e.
Proof. apply engine_reachable_ok. Qed.
End claims.
