(* ===== verification/ObservePlans.v ===== *)
(** * Executing a subscription plan

    [accepted] ([plan.rs]) turns one executed plan into the baseline of the next
    one.  It agrees with the reference [apply_plan] of the planners' test kit
    ([crates/fava-subscriptions-testkit], [scenario.rs]) on every plan that
    passed [validate_plan], and the baseline it leaves carries exactly the demand
    the plan promised.  The file also holds the reports that spawned work sends
    back ([operations.rs]): a plan put on the wire, a session listened to, a
    subscription attended, relay information read. *)

From S2P Require Import Prelude Nostr Relay State Write Query EventCache.
From S2P Require Import Transport Subscriptions Diagnostics Observations Ingest ObserveEngine.

(** ** Spawned work ([operations.rs]) *)

(** [install_plan]; [answers] are what [open_subscription] gave for each position:
    the name the session minted and the token that holds its handle, or nothing. *)
Definition install_plan (relay : RelayUrl) (generation : Round) (revision : PlanRevision) (plan : SubscriptionPlan)
    (answers : list (option (string * nat))) : Report :=
  ReportInstalled relay generation revision plan ((λ answer : option (string * nat), fst <$> answer) <$> answers) (omap id answers)
    (list_to_set (sp_close plan)).

(** One turn of [listen] on the state it reads. *)
Definition listen_turn (relay : RelayUrl) (generation : Round) (seen : RelaySessionIdentity) (state : Connection)
    : list Report * RelaySessionIdentity :=
  let connection := ReportConnection relay generation state in
  if bool_decide (cn_identity state ≠ seen)
  then ([ConnectionReplaced relay generation; connection], cn_identity state)
  else ([connection], seen).

(** [listen] over the states it reads until the sender is dropped. *)
Fixpoint listen (relay : RelayUrl) (generation : Round) (seen : RelaySessionIdentity) (states : list Connection)
    : list Report :=
  match states with
  | [] => [ConnectionEnded]
  | state :: states =>
      let '(reports, seen) := listen_turn relay generation seen state in
      reports ++ listen relay generation seen states
  end.

(** [attend] over the items the subscription gives, up to its end. *)
Fixpoint attend (relay : RelayUrl) (generation : Round) (subscription : string) (items : list SubscriptionItem)
    : list Report :=
  match items with
  | [] => []
  | item :: items =>
      Carried relay generation subscription item ::
      match item with ItemEnded _ => [] | _ => attend relay generation subscription items end
  end.

(** [parse_nip11]; [limitation] is the object of that name in the document, if
    there is one, giving the unsigned number under a key. *)
Definition parse_nip11 (limitation : option (string → option N)) : RelayReadConstraints :=
  match limitation with
  | None => unknown
  | Some numbers =>
      let declared key :=
        match numbers key with
        | Some n => if bool_decide (n = 0%N) then Unknown else Declared (N.to_nat n)
        | None => Unknown
        end in
      mkConstraints (declared "max_subscriptions") (declared "max_message_length")
        (declared "max_subscription_id_length") (declared "max_limit") Unknown
  end.

(** ** The reference ([scenario.rs]) *)

Definition all_opened (plan : SubscriptionPlan) : list (option string) :=
  (λ position, Some (subscription_id (N.of_nat position))) <$> seq 0 (length (sp_open plan)).

Definition applied_retained (baseline : gmap string InstalledSubscription) (plan : SubscriptionPlan)
    : list (string * InstalledSubscription) :=
  omap (λ id,
    if bool_decide (id ∈ sp_close plan) then None
    else attributed ← sp_attribution plan !! id;
         Some (id, mkInstalled (at_filters attributed) (at_serves attributed))) (keys baseline).

(** The second loop is the one of [accepted]. *)
Definition apply_plan (baseline : gmap string InstalledSubscription) (plan : SubscriptionPlan)
    (opened : list (option string)) : gmap string InstalledSubscription :=
  from_entries (applied_retained baseline plan ++ accepted_opened (sp_open plan) opened).

(** ** Entries *)

Lemma from_entries_snoc l id entry : from_entries (l ++ [(id, entry)]) = <[id := entry]> (from_entries l).
Proof. unfold from_entries. by rewrite fold_left_app. Qed.

Lemma from_entries_lookup l id entry : NoDup l.*1 → from_entries l !! id = Some entry ↔ (id, entry) ∈ l.
Proof.
  induction l as [|[k v] l IH] using rev_ind; intros Hnd; [by rewrite elem_of_nil|].
  rewrite fmap_app, NoDup_app in Hnd. destruct Hnd as (Hl & Hk & _).
  rewrite from_entries_snoc, lookup_insert_Some, elem_of_app, list_elem_of_singleton, IH by done. split.
  - intros [[-> ->]|[_ ?]]; [by right|by left].
  - intros [Hin|[= -> ->]]; [|by left]. right. split; [|done]. intros ->.
    apply (Hk id); [apply list_elem_of_fmap; by exists (id, entry)|by left].
Qed.

Lemma omap_keys_NoDup {V W} (f : string * V → option (string * W)) (l : list (string * V)) :
  (∀ kv kw, f kv = Some kw → kw.1 = kv.1) → NoDup l.*1 → NoDup (omap f l).*1.
Proof.
  intros Hf. induction l as [|kv l IH]; cbn; [constructor|]. intros [Hk Hl]%NoDup_cons.
  destruct (f kv) as [kw|] eqn:He; [|auto]. cbn. apply NoDup_cons. split; [|auto].
  rewrite (Hf _ _ He). intros ([k w] & Hkw & ([k' v'] & Hin & Hfk)%list_elem_of_omap)%list_elem_of_fmap. apply Hk.
  pose proof (Hf _ _ Hfk) as Hk'. cbn in Hkw, Hk'. apply list_elem_of_fmap. exists (k', v'). cbn. by rewrite Hkw.
Qed.

Section plans.
Implicit Types (installed : gmap string InstalledSubscription) (plan : SubscriptionPlan) (opened : list (option string)).

Lemma elem_of_accepted_retained installed plan closed id entry :
  (id, entry) ∈ accepted_retained installed plan closed ↔
  id ∉ closed ∧ ∃ current attributed, installed !! id = Some current ∧ sp_attribution plan !! id = Some attributed ∧
    entry = mkInstalled (is_filters current) (at_serves attributed).
Proof.
  unfold accepted_retained. rewrite list_elem_of_omap. split.
  - intros ([k current] & Hin%elem_of_entries & Hs). case_bool_decide as Hc; [done|].
    destruct (sp_attribution plan !! k) as [attributed|] eqn:Ha; [|done]. injection Hs as <- <-. eauto 10.
  - intros (Hc & current & attributed & Hi & Ha & ->). exists (id, current).
    rewrite elem_of_entries, bool_decide_eq_false_2, Ha by done. done.
Qed.

Lemma elem_of_accepted_opened open opened id entry :
  (id, entry) ∈ accepted_opened open opened ↔
  ∃ i planned, open !! i = Some planned ∧ opened !! i = Some (Some id) ∧
    entry = mkInstalled (ps_filters planned) (ps_serves planned).
Proof.
  revert opened. induction open as [|p open IH]; intros [|[o|] opened]; cbn.
  1-4: split; [by intros ?%not_elem_of_nil|]; intros (i & planned & Hi & Ho & _); by rewrite ?lookup_nil in Hi, Ho.
  - rewrite elem_of_cons, IH. split.
    + intros [[= -> ->]|(i & planned & ?)]; [by exists 0, p|by exists (Datatypes.S i), planned].
    + intros ([|i] & planned & Hp & Ho & ->); cbn in *; [left; congruence|right; eauto].
  - rewrite IH. split.
    + intros (i & planned & ?). by exists (Datatypes.S i), planned.
    + intros ([|i] & planned & Hp & Ho & ->); cbn in *; [done|eauto].
Qed.

Lemma accepted_opened_keys open opened : (accepted_opened open opened).*1 `sublist_of` omap id opened.
Proof.
  revert opened. induction open as [|p open IH]; intros [|[o|] opened]; cbn; try apply sublist_nil_l;
    [by apply sublist_skip|apply IH].
Qed.

(** The session names a subscription it opens unlike every other. *)
Definition names_fresh installed opened : Prop :=
  NoDup (omap id opened) ∧ ∀ id, Some id ∈ opened → installed !! id = None.

Lemma accepted_keys_NoDup installed plan opened closed :
  names_fresh installed opened →
  NoDup (accepted_retained installed plan closed ++ accepted_opened (sp_open plan) opened).*1.
Proof.
  intros [Hnd Hfresh]. rewrite fmap_app. apply NoDup_app. split_and!.
  - apply omap_keys_NoDup; [|apply NoDup_keys]. intros [k v] [k' w]. case_bool_decide; [done|].
    by intros (? & _ & [= <- _])%bind_Some.
  - intros x ([k v] & -> & (_ & current & _ & Hi & _)%elem_of_accepted_retained)%list_elem_of_fmap Hx. cbn in Hx.
    eapply elem_of_sublist in Hx; [|apply accepted_opened_keys].
    apply list_elem_of_omap in Hx as (o & Hin & Ho). cbn in Ho. subst o. rewrite (Hfresh k Hin) in Hi. done.
  - by eapply sublist_NoDup; [|apply accepted_opened_keys].
Qed.

(** The entries of the baseline an executed plan leaves. *)
Lemma accepted_lookup installed plan opened closed id entry :
  names_fresh installed opened →
  accepted installed plan opened closed !! id = Some entry ↔
  (id ∉ closed ∧ ∃ current attributed, installed !! id = Some current ∧ sp_attribution plan !! id = Some attributed ∧
     entry = mkInstalled (is_filters current) (at_serves attributed)) ∨
  (∃ i planned, sp_open plan !! i = Some planned ∧ opened !! i = Some (Some id) ∧
     entry = mkInstalled (ps_filters planned) (ps_serves planned)).
Proof.
  intros Hfresh. unfold accepted. rewrite from_entries_lookup by (by apply accepted_keys_NoDup).
  by rewrite elem_of_app, elem_of_accepted_retained, elem_of_accepted_opened.
Qed.

Lemma omap_ext_elem {A B} (f g : A → option B) (l : list A) : (∀ x, x ∈ l → f x = g x) → omap f l = omap g l.
Proof.
  induction l as [|x l IH]; intros Hfg; [done|]. cbn. rewrite (Hfg x) by (by left).
  by rewrite IH by (intros; apply Hfg; by right).
Qed.

Lemma omap_over_fmap {A B C} (g : A → B) (f : B → option C) (l : list A) : omap f (g <$> l) = omap (f ∘ g) l.
Proof. induction l as [|x l IH]; [done|]. cbn. by rewrite IH. Qed.

Lemma applied_accepted installed plan :
  (∀ id current attributed, installed !! id = Some current → sp_attribution plan !! id = Some attributed →
     at_filters attributed = is_filters current) →
  applied_retained installed plan = accepted_retained installed plan (list_to_set (sp_close plan)).
Proof.
  intros Hfilters. unfold applied_retained, accepted_retained, keys. rewrite omap_over_fmap.
  apply omap_ext_elem. intros [id current] Hin%elem_of_entries. cbn.
  rewrite (bool_decide_ext (id ∈ list_to_set (sp_close plan)) (id ∈ sp_close plan)) by apply elem_of_list_to_set.
  destruct (bool_decide _); [done|]. destruct (sp_attribution plan !! id) as [attributed|] eqn:Ha; [|done]. cbn.
  by rewrite (Hfilters id current attributed).
Qed.

(** The baseline that [closed], all the plan's closes, leaves. *)
Lemma accepted_serves (relay : RelayUrl) (demand : list RelayDemand) (constraints : RelayReadConstraints)
    installed plan opened
    (Hvalid : validate_plan relay demand constraints installed plan = Ok tt)
    (Hlength : length opened = length (sp_open plan)) (Hfresh : names_fresh installed opened) :
  let after := accepted installed plan opened (list_to_set (sp_close plan)) in
  after = apply_plan installed plan opened ∧
  (∀ id current, installed !! id = Some current → id ∈ sp_retain plan →
     ∃ entry, after !! id = Some entry ∧ is_filters entry = is_filters current) ∧
  (∀ id entry d, after !! id = Some entry → d ∈ is_serves entry → d ∈ demand_ids demand) ∧
  (∀ d, d ∈ demand_ids demand →
     (∃ id entry, after !! id = Some entry ∧ d ∈ is_serves entry) ∨ plan_omits plan d ∨
     (∃ i planned, sp_open plan !! i = Some planned ∧ opened !! i = Some None ∧ d ∈ ps_serves planned)).
Proof.
  apply validate_plan_conforms in Hvalid as [_ Honce Hinst Hattr _ Hsame Hacc Hinv _ _ _ _].
  apply NoDup_app in Honce as (_ & Hdisj & _). intros after. unfold after. split_and!.
  - unfold accepted, apply_plan. rewrite applied_accepted; [done|]. intros id current attributed Hi Ha.
    apply (Hsame id); [apply Hattr; eauto|done..].
  - intros id current Hi Hr. destruct (proj2 (Hattr id) Hr) as [attributed Ha].
    exists (mkInstalled (is_filters current) (at_serves attributed)). split; [|done].
    apply accepted_lookup; [done|]. left. rewrite elem_of_list_to_set. split; [by apply Hdisj|eauto].
  - intros id entry d [(_ & current & attributed & _ & Ha & ->)|(i & planned & Hp & _ & ->)]%accepted_lookup Hd;
      [..|done]; apply Hinv; left; [left; eauto|right]. exists planned. split; [|done]. by eapply list_elem_of_lookup_2.
  - intros d [[(id & attributed & Ha & Hd)|(planned & Hin & Hd)]|Hs]%Hacc; [left| |tauto].
    + assert (id ∈ sp_retain plan) as Hr by (apply Hattr; eauto).
      destruct (Hinst id) as [current Hi]; [apply elem_of_app; by left|].
      exists id, (mkInstalled (is_filters current) (at_serves attributed)). split; [|done].
      apply accepted_lookup; [done|]. left. rewrite elem_of_list_to_set. split; [by apply Hdisj|eauto].
    + apply list_elem_of_lookup in Hin as [i Hi].
      destruct (lookup_lt_is_Some_2 opened i) as [[id|] Ho].
      { rewrite Hlength. by eapply lookup_lt_Some. }
      * left. exists id, (mkInstalled (ps_filters planned) (ps_serves planned)). split; [|done].
        apply accepted_lookup; [done|]. right. eauto.
      * right. right. eauto.
Qed.

(** C13. Executing a plan that passed [validate_plan] leaves the baseline the plan
    promised.  With what [install_plan] reports it is the reference [apply_plan];
    a subscription that was running and is kept has the very filters it had; what
    is served was asked for; and every demand is served, or the plan reported its
    shortfall, or the relay session refused the one subscription meant for it. *)
Theorem executed_plan_serves (relay : RelayUrl) (generation : Round) (revision : PlanRevision)
    (demand : list RelayDemand) (constraints : RelayReadConstraints) installed plan
    (answers : list (option (string * nat)))
    (Hvalid : validate_plan relay demand constraints installed plan = Ok tt)
    (Hlength : length answers = length (sp_open plan))
    (Hfresh : names_fresh installed ((λ answer : option (string * nat), fst <$> answer) <$> answers)) :
  match install_plan relay generation revision plan answers with
  | ReportInstalled _ _ _ _ opened _ closed =>
      let after := accepted installed plan opened closed in
      after = apply_plan installed plan opened ∧
      (∀ id current, installed !! id = Some current → id ∈ sp_retain plan →
         ∃ entry, after !! id = Some entry ∧ is_filters entry = is_filters current) ∧
      (∀ id entry d, after !! id = Some entry → d ∈ is_serves entry → d ∈ demand_ids demand) ∧
      (∀ d, d ∈ demand_ids demand →
         (∃ id entry, after !! id = Some entry ∧ d ∈ is_serves entry) ∨ plan_omits plan d ∨
         (∃ i planned, sp_open plan !! i = Some planned ∧ opened !! i = Some None ∧ d ∈ ps_serves planned))
  | _ => False
  end.
Proof. apply (accepted_serves relay demand constraints); [done|by rewrite length_fmap|done]. Qed.

(** [validate_plan] asks nothing of a running subscription that the plan names
    neither to retain nor to close: the baseline loses it, and what it serves is
    left to the plan, while its wire subscription stays open. *)
Theorem unnamed_subscription_forgotten (relay : RelayUrl) (demand : list RelayDemand)
    (constraints : RelayReadConstraints) installed plan opened id current
    (Hvalid : validate_plan relay demand constraints installed plan = Ok tt)
    (Hfresh : names_fresh installed opened) (Hrunning : installed !! id = Some current)
    (Hretain : id ∉ sp_retain plan) (Hclose : id ∉ sp_close plan) :
  accepted installed plan opened (list_to_set (sp_close plan)) !! id = None.
Proof.
  apply validate_plan_conforms in Hvalid as [_ _ _ Hattr _ _ _ _ _ _ _ _].
  apply eq_None_not_Some. intros [entry [(_ & c & a & _ & Ha & _)|(i & p & _ & Ho & _)]%accepted_lookup]; [..|done].
  - apply Hretain, Hattr. eauto.
  - destruct Hfresh as [_ Hfresh]. rewrite (Hfresh id) in Hrunning by (by eapply list_elem_of_lookup_2). done.
Qed.
End plans.

Module ObservePlansWitness.
Local Open Scope N_scope.
Definition relay : RelayUrl := "wss://relay".
Definition filter_of (author : PublicKey) : Filter :=
  mkFilter None (Some {[author]}) (Some {[1%N]}) None None None None ∅.
Definition demand_of (owner : N) (author : PublicKey) : RelayDemand := mkDemand owner 0 (filter_of author) (mkBounds None None None).
Definition demand : list RelayDemand := [demand_of 1 11; demand_of 2 22].
Definition installed : gmap string InstalledSubscription :=
  {["a" := mkInstalled [filter_of 11] {[mkDemandId 1 0]}]} .
Definition plan : SubscriptionPlan :=
  mkSubscriptionPlan relay (mkPlanRevision 7 1) [mkPlannedSub [filter_of 22] {[mkDemandId 2 0]} Proven] ["a"] []
    {["a" := mkAttributed [filter_of 11] {[mkDemandId 1 0]} Proven]} [].
(** The plan that leaves the running subscription out. *)
Definition forgetful : SubscriptionPlan :=
  mkSubscriptionPlan relay (mkPlanRevision 7 1)
    [mkPlannedSub [filter_of 11] {[mkDemandId 1 0]} Proven; mkPlannedSub [filter_of 22] {[mkDemandId 2 0]} Proven] [] [] ∅ [].

Lemma opened_fresh : names_fresh installed [Some "b"].
Proof.
  split; [apply NoDup_singleton|]. intros id [= ->]%list_elem_of_singleton. reflexivity.
Qed.

Lemma executed_plan_serves_witness :
  let after := accepted installed plan [Some "b"] ∅ in
  after = apply_plan installed plan [Some "b"] ∧ is_serves <$> after !! "b" = Some {[mkDemandId 2 0]}.
Proof.
  split; [|vm_compute; reflexivity].
  exact (proj1 (executed_plan_serves relay (mkRound 7 1) (mkPlanRevision 7 1) demand unknown installed plan
                  [Some ("b"%string, 4%nat)] ltac:(vm_compute; reflexivity) eq_refl opened_fresh)).
Defined.

(** A plan that duplicates the running request and forgets it is accepted. *)
Example forgetful_plan_accepted :
  validate_plan relay demand unknown installed forgetful = Ok tt ∧
  keys (accepted installed forgetful [Some "b"; Some "c"] ∅) = ["b"; "c"].
Proof. split; vm_compute; reflexivity. Qed.
End ObservePlansWitness.
