(* ===== verification/ObserveReconcile.v ===== *)
(** * Reconciliation reaches every demanded relay

    One pass of [Engine::reconcile] leaves slots only at relays that some active
    observation wants, and a slot that can serve every authority wanted there. *)

From S2P Require Import Prelude Nostr Relay State Write Query EventCache.
From S2P Require Import Transport Subscriptions Diagnostics Observations ObservationsProps Ingest ObserveEngine.
From S2P Require Import ObserveEngineProps ObserveSafety.

(** ** Demand under changes of evidence *)

Lemma elem_of_desired_at r s x :
  x ∈ desired_at r s ↔ ∃ id o, rg_observations r !! id = Some o ∧ contributes s o = Some x.
Proof.
  rewrite desired_at_omap, list_elem_of_omap. split.
  - intros (o & [id Ho]%elem_of_values & Hc). eauto.
  - intros (id & o & Ho & Hc). exists o. split; [apply elem_of_values; eauto|done].
Qed.

Lemma update_desired id change r s x :
  (∀ o, rg_observations r !! id = Some o → contributes s (change o).2 = contributes s o) →
  x ∈ desired_at (update id change r) s ↔ x ∈ desired_at r s.
Proof.
  intros Hc. rewrite !elem_of_desired_at. setoid_rewrite update_observations.
  split; intros (j & o & Ho & Hx).
  - destruct (decide (id = j)) as [<-|Hne]; [|rewrite lookup_alter_ne in Ho by done; eauto].
    rewrite lookup_alter_eq in Ho. apply fmap_Some in Ho as (o' & Ho' & ->). rewrite Hc in Hx by done. eauto.
  - destruct (decide (id = j)) as [<-|Hne].
    + exists id, (change o).2. rewrite lookup_alter_eq, Ho, Hc by done. done.
    + exists j, o. by rewrite lookup_alter_ne.
Qed.

Lemma on_relay_contributes session f o s :
  (∀ a, ob_active o = true → ob_relays o !! session = Some a →
     is_withdrawn (rq_state (f (as_evidence a)).2) = is_withdrawn (rq_state (as_evidence a))) →
  contributes s (on_relay session f o).2 = contributes s o.
Proof.
  intros Hw. unfold on_relay, contributes. destruct (ob_relays o !! session) as [a|] eqn:Ha; [|done].
  specialize (Hw a). destruct (f (as_evidence a)) as [changed evidence]. cbn in *.
  destruct (ob_active o); [|done]. destruct (decide (session = s)) as [->|Hne].
  - rewrite lookup_insert_eq, Ha. cbn. by rewrite Hw.
  - by rewrite lookup_insert_ne.
Qed.

Section reconcile.
Context {S : Type} `{!Nostr} `{!EventCache S} `{!CoverageCache S} `{!EngineText}.
Context (planner : RelayUrl → list RelayDemand → RelayReadConstraints → gmap string InstalledSubscription →
                   PlanRevision → result SubscriptionPlanError SubscriptionPlan).
Context (match_event : Filter → Event → bool).
Context (net : nat → Connection).
Implicit Types e : Engine S.

Definition serves_at e (relay : RelayUrl) (authority : Authority) : Prop :=
  ∃ i s, at_ (en_slots e) relay i s ∧ slot_can_serve net authority s = true.

Lemma serves_at_index e relay authority :
  serves_at e relay authority ↔ slot_index_for net (en_slots e) relay authority ≠ None.
Proof.
  unfold serves_at, slot_index_for, at_. destruct (en_slots e !! relay) as [bucket|]; cbn.
  - split.
    + intros (i & s & (b & [= <-] & Hi) & Hs) Hno. apply list_elem_of_lookup_2 in Hi.
      rewrite (proj1 (position_absent _ _) Hno s Hi) in Hs. done.
    + intros Hn. destruct (position _ bucket) as [i|] eqn:Hp; [|done].
      apply position_lookup in Hp as (s & Hi & Hs). exists i, s. split; [by exists bucket|done].
  - split; [|done]. by intros (i & s & (b & ? & _) & _).
Qed.

Definition wanted e (relay : RelayUrl) (owner : ObservationId) : Prop :=
  ∃ item, item ∈ desired_at (en_registry e) relay ∧ rd_owner item.1 = owner.

(** What a step of reconciliation keeps: the demand, the reach of the slots, and
    no slot where nothing is wanted. *)
Record keeps e e' : Prop := {
  kp_ok : engine_ok planner e';
  kp_demand : ∀ relay x, x ∈ desired_at (en_registry e') relay ↔ x ∈ desired_at (en_registry e) relay;
  kp_relays : ∀ relay, is_Some (en_slots e' !! relay) →
    is_Some (en_slots e !! relay) ∨ desired_at (en_registry e) relay ≠ [];
  kp_serves : ∀ relay d authority, (d, authority) ∈ desired_at (en_registry e) relay →
    serves_at e relay authority → serves_at e' relay authority;
  kp_rounds : ri_next (en_rounds e) = None → ri_next (en_rounds e') = None
}.

Definition steady e e' : Prop := engine_ok planner e → keeps e e'.

#[local] Instance steady_preorder : PreOrder steady.
Proof.
  split; [by intros e Hok; split; try done; eauto|].
  intros e1 e2 e3 H12 H23 Hok. destruct (H12 Hok) as [Hok2 Hd2 Hr2 Hs2 Hn2]. destruct (H23 Hok2) as [Hok3 Hd3 Hr3 Hs3 Hn3].
  split; [done|..].
  - intros relay x. by rewrite Hd3, Hd2.
  - intros relay [?|Hn]%Hr3; [auto|]. right. destruct (desired_at (en_registry e2) relay) as [|x l] eqn:Hl; [done|].
    intros Hnil. assert (x ∈ desired_at (en_registry e1) relay) as Hx by (apply Hd2; rewrite Hl; left).
    rewrite Hnil in Hx. by apply not_elem_of_nil in Hx.
  - intros relay d authority Hd Hs. apply (Hs3 relay d); [by apply Hd2|by apply (Hs2 relay d)].
  - auto.
Qed.

Lemma steady_with e e' : (engine_ok planner e → steady e e') → steady e e'.
Proof. intros He Hok. by apply He. Qed.

Lemma fold_steady {A} (f : Engine S → A → Engine S) l e :
  (∀ e x, x ∈ l → steady e (f e x)) → steady e (fold_left f l e).
Proof.
  revert e. induction l as [|x l IH]; intros e Hf; [done|]. cbn. etrans; [apply Hf; by left|].
  apply IH. intros; apply Hf. by right.
Qed.

(** Only the registry changes, and no demand. *)
Lemma registry_steady e e' :
  quiet e e' → (engine_ok planner e → ∀ relay x, x ∈ desired_at (en_registry e') relay ↔ x ∈ desired_at (en_registry e) relay) →
  steady e e'.
Proof.
  intros Hq Hd Hok. pose proof (quiet_ok planner e e' Hq Hok). destruct Hq as [_ Hs Hr _ _ _ _ _]. split; [done|auto|..].
  - rewrite Hs. auto.
  - unfold serves_at. by rewrite Hs.
  - by rewrite Hr.
Qed.

Lemma evidence_steady id change e :
  quiet e (on_registry (update id change) e) →
  (engine_ok planner e → ∀ o s, rg_observations (en_registry e) !! id = Some o → contributes s (change o).2 = contributes s o) →
  steady e (on_registry (update id change) e).
Proof. intros Hq Hc. apply registry_steady; [done|]. intros Hok relay x. apply update_desired. intros. by apply Hc. Qed.

Lemma sharing_steady id session revision shared short e :
  steady e (on_registry (record_sharing id session revision shared short) e).
Proof. apply evidence_steady; [apply quiet_sharing|]. intros _ o s _. by apply on_relay_contributes. Qed.

Lemma plan_steady id plan e : steady e (on_registry (record_plan id plan) e).
Proof. apply evidence_steady; [apply quiet_plan|]. by intros. Qed.

Lemma state_steady id session generation next e :
  is_withdrawn next = false → wanted e session id → steady e (on_registry (record_state id session generation next) e).
Proof.
  intros Hw ([d access] & Hd & <-). apply evidence_steady; [apply quiet_state|]. intros Hok o s Ho.
  apply on_relay_contributes. intros a _ Ha. cbn.
  apply elem_of_desired in Hd as (o' & Ho' & _ & _ & a' & Ha' & Hw' & _);
    [|by apply registry_reachable_ok, (eo_registry planner)].
  cbn [fst] in Ho. assert (o' = o) as -> by congruence. assert (a' = a) as -> by congruence.
  change (is_withdrawn next = is_withdrawn (rq_state (as_evidence a))). by rewrite Hw, Hw'.
Qed.

Lemma steady_wanted e e' relay owner : engine_ok planner e → steady e e' → wanted e relay owner → wanted e' relay owner.
Proof. intros Hok Hs (item & Hin & Ho). exists item. split; [|done]. by apply (Hs Hok). Qed.

Lemma states_steady {A} (owner : A → ObservationId) relay generation state l e :
  is_withdrawn state = false → (∀ x, x ∈ l → wanted e relay (owner x)) →
  steady e (fold_left (λ e x, on_registry (record_state (owner x) relay generation state) e) l e).
Proof.
  intros Hw. revert e. induction l as [|x l IH]; intros e Hl; [done|]. apply steady_with. intros Hok. cbn.
  pose proof (state_steady (owner x) relay generation state e Hw (Hl x (list_elem_of_here _ _))) as Hx.
  etrans; [exact Hx|]. apply IH. intros y Hy. eapply steady_wanted; [done..|]. apply Hl. by right.
Qed.

Lemma publish_states_steady relay demand generation state e :
  is_withdrawn state = false → (∀ d, d ∈ demand → wanted e relay (rd_owner d)) →
  steady e (publish_states relay demand generation state e).
Proof. apply states_steady. Qed.

Lemma publish_plan_steady relay generation cohort planned e : steady e (publish_plan relay generation cohort planned e).
Proof.
  unfold publish_plan. case_match; [|done]. apply fold_steady. intros e' item _.
  etrans; [apply sharing_steady|apply plan_steady].
Qed.

Lemma diagnostics_steady f e : steady e (on_diagnostics f e).
Proof. by apply registry_steady; [apply quiet_diagnostics|]. Qed.

Lemma publish_diagnostic_steady relay generation e : steady e (publish_relay_diagnostic net relay generation e).
Proof. unfold publish_relay_diagnostic. case_match; [apply diagnostics_steady|done]. Qed.

Lemma spawn_steady op e : operation_ok planner e op → steady e (spawn op e).
Proof. intros Hop Hok. split; try done; [by apply spawn_ok|cbn; auto]. Qed.

(** A slot changed in fields other than its session and what it was opened for. *)
Lemma slot_mut_steady relay generation f e :
  (engine_ok planner e → engine_ok planner (slot_mut relay generation f e)) →
  (engine_ok planner e → ∀ s, slot (en_slots e) relay generation = Some s →
     sl_session (f s) = sl_session s ∧ sl_requested (f s) = sl_requested s) →
  steady e (slot_mut relay generation f e).
Proof.
  intros Hpres Hf Hok. specialize (Hf Hok). destruct (slot_mut_fields relay generation f e) as (Hr & Hro & _). split.
  - auto.
  - by rewrite Hr.
  - intros r [b Hb]. left. rewrite slot_mut_lookup in Hb.
    destruct (decide (r = relay)) as [->|]; [|eauto]. destruct (slot_index_by_generation _ _ _); [|eauto].
    apply fmap_Some in Hb as (b' & Hb' & _). eauto.
  - intros r d authority _ (i & s & (b & Hb & Hi) & Hs). unfold serves_at, at_. rewrite slot_mut_lookup.
    destruct (decide (r = relay)) as [->|]; [|eauto 10]. rewrite Hb.
    destruct (slot_index_by_generation (en_slots e) relay generation) as [j|] eqn:Hj; [|eauto 10].
    destruct (decide (j = i)) as [->|Hne].
    + exists i, (f s). split; [exists (alter f i b); split; [done|]; by rewrite list_lookup_alter_eq, Hi|].
      apply slot_index_Some in Hj as (b' & s' & Hb' & Hi' & _ & Hs'). assert (s' = s) as -> by congruence.
      destruct (Hf s Hs') as [Hf1 Hf2]. unfold slot_can_serve in *. by rewrite Hf1, Hf2.
    + exists i, s. split; [|done]. exists (alter f j b). split; [done|]. by rewrite list_lookup_alter_ne.
  - by rewrite Hro.
Qed.

(** The demand a slot is planned for is wanted. *)
Lemma demand_for_slot_wanted relay generation e d :
  d ∈ demand_for_slot net relay generation e → wanted e relay (rd_owner d).
Proof.
  unfold demand_for_slot. destruct (slot _ _ _); [|by intros ?%not_elem_of_nil].
  intros ([d' a] & -> & Hin)%list_elem_of_fmap. apply list_elem_of_In, filter_In in Hin as [Hin _].
  apply list_elem_of_In in Hin. by exists (d', a).
Qed.

Lemma teardown_slots s e : en_slots (teardown_slot s e) = en_slots e.
Proof. unfold teardown_slot. by case_match. Qed.

Lemma release_slot_at relay generation e r i s :
  at_ (en_slots e) r i s → (r = relay → sl_generation s ≠ generation) →
  ∃ j, at_ (en_slots (release_slot relay generation e)) r j s.
Proof.
  intros (b & Hb & Hi) Hg. unfold release_slot.
  destruct (en_slots e !! relay) as [bucket|] eqn:Hbucket; [|exists i; by exists b].
  destruct (position _ bucket) as [index|] eqn:Hp; [|exists i; by exists b].
  destruct (bucket !! index) as [x|] eqn:Hx; [|exists i; by exists b]. rewrite teardown_slots.
  apply position_lookup in Hp as (x' & Hx' & Hgen%bool_decide_eq_true). assert (x' = x) as -> by congruence.
  destruct (decide (r = relay)) as [->|Hne].
  - assert (b = bucket) as -> by congruence. specialize (Hg eq_refl).
    assert (index ≠ i) by (intros ->; congruence).
    assert (∃ j, delete index bucket !! j = Some s) as [j Hj].
    { destruct (decide (i < index)); [exists i; by rewrite list_lookup_delete_lt|].
      exists (i - 1). rewrite list_lookup_delete_ge by lia. by replace (Datatypes.S (i - 1)) with i by lia. }
    exists j, (delete index bucket). destruct (delete index bucket); [done|]. cbn. by rewrite lookup_insert_eq.
  - exists i, b. split; [|done]. case_match; cbn; [by rewrite lookup_delete_ne|by rewrite lookup_insert_ne].
Qed.

(** The demand routed to a slot counts as its demand. *)
Lemma routed_demand relay i s d authority e :
  (d, authority) ∈ desired_at (en_registry e) relay → slot_index_for net (en_slots e) relay authority = Some i →
  at_ (en_slots e) relay i s → d ∈ demand_for_slot net relay (sl_generation s) e.
Proof.
  intros Hd Hi (b & Hb & Hs). unfold demand_for_slot. destruct (slot _ _ _) as [s'|] eqn:Hslot.
  - apply list_elem_of_fmap. exists (d, authority). split; [done|]. apply list_elem_of_In, filter_In.
    split; [by apply list_elem_of_In|]. rewrite Hi. cbn. rewrite Hb. cbn. rewrite Hs.
    rewrite orb_comm, bool_decide_eq_true_2 by done. done.
  - apply slot_None in Hslot. unfold slot_index_by_generation in Hslot. rewrite Hb in Hslot. cbn in Hslot.
    rewrite position_absent in Hslot. specialize (Hslot s (list_elem_of_lookup_2 _ _ _ Hs)).
    by apply bool_decide_eq_false in Hslot.
Qed.

(** A slot without demand is not the one any demand is routed to. *)
Lemma release_slot_steady relay generation e :
  demand_for_slot net relay generation e = [] → steady e (release_slot relay generation e).
Proof.
  intros Hnone Hok. split; [by apply release_slot_ok|..].
  - intros r x. unfold release_slot, teardown_slot. repeat case_match; done.
  - intros r. unfold release_slot.
    destruct (en_slots e !! relay) as [bucket|] eqn:Hb; [|auto].
    destruct (position _ bucket) as [index|]; [|auto]. destruct (bucket !! index) as [s|]; [|auto].
    rewrite teardown_slots. case_match; cbn; [intros [b [_ Hd]%lookup_delete_Some]; eauto|].
    intros [b [[<- _]|[_ ?]]%lookup_insert_Some]; eauto.
  - intros r d authority Hd Hs. apply serves_at_index in Hs.
    destruct (slot_index_for net (en_slots e) r authority) as [i|] eqn:Hi; [|done].
    pose proof Hi as Hi'. unfold slot_index_for in Hi'. destruct (en_slots e !! r) as [b|] eqn:Hb; [|done].
    apply position_lookup in Hi' as (s & Hbi & Hcan).
    assert (at_ (en_slots e) r i s) as Hat by (by exists b).
    destruct (release_slot_at relay generation e r i s Hat) as [j Hj]; [|by exists j, s].
    intros -> Hg. pose proof (routed_demand relay i s d authority e Hd Hi Hat) as Hin.
    rewrite Hg, Hnone in Hin. by apply not_elem_of_nil in Hin.
  - intros Hn. unfold release_slot, teardown_slot. repeat case_match; done.
Qed.

Lemma slot_fields_steady relay generation f e :
  (∀ s, slot_ok e s → slot_ok e (f s) ∧ sl_generation (f s) = sl_generation s ∧ sl_cancel (f s) = sl_cancel s) →
  (∀ s, sl_session (f s) = sl_session s ∧ sl_requested (f s) = sl_requested s) →
  steady e (slot_mut relay generation f e).
Proof.
  intros Hf Hsame. apply slot_mut_steady; [|auto]. intros Hok. apply slot_mut_ok; [done|auto].
Qed.

Lemma attach_credited s demand w x :
  x ∈ (fold_left (attach_item s) demand w).2 → x ∈ w.2 ∨ ∃ d, d ∈ demand ∧ x = demand_id d.
Proof.
  revert w. induction demand as [|d demand IH]; intros w; [auto|]. cbn. intros [Hw|(d' & Hd' & ->)]%IH.
  - destruct w as [[l changed] credited]. unfold attach_item in Hw. destruct (existsb _ l); [auto|].
    destruct (attach_entry d l) as [[wire l']|]; [|auto]. cbn in *. destruct (default false _); [|auto].
    apply elem_of_app in Hw as [?| ->%list_elem_of_singleton]; [auto|]. right. exists d. split; [by left|done].
  - right. exists d'. split; [by right|done].
Qed.

Lemma attach_steady now relay generation demand e :
  (∀ d, d ∈ demand → wanted e relay (rd_owner d)) → steady e (attach net now relay generation demand e).
Proof.
  intros Hw. apply steady_with. intros Hok. unfold attach. destruct (slot _ _ _) as [s|]; [|done].
  pose proof (attach_credited s demand (entries (sl_installed s), false, [])) as Hc.
  destruct (fold_left _ _ _) as [[l changed] credited]. destruct changed; [|done].
  set (e1 := slot_mut _ _ _ e).
  assert (steady e e1) as H1 by (apply slot_fields_steady; [intros ? [? ? ? ? ?]; split; [by split|done]|done]).
  set (e2 := publish_plan _ _ _ _ e1). assert (steady e e2) as H2 by (etrans; [exact H1|apply publish_plan_steady]).
  clearbody e2. etrans; [exact H2|]. etrans; [|apply publish_diagnostic_steady]. apply states_steady; [done|].
  intros x [Hx|(d & Hd & ->)]%Hc; [by apply not_elem_of_nil in Hx|]. by apply (steady_wanted e); [..|apply Hw].
Qed.

Lemma next_round_steady e r e' :
  next_round e = (r, e') → steady e e' ∧ (∀ error, r = Err error → ri_next (en_rounds e') = None).
Proof.
  intros Hr. split.
  - intros Hok. destruct (next_round_ok planner e r e' Hok Hr) as (Hok' & Hs & Hreg & _).
    split; [done|by rewrite Hreg|rewrite Hs; auto|unfold serves_at; by rewrite Hs|].
    unfold next_round in Hr. intros Hn. unfold issuer_allocate in Hr. rewrite Hn in Hr. by injection Hr as <- <-.
  - intros error ->. unfold next_round, issuer_allocate in Hr. destruct (ri_next (en_rounds e)) eqn:Hn; [done|].
    by injection Hr as _ <-.
Qed.

(** A new slot, at a relay something is wanted from. *)
Lemma new_slot_steady relay authority generation e owner :
  issued (en_rounds e) generation → every_slot (en_slots e) (λ _ s, sl_generation s ≠ generation) → wanted e relay owner →
  let '(token, e1) := fresh_token e in
  let e2 := en_set_slots (<[relay := default [] (en_slots e1 !! relay) ++ [Slot_new token generation authority]]>
                            (en_slots e1)) e1 in
  steady e e2 ∧ serves_at e2 relay authority.
Proof.
  intros Hi Hg (item & Hin & _). pose proof (new_slot_ok planner relay authority generation e) as Hnew.
  unfold fresh_token in *. cbn [en_slots] in *. split.
  - intros Hok. split; cbn; [by apply Hnew|done| |intros r d a _|done].
    + intros r [b [[<- _]|[_ ?]]%lookup_insert_Some]; [|eauto]. right. intros Hnil. rewrite Hnil in Hin.
      by apply not_elem_of_nil in Hin.
    + intros (i & s & (b & Hb & Hs) & Hcan). exists i, s. split; [|done]. unfold at_. cbn.
      destruct (decide (r = relay)) as [->|Hne]; [|exists b; by rewrite lookup_insert_ne].
      rewrite lookup_insert_eq, Hb. eexists. split; [done|]. cbn. by apply lookup_app_l_Some.
  - exists (length (default [] (en_slots e !! relay))), (Slot_new (en_next_token e) generation authority). split.
    + eexists. split; [apply lookup_insert_eq|]. by rewrite lookup_app_r, Nat.sub_diag.
    + cbn. by apply bool_decide_eq_true_2.
Qed.

Definition dial relay authority demand i e : Engine S :=
  match i ≫= (λ i, bucket ← en_slots e !! relay; bucket !! i) with
  | None => e
  | Some s =>
      if sl_busy s || bool_decide (is_Some (sl_session s)) then e
      else publish_states relay demand (Some (sl_generation s)) StateConnecting
             (spawn (OpAcquire relay authority (sl_generation s) (sl_cancel s))
                (slot_mut relay (sl_generation s) (sl_set_held (sl_lease s) None true SessionConnecting) e))
  end.

Lemma dial_steady relay authority demand i e :
  (∀ d, d ∈ demand → wanted e relay (rd_owner d)) → steady e (dial relay authority demand i e).
Proof.
  intros Hw. apply steady_with. intros Hok. unfold dial. destruct i as [i|]; cbn; [|done].
  destruct (en_slots e !! relay) as [bucket|] eqn:Hb; cbn; [|done].
  destruct (bucket !! i) as [s|] eqn:Hs; [|done]. destruct (sl_busy s || _) eqn:Hg; [done|].
  apply orb_false_iff in Hg as [_ Hn%bool_decide_eq_false]. apply eq_None_not_Some in Hn.
  assert (slot_ok e s) as [_ Hl _ _ _] by (eapply (eo_slots planner); [done..|by eapply list_elem_of_lookup_2]).
  assert (steady e (slot_mut relay (sl_generation s) (sl_set_held (sl_lease s) None true SessionConnecting) e)) as H1.
  { apply slot_mut_steady.
    - intros _. apply slot_mut_ok; [done|]. intros s' _ [? ? ? ? ?]. split; [|done]. split; try done. cbn. by rewrite Hl.
    - intros _ s' (b' & j & Hb' & Hj & Hgen & _)%slot_Some. split; [|done]. cbn.
      destruct (eo_generations planner e Hok relay j s' relay i s) as [_ ->]; [by exists b'|by exists bucket|done|].
      assert (b' = bucket) as -> by congruence. congruence. }
  assert (steady e (spawn (OpAcquire relay authority (sl_generation s) (sl_cancel s))
    (slot_mut relay (sl_generation s) (sl_set_held (sl_lease s) None true SessionConnecting) e))) as H2
    by (etrans; [exact H1|by apply spawn_steady]).
  etrans; [exact H2|]. apply publish_states_steady; [done|]. intros d Hd. eapply steady_wanted; [done..|]. by apply Hw.
Qed.

Lemma establish_steady relay authority demand e :
  (∀ d, d ∈ demand → wanted e relay (rd_owner d)) → demand ≠ [] →
  steady e (establish net relay authority demand e).
Proof.
  intros Hw Hne. apply steady_with. intros Hok. unfold establish. destruct (slot_index_for _ _ _ _) as [i|].
  { by apply (dial_steady relay authority demand (Some i) e Hw). }
  destruct (next_round e) as [round e1] eqn:Hr. destruct (next_round_steady e round e1 Hr) as [H1 _].
  assert (∀ d, d ∈ demand → wanted e1 relay (rd_owner d)) as Hw1 by (intros; eapply steady_wanted; eauto).
  destruct (next_round_ok planner e round e1 Hok Hr) as (Hok1 & Hs1 & _ & _ & _ & _ & Hg).
  destruct round as [generation|error].
  2:{ etrans; [exact H1|]. by apply publish_states_steady. }
  destruct (Hg generation eq_refl) as [Hi Hfresh]. rewrite <- Hs1 in Hfresh.
  destruct demand as [|d0 demand]; [done|].
  pose proof (new_slot_steady relay authority generation e1 (rd_owner d0) Hi Hfresh (Hw1 d0 (list_elem_of_here _ _))) as Hnew.
  destruct (fresh_token e1) as [token e2]. destruct Hnew as [H2 _].
  etrans; [exact H1|]. etrans; [exact H2|]. apply (dial_steady relay authority (d0 :: demand) (Some _)). intros d Hd. apply (steady_wanted e1); [done..|auto].
Qed.

(** After [establish] the authority is served, unless generations ran out. *)
Lemma establish_serves relay authority d e :
  engine_ok planner e → (d, authority) ∈ desired_at (en_registry e) relay →
  serves_at (establish net relay authority [d] e) relay authority ∨
  ri_next (en_rounds (establish net relay authority [d] e)) = None.
Proof.
  intros Hok Hd. assert (∀ x, x ∈ [d] → wanted e relay (rd_owner x)) as Hw
    by (intros x ->%list_elem_of_singleton; by exists (d, authority)).
  destruct (slot_index_for net (en_slots e) relay authority) as [i|] eqn:Hi.
  { left. apply (kp_serves _ _ (establish_steady relay authority [d] e Hw ltac:(done) Hok) relay d); [done|].
    apply serves_at_index. congruence. }
  unfold establish. rewrite Hi.
  destruct (next_round e) as [round e1] eqn:Hr. destruct (next_round_steady e round e1 Hr) as [H1 Herr].
  assert (∀ x, x ∈ [d] → wanted e1 relay (rd_owner x)) as Hw1 by (intros; eapply steady_wanted; eauto).
  destruct (next_round_ok planner e round e1 Hok Hr) as (Hok1 & Hs1 & Hreg & _ & _ & _ & Hg).
  destruct round as [generation|error].
  2:{ right. specialize (Herr _ eq_refl). cbn [mbind option_bind].
      apply (kp_rounds e1); [|done]. by apply publish_states_steady. }
  left. destruct (Hg generation eq_refl) as [Hgi Hfresh]. rewrite <- Hs1 in Hfresh.
  pose proof (new_slot_steady relay authority generation e1 (rd_owner d) Hgi Hfresh (Hw1 d (list_elem_of_here _ _))) as Hnew.
  destruct (fresh_token e1) as [token e2]. destruct Hnew as [H2 Hserves].
  pose proof (H2 Hok1) as Hk. rewrite <- Hreg in Hd.
  apply (dial_steady relay authority [d] (Some (length (default [] (en_slots e2 !! relay)))) _
    (λ x Hx, steady_wanted _ _ _ _ Hok1 H2 (Hw1 x Hx)) (kp_ok _ _ Hk)) with d; [|done]. by apply Hk.
Qed.

Ltac fields_kept := apply slot_fields_steady; [intros ? [? ? ? ? ?]; split; [by split|done]|done].

Lemma execute_steady relay generation demand session planned e :
  (∀ c, operation_ok planner e (OpInstall relay generation (sp_revision planned) session planned c)) →
  steady e (execute net relay generation demand session planned e).
Proof.
  intros Hop. unfold execute. set (e1 := slot_mut relay generation _ e).
  assert (steady e e1) as H1 by fields_kept.
  assert (en_rounds e1 = en_rounds e ∧ en_plan_revisions e1 = en_plan_revisions e) as [Hr Hv]
    by (unfold e1; split; apply slot_mut_fields).
  clearbody e1. etrans; [exact H1|]. destruct (is_noop planned).
  - etrans; [|apply publish_diagnostic_steady]. etrans; [|apply publish_plan_steady]. fields_kept.
  - destruct (slot _ _ _) as [s|]; [|done]. etrans; [|apply publish_diagnostic_steady].
    apply spawn_steady. by apply (operation_ok_fields planner e).
Qed.

Lemma flush_steady relay generation e : steady e (flush planner net relay generation e).
Proof.
  apply steady_with. intros Hok. unfold flush. destruct (slot (en_slots e) relay generation) as [s|] eqn:Hs; [|done].
  pose proof (demand_for_slot_distinct planner net relay generation e Hok) as Hnd.
  pose proof (demand_for_slot_wanted relay generation e) as Hw.
  set (demand := demand_for_slot net relay generation e) in *. clearbody demand.
  assert (issued (en_rounds e) generation) as Hi.
  { destruct (slot_elem _ _ _ _ _ (eo_slots planner _ Hok) Hs) as [[] <-]. done. }
  set (e1 := slot_mut relay generation (sl_set_armed false) e).
  assert (steady e e1) as H1 by fields_kept.
  assert (en_rounds e1 = en_rounds e) as Hr by apply slot_mut_fields. rewrite <- Hr in Hi.
  pose proof (kp_ok _ _ (H1 Hok)) as Hok1.
  assert (∀ d, d ∈ demand → wanted e1 relay (rd_owner d)) as Hw1
    by (intros d Hd; apply (steady_wanted e e1 _ _ Hok H1), Hw, Hd).
  clearbody e1. etrans; [exact H1|]. clear Hok Hw H1 Hr Hs.
  destruct (_ && _); [done|]. destruct (sl_session s) as [session|].
  2:{ etrans; [|by apply spawn_steady]. fields_kept. }
  destruct (next_revision e1) as [revision e2] eqn:Hrev.
  destruct (next_revision_ok planner e1 revision e2 Hok1 Hrev) as (Hok2 & Hs2 & Hg2 & Hr2 & Hri). rewrite <- Hr2 in Hi.
  assert (steady e1 e2) as H2.
  { intros _. split; [done|by rewrite Hg2|rewrite Hs2; auto|unfold serves_at; by rewrite Hs2|by rewrite Hr2]. }
  etrans; [exact H2|]. destruct revision as [revision|error].
  2:{ apply publish_states_steady; [done|]. intros d Hd. apply (steady_wanted e1 e2 _ _ Hok1 H2), Hw1, Hd. }
  specialize (Hri revision eq_refl). set (e3 := slot_mut relay generation (sl_set_revision (Some revision)) e2).
  assert (steady e2 e3) as H3.
  { apply slot_fields_steady; [|done]. intros s' [? ? ? ? ?]. split; [|done]. split; try done. cbn. by intros r [= <-]. }
  assert (en_rounds e3 = en_rounds e2 ∧ en_plan_revisions e3 = en_plan_revisions e2) as [Hr3 Hv3]
    by (unfold e3; split; apply slot_mut_fields).
  clearbody e3. etrans; [exact H3|]. destruct (checked_plan _ _ _ _ _ _) as [planned|text] eqn:Hplan;
    [|apply diagnostics_steady].
  apply execute_steady. intros c. apply (operation_ok_fields planner e2); [done..|]. by eapply checked_plan_ok.
Qed.

Lemma reconcile_slot_steady now relay generation e : steady e (reconcile_slot planner net now relay e generation).
Proof.
  unfold reconcile_slot. case_bool_decide as Hd; [by apply release_slot_steady|].
  set (e1 := attach _ _ _ _ _ e).
  assert (steady e e1) as H1 by (apply attach_steady; intros d Hin; by eapply demand_for_slot_wanted).
  clearbody e1. etrans; [exact H1|]. destruct (slot _ _ _) as [s|]; [|done].
  destruct (orphaned s _); [apply flush_steady|]. destruct (_ || _); [done|].
  etrans; [|by apply spawn_steady]. fields_kept.
Qed.

(** Every authority of [items] is served, or generations ran out. *)
Definition reached relay (items : list (RelayDemand * Authority)) e : Prop :=
  ri_next (en_rounds e) = None ∨ ∀ d authority, (d, authority) ∈ items → serves_at e relay authority.

Lemma keeps_reached relay items e e' :
  keeps e e' → (∀ x, x ∈ items → x ∈ desired_at (en_registry e) relay) → reached relay items e → reached relay items e'.
Proof.
  intros Hk Hin [Hn|Hs]; [left; by apply Hk|]. right. intros d authority Hd. apply (kp_serves _ _ Hk relay d); auto.
  by apply (Hs d).
Qed.

Lemma establish_missing_reached relay items e :
  engine_ok planner e → (∀ x, x ∈ items → x ∈ desired_at (en_registry e) relay) →
  let e' := fold_left (establish_missing net relay) items e in keeps e e' ∧ reached relay items e'.
Proof.
  revert e. induction items as [|[d authority] items IH]; intros e Hok Hin; cbn.
  { split; [by apply steady_preorder|]. right. by intros ? ? ?%not_elem_of_nil. }
  set (e1 := establish_missing net relay e (d, authority)).
  assert ((d, authority) ∈ desired_at (en_registry e) relay) as Hd by (apply Hin; by left).
  assert (keeps e e1 ∧ (serves_at e1 relay authority ∨ ri_next (en_rounds e1) = None)) as [H1 Hone].
  { unfold e1, establish_missing. cbn. case_bool_decide as Hidx.
    - split; [|by apply establish_serves]. apply establish_steady; [|done|done].
      intros x ->%list_elem_of_singleton. by exists (d, authority).
    - split; [by apply steady_preorder|]. left. by apply serves_at_index. }
  destruct (IH e1) as [H2 Hrest]; [apply H1|intros x Hx; apply H1, Hin; by right|]. split.
  - exact (transitivity (R := steady) (λ _, H1) (λ _, H2) Hok).
  - destruct Hone as [Hone|Hn]; [|left; by apply H2]. destruct Hrest as [Hn|Hrest]; [by left|]. right.
    intros d' a [[= -> ->]|Hx]%elem_of_cons; [|by apply (Hrest d')]. apply (kp_serves _ _ H2 relay d); [|done].
    by apply H1.
Qed.

Lemma reconcile_relay_reached now relay items e :
  engine_ok planner e → (∀ x, x ∈ items → x ∈ desired_at (en_registry e) relay) →
  let e' := reconcile_relay planner net now e (relay, items) in keeps e e' ∧ reached relay items e'.
Proof.
  intros Hok Hin. destruct (establish_missing_reached relay items e Hok Hin) as [H1 Hreach]. cbn.
  set (e1 := fold_left _ items e) in *. clearbody e1.
  set (e2 := fold_left _ _ e1). assert (keeps e1 e2) as H2.
  { apply fold_steady; [|apply H1]. intros; apply reconcile_slot_steady. }
  split; [exact (transitivity (R := steady) (λ _, H1) (λ _, H2) Hok)|].
  eapply keeps_reached; [exact H2| |done]. intros x Hx. by apply H1, Hin.
Qed.

Lemma reconcile_relays_reached now l e :
  engine_ok planner e → (∀ relay items, (relay, items) ∈ l → ∀ x, x ∈ items → x ∈ desired_at (en_registry e) relay) →
  let e' := fold_left (reconcile_relay planner net now) l e in
  keeps e e' ∧ ∀ relay items, (relay, items) ∈ l → reached relay items e'.
Proof.
  revert e. induction l as [|[relay items] l IH]; intros e Hok Hin; cbn [fold_left].
  { split; [by apply steady_preorder|]. by intros ? ? ?%not_elem_of_nil. }
  destruct (reconcile_relay_reached now relay items e Hok) as [H1 Hreach]; [apply Hin; by left|].
  set (e1 := reconcile_relay _ _ _ _ _) in *. clearbody e1.
  destruct (IH e1) as [H2 Hrest]; [apply H1|intros r i Hr x Hx; apply H1; apply (Hin r i); [by right|done]|].
  split; [exact (transitivity (R := steady) (λ _, H1) (λ _, H2) Hok)|].
  intros r i [[= -> ->]|Hx]%elem_of_cons; [|by apply Hrest].
  eapply keeps_reached; [exact H2| |exact Hreach]. intros x Hx. apply H1, (Hin relay items); [by left|done].
Qed.

Lemma release_vacated l e relay :
  en_slots (fold_left (λ e relay, release_relay relay e) l e) !! relay =
    (if bool_decide (relay ∈ l) then None else en_slots e !! relay) ∧
  en_registry (fold_left (λ e relay, release_relay relay e) l e) = en_registry e.
Proof.
  revert e. induction l as [|r l IH]; intros e; [done|]. cbn. destruct (IH (release_relay r e)) as [-> ->].
  assert (∀ bucket e', en_slots (fold_left (λ e s, teardown_slot s e) bucket e') = en_slots e' ∧
    en_registry (fold_left (λ e s, teardown_slot s e) bucket e') = en_registry (S := S) e') as Htear.
  { induction bucket as [|s bucket IHb]; intros e'; [done|]. cbn [fold_left]. destruct (IHb (teardown_slot s e')) as [-> ->].
    rewrite teardown_slots. split; [done|]. unfold teardown_slot. by destruct (sl_lease s). }
  unfold release_relay. destruct (en_slots e !! r) as [bucket|] eqn:Hb; cbn.
  - destruct (Htear bucket (en_set_slots (delete r (en_slots e)) e)) as [-> ->]. split; [|done]. cbn.
    destruct (decide (relay ∈ l)) as [Hl|Hl].
    { rewrite (bool_decide_eq_true_2 (relay ∈ l)), (bool_decide_eq_true_2 (relay ∈ r :: l)); [done|by right|done]. }
    rewrite (bool_decide_eq_false_2 (relay ∈ l)) by done. destruct (decide (r = relay)) as [->|Hne].
    + by rewrite lookup_delete_eq, (bool_decide_eq_true_2 (relay ∈ relay :: l)) by left.
    + rewrite lookup_delete_ne, bool_decide_eq_false_2; [done|by intros [?|?]%elem_of_cons|done].
  - split; [|done]. destruct (decide (relay ∈ l)) as [Hl|Hl].
    { rewrite (bool_decide_eq_true_2 (relay ∈ l)), (bool_decide_eq_true_2 (relay ∈ r :: l)); [done|by right|done]. }
    rewrite (bool_decide_eq_false_2 (relay ∈ l)) by done. destruct (decide (r = relay)) as [->|Hne].
    + by rewrite Hb, (bool_decide_eq_true_2 (relay ∈ relay :: l)) by left.
    + rewrite bool_decide_eq_false_2; [done|by intros [?|?]%elem_of_cons].
Qed.

(** C10. One reconciliation brings the slots in line with the demand: afterwards a
    relay has slots only if some active observation wants it, and at every
    wanted relay there is a slot that can serve each authority wanted there,
    unless the owner has no generation left to give; the demand itself is not
    changed by what reconciliation publishes. *)
Theorem reconcile_reaches_demand now e :
  engine_reachable planner match_event e →
  let e' := reconcile planner net now e in
  (∀ relay x, x ∈ desired_at (en_registry e') relay ↔ x ∈ desired_at (en_registry e) relay) ∧
  (∀ relay, is_Some (en_slots e' !! relay) → desired_at (en_registry e) relay ≠ []) ∧
  (ri_next (en_rounds e') = None ∨
   ∀ relay d authority, (d, authority) ∈ desired_at (en_registry e) relay →
     slot_index_for net (en_slots e') relay authority ≠ None).
Proof.
  intros Hok%engine_reachable_ok. cbn. unfold reconcile.
  set (vacated := List.filter _ _). set (e1 := fold_left (λ e relay, release_relay relay e) vacated e).
  assert (engine_ok planner e1) as Hok1 by (apply fold_ok; [intros; by apply release_relay_ok|done]).
  assert (en_registry e1 = en_registry e) as Hreg by apply (release_vacated vacated e "").
  assert (∀ relay, is_Some (en_slots e1 !! relay) → desired_at (en_registry e) relay ≠ []) as Hv.
  { intros relay. unfold e1. rewrite (proj1 (release_vacated vacated e relay)). case_bool_decide as Hin; [by intros [? ?]|].
    intros [b Hb] Hnil. apply Hin. apply list_elem_of_In, filter_In. split.
    - apply list_elem_of_In. apply elem_of_keys. eauto.
    - apply bool_decide_eq_true. destruct (desired (en_registry e) !! relay) as [items|] eqn:Hd; [|done].
      destruct (desired_some _ _ _ Hd) as [-> ?]. done. }
  clearbody e1.
  assert (∀ relay items, (relay, items) ∈ entries (desired (en_registry e)) →
            ∀ x, x ∈ items → x ∈ desired_at (en_registry e1) relay) as Hin.
  { intros relay items Hit%elem_of_entries x Hx. rewrite Hreg. by destruct (desired_some _ _ _ Hit) as [<- _]. }
  destruct (reconcile_relays_reached now _ e1 Hok1 Hin) as [Hk Hreach].
  set (e2 := fold_left _ _ e1) in *. clearbody e2. rewrite <- Hreg in *. split_and!.
  - apply Hk.
  - intros relay [?|?]%(kp_relays _ _ Hk); [|done]. by apply Hv.
  - destruct (decide (ri_next (en_rounds e2) = None)) as [?|Hsome]; [by left|]. right. intros relay d authority Hd.
    destruct (desired (en_registry e1) !! relay) as [items|] eqn:Hit.
    + pose proof (desired_some _ _ _ Hit) as [-> _].
      destruct (Hreach relay _ (proj2 (elem_of_entries _ _ _) Hit)) as [?|Hs]; [done|].
      apply serves_at_index. by apply (Hs d).
    + unfold desired_at in Hd. rewrite Hit in Hd. by apply not_elem_of_nil in Hd.
Qed.

(** Assignment is not exclusive: a demand that one slot already carries is also
    the demand of the first slot that can serve its authority, so both plan it. *)
Theorem attached_demand_claimed_twice relay i s s' d authority e :
  (d, authority) ∈ desired_at (en_registry e) relay →
  slot_index_for net (en_slots e) relay authority = Some i → at_ (en_slots e) relay i s →
  slot (en_slots e) relay (sl_generation s') = Some s' → demand_id d ∈ attached s' →
  d ∈ demand_for_slot net relay (sl_generation s) e ∧ d ∈ demand_for_slot net relay (sl_generation s') e.
Proof.
  intros Hd Hi Hat Hs' Hatt. split; [by eapply routed_demand|]. unfold demand_for_slot. rewrite Hs'.
  apply list_elem_of_fmap. exists (d, authority). split; [done|]. apply list_elem_of_In, filter_In.
  split; [by apply list_elem_of_In|]. by rewrite bool_decide_eq_true_2.
Qed.
End reconcile.

(** A state recorded for a relay the route has left makes the relay wanted again. *)
Theorem withdrawn_relay_revived `{!Nostr} r id o session a generation next :
  rg_observations r !! id = Some o → ob_active o = true → ob_relays o !! session = Some a →
  is_withdrawn next = false →
  (as_demand a, ob_access o) ∈ desired_at (record_state id session generation next r) session.
Proof.
  intros Ho Hact Ha Hw. rewrite elem_of_desired_at. unfold record_state. rewrite update_observations.
  exists id. eexists. rewrite lookup_alter_eq, Ho. split; [done|]. unfold on_relay. rewrite Ha. cbn.
  apply contributes_Some. cbn. rewrite Hact. split_and!; [done..|]. eexists. rewrite lookup_insert_eq. split; [done|].
  cbn. split; [|done]. exact Hw.
Qed.
