(* ===== verification/ObserveWitness.v ===== *)
(** * The reconciliation owner on concrete runs

    An engine over the in-memory cache and the planner with one subscription per
    demand, driven by short scripts: the theorems of the owner applied to them,
    and runs in which the code does something other than it documents. *)

From S2P Require Import Prelude Nostr Relay State Write Query EventCache.
From S2P Require Import MemoryCache Transport Routing Subscriptions OnePerDemand PlannerWitness Diagnostics.
From S2P Require Import Observations ObservationsProps Ingest ObserveEngine ObserveEngineProps ObserveSafety.
From S2P Require Import ObservePlans ObserveReconcile.

(** The coverage methods of the in-memory cache. *)
#[global] Instance memory_coverage : CoverageCache MemoryEventCache := {
  keep_coverage := λ coverage c, retain_source_coverage c coverage;
  kept_coverage := λ relay filter c, source_coverage c relay filter
}.

Module ObserveRuns.
Local Existing Instance Sample.hashed_nostr | 0.
Local Existing Instance Samples.sample_codec.

#[local] Instance sample_text : EngineText := {
  shortfall_debug := λ _, "Shortfall";
  completeness_debug := λ c, match c with Proven => "Proven" | LimitedRequest => "LimitedRequest"
                                        | RelayDefaultLimit => "RelayDefaultLimit" end;
  plan_error_text := λ _, "plan error";
  conformance_text := λ _, "not conformant"
}.

Definition planner (relay : RelayUrl) (demand : list RelayDemand) (constraints : RelayReadConstraints)
    (installed : gmap string InstalledSubscription) (revision : PlanRevision)
    : result SubscriptionPlanError SubscriptionPlan :=
  default (Err (Encoding (BoundedText_new "no answer"))) (one_per_demand_plan relay demand constraints installed revision).

Definition net (_ : nat) : Connection := mkConnection (mkSessionIdentity "wss://a" 1) Connected unoffered.

Inductive Move :=
| DoCall (c : RegistryCall)
| DoReconcile
| DoReport (report : Report).

Abbreviation E := (Engine MemoryEventCache) (only parsing).

Definition move (now : Timestamp) (m : Move) (e : E) : E :=
  match m with
  | DoCall c => if call_allowed c (en_registry e) then on_registry (registry_call c) e else e
  | DoReconcile => reconcile planner net now e
  | DoReport report => engine_turn planner nip01_match net now report e
  end.

Definition moves (l : list Move) (e : E) : E := fold_left (λ e m, move 500 m e) l e.

Definition start : E :=
  default (mkEngine Registry_default (bounded 4) diagnostics_default ∅ (mkIssuer 0 None) (mkPlanIssuer 0 None) 0 ∅ ∅ [])
    (engine_start Registry_default (bounded 4) diagnostics_default 6 8).

Lemma moves_steps l e : rtc (engine_step planner nip01_match) e (moves l e).
Proof.
  unfold moves. revert e. induction l as [|m l IH]; intros e; [done|]. cbn [fold_left].
  destruct m as [c| |report]; cbn [move].
  - destruct (call_allowed c (en_registry e)) eqn:Hc; [|done]. eapply rtc_l; [by constructor|done].
  - eapply rtc_l; [apply step_reconcile|done].
  - eapply rtc_l; [apply step_report|done].
Qed.

Lemma reachable_steps e e' :
  engine_reachable planner nip01_match e → rtc (engine_step planner nip01_match) e e' →
  engine_reachable planner nip01_match e'.
Proof. intros He Hs. induction Hs as [|e1 e2 e3 H12 _ IH]; [done|]. apply IH. by eapply engine_stepped. Qed.

Lemma moves_reachable l : engine_reachable planner nip01_match (moves l start).
Proof.
  eapply reachable_steps; [|apply moves_steps].
  eapply (engine_started planner nip01_match Registry_default (bounded 4) diagnostics_default 6 8); [constructor|].
  vm_compute. reflexivity.
Qed.

Definition to (relays : list RelayUrl) : RoutePlan :=
  mkPlan 1 (list_to_map ((λ s, (s, mkPlanned s ∅ ∅)) <$> relays)) ∅ ∅ [].

Definition query (limit : option nat) : Query :=
  mkQuery (q_selection events) (q_source events) Unauthenticated Live NewestFirst limit.

(** The generations and the plan revisions as this engine issues them. *)
Definition g (n : N) : Round := mkRound 7 n.
Definition v (n : N) : PlanRevision := mkPlanRevision 9 n.

(** One observation at one relay, up to an open session. *)
Definition opened : list Move :=
  [DoCall CallInstall; DoCall (CallAssign 1 (query None) (to ["wss://a"]) Automatic); DoReconcile;
   DoReport (Acquired "wss://a" (g 1) 5)].

(** The plan last handed to the wire. *)
Definition planned (e : E) : option SubscriptionPlan :=
  match List.last (en_operations e) (OpRelease 0 (g 0)) with
  | OpInstall _ _ _ _ plan _ => Some plan
  | _ => None
  end.

(** A flush of one slot whose plan the relay accepts under these names. *)
Definition install (generation : Round) (revision : N) (names : list (option string)) (e : E) : E :=
  let e := moves [DoReport (Flush "wss://a" generation)] e in
  match planned e with
  | Some plan => moves [DoReport (ReportInstalled "wss://a" generation (v revision) plan names [] ∅)] e
  | None => e
  end.

(** Which demand each subscription of each slot of the relay serves. *)
Definition serving_owners (e : E) : list (list (string * list N)) :=
  map (λ s, map (λ ki : string * InstalledSubscription, (ki.1, di_owner <$> ordered_elements (is_serves ki.2)))
              (entries (sl_installed s))) (default [] (en_slots e !! "wss://a")).

Definition relay_state (e : E) (id : ObservationId) : option RelaySourceState :=
  o ← rg_observations (en_registry e) !! id; a ← ob_relays o !! "wss://a"; Some (rq_state (as_evidence a)).

(** ** The theorems applied *)

Definition running : E := install (g 1) 1 [Some "s1"] (moves opened start).

Definition note : Event := Sample.sealed 1 10 1 [].

Lemma running_steps : rtc (engine_step planner nip01_match) start running.
Proof.
  unfold running, install. set (e := moves [DoReport _] _).
  assert (rtc (engine_step planner nip01_match) start e) as He
    by (unfold e; etrans; [apply moves_steps|apply moves_steps]).
  destruct (planned e); [|exact He]. etrans; [exact He|apply moves_steps].
Qed.

Lemma running_engine_reachable : engine_reachable planner nip01_match running.
Proof. eapply reachable_steps; [apply (moves_reachable [])|exact running_steps]. Qed.

Lemma engine_invariant_witness : engine_ok planner running ∧ serving_owners running = [[("s1", [1%N])]].
Proof. split; [|vm_compute; reflexivity]. apply (engine_invariant planner nip01_match). exact running_engine_reachable. Defined.

Lemma reconcile_reaches_demand_witness :
  (ri_next (en_rounds (reconcile planner net 500 running)) = None ∨
   ∀ relay d authority, (d, authority) ∈ desired_at (en_registry running) relay →
     slot_index_for net (en_slots (reconcile planner net 500 running)) relay authority ≠ None) ∧
  length (desired_at (en_registry running) "wss://a") = 1.
Proof.
  split; [|vm_compute; reflexivity].
  apply (reconcile_reaches_demand planner nip01_match net 500 running). exact running_engine_reachable.
Defined.

(** The session of the first generation is replaced; an event and a late plan of
    the old generation arrive. *)
Definition replaced : E := moves [DoReport (ConnectionReplaced "wss://a" (g 1))] running.

Lemma live_generation_listed (e : E) generation :
  live_generation e generation → generation ∈ (sl_generation <$> concat (values (en_slots e))).
Proof.
  intros (relay & i & s & (b & Hb & Hi) & <-). apply list_elem_of_fmap_2. apply list_elem_of_In, in_concat.
  exists b. split; apply list_elem_of_In; [apply elem_of_values; eauto|by eapply list_elem_of_lookup_2].
Qed.

Lemma replaced_dead : issued (en_rounds replaced) (g 1) ∧ ¬ live_generation replaced (g 1).
Proof.
  split; [vm_compute; split; reflexivity|]. intros Hlive%live_generation_listed. revert Hlive.
  apply (bool_decide_eq_false _). vm_compute. reflexivity.
Qed.

Lemma late_report_inert_witness :
  (accept planner nip01_match net 600 (Carried "wss://a" (g 1) "s1" (ItemEvent note)) replaced).1 = false ∧
  undisturbed replaced (accept planner nip01_match net 600 (Carried "wss://a" (g 1) "s1" (ItemEvent note)) replaced).2.
Proof.
  pose proof (late_report_inert planner nip01_match replaced replaced (g 1)
    (Carried "wss://a" (g 1) "s1" (ItemEvent note)) net 600 (proj1 replaced_dead) (proj2 replaced_dead)
    (rtc_refl _ _) eq_refl) as Hw.
  destruct (accept _ _ _ _ _ _) as [dirty e'']. exact (conj (proj1 (proj2 Hw)) (proj1 (proj2 (proj2 Hw)))).
Defined.

(** ** Runs that show unintended behaviour *)

(** A request with a limit was planned as not proving completeness, yet its
    end-of-stored-events is recorded as complete and kept as coverage. *)
Definition limited : E :=
  install (g 1) 1 [Some "s1"]
    (moves [DoCall CallInstall; DoCall (CallAssign 1 (query (Some 2)) (to ["wss://a"]) Automatic); DoReconcile;
            DoReport (Acquired "wss://a" (g 1) 5)] start).

Example limited_request_read_as_complete :
  (ps_completeness <$> default [] (sp_open <$> planned limited)) = [LimitedRequest] ∧
  let e := moves [DoReport (Carried "wss://a" (g 1) "s1" ItemEndOfStoredEvents)] limited in
  relay_state e 1 = Some (StoredEventsComplete 500) ∧ length (cs_coverage (mc_state (en_cache e))) = 1.
Proof. vm_compute. repeat split. Qed.

(** A refused acquisition is never tried again: reconciliation finds the slot,
    and the slot only re-arms its own flush. *)
Definition dials (e : E) : nat :=
  length (List.filter (λ op, match op with OpAcquire _ _ _ _ => true | _ => false end) (en_operations e)).

Example refused_never_redialled :
  let e := moves [DoCall CallInstall; DoCall (CallAssign 1 (query None) (to ["wss://a"]) Automatic); DoReconcile;
                  DoReport (Refused "wss://a" (g 1) (BoundedText_new "refused"));
                  DoReport (Flush "wss://a" (g 2)); DoReconcile; DoReport (Flush "wss://a" (g 2)); DoReconcile] start in
  dials e = 1 ∧ (sl_session <$> slot (en_slots e) "wss://a" (g 2)) = Some None ∧
  length (desired_at (en_registry e) "wss://a") = 1.
Proof. vm_compute. repeat split. Qed.

(** A plan overtaken by a newer revision is not recorded: its subscription runs,
    and what it carries is dropped. *)
Example overtaken_install_leaks :
  let e1 := moves [DoReport (Flush "wss://a" (g 1))] (moves opened start) in
  let e2 := moves [DoCall CallInstall; DoCall (CallAssign 2 (query (Some 3)) (to ["wss://a"]) Automatic);
                   DoReport (Flush "wss://a" (g 1))] e1 in
  match planned e1 with
  | Some plan =>
      let e3 := moves [DoReport (ReportInstalled "wss://a" (g 1) (v 1) plan [Some "s1"] [("s1", 90)] ∅)] e2 in
      serving_owners e3 = [[]] ∧ (sl_attending <$> slot (en_slots e3) "wss://a" (g 1)) = Some ∅ ∧
      ec_current (en_cache (moves [DoReport (Carried "wss://a" (g 1) "s1" (ItemEvent note))] e3)) = []
  | None => False
  end.
Proof. vm_compute. repeat split. Qed.

(** The slot opened for an account is reachable for anonymous demand until it
    authenticates; demand another slot already carries is requested there again. *)
Definition two_slots : E :=
  moves [DoReport (Acquired "wss://a" (g 1) 5)]
    (install (g 2) 1 [Some "s2"]
      (moves [DoCall CallInstall;
              DoCall (CallAssign 1 (mkQuery (q_selection events) (q_source events) (As 3) Live NewestFirst None)
                        (to ["wss://a"]) Automatic);
              DoCall CallInstall; DoCall (CallAssign 2 (query (Some 3)) (to ["wss://a"]) Automatic); DoReconcile;
              DoReport (Acquired "wss://a" (g 2) 6)] start)).

Example carried_demand_requested_again :
  serving_owners two_slots = [[]; [("s2", [2%N])]] ∧
  serving_owners (install (g 1) 2 [Some "s1"; Some "s3"] two_slots) = [[("s1", [1%N]); ("s3", [2%N])]; [("s2", [2%N])]].
Proof. split; vm_compute; reflexivity. Qed.

(** An end-of-stored-events that arrives after the route left the relay and
    before the next reconciliation keeps the relay's work alive. *)
Example left_relay_kept_alive :
  let e := moves [DoCall (CallAssign 1 (query None) (to ["wss://b"]) Automatic)] running in
  let e' := moves [DoReport (Carried "wss://a" (g 1) "s1" ItemEndOfStoredEvents); DoReconcile] e in
  length (desired_at (en_registry e) "wss://a") = 0 ∧ length (desired_at (en_registry e') "wss://a") = 1 ∧
  serving_owners (moves [DoReconcile] e) = [] ∧ serving_owners e' = [[("s1", [1%N])]].
Proof. vm_compute. repeat split. Qed.

(** A later plan attributes the limited request, so its end-of-stored-events is
    held back from its own observation; an observation that joins the request
    afterwards is credited with a complete replay. *)
Example joiner_credited_unproven :
  let e := install (g 1) 2 [Some "s2"]
             (moves [DoCall CallInstall; DoCall (CallAssign 2 (query None) (to ["wss://a"]) Automatic); DoReconcile] limited) in
  let ended := moves [DoReport (Carried "wss://a" (g 1) "s1" ItemEndOfStoredEvents)] e in
  let joined := moves [DoCall CallInstall; DoCall (CallAssign 3 (query (Some 2)) (to ["wss://a"]) Automatic); DoReconcile] ended in
  relay_state ended 1 = Some (StateOpen 500) ∧ relay_state joined 3 = Some (StoredEventsComplete 500).
Proof. vm_compute. repeat split. Qed.
End ObserveRuns.
