(* ===== verification/Differential.v ===== *)
(** * The planners deliver alike

    The test kit compares two planners by the logical demand an event reaches and
    an end-of-stored-events settles ([crates/fava-subscriptions-testkit],
    [differential.rs]).  On a fresh session both planners deliver an event to
    exactly the demand they carry that wants it. *)

From S2P Require Import Prelude Nostr Relay State Write Query Subscriptions StandardPlanner Grouping.
From S2P Require Import PlannerConformance OnePerDemand PlannerWitness.

Definition wanted_filters (demand : list RelayDemand) : gmap DemandId Filter :=
  fold_left (λ m item, <[demand_id item := rd_filter item]> m) demand ∅.

Definition shortfall_of (plan : SubscriptionPlan) : gset DemandId := list_to_set (sf_demand <$> sp_shortfalls plan).

Definition every_settled (plan : SubscriptionPlan) : gset DemandId := list_to_set (served_demand plan).

(** What is carried: the retained subscriptions, then the planned ones. *)
Definition carried_by (plan : SubscriptionPlan) : list (list Filter * gset DemandId) :=
  ((λ entry, (at_filters entry, at_serves entry)) <$> values (sp_attribution plan))
  ++ ((λ planned, (ps_filters planned, ps_serves planned)) <$> sp_open plan).

Definition delivered_to (match_event : Filter → Event → bool) (plan : SubscriptionPlan)
    (wanted : gmap DemandId Filter) (event : Event) : gset DemandId :=
  list_to_set (carried_by plan ≫= λ '(filters, serves),
    if existsb (λ filter, match_event filter event) filters
    then List.filter (λ d, match wanted !! d with Some filter => match_event filter event | None => false end)
           (ordered_elements serves)
    else []).

Section differential.
Context `{Nostr} `{FilterCodec} (match_event : Filter → Event → bool).

Lemma wanted_lookup demand d f :
  NoDup (demand_id <$> demand) →
  wanted_filters demand !! d = Some f ↔ ∃ m, m ∈ demand ∧ demand_id m = d ∧ rd_filter m = f.
Proof.
  unfold wanted_filters. induction demand as [|m demand IH] using rev_ind.
  { intros _. cbn. rewrite lookup_empty. split; [done|]. by intros (m & ?%not_elem_of_nil & _). }
  rewrite fmap_app, NoDup_app. intros (Hnd & Hno & _). rewrite fold_left_app. cbn.
  rewrite lookup_insert_Some, IH by done. split.
  - intros [[<- <-]|[_ (x & Hx & ? & ?)]]; [exists m|exists x]; (split; [|done]); apply elem_of_app; [by right; left|by left].
  - intros (x & [Hx| ->%list_elem_of_singleton]%elem_of_app & <- & <-); [|by left]. right. split; [|by exists x].
    intros Heq. apply (Hno (demand_id x)); [by apply list_elem_of_fmap_2|]. rewrite <- Heq. by left.
Qed.

(** A plan for a fresh session whose subscriptions ask for what they serve. *)
Record asks_for_served (demand : list RelayDemand) (plan : SubscriptionPlan) : Prop := {
  as_fresh : sp_attribution plan = ∅;
  as_ids : NoDup (demand_id <$> demand);
  as_asks : ∀ planned d, planned ∈ sp_open plan → d ∈ ps_serves planned → ∃ m f, m ∈ demand ∧ demand_id m = d ∧
    f ∈ ps_filters planned ∧ ∀ e, match_event (rd_filter m) e = true → match_event f e = true
}.

Lemma settled_fresh plan d :
  sp_attribution plan = ∅ → d ∈ every_settled plan ↔ ∃ planned, planned ∈ sp_open plan ∧ d ∈ ps_serves planned.
Proof.
  intros Ha. unfold every_settled, served_demand. rewrite Ha, elem_of_list_to_set.
  change (keys ∅ ≫= _) with (@nil DemandId). cbn. rewrite list_elem_of_bind.
  by setoid_rewrite elem_of_ordered_elements; setoid_rewrite (and_comm (_ ∈ ps_serves _)).
Qed.

Lemma delivered_exact demand plan e d :
  asks_for_served demand plan →
  d ∈ delivered_to match_event plan (wanted_filters demand) e ↔
  d ∈ every_settled plan ∧ ∃ m, m ∈ demand ∧ demand_id m = d ∧ match_event (rd_filter m) e = true.
Proof.
  intros [Ha Hnd Hasks]. rewrite settled_fresh by done. unfold delivered_to, carried_by. rewrite Ha.
  change (_ <$> values ∅) with (@nil (list Filter * gset DemandId)). cbn [app].
  rewrite elem_of_list_to_set, list_elem_of_bind. split.
  - intros ([filters serves] & Hd & (planned & [= -> ->] & Hin)%list_elem_of_fmap).
    destruct (existsb _ _); [|by apply not_elem_of_nil in Hd].
    apply list_elem_of_In, filter_In in Hd as [Hd%list_elem_of_In%elem_of_ordered_elements Hw]. split; [eauto|].
    destruct (wanted_filters demand !! d) as [f|] eqn:Hf; [|done].
    apply wanted_lookup in Hf as (m & Hm & <- & <-); [|done]. eauto.
  - intros ((planned & Hin & Hd) & m & Hm & <- & He). exists (ps_filters planned, ps_serves planned).
    split; [|by apply list_elem_of_fmap; eauto].
    destruct (Hasks planned _ Hin Hd) as (m' & f & Hm' & Hid & Hf & Hcov).
    rewrite (NoDup_demand_eq demand m' m Hnd Hm' Hm Hid) in Hcov.
    rewrite (proj2 (existsb_elem _ _)) by eauto. apply list_elem_of_In, filter_In.
    split; [by apply list_elem_of_In, elem_of_ordered_elements|].
    by rewrite (proj2 (wanted_lookup demand _ (rd_filter m) Hnd)) by eauto.
Qed.

Lemma fresh_attribution relay demand constraints plan :
  conforms relay demand constraints ∅ plan → sp_attribution plan = ∅.
Proof.
  intros [_ _ Hinst Hattr _ _ _ _ _ _ _ _]. apply map_empty. intros id. apply eq_None_not_Some.
  intros Hsome%Hattr. destruct (Hinst id) as [? ?]; [by apply elem_of_app; left|done].
Qed.

Lemma conforming_settles relay demand constraints installed plan d :
  conforms relay demand constraints installed plan → sp_attribution plan = ∅ → shortfall_of plan = ∅ →
  d ∈ every_settled plan ↔ d ∈ demand_ids demand.
Proof.
  intros Hc Ha Hs. rewrite settled_fresh by done. split.
  - intros Hp. apply (cf_invented _ _ _ _ _ Hc). left. by right.
  - intros [[(id & entry & Hid & _)|?]|(s & Hin & <-)]%(cf_accounted _ _ _ _ _ Hc); [by rewrite Ha in Hid|done|].
    exfalso. assert (sf_demand s ∈ shortfall_of plan) as Hx
      by (apply elem_of_list_to_set, list_elem_of_fmap_2, Hin). by rewrite Hs in Hx.
Qed.

Lemma nothing_running demand constraints : limits_respected demand constraints ∅.
Proof. intros m id entry _ _ Hentry. by rewrite lookup_empty in Hentry. Qed.

Lemma standard_asks_for_served relay demand constraints revision plan :
  Nip01Matching match_event → FaithfulText → standard_plan relay demand constraints ∅ revision = Some (Ok plan) →
  conforms relay demand constraints ∅ plan ∧ asks_for_served demand plan.
Proof.
  intros [search_admits Hspec] Htext Hplan.
  apply standard_plan_run in Hplan as (folded & kept & dropped & attached & owners & sf & Hrun & ->); [|done].
  assert (conforms relay demand constraints ∅ (assemble relay revision kept constraints ∅ owners sf)) as Hc
    by (eapply run_conforms; [done|apply nothing_running]).
  split; [done|]. pose proof (run_exact _ _ _ _ _ _ _ _ _ Hrun) as Hex. rewrite Forall_forall in Hex.
  pose proof (run_ids _ _ _ _ _ _ _ _ _ Hrun) as Hnd. split; [by eapply fresh_attribution|done|].
  intros planned d Hin Hd. cbn [assemble sp_open] in Hin. pose proof Hin as Hin'.
  rewrite merge_sort_Permutation in Hin. apply list_elem_of_fmap in Hin as (c & -> & Hc').
  destruct (Hex c) as (f & Hf & _ & Hadm).
  { eapply run_kept_folded; [done|]. auto with fava. }
  assert (d ∈ demand_ids demand) as (m & -> & Hm)%demand_ids_elem.
  { apply (cf_invented _ _ _ _ _ Hc). left. right. eauto. }
  exists m, f. split_and!; [done..| |].
  - cbn. rewrite Hf. left.
  - intros e He. apply Hspec, Hadm. apply Hspec in He. eauto.
Qed.

Lemma one_per_demand_asks_for_served relay demand constraints revision plan :
  one_per_demand_plan relay demand constraints ∅ revision = Some (Ok plan) →
  conforms relay demand constraints ∅ plan ∧ asks_for_served demand plan.
Proof.
  intros Hplan. assert (conforms relay demand constraints ∅ plan) as Hc
    by (eapply one_per_demand_conforms_ok; [apply nothing_running|done]).
  split; [done|]. pose proof (fresh_attribution _ _ _ _ Hc) as Hfresh.
  apply one_per_demand_run in Hplan as (carried & owners & sf & -> & Hnd & Hinv & _).
  pose proof (cv_same _ _ _ _ Hinv) as Hs. rewrite Forall_forall in Hs. split; [done..|].
  intros planned d Hin Hd. destruct (Hs planned Hin) as (f & Hf & _ & Hsp).
  destruct (Hsp d Hd) as (m & Hm & Hid & <-). exists m, (rd_filter m). split_and!; [done..| |done].
  rewrite Hf. left.
Qed.

(** C15. Grouping does not change meaning.  On a fresh session an event reaches,
    under either planner and after refiltering, exactly the demand that the plan
    carries and whose own filter matches it; and when neither plan reports a
    shortfall both carry all the demand, so the same demand receives the event
    and the same demand is settled. *)
Theorem planners_deliver_alike relay demand constraints revision grouped ungrouped e
    (Hnip : Nip01Matching match_event) (Htext : FaithfulText)
    (Hgrouped : standard_plan relay demand constraints ∅ revision = Some (Ok grouped))
    (Hungrouped : one_per_demand_plan relay demand constraints ∅ revision = Some (Ok ungrouped)) :
  (∀ plan d, plan = grouped ∨ plan = ungrouped →
     d ∈ delivered_to match_event plan (wanted_filters demand) e ↔
     d ∈ every_settled plan ∧ ∃ m, m ∈ demand ∧ demand_id m = d ∧ match_event (rd_filter m) e = true) ∧
  (shortfall_of grouped = ∅ → shortfall_of ungrouped = ∅ →
     every_settled grouped = demand_ids demand ∧ every_settled ungrouped = demand_ids demand ∧
     delivered_to match_event grouped (wanted_filters demand) e =
     delivered_to match_event ungrouped (wanted_filters demand) e).
Proof.
  destruct (standard_asks_for_served _ _ _ _ _ Hnip Htext Hgrouped) as [Hc1 Ha1].
  destruct (one_per_demand_asks_for_served _ _ _ _ _ Hungrouped) as [Hc2 Ha2]. split.
  - by intros plan d [-> | ->]; apply delivered_exact.
  - intros Hs1 Hs2. pose proof (λ d, conforming_settles _ _ _ _ _ d Hc1 (as_fresh _ _ Ha1) Hs1) as H1.
    pose proof (λ d, conforming_settles _ _ _ _ _ d Hc2 (as_fresh _ _ Ha2) Hs2) as H2.
    split_and!; apply set_eq; [done..|]. intros d. rewrite !delivered_exact by done. by rewrite H1, H2.
Qed.
End differential.

Module DifferentialWitness.
Import Samples.

Definition grouped : SubscriptionPlan :=
  match standard_plan "wss://a" [alice; bob; carol] unknown ∅ revision with
  | Some (Ok plan) => plan | _ => shared_plan end.
Definition ungrouped : SubscriptionPlan :=
  match one_per_demand_plan "wss://a" [alice; bob; carol] unknown ∅ revision with
  | Some (Ok plan) => plan | _ => shared_plan end.

Lemma planners_deliver_alike_witness :
  delivered_to nip01_match grouped (wanted_filters [alice; bob; carol]) event =
  delivered_to nip01_match ungrouped (wanted_filters [alice; bob; carol]) event ∧
  length (sp_open grouped) = 2 ∧ length (sp_open ungrouped) = 3.
Proof.
  split; [|split; vm_compute; reflexivity].
  pose proof (planners_deliver_alike nip01_match "wss://a" [alice; bob; carol] unknown revision grouped ungrouped event
    nip01_match_law sample_text ltac:(vm_compute; reflexivity) ltac:(vm_compute; reflexivity)) as [_ Hw].
  apply Hw; vm_compute; reflexivity.
Defined.
End DifferentialWitness.
