(* ===== verification/Projection.v ===== *)
(** * Delivery to one observation ([crates/fava-observe], [sources.rs], [observation.rs])

    The projection task of an observation merges its two local sources with the
    live sources the registry holds, evaluates the query on every change and
    publishes the decorated answer under the next revision; the application's
    handle reads the latest one.

    A turn of the loop of [deliver] is split where it takes the registry's lock,
    since other threads may take it in between: [projection_poll] is what woke it
    and the sources it answers on, [projection_answer] the evaluation with the
    evidence of the registry, [projection_publish] the diagnostics and the send.
    The select is biased towards the registry's wake-up.  The evaluator (the trait
    [QueryEvaluator]) is a parameter; sources are the environment, and what they
    give a turn is its [Wake].  The task runs under [spawn_cancellable], which
    looks at the cancellation token before it polls the loop ([projection_poll]). *)

From S2P Require Import Prelude Nostr Relay State Write Query Subscriptions Diagnostics Routing Observations.

#[global] Instance SourceKind_eq_dec : EqDecision SourceKind.
Proof. solve_decision. Defined.

(** ** Sources *)

Definition is_live_relay (kind : SourceKind) : bool := match kind with LiveRelay _ => true | _ => false end.

(** [refresh_live_snapshots]. *)
Definition refresh_live (registry : Registry) (id : ObservationId) (sources : list SourceSnapshot) : list SourceSnapshot :=
  List.filter (λ source, negb (is_live_relay (ss_kind source))) sources ++ live_snapshots id registry.

(** The first source that satisfies [same], changed. *)
Fixpoint change_first (same : SourceSnapshot → bool) (f : SourceSnapshot → SourceSnapshot) (sources : list SourceSnapshot)
    : list SourceSnapshot :=
  match sources with
  | [] => []
  | source :: sources => if same source then f source :: sources else source :: change_first same f sources
  end.

Definition replace_source (changed : SourceSnapshot) : list SourceSnapshot → list SourceSnapshot :=
  change_first (λ source, bool_decide (ss_kind source = ss_kind changed)) (λ _, changed).

Definition mark_source_closed (role : SourceKind) (cause : SourceTerminationCause) : list SourceSnapshot → list SourceSnapshot :=
  change_first (λ source, bool_decide (ss_kind source = role))
    (λ source, mkSnapshot (ss_kind source) (ss_revision source) (SourceClosed cause) (ss_events source) (ss_retractions source)).

Definition saturating_sub (a b : N) : N := (a - b)%N.

(** Revisions strictly between the one seen and the current one. *)
Definition skipped_between (previous current : N) : N := saturating_sub (saturating_sub current previous) 1.

(** ** Evidence *)

Definition owner_shortfall (s : QueryShortfall) : bool :=
  match s with CoalescedUpdates _ | LiveRetentionLimit _ _ _ => true | _ => false end.

Definition decorate (registry : Registry) (id : ObservationId) (e : QueryEvidence) : QueryEvidence :=
  let owned := evidence id registry in
  mkEvidence (qe_sources e) (ow_relays owned) (ow_plan owned)
    (List.filter (λ s, negb (owner_shortfall s)) (qe_shortfalls e) ++ ow_live_shortfalls owned
     ++ (if bool_decide (0 < ow_coalesced owned)%N then [CoalescedUpdates (ow_coalesced owned)] else [])).

(** [diagnostics::query_fact]. *)
Definition query_fact (observation : ObservationId) (route_revision plan_revision : option N)
    (relays : list RelayQueryEvidence) (coalesced_updates : N) : QueryDiagnostic :=
  mkQueryFact observation route_revision (rq_session <$> relays)
    ((λ entry, mkDemandFact (rq_session entry) (default 0%N (head (rq_branches entry))) (rq_state entry)) <$> relays)
    plan_revision [] (omap (λ entry, rs_detail <$> rq_shortfall entry) relays) None coalesced_updates.

(** [publish_and]: whether its action runs, and the diagnostics it leaves. *)
Definition publish_and (registry : Registry) (id diagnostic_id : ObservationId) (e : QueryEvidence) (d : Diagnostics)
    : bool * Diagnostics :=
  match with_publication_evidence diagnostic_id id registry with
  | None => (false, d)
  | Some owned =>
      (true, diagnostics_query (query_fact diagnostic_id (ow_route_revision owned) (dp_revision <$> qe_plan e)
                                  (qe_relays e) (ow_coalesced owned)) d)
  end.

(** ** The task *)

Record Projection := mkProjection {
  pj_id : ObservationId;
  pj_diagnostic : option ObservationId;
  pj_snapshots : list SourceSnapshot;
  pj_cache_open : bool;
  pj_writes_open : bool;
  pj_revision : N;
  pj_latest : QuerySnapshot;
  pj_running : bool
}.

(** What the task shares with the rest of the engine; [wd_reported] are the
    skipped revisions told to the application. *)
Record World := mkWorld {
  wd_registry : Registry;
  wd_diagnostics : Diagnostics;
  wd_reported : list N
}.

Inductive Wake :=
| WakeEvidence (value : option N)
| WakeSource (role : SourceKind) (change : result SourceTerminationCause SourceSnapshot).

Section projection.
Context (evaluator : Query → list SourceSnapshot → result QueryEvaluationError QuerySnapshot).
Context (query : Query).

(** [latest] is seeded with the initial answer. *)
Definition projection_start (id : ObservationId) (diagnostic : option ObservationId) (sources : list SourceSnapshot)
    (initial : QuerySnapshot) : Projection := mkProjection id diagnostic sources true true 1 initial true.

(** After the loop: the sources are closed and the observation's own fact removed. *)
Definition projection_end (p : Projection) (w : World) : Projection * World :=
  (mkProjection (pj_id p) (pj_diagnostic p) (pj_snapshots p) false false (pj_revision p) (pj_latest p) false,
   mkWorld (wd_registry w)
     (if bool_decide (pj_diagnostic p = Some (pj_id p)) then forget_query (pj_id p) (wd_diagnostics w) else wd_diagnostics w)
     (wd_reported w)).

Definition report_skipped (id : ObservationId) (previous current : N) (w : World) : World :=
  let skipped := skipped_between previous current in
  if bool_decide (skipped = 0)%N then w
  else mkWorld (record_coalesced id skipped (wd_registry w)) (wd_diagnostics w) (wd_reported w ++ [skipped]).

(** Where the loop stands: at its select, with the sources of a turn gathered, or
    with its answer decorated and not yet published. *)
Inductive Phase := Selecting | Answering | Publishing (next : QuerySnapshot).

(** Evaluate, number and decorate. *)
Definition projection_answer (p : Projection) (w : World) : Projection * Phase * World :=
  match evaluator query (pj_snapshots p) with
  | Err _ => let '(p, w) := projection_end p w in (p, Selecting, w)
  | Ok next =>
      match checked_succ (pj_revision p) with
      | None => let '(p, w) := projection_end p w in (p, Selecting, w)
      | Some revision =>
          (mkProjection (pj_id p) (pj_diagnostic p) (pj_snapshots p) (pj_cache_open p) (pj_writes_open p) revision
             (pj_latest p) (pj_running p),
           Publishing (mkQuerySnapshot revision (qn_events next)
                         (decorate (wd_registry w) (pj_id p) (qn_evidence next))), w)
      end
  end.

(** [publish], then [send_replace]. *)
Definition projection_publish (next : QuerySnapshot) (p : Projection) (w : World) : Projection * Phase * World :=
  let w :=
    match pj_diagnostic p with
    | Some diagnostic =>
        mkWorld (wd_registry w)
          (publish_and (wd_registry w) (pj_id p) diagnostic (qn_evidence next) (wd_diagnostics w)).2
          (wd_reported w)
    | None => w
    end in
  (mkProjection (pj_id p) (pj_diagnostic p) (pj_snapshots p) (pj_cache_open p) (pj_writes_open p) (pj_revision p) next
     (pj_running p), Selecting, w).

Definition with_snapshots (snapshots : list SourceSnapshot) (p : Projection) : Projection :=
  mkProjection (pj_id p) (pj_diagnostic p) snapshots (pj_cache_open p) (pj_writes_open p) (pj_revision p) (pj_latest p)
    (pj_running p).

Definition close_source (role : SourceKind) (p : Projection) : Projection :=
  if bool_decide (role = EventCacheSource)
  then mkProjection (pj_id p) (pj_diagnostic p) (pj_snapshots p) false (pj_writes_open p) (pj_revision p) (pj_latest p) (pj_running p)
  else mkProjection (pj_id p) (pj_diagnostic p) (pj_snapshots p) (pj_cache_open p) false (pj_revision p) (pj_latest p) (pj_running p).

(** What woke the select, and the sources it leaves. *)
Definition projection_gather (wake : Wake) (p : Projection) (w : World) : Projection * Phase * World :=
  match wake with
  | WakeEvidence value =>
      match value with
      | None => let '(p, w) := projection_end p w in (p, Selecting, w)
      | Some v =>
          if bool_decide (v = u64_max) then let '(p, w) := projection_end p w in (p, Selecting, w)
          else (with_snapshots (refresh_live (wd_registry w) (pj_id p) (pj_snapshots p)) p, Answering, w)
      end
  | WakeSource role (Ok snapshot) =>
      let w :=
        match List.find (λ source, bool_decide (ss_kind source = role)) (pj_snapshots p) with
        | Some current => report_skipped (pj_id p) (ss_revision current) (ss_revision snapshot) w
        | None => w
        end in
      (with_snapshots (replace_source snapshot (pj_snapshots p)) p, Answering, w)
  | WakeSource role (Err cause) =>
      (with_snapshots (mark_source_closed role cause (pj_snapshots p)) (close_source role p), Answering, w)
  end.

(** One poll of the spawned task at its select: the token is looked at first, and
    a cancelled task is dropped where it stands.  A turn has no await, so a poll
    that starts one finishes it. *)
Definition projection_poll (wake : Wake) (p : Projection) (w : World) : Projection * Phase * World :=
  if bool_decide (pj_id p ∈ rg_cancelled (wd_registry w))
  then (mkProjection (pj_id p) (pj_diagnostic p) (pj_snapshots p) false false (pj_revision p) (pj_latest p) false,
        Selecting, w)
  else if pj_running p then projection_gather wake p w else (p, Selecting, w).
End projection.

(** ** The application's handle ([observation.rs]) *)

Record Observation := mkHandle {
  hd_id : ObservationId;
  hd_delivered : N;
  hd_forgets : bool
}.

(** [changed] once the watch channel reports [latest] as unseen. *)
Definition observation_changed (latest : QuerySnapshot) (h : Observation) (w : World)
    : option QuerySnapshot * Observation * World :=
  if bool_decide (hd_id h ∈ rg_cancelled (wd_registry w)) then (None, h, w)
  else
    let skipped := skipped_between (hd_delivered h) (qn_revision latest) in
    (Some latest, mkHandle (hd_id h) (qn_revision latest) (hd_forgets h),
     mkWorld (wd_registry w) (wd_diagnostics w) (wd_reported w ++ (if bool_decide (0 < skipped)%N then [skipped] else []))).

(** [close] and [Drop]. *)
Definition observation_close (h : Observation) (w : World) : World :=
  mkWorld (withdraw (hd_id h) (wd_registry w))
    (if hd_forgets h then forget_query (hd_id h) (wd_diagnostics w) else wd_diagnostics w) (wd_reported w).

(** ** What a run delivers *)

Section delivery.
Context `{!Nostr}.
Context (evaluator : Query → list SourceSnapshot → result QueryEvaluationError QuerySnapshot).
Context (query : Query).

(** The select offers a source only while it is open, and a source reports itself. *)
Definition wake_possible (p : Projection) (wake : Wake) : Prop :=
  match wake with
  | WakeEvidence _ => True
  | WakeSource role change =>
      ((role = EventCacheSource ∧ pj_cache_open p = true) ∨ (role = WriteStoreSource ∧ pj_writes_open p = true)) ∧
      match change with Ok snapshot => ss_kind snapshot = role | Err _ => True end
  end.

(** The parts of a turn, and calls of other threads on what the task shares
    between any two of them. *)
Inductive projection_step : Projection * Phase * World → Projection * Phase * World → Prop :=
| step_poll wake p w :
    wake_possible p wake → projection_step (p, Selecting, w) (projection_poll wake p w)
| step_answer p w : projection_step (p, Answering, w) (projection_answer evaluator query p w)
| step_publish next p w : projection_step (p, Publishing next, w) (projection_publish next p w)
| step_elsewhere p phase w c d l :
    call_allowed c (wd_registry w) = true →
    projection_step (p, phase, w) (p, phase, mkWorld (registry_call c (wd_registry w)) d l).

(** The two local sources, then the live ones; a source no longer read says why. *)
Definition sources_shaped (p : Projection) (cache writes : SourceSnapshot) (live : list SourceSnapshot) : Prop :=
  pj_snapshots p = cache :: writes :: live ∧ ss_kind cache = EventCacheSource ∧
    ss_kind writes = WriteStoreSource ∧ (∀ s, s ∈ live → is_live_relay (ss_kind s) = true) ∧
    (pj_cache_open p = false → ∃ cause, ss_status cache = SourceClosed cause) ∧
    (pj_writes_open p = false → ∃ cause, ss_status writes = SourceClosed cause).

(** What the loop keeps at each of its points: the sources while it runs, and the
    revision, which is the last answer's until the next one is decorated. *)
Definition projection_ok (id : ObservationId) (s : Projection * Phase * World) : Prop :=
  let '(p, phase, _) := s in
  pj_id p = id ∧ (pj_running p = true → ∃ c wr l, sources_shaped p c wr l) ∧
  match phase with
  | Selecting => qn_revision (pj_latest p) = pj_revision p
  | Answering => pj_running p = true ∧ qn_revision (pj_latest p) = pj_revision p
  | Publishing next => pj_running p = true ∧ qn_revision next = pj_revision p
  end.

Lemma live_snapshots_kind id r s : s ∈ live_snapshots id r → is_live_relay (ss_kind s) = true.
Proof.
  unfold live_snapshots. destruct (rg_observations r !! id); [|by intros ?%not_elem_of_nil].
  by intros ([session live] & -> & _)%list_elem_of_fmap.
Qed.

Lemma filter_live_nil live :
  (∀ s, s ∈ live → is_live_relay (ss_kind s) = true) → List.filter (λ s, negb (is_live_relay (ss_kind s))) live = [].
Proof.
  induction live as [|s live IH]; intros Hl; [done|]. cbn. rewrite Hl by (by left). apply IH. intros; apply Hl. by right.
Qed.

Definition closed_with (cause : SourceTerminationCause) (s : SourceSnapshot) : SourceSnapshot :=
  mkSnapshot (ss_kind s) (ss_revision s) (SourceClosed cause) (ss_events s) (ss_retractions s).

(** The sources a turn answers on, from the ones it had and what woke it; [None]
    when the wake-up ends the loop. *)
Definition turn_sources (wake : Wake) (live_now : list SourceSnapshot) (cache writes : SourceSnapshot)
    (live : list SourceSnapshot) : option (list SourceSnapshot) :=
  match wake with
  | WakeEvidence None => None
  | WakeEvidence (Some v) => if bool_decide (v = u64_max) then None else Some (cache :: writes :: live_now)
  | WakeSource EventCacheSource (Ok s) => Some (s :: writes :: live)
  | WakeSource EventCacheSource (Err cause) => Some (closed_with cause cache :: writes :: live)
  | WakeSource _ (Ok s) => Some (cache :: s :: live)
  | WakeSource _ (Err cause) => Some (cache :: closed_with cause writes :: live)
  end.

(** The skipped revisions a turn reports, by the change of its source. *)
Definition turn_reports (wake : Wake) (id : ObservationId) (cache writes : SourceSnapshot) (w : World) : World :=
  match wake with
  | WakeSource EventCacheSource (Ok s) => report_skipped id (ss_revision cache) (ss_revision s) w
  | WakeSource _ (Ok s) => report_skipped id (ss_revision writes) (ss_revision s) w
  | _ => w
  end.

(** The first part of a turn. *)
Lemma gather_exact wake p w c wr l :
  sources_shaped p c wr l → wake_possible p wake → pj_running p = true →
  match turn_sources wake (live_snapshots (pj_id p) (wd_registry w)) c wr l with
  | None => ∃ w', projection_gather wake p w = ((projection_end p w).1, Selecting, w')
  | Some sources => ∃ p1, projection_gather wake p w = (p1, Answering, turn_reports wake (pj_id p) c wr w) ∧
      pj_snapshots p1 = sources ∧ pj_id p1 = pj_id p ∧ pj_diagnostic p1 = pj_diagnostic p ∧ pj_running p1 = true ∧
      pj_latest p1 = pj_latest p ∧ pj_revision p1 = pj_revision p ∧ ∃ c1 wr1 l1, sources_shaped p1 c1 wr1 l1
  end.
Proof.
  intros (Hp & Hc & Hw & Hl & Hco & Hwo) Hwake Hrun.
  destruct wake as [[v|]|role change]; cbn [projection_gather turn_sources]; [|by eexists|].
  - destruct (bool_decide (v = u64_max)); [by eexists|]. eexists. split; [done|]. cbn.
    assert (refresh_live (wd_registry w) (pj_id p) (pj_snapshots p) =
            c :: wr :: live_snapshots (pj_id p) (wd_registry w)) as Hr.
    { unfold refresh_live. rewrite Hp. cbn. by rewrite Hc, Hw, filter_live_nil. }
    rewrite Hr. split_and!; try done. exists c, wr, (live_snapshots (pj_id p) (wd_registry w)).
    split_and!; try done. apply live_snapshots_kind.
  - destruct Hwake as [Hrole Hkind].
    destruct change as [snapshot|cause]; destruct Hrole as [[-> Hopen]|[-> Hopen]]; cbn [turn_sources turn_reports];
      (eexists; split; [rewrite Hp; cbn; rewrite ?Hc, ?Hw; done|]); cbn; unfold replace_source, mark_source_closed;
      rewrite ?Hp; cbn; rewrite ?Hkind, ?Hc, ?Hw; cbn; unfold closed_with; rewrite ?Hc, ?Hw;
      (split_and!; try done); unfold sources_shaped; cbn.
    + exists snapshot, wr, l. split_and!; try done. congruence.
    + exists c, snapshot, l. split_and!; try done. congruence.
    + eexists _, wr, l. split_and!; try done. eauto.
    + eexists c, _, l. split_and!; try done. eauto.
Qed.

Lemma poll_ok id wake p w :
  projection_ok id (p, Selecting, w) → wake_possible p wake → projection_ok id (projection_poll wake p w).
Proof.
  intros (Hid & Hs & Hr) Hwake. unfold projection_poll. destruct (bool_decide _); [by split_and!|].
  destruct (pj_running p) eqn:Hrun; [|by split_and!; [|rewrite Hrun|]]. destruct (Hs eq_refl) as (c & wr & l & Hsh).
  pose proof (gather_exact wake p w c wr l Hsh Hwake Hrun) as Hg. case_match.
  - destruct Hg as (p1 & -> & _ & Hid1 & _ & Hr1 & Hl1 & Hn1 & Hs1). split_and!; [congruence|done|done|congruence].
  - by destruct Hg as (w' & ->).
Qed.

Lemma step_ok id s s' : projection_step s s' → projection_ok id s → projection_ok id s'.
Proof.
  destruct 1 as [wake p w Hwake|p w|next p w|p phase w c d l _]; intros Hok; [by apply poll_ok| | |done].
  - destruct Hok as (Hid & Hs & Hrun & Hr). unfold projection_answer.
    destruct (evaluator query (pj_snapshots p)); [|by split_and!]. destruct (checked_succ (pj_revision p)); [|by split_and!].
    by split_and!.
  - destruct Hok as (Hid & Hs & Hrun & Hr). by split_and!.
Qed.

Lemma run_ok id s s' : rtc projection_step s s' → projection_ok id s → projection_ok id s'.
Proof. induction 1 as [|s1 s2 s3 Hstep _ IH]; [done|]. intros Hok. by eapply IH, step_ok. Qed.

(** The answer a revision publishes for these sources. *)
Definition answer_on (registry : Registry) (id : ObservationId) (revision : N) (sources : list SourceSnapshot)
    (delivered : QuerySnapshot) : Prop :=
  ∃ next, evaluator query sources = Ok next ∧
    delivered = mkQuerySnapshot revision (qn_events next) (decorate registry id (qn_evidence next)).

(** The rest of a turn, on the worlds it finds: what it answers with the registry
    of [w2], published in [w3]; or the end of the loop. *)
Definition turn_delivers (p p1 : Projection) (sources : list SourceSnapshot) (w2 w3 : World) : Prop :=
  match projection_answer evaluator query p1 w2 with
  | (p2, Publishing next, w2') =>
      w2' = w2 ∧ checked_succ (qn_revision (pj_latest p)) = Some (qn_revision next) ∧
      answer_on (wd_registry w2) (pj_id p) (qn_revision next) sources next ∧
      let '(p3, phase, w4) := projection_publish next p2 w3 in
      phase = Selecting ∧ pj_running p3 = true ∧ pj_snapshots p3 = sources ∧ pj_latest p3 = next ∧
      wd_registry w4 = wd_registry w3
  | (p2, _, _) =>
      pj_running p2 = false ∧ pj_latest p2 = pj_latest p ∧
      (is_ok (evaluator query sources) = false ∨ checked_succ (qn_revision (pj_latest p)) = None)
  end.

Lemma answered_turn p p1 sources w2 w3 :
  qn_revision (pj_latest p) = pj_revision p → pj_id p1 = pj_id p → pj_running p1 = true →
  pj_latest p1 = pj_latest p → pj_revision p1 = pj_revision p → pj_snapshots p1 = sources →
  turn_delivers p p1 sources w2 w3.
Proof.
  intros Hr Hid Hrun Hl Hn Hs. unfold turn_delivers, projection_answer. rewrite Hs, Hn, Hid, Hr.
  destruct (evaluator query sources) as [next|e] eqn:He; [|by split_and!; [|cbn; congruence|left]].
  destruct (checked_succ (pj_revision p)) as [revision|] eqn:Hrev; [|by split_and!; [|cbn; congruence|right]].
  split_and!; [done|done|by exists next|]. cbn. split_and!; try done. by destruct (pj_diagnostic p1).
Qed.

(** C19. In every interleaving of an observation's projection with changes of the
    registry, before, after and in the middle of its turns: a turn that starts
    while the task runs and is not cancelled has two local sources and live
    ones, and answers on exactly these with what woke it put in: the changed
    source, the source that ended with the cause it gave and the events it had,
    or, in place of all the live relays it knew, those the registry has when it
    asks.  Revisions of a local source it did not see are counted and reported.
    Whatever else happens before it answers and before it publishes, it delivers
    the evaluator's answer on these sources under the revision after the last
    one, decorated with the evidence of the registry as it was when it answered,
    and goes on; or it stops with its last answer, because the evaluator refused
    or the revisions are used up.  It stops too, with its last answer, when the
    registry's wake-up ends. *)
Theorem projection_delivers id diagnostic cache writes live initial w p w1 wake :
  ss_kind cache = EventCacheSource → ss_kind writes = WriteStoreSource →
  (∀ s, s ∈ live → is_live_relay (ss_kind s) = true) → qn_revision initial = 1%N →
  rtc projection_step (projection_start id diagnostic (cache :: writes :: live) initial, Selecting, w) (p, Selecting, w1) →
  pj_running p = true → id ∉ rg_cancelled (wd_registry w1) → wake_possible p wake →
  ∃ c wr l, sources_shaped p c wr l ∧
    match turn_sources wake (live_snapshots id (wd_registry w1)) c wr l with
    | None => ∃ p1 w1', projection_poll wake p w1 = (p1, Selecting, w1') ∧ pj_running p1 = false ∧
                pj_latest p1 = pj_latest p
    | Some sources => ∃ p1, projection_poll wake p w1 = (p1, Answering, turn_reports wake id c wr w1) ∧
        ∀ w2 w3, turn_delivers p p1 sources w2 w3
    end.
Proof.
  intros Hc Hw Hl Hi Hrun Hr Hcan Hwake.
  assert (projection_ok id (projection_start id diagnostic (cache :: writes :: live) initial, Selecting, w)) as Hstart.
  { split_and!; [done| |done]. intros _. exists cache, writes, live. by split_and!. }
  destruct (run_ok id _ _ Hrun Hstart) as (Hid & Hs & Hrev). destruct (Hs Hr) as (c & wr & l & Hsh).
  exists c, wr, l. split; [done|]. unfold projection_poll. rewrite Hid, bool_decide_eq_false_2, Hr by done.
  pose proof (gather_exact wake p w1 c wr l Hsh Hwake Hr) as Hg. rewrite Hid in Hg. case_match.
  - destruct Hg as (p1 & Hg & Hs1 & Hid1 & _ & Hr1 & Hl1 & Hn1 & _). exists p1. split; [done|].
    intros w2 w3. apply answered_turn; try done. congruence.
  - destruct Hg as (w' & ->). by eexists _, _.
Qed.

(** Closing a literal observation leaves its fact in the diagnostics: the handle
    does not remove it, and the task, which would, is dropped by its cancelled
    token before it can see the wake-up. *)
Theorem closed_query_fact_kept h w o p wakes :
  rg_observations (wd_registry w) !! hd_id h = Some o → hd_forgets h = false → pj_id p = hd_id h →
  let w1 := observation_close h w in
  wd_diagnostics (fold_left (λ s wake, projection_poll wake s.1.1 s.2) wakes (p, Selecting, w1)).2 = wd_diagnostics w.
Proof.
  intros Ho Hf Hid w1.
  assert (wd_diagnostics w1 = wd_diagnostics w) as <- by (unfold w1, observation_close; by rewrite Hf).
  assert (hd_id h ∈ rg_cancelled (wd_registry w1)) as Hcan.
  { unfold w1, observation_close, withdraw. cbn. rewrite Ho. cbn.
    set (r := retire _ _). assert (hd_id h ∈ rg_cancelled r) as Hr by (unfold r, retire; cbn; set_solver).
    clearbody r. revert r Hr. generalize (ordered_elements (ob_children o)).
    induction l as [|x l IH]; intros r Hr; cbn; [done|]. apply IH. case_match; [unfold retire; cbn; set_solver|done]. }
  clearbody w1. revert p Hid. induction wakes as [|wake wakes IH]; intros p Hid; [done|]. cbn [fold_left fst snd].
  unfold projection_poll at 2. rewrite Hid, bool_decide_eq_true_2 by done. by apply IH.
Qed.
End delivery.

(** ** Revisions the application did not see *)

(** The handle reading a sequence of latest answers. *)
Definition read_all (latest : list QuerySnapshot) (h : Observation) (w : World) : Observation * World :=
  fold_left (λ s snapshot, let '(_, h, w) := observation_changed snapshot s.1 s.2 in (h, w)) latest (h, w).

Lemma read_one snapshot h w :
  hd_id h ∉ rg_cancelled (wd_registry w) → (hd_delivered h < qn_revision snapshot)%N →
  let '(_, h', w') := observation_changed snapshot h w in
  hd_id h' = hd_id h ∧ wd_registry w' = wd_registry w ∧ hd_delivered h' = qn_revision snapshot ∧
  (qn_revision snapshot + fold_right N.add 0 (wd_reported w) =
     hd_delivered h + 1 + fold_right N.add 0 (wd_reported w'))%N.
Proof.
  intros Hopen Hlt. unfold observation_changed. rewrite bool_decide_eq_false_2 by done. cbn. split_and!; [done..|].
  unfold skipped_between, saturating_sub.
  assert (∀ l n, fold_right N.add 0%N (l ++ [n]) = (fold_right N.add 0 l + n)%N) as Hsum.
  { intros l n. induction l as [|x l IH]; cbn; lia. }
  case_bool_decide; [rewrite Hsum; lia|]. rewrite app_nil_r. lia.
Qed.

(** No revision goes missing silently: when the application reads answers of
    rising revision, the revisions it read and the skipped ones reported to it
    together account for every revision up to the last. *)
Theorem skipped_revisions_reported latest h w :
  hd_id h ∉ rg_cancelled (wd_registry w) → StronglySorted N.lt (hd_delivered h :: (qn_revision <$> latest)) →
  let '(h', w') := read_all latest h w in
  (hd_delivered h' + fold_right N.add 0 (wd_reported w) =
     hd_delivered h + N.of_nat (length latest) + fold_right N.add 0 (wd_reported w'))%N ∧
  hd_delivered h' = default (hd_delivered h) (last (qn_revision <$> latest)).
Proof.
  unfold read_all. revert h w. induction latest as [|s latest IH]; intros h w Hopen Hs; [cbn; split; [lia|done]|].
  cbn [fold_left fst snd]. apply StronglySorted_inv in Hs as [Hs Hall]. cbn in Hall. apply Forall_cons in Hall as [Hlt Hall].
  pose proof (read_one s h w Hopen Hlt) as Hone.
  destruct (observation_changed s h w) as [[a h1] w1]. destruct Hone as (Hid & Hreg & Hd & Hsum).
  rewrite <- Hid, <- Hreg in Hopen. specialize (IH h1 w1 Hopen). rewrite Hd in IH. specialize (IH Hs).
  destruct (fold_left _ latest (h1, w1)) as [h' w']. destruct IH as [IHsum IHlast]. split.
  - cbn [length]. lia.
  - rewrite IHlast. rewrite fmap_cons, last_cons. by destruct (last _).
Qed.

Module ProjectionWitness.
Local Existing Instance Sample.hashed_nostr | 0.

Definition evaluator (q : Query) (sources : list SourceSnapshot) : result QueryEvaluationError QuerySnapshot :=
  Ok (evaluated [] sources).
Definition cache : SourceSnapshot := SourceSnapshot_empty EventCacheSource.
Definition writes : SourceSnapshot := SourceSnapshot_empty WriteStoreSource.
Definition w0 : World := mkWorld (install Registry_default).2 diagnostics_default [].
Definition initial : QuerySnapshot :=
  mkQuerySnapshot 1 [] (decorate (wd_registry w0) 1 (qn_evidence (evaluated [] [cache; writes]))).
Definition p0 : Projection := projection_start 1 (Some 1%N) [cache; writes] initial.
Definition wake : Wake := WakeSource EventCacheSource (Ok (mkSnapshot EventCacheSource 3 SourceOpen [] [])).
Definition polled : Projection * Phase * World := projection_poll wake p0 w0.

(** Two revisions of the cache went unseen; the turn reports them and delivers. *)
Lemma projection_delivers_witness :
  wd_reported polled.2 = [2%N] ∧
  turn_delivers evaluator events p0 polled.1.1
    [mkSnapshot EventCacheSource 3 SourceOpen [] []; writes] polled.2 w0.
Proof.
  split; [vm_compute; reflexivity|].
  assert (1%N ∉ rg_cancelled (wd_registry w0)) as Hopen by (apply (bool_decide_eq_false _); vm_compute; reflexivity).
  destruct (projection_delivers evaluator events 1 (Some 1%N) cache writes [] initial w0 p0 w0 wake
    eq_refl eq_refl (λ s Hs, False_ind _ (not_elem_of_nil s Hs)) eq_refl (rtc_refl _ _) eq_refl Hopen
    (conj (or_introl (conj eq_refl eq_refl)) eq_refl)) as (c & wr & l & ([= <- <- <-] & _) & p1 & Hp & Ht).
  change (polled.1.1) with ((projection_poll wake p0 w0).1.1). rewrite Hp. exact (Ht polled.2 w0).
Defined.

Definition at_revision (n : N) : QuerySnapshot := mkQuerySnapshot n [] default_evidence.

Lemma skipped_revisions_reported_witness :
  let '(h', w') := read_all [at_revision 2; at_revision 5] (mkHandle 1 1 false) w0 in
  (hd_delivered h' + 0 = 1 + 2 + fold_right N.add 0 (wd_reported w'))%N ∧ wd_reported w' = [2%N].
Proof.
  pose proof (skipped_revisions_reported [at_revision 2; at_revision 5] (mkHandle 1 1 false) w0) as Hw.
  vm_compute. split; [|reflexivity].
  assert (StronglySorted N.lt [1%N; 2%N; 5%N]) as Hsorted by (repeat constructor).
  assert (1%N ∉ rg_cancelled (wd_registry w0)) as Hopen by (apply (bool_decide_eq_false _); vm_compute; reflexivity).
  exact (proj1 (Hw Hopen Hsorted)).
Defined.
End ProjectionWitness.
