(* ===== verification/Observer.v ===== *)
(** * Opening observations ([crates/fava-observe], [observer.rs], [routes.rs], [observer/current_account.rs])

    The synchronous open sequence: local sources, route binding, installation,
    demand, first evaluation, projection task; the task that follows a route; and
    the observation that follows the current account.

    [Desk] is what the sequence works on: the registry and the diagnostics
    ([World]), the source handles and router sessions that exist, the tasks
    spawned so far, and the value of every observation's watch channel.  The
    providers are the fields of [Observer]: the answer of a local source may differ
    from call to call, so [ov_source] is given the number of the call;
    [ov_selection] gives the account session's selection at each read of it;
    [ov_coverage] is what the cache proves when it is asked; [ov_engine] is what
    [Engine::start] answers, and [ov_spawns] says whether the runtime takes tasks.
    Opening an automatic query opens its routers' input queries by the same
    function; [open_input] is that recursive call, and [open_fuel] ties the knot
    (recursion deeper than the fuel is a stack overflow). *)

From S2P Require Import Prelude Nostr Relay State Write Query Subscriptions Diagnostics Routing Observations Projection.

Inductive QuerySourceError := SourceIsClosed | SourceRefused (detail : BoundedText).

Inductive ObserveError :=
| SourceOpenError (role : SourceKind) (error : QuerySourceError)
| EvaluationError (error : QueryEvaluationError)
| RelayError (text : string)
| SessionUnconfigured
| CurrentAccountUnstable
| EngineClosed
| ObserveRoundsExhausted (error : RoundsExhausted)
| ObservePlansExhausted (error : PlanRevisionExhausted).

Definition CURRENT_ACCOUNT_OPEN_ATTEMPTS : nat := 64.

(** [Query::freshness() != CacheOnly && !matches_nothing()]. *)
Definition wants_relays (q : Query) : bool :=
  match q_freshness q with CacheOnly => false | _ => true end && negb (matches_nothing q).

(** The configured owner; the three optional providers that only decide whether
    the engine can start are flags. *)
Class Observer (A : Type) := mkObserver {
  ov_source : nat → SourceKind → Query → result QuerySourceError SourceSnapshot;
  ov_evaluator : Query → list SourceSnapshot → result QueryEvaluationError QuerySnapshot;
  ov_routers : list (Router A);
  ov_transport : bool;
  ov_planner : bool;
  ov_events : bool;
  ov_engine : result ObserveError unit;
  ov_coverage : RelayUrl → Filter → option SourceCoverage;
  ov_session : bool;
  ov_selection : nat → option PublicKey * N;
  ov_spawns : bool
}.

Section observer.
Context `{Nostr} {A : Type} `{!RouterSession A} `{!Observer A}.

Record RouteBinding := mkBinding {
  rb_plan : RoutePlan;
  rb_session : option nat;
  rb_inputs : list Query;
  rb_origin : Origin
}.

(** [FollowedRoute] with its inputs opened, the projection of an observation with
    its two source handles, and the follower of the current account. *)
Record FollowedRoute := mkFollowed {
  fr_id : ObservationId;
  fr_request : Query;
  fr_plan : RoutePlan;
  fr_origin : Origin;
  fr_inputs : list Observation;
  fr_session : nat
}.

Record Follow := mkFollow {
  fo_parent : ObservationId;
  fo_query : Query;
  fo_child : Observation;
  fo_current : option PublicKey;
  fo_current_revision : N;
  fo_delivered : N
}.

Inductive Task :=
| TaskProjection (q : Query) (p : Projection) (cache writes : nat)
| TaskFollow (route : FollowedRoute)
| TaskCurrent (follow : Follow).

Record Desk := mkDesk {
  dk_world : World;
  dk_started : bool;
  dk_calls : nat;
  dk_reads : nat;
  dk_handles : gset nat;
  dk_next_session : nat;
  dk_sessions : gmap nat (OpenedChain (A := A));
  dk_tasks : list Task;
  dk_latest : gmap ObservationId QuerySnapshot;
  dk_synchronized : gmap ObservationId ((option PublicKey * N) * QuerySnapshot)
}.

Definition dk_on_world (f : World → World) dk : Desk :=
  mkDesk (f (dk_world dk)) (dk_started dk) (dk_calls dk) (dk_reads dk) (dk_handles dk) (dk_next_session dk)
    (dk_sessions dk) (dk_tasks dk) (dk_latest dk)
    (dk_synchronized dk).
Definition dk_on_registry (f : Registry → Registry) : Desk → Desk :=
  dk_on_world (λ w, mkWorld (f (wd_registry w)) (wd_diagnostics w) (wd_reported w)).
Definition dk_registry dk : Registry := wd_registry (dk_world dk).
Definition dk_set_started dk : Desk :=
  mkDesk (dk_world dk) true (dk_calls dk) (dk_reads dk) (dk_handles dk) (dk_next_session dk) (dk_sessions dk)
    (dk_tasks dk) (dk_latest dk)
    (dk_synchronized dk).
Definition dk_called (handles : gset nat) dk : Desk :=
  mkDesk (dk_world dk) (dk_started dk) (1 + dk_calls dk) (dk_reads dk) handles (dk_next_session dk) (dk_sessions dk)
    (dk_tasks dk) (dk_latest dk)
    (dk_synchronized dk).
Definition dk_set_handles (handles : gset nat) dk : Desk :=
  mkDesk (dk_world dk) (dk_started dk) (dk_calls dk) (dk_reads dk) handles (dk_next_session dk) (dk_sessions dk)
    (dk_tasks dk) (dk_latest dk)
    (dk_synchronized dk).
Definition dk_set_sessions next sessions dk : Desk :=
  mkDesk (dk_world dk) (dk_started dk) (dk_calls dk) (dk_reads dk) (dk_handles dk) next sessions (dk_tasks dk) (dk_latest dk)
    (dk_synchronized dk).
Definition dk_set_tasks tasks dk : Desk :=
  mkDesk (dk_world dk) (dk_started dk) (dk_calls dk) (dk_reads dk) (dk_handles dk) (dk_next_session dk) (dk_sessions dk)
    tasks (dk_latest dk)
    (dk_synchronized dk).
Definition dk_send (id : ObservationId) (v : QuerySnapshot) dk : Desk :=
  mkDesk (dk_world dk) (dk_started dk) (dk_calls dk) (dk_reads dk) (dk_handles dk) (dk_next_session dk) (dk_sessions dk)
    (dk_tasks dk) (<[id := v]> (dk_latest dk))
    (dk_synchronized dk).
Definition dk_read dk : Desk :=
  mkDesk (dk_world dk) (dk_started dk) (dk_calls dk) (1 + dk_reads dk) (dk_handles dk) (dk_next_session dk)
    (dk_sessions dk) (dk_tasks dk) (dk_latest dk)
    (dk_synchronized dk).

(** Both channels of an observation that follows the current account. *)
Definition dk_deliver (id : ObservationId) (at_ : option PublicKey * N) (v : QuerySnapshot) dk : Desk :=
  mkDesk (dk_world dk) (dk_started dk) (dk_calls dk) (dk_reads dk) (dk_handles dk) (dk_next_session dk) (dk_sessions dk)
    (dk_tasks dk) (<[id := v]> (dk_latest dk)) (<[id := (at_, v)]> (dk_synchronized dk)).

(** [spawn_cancellable] and [registry.attach]. *)
Definition spawn_task (id : ObservationId) (task : Task) dk : Desk :=
  dk_on_registry (attach_task id (length (dk_tasks dk))) (dk_set_tasks (dk_tasks dk ++ [task]) dk).

(** ** Local sources *)

Definition open_source (role : SourceKind) (q : Query) dk : result QuerySourceError (nat * SourceSnapshot) * Desk :=
  let n := dk_calls dk in
  match ov_source n role q with
  | Err error => (Err error, dk_called (dk_handles dk) dk)
  | Ok snapshot => (Ok (n, snapshot), dk_called ({[n]} ∪ dk_handles dk) dk)
  end.

Definition close_handles (l : list nat) dk : Desk := dk_set_handles (dk_handles dk ∖ list_to_set l) dk.

(** Both local sources; the first is closed again when the second refuses. *)
Definition open_sources (q : Query) dk : result ObserveError (nat * nat * list SourceSnapshot) * Desk :=
  match open_source EventCacheSource q dk with
  | (Err error, dk) => (Err (SourceOpenError EventCacheSource error), dk)
  | (Ok (cache, cache_initial), dk) =>
      match open_source WriteStoreSource q dk with
      | (Err error, dk) => (Err (SourceOpenError WriteStoreSource error), close_handles [cache] dk)
      | (Ok (writes, writes_initial), dk) => (Ok (cache, writes, [cache_initial; writes_initial]), dk)
      end
  end.

Definition evaluate_initial (q : Query) (snapshots : list SourceSnapshot) : result ObserveError QuerySnapshot :=
  match ov_evaluator q snapshots with
  | Ok initial => Ok (mkQuerySnapshot 1 (qn_events initial) (qn_evidence initial))
  | Err error => Err (EvaluationError error)
  end.

Definition local_snapshot (q : Query) dk : result ObserveError QuerySnapshot * Desk :=
  match open_sources q dk with
  | (Err error, dk) => (Err error, dk)
  | (Ok (cache, writes, snapshots), dk) => (evaluate_initial q snapshots, close_handles [cache; writes] dk)
  end.

(** [collect] into a [Result]: stops at the first refusal. *)
Fixpoint collect_with {X Y} (f : X → Desk → result ObserveError Y * Desk) (l : list X) dk
    : result ObserveError (list Y) * Desk :=
  match l with
  | [] => (Ok [], dk)
  | x :: l =>
      match f x dk with
      | (Err error, dk) => (Err error, dk)
      | (Ok y, dk) =>
          match collect_with f l dk with
          | (Err error, dk) => (Err error, dk)
          | (Ok ys, dk) => (Ok (y :: ys), dk)
          end
      end
  end.

(** ** Routes *)

Definition relay_error {X} (r : result RouterError X) : result ObserveError X :=
  match r with Ok x => Ok x | Err error => Err (RelayError (router_error_text error)) end.

Definition drop_session (session : option nat) dk : Desk :=
  match session with
  | Some n => dk_set_sessions (dk_next_session dk) (delete n (dk_sessions dk)) dk
  | None => dk
  end.

Definition open_chain (chain : OpenedChain) dk : nat * Desk :=
  (dk_next_session dk, dk_set_sessions (1 + dk_next_session dk) (<[dk_next_session dk := chain]> (dk_sessions dk)) dk).

Definition input_snapshots (declared : list (list Query)) : Desk → result ObserveError (list (list QuerySnapshot)) * Desk :=
  collect_with (collect_with local_snapshot) declared.

(** [routes::bind]. *)
Definition bind_route (q : Query) dk : outcome (result ObserveError RouteBinding) * Desk :=
  let request := RouteRead q in
  match qs_acquisition (q_source q) with
  | AcquireExplicit relays =>
      (Returned (match relay_error (explicit_plan (ordered_elements relays) (targets request)) with
                 | Ok plan => Ok (mkBinding plan None [] Explicit)
                 | Err error => Err error
                 end), dk)
  | AcquireAutomatic =>
      match relay_error (queries ov_routers request) with
      | Err error => (Returned (Err error), dk)
      | Ok declared =>
          match input_snapshots declared dk with
          | (Err error, dk) => (Returned (Err error), dk)
          | (Ok inputs, dk) =>
              match Routing.open ov_routers request inputs with
              | Panicked => (Panicked, dk)
              | Returned (Err error) => (Returned (Err (RelayError (router_error_text error))), dk)
              | Returned (Ok chain) =>
                  match from_contribution 1 (chain_current chain) with
                  | Ok plan => let '(n, dk) := open_chain chain dk in
                               (Returned (Ok (mkBinding plan (Some n) (mjoin declared) Automatic)), dk)
                  | Err error => (Returned (Err (RelayError (router_error_text error))), dk)
                  end
              end
          end
      end
  end.

(** [preview_routes]. *)
Definition preview_routes (q : Query) dk : outcome (result ObserveError RoutePlan) * Desk :=
  let request := RouteRead q in
  match qs_acquisition (q_source q) with
  | AcquireExplicit relays => (Returned (relay_error (explicit_plan (ordered_elements relays) (targets request))), dk)
  | AcquireAutomatic =>
      match relay_error (queries ov_routers request) with
      | Err error => (Returned (Err error), dk)
      | Ok declared =>
          match input_snapshots declared dk with
          | (Err error, dk) => (Returned (Err error), dk)
          | (Ok inputs, dk) =>
              (match preview ov_routers request inputs with
               | Panicked => Panicked
               | Returned r => Returned (relay_error r)
               end, dk)
          end
      end
  end.

(** [remove_fresh_sources]; [Duration::as_secs] of a duration in nanoseconds. *)
Definition still_fresh (now : Timestamp) (age : N) (c : SourceCoverage) : bool :=
  negb (bool_decide (age / 1000000000 < saturating_sub now (cv_completed_at c))%N).

Definition remove_fresh_sources (now : Timestamp) (q : Query) (id : ObservationId) (b : RouteBinding) : RouteBinding :=
  match q_freshness q with
  | MaxAge age =>
      if ov_events
      then
        let wanted := rd_filter (demand_for_query id ROOT q) in
        let plan := rb_plan b in
        mkBinding
          (mkPlan (rp_revision plan)
             (filter (λ kv : RelayUrl * PlannedRelay,
                match ov_coverage kv.1 wanted with Some c => negb (still_fresh now age c) | None => true end = true)
                (rp_destinations plan))
             (rp_coverage plan) (rp_unresolved plan) (rp_shortfalls plan))
          (rb_session b) (rb_inputs b) (rb_origin b)
      else b
  | _ => b
  end.

(** [start_engine]: a failed start still fills the [OnceLock]. *)
Definition start_engine dk : result ObserveError unit * Desk :=
  if dk_started dk then (Ok tt, dk)
  else if negb ov_transport then (Err (RelayError "live queries require a transport"), dk)
  else if negb ov_planner then (Err (RelayError "live queries require a subscription planner"), dk)
  else if negb ov_events then (Err (RelayError "live queries require an event cache"), dk)
  else (ov_engine, dk_set_started dk).

(** ** The open sequence *)

Section opening.
Context (open_input : Query → Desk → outcome (result ObserveError Observation) * Desk).

Definition dk_close (h : Observation) : Desk → Desk := dk_on_world (observation_close h).

(** The inputs opened one after the other; [None] when one refuses, the ones
    already open being dropped. *)
Fixpoint open_inputs (l : list Query) (opened : list Observation) dk : outcome (option (list Observation)) * Desk :=
  match l with
  | [] => (Returned (Some opened), dk)
  | input :: l =>
      match open_input input dk with
      | (Panicked, dk) => (Panicked, fold_left (λ dk h, dk_close h dk) opened dk)
      | (Returned (Err _), dk) => (Returned None, fold_left (λ dk h, dk_close h dk) opened dk)
      | (Returned (Ok h), dk) => open_inputs l (opened ++ [h]) dk
      end
  end.

(** [follow_routes]: what a refusal drops is released. *)
Definition follow_routes (id : ObservationId) (q : Query) (b : RouteBinding) (session : nat) dk : outcome unit * Desk :=
  match open_inputs (rb_inputs b) [] dk with
  | (Panicked, dk) => (Panicked, drop_session (Some session) dk)
  | (Returned None, dk) => (Returned tt, drop_session (Some session) dk)
  | (Returned (Some inputs), dk) =>
      (Returned tt,
       if ov_spawns
       then spawn_task id (TaskFollow (mkFollowed id q (rb_plan b) (rb_origin b) inputs session)) dk
       else drop_session (Some session) (fold_left (λ dk h, dk_close h dk) inputs dk))
  end.

Definition retain (id : ObservationId) (q : Query) (b : RouteBinding) dk : outcome unit * Desk :=
  let dk := dk_on_registry (assign_route id q (rb_plan b) (rb_origin b)) dk in
  match rb_session b with
  | Some session => follow_routes id q b session dk
  | None => (Returned tt, dk)
  end.

(** After installation: demand, first evaluation and the projection task. *)
Definition finish_open (now : Timestamp) (q : Query) (diagnostic : option ObservationId) (id : ObservationId)
    (cache writes : nat) (snapshots : list SourceSnapshot) dk : outcome (result ObserveError Observation) * Desk :=
  let snapshots := refresh_live (dk_registry dk) id snapshots in
  match evaluate_initial q snapshots with
  | Err error => (Returned (Err error), dk_on_registry (withdraw id) (close_handles [cache; writes] dk))
  | Ok initial =>
      let initial := mkQuerySnapshot 1 (qn_events initial) (decorate (dk_registry dk) id (qn_evidence initial)) in
      let diagnostic_id := match diagnostic with None => Some id | Some _ => None end in
      let dk := match diagnostic_id with
                | Some d => dk_on_world (λ w, mkWorld (wd_registry w)
                              (publish_and (wd_registry w) id d (qn_evidence initial) (wd_diagnostics w)).2 (wd_reported w)) dk
                | None => dk
                end in
      let dk := dk_send id initial dk in
      let dk := if ov_spawns
                then spawn_task id (TaskProjection q (projection_start id diagnostic_id snapshots initial) cache writes) dk
                else close_handles [cache; writes] dk in
      (Returned (Ok (mkHandle id 1 false)), dk)
  end.

Definition install_observation (diagnostic : option ObservationId) dk : option ObservationId * Desk :=
  let '(id, r) := match diagnostic with
                  | Some public => install_child public (dk_registry dk)
                  | None => install (dk_registry dk)
                  end in
  (id, dk_on_registry (λ _, r) dk).

(** From an installed observation: freshness, engine and demand, then the rest. *)
Definition open_installed (now : Timestamp) (q : Query) (diagnostic : option ObservationId) (id : ObservationId)
    (cache writes : nat) (snapshots : list SourceSnapshot) (binding : option RouteBinding) dk
    : outcome (result ObserveError Observation) * Desk :=
  match binding with
  | None => finish_open now q diagnostic id cache writes snapshots dk
  | Some b =>
      let b := remove_fresh_sources now q id b in
      let '(started, dk) :=
        if negb (bool_decide (rp_destinations (rb_plan b) = ∅)) || bool_decide (is_Some (rb_session b))
        then start_engine dk else (Ok tt, dk) in
      match started with
      | Err error =>
          (Returned (Err error),
           drop_session (rb_session b) (dk_on_registry (withdraw id) (close_handles [cache; writes] dk)))
      | Ok _ =>
          match retain id q b dk with
          | (Panicked, dk) => (Panicked, close_handles [cache; writes] dk)
          | (Returned _, dk) => finish_open now q diagnostic id cache writes snapshots dk
          end
      end
  end.

Definition open_concrete (now : Timestamp) (q : Query) (diagnostic : option ObservationId) dk
    : outcome (result ObserveError Observation) * Desk :=
  match open_sources q dk with
  | (Err error, dk) => (Returned (Err error), dk)
  | (Ok (cache, writes, snapshots), dk) =>
      let '(binding, dk) :=
        if wants_relays q
        then match bind_route q dk with
             | (Panicked, dk) => (Panicked, dk)
             | (Returned (Ok b), dk) => (Returned (Ok (Some b)), dk)
             | (Returned (Err error), dk) => (Returned (Err error), dk)
             end
        else (Returned (Ok None), dk) in
      match binding with
      | Panicked => (Panicked, close_handles [cache; writes] dk)
      | Returned (Err error) => (Returned (Err error), close_handles [cache; writes] dk)
      | Returned (Ok binding) =>
          match install_observation diagnostic dk with
          | (None, dk) =>
              (Returned (Err EngineClosed),
               drop_session (b ← binding; rb_session b) (close_handles [cache; writes] dk))
          | (Some id, dk) => open_installed now q diagnostic id cache writes snapshots binding dk
          end
      end
  end.

(** ** The current account *)

(** [current_account::bind]. *)
Definition bind_account (q : Query) (current : option PublicKey) : Query :=
  let bound := bind_current_account q current in
  if matches_nothing bound then cache_only bound else bound.

(** [current_account::revision]. *)
Definition at_revision (s : QuerySnapshot) (revision : N) : QuerySnapshot :=
  mkQuerySnapshot revision (qn_events s) (qn_evidence s).

Definition latest_of (id : ObservationId) dk : QuerySnapshot :=
  default (mkQuerySnapshot 1 [] default_evidence) (dk_latest dk !! id).

(** [publish] of a child's current evidence under its parent. *)
Definition publish_child (parent child : ObservationId) dk : bool * Desk :=
  let '(ran, d) := publish_and (dk_registry dk) child parent (qn_evidence (latest_of child dk)) (wd_diagnostics (dk_world dk)) in
  (ran, dk_on_world (λ w, mkWorld (wd_registry w) d (wd_reported w)) dk).

Fixpoint open_stable_current_child (attempts : nat) (now : Timestamp) (q : Query) (parent : ObservationId) dk
    : outcome (result ObserveError (Observation * option PublicKey * N)) * Desk :=
  match attempts with
  | 0 => (Returned (Err CurrentAccountUnstable), dk)
  | Datatypes.S attempts =>
      let '(account, revision) := ov_selection (dk_reads dk) in
      match open_concrete now (bind_account q account) (Some parent) (dk_read dk) with
      | (Panicked, dk) => (Panicked, dk)
      | (Returned (Err error), dk) => (Returned (Err error), dk)
      | (Returned (Ok child), dk) =>
          let expected := ov_selection (dk_reads dk) in
          let dk := dk_read dk in
          if bool_decide (expected = (account, revision))
          then
            let '(activated, r) := activate_child parent (hd_id child) (dk_registry dk) in
            if activated
            then (Returned (Ok (child, account, revision)), (publish_child parent (hd_id child) (dk_on_registry (λ _, r) dk)).2)
            else (Returned (Err EngineClosed), dk_close child dk)
          else open_stable_current_child attempts now q parent (dk_close child dk)
      end
  end.

Definition open_current_account (now : Timestamp) (q : Query) dk : outcome (result ObserveError Observation) * Desk :=
  match install_observation None dk with
  | (None, dk) => (Panicked, dk)
  | (Some parent, dk) =>
      match open_stable_current_child CURRENT_ACCOUNT_OPEN_ATTEMPTS now q parent dk with
      | (Panicked, dk) => (Panicked, dk)
      | (Returned (Err error), dk) => (Returned (Err error), dk_on_registry (withdraw parent) dk)
      | (Returned (Ok (child, current, revision)), dk) =>
          let dk := dk_deliver parent (current, revision) (at_revision (latest_of (hd_id child) dk) 1) dk in
          if ov_spawns
          then (Returned (Ok (mkHandle parent 1 true)),
                spawn_task parent (TaskCurrent (mkFollow parent q child current revision 1)) dk)
          else (Returned (Err EngineClosed), dk_on_registry (withdraw parent) (dk_close child dk))
      end
  end.

Definition open_query (now : Timestamp) (q : Query) dk : outcome (result ObserveError Observation) * Desk :=
  if depends_on_current_account q
  then if ov_session then open_current_account now q dk else (Returned (Err SessionUnconfigured), dk)
  else open_concrete now q None dk.

(** What wakes [current_account::run]: the session's signal, or the child's
    channel ([false] when the other end is gone). *)
Inductive CurrentWake := WakeSelection (alive : bool) | WakeChild (alive : bool).

(** [publish_and] of a child's answer under the session lock, with both sends. *)
Definition send_current (parent child : ObservationId) (expected : option PublicKey * N) (snapshot outbound : QuerySnapshot)
    dk : bool * Desk :=
  let selected := ov_selection (dk_reads dk) in
  let dk := dk_read dk in
  if bool_decide (selected = expected)
  then
    let '(ran, d) := publish_and (dk_registry dk) child parent (qn_evidence snapshot) (wd_diagnostics (dk_world dk)) in
    if ran
    then (true, dk_deliver parent expected outbound (dk_on_world (λ w, mkWorld (wd_registry w) d (wd_reported w)) dk))
    else (false, dk)
  else (false, dk).

(** The loop left: the child it holds is dropped. *)
Definition current_end (fo : Follow) dk : outcome (option Follow) * Desk := (Returned None, dk_close (fo_child fo) dk).

(** One turn of the loop of [current_account::run]. *)
Definition current_turn (now : Timestamp) (wake : CurrentWake) (fo : Follow) dk : outcome (option Follow) * Desk :=
  match wake with
  | WakeSelection false => current_end fo dk
  | WakeSelection true =>
      let '(account, revision) := ov_selection (dk_reads dk) in
      let dk := dk_read dk in
      if bool_decide (revision = fo_current_revision fo) then (Returned (Some fo), dk)
      else if bool_decide (account = fo_current fo)
      then (Returned (Some (mkFollow (fo_parent fo) (fo_query fo) (fo_child fo) (fo_current fo) revision (fo_delivered fo))), dk)
      else
        match open_stable_current_child CURRENT_ACCOUNT_OPEN_ATTEMPTS now (fo_query fo) (fo_parent fo) dk with
        | (Panicked, dk) => (Panicked, dk_close (fo_child fo) dk)
        | (Returned (Err _), dk) => current_end fo dk
        | (Returned (Ok (next, account, revision)), dk) =>
            match checked_succ (fo_delivered fo) with
            | None => current_end fo (dk_close next dk)
            | Some next_revision =>
                let snapshot := latest_of (hd_id next) dk in
                match send_current (fo_parent fo) (hd_id next) (account, revision) snapshot
                        (at_revision snapshot next_revision) dk with
                | (false, dk) => (Returned (Some fo), dk_close next dk)
                | (true, dk) =>
                    (Returned (Some (mkFollow (fo_parent fo) (fo_query fo) next account revision next_revision)),
                     dk_close (fo_child fo) dk)
                end
            end
        end
  | WakeChild alive =>
      match (if alive then observation_changed (latest_of (hd_id (fo_child fo)) dk) (fo_child fo) (dk_world dk)
             else (None, fo_child fo, dk_world dk)) with
      | (None, _, _) => current_end fo dk
      | (Some snapshot, child, w) =>
          let dk := dk_on_world (λ _, w) dk in
          match checked_succ (fo_delivered fo) with
          | None => current_end fo dk
          | Some next_revision =>
              let '(sent, dk) := send_current (fo_parent fo) (hd_id child) (fo_current fo, fo_current_revision fo) snapshot
                                   (at_revision snapshot next_revision) dk in
              (Returned (Some (mkFollow (fo_parent fo) (fo_query fo) child (fo_current fo) (fo_current_revision fo)
                                 (if sent then next_revision else fo_delivered fo))), dk)
          end
      end
  end.

(** [synchronize_current_account]'s test: the delivered answer is the current
    selection's ([None]: it waits). *)
Definition synchronized_answer (parent : ObservationId) dk : option QuerySnapshot * Desk :=
  let expected := ov_selection (dk_reads dk) in
  let dk := dk_read dk in
  match dk_synchronized dk !! parent with
  | Some (actual, snapshot) =>
      if bool_decide (actual = expected)
      then (if bool_decide (ov_selection (dk_reads dk) = expected) then Some snapshot else None, dk_read dk)
      else (None, dk)
  | None => (None, dk)
  end.
End opening.

(** [Observer::open]. *)
Fixpoint open_fuel (fuel : nat) (now : Timestamp) (q : Query) dk : outcome (result ObserveError Observation) * Desk :=
  match fuel with
  | 0 => (Panicked, dk)
  | Datatypes.S fuel => open_query (open_fuel fuel now) now q dk
  end.

(** ** Following a route *)

(** The loop left: the session is closed and the inputs are dropped. *)
Definition follow_end (route : FollowedRoute) dk : Desk :=
  fold_left (λ dk h, dk_close h dk) (fr_inputs route) (drop_session (Some (fr_session route)) dk).

(** One turn of [follow_route_inputs] on the current answers of its inputs: the
    route it goes on with, or [None] when the loop ends. *)
Definition follow_turn (snapshots : list QuerySnapshot) (route : FollowedRoute) dk : outcome (option FollowedRoute) * Desk :=
  match dk_sessions dk !! fr_session route with
  | None => (Returned None, follow_end route dk)
  | Some chain =>
      match replace chain snapshots with
      | Panicked => (Panicked, follow_end route dk)
      | Returned (answer, chain) =>
          let dk := dk_set_sessions (dk_next_session dk) (<[fr_session route := chain]> (dk_sessions dk)) dk in
          match answer with
          | Err _ => (Returned None, follow_end route dk)
          | Ok contribution =>
              if bool_decide (fr_inputs route = []) &&
                 match from_contribution (rp_revision (fr_plan route)) contribution with
                 | Ok current => bool_decide (current = fr_plan route) | Err _ => false end
              then (Returned (Some route), dk)
              else
                match checked_succ (rp_revision (fr_plan route)) with
                | None => (Returned None, follow_end route dk)
                | Some revision =>
                    match from_contribution revision contribution with
                    | Err _ => (Returned None, follow_end route dk)
                    | Ok plan =>
                        (Returned (Some (mkFollowed (fr_id route) (fr_request route) plan (fr_origin route)
                                           (fr_inputs route) (fr_session route))),
                         dk_on_registry (assign_route (fr_id route) (fr_request route) plan (fr_origin route)) dk)
                    end
                end
          end
      end
  end.
End observer.
