(* ===== verification/ObserverProps.v ===== *)
(** * Opening leaves the rest alone ([crates/fava-observe], [observer.rs])

    Whatever [open] answers, the observations, tokens, channels, source handles,
    router sessions and tasks that existed before it are untouched; and a refused
    open keeps nothing of its own.

    [apart] relates the registry an open started from to one it reaches: what the
    open installs has larger identities, and those only refer to each other. *)

From S2P Require Import Prelude Nostr Relay State Write Query Subscriptions Diagnostics Routing Observations ObservationsProps Projection Observer.

(** ** The registry *)

Section apart.
Context (r0 : Registry) (own : ObservationId → Prop).
Context (Hown : ∀ id, (rg_next r0 < id)%N → own id).

Definition above (o : Installed) : Prop :=
  own (ob_public o) ∧ (∀ c, c ∈ ob_children o → own c) ∧ (∀ c, ob_active_child o = Some c → own c).

Record apart (r : Registry) : Prop := {
  ap_next : (rg_next r0 ≤ rg_next r)%N;
  ap_observations : ∀ id, ¬ own id → rg_observations r !! id = rg_observations r0 !! id;
  ap_wakes : ∀ id, ¬ own id → rg_wakes r !! id = rg_wakes r0 !! id;
  ap_tokens : ∀ id, ¬ own id → id ∈ rg_cancelled r ↔ id ∈ rg_cancelled r0;
  ap_above : ∀ id o, own id → rg_observations r !! id = Some o → above o
}.

Lemma own_ne id j : own id → ¬ own j → id ≠ j.
Proof. by intros Hid Hj ->. Qed.
Local Hint Resolve own_ne : core.

(** The table changed at an identity of the open. *)
Lemma apart_alter f id r :
  own id → (∀ o, rg_observations r !! id = Some o → above o → above (f o)) → apart r →
  apart (rg_set_observations (alter f id (rg_observations r)) r).
Proof.
  intros Hid Hf [Hn Ho Hw Ht Ha]. split; cbn; try done.
  - intros j Hj. rewrite lookup_alter_ne by auto. by apply Ho.
  - intros j o Hj. rewrite lookup_alter. destruct (decide (id = j)) as [<-|]; [|apply Ha; done].
    intros (o' & Ho' & ->)%fmap_Some. apply Hf; [done|]. by apply (Ha id).
Qed.

Lemma apart_put id o r : own id → above o → apart r → apart (rg_put id o r).
Proof.
  intros Hid Hab [Hn Ho Hw Ht Ha]. split; cbn; try done.
  - intros j Hj. rewrite lookup_insert_ne by auto. by apply Ho.
  - intros j o' Hj. rewrite lookup_insert. destruct (decide (id = j)) as [<-|]; [by intros [= <-]|by apply Ha].
Qed.

Lemma apart_delete id r : own id → apart r → apart (rg_set_observations (delete id (rg_observations r)) r).
Proof.
  intros Hid [Hn Ho Hw Ht Ha]. split; cbn; try done.
  - intros j Hj. rewrite lookup_delete_ne by auto. by apply Ho.
  - intros j o Hj. rewrite lookup_delete. destruct (decide (id = j)); [done|by apply Ha].
Qed.

Lemma apart_signals r r' :
  rg_next r' = rg_next r → rg_observations r' = rg_observations r → rg_wakes r' = rg_wakes r →
  rg_cancelled r' = rg_cancelled r → apart r → apart r'.
Proof. intros Hn Ho Hw Hc [H1 H2 H3 H4 H5]. split; rewrite ?Hn, ?Ho, ?Hw, ?Hc; done. Qed.

Lemma apart_announce r : apart r → apart (send_demand_changed (bump r)).
Proof. by apply apart_signals. Qed.

Lemma apart_wake id v r : own id → apart r → apart (send_wake id v r).
Proof.
  intros Hid [Hn Ho Hw Ht Ha]. split; cbn; try done. intros j Hj. rewrite lookup_insert_ne by auto. by apply Hw.
Qed.

Lemma apart_retire id r : own id → apart r → apart (retire id r).
Proof.
  intros Hid Hap. pose proof (apart_delete id r Hid Hap) as [Hn Ho Hw Ht Ha]. split; cbn; try done.
  - intros j Hj. rewrite lookup_insert_ne by auto. by apply Hap.
  - intros j Hj. rewrite elem_of_union, elem_of_singleton. rewrite <- (ap_tokens _ Hap j Hj). split; [|tauto].
    by intros [->|?].
Qed.

Lemma apart_retired r o :
  apart r → above o →
  apart (fold_left (λ r child, match rg_observations r !! child with Some _ => retire child r | None => r end)
           (ordered_elements (ob_children o)) r).
Proof.
  intros Hap (_ & Hc & _).
  assert (Forall own (ordered_elements (ob_children o))) as Hl.
  { apply Forall_forall. intros c. rewrite elem_of_ordered_elements. apply Hc. }
  revert r Hap. induction Hl as [|c l Hcn _ IH]; intros r Hap; [done|]. cbn. apply IH.
  destruct (rg_observations r !! c); [by apply apart_retire|done].
Qed.

Lemma above_family o child children :
  above o → (∀ c, c ∈ children → own c) → (∀ c, child = Some c → own c) → above (ob_set_family child children o).
Proof. by intros (? & _ & _). Qed.

Lemma apart_withdraw id r : own id → apart r → apart (withdraw id r).
Proof.
  intros Hid Hap. unfold withdraw. destruct (rg_observations r !! id) as [o|] eqn:Ho; [|done].
  pose proof (ap_above _ Hap id o Hid Ho) as Hab. apply apart_announce, apart_retired; [|done].
  apply apart_retire; [done|]. case_bool_decide; [|by apply apart_delete].
  apply apart_alter; [exact (proj1 Hab)| |by apply apart_delete]. intros p _ Hp. pose proof Hp as (_ & Hc & Ha).
  apply above_family; [done|intros c Hin; apply Hc; revert Hin; clear; set_solver|].
  intros c. destruct (bool_decide _); [done|]. apply Ha.
Qed.

Lemma apart_activate parent child r :
  own parent → own child → apart r → apart (activate_child parent child r).2.
Proof.
  intros Hp Hc Hap. unfold activate_child.
  destruct (rg_observations r !! child) as [oc|] eqn:Hoc; [|done].
  destruct (rg_observations r !! parent) as [o|] eqn:Ho; [|done]. destruct (_ && _); [|done]. cbn [snd].
  pose proof (ap_above _ Hap parent o Hp Ho) as Hab. pose proof Hab as (_ & Hch & Hact).
  apply apart_announce.
  assert (apart (rg_set_observations (alter (ob_set_active true) child
      (rg_observations (rg_put parent (ob_set_family (Some child) (ob_children o) o) r)))
      (rg_put parent (ob_set_family (Some child) (ob_children o) o) r))) as Hap1.
  { apply apart_alter; [done|by intros ? _|]. apply apart_put; [done| |done]. apply above_family; [done..|].
    by intros ? [= <-]. }
  destruct (ob_active_child o) as [old|] eqn:Hold; [|done]. case_bool_decide; [|done].
  assert (apart (rg_set_observations (alter (λ p, ob_set_family (ob_active_child p) (ob_children p ∖ {[old]}) p) parent
      (rg_observations (rg_set_observations (alter (ob_set_active true) child
      (rg_observations (rg_put parent (ob_set_family (Some child) (ob_children o) o) r)))
      (rg_put parent (ob_set_family (Some child) (ob_children o) o) r)))) (rg_set_observations (alter (ob_set_active true) child
      (rg_observations (rg_put parent (ob_set_family (Some child) (ob_children o) o) r)))
      (rg_put parent (ob_set_family (Some child) (ob_children o) o) r)))) as Hap2.
  { apply apart_alter; [done| |done]. intros p _ (? & Hpc & Hpa). split_and!; cbn; [done|set_solver|done]. }
  match goal with |- apart (match ?x with _ => _ end) => destruct x end; [|done].
  apply apart_retire; [by apply Hact|done].
Qed.

Lemma apart_attach id task r : own id → apart r → apart (attach_task id task r).
Proof.
  intros Hid Hap. unfold attach_task. destruct (rg_observations r !! id) as [o|] eqn:Ho; [|done].
  apply apart_put; [done| |done]. exact (ap_above _ Hap id o Hid Ho).
Qed.

Lemma apart_assign `{Nostr} id q plan origin r : own id → apart r → apart (assign_route id q plan origin r).
Proof.
  intros Hid Hap. unfold assign_route, assign. destruct (rg_observations r !! id) as [o|] eqn:Ho; [|done].
  match goal with |- context [rg_put id ?x r] => set (o' := x) end.
  assert (apart (rg_put id o' r)) as Hput.
  { apply apart_put; [done| |done]. exact (ap_above _ Hap id o Hid Ho). }
  clearbody o'. cbv zeta.
  assert (apart (send_wake id (rg_revision (bump (rg_put id o' r))) (bump (rg_put id o' r)))) as Hsent.
  { apply apart_wake; [done|]. by apply (apart_signals (rg_put id o' r)). }
  destruct (_ || _); [|done]. by revert Hsent; apply apart_signals.
Qed.

Lemma apart_install public r :
  (rg_next r0 < u64_max)%N → (∀ p, public = Some p → own p) → apart r →
  apart (install_for public r).2 ∧
  ∀ id, (install_for public r).1 = Some id → (rg_next r0 < id)%N.
Proof.
  intros Hmax Hp Hap. unfold install_for. destruct (match public with Some _ => _ | None => _ end); [by split|].
  set (id := saturating_add (rg_next r) 1).
  assert (rg_next r0 < id)%N as Hlt by (pose proof (ap_next _ Hap); unfold id, saturating_add; lia).
  pose proof (Hown _ Hlt) as Hid.
  split; [|by intros ? [= <-]]. cbn [snd].
  assert (apart (rg_put id (new_observation (default id public) (bool_decide (public = None))) r)) as Hput.
  { apply apart_put; [done| |done]. split_and!; cbn; [|set_solver|done]. destruct public; cbn; [by apply Hp|done]. }
  assert (apart (rg_set_observations
      (match public with
       | Some p => alter (λ parent, ob_set_family (ob_active_child parent) ({[id]} ∪ ob_children parent) parent) p
                     (rg_observations (rg_put id (new_observation (default id public) (bool_decide (public = None))) r))
       | None => rg_observations (rg_put id (new_observation (default id public) (bool_decide (public = None))) r)
       end) (rg_put id (new_observation (default id public) (bool_decide (public = None))) r))) as [Hn Ho Hw Ht Ha].
  { destruct public as [p|]; [|by revert Hput; apply apart_signals].
    apply apart_alter; [by apply Hp| |done]. intros o _ (Hpo & Hch & Hac). split_and!; cbn; [done| |done].
    intros c [->%elem_of_singleton|?]%elem_of_union; [done|by apply Hch]. }
  split; cbn; [lia|done| |done|done].
  intros j Hj. rewrite lookup_insert_ne by auto. by apply Hap.
Qed.
End apart.

(** ** The desk *)

Section beyond.
Context `{Nostr} {A : Type} `{!RouterSession A} `{!Observer A}.
Context (dk0 : Desk (A := A)) (own : ObservationId → Prop).
Context (Hown : ∀ id, (rg_next (dk_registry dk0) < id)%N → own id).
Context (Hmax : (rg_next (dk_registry dk0) < u64_max)%N).

Record beyond (dk : Desk (A := A)) : Prop := {
  by_registry : apart (dk_registry dk0) own (dk_registry dk);
  by_calls : dk_calls dk0 ≤ dk_calls dk;
  by_next : dk_next_session dk0 ≤ dk_next_session dk;
  by_handles : ∀ h, h < dk_calls dk0 → h ∈ dk_handles dk ↔ h ∈ dk_handles dk0;
  by_sessions : ∀ k, k < dk_next_session dk0 → dk_sessions dk !! k = dk_sessions dk0 !! k;
  by_tasks : ∃ l, dk_tasks dk = dk_tasks dk0 ++ l;
  by_latest : ∀ id, (id ≤ rg_next (dk_registry dk0))%N → dk_latest dk !! id = dk_latest dk0 !! id;
  by_synchronized : ∀ id, (id ≤ rg_next (dk_registry dk0))%N → dk_synchronized dk !! id = dk_synchronized dk0 !! id
}.

Lemma beyond_start :
  (∀ id o, own id → rg_observations (dk_registry dk0) !! id = Some o → above own o) → beyond dk0.
Proof. intros Ha. split; try done. exists []. by rewrite app_nil_r. Qed.

(** An operation from a desk beyond the start, and what it answers. *)
Definition stays {X} (Q : X → Prop) (r : X * Desk (A := A)) : Prop := beyond r.2 ∧ Q r.1.

Lemma stays_bind {X Y} (Q : X → Prop) (R : Y → Prop) (r : X * Desk) (k : X → Desk → Y * Desk) :
  stays Q r → (∀ x dk, beyond dk → Q x → stays R (k x dk)) → stays R (let '(x, dk) := r in k x dk).
Proof. destruct r as [x dk]. intros [Hb HQ] Hk. by apply Hk. Qed.

Definition new_handle (h : nat) : Prop := dk_calls dk0 ≤ h.
Definition new_session (k : option nat) : Prop := ∀ n, k = Some n → dk_next_session dk0 ≤ n.
Definition new_id (id : ObservationId) : Prop := (rg_next (dk_registry dk0) < id)%N.

Lemma beyond_registry f dk :
  (apart (dk_registry dk0) own (dk_registry dk) → apart (dk_registry dk0) own (f (dk_registry dk))) →
  beyond dk → beyond (dk_on_registry f dk).
Proof. intros Hf [Hr ? ? ? ? ? ? ?]. split; try done. by apply Hf. Qed.

Lemma beyond_world f dk : (∀ w, wd_registry (f w) = wd_registry w) → beyond dk → beyond (dk_on_world f dk).
Proof. intros Hf [Hr ? ? ? ? ? ? ?]. split; try done. unfold dk_registry, dk_on_world. cbn. by rewrite Hf. Qed.

Lemma beyond_close_handles l dk : Forall new_handle l → beyond dk → beyond (close_handles l dk).
Proof.
  intros Hl [? ? ? Hh ? ? ? ?]. split; try done. intros h Hlt. cbn.
  rewrite elem_of_difference, elem_of_list_to_set, Hh by done. split; [tauto|]. intros Hin. split; [done|].
  intros Hel. rewrite Forall_forall in Hl. specialize (Hl h Hel). unfold new_handle in Hl. lia.
Qed.

Lemma beyond_drop_session k dk : new_session k → beyond dk → beyond (drop_session k dk).
Proof.
  intros Hk Hb. destruct k as [n|]; [|done]. specialize (Hk n eq_refl). destruct Hb as [? ? ? ? Hs ? ? ?].
  split; try done. intros k Hlt. cbn. rewrite lookup_delete_ne by lia. by apply Hs.
Qed.

Lemma beyond_send id v dk : new_id id → beyond dk → beyond (dk_send id v dk).
Proof.
  intros Hid [? ? ? ? ? ? Hl ?]. split; try done. intros j Hj. cbn. unfold new_id in Hid. rewrite lookup_insert_ne by lia.
  by apply Hl.
Qed.

Lemma beyond_deliver id at_ v dk : new_id id → beyond dk → beyond (dk_deliver id at_ v dk).
Proof.
  intros Hid [? ? ? ? ? ? Hl Hs]. unfold new_id in Hid.
  split; try done; intros j Hj; cbn; rewrite lookup_insert_ne by lia; [by apply Hl|by apply Hs].
Qed.

Lemma beyond_read dk : beyond dk → beyond (dk_read dk).
Proof. by intros [? ? ? ? ? ? ? ?]. Qed.

Lemma beyond_spawn id task dk : new_id id → beyond dk → beyond (spawn_task id task dk).
Proof.
  intros Hid Hb. unfold spawn_task. apply beyond_registry; [intros; apply apart_attach; auto|].
  destruct Hb as [? ? ? ? ? [l Hl] ? ?]. split; try done. cbn. exists (l ++ [task]). by rewrite Hl, (assoc_L (++)).
Qed.

Lemma beyond_close h dk : new_id (hd_id h) → beyond dk → beyond (dk_close h dk).
Proof.
  intros Hid Hb. destruct Hb as [Hr ? ? ? ? ? ? ?]. split; try done. by apply apart_withdraw; auto.
Qed.

Lemma beyond_close_all l dk : Forall (λ h, new_id (hd_id h)) l → beyond dk → beyond (fold_left (λ dk h, dk_close h dk) l dk).
Proof. intros Hl. revert dk. induction Hl as [|h l Hh _ IH]; intros dk Hb; cbn; [done|]. by apply IH, beyond_close. Qed.

Lemma open_source_stays role q dk :
  beyond dk → stays (λ r, ∀ h s, r = Ok (h, s) → new_handle h) (open_source role q dk).
Proof.
  intros [? Hc ? Hh ? ? ? ?]. unfold open_source. destruct (ov_source _ role q) as [snapshot|error]; (split; [|]); cbn.
  - split; cbn; try done; [lia|]. intros h Hlt. rewrite elem_of_union, elem_of_singleton, Hh by done.
    split; [intros [->|?]; [lia|done]|tauto].
  - by intros ? ? [= <- <-].
  - split; cbn; try done. lia.
  - done.
Qed.

Definition new_sources (r : result ObserveError (nat * nat * list SourceSnapshot)) : Prop :=
  ∀ c w s, r = Ok (c, w, s) → new_handle c ∧ new_handle w.

Lemma open_sources_stays q dk : beyond dk → stays new_sources (open_sources q dk).
Proof.
  intros Hb. unfold open_sources. destruct (open_source EventCacheSource q dk) as [r1 dk1] eqn:E1.
  pose proof (open_source_stays EventCacheSource q dk Hb) as [Hb1 Hc]. rewrite E1 in Hb1, Hc. cbn in Hb1, Hc.
  destruct r1 as [[cache s1]|error]; [|by split]. specialize (Hc _ _ eq_refl).
  pose proof (open_source_stays WriteStoreSource q dk1 Hb1) as [Hb2 Hw].
  destruct (open_source WriteStoreSource q dk1) as [[[writes s2]|error] dk2]; cbn in Hb2, Hw.
  - specialize (Hw _ _ eq_refl). split; [done|]. by intros ? ? ? [= <- <- <-].
  - split; [|done]. apply beyond_close_handles; [by constructor|done].
Qed.

Lemma local_snapshot_stays q dk : beyond dk → stays (λ _, True) (local_snapshot q dk).
Proof.
  intros Hb. unfold local_snapshot. pose proof (open_sources_stays q dk Hb) as [Hb1 Hn].
  destruct (open_sources q dk) as [[[[cache writes] s]|error] dk1]; [|by split].
  destruct (Hn _ _ _ eq_refl). split; [|done]. apply beyond_close_handles; [by repeat constructor|done].
Qed.

Lemma collect_stays {X Y} (f : X → Desk → result ObserveError Y * Desk) l dk :
  (∀ x dk, beyond dk → stays (λ _, True) (f x dk)) → beyond dk → stays (λ _, True) (collect_with f l dk).
Proof.
  intros Hf. revert dk. induction l as [|x l IH]; intros dk Hb; [by split|]. cbn.
  pose proof (Hf x dk Hb) as [Hb1 _]. destruct (f x dk) as [[y|error] dk1]; [|by split].
  pose proof (IH dk1 Hb1) as [Hb2 _]. destruct (collect_with f l dk1) as [[ys|error] dk2]; by split.
Qed.

Definition new_binding (r : outcome (result ObserveError RouteBinding)) : Prop :=
  ∀ b, r = Returned (Ok b) → new_session (rb_session b).

Lemma bind_route_stays q dk : beyond dk → stays new_binding (bind_route q dk).
Proof.
  intros Hb. unfold bind_route. destruct (qs_acquisition (q_source q)) as [|relays].
  2:{ split; [done|]. intros b. cbn. destruct (relay_error _); [|done]. by intros [= <-]. }
  destruct (relay_error (queries _ _)) as [declared|error]; [|by split].
  assert (stays (λ _, True) (input_snapshots declared dk)) as [Hb1 _].
  { apply collect_stays; [|done]. intros l dk1 Hb1. apply collect_stays; [|done]. intros. by apply local_snapshot_stays. }
  destruct (input_snapshots declared dk) as [[inputs|error] dk1]; [|by split].
  destruct (Routing.open _ _ inputs) as [[chain|error]|]; [|by split..].
  destruct (from_contribution 1 _) as [plan|error]; [|by split].
  cbn in Hb1. destruct Hb1 as [? ? Hn ? Hs ? ? ?]. split; cbn.
  - split; cbn; try done; [lia|]. intros k Hk. rewrite lookup_insert_ne by lia. by apply Hs.
  - intros b [= <-] k [= <-]. done.
Qed.

Lemma remove_fresh_session now q id b : rb_session (remove_fresh_sources now q id b) = rb_session b.
Proof. unfold remove_fresh_sources. by repeat case_match. Qed.
Lemma remove_fresh_inputs now q id b : rb_inputs (remove_fresh_sources now q id b) = rb_inputs b.
Proof. unfold remove_fresh_sources. by repeat case_match. Qed.

Lemma start_engine_stays dk : beyond dk → beyond (start_engine dk).2.
Proof. intros Hb. unfold start_engine. repeat case_match; try done. by destruct Hb as [? ? ? ? ? ? ? ?]. Qed.

Section opening.
Context (open_input : Query → Desk (A := A) → outcome (result ObserveError Observation) * Desk (A := A)).

Definition new_opened (r : outcome (result ObserveError Observation)) : Prop :=
  ∀ h, r = Returned (Ok h) → new_id (hd_id h).

Context (Hinput : ∀ q dk, beyond dk → stays new_opened (open_input q dk)).

Lemma open_inputs_stays l opened dk :
  Forall (λ h, new_id (hd_id h)) opened → beyond dk →
  stays (λ r, ∀ hs, r = Returned (Some hs) → Forall (λ h, new_id (hd_id h)) hs) (open_inputs open_input l opened dk).
Proof.
  revert opened dk. induction l as [|q l IH]; intros opened dk Ho Hb; cbn; [split; [done|by intros ? [= <-]]|].
  pose proof (Hinput q dk Hb) as [Hb1 Hn]. destruct (open_input q dk) as [[[h|error]|] dk1]; cbn in Hb1, Hn.
  - apply IH; [|done]. apply Forall_app. split; [done|]. constructor; [by apply Hn|done].
  - split; [by apply beyond_close_all|done].
  - split; [by apply beyond_close_all|done].
Qed.

Lemma retain_stays id q b dk :
  new_id id → new_session (rb_session b) → beyond dk → beyond (retain open_input id q b dk).2.
Proof.
  intros Hid Hs Hb. unfold retain.
  assert (beyond (dk_on_registry (assign_route id q (rb_plan b) (rb_origin b)) dk)) as Hb1.
  { apply beyond_registry; [|done]. apply apart_assign; auto. }
  destruct (rb_session b) as [k|] eqn:Hk; [|done]. unfold follow_routes.
  pose proof (open_inputs_stays (rb_inputs b) [] _ (List.Forall_nil _) Hb1) as [Hb2 Hi].
  destruct (open_inputs _ _ _ _) as [[[inputs|]|] dk2]; cbn in Hb2, Hi; cbn.
  - specialize (Hi _ eq_refl). destruct ov_spawns; [by apply beyond_spawn|]. by apply (beyond_drop_session (Some k)), beyond_close_all.
  - by apply (beyond_drop_session (Some k)).
  - by apply (beyond_drop_session (Some k)).
Qed.

Lemma finish_open_stays now q diagnostic id cache writes snapshots dk :
  new_id id → new_handle cache → new_handle writes → beyond dk →
  stays (λ r, ∀ h, r = Returned (Ok h) → hd_id h = id) (finish_open now q diagnostic id cache writes snapshots dk).
Proof.
  intros Hid Hc Hw Hb. unfold finish_open. destruct (evaluate_initial _ _) as [initial|error].
  2:{ split; [|done]. cbn. apply beyond_registry; [intros; apply apart_withdraw; auto|].
      apply beyond_close_handles; [by repeat constructor|done]. }
  cbv zeta. match goal with |- context [dk_send id _ ?d] => set (dk1 := d) end.
  assert (beyond dk1) as Hb1 by (unfold dk1; destruct diagnostic; [done|]; by apply beyond_world).
  clearbody dk1. split; cbn [fst snd]; [|by intros ? [= <-]].
  destruct ov_spawns; [by apply beyond_spawn, beyond_send|].
  apply beyond_close_handles; [by repeat constructor|]. by apply beyond_send.
Qed.

Lemma open_installed_stays now q diagnostic id cache writes snapshots binding dk :
  new_id id → new_handle cache → new_handle writes → (∀ b, binding = Some b → new_session (rb_session b)) → beyond dk →
  stays (λ r, ∀ h, r = Returned (Ok h) → hd_id h = id)
    (open_installed open_input now q diagnostic id cache writes snapshots binding dk).
Proof.
  intros Hid Hc Hw Hs Hb. unfold open_installed. destruct binding as [b|]; [|by apply finish_open_stays].
  cbv zeta. set (b' := remove_fresh_sources now q id b).
  assert (new_session (rb_session b')) as Hs' by (unfold b'; rewrite remove_fresh_session; by apply Hs).
  clearbody b'. match goal with |- context [let '(_, _) := ?e in _] => destruct e as [started dk1] eqn:He end.
  assert (beyond dk1) as Hb1.
  { pose proof (start_engine_stays dk Hb) as Hse. destruct (_ || _); [|by injection He as _ <-]. by rewrite He in Hse. }
  destruct started as [[]|error].
  - pose proof (retain_stays id q b' dk1 Hid Hs' Hb1) as Hb2. destruct (retain _ _ _ _ _) as [[[]|] dk2]; cbn in Hb2.
    + by apply finish_open_stays.
    + split; [|done]. apply beyond_close_handles; [by repeat constructor|done].
  - split; [|done]. apply beyond_drop_session; [done|]. apply beyond_registry; [intros; apply apart_withdraw; auto|].
    apply beyond_close_handles; [by repeat constructor|done].
Qed.

Lemma install_observation_stays diagnostic dk :
  (∀ p, diagnostic = Some p → own p) → beyond dk →
  stays (λ r, ∀ id, r = Some id → new_id id) (install_observation diagnostic dk).
Proof.
  intros Hp Hb. unfold install_observation.
  destruct (apart_install _ own Hown diagnostic (dk_registry dk) Hmax Hp (by_registry _ Hb)) as [Hap Hid].
  assert (match diagnostic with Some public => install_child public (dk_registry dk) | None => install (dk_registry dk) end
          = install_for diagnostic (dk_registry dk)) as -> by (by destruct diagnostic).
  destruct (install_for diagnostic (dk_registry dk)) as [id r]. split; [|done]. by apply beyond_registry.
Qed.

Lemma open_concrete_stays now q diagnostic dk :
  (∀ p, diagnostic = Some p → own p) → beyond dk → stays new_opened (open_concrete open_input now q diagnostic dk).
Proof.
  intros Hp Hb. unfold open_concrete. pose proof (open_sources_stays q dk Hb) as [Hb1 Hs].
  destruct (open_sources q dk) as [[[[cache writes] snapshots]|error] dk1]; [|by split]. cbn in Hb1.
  destruct (Hs _ _ _ eq_refl) as [Hc Hw].
  match goal with |- context [let '(_, _) := ?e in _] => destruct e as [binding dk2] eqn:He end.
  assert (beyond dk2 ∧ ∀ b, binding = Returned (Ok (Some b)) → new_session (rb_session b)) as [Hb2 Hbind].
  { pose proof (bind_route_stays q dk1 Hb1) as [Hb2 Hn]. destruct (wants_relays q); [|injection He as <- <-; by split].
    destruct (bind_route q dk1) as [[[b|error]|] dk2']; injection He as <- <-; (split; [done|]); try done.
    intros ? [= <-]. by apply Hn. }
  destruct binding as [[binding|error]|]; [|split; [apply beyond_close_handles; [by repeat constructor|done]|done]..].
  pose proof (install_observation_stays diagnostic dk2 Hp Hb2) as [Hb3 Hid].
  destruct (install_observation diagnostic dk2) as [[id|] dk3]; cbn in Hb3, Hid.
  - specialize (Hid _ eq_refl). destruct (open_installed_stays now q diagnostic id cache writes snapshots binding dk3) as [Hb4 Hh];
      [done..|by intros b ->; apply Hbind|done|]. split; [done|]. intros h Heq. by rewrite (Hh h Heq).
  - split; [|done]. apply beyond_drop_session; [|apply beyond_close_handles; [by repeat constructor|done]].
    intros k. destruct binding as [b|]; [|done]. by apply Hbind.
Qed.

Lemma open_stable_stays attempts now q parent dk :
  own parent → beyond dk →
  stays (λ r, ∀ h a v, r = Returned (Ok (h, a, v)) → new_id (hd_id h))
    (open_stable_current_child open_input attempts now q parent dk).
Proof.
  intros Hp. revert dk. induction attempts as [|attempts IH]; intros dk Hb; cbn; [by split|].
  destruct (ov_selection (dk_reads dk)) as [account revision].
  destruct (open_concrete_stays now (bind_account q account) (Some parent) (dk_read dk)) as [Hb1 Hn];
    [by intros ? [= <-]|by apply beyond_read|].
  destruct (open_concrete _ _ _ _ _) as [[[child|error]|] dk1]; [|by split..]. cbn in Hb1, Hn. specialize (Hn _ eq_refl).
  apply beyond_read in Hb1. destruct (bool_decide _); [|by apply IH, beyond_close].
  pose proof (apart_activate _ own Hown parent (hd_id child) _ Hp (Hown _ Hn) (by_registry _ Hb1)) as Hap.
  destruct (activate_child _ _ _) as [[] r]; cbn in Hap.
  - split; [|by intros ? ? ? [= <- <- <-]]. cbn. unfold publish_child.
    destruct (publish_and _ _ _ _ _) as [ran d]. apply beyond_world; [done|]. by apply beyond_registry.
  - split; [|done]. by apply beyond_close.
Qed.

Lemma open_query_stays now q dk : beyond dk → stays new_opened (open_query open_input now q dk).
Proof.
  intros Hb. unfold open_query. destruct (depends_on_current_account q); [|by apply open_concrete_stays].
  destruct ov_session; [|by split]. unfold open_current_account.
  pose proof (install_observation_stays None dk ltac:(done) Hb) as [Hb1 Hid].
  destruct (install_observation None dk) as [[parent|] dk1]; [|by split]. cbn in Hb1, Hid. specialize (Hid _ eq_refl).
  pose proof (open_stable_stays CURRENT_ACCOUNT_OPEN_ATTEMPTS now q parent dk1 (Hown _ Hid) Hb1) as [Hb2 Hn].
  destruct (open_stable_current_child _ _ _ _ _ _) as [[[[[child current] revision]|error]|] dk2]; cbn in Hb2, Hn.
  - specialize (Hn _ _ _ eq_refl). destruct ov_spawns.
    + split; [by apply beyond_spawn, beyond_deliver|by intros ? [= <-]].
    + split; [|done]. apply beyond_registry; [intros; apply apart_withdraw; auto|]. by apply beyond_close, beyond_deliver.
  - split; [|done]. apply beyond_registry; [intros; apply apart_withdraw; auto|done].
  - by split.
Qed.
End opening.

Lemma open_fuel_stays fuel now q dk : beyond dk → stays new_opened (open_fuel fuel now q dk).
Proof.
  revert q dk. induction fuel as [|fuel IH]; intros q dk Hb; cbn; [by split|]. by apply open_query_stays.
Qed.
End beyond.
