(* ===== verification/ObserverSafety.v ===== *)
(** * What an open leaves behind ([crates/fava-observe], [observer.rs])

    The two claims about [Observer::open]: it leaves everything that existed
    untouched, and when it refuses it keeps nothing. *)

From S2P Require Import Prelude Nostr Relay State Write Query Subscriptions Diagnostics Routing Observations ObservationsProps Projection Observer ObserverProps.

Section safety.
Context `{Nostr} {A : Type} `{!RouterSession A} `{!Observer A}.
Implicit Types dk : Desk (A := A).

(** C16. Opening an observation, with all the inputs its routers ask for and
    however it ends, leaves what existed alone: every earlier observation keeps
    its relays, evidence, tasks, token and wake-up channel, and the answers
    delivered to it; the source handles, router sessions and tasks of the others
    are the same; and the handle returned names an observation that is new. *)
Theorem opening_isolated fuel now q dk r dk' :
  registry_reachable (dk_registry dk) → (rg_next (dk_registry dk) < u64_max)%N → open_fuel fuel now q dk = (r, dk') →
  (∀ id, (id ≤ rg_next (dk_registry dk))%N →
     rg_observations (dk_registry dk') !! id = rg_observations (dk_registry dk) !! id ∧
     rg_wakes (dk_registry dk') !! id = rg_wakes (dk_registry dk) !! id ∧
     (id ∈ rg_cancelled (dk_registry dk') ↔ id ∈ rg_cancelled (dk_registry dk)) ∧
     dk_latest dk' !! id = dk_latest dk !! id ∧ dk_synchronized dk' !! id = dk_synchronized dk !! id) ∧
  (∀ h, h < dk_calls dk → h ∈ dk_handles dk' ↔ h ∈ dk_handles dk) ∧
  (∀ k, k < dk_next_session dk → dk_sessions dk' !! k = dk_sessions dk !! k) ∧
  (∃ spawned, dk_tasks dk' = dk_tasks dk ++ spawned) ∧
  (∀ h, r = Returned (Ok h) → (rg_next (dk_registry dk) < hd_id h)%N).
Proof.
  intros Hreach Hmax Hopen. set (n := rg_next (dk_registry dk)) in *. pose proof (registry_reachable_ok _ Hreach) as Hok.
  assert (beyond dk (λ id, (n < id)%N) dk) as Hstart.
  { apply beyond_start. intros id o Hid Ho. pose proof (ro_ids _ Hok id (mk_is_Some _ _ Ho)) as [_ Hle]. fold n in Hle. lia. }
  destruct (open_fuel_stays dk (λ id, (n < id)%N) ltac:(done) Hmax fuel now q dk Hstart) as [Hb Hnew].
  rewrite Hopen in Hb, Hnew. cbn in Hb, Hnew. destruct Hb as [[Hn Ho Hw Ht _] ? ? Hh Hs Hta Hl Hsy]. split_and!; try done.
  intros id Hid. split_and!; [apply Ho|apply Hw|apply Ht|apply Hl|apply Hsy]; lia.
Qed.

(** ** Nothing kept *)

Definition handles_ok dk : Prop := ∀ h, h ∈ dk_handles dk → h < dk_calls dk.
Definition sessions_ok dk : Prop := ∀ k, dk_next_session dk ≤ k → dk_sessions dk !! k = None.

(** Two desks that hold the same. *)
Record idle dk dk' : Prop := {
  id_world : dk_world dk' = dk_world dk;
  id_handles : dk_handles dk' = dk_handles dk;
  id_sessions : dk_sessions dk' = dk_sessions dk;
  id_next : dk_next_session dk ≤ dk_next_session dk';
  id_tasks : dk_tasks dk' = dk_tasks dk;
  id_latest : dk_latest dk' = dk_latest dk;
  id_calls : dk_calls dk ≤ dk_calls dk'
}.

#[local] Instance idle_preorder : PreOrder idle.
Proof.
  split; [by split|]. intros x y z [] []. by split; etrans.
Qed.

Lemma idle_handles_ok dk dk' : idle dk dk' → handles_ok dk → handles_ok dk'.
Proof. intros [_ Hh _ _ _ _ Hc] Hok h. rewrite Hh. intros Hin. specialize (Hok h Hin). lia. Qed.

(** The handles of two open sources, taken back. *)
Lemma sources_taken_back q dk c w s dk1 :
  handles_ok dk → open_sources q dk = (Ok (c, w, s), dk1) → idle dk (close_handles [c; w] dk1) ∧
  dk_handles dk1 = {[w]} ∪ ({[c]} ∪ dk_handles dk) ∧ c = dk_calls dk ∧ w = 1 + dk_calls dk ∧ dk_calls dk1 = 2 + dk_calls dk ∧
  idle dk (dk_set_handles (dk_handles dk) dk1).
Proof.
  intros Hok. unfold open_sources, open_source. cbn.
  destruct (ov_source (dk_calls dk) EventCacheSource q) as [s1|e1]; [|done]. cbn.
  destruct (ov_source (Datatypes.S (dk_calls dk)) WriteStoreSource q) as [s2|e2]; [|done]. intros [= <- <- <- <-].
  assert (dk_calls dk ∉ dk_handles dk) as Hn0 by (intros Hin; specialize (Hok _ Hin); lia).
  assert (Datatypes.S (dk_calls dk) ∉ dk_handles dk) as Hn1 by (intros Hin; specialize (Hok _ Hin); lia).
  split_and!; try done.
  - split; cbn; try done; [|lia]. set_solver.
  - split; cbn; try done. lia.
Qed.

Lemma sources_refused q dk error dk1 : handles_ok dk → open_sources q dk = (Err error, dk1) → idle dk dk1.
Proof.
  intros Hok. unfold open_sources, open_source. cbn.
  destruct (ov_source (dk_calls dk) EventCacheSource q) as [s1|e1]; cbn.
  2:{ intros [= _ <-]. split; cbn; try done. lia. }
  destruct (ov_source (Datatypes.S (dk_calls dk)) WriteStoreSource q) as [s2|e2]; [done|]. intros [= _ <-].
  assert (dk_calls dk ∉ dk_handles dk) as Hn0 by (intros Hin; specialize (Hok _ Hin); lia).
  split; cbn; try done; [|lia]. set_solver.
Qed.

Lemma local_snapshot_idle q dk : handles_ok dk → idle dk (local_snapshot q dk).2.
Proof.
  intros Hok. unfold local_snapshot. destruct (open_sources q dk) as [[[[c w] s]|error] dk1] eqn:Ho; cbn.
  - by destruct (sources_taken_back q dk c w s dk1 Hok Ho).
  - by apply (sources_refused q dk error).
Qed.

Lemma collect_idle {X Y} (f : X → Desk (A := A) → result ObserveError Y * Desk) l dk :
  (∀ x dk, handles_ok dk → idle dk (f x dk).2) → handles_ok dk → idle dk (collect_with f l dk).2.
Proof.
  intros Hf. revert dk. induction l as [|x l IH]; intros dk Hok; [done|]. cbn.
  pose proof (Hf x dk Hok) as Hi. destruct (f x dk) as [[y|error] dk1]; [|done]. cbn in Hi.
  pose proof (IH dk1 (idle_handles_ok _ _ Hi Hok)) as Hi2. destruct (collect_with f l dk1) as [[ys|error] dk2]; cbn in *; by etrans.
Qed.

(** Binding a route: nothing kept but the session of the binding. *)
Lemma bind_route_idle q dk r dk' :
  handles_ok dk → sessions_ok dk → bind_route q dk = (r, dk') →
  idle dk (drop_session (match r with Returned (Ok b) => rb_session b | _ => None end) dk') ∧ handles_ok dk'.
Proof.
  intros Hok Hs. unfold bind_route.
  destruct (qs_acquisition (q_source q)) as [|relays].
  2:{ intros [= <- <-]. destruct (relay_error _); by split. }
  destruct (relay_error (queries _ _)) as [declared|error]; [|by intros [= <- <-]].
  pose proof (collect_idle (collect_with local_snapshot) declared dk
    ltac:(intros; by apply collect_idle; [apply local_snapshot_idle|]) Hok) as Hi. fold (input_snapshots declared) in Hi.
  assert (handles_ok (input_snapshots declared dk).2) as Hok1 by (by eapply idle_handles_ok).
  destruct (input_snapshots declared dk) as [[inputs|error] dk1]; cbn in Hi, Hok1; [|by intros [= <- <-]].
  destruct (Routing.open _ _ inputs) as [[chain|error]|]; [|by intros [= <- <-]..].
  destruct (from_contribution 1 _) as [plan|error]; [|by intros [= <- <-]].
  intros [= <- <-]. split; [|done]. destruct Hi as [Hw Hh Hse Hn Ht Hl Hc]. split; cbn; try done; [|lia].
  rewrite Hse. apply delete_insert_id. apply Hs. lia.
Qed.

Lemma close_handles_idle l dk dk' : idle dk dk' → idle (close_handles l dk) (close_handles l dk').
Proof. intros []. split; cbn; try done. congruence. Qed.

Lemma drop_close k l dk : drop_session k (close_handles l dk) = close_handles l (drop_session k dk).
Proof. by destruct k. Qed.
Lemma drop_start k dk :
  idle (drop_session k dk) (drop_session k (start_engine dk).2).
Proof. unfold start_engine. destruct k; repeat case_match; by split. Qed.

(** What a refused open must not have kept.  The engine is as before, or this
    open was the first to start it and it is its failure that is returned; the
    failed start stays. *)
Record released (error : ObserveError) dk dk' : Prop := {
  rl_observations : rg_observations (dk_registry dk') = rg_observations (dk_registry dk);
  rl_handles : dk_handles dk' = dk_handles dk;
  rl_sessions : dk_sessions dk' = dk_sessions dk;
  rl_tasks : dk_tasks dk' = dk_tasks dk;
  rl_latest : dk_latest dk' = dk_latest dk;
  rl_started : dk_started dk' = dk_started dk ∨
               (dk_started dk = false ∧ dk_started dk' = true ∧ ov_engine = Err error)
}.

Lemma idle_released error dk dk' : idle dk dk' → dk_started dk' = dk_started dk → released error dk dk'.
Proof. intros [Hw] Hst. split; [unfold dk_registry; by rewrite Hw|done..|by left]. Qed.

(** *** The engine is started by [start_engine] alone *)

Lemma open_sources_started q dk : dk_started (open_sources q dk).2 = dk_started dk.
Proof.
  unfold open_sources, open_source. cbn. destruct (ov_source (dk_calls dk) EventCacheSource q); [|done]. cbn.
  by destruct (ov_source (Datatypes.S (dk_calls dk)) WriteStoreSource q).
Qed.

Lemma local_snapshot_started q dk : dk_started (local_snapshot q dk).2 = dk_started dk.
Proof.
  unfold local_snapshot. pose proof (open_sources_started q dk) as Hs.
  by destruct (open_sources q dk) as [[[[c w] s]|error] dk1].
Qed.

Lemma collect_started {X Y} (f : X → Desk (A := A) → result ObserveError Y * Desk) l dk :
  (∀ x dk, dk_started (f x dk).2 = dk_started dk) → dk_started (collect_with f l dk).2 = dk_started dk.
Proof.
  intros Hf. revert dk. induction l as [|x l IH]; intros dk; [done|]. cbn.
  pose proof (Hf x dk) as Hx. destruct (f x dk) as [[y|error] dk1]; [|done]. cbn in Hx.
  pose proof (IH dk1) as Hi. destruct (collect_with f l dk1) as [[ys|error] dk2]; cbn in *; congruence.
Qed.

Lemma bind_route_started q dk : dk_started (bind_route q dk).2 = dk_started dk.
Proof.
  unfold bind_route. destruct (qs_acquisition (q_source q)); [|by destruct (relay_error _)].
  destruct (relay_error (queries _ _)) as [declared|error]; [|done].
  pose proof (collect_started (collect_with local_snapshot) declared dk
    ltac:(intros; apply collect_started, local_snapshot_started)) as Hs. fold (input_snapshots declared) in Hs.
  destruct (input_snapshots declared dk) as [[inputs|error] dk1]; [|done]. cbn in Hs.
  by repeat (case_match; cbn; try done).
Qed.

Lemma start_engine_started dk error :
  (start_engine dk).1 = Err error →
  dk_started (start_engine dk).2 = dk_started dk ∨
  (dk_started dk = false ∧ dk_started (start_engine dk).2 = true ∧ ov_engine = Err error).
Proof. unfold start_engine. destruct (dk_started dk) eqn:E; [done|]. repeat case_match; simpl; auto. Qed.

(** A root installed and withdrawn. *)
Lemma install_withdrawn r :
  registry_ok r → (rg_next r < u64_max)%N →
  ∃ r1, install r = (Some (rg_next r + 1)%N, r1) ∧ is_Some (rg_observations r1 !! (rg_next r + 1)%N) ∧
    rg_next r1 = (rg_next r + 1)%N ∧ rg_observations (withdraw (rg_next r + 1) r1) = rg_observations r.
Proof.
  intros Hok Hmax. unfold install, install_for. cbn. rewrite saturating_succ by done. eexists. split; [done|]. cbn.
  split; [by rewrite lookup_insert_eq|]. split; [done|]. unfold withdraw. cbn. rewrite lookup_insert_eq. cbn.
  rewrite bool_decide_eq_false_2 by naive_solver. cbn. rewrite delete_insert_eq.
  change (ordered_elements (∅ : gset ObservationId)) with (@nil ObservationId). cbn. rewrite delete_delete_eq. apply delete_id.
  destruct (rg_observations r !! _) as [o|] eqn:Ho; [|done]. pose proof (ro_ids _ Hok _ (mk_is_Some _ _ Ho)). lia.
Qed.

Lemma withdraw_removes id r : rg_observations (withdraw id r) !! id = None.
Proof.
  unfold withdraw. destruct (rg_observations r !! id) as [o|] eqn:Ho; [|done]. cbn.
  rewrite retired_lookup. destruct (decide _); [done|]. cbn. apply lookup_delete_eq.
Qed.

Lemma withdraw_cancels id r : is_Some (rg_observations r !! id) → id ∈ rg_cancelled (withdraw id r).
Proof.
  intros [o Ho]. unfold withdraw. rewrite Ho. cbn.
  match goal with |- _ ∈ rg_cancelled (fold_left ?f _ ?r) => set (r1 := r); change (fold_left f _ r1) with
    (retire_all (ordered_elements (ob_children o)) r1) end.
  destruct (retire_all_facts (ordered_elements (ob_children o)) r1) as (_ & Hc & _). rewrite Hc. left. cbn. set_solver.
Qed.

(** The route followed for an installed observation leaves it installed. *)
Lemma retain_keeps fuel now id q b dk :
  registry_ok (dk_registry dk) → (rg_next (dk_registry dk) < u64_max)%N → is_Some (rg_observations (dk_registry dk) !! id) →
  is_Some (rg_observations (dk_registry (retain (open_fuel fuel now) id q b dk).2) !! id).
Proof.
  intros Hok Hmax Hid. unfold retain.
  set (dk1 := dk_on_registry (assign_route id q (rb_plan b) (rb_origin b)) dk).
  assert (registry_ok (dk_registry dk1)) as Hok1 by (by apply assign_route_ok).
  assert (rg_next (dk_registry dk1) = rg_next (dk_registry dk)) as Hn1.
  { unfold dk1, dk_registry, dk_on_registry, dk_on_world, assign_route, assign. cbn. repeat case_match; done. }
  assert (is_Some (rg_observations (dk_registry dk1) !! id)) as Hid1.
  { destruct Hid as [o Ho]. unfold dk1, dk_registry, dk_on_registry, dk_on_world, assign_route, assign. cbn.
    unfold dk_registry in Ho. rewrite Ho. case_match; cbn; by rewrite lookup_insert_eq. }
  destruct (rb_session b) as [k|]; [|done]. unfold follow_routes. clearbody dk1.
  set (n := rg_next (dk_registry dk1)) in *.
  assert (beyond dk1 (λ id, (n < id)%N) dk1) as Hstart.
  { apply beyond_start. intros j o Hj Ho. pose proof (ro_ids _ Hok1 j (mk_is_Some _ _ Ho)) as [_ Hle]. fold n in Hle. lia. }
  assert (∀ dk2, beyond dk1 (λ id, (n < id)%N) dk2 → is_Some (rg_observations (dk_registry dk2) !! id)) as Hkeep.
  { intros dk2 [[_ Ho _ _ _] _ _ _ _ _ _ _]. rewrite Ho; [done|]. pose proof (ro_ids _ Hok1 _ Hid1). fold n in H0. lia. }
  assert (n < u64_max)%N as Hmax1 by (by rewrite Hn1).
  pose proof (open_inputs_stays dk1 (λ id, (n < id)%N) ltac:(done) (open_fuel fuel now)
    (open_fuel_stays dk1 (λ id, (n < id)%N) ltac:(done) Hmax1 fuel now) (rb_inputs b) [] dk1 (List.Forall_nil _) Hstart) as [Hb Hi].
  destruct (open_inputs _ _ _ _) as [[[inputs|]|] dk2]; cbn in Hb, Hi; [|apply (Hkeep _ Hb)..].
  specialize (Hi _ eq_refl). cbn [snd].
  destruct ov_spawns.
  - specialize (Hkeep _ Hb) as [o Ho]. unfold spawn_task, dk_registry, dk_on_registry, dk_on_world, attach_task. cbn.
    unfold dk_registry in Ho. rewrite Ho. cbn. by rewrite lookup_insert_eq.
  - assert (beyond dk1 (λ id, (n < id)%N) (fold_left (λ dk h, dk_close h dk) inputs dk2)) as Hb3
      by (by apply beyond_close_all).
    by apply Hkeep in Hb3.
Qed.

(** An installed observation whose open fails. *)
Lemma installed_refused fuel now q id c w s binding dk error dk' :
  registry_ok (dk_registry dk) → (rg_next (dk_registry dk) < u64_max)%N → is_Some (rg_observations (dk_registry dk) !! id) →
  open_installed (open_fuel fuel now) now q None id c w s binding dk = (Returned (Err error), dk') →
  (∃ dk1, dk' = drop_session (b ← binding; rb_session b) (dk_on_registry (withdraw id) (close_handles [c; w] dk1)) ∧
     idle (drop_session (b ← binding; rb_session b) dk) (drop_session (b ← binding; rb_session b) dk1) ∧
     (dk_started dk1 = dk_started dk ∨ (dk_started dk = false ∧ dk_started dk1 = true ∧ ov_engine = Err error))) ∨
  ((∃ e, error = EvaluationError e) ∧ rg_observations (dk_registry dk') !! id = None ∧ id ∈ rg_cancelled (dk_registry dk') ∧
     c ∉ dk_handles dk' ∧ w ∉ dk_handles dk').
Proof.
  intros Hok Hmax Hid. unfold open_installed.
  assert (∀ dk, is_Some (rg_observations (dk_registry dk) !! id) → finish_open now q None id c w s dk = (Returned (Err error), dk') →
    (∃ e, error = EvaluationError e) ∧ rg_observations (dk_registry dk') !! id = None ∧ id ∈ rg_cancelled (dk_registry dk') ∧
     c ∉ dk_handles dk' ∧ w ∉ dk_handles dk') as Hfin.
  { intros dk1 Hid1. unfold finish_open, evaluate_initial. destruct (ov_evaluator _ _) as [initial|e]; [done|].
    intros [= <- <-]. split; [by eexists|]. split; [apply withdraw_removes|]. split; [by apply withdraw_cancels|].
    cbn. set_solver. }
  destruct binding as [b|]; [|right; by apply (Hfin dk)]. cbv zeta.
  set (b' := remove_fresh_sources now q id b). assert (rb_session b' = rb_session b) as Hs' by apply remove_fresh_session.
  match goal with |- (let '(_, _) := ?e in _) = _ → _ => destruct e as [started dk1] eqn:He end.
  assert (started = (Ok tt) ∧ dk1 = dk ∨ dk1 = (start_engine dk).2) as Hd1.
  { destruct (_ || _); [right; by rewrite He|]. injection He as <- <-. by left. }
  destruct started as [[]|error1].
  - destruct (retain _ _ _ _ dk1) as [[[]|] dk2] eqn:Hret; [|done]. intros Hf. right. apply (Hfin dk2); [|done].
    assert (dk_registry dk1 = dk_registry dk) as Hr1.
    { destruct Hd1 as [[_ ->]| ->]; [done|]. unfold start_engine. by repeat case_match. }
    rewrite <- Hr1 in Hok, Hmax, Hid. pose proof (retain_keeps fuel now id q b' dk1 Hok Hmax Hid) as Hk.
    by rewrite Hret in Hk.
  - intros [= <- <-]. left. exists dk1. cbn. rewrite Hs'. split; [done|].
    destruct (_ || _); [|done]. pose proof (start_engine_started dk error1) as Hst. rewrite He in Hst.
    destruct Hd1 as [[? _]|Hd1]; [done|]. split; [rewrite Hd1; apply drop_start|by apply Hst].
Qed.

Lemma idle_registry dk dk' : idle dk dk' → dk_registry dk' = dk_registry dk.
Proof. intros [Hw]. unfold dk_registry. by rewrite Hw. Qed.

(** Binding, on the desk of two open sources. *)
Lemma bound_taken_back q dk c w s dk1 r dk2 :
  handles_ok dk → sessions_ok dk → open_sources q dk = (Ok (c, w, s), dk1) → bind_route q dk1 = (r, dk2) →
  idle dk (close_handles [c; w] (drop_session (match r with Returned (Ok b) => rb_session b | _ => None end) dk2)) ∧
  dk_registry dk2 = dk_registry dk.
Proof.
  intros Hh Hs Ho Hb. destruct (sources_taken_back q dk c w s dk1 Hh Ho) as (Hi & Hd & Hc & Hw & Hcalls & Hi1).
  assert (handles_ok dk1) as Hh1.
  { intros h. rewrite Hd, !elem_of_union, !elem_of_singleton, Hcalls. intros [->|[->|Hin]]; [lia..|].
    specialize (Hh h Hin). lia. }
  assert (sessions_ok dk1) as Hs1.
  { destruct Hi1 as [_ _ Hse Hn _ _ _]. cbn in Hse, Hn. intros k Hk. rewrite Hse. apply Hs. lia. }
  destruct (bind_route_idle q dk1 r dk2 Hh1 Hs1 Hb) as [Hi2 _]. split.
  - transitivity (close_handles [c; w] dk1); [done|]. by apply close_handles_idle.
  - apply idle_registry in Hi, Hi2. cbn in Hi. rewrite <- Hi. change (dk_registry (close_handles [c; w] dk1)) with (dk_registry dk1).
    rewrite <- Hi2. by destruct (match r with Returned (Ok b) => rb_session b | _ => None end).
Qed.

(** A refused open of a query that names its accounts. *)
Lemma refused_concrete fuel now q dk error dk' :
  registry_ok (dk_registry dk) → (rg_next (dk_registry dk) + 1 < u64_max)%N → handles_ok dk → sessions_ok dk →
  open_concrete (open_fuel fuel now) now q None dk = (Returned (Err error), dk') →
  released error dk dk' ∨
  ((∃ e, error = EvaluationError e) ∧ rg_observations (dk_registry dk') !! (rg_next (dk_registry dk) + 1)%N = None ∧
   (rg_next (dk_registry dk) + 1)%N ∈ rg_cancelled (dk_registry dk') ∧
   dk_calls dk ∉ dk_handles dk' ∧ 1 + dk_calls dk ∉ dk_handles dk').
Proof.
  intros Hok Hmax Hh Hs. unfold open_concrete. pose proof (open_sources_started q dk) as Hst.
  destruct (open_sources q dk) as [[[[c w] snapshots]|e] dk1] eqn:Hsrc; cbn in Hst.
  2:{ intros [= <- <-]. left. by apply idle_released; [apply (sources_refused q dk e)|]. }
  destruct (sources_taken_back q dk c w snapshots dk1 Hh Hsrc) as (Hi1 & _ & Hc & Hw & _).
  match goal with |- (let '(_, _) := ?e in _) = _ → _ => destruct e as [binding dk2] eqn:He end.
  set (session := match binding with Returned (Ok (Some b)) => rb_session b | _ => None end).
  assert (idle dk (close_handles [c; w] (drop_session session dk2)) ∧ dk_registry dk2 = dk_registry dk ∧
          dk_started dk2 = dk_started dk) as (Hi & Hr & Hst2).
  { destruct (wants_relays q).
    - pose proof (bind_route_started q dk1) as Hst1. destruct (bind_route q dk1) as [r dk2'] eqn:Hb. cbn in Hst1.
      pose proof (bound_taken_back q dk c w snapshots dk1 r dk2' Hh Hs Hsrc Hb) as [Ht1 Ht2]. unfold session.
      destruct r as [[b|e]|]; injection He as <- <-; (split; [exact Ht1|split; [exact Ht2|congruence]]).
    - injection He as <- <-. split; [done|]. by apply idle_registry in Hi1. }
  destruct binding as [[binding|e]|]; [|intros [= <- <-]; left; by apply idle_released|done].
  destruct (install_withdrawn (dk_registry dk) Hok ltac:(lia)) as (r1 & Hinst & Hsome & Hnext & Hback).
  unfold install_observation. rewrite Hr, Hinst. intros Hopen.
  apply installed_refused in Hopen; [|cbn; change (registry_ok r1); replace r1 with (install (dk_registry dk)).2
    by (by rewrite Hinst); apply install_ok; [lia|done]|change (rg_next r1 < u64_max)%N; lia|done].
  destruct Hopen as [(dk4 & -> & Hi4 & Hst4)|(Hev & Hgone & Hcan & Hch & Hwh)]; [left|right; subst c w; done].
  assert ((b ← binding; rb_session b) = session) as Hse by (unfold session; by destruct binding). rewrite Hse in *.
  assert (∀ f k dk, drop_session k (dk_on_registry f dk) = dk_on_registry f (drop_session k dk)) as Hcomm by (by intros ? []).
  assert (∀ k dk, dk_started (drop_session k dk) = dk_started dk) as Hds by (by intros []).
  rewrite Hcomm, drop_close in *. apply (close_handles_idle [c; w]) in Hi4. destruct Hi4 as [Hw4 Hh4 Hs4 _ Ht4 Hl4 _].
  destruct Hi as [_ Hh0 Hs0 _ Ht0 Hl0 _]. cbn in Hst4. rewrite Hst2 in Hst4.
  split; cbn in *; rewrite ?Hds; first [exact Hst4|congruence|idtac].
  unfold dk_registry in *. cbn in *. rewrite Hw4. cbn. exact Hback.
Qed.

(** C17. A refused open of a query that names its accounts keeps nothing: the
    table of observations, the source handles, the router sessions, the tasks
    and the answers are as before, and so is the engine, unless this open is the
    first that started it and returns the failure of that start, which stays.
    The one exception is an open whose first evaluation failed: its observation
    is gone and its token cancelled, so that the runtime drops the task that
    follows its route, and its two source handles are closed.  A refused open of
    a query that follows the current account changes nothing when there is no
    session, and otherwise leaves the observation it installed withdrawn. *)
Theorem refused_open_releases fuel now q dk error dk' :
  registry_reachable (dk_registry dk) → (rg_next (dk_registry dk) + 1 < u64_max)%N → handles_ok dk → sessions_ok dk →
  open_fuel (Datatypes.S fuel) now q dk = (Returned (Err error), dk') →
  if depends_on_current_account q
  then (error = SessionUnconfigured ∧ dk' = dk) ∨
       rg_observations (dk_registry dk') !! (rg_next (dk_registry dk) + 1)%N = None
  else released error dk dk' ∨
       ((∃ e, error = EvaluationError e) ∧
        rg_observations (dk_registry dk') !! (rg_next (dk_registry dk) + 1)%N = None ∧
        (rg_next (dk_registry dk) + 1)%N ∈ rg_cancelled (dk_registry dk') ∧
        dk_calls dk ∉ dk_handles dk' ∧ 1 + dk_calls dk ∉ dk_handles dk').
Proof.
  intros Hreach Hmax Hh Hs. pose proof (registry_reachable_ok _ Hreach) as Hok. cbn [open_fuel]. unfold open_query.
  destruct (depends_on_current_account q); [|by apply refused_concrete].
  destruct ov_session; [|intros [= <- <-]; by left]. unfold open_current_account.
  destruct (install_withdrawn (dk_registry dk) Hok ltac:(lia)) as (r1 & Hinst & _).
  unfold install_observation. rewrite Hinst.
  destruct (open_stable_current_child _ _ _ _ _ _) as [[[[[child current] revision]|e]|] dk2]; [| |done].
  - destruct ov_spawns; [done|]. intros [= <- <-]. right. apply withdraw_removes.
  - intros [= <- <-]. right. apply withdraw_removes.
Qed.
End safety.
