(* ===== verification/CurrentAccount.v ===== *)
(** * Observations that follow the current account ([crates/fava-observe], [observer/current_account.rs])

    Every answer such an observation delivers comes from the child bound to the
    account that is selected at that moment.  The session's selection may change
    at any read of it. *)

From S2P Require Import Prelude Nostr Relay State Write Query Subscriptions Diagnostics Routing Observations ObservationsProps Projection Observer ObserverProps ObserverSafety.

Section current.
Context `{Nostr} {A : Type} `{!RouterSession A} `{!Observer A}.
Implicit Types dk : Desk (A := A).

(** A running projection of exactly this query. *)
Definition projects (q : Query) (id : ObservationId) dk : Prop :=
  ∃ p c w, TaskProjection q p c w ∈ dk_tasks dk ∧ pj_id p = id.

(** The child a follower holds answers its query for the account it follows. *)
Definition follow_bound (fo : Follow) dk : Prop :=
  hd_id (fo_child fo) ≠ fo_parent fo ∧
  projects (bind_account (fo_query fo) (fo_current fo)) (hd_id (fo_child fo)) dk.

Definition active_child_of (id : ObservationId) dk : option ObservationId :=
  rg_observations (dk_registry dk) !! id ≫= ob_active_child.

Lemma projects_grows q id dk dk' l : dk_tasks dk' = dk_tasks dk ++ l → projects q id dk → projects q id dk'.
Proof. intros Hl (p & c & w & Hin & Hid). exists p, c, w. rewrite Hl. set_solver. Qed.

Lemma projects_same q id dk dk' : dk_tasks dk' = dk_tasks dk → projects q id dk → projects q id dk'.
Proof. intros Hl. apply (projects_grows _ _ _ _ []). by rewrite app_nil_r. Qed.

Section opened.
Context (open_input : Query → Desk (A := A) → outcome (result ObserveError Observation) * Desk (A := A)).
Context (Hspawns : ov_spawns = true).

Lemma finish_open_projects now q diagnostic id c w s dk h dk' :
  finish_open now q diagnostic id c w s dk = (Returned (Ok h), dk') → projects q (hd_id h) dk'.
Proof.
  unfold finish_open. destruct (evaluate_initial _ _) as [initial|error]; [|done]. rewrite Hspawns. intros [= <- <-].
  eexists _, c, w. split; [cbn; apply elem_of_app; right; left|done].
Qed.

Lemma open_installed_projects now q diagnostic id c w s b dk h dk' :
  open_installed open_input now q diagnostic id c w s b dk = (Returned (Ok h), dk') → projects q (hd_id h) dk'.
Proof.
  unfold open_installed. destruct b as [b|]; [|apply finish_open_projects]. cbv zeta.
  match goal with |- (let '(_, _) := ?e in _) = _ → _ => destruct e as [[[]|error] dk1] end; [|done].
  destruct (retain _ _ _ _ _) as [[[]|] dk2]; [|done]. apply finish_open_projects.
Qed.

Lemma open_concrete_projects now q diagnostic dk h dk' :
  open_concrete open_input now q diagnostic dk = (Returned (Ok h), dk') → projects q (hd_id h) dk'.
Proof.
  unfold open_concrete. destruct (open_sources q dk) as [[[[c w] s]|error] dk1]; [|done].
  match goal with |- (let '(_, _) := ?e in _) = _ → _ => destruct e as [[[b|error]|] dk2] end; [|done..].
  destruct (install_observation diagnostic dk2) as [[id|] dk3]; [|done]. apply open_installed_projects.
Qed.

(** The child settled on: opened for the selection it is returned with. *)
Lemma open_stable_bound attempts now q parent dk child account revision dk' :
  open_stable_current_child open_input attempts now q parent dk = (Returned (Ok (child, account, revision)), dk') →
  projects (bind_account q account) (hd_id child) dk' ∧ ∃ read, ov_selection read = (account, revision).
Proof.
  revert dk. induction attempts as [|attempts IH]; intros dk; cbn; [done|].
  destruct (ov_selection (dk_reads dk)) as [a v] eqn:Hsel.
  destruct (open_concrete _ _ _ _ _) as [[[h|error]|] dk1] eqn:Hopen; [|done..].
  apply open_concrete_projects in Hopen. destruct (bool_decide _); [|apply IH].
  destruct (activate_child _ _ _) as [[] r]; [|done]. intros [= <- <- <- <-]. split; [|by eexists].
  revert Hopen. apply projects_same. unfold publish_child. by destruct (publish_and _ _ _ _ _).
Qed.
End opened.

(** A delivery is made by the child the registry has active, under the selection
    it is stamped with. *)
Lemma send_current_true parent child expected snapshot outbound dk dk' :
  parent ≠ child → send_current parent child expected snapshot outbound dk = (true, dk') →
  ∃ dk1, dk' = dk_deliver parent expected outbound dk1 ∧ active_child_of parent dk1 = Some child ∧
    ov_selection (dk_reads dk) = expected ∧ dk_latest dk1 = dk_latest dk ∧ dk_tasks dk1 = dk_tasks dk ∧
    dk_reads dk1 = 1 + dk_reads dk.
Proof.
  intros Hne. unfold send_current. destruct (bool_decide _) eqn:Hb; [|done]. apply bool_decide_eq_true in Hb.
  destruct (publish_and _ _ _ _ _) as [ran d] eqn:Hpub. destruct ran; [|done]. intros [= <-]. eexists. split; [done|].
  split_and!; try done. revert Hpub. unfold publish_and.
  destruct (with_publication_evidence parent child (dk_registry (dk_read dk))) as [owned|] eqn:Hev; [|done]. intros _.
  unfold with_publication_evidence in Hev. apply bind_Some in Hev as (installed & _ & Hp).
  rewrite (bool_decide_eq_false_2 (parent = child)) in Hp by done.
  destruct (_ && _) eqn:Hc; [|done]. apply andb_true_iff in Hc as [_ Hc%bool_decide_eq_true]. exact Hc.
Qed.

Lemma send_current_false parent child expected snapshot outbound dk dk' :
  send_current parent child expected snapshot outbound dk = (false, dk') → dk' = dk_read dk.
Proof. unfold send_current. destruct (bool_decide _); [|by intros [= <-]]. destruct (publish_and _ _ _ _ _) as [[] d]; [done|by intros [= <-]]. Qed.

(** What a turn delivered, if anything. *)
Definition turn_exact (fo fo' : Follow) dk dk' : Prop :=
  (fo_delivered fo' = fo_delivered fo ∧ dk_latest dk' !! fo_parent fo = dk_latest dk !! fo_parent fo ∧
   dk_synchronized dk' !! fo_parent fo = dk_synchronized dk !! fo_parent fo) ∨
  (checked_succ (fo_delivered fo) = Some (fo_delivered fo') ∧
   ∃ dk1, (dk' = dk1 ∨ dk' = dk_close (fo_child fo) dk1) ∧
     active_child_of (fo_parent fo) dk1 = Some (hd_id (fo_child fo')) ∧
     ov_selection (pred (dk_reads dk1)) = (fo_current fo', fo_current_revision fo') ∧
     let answer := at_revision (latest_of (hd_id (fo_child fo')) dk1) (fo_delivered fo') in
     dk_latest dk1 !! fo_parent fo = Some answer ∧
     dk_synchronized dk1 !! fo_parent fo = Some ((fo_current fo', fo_current_revision fo'), answer)).

(** A delivery of a child's latest answer, as a turn makes it. *)
Lemma sent_exact (fo fo' : Follow) dk dk1 dk2 dk' :
  checked_succ (fo_delivered fo) = Some (fo_delivered fo') → fo_parent fo ≠ hd_id (fo_child fo') →
  send_current (fo_parent fo) (hd_id (fo_child fo')) (fo_current fo', fo_current_revision fo')
    (latest_of (hd_id (fo_child fo')) dk1) (at_revision (latest_of (hd_id (fo_child fo')) dk1) (fo_delivered fo')) dk1 = (true, dk2) →
  (dk' = dk2 ∨ dk' = dk_close (fo_child fo) dk2) → turn_exact fo fo' dk dk'.
Proof.
  intros Hnext Hne Hsend Hdk. right. split; [done|]. exists dk2. split; [done|].
  destruct (send_current_true _ _ _ _ _ _ _ Hne Hsend) as (dk3 & -> & Hact & Hsel & Hla & _ & Hre).
  split; [done|]. cbn [dk_reads dk_deliver]. rewrite Hre. split; [done|].
  assert (latest_of (hd_id (fo_child fo'))
    (dk_deliver (fo_parent fo) (fo_current fo', fo_current_revision fo')
       (at_revision (latest_of (hd_id (fo_child fo')) dk1) (fo_delivered fo')) dk3) = latest_of (hd_id (fo_child fo')) dk1) as ->.
  { unfold latest_of. cbn. by rewrite lookup_insert_ne, Hla by done. }
  cbn. by rewrite !lookup_insert_eq.
Qed.

Lemma child_turn_exact open_input now alive fo dk fo' dk' :
  follow_bound fo dk → current_turn open_input now (WakeChild alive) fo dk = (Returned (Some fo'), dk') →
  fo_parent fo' = fo_parent fo ∧ fo_query fo' = fo_query fo ∧ follow_bound fo' dk' ∧ turn_exact fo fo' dk dk'.
Proof.
  intros [Hne Hpr]. cbn. destruct alive; [|done].
  unfold observation_changed. destruct (bool_decide (hd_id (fo_child fo) ∈ _)); [done|].
  destruct (checked_succ (fo_delivered fo)) as [revision|] eqn:Hnext; [|done].
  set (snapshot := latest_of (hd_id (fo_child fo)) dk). set (dk1 := dk_on_world _ dk).
  destruct (send_current _ _ _ _ _ _) as [sent dk2] eqn:Hsend. intros [= <- <-]. cbn [fo_parent fo_query].
  split; [done|]. split; [done|]. change snapshot with (latest_of (hd_id (fo_child fo)) dk1) in Hsend.
  destruct sent.
  - split; [|by apply (sent_exact _ _ _ dk1 dk2); [..|by left]].
    destruct (send_current_true _ _ _ _ _ _ _ (not_eq_sym Hne) Hsend) as (dk3 & -> & _ & _ & _ & Ht & _).
    split; [done|]. by apply (projects_same _ _ dk).
  - apply send_current_false in Hsend as ->. split; [|by left]. split; [done|]. by apply (projects_same _ _ dk).
Qed.

(** C18. An observation that follows the current account goes on, in every turn
    and however the selection changes meanwhile, with a child that answers its
    query bound to the account it follows.  A turn either delivers nothing, or
    delivers that child's latest answer under the next revision, while the
    registry has the child active and the session still has the account and
    selection revision the answer is stamped with; after that it only drops the
    child it replaced. *)
Theorem current_account_exact fuel now wake fo dk fo' dk' :
  (rg_next (dk_registry dk) < u64_max)%N → (fo_parent fo ≤ rg_next (dk_registry dk))%N → ov_spawns = true →
  follow_bound fo dk → current_turn (open_fuel fuel now) now wake fo dk = (Returned (Some fo'), dk') →
  fo_parent fo' = fo_parent fo ∧ fo_query fo' = fo_query fo ∧ follow_bound fo' dk' ∧ turn_exact fo fo' dk dk'.
Proof.
  intros Hmax Hpar Hspawns Hbound. destruct wake as [[]|alive]; [|done|by apply child_turn_exact].
  assert (∀ dk1, beyond dk (λ _, True) dk1 → follow_bound fo dk1 ∧
    fo_delivered fo = fo_delivered fo ∧ dk_latest dk1 !! fo_parent fo = dk_latest dk !! fo_parent fo ∧
    dk_synchronized dk1 !! fo_parent fo = dk_synchronized dk !! fo_parent fo) as Hkeep.
  { intros dk1 [_ _ _ _ _ [l Hl] Hla Hsy]. destruct Hbound as [Hne Hpr].
    split; [split; [done|by eapply projects_grows]|]. split; [done|]. split; [by apply Hla|by apply Hsy]. }
  assert (beyond dk (λ _, True) (dk_read dk)) as Hb by (apply beyond_read, beyond_start; by repeat split).
  cbn [current_turn]. destruct (ov_selection (dk_reads dk)) as [account revision].
  destruct (bool_decide _); [intros [= <- <-]; destruct (Hkeep _ Hb) as [? Hq]; split_and!; [done..|by left]|].
  destruct (bool_decide _); [intros [= <- <-]; destruct (Hkeep _ Hb) as [? Hq]; split_and!; [done..|by left]|].
  pose proof (open_stable_stays dk (λ _, True) ltac:(done) Hmax (open_fuel fuel now)
    (open_fuel_stays dk (λ _, True) ltac:(done) Hmax fuel now) CURRENT_ACCOUNT_OPEN_ATTEMPTS now (fo_query fo) (fo_parent fo)
    (dk_read dk) I Hb) as [Hb1 Hnew].
  destruct (open_stable_current_child _ _ _ _ _ _) as [[[[[next account1] revision1]|error]|] dk1] eqn:Hopen; [|by unfold current_end..].
  cbn in Hb1, Hnew. specialize (Hnew _ _ _ eq_refl). unfold new_id in Hnew.
  destruct (open_stable_bound _ Hspawns _ _ _ _ _ _ _ _ _ Hopen) as [Hpr _].
  destruct (checked_succ (fo_delivered fo)) as [revision2|] eqn:Hnext; [|done].
  destruct (send_current _ _ _ _ _ _) as [sent dk2] eqn:Hsend. destruct sent; intros [= <- <-].
  - cbn [fo_parent fo_query]. split; [done|]. split; [done|].
    split; [|apply (sent_exact fo (mkFollow (fo_parent fo) (fo_query fo) next account1 revision1 revision2) dk dk1 dk2);
             cbn; [done|lia|done|by right]].
    assert (fo_parent fo ≠ hd_id next) as Hne by lia.
    destruct (send_current_true _ _ _ _ _ _ _ Hne Hsend) as (dk3 & -> & _ & _ & _ & Ht & _).
    split; cbn; [lia|]. by apply (projects_same _ _ dk1).
  - apply send_current_false in Hsend as ->. destruct (Hkeep (dk_close next (dk_read dk1))) as [? Hq]; [by apply beyond_close, beyond_read|].
    split_and!; [done..|by left].
Qed.
End current.
