(* ===== verification/ObserverWitness.v ===== *)
(** * Runs of the open sequence

    Concrete runs of [Observer::open] and of the tasks it spawns: the claims at
    concrete inputs, and what the code does in three cases it does not mean to. *)

From S2P Require Import Prelude Nostr Relay State Write Query Subscriptions Diagnostics Routing Routers Observations ObservationsProps Projection Observer ObserverProps ObserverSafety CurrentAccount.

Module ObserverRuns.
Local Existing Instance Sample.hashed_nostr | 0.

(** An owner with the router of the application's relays; the cache proves
    [wss://a] complete at time 1000. *)
Definition owner (transport : bool) (selection : nat → option PublicKey * N) : Observer StandardSession :=
  mkObserver StandardSession (λ _ role _, Ok (SourceSnapshot_empty role)) (λ _ sources, Ok (evaluated [] sources))
    [app_router (mkApp "app" {["wss://a"]} true true)] transport true true (Ok tt)
    (λ s f, if bool_decide (s = "wss://a") then Some (mkCoverage s f 1000) else None) true selection true.

Definition desk0 : Desk (A := StandardSession) :=
  mkDesk (mkWorld Registry_default diagnostics_default []) false 0 0 ∅ 0 ∅ [] ∅ ∅.

Definition nobody (_ : nat) : option PublicKey * N := (None, 0%N).

(** An observation of the relay [wss://a], and the desk with it. *)
Definition one : Desk (A := StandardSession) := (open_fuel (Observer0 := owner true nobody) 2 1000 events desk0).2.

Definition route_of (dk : Desk (A := StandardSession)) : FollowedRoute :=
  match dk_tasks dk with TaskFollow route :: _ => route | _ => mkFollowed 0 events (mkPlan 0 ∅ ∅ ∅ []) Explicit [] 0 end.

Lemma one_reachable : registry_reachable (dk_registry one).
Proof.
  assert (dk_registry one = ObservationsWitness.run
    [CallInstall; CallAssign 1 events (fr_plan (route_of one)) Automatic; CallAttach 1 0; CallAttach 1 1]) as ->
    by (vm_compute; reflexivity).
  apply ObservationsWitness.calls_run_reachable; [constructor|by vm_compute].
Qed.

Definition second : outcome (result ObserveError Observation) * Desk (A := StandardSession) :=
  open_fuel (Observer0 := owner true nobody) 2 1000 (cache_only events) one.

Lemma opening_isolated_witness :
  second.1 = Returned (Ok (mkHandle 2 1 false)) ∧
  rg_observations (dk_registry second.2) !! 1%N = rg_observations (dk_registry one) !! 1%N.
Proof.
  split; [by vm_compute|].
  apply (opening_isolated (Observer0 := owner true nobody) 2 1000 (cache_only events) one second.1 second.2
    one_reachable eq_refl (surjective_pairing _)). by vm_compute.
Defined.

(** A live query without a transport. *)
Definition refused : outcome (result ObserveError Observation) * Desk (A := StandardSession) :=
  open_fuel (Observer0 := owner false nobody) 2 1000 events desk0.

Lemma refused_open_releases_witness :
  refused.1 = Returned (Err (RelayError "live queries require a transport")) ∧
  (released (Observer0 := owner false nobody) (RelayError "live queries require a transport") desk0 refused.2 ∨
   ((∃ e, RelayError "live queries require a transport" = EvaluationError e) ∧
    rg_observations (dk_registry refused.2) !! 1%N = None ∧ 1%N ∈ rg_cancelled (dk_registry refused.2) ∧
    0 ∉ dk_handles refused.2 ∧ 1 ∉ dk_handles refused.2)).
Proof.
  split; [by vm_compute|].
  assert (handles_ok desk0) as Hh by (intros h []%not_elem_of_empty).
  assert (sessions_ok desk0) as Hs by done.
  assert (refused = (Returned (Err (RelayError "live queries require a transport")), refused.2)) as Heq by (vm_compute; reflexivity).
  exact (refused_open_releases (Observer0 := owner false nobody) 1 1000 events desk0 _ refused.2
    registry_start eq_refl Hh Hs Heq).
Defined.

(** ** Following the account *)

Definition mine : Query := cache_only (authors_current_account events).

(** Account 7, then account 9 from the third read on. *)
Definition switching (read : nat) : option PublicKey * N := if decide (read < 2) then (Some 7%N, 1%N) else (Some 9%N, 2%N).

(** The desk after the open, and the follower it spawned. *)
Definition followed (selection : nat → option PublicKey * N) : Desk (A := StandardSession) :=
  (open_fuel (Observer0 := owner true selection) 2 1000 mine desk0).2.
Definition follower (dk : Desk (A := StandardSession)) : Follow :=
  match last (dk_tasks dk) with Some (TaskCurrent fo) => fo | _ => mkFollow 0 events (mkHandle 0 0 false) None 0 0 end.
Definition turn (selection : nat → option PublicKey * N) (wake : CurrentWake) (s : Follow * Desk (A := StandardSession)) :=
  current_turn (Observer0 := owner true selection) (open_fuel (Observer0 := owner true selection) 2 1000) 1000 wake s.1 s.2.

Definition switched := turn switching (WakeSelection true) (follower (followed switching), followed switching).
Definition new_follower : Follow := match switched.1 with Returned (Some fo) => fo | _ => follower desk0 end.

Lemma current_account_exact_witness :
  fo_current new_follower = Some 9%N ∧ fo_delivered new_follower = 2%N ∧
  turn_exact (Observer0 := owner true switching) (follower (followed switching)) new_follower (followed switching) switched.2.
Proof.
  split; [by vm_compute|]. split; [by vm_compute|].
  assert (follow_bound (follower (followed switching)) (followed switching)) as Hb.
  { split; [by vm_compute|].
    exists (match dk_tasks (followed switching) with TaskProjection _ p _ _ :: _ => p | _ => projection_start 0 None [] (mkQuerySnapshot 1 [] default_evidence) end), 0, 1.
    split; [|by vm_compute]. apply list_elem_of_lookup. exists 0. vm_compute. reflexivity. }
  assert (turn switching (WakeSelection true) (follower (followed switching), followed switching) =
    (Returned (Some new_follower), switched.2)) as Ht by (vm_compute; reflexivity).
  exact (proj2 (proj2 (proj2 (current_account_exact (Observer0 := owner true switching) 2 1000 (WakeSelection true)
    (follower (followed switching)) (followed switching) new_follower switched.2 eq_refl ltac:(vm_compute; discriminate) eq_refl Hb Ht)))).
Defined.

(** ** What the code does not mean to do *)

(** The account goes from 7 to 9 and back while the child for 9 is being opened. *)
Definition returning (read : nat) : option PublicKey * N :=
  if decide (read < 2) then (Some 7%N, 1%N) else if decide (read < 5) then (Some 9%N, 2%N) else (Some 7%N, 3%N).

Definition turns (selection : nat → option PublicKey * N) (wakes : list CurrentWake)
    (s : outcome (option Follow) * Desk (A := StandardSession)) : outcome (option Follow) * Desk (A := StandardSession) :=
  fold_left (λ s wake, match s.1 with Returned (Some fo) => turn selection wake (fo, s.2) | _ => s end) wakes s.

(** Activating the child for account 9 retires the child for 7; the delivery is
    then refused because 7 is selected again, the follower goes on with the
    retired child, and at its next look it ends.  The observation is still
    installed, but nothing will be delivered to it again. *)
Example follower_ends_on_return :
  let s := turns returning [WakeSelection true; WakeSelection true; WakeChild true]
             (Returned (Some (follower (followed returning))), followed returning) in
  (returning 0).1 = (returning (dk_reads s.2)).1 ∧ s.1 = Returned None ∧
  fo_parent (follower (followed returning)) ∉ rg_cancelled (dk_registry s.2) ∧
  keys (rg_observations (dk_registry s.2)) = [fo_parent (follower (followed returning))].
Proof. vm_compute. repeat split. by apply (bool_decide_eq_false _). Qed.

(** A query that accepts an hour-old answer opens with no demand at the relay the
    cache has proven complete; the first turn of the task that follows its route
    assigns that relay again. *)
Example fresh_source_returns :
  let open_ := open_fuel (Observer0 := owner true nobody) 2 2000 (max_age events 3600000000000) desk0 in
  let turned := follow_turn [] (route_of open_.2) open_.2 in
  keys (desired (dk_registry open_.2)) = [] ∧ keys (desired (dk_registry turned.2)) = ["wss://a"].
Proof. vm_compute. done. Qed.

(** A failed start of the engine fills the cell that says it runs: the next open
    is accepted, and its demand is never served. *)
Definition failing : Observer StandardSession :=
  mkObserver StandardSession (λ _ role _, Ok (SourceSnapshot_empty role)) (λ _ sources, Ok (evaluated [] sources))
    [app_router (mkApp "app" {["wss://a"]} true true)] true true true (Err EngineClosed) (λ _ _, None) true nobody true.

Example failed_start_remembered :
  let first_ := open_fuel (Observer0 := failing) 2 1000 events desk0 in
  let again := open_fuel (Observer0 := failing) 2 1000 events first_.2 in
  first_.1 = Returned (Err EngineClosed) ∧ again.1 = Returned (Ok (mkHandle 2 1 false)) ∧
  keys (desired (dk_registry again.2)) = ["wss://a"].
Proof. vm_compute. done. Qed.
End ObserverRuns.
