(* ===== verification/Publisher.v ===== *)
(** * Publishing one event ([crates/fava-publisher-nip01])

    The attempt [Nip01Publisher] makes on a leased session: hand the event off,
    wait for the relay's [OK] on the event's own handle, and, when the relay wants
    authentication the write's authority can give, wait for the connection to say
    so and send again.

    [publish_turn] is the task between two of its awaits; what it awaits happens
    in between, as calls on the router of the session ([Transport]).  The texts
    [Debug] writes for a failed hand-off are parameters. *)

From S2P Require Import Prelude Nostr Relay Write Transport TransportProps Delivery.

Definition INBOUND_FRAMES : nat := 64.
Definition AUTH_REQUIRED : string := "auth-required:".
Definition DEADLINE_ELAPSED : string := "publication deadline elapsed after handoff".

Definition open_request (relay : RelayUrl) (authority : Authority) (timeout : Duration) : OpenRelaySession :=
  mkOpenRelaySession relay authority (mkDeadlines timeout timeout timeout timeout) (mkBounds INBOUND_FRAMES 4 (1024 * 1024)) None.

(** ** Waiting for authentication *)

Definition arrived (c : Connection) (account : PublicKey) : bool :=
  match cn_connectivity c with Connected => true | _ => false end
  && bool_decide (established (cn_authentication c) = Some account).

Definition blocked (c : Connection) : bool :=
  match progress (cn_authentication c) with Declined | AuthRefused _ | Unanswerable _ => true | _ => false end
  || match cn_connectivity c with Disconnected _ (Some _) => true | _ => false end.

Definition describe_block (c : Connection) : string :=
  match progress (cn_authentication c) with
  | Declined => "the application declined to authenticate"
  | AuthRefused reason => "the relay refused authentication: " +:+ bt_text reason
  | Unanswerable reason => "authentication could not be answered: " +:+ bt_text reason
  | Idle | Requested _ | Answering _ =>
      match cn_connectivity c with
      | Disconnected detail (Some attempts) =>
          "the reconnect budget of " +:+ pretty (N.of_nat attempts) +:+
          " was exhausted before authentication completed: " +:+ bt_text detail
      | _ => "authentication did not complete"
      end
  end.

Definition describe_ended (ended : SessionEnded) : string :=
  match ended with
  | EndedDisconnected detail => "connection ended before the relay answered: " +:+ bt_text detail
  | ReconnectExhausted attempts detail =>
      "reconnect budget of " +:+ pretty (N.of_nat attempts) +:+ " exhausted before the relay answered: " +:+ bt_text detail
  end.

(** [wait_for] on the connection: the last value satisfies the predicate, or no
    further value will come, or it waits ([None]). *)
Definition wait_for_authentication (account : PublicKey) (cell : ConnectionCell) : option (result string unit) :=
  let current := cc_last cell in
  if arrived current account then Some (Ok tt)
  else if blocked current then Some (Err (describe_block current))
  else match cc_sender cell with
       | None => Some (Err "the connection ended while authentication was outstanding")
       | Some _ => None
       end.

(** ** The attempt *)

Inductive PublishState :=
| PublishSend
| PublishHandoff (mailbox : nat)
| PublishAwait (handle : RoutedAcknowledgement)
| PublishAuth (message : string) (account : PublicKey)
| PublishDone (outcome : PublishOutcome).

(** What the task awaited: its turn, the outcome of the hand-off, a look at the
    acknowledgement, its deadline, a look at the connection. *)
Inductive PublishWake :=
| WakeSend
| WakeHandoff (outcome : HandoffOutcome)
| WakeAcknowledgement
| WakeDeadline
| WakeConnection.

Section attempt.
Context `{Wire} (debug_failure : TransportFailure → string) (debug_handoff : HandoffOutcome → string).
Context (attempt : PublishAttempt) (identity : RelaySessionIdentity).
Local Abbreviation event := (pa_event attempt).

Definition refused_handoff (refused : HandoffOutcome) : PublishOutcome :=
  match refused with
  | Transport.NotHandedOff _ _ reason => Delivery.NotHandedOff (debug_failure reason)
  | refused => OutcomeUnknown (debug_handoff refused)
  end.

(** The verdict on the event, in [send_until_settled]. *)
Definition publish_settled (s : Settlement) : PublishState :=
  match s with
  | SettledAccepted message => PublishDone (PublishAcknowledged (bt_text message))
  | SettledRejected message =>
      let message := bt_text message in
      if negb (String.prefix AUTH_REQUIRED message) then PublishDone (PublishRejected message)
      else match pa_authority attempt with
           | As account => PublishAuth message account
           | Unauthenticated => PublishDone (AuthenticationRequired message)
           end
  | SettledEnded ended => PublishDone (OutcomeUnknown (describe_ended ended))
  end.

(** At its deadline the handle is dropped, which releases nothing: only the
    future of [settled] does, when it answers. *)
Definition publish_turn (wake : PublishWake) (state : PublishState) (r : Router) : PublishState * Router :=
  match state, wake with
  | PublishSend, WakeSend =>
      let '((mailbox, frame), r) := publish_start identity event r in
      match frame with
      | Ok _ => (PublishHandoff mailbox, r)
      | Err refused => (PublishDone (refused_handoff refused), release_acknowledgement (ev_id event) mailbox r)
      end
  | PublishHandoff mailbox, WakeHandoff outcome =>
      match publish_finish (ev_id event) mailbox outcome r with
      | (Ok handle, r) => (PublishAwait handle, r)
      | (Err refused, r) => (PublishDone (refused_handoff refused), r)
      end
  | PublishAwait handle, WakeAcknowledgement =>
      match settled handle r with
      | (Some s, r) => (publish_settled s, r)
      | (None, r) => (PublishAwait handle, r)
      end
  | PublishAwait handle, WakeDeadline =>
      (PublishDone (OutcomeUnknown DEADLINE_ELAPSED), r)
  | PublishAuth message account, WakeConnection =>
      match wait_for_authentication account (rt_cell r) with
      | None => (PublishAuth message account, r)
      | Some (Ok _) => (PublishSend, r)
      | Some (Err reason) =>
          (PublishDone (AuthenticationRequired
             (message +:+ "; authentication was required and did not happen: " +:+ reason)), r)
      end
  | state, _ => (state, r)
  end.

(** [publish] before the session is leased. *)
Definition publish_acquired (acquired : result string unit) : PublishState :=
  match acquired with Ok _ => PublishSend | Err error => PublishDone (Delivery.NotHandedOff error) end.
End attempt.

(** ** Runs *)

Section runs.
Context `{Wire} (debug_failure : TransportFailure → string) (debug_handoff : HandoffOutcome → string).
Context (attempt : PublishAttempt) (identity : RelaySessionIdentity).
Local Abbreviation event := (pa_event attempt).

(** An attempt and its session's router; [pb_heard] is what the relay has said
    since the event was last sent, [pb_sent] how often it was, [pb_arrivals] the
    connection at the end of every wait that let it be sent again, and [pb_boxes]
    the mailboxes the attempt has registered. *)
Record Publishing := mkPublishing {
  pb_state : PublishState;
  pb_router : Router;
  pb_heard : list RelayMessage;
  pb_sent : nat;
  pb_arrivals : list Connection;
  pb_boxes : list nat
}.

Definition publishing_start (r : Router) : Publishing := mkPublishing PublishSend r [] 0 [] [].

Definition publishing_turn (wake : PublishWake) (p : Publishing) : Publishing :=
  let '(state, r) := publish_turn debug_failure debug_handoff attempt identity wake (pb_state p) (pb_router p) in
  match pb_state p, wake, state with
  | PublishSend, WakeSend, _ =>
      mkPublishing state r [] (1 + pb_sent p) (pb_arrivals p) (pb_boxes p ++ [length (rt_ack_boxes (pb_router p))])
  | PublishAuth _ _, WakeConnection, PublishSend =>
      mkPublishing state r (pb_heard p) (pb_sent p) (pb_arrivals p ++ [cc_last (rt_cell (pb_router p))]) (pb_boxes p)
  | _, _, _ => mkPublishing state r (pb_heard p) (pb_sent p) (pb_arrivals p) (pb_boxes p)
  end.

Definition heard_in (c : RouterCall) : list RelayMessage := match c with CallDeliver message => [message] | _ => [] end.

Definition publishing_call (c : RouterCall) (p : Publishing) : Publishing :=
  mkPublishing (pb_state p) (router_call c (pb_router p))
    (pb_heard p ++ heard_in c) (pb_sent p) (pb_arrivals p) (pb_boxes p).

(** Turns of the attempt among whatever else the session does. *)
Inductive publish_step : Publishing → Publishing → Prop :=
| publish_turns wake p : publish_step p (publishing_turn wake p)
| publish_called c p : fresh_call (pb_router p) c → publish_step p (publishing_call c p).

(** ** Where a verdict comes from *)

Definition genuine (heard : list RelayMessage) (s : Settlement) : Prop :=
  (∃ ended, s = SettledEnded ended) ∨
  ∃ accepted text, MsgOk (ev_id event) accepted text ∈ heard ∧ s = settlement (MsgOk (ev_id event) accepted text).

(** A mailbox that waits for the attempt's event, if for anything. *)
Definition ours (b : nat) (heard : list RelayMessage) (r : Router) : Prop :=
  (∃ m, rt_ack_boxes r !! b = Some m ∧ ∀ s, s ∈ mb_items m → genuine heard s) ∧
  (∀ e l, rt_acknowledgements r !! e = Some l → b ∈ l → e = ev_id event).

(** A mailbox nobody will write to again. *)
Definition retired (r : Router) (b : nat) : Prop := b < length (rt_ack_boxes r) ∧ ¬ awaited r b.

Lemma genuine_more heard more s : genuine heard s → genuine (heard ++ more) s.
Proof. intros [?|(a & t & Hin & ->)]; [by left|right]. exists a, t. split; [set_solver|done]. Qed.

Lemma release_ack_boxes e b r : rt_ack_boxes (release_acknowledgement e b r) = rt_ack_boxes r.
Proof. unfold release_acknowledgement. by repeat case_match. Qed.

(** What a release keeps of the table. *)
Lemma release_ack_acks e b r e' l :
  rt_acknowledgements (release_acknowledgement e b r) !! e' = Some l →
  ∃ l0, rt_acknowledgements r !! e' = Some l0 ∧ (∀ x, x ∈ l → x ∈ l0) ∧ (e' = e → b ∉ l).
Proof.
  unfold release_acknowledgement. destruct (rt_acknowledgements r !! e) as [waiting|] eqn:Hw.
  2:{ intros Hl. exists l. split_and!; [done..|]. intros ->. congruence. }
  assert (∀ x, x ∈ List.filter (λ existing, negb (bool_decide (existing = b))) waiting ↔ x ∈ waiting ∧ x ≠ b) as Hf.
  { intros x. rewrite !list_elem_of_In, filter_In, negb_true_iff, bool_decide_eq_false. done. }
  destruct (List.filter _ waiting) as [|y rest] eqn:Hr; cbn.
  - rewrite lookup_delete_Some. intros [Hne Hl]. exists l. by split_and!.
  - rewrite lookup_insert_Some. intros [[<- <-]|[Hne Hl]]; [|exists l; by split_and!].
    exists waiting. split; [done|]. split; [intros x Hx; by apply Hf in Hx as []|]. intros _ Hb. by apply Hf in Hb as [].
Qed.

Lemma ours_release e x b heard r : ours b heard r → ours b heard (release_acknowledgement e x r).
Proof.
  intros [Hm Hu]. split; [by rewrite release_ack_boxes|]. intros e' l (l0 & Hl0 & Hsub & _)%release_ack_acks Hb. eauto.
Qed.

Lemma retired_release e x b r : retired r b → retired (release_acknowledgement e x r) b.
Proof.
  intros [Hlt Hn]. split; [by rewrite release_ack_boxes|]. intros (e' & l & (l0 & Hl0 & Hsub & _)%release_ack_acks & Hb).
  apply Hn. exists e', l0. auto.
Qed.

Lemma offer_items {T} (x : T) m y : y ∈ mb_items (offer x m) → y = x ∨ y ∈ mb_items m.
Proof. unfold offer. repeat case_match; cbn; rewrite ?elem_of_app, ?list_elem_of_singleton; tauto. Qed.

Lemma take_items {T} (m : Mailbox T) y : y ∈ mb_items (take m).2 → y ∈ mb_items m.
Proof. unfold take. destruct (mb_items m) eqn:Hm; cbn; rewrite ?Hm; [done|]. by right. Qed.

Lemma take_head {T} (m : Mailbox T) x : (take m).1 = Some x → x ∈ mb_items m.
Proof. unfold take. destruct (mb_items m); [done|]. intros [= ->]. by left. Qed.

Lemma moved_acks {A} (x : A) next r :
  let r' := (moved_with x next r).2 in
  (rt_acknowledgements r' = rt_acknowledgements r ∧ rt_ack_boxes r' = rt_ack_boxes r) ∨
  ∃ ended, rt_acknowledgements r' = ∅ ∧ length (rt_ack_boxes r') = length (rt_ack_boxes r) ∧
    ∀ b, rt_ack_boxes r' !! b = (if bool_decide (awaited r b) then ended_ack ended <$> rt_ack_boxes r !! b else rt_ack_boxes r !! b).
Proof.
  unfold moved_with. destruct (cc_sender (rt_cell r)) as [before|]; [|by left]. destruct (next before) as [after answer].
  cbn. destruct (ending_of before after) as [ended|]; [right|by left]. exists ended.
  match goal with |- context [end_connection ended ?x] => set (r1 := x) end.
  destruct (end_connection_spec ended r1) as (_ & Ha & _ & _ & Hl & _ & Hb). split; [done|]. split; [done|]. exact Hb.
Qed.

Lemma settled_acks h r :
  (∀ e l, rt_acknowledgements (settled h r).2 !! e = Some l → ∃ l0, rt_acknowledgements r !! e = Some l0 ∧ ∀ x, x ∈ l → x ∈ l0) ∧
  length (rt_ack_boxes (settled h r).2) = length (rt_ack_boxes r) ∧
  (∀ b m, rt_ack_boxes r !! b = Some m →
     ∃ m', rt_ack_boxes (settled h r).2 !! b = Some m' ∧ ∀ s, s ∈ mb_items m' → s ∈ mb_items m).
Proof.
  unfold settled. destruct (rt_ack_boxes r !! ra_mailbox h) as [m|] eqn:Hm; [|by split_and!; eauto].
  destruct (take m) as [[s|] m'] eqn:Ht; cbn.
  - split_and!.
    + intros e l (l0 & Hl0 & Hsub & _)%release_ack_acks. eauto.
    + rewrite release_ack_boxes. cbn. by rewrite length_insert.
    + intros b m0 Hb. rewrite release_ack_boxes. cbn. destruct (decide (ra_mailbox h = b)) as [<-|Hne].
      * rewrite list_lookup_insert_eq by (by eapply lookup_lt_Some). eexists. split; [done|].
        rewrite Hm in Hb. injection Hb as <-. intros y Hy. apply take_items. by rewrite Ht.
      * rewrite list_lookup_insert_ne by done. eauto.
  - destruct (mb_closed m); cbn; [|by split_and!; eauto]. split_and!.
    + intros e l (l0 & Hl0 & Hsub & _)%release_ack_acks. eauto.
    + by rewrite release_ack_boxes.
    + intros b m0 Hb. rewrite release_ack_boxes. eauto.
Qed.

(** Delivery to the waiters of an event. *)
Lemma deliver_acks message r :
  router_ok r →
  rt_acknowledgements (deliver message r) = rt_acknowledgements r ∧ rt_ack_boxes (deliver message r) = rt_ack_boxes r ∨
  (∃ challenge, message = MsgAuth challenge) ∨
  ∃ e accepted text l, message = MsgOk e accepted text ∧ rt_acknowledgements r !! e = Some l ∧
    rt_acknowledgements (deliver message r) = rt_acknowledgements r ∧
    length (rt_ack_boxes (deliver message r)) = length (rt_ack_boxes r) ∧
    ∀ b, rt_ack_boxes (deliver message r) !! b =
      (if bool_decide (b ∈ l) then offer (settlement message) <$> rt_ack_boxes r !! b else rt_ack_boxes r !! b).
Proof.
  intros Hok. destruct message; cbn; try (left; by destruct (rt_subscriptions r !! _)); try (by left); try (right; left; by eexists).
  destruct (rt_acknowledgements r !! event_id) as [l|] eqn:Hl; [|by left]. right. right.
  eexists _, _, _, l. split; [done|]. split; [done|]. rewrite fold_with_ack. cbn. split; [done|].
  rewrite length_alter_all. split; [done|]. intros b. apply alter_all_lookup. left.
  by destruct (ao_waiters _ _ (rk_acks _ Hok) _ _ Hl).
Qed.

Lemma ended_items ended m s : s ∈ mb_items (ended_ack ended m) → s = SettledEnded ended ∨ s ∈ mb_items m.
Proof. unfold ended_ack, mailbox_close. apply offer_items. Qed.

Lemma ours_moved {A} (x : A) next b heard r : ours b heard r → ours b heard (moved_with x next r).2.
Proof.
  intros [(m & Hm & Hg) Hu]. destruct (moved_acks x next r) as [[Ha Hb]|(ended & Ha & _ & Hb)].
  { split; [exists m; by rewrite Hb|]. by rewrite Ha. }
  split; [|by rewrite Ha; intros ? ? ?%lookup_empty_Some]. rewrite Hb, Hm. destruct (bool_decide _); [|by eauto].
  eexists. split; [done|]. intros s [->|Hin]%ended_items; [left; by eexists|auto].
Qed.

Lemma retired_moved {A} (x : A) next b r : retired r b → retired (moved_with x next r).2 b.
Proof.
  intros [Hlt Hn]. destruct (moved_acks x next r) as [[Ha Hb]|(ended & Ha & Hl & _)].
  - split; [by rewrite Hb|]. unfold awaited. by rewrite Ha.
  - split; [by rewrite Hl|]. intros (e & l & He & _). rewrite Ha in He. done.
Qed.

Lemma ours_same b heard r r' :
  rt_acknowledgements r' = rt_acknowledgements r → rt_ack_boxes r' = rt_ack_boxes r → ours b heard r → ours b heard r'.
Proof. unfold ours. by intros -> ->. Qed.

Lemma retired_same b r r' :
  rt_acknowledgements r' = rt_acknowledgements r → rt_ack_boxes r' = rt_ack_boxes r → retired r b → retired r' b.
Proof. unfold retired, awaited. by intros -> ->. Qed.

Lemma ours_more b heard more r : ours b heard r → ours b (heard ++ more) r.
Proof.
  intros [(m & Hm & Hg) Hu]. split; [|done]. exists m. split; [done|]. intros s Hs. by apply genuine_more, Hg.
Qed.

Lemma ours_deliver message b heard r :
  router_ok r → ours b heard r → ours b (heard ++ [message]) (deliver message r).
Proof.
  intros Hok Ho. destruct (deliver_acks message r Hok) as [[Ha Hb]|[[ch ->]|(e & a & t & l & -> & Hl & Ha & Hlen & Hb)]].
  - apply ours_more. by apply (ours_same b heard r).
  - apply ours_more. cbn. by apply ours_moved.
  - destruct Ho as [(m & Hm & Hg) Hu]. split; [|by rewrite Ha]. rewrite Hb, Hm. case_bool_decide as Hin.
    + eexists. split; [done|]. intros s [->|Hs]%offer_items; [|by apply genuine_more, Hg].
      right. rewrite <- (Hu e l Hl Hin). exists a, t. split; [set_solver|done].
    + exists m. split; [done|]. intros s Hs. by apply genuine_more, Hg.
Qed.

Lemma next_acks mailbox r :
  rt_acknowledgements (subscription_next mailbox r).2 = rt_acknowledgements r ∧
  rt_ack_boxes (subscription_next mailbox r).2 = rt_ack_boxes r.
Proof. unfold subscription_next. destruct (rt_sub_boxes r !! mailbox) as [m|]; [|done]. by destruct (next_from m). Qed.

Lemma release_sub_acks id r :
  rt_acknowledgements (release_subscription id r) = rt_acknowledgements r ∧
  rt_ack_boxes (release_subscription id r) = rt_ack_boxes r.
Proof. unfold release_subscription. by destruct (rt_subscriptions r !! id). Qed.

(** Whatever else the session does, a verdict of ours stays genuine. *)
Lemma ours_call c b heard r :
  router_ok r → ours b heard r → ours b (heard ++ heard_in c) (router_call c r).
Proof.
  intros Hok Ho. destruct c as [id n|id|e|e x|next|message|x|e x]; cbn [router_call heard_in];
    [..|by apply ours_deliver| |]; apply ours_more; [by apply (ours_same b heard r)|..].
  - destruct (release_sub_acks id r). by apply (ours_same b heard r).
  - destruct Ho as [(m & Hm & Hg) Hu]. split.
    + exists m. split; [|done]. cbn. by apply lookup_app_l_Some.
    + intros e' l. cbn. rewrite lookup_insert_Some. intros [[<- <-]|[_ Hl]] Hin; [|by eapply Hu].
      apply elem_of_app in Hin as [Hin| ->%list_elem_of_singleton].
      * destruct (rt_acknowledgements r !! e) as [l|] eqn:Hl; cbn in Hin; [by eapply Hu|by apply not_elem_of_nil in Hin].
      * apply lookup_lt_Some in Hm. lia.
  - by apply ours_release.
  - by apply ours_moved.
  - destruct (next_acks x r). by apply (ours_same b heard r).
  - destruct Ho as [(m & Hm & Hg) Hu].
    destruct (settled_acks (mkRoutedAcknowledgement e x) r) as (Ha & _ & Hb). split.
    + destruct (Hb b m Hm) as (m' & Hm' & Hsub). exists m'. split; [done|]. intros s Hs. by apply Hg, Hsub.
    + intros e' l Hl Hin. destruct (Ha e' l Hl) as (l0 & Hl0 & Hsub). by eapply Hu, Hsub.
Qed.

Lemma retired_call c b r : router_ok r → retired r b → retired (router_call c r) b.
Proof.
  intros Hok Hr. destruct c as [id n|id|e|e x|next|message|x|e x]; cbn [router_call];
    [by apply (retired_same b r)| | |by apply retired_release|by apply retired_moved| | |].
  - destruct (release_sub_acks id r). by apply (retired_same b r).
  - destruct Hr as [Hlt Hn]. split; [cbn; rewrite length_app; lia|]. intros (e' & l & Hl & Hin). cbn in Hl.
    rewrite lookup_insert_Some in Hl. destruct Hl as [[<- <-]|[_ Hl]]; [|apply Hn; by exists e', l].
    apply elem_of_app in Hin as [Hin| ->%list_elem_of_singleton]; [|lia].
    destruct (rt_acknowledgements r !! e) as [l|] eqn:Hl; cbn in Hin; [apply Hn; by exists e, l|by apply not_elem_of_nil in Hin].
  - destruct (deliver_acks message r Hok) as [[Ha Hb]|[[ch ->]|(e & a & t & l & -> & Hl & Ha & Hlen & _)]].
    + by apply (retired_same b r).
    + by apply retired_moved.
    + destruct Hr as [Hlt Hn]. split; [by rewrite Hlen|]. unfold awaited. by rewrite Ha.
  - destruct (next_acks x r). by apply (retired_same b r).
  - destruct (settled_acks (mkRoutedAcknowledgement e x) r) as (Ha & Hlen & _). destruct Hr as [Hlt Hn].
    split; [by rewrite Hlen|]. intros (e' & l & Hl & Hin). destruct (Ha e' l Hl) as (l0 & Hl0 & Hsub). apply Hn. exists e', l0. auto.
Qed.

(** ** The attempt is honest *)

Lemma string_app_nil_r (x : string) : x +:+ "" = x.
Proof. induction x as [|c x IH]; [done|]. exact (f_equal (String.String c) IH). Qed.

Definition cut (text : string) : string := bt_text (BoundedText_new text).

(** What a verdict reported by the attempt rests on. *)
Definition verdict_heard (heard : list RelayMessage) (o : PublishOutcome) : Prop :=
  match o with
  | PublishAcknowledged message => ∃ text, MsgOk (ev_id event) true text ∈ heard ∧ message = cut text
  | PublishRejected message =>
      ∃ text, MsgOk (ev_id event) false text ∈ heard ∧ message = cut text ∧ String.prefix AUTH_REQUIRED message = false
  | AuthenticationRequired message =>
      ∃ text more, MsgOk (ev_id event) false text ∈ heard ∧ message = cut text +:+ more ∧
        String.prefix AUTH_REQUIRED (cut text) = true
  | _ => True
  end.

(** The mailboxes of an attempt that has ended: nobody writes to them again, but
    to the one its deadline left behind. *)
Definition done_boxes (o : PublishOutcome) (r : Router) (boxes : list nat) : Prop :=
  Forall (retired r) boxes ∨
  o = OutcomeUnknown DEADLINE_ELAPSED ∧ ∃ before b, boxes = before ++ [b] ∧ Forall (retired r) before.

Definition state_ok (p : Publishing) : Prop :=
  match pb_state p with
  | PublishSend => Forall (retired (pb_router p)) (pb_boxes p)
  | PublishHandoff b =>
      ∃ before, pb_boxes p = before ++ [b] ∧ Forall (retired (pb_router p)) before ∧ ours b (pb_heard p) (pb_router p)
  | PublishAwait h =>
      ∃ before, pb_boxes p = before ++ [ra_mailbox h] ∧ Forall (retired (pb_router p)) before ∧ ra_event h = ev_id event ∧
        ours (ra_mailbox h) (pb_heard p) (pb_router p)
  | PublishAuth message account =>
      Forall (retired (pb_router p)) (pb_boxes p) ∧ pa_authority attempt = As account ∧
      ∃ text, MsgOk (ev_id event) false text ∈ pb_heard p ∧ message = cut text ∧ String.prefix AUTH_REQUIRED message = true
  | PublishDone o => done_boxes o (pb_router p) (pb_boxes p) ∧ verdict_heard (pb_heard p) o
  end.

(** Every send but the first follows a wait that found the account established. *)
Definition sends_ok (p : Publishing) : Prop :=
  pb_sent p = match pb_state p with PublishSend => length (pb_arrivals p) | _ => 1 + length (pb_arrivals p) end ∧
  ∀ c, c ∈ pb_arrivals p → ∃ account, pa_authority attempt = As account ∧ arrived c account = true.

Record publishing_ok (p : Publishing) : Prop := {
  pk_router : router_ok (pb_router p);
  pk_state : state_ok p;
  pk_sends : sends_ok p
}.

Lemma verdict_more heard more o : verdict_heard heard o → verdict_heard (heard ++ more) o.
Proof.
  destruct o; cbn; try done; [intros (t & Hin & ?)|intros (t & Hin & ?)|intros (t & m & Hin & ?)]; exists t; [..|exists m];
    split; try done; apply elem_of_app; by left.
Qed.

Lemma attempt_call_keeps c p : fresh_call (pb_router p) c → publishing_ok p → publishing_ok (publishing_call c p).
Proof.
  intros Hf [Hok Hs Hn]. split; cbn; [by apply router_call_ok| |done].
  assert (∀ l, Forall (retired (pb_router p)) l → Forall (retired (router_call c (pb_router p))) l) as Hret.
  { intros l Hl. eapply Forall_impl; [done|]. intros b. by apply retired_call. }
  unfold state_ok in *. cbn. destruct (pb_state p).
  - auto.
  - destruct Hs as (before & ? & ? & ?). exists before. split_and!; [done|auto|by apply ours_call].
  - destruct Hs as (before & ? & ? & ? & ?). exists before. split_and!; [done|auto|done|by apply ours_call].
  - destruct Hs as (? & ? & text & Hin & ?). split_and!; [auto|done|]. exists text. split; [|done]. apply elem_of_app. by left.
  - destruct Hs as [[?|(? & before & b & ? & ?)] ?]; (split; [|by apply verdict_more]); [left; auto|].
    right. split; [done|]. exists before, b. auto.
Qed.

(** A mailbox of ours, released. *)
Lemma release_retires b heard r :
  ours b heard r → retired (release_acknowledgement (ev_id event) b r) b.
Proof.
  intros [(m & Hm & _) Hu]. split; [rewrite release_ack_boxes; by eapply lookup_lt_Some|].
  intros (e & l & (l0 & Hl0 & Hsub & Hout)%release_ack_acks & Hin). specialize (Hu e l0 Hl0 (Hsub b Hin)). by apply Hout.
Qed.

Lemma settled_ours h s r r' heard :
  ra_event h = ev_id event → ours (ra_mailbox h) heard r → settled h r = (Some s, r') →
  genuine heard s ∧ retired r' (ra_mailbox h).
Proof.
  intros He Ho. pose proof Ho as [(m & Hm & Hg) Hu]. unfold settled. rewrite Hm.
  destruct (take m) as [[x|] m'] eqn:Ht.
  - intros [= <- <-]. split; [apply Hg, take_head; by rewrite Ht|]. rewrite He. eapply release_retires. split; [|exact Hu].
    exists m'. cbn. rewrite list_lookup_insert_eq by (by eapply lookup_lt_Some). split; [done|].
    intros s Hs. apply Hg, take_items. by rewrite Ht.
  - destruct (mb_closed m); [|done]. intros [= <- <-]. split; [left; by eexists|]. rewrite He. by eapply release_retires.
Qed.

Lemma retired_calls c l r : router_ok r → Forall (retired r) l → Forall (retired (router_call c r)) l.
Proof. intros Hok Hl. eapply Forall_impl; [done|]. intros b. by apply retired_call. Qed.

Lemma await_ours r : router_ok r → ours (length (rt_ack_boxes r)) [] (await_acknowledgement (ev_id event) r).2.
Proof.
  intros Hok. split.
  - exists (Mailbox_new 1). cbn. rewrite lookup_app_r, Nat.sub_diag by lia. split; [done|]. by intros s ?%not_elem_of_nil.
  - intros e l. cbn. rewrite lookup_insert_Some. intros [[<- _]|[_ Hl]] Hin; [done|].
    destruct (ao_open _ _ (rk_acks _ Hok) _ _ _ Hl Hin) as (m & Hm & _). apply lookup_lt_Some in Hm. lia.
Qed.

Lemma send_keeps p : pb_state p = PublishSend → publishing_ok p → publishing_ok (publishing_turn WakeSend p).
Proof.
  intros Hst [Hok Hs [Hn Ha]]. unfold state_ok in Hs. unfold publishing_turn, publish_turn. rewrite Hst in *.
  unfold publish_start. cbn [await_acknowledgement].
  set (b := length (rt_ack_boxes (pb_router p))).
  pose proof (await_ours (pb_router p) Hok) as Hours. fold b in Hours.
  pose proof (retired_calls (CallAwait (ev_id event)) _ _ Hok Hs) as Hret.
  pose proof (router_call_ok (CallAwait (ev_id event)) _ I Hok) as Hok1. cbn in Hret, Hok1, Hours. fold b in Hret, Hok1.
  destruct (encoded identity (ClientEvent event)) as [frame|refused]; (split; cbn [pb_router pb_state]).
  - exact Hok1.
  - by exists (pb_boxes p).
  - split; [|done]. cbn. lia.
  - by apply (router_call_ok (CallReleaseAck (ev_id event) b)).
  - split; [left|unfold refused_handoff; by destruct refused]. apply Forall_app. split.
    + eapply Forall_impl; [exact Hret|]. intros x. by apply retired_release.
    + constructor; [by eapply release_retires|done].
  - split; [|done]. cbn. lia.
Qed.

(** The verdict on the event. *)
Lemma settled_keeps p h s r :
  pb_state p = PublishAwait h → publishing_ok p → settled h (pb_router p) = (Some s, r) →
  publishing_ok (mkPublishing (publish_settled attempt s) r (pb_heard p) (pb_sent p) (pb_arrivals p) (pb_boxes p)).
Proof.
  intros Hst [Hok Hs [Hn Ha]] Hset. unfold state_ok in Hs. rewrite Hst in *. destruct Hs as (before & Hb & Hret & He & Ho).
  destruct (settled_ours _ _ _ _ _ He Ho Hset) as [Hg Hr].
  assert (r = router_call (CallSettled (ra_event h) (ra_mailbox h)) (pb_router p)) as Hr'.
  { cbn. by destruct h; cbn; rewrite Hset. }
  assert (Forall (retired r) (pb_boxes p)) as Hall.
  { rewrite Hb. apply Forall_app. split; [|by constructor]. rewrite Hr'. by apply retired_calls. }
  split; [cbn; rewrite Hr'; by apply router_call_ok| |].
  - unfold state_ok. cbn. unfold publish_settled. destruct s as [message|message|ended].
    + split; [by left|]. destruct Hg as [[? ?]|([] & text & Hin & Hm)]; [done| |done]. injection Hm as ->. cbn. by eexists.
    + destruct Hg as [[? ?]|([] & text & Hin & Hm)]; [done|done|]. injection Hm as ->. fold (cut text).
      destruct (String.prefix AUTH_REQUIRED (cut text)) eqn:Hp; cbn.
      * destruct (pa_authority attempt) eqn:Hau; cbn.
        -- split; [by left|]. exists text, "". split_and!; [done| |done]. by rewrite string_app_nil_r.
        -- split_and!; [done..|]. by exists text.
      * split; [by left|]. by exists text.
    + by split; [left|].
  - split; [|done]. cbn in *. rewrite Hn. unfold publish_settled. by repeat case_match.
Qed.

(** A wake-up the attempt does not wait for. *)
Local Ltac idle p Hst := unfold publishing_turn, publish_turn; rewrite Hst; destruct p; cbn in *; subst; assumption.

Lemma turn_keeps wake p : publishing_ok p → publishing_ok (publishing_turn wake p).
Proof.
  intros Hp. destruct (pb_state p) as [|b|h|message account|o] eqn:Hst.
  - destruct wake; try idle p Hst. by apply send_keeps.
  - destruct wake as [|outcome| | |]; try idle p Hst. destruct Hp as [Hok Hs [Hn Ha]].
    unfold state_ok in Hs. unfold publishing_turn, publish_turn. rewrite Hst in *. destruct Hs as (before & Hb & Hret & Ho).
    assert (publishing_ok (mkPublishing (PublishDone (refused_handoff debug_failure debug_handoff outcome))
      (release_acknowledgement (ev_id event) b (pb_router p)) (pb_heard p) (pb_sent p) (pb_arrivals p) (pb_boxes p))) as Href.
    { split; [by apply (router_call_ok (CallReleaseAck (ev_id event) b))| |by split].
      split; [left|unfold refused_handoff; by destruct outcome]. cbn. rewrite Hb. apply Forall_app. split.
      - eapply Forall_impl; [done|]. intros x. by apply retired_release.
      - constructor; [by eapply release_retires|done]. }
    destruct outcome; cbn; [done| |done]. split; [done| |by split]. by exists before.
  - destruct wake as [| | | |]; try idle p Hst.
    + unfold publishing_turn, publish_turn. rewrite Hst. destruct (settled h (pb_router p)) as [[s|] r] eqn:Hset.
      * by apply (settled_keeps p h).
      * assert (r = pb_router p) as -> by (revert Hset; unfold settled; repeat case_match; by intros [=]).
        destruct p; cbn in *. by subst.
    + destruct Hp as [Hok Hs [Hn Ha]]. unfold state_ok in Hs. unfold publishing_turn, publish_turn. rewrite Hst in *.
      destruct Hs as (before & Hb & Hret & He & Ho). split; cbn; [done| |by split].
      split; [|done]. right. split; [done|]. by exists before, (ra_mailbox h).
  - destruct wake as [| | | |]; try idle p Hst. destruct Hp as [Hok Hs [Hn Ha]].
    unfold state_ok in Hs. unfold publishing_turn, publish_turn. rewrite Hst in *.
    destruct Hs as (Hret & Hau & text & Hin & Hm & Hpre). unfold wait_for_authentication.
    destruct (arrived _ account) eqn:Harr.
    { split; [done|done|]. split; cbn; [rewrite length_app; cbn in *; lia|].
      intros c [Hc| ->%list_elem_of_singleton]%elem_of_app; [auto|by exists account]. }
    assert (∀ reason, publishing_ok (mkPublishing (PublishDone (AuthenticationRequired
      (message +:+ "; authentication was required and did not happen: " +:+ reason)))
      (pb_router p) (pb_heard p) (pb_sent p) (pb_arrivals p) (pb_boxes p))) as Hend.
    { intros reason. split; [done| |by split]. split; [by left|]. cbn. exists text. eexists. rewrite Hm in *. by split_and!. }
    destruct (blocked _); [apply Hend|]. destruct (cc_sender _); [|apply Hend]. split; [done| |by split].
    split_and!; [done..|]. by exists text.
  - destruct wake; idle p Hst.
Qed.

Lemma publishing_run_ok p p' : rtc publish_step p p' → publishing_ok p → publishing_ok p'.
Proof.
  induction 1 as [|p1 p2 p3 Hstep _ IH]; [done|]. intros Hok. apply IH.
  destruct Hstep; [by apply turn_keeps|by apply attempt_call_keeps].
Qed.

Lemma publishing_start_ok r : router_ok r → publishing_ok (publishing_start r).
Proof. intros Hok. split; [done|by constructor|]. split; [done|]. by intros c ?%not_elem_of_nil. Qed.

(** C20. However an attempt interleaves with everything else on its session: a
    verdict it reports is the relay's own [OK] for this event, heard since the
    event was last sent; authentication is reported as missing only after the
    relay refused the event for it; every send after the first followed a wait
    that found the connection established as the account of the write, so
    anonymous work is sent once; and an attempt that has ended leaves no mailbox
    waiting, but for the last one of an attempt ended by its deadline. *)
Theorem publisher_honest r p :
  router_ok r → rtc publish_step (publishing_start r) p →
  (∀ o, pb_state p = PublishDone o →
     verdict_heard (pb_heard p) o ∧
     ∀ b, b ∈ pb_boxes p → awaited (pb_router p) b →
       o = OutcomeUnknown DEADLINE_ELAPSED ∧ last (pb_boxes p) = Some b) ∧
  pb_sent p ≤ 1 + length (pb_arrivals p) ∧
  (∀ c, c ∈ pb_arrivals p → ∃ account, pa_authority attempt = As account ∧ arrived c account = true) ∧
  (pa_authority attempt = Unauthenticated → pb_sent p ≤ 1).
Proof.
  intros Hr Hrun. destruct (publishing_run_ok _ _ Hrun (publishing_start_ok r Hr)) as [Hok Hs [Hn Ha]].
  assert (pb_sent p ≤ 1 + length (pb_arrivals p)) as Hle by (rewrite Hn; destruct (pb_state p); lia).
  split_and!; [|done|done|].
  - intros o Hst. unfold state_ok in Hs. rewrite Hst in Hs. destruct Hs as [Hbox Hv]. split; [done|].
    intros b Hb Haw. destruct Hbox as [Hret|(-> & before & b' & Hbx & Hret)]; rewrite Forall_forall in Hret;
      [by apply Hret in Hb as []|].
    split; [done|]. rewrite Hbx in Hb |- *. rewrite last_snoc. apply elem_of_app in Hb as [Hb| ->%list_elem_of_singleton]; [|done].
    by apply Hret in Hb as [].
  - intros Hau. destruct (pb_arrivals p) as [|c l]; [cbn in Hle; lia|].
    destruct (Ha c) as (account & Hcon & _); [by left|congruence].
Qed.
End runs.

(** ** Mailboxes of attempts that timed out *)

Section deadline.
Context `{Wire} (debug_failure : TransportFailure → string) (debug_handoff : HandoffOutcome → string).
Context (attempt : PublishAttempt) (identity : RelaySessionIdentity).

(** One attempt the relay never answers: sent, handed off, out of time. *)
Definition unanswered (r : Router) : Router :=
  let turn := publishing_turn debug_failure debug_handoff attempt identity in
  pb_router (turn WakeDeadline (turn (WakeHandoff (HandedOff identity 0)) (turn WakeSend (publishing_start r)))).

(** Every unanswered attempt leaves its mailbox registered with the session:
    they add up while the connection lasts. *)
Theorem unanswered_mailboxes_kept frame n r :
  encode_client (ClientEvent (pa_event attempt)) = Ok frame → rt_acknowledgements r !! ev_id (pa_event attempt) = None →
  default [] (rt_acknowledgements (Nat.iter n unanswered r) !! ev_id (pa_event attempt)) =
    seq (length (rt_ack_boxes r)) n.
Proof.
  intros Henc Hnone.
  cut (default [] (rt_acknowledgements (Nat.iter n unanswered r) !! ev_id (pa_event attempt)) =
         seq (length (rt_ack_boxes r)) n ∧
       length (rt_ack_boxes (Nat.iter n unanswered r)) = length (rt_ack_boxes r) + n); [by intros []|].
  induction n as [|n [IHa IHb]]; [cbn; rewrite Hnone; split; [done|lia]|]. cbn [Nat.iter nat_rect].
  change (nat_rect (λ _, Router) r (λ _, unanswered) n) with (Nat.iter n unanswered r).
  set (r1 := Nat.iter n unanswered r) in *.
  assert (unanswered r1 = (await_acknowledgement (ev_id (pa_event attempt)) r1).2) as ->.
  { unfold unanswered, publishing_turn, publish_turn, publish_start, encoded. cbn. by rewrite Henc. }
  cbn. rewrite lookup_insert_eq, length_app. cbn. rewrite IHa, IHb. split; [|lia].
  exact (eq_sym (seq_S n (length (rt_ack_boxes r)))).
Qed.
End deadline.

(** ** Sending without end *)

Section resend.
Context `{Wire} (debug_failure : TransportFailure → string) (debug_handoff : HandoffOutcome → string).
Context (attempt : PublishAttempt) (identity : RelaySessionIdentity) (account : PublicKey).
Local Abbreviation event := (pa_event attempt).

(** One round: the event is sent, handed off, refused, and the wait is over. *)
Definition round (text : string) (p : Publishing) : Publishing :=
  let turn := publishing_turn debug_failure debug_handoff attempt identity in
  turn WakeConnection (turn WakeAcknowledgement (publishing_call (CallDeliver (MsgOk (ev_id event) false text))
    (turn (WakeHandoff (HandedOff identity 0)) (turn WakeSend p)))).

Definition resending (p : Publishing) : Prop :=
  pb_state p = PublishSend ∧ arrived (cc_last (rt_cell (pb_router p))) account = true ∧
  rt_acknowledgements (pb_router p) !! ev_id event = None.

Lemma round_resends text frame p :
  pa_authority attempt = As account → encode_client (ClientEvent event) = Ok frame →
  String.prefix AUTH_REQUIRED (cut text) = true → resending p →
  resending (round text p) ∧ pb_sent (round text p) = 1 + pb_sent p.
Proof.
  intros Hau Henc Hpre (Hst & Harr & Hacks). destruct p as [st r heard sent arrivals boxes]. cbn in Hst, Harr, Hacks. subst st.
  set (b := length (rt_ack_boxes r)). set (r1 := (await_acknowledgement (ev_id event) r).2).
  set (p0 := mkPublishing PublishSend r heard sent arrivals boxes).
  assert (publishing_turn debug_failure debug_handoff attempt identity WakeSend p0 =
    mkPublishing (PublishHandoff b) r1 [] (1 + sent) arrivals (boxes ++ [b])) as Hsend.
  { unfold publishing_turn, publish_turn, publish_start, encoded. cbn. by rewrite Henc. }
  unfold round. rewrite Hsend. set (h := mkRoutedAcknowledgement (ev_id event) b).
  set (message := MsgOk (ev_id event) false text). set (r2 := deliver message r1).
  change (publishing_call (CallDeliver message) _) with
    (mkPublishing (PublishAwait h) r2 [message] (1 + sent) arrivals (boxes ++ [b])).
  assert (∃ r3, settled h r2 = (Some (settlement message), r3) ∧ rt_cell r3 = rt_cell r ∧
    rt_acknowledgements r3 !! ev_id event = None) as (r3 & Hset & Hcell & Hgone).
  { unfold settled, r2, r1, h, message. cbn. rewrite Hacks. cbn. rewrite lookup_insert_eq. cbn.
    rewrite list_lookup_alter_eq, lookup_app_r, Nat.sub_diag by lia. cbn. eexists. split; [done|].
    unfold release_acknowledgement. cbn. rewrite lookup_insert_eq. cbn. rewrite bool_decide_eq_true_2 by done. cbn.
    split; [done|]. apply lookup_delete_eq. }
  assert (publishing_turn debug_failure debug_handoff attempt identity WakeAcknowledgement
      (mkPublishing (PublishAwait h) r2 [message] (1 + sent) arrivals (boxes ++ [b])) =
    mkPublishing (PublishAuth (cut text) account) r3 [message] (1 + sent) arrivals (boxes ++ [b])) as ->.
  { unfold publishing_turn, publish_turn. cbn [pb_state pb_router]. rewrite Hset.
    unfold publish_settled, message. cbn [settlement]. fold (cut text). by rewrite Hpre, Hau. }
  unfold publishing_turn, publish_turn, wait_for_authentication. cbn [pb_state pb_router]. rewrite Hcell, Harr. cbn.
  split; [|done]. split_and!; cbn; [done|by rewrite Hcell|done].
Qed.

(** A relay that keeps refusing an event for want of authentication, on a
    connection already established as the account, is sent the event without end:
    neither the attempt nor its caller bounds the rounds. *)
Theorem resend_unbounded text frame p n :
  pa_authority attempt = As account → encode_client (ClientEvent event) = Ok frame →
  String.prefix AUTH_REQUIRED (cut text) = true → resending p →
  let p' := Nat.iter n (round text) p in pb_state p' = PublishSend ∧ pb_sent p' = n + pb_sent p.
Proof.
  intros Hau Henc Hpre Hp.
  assert (resending (Nat.iter n (round text) p) ∧ pb_sent (Nat.iter n (round text) p) = n + pb_sent p) as [[? _] ?]; [|done].
  induction n as [|n [IHr IHs]]; [done|]. destruct (round_resends text frame (Nat.iter n (round text) p)) as [Hr Hs]; [done..|].
  split; [exact Hr|]. cbn [Nat.iter nat_rect]. etrans; [exact Hs|]. rewrite IHs. done.
Qed.
End resend.

(** ** A write of an account *)

Module PublisherWitness.
Local Existing Instance TransportWitness.wire | 0.

Definition attempt : PublishAttempt := mkAttempt 1 1 1 1 "wss://relay.example" (As 3) TransportWitness.note 5.
Definition router : Router := Router_new TransportWitness.connection.
Definition turn : PublishWake → Publishing → Publishing :=
  publishing_turn (λ _, "failed") (λ _, "refused") attempt TransportWitness.identity.

(** The relay wants authentication, gets it, and takes the event. *)
Definition said (message : RelayMessage) : Publishing → Publishing := publishing_call (CallDeliver message).
Definition waiting : Publishing :=
  turn WakeAcknowledgement (said (MsgOk 7 false "auth-required: who are you")
    (turn (WakeHandoff (HandedOff TransportWitness.identity 0)) (turn WakeSend (publishing_start router)))).
Definition known : Publishing :=
  publishing_call (CallMoved (set_authentication (mkAuthentication (Some 3%N) Idle))) waiting.
Definition accepted : Publishing :=
  turn WakeAcknowledgement (said (MsgOk 7 true "thanks")
    (turn (WakeHandoff (HandedOff TransportWitness.identity 1)) (turn WakeSend (turn WakeConnection known)))).

Lemma publisher_honest_witness :
  pb_state accepted = PublishDone (PublishAcknowledged "thanks") ∧ pb_sent accepted = 2 ∧
  (∃ text, MsgOk 7 true text ∈ pb_heard accepted ∧ "thanks" = cut text).
Proof.
  split; [by vm_compute|]. split; [by vm_compute|].
  assert (rtc (publish_step (λ _, "failed") (λ _, "refused") attempt TransportWitness.identity) (publishing_start router) accepted)
    as Hrun.
  { unfold accepted, known, waiting, said, turn.
    repeat first [apply rtc_refl | eapply rtc_r; [|apply publish_turns] | eapply rtc_r; [|by apply publish_called]]. }
  exact (proj1 (proj1 (publisher_honest (λ _, "failed") (λ _, "refused") attempt TransportWitness.identity router accepted
    (Router_new_ok TransportWitness.connection eq_refl) Hrun) (PublishAcknowledged "thanks") eq_refl)).
Defined.
End PublisherWitness.
