(* ===== verification/Groups.v ===== *)
(** * Groups on relays ([crates/fava-simple-groups])

    - [simple_group.rs], [query.rs]: the queries a group composes and the context
      it gives an event builder.
    - [records.rs], [metadata.rs], [people.rs], [pins.rs]: the decoders of the
      state events a relay publishes for a group (kinds 39000 to 39005).
    - [management.rs]: the events that ask the relay to change a group.

    The key of a one-letter tag is the code of its letter. *)

From Stdlib Require Import Ascii.
From S2P Require Import Prelude Nostr Relay State Write Query Evaluator Edits SavedGroups.

(** ** State events ([query.rs], [records.rs]) *)

Inductive SimpleGroupStateEventKind :=
| Metadata | Admins | Members | Roles | LivekitParticipants | Pins.

Definition ALL : list SimpleGroupStateEventKind := [Metadata; Admins; Members; Roles; LivekitParticipants; Pins].

Definition kind_of_state (value : SimpleGroupStateEventKind) : Kind :=
  match value with
  | Metadata => 39000 | Admins => 39001 | Members => 39002
  | Roles => 39003 | LivekitParticipants => 39004 | Pins => 39005
  end%N.

Definition state_of_kind (value : Kind) : result Kind SimpleGroupStateEventKind :=
  if bool_decide (value = 39000%N) then Ok Metadata
  else if bool_decide (value = 39001%N) then Ok Admins
  else if bool_decide (value = 39002%N) then Ok Members
  else if bool_decide (value = 39003%N) then Ok Roles
  else if bool_decide (value = 39004%N) then Ok LivekitParticipants
  else if bool_decide (value = 39005%N) then Ok Pins
  else Err value.

Definition saved_group_lists (authors : list PublicKey) : Query := Query.authors (kinds events [10009%N]) authors.

Inductive SimpleGroupDecodeError :=
| GroupWrongEventKind (expected actual : Kind)
| MissingIdentifierTag
| GroupMissingTagValue (tag_index value_index : nat)
| InvalidLivekitParticipantPublicKey (tag_index value_index : nat).

Definition enumerate {A} (l : list A) : list (nat * A) := zip (seq 0 (length l)) l.

Definition named (name : string) (tag : Tag) : bool := bool_decide (head tag = Some name).

Definition required_value (values : list string) (tag_index value_index : nat) : result SimpleGroupDecodeError string :=
  match values !! value_index with
  | Some value => Ok value
  | None => Err (GroupMissingTagValue tag_index value_index)
  end.

Definition state_event (event : EventValue) (expected : Kind)
    : result SimpleGroupDecodeError (string * PublicKey * list Tag) :=
  let actual := value_kind event in
  if bool_decide (actual ≠ expected) then Err (GroupWrongEventKind expected actual)
  else
    let tags := value_tags event in
    match List.find (λ entry : nat * Tag, named "d" entry.2) (enumerate tags) with
    | None => Err MissingIdentifierTag
    | Some (tag_index, tag) =>
        id ← required_value tag tag_index 1;
        Ok (id, value_author event, tags)
    end.

(** ** Metadata ([metadata.rs]) *)

Record SimpleGroupMetadata := mkMetadata {
  gm_id : string;
  gm_author : PublicKey;
  gm_name : option string;
  gm_picture : option string;
  gm_banner : option string;
  gm_about : option string;
  gm_private : bool;
  gm_restricted : bool;
  gm_hidden : bool;
  gm_closed : bool;
  gm_livekit : bool;
  gm_supported_kinds : option (list string);
  gm_parent : option string;
  gm_children : list (result SimpleGroupDecodeError string)
}.

Definition empty_metadata (id : string) (author : PublicKey) : SimpleGroupMetadata :=
  mkMetadata id author None None None None false false false false false None None [].

Definition set_first (target candidate : option string) : option string :=
  match target with None => candidate | Some _ => target end.

(** The body of the loop of [from_event]. *)
Definition read_metadata (v : SimpleGroupMetadata) (entry : nat * Tag) : SimpleGroupMetadata :=
  let '(tag_index, values) := entry in
  let '(mkMetadata id author name picture banner about private restricted hidden closed livekit kinds parent children) := v in
  let value := values !! 1 in
  if named "name" values then mkMetadata id author (set_first name value) picture banner about private restricted hidden closed livekit kinds parent children
  else if named "picture" values then mkMetadata id author name (set_first picture value) banner about private restricted hidden closed livekit kinds parent children
  else if named "banner" values then mkMetadata id author name picture (set_first banner value) about private restricted hidden closed livekit kinds parent children
  else if named "about" values then mkMetadata id author name picture banner (set_first about value) private restricted hidden closed livekit kinds parent children
  else if named "private" values then mkMetadata id author name picture banner about true restricted hidden closed livekit kinds parent children
  else if named "restricted" values then mkMetadata id author name picture banner about private true hidden closed livekit kinds parent children
  else if named "hidden" values then mkMetadata id author name picture banner about private restricted true closed livekit kinds parent children
  else if named "closed" values then mkMetadata id author name picture banner about private restricted hidden true livekit kinds parent children
  else if named "livekit" values then mkMetadata id author name picture banner about private restricted hidden closed true kinds parent children
  else if named "supported_kinds" values && bool_decide (kinds = None)
  then mkMetadata id author name picture banner about private restricted hidden closed livekit (Some (drop 1 values)) parent children
  else if named "parent" values then mkMetadata id author name picture banner about private restricted hidden closed livekit kinds (set_first parent value) children
  else if named "child" values
  then mkMetadata id author name picture banner about private restricted hidden closed livekit kinds parent
         (children ++ [required_value values tag_index 1])
  else v.

Definition SimpleGroupMetadata_from_event (event : EventValue) : result SimpleGroupDecodeError SimpleGroupMetadata :=
  '(id, author, tags) ← state_event event 39000%N;
  Ok (fold_left read_metadata (enumerate tags) (empty_metadata id author)).

(** ** People and pins ([people.rs], [pins.rs]) *)

Record SimpleGroupAdmins := mkAdmins {
  gd_id : string; gd_author : PublicKey;
  gd_admins : list (result SimpleGroupDecodeError (string * list string))
}.
Record SimpleGroupMembers := mkMembers {
  gb_id : string; gb_author : PublicKey;
  gb_members : list (result SimpleGroupDecodeError string)
}.
Record SimpleGroupRoles := mkRoles {
  gr_id : string; gr_author : PublicKey;
  gr_roles : list (result SimpleGroupDecodeError (string * option string))
}.
Record SimpleGroupLivekitParticipants := mkParticipants {
  gl_id : string; gl_author : PublicKey;
  gl_participants : list (result SimpleGroupDecodeError PublicKey)
}.
Record SimpleGroupPins := mkPins {
  gp_id : string; gp_author : PublicKey;
  gp_pins : list (result SimpleGroupDecodeError Tag)
}.

(** [enumerate().filter().map()] over the tags. *)
Definition read_tags {A} (wanted : Tag → bool) (parse : list string → nat → A) (tags : list Tag) : list A :=
  (λ entry : nat * Tag, parse entry.2 entry.1) <$> List.filter (λ entry : nat * Tag, wanted entry.2) (enumerate tags).

Definition parse_admin (values : list string) (tag_index : nat) : result SimpleGroupDecodeError (string * list string) :=
  key ← required_value values tag_index 1;
  _ ← required_value values tag_index 2;
  Ok (key, drop 2 values).

Definition parse_role (values : list string) (tag_index : nat) : result SimpleGroupDecodeError (string * option string) :=
  name ← required_value values tag_index 1;
  Ok (name, values !! 2).

Definition parse_pin (tag : Tag) (tag_index : nat) : result SimpleGroupDecodeError Tag :=
  _ ← required_value tag tag_index 1;
  Ok tag.

Definition SimpleGroupAdmins_from_event (event : EventValue) : result SimpleGroupDecodeError SimpleGroupAdmins :=
  '(id, author, tags) ← state_event event 39001%N;
  Ok (mkAdmins id author (read_tags (named "p") parse_admin tags)).

Definition SimpleGroupMembers_from_event (event : EventValue) : result SimpleGroupDecodeError SimpleGroupMembers :=
  '(id, author, tags) ← state_event event 39002%N;
  Ok (mkMembers id author (read_tags (named "p") (λ values index, required_value values index 1) tags)).

Definition SimpleGroupRoles_from_event (event : EventValue) : result SimpleGroupDecodeError SimpleGroupRoles :=
  '(id, author, tags) ← state_event event 39003%N;
  Ok (mkRoles id author (read_tags (named "role") parse_role tags)).

Definition SimpleGroupPins_from_event (event : EventValue) : result SimpleGroupDecodeError SimpleGroupPins :=
  '(id, author, tags) ← state_event event 39005%N;
  Ok (mkPins id author (read_tags (λ tag, named "e" tag || named "a" tag) parse_pin tags)).

(** ** Queries ([simple_group.rs]) *)

Definition group_tag : SingleLetterTag := N_of_ascii "h".
Definition identifier_tag : SingleLetterTag := N_of_ascii "d".

Definition group_events (group : SimpleGroup) (selection : Query) : result QueryError Query :=
  from_relays (intersect_tag_values selection group_tag [sg_id group]) (sg_relays group).

Definition meta_events (group : SimpleGroup) (over : list SimpleGroupStateEventKind) : result QueryError Query :=
  only_from_relays (tag_values (kinds events (kind_of_state <$> over)) identifier_tag [sg_id group]) (sg_relays group).

Definition exact_group_tag (tag : Tag) (id : string) : bool := bool_decide (tag = ["h"%string; id]).

Section groups.
Context `{Nostr} `{NostrBytes}.

(** [str::to_lowercase] on ASCII; a key in hexadecimal is nothing else. *)
Definition ascii_lower (c : ascii) : ascii :=
  let n := N_of_ascii c in if (bool_decide (65 ≤ n)%N && bool_decide (n ≤ 90)%N) then ascii_of_N (n + 32) else c.
Fixpoint lowercase (s : string) : string :=
  match s with EmptyString => EmptyString | String.String c s => String.String (ascii_lower c) (lowercase s) end.

Definition parse_livekit_key (values : list string) (tag_index : nat) : result SimpleGroupDecodeError PublicKey :=
  raw ← required_value values tag_index 1;
  if bool_decide (raw ≠ lowercase raw) then Err (InvalidLivekitParticipantPublicKey tag_index 1)
  else match public_key_from_hex raw with
       | Some key => Ok key
       | None => Err (InvalidLivekitParticipantPublicKey tag_index 1)
       end.

Definition SimpleGroupLivekitParticipants_from_event (event : EventValue)
    : result SimpleGroupDecodeError SimpleGroupLivekitParticipants :=
  '(id, author, tags) ← state_event event 39004%N;
  Ok (mkParticipants id author (read_tags (named "participant") parse_livekit_key tags)).

(** ** Events of a group ([simple_group.rs]) *)

(** [simple_group]; the [expect] on the tag would panic. *)
Definition simple_group (group : SimpleGroup) (b : EventBuilder) : outcome (result WriteIntentError EventBuilder) :=
  match tag_parse ["h"%string; sg_id group] with
  | Err _ => Panicked
  | Ok tag =>
      Returned (match builder_to_relays (sg_relays group) b with
                | Err error => Err error
                | Ok b => if existsb (λ existing, exact_group_tag existing (sg_id group)) (eb_tags b) then Ok b
                          else Ok (builder_tag tag b)
                end)
  end.

(** ** Management ([management.rs]) *)

Definition KIND_PUT_USER : Kind := 9000.
Definition KIND_REMOVE_USER : Kind := 9001.
Definition KIND_EDIT_METADATA : Kind := 9002.
Definition KIND_DELETE_EVENT : Kind := 9005.
Definition KIND_CREATE_GROUP : Kind := 9007.
Definition KIND_DELETE_GROUP : Kind := 9008.
Definition KIND_INVITE : Kind := 9009.
Definition KIND_JOIN_REQUEST : Kind := 9021.
Definition KIND_LEAVE_GROUP : Kind := 9022.

Inductive GroupVisibility := Public | Private.
Inductive GroupAccess := OpenAccess | ClosedAccess.

Record MetadataEdit := mkMetadataEdit {
  me_name : option string;
  me_about : option string;
  me_picture : option string;
  me_visibility : option GroupVisibility;
  me_access : option GroupAccess;
  me_supported_kinds : option (list Kind)
}.

(** [build]. *)
Definition build_group (now : Timestamp) (kind : Kind) (group : SimpleGroup) (extra : list Tag)
    : result WriteIntentError EventBuilder :=
  h_tag ← parsed_tag ["h"%string; sg_id group];
  builder_to_relays (sg_relays group) (builder_tags (h_tag :: extra) (EventBuilder_new now kind)).

(** [push] of an optional tag. *)
Definition push_some (tags : list Tag) (value : option (list string)) : result WriteIntentError (list Tag) :=
  match value with
  | None => Ok tags
  | Some values => tag ← parsed_tag values; Ok (tags ++ [tag])
  end.

Fixpoint collect_tags (l : list (list string)) : result WriteIntentError (list Tag) :=
  match l with
  | [] => Ok []
  | values :: l => tag ← parsed_tag values; tags ← collect_tags l; Ok (tag :: tags)
  end.

Definition create_group now group := build_group now KIND_CREATE_GROUP group [].

(** The tags [edit_metadata] adds. *)
Definition metadata_tags (edit : MetadataEdit) : result WriteIntentError (list Tag) :=
  extra ← push_some [] ((λ name, ["name"%string; name]) <$> me_name edit);
  extra ← push_some extra ((λ about, ["about"%string; about]) <$> me_about edit);
  extra ← push_some extra ((λ picture, ["picture"%string; picture]) <$> me_picture edit);
  extra ← push_some extra (match me_visibility edit with Some Private => Some ["private"%string] | _ => None end);
  extra ← push_some extra (match me_access edit with Some ClosedAccess => Some ["closed"%string] | _ => None end);
  push_some extra ((λ kinds, "supported_kinds"%string :: (pretty <$> kinds)) <$> me_supported_kinds edit).

Definition edit_metadata (now : Timestamp) (group : SimpleGroup) (edit : MetadataEdit) : result WriteIntentError EventBuilder :=
  extra ← metadata_tags edit;
  build_group now KIND_EDIT_METADATA group extra.

Definition invite (now : Timestamp) (group : SimpleGroup) (code : string) : result WriteIntentError EventBuilder :=
  code_tag ← parsed_tag ["code"%string; code];
  build_group now KIND_INVITE group [code_tag].

Definition join_request (now : Timestamp) (group : SimpleGroup) (code : option string) : result WriteIntentError EventBuilder :=
  extra ← push_some [] ((λ code, ["code"%string; code]) <$> code);
  build_group now KIND_JOIN_REQUEST group extra.

Definition put_user (now : Timestamp) (group : SimpleGroup) (users : list PublicKey) (roles : list string)
    : result WriteIntentError EventBuilder :=
  p_tags ← collect_tags ((λ user, "p"%string :: public_key_to_hex user :: roles) <$> users);
  build_group now KIND_PUT_USER group p_tags.

Definition remove_user (now : Timestamp) (group : SimpleGroup) (users : list PublicKey) : result WriteIntentError EventBuilder :=
  p_tags ← collect_tags ((λ user, ["p"%string; public_key_to_hex user]) <$> users);
  build_group now KIND_REMOVE_USER group p_tags.

Definition delete_event (now : Timestamp) (group : SimpleGroup) (event_id : EventId) : result WriteIntentError EventBuilder :=
  e_tag ← parsed_tag ["e"%string; event_id_to_hex event_id];
  build_group now KIND_DELETE_EVENT group [e_tag].

Definition delete_group now group := build_group now KIND_DELETE_GROUP group [].
Definition leave_group now group := build_group now KIND_LEAVE_GROUP group [].
End groups.

(** ** Properties *)

Section properties.
Context `{Hn : Nostr} `{Hb : NostrBytes} `{!NostrBytesLaws}.

Lemma group_tag_parsed name values : parsed_tag (name :: values) = Ok (name :: values).
Proof. unfold parsed_tag. by rewrite tag_parse_cons. Qed.

Lemma push_some_cons tags (value : option (list string)) :
  (∀ values, value = Some values → values ≠ []) → push_some tags value = Ok (tags ++ from_option (λ values, [values]) [] value).
Proof.
  intros Hne. destruct value as [[|name values]|]; cbn; [by destruct (Hne [])| |by rewrite app_nil_r].
  unfold parsed_tag. by rewrite tag_parse_cons.
Qed.

(** The tags an edit adds, as a list. *)
Definition edit_tags (edit : MetadataEdit) : list Tag :=
  from_option (λ name, [["name"%string; name]]) [] (me_name edit) ++
  from_option (λ about, [["about"%string; about]]) [] (me_about edit) ++
  from_option (λ picture, [["picture"%string; picture]]) [] (me_picture edit) ++
  (if match me_visibility edit with Some Private => true | _ => false end then [["private"%string]] else []) ++
  (if match me_access edit with Some ClosedAccess => true | _ => false end then [["closed"%string]] else []) ++
  from_option (λ kinds : list Kind, ["supported_kinds"%string :: (pretty <$> kinds)]) [] (me_supported_kinds edit).

Lemma metadata_tags_eq edit : metadata_tags edit = Ok (edit_tags edit).
Proof.
  unfold metadata_tags. destruct edit as [name about picture visibility access kinds]. cbn.
  rewrite push_some_cons by (by destruct name; intros ? [= <-]). cbn.
  rewrite push_some_cons by (by destruct about; intros ? [= <-]). cbn.
  rewrite push_some_cons by (by destruct picture; intros ? [= <-]). cbn.
  rewrite push_some_cons by (by destruct visibility as [[]|]; intros ? [= <-]). cbn.
  rewrite push_some_cons by (by destruct access as [[]|]; intros ? [= <-]). cbn.
  rewrite push_some_cons by (by destruct kinds; intros ? [= <-]). unfold edit_tags. cbn. f_equal.
  rewrite <- !app_assoc. destruct name, about, picture, visibility as [[]|], access as [[]|], kinds; reflexivity.
Qed.

Lemma normalized_distinct seen relays :
  NoDup (normalize_relays seen relays) ∧ ∀ r, r ∈ normalize_relays seen relays → r ∉ seen.
Proof.
  revert seen. induction relays as [|x relays IH]; intros seen; cbn; [split; [constructor|by intros r ?%not_elem_of_nil]|].
  case_bool_decide as Hx; [apply IH|]. destruct (IH ({[x]} ∪ seen)) as [Hnd Hout]. split.
  - constructor; [|done]. intros Hin. specialize (Hout x Hin). set_solver.
  - intros r [->|Hin]%elem_of_cons; [done|]. specialize (Hout r Hin). set_solver.
Qed.

Lemma new_group_ok id relays group :
  SimpleGroup_new id relays = Ok group → sg_id group = id ∧ NoDup (sg_relays group) ∧ sg_relays group ≠ [].
Proof.
  unfold SimpleGroup_new. repeat (case_bool_decide; cbn; [|done || idtac]); try done. intros [= <-]. cbn.
  split; [done|]. split; [apply normalized_distinct|]. destruct relays as [|r relays]; [done|]. cbn. by case_bool_decide.
Qed.

(** A management event: its kind, the group's tag first, and the group's relays. *)
Lemma build_group_Ok now kind group extra b :
  NoDup (sg_relays group) → sg_relays group ≠ [] → build_group now kind group extra = Ok b →
  eb_kind b = kind ∧ eb_tags b = ["h"%string; sg_id group] :: extra ∧ eb_routing b = Explicit (sg_relays group).
Proof.
  intros Hnd Hne. unfold build_group. rewrite group_tag_parsed. cbn. unfold builder_to_relays. cbn.
  destruct (append_relays Automatic 0 (sg_relays group)) as [[routing raw]|e] eqn:Ha; cbn; [|done]. intros [= <-]. cbn.
  apply (append_relays_Ok [] (sg_relays group)) in Ha as [He _]; [|cbn; unfold MAX_RAW_EXPLICIT_RELAYS, MAX_EXPLICIT_RELAYS; lia..].
  apply explicit_Ok_bounds in He as [-> _]. split; [done|]. split; [done|]. cbn. unfold routing_of.
  destruct (sg_relays group) as [|r l] eqn:Hl; [done|]. rewrite <- Hl in *. f_equal. by apply first_occurrences_NoDup.
Qed.

(** What [edit_metadata] asks for is what the metadata decoder reads back: the
    event is of kind 9002, tagged with the group and sent to exactly its relays,
    and when the relay publishes its other tags as the group's state, decoding
    gives the requested name, description, picture, flags and kinds, and nothing
    that was not asked for. *)
Theorem group_metadata_roundtrip id relays group now edit b :
  SimpleGroup_new id relays = Ok group → edit_metadata now group edit = Ok b →
  eb_kind b = KIND_EDIT_METADATA ∧ eb_routing b = Explicit (sg_relays group) ∧
  ∃ extra, eb_tags b = ["h"%string; id] :: extra ∧
    ∀ author created_at content,
      SimpleGroupMetadata_from_event
        (Unsigned (mkUnsigned None author created_at 39000 (["d"%string; id] :: extra) content)) =
      Ok (mkMetadata id author (me_name edit) (me_picture edit) None (me_about edit)
            (match me_visibility edit with Some Private => true | _ => false end) false false
            (match me_access edit with Some ClosedAccess => true | _ => false end) false
            ((λ kinds : list Kind, pretty <$> kinds) <$> me_supported_kinds edit) None []).
Proof.
  intros (<- & Hnd & Hne)%new_group_ok. unfold edit_metadata. rewrite metadata_tags_eq. cbn [mbind result_bind].
  intros (Hk & Ht & Hr)%build_group_Ok; [|done..]. split; [done|]. split; [done|]. exists (edit_tags edit). split; [done|].
  intros author created_at content. unfold SimpleGroupMetadata_from_event, state_event. cbn.
  destruct edit as [name about picture visibility access kinds].
  by destruct name, about, picture, visibility as [[]|], access as [[]|], kinds.
Qed.

Lemma forallb_entries_true {V} (f : SingleLetterTag * V → bool) (m : gmap SingleLetterTag V) :
  forallb f (entries m) = true ↔ ∀ k v, m !! k = Some v → f (k, v) = true.
Proof.
  rewrite forallb_forall. split.
  - intros Hall k v Hk. apply Hall, list_elem_of_In. by apply elem_of_entries.
  - intros Hall [k v] Hin%list_elem_of_In. apply Hall. by apply elem_of_entries.
Qed.

Lemma tag_matches_narrow tags key accepted given :
  tag_matches tags key (accepted ∩ given) = true → tag_matches tags key accepted = true ∧ tag_matches tags key given = true.
Proof.
  unfold tag_matches. rewrite !existsb_exists. intros (tag & Hin & [Hkey Hv]%andb_true_iff).
  destruct (tag_content tag) as [value|] eqn:Hc; [|done]. apply bool_decide_eq_true in Hv as [Ha Hg]%elem_of_intersection.
  split; exists tag; (split; [done|]); rewrite Hkey, Hc; by rewrite bool_decide_eq_true_2.
Qed.

(** A query composed with a group asks exactly the group's relays, only ever
    answers events of the group, and on an open tag axis answers all of them that
    the query selects. *)
Theorem group_events_exact group q q' :
  group_events group q = Ok q' →
  q_source q' = mkPolicy (AcquireExplicit (list_to_set (sg_relays group))) AnyLocal ∧
  (∀ r, matches_selection (q_selection q') r = true →
     matches_selection (q_selection q) r = true ∧ tag_matches (value_tags (er_event r)) group_tag {[sg_id group]} = true) ∧
  (fs_tag_values (q_selection q) !! group_tag = None → ∀ r,
     matches_selection (q_selection q) r = true → tag_matches (value_tags (er_event r)) group_tag {[sg_id group]} = true →
     matches_selection (q_selection q') r = true).
Proof.
  assert (list_to_set [sg_id group] = ({[sg_id group]} : gset string)) as Hone by set_solver.
  unfold group_events, from_relays, non_empty_relays, intersect_tag_values. rewrite Hone.
  case_bool_decide; cbn -[narrow_tag group_tag]; [done|]. intros [= <-]. cbn -[narrow_tag group_tag].
  split; [done|]. unfold matches_selection. cbn -[narrow_tag group_tag]. split.
  - intros r [Hrest Htags]%andb_true_iff. rewrite Hrest. cbn -[group_tag narrow_tag]. rewrite forallb_entries_true in Htags. unfold narrow_tag in Htags.
    pose proof (Htags group_tag _ (lookup_insert_eq _ _ _)) as Hgroup. cbn -[narrow_axis group_tag] in Hgroup.
    assert (tag_matches (value_tags (er_event r)) group_tag {[sg_id group]} = true) as Hid.
    { unfold narrow_axis in Hgroup. destruct (fs_tag_values (q_selection q) !! group_tag); [|done].
      by apply tag_matches_narrow in Hgroup as []. }
    split; [|done]. apply forallb_entries_true. intros k v Hk. destruct (decide (k = group_tag)) as [->|Hk'].
    + unfold narrow_axis in Hgroup. rewrite Hk in Hgroup. by apply tag_matches_narrow in Hgroup as [].
    + specialize (Htags k v). rewrite lookup_insert_ne in Htags by done. auto.
  - intros Hnone r [Hrest Htags]%andb_true_iff Hid. rewrite Hrest. cbn -[group_tag narrow_tag]. rewrite forallb_entries_true in *.
    intros k v. unfold narrow_tag, narrow_axis. rewrite lookup_insert_Some, Hnone. intros [[<- <-]|[_ Hk]]; [done|auto].
Qed.

(** Giving a builder a group's context twice changes nothing the second time but
    the count of relay inputs, and never disturbs the tags already there. *)
Theorem simple_group_context group b b' :
  simple_group group b = Returned (Ok b') →
  ["h"%string; sg_id group] ∈ eb_tags b' ∧
  (eb_tags b' = eb_tags b ∨ eb_tags b' = eb_tags b ++ [["h"%string; sg_id group]]) ∧
  ∀ b'', simple_group group b' = Returned (Ok b'') → eb_tags b'' = eb_tags b'.
Proof.
  assert (∀ b1 b2, builder_to_relays (sg_relays group) b1 = Ok b2 → eb_tags b2 = eb_tags b1) as Htags.
  { intros b1 b2. unfold builder_to_relays. destruct (append_relays _ _ _) as [[? ?]|]; [|done]. by intros [= <-]. }
  assert (∀ l, existsb (λ existing, exact_group_tag existing (sg_id group)) l = true ↔ ["h"%string; sg_id group] ∈ l) as Hex.
  { intros l. rewrite existsb_exists. unfold exact_group_tag. split.
    - intros (tag & Hin & ->%bool_decide_eq_true). by apply list_elem_of_In.
    - intros Hin. eexists. split; [by apply list_elem_of_In|]. by apply bool_decide_eq_true_2. }
  unfold simple_group. rewrite tag_parse_cons. intros [= Hres].
  destruct (builder_to_relays (sg_relays group) b) as [b1|e] eqn:Hb1; [|done]. apply Htags in Hb1.
  assert (["h"%string; sg_id group] ∈ eb_tags b' ∧
    (eb_tags b' = eb_tags b ∨ eb_tags b' = eb_tags b ++ [["h"%string; sg_id group]])) as [Hin Hor].
  { destruct (existsb _ (eb_tags b1)) eqn:He; injection Hres as <-; [apply Hex in He; rewrite <- Hb1; auto|].
    cbn. rewrite Hb1. split; [set_solver|by right]. }
  split; [done|]. split; [done|]. intros b''. intros [= Hres2].
  destruct (builder_to_relays (sg_relays group) b') as [b2|e] eqn:Hb2; [|done]. apply Htags in Hb2.
  rewrite <- Hb2 in Hin. apply Hex in Hin. rewrite Hin in Hres2. by injection Hres2 as <-.
Qed.

Lemma state_kind_roundtrip k : state_of_kind (kind_of_state k) = Ok k.
Proof. by destruct k. Qed.
End properties.

(** ** A concrete group *)

Module GroupsWitness.
Import EditSample.

Definition cats : SimpleGroup := mkGroup "cats" ["wss://a"%string; "wss://b"%string].
Definition change : MetadataEdit :=
  mkMetadataEdit (Some "Cats"%string) None (Some "https://cats"%string) (Some Private) None (Some [1%N; 30023%N; 1%N]).
Definition built : EventBuilder :=
  mkBuilder KIND_EDIT_METADATA 5 "" (["h"%string; "cats"%string] :: edit_tags change)
    (Explicit ["wss://a"%string; "wss://b"%string]) 2.

Lemma change_built : edit_metadata 5 cats change = Ok built.
Proof.
  unfold edit_metadata, build_group, builder_to_relays. rewrite metadata_tags_eq. cbn [mbind result_bind].
  rewrite group_tag_parsed. cbn [mbind result_bind builder_tags EventBuilder_new eb_routing eb_raw_routing_inputs].
  pose proof (proj2 (append_relays_Ok [] (sg_relays cats) (Explicit ["wss://a"%string; "wss://b"%string]) 2
    (Nat.le_0_l _) (Nat.le_0_l _)) (conj eq_refl eq_refl)) as Hroute. cbn [routing_of length] in Hroute. by rewrite Hroute.
Qed.

Lemma group_metadata_roundtrip_witness :
  eb_kind built = KIND_EDIT_METADATA ∧ eb_routing built = Explicit ["wss://a"%string; "wss://b"%string] ∧
  ∃ extra, eb_tags built = ["h"%string; "cats"%string] :: extra ∧
    ∀ author created_at content,
      SimpleGroupMetadata_from_event
        (Unsigned (mkUnsigned None author created_at 39000 (["d"%string; "cats"%string] :: extra) content)) =
      Ok (mkMetadata "cats" author (Some "Cats"%string) (Some "https://cats"%string) None None true false false false false
            ((λ kinds : list Kind, pretty <$> kinds) <$> me_supported_kinds change) None []).
Proof.
  assert (SimpleGroup_new "cats" ["wss://a"%string; "wss://b"%string; "wss://a"%string] = Ok cats) as Hnew by (vm_compute; reflexivity).
  destruct (group_metadata_roundtrip "cats" _ cats 5 change built Hnew change_built) as (Hk & Hr & extra & Ht & Hd).
  split; [exact Hk|]. split; [exact Hr|]. exists extra. split; [exact Ht|]. exact Hd.
Defined.
End GroupsWitness.
