(* ===== verification/Redb.v ===== *)
(** * The redb engine, as the durable providers use it

    Both durable providers ([crates/fava-event-cache-persistent],
    [crates/fava-write-store-redb]) keep one file with one table of encoded rows
    and one table [meta] of numbers.  redb is a dependency: [Redb] is the calls
    the providers make of it, for rows of one type under keys of one type, and [RedbLaws] is
    what they rely on: a write transaction takes effect as a whole or not at
    all, a reader sees what was committed.  Any call may fail; [engine_healthy]
    states that none does.  [Module RedbMedia] is one concrete engine, a file and
    the faults its next calls meet, used to evaluate examples. *)

From S2P Require Import Prelude.

(** What a write transaction does to the tables before it commits. *)
Inductive TableWrite (K V : Type) :=
| OpenRows
| OpenMeta
| InsertMeta (key : string) (value : N)
| InsertRow (key : K) (value : V)
| RemoveRow (key : K).
#[global] Arguments OpenRows {K V}.
#[global] Arguments OpenMeta {K V}.
#[global] Arguments InsertMeta {K V}.
#[global] Arguments InsertRow {K V}.
#[global] Arguments RemoveRow {K V}.

(** The redb file at one path and the calls on it.  The body of a write
    transaction is the list of its operations, or the error at which the caller
    drops the transaction. *)
Class Redb (K V : Type) `{Countable K} := {
  Disk : Type;
  path_exists : Disk → bool;
  database_create : Disk → result string unit * Disk;
  write_transaction : Disk → result string (list (TableWrite K V)) → result string unit * Disk;
  read_meta : Disk → string → result string (option N) * Disk;
  read_rows : Disk → result string (gmap K V) * Disk
}.

(** The committed tables; a table that was never opened for writing is absent. *)
Record Database (K V : Type) `{Countable K} := mkDatabase {
  db_rows : option (gmap K V);
  db_meta : option (gmap string N)
}.
#[global] Arguments mkDatabase {K V _ _}.
#[global] Arguments db_rows {K V _ _}.
#[global] Arguments db_meta {K V _ _}.

Definition table_write {K V} `{Countable K} (db : Database K V) (w : TableWrite K V) : Database K V :=
  match w with
  | OpenRows => mkDatabase (Some (default ∅ (db_rows db))) (db_meta db)
  | OpenMeta => mkDatabase (db_rows db) (Some (default ∅ (db_meta db)))
  | InsertMeta k v => mkDatabase (db_rows db) (<[k := v]> <$> db_meta db)
  | InsertRow k v => mkDatabase (<[k := v]> <$> db_rows db) (db_meta db)
  | RemoveRow k => mkDatabase (delete k <$> db_rows db) (db_meta db)
  end.

Class RedbLaws {K V} `{Redb K V} := {
  (** the committed content of the file, if there is one *)
  tables : Disk → option (Database K V);
  (** no call of the engine fails from here on *)
  engine_healthy : Disk → Prop;
  path_exists_tables d : path_exists d = true ↔ is_Some (tables d);
  create_ok d d' : database_create d = (Ok tt, d') →
    tables d' = Some (default (mkDatabase None None) (tables d));
  create_err d e d' : database_create d = (Err e, d') → tables d' = tables d;
  write_ok d body d' : write_transaction d body = (Ok tt, d') →
    ∃ ops, body = Ok ops ∧ tables d' = (λ db, foldl table_write db ops) <$> tables d;
  write_err d body e d' : write_transaction d body = (Err e, d') → tables d' = tables d;
  read_meta_ok d k v d' : read_meta d k = (Ok v, d') →
    ∃ db meta, tables d = Some db ∧ db_meta db = Some meta ∧ v = meta !! k;
  read_meta_same d k : tables (read_meta d k).2 = tables d;
  read_rows_ok d t d' : read_rows d = (Ok t, d') →
    ∃ db, tables d = Some db ∧ db_rows db = Some t;
  read_rows_same d : tables (read_rows d).2 = tables d;
  healthy_create d : engine_healthy d →
    is_ok (database_create d).1 = true ∧ engine_healthy (database_create d).2;
  healthy_write d body : engine_healthy d →
    is_ok (write_transaction d body).1 = is_ok body ∧ engine_healthy (write_transaction d body).2;
  healthy_meta d k db meta : engine_healthy d → tables d = Some db → db_meta db = Some meta →
    is_ok (read_meta d k).1 = true ∧ engine_healthy (read_meta d k).2;
  healthy_rows d db t : engine_healthy d → tables d = Some db → db_rows db = Some t →
    is_ok (read_rows d).1 = true ∧ engine_healthy (read_rows d).2
}.

Module RedbMedia.

(** ** A file and the faults of its next calls *)

Record Media (K V : Type) `{Countable K} := mkMedia {
  md_file : option (Database K V);
  md_faults : list (option string)
}.
#[global] Arguments mkMedia {K V _ _}.
#[global] Arguments md_file {K V _ _}.
#[global] Arguments md_faults {K V _ _}.

Section media.
Context {K V : Type} `{Countable K}.

Definition call (d : Media K V) : option string * Media K V :=
  match md_faults d with [] => (None, d) | f :: fs => (f, mkMedia (md_file d) fs) end.

Definition attempt {A} (d : Media K V) (run : Media K V → result string A * Media K V) : result string A * Media K V :=
  match call d with (Some e, d) => (Err e, d) | (None, d) => run d end.

Definition read_table {A B} (d : Media K V) (table : Database K V → option A) (f : A → B) : result string B * Media K V :=
  attempt d (λ d, match md_file d ≫= table with
                  | Some t => (Ok (f t), d)
                  | None => (Err "table does not exist"%string, d)
                  end).

#[export] Instance sample_redb : Redb K V := {|
  Disk := Media K V;
  path_exists := λ d, bool_decide (is_Some (md_file d));
  database_create := λ d,
    attempt d (λ d, (Ok tt, mkMedia (Some (default (mkDatabase None None) (md_file d))) (md_faults d)));
  write_transaction := λ d body,
    attempt d (λ d, match body with
                    | Ok ops => (Ok tt, mkMedia ((λ db, foldl table_write db ops) <$> md_file d) (md_faults d))
                    | Err e => (Err e, d)
                    end);
  read_meta := λ d k, read_table d db_meta (lookup k);
  read_rows := λ d, read_table d db_rows id
|}.

Lemma call_file d : md_file (call d).2 = md_file d.
Proof. unfold call. by destruct (md_faults d). Qed.

Lemma read_table_ok {A B} d (table : Database K V → option A) (f : A → B) b d' :
  read_table d table f = (Ok b, d') → ∃ db t, md_file d = Some db ∧ table db = Some t ∧ b = f t.
Proof.
  unfold read_table, attempt. pose proof (call_file d) as Hf. destruct (call d) as [[e|] d1]; [done|].
  simpl in Hf. rewrite Hf. destruct (md_file d) as [db|]; simpl; [|done].
  destruct (table db) as [t|] eqn:Ht; [|done]. intros [= <- _]. eauto.
Qed.

Lemma read_table_file {A B} d (table : Database K V → option A) (f : A → B) :
  md_file (read_table d table f).2 = md_file d.
Proof.
  unfold read_table, attempt. pose proof (call_file d) as Hf. destruct (call d) as [[e|] d1]; [done|].
  simpl in *. by case_match.
Qed.

Lemma read_table_healthy {A B} d (table : Database K V → option A) (f : A → B) db t :
  md_faults d = [] → md_file d = Some db → table db = Some t →
  read_table d table f = (Ok (f t), d).
Proof. intros Hf Hd Ht. unfold read_table, attempt, call. by rewrite Hf, Hd; simpl; rewrite Ht. Qed.

#[export] Instance sample_redb_laws : RedbLaws.
Proof.
  refine {| tables := (md_file : @Disk K V _ _ sample_redb → _);
            engine_healthy := λ d : @Disk K V _ _ sample_redb, md_faults d = [] |}; cbn.
  - intros d. apply bool_decide_eq_true.
  - intros d d'. unfold attempt. pose proof (call_file d) as Hf. destruct (call d) as [[e|] d1]; [done|].
    intros [= <-]. simpl in *. by rewrite Hf.
  - intros d e d'. unfold attempt. pose proof (call_file d) as Hf. destruct (call d) as [[e'|] d1]; [|done].
    by intros [= _ <-].
  - intros d body d'. unfold attempt. pose proof (call_file d) as Hf. destruct (call d) as [[e|] d1]; [done|].
    destruct body as [ops|e]; intros [= <-]. simpl in *. exists ops. by rewrite Hf.
  - intros d body e d'. unfold attempt. pose proof (call_file d) as Hf.
    destruct (call d) as [[e'|] d1]; [by intros [= _ <-]|]. destruct body; by intros [= _ <-].
  - intros d k v d' Hr. apply read_table_ok in Hr as (db & t & ? & ? & ->). eauto.
  - intros d k. apply read_table_file.
  - intros d t d' Hr. apply read_table_ok in Hr as (db & t' & ? & ? & ->). eauto.
  - intros d. apply read_table_file.
  - intros d Hd. unfold attempt, call. by rewrite Hd.
  - intros d body Hd. unfold attempt, call. rewrite Hd. by destruct body.
  - intros d k db meta Hh Hd Hm. by rewrite (read_table_healthy d db_meta (lookup k) db meta).
  - intros d db t Hh Hd Ht. by rewrite (read_table_healthy d db_rows id db t).
Defined.

End media.
End RedbMedia.
