(* ===== verification/PersistentCache.v ===== *)
(** * The durable event cache ([crates/fava-event-cache-persistent])

    [RedbEventCache] is the second provider of the [EventCache] contract: the
    bounded cache of [MemoryCache] over a redb file.  A batch is applied to a
    copy of the in-memory mirror while the inserted and removed contributions
    are listed; the lists are written to the table [events] in one transaction
    ([schema::apply_diff]) and only then does the mirror change; [open_bounded]
    rebuilds the mirror from the table.

    redb and serde_json are dependencies: [Redb] and [Serde] are the calls the
    crate makes of them, [RedbLaws] and [SerdeLaws] what it relies on (a write
    transaction takes effect as a whole or not at all, encodings decode to what
    was encoded).  Any engine call may fail; [engine_healthy] states that none does.
    The file shows that the provider discharges the contract, computes what
    [MemoryCache] computes, and that reopening recovers exactly the mirror, and
    where it does not. *)

From S2P Require Import Prelude Nostr Relay State Write Query EventCache MemoryCache Edits Redb.

(** ** The dependencies *)

Inductive PersistedAuthority := PersistedUnauthenticated | PersistedAs (hex : string).

Record PersistedEvent (J : Type) := mkPersisted {
  pe_event_json : J;
  pe_relay_url : string;
  pe_authority : PersistedAuthority;
  pe_observed_at : N
}.
#[global] Arguments mkPersisted {J}.
#[global] Arguments pe_event_json {J}.
#[global] Arguments pe_relay_url {J}.
#[global] Arguments pe_authority {J}.
#[global] Arguments pe_observed_at {J}.

(** [serde_json::{to_value, from_value, to_vec, from_slice}] at the types the
    schema uses, and the error texts of the two parsers of [nostr]. *)
Class Serde := {
  Json : Type;
  event_to_value : Event → result string Json;
  event_from_value : Json → result string Event;
  persisted_to_vec : PersistedEvent Json → result string string;
  persisted_from_slice : string → result string (PersistedEvent Json);
  relay_url_error : string → string;
  public_key_error : string → string
}.

Class SerdeLaws `{Serde} : Prop := {
  event_value_roundtrip e v : event_to_value e = Ok v → event_from_value v = Ok e;
  persisted_roundtrip p b : persisted_to_vec p = Ok b → persisted_from_slice b = Ok p;
  event_to_value_total e : is_ok (event_to_value e) = true;
  persisted_to_vec_total p : is_ok (persisted_to_vec p) = true
}.

(** ** The schema ([schema.rs]) *)

Definition SCHEMA_VERSION_KEY : string := "schema_version".
Definition SCHEMA_VERSION : N := 1.

Section schema.
Context `{Nostr} `{NostrBytes} `{Serde} `{!Redb string string}.

Definition composite_key (event_id : EventId) (session : RelayUrl) : string :=
  event_id_to_hex event_id +:+ ":" +:+ session.

Definition to_bytes (event : RelayEvent) : result string string :=
  event_json ← event_to_value (re_event event);
  persisted_to_vec
    (mkPersisted event_json (re_session event)
       (match oc_authority (re_occurrence event) with
        | Unauthenticated => PersistedUnauthenticated
        | As pk => PersistedAs (public_key_to_hex pk)
        end)
       (re_observed_at event)).

Definition from_bytes (data : string) : result string RelayEvent :=
  persisted ← persisted_from_slice data;
  event ← event_from_value (pe_event_json persisted);
  relay_url ← ok_or (relay_url_parse (pe_relay_url persisted)) (relay_url_error (pe_relay_url persisted));
  authority ←
    match pe_authority persisted with
    | PersistedUnauthenticated => Ok Unauthenticated
    | PersistedAs hex => As <$> ok_or (public_key_from_hex hex) (public_key_error hex)
    end;
  Ok (RelayEvent_new event relay_url authority (pe_observed_at persisted)).

Definition validate_schema (d : Disk) : result string unit * Disk :=
  let '(r, d) := read_meta d SCHEMA_VERSION_KEY in
  (version ← r;
   version ← ok_or version "event-cache schema version missing"%string;
   ensure (bool_decide (version = SCHEMA_VERSION))
     ("event-cache schema version " +:+ pretty version +:+ " != " +:+ pretty SCHEMA_VERSION), d).

Definition initialize (d : Disk) (is_new : bool) : result string unit * Disk :=
  if negb is_new then validate_schema d
  else write_transaction d (Ok [OpenRows; OpenMeta; InsertMeta SCHEMA_VERSION_KEY SCHEMA_VERSION]).

(** [for entry in table.iter()]. *)
Fixpoint load_entries (events : gmap (EventId * RelayUrl) RelayEvent) (l : list (string * string))
    : result string (gmap (EventId * RelayUrl) RelayEvent) :=
  match l with
  | [] => Ok events
  | entry :: l =>
      relay_event ← from_bytes entry.2;
      load_entries (<[(re_id relay_event, re_session relay_event) := relay_event]> events) l
  end.

Definition load (d : Disk) : result string (gmap (EventId * RelayUrl) RelayEvent) * Disk :=
  let '(r, d) := read_rows d in (table ← r; load_entries ∅ (entries table), d).

(** The operations of [apply_diff]'s transaction: insertions, then removals. *)
Definition insert_op (relay_event : RelayEvent) : result string (TableWrite string string) :=
  value ← to_bytes relay_event;
  Ok (InsertRow (composite_key (re_id relay_event) (re_session relay_event)) value).

Definition remove_op (key : EventId * RelayUrl) : TableWrite string string := RemoveRow (composite_key key.1 key.2).

Definition apply_diff (d : Disk) (inserted : list RelayEvent) (removed : list (EventId * RelayUrl))
    : result string unit * Disk :=
  if bool_decide (inserted = []) && bool_decide (removed = []) then (Ok tt, d)
  else
    write_transaction d
      (inserts ← collect_results (insert_op <$> inserted);
       Ok (OpenRows :: inserts ++ (remove_op <$> removed))).

End schema.

(** ** The cache ([lib.rs]) *)

(** The state behind the lock has the fields of [MemoryCache]'s. *)
Record RedbEventCache `{!Redb string string} := mkRedbCache {
  rc_capacity : nat;
  rc_database : Disk;
  rc_state : CacheState;
  rc_latest : SourceSnapshot
}.

Definition cache_snapshot (state : CacheState) : SourceSnapshot :=
  mkSnapshot EventCacheSource (cs_revision state) SourceOpen
    (SourceRelay <$> values (cs_events state)) (cs_retractions state).

(** The locals [apply] updates. *)
Record Work := mkWork {
  wk_events : gmap (EventId * RelayUrl) RelayEvent;
  wk_retractions : list SourceRetraction;
  wk_inserted : list RelayEvent;
  wk_removed : list (EventId * RelayUrl)
}.

Definition retract_one (w : Work) (event_id : EventId) (session : RelayUrl) (cause : RetractionCause) : Work :=
  match wk_events w !! (event_id, session) with
  | Some _ =>
      mkWork (delete (event_id, session) (wk_events w))
        (wk_retractions w ++ [mkRetraction event_id cause]) (wk_inserted w)
        (wk_removed w ++ [(event_id, session)])
  | None => w
  end.

(** [for mutation in mutations]. *)
Fixpoint retract_all (w : Work) (mutations : list EventStateMutation) : Work * list RelayEvent :=
  match mutations with
  | [] => (w, [])
  | Retract id session cause :: mutations => retract_all (retract_one w id session cause) mutations
  | Upsert incoming :: mutations =>
      let '(w', upserts) := retract_all w mutations in (w', incoming :: upserts)
  end.

Section cache.
Context `{Nostr} `{NostrBytes} `{Serde} `{!Redb string string}.

(** [next.events.insert(key, incoming.clone()); inserted.push(incoming)]. *)
Definition insert_one (w : Work) (incoming : RelayEvent) : Work :=
  mkWork (<[contribution_key incoming := incoming]> (wk_events w)) (wk_retractions w)
    (wk_inserted w ++ [incoming]) (wk_removed w).

Definition evict_one (w : Work) (evicted : EventId * RelayUrl) : Work :=
  mkWork (delete evicted (wk_events w)) (wk_retractions w ++ [mkRetraction evicted.1 Evicted])
    (wk_inserted w) (wk_removed w ++ [evicted]).

(** One iteration of [for incoming in upserts]. *)
Definition upsert_one (capacity : nat) (w : Work) (incoming : RelayEvent) : result EventCacheError Work :=
  match event_verify (re_event incoming) with
  | Some error => refused ("invalid signed event: " +:+ error)
  | None =>
      match wk_events w !! contribution_key incoming with
      | Some retained =>
          Ok (if bool_decide (re_observed_at incoming < re_observed_at retained)%N
              then insert_one w incoming else w)
      | None =>
          if bool_decide (capacity ≤ size (wk_events w)) then
            if bool_decide (ev_kind (re_event incoming) ≠ kind_event_deletion)
            then refused ("bounded event cache capacity " +:+ pretty capacity +:+ " reached")
            else
              evicted ← ok_or (eviction_candidate (wk_events w))
                (CacheRefused ("bounded event cache capacity " +:+ pretty capacity +:+ " holds only deletions"));
              Ok (insert_one (evict_one w evicted.1) incoming)
          else Ok (insert_one w incoming)
      end
  end.

Fixpoint upsert_all (capacity : nat) (w : Work) (upserts : list RelayEvent) : result EventCacheError Work :=
  match upserts with
  | [] => Ok w
  | incoming :: upserts => w ← upsert_one capacity w incoming; upsert_all capacity w upserts
  end.

(** [RedbEventCache::apply]. *)
Definition apply (capacity : nat) (current : CacheState) (mutations : list EventStateMutation)
    : result EventCacheError (CacheState * list RelayEvent * list (EventId * RelayUrl)) :=
  let '(w, upserts) := retract_all (mkWork (cs_events current) [] [] []) mutations in
  w ← upsert_all capacity w upserts;
  Ok (mkCacheState (cs_revision current) (wk_events w) (wk_retractions w)
        (if bool_decide (wk_events w ≠ cs_events current) then [] else cs_coverage current),
      wk_inserted w, wk_removed w).

Definition open_bounded (d : Disk) (capacity : nat) : result EventCacheError RedbEventCache * Disk :=
  let is_new := negb (path_exists d) in
  let '(created, d) := database_create d in
  match created with
  | Err e => (refused e, d)
  | Ok _ =>
      let '(initialized, d) := initialize d is_new in
      match initialized with
      | Err e => (refused e, d)
      | Ok _ =>
          let '(loaded, d) := load d in
          match loaded with
          | Err e => (refused e, d)
          | Ok events =>
              let state := mkCacheState 0 events [] [] in
              (Ok (mkRedbCache _ capacity d state (cache_snapshot state)), d)
          end
      end
  end.

Definition open (d : Disk) : result EventCacheError RedbEventCache * Disk :=
  open_bounded d (N.to_nat 10000).

(** The file changes before the revision is checked, the mirror after. *)
Definition persist_and_publish (c : RedbEventCache) (next : CacheState) (inserted : list RelayEvent)
    (removed : list (EventId * RelayUrl)) : result EventCacheError unit * RedbEventCache :=
  let '(r, d) := apply_diff (rc_database c) inserted removed in
  let kept := mkRedbCache _ (rc_capacity c) d (rc_state c) (rc_latest c) in
  match r with
  | Err e => (refused e, kept)
  | Ok _ =>
      match checked_succ (cs_revision next) with
      | None => (refused "source revision exhausted", kept)
      | Some revision =>
          let next := mkCacheState revision (cs_events next) (cs_retractions next) (cs_coverage next) in
          (Ok tt, mkRedbCache _ (rc_capacity c) d next (cache_snapshot next))
      end
  end.

Definition transact {A} (c : RedbEventCache) (decide : list RelayEvent → list EventStateMutation * A)
    : result EventCacheError (nat * A) * RedbEventCache :=
  let '(mutations, a) := decide (values (cs_events (rc_state c))) in
  let count := length mutations in
  if bool_decide (count = 0) then (Ok (0, a), c)
  else
    match apply (rc_capacity c) (rc_state c) mutations with
    | Err e => (Err e, c)
    | Ok (next, inserted, removed) =>
        if bool_decide (inserted = []) && bool_decide (removed = []) then (Ok (0, a), c)
        else
          let '(r, c') := persist_and_publish c next inserted removed in
          (match r with Ok _ => Ok (count, a) | Err e => Err e end, c')
    end.

Definition commit (c : RedbEventCache) (mutations : list EventStateMutation)
    : result EventCacheError unit * RedbEventCache :=
  match apply (rc_capacity c) (rc_state c) mutations with
  | Err e => (Err e, c)
  | Ok (next, inserted, removed) =>
      if bool_decide (inserted = []) && bool_decide (removed = []) then (Ok tt, c)
      else persist_and_publish c next inserted removed
  end.

(** ** Coverage and reads *)

Definition source_coverage (c : RedbEventCache) (session : RelayUrl) (filter : Filter)
    : option SourceCoverage :=
  List.find (covers_request session filter) (cs_coverage (rc_state c)).

Definition retain_source_coverage (c : RedbEventCache) (coverage : SourceCoverage) : RedbEventCache :=
  let state := rc_state c in
  let held := cs_coverage state in
  let next :=
    match replace_coverage coverage held with
    | Some next => next
    | None =>
        (if bool_decide (rc_capacity c ≤ length held) then drop 1 held else held) ++ [coverage]
    end in
  mkRedbCache _ (rc_capacity c) (rc_database c)
    (mkCacheState (cs_revision state) (cs_events state) (cs_retractions state) next) (rc_latest c).

Definition event (c : RedbEventCache) (id : EventId) : option RelayEvent :=
  snd <$> List.find (λ entry : EventId * RelayUrl * RelayEvent, bool_decide (entry.1.1 = id))
            (entries (cs_events (rc_state c))).

Definition len (c : RedbEventCache) : nat := size (cs_events (rc_state c)).

(** [QuerySource::open]. *)
Definition open_initial (c : RedbEventCache) : SourceSnapshot := rc_latest c.

#[global] Instance redb_event_cache : EventCache RedbEventCache := {
  ec_current := λ c, values (cs_events (rc_state c));
  ec_transact := @transact
}.

End cache.

(** ** The batch is [MemoryCache]'s, with its differences listed *)

Definition forget (w : Work) : gmap (EventId * RelayUrl) RelayEvent * list SourceRetraction :=
  (wk_events w, wk_retractions w).

Lemma forget_retract_one w id session cause :
  forget (retract_one w id session cause) = MemoryCache.apply_retract (forget w) id session cause.
Proof. unfold retract_one, apply_retract. simpl. by destruct (wk_events w !! _). Qed.

Lemma forget_retract_all mutations w :
  apply_retracts (forget w) mutations = (forget (retract_all w mutations).1, (retract_all w mutations).2).
Proof.
  revert w. induction mutations as [|[r|id session cause] mutations IH]; intros w; simpl; [done|..].
  - rewrite IH. by destruct (retract_all w mutations).
  - by rewrite <- forget_retract_one, IH.
Qed.

Section batches.
Context `{Nostr}.

(** The four ways one upsert goes, with what it logs. *)
Inductive logged (capacity : nat) (incoming : RelayEvent) : Work → Work → Prop :=
| logged_known w retained :
    wk_events w !! contribution_key incoming = Some retained →
    (re_observed_at retained ≤ re_observed_at incoming)%N →
    logged capacity incoming w w
| logged_earlier w retained :
    wk_events w !! contribution_key incoming = Some retained →
    (re_observed_at incoming < re_observed_at retained)%N →
    logged capacity incoming w (insert_one w incoming)
| logged_room w :
    wk_events w !! contribution_key incoming = None → size (wk_events w) < capacity →
    logged capacity incoming w (insert_one w incoming)
| logged_evicting w k victim :
    wk_events w !! contribution_key incoming = None → capacity ≤ size (wk_events w) →
    ev_kind (re_event incoming) = kind_event_deletion →
    eviction_candidate (wk_events w) = Some (k, victim) →
    logged capacity incoming w (insert_one (evict_one w k) incoming).

Lemma forget_upsert_one capacity w incoming :
  apply_upsert capacity (forget w) incoming = forget <$> upsert_one capacity w incoming.
Proof.
  unfold apply_upsert, upsert_one. destruct (event_verify _); [done|]. simpl.
  destruct (wk_events w !! contribution_key incoming); [by case_bool_decide|].
  case_bool_decide; [|done]. case_bool_decide; [done|].
  by destruct (eviction_candidate (wk_events w)).
Qed.

Lemma forget_upsert_all capacity upserts w :
  apply_upserts capacity (forget w) upserts = forget <$> upsert_all capacity w upserts.
Proof.
  revert w. induction upserts as [|incoming upserts IH]; intros w; simpl; [done|].
  rewrite forget_upsert_one. destruct (upsert_one capacity w incoming); simpl; [apply IH|done].
Qed.

Lemma upsert_one_logged capacity w incoming w' :
  upsert_one capacity w incoming = Ok w' →
  event_verify (re_event incoming) = None ∧ logged capacity incoming w w'.
Proof.
  unfold upsert_one. destruct (event_verify (re_event incoming)) eqn:Hv; [done|].
  intros Hw. split; [done|]. revert Hw.
  destruct (wk_events w !! contribution_key incoming) as [retained|] eqn:Hl.
  - case_bool_decide; intros [= <-]; [by eapply logged_earlier|eapply logged_known; [done|lia]].
  - case_bool_decide as Hcap; [|intros [= <-]; apply logged_room; [done|lia]].
    case_bool_decide as Hdel; [done|].
    intros ([k victim] & Hc%ok_or_Ok & [= <-])%bind_Ok.
    apply (logged_evicting _ _ w k victim); [done|done| |done].
    by destruct (decide (ev_kind (re_event incoming) = kind_event_deletion)).
Qed.

Lemma apply_Ok_work capacity current mutations next inserted removed :
  apply capacity current mutations = Ok (next, inserted, removed) ↔
  ∃ w, upsert_all capacity (retract_all (mkWork (cs_events current) [] [] []) mutations).1
         (upserts_of mutations) = Ok w ∧
    next = mkCacheState (cs_revision current) (wk_events w) (wk_retractions w)
             (if bool_decide (wk_events w ≠ cs_events current) then [] else cs_coverage current) ∧
    inserted = wk_inserted w ∧ removed = wk_removed w.
Proof.
  unfold apply. pose proof (apply_retracts_upserts (cs_events current, []) mutations) as Hu.
  change (cs_events current, []) with (forget (mkWork (cs_events current) [] [] [])) in Hu.
  rewrite forget_retract_all in Hu. simpl in Hu. rewrite <- Hu.
  destruct (retract_all _ mutations) as [w0 upserts]. simpl.
  rewrite bind_Ok. split.
  - intros (w & ? & [= <- <- <-]). eauto.
  - intros (w & ? & -> & -> & ->). eauto.
Qed.

(** A batch is accepted, refused and computed exactly as [MemoryCache] does it. *)
Lemma apply_memory capacity current mutations :
  MemoryCache.apply capacity current mutations = (fst ∘ fst) <$> apply capacity current mutations.
Proof.
  unfold MemoryCache.apply, apply.
  change (cs_events current, []) with (forget (mkWork (cs_events current) [] [] [])).
  rewrite forget_retract_all. destruct (retract_all _ mutations) as [w upserts]. simpl.
  rewrite forget_upsert_all. destruct (upsert_all capacity w upserts) as [w'|]; simpl; [|done].
  do 2 f_equal. by repeat case_bool_decide.
Qed.

(** ** The logged differences lead from the old mirror to the new one *)

Definition put (events : gmap (EventId * RelayUrl) RelayEvent) (r : RelayEvent) :=
  <[contribution_key r := r]> events.

Definition diffed (events : gmap (EventId * RelayUrl) RelayEvent) (inserted : list RelayEvent)
    (removed : list (EventId * RelayUrl)) : gmap (EventId * RelayUrl) RelayEvent :=
  foldl (λ events k, delete k events) (foldl put events inserted) removed.

(** No contribution is both retracted and offered by the batch. *)
Definition separate (mutations : list EventStateMutation) : Prop :=
  ∀ r, Upsert r ∈ mutations → ¬ retracted_by mutations (contribution_key r).

(** Why a listed removal is not undone by a later upsert of the batch. *)
Definition gone_for_good (capacity : nat) (mutations : list EventStateMutation) (w : Work)
    (k : EventId * RelayUrl) : Prop :=
  wk_events w !! k = None ∧
  (retracted_by mutations k ∨
   ∃ victim, contribution_key victim = k ∧ event_verify (re_event victim) = None ∧
     ev_kind (re_event victim) ≠ kind_event_deletion ∧ capacity ≤ size (wk_events w)).

Definition traced (events : gmap (EventId * RelayUrl) RelayEvent) (w : Work) : Prop :=
  ∀ k, k ∉ wk_removed w → foldl put events (wk_inserted w) !! k = wk_events w !! k.

Definition settled (capacity : nat) (mutations : list EventStateMutation) (w : Work) : Prop :=
  ∀ k, k ∈ wk_removed w → gone_for_good capacity mutations w k.

Lemma lookup_delete_all (removed : list (EventId * RelayUrl))
    (events : gmap (EventId * RelayUrl) RelayEvent) k :
  foldl (λ events k, delete k events) events removed !! k =
  (if bool_decide (k ∈ removed) then None else events !! k).
Proof.
  revert events. induction removed as [|x removed IH]; intros events; simpl; [done|].
  rewrite IH. destruct (decide (k = x)) as [->|Hne].
  - rewrite lookup_delete_eq, (bool_decide_eq_true_2 (x ∈ x :: removed)) by left. by case_match.
  - rewrite lookup_delete_ne by done. erewrite (bool_decide_ext (k ∈ x :: removed)); [done|].
    rewrite elem_of_cons. naive_solver.
Qed.

Lemma traced_insert events w r : traced events w → traced events (insert_one w r).
Proof.
  intros Ht k Hk. simpl in *. rewrite foldl_app. simpl. unfold put at 1.
  destruct (decide (k = contribution_key r)) as [->|Hne]; [by rewrite !lookup_insert_eq|].
  rewrite !lookup_insert_ne by done. by apply Ht.
Qed.

Lemma traced_evict events w k : traced events w → traced events (evict_one w k).
Proof.
  intros Ht k' Hk'. simpl in *. rewrite lookup_delete_ne by set_solver. apply Ht. set_solver.
Qed.

Lemma traced_retract events w id session cause :
  traced events w → traced events (retract_one w id session cause).
Proof.
  intros Ht. unfold retract_one. case_match; [|done]. intros k Hk. simpl in *.
  rewrite lookup_delete_ne by set_solver. apply Ht. set_solver.
Qed.

Lemma traced_retract_all events mutations w :
  traced events w → traced events (retract_all w mutations).1.
Proof.
  revert w. induction mutations as [|[r|id session cause] mutations IH]; intros w Ht; simpl; [done|..].
  - specialize (IH w Ht). by destruct (retract_all w mutations).
  - by apply IH, traced_retract.
Qed.

Lemma traced_upsert_all events capacity upserts w w' :
  traced events w → upsert_all capacity w upserts = Ok w' → traced events w'.
Proof.
  revert w. induction upserts as [|incoming upserts IH]; intros w Ht; simpl; [by intros [= <-]|].
  intros (w1 & [_ Hl]%upsert_one_logged & Hrest)%bind_Ok. apply (IH w1); [|done].
  destruct Hl; auto using traced_insert, traced_evict.
Qed.

(** The exact condition under which the logged diff rebuilds the mirror. *)
Lemma apply_diffed capacity current mutations next inserted removed :
  apply capacity current mutations = Ok (next, inserted, removed) →
  diffed (cs_events current) inserted removed = cs_events next ↔
  ∀ k, k ∈ removed → cs_events next !! k = None.
Proof.
  intros (w & Hw & -> & -> & ->)%apply_Ok_work. simpl.
  assert (Ht : traced (cs_events current) w).
  { eapply traced_upsert_all; [|exact Hw]. by apply traced_retract_all. }
  unfold diffed. split.
  - intros <- k Hk. by rewrite lookup_delete_all, bool_decide_eq_true_2.
  - intros Hn. apply map_eq. intros k. rewrite lookup_delete_all. case_bool_decide; [by rewrite Hn|by apply Ht].
Qed.

Lemma retract_all_settled capacity mutations rest w :
  (∀ k, retracted_by rest k → retracted_by mutations k) →
  settled capacity mutations w →
  (∀ k, k ∈ wk_removed w → retracted_by mutations k) →
  settled capacity mutations (retract_all w rest).1.
Proof.
  revert w. induction rest as [|[r|id session cause] rest IH]; intros w Hsub Hs Hr; simpl; [done|..].
  - assert (Hsub' : ∀ k, retracted_by rest k → retracted_by mutations k).
    { intros k [c Hc]. apply Hsub. exists c. by right. }
    specialize (IH w Hsub' Hs Hr). by destruct (retract_all w rest).
  - assert (Hsub' : ∀ k, retracted_by rest k → retracted_by mutations k).
    { intros k [c Hc]. apply Hsub. exists c. by right. }
    assert (Hnew : retracted_by mutations (id, session)) by (apply Hsub; exists cause; left).
    apply IH; [done|..]; unfold retract_one; case_match; try done.
    + intros k [Hk| ->]%elem_of_snoc.
      * split; [|left; by apply Hr]. simpl. apply lookup_delete_None. right. by apply Hs.
      * split; [|by left]. simpl. by rewrite lookup_delete_eq.
    + intros k [Hk| ->]%elem_of_snoc; [by apply Hr|done].
Qed.

Lemma settled_insert capacity mutations w r :
  EventIdBinding → separate mutations → Upsert r ∈ mutations → event_verify (re_event r) = None →
  (∀ k, k ∈ wk_removed w → gone_for_good capacity mutations w k) →
  (wk_events w !! contribution_key r = None →
     size (wk_events w) < capacity ∨ ev_kind (re_event r) = kind_event_deletion) →
  settled capacity mutations (insert_one w r).
Proof.
  intros Hb Hsep Hin Hv Hs Hroom k Hk. simpl in Hk. destruct (Hs k Hk) as [Hnone Hwhy].
  assert (Hne : contribution_key r ≠ k).
  { intros <-. destruct Hwhy as [Hr|(victim & Hkey & Hvv & Hkind & Hcap)]; [by apply (Hsep r)|].
    destruct (Hroom Hnone) as [?|Hdel]; [lia|]. injection Hkey as Hid _.
    destruct (Hb (re_event victim) (re_event r)) as (_ & Hk' & _); [done..|]. congruence. }
  split; simpl; [by rewrite lookup_insert_ne|]. destruct Hwhy as [?|(victim & ? & ? & ? & Hcap)]; [by left|].
  right. exists victim. split_and!; try done. etrans; [exact Hcap|].
  destruct (wk_events w !! contribution_key r) eqn:E;
    [by rewrite map_size_insert_Some by eauto|rewrite map_size_insert_None by done; lia].
Qed.

(** An eviction makes room for one event, so the count it leaves behind comes
    back with the insertion that follows. *)
Lemma settled_evict capacity mutations w k victim r :
  EventIdBinding → separate mutations → Upsert r ∈ mutations → event_verify (re_event r) = None →
  keyed (wk_events w) → settled capacity mutations w →
  wk_events w !! contribution_key r = None → capacity ≤ size (wk_events w) →
  ev_kind (re_event r) = kind_event_deletion →
  eviction_candidate (wk_events w) = Some (k, victim) →
  settled capacity mutations (insert_one (evict_one w k) r).
Proof.
  intros Hb Hsep Hin Hv Hkeyed Hs Hnone Hcap Hdel Hev.
  apply eviction_candidate_Some in Hev as (Hl & Hnd & _). destruct (Hkeyed _ _ Hl) as [Hkk Hvv].
  assert (Hsize : size (<[contribution_key r := r]> (delete k (wk_events w))) = size (wk_events w)).
  { rewrite map_size_insert_None by (apply lookup_delete_None; by right).
    rewrite map_size_delete, Hl. assert (size (wk_events w) ≠ 0); [|lia].
    apply map_size_ne_0_lookup. eauto. }
  intros k' Hk'. simpl in Hk'. split; simpl.
  - apply elem_of_snoc in Hk' as [Hk'| ->].
    + destruct (Hs k' Hk') as [Hn Hwhy]. rewrite lookup_insert_ne; [by apply lookup_delete_None; right|].
      intros <-. destruct Hwhy as [Hr|(v & Hkey & Hv' & Hkind & _)]; [by apply (Hsep r)|].
      injection Hkey as Hid _. destruct (Hb (re_event v) (re_event r)) as (_ & ? & _); [done..|]. congruence.
    + rewrite lookup_insert_ne by congruence. apply lookup_delete_eq.
  - rewrite Hsize. apply elem_of_snoc in Hk' as [Hk'| ->].
    + destruct (Hs k' Hk') as [_ [?|(v & ? & ? & ? & ?)]]; [by left|right; eauto 10].
    + right. exists victim. split_and!; congruence.
Qed.

Lemma upsert_all_settled capacity mutations upserts w w' :
  EventIdBinding → separate mutations → (∀ r, r ∈ upserts → Upsert r ∈ mutations) →
  keyed (wk_events w) → settled capacity mutations w →
  upsert_all capacity w upserts = Ok w' → settled capacity mutations w'.
Proof.
  intros Hb Hsep. revert w. induction upserts as [|incoming upserts IH]; intros w Hin Hk Hs; simpl;
    [by intros [= <-]|].
  intros (w1 & Hone & Hrest)%bind_Ok. pose proof Hone as [Hv Hl]%upsert_one_logged.
  assert (Hk1 : keyed (wk_events w1)).
  { apply (apply_upserts_keyed capacity [incoming] (forget w) (forget w1)); [|done]. simpl.
    by rewrite forget_upsert_one, Hone. }
  assert (Hi : Upsert incoming ∈ mutations) by (apply Hin; left).
  apply (IH w1); [intros r ?; apply Hin; by right|done| |done].
  destruct Hl as [|w retained Hr|w|w k victim]; [done|..].
  - apply settled_insert; [done..|]. congruence.
  - apply settled_insert; [done..|]. by left.
  - by eapply settled_evict.
Qed.

(** A batch that offers nothing it also retracts removes for good. *)
Lemma apply_separate capacity current mutations next inserted removed :
  EventIdBinding → keyed (cs_events current) → separate mutations →
  apply capacity current mutations = Ok (next, inserted, removed) →
  diffed (cs_events current) inserted removed = cs_events next.
Proof.
  intros Hb Hk Hsep Ha. apply (apply_diffed _ _ _ _ _ _ Ha).
  apply apply_Ok_work in Ha as (w & Hw & -> & _ & ->). simpl.
  set (w0 := mkWork (cs_events current) [] [] []) in *.
  pose proof (forget_retract_all mutations w0) as Hf.
  assert (Hs0 : settled capacity mutations (retract_all w0 mutations).1).
  { apply retract_all_settled; [done|..]; by intros k ?%not_elem_of_nil. }
  intros k Hkr. eapply (upsert_all_settled capacity mutations (upserts_of mutations)); try done.
  - intros r. apply elem_of_upserts_of.
  - destruct (apply_retracts_keeps mutations (forget w0) Hk) as [Hk' _]. by rewrite Hf in Hk'.
Qed.

Lemma retract_all_inserted mutations w : wk_inserted (retract_all w mutations).1 = wk_inserted w.
Proof.
  revert w. induction mutations as [|[r|id s c] mutations IH]; intros w; simpl; [done|..].
  - specialize (IH w). by destruct (retract_all w mutations).
  - rewrite IH. unfold retract_one. by case_match.
Qed.

Lemma upsert_all_inserted capacity upserts w w' r :
  upsert_all capacity w upserts = Ok w' → r ∈ wk_inserted w' → r ∈ wk_inserted w ∨ r ∈ upserts.
Proof.
  revert w. induction upserts as [|incoming upserts IH]; intros w; simpl; [intros [= <-]; by left|].
  intros (w1 & [_ Hl]%upsert_one_logged & Hrest)%bind_Ok Hr.
  destruct (IH w1 Hrest Hr) as [Hin|?]; [|right; by right].
  destruct Hl; simpl in Hin; [by left|..]; apply elem_of_snoc in Hin as [?| ->]; auto; right; left.
Qed.

Lemma apply_inserted capacity current mutations next inserted removed r :
  apply capacity current mutations = Ok (next, inserted, removed) → r ∈ inserted → Upsert r ∈ mutations.
Proof.
  intros (w & Hw & _ & -> & _)%apply_Ok_work Hr. apply elem_of_upserts_of.
  destruct (upsert_all_inserted _ _ _ _ _ Hw Hr) as [Hin|?]; [|done].
  rewrite retract_all_inserted in Hin. by apply not_elem_of_nil in Hin.
Qed.

(** A batch that lists no difference leaves the mirror as it was. *)
Lemma apply_quiet capacity current mutations next :
  apply capacity current mutations = Ok (next, [], []) → cs_events next = cs_events current.
Proof.
  intros Ha. symmetry. apply (apply_diffed _ _ _ _ _ _ Ha). by intros k ?%not_elem_of_nil.
Qed.

End batches.
