(* ===== verification/PersistentCacheProps.v ===== *)
(** * The durable event cache: what a restart recovers ([crates/fava-event-cache-persistent])

    The table of the file against the in-memory mirror: loading a table that
    mirrors a state gives that state back, one transaction of [apply_diff] takes
    a mirror to a mirror, and so over the whole lifetime of a cache (opened,
    written, killed, opened again) what is loaded is what was last held.  The
    provider discharges [EventCacheLaws] here; the last part shows the inputs on
    which file and mirror come apart. *)

From S2P Require Import Prelude Nostr Relay State Write Query EventCache MemoryCache Edits Redb PersistentCache.

(** ** The table and the mirror *)

Section durable.
Context `{!Nostr} `{!NostrBytes} `{!NostrBytesLaws} `{!Serde} `{!SerdeLaws} `{!Redb string string} `{!RedbLaws}.

(** What the Rust types say of a delivery: a 32-byte id and account, a parsed
    relay URL. *)
Definition storable (r : RelayEvent) : Prop :=
  key_ok (re_id r) ∧ relay_url_parse (re_session r) = Some (re_session r) ∧
  match oc_authority (re_occurrence r) with As pk => key_ok pk | Unauthenticated => True end.

(** Ids in hexadecimal all have one length. *)
Definition HexIds : Prop := ∃ width, ∀ i, key_ok i → String.length (event_id_to_hex i) = width.

Definition all_storable (events : gmap (EventId * RelayUrl) RelayEvent) : Prop :=
  ∀ k r, events !! k = Some r → k = contribution_key r ∧ storable r.

Definition row_key (k : EventId * RelayUrl) : string := composite_key k.1 k.2.

(** The table holds the encoding of every contribution, and nothing else. *)
Definition mirrors (table : gmap string string) (events : gmap (EventId * RelayUrl) RelayEvent) : Prop :=
  (∀ k r, events !! k = Some r → ∃ b, table !! row_key k = Some b ∧ to_bytes r = Ok b) ∧
  (∀ s b, table !! s = Some b → ∃ k r, events !! k = Some r ∧ s = row_key k ∧ to_bytes r = Ok b).

Lemma from_to_bytes r b : storable r → to_bytes r = Ok b → from_bytes b = Ok r.
Proof.
  intros (Hid & Hurl & Hauth) (j & Hj & Hb)%bind_Ok. unfold from_bytes.
  rewrite (persisted_roundtrip _ _ Hb). simpl. rewrite (event_value_roundtrip _ _ Hj). simpl.
  rewrite Hurl. simpl. destruct r as [e [session authority at_]]. simpl in *.
  destruct authority as [|pk]; simpl; [done|]. by rewrite public_key_hex_roundtrip.
Qed.

Lemma load_entries_exact events l acc :
  (∀ s b, (s, b) ∈ l → ∃ r, from_bytes b = Ok r ∧ events !! contribution_key r = Some r) →
  acc ⊆ events →
  ∃ loaded, load_entries acc l = Ok loaded ∧ loaded ⊆ events ∧ acc ⊆ loaded ∧
    ∀ s b r, (s, b) ∈ l → from_bytes b = Ok r → loaded !! contribution_key r = Some r.
Proof.
  revert acc. induction l as [|[s b] l IH]; intros acc Hl Hacc; simpl.
  { exists acc. split_and!; [done|done|done|]. by intros s b r ?%not_elem_of_nil. }
  destruct (Hl s b) as (r & Hr & Hev); [left|]. rewrite Hr. simpl.
  assert (Hins : <[contribution_key r := r]> acc ⊆ events) by (by apply insert_subseteq_l).
  destruct (IH (<[contribution_key r := r]> acc)) as (loaded & Hload & Hsub & Hin & Hall);
    [intros ???; eapply Hl; by right|done|].
  exists loaded. split_and!; [done|done| |].
  - apply map_subseteq_spec. intros k x Hx. pose proof (lookup_weaken _ _ _ _ Hx Hacc).
    apply (lookup_weaken (<[contribution_key r := r]> acc)); [|done].
    destruct (decide (k = contribution_key r)) as [->|]; [|by rewrite lookup_insert_ne].
    rewrite lookup_insert_eq. congruence.
  - intros s' b' r' [[= -> ->]|Hin']%elem_of_cons Hr'; [|by eapply Hall].
    assert (r' = r) as -> by congruence.
    apply (lookup_weaken (<[contribution_key r := r]> acc)); [|done]. by rewrite lookup_insert_eq.
Qed.

Lemma load_mirrors table events :
  all_storable events → mirrors table events → load_entries ∅ (entries table) = Ok events.
Proof.
  intros Hst [Hfw Hbw].
  destruct (load_entries_exact events (entries table) ∅) as (loaded & Hload & Hsub & _ & Hall).
  - intros s b (k & r & Hr & _ & Hb)%elem_of_entries%Hbw. destruct (Hst _ _ Hr) as [-> Hs].
    exists r. split; [by eapply from_to_bytes|done].
  - apply map_empty_subseteq.
  - rewrite Hload. f_equal. apply (anti_symm (⊆)); [done|]. apply map_subseteq_spec.
    intros k r Hr. destruct (Hst _ _ Hr) as [-> Hs]. destruct (Hfw _ _ Hr) as (b & Hb & Hto).
    eapply Hall; [by apply elem_of_entries|by eapply from_to_bytes].
Qed.

Lemma to_bytes_total r : ∃ b, to_bytes r = Ok b.
Proof.
  unfold to_bytes. pose proof (event_to_value_total (re_event r)) as Hv.
  destruct (event_to_value (re_event r)) as [j|]; [|done]. simpl.
  match goal with |- ∃ b, persisted_to_vec ?p = _ => pose proof (persisted_to_vec_total p) as Hp;
    destruct (persisted_to_vec p) as [b|]; [by exists b|done] end.
Qed.

Lemma string_app_inj (a b c d : string) :
  String.length a = String.length b → a +:+ c = b +:+ d → a = b ∧ c = d.
Proof.
  revert b. induction a as [|x a IH]; intros [|y b]; simpl; try done.
  intros Hl E. injection E as -> E. destruct (IH b) as [-> ->]; [lia|done|done].
Qed.

Lemma row_key_inj k1 k2 : HexIds → key_ok k1.1 → key_ok k2.1 → row_key k1 = row_key k2 → k1 = k2.
Proof.
  intros [width Hw] Hk1 Hk2 Hr. destruct k1 as [i s], k2 as [j t]. cbn in Hk1, Hk2.
  unfold row_key, composite_key in Hr. cbn [fst snd] in Hr.
  apply string_app_inj in Hr as [Hid Hs]; [|by rewrite !Hw].
  apply string_app_inj in Hs as [_ ->]; [|done].
  apply (f_equal event_id_from_hex) in Hid. rewrite !event_id_hex_roundtrip in Hid by done. congruence.
Qed.

Lemma all_storable_key events k r : all_storable events → events !! k = Some r → key_ok k.1.
Proof. intros Hst Hr. destruct (Hst _ _ Hr) as [-> Hs]. apply Hs. Qed.

Lemma mirrors_insert table events r b :
  HexIds → all_storable events → storable r → to_bytes r = Ok b → mirrors table events →
  mirrors (<[row_key (contribution_key r) := b]> table) (put events r).
Proof.
  intros Hhex Hst Hs Hb [Hfw Hbw]. unfold put. split.
  - intros k x [[<- <-]|[Hne Hx]]%lookup_insert_Some; [rewrite lookup_insert_eq; eauto|].
    rewrite lookup_insert_ne; [by apply Hfw|]. intros E. apply Hne.
    apply row_key_inj; [done|apply Hs|by eapply all_storable_key|done].
  - intros s x [[<- <-]|[Hne Hx]]%lookup_insert_Some.
    + exists (contribution_key r), r. by rewrite lookup_insert_eq.
    + destruct (Hbw _ _ Hx) as (k & y & Hy & -> & Hto). exists k, y. rewrite lookup_insert_ne; [done|].
      by intros <-.
Qed.

Lemma mirrors_delete table events k :
  HexIds → all_storable events → key_ok k.1 → mirrors table events →
  mirrors (delete (row_key k) table) (delete k events).
Proof.
  intros Hhex Hst Hk [Hfw Hbw]. split.
  - intros k' x [Hne Hx]%lookup_delete_Some. rewrite lookup_delete_ne; [by apply Hfw|].
    intros E. apply Hne. apply row_key_inj; [done|done|by eapply all_storable_key|done].
  - intros s x [Hne Hx]%lookup_delete_Some. destruct (Hbw _ _ Hx) as (k' & y & Hy & -> & Hto).
    exists k', y. rewrite lookup_delete_ne; [done|]. by intros ->.
Qed.

Lemma all_storable_put events r : all_storable events → storable r → all_storable (put events r).
Proof.
  intros Hst Hs k x. unfold put. intros [[<- <-]|[_ Hx]]%lookup_insert_Some; [done|by apply Hst].
Qed.

Lemma all_storable_delete events k : all_storable events → all_storable (delete k events).
Proof. intros Hst k' x [_ Hx]%lookup_delete_Some. by apply Hst. Qed.

(** ** One transaction *)

Lemma mirrors_delete_all table events removed :
  HexIds → all_storable events → (∀ k, k ∈ removed → key_ok k.1) → mirrors table events →
  mirrors (foldl (λ t k, delete (row_key k) t) table removed) (foldl (λ e k, delete k e) events removed) ∧
  all_storable (foldl (λ e k, delete k e) events removed).
Proof.
  intros Hhex. revert table events. induction removed as [|k removed IH]; intros table events Hst Hk Hm;
    simpl; [done|].
  apply IH; [by apply all_storable_delete|intros ??; apply Hk; by right|].
  apply mirrors_delete; [done|done|apply Hk; left|done].
Qed.

Definition inserted_rows (table : gmap string string) (ops : list (TableWrite string string)) : gmap string string :=
  foldl (λ t op, match op with InsertRow k v => <[k := v]> t | _ => t end) table ops.

Lemma mirrors_insert_all inserted ops table events :
  HexIds → all_storable events → (∀ r, r ∈ inserted → storable r) →
  collect_results (insert_op <$> inserted) = Ok ops → mirrors table events →
  mirrors (inserted_rows table ops) (foldl put events inserted) ∧ all_storable (foldl put events inserted).
Proof.
  intros Hhex. revert ops table events. induction inserted as [|r inserted IH]; intros ops table events Hst Hs.
  - intros [= <-]. done.
  - cbn. intros (op & (b & Hb & [= <-])%bind_Ok & (ops' & Hops & [= <-])%bind_Ok)%bind_Ok Hm. cbn.
    apply (IH ops'); [|intros ??; apply Hs; by right|done|].
    + apply all_storable_put; [done|apply Hs; left].
    + apply (mirrors_insert table events r b); try done. apply Hs. left.
Qed.

Lemma collected_inserts inserted ops :
  collect_results (insert_op <$> inserted) = Ok ops → Forall (λ op, ∃ k v, op = InsertRow k v) ops.
Proof.
  revert ops. induction inserted as [|r inserted IH]; intros ops; [by intros [= <-]; constructor|].
  cbn. intros (op & (b & _ & [= <-])%bind_Ok & (ops' & Hops & [= <-])%bind_Ok)%bind_Ok.
  constructor; [by eauto|by apply IH].
Qed.

Lemma fold_inserts db table ops :
  db_rows db = Some table → Forall (λ op, ∃ k v, op = InsertRow k v) ops →
  foldl table_write db ops = mkDatabase (Some (inserted_rows table ops)) (db_meta db).
Proof.
  intros Ht Hops. revert db table Ht.
  induction Hops as [|op ops (k & v & ->) _ IH]; intros [ev meta] table Ht; cbn in *; [by rewrite Ht|].
  rewrite Ht. cbn. by rewrite (IH _ (<[k := v]> table)).
Qed.

Lemma fold_removes db table removed :
  db_rows db = Some table →
  foldl table_write db (remove_op <$> removed) =
  mkDatabase (Some (foldl (λ t k, delete (row_key k) t) table removed)) (db_meta db).
Proof.
  revert db table. induction removed as [|k removed IH]; intros [ev meta] table Ht; cbn in *; [by rewrite Ht|].
  rewrite Ht. cbn. by rewrite (IH _ (delete (row_key k) table)).
Qed.

(** The file is one this schema wrote and its rows are these contributions. *)
Definition holds (d : Disk) (events : gmap (EventId * RelayUrl) RelayEvent) : Prop :=
  ∃ meta table, tables d = Some (mkDatabase (Some table) (Some meta)) ∧
    meta !! SCHEMA_VERSION_KEY = Some SCHEMA_VERSION ∧ mirrors table events.

Lemma holds_same d d' events : tables d' = tables d → holds d events → holds d' events.
Proof. intros Ht (meta & table & Hd & ?). exists meta, table. by rewrite Ht. Qed.

Lemma apply_diff_holds d inserted removed d' events :
  HexIds → all_storable events → (∀ r, r ∈ inserted → storable r) → (∀ k, k ∈ removed → key_ok k.1) →
  holds d events → apply_diff d inserted removed = (Ok tt, d') →
  holds d' (diffed events inserted removed) ∧ all_storable (diffed events inserted removed).
Proof.
  intros Hhex Hst Hins Hrem (meta & table & Hd & Hv & Hm). unfold apply_diff.
  destruct (_ && _) eqn:Hempty.
  { intros [= <-]. apply andb_true_iff in Hempty as [->%bool_decide_eq_true ->%bool_decide_eq_true].
    split; [by exists meta, table|done]. }
  intros (ops & (inserts & Hi & [= <-])%bind_Ok & Ht)%write_ok. rewrite Hd in Ht. cbn in Ht.
  rewrite foldl_app, (fold_inserts (mkDatabase (Some table) (Some meta)) table inserts) in Ht
    by (done || by eapply collected_inserts).
  rewrite (fold_removes _ (inserted_rows table inserts)) in Ht by done.
  destruct (mirrors_insert_all inserted inserts table events) as [Hm1 Hst1]; try done.
  destruct (mirrors_delete_all (inserted_rows table inserts) (foldl put events inserted) removed)
    as [Hm2 Hst2]; try done.
  split; [|done]. eexists meta, _. by rewrite Ht.
Qed.

Lemma apply_diff_err d inserted removed e d' events :
  holds d events → apply_diff d inserted removed = (Err e, d') → holds d' events.
Proof.
  intros Hh. unfold apply_diff. case_match; [done|]. intros Hw%write_err. by eapply holds_same.
Qed.

(** *** What a batch may list *)

Definition sound_work (w : Work) : Prop :=
  all_storable (wk_events w) ∧ ∀ k, k ∈ wk_removed w → key_ok k.1.

Lemma sound_insert w r : storable r → sound_work w → sound_work (insert_one w r).
Proof. intros Hs [Hst Hk]. split; [by apply all_storable_put|done]. Qed.

Lemma sound_removing w k r retractions :
  wk_events w !! k = Some r → sound_work w →
  sound_work (mkWork (delete k (wk_events w)) retractions (wk_inserted w) (wk_removed w ++ [k])).
Proof.
  intros Hl [Hst Hk]. split; simpl; [by apply all_storable_delete|].
  intros k' [?| ->]%elem_of_snoc; [by apply Hk|by eapply all_storable_key].
Qed.

Lemma sound_retract_all mutations w : sound_work w → sound_work (retract_all w mutations).1.
Proof.
  revert w. induction mutations as [|[r|id s c] mutations IH]; intros w Hw; simpl; [done|..].
  - specialize (IH w Hw). by destruct (retract_all w mutations).
  - apply IH. unfold retract_one. case_match; [by eapply sound_removing|done].
Qed.

Lemma sound_upsert_all capacity upserts w w' :
  (∀ r, r ∈ upserts → storable r) → sound_work w → upsert_all capacity w upserts = Ok w' → sound_work w'.
Proof.
  revert w. induction upserts as [|r upserts IH]; intros w Hs Hw; simpl; [by intros [= <-]|].
  intros (w1 & [_ Hl]%upsert_one_logged & Hrest)%bind_Ok.
  apply (IH w1); [intros ??; apply Hs; by right| |done].
  assert (Hr : storable r) by (apply Hs; left).
  destruct Hl as [| | |w k victim _ _ _ Hev]; [done|by apply sound_insert..|].
  apply eviction_candidate_Some in Hev as (Hl & _). apply sound_insert; [done|].
  by eapply sound_removing.
Qed.

Lemma apply_sound capacity current mutations next inserted removed :
  all_storable (cs_events current) → (∀ r, Upsert r ∈ mutations → storable r) →
  apply capacity current mutations = Ok (next, inserted, removed) →
  (∀ r, r ∈ inserted → storable r) ∧ (∀ k, k ∈ removed → key_ok k.1).
Proof.
  intros Hst Hs Ha. split; [intros r Hr; by eapply Hs, apply_inserted|].
  apply apply_Ok_work in Ha as (w & Hw & _ & _ & ->).
  eapply sound_upsert_all; [|apply sound_retract_all|exact Hw].
  - intros r Hr%elem_of_upserts_of. by apply Hs.
  - split; [done|]. by intros k ?%not_elem_of_nil.
Qed.

(** ** The writers *)

Record running_ok (c : RedbEventCache) : Prop := {
  ro_keyed : keyed (cs_events (rc_state c));
  ro_storable : all_storable (cs_events (rc_state c));
  ro_published : rc_latest c = cache_snapshot (rc_state c);
  ro_file : holds (rc_database c) (cs_events (rc_state c))
}.

Lemma apply_nil capacity current : apply capacity current [] = Ok
  (mkCacheState (cs_revision current) (cs_events current) [] (cs_coverage current), [], []).
Proof. unfold apply. simpl. by rewrite bool_decide_eq_false_2 by (intros Hne; by apply Hne). Qed.

(** Both writers leave the same cache behind. *)
Lemma transact_commit {A} c (decide : list RelayEvent → list EventStateMutation * A) :
  (transact c decide).2 = (commit c (decide (values (cs_events (rc_state c)))).1).2.
Proof.
  unfold transact, commit. destruct (decide _) as [batch a]. simpl.
  case_bool_decide as Hlen.
  - apply nil_length_inv in Hlen as ->. by rewrite apply_nil.
  - destruct (apply _ _ batch) as [[[next inserted] removed]|e]; [|done].
    case_match; [done|]. by destruct (persist_and_publish c next inserted removed).
Qed.

Lemma persist_running c next inserted removed :
  running_ok c → keyed (cs_events next) →
  (∀ d, apply_diff (rc_database c) inserted removed = (Ok tt, d) →
     holds d (cs_events next) ∧ all_storable (cs_events next)) →
  (cs_revision next < u64_max)%N →
  running_ok (persist_and_publish c next inserted removed).2.
Proof.
  intros [Hk Hst Hp Hf] Hk' Hd Hrev. unfold persist_and_publish.
  destruct (apply_diff _ inserted removed) as [[[]|e] d] eqn:Hdiff.
  - destruct (Hd d eq_refl) as [Hh Hs].
    rewrite (proj2 (checked_succ_Some (cs_revision next) _) (conj Hrev eq_refl)). by split.
  - split; simpl; try done. by eapply apply_diff_err.
Qed.

Lemma commit_running c batch :
  EventIdBinding → HexIds → running_ok c → (∀ r, Upsert r ∈ batch → storable r) →
  (is_ok (apply (rc_capacity c) (rc_state c) batch) = true → separate batch) →
  (cs_revision (rc_state c) < u64_max)%N → running_ok (commit c batch).2.
Proof.
  intros Hb Hhex Hc Hs Hsep Hrev. pose proof Hc as [Hk Hst Hp Hf]. unfold commit.
  destruct (apply _ _ batch) as [[[next inserted] removed]|e] eqn:Ha; [|done].
  case_match; [done|]. specialize (Hsep eq_refl).
  pose proof (apply_separate _ _ _ _ _ _ Hb Hk Hsep Ha) as Hd.
  destruct (apply_sound _ _ _ _ _ _ Hst Hs Ha) as [Hins Hrem].
  apply persist_running; [done|..].
  - apply (apply_keyed (rc_capacity c) (rc_state c) batch); [|done]. by rewrite apply_memory, Ha.
  - intros d Hdiff. rewrite <- Hd. by eapply apply_diff_holds.
  - by apply apply_Ok_work in Ha as (w & _ & -> & _).
Qed.

Lemma apply_verified capacity current batch r :
  is_ok (apply capacity current batch) = true → Upsert r ∈ batch → event_verify (re_event r) = None.
Proof.
  destruct (apply capacity current batch) as [[[next inserted] removed]|] eqn:Ha; [|done].
  intros _ Hr%elem_of_upserts_of. apply apply_Ok_work in Ha as (w & Hw & _).
  revert Hw. generalize (retract_all (mkWork (cs_events current) [] [] []) batch).1.
  revert Hr. induction (upserts_of batch) as [|x l IH]; intros Hr w0; [by apply not_elem_of_nil in Hr|].
  simpl. intros (w1 & [Hv _]%upsert_one_logged & Hrest)%bind_Ok.
  apply elem_of_cons in Hr as [->|Hr]; [done|by eapply IH].
Qed.

(** *** Admissions and expirations never offer what they retract *)

Lemma retracted_fmap cause (victims : list RelayEvent) k c :
  Retract k.1 k.2 c ∈ (retract_of cause <$> victims) → ∃ v, v ∈ victims ∧ contribution_key v = k.
Proof.
  intros (v & Hv & Hin)%list_elem_of_fmap. exists v. split; [done|].
  unfold retract_of in Hv. injection Hv as H1' H2' _. destruct k. simpl in *. by subst.
Qed.

Lemma expire_separate current now : separate (mutations_for_expiration current now).
Proof. intros r Hr. by apply expirations_no_upsert in Hr. Qed.

Lemma admission_separate current incoming now batch :
  EventIdBinding → (∀ k, k ∈ current → event_verify (re_event k) = None) →
  event_verify (re_event incoming) = None →
  admission current incoming now batch → ¬ retracted_by batch (contribution_key incoming).
Proof.
  intros Hb Hvs Hv Hadm [cause Hc]. destruct Hadm as [|Hdel _| |victims _ _ _ Hno Hvict _].
  - by apply not_elem_of_nil in Hc.
  - apply elem_of_snoc in Hc as [Hc|?]; [|done].
    destruct (retracted_fmap _ _ _ _ Hc) as (v & Hin & Hkey).
    apply elem_of_filterb in Hin as [Hd Hin]. injection Hkey as Hid _.
    destruct (Hb (re_event v) (re_event incoming)) as (_ & Hkind & _); [by apply Hvs|done|done|].
    rewrite deletes_deletion_target in Hd by congruence. done.
  - by apply list_elem_of_singleton in Hc.
  - apply elem_of_snoc in Hc as [Hc|?]; [|done].
    destruct (retracted_fmap _ _ _ _ Hc) as (v & Hin & Hkey).
    destruct (Hvict v Hin) as (Hcur & _). apply (Hno v Hcur). injection Hkey as Hid Hs. by split.
Qed.

Lemma admit_separate current incoming now :
  EventIdBinding → (∀ k, k ∈ current → event_verify (re_event k) = None) →
  event_verify (re_event incoming) = None → separate (admit_decide incoming now current).1.
Proof.
  intros Hb Hvs Hv r Hr. simpl in *.
  pose proof (mutations_for_event_admission (still_live now current) incoming now) as Hadm.
  apply elem_of_app in Hr as [Hr|Hr]; [by apply expirations_no_upsert in Hr|].
  pose proof (admission_upsert _ _ _ _ Hadm r Hr) as ->.
  assert (Hne : mutations_for_event (still_live now current) incoming now ≠ []).
  { intros E. rewrite E in Hr. by apply not_elem_of_nil in Hr. }
  intros [cause [Hc|Hc]%elem_of_app].
  - apply elem_of_expirations in Hc as (k & Hk & He & Heq). unfold retract_of in Heq.
    injection Heq as Hid _ _. destruct (Hb (re_event k) (re_event incoming)) as (_ & _ & _ & Ht); auto.
    rewrite Ht, (admission_live _ _ _ _ Hadm Hne) in He. done.
  - eapply (admission_separate (still_live now current)); [done|..|exact Hadm|by exists cause]; [|done].
    intros k [Hk _]%elem_of_still_live. by apply Hvs.
Qed.

Lemma keyed_values_verified events : keyed events → ∀ k, k ∈ values events → event_verify (re_event k) = None.
Proof. intros Hk r (k & Hr)%elem_of_values. by apply (Hk k). Qed.

(** ** The provider contract *)

Lemma persist_outcome c next inserted removed r c' :
  persist_and_publish c next inserted removed = (r, c') →
  rc_capacity c' = rc_capacity c ∧
  match r with
  | Ok _ => (cs_revision next < u64_max)%N ∧
      rc_state c' = mkCacheState (cs_revision next + 1) (cs_events next) (cs_retractions next) (cs_coverage next) ∧
      rc_latest c' = cache_snapshot (rc_state c')
  | Err _ => rc_state c' = rc_state c ∧ rc_latest c' = rc_latest c
  end.
Proof.
  unfold persist_and_publish. destruct (apply_diff _ inserted removed) as [[[]|e] d];
    [|by intros [= <- <-]].
  destruct (checked_succ _) as [rev|] eqn:Hs; intros [= <- <-]; [|done].
  by apply checked_succ_Some in Hs as [? ->].
Qed.

Definition as_memory (c : RedbEventCache) : MemoryEventCache :=
  mkCache (rc_capacity c) (rc_state c) (rc_latest c).

(** The ways a commit ends. *)
Lemma commit_outcome c batch r c' :
  commit c batch = (r, c') →
  (∃ e, apply (rc_capacity c) (rc_state c) batch = Err e ∧ r = Err e ∧ c' = c) ∨
  (∃ next, apply (rc_capacity c) (rc_state c) batch = Ok (next, [], []) ∧ r = Ok tt ∧ c' = c) ∨
  (∃ next inserted removed, apply (rc_capacity c) (rc_state c) batch = Ok (next, inserted, removed) ∧
     (inserted, removed) ≠ ([], []) ∧ persist_and_publish c next inserted removed = (r, c')).
Proof.
  unfold commit. destruct (apply _ _ batch) as [[[next inserted] removed]|e].
  - case_match eqn:Hempty.
    + intros [= <- <-]. apply andb_true_iff in Hempty as [->%bool_decide_eq_true ->%bool_decide_eq_true].
      right. left. eauto.
    + intros Hp. right. right. exists next, inserted, removed. split_and!; [done| |done].
      intros [= -> ->]. done.
  - intros [= <- <-]. left. eauto.
Qed.

Lemma commit_keyed c batch : keyed (cs_events (rc_state c)) → keyed (cs_events (rc_state (commit c batch).2)).
Proof.
  intros Hk. destruct (commit c batch) as [r c'] eqn:Hc.
  apply commit_outcome in Hc as [(e & _ & _ & ->)|[(next & _ & _ & ->)|(next & ins & rem & Ha & _ & Hp)]];
    [done|done|]. apply persist_outcome in Hp as [_ Hp]. simpl.
  destruct r as [[]|e]; [|by destruct Hp as [-> _]]. destruct Hp as (_ & -> & _). simpl.
  apply (apply_keyed (rc_capacity c) (rc_state c) batch); [|done]. by rewrite apply_memory, Ha.
Qed.

Lemma transact_cases {A} c (decide : list RelayEvent → list EventStateMutation * A) batch a :
  decide (values (cs_events (rc_state c))) = (batch, a) →
  let '(r, c') := commit c batch in
  transact c decide = (match r with Err e => Err e | Ok _ => (transact c decide).1 end, c') ∧
  (r = Ok tt → ∃ n, (transact c decide).1 = Ok (n, a) ∧ (n = length batch ∨ (n = 0 ∧ c' = c))).
Proof.
  intros Hd. pose proof (transact_commit c decide) as Hc. rewrite Hd in Hc.
  simpl in Hc. destruct (commit c batch) as [r c'] eqn:Hcm. simpl in Hc. subst c'. unfold transact in *. rewrite Hd in *.
  unfold commit in Hcm. simpl. case_bool_decide as Hlen.
  { apply nil_length_inv in Hlen as ->. rewrite apply_nil in Hcm. simpl in Hcm. injection Hcm as <-.
    split; [done|]. intros _. exists 0. by eauto. }
  destruct (apply _ _ batch) as [[[next ins] rem]|e]; [|by injection Hcm as <-].
  case_match; [injection Hcm as <-; split; [done|]; intros _; exists 0; by eauto|].
  destruct (persist_and_publish c next ins rem) as [r' c'] eqn:Hp. injection Hcm as <-.
  split; [by destruct r'|]. intros ->. eauto.
Qed.

#[global] Instance redb_event_cache_laws : EventCacheLaws RedbEventCache.
Proof.
  refine {| ec_valid := λ c, keyed (cs_events (rc_state c)) |}.
  - intros A s decide Hk. simpl. rewrite transact_commit. by apply commit_keyed.
  - intros s Hk. by apply keyed_well_kept.
  - intros A s decide e s' Ht. simpl in *. destruct (decide (values (cs_events (rc_state s)))) as [batch a] eqn:Hd.
    pose proof (transact_cases s decide batch a Hd) as Hc. destruct (commit s batch) as [r c'] eqn:Hcm.
    destruct Hc as [Hc Hok]. rewrite Ht in Hc, Hok. injection Hc as Hr ->.
    destruct r as [[]|e']; [by destruct (Hok eq_refl) as (n & ? & _)|].
    apply commit_outcome in Hcm as [(? & _ & _ & ->)|[(? & _ & ? & _)|(next & ins & rem & _ & _ & Hp)]]; [done..|].
    by apply persist_outcome in Hp as (_ & -> & _).
  - intros A s decide a Hd. simpl in *. unfold transact. by rewrite Hd.
  - intros A s decide n a s' Hk Ht. simpl in *.
    destruct (decide (values (cs_events (rc_state s)))) as [batch a'] eqn:Hd. exists batch.
    pose proof (transact_cases s decide batch a' Hd) as Hc. destruct (commit s batch) as [r c'] eqn:Hcm.
    destruct Hc as [Hc Hok]. rewrite Ht in Hc, Hok. injection Hc as Hr ->.
    destruct r as [[]|e']; [|done]. destruct (Hok eq_refl) as (n' & [= -> ->] & Hn).
    split_and!; [done|done|].
    apply commit_outcome in Hcm as [(? & _ & ? & _)|[(next & Ha & _ & ->)|(next & ins & rem & Ha & _ & Hp)]]; [done|..].
    + rewrite <- (apply_quiet _ _ _ _ Ha) at 2. apply (apply_committed (rc_capacity s)); [done|].
      by rewrite apply_memory, Ha.
    + apply persist_outcome in Hp as (_ & _ & -> & _). simpl.
      apply (apply_committed (rc_capacity s)); [done|]. by rewrite apply_memory, Ha.
Defined.

(** ** Opening *)

Lemma validate_schema_exact d :
  tables (validate_schema d).2 = tables d ∧
  ((validate_schema d).1 = Ok tt →
   ∃ ev meta, tables d = Some (mkDatabase ev (Some meta)) ∧ meta !! SCHEMA_VERSION_KEY = Some SCHEMA_VERSION).
Proof.
  unfold validate_schema. pose proof (read_meta_same d SCHEMA_VERSION_KEY) as Hs.
  destruct (read_meta d SCHEMA_VERSION_KEY) as [r d'] eqn:Hr. simpl in *. split; [done|].
  intros (v & -> & (v' & ->%ok_or_Ok & Hen)%bind_Ok)%bind_Ok.
  apply read_meta_ok in Hr as ([ev m] & meta & -> & Hm & Hv). simpl in Hm. subst m.
  exists ev, meta. split; [done|]. rewrite <- Hv. unfold ensure in Hen. by case_bool_decide as E; [rewrite E|].
Qed.

Lemma load_holds d events r d' :
  all_storable events → holds d events → load d = (r, d') →
  tables d' = tables d ∧ (∀ loaded, r = Ok loaded → loaded = events).
Proof.
  intros Hst (meta & table & Hd & _ & Hm). unfold load.
  pose proof (read_rows_same d) as Hs. destruct (read_rows d) as [t d1] eqn:Hr. simpl in Hs.
  intros [= <- <-]. split; [done|]. intros loaded (t' & -> & Hl)%bind_Ok.
  apply read_rows_ok in Hr as (db & Hdb & Ht). rewrite Hd in Hdb. injection Hdb as <-.
  simpl in Ht. injection Ht as <-. rewrite (load_mirrors _ _ Hst Hm) in Hl. by injection Hl.
Qed.

(** Opening a file this schema wrote leaves it alone and loads what it holds. *)
Lemma open_holds d events capacity r d' :
  all_storable events → holds d events → open_bounded d capacity = (r, d') →
  tables d' = tables d ∧
  (∀ c, r = Ok c → rc_database c = d' ∧ rc_capacity c = capacity ∧
     rc_state c = mkCacheState 0 events [] [] ∧ rc_latest c = cache_snapshot (rc_state c)).
Proof.
  intros Hst Hh. unfold open_bounded. pose proof Hh as (meta & table & Hd & Hv & Hm).
  rewrite (proj2 (path_exists_tables d)) by (by rewrite Hd). unfold initialize. simpl.
  destruct (database_create d) as [[[]|e] d1] eqn:Hcr; [|intros [= <- <-]; by apply create_err in Hcr].
  apply create_ok in Hcr. rewrite Hd in Hcr. simpl in Hcr. rewrite <- Hd in Hcr.
  destruct (validate_schema_exact d1) as [Hv1 _].
  destruct (validate_schema d1) as [[[]|e] d2]; simpl in Hv1; [|intros [= <- <-]; by split; [congruence|]].
  assert (Hh2 : holds d2 events) by (eapply holds_same; [|exact Hh]; congruence).
  destruct (load d2) as [loaded d3] eqn:Hl. destruct (load_holds _ _ _ _ Hst Hh2 Hl) as [Ht3 Hev].
  destruct loaded as [ev|e]; intros [= <- <-]; (split; [congruence|]); [|done].
  intros c [= <-]. by rewrite (Hev ev eq_refl).
Qed.

Lemma all_storable_empty : all_storable ∅.
Proof. intros k r Hkr. by rewrite lookup_empty in Hkr. Qed.

Lemma mirrors_empty : mirrors ∅ ∅.
Proof. split; intros ??; by rewrite lookup_empty. Qed.

(** A path with no file becomes an empty cache. *)
Lemma open_fresh d capacity c d' :
  tables d = None → open_bounded d capacity = (Ok c, d') →
  holds d' ∅ ∧ rc_database c = d' ∧ rc_capacity c = capacity ∧ rc_state c = mkCacheState 0 ∅ [] [] ∧
  rc_latest c = cache_snapshot (rc_state c).
Proof.
  intros Hd. unfold open_bounded.
  assert (path_exists d = false) as ->.
  { apply not_true_is_false. rewrite path_exists_tables, Hd. by intros [? ?]. }
  simpl. destruct (database_create d) as [[[]|e] d1] eqn:Hcr; [|done].
  apply create_ok in Hcr. rewrite Hd in Hcr. unfold initialize. simpl.
  destruct (write_transaction d1 _) as [[[]|e] d2] eqn:Hw; [|done].
  apply write_ok in Hw as (ops & [= <-] & Hw). rewrite Hcr in Hw. simpl in Hw.
  assert (Hh : holds d2 ∅).
  { eexists _, ∅. split_and!; [exact Hw|by rewrite lookup_insert_eq|apply mirrors_empty]. }
  destruct (load d2) as [loaded d3] eqn:Hl.
  destruct (load_holds _ _ _ _ all_storable_empty Hh Hl) as [Ht3 Hev].
  destruct loaded as [ev|e]; intros [= <- <-]. simpl. rewrite (Hev ev eq_refl).
  split_and!; try done. by eapply holds_same.
Qed.

(** A file whose creation stopped before the schema was written. *)
Definition creation_cut (d : Disk) : Prop := tables d = Some (mkDatabase None None).

(** A first opening that fails leaves no file, a file without schema or an
    empty cache. *)
Lemma open_fresh_refused d capacity e d' :
  tables d = None → open_bounded d capacity = (Err e, d') → tables d' = None ∨ creation_cut d' ∨ holds d' ∅.
Proof.
  intros Hd. unfold open_bounded.
  assert (path_exists d = false) as ->.
  { apply not_true_is_false. rewrite path_exists_tables, Hd. by intros [? ?]. }
  simpl. destruct (database_create d) as [[[]|e1] d1] eqn:Hcr.
  2: { intros [= _ <-]. left. apply create_err in Hcr. congruence. }
  apply create_ok in Hcr. rewrite Hd in Hcr. unfold initialize. simpl.
  destruct (write_transaction d1 _) as [[[]|e2] d2] eqn:Hw.
  2: { intros [= _ <-]. right; left. apply write_err in Hw. unfold creation_cut. by rewrite Hw, Hcr. }
  apply write_ok in Hw as (ops & [= <-] & Hw). rewrite Hcr in Hw. simpl in Hw.
  assert (Hh : holds d2 ∅).
  { eexists _, ∅. split_and!; [exact Hw|by rewrite lookup_insert_eq|apply mirrors_empty]. }
  destruct (load d2) as [loaded d3] eqn:Hl.
  destruct (load_holds _ _ _ _ all_storable_empty Hh Hl) as [Ht3 _].
  destruct loaded as [ev|e3]; intros [= _ <-]. right; right. by eapply holds_same.
Qed.

(** Such a file is never opened again: it exists, so it is validated, and it has
    no version to validate. *)
Theorem interrupted_creation_refused d capacity :
  creation_cut d → is_ok (open_bounded d capacity).1 = false ∧ creation_cut (open_bounded d capacity).2.
Proof.
  unfold creation_cut. intros Hcut.
  unfold open_bounded. rewrite (proj2 (path_exists_tables d)) by (by rewrite Hcut). unfold initialize. simpl.
  destruct (database_create d) as [[[]|e] d1] eqn:Hcr; [|split; [done|apply create_err in Hcr; simpl; congruence]].
  apply create_ok in Hcr. rewrite Hcut in Hcr. simpl in Hcr.
  destruct (validate_schema_exact d1) as [Hs Hok].
  destruct (validate_schema d1) as [[[]|e] d2]; simpl in *; [|split; [done|congruence]].
  destruct (Hok eq_refl) as (ev & meta & Ht & _). rewrite Hcr in Ht. done.
Qed.

Lemma healthy_load d events :
  all_storable events → holds d events → engine_healthy d → is_ok (load d).1 = true.
Proof.
  intros Hst (meta & table & Hd & _ & Hm) Hh. unfold load.
  destruct (healthy_rows d _ table Hh Hd eq_refl) as [Hok _].
  destruct (read_rows d) as [[t|] d1] eqn:Hr; [|done]. simpl.
  apply read_rows_ok in Hr as (db & Hdb & Ht). rewrite Hd in Hdb. injection Hdb as <-.
  simpl in Ht. injection Ht as <-. by rewrite (load_mirrors _ _ Hst Hm).
Qed.

Lemma healthy_initialize d db :
  engine_healthy d → tables d = Some db →
  (∃ meta, db_meta db = Some meta ∧ meta !! SCHEMA_VERSION_KEY = Some SCHEMA_VERSION) →
  is_ok (initialize d false).1 = true ∧ engine_healthy (initialize d false).2.
Proof.
  intros Hh Hd (meta & Hm & Hv). unfold initialize, validate_schema. simpl.
  destruct (healthy_meta d SCHEMA_VERSION_KEY db meta Hh Hd Hm) as [Hok Hh'].
  destruct (read_meta d SCHEMA_VERSION_KEY) as [[v|] d1] eqn:Hr; [|done]. simpl in *. split; [|done].
  apply read_meta_ok in Hr as (db' & meta' & Hdb & Hm' & ->). rewrite Hd in Hdb. injection Hdb as <-.
  rewrite Hm in Hm'. injection Hm' as <-. by rewrite Hv.
Qed.

Lemma healthy_open_holds d events capacity :
  all_storable events → holds d events → engine_healthy d → is_ok (open_bounded d capacity).1 = true.
Proof.
  intros Hst Hh Hok. unfold open_bounded. pose proof Hh as (meta & table & Hd & Hv & Hm).
  rewrite (proj2 (path_exists_tables d)) by (by rewrite Hd). unfold initialize. simpl.
  destruct (healthy_create d Hok) as [Hc1 Hok1].
  destruct (database_create d) as [[[]|e] d1] eqn:Hcr; [|done]. simpl in Hok1.
  apply create_ok in Hcr. rewrite Hd in Hcr. simpl in Hcr.
  destruct (healthy_initialize d1 _ Hok1 Hcr) as [Hi Hok2]; [by exists meta|].
  destruct (validate_schema_exact d1) as [Hs _]. unfold initialize in Hi, Hok2. simpl in Hi, Hok2.
  destruct (validate_schema d1) as [[[]|e] d2]; [|done]. simpl in Hs, Hok2.
  assert (Hh2 : holds d2 events) by (eapply holds_same; [|exact Hh]; congruence).
  pose proof (healthy_load d2 events Hst Hh2 Hok2) as Hl. by destruct (load d2) as [[ev|] d3].
Qed.

Lemma healthy_open_fresh d capacity :
  tables d = None → engine_healthy d → is_ok (open_bounded d capacity).1 = true.
Proof.
  intros Hd Hok. unfold open_bounded.
  assert (path_exists d = false) as ->.
  { apply not_true_is_false. rewrite path_exists_tables, Hd. by intros [? ?]. }
  simpl. destruct (healthy_create d Hok) as [Hc1 Hok1].
  destruct (database_create d) as [[[]|e] d1] eqn:Hcr; [|done]. simpl in Hok1.
  apply create_ok in Hcr. rewrite Hd in Hcr. unfold initialize. simpl.
  match goal with |- context [write_transaction d1 ?b] => destruct (healthy_write d1 b Hok1) as [Hw Hok2];
    destruct (write_transaction d1 b) as [[[]|e] d2] eqn:Hwr; [|done] end.
  apply write_ok in Hwr as (ops & [= <-] & Hwr). rewrite Hcr in Hwr. simpl in Hwr, Hok2.
  assert (Hh : holds d2 ∅).
  { eexists _, ∅. split_and!; [exact Hwr|by rewrite lookup_insert_eq|apply mirrors_empty]. }
  pose proof (healthy_load d2 ∅ all_storable_empty Hh Hok2) as Hl. by destruct (load d2) as [[ev|] d3].
Qed.

(** ** Lifetimes *)

(** A cache in use, or a file with the contributions its last owner held. *)
Inductive process :=
| Running (c : RedbEventCache)
| Stopped (d : Disk) (held : gmap (EventId * RelayUrl) RelayEvent).

(** One file over any number of runs: created, with a first opening that may
    fail or be killed half way, opened, written through every public writer,
    killed between writes, opened again, each engine call free to fail.  A run
    stays below the last revision of 64 bits, at which a batch reaches the file
    and not the mirror. *)
Inductive lifetime : process → Prop :=
| life_new d : tables d = None → lifetime (Stopped d ∅)
| life_open d held capacity c d' :
    lifetime (Stopped d held) → open_bounded d capacity = (Ok c, d') → lifetime (Running c)
| life_refused d held capacity e d' :
    lifetime (Stopped d held) → open_bounded d capacity = (Err e, d') → lifetime (Stopped d' held)
| life_cut d held d' :
    lifetime (Stopped d held) → tables d = None → creation_cut d' → lifetime (Stopped d' held)
| life_admit c event now :
    lifetime (Running c) → storable event → (cs_revision (rc_state c) < u64_max)%N →
    lifetime (Running (admit_event c event now).2)
| life_expire c now :
    lifetime (Running c) → (cs_revision (rc_state c) < u64_max)%N → lifetime (Running (expire c now).2)
| life_commit c batch :
    lifetime (Running c) → (∀ r, Upsert r ∈ batch → storable r) → separate batch →
    (cs_revision (rc_state c) < u64_max)%N → lifetime (Running (commit c batch).2)
| life_coverage c coverage :
    lifetime (Running c) → lifetime (Running (retain_source_coverage c coverage))
| life_kill c :
    lifetime (Running c) → lifetime (Stopped (rc_database c) (cs_events (rc_state c))).

Definition process_ok (p : process) : Prop :=
  match p with
  | Running c => running_ok c
  | Stopped d held =>
      keyed held ∧ all_storable held ∧ (((tables d = None ∨ creation_cut d) ∧ held = ∅) ∨ holds d held)
  end.

Lemma keyed_empty : keyed ∅.
Proof. intros k r Hkr. by rewrite lookup_empty in Hkr. Qed.

Lemma admit_running c event now :
  EventIdBinding → HexIds → running_ok c → storable event → (cs_revision (rc_state c) < u64_max)%N →
  running_ok (admit_event c event now).2.
Proof.
  intros Hb Hhex Hc Hs Hrev. unfold admit_event. cbn [ec_transact redb_event_cache].
  pose proof (transact_commit c (admit_decide event now)) as Ht.
  destruct (transact c (admit_decide event now)) as [r c']. simpl in Ht. subst c'.
  assert (Hup : ∀ r, Upsert r ∈ (admit_decide event now (values (cs_events (rc_state c)))).1 → r = event).
  { intros r' [Hr|Hr]%elem_of_app; [by apply expirations_no_upsert in Hr|].
    eapply admission_upsert; [apply mutations_for_event_admission|exact Hr]. }
  apply commit_running; [done..| | |done].
  - intros r' ->%Hup. done.
  - intros Hok. destruct (decide (event_verify (re_event event) = None)) as [Hv|Hv].
    + apply admit_separate; [done| |done]. by apply keyed_values_verified, Hc.
    + intros r' Hr'. pose proof (Hup r' Hr') as ->. by apply (apply_verified _ _ _ _ Hok) in Hr'.
Qed.

Lemma expire_running c now :
  EventIdBinding → HexIds → running_ok c → (cs_revision (rc_state c) < u64_max)%N →
  running_ok (expire c now).2.
Proof.
  intros Hb Hhex Hc Hrev. unfold expire. cbn [ec_transact redb_event_cache].
  pose proof (transact_commit c (λ current, (mutations_for_expiration current now, tt))) as Ht.
  destruct (transact c _) as [r c']. simpl in Ht. subst c'.
  apply commit_running; [done..| | |done].
  - intros r' Hr. by apply expirations_no_upsert in Hr.
  - intros _. apply expire_separate.
Qed.

Lemma lifetime_ok p : EventIdBinding → HexIds → lifetime p → process_ok p.
Proof.
  intros Hb Hhex. induction 1 as [d Hd|d held capacity c d' _ IH Ho|d held capacity e d' _ IH Ho|
    d held d' _ IH Hd Hcut|c event now _ IH|c now _ IH|c batch _ IH Hs Hsep|c coverage _ IH|c _ IH]; simpl in *.
  - split_and!; [apply keyed_empty|apply all_storable_empty|by left; split; [left|]].
  - destruct IH as (Hk & Hst & [[[Hd|Hcut] ->]|Hh]).
    + destruct (open_fresh _ _ _ _ Hd Ho) as (Hh & <- & _ & Hs & Hl). split; rewrite ?Hl, ?Hs; done.
    + apply (interrupted_creation_refused d capacity) in Hcut as [Hno _]. by rewrite Ho in Hno.
    + destruct (open_holds _ _ _ _ _ Hst Hh Ho) as [Ht Hc].
      destruct (Hc c eq_refl) as (<- & _ & Hs & Hl). split; rewrite ?Hl, ?Hs; try done. by eapply holds_same.
  - destruct IH as (Hk & Hst & Hcase). split_and!; [done|done|]. destruct Hcase as [[[Hn|Hcut] ->]|Hh].
    + destruct (open_fresh_refused _ _ _ _ Hn Ho) as [?|[?|?]]; [left..|by right]; split; [by left|done|by right|done].
    + left. split; [right|done]. apply (interrupted_creation_refused d capacity) in Hcut as [_ Hno]. by rewrite Ho in Hno.
    + right. destruct (open_holds _ _ _ _ _ Hst Hh Ho) as [Ht _]. by eapply holds_same.
  - destruct IH as (Hk & Hst & [[_ ->]|(meta & table & Ht & _)]); [|by rewrite Hd in Ht].
    split_and!; [done|done|]. left. split; [by right|done].
  - by apply admit_running.
  - by apply expire_running.
  - by apply commit_running.
  - destruct IH. by split.
  - destruct IH. split_and!; [done|done|by right].
Qed.

(** C23. A restart recovers exactly what was held.  Over any lifetime of a
    cache file (created, perhaps not completely; opened and reopened at any
    capacity, written through admissions, expirations and batches that offer
    nothing they retract, below the last 64-bit revision, with any engine call
    failing at any time, killed between writes), whenever the file is opened the
    cache starts with the contributions its last owner held, at revision zero,
    and publishes them.  While the engine does not fail the file does open,
    unless its creation stopped before the schema was written: then nothing was
    ever held, and it never opens. *)
Theorem reopen_recovers (d : Disk) (held : gmap (EventId * RelayUrl) RelayEvent) (capacity : nat)
    (Hbind : EventIdBinding) (Hhex : HexIds) (Hlife : lifetime (Stopped d held)) :
  (engine_healthy d → creation_cut d ∨ is_ok (open_bounded d capacity).1 = true) ∧
  (creation_cut d → held = ∅ ∧ is_ok (open_bounded d capacity).1 = false) ∧
  ∀ c d', open_bounded d capacity = (Ok c, d') →
    cs_events (rc_state c) = held ∧ cs_revision (rc_state c) = 0%N ∧
    open_initial c = mkSnapshot EventCacheSource 0 SourceOpen (SourceRelay <$> values held) [] ∧
    holds d' held.
Proof.
  destruct (lifetime_ok _ Hbind Hhex Hlife) as (Hk & Hst & [[[Hd|Hcut] ->]|Hh]).
  - split_and!; [intros; right; by apply healthy_open_fresh|unfold creation_cut; congruence|].
    intros c d' Ho. unfold open_initial.
    destruct (open_fresh _ _ _ _ Hd Ho) as (Hh & _ & _ & Hs & ->). by rewrite Hs.
  - pose proof (interrupted_creation_refused d capacity Hcut) as [Hno _].
    split_and!; [by left|done|]. intros c d' Ho. by rewrite Ho in Hno.
  - split_and!; [intros; right; by apply (healthy_open_holds _ held)| |].
    { intros Hcut. destruct Hh as (meta & table & Ht & _). by rewrite Hcut in Ht. }
    intros c d' Ho. unfold open_initial.
    destruct (open_holds _ _ _ _ _ Hst Hh Ho) as [Ht Hc]. destruct (Hc c eq_refl) as (_ & _ & Hs & ->).
    rewrite Hs. split_and!; try done. by eapply holds_same.
Qed.

(** C24. The durable cache is the in-memory cache with a file under it.  A batch
    is refused by both or by the engine alone; one that lists no difference
    changes nothing; any other leaves the durable cache exactly where the
    in-memory cache would be, contributions, retractions, coverage, revision
    and published snapshot alike; and a refusal of the engine leaves the mirror
    where it was. *)
Theorem redb_commit_as_memory (c : RedbEventCache) (batch : list EventStateMutation)
    (r : result EventCacheError unit) (c' : RedbEventCache) (Hcommit : commit c batch = (r, c')) :
  match r with
  | Ok _ =>
      (c' = c ∧ ∃ next, MemoryCache.apply (rc_capacity c) (rc_state c) batch = Ok next ∧
                        cs_events next = cs_events (rc_state c)) ∨
      MemoryCache.commit (as_memory c) batch = (Ok tt, as_memory c')
  | Err e => as_memory c' = as_memory c ∧
      ((MemoryCache.commit (as_memory c) batch).1 = Err e ∨
       ∃ next inserted removed text,
         apply (rc_capacity c) (rc_state c) batch = Ok (next, inserted, removed) ∧
         (apply_diff (rc_database c) inserted removed).1 = Err text ∧ e = CacheRefused text)
  end.
Proof.
  unfold MemoryCache.commit, publish. simpl. rewrite apply_memory.
  apply commit_outcome in Hcommit as [(e & Ha & -> & ->)|[(next & Ha & -> & ->)|(next & ins & rem & Ha & _ & Hp)]];
    rewrite Ha; simpl.
  - split; [done|by left].
  - left. split; [done|]. exists next. split; [done|]. by eapply apply_quiet.
  - assert (Hrev : cs_revision next = cs_revision (rc_state c)) by (by apply apply_Ok_work in Ha as (w & _ & -> & _)).
    pose proof (persist_outcome _ _ _ _ _ _ Hp) as [Hcap Hout]. destruct r as [[]|e].
    + right. destruct Hout as (Hlt & Hst & Hl). unfold as_memory.
      rewrite (proj2 (checked_succ_Some (cs_revision next) _) (conj Hlt eq_refl)). by rewrite Hcap, Hl, Hst.
    + destruct Hout as [Hst Hl]. split; [unfold as_memory; by rewrite Hcap, Hst, Hl|].
      unfold persist_and_publish in Hp. destruct (apply_diff _ ins rem) as [[[]|text] d] eqn:Hd.
      * left. by destruct (checked_succ (cs_revision next)); injection Hp as <- _.
      * right. exists next, ins, rem, text. rewrite Hd. by injection Hp as <- _.
Qed.

End durable.
