(* ===== verification/PersistentCacheWitness.v ===== *)
(** * The durable event cache: runs

    One concrete engine (a file and the faults its next calls meet), one
    concrete encoding and one [nostr] instance, with the laws of each, and the
    runs of the durable cache on them: the hypotheses of its theorems met, and
    the three inputs on which a restart does not bring back what was promised. *)

From S2P Require Import Prelude Nostr Relay State Write Query EventCache MemoryCache Edits Redb PersistentCache PersistentCacheProps.

Module RedbSample.
Import Nostr.Sample Edits.EditSample Redb.RedbMedia.

(** ** [nostr] with ids bound to bodies and 32-byte conversions *)

Definition bound_nostr : Nostr := {|
  kind_is_replaceable := is_replaceable;
  kind_is_addressable := is_addressable;
  event_id_from_hex := λ s, key_slice (bytes_of_string s);
  event_id_parse := λ s, key_slice (bytes_of_string s);
  public_key_parse := λ s, key_slice (bytes_of_string s);
  public_key_to_hex := key_text;
  relay_url_parse := λ s, if bool_decide (s = ""%string) then None else Some s;
  coordinate_parse := coordinate;
  event_verify := λ e,
    if bool_decide (ev_id e = body_id (ev_pubkey e) (ev_created_at e) (ev_kind e) (ev_tags e))
    then None else Some "invalid event id"%string;
  unsigned_verify_id := λ _, None;
  unsigned_ensure_id := λ e, e;
  tags_expiration := expiration;
  tag_single_letter := single_letter;
  tag_content := λ t, t !! 1;
  event_id_to_string := key_text;
  public_key_debug := key_text;
  event_id_debug := key_text;
  unsigned_json_len := λ e, Ok (200 + String.length (un_content e));
  event_json_len := λ e, Ok (330 + String.length (ev_content e))
|}.
#[local] Existing Instance bound_nostr | 0.

Lemma bound_binding : EventIdBinding.
Proof.
  intros e1 e2. cbn. intros H1 H2 Hid.
  case_bool_decide as E1; [|done]. case_bool_decide as E2; [|done].
  rewrite E1, E2 in Hid. unfold body_id in Hid. injection Hid as Hid.
  apply (inj encode) in Hid. by injection Hid as -> -> -> ->.
Qed.

#[local] Instance bound_bytes_laws : NostrBytesLaws.
Proof.
  split; intros; [apply length_to_be_bytes|by apply key_slice_bytes|by eapply key_slice_ok
    |by apply key_slice_text|apply length_to_be_bytes|by apply key_slice_bytes|by eapply key_slice_ok
    |by apply key_slice_text|done].
Qed.

Lemma length_string_of_bytes bytes : String.length (string_of_bytes bytes) = length bytes.
Proof. induction bytes as [|b bytes IH]; simpl; [done|]. by rewrite IH. Qed.

Lemma bound_hex : HexIds.
Proof. exists 32. intros i _. cbn. unfold key_text. by rewrite length_string_of_bytes, length_to_be_bytes. Qed.

(** ** An injective encoding *)

#[local] Instance event_countable : Countable Event.
Proof.
  apply (inj_countable'
    (λ e, (ev_id e, ev_pubkey e, ev_created_at e, ev_kind e, ev_tags e, ev_content e, ev_sig e))
    (λ '(i, p, c, k, t, s, g), mkEvent i p c k t s g)). by intros [].
Defined.

#[local] Instance persisted_authority_eq_dec : EqDecision PersistedAuthority.
Proof. solve_decision. Defined.
#[local] Instance persisted_authority_countable : Countable PersistedAuthority.
Proof.
  apply (inj_countable' (λ a, match a with PersistedUnauthenticated => None | PersistedAs h => Some h end)
    (λ o, match o with None => PersistedUnauthenticated | Some h => PersistedAs h end)). by intros [].
Defined.

#[local] Instance persisted_eq_dec : EqDecision (PersistedEvent Event).
Proof. solve_decision. Defined.
#[local] Instance persisted_countable : Countable (PersistedEvent Event).
Proof.
  apply (inj_countable' (λ p, (pe_event_json p, pe_relay_url p, pe_authority p, pe_observed_at p))
    (λ '(j, u, a, o), mkPersisted j u a o)). by intros [].
Defined.

Fixpoint bits (p : positive) : string :=
  match p with xH => "" | xO p => String "0" (bits p) | xI p => String "1" (bits p) end.
Fixpoint of_bits (s : string) : positive :=
  match s with
  | EmptyString => xH
  | String c s => if bool_decide (c = "0"%char) then xO (of_bits s) else xI (of_bits s)
  end.
Lemma of_bits_bits p : of_bits (bits p) = p.
Proof. induction p as [p IH|p IH|]; simpl; by rewrite ?IH. Qed.

#[local] Instance sample_serde : Serde := {|
  Json := Event;
  event_to_value := λ e, Ok e;
  event_from_value := λ e, Ok e;
  persisted_to_vec := λ p, Ok (bits (encode p));
  persisted_from_slice := λ b, ok_or (decode (of_bits b)) "malformed record"%string;
  relay_url_error := λ _, "empty host"%string;
  public_key_error := λ _, "malformed public key"%string
|}.

#[local] Instance sample_serde_laws : SerdeLaws.
Proof.
  split; [by intros ?? [= ->]| |done|done].
  intros p b [= <-]. cbn. by rewrite of_bits_bits, decode_encode.
Qed.

(** ** Runs *)

Definition no_file : @Disk string string _ _ _ := mkMedia None [].

Definition held_event (pubkey created_at kind : N) (tags : list Tag) (at_ : N) : RelayEvent :=
  mkRelayEvent (Sample.sealed pubkey created_at kind tags) (mkOccurrence "wss://a" (As 3) at_).
Definition note := held_event 1 10 1 [] 100.
Definition note_earlier := held_event 1 10 1 [] 50.
Definition other := held_event 2 11 1 [] 101.

Definition opened (d : @Disk string string _ _ _) (capacity : nat) : RedbEventCache :=
  match open_bounded d capacity with
  | (Ok c, _) => c
  | (Err _, d) => mkRedbCache _ 0 d default_cache_state (cache_snapshot default_cache_state)
  end.

Definition first_run : RedbEventCache := (admit_event (opened no_file 4) note 1000).2.

Example first_run_admits : (admit_event (opened no_file 4) note 1000).1 = Ok true.
Proof. vm_compute. reflexivity. Qed.

Lemma note_storable : storable note.
Proof. split_and!; [apply N.ltb_lt; vm_compute; reflexivity|reflexivity|apply N.ltb_lt; reflexivity]. Qed.

Lemma opened_new capacity : open_bounded no_file capacity = (Ok (opened no_file capacity), rc_database (opened no_file capacity)).
Proof. reflexivity. Qed.

Lemma first_run_lifetime : lifetime (Running first_run).
Proof.
  apply life_admit; [|exact note_storable|reflexivity].
  eapply life_open; [apply (life_new no_file)|exact (opened_new 4)]. reflexivity.
Qed.

Lemma reopen_recovers_witness :
  is_ok (open_bounded (rc_database first_run) 2).1 = true ∧
  cs_events (rc_state (opened (rc_database first_run) 2)) = cs_events (rc_state first_run) ∧
  len (opened (rc_database first_run) 2) = 1.
Proof.
  destruct (reopen_recovers (rc_database first_run) (cs_events (rc_state first_run)) 2
              bound_binding bound_hex (life_kill _ first_run_lifetime)) as (Hok & _ & Hev).
  destruct (Hok eq_refl) as [[=]|Hok']; clear Hok; rename Hok' into Hok. split; [exact Hok|]. unfold opened.
  destruct (open_bounded (rc_database first_run) 2) as [[c|e] d']; [|discriminate Hok].
  destruct (Hev c d' eq_refl) as [E _]. split; [exact E|]. unfold len. rewrite E. vm_compute. reflexivity.
Defined.

Lemma redb_commit_as_memory_witness :
  MemoryCache.commit (as_memory first_run) [Upsert note_earlier] =
    (Ok tt, as_memory (commit first_run [Upsert note_earlier]).2).
Proof.
  assert (E : commit first_run [Upsert note_earlier] = (Ok tt, (commit first_run [Upsert note_earlier]).2))
    by (vm_compute; reflexivity).
  destruct (redb_commit_as_memory first_run [Upsert note_earlier] _ _ E) as [[Hc _]|Hm]; [|exact Hm].
  exfalso. apply (f_equal (λ c, cs_revision (rc_state c))) in Hc. vm_compute in Hc. discriminate Hc.
Defined.

(** ** What a restart loses *)

(** A batch that retracts a contribution and offers it again succeeds and the
    running cache keeps it; the file does not, since the transaction inserts
    before it removes. *)
Definition offered_again : RedbEventCache :=
  (commit first_run [Retract (re_id note) (re_session note) Expired; Upsert note]).2.

Theorem offered_again_lost_on_restart :
  (commit first_run [Retract (re_id note) (re_session note) Expired; Upsert note]).1 = Ok tt ∧
  cs_events (rc_state offered_again) !! contribution_key note = Some note ∧
  len (opened (rc_database offered_again) 4) = 0.
Proof. vm_compute. done. Qed.

(** A first run that ends between the creation of the file and the schema
    transaction leaves a file no later run opens. *)
Theorem interrupted_creation_stays_refused :
  let cut := (open_bounded (mkMedia None [None; Some "killed"%string] : @Disk string string _ _ _) 4).2 in
  md_faults (cut : Media string string) = [] ∧ ∀ capacity, is_ok (open_bounded cut capacity).1 = false.
Proof.
  split; [reflexivity|]. intros capacity. by apply interrupted_creation_refused.
Qed.

(** Reopened under a smaller bound, the cache holds more than its capacity. *)
Definition two_events : RedbEventCache := (admit_event first_run other 1000).2.

Theorem reopened_over_capacity :
  rc_capacity (opened (rc_database two_events) 1) = 1 ∧ len (opened (rc_database two_events) 1) = 2.
Proof. vm_compute. done. Qed.
End RedbSample.
