(* ===== verification/RedbStore.v ===== *)
(** * The durable write store ([crates/fava-write-store-redb])

    [RedbWriteStore] is the second write store: the ledger behind its lock
    ([StoreState]), the redb file that holds one encoded row per receipt and the
    next identity, the snapshot last published and the receipt changes
    broadcast.  Every operation computes the change, writes it to the file in
    one transaction ([persist]) and only then assigns the ledger; a failure keeps
    the state it reached.  [open_bounded] rebuilds the ledger from the rows,
    refuses rows it takes for incoherent ([validation.rs]) and resolves what the
    last process left open.

    The engine is [Redb]; [LedgerSerde] stands for the serde_json encoding of a
    row.  Helpers the crate copies from the in-memory store word for word share
    the definitions of [MemoryStore].  A poisoned lock is not modelled; [now]
    stands for [Timestamp::now()]. *)

From S2P Require Import Prelude Nostr Relay State Write Query Routing Receipts MemoryStore Redb.

(** Edits, author, selected source, last failed source and waiting successor. *)
Record Semantic := mkSemantic {
  sc_edits : list EventEdit;
  sc_author : PublicKey;
  sc_source : option (EventId * Timestamp);
  sc_failed_source : option EventId;
  sc_successor : option Successor
}.

Record StoreState := mkStoreState {
  ss_revision : N;
  ss_next_identity : N;
  ss_next_reservation : N;
  ss_reservations : gmap N EventCoordinate;
  ss_receipts : gmap ReceiptId Receipt;
  ss_coordinates : gmap EventCoordinate ReceiptId;
  ss_semantics : gmap ReceiptId Semantic
}.

(** A row of the table: a receipt and its custody. *)
Record PersistedReceipt := mkPersistedReceipt {
  pr_receipt : Receipt;
  pr_semantic : option Semantic
}.

Class LedgerSerde := {
  (** the bytes of a row *)
  Row : Type;
  row_to_vec : PersistedReceipt → result string Row;
  row_from_slice : Row → result string PersistedReceipt
}.

(** Whether serde_json can write the target as the key of an object: of a
    [RouteTarget] only the variant without a field is a string. *)
Definition textual_target (t : RouteTarget) : bool :=
  match t with WholeRequest => true | _ => false end.

(** Whether every map key of a row is text: the other maps of a row are keyed by
    relay, the coverage of a waiting successor's route by target. *)
Definition textual_keys (p : PersistedReceipt) : bool :=
  match (custody ← pr_semantic p; successor ← sc_successor custody; su_route successor) with
  | Some plan => forallb textual_target (keys (rp_coverage plan))
  | None => true
  end.

(** A row that is written is read back as it was; one with a key that is no
    text is not written. *)
Class LedgerSerdeLaws `{LedgerSerde} : Prop := {
  row_roundtrip p b : row_to_vec p = Ok b → row_from_slice b = Ok p;
  row_keys_text p : textual_keys p = false → row_to_vec p = Err "key must be a string"%string
}.

Record RedbWriteStore `{!LedgerSerde} `{!Redb N Row} := mkRedbStore {
  rs_database : Disk;
  rs_state : StoreState;
  rs_active : nat;
  rs_terminal : nat;
  rs_latest : SourceSnapshot;
  rs_changes : list (ReceiptId * option Receipt)
}.

(** ** Field updates *)

Definition with_revision (n : N) (st : StoreState) : StoreState :=
  mkStoreState n (ss_next_identity st) (ss_next_reservation st) (ss_reservations st) (ss_receipts st)
    (ss_coordinates st) (ss_semantics st).
Definition with_identity (n : N) (st : StoreState) : StoreState :=
  mkStoreState (ss_revision st) n (ss_next_reservation st) (ss_reservations st) (ss_receipts st)
    (ss_coordinates st) (ss_semantics st).
Definition with_reservations (next : N) (m : gmap N EventCoordinate) (st : StoreState) : StoreState :=
  mkStoreState (ss_revision st) (ss_next_identity st) next m (ss_receipts st)
    (ss_coordinates st) (ss_semantics st).
Definition with_receipts (m : gmap ReceiptId Receipt) (st : StoreState) : StoreState :=
  mkStoreState (ss_revision st) (ss_next_identity st) (ss_next_reservation st) (ss_reservations st) m
    (ss_coordinates st) (ss_semantics st).
Definition with_coordinates (m : gmap EventCoordinate ReceiptId) (st : StoreState) : StoreState :=
  mkStoreState (ss_revision st) (ss_next_identity st) (ss_next_reservation st) (ss_reservations st)
    (ss_receipts st) m (ss_semantics st).
Definition with_semantics (m : gmap ReceiptId Semantic) (st : StoreState) : StoreState :=
  mkStoreState (ss_revision st) (ss_next_identity st) (ss_next_reservation st) (ss_reservations st)
    (ss_receipts st) (ss_coordinates st) m.

Definition put_receipt (id : ReceiptId) (r : Receipt) (st : StoreState) : StoreState :=
  with_receipts (<[id := r]> (ss_receipts st)) st.
Definition put_semantic (id : ReceiptId) (custody : Semantic) (st : StoreState) : StoreState :=
  with_semantics (<[id := custody]> (ss_semantics st)) st.

(** ** Coordinates and counts ([lib.rs], [lifecycle.rs]) *)

Definition semantic_coordinate (custody : Semantic) : option EventCoordinate :=
  (λ edit, edit_coordinate edit (sc_author custody)) <$> last (sc_edits custody).

Definition release_semantic_coordinate (id : ReceiptId) (st : StoreState) : StoreState :=
  match ss_semantics st !! id ≫= semantic_coordinate with
  | Some coordinate => with_coordinates (delete coordinate (ss_coordinates st)) st
  | None => st
  end.

Definition release_semantic (id : ReceiptId) (st : StoreState) : StoreState :=
  let st' := with_semantics (delete id (ss_semantics st)) st in
  match ss_semantics st !! id ≫= semantic_coordinate with
  | Some coordinate => with_coordinates (delete coordinate (ss_coordinates st')) st'
  | None => st'
  end.

(** [crate::release_semantic(&mut state, *id); state.receipts.remove(id)]. *)
Definition drop_receipt (st : StoreState) (id : ReceiptId) : StoreState :=
  let st := release_semantic id st in with_receipts (delete id (ss_receipts st)) st.

Definition redb_next_revision (st : StoreState) : result WriteStoreError N :=
  ok_or (checked_succ (ss_revision st)) (StoreRefused "source revision exhausted").

Definition redb_active_count (st : StoreState) : nat :=
  length (List.filter (λ r, negb (receipt_is_terminal r)) (values (ss_receipts st))).

Definition redb_capacity_reached (st : StoreState) (capacity : nat) : bool :=
  bool_decide (capacity ≤ redb_active_count st +
    length (List.filter (λ c, bool_decide (ss_coordinates st !! c = None)) (values (ss_reservations st)))).

Definition active_refused (active : nat) : string :=
  "active write bound " +:+ pretty active +:+ " reached".

Definition terminal_evictions (st : StoreState) (updated : Receipt) (maximum : nat) : list ReceiptId :=
  let terminal := merge_sort N.le (rc_receipt_id <$>
    List.filter (λ r, receipt_is_terminal r && negb (bool_decide (rc_receipt_id r = rc_receipt_id updated)))
      (values (ss_receipts st))) in
  let projected := length terminal + (if receipt_is_terminal updated then 1 else 0) in
  take (projected - maximum) terminal.

Definition terminal_count (st : StoreState) : nat :=
  length (List.filter receipt_is_terminal (values (ss_receipts st))).

Definition validate_recovered_bounds (st : StoreState) (active terminal : nat) : result WriteStoreError unit :=
  _ ← ensure (bool_decide (redb_active_count st ≤ active))
        (StoreRefused ("recovered active write count exceeds bound: " +:+ pretty (redb_active_count st)
                       +:+ " > " +:+ pretty active));
  ensure (bool_decide (terminal_count st ≤ terminal))
    (StoreRefused ("recovered terminal receipt count exceeds bound: " +:+ pretty (terminal_count st)
                   +:+ " > " +:+ pretty terminal)).

Definition redb_snapshot (st : StoreState) : SourceSnapshot :=
  mkSnapshot WriteStoreSource (ss_revision st) SourceOpen
    ((λ r, SourceLocal (rc_current r)) <$> List.filter (λ r, negb (is_cancelled r)) (values (ss_receipts st))) [].

(** [recover_ambiguous_delivery]: an attempt in flight when the process ended. *)
Definition ambiguous_reason : string := "process ended after attempt authorization before outcome commit".

Definition resolve_attempt (o : RelayDeliveryOutcome) : RelayDeliveryOutcome :=
  match o with Attempting => Unknown ambiguous_reason | o => o end.

Definition is_ambiguous (r : Receipt) : bool :=
  existsb (λ o, bool_decide (o = Attempting)) (values (rc_destinations r)).

Definition recover_receipt (r : Receipt) : Receipt :=
  if is_ambiguous r
  then settle (update_publication (with_destinations (resolve_attempt <$> rc_destinations r)) r)
  else r.

Definition recover_ambiguous_delivery (st : StoreState) : StoreState * list ReceiptId :=
  let changed := List.filter is_ambiguous (values (ss_receipts st)) in
  let released := List.filter (λ r, receipt_is_terminal (recover_receipt r)) changed in
  (foldl (λ st r, release_semantic_coordinate (rc_receipt_id r) st)
     (with_receipts (recover_receipt <$> ss_receipts st) st) released,
   rc_receipt_id <$> changed).

(** ** Rows and the file ([schema.rs]) *)

Definition NEXT_ID : string := "next_id".
Definition LEDGER_VERSION_KEY : string := "schema_version".
Definition LEDGER_VERSION : N := 1.

(** [refused(error)]. *)
Definition refused_text {A} (r : result string A) : result WriteStoreError A :=
  match r with Ok a => Ok a | Err e => Err (StoreRefused e) end.

(** What loading accumulates. *)
Record Loaded := mkLoaded {
  ld_receipts : gmap ReceiptId Receipt;
  ld_coordinates : gmap EventCoordinate ReceiptId;
  ld_semantics : gmap ReceiptId Semantic
}.

Section schema.
Context `{!LedgerSerde} `{!Redb N Row}.

Definition ledger_validate_schema (d : Disk) : result WriteStoreError unit * Disk :=
  let '(r, d) := read_meta d LEDGER_VERSION_KEY in
  (version ← refused_text r;
   version ← ok_or version (StoreRefused "write-store schema version missing");
   ensure (bool_decide (version = LEDGER_VERSION))
     (StoreRefused ("write-store schema version mismatch: " +:+ pretty version +:+ " != "
                    +:+ pretty LEDGER_VERSION)), d).

Definition ledger_initialize (d : Disk) (is_new : bool) : result WriteStoreError unit * Disk :=
  if negb is_new then ledger_validate_schema d
  else
    let '(r, d) := write_transaction d
      (Ok [OpenRows; OpenMeta; InsertMeta NEXT_ID 1; InsertMeta LEDGER_VERSION_KEY LEDGER_VERSION]) in
    (refused_text r, d).

Definition write_row (receipt : Receipt) (semantic : option Semantic) : result string (TableWrite N Row) :=
  bytes ← row_to_vec (mkPersistedReceipt receipt semantic);
  Ok (InsertRow (rc_receipt_id receipt) bytes).

(** [schema::commit]: the row, then the removals, then the next identity. *)
Definition ledger_commit (d : Disk) (next_identity : option N) (row : option (Receipt * option Semantic))
    (removals : list ReceiptId) : result string unit * Disk :=
  write_transaction d
    (written ← match row with
               | Some (receipt, semantic) => op ← write_row receipt semantic; Ok [op]
               | None => Ok []
               end;
     Ok (OpenRows :: written ++ (RemoveRow <$> removals) ++
         match next_identity with
         | Some next => [OpenMeta; InsertMeta NEXT_ID next]
         | None => []
         end)).

(** The rows of [persist_existing]. *)
Definition existing_row (st : StoreState) (id : ReceiptId) : result string (TableWrite N Row) :=
  receipt ← ok_or (ss_receipts st !! id) "recovered receipt disappeared"%string;
  write_row receipt (ss_semantics st !! id).

Definition persist_existing (d : Disk) (st : StoreState) (ids : list ReceiptId) : result WriteStoreError unit * Disk :=
  let '(r, d) := write_transaction d (rows ← collect_results (existing_row st <$> ids); Ok (OpenRows :: rows)) in
  (refused_text r, d).

(** *** Loading *)

Definition load_semantic (loaded : Loaded) (id : ReceiptId) (receipt : Receipt) (semantic : option Semantic)
    : result WriteStoreError Loaded :=
  match semantic with
  | None => Ok loaded
  | Some custody =>
      _ ← ensure (bool_decide (pub_revision_source (rc_publication receipt) = source_id (sc_source custody)))
            (StoreRefused "durable semantic custody is incoherent");
      coordinates ←
        if receipt_is_terminal receipt then Ok (ld_coordinates loaded)
        else
          coordinate ← ok_or (semantic_coordinate custody)
            (StoreRefused "durable semantic edit sequence is empty");
          _ ← ensure (bool_decide (ld_coordinates loaded !! coordinate = None))
                (StoreRefused "duplicate durable semantic coordinate owner");
          Ok (<[coordinate := id]> (ld_coordinates loaded));
      Ok (mkLoaded (ld_receipts loaded) coordinates (<[id := custody]> (ld_semantics loaded)))
  end.

Definition load_row (loaded : Loaded) (entry : N * Row) : result WriteStoreError Loaded :=
  row ← refused_text (row_from_slice entry.2);
  let id := entry.1 in
  let receipt := pr_receipt row in
  _ ← ensure (bool_decide (id ≠ 0%N)) (StoreRefused "durable receipt identity is zero");
  _ ← ensure (bool_decide (rc_receipt_id receipt = id) && bool_decide (rc_write_id receipt = id))
        (StoreRefused "durable receipt identity does not match its row");
  loaded ← load_semantic loaded id receipt (pr_semantic row);
  _ ← ensure (bool_decide (ld_receipts loaded !! id = None))
        (StoreRefused "duplicate durable receipt identity");
  Ok (mkLoaded (<[id := receipt]> (ld_receipts loaded)) (ld_coordinates loaded) (ld_semantics loaded)).

Fixpoint load_rows (loaded : Loaded) (l : list (N * Row)) : result WriteStoreError Loaded :=
  match l with
  | [] => Ok loaded
  | entry :: l => loaded ← load_row loaded entry; load_rows loaded l
  end.

End schema.

(** ** What a loaded row must satisfy ([validation.rs]) *)

Definition incoherent {A} (reason : string) : result WriteStoreError A := Err (StoreRefused reason).
Definition coherent (b : bool) (reason : string) : result WriteStoreError unit :=
  ensure b (StoreRefused reason).

Definition verified (failure : option string) : result WriteStoreError unit :=
  match failure with Some error => Err (StoreRefused error) | None => Ok tt end.

(** [impl Display for InvalidEventValue]. *)
Definition invalid_value_text (e : InvalidEventValue) : string :=
  match e with MissingId => "unsigned event has no computed event id" end.

Definition validate_routing (r : Receipt) : result WriteStoreError unit :=
  match rc_routing r with
  | Automatic => Ok tt
  | Explicit relays =>
      _ ← coherent (negb (bool_decide (relays = []))) "durable explicit route is empty";
      _ ← coherent (bool_decide (NoDup relays)) "durable explicit route repeats a relay identity";
      coherent (bool_decide (dom (rc_destinations r) = list_to_set relays) &&
                bool_decide (rc_desired_destinations r = list_to_set relays))
        "durable explicit route disagrees with its destination lanes"
  end.

Definition validate_bounds_and_text (r : Receipt) : result WriteStoreError unit :=
  let within n := bool_decide (n ≤ destination_evidence_capacity) in
  _ ← coherent (within (size (rc_destinations r)) &&
                within (length (pub_retired_revisions (rc_publication r))) &&
                within (size (rc_desired_destinations r)) && within (size (rc_attempts r)) &&
                within (length (rc_route_shortfalls r)) &&
                match rc_routing r with Explicit relays => within (length relays) | Automatic => true end)
        "durable destination or evidence count exceeds bound";
  _ ← coherent (bool_decide (rc_desired_destinations r ⊆ dom (rc_destinations r)) &&
                forallb (λ p : RelayUrl * N, negb (bool_decide (p.2 = 0%N)) &&
                           bool_decide (is_Some (rc_destinations r !! p.1))) (entries (rc_attempts r)))
        "durable destination ownership is incoherent";
  _ ← for_each validate_delivery_outcome (values (rc_destinations r));
  _ ← for_each validate_receipt_text (rc_route_shortfalls r);
  match pub_revision_failure (rc_publication r) with
  | Some failure => validate_receipt_text failure
  | None => Ok tt
  end.

Definition validate_outcome (r : Receipt) : result WriteStoreError unit :=
  let is_settled := rc_route_settled r && forallb outcome_is_terminal (values (rc_destinations r)) in
  coherent
    match rc_outcome r with
    | Open => negb is_settled
    | Cancelled => forallb (λ o, bool_decide (o = CancelledBeforeHandoff)) (values (rc_destinations r))
    | Complete => is_settled && negb (bool_decide (rc_desired_destinations r = ∅))
    | NoDestination => is_settled && bool_decide (rc_desired_destinations r = ∅)
    end "durable receipt outcome disagrees with route evidence".

(** [for (index, (id, event_id, _, failure)) in retired_revisions.iter().enumerate()]. *)
Fixpoint validate_retired (index : N) (event_ids : gset EventId)
    (retired : list (RevisionId * EventId * option EventId * option string)) : result WriteStoreError unit :=
  match retired with
  | [] => Ok tt
  | (id, event_id, _, failure) :: retired =>
      _ ← coherent (bool_decide (checked_succ index = Some id) && bool_decide (event_id ∉ event_ids))
            "durable retired revision identity is incoherent";
      _ ← match failure with
          | None => Ok tt
          | Some failure =>
              _ ← validate_receipt_text failure;
              coherent (String.prefix ("revision " +:+ pretty id +:+ " from source ") failure)
                "durable retired failure attribution is incoherent"
          end;
      validate_retired (index + 1) ({[ event_id ]} ∪ event_ids) retired
  end.

Section validation.
Context `{Nostr}.

Definition validate_event_and_signature (r : Receipt) : result WriteStoreError unit :=
  match lw_event (rc_current r), pub_signature (rc_publication r) with
  | Unsigned event, (SigUnsigned | SigAuthorized) => verified (unsigned_verify_id event)
  | Unsigned event, (SigRetryable reason | SigRefused reason) =>
      _ ← verified (unsigned_verify_id event); validate_receipt_text reason
  | Signed event, SigSigned => verified (event_verify event)
  | _, _ => incoherent "durable signature state disagrees with current event"
  end.

Definition validate_successor (r : Receipt) (author : PublicKey) (successor : Successor)
    : result WriteStoreError unit :=
  _ ← verified (unsigned_verify_id (su_event successor));
  _ ← coherent (bool_decide (un_pubkey (su_event successor) = author) &&
                match su_source successor with
                | Some (_, time) => bool_decide (time < un_created_at (su_event successor))%N
                | None => true
                end &&
                match pub_signature (rc_publication r) with
                | SigAuthorized | SigRetryable _ => true
                | _ => false
                end) "durable semantic successor disagrees with current custody";
  _ ← apply_initial_route (su_route successor) r;
  Ok tt.

(** The text a recorded failure must begin with. *)
Definition failure_prefix (revision_id : RevisionId) (source : option EventId) : string :=
  "revision " +:+ pretty revision_id +:+ " from source " +:+
  match source with None => "empty state" | Some id => event_id_to_string id end +:+ " failed".

Definition validate_semantic (r : Receipt) (custody : Semantic) : result WriteStoreError unit :=
  let publication := rc_publication r in
  _ ← coherent (negb (bool_decide (sc_edits custody = [])) &&
                bool_decide (length (sc_edits custody) ≤ length (pub_retired_revisions publication) + 1))
        "durable semantic edit sequence and generations disagree";
  _ ← match sc_successor custody with
      | Some successor => validate_successor r (sc_author custody) successor
      | None => Ok tt
      end;
  _ ← coherent (bool_decide (value_author (lw_event (rc_current r)) = sc_author custody))
        "durable semantic custody is incoherent";
  coordinate ← match value_coordinate (lw_event (rc_current r)) with
               | Ok coordinate => Ok coordinate
               | Err e => Err (StoreRefused (invalid_value_text e))
               end;
  _ ← coherent (bool_decide (Some coordinate = semantic_coordinate custody) &&
                bool_decide (pub_revision_source publication = source_id (sc_source custody)) &&
                match sc_source custody with
                | Some (id, time) =>
                    event_is_newer (value_created_at (lw_event (rc_current r)), lw_id (rc_current r)) (time, id)
                | None => true
                end) "durable semantic custody is incoherent";
  match pub_revision_failure publication with
  | None => coherent (bool_decide (sc_failed_source custody = None))
              "durable failed source and failure evidence disagree"
  | Some reason =>
      let prefix := failure_prefix (pub_revision_id publication) (sc_failed_source custody) in
      coherent (bool_decide (reason = prefix) || String.prefix (prefix +:+ ": ") reason)
        "durable failed-source attribution is incoherent"
  end.

Definition validate_revisions (r : Receipt) (semantic : option Semantic) : result WriteStoreError unit :=
  let publication := rc_publication r in
  let current_id := pub_revision_id publication in
  _ ← coherent (negb (bool_decide (current_id = 0%N)) &&
                bool_decide (N.of_nat (length (pub_retired_revisions publication)) = (current_id - 1)%N))
        "durable revision generations are not contiguous";
  _ ← validate_retired 0 {[ lw_id (rc_current r) ]} (pub_retired_revisions publication);
  match semantic with
  | Some custody => validate_semantic r custody
  | None =>
      coherent (bool_decide (pub_revision_source publication = None) &&
                bool_decide (pub_revision_failure publication = None) && bool_decide (current_id = 1%N))
        "durable publication evidence has no semantic custody"
  end.

Definition validate_receipt (row_id : ReceiptId) (r : Receipt) (semantic : option Semantic)
    : result WriteStoreError unit :=
  let publication := rc_publication r in
  _ ← coherent (bool_decide (rc_receipt_id r = row_id) && bool_decide (rc_write_id r = row_id) &&
                bool_decide (pub_receipt_id publication = rc_receipt_id r) &&
                bool_decide (pub_write_id publication = rc_write_id r))
        "durable receipt and publication identities disagree";
  _ ← coherent (bool_decide (value_id (lw_event (rc_current r)) = Some (lw_id (rc_current r))))
        "durable current event identity disagrees with its body";
  _ ← validate_event_and_signature r;
  _ ← validate_routing r;
  _ ← validate_bounds_and_text r;
  _ ← validate_outcome r;
  validate_revisions r semantic.

Definition reconstructed (next_identity : N) (loaded : Loaded) : result WriteStoreError unit :=
  _ ← for_each (λ entry : ReceiptId * Receipt,
        _ ← validate_receipt entry.1 entry.2 (ld_semantics loaded !! entry.1);
        coherent (bool_decide (entry.1 < next_identity)%N)
          "durable next identity does not exceed every receipt row") (entries (ld_receipts loaded));
  coherent (forallb (λ id, bool_decide (is_Some (ld_receipts loaded !! id))) (keys (ld_semantics loaded)))
    "durable semantic custody has no receipt".

(** [schema::load]. *)
Definition ledger_load `{!LedgerSerde} `{!Redb N Row} (d : Disk) : result WriteStoreError (N * Loaded) * Disk :=
  let '(next, d) := read_meta d NEXT_ID in
  match (next ← refused_text next; ok_or next (StoreRefused "write identity metadata missing")) with
  | Err e => (Err e, d)
  | Ok next =>
      if bool_decide (next = 0%N) then (Err (StoreRefused "durable next identity is zero"), d)
      else
        let '(rows, d) := read_rows d in
        (rows ← refused_text rows;
         loaded ← load_rows (mkLoaded ∅ ∅ ∅) (entries rows);
         _ ← reconstructed next loaded;
         Ok (next, loaded), d)
  end.

End validation.

(** ** The operations' monad *)

Section store.
Context `{!Nostr} `{!LedgerSerde} `{!Redb N Row} (now : Timestamp).

Definition ROp (A : Type) : Type := stateM RedbWriteStore WriteStoreError A.

#[global] Instance rop_ret : MRet ROp := fun A => mret (M := stateM RedbWriteStore WriteStoreError).
#[global] Instance rop_bind : MBind ROp := fun A B => mbind (M := stateM RedbWriteStore WriteStoreError).

Definition r_lock : ROp StoreState := fun s => (Ok (rs_state s), s).
Definition r_active : ROp nat := fun s => (Ok (rs_active s), s).
Definition r_terminal : ROp nat := fun s => (Ok (rs_terminal s), s).
(** Assignment through the guard. *)
Definition r_put (st : StoreState) : ROp unit := fun s =>
  (Ok tt, mkRedbStore _ _ (rs_database s) st (rs_active s) (rs_terminal s) (rs_latest s) (rs_changes s)).
Definition r_try {A} (r : result WriteStoreError A) : ROp A := fun s => (r, s).
Definition r_refuse {A} (reason : string) : ROp A := r_try (Err (StoreRefused reason)).
Definition r_require (b : bool) (reason : string) : ROp unit := r_try (ensure b (StoreRefused reason)).
Definition r_get {A} (o : option A) (reason : string) : ROp A := r_try (ok_or o (StoreRefused reason)).
Definition r_valid {A} (r : result InvalidEventValue A) : ROp A :=
  r_try (match r with Ok a => Ok a | Err e => Err (StoreInvalidEvent e) end).

Definition r_publish_snapshot (st : StoreState) : ROp unit := fun s =>
  (Ok tt, mkRedbStore _ _ (rs_database s) (rs_state s) (rs_active s) (rs_terminal s) (redb_snapshot st) (rs_changes s)).
Definition r_publish (id : ReceiptId) (r : option Receipt) : ROp unit := fun s =>
  (Ok tt, mkRedbStore _ _ (rs_database s) (rs_state s) (rs_active s) (rs_terminal s) (rs_latest s)
            (rs_changes s ++ [(id, r)])).

(** [self.commit_accept(..)?] and [self.commit_update(..)?]. *)
Definition persist (next_identity : option N) (row : option (Receipt * option Semantic))
    (removals : list ReceiptId) : ROp unit := fun s =>
  let '(r, d) := ledger_commit (rs_database s) next_identity row removals in
  (refused_text r, mkRedbStore _ _ d (rs_state s) (rs_active s) (rs_terminal s) (rs_latest s) (rs_changes s)).

(** Assign the ledger the transaction has written, and publish it with one receipt. *)
Definition r_assign (st : StoreState) (id : ReceiptId) (r : option Receipt) : ROp unit :=
  _ ← r_put st; _ ← r_publish_snapshot st; r_publish id r.

(** [for id in removals { self.publish_receipt(None, id); }] *)
Fixpoint publish_removals (removals : list ReceiptId) : ROp unit :=
  match removals with
  | [] => mret tt
  | id :: removals => _ ← r_publish id None; publish_removals removals
  end.

(** ** Whole events ([ops.rs]) *)

Definition r_accept (intent : WriteIntent) : ROp AcceptedWrite :=
  state ← r_lock;
  active ← r_active;
  _ ← r_require (negb (redb_capacity_reached state active)) (active_refused active);
  let identity := ss_next_identity state in
  next ← r_try (next_identity identity);
  '(event, signature) ←
    match in_payload intent with
    | PayloadEvent event => mret (Unsigned event, SigUnsigned)
    | PayloadEdit _ _ => r_refuse "replaceable-event edit requires revision before acceptance"
    | PayloadPresigned event => mret (Signed event, SigSigned)
    end;
  current ← r_valid (LocalWriteEvent_new event
    (mkPublication identity identity revision_first None None [] signature (destinations (in_routing intent))));
  let receipt := open_receipt identity identity current (in_routing intent) (in_access intent) in
  revision ← r_try (redb_next_revision state);
  _ ← persist (Some next) (Some (receipt, None)) [];
  _ ← r_assign (put_receipt identity receipt (with_revision revision (with_identity next state)))
        identity (Some receipt);
  mret (mkAccepted identity identity current).

(** [RedbWriteStore::update]. *)
Definition update (receipt_id : ReceiptId) (mutation : Receipt → result WriteStoreError Receipt) : ROp Receipt :=
  state ← r_lock;
  terminal ← r_terminal;
  original ← r_get (ss_receipts state !! receipt_id) "receipt does not exist";
  receipt ← r_try (mutation original);
  if bool_decide (receipt = original) then mret receipt
  else
    let removals := terminal_evictions state receipt terminal in
    revision ← r_try (redb_next_revision state);
    _ ← persist None (Some (receipt, ss_semantics state !! receipt_id)) removals;
    let state := foldl drop_receipt state removals in
    let state := if receipt_is_terminal receipt then release_semantic_coordinate receipt_id state else state in
    let state := with_revision revision (put_receipt receipt_id receipt state) in
    _ ← r_put state;
    _ ← r_publish_snapshot state;
    _ ← publish_removals removals;
    _ ← r_publish receipt_id (Some receipt);
    mret receipt.

Definition r_apply_route (write_id : WriteId) (receipt_id : ReceiptId) (revision_id : RevisionId)
    (event_id : EventId) (plan : RoutePlan) : ROp Receipt :=
  update receipt_id (λ receipt,
    _ ← validate_current_revision receipt write_id revision_id event_id;
    apply_route_to_receipt receipt plan).

Definition r_begin_attempt (write_id : WriteId) (receipt_id : ReceiptId) (revision_id : RevisionId)
    (event_id : EventId) (session : RelayUrl) (attempt : N) : ROp Receipt :=
  update receipt_id (λ receipt,
    _ ← validate_current_revision receipt write_id revision_id event_id;
    _ ← ensure (is_signed (lw_event (rc_current receipt))) (StoreRefused "event is not signed");
    let current_attempt := default 0%N (rc_attempts receipt !! session) in
    if bool_decide (current_attempt = attempt) &&
       bool_decide (rc_destinations receipt !! session = Some Attempting)
    then Ok receipt
    else
      expected ← ok_or (checked_succ32 current_attempt) (StoreRefused "attempt count exhausted");
      _ ← ensure (bool_decide (attempt = expected)) (StoreRefused "attempt is not current");
      outcome ← ok_or (rc_destinations receipt !! session) (StoreRefused "destination does not exist");
      _ ← ensure (cancellable outcome) (StoreRefused "destination is not pending");
      Ok (with_attempts (<[session := attempt]> (rc_attempts receipt))
            (set_destination session Attempting receipt))).

Definition r_record_outcome (write_id : WriteId) (receipt_id : ReceiptId) (revision_id : RevisionId)
    (event_id : EventId) (session : RelayUrl) (attempt : N) (outcome : RelayDeliveryOutcome) : ROp Receipt :=
  _ ← r_try (validate_delivery_outcome outcome);
  _ ← r_require (outcome_is_terminal outcome || is_retryable outcome)
        "recorded delivery outcome is not terminal or retryable";
  update receipt_id (λ receipt,
    _ ← validate_current_revision receipt write_id revision_id event_id;
    _ ← ensure (bool_decide (rc_attempts receipt !! session = Some attempt)) (StoreRefused "attempt is not current");
    current ← ok_or (rc_destinations receipt !! session) (StoreRefused "destination does not exist");
    if bool_decide (current = outcome) then Ok receipt
    else
      _ ← ensure (may_transition current outcome) (StoreRefused "attempt is not current");
      Ok (settle (set_destination session outcome receipt))).

Definition r_cancel (receipt_id : ReceiptId) : ROp (option Receipt) :=
  state ← r_lock;
  match ss_receipts state !! receipt_id with
  | None => mret None
  | Some current =>
      if is_cancelled current then mret (Some current)
      else
        receipt ← update receipt_id (λ receipt,
          _ ← ensure (negb (receipt_is_terminal receipt ||
                            existsb (λ o, negb (cancellable o)) (values (rc_destinations receipt))))
                (StoreRefused "receipt can no longer be cancelled before handoff");
          Ok (with_outcome Cancelled
                (update_publication
                   (with_destinations ((λ _, CancelledBeforeHandoff) <$> rc_destinations receipt)) receipt)));
        mret (Some receipt)
  end.

Definition r_remove_receipt (receipt_id : ReceiptId) : ROp bool :=
  state ← r_lock;
  match ss_receipts state !! receipt_id with
  | None => mret false
  | Some receipt =>
      _ ← r_require (receipt_is_terminal receipt) "active receipt cannot be removed";
      revision ← r_try (redb_next_revision state);
      _ ← persist None None [receipt_id];
      _ ← r_assign (with_revision revision (drop_receipt state receipt_id)) receipt_id None;
      mret true
  end.

(** ** Signing ([signing.rs]) *)

Definition has_successor (st : StoreState) (id : ReceiptId) : bool :=
  bool_decide (is_Some (ss_semantics st !! id ≫= sc_successor)).

Definition commit_receipt (state : StoreState) (receipt : Receipt) : ROp Receipt :=
  let id := rc_receipt_id receipt in
  revision ← r_try (redb_next_revision state);
  _ ← persist None (Some (receipt, ss_semantics state !! id)) [];
  _ ← r_assign (with_revision revision (put_receipt id receipt state)) id (Some receipt);
  mret receipt.

Definition r_promote_authorized_successor (state : StoreState) (receipt_id : ReceiptId) : ROp Receipt :=
  '(custody, successor) ←
    r_get (custody ← ss_semantics state !! receipt_id; successor ← sc_successor custody; Some (custody, successor))
      "durable semantic successor is missing";
  receipt ← r_get (ss_receipts state !! receipt_id) "coordinate owner is missing";
  _ ← r_require (bool_decide (pub_signature (rc_publication receipt) = SigAuthorized))
        "durable successor predecessor is not authorized";
  revision_id ← r_try (next_revision_id receipt);
  let successor_destinations :=
    match su_edit successor with
    | None => gset_to_gmap Pending (rc_desired_destinations receipt ∪ dom (rc_destinations receipt))
    | Some _ => destinations (rc_routing receipt)
    end in
  current ← r_valid (LocalWriteEvent_new (Unsigned (su_event successor))
    (mkPublication receipt_id (rc_write_id receipt) revision_id (source_id (su_source successor)) None
       (retire_revision receipt) SigUnsigned successor_destinations));
  updated ← r_try (apply_initial_route (su_route successor)
    (open_receipt (rc_write_id receipt) (rc_receipt_id receipt) current (rc_routing receipt) (rc_access receipt)));
  let edits := sc_edits custody ++ match su_edit successor with Some edit => [edit] | None => [] end in
  let custody := mkSemantic edits (sc_author custody) (su_source successor) None None in
  revision ← r_try (redb_next_revision state);
  _ ← persist None (Some (updated, Some custody)) [];
  _ ← r_assign (with_revision revision (put_receipt receipt_id updated (put_semantic receipt_id custody state)))
        receipt_id (Some updated);
  mret updated.

Definition r_authorize_signing (write_id : WriteId) (receipt_id : ReceiptId) (revision_id : RevisionId)
    (event_id : EventId) : ROp Receipt :=
  state ← r_lock;
  receipt ← r_get (ss_receipts state !! receipt_id) "receipt does not exist";
  _ ← r_try (validate_current_revision receipt write_id revision_id event_id);
  _ ← r_require (negb (is_signed (lw_event (rc_current receipt)))) "event is already signed";
  match pub_signature (rc_publication receipt) with
  | SigAuthorized => mret receipt
  | SigSigned | SigRefused _ => r_refuse "signing authorization is not current"
  | SigUnsigned | SigRetryable _ =>
      let reserved :=
        match ss_semantics state !! receipt_id ≫= semantic_coordinate with
        | Some coordinate => existsb (λ value, bool_decide (value = coordinate)) (values (ss_reservations state))
        | None => false
        end in
      let signature := if reserved then SigRetryable (deferred_signing write_id receipt_id revision_id event_id)
                       else SigAuthorized in
      if bool_decide (pub_signature (rc_publication receipt) = signature) then mret receipt
      else
        let receipt := update_publication (with_signature signature) receipt in
        revision ← r_try (redb_next_revision state);
        _ ← persist None (Some (receipt, ss_semantics state !! receipt_id)) [];
        _ ← r_assign (with_revision revision (put_receipt receipt_id receipt state)) receipt_id (Some receipt);
        mret receipt
  end.

Definition r_record_signer_retryable (write_id : WriteId) (receipt_id : ReceiptId) (revision_id : RevisionId)
    (event_id : EventId) (reason : string) : ROp Receipt :=
  _ ← r_try (validate_receipt_text reason);
  state ← r_lock;
  receipt ← r_get (ss_receipts state !! receipt_id) "receipt does not exist";
  _ ← r_try (validate_current_revision receipt write_id revision_id event_id);
  _ ← r_require (match pub_signature (rc_publication receipt) with
                 | SigUnsigned | SigAuthorized | SigRetryable _ => true
                 | SigSigned | SigRefused _ => false
                 end) "retryable signer failure is not current";
  if bool_decide (pub_signature (rc_publication receipt) = SigAuthorized) && has_successor state receipt_id
  then r_promote_authorized_successor state receipt_id
  else commit_receipt state (update_publication (with_signature (SigRetryable reason)) receipt).

Definition r_signing_successor (write_id : WriteId) (receipt_id : ReceiptId) (revision_id : RevisionId)
    (event_id : EventId) : ROp bool :=
  state ← r_lock;
  receipt ← r_get (ss_receipts state !! receipt_id) "receipt does not exist";
  _ ← r_try (validate_current_revision receipt write_id revision_id event_id);
  mret (has_successor state receipt_id).

Definition r_install_signed (write_id : WriteId) (receipt_id : ReceiptId) (revision_id : RevisionId)
    (event_id : EventId) (event : Event) : ROp Receipt :=
  _ ← r_try (verified (event_verify event));
  state ← r_lock;
  receipt ← r_get (ss_receipts state !! receipt_id) "receipt does not exist";
  _ ← r_try (validate_current_revision receipt write_id revision_id event_id);
  match lw_event (rc_current receipt) with
  | Signed current =>
      if bool_decide (current = event) then mret receipt else r_refuse "event is already signed differently"
  | Unsigned unsigned =>
      _ ← r_require (same_view unsigned event) "signature does not match current unsigned event";
      _ ← r_require (bool_decide (pub_signature (rc_publication receipt) = SigAuthorized))
            "signature completion was not authorized";
      if has_successor state receipt_id then r_promote_authorized_successor state receipt_id
      else commit_receipt state
             (with_current (mkLocal (lw_id (rc_current receipt)) (Signed event)
                              (with_signature SigSigned (rc_publication receipt))) receipt)
  end.

Definition r_record_signer_refusal (write_id : WriteId) (receipt_id : ReceiptId) (revision_id : RevisionId)
    (event_id : EventId) (reason : string) : ROp Receipt :=
  _ ← r_try (validate_receipt_text reason);
  state ← r_lock;
  receipt ← r_get (ss_receipts state !! receipt_id) "receipt does not exist";
  _ ← r_try (validate_current_revision receipt write_id revision_id event_id);
  if bool_decide (pub_signature (rc_publication receipt) = SigRefused reason) then mret receipt
  else
    _ ← r_require (bool_decide (pub_signature (rc_publication receipt) = SigAuthorized))
          "signer refusal was not authorized";
    if has_successor state receipt_id then r_promote_authorized_successor state receipt_id
    else commit_receipt state (update_publication (with_signature (SigRefused reason)) receipt).

(** ** Replaceable-event edits ([semantic_acceptance.rs], [semantic_composition.rs], [semantic.rs]) *)

Definition r_validate_revision (edit : EventEdit) (author : PublicKey) (event : UnsignedEvent)
    (source : option EventValue) (routing : WriteRouting)
    : result WriteStoreError (option (EventId * Timestamp)) :=
  _ ← match intent_event now event routing with Ok _ => Ok tt | Err e => Err (StoreInvalidIntent e) end;
  _ ← ensure (bool_decide (un_pubkey event = author)) mismatched_revision;
  coordinate ← event_coordinate_of_unsigned event;
  _ ← ensure (bool_decide (coordinate = edit_coordinate edit author)) mismatched_revision;
  selected ← validate_source edit author source;
  event_id ← ok_or (un_id event) (StoreRefused "revision has no stable id");
  _ ← ensure (match selected with
              | Some (source_id, source_time) =>
                  event_is_newer (un_created_at event, event_id) (source_time, source_id)
              | None => true
              end) (StoreRefused "revision is not newer than its selected source");
  Ok selected.

(** The fields of a custody that [repeats_acceptance] compares. *)
Definition custody_of (custody : Semantic) : Custody :=
  mkCustody (sc_edits custody) (sc_author custody) (sc_source custody) (sc_failed_source custody).

(** The custody with a successor that waits for the signer's answer. *)
Definition awaiting (custody : Semantic) (successor : Successor) : Semantic :=
  mkSemantic (sc_edits custody) (sc_author custody) (sc_source custody) None (Some successor).

Definition r_compose_semantic (state : StoreState) (receipt_id : ReceiptId) (edit : EventEdit)
    (author : PublicKey) (routing : WriteRouting) (event : UnsignedEvent) (source : option EventValue)
    (initial_route : option RoutePlan) : ROp AcceptedWrite :=
  receipt ← r_get (ss_receipts state !! receipt_id) "coordinate owner is missing";
  custody ← r_get (ss_semantics state !! receipt_id) "semantic custody is missing";
  _ ← r_require (bool_decide (sc_author custody = author) && bool_decide (rc_routing receipt = routing))
        "same-coordinate edit author or routing differs from the active operation";
  _ ← r_require (negb (is_signed (lw_event (rc_current receipt))))
        "same-coordinate edit composition requires an unsigned current generation";
  selected ← r_try (validate_source edit author source);
  _ ← r_require (bool_decide (source = Some (lw_event (rc_current receipt))) &&
                 bool_decide (source_id selected = Some (lw_id (rc_current receipt))))
        "same-coordinate edit source is not the exact current generation";
  _ ← r_require (bool_decide (length (pub_retired_revisions (rc_publication receipt))
                              < destination_evidence_capacity))
        "retired revision evidence capacity reached";
  successor_route ← r_try (successor_plan receipt initial_route);
  _ ← r_try (apply_initial_route successor_route receipt);
  if bool_decide (pub_signature (rc_publication receipt) = SigAuthorized) then
    _ ← r_require (bool_decide (sc_successor custody = None))
          "replaceable coordinate already has a durable successor";
    let custody := awaiting custody (mkSuccessor (Some edit) event (sc_source custody) successor_route) in
    _ ← persist None (Some (receipt, Some custody)) [];
    _ ← r_put (put_semantic receipt_id custody state);
    _ ← r_publish receipt_id (Some receipt);
    mret (mkAccepted (rc_write_id receipt) receipt_id (rc_current receipt))
  else
    revision_id ← r_try (next_revision_id receipt);
    current ← r_valid (LocalWriteEvent_new (Unsigned event)
      (mkPublication receipt_id (rc_write_id receipt) revision_id (source_id (sc_source custody)) None
         (retire_revision receipt) SigUnsigned (destinations routing)));
    updated ← r_try (apply_initial_route successor_route
      (open_receipt (rc_write_id receipt) (rc_receipt_id receipt) current (rc_routing receipt) (rc_access receipt)));
    let custody := mkSemantic (sc_edits custody ++ [edit]) author (sc_source custody) None None in
    revision ← r_try (redb_next_revision state);
    _ ← persist None (Some (updated, if receipt_is_terminal updated then None else Some custody)) [];
    let state := with_revision revision state in
    let state := if receipt_is_terminal updated then release_semantic receipt_id state
                 else put_semantic receipt_id custody state in
    _ ← r_assign (put_receipt receipt_id updated state) receipt_id (Some updated);
    mret (mkAccepted (rc_write_id updated) receipt_id (rc_current updated)).

(** The reservation step: check, then consume. *)
Definition r_consume_reservation (reservation : option N) (coordinate : EventCoordinate) : ROp bool :=
  match reservation with
  | None => mret false
  | Some reservation =>
      state ← r_lock;
      reserved ← r_get (ss_reservations state !! reservation) "active reservation is not current";
      _ ← r_require (bool_decide (reserved = coordinate))
            "active reservation belongs to a different replaceable coordinate";
      _ ← r_put (with_reservations (ss_next_reservation state) (delete reservation (ss_reservations state)) state);
      mret true
  end.

(** [accept_semantic_inner] for a coordinate nobody owns. *)
Definition r_accept_new (state : StoreState) (reserved : bool) (edit : EventEdit) (author : PublicKey)
    (routing : WriteRouting) (access : Authority) (event : UnsignedEvent)
    (selected : option (EventId * Timestamp)) (initial_route : option RoutePlan) : ROp AcceptedWrite :=
  active ← r_active;
  terminal ← r_terminal;
  _ ← r_require (reserved || negb (redb_capacity_reached state active)) (active_refused active);
  let identity := ss_next_identity state in
  next ← r_try (next_identity identity);
  current ← r_valid (LocalWriteEvent_new (Unsigned event)
    (mkPublication identity identity revision_first (source_id selected) None [] SigUnsigned (destinations routing)));
  receipt ← r_try (apply_initial_route initial_route (open_receipt identity identity current routing access));
  let custody := mkSemantic [edit] author selected None None in
  let removals := terminal_evictions state receipt terminal in
  revision ← r_try (redb_next_revision state);
  _ ← persist (Some next) (Some (receipt, Some custody)) removals;
  let state := foldl drop_receipt state removals in
  let state := put_semantic identity custody (with_revision revision (with_identity next state)) in
  let state := if receipt_is_terminal receipt then state
               else with_coordinates (<[edit_coordinate edit author := identity]> (ss_coordinates state)) state in
  let state := put_receipt identity receipt state in
  _ ← r_put state;
  _ ← r_publish_snapshot state;
  _ ← publish_removals removals;
  _ ← r_publish identity (Some receipt);
  mret (mkAccepted identity identity (rc_current receipt)).

Definition r_accept_semantic_inner (reservation : option N) (intent : WriteIntent) (event : UnsignedEvent)
    (source : option EventValue) (initial_route : option RoutePlan) : ROp AcceptedWrite :=
  '(edit, author) ←
    match in_payload intent with
    | PayloadEdit edit author => mret (edit, author)
    | _ => r_refuse "semantic acceptance requires a replaceable-event edit"
    end;
  let routing := in_routing intent in
  let coordinate := edit_coordinate edit author in
  reserved ← r_consume_reservation reservation coordinate;
  selected ← r_try (r_validate_revision edit author event source routing);
  state ← r_lock;
  match ss_coordinates state !! coordinate with
  | Some receipt_id =>
      receipt ← r_get (ss_receipts state !! receipt_id) "coordinate owner is missing";
      custody ← r_get (ss_semantics state !! receipt_id) "semantic custody is missing";
      if repeats_acceptance receipt (custody_of custody) edit author selected routing event initial_route
      then mret (mkAccepted (rc_write_id receipt) (rc_receipt_id receipt) (rc_current receipt))
      else r_compose_semantic state receipt_id edit author routing event source initial_route
  | None => r_accept_new state reserved edit author routing (in_access intent) event selected initial_route
  end.

Definition r_accept_semantic (intent : WriteIntent) (event : UnsignedEvent) (source : option EventValue)
    : ROp AcceptedWrite := r_accept_semantic_inner None intent event source None.
Definition r_accept_reserved_semantic (reservation : N) (intent : WriteIntent) (event : UnsignedEvent)
    (source : option EventValue) (initial_route : option RoutePlan) : ROp AcceptedWrite :=
  r_accept_semantic_inner (Some reservation) intent event source initial_route.

Definition reserve_active_slot (edit : EventEdit) (author : PublicKey) : ROp N :=
  state ← r_lock;
  active ← r_active;
  let coordinate := edit_coordinate edit author in
  _ ← r_require (negb (existsb (λ reserved, bool_decide (reserved = coordinate)) (values (ss_reservations state))))
        "replaceable coordinate already has an active reservation";
  _ ← r_require (negb (match ss_coordinates state !! coordinate with
                       | Some receipt_id => has_successor state receipt_id
                       | None => false
                       end))
        "replaceable coordinate already has a durable successor";
  _ ← r_require (bool_decide (is_Some (ss_coordinates state !! coordinate)) ||
                 negb (redb_capacity_reached state active)) (active_refused active);
  let reservation := ss_next_reservation state in
  next ← r_get (checked_succ reservation) "active reservation exhausted";
  _ ← r_put (with_reservations next (<[reservation := coordinate]> (ss_reservations state)) state);
  mret reservation.

Definition release_active_slot (reservation : N) : ROp unit :=
  state ← r_lock;
  coordinate ← r_get (ss_reservations state !! reservation) "active reservation is not current";
  let state := with_reservations (ss_next_reservation state) (delete reservation (ss_reservations state)) state in
  _ ← r_put state;
  match (receipt_id ← ss_coordinates state !! coordinate; receipt ← ss_receipts state !! receipt_id;
         Some (receipt_id, receipt)) with
  | Some (receipt_id, receipt) => r_publish receipt_id (Some receipt)
  | None => mret tt
  end.

Definition r_install_semantic (write_id : WriteId) (receipt_id : ReceiptId) (expected : RevisionId)
    (expected_source : option EventId) (applied_edits : list EventEdit) (event : UnsignedEvent)
    (source : option EventValue) (initial_route : option RoutePlan) : ROp Receipt :=
  state ← r_lock;
  receipt ← r_get (ss_receipts state !! receipt_id) "receipt does not exist";
  custody ← r_get (ss_semantics state !! receipt_id) "semantic custody does not exist";
  _ ← r_try (require_current receipt write_id expected expected_source (sc_source custody));
  _ ← r_require (bool_decide (sc_edits custody = applied_edits))
        "successor did not apply the complete durable semantic edit sequence";
  edit ← r_get (last (sc_edits custody)) "semantic edit sequence is empty";
  selected ← r_try (r_validate_revision edit (sc_author custody) event source (rc_routing receipt));
  if bool_decide (lw_event (rc_current receipt) = Unsigned event) &&
     bool_decide (pub_revision_source (rc_publication receipt) = source_id selected)
  then mret receipt
  else
    _ ← r_try (require_qualified_source (sc_source custody) selected);
    event_id ← r_get (un_id event) "successor revision has no stable id";
    _ ← r_require (event_is_newer (un_created_at event, event_id)
                     (value_created_at (lw_event (rc_current receipt)), lw_id (rc_current receipt)))
          "successor revision is not newer than current event";
    _ ← r_require (bool_decide (length (pub_retired_revisions (rc_publication receipt))
                                < destination_evidence_capacity))
          "retired revision evidence capacity reached";
    _ ← r_try (apply_initial_route initial_route receipt);
    if bool_decide (pub_signature (rc_publication receipt) = SigAuthorized) then
      _ ← r_require (bool_decide (sc_successor custody = None))
            "replaceable coordinate already has a durable successor";
      let custody := awaiting custody (mkSuccessor None event selected initial_route) in
      _ ← persist None (Some (receipt, Some custody)) [];
      _ ← r_put (put_semantic receipt_id custody state);
      _ ← r_publish receipt_id (Some receipt);
      mret receipt
    else
      let correction := rc_desired_destinations receipt ∪ dom (rc_destinations receipt) in
      _ ← r_require (bool_decide (size correction ≤ destination_evidence_capacity))
            "correction destination capacity reached";
      revision_id ← r_get (revision_checked_next expected) "revision identity exhausted";
      current ← r_valid (LocalWriteEvent_new (Unsigned event)
        (mkPublication receipt_id write_id revision_id (source_id selected) None
           (retire_revision receipt) SigUnsigned (gset_to_gmap Pending correction)));
      updated ← r_try (apply_initial_route initial_route
        (with_attempts ∅
           (with_route (rc_route_revision receipt) (rc_route_settled receipt) (rc_route_shortfalls receipt)
              correction (with_outcome Open (with_current current receipt)))));
      let custody := mkSemantic (sc_edits custody) (sc_author custody) selected None None in
      revision ← r_try (redb_next_revision state);
      _ ← persist None (Some (updated, Some custody)) [];
      _ ← r_assign (put_receipt receipt_id updated (put_semantic receipt_id custody (with_revision revision state)))
            receipt_id (Some updated);
      mret updated.

Definition r_record_semantic_failure (write_id : WriteId) (receipt_id : ReceiptId) (expected : RevisionId)
    (expected_source : option EventId) (source : option EventValue) (reason : string) : ROp Receipt :=
  state ← r_lock;
  receipt ← r_get (ss_receipts state !! receipt_id) "receipt does not exist";
  custody ← r_get (ss_semantics state !! receipt_id) "semantic custody does not exist";
  _ ← r_try (require_current receipt write_id expected expected_source (sc_source custody));
  edit ← r_get (last (sc_edits custody)) "semantic edit sequence is empty";
  failed ← r_try (validate_source edit (sc_author custody) source);
  _ ← r_try (require_failure_source (sc_source custody) failed);
  let failure := attributed_failure expected (source_id failed) reason in
  if bool_decide (sc_failed_source custody = source_id failed) &&
     bool_decide (pub_revision_failure (rc_publication receipt) = Some failure)
  then mret receipt
  else
    let updated := update_publication (with_failure (Some failure)) receipt in
    let custody := mkSemantic (sc_edits custody) (sc_author custody) (sc_source custody) (source_id failed)
                     (sc_successor custody) in
    revision ← r_try (redb_next_revision state);
    _ ← persist None (Some (updated, Some custody)) [];
    _ ← r_assign (put_receipt receipt_id updated (put_semantic receipt_id custody (with_revision revision state)))
          receipt_id (Some updated);
    mret updated.

(** ** Recovery and opening ([signing.rs], [lib.rs]) *)

Definition interrupted_signing (receipt : Receipt) : string :=
  "process ended after signing authorization for write " +:+ pretty (rc_write_id receipt)
  +:+ " receipt " +:+ pretty (rc_receipt_id receipt)
  +:+ " revision " +:+ pretty (pub_revision_id (rc_publication receipt))
  +:+ " event " +:+ event_id_to_string (lw_id (rc_current receipt)) +:+ "; retry is permitted".

Fixpoint retry_all (authorized : list Receipt) : ROp unit :=
  match authorized with
  | [] => mret tt
  | receipt :: authorized =>
      _ ← r_record_signer_retryable (rc_write_id receipt) (rc_receipt_id receipt)
            (pub_revision_id (rc_publication receipt)) (lw_id (rc_current receipt)) (interrupted_signing receipt);
      retry_all authorized
  end.

Definition recover_authorized_signing : ROp unit :=
  state ← r_lock;
  retry_all (List.filter (λ r, bool_decide (pub_signature (rc_publication r) = SigAuthorized))
               (values (ss_receipts state))).

Definition loaded_state (next : N) (loaded : Loaded) : StoreState :=
  mkStoreState 0 next 1 ∅ (ld_receipts loaded) (ld_coordinates loaded) (ld_semantics loaded).

Definition started (d : Disk) (st : StoreState) (active terminal : nat) : RedbWriteStore :=
  mkRedbStore _ _ d st active terminal (redb_snapshot st) [].

(** [open_bounded] once the ledger is loaded. *)
Definition open_loaded (d : Disk) (st : StoreState) (active terminal : nat)
    : result WriteStoreError RedbWriteStore * Disk :=
  let '(st, recovered) := recover_ambiguous_delivery st in
  match validate_recovered_bounds st active terminal with
  | Err e => (Err e, d)
  | Ok _ =>
      let '(persisted, d) := if bool_decide (recovered = []) then (Ok tt, d) else persist_existing d st recovered in
      match persisted with
      | Err e => (Err e, d)
      | Ok _ =>
          let '(r, s) := recover_authorized_signing (started d st active terminal) in
          (match r with Ok _ => Ok s | Err e => Err e end, rs_database s)
      end
  end.

Definition r_open_bounded (d : Disk) (active terminal : nat) : result WriteStoreError RedbWriteStore * Disk :=
  let is_new := negb (path_exists d) in
  let '(created, d) := database_create d in
  match refused_text created with
  | Err e => (Err e, d)
  | Ok _ =>
      let '(initialized, d) := ledger_initialize d is_new in
      match initialized with
      | Err e => (Err e, d)
      | Ok _ =>
          let '(loaded, d) := ledger_load d in
          match loaded with
          | Err e => (Err e, d)
          | Ok (next, loaded) => open_loaded d (loaded_state next loaded) active terminal
          end
      end
  end.

Definition r_open (d : Disk) : result WriteStoreError RedbWriteStore * Disk :=
  r_open_bounded d (N.to_nat 10000) (N.to_nat 10000).

(** ** Reads ([ops.rs], [recovery.rs]) *)

Definition r_receipt (receipt_id : ReceiptId) (st : StoreState) : option Receipt := ss_receipts st !! receipt_id.

Definition r_recover_open (st : StoreState) : list Receipt :=
  List.filter (λ r, negb (receipt_is_terminal r)) (values (ss_receipts st)).

Definition r_len (st : StoreState) : nat :=
  length (List.filter (λ r, negb (is_cancelled r)) (values (ss_receipts st))).

Definition r_recover_semantic (st : StoreState) : list (Receipt * Custody) :=
  omap (λ '(id, custody),
          match ss_receipts st !! id with
          | Some receipt => if receipt_is_terminal receipt then None else Some (receipt, custody_of custody)
          | None => None
          end) (entries (ss_semantics st)).

Definition r_semantic_custody (receipt_id : ReceiptId) (expected : RevisionId) (st : StoreState)
    : result WriteStoreError (option Custody) :=
  match ss_receipts st !! receipt_id with
  | None => Ok None
  | Some receipt =>
      _ ← ensure (bool_decide (pub_revision_id (rc_publication receipt) = expected))
            (StoreRefused "semantic custody generation is not current");
      Ok (custody_of <$> ss_semantics st !! receipt_id)
  end.

End store.
