(* ===== verification/RedbStoreProps.v ===== *)
(** * The durable write store: file and ledger ([crates/fava-write-store-redb])

    [r_perform] is one public operation.  [mirrored] says that the table holds
    the encoding of every receipt with its custody and nothing else; one committed
    transaction takes a mirror of the old ledger to one of the new
    ([ledger_commit_mirrored]).  [rwp] and its rules run an operation step by
    step. *)

From S2P Require Import Prelude Nostr Relay State Write Query Routing Receipts MemoryStore StoreInvariant Redb RedbStore.

Section machine.
Context `{!Nostr} `{!LedgerSerde} `{!Redb N Row}.

Definition r_discard {A} (m : ROp A) : ROp unit := fun s =>
  match m s with (Ok _, s') => (Ok tt, s') | (Err e, s') => (Err e, s') end.

(** One operation of the store's contract; the operations are those of [StoreInvariant]. *)
Definition r_perform (now : Timestamp) (op : StoreOperation) : ROp unit :=
  match op with
  | DoAccept intent => r_discard (r_accept intent)
  | DoReserve edit author => r_discard (reserve_active_slot edit author)
  | DoRelease n => r_discard (release_active_slot n)
  | DoAcceptEdit intent event source => r_discard (r_accept_semantic now intent event source)
  | DoAcceptReserved n intent event source route =>
      r_discard (r_accept_reserved_semantic now n intent event source route)
  | DoInstallRevision w r e src edits event source route =>
      r_discard (r_install_semantic now w r e src edits event source route)
  | DoRecordFailure w r e src source reason => r_discard (r_record_semantic_failure w r e src source reason)
  | DoInstallSigned w r rev ev event => r_discard (r_install_signed w r rev ev event)
  | DoAuthorize w r rev ev => r_discard (r_authorize_signing w r rev ev)
  | DoRetryable w r rev ev reason => r_discard (r_record_signer_retryable w r rev ev reason)
  | DoRefusal w r rev ev reason => r_discard (r_record_signer_refusal w r rev ev reason)
  | DoApplyRoute w r rev ev plan => r_discard (r_apply_route w r rev ev plan)
  | DoBeginAttempt w r rev ev session attempt => r_discard (r_begin_attempt w r rev ev session attempt)
  | DoRecordOutcome w r rev ev session attempt outcome =>
      r_discard (r_record_outcome w r rev ev session attempt outcome)
  | DoCancel r => r_discard (r_cancel r)
  | DoRemove r => r_discard (r_remove_receipt r)
  end.
End machine.

(** ** The rows of a ledger *)

(** Receipt and custody under one identity. *)
Definition row_at (st : StoreState) (id : ReceiptId) : option Receipt * option Semantic :=
  (ss_receipts st !! id, ss_semantics st !! id).

(** Receipts sit under their own identity, below the next one to issue; custody
    belongs to a receipt. *)
Definition ledger_ok (st : StoreState) : Prop :=
  (ss_next_identity st ≠ 0)%N ∧
  ∀ id, match row_at st id with
        | (Some r, _) => rc_receipt_id r = id ∧ rc_write_id r = id ∧ (0 < id < ss_next_identity st)%N
        | (None, custody) => custody = None
        end.

Lemma ledger_receipt st id r :
  ledger_ok st → ss_receipts st !! id = Some r →
  rc_receipt_id r = id ∧ rc_write_id r = id ∧ (0 < id < ss_next_identity st)%N.
Proof. intros [_ Hl] Hr. specialize (Hl id). unfold row_at in Hl. by rewrite Hr in Hl. Qed.

Lemma ledger_fresh st id :
  ledger_ok st → (ss_next_identity st ≤ id)%N → row_at st id = (None, None).
Proof.
  intros [_ Hl] Hid. specialize (Hl id). unfold row_at in *.
  destruct (ss_receipts st !! id); [lia|]. by rewrite Hl.
Qed.

Lemma row_put_receipt st id r id' :
  row_at (put_receipt id r st) id' =
  if bool_decide (id' = id) then (Some r, ss_semantics st !! id) else row_at st id'.
Proof.
  unfold row_at, put_receipt. simpl. case_bool_decide as E; [subst; by rewrite lookup_insert_eq|].
  by rewrite lookup_insert_ne.
Qed.

Lemma row_put_semantic st id custody id' :
  row_at (put_semantic id custody st) id' =
  if bool_decide (id' = id) then (ss_receipts st !! id, Some custody) else row_at st id'.
Proof.
  unfold row_at, put_semantic. simpl. case_bool_decide as E; [subst; by rewrite lookup_insert_eq|].
  by rewrite lookup_insert_ne.
Qed.

Lemma row_put_both st id r custody id' :
  row_at (put_receipt id r (put_semantic id custody st)) id' =
  if bool_decide (id' = id) then (Some r, Some custody) else row_at st id'.
Proof.
  unfold row_at, put_receipt, put_semantic. simpl. case_bool_decide as E; [subst; by rewrite !lookup_insert_eq|].
  by rewrite !lookup_insert_ne.
Qed.

Lemma row_release_coordinate st id id' : row_at (release_semantic_coordinate id st) id' = row_at st id'.
Proof. unfold release_semantic_coordinate. by case_match. Qed.

Lemma row_release_semantic st id id' :
  row_at (release_semantic id st) id' =
  if bool_decide (id' = id) then (ss_receipts st !! id, None) else row_at st id'.
Proof.
  assert (Hs : ss_semantics (release_semantic id st) = delete id (ss_semantics st)).
  { unfold release_semantic. by case_match. }
  assert (Hr : ss_receipts (release_semantic id st) = ss_receipts st).
  { unfold release_semantic. by case_match. }
  unfold row_at. rewrite Hs, Hr. case_bool_decide as E; [subst; by rewrite lookup_delete_eq|].
  by rewrite lookup_delete_ne.
Qed.

Lemma row_drop_receipt st id id' :
  row_at (drop_receipt st id) id' = if bool_decide (id' = id) then (None, None) else row_at st id'.
Proof.
  unfold drop_receipt. pose proof (row_release_semantic st id id') as Hr. revert Hr.
  unfold row_at. simpl. case_bool_decide as E; intros Hr; injection Hr as Hr Hs; rewrite Hs.
  - subst id'. by rewrite lookup_delete_eq.
  - by rewrite lookup_delete_ne, Hr by done.
Qed.

Lemma row_drop_all removals st id' :
  row_at (foldl drop_receipt st removals) id' =
  if bool_decide (id' ∈ removals) then (None, None) else row_at st id'.
Proof.
  revert st. induction removals as [|id removals IH]; intros st; simpl; [done|].
  rewrite IH, row_drop_receipt. destruct (decide (id' = id)) as [->|Hne].
  - rewrite (bool_decide_eq_true_2 (id ∈ id :: removals)) by left.
    rewrite (bool_decide_eq_true_2 (id = id)) by done. by case_match.
  - rewrite (bool_decide_eq_false_2 (id' = id)) by done.
    rewrite (bool_decide_ext (id' ∈ id :: removals) (id' ∈ removals)); [done|].
    rewrite elem_of_cons. naive_solver.
Qed.

Lemma drop_all_identity removals st : ss_next_identity (foldl drop_receipt st removals) = ss_next_identity st.
Proof.
  revert st. induction removals as [|id removals IH]; intros st; simpl; [done|].
  rewrite IH. unfold drop_receipt, release_semantic. by case_match.
Qed.

(** What one transaction makes of the rows. *)
Definition row_after (st : StoreState) (row : option (Receipt * option Semantic)) (removals : list ReceiptId)
    (id : ReceiptId) : option Receipt * option Semantic :=
  if bool_decide (id ∈ removals) then (None, None)
  else match row with
       | Some (r, custody) =>
           if bool_decide (id = rc_receipt_id r) then (Some r, custody) else row_at st id
       | None => row_at st id
       end.

(** [st'] is the ledger a transaction over [st] stands for. *)
Record follows (st : StoreState) (next : option N) (row : option (Receipt * option Semantic))
    (removals : list ReceiptId) (st' : StoreState) : Prop := {
  fo_identity : ss_next_identity st' = default (ss_next_identity st) next;
  fo_grows : (ss_next_identity st ≤ ss_next_identity st')%N;
  fo_rows : ∀ id, row_at st' id = row_after st row removals id;
  fo_row : ∀ r custody, row = Some (r, custody) →
    rc_write_id r = rc_receipt_id r ∧ (0 < rc_receipt_id r < ss_next_identity st')%N
}.

Lemma follows_ok st next row removals st' : ledger_ok st → follows st next row removals st' → ledger_ok st'.
Proof.
  intros [Hn Hl] [Hid Hg Hr Hrow]. split; [lia|]. intros id. rewrite Hr. unfold row_after.
  case_bool_decide; [done|]. specialize (Hl id).
  assert (Hold : match row_at st id with
    | (Some r, _) => rc_receipt_id r = id ∧ rc_write_id r = id ∧ (0 < id < ss_next_identity st')%N
    | (None, custody) => custody = None end).
  { destruct (row_at st id) as [[r|] custody]; [|done]. destruct Hl as (? & ? & ?). split_and!; lia. }
  destruct row as [[r custody]|]; [|done]. case_bool_decide as E; [|done].
  destruct (Hrow r custody eq_refl) as [Hw Hb]. subst id. split_and!; [done|done|lia..].
Qed.

Section file.
Context `{!Nostr} `{!LedgerSerde} `{!LedgerSerdeLaws} `{!Redb N Row} `{!RedbLaws}.

(** The table holds the encoding of every receipt with its custody, and nothing else. *)
Definition rows_mirror (rows : gmap N Row) (view : ReceiptId → option Receipt * option Semantic) : Prop :=
  ∀ id, match view id with
        | (Some r, custody) => ∃ b, rows !! id = Some b ∧ row_to_vec (mkPersistedReceipt r custody) = Ok b
        | (None, _) => rows !! id = None
        end.

Definition mirrored (d : Disk) (st : StoreState) : Prop :=
  ∃ meta rows, tables d = Some (mkDatabase (Some rows) (Some meta)) ∧
    meta !! NEXT_ID = Some (ss_next_identity st) ∧ meta !! LEDGER_VERSION_KEY = Some LEDGER_VERSION ∧
    rows_mirror rows (row_at st).

Lemma mirrored_same d d' st : tables d' = tables d → mirrored d st → mirrored d' st.
Proof. intros Ht (meta & rows & Hd & ?). exists meta, rows. by rewrite Ht. Qed.

Lemma mirrored_view d st st' :
  ss_next_identity st' = ss_next_identity st → (∀ id, row_at st' id = row_at st id) →
  mirrored d st → mirrored d st'.
Proof.
  intros Hn Hr (meta & rows & Hd & Hi & Hv & Hm). exists meta, rows. rewrite Hn.
  split_and!; [done..|]. intros id. rewrite Hr. apply Hm.
Qed.

Definition removed_rows (rows : gmap N Row) (removals : list ReceiptId) : gmap N Row :=
  foldl (λ rows id, delete id rows) rows removals.

Lemma lookup_removed_rows rows removals id :
  removed_rows rows removals !! id = if bool_decide (id ∈ removals) then None else rows !! id.
Proof.
  unfold removed_rows. revert rows. induction removals as [|x removals IH]; intros rows; simpl; [done|].
  rewrite IH. destruct (decide (id = x)) as [->|Hne].
  - rewrite lookup_delete_eq, (bool_decide_eq_true_2 (x ∈ x :: removals)) by left. by case_match.
  - rewrite lookup_delete_ne by done. rewrite (bool_decide_ext (id ∈ x :: removals) (id ∈ removals)); [done|].
    rewrite elem_of_cons. naive_solver.
Qed.

Lemma fold_row_removals (rows : gmap N Row) (meta : option (gmap string N)) removals :
  foldl table_write (mkDatabase (Some rows) meta) (RemoveRow <$> removals) =
  mkDatabase (Some (removed_rows rows removals)) meta.
Proof. revert rows. induction removals as [|id removals IH]; intros rows; [done|]. apply IH. Qed.

(** One committed transaction takes a mirror of the old ledger to one of the new. *)
Lemma ledger_commit_mirrored d next row removals d' st st' :
  mirrored d st → follows st next row removals st' → ledger_commit d next row removals = (Ok tt, d') →
  mirrored d' st'.
Proof.
  intros (meta & rows & Hd & Hi & Hv & Hm) [Hid _ Hr _] (ops & (written & Hw & [= <-])%bind_Ok & Ht)%write_ok.
  rewrite Hd in Ht. cbn in Ht. rewrite foldl_app in Ht.
  set (rows1 := match row with
                | Some (r, custody) =>
                    match row_to_vec (mkPersistedReceipt r custody) with
                    | Ok b => <[rc_receipt_id r := b]> rows
                    | Err _ => rows
                    end
                | None => rows
                end).
  assert (Hw1 : foldl table_write (mkDatabase (Some rows) (Some meta)) written =
                mkDatabase (Some rows1) (Some meta)).
  { unfold rows1. destruct row as [[r custody]|]; [|by injection Hw as <-].
    destruct (row_to_vec (mkPersistedReceipt r custody)) as [b|] eqn:Hb.
    - apply bind_Ok in Hw as (op & (b' & Hb' & [= <-])%bind_Ok & [= <-]). simpl.
      rewrite Hb in Hb'. by injection Hb' as <-.
    - apply bind_Ok in Hw as (op & (b' & Hb' & _)%bind_Ok & _). congruence. }
  rewrite Hw1, foldl_app, fold_row_removals in Ht.
  set (meta' := match next with Some n => <[NEXT_ID := n]> meta | None => meta end).
  exists meta', (removed_rows rows1 removals).
  assert (Hmeta : meta' !! NEXT_ID = Some (ss_next_identity st') ∧
                  meta' !! LEDGER_VERSION_KEY = Some LEDGER_VERSION).
  { unfold meta'. destruct next as [n|]; simpl in Hid; rewrite Hid; [|done].
    by rewrite lookup_insert_eq, lookup_insert_ne by done. }
  split_and!; [|apply Hmeta..|].
  { rewrite Ht. unfold meta'. by destruct next. }
  intros id. rewrite Hr. unfold row_after. rewrite lookup_removed_rows.
  case_bool_decide as Hrem; [done|]. specialize (Hm id). unfold rows1.
  destruct row as [[r custody]|]; [|done].
  apply bind_Ok in Hw as (op & (b & Hb & _)%bind_Ok & _). rewrite Hb.
  case_bool_decide as E; [subst id; rewrite lookup_insert_eq; eauto|by rewrite lookup_insert_ne].
Qed.

Lemma ledger_commit_err d next row removals e d' :
  ledger_commit d next row removals = (Err e, d') → tables d' = tables d.
Proof. apply write_err. Qed.

(** ** Reasoning about operations *)

Record durable (s : RedbWriteStore) : Prop := {
  du_ledger : ledger_ok (rs_state s);
  du_file : mirrored (rs_database s) (rs_state s);
  du_published : rs_latest s = redb_snapshot (rs_state s)
}.

(** Ledger, file, published snapshot, notifications and bounds as they were. *)
Record unchanged (s s' : RedbWriteStore) : Prop := {
  un_state : rs_state s' = rs_state s;
  un_file : tables (rs_database s') = tables (rs_database s);
  un_latest : rs_latest s' = rs_latest s;
  un_changes : rs_changes s' = rs_changes s;
  un_bounds : rs_active s' = rs_active s ∧ rs_terminal s' = rs_terminal s
}.

Lemma unchanged_refl s : unchanged s s.
Proof. by split. Qed.

Lemma unchanged_durable s s' : durable s → unchanged s s' → durable s'.
Proof. intros [Hl Hf Hp] [Hs Ht Hlt _ _]. split; rewrite ?Hs, ?Hlt; try done. by eapply mirrored_same. Qed.

Definition same_bounds (s s' : RedbWriteStore) : Prop :=
  rs_active s' = rs_active s ∧ rs_terminal s' = rs_terminal s.

Definition rpost {A} (s : RedbWriteStore) (r : result WriteStoreError A) (s' : RedbWriteStore) : Prop :=
  match r with Ok _ => durable s' ∧ same_bounds s s' | Err _ => unchanged s s' end.

Definition rwp {A} (m : ROp A) (Q : result WriteStoreError A → RedbWriteStore → Prop)
    (s : RedbWriteStore) : Prop := Q (m s).1 (m s).2.

Definition on_disk (d : Disk) (s : RedbWriteStore) : RedbWriteStore :=
  mkRedbStore _ _ d (rs_state s) (rs_active s) (rs_terminal s) (rs_latest s) (rs_changes s).
Definition assigning (st : StoreState) (s : RedbWriteStore) : RedbWriteStore :=
  mkRedbStore _ _ (rs_database s) st (rs_active s) (rs_terminal s) (rs_latest s) (rs_changes s).
Definition announcing (st : StoreState) (changes : list (ReceiptId * option Receipt)) (s : RedbWriteStore)
    : RedbWriteStore :=
  mkRedbStore _ _ (rs_database s) (rs_state s) (rs_active s) (rs_terminal s) (redb_snapshot st)
    (rs_changes s ++ changes).
Definition notifying (changes : list (ReceiptId * option Receipt)) (s : RedbWriteStore) : RedbWriteStore :=
  mkRedbStore _ _ (rs_database s) (rs_state s) (rs_active s) (rs_terminal s) (rs_latest s)
    (rs_changes s ++ changes).

Section rules.
Context {A B : Type} (Q : result WriteStoreError B → RedbWriteStore → Prop).
Implicit Types (s : RedbWriteStore) (f : A → ROp B).

Lemma rwp_try (r : result WriteStoreError A) f s :
  (∀ a, r = Ok a → rwp (f a) Q s) → (∀ e, r = Err e → Q (Err e) s) → rwp (r_try r ≫= f) Q s.
Proof. intros Hok Herr. destruct r; [exact (Hok _ eq_refl)|exact (Herr _ eq_refl)]. Qed.

Lemma rwp_get (o : option A) reason f s :
  (∀ a, o = Some a → rwp (f a) Q s) → (∀ e, Q (Err e) s) → rwp (r_get o reason ≫= f) Q s.
Proof. intros Hok Herr. destruct o; [exact (Hok _ eq_refl)|apply Herr]. Qed.

Lemma rwp_valid (r : result InvalidEventValue A) f s :
  (∀ a, r = Ok a → rwp (f a) Q s) → (∀ e, Q (Err e) s) → rwp (r_valid r ≫= f) Q s.
Proof. intros Hok Herr. destruct r; [exact (Hok _ eq_refl)|apply Herr]. Qed.

Lemma rwp_require b reason (f : unit → ROp B) s :
  (b = true → rwp (f tt) Q s) → (∀ e, Q (Err e) s) → rwp (r_require b reason ≫= f) Q s.
Proof. intros Hok Herr. destruct b; [exact (Hok eq_refl)|apply Herr]. Qed.

Lemma rwp_lock (f : StoreState → ROp B) s : rwp (f (rs_state s)) Q s → rwp (r_lock ≫= f) Q s.
Proof. done. Qed.
Lemma rwp_active (f : nat → ROp B) s : rwp (f (rs_active s)) Q s → rwp (r_active ≫= f) Q s.
Proof. done. Qed.
Lemma rwp_terminal (f : nat → ROp B) s : rwp (f (rs_terminal s)) Q s → rwp (r_terminal ≫= f) Q s.
Proof. done. Qed.
Lemma rwp_put st (f : unit → ROp B) s : rwp (f tt) Q (assigning st s) → rwp (r_put st ≫= f) Q s.
Proof. done. Qed.
Lemma rwp_publish id r (f : unit → ROp B) s :
  rwp (f tt) Q (notifying [(id, r)] s) → rwp (r_publish id r ≫= f) Q s.
Proof. done. Qed.
Lemma rwp_snapshot st (f : unit → ROp B) s :
  rwp (f tt) Q (announcing st [] s) → rwp (r_publish_snapshot st ≫= f) Q s.
Proof.
  intros Hf. unfold rwp, mbind, rop_bind, mbind, stateM_bind. unfold announcing in Hf.
  by rewrite app_nil_r in Hf.
Qed.
Lemma rwp_assign st id r (f : unit → ROp B) s :
  rwp (f tt) Q (announcing st [(id, r)] (assigning st s)) → rwp (r_assign st id r ≫= f) Q s.
Proof. done. Qed.

Lemma rwp_removals removals (f : unit → ROp B) s :
  rwp (f tt) Q (notifying ((λ id, (id, None)) <$> removals) s) → rwp (publish_removals removals ≫= f) Q s.
Proof.
  revert s. induction removals as [|id removals IH]; intros s Hf.
  - unfold notifying in Hf. simpl in Hf. rewrite app_nil_r in Hf. by destruct s.
  - change (rwp (publish_removals removals ≫= f) Q (notifying [(id, None)] s)). apply IH.
    unfold notifying in *. simpl in *. by rewrite <- (assoc_L (++)).
Qed.

Lemma rwp_persist next row removals (f : unit → ROp B) s :
  (∀ d, ledger_commit (rs_database s) next row removals = (Ok tt, d) → rwp (f tt) Q (on_disk d s)) →
  (∀ d e, tables d = tables (rs_database s) → Q (Err e) (on_disk d s)) →
  rwp (persist next row removals ≫= f) Q s.
Proof.
  intros Hok Herr. unfold rwp, mbind, rop_bind, mbind, stateM_bind, persist.
  destruct (ledger_commit (rs_database s) next row removals) as [[[]|e] d] eqn:Hc; simpl.
  - by apply Hok.
  - apply Herr. by eapply ledger_commit_err.
Qed.

Lemma rwp_bind_ret (a : A) f s : rwp (f a) Q s → rwp (mret a ≫= f) Q s.
Proof. done. Qed.
Lemma rwp_bind_refuse reason f s : (∀ e, Q (Err e) s) → rwp (r_refuse reason ≫= f) Q s.
Proof. intros Herr. apply Herr. Qed.
Lemma rwp_ret (b : B) s : Q (Ok b) s → rwp (mret b) Q s.
Proof. done. Qed.
Lemma rwp_refuse reason s : (∀ e, Q (Err e) s) → rwp (r_refuse reason) Q s.
Proof. intros Herr. apply Herr. Qed.
End rules.

Lemma rwp_bind {A B} (m : ROp A) (f : A → ROp B) P Q s :
  rwp m P s → (∀ a s', P (Ok a) s' → rwp (f a) Q s') → (∀ e s', P (Err e) s' → Q (Err e) s') →
  rwp (m ≫= f) Q s.
Proof.
  unfold rwp, mbind, rop_bind, mbind, stateM_bind. destruct (m s) as [[a|e] s']; simpl; auto.
Qed.

Lemma rwp_mono {A} (m : ROp A) (P Q : result WriteStoreError A → RedbWriteStore → Prop) s :
  rwp m P s → (∀ r s', P r s' → Q r s') → rwp m Q s.
Proof. unfold rwp. auto. Qed.

(** The end of a committed operation. *)
Lemma durable_committed s d next row removals st' latest changes :
  durable s → ledger_commit (rs_database s) next row removals = (Ok tt, d) →
  follows (rs_state s) next row removals st' → latest = redb_snapshot st' →
  durable (mkRedbStore _ _ d st' (rs_active s) (rs_terminal s) latest changes).
Proof.
  intros [Hl Hf Hp] Hc Hfo ->. split; simpl; [by eapply follows_ok|by eapply ledger_commit_mirrored|done].
Qed.

Lemma unchanged_on_disk s d : tables d = tables (rs_database s) → unchanged s (on_disk d s).
Proof. by split. Qed.

End file.

(** Symbolic execution of one step; a refusal has changed nothing. *)
Ltac r_fail := first [intros; apply unchanged_refl | intros; by apply unchanged_on_disk].

Ltac r_step :=
  lazymatch goal with
  | |- rwp (mbind _ r_lock) _ _ => apply rwp_lock
  | |- rwp (mbind _ r_active) _ _ => apply rwp_active
  | |- rwp (mbind _ r_terminal) _ _ => apply rwp_terminal
  | |- rwp (mbind _ (r_put _)) _ _ => apply rwp_put
  | |- rwp (mbind _ (r_publish _ _)) _ _ => apply rwp_publish
  | |- rwp (mbind _ (r_publish_snapshot _)) _ _ => apply rwp_snapshot
  | |- rwp (mbind _ (r_assign _ _ _)) _ _ => apply rwp_assign
  | |- rwp (mbind _ (publish_removals _)) _ _ => apply rwp_removals
  | |- rwp (mbind _ (persist _ _ _)) _ _ => apply rwp_persist; [intros|r_fail]
  | |- rwp (mbind _ (mret _)) _ _ => apply rwp_bind_ret
  | |- rwp (mbind _ (r_refuse _)) _ _ => apply rwp_bind_refuse; r_fail
  | |- rwp (mbind _ (r_require _ _)) _ _ => apply rwp_require; [intros|r_fail]
  | |- rwp (mbind _ (r_get _ _)) _ _ => apply rwp_get; [intros|r_fail]
  | |- rwp (mbind _ (r_valid _)) _ _ => apply rwp_valid; [intros|r_fail]
  | |- rwp (mbind _ (r_try _)) _ _ => apply rwp_try; [intros|r_fail]
  | |- rwp (mret _) _ _ => apply rwp_ret
  | |- rwp (r_refuse _) _ _ => apply rwp_refuse; r_fail
  end; cbv beta.

(** Name what a step binds and why. *)
Tactic Notation "r_as" ident(x) ident(E) :=
  lazymatch goal with
  | |- rwp (mbind _ (r_get _ _)) _ _ => apply rwp_get
  | |- rwp (mbind _ (r_valid _)) _ _ => apply rwp_valid
  | |- rwp (mbind _ (r_try _)) _ _ => apply rwp_try
  end; [intros x E; cbv beta|r_fail].
Tactic Notation "r_commit" ident(d) ident(E) := apply rwp_persist; [intros d E; cbv beta|r_fail].
