(* ===== verification/RedbStoreDurable.v ===== *)
(** * The durable write store: every operation keeps file and ledger together

    Each operation of [RedbStore], run on a store whose file mirrors its ledger,
    either refuses and changes nothing, or commits one transaction and leaves
    the file a mirror of the new ledger ([rpost]). *)

From S2P Require Import Prelude Nostr Relay State Write Query Routing Receipts MemoryStore StoreInvariant Redb RedbStore RedbStoreProps.

Lemma row_with_revision n st id : row_at (with_revision n st) id = row_at st id.
Proof. done. Qed.
(** A transaction that replaces one row. *)
Lemma follows_update st id r0 r custody st' :
  ledger_ok st → ss_receipts st !! id = Some r0 → rc_receipt_id r = id → rc_write_id r = id →
  ss_next_identity st' = ss_next_identity st →
  (∀ id', row_at st' id' = if bool_decide (id' = id) then (Some r, custody) else row_at st id') →
  follows st None (Some (r, custody)) [] st'.
Proof.
  intros Hok Hr0 Hid Hw Hn Hr. destruct (ledger_receipt _ _ _ Hok Hr0) as (_ & _ & Hb).
  split; [done|lia| |].
  - intros id'. rewrite Hr. unfold row_after. by rewrite Hid.
  - intros r' c' [= <- <-]. rewrite Hid, Hn. done.
Qed.

(** A transaction that adds a row under the next identity. *)
Lemma follows_accept st next r custody removals st' :
  ledger_ok st → next_identity (ss_next_identity st) = Ok next →
  rc_receipt_id r = ss_next_identity st → rc_write_id r = ss_next_identity st →
  ss_next_identity st' = next →
  (∀ id, row_at st' id = row_after st (Some (r, custody)) removals id) →
  follows st (Some next) (Some (r, custody)) removals st'.
Proof.
  intros [Hnz _] Hnext%ok_or_Ok Hid Hw Hn Hr. apply checked_succ_Some in Hnext as [_ ->].
  split; [done|lia|done|]. intros r' c' [= <- <-]. rewrite Hid, Hw, Hn. split; [done|lia].
Qed.

Lemma elem_of_terminal_evictions st updated maximum id :
  ledger_ok st → id ∈ terminal_evictions st updated maximum → id ≠ rc_receipt_id updated.
Proof.
  intros Hok Hin. unfold terminal_evictions in Hin.
  apply elem_of_take in Hin as (i & Hi & _). apply list_elem_of_lookup_2 in Hi.
  rewrite merge_sort_Permutation in Hi. apply list_elem_of_fmap in Hi as (r & -> & Hf).
  apply elem_of_filterb in Hf as [Hf _]. apply andb_true_iff in Hf as [_ Hf].
  apply negb_true_iff, bool_decide_eq_false in Hf. done.
Qed.

Section ops.
Context `{!Nostr} `{!LedgerSerde} `{!LedgerSerdeLaws} `{!Redb N Row} `{!RedbLaws} (now : Timestamp).
Implicit Types (s : RedbWriteStore).

Ltac r_done := split; [|done].

Lemma r_accept_durable intent s : durable s → rwp (r_accept intent) (rpost s) s.
Proof.
  intros Hs. unfold r_accept. do 3 r_step. r_as next Hnext.
  apply (rwp_bind _ _ (λ r s', s' = s) _ s); [|intros [event signature] s' ->|intros e s' ->; apply unchanged_refl].
  { by destruct (in_payload intent). }
  r_as current Hc. r_as revision Hrev. r_commit d Hcommit. do 2 r_step. r_done.
  apply (durable_committed s d _ _ _ _ _ _ Hs Hcommit); [|done].
  apply (follows_accept _ _ _ _ _ _ (du_ledger _ Hs) Hnext); [done..|].
  intros id. simpl. rewrite row_put_receipt. unfold row_after. simpl.
  case_bool_decide as E; [|done]. subst id. f_equal.
  pose proof (ledger_fresh _ (ss_next_identity (rs_state s)) (du_ledger _ Hs) (N.le_refl _)) as Hf. by injection Hf.
Qed.

Lemma r_update_durable id mutation s :
  durable s →
  (∀ r r', ss_receipts (rs_state s) !! id = Some r → mutation r = Ok r' →
     rc_receipt_id r' = rc_receipt_id r ∧ rc_write_id r' = rc_write_id r) →
  rwp (update id mutation) (rpost s) s.
Proof.
  intros Hs Hmut. unfold update. do 2 r_step. r_as original Ho. r_as r Hr.
  case_bool_decide; [r_step; r_done; done|]. r_as revision Hrev. r_commit d Hcommit. do 5 r_step. r_done.
  destruct (Hmut _ _ Ho Hr) as [Hid Hw]. pose proof (du_ledger _ Hs) as Hok.
  destruct (ledger_receipt _ _ _ Hok Ho) as (Ei & Ew & Hb).
  eapply (durable_committed s d _ _ _ _ _ _ Hs Hcommit); [|done]. simpl.
  assert (Hrows : ∀ id', row_at (if receipt_is_terminal r
      then release_semantic_coordinate id (foldl drop_receipt (rs_state s) (terminal_evictions (rs_state s) r (rs_terminal s)))
      else foldl drop_receipt (rs_state s) (terminal_evictions (rs_state s) r (rs_terminal s))) id' =
    if bool_decide (id' ∈ terminal_evictions (rs_state s) r (rs_terminal s)) then (None, None) else row_at (rs_state s) id').
  { intros id'. destruct (receipt_is_terminal r); by rewrite ?row_release_coordinate, row_drop_all. }
  assert (Hnid : ss_next_identity (if receipt_is_terminal r
      then release_semantic_coordinate id (foldl drop_receipt (rs_state s) (terminal_evictions (rs_state s) r (rs_terminal s)))
      else foldl drop_receipt (rs_state s) (terminal_evictions (rs_state s) r (rs_terminal s))) = ss_next_identity (rs_state s)).
  { rewrite <- (drop_all_identity (terminal_evictions (rs_state s) r (rs_terminal s)) (rs_state s)).
    destruct (receipt_is_terminal r); [|done]. unfold release_semantic_coordinate. by case_match. }
  assert (Hout : id ∉ terminal_evictions (rs_state s) r (rs_terminal s)).
  { intros Hin%(elem_of_terminal_evictions _ _ _ _ Hok). congruence. }
  split; [done|simpl in *; lia| |].
  - intros id'. rewrite row_with_revision, row_put_receipt. unfold row_after.
    case_bool_decide as E.
    + subst id'. rewrite (bool_decide_eq_false_2 (id ∈ _)) by done.
      rewrite (bool_decide_eq_true_2 (id = rc_receipt_id r)) by congruence.
      specialize (Hrows id). rewrite (bool_decide_eq_false_2 (id ∈ _)) in Hrows by done.
      unfold row_at in Hrows. by injection Hrows as _ ->.
    + rewrite Hrows. by rewrite (bool_decide_eq_false_2 (id' = rc_receipt_id r)) by congruence.
  - intros r' c' [= <- <-]. simpl in *. rewrite Hnid. split; [congruence|]. rewrite Hid, Ei. done.
Qed.
(** The end most operations share: one row written, the ledger assigned, published. *)
Lemma rwp_row_committed {A} s id r0 r custody st' (x : A) :
  durable s → ss_receipts (rs_state s) !! id = Some r0 →
  rc_receipt_id r = rc_receipt_id r0 → rc_write_id r = rc_write_id r0 →
  ss_next_identity st' = ss_next_identity (rs_state s) →
  (∀ id', row_at st' id' = if bool_decide (id' = id) then (Some r, custody) else row_at (rs_state s) id') →
  rwp (_ ← persist None (Some (r, custody)) []; _ ← r_assign st' id (Some r); mret x) (rpost s) s.
Proof.
  intros Hs Hr0 Hid Hw Hn Hr. destruct (ledger_receipt _ _ _ (du_ledger _ Hs) Hr0) as (Ei & Ew & _).
  r_commit d Hcommit. do 2 r_step. r_done.
  apply (durable_committed s d _ _ _ _ _ _ Hs Hcommit); [|done].
  by apply (follows_update _ id r0); [apply Hs|done|congruence..| |].
Qed.

Lemma r_apply_route_durable w id rev ev plan s : durable s → rwp (r_apply_route w id rev ev plan) (rpost s) s.
Proof.
  intros Hs. apply r_update_durable; [done|]. intros r r' _ (u & _ & Ha)%bind_Ok.
  by apply apply_route_fixed in Ha as (? & ? & _).
Qed.

Lemma r_begin_attempt_durable w id rev ev session attempt s :
  durable s → rwp (r_begin_attempt w id rev ev session attempt) (rpost s) s.
Proof.
  intros Hs. apply r_update_durable; [done|]. intros r r' _ (u & _ & (u' & _ & Ha)%bind_Ok)%bind_Ok. revert Ha. cbv zeta.
  case_match; [by intros [= <-]|].
  by intros (e & _ & (u1 & _ & (o & _ & (u2 & _ & [= <-])%bind_Ok)%bind_Ok)%bind_Ok)%bind_Ok.
Qed.

Lemma r_record_outcome_durable w id rev ev session attempt outcome s :
  durable s → rwp (r_record_outcome w id rev ev session attempt outcome) (rpost s) s.
Proof.
  intros Hs. unfold r_record_outcome. do 2 r_step. apply r_update_durable; [done|].
  intros r r' _ (u & _ & (u' & _ & (current & _ & Ha)%bind_Ok)%bind_Ok)%bind_Ok. revert Ha.
  case_bool_decide; [by intros [= <-]|]. intros (u1 & _ & [= <-])%bind_Ok.
  by destruct (settle_current (set_destination session outcome r)) as (_ & ? & ? & _).
Qed.

Lemma r_cancel_durable id s : durable s → rwp (r_cancel id) (rpost s) s.
Proof.
  intros Hs. unfold r_cancel. r_step. destruct (ss_receipts (rs_state s) !! id) as [current|]; [|by r_step].
  destruct (is_cancelled current); [by r_step|].
  apply (rwp_bind _ _ (rpost s)); [|intros r s' [Hd Hb]; r_step; done|by intros e s' He].
  apply r_update_durable; [done|]. by intros r r' _ (u & _ & [= <-])%bind_Ok.
Qed.

Lemma r_remove_durable id s : durable s → rwp (r_remove_receipt id) (rpost s) s.
Proof.
  intros Hs. unfold r_remove_receipt. r_step.
  destruct (ss_receipts (rs_state s) !! id) as [r|] eqn:Hr; [|by r_step].
  r_step. r_as revision Hrev. r_commit d Hcommit. do 2 r_step. r_done.
  apply (durable_committed s d _ _ _ _ _ _ Hs Hcommit); [|done]. simpl.
  split; [unfold drop_receipt, release_semantic; by case_match| | |done].
  - unfold drop_receipt, release_semantic. by case_match.
  - intros id'. rewrite row_with_revision, row_drop_receipt. unfold row_after.
    rewrite (bool_decide_ext (id' ∈ [id]) (id' = id)); [done|]. apply list_elem_of_singleton.
Qed.

Lemma commit_receipt_durable r0 r s :
  durable s → ss_receipts (rs_state s) !! rc_receipt_id r = Some r0 →
  rc_receipt_id r = rc_receipt_id r0 → rc_write_id r = rc_write_id r0 →
  rwp (commit_receipt (rs_state s) r) (rpost s) s.
Proof.
  intros Hs Hr0 Hid Hw. unfold commit_receipt. r_as revision Hrev.
  eapply rwp_row_committed; [done|exact Hr0|done..|].
  intros id'. rewrite row_with_revision. apply row_put_receipt.
Qed.

Lemma r_promote_durable id s : durable s → rwp (r_promote_authorized_successor (rs_state s) id) (rpost s) s.
Proof.
  intros Hs. unfold r_promote_authorized_successor. apply rwp_get; [intros [custody successor] Hsu|r_fail].
  r_as r Hr. r_step. r_as rid Hrid. r_as current Hc. r_as updated Hu. r_as revision Hrev.
  apply initial_route_fixed in Hu as (Hw & Hid & _).
  eapply rwp_row_committed; [done|exact Hr|done..|].
  intros id'. rewrite row_with_revision. apply row_put_both.
Qed.

Lemma r_authorize_durable w id rev ev s : durable s → rwp (r_authorize_signing w id rev ev) (rpost s) s.
Proof.
  intros Hs. unfold r_authorize_signing. r_step. r_as r Hr. do 2 r_step.
  destruct (pub_signature (rc_publication r)) eqn:Hsig; try (by r_step);
    (case_bool_decide; [by r_step|]; r_as revision Hrev;
     eapply rwp_row_committed; [done|exact Hr|done..|]; intros id'; rewrite row_with_revision; apply row_put_receipt).
Qed.

Lemma ledger_at s id r : durable s → ss_receipts (rs_state s) !! id = Some r → ss_receipts (rs_state s) !! rc_receipt_id r = Some r.
Proof. intros Hs Hr. by destruct (ledger_receipt _ _ _ (du_ledger _ Hs) Hr) as (-> & _). Qed.

Lemma r_retryable_durable w id rev ev reason s :
  durable s → rwp (r_record_signer_retryable w id rev ev reason) (rpost s) s.
Proof.
  intros Hs. unfold r_record_signer_retryable. do 2 r_step. r_as r Hr. do 2 r_step.
  destruct (_ && _); [by apply r_promote_durable|].
  apply (commit_receipt_durable r); [done|exact (ledger_at _ _ _ Hs Hr)|done..].
Qed.

Lemma r_install_signed_durable w id rev ev event s :
  durable s → rwp (r_install_signed w id rev ev event) (rpost s) s.
Proof.
  intros Hs. unfold r_install_signed. do 2 r_step. r_as r Hr. r_step.
  destruct (lw_event (rc_current r)); [|case_bool_decide; by r_step]. do 2 r_step.
  destruct (has_successor _ _); [by apply r_promote_durable|].
  apply (commit_receipt_durable r); [done|exact (ledger_at _ _ _ Hs Hr)|done..].
Qed.

Lemma r_refusal_durable w id rev ev reason s :
  durable s → rwp (r_record_signer_refusal w id rev ev reason) (rpost s) s.
Proof.
  intros Hs. unfold r_record_signer_refusal. do 2 r_step. r_as r Hr. r_step.
  case_bool_decide; [by r_step|]. r_step. destruct (has_successor _ _); [by apply r_promote_durable|].
  apply (commit_receipt_durable r); [done|exact (ledger_at _ _ _ Hs Hr)|done..].
Qed.
(** *** Edits *)

(** A waiting successor: the row is written and only the custody changes. *)
Lemma rwp_awaiting {A} s id r custody (x : A) :
  durable s → ss_receipts (rs_state s) !! id = Some r →
  rwp (_ ← persist None (Some (r, Some custody)) []; _ ← r_put (put_semantic id custody (rs_state s));
       _ ← r_publish id (Some r); mret x) (rpost s) s.
Proof.
  intros Hs Hr. destruct (ledger_receipt _ _ _ (du_ledger _ Hs) Hr) as (Ei & Ew & _).
  r_commit d Hcommit. do 3 r_step. r_done.
  apply (durable_committed s d _ _ _ _ _ _ Hs Hcommit); [|apply (du_published _ Hs)].
  apply (follows_update _ id r); [apply Hs|done..|]. intros id'. simpl. by rewrite row_put_semantic, Hr.
Qed.

Lemma r_compose_durable id edit author routing event source route s :
  durable s →
  rwp (r_compose_semantic (rs_state s) id edit author routing event source route) (rpost s) s.
Proof.
  intros Hs. unfold r_compose_semantic. r_as r Hr. r_as custody Hcu. do 2 r_step. r_as selected Hsel.
  do 2 r_step. r_as plan Hplan. r_step.
  destruct (bool_decide (pub_signature (rc_publication r) = SigAuthorized)).
  - r_step. by apply rwp_awaiting.
  - r_as rid Hrid. r_as current Hc. r_as updated Hu. r_as revision Hrev.
    apply initial_route_fixed in Hu as (Hw & Hid & _).
    eapply rwp_row_committed; [done|exact Hr|done..| |].
    + destruct (receipt_is_terminal updated); [|done]. unfold release_semantic. by case_match.
    + intros id'. destruct (receipt_is_terminal updated); [|rewrite row_put_both; done].
      rewrite row_put_receipt. pose proof (row_release_semantic (with_revision revision (rs_state s)) id) as Hrel.
      destruct (decide (id' = id)) as [->|Hne].
      * rewrite !bool_decide_eq_true_2 by done. specialize (Hrel id).
        rewrite bool_decide_eq_true_2 in Hrel by done. apply (f_equal snd) in Hrel. cbn [snd row_at] in Hrel.
        by rewrite Hrel.
      * rewrite !bool_decide_eq_false_2 by done. by rewrite Hrel, bool_decide_eq_false_2.
Qed.

Lemma r_accept_new_durable reserved edit author routing access event selected route s :
  durable s →
  rwp (r_accept_new (rs_state s) reserved edit author routing access event selected route) (rpost s) s.
Proof.
  intros Hs. unfold r_accept_new. do 3 r_step. r_as next Hnext. r_as current Hc. r_as r Hr. r_as revision Hrev.
  r_commit d Hcommit. do 5 r_step. r_done.
  apply initial_route_fixed in Hr as (Hw & Hid & _). simpl in Hw, Hid.
  pose proof (du_ledger _ Hs) as Hok.
  pose proof (ledger_fresh _ (ss_next_identity (rs_state s)) Hok (N.le_refl _)) as Hfresh.
  apply (durable_committed s d _ _ _ _ _ _ Hs Hcommit); [|done]. simpl.
  apply (follows_accept _ _ _ _ _ _ Hok Hnext Hid Hw).
  - by destruct (receipt_is_terminal r).
  - intros id'. rewrite row_put_receipt. unfold row_after. rewrite Hid.
    destruct (decide (id' = ss_next_identity (rs_state s))) as [->|Hne].
    + rewrite (bool_decide_eq_false_2 (ss_next_identity (rs_state s) ∈ _))
        by (intros Hin%(elem_of_terminal_evictions _ _ _ _ Hok); congruence).
      rewrite !bool_decide_eq_true_2 by done. f_equal.
      destruct (receipt_is_terminal r); simpl; by rewrite lookup_insert_eq.
    + rewrite !(bool_decide_eq_false_2 (id' = _)) by done.
      transitivity (row_at (put_semantic (ss_next_identity (rs_state s)) (mkSemantic [edit] author selected None None)
        (foldl drop_receipt (rs_state s) (terminal_evictions (rs_state s) r (rs_terminal s)))) id');
        [by destruct (receipt_is_terminal r)|].
      rewrite row_put_semantic, (bool_decide_eq_false_2 (id' = _)) by done. apply row_drop_all.
Qed.

(** An acceptance under a reservation has consumed it by the time it may refuse. *)
Definition consumed (n : N) (s : RedbWriteStore) : RedbWriteStore :=
  assigning (with_reservations (ss_next_reservation (rs_state s)) (delete n (ss_reservations (rs_state s)))
               (rs_state s)) s.

Definition rpost_from {A} (n : option N) (s : RedbWriteStore) (r : result WriteStoreError A)
    (s' : RedbWriteStore) : Prop :=
  rpost s r s' ∨ ∃ m, n = Some m ∧ rpost (consumed m s) r s'.

Lemma consumed_durable n s : durable s → durable (consumed n s).
Proof.
  intros [Hl Hf Hp]. split; [done| |done]. by apply (mirrored_view _ (rs_state s)).
Qed.

Lemma r_accept_decided_durable (reserved : bool) edit author routing access event source route s :
  durable s →
  rwp (selected ← r_try (r_validate_revision now edit author event source routing);
       state ← r_lock;
       match ss_coordinates state !! edit_coordinate edit author with
       | Some receipt_id =>
           receipt ← r_get (ss_receipts state !! receipt_id) "coordinate owner is missing";
           custody ← r_get (ss_semantics state !! receipt_id) "semantic custody is missing";
           if repeats_acceptance receipt (custody_of custody) edit author selected routing event route
           then mret (mkAccepted (rc_write_id receipt) (rc_receipt_id receipt) (rc_current receipt))
           else r_compose_semantic state receipt_id edit author routing event source route
       | None => r_accept_new state reserved edit author routing access event selected route
       end) (rpost s) s.
Proof.
  intros Hs. r_as selected Hsel. r_step.
  destruct (ss_coordinates (rs_state s) !! edit_coordinate edit author) as [id|];
    [|by apply r_accept_new_durable].
  r_as r Hr. r_as custody Hcu. destruct (repeats_acceptance _ _ _ _ _ _ _ _); [by r_step|].
  by apply r_compose_durable.
Qed.

Lemma r_accept_inner_durable reservation intent event source route s :
  durable s →
  rwp (r_accept_semantic_inner now reservation intent event source route) (rpost_from reservation s) s.
Proof.
  intros Hs. unfold r_accept_semantic_inner.
  apply (rwp_bind _ _ (λ r s', s' = s) _ s);
    [by destruct (in_payload intent)|intros [edit author] s' ->|intros e s' ->; left; apply unchanged_refl].
  destruct reservation as [n|]; cbn [r_consume_reservation].
  - apply (rwp_bind _ _ (λ r s', match r with Ok _ => s' = consumed n s | Err _ => s' = s end)).
    + r_step. apply rwp_get; [intros reserved _|by intros]. apply rwp_require; [intros _|by intros].
      by do 2 r_step.
    + intros reserved s' ->. eapply rwp_mono; [by apply r_accept_decided_durable, consumed_durable|].
      intros r s' Hp. right. by exists n.
    + intros e s' ->. left. apply unchanged_refl.
  - r_step. eapply rwp_mono; [by apply r_accept_decided_durable|]. intros r s' Hp. by left.
Qed.

Lemma r_reserve_durable edit author s : durable s → rwp (reserve_active_slot edit author) (rpost s) s.
Proof.
  intros Hs. unfold reserve_active_slot. do 5 r_step. r_as next Hnext. do 2 r_step. r_done.
  destruct Hs as [Hl Hf Hp]. split; [done| |done]. by apply (mirrored_view _ (rs_state s)).
Qed.

Lemma r_release_durable n s : durable s → rwp (release_active_slot n) (rpost s) s.
Proof.
  intros Hs. unfold release_active_slot. r_step. r_as coordinate Hc. r_step.
  assert (Hd : durable (consumed n s)) by (by apply consumed_durable).
  destruct (_ ≫= _) as [[id r]|]; [|r_step; by r_done]. destruct Hd as [Hl Hf Hp].
  split; [by split|done].
Qed.

Lemma r_install_semantic_durable w id expected expected_source edits event source route s :
  durable s → rwp (r_install_semantic now w id expected expected_source edits event source route) (rpost s) s.
Proof.
  intros Hs. unfold r_install_semantic. r_step. r_as r Hr. r_as custody Hcu. apply rwp_try; [intros u Hcur|r_fail].
  r_step. r_as edit Hedit. r_as selected Hsel. case_match; [by r_step|]. r_step. r_as eid Heid. do 3 r_step.
  destruct (bool_decide (pub_signature (rc_publication r) = SigAuthorized)).
  - r_step. by apply rwp_awaiting.
  - r_step. r_as rid Hrid. r_as current Hc. r_as updated Hu. r_as revision Hrev.
    apply initial_route_fixed in Hu as (Hw & Hid & _).
    eapply rwp_row_committed; [done|exact Hr|done..|]. intros id'. by rewrite row_put_both.
Qed.

Lemma r_failure_durable w id expected expected_source source reason s :
  durable s → rwp (r_record_semantic_failure w id expected expected_source source reason) (rpost s) s.
Proof.
  intros Hs. unfold r_record_semantic_failure. r_step. r_as r Hr. r_as custody Hcu. r_step. r_as edit Hedit.
  r_as failed Hf. r_step. case_match; [by r_step|]. r_as revision Hrev.
  eapply rwp_row_committed; [done|exact Hr|done..|]. intros id'. by rewrite row_put_both.
Qed.

(** ** Every operation *)

Lemma r_discard_post {A} (m : ROp A) n s :
  rwp m (rpost_from n s) s → rwp (r_discard m) (rpost_from n s) s.
Proof. unfold rwp, r_discard. by destruct (m s) as [[a|e] s']. Qed.

Lemma r_perform_post op s : durable s → rwp (r_perform now op) (rpost_from (reservation_of op) s) s.
Proof.
  intros Hs. destruct op; cbn [r_perform]; apply r_discard_post;
    first [by apply r_accept_inner_durable|eapply rwp_mono; [|intros r s' Hp; left; exact Hp]];
    auto using r_accept_durable, r_reserve_durable, r_release_durable, r_install_semantic_durable,
      r_failure_durable, r_install_signed_durable, r_authorize_durable, r_retryable_durable, r_refusal_durable,
      r_apply_route_durable, r_begin_attempt_durable, r_record_outcome_durable, r_cancel_durable, r_remove_durable.
Qed.
End ops.
