(* ===== verification/RedbStoreRestart.v ===== *)
(** * The durable write store: restarts

    What [r_open_bounded] makes of a file whose rows mirror a ledger: loading
    gives the receipts and custody back and rebuilds the owners of coordinates
    from live custody; attempts in flight become [Unknown]; signing that was
    authorized becomes retryable or gives way to its waiting successor; all else
    is as it was. *)

From S2P Require Import Prelude Nostr Relay State Write Query Routing Receipts MemoryStore StoreInvariant Redb RedbStore RedbStoreProps RedbStoreDurable.

Section loading.
Context `{!Nostr} `{!LedgerSerde} `{!LedgerSerdeLaws} `{!Redb N Row} `{!RedbLaws}.

(** Live custody owns its coordinate. *)
Definition owns (receipts : gmap ReceiptId Receipt) (semantics : gmap ReceiptId Semantic)
    (coordinate : EventCoordinate) (id : ReceiptId) : Prop :=
  ∃ r custody, receipts !! id = Some r ∧ semantics !! id = Some custody ∧
    receipt_is_terminal r = false ∧ semantic_coordinate custody = Some coordinate.

Definition owners_exact (loaded : Loaded) : Prop :=
  ∀ coordinate id, ld_coordinates loaded !! coordinate = Some id ↔
    owns (ld_receipts loaded) (ld_semantics loaded) coordinate id.

Definition fresh_in (loaded : Loaded) (id : ReceiptId) : Prop :=
  ld_receipts loaded !! id = None ∧ ld_semantics loaded !! id = None.

(** One row, loaded. *)
Record row_loaded (loaded : Loaded) (id : ReceiptId) (p : PersistedReceipt) (loaded' : Loaded) : Prop := {
  rl_receipts : ld_receipts loaded' = <[id := pr_receipt p]> (ld_receipts loaded);
  rl_semantics : ld_semantics loaded' = match pr_semantic p with
                                        | Some custody => <[id := custody]> (ld_semantics loaded)
                                        | None => ld_semantics loaded
                                        end;
  rl_coordinates :
    match pr_semantic p with
    | Some custody =>
        if receipt_is_terminal (pr_receipt p) then ld_coordinates loaded' = ld_coordinates loaded
        else ∃ coordinate, semantic_coordinate custody = Some coordinate ∧
               ld_coordinates loaded !! coordinate = None ∧
               ld_coordinates loaded' = <[coordinate := id]> (ld_coordinates loaded)
    | None => ld_coordinates loaded' = ld_coordinates loaded
    end
}.

Lemma load_row_Ok loaded id b loaded' :
  load_row loaded (id, b) = Ok loaded' →
  ∃ p, row_from_slice b = Ok p ∧ row_loaded loaded id p loaded'.
Proof.
  intros (p & Hp & (u1 & _ & (u2 & _ & (ld & Hs & (u3 & _ & [= <-])%bind_Ok)%bind_Ok)%bind_Ok)%bind_Ok)%bind_Ok.
  simpl in *. exists p. destruct (row_from_slice b) as [p'|]; [|done]. injection Hp as ->. split; [done|].
  unfold load_semantic in Hs. destruct (pr_semantic p) as [custody|] eqn:Hc.
  - apply bind_Ok in Hs as (u & _ & (coordinates & Hco & [= <-])%bind_Ok).
    split; simpl; rewrite ?Hc; [done|done|].
    destruct (receipt_is_terminal (pr_receipt p)); [by injection Hco|].
    apply bind_Ok in Hco as (c & Hc'%ok_or_Ok & (u4 & Hn%ensure_Ok & [= <-])%bind_Ok).
    exists c. split_and!; [done| |done]. by apply bool_decide_eq_true in Hn.
  - injection Hs as <-. by split; simpl; rewrite ?Hc.
Qed.

Lemma row_loaded_owners loaded id p loaded' :
  fresh_in loaded id → row_loaded loaded id p loaded' → owners_exact loaded → owners_exact loaded'.
Proof.
  intros [Hfr Hfs] [Hr Hs Hc] Ho c i.
  assert (Hother : i ≠ id → owns (ld_receipts loaded') (ld_semantics loaded') c i ↔
                           owns (ld_receipts loaded) (ld_semantics loaded) c i).
  { intros Hne. unfold owns. rewrite Hr, Hs. rewrite lookup_insert_ne by done.
    destruct (pr_semantic p); [by rewrite lookup_insert_ne|done]. }
  assert (Hnot : ∀ c, ld_coordinates loaded !! c ≠ Some id).
  { intros c' (r & ? & Hr' & _)%Ho. congruence. }
  destruct (decide (i = id)) as [->|Hne].
  - unfold owns. rewrite Hr, Hs, lookup_insert_eq. destruct (pr_semantic p) as [custody|]; cycle 1.
    { rewrite Hc, Hfs. split; [by intros ?%Hnot|]. by intros (? & ? & _ & ? & _). }
    rewrite lookup_insert_eq. destruct (receipt_is_terminal (pr_receipt p)) eqn:Ht.
    + rewrite Hc. split; [by intros ?%Hnot|]. intros (r & cu & [= <-] & _ & ? & _). congruence.
    + destruct Hc as (co & Hco & _ & ->). destruct (decide (c = co)) as [->|Hnc].
      * rewrite lookup_insert_eq. split; [eauto 10|done].
      * rewrite lookup_insert_ne by done. split; [by intros ?%Hnot|].
        intros (r & cu & _ & [= <-] & _ & ?). congruence.
  - rewrite Hother by done. rewrite <- (Ho c i). destruct (pr_semantic p) as [custody|]; [|by rewrite Hc].
    destruct (receipt_is_terminal (pr_receipt p)); [by rewrite Hc|].
    destruct Hc as (co & _ & Hn & ->). destruct (decide (c = co)) as [->|Hnc].
    + rewrite lookup_insert_eq, Hn. split; [congruence|done].
    + by rewrite lookup_insert_ne.
Qed.

Lemma load_rows_exact l loaded loaded' :
  NoDup l.*1 → (∀ id, id ∈ l.*1 → fresh_in loaded id) → owners_exact loaded →
  load_rows loaded l = Ok loaded' →
  owners_exact loaded' ∧
  (∀ id b, (id, b) ∈ l → ∃ p, row_from_slice b = Ok p ∧
     ld_receipts loaded' !! id = Some (pr_receipt p) ∧ ld_semantics loaded' !! id = pr_semantic p) ∧
  (∀ id, id ∉ l.*1 → ld_receipts loaded' !! id = ld_receipts loaded !! id ∧
                     ld_semantics loaded' !! id = ld_semantics loaded !! id).
Proof.
  revert loaded. induction l as [|[id b] l IH]; intros loaded Hnd Hfr Ho; simpl.
  { intros [= <-]. split_and!; [done|by intros ?? ?%not_elem_of_nil|done]. }
  intros (ld & (p & Hp & Hrow)%load_row_Ok & Hrest)%bind_Ok. simpl in Hnd.
  apply NoDup_cons in Hnd as [Hid Hnd].
  assert (Hfid : fresh_in loaded id) by (apply Hfr; left).
  pose proof (row_loaded_owners loaded id p ld Hfid Hrow Ho) as Ho'. destruct Hrow as [Hr Hs _].
  assert (Hsem : ld_semantics ld !! id = pr_semantic p).
  { rewrite Hs. destruct (pr_semantic p); [by rewrite lookup_insert_eq|apply Hfid]. }
  assert (Hoth : ∀ i, i ≠ id → ld_receipts ld !! i = ld_receipts loaded !! i ∧
                               ld_semantics ld !! i = ld_semantics loaded !! i).
  { intros i Hne. rewrite Hr, Hs, lookup_insert_ne by done.
    destruct (pr_semantic p); [by rewrite lookup_insert_ne|done]. }
  destruct (IH ld Hnd) as (Hoo & Hin & Hout); [|done|done|].
  { intros i Hi. assert (i ≠ id) as Hne by (by intros ->). unfold fresh_in.
    destruct (Hoth i Hne) as [-> ->]. apply Hfr. by right. }
  split_and!; [done|..].
  - intros i b' [[= -> ->]|Hin']%elem_of_cons; [|by apply Hin].
    exists p. destruct (Hout id Hid) as [-> ->]. rewrite Hr, lookup_insert_eq. done.
  - intros i [Hne Hni]%not_elem_of_cons. destruct (Hout i Hni) as [-> ->]. by apply Hoth.
Qed.

Lemma mirror_loaded rows st loaded :
  rows_mirror rows (row_at st) → ledger_ok st → load_rows (mkLoaded ∅ ∅ ∅) (entries rows) = Ok loaded →
  ld_receipts loaded = ss_receipts st ∧ ld_semantics loaded = ss_semantics st ∧ owners_exact loaded.
Proof.
  intros Hm [_ Hok] Hl. destruct (load_rows_exact (entries rows) (mkLoaded ∅ ∅ ∅) loaded) as (Ho & Hin & Hout).
  - apply NoDup_keys.
  - done.
  - intros c i. unfold owns. simpl. rewrite lookup_empty. split; [done|]. by intros (? & ? & ? & _).
  - done.
  - assert (Hall : ∀ id, ld_receipts loaded !! id = ss_receipts st !! id ∧
                         ld_semantics loaded !! id = ss_semantics st !! id).
    { intros id. specialize (Hm id). specialize (Hok id). unfold row_at in *.
      destruct (ss_receipts st !! id) as [r|].
      - destruct Hm as (b & Hb%elem_of_entries & Hv). destruct (Hin id b Hb) as (p & Hp & -> & ->).
        rewrite (row_roundtrip _ _ Hv) in Hp. by injection Hp as <-.
      - destruct (Hout id) as [-> ->]; [|by rewrite Hok].
        intros ((i & b) & -> & Hb)%list_elem_of_fmap. apply elem_of_entries in Hb. simpl in Hm. congruence. }
    split_and!; [..|done]; apply map_eq; apply Hall.
Qed.
(** ** Attempts in flight *)

Lemma recover_receipt_ids r :
  rc_receipt_id (recover_receipt r) = rc_receipt_id r ∧ rc_write_id (recover_receipt r) = rc_write_id r.
Proof.
  unfold recover_receipt. destruct (is_ambiguous r); [|done].
  by destruct (settle_current (update_publication (with_destinations (resolve_attempt <$> rc_destinations r)) r))
    as (_ & ? & ? & _).
Qed.

Definition recovered_row (row : option Receipt * option Semantic) : option Receipt * option Semantic :=
  (recover_receipt <$> row.1, row.2).

Lemma released_rows l st id :
  row_at (foldl (λ st r, release_semantic_coordinate (rc_receipt_id r) st) st l) id = row_at st id.
Proof. revert st. induction l as [|r l IH]; intros st; simpl; [done|]. by rewrite IH, row_release_coordinate. Qed.

Lemma released_identity l st :
  ss_next_identity (foldl (λ st r, release_semantic_coordinate (rc_receipt_id r) st) st l) = ss_next_identity st ∧
  ss_reservations (foldl (λ st r, release_semantic_coordinate (rc_receipt_id r) st) st l) = ss_reservations st.
Proof.
  revert st. induction l as [|r l IH]; intros st; simpl; [done|]. destruct (IH (release_semantic_coordinate (rc_receipt_id r) st)) as [-> ->].
  unfold release_semantic_coordinate. by case_match.
Qed.

Lemma recover_ambiguous_rows st id : row_at (recover_ambiguous_delivery st).1 id = recovered_row (row_at st id).
Proof.
  unfold recover_ambiguous_delivery. simpl. rewrite released_rows. unfold row_at, recovered_row. simpl.
  by rewrite lookup_fmap.
Qed.

Lemma recover_ambiguous_identity st :
  ss_next_identity (recover_ambiguous_delivery st).1 = ss_next_identity st ∧
  ss_reservations (recover_ambiguous_delivery st).1 = ss_reservations st.
Proof. exact (released_identity _ (with_receipts (recover_receipt <$> ss_receipts st) st)). Qed.

Lemma recover_ambiguous_ok st : ledger_ok st → ledger_ok (recover_ambiguous_delivery st).1.
Proof.
  intros [Hn Hl]. split; [by rewrite (proj1 (recover_ambiguous_identity st))|].
  intros id. rewrite recover_ambiguous_rows, (proj1 (recover_ambiguous_identity st)). specialize (Hl id).
  unfold recovered_row. destruct (row_at st id) as [[r|] custody]; simpl in *; [|done].
  by destruct (recover_receipt_ids r) as [-> ->].
Qed.

Lemma elem_of_recovered st id :
  ledger_ok st → id ∈ (recover_ambiguous_delivery st).2 ↔
  ∃ r, ss_receipts st !! id = Some r ∧ is_ambiguous r = true.
Proof.
  intros Hok. unfold recover_ambiguous_delivery. simpl. rewrite list_elem_of_fmap.
  setoid_rewrite elem_of_filterb. setoid_rewrite elem_of_values. split.
  - intros (r & -> & Ha & (k & Hk)). destruct (ledger_receipt _ _ _ Hok Hk) as (-> & _). eauto.
  - intros (r & Hr & Ha). exists r. destruct (ledger_receipt _ _ _ Hok Hr) as (? & _). split_and!; eauto.
Qed.

(** The rows [persist_existing] writes, in order. *)
Definition written_rows (rows : gmap N Row) (ops : list (TableWrite N Row)) : gmap N Row :=
  foldl (λ rows op, match op with InsertRow k v => <[k := v]> rows | _ => rows end) rows ops.

Lemma existing_rows st ids ops rows :
  ledger_ok st → collect_results (existing_row st <$> ids) = Ok ops →
  (∀ meta, foldl table_write (mkDatabase (Some rows) meta) ops = mkDatabase (Some (written_rows rows ops)) meta) ∧
  ∀ id, (id ∈ ids → ∃ r b, ss_receipts st !! id = Some r ∧
           row_to_vec (mkPersistedReceipt r (ss_semantics st !! id)) = Ok b ∧ written_rows rows ops !! id = Some b) ∧
        (id ∉ ids → written_rows rows ops !! id = rows !! id).
Proof.
  intros Hok. revert ops rows. induction ids as [|x ids IH]; intros ops rows; simpl.
  { intros [= <-]. split; [done|]. intros id. split; [by intros ?%not_elem_of_nil|done]. }
  intros (op & (r & Hr%ok_or_Ok & (b & Hb & [= <-])%bind_Ok)%bind_Ok & (ops' & Hops & [= <-])%bind_Ok)%bind_Ok.
  destruct (ledger_receipt _ _ _ Hok Hr) as (Hid & _). simpl.
  destruct (IH ops' (<[rc_receipt_id r := b]> rows) Hops) as [Hfold Hid'].
  split; [intros meta; simpl; apply Hfold|]. intros id. destruct (Hid' id) as [Hin Hout]. split.
  - intros [->|Hi]%elem_of_cons; [|by apply Hin].
    destruct (decide (x ∈ ids)) as [Hi|Hi]; [by apply Hin|]. exists r, b. split_and!; [done|done|].
    rewrite (Hout Hi), Hid. apply lookup_insert_eq.
  - intros [Hne Hi]%not_elem_of_cons. rewrite (Hout Hi), Hid. by rewrite lookup_insert_ne.
Qed.

Lemma recover_persisted d st st1 recovered d' :
  ledger_ok st → mirrored d st → recover_ambiguous_delivery st = (st1, recovered) →
  persist_existing d st1 recovered = (Ok tt, d') → mirrored d' st1.
Proof.
  intros Hok (meta & rows & Hd & Hi & Hv & Hm) Hrec Hp. pose proof (recover_ambiguous_ok st Hok) as Hok1.
  pose proof (recover_ambiguous_rows st) as Hrows. pose proof (elem_of_recovered st) as Hin.
  pose proof (proj1 (recover_ambiguous_identity st)) as Hn. rewrite Hrec in Hok1, Hrows, Hin, Hn. simpl in *.
  unfold persist_existing in Hp. destruct (write_transaction _ _) as [r d1] eqn:Hw. injection Hp as Hr ->.
  destruct r as [[]|]; [|done]. apply write_ok in Hw as (ops & (l & Hl & [= <-])%bind_Ok & Ht).
  destruct (existing_rows st1 recovered l rows Hok1 Hl) as [Hfold Hids].
  rewrite Hd in Ht. cbn in Ht. rewrite Hfold in Ht. exists meta, (written_rows rows l).
  split_and!; [done|by rewrite Hn|done|]. intros id. specialize (Hrows id). specialize (Hm id).
  destruct (Hids id) as [Hyes Hno]. unfold row_at in *. unfold recovered_row in Hrows. simpl in Hrows.
  destruct (decide (id ∈ recovered)) as [Hir|Hir].
  - destruct (Hyes Hir) as (r & b & Hr1 & Hb & ->). rewrite Hr1. eauto.
  - rewrite (Hno Hir). injection Hrows as Hr1 Hs1. rewrite Hr1, Hs1.
    destruct (ss_receipts st !! id) as [r|] eqn:Er; simpl; [|done].
    assert (Ha : is_ambiguous r = false).
    { apply not_true_is_false. intros Ha. apply Hir, (Hin id Hok). eauto. }
    unfold recover_receipt. by rewrite Ha.
Qed.

Lemma recover_nothing d st st1 :
  ledger_ok st → mirrored d st → recover_ambiguous_delivery st = (st1, []) → mirrored d st1.
Proof.
  intros Hok Hm Hrec. pose proof (recover_ambiguous_rows st) as Hrows. pose proof (elem_of_recovered st) as Hin.
  pose proof (proj1 (recover_ambiguous_identity st)) as Hn. rewrite Hrec in Hrows, Hin, Hn. simpl in *.
  apply (mirrored_view _ st); [done| |done]. intros id. rewrite Hrows. unfold recovered_row, row_at. simpl.
  destruct (ss_receipts st !! id) as [r|] eqn:Er; simpl; [|done].
  assert (Ha : is_ambiguous r = false).
  { apply not_true_is_false. intros Ha. apply (not_elem_of_nil id), (Hin id Hok). eauto. }
  unfold recover_receipt. by rewrite Ha.
Qed.

(** ** Owners of coordinates after an attempt in flight has closed its receipt *)

Lemma ambiguous_live r : validate_outcome r = Ok tt → is_ambiguous r = true → receipt_is_terminal r = false.
Proof.
  unfold is_ambiguous, validate_outcome, coherent. intros Hv Ha. apply existsb_exists in Ha as (o & Hin & Ho).
  apply bool_decide_eq_true in Ho as ->. apply ensure_Ok in Hv.
  assert (Hterm : ∀ f : RelayDeliveryOutcome → bool, f Attempting = false →
                  forallb f (values (rc_destinations r)) = false).
  { intros f Hf. apply not_true_is_false. intros Hall. rewrite forallb_forall in Hall.
    specialize (Hall _ Hin). congruence. }
  unfold receipt_is_terminal. destruct (rc_outcome r); [done|..];
    rewrite Hterm, ?andb_false_r in Hv by done; done.
Qed.

Lemma recover_receipt_live r :
  receipt_is_terminal (recover_receipt r) = false → validate_outcome r = Ok tt → receipt_is_terminal r = false.
Proof.
  intros Ht Hv. destruct (is_ambiguous r) eqn:Ha; [by apply ambiguous_live|].
  unfold recover_receipt in Ht. by rewrite Ha in Ht.
Qed.

Lemma released_coordinates l st c id :
  ss_coordinates (foldl (λ st r, release_semantic_coordinate (rc_receipt_id r) st) st l) !! c = Some id ↔
  ss_coordinates st !! c = Some id ∧
  ∀ r, r ∈ l → ss_semantics st !! rc_receipt_id r ≫= semantic_coordinate ≠ Some c.
Proof.
  revert st. induction l as [|r l IH]; intros st; simpl.
  { split; [|by intros [? _]]. intros ?. split; [done|]. by intros ? ?%not_elem_of_nil. }
  rewrite IH. unfold release_semantic_coordinate.
  destruct (ss_semantics st !! rc_receipt_id r ≫= semantic_coordinate) as [co|] eqn:Hco; simpl.
  - setoid_rewrite elem_of_cons. destruct (decide (co = c)) as [->|Hne].
    + rewrite lookup_delete_eq. split; [by intros [? _]|]. intros [_ Hr]. by destruct (Hr r (or_introl eq_refl)).
    + rewrite lookup_delete_ne by done. split; intros [Hc Hr]; (split; [done|]).
      * intros r' [->|Hin]; [congruence|by apply Hr].
      * intros r' Hin. apply Hr. by right.
  - setoid_rewrite elem_of_cons. split; intros [Hc Hr]; (split; [done|]).
    + intros r' [->|Hin]; [congruence|by apply Hr].
    + intros r' Hin. apply Hr. by right.
Qed.

Definition live_owners (st : StoreState) : Prop :=
  ∀ c id, ss_coordinates st !! c = Some id ↔ owns (ss_receipts st) (ss_semantics st) c id.

Definition outcomes_valid (st : StoreState) : Prop :=
  ∀ id r, ss_receipts st !! id = Some r → validate_outcome r = Ok tt.

Lemma recover_ambiguous_owners st c id :
  ledger_ok st → outcomes_valid st → live_owners st →
  ss_coordinates (recover_ambiguous_delivery st).1 !! c = Some id ↔
  owns (recover_receipt <$> ss_receipts st) (ss_semantics st) c id.
Proof.
  intros Hok Hv Ho. unfold recover_ambiguous_delivery. simpl. rewrite released_coordinates. simpl.
  rewrite (Ho c id). unfold owns. setoid_rewrite lookup_fmap. split.
  - intros [(r & cu & Hr & Hcu & Hlive & Hco) Hrel]. exists (recover_receipt r), cu. split_and!; [by rewrite Hr|done| |done].
    apply not_true_is_false. intros Hterm.
    assert (Ha : is_ambiguous r = true).
    { unfold recover_receipt in Hterm. destruct (is_ambiguous r); [done|congruence]. }
    destruct (ledger_receipt _ _ _ Hok Hr) as (Hid & _).
    apply (Hrel r); [|by rewrite Hid, Hcu]. apply elem_of_filterb. split; [done|].
    apply elem_of_filterb. split; [done|]. apply elem_of_values. eauto.
  - intros (r' & cu & (r & Hr & ->)%fmap_Some & Hcu & Hlive & Hco).
    pose proof (recover_receipt_live r Hlive (Hv _ _ Hr)) as Hl. split; [by exists r, cu|].
    intros r2 [Hterm [Ha (k & Hk)%elem_of_values]%elem_of_filterb]%elem_of_filterb.
    destruct (ledger_receipt _ _ _ Hok Hk) as (-> & _).
    intros (cu2 & Hcu2 & Hco2)%bind_Some.
    assert (Hown : ss_coordinates st !! c = Some k).
    { apply Ho. exists r2, cu2. split_and!; try done. by apply ambiguous_live; [eapply Hv|]. }
    assert (Hown' : ss_coordinates st !! c = Some id) by (apply Ho; by exists r, cu).
    assert (k = id) as -> by congruence. congruence.
Qed.

(** No attempt is left in flight. *)
Lemma recover_receipt_settled r s : rc_destinations (recover_receipt r) !! s ≠ Some Attempting.
Proof.
  unfold recover_receipt. destruct (is_ambiguous r) eqn:Ha.
  - destruct (settle_current (update_publication (with_destinations (resolve_attempt <$> rc_destinations r)) r)) as (Hc & _).
    unfold rc_destinations at 1. rewrite Hc. simpl. rewrite lookup_fmap.
    intros (o & _ & Ho)%fmap_Some. by destruct o.
  - intros Hs. apply not_true_iff_false in Ha. apply Ha. apply existsb_exists. exists Attempting.
    split; [|done]. apply list_elem_of_In, elem_of_values. eauto.
Qed.
End loading.

(** ** Authorized signing *)

(** The revision that takes the place of an authorized one. *)
Record promoted (r : Receipt) (custody : Semantic) (su : Successor) (r' : Receipt) (custody' : option Semantic)
    : Prop := {
  pm_ids : rc_receipt_id r' = rc_receipt_id r ∧ rc_write_id r' = rc_write_id r;
  pm_event : lw_event (rc_current r') = Unsigned (su_event su);
  pm_revision : revision_checked_next (pub_revision_id (rc_publication r)) = Some (pub_revision_id (rc_publication r'));
  pm_source : pub_revision_source (rc_publication r') = source_id (su_source su);
  pm_retired : pub_retired_revisions (rc_publication r') = retire_revision r;
  pm_unsigned : pub_signature (rc_publication r') = SigUnsigned;
  pm_pending : ∀ s o, rc_destinations r' !! s = Some o → o = Pending;
  pm_custody : custody' = Some (mkSemantic (sc_edits custody ++ option_list (su_edit su)) (sc_author custody)
                                  (su_source su) None None)
}.

Lemma route_pending `{!Nostr} route r r' :
  apply_initial_route route r = Ok r' → (∀ s o, rc_destinations r !! s = Some o → o = Pending) →
  ∀ s o, rc_destinations r' !! s = Some o → o = Pending.
Proof.
  intros Ha Hp s o. destruct route as [plan|]; [|injection Ha as <-; apply Hp]. revert Ha. simpl.
  unfold apply_route_to_receipt. destruct (rc_routing r); [|done]. case_bool_decide; [done|]. case_bool_decide.
  { case_bool_decide; [done|]. destruct (persisted_route_effect_matches r plan); [|done]. intros [= <-]. apply Hp. }
  intros Hn. rewrite (newer_route_destinations _ _ _ s Hn). unfold routed_state.
  specialize (Hp s). destruct (rc_destinations r !! s) as [x|]; simpl;
    [rewrite (Hp x eq_refl)|]; repeat case_bool_decide; simpl; congruence.
Qed.

Lemma destinations_pending routing s o : destinations routing !! s = Some o → o = Pending.
Proof.
  destruct routing as [|relays]; simpl; [by rewrite lookup_empty|]. intros Hl%elem_of_list_to_map_2.
  by apply list_elem_of_fmap in Hl as (relay & [= _ ->] & _).
Qed.

Section signing.
Context `{!Nostr} `{!LedgerSerde} `{!LedgerSerdeLaws} `{!Redb N Row} `{!RedbLaws}.
Implicit Types (s : RedbWriteStore).

(** What becomes of a receipt whose signing was authorized. *)
Definition signing_resolved (r : Receipt) (custody : option Semantic) (r' : Receipt) (custody' : option Semantic)
    : Prop :=
  match custody with
  | Some (mkSemantic _ _ _ _ (Some su) as sem) => promoted r sem su r' custody'
  | _ => r' = update_publication (with_signature (SigRetryable (interrupted_signing r))) r ∧ custody' = custody
  end.

(** One authorized receipt taken up: its row is resolved, all else stays. *)
Record taken_up (st : StoreState) (r : Receipt) (st' : StoreState) : Prop := {
  tu_identity : ss_next_identity st' = ss_next_identity st;
  tu_reservations : ss_reservations st' = ss_reservations st;
  tu_coordinates : ss_coordinates st' = ss_coordinates st;
  tu_rows : ∃ r' custody', signing_resolved r (ss_semantics st !! rc_receipt_id r) r' custody' ∧
    ∀ id, row_at st' id = if bool_decide (id = rc_receipt_id r) then (Some r', custody') else row_at st id
}.

Definition retried (r : Receipt) {A} (s : RedbWriteStore) (res : result WriteStoreError A) (s' : RedbWriteStore) : Prop :=
  match res with
  | Ok _ => taken_up (rs_state s) r (rs_state s')
  | Err _ => unchanged s s'
  end.

Lemma commit_receipt_taken r r' s :
  rc_receipt_id r' = rc_receipt_id r →
  signing_resolved r (ss_semantics (rs_state s) !! rc_receipt_id r) r' (ss_semantics (rs_state s) !! rc_receipt_id r) →
  rwp (commit_receipt (rs_state s) r') (retried r s) s.
Proof.
  intros Hid Hres. unfold commit_receipt. r_as revision Hrev. r_commit d Hd. do 2 r_step.
  split; [done..|]. eexists _, _. split; [exact Hres|]. intros id. simpl. by rewrite row_with_revision, row_put_receipt, Hid.
Qed.

Lemma promote_taken r sem su s :
  ss_receipts (rs_state s) !! rc_receipt_id r = Some r →
  ss_semantics (rs_state s) !! rc_receipt_id r = Some sem → sc_successor sem = Some su →
  rwp (r_promote_authorized_successor (rs_state s) (rc_receipt_id r)) (retried r s) s.
Proof.
  intros Hr Hsem Hsu. unfold r_promote_authorized_successor. rewrite Hsem. simpl. rewrite Hsu.
  apply rwp_get; [intros [custody successor] [= <- <-]|r_fail]. rewrite Hr.
  apply rwp_get; [intros r0 [= <-]|r_fail]. r_step. apply rwp_try; [intros rid Hrid%ok_or_Ok|r_fail].
  apply rwp_valid; [intros current (cid & _ & [= <-])%bind_Ok|r_fail].
  apply rwp_try; [intros updated Hu|r_fail]. apply rwp_try; [intros revision Hrev|r_fail].
  r_commit d Hd. do 2 r_step. split; [done..|]. eexists updated, _. split; cycle 1.
  { intros id. simpl. by rewrite row_with_revision, row_put_both. }
  simpl. rewrite Hsem. simpl. destruct sem as [edits author source failed successor]. simpl in *. subst successor.
  pose proof (initial_route_fixed _ _ _ Hu) as (Hw & Hi & _ & Hev & Hpub).
  split; simpl; rewrite ?Hpub; try done.
  apply (route_pending _ _ _ Hu). intros x o. unfold rc_destinations. simpl. destruct (su_edit su).
  - apply destinations_pending.
  - by intros [_ ?]%lookup_gset_to_gmap_Some.
Qed.

Lemma retryable_taken r s :
  ss_receipts (rs_state s) !! rc_receipt_id r = Some r → pub_signature (rc_publication r) = SigAuthorized →
  rwp (r_record_signer_retryable (rc_write_id r) (rc_receipt_id r) (pub_revision_id (rc_publication r))
         (lw_id (rc_current r)) (interrupted_signing r)) (retried r s) s.
Proof.
  intros Hr Hsig. unfold r_record_signer_retryable. do 2 r_step. rewrite Hr.
  apply rwp_get; [intros r0 [= <-]|r_fail]. do 2 r_step. rewrite Hsig, (bool_decide_eq_true_2 (SigAuthorized = _)) by done.
  simpl. unfold has_successor. destruct (ss_semantics (rs_state s) !! rc_receipt_id r) as [sem|] eqn:Hsem; simpl.
  - destruct (sc_successor sem) as [su|] eqn:Hsu; simpl.
    + by eapply promote_taken.
    + apply commit_receipt_taken; [done|]. rewrite Hsem. destruct sem. simpl in Hsu. by subst.
  - apply commit_receipt_taken; [done|]. by rewrite Hsem.
Qed.

(** Every authorized receipt of a list taken up. *)
Record all_taken (st : StoreState) (l : list Receipt) (st' : StoreState) : Prop := {
  at_identity : ss_next_identity st' = ss_next_identity st;
  at_reservations : ss_reservations st' = ss_reservations st;
  at_coordinates : ss_coordinates st' = ss_coordinates st;
  at_others : ∀ id, id ∉ rc_receipt_id <$> l → row_at st' id = row_at st id;
  at_taken : ∀ r, r ∈ l → ∃ r' custody',
    signing_resolved r (ss_semantics st !! rc_receipt_id r) r' custody' ∧
    row_at st' (rc_receipt_id r) = (Some r', custody')
}.

Lemma all_taken_cons st r st1 l st2 :
  rc_receipt_id r ∉ rc_receipt_id <$> l → taken_up st r st1 → all_taken st1 l st2 → all_taken st (r :: l) st2.
Proof.
  intros Hr [Hn Hre Hc (r' & cu & Hres & Hrows)] [Hn' Hre' Hc' Ho Ht].
  assert (Hrow : ∀ id, id ≠ rc_receipt_id r → row_at st1 id = row_at st id).
  { intros id Hne. by rewrite Hrows, bool_decide_eq_false_2. }
  split; [congruence..| |].
  - intros id [Hne Hid]%not_elem_of_cons. by rewrite Ho, Hrow.
  - intros x [->|Hx]%elem_of_cons.
    + exists r', cu. split; [done|]. by rewrite Ho, Hrows, bool_decide_eq_true_2.
    + destruct (Ht x Hx) as (x' & cx & Hres' & Hrow'). exists x', cx. split; [|done].
      assert (rc_receipt_id x ≠ rc_receipt_id r) as Hne.
      { intros E. apply Hr. rewrite <- E. by apply list_elem_of_fmap_2. }
      specialize (Hrow _ Hne). unfold row_at in Hrow. injection Hrow as _ Hs. by rewrite <- Hs.
Qed.

(** Any reader of a row that two states share. *)
Lemma row_receipt st st' id : row_at st' id = row_at st id → ss_receipts st' !! id = ss_receipts st !! id.
Proof. unfold row_at. congruence. Qed.

Lemma retry_all_taken l s :
  durable s → NoDup (rc_receipt_id <$> l) →
  (∀ r, r ∈ l → ss_receipts (rs_state s) !! rc_receipt_id r = Some r ∧ pub_signature (rc_publication r) = SigAuthorized) →
  rwp (retry_all l) (λ res s', durable s' ∧ same_bounds s s' ∧
    match res with Ok _ => all_taken (rs_state s) l (rs_state s') | Err _ => True end) s.
Proof.
  revert s. induction l as [|r l IH]; intros s Hs Hnd Hl; simpl.
  { split_and!; [done|done|]. split; try done. by intros r ?%not_elem_of_nil. }
  apply NoDup_cons in Hnd as [Hr Hnd]. destruct (Hl r) as [Hin Hsig]; [left|].
  apply (rwp_bind _ _ (λ res s', rpost s res s' ∧ retried r s res s')).
  - split; [by apply r_retryable_durable|by apply retryable_taken].
  - intros a s' [[Hd Hb] Ht]. simpl in Ht. eapply rwp_mono; [apply (IH s' Hd Hnd)|].
    + intros x Hx. destruct (Hl x) as [Hxi Hxs]; [by right|]. split; [|done].
      destruct Ht as [_ _ _ (r' & cu & _ & Hrows)]. specialize (Hrows (rc_receipt_id x)).
      rewrite bool_decide_eq_false_2 in Hrows.
      * by rewrite (row_receipt _ _ _ Hrows).
      * intros E. apply Hr. rewrite <- E. by apply list_elem_of_fmap_2.
    + intros res s2 (Hd2 & Hb2 & Hres). split_and!; [done|destruct Hb, Hb2; split; congruence|].
      destruct res; [|done]. by eapply all_taken_cons.
  - intros e s' [Hu _]. split_and!; [by eapply unchanged_durable|apply Hu|done].
Qed.

Lemma receipt_ids_nodup st : ledger_ok st → NoDup (rc_receipt_id <$> values (ss_receipts st)).
Proof.
  intros Hok. unfold values. rewrite <- list_fmap_compose.
  rewrite (list_fmap_ext _ fst); [apply NoDup_keys|].
  intros i [k r] Hi%list_elem_of_lookup_2. apply elem_of_entries in Hi. simpl.
  by destruct (ledger_receipt _ _ _ Hok Hi).
Qed.

Lemma NoDup_fmap_filterb {A B} (g : A → B) (f : A → bool) l : NoDup (g <$> l) → NoDup (g <$> List.filter f l).
Proof.
  induction l as [|x l IH]; simpl; [done|]. intros [Hx Hl]%NoDup_cons. destruct (f x); simpl; [|by apply IH].
  apply NoDup_cons. split; [|by apply IH]. intros (y & E & [_ Hy]%elem_of_filterb)%list_elem_of_fmap.
  apply Hx. rewrite E. by apply list_elem_of_fmap_2.
Qed.

Definition authorized (st : StoreState) : list Receipt :=
  List.filter (λ r, bool_decide (pub_signature (rc_publication r) = SigAuthorized)) (values (ss_receipts st)).

Lemma elem_of_authorized st r :
  ledger_ok st → r ∈ authorized st ↔
  ss_receipts st !! rc_receipt_id r = Some r ∧ pub_signature (rc_publication r) = SigAuthorized.
Proof.
  intros Hok. unfold authorized. rewrite elem_of_filterb, elem_of_values, bool_decide_eq_true. split.
  - intros [Hs [k Hk]]. by destruct (ledger_receipt _ _ _ Hok Hk) as (-> & _).
  - intros [Hr Hs]. eauto.
Qed.

Lemma recover_signing_taken s :
  durable s → rwp recover_authorized_signing (λ res s', durable s' ∧ same_bounds s s' ∧
    match res with Ok _ => all_taken (rs_state s) (authorized (rs_state s)) (rs_state s') | Err _ => True end) s.
Proof.
  intros Hs. unfold recover_authorized_signing. r_step. apply retry_all_taken; [done| |].
  - by apply NoDup_fmap_filterb, receipt_ids_nodup, Hs.
  - intros r Hr. by apply elem_of_authorized in Hr; [|apply Hs].
Qed.
End signing.
