(* ===== verification/RedbStoreLife.v ===== *)
(** * The durable write store over any number of runs

    [redb_life] is a store file opened, used, killed and opened again, each
    engine call free to fail.  The file mirrors the ledger in every one of its
    states, a refused operation changes nothing but a reservation it consumed,
    and a restart resolves what the last run left open and nothing else. *)

From S2P Require Import Prelude Nostr Relay State Write Query Routing Receipts MemoryStore StoreInvariant Redb RedbStore RedbStoreProps RedbStoreDurable RedbStoreRestart.

Section life.
Context `{!Nostr} `{!LedgerSerde} `{!LedgerSerdeLaws} `{!Redb N Row} `{!RedbLaws}.
Implicit Types (s : RedbWriteStore) (d : Disk).

(** ** Opening *)

(** The store a restart makes of a ledger. *)
Record restarted (st : StoreState) (s' : RedbWriteStore) : Prop := {
  re_durable : durable s';
  re_identity : ss_next_identity (rs_state s') = ss_next_identity st;
  re_reservations : ss_reservations (rs_state s') = ∅;
  re_absent : ∀ id, ss_receipts st !! id = None → ss_receipts (rs_state s') !! id = None;
  re_kept : ∀ id r, ss_receipts st !! id = Some r → pub_signature (rc_publication r) ≠ SigAuthorized →
    row_at (rs_state s') id = (Some (recover_receipt r), ss_semantics st !! id);
  re_authorized : ∀ id r, ss_receipts st !! id = Some r → pub_signature (rc_publication r) = SigAuthorized →
    ∃ r' custody', signing_resolved (recover_receipt r) (ss_semantics st !! id) r' custody' ∧
      row_at (rs_state s') id = (Some r', custody');
  re_owners : ∀ c id, ss_coordinates (rs_state s') !! c = Some id ↔
    owns (recover_receipt <$> ss_receipts st) (ss_semantics st) c id
}.

Definition opened (st : StoreState) (active terminal : nat) (res : result WriteStoreError RedbWriteStore)
    (d' : Disk) : Prop :=
  (∃ st', ledger_ok st' ∧ mirrored d' st') ∧
  ∀ s, res = Ok s → restarted st s ∧ rs_database s = d' ∧ rs_active s = active ∧ rs_terminal s = terminal.

Lemma recover_receipt_signature r :
  pub_signature (rc_publication (recover_receipt r)) = pub_signature (rc_publication r).
Proof.
  unfold recover_receipt. destruct (is_ambiguous r); [|done].
  destruct (settle_current (update_publication (with_destinations (resolve_attempt <$> rc_destinations r)) r)) as (Hc & _).
  unfold rc_publication. by rewrite Hc.
Qed.

(** What loading establishes of a file that mirrors a ledger. *)
Record loads (st : StoreState) (next : N) (loaded : Loaded) : Prop := {
  lo_next : next = ss_next_identity st;
  lo_receipts : ld_receipts loaded = ss_receipts st;
  lo_semantics : ld_semantics loaded = ss_semantics st;
  lo_owners : owners_exact loaded;
  lo_valid : ∀ id r, ss_receipts st !! id = Some r → validate_outcome r = Ok tt
}.

Lemma validate_receipt_outcome id r semantic : validate_receipt id r semantic = Ok tt → validate_outcome r = Ok tt.
Proof.
  unfold validate_receipt.
  by intros (_ & _ & (_ & _ & (_ & _ & (_ & _ & (_ & _ & ([] & Ho & _)%bind_Ok)%bind_Ok)%bind_Ok)%bind_Ok)%bind_Ok)%bind_Ok.
Qed.

Lemma reconstructed_valid next loaded id r :
  reconstructed next loaded = Ok tt → ld_receipts loaded !! id = Some r → validate_outcome r = Ok tt.
Proof.
  intros ([] & Hall & _)%bind_Ok Hr. rewrite for_each_Ok in Hall.
  assert (Hin : (id, r) ∈ entries (ld_receipts loaded)) by (by apply elem_of_entries).
  specialize (Hall _ Hin). simpl in Hall. apply bind_Ok in Hall as ([] & Hv & _).
  by apply validate_receipt_outcome in Hv.
Qed.

Lemma ledger_load_mirrored d st res d' :
  mirrored d st → ledger_ok st → ledger_load d = (res, d') →
  tables d' = tables d ∧ ∀ next loaded, res = Ok (next, loaded) → loads st next loaded.
Proof.
  intros (meta & rows & Hd & Hi & Hv & Hm) Hok. unfold ledger_load.
  pose proof (read_meta_same d NEXT_ID) as Hs. destruct (read_meta d NEXT_ID) as [next d1] eqn:Hn. simpl in Hs.
  destruct (next ← refused_text next; _) as [n|e] eqn:En; [|by intros [= <- <-]].
  assert (n = ss_next_identity st) as ->.
  { apply bind_Ok in En as (o & Ho & Hn'%ok_or_Ok). destruct next as [o'|]; [|done]. injection Ho as ->.
    apply read_meta_ok in Hn as (db & meta' & Hdb & Hmeta & ->). rewrite Hd in Hdb. injection Hdb as <-.
    injection Hmeta as <-. congruence. }
  case_bool_decide; [by intros [= <- <-]|].
  pose proof (read_rows_same d1) as Hs1. destruct (read_rows d1) as [t d2] eqn:Ht. simpl in Hs1.
  intros [= <- <-]. split; [congruence|]. intros next' loaded Hl.
  apply bind_Ok in Hl as (t' & Ht' & (ld & Hld & ([] & Hrec & [= <- <-])%bind_Ok)%bind_Ok).
  destruct t as [t|]; [|done]. injection Ht' as ->. apply read_rows_ok in Ht as (db & Hdb & Hrows).
  rewrite Hs, Hd in Hdb. injection Hdb as <-. injection Hrows as <-.
  destruct (mirror_loaded rows st ld Hm Hok Hld) as (Hr & Hsem & Ho). split; try done.
  intros id r Hid. rewrite <- Hr in Hid. by eapply reconstructed_valid.
Qed.

Lemma loaded_view st loaded :
  ledger_ok st → loads st (ss_next_identity st) loaded →
  let st0 := loaded_state (ss_next_identity st) loaded in
  (∀ id, row_at st0 id = row_at st id) ∧ ledger_ok st0 ∧ outcomes_valid st0 ∧ live_owners st0.
Proof.
  intros Hok [_ Hr Hs Ho Hv]. simpl. unfold row_at, outcomes_valid, live_owners, ledger_ok, row_at. simpl.
  rewrite Hr, Hs. split_and!; try done; try apply Hok. intros c id. by rewrite (Ho c id), Hr, Hs.
Qed.

Lemma started_durable d st active terminal : ledger_ok st → mirrored d st → durable (started d st active terminal).
Proof. by split. Qed.

(** From the store before authorized signing is resolved to the store afterwards. *)
Lemma restarted_taken st st1 s' :
  ledger_ok st → ledger_ok st1 → durable s' →
  ss_next_identity st1 = ss_next_identity st → ss_reservations st1 = ∅ →
  (∀ id, row_at st1 id = recovered_row (row_at st id)) →
  (∀ c id, ss_coordinates st1 !! c = Some id ↔ owns (recover_receipt <$> ss_receipts st) (ss_semantics st) c id) →
  all_taken st1 (authorized st1) (rs_state s') → restarted st s'.
Proof.
  intros Hok Hok1 Hd Hn Hre Hrows Hown [Hn' Hre' Hc' Ho Ht].
  assert (Hrow1 : ∀ id r, ss_receipts st !! id = Some r →
    ss_receipts st1 !! id = Some (recover_receipt r) ∧ ss_semantics st1 !! id = ss_semantics st !! id).
  { intros id r Hr. specialize (Hrows id). unfold row_at, recovered_row in Hrows. simpl in Hrows.
    rewrite Hr in Hrows. by injection Hrows. }
  assert (Hout : ∀ id, (∀ r, ss_receipts st !! id = Some r → pub_signature (rc_publication r) ≠ SigAuthorized) →
    row_at (rs_state s') id = recovered_row (row_at st id)).
  { intros id Hno. rewrite <- Hrows. apply Ho. intros (r1 & -> & Hin)%list_elem_of_fmap.
    apply elem_of_authorized in Hin as [Hr1 Hs1]; [|done].
    specialize (Hrows (rc_receipt_id r1)). unfold row_at, recovered_row in Hrows. simpl in Hrows.
    destruct (ss_receipts st !! rc_receipt_id r1) as [r|] eqn:Hr; simpl in Hrows; [|congruence].
    apply (Hno r eq_refl). rewrite <- recover_receipt_signature. congruence. }
  split; [done|congruence|congruence|..].
  - intros id Hid. assert (Hrow : row_at (rs_state s') id = recovered_row (row_at st id)).
    { apply Hout. intros r Hr. congruence. }
    unfold row_at, recovered_row in Hrow. simpl in Hrow. rewrite Hid in Hrow. by injection Hrow.
  - intros id r Hr Hs. rewrite Hout by (intros r0 Hr0; congruence). unfold recovered_row, row_at. simpl. by rewrite Hr.
  - intros id r Hr Hs. destruct (Hrow1 id r Hr) as [Hr1 Hs1].
    destruct (ledger_receipt _ _ _ Hok Hr) as (Hid & _). destruct (recover_receipt_ids r) as [Hid' _].
    assert (Eid : rc_receipt_id (recover_receipt r) = id) by congruence.
    destruct (Ht (recover_receipt r)) as (r' & cu & Hres & Hrow).
    { apply elem_of_authorized; [done|]. by rewrite Eid, recover_receipt_signature. }
    rewrite Eid, Hs1 in Hres. rewrite Eid in Hrow. eauto.
  - intros c id. by rewrite Hc'.
Qed.

Lemma persist_existing_err d st ids e d' : persist_existing d st ids = (Err e, d') → tables d' = tables d.
Proof.
  unfold persist_existing. destruct (write_transaction d _) as [[[]|e'] d1] eqn:Hw; [done|].
  intros [= _ <-]. by apply write_err in Hw.
Qed.

Lemma open_loaded_opened d st loaded active terminal res d' :
  mirrored d st → ledger_ok st → loads st (ss_next_identity st) loaded →
  open_loaded d (loaded_state (ss_next_identity st) loaded) active terminal = (res, d') →
  opened st active terminal res d'.
Proof.
  intros Hm Hok Hl. destruct (loaded_view st loaded Hok Hl) as (Hview & Hok0 & Hv0 & Hown0).
  set (st0 := loaded_state (ss_next_identity st) loaded) in *.
  assert (Hm0 : mirrored d st0) by (by apply (mirrored_view _ st)).
  pose proof (recover_ambiguous_ok st0 Hok0) as Hok1. pose proof (recover_ambiguous_rows st0) as Hrows1.
  pose proof (recover_ambiguous_identity st0) as [Hn1 Hre1].
  pose proof (λ c id, recover_ambiguous_owners st0 c id Hok0 Hv0 Hown0) as Hown1.
  unfold open_loaded. destruct (recover_ambiguous_delivery st0) as [st1 recovered] eqn:Hrec. simpl in *.
  destruct (validate_recovered_bounds st1 active terminal) as [u|e]; [|intros [= <- <-]; split; [eauto|done]].
  destruct (if bool_decide (recovered = []) then _ else _) as [persisted d1] eqn:Hp.
  assert (Hd1 : match persisted with Ok _ => mirrored d1 st1 | Err _ => tables d1 = tables d end).
  { case_bool_decide as E; [injection Hp as <- <-; rewrite E in Hrec; exact (recover_nothing d st0 st1 Hok0 Hm0 Hrec)|].
    destruct persisted as [[]|]; [exact (recover_persisted d st0 st1 recovered d1 Hok0 Hm0 Hrec Hp)|by eapply persist_existing_err]. }
  destruct persisted as [u'|e]; [|intros [= <- <-]; split; [exists st; split; [done|by eapply mirrored_same]|done]].
  pose proof (recover_signing_taken _ (started_durable d1 st1 active terminal Hok1 Hd1)) as Ht. unfold rwp in Ht.
  destruct (recover_authorized_signing (started d1 st1 active terminal)) as [r s]. simpl in Ht.
  intros [= <- <-]. destruct Ht as (Hds & [Ha Hte] & Htaken). split; [exists (rs_state s); split; apply Hds|].
  intros s0 Hs0. destruct r; [|done]. injection Hs0 as <-. split_and!; [|done..].
  apply (restarted_taken st st1 s); [done..|intros id; by rewrite Hrows1, Hview| |done].
  destruct Hl as [_ Hr Hs _ _]. intros c id. by rewrite (Hown1 c id), Hr, Hs.
Qed.

Lemma load_opened d st active terminal res d' :
  mirrored d st → ledger_ok st →
  (let '(loaded, d) := ledger_load d in
   match loaded with
   | Err e => (Err e, d)
   | Ok (next, loaded) => open_loaded d (loaded_state next loaded) active terminal
   end) = (res, d') → opened st active terminal res d'.
Proof.
  intros Hm Hok. destruct (ledger_load d) as [loaded d1] eqn:Hl.
  destruct (ledger_load_mirrored d st loaded d1 Hm Hok Hl) as [Ht Hloads].
  destruct loaded as [[next loaded]|e].
  - specialize (Hloads _ _ eq_refl). pose proof (lo_next _ _ _ Hloads) as ->.
    apply open_loaded_opened; [by eapply mirrored_same|done|done].
  - intros [= <- <-]. split; [exists st; split; [done|by eapply mirrored_same]|done].
Qed.

Definition empty_ledger : StoreState := mkStoreState 0 1 1 ∅ ∅ ∅ ∅.

Lemma empty_ledger_ok : ledger_ok empty_ledger.
Proof. by split. Qed.

Lemma validate_schema_same d : tables (ledger_validate_schema d).2 = tables d.
Proof.
  unfold ledger_validate_schema. pose proof (read_meta_same d LEDGER_VERSION_KEY) as Hs.
  by destruct (read_meta d LEDGER_VERSION_KEY).
Qed.

(** Opening a file that mirrors a ledger. *)
Lemma open_mirrored d st active terminal res d' :
  mirrored d st → ledger_ok st → r_open_bounded d active terminal = (res, d') → opened st active terminal res d'.
Proof.
  intros Hm Hok. assert (Hx : path_exists d = true).
  { apply path_exists_tables. destruct Hm as (meta & rows & -> & _). done. }
  unfold r_open_bounded. rewrite Hx. simpl.
  destruct (database_create d) as [[[]|e] d1] eqn:Hcr; simpl.
  2: { intros [= <- <-]. apply create_err in Hcr. split; [exists st; split; [done|by eapply mirrored_same]|done]. }
  apply create_ok in Hcr. assert (Hm1 : mirrored d1 st).
  { eapply mirrored_same; [|exact Hm]. destruct Hm as (meta & rows & Hd & _). by rewrite Hcr, Hd. }
  unfold ledger_initialize. simpl. pose proof (validate_schema_same d1) as Hs.
  destruct (ledger_validate_schema d1) as [[[]|e] d2]; simpl in Hs.
  - apply load_opened; [by eapply mirrored_same|done].
  - intros [= <- <-]. split; [exists st; split; [done|by eapply mirrored_same]|done].
Qed.

(** Opening a path with no file. *)
Lemma open_new_file d active terminal s d' :
  tables d = None → r_open_bounded d active terminal = (Ok s, d') →
  restarted empty_ledger s ∧ rs_database s = d' ∧ rs_active s = active ∧ rs_terminal s = terminal.
Proof.
  intros Hn. assert (Hx : path_exists d = false).
  { apply not_true_iff_false. rewrite path_exists_tables, Hn. by intros []. }
  unfold r_open_bounded. rewrite Hx. simpl.
  destruct (database_create d) as [[[]|e] d1] eqn:Hcr; simpl; [|done].
  apply create_ok in Hcr. rewrite Hn in Hcr. simpl in Hcr. unfold ledger_initialize. simpl.
  destruct (write_transaction d1 _) as [[[]|e] d2] eqn:Hw; simpl; [|done].
  apply write_ok in Hw as (ops & [= <-] & Ht). rewrite Hcr in Ht. simpl in Ht.
  assert (Hm : mirrored d2 empty_ledger).
  { eexists _, _. split_and!; [exact Ht|done|done|]. by intros id. }
  intros Ho. apply (load_opened _ empty_ledger) in Ho as [_ Hopen]; [by apply Hopen|done|apply empty_ledger_ok].
Qed.

(** A file whose creation stopped before the schema was written. *)
Definition ledger_cut (d : Disk) : Prop := tables d = Some (mkDatabase None None).

(** A first opening that fails leaves no file, a file without schema or the
    empty ledger. *)
Lemma open_new_refused d active terminal e d' :
  tables d = None → r_open_bounded d active terminal = (Err e, d') →
  tables d' = None ∨ ledger_cut d' ∨ ∃ st, ledger_ok st ∧ mirrored d' st.
Proof.
  intros Hn. assert (Hx : path_exists d = false).
  { apply not_true_iff_false. rewrite path_exists_tables, Hn. by intros []. }
  unfold r_open_bounded. rewrite Hx. simpl.
  destruct (database_create d) as [[[]|e1] d1] eqn:Hcr; simpl.
  2: { intros [= _ <-]. left. apply create_err in Hcr. congruence. }
  apply create_ok in Hcr. rewrite Hn in Hcr. simpl in Hcr. unfold ledger_initialize. simpl.
  destruct (write_transaction d1 _) as [[[]|e2] d2] eqn:Hw; simpl.
  2: { intros [= _ <-]. right; left. apply write_err in Hw. unfold ledger_cut. congruence. }
  apply write_ok in Hw as (ops & [= <-] & Ht). rewrite Hcr in Ht. simpl in Ht.
  assert (Hm : mirrored d2 empty_ledger).
  { eexists _, _. split_and!; [exact Ht|done|done|]. by intros id. }
  intros Ho. right; right. by apply (load_opened _ empty_ledger) in Ho as [? _]; [|done|apply empty_ledger_ok].
Qed.

(** Such a file is never opened again. *)
Theorem ledger_interrupted_creation (d : Disk) (active terminal : nat) (Hcut : ledger_cut d) :
  is_ok (r_open_bounded d active terminal).1 = false ∧ ledger_cut (r_open_bounded d active terminal).2.
Proof.
  unfold ledger_cut in *.
  unfold r_open_bounded. rewrite (proj2 (path_exists_tables d)) by (by rewrite Hcut). unfold ledger_initialize. simpl.
  destruct (database_create d) as [[[]|e] d1] eqn:Hcr; simpl; [|split; [done|apply create_err in Hcr; congruence]].
  apply create_ok in Hcr. rewrite Hcut in Hcr. simpl in Hcr.
  pose proof (validate_schema_same d1) as Hs. unfold ledger_validate_schema in *.
  destruct (read_meta d1 LEDGER_VERSION_KEY) as [[v|e] d2] eqn:Hm; simpl in *; [|split; [done|congruence]].
  apply read_meta_ok in Hm as (db & meta & Hdb & Hme & _). rewrite Hcr in Hdb. by injection Hdb as <-.
Qed.

(** ** Lives *)

Inductive redb_process :=
| RedbRunning (s : RedbWriteStore)
| RedbStopped (d : Disk).

(** Creation, complete or not, operations at any time, kills, and openings at any
    bounds that succeed or are refused; engine calls fail as the engine has it. *)
Inductive redb_life : redb_process → Prop :=
| redb_new d : tables d = None → redb_life (RedbStopped d)
| redb_opened d active terminal s d' :
    redb_life (RedbStopped d) → r_open_bounded d active terminal = (Ok s, d') → redb_life (RedbRunning s)
| redb_refused d active terminal e d' :
    redb_life (RedbStopped d) → r_open_bounded d active terminal = (Err e, d') → redb_life (RedbStopped d')
| redb_cut d d' : redb_life (RedbStopped d) → tables d = None → ledger_cut d' → redb_life (RedbStopped d')
| redb_operation s now op : redb_life (RedbRunning s) → redb_life (RedbRunning (r_perform now op s).2)
| redb_kill s d : redb_life (RedbRunning s) → tables d = tables (rs_database s) → redb_life (RedbStopped d).

Definition redb_process_ok (p : redb_process) : Prop :=
  match p with
  | RedbRunning s => durable s
  | RedbStopped d => tables d = None ∨ ledger_cut d ∨ ∃ st, ledger_ok st ∧ mirrored d st
  end.

Lemma perform_durable now op s : durable s → durable (r_perform now op s).2.
Proof.
  intros Hs. pose proof (r_perform_post now op s Hs) as Hp. unfold rwp in Hp.
  assert (Hpost : ∀ s0 r s', durable s0 → rpost (A := unit) s0 r s' → durable s').
  { intros s0 [u|e] s' Hs0 Hr; [apply Hr|by eapply unchanged_durable]. }
  destruct Hp as [Hp|(m & _ & Hp)]; eapply Hpost; [|exact Hp| |exact Hp]; [done|by apply consumed_durable].
Qed.

Lemma redb_life_ok p : redb_life p → redb_process_ok p.
Proof.
  induction 1 as [d Hd|d active terminal s d' _ IH Ho|d active terminal e d' _ IH Ho|d d' _ IH Hd Hcut|
    s now op _ IH|s d _ IH Hd]; simpl in *.
  - by left.
  - destruct IH as [Hd|[Hcut|(st & Hok & Hm)]]; [by apply (open_new_file _ _ _ _ _ Hd) in Ho as [[] _]| |].
    { pose proof (ledger_interrupted_creation d active terminal Hcut) as [Hno _]. by rewrite Ho in Hno. }
    destruct (open_mirrored _ _ _ _ _ _ Hm Hok Ho) as [_ Hopen]. by destruct (Hopen s eq_refl) as [[] _].
  - destruct IH as [Hn|[Hcut|(st & Hok & Hm)]]; [by eapply open_new_refused| |].
    { pose proof (ledger_interrupted_creation d active terminal Hcut) as [_ Hno]. rewrite Ho in Hno. by right; left. }
    right; right. by destruct (open_mirrored _ _ _ _ _ _ Hm Hok Ho).
  - by right; left.
  - by apply perform_durable.
  - destruct IH as [Hl Hf _]. right; right. exists (rs_state s). split; [done|]. by eapply mirrored_same.
Qed.

(** C5. The file is the ledger.  However a durable write store is created,
    used, killed and reopened, and whichever engine calls fail, while it runs
    the file holds exactly one row per receipt, the encoding of that receipt
    with its custody, and the next identity; receipts sit under their own
    identities, below the next one; custody belongs to a receipt; and the
    published snapshot is the ledger's. *)
Theorem redb_store_durable (s : RedbWriteStore) (Hlife : redb_life (RedbRunning s)) :
  (∃ meta rows, tables (rs_database s) = Some (mkDatabase (Some rows) (Some meta)) ∧
     meta !! NEXT_ID = Some (ss_next_identity (rs_state s)) ∧
     meta !! LEDGER_VERSION_KEY = Some LEDGER_VERSION ∧
     (∀ id, rows !! id = None ↔ ss_receipts (rs_state s) !! id = None) ∧
     (∀ id r, ss_receipts (rs_state s) !! id = Some r → ∃ bytes, rows !! id = Some bytes ∧
        row_from_slice bytes = Ok (mkPersistedReceipt r (ss_semantics (rs_state s) !! id)))) ∧
  (∀ id r, ss_receipts (rs_state s) !! id = Some r →
     rc_receipt_id r = id ∧ rc_write_id r = id ∧ (0 < id < ss_next_identity (rs_state s))%N) ∧
  (∀ id, is_Some (ss_semantics (rs_state s) !! id) → is_Some (ss_receipts (rs_state s) !! id)) ∧
  rs_latest s = redb_snapshot (rs_state s).
Proof.
  destruct (redb_life_ok _ Hlife) as [Hl (meta & rows & Hd & Hi & Hv & Hm) Hp]. split_and!; [|..|done].
  - exists meta, rows. split_and!; [done..| |].
    + intros id. specialize (Hm id). unfold row_at in Hm. destruct (ss_receipts (rs_state s) !! id); [|done].
      destruct Hm as (b & -> & _). done.
    + intros id r Hr. specialize (Hm id). unfold row_at in Hm. rewrite Hr in Hm.
      destruct Hm as (b & Hb & He). exists b. split; [done|]. by apply row_roundtrip.
  - intros id r. by apply ledger_receipt.
  - intros id [custody Hc]. destruct Hl as [_ Hl]. specialize (Hl id). unfold row_at in Hl.
    destruct (ss_receipts (rs_state s) !! id); [done|congruence].
Qed.

Lemma signing_resolved_settled r custody r' custody' :
  (∀ relay, rc_destinations r !! relay ≠ Some Attempting) → signing_resolved r custody r' custody' →
  pub_signature (rc_publication r') ≠ SigAuthorized ∧ ∀ relay, rc_destinations r' !! relay ≠ Some Attempting.
Proof.
  intros Hr. unfold signing_resolved. assert (Hretry : r' = update_publication (with_signature (SigRetryable (interrupted_signing r))) r ∧ custody' = custody →
    pub_signature (rc_publication r') ≠ SigAuthorized ∧ ∀ relay, rc_destinations r' !! relay ≠ Some Attempting).
  { by intros [-> _]. }
  destruct custody as [[edits author source failed [su|]]|]; try done.
  intros [_ _ _ _ _ Hs Hp _]. split; [congruence|]. intros relay Ha. by apply Hp in Ha.
Qed.

(** C6. A restart resolves what the last run left open, and nothing else.  When
    a store file is opened again (at any bounds, after a kill between operations) the
    next identity is the same, no reservation is left, and the same receipts
    are there.  Each keeps its event, evidence and custody, except that an
    attempt in flight has become [Unknown], closing the receipt if it was the
    last one open; and one whose signing was authorized is now retryable or
    has given way to its waiting successor.  No attempt is in flight and no
    signing authorized, and the owners of coordinates are exactly the live
    custody the file held. *)
Theorem restart_resolves (s : RedbWriteStore) (d : Disk) (active terminal : nat) (s' : RedbWriteStore) (d' : Disk)
    (Hlife : redb_life (RedbRunning s)) (Hsame : tables d = tables (rs_database s))
    (Hopen : r_open_bounded d active terminal = (Ok s', d')) :
  let st := rs_state s in
  let st' := rs_state s' in
  ss_next_identity st' = ss_next_identity st ∧ ss_reservations st' = ∅ ∧
  dom (ss_receipts st') = dom (ss_receipts st) ∧
  (∀ id r, ss_receipts st !! id = Some r → pub_signature (rc_publication r) ≠ SigAuthorized →
     ss_receipts st' !! id = Some (recover_receipt r) ∧ ss_semantics st' !! id = ss_semantics st !! id) ∧
  (∀ id r, ss_receipts st !! id = Some r → pub_signature (rc_publication r) = SigAuthorized →
     ∃ r', ss_receipts st' !! id = Some r' ∧
       signing_resolved (recover_receipt r) (ss_semantics st !! id) r' (ss_semantics st' !! id)) ∧
  (∀ id r', ss_receipts st' !! id = Some r' →
     pub_signature (rc_publication r') ≠ SigAuthorized ∧
     ∀ relay, rc_destinations r' !! relay ≠ Some Attempting) ∧
  (∀ coordinate id, ss_coordinates st' !! coordinate = Some id ↔
     owns (recover_receipt <$> ss_receipts st) (ss_semantics st) coordinate id).
Proof.
  destruct (redb_life_ok _ Hlife) as [Hl Hf _]. simpl. apply (mirrored_same _ _ _ Hsame) in Hf.
  destruct (open_mirrored _ _ _ _ _ _ Hf Hl Hopen) as [_ Ho].
  destruct (Ho s' eq_refl) as [[_ Hn Hre Hab Hkept Hauth Hown] _]. unfold row_at in Hkept, Hauth.
  assert (Hk : ∀ id r, ss_receipts (rs_state s) !! id = Some r → pub_signature (rc_publication r) ≠ SigAuthorized →
     ss_receipts (rs_state s') !! id = Some (recover_receipt r) ∧
     ss_semantics (rs_state s') !! id = ss_semantics (rs_state s) !! id).
  { intros id r Hr Hs. specialize (Hkept id r Hr Hs). by injection Hkept. }
  assert (Ha : ∀ id r, ss_receipts (rs_state s) !! id = Some r → pub_signature (rc_publication r) = SigAuthorized →
     ∃ r', ss_receipts (rs_state s') !! id = Some r' ∧ signing_resolved (recover_receipt r)
       (ss_semantics (rs_state s) !! id) r' (ss_semantics (rs_state s') !! id)).
  { intros id r Hr Hs. destruct (Hauth id r Hr Hs) as (r' & cu & Hres & [= -> ->]). eauto. }
  split_and!; try done.
  - apply set_eq. intros id. rewrite !elem_of_dom. destruct (ss_receipts (rs_state s) !! id) as [r|] eqn:Hr.
    + destruct (decide (pub_signature (rc_publication r) = SigAuthorized)) as [Hs|Hs].
      * destruct (Ha id r Hr Hs) as (r' & -> & _). done.
      * destruct (Hk id r Hr Hs) as [-> _]. done.
    + by rewrite (Hab id Hr).
  - intros id r' Hr'. destruct (ss_receipts (rs_state s) !! id) as [r|] eqn:Hr; [|by rewrite (Hab id Hr) in Hr'].
    destruct (decide (pub_signature (rc_publication r) = SigAuthorized)) as [Hs|Hs].
    + destruct (Ha id r Hr Hs) as (r0 & Hr0 & Hres). rewrite Hr' in Hr0. injection Hr0 as <-.
      eapply signing_resolved_settled; [apply recover_receipt_settled|exact Hres].
    + destruct (Hk id r Hr Hs) as [Hr0 _]. rewrite Hr' in Hr0. injection Hr0 as ->.
      split; [by rewrite recover_receipt_signature|apply recover_receipt_settled].
Qed.

(** C7. A refusal of the durable write store changes nothing.  When an
    operation is refused (its argument is invalid, its revision stale, a bound
    is reached or an engine call fails) ledger, file, published snapshot and
    notifications are as they were; only an acceptance under a reservation may
    have consumed that reservation. *)
Theorem redb_refusal_atomic (s : RedbWriteStore) (now : Timestamp) (op : StoreOperation) (e : WriteStoreError)
    (s' : RedbWriteStore) (Hlife : redb_life (RedbRunning s)) (Hrun : r_perform now op s = (Err e, s')) :
  tables (rs_database s') = tables (rs_database s) ∧ rs_latest s' = rs_latest s ∧ rs_changes s' = rs_changes s ∧
  (rs_state s' = rs_state s ∨
   ∃ n, reservation_of op = Some n ∧
     rs_state s' = with_reservations (ss_next_reservation (rs_state s)) (delete n (ss_reservations (rs_state s)))
                     (rs_state s)).
Proof.
  pose proof (r_perform_post now op s (redb_life_ok _ Hlife)) as Hp. unfold rwp in Hp. rewrite Hrun in Hp.
  destruct Hp as [[Hs Ht Hla Hc _]|(n & Hn & [Hs Ht Hla Hc _])]; simpl in *; split_and!; try done; [by left|].
  right. eauto.
Qed.

(** A waiting successor whose route covers an author, a recipient or a referenced
    event is never in the ledger: its row has keys that are no text, so the
    write that would bring it is refused. *)
Theorem targeted_successor_never_kept (s : RedbWriteStore) (id : ReceiptId) (r : Receipt) (custody : Semantic)
    (successor : Successor) (plan : RoutePlan) (t : RouteTarget)
    (Hlife : redb_life (RedbRunning s)) (Hr : ss_receipts (rs_state s) !! id = Some r)
    (Hc : ss_semantics (rs_state s) !! id = Some custody) (Hs : sc_successor custody = Some successor)
    (Hp : su_route successor = Some plan) (Ht : is_Some (rp_coverage plan !! t)) : t = WholeRequest.
Proof.
  destruct (redb_life_ok _ Hlife) as [_ (meta & rows & _ & _ & _ & Hm) _]. specialize (Hm id).
  unfold row_at in Hm. rewrite Hr, Hc in Hm. destruct Hm as (b & _ & Hb).
  destruct (textual_keys (mkPersistedReceipt r (Some custody))) eqn:E; [|by rewrite row_keys_text in Hb].
  revert E. unfold textual_keys. cbn. rewrite Hs. cbn. rewrite Hp. rewrite forallb_forall. intros E.
  apply elem_of_keys, list_elem_of_In, E in Ht. by destruct t.
Qed.
End life.
