(* ===== verification/RedbStoreWitness.v ===== *)
(** * The durable write store: runs

    The engine of [Redb.RedbMedia], an encoding that keeps the row as it is or
    refuses it for its keys, and
    the [nostr] instance of the samples: the hypotheses of the store's theorems
    met on a concrete life, and the runs in which every call of a life succeeds
    and the file it leaves is refused by the next run. *)

From S2P Require Import Prelude Nostr Relay State Write Query Routing Receipts MemoryStore StoreInvariant Redb RedbStore RedbStoreProps RedbStoreDurable RedbStoreRestart RedbStoreLife.

Module RedbStoreRuns.
Import Nostr.Sample Redb.RedbMedia StoreRuns.

#[local] Instance ledger_serde : LedgerSerde := {|
  Row := PersistedReceipt;
  row_to_vec := λ p, if textual_keys p then Ok p else Err "key must be a string"%string;
  row_from_slice := λ p, Ok p
|}.

#[local] Instance ledger_serde_laws : LedgerSerdeLaws.
Proof. split; intros p; simpl; destruct (textual_keys p); by intros; simplify_eq. Qed.

Definition no_ledger : @Disk N Row _ _ _ := mkMedia None [].

Definition opened_store (d : @Disk N Row _ _ _) (active terminal : nat) : RedbWriteStore :=
  match r_open_bounded d active terminal with
  | (Ok s, _) => s
  | (Err _, d) => started d empty_ledger 0 0
  end.

(** A first run: a new file opened, operations performed. *)
Definition first_run (active terminal : nat) (ops : list StoreOperation) : RedbWriteStore :=
  foldl (λ s op, (r_perform 0 op s).2) (opened_store no_ledger active terminal) ops.

(** Its answers. *)
Fixpoint answers (s : RedbWriteStore) (ops : list StoreOperation) : list (result WriteStoreError unit) :=
  match ops with
  | [] => []
  | op :: ops => (r_perform 0 op s).1 :: answers (r_perform 0 op s).2 ops
  end.

Definition all_succeed (active terminal : nat) (ops : list StoreOperation) : bool :=
  forallb (is_ok) (answers (opened_store no_ledger active terminal) ops).

(** The next run opens the file the first has left. *)
Definition reopens (active terminal : nat) (ops : list StoreOperation) : result WriteStoreError nat :=
  (λ s, size (ss_receipts (rs_state s))) <$> (r_open_bounded (rs_database (first_run active terminal ops)) active terminal).1.

Lemma first_run_life ops : redb_life (RedbRunning (first_run 4 4 ops)).
Proof.
  unfold first_run. assert (H0 : redb_life (RedbRunning (opened_store no_ledger 4 4))).
  { eapply redb_opened; [apply (redb_new no_ledger); reflexivity|]. vm_compute. reflexivity. }
  revert H0. generalize (opened_store no_ledger 4 4). induction ops as [|op ops IH]; intros s Hs; [exact Hs|].
  simpl. by apply IH, redb_operation.
Qed.

(** A write in flight and one whose signing was authorized, when the run ends. *)
Definition two_open : list StoreOperation :=
  [DoAccept note_intent; DoAuthorize 1 1 1 7; DoInstallSigned 1 1 1 7 (signed 7 10 1);
   DoBeginAttempt 1 1 1 7 "wss://a" 1; DoAccept note_intent; DoAuthorize 2 2 1 7].

Lemma redb_store_durable_witness :
  ss_next_identity (rs_state (first_run 4 4 two_open)) = 3%N ∧
  rs_latest (first_run 4 4 two_open) = redb_snapshot (rs_state (first_run 4 4 two_open)).
Proof.
  split; [vm_compute; reflexivity|].
  destruct (redb_store_durable (first_run 4 4 two_open) (first_run_life two_open)) as (_ & _ & _ & Hl). exact Hl.
Defined.

Lemma restart_resolves_witness :
  let s := first_run 4 4 two_open in
  let s' := opened_store (rs_database s) 4 4 in
  dom (ss_receipts (rs_state s')) = dom (ss_receipts (rs_state s)) ∧
  (rc_outcome <$> ss_receipts (rs_state s') !! 1%N) = Some Complete ∧
  (negb ∘ receipt_is_terminal <$> ss_receipts (rs_state s') !! 2%N) = Some true.
Proof.
  intros s s'. assert (E : r_open_bounded (rs_database s) 4 4 = (Ok s', rs_database s')) by (vm_compute; reflexivity).
  destruct (restart_resolves s (rs_database s) 4 4 s' (rs_database s') (first_run_life two_open) eq_refl E)
    as (_ & _ & Hdom & _).
  split; [exact Hdom|]. split; vm_compute; reflexivity.
Defined.

Lemma redb_refusal_atomic_witness :
  let s := first_run 4 4 two_open in
  rs_state (r_perform 0 (DoRemove 2) s).2 = rs_state s.
Proof.
  intros s. destruct (r_perform 0 (DoRemove 2) s) as [r s'] eqn:E.
  assert (Hr : r = Err (StoreRefused "active receipt cannot be removed")).
  { change r with ((r, s').1). rewrite <- E. vm_compute. reflexivity. }
  subst r.
  destruct (redb_refusal_atomic s 0 (DoRemove 2) _ s' (first_run_life two_open) E)
    as (_ & _ & _ & [Hs|(n & Hn & _)]); [exact Hs|discriminate Hn].
Defined.

(** ** Files the store does not take back *)

(** A cancelled receipt keeps its signing authorization, and recovery insists on
    retrying it. *)
Theorem cancelled_authorization_refused :
  let ops := [DoAccept note_intent; DoAuthorize 1 1 1 7; DoCancel 1] in
  all_succeed 4 4 ops = true ∧ reopens 4 4 ops = Err (StoreRefused "write revision is not current").
Proof. vm_compute. done. Qed.

Definition relay_copy (id created_at : N) : option EventValue := Some (Signed (signed id created_at 10002)).
Definition first_edit : StoreOperation := DoAcceptEdit (edit_intent edit) (unsigned 5 10 10002) None.

(** A waiting successor clears the failed source and leaves its text. *)
Theorem failure_then_successor_refused :
  let ops := [first_edit; DoRecordFailure 1 1 1 None (relay_copy 3 11) "x"; DoAuthorize 1 1 1 5;
              DoInstallRevision 1 1 1 None [edit] (unsigned 6 30 10002) (relay_copy 4 20) None] in
  all_succeed 4 4 ops = true ∧
  reopens 4 4 ops = Err (StoreRefused "durable failed-source attribution is incoherent").
Proof. vm_compute. done. Qed.

(** An edit composed onto a route with no destination drops its custody but
    stays at its second revision. *)
Theorem composed_without_destination_refused :
  let ops := [first_edit; DoReserve edit' 1;
              DoAcceptReserved 1 (edit_intent edit') (unsigned 8 40 10002)
                (Some (Unsigned (unsigned 5 10 10002))) (Some empty_route)] in
  all_succeed 4 4 ops = true ∧
  reopens 4 4 ops = Err (StoreRefused "durable publication evidence has no semantic custody").
Proof. vm_compute. done. Qed.

(** Recovery closes a receipt and evicts none. *)
Theorem recovered_over_terminal_bound :
  let ops := [DoAccept note_intent; DoCancel 1; DoAccept note_intent; DoAuthorize 2 2 1 7;
              DoInstallSigned 2 2 1 7 (signed 7 10 1); DoBeginAttempt 2 2 1 7 "wss://a" 1] in
  all_succeed 4 1 ops = true ∧
  reopens 4 1 ops = Err (StoreRefused "recovered terminal receipt count exceeds bound: 2 > 1").
Proof. vm_compute. done. Qed.

(** A successor as old as its source with the smaller id is newer when it is
    installed and not when it is loaded. *)
Theorem tied_successor_refused :
  let ops := [first_edit; DoAuthorize 1 1 1 5;
              DoInstallRevision 1 1 1 None [edit] (unsigned 2 20 10002) (relay_copy 4 20) None] in
  all_succeed 4 4 ops = true ∧
  reopens 4 4 ops = Err (StoreRefused "durable semantic successor disagrees with current custody").
Proof. vm_compute. done. Qed.

(** Removing an old receipt frees the coordinate its successor owns; a second
    owner is accepted. *)
Theorem removed_receipt_frees_live_coordinate :
  let ops := [DoReserve edit 1;
              DoAcceptReserved 1 (edit_intent edit) (unsigned 5 10 10002) None (Some empty_route);
              DoAcceptEdit (edit_intent edit') (unsigned 8 40 10002) None; DoRemove 1;
              DoAcceptEdit (edit_intent edit) (unsigned 9 50 10002) None] in
  all_succeed 4 4 ops = true ∧
  reopens 4 4 ops = Err (StoreRefused "duplicate durable semantic coordinate owner").
Proof. vm_compute. done. Qed.

(** The in-memory store keeps a correction that arrives while signing is
    authorized, with the route it is to have; the durable store refuses it when
    the route covers its author. *)
Definition author_route : RoutePlan :=
  mkPlan 1 {[ "wss://a"%string := mkPlanned "wss://a" {[ TargetAuthor 1 ]} ∅ ]}
    {[ TargetAuthor 1 := Covered {[ "wss://a"%string ]} ]} ∅ [].

Theorem targeted_successor_refused :
  let ops := [first_edit; DoAuthorize 1 1 1 5] in
  let op := DoInstallRevision 1 1 1 None [edit] (unsigned 6 30 10002) (relay_copy 4 20) (Some author_route) in
  all_succeed 4 4 ops = true ∧
  (perform 0 op (run 4 ops)).1 = Ok tt ∧
  (r_perform 0 op (first_run 4 4 ops)).1 = Err (StoreRefused "key must be a string").
Proof. vm_compute. done. Qed.

(** The life of [two_open], by comparison, is taken back. *)
Example two_open_reopens : all_succeed 4 4 two_open = true ∧ reopens 4 4 two_open = Ok 2.
Proof. vm_compute. done. Qed.
End RedbStoreRuns.
