(* ===== verification/Settlement.v ===== *)
(** * Waiting for a write to settle ([crates/fava/src/publication.rs],
    [wait_until] of [crates/fava-publication/src/lib.rs])

    An application awaits a predicate of its receipt.  The wait subscribes to the
    store's changes, reads the receipt, and reads it again whenever a change names
    it or the broadcast says it lagged.  [wait_turn] is one step of that task,
    from one await to the next; [wait_reachable] interleaves it with everything
    the store can be asked.

    The broadcast keeps the last [RECEIPT_CHANGE_CAPACITY] changes; a reader that
    falls behind learns only that it lagged.  Its sender lives as long as the
    store the wait holds, so it never closes. *)

From S2P Require Import Prelude Nostr Relay State Write Query Routing Receipts MemoryStore StoreInvariant Publication.

(** ** Predicates *)

Definition all_terminal (r : Receipt) : bool :=
  rc_route_settled r &&
  forallb (λ session, match rc_destinations r !! session with
                      | Some outcome => outcome_is_terminal outcome
                      | None => false
                      end) (ordered_elements (rc_desired_destinations r)).

Definition all_acknowledged (r : Receipt) : bool :=
  rc_route_settled r && negb (bool_decide (rc_desired_destinations r = ∅)) &&
  forallb (λ session, match rc_destinations r !! session with
                      | Some (Acknowledged _) => true
                      | _ => false
                      end) (ordered_elements (rc_desired_destinations r)).

Definition at_least_acknowledged (minimum : nat) (r : Receipt) : bool := bool_decide (minimum ≤ acknowledged r).

(** ** The wait *)

Definition RECEIPT_CHANGE_CAPACITY : nat := 256.

Inductive ChangeItem :=
| ChangeOf (receipt_id : ReceiptId) (receipt : option Receipt)
| ChangeLagged
| ChangeClosed.

(** [broadcast::Receiver::recv] at a position of the log of changes: what it
    returns and where it stands then, or nothing to read yet. *)
Definition changes_recv (log : list (ReceiptId * option Receipt)) (position : nat) : option (ChangeItem * nat) :=
  if bool_decide (RECEIPT_CHANGE_CAPACITY < length log - position)
  then Some (ChangeLagged, length log - RECEIPT_CHANGE_CAPACITY)
  else match log !! position with
       | Some (receipt_id, receipt) => Some (ChangeOf receipt_id receipt, S position)
       | None => None
       end.

(** The wait reads the receipt next, awaits a change, or has answered. *)
Inductive WaitState :=
| WaitRead
| WaitRecv
| WaitDone (answer : result PublicationError (Receipt * bool)).

Section wait.
Context (receipt_id : ReceiptId) (predicate : Receipt → bool).

(** The head of the outer loop. *)
Definition wait_read (st : WriteState) : WaitState :=
  match MemoryStore.receipt receipt_id st with
  | None => WaitDone (Err (ReceiptMissing receipt_id))
  | Some receipt =>
      if predicate receipt then WaitDone (Ok (receipt, true))
      else if receipt_is_terminal receipt then WaitDone (Ok (receipt, false))
      else WaitRecv
  end.

(** One item of the inner loop. *)
Definition wait_item (item : ChangeItem) : WaitState :=
  match item with
  | ChangeOf changed_id None => if bool_decide (changed_id = receipt_id)
                                then WaitDone (Err (ReceiptMissing receipt_id)) else WaitRecv
  | ChangeOf changed_id (Some _) => if bool_decide (changed_id = receipt_id) then WaitRead else WaitRecv
  | ChangeLagged => WaitRead
  | ChangeClosed => WaitDone (Err ReceiptChangesClosed)
  end.

Record WaitWorld := mkWait {
  ww_store : MemoryWriteStore;
  ww_position : nat;
  ww_state : WaitState
}.

(** [self.store.receipt_changes()]. *)
Definition wait_start (s : MemoryWriteStore) : WaitWorld := mkWait s (length (ms_changes s)) WaitRead.

Definition wait_turn (w : WaitWorld) : WaitWorld :=
  match ww_state w with
  | WaitRead => mkWait (ww_store w) (ww_position w) (wait_read (ms_state (ww_store w)))
  | WaitRecv =>
      match changes_recv (ms_changes (ww_store w)) (ww_position w) with
      | Some (item, position) => mkWait (ww_store w) position (wait_item item)
      | None => w
      end
  | WaitDone _ => w
  end.

Inductive wait_reachable `{Nostr} (capacity : nat) : WaitWorld → Prop :=
| wait_begins s :
    store_reachable capacity s → (receipt_id < ws_next_identity (ms_state s))%N → wait_reachable capacity (wait_start s)
| wait_store now op w :
    wait_reachable capacity w →
    wait_reachable capacity (mkWait (perform now op (ww_store w)).2 (ww_position w) (ww_state w))
| wait_turns w : wait_reachable capacity w → wait_reachable capacity (wait_turn w).
End wait.

Inductive PublishError :=
| MissingAuthor
| InvalidSettlementThreshold
| NotReached (receipt : Receipt)
| PublishIntent (e : WriteIntentError)
| PublishPublication (e : PublicationError).

Definition at_least (minimum : nat) : result PublishError (Receipt → bool) :=
  if bool_decide (minimum = 0) then Err InvalidSettlementThreshold else Ok (at_least_acknowledged minimum).

(** [Write::settled]: what the answer of the wait becomes. *)
Definition settled_answer (answer : result PublicationError (Receipt * bool)) : result PublishError Receipt :=
  match answer with
  | Ok (receipt, true) => Ok receipt
  | Ok (receipt, false) => Err (NotReached receipt)
  | Err e => Err (PublishPublication e)
  end.

(** ** Every operation announces what it changes *)

(** A receipt closed as complete or without destination has a settled route and
    only terminal outcomes, and knows an outcome of every destination. *)
Record receipt_sound (r : Receipt) : Prop := {
  rd_known : rc_desired_destinations r ⊆ dom (rc_destinations r);
  rd_closed : rc_outcome r = Complete ∨ rc_outcome r = NoDestination →
              rc_route_settled r = true ∧ ∀ s o, rc_destinations r !! s = Some o → outcome_is_terminal o = true
}.

Definition receipts_sound (st : WriteState) : Prop := ∀ id r, ws_writes st !! id = Some r → receipt_sound r.

(** What one operation does to the receipts and to the log of changes. *)
Inductive traced (s s' : MemoryWriteStore) : Prop :=
| traced_same l :
    ms_changes s' = ms_changes s ++ l → ws_writes (ms_state s') = ws_writes (ms_state s) →
    (∀ id o, (id, o) ∈ l → is_Some o) → traced s s'
| traced_put id r :
    ms_changes s' = ms_changes s ++ [(rc_receipt_id r, Some r)] →
    ws_writes (ms_state s') = <[id := r]> (ws_writes (ms_state s)) → receipt_sound r → traced s s'
| traced_remove id :
    ms_changes s' = ms_changes s ++ [(id, None)] →
    ws_writes (ms_state s') = delete id (ws_writes (ms_state s)) → traced s s'.

Definition traces {A} (s : MemoryWriteStore) (r : result WriteStoreError A) (s' : MemoryWriteStore) : Prop :=
  match r with Ok _ => traced s s' | Err _ => True end.

Section sound.
Context `{Nostr}.

Lemma open_receipt_sound write_id receipt_id current routing access :
  receipt_sound (open_receipt write_id receipt_id current routing access).
Proof. split; [done|]. by intros [?|?]. Qed.

(** Nothing but the destinations and the outcome matters. *)
Lemma sound_same r r' :
  receipt_sound r → rc_destinations r' = rc_destinations r → rc_desired_destinations r' = rc_desired_destinations r →
  rc_outcome r' = rc_outcome r → rc_route_settled r' = rc_route_settled r → receipt_sound r'.
Proof. intros [H1 H2] Hd Hq Ho Hs. split; rewrite Hd; [by rewrite Hq|by rewrite Ho, Hs]. Qed.

Lemma settle_route_sound r : rc_desired_destinations r ⊆ dom (rc_destinations r) → receipt_sound (settle_route r).
Proof.
  intros Hk. unfold settle_route. destruct (_ || _) eqn:E; [split; [done|by intros [?|?]]|].
  apply orb_false_iff in E as [Hs%negb_false_iff He]. rewrite existsb_not_elem in He.
  case_bool_decide; (split; [done|]); intros _; (split; [done|]); intros s o Ho;
    apply negb_false_iff, He, elem_of_values; eauto.
Qed.

Lemma settle_sound r :
  rc_desired_destinations r ⊆ dom (rc_destinations r) → rc_outcome r = Open → receipt_sound (settle r).
Proof.
  intros Hk Ho. unfold settle. destruct (_ && _) eqn:E; [|split; [done|rewrite Ho; by intros [?|?]]].
  apply andb_true_iff in E as [Hs He]. rewrite forallb_elem in He.
  split; [by case_bool_decide|]. intros _. split; [done|]. intros s o Hd. apply He, elem_of_values. eauto.
Qed.

Lemma apply_route_sound r plan r' : receipt_sound r → apply_route_to_receipt r plan = Ok r' → receipt_sound r'.
Proof.
  intros Hr. unfold apply_route_to_receipt. destruct (rc_routing r); [|done].
  case_bool_decide; [done|]. case_bool_decide.
  { case_bool_decide; [done|]. destruct (persisted_route_effect_matches r plan); [|done]. by intros [= <-]. }
  intros Hn. apply newer_route_fields in Hn as Hf. pose proof (newer_route_destinations r plan r') as Hd.
  apply newer_route_Ok in Hn as Hok. destruct Hok as (_ & _ & _ & ->). apply settle_route_sound.
  cbv zeta. simpl. intros s Hs. apply elem_of_dom. change (rc_destinations _) with
    (foldl add_destination (foldl retire_destination (rc_destinations r, rc_attempts r)
       (ordered_elements (rc_desired_destinations r ∖ dom (rp_destinations plan)))).1
       (ordered_elements (dom (rp_destinations plan)))).
  rewrite add_fold_lookup. rewrite decide_True by (by apply elem_of_ordered_elements).
  by destruct (_ !! s); eauto.
Qed.

Lemma initial_route_sound route r r' : receipt_sound r → apply_initial_route route r = Ok r' → receipt_sound r'.
Proof. intros Hr. destruct route as [plan|]; simpl; [by apply apply_route_sound|by intros [= <-]]. Qed.

Lemma cancelled_sound r :
  receipt_sound r → receipt_sound (with_outcome Cancelled
    (update_publication (with_destinations ((λ _, CancelledBeforeHandoff) <$> rc_destinations r)) r)).
Proof.
  intros [H1 _]. split; [|by intros [?|?]]. simpl. change (rc_destinations _) with
    ((λ _, CancelledBeforeHandoff) <$> rc_destinations r). by rewrite dom_fmap_L.
Qed.

Lemma set_destination_known session outcome r :
  receipt_sound r → rc_desired_destinations r ⊆ dom (rc_destinations (set_destination session outcome r)).
Proof.
  intros [H1 _]. change (rc_destinations _) with (<[session := outcome]> (rc_destinations r)).
  rewrite dom_insert_L. set_solver.
Qed.

Lemma attempted_sound attempts session outcome r :
  receipt_sound r → rc_outcome r = Open → receipt_sound (with_attempts attempts (set_destination session outcome r)).
Proof. intros Hr Ho. split; [exact (set_destination_known session outcome r Hr)|]. simpl. rewrite Ho. by intros [?|?]. Qed.

Lemma current_open r write_id revision_id event_id x :
  validate_current_revision r write_id revision_id event_id = Ok x → rc_outcome r = Open.
Proof.
  intros Hc%ensure_Ok. apply negb_true_iff in Hc. rewrite !orb_false_iff in Hc.
  destruct Hc as [[[Hc _] _] _]. unfold receipt_is_terminal in Hc. apply negb_false_iff in Hc.
  by apply bool_decide_eq_true in Hc.
Qed.
End sound.

Section tracing.
Context `{Nostr}.

Lemma traced_quiet s s' :
  ms_changes s' = ms_changes s → ws_writes (ms_state s') = ws_writes (ms_state s) → traced s s'.
Proof.
  intros Hc Hw. apply (traced_same s s' []); [by rewrite app_nil_r|done|]. intros id o Hin.
  by apply not_elem_of_nil in Hin.
Qed.

Lemma traced_refl s : traced s s.
Proof. by apply traced_quiet. Qed.

Lemma traced_notify s s' r :
  ms_changes s' = ms_changes s ++ [(rc_receipt_id r, Some r)] → ws_writes (ms_state s') = ws_writes (ms_state s) →
  traced s s'.
Proof.
  intros Hc Hw. apply (traced_same s s' [(rc_receipt_id r, Some r)]); [done|done|]. intros id o Hin.
  apply list_elem_of_singleton in Hin. injection Hin as _ ->. eauto.
Qed.

Lemma writes_release id st : ws_writes (release_semantic id st) = ws_writes st.
Proof. by rewrite release_semantic_spec. Qed.

Lemma traced_commit s s0 st id r :
  ms_changes s0 = ms_changes s → ws_writes st = <[id := r]> (ws_writes (ms_state s)) → receipt_sound r →
  traced s (committed s0 st r).
Proof. intros Hc Hw Hr. apply (traced_put _ _ id r); simpl; [by rewrite Hc|done|done]. Qed.

Ltac trace_step :=
  first
    [ op_step ltac:(exact I)
    | match goal with
      | |- wp (if ?b then _ else _) _ _ => destruct b eqn:?
      | |- wp (match ?x with _ => _ end) _ _ => destruct x eqn:?
      | |- wp (mbind _ (match ?x with _ => _ end)) _ _ => destruct x eqn:?
      | |- wp (let _ := _ in _) _ _ => cbv zeta
      | |- wp (mbind _ (mbind _ _)) _ _ => progress cbn beta iota
      end ].
Ltac trace_run := repeat trace_step.

(** The receipt an operation commits is sound, by what it was made from. *)
Ltac sound_tac Hs :=
  match goal with
  | |- receipt_sound (open_receipt _ _ _ _ _) => apply open_receipt_sound
  | E : apply_initial_route _ _ = Ok ?r |- receipt_sound ?r => eapply initial_route_sound; [|exact E]; sound_tac Hs
  | E : apply_route_to_receipt _ _ = Ok ?r |- receipt_sound ?r => eapply apply_route_sound; [|exact E]; sound_tac Hs
  | E : ws_writes _ !! _ = Some ?r |- receipt_sound ?r => exact (Hs _ _ E)
  | E : ws_writes _ !! _ = Some ?r |- receipt_sound (with_outcome Cancelled _) => apply cancelled_sound, (Hs _ _ E)
  | E : ws_writes _ !! _ = Some ?r |- receipt_sound (settle (set_destination ?s ?o ?r)) =>
      apply settle_sound; [exact (set_destination_known s o r (Hs _ _ E))|eapply (current_open r); eassumption]
  | E : ws_writes _ !! _ = Some ?r |- receipt_sound (with_attempts _ (set_destination _ _ ?r)) =>
      apply attempted_sound; [exact (Hs _ _ E)|eapply current_open; eassumption]
  | E : ws_writes _ !! _ = Some ?r |- receipt_sound _ => apply (sound_same r); [exact (Hs _ _ E)|reflexivity..]
  end.

Ltac trace_end Hs :=
  match goal with
  | |- traces _ (Ok _) _ => cbn [traces]
  end;
  first [ apply traced_refl
        | eapply traced_commit;
          [reflexivity
          |repeat case_match; rewrite ?writes_release; simpl; rewrite ?writes_release; reflexivity
          |sound_tac Hs] ].

Section operations.
Context (now : Timestamp) (s : MemoryWriteStore) (Hs : receipts_sound (ms_state s)).

Lemma accept_traces intent : wp (accept intent) (traces s) s.
Proof. unfold accept. trace_run; trace_end Hs. Qed.

Lemma promote_traces id : wp (promote_authorized_successor id) (traces s) s.
Proof. unfold promote_authorized_successor. trace_run. trace_end Hs. Qed.

Lemma signature_traces revision id r sig :
  ws_writes (ms_state s) !! id = Some r → wp (commit_signature (ms_state s) revision id r sig) (traces s) s.
Proof. intros Hr. unfold commit_signature. trace_run. trace_end Hs. Qed.

Lemma install_signed_traces w id rev ev e : wp (install_signed w id rev ev e) (traces s) s.
Proof.
  unfold install_signed. repeat first [apply promote_traces | trace_step]; trace_end Hs.
Qed.

Ltac trace_signing :=
  repeat first [apply promote_traces | apply signature_traces; assumption | trace_step]; trace_end Hs.

Lemma record_signer_refusal_traces w id rev ev reason :
  wp (record_signer_refusal w id rev ev reason) (traces s) s.
Proof. unfold record_signer_refusal. trace_signing. Qed.

Lemma authorize_signing_traces w id rev ev : wp (authorize_signing w id rev ev) (traces s) s.
Proof. unfold authorize_signing. trace_signing. Qed.

Lemma record_signer_retryable_traces w id rev ev reason :
  wp (record_signer_retryable w id rev ev reason) (traces s) s.
Proof. unfold record_signer_retryable. trace_signing. Qed.

Lemma apply_route_traces w id rev ev plan : wp (apply_route w id rev ev plan) (traces s) s.
Proof. unfold apply_route. trace_run; trace_end Hs. Qed.

Lemma begin_attempt_traces w id rev ev session attempt : wp (begin_attempt w id rev ev session attempt) (traces s) s.
Proof. unfold begin_attempt. trace_run; trace_end Hs. Qed.

Lemma record_outcome_traces w id rev ev session attempt outcome :
  wp (record_outcome w id rev ev session attempt outcome) (traces s) s.
Proof. unfold record_outcome. trace_run; trace_end Hs. Qed.

Lemma cancel_traces id : wp (cancel id) (traces s) s.
Proof. unfold cancel. trace_run; trace_end Hs. Qed.

Lemma remove_receipt_traces id : wp (remove_receipt id) (traces s) s.
Proof.
  unfold remove_receipt. trace_run; try trace_end Hs. apply (traced_remove _ _ id); [done|]. simpl.
  by rewrite writes_release.
Qed.

Lemma reserve_active_traces edit author : wp (reserve_active edit author) (traces s) s.
Proof.
  unfold reserve_active. trace_run. by apply traced_quiet.
Qed.

Lemma release_active_traces n : wp (release_active n) (traces s) s.
Proof.
  unfold release_active. do 2 trace_step. op_step idtac. destruct (_ ≫= _) as [r|].
  - apply (traced_same _ _ [(rc_receipt_id r, Some r)]); [done|done|]. intros id o Hin.
    apply list_elem_of_singleton in Hin. injection Hin as _ ->. eauto.
  - by apply traced_quiet.
Qed.

Lemma record_failure_traces w id expected src source reason :
  wp (record_semantic_failure w id expected src source reason) (traces s) s.
Proof. unfold record_semantic_failure. trace_run; trace_end Hs. Qed.

Lemma compose_traces id edit author routing event source route :
  wp (compose_semantic id edit author routing event source route) (traces s) s.
Proof.
  unfold compose_semantic. trace_run; try trace_end Hs. by apply (traced_notify _ _ a).
Qed.

Lemma install_semantic_traces w id expected src edits event source route :
  wp (install_semantic now w id expected src edits event source route) (traces s) s.
Proof.
  unfold install_semantic. trace_run; try trace_end Hs.
  - apply (traced_notify _ _ a); done.
  - eapply traced_commit; [done|done|]. eapply initial_route_sound; [|eassumption].
    split; [|by intros [?|?]]. unfold rc_destinations. simpl.
    match goal with E : LocalWriteEvent_new _ _ = Ok _ |- _ => destruct (local_new_Ok _ _ _ E) as (_ & -> & _) end.
    simpl. by rewrite dom_gset_to_gmap.
Qed.

Lemma accept_validated_traces reserved edit author routing access event source route :
  wp (accept_validated now reserved edit author routing access event source route) (traces s) s.
Proof.
  unfold accept_validated. repeat first [apply compose_traces | trace_step]; trace_end Hs.
Qed.
End operations.

Lemma accept_semantic_traces now reservation intent event source route s :
  receipts_sound (ms_state s) →
  wp (accept_semantic_inner now reservation intent event source route) (traces s) s.
Proof.
  intros Hs. unfold accept_semantic_inner. destruct (in_payload intent) as [|edit author|]; op_step ltac:(exact I).
  destruct reservation as [n|]; simpl; [|op_step idtac; by apply accept_validated_traces].
  unfold wp, consume_reservation, mbind, op_bind, mbind, stateM_bind, lock_state, or_refuse, require, try_, put_state, traces.
  simpl. destruct (ws_reservations (ms_state s) !! n); [|done]. simpl. case_bool_decide; [|done]. simpl.
  pose proof (accept_validated_traces now (unreserved n s) true edit author (in_routing intent) (in_access intent)
                event source route) as Hwp.
  unfold wp, traces in Hwp. fold (unreserved n s). unfold unreserved, assigned in *.
  destruct (accept_validated now true edit author (in_routing intent) (in_access intent) event source route _)
    as [[a|e'] s']; [|done]. simpl in *. destruct Hwp as [l|id r|id]; [eapply traced_same|eapply traced_put|eapply traced_remove]; done.
Qed.

Lemma discard_traces {A} (m : Op A) s : wp m (traces s) s → wp (discard m) (traces s) s.
Proof. unfold discard, wp, mbind, op_bind, mbind, stateM_bind. by destruct (m s) as [[a|e] s']. Qed.

Lemma perform_traces now op s : receipts_sound (ms_state s) → wp (perform now op) (traces s) s.
Proof.
  intros Hs. destruct op; simpl; apply discard_traces.
  - by apply accept_traces.
  - by apply reserve_active_traces.
  - by apply release_active_traces.
  - by apply accept_semantic_traces.
  - by apply accept_semantic_traces.
  - by apply install_semantic_traces.
  - by apply record_failure_traces.
  - by apply install_signed_traces.
  - by apply authorize_signing_traces.
  - by apply record_signer_retryable_traces.
  - by apply record_signer_refusal_traces.
  - by apply apply_route_traces.
  - by apply begin_attempt_traces.
  - by apply record_outcome_traces.
  - by apply cancel_traces.
  - by apply remove_receipt_traces.
Qed.
End tracing.

(** ** The log and the ledger agree *)

Lemma elem_of_drop_mono {A} (x : A) (l : list A) m n : m ≤ n → x ∈ drop n l → x ∈ drop m l.
Proof.
  intros Hle Hin. replace n with (m + (n - m)) in Hin by lia. rewrite <- drop_drop in Hin.
  rewrite <- (take_drop (n - m) (drop m l)). apply elem_of_app. by right.
Qed.

Section waiting.
Context `{Nostr} (capacity : nat).

Lemma store_refusals_same now op s e s' :
  store_reachable capacity s → perform now op s = (Err e, s') → s' = s ∨ ∃ n, s' = unreserved n s.
Proof.
  intros Hreach E. destruct (reachable_ok _ _ Hreach) as (Hok & _ & _).
  pose proof (perform_atomic now op s Hok) as Hwp. unfold wp, atomic_from, atomic in Hwp. rewrite E in Hwp.
  simpl in Hwp. naive_solver.
Qed.

(** One operation of a reachable store: which entries it adds to the log, that a
    receipt it changes is among them, and that a removed one is gone for good. *)
Lemma perform_announces now op s :
  store_reachable capacity s → receipts_sound (ms_state s) →
  let s' := (perform now op s).2 in
  receipts_sound (ms_state s') ∧
  ∃ l, ms_changes s' = ms_changes s ++ l ∧
    (∀ id, ws_writes (ms_state s') !! id ≠ ws_writes (ms_state s) !! id → ∃ o, (id, o) ∈ l) ∧
    (∀ id, (id, None) ∈ l → ws_writes (ms_state s') !! id = None).
Proof.
  intros Hreach Hs s'. destruct (reachable_ok _ _ Hreach) as (Hok & _ & _).
  destruct (reachable_ok capacity s') as (Hok' & _ & _); [by apply reach_perform|].
  pose proof (perform_traces now op s Hs) as Ht. unfold wp, traces in Ht. subst s'.
  destruct (perform now op s) as [[[]|e] s'] eqn:E; simpl in *; cycle 1.
  { assert (Hw : ws_writes (ms_state s') = ws_writes (ms_state s) ∧ ms_changes s' = ms_changes s).
    { pose proof (store_refusals_same now op s e s' Hreach E) as [->|[n ->]]; done. }
    destruct Hw as [Hw Hc]. split; [intros id r; rewrite Hw; apply Hs|]. exists []. rewrite app_nil_r, Hw.
    split_and!; [done|by intros ? []|]. intros id Hin. by apply not_elem_of_nil in Hin. }
  destruct Ht as [l Hc Hw Hl|id r Hc Hw Hr|id Hc Hw].
  - split; [intros id r; rewrite Hw; apply Hs|]. exists l. rewrite Hw. split_and!; [done|by intros ? []|].
    intros id Hin. apply Hl in Hin as [? [=]].
  - assert (Hid : rc_receipt_id r = id).
    { apply (ro_receipt_id _ _ _ (so_writes _ Hok' id r ltac:(by rewrite Hw, lookup_insert_eq))). }
    split.
    { intros i x. rewrite Hw. intros [[<- <-]|[_ Hx]]%lookup_insert_Some; [done|by eapply Hs]. }
    exists [(id, Some r)]. rewrite Hc, Hid. split_and!; [done|..].
    + intros i Hne. exists (Some r). destruct (decide (i = id)) as [->|Hi]; [set_solver|].
      by rewrite Hw, lookup_insert_ne in Hne.
    + intros i Hin. by apply list_elem_of_singleton in Hin.
  - split. { intros i x. rewrite Hw. intros [_ Hx]%lookup_delete_Some. by eapply Hs. }
    exists [(id, None)]. rewrite Hc. split_and!; [done|..].
    + intros i Hne. exists None. destruct (decide (i = id)) as [->|Hi]; [set_solver|].
      by rewrite Hw, lookup_delete_ne in Hne.
    + intros i Hin. apply list_elem_of_singleton in Hin as [= ->]. by rewrite Hw, lookup_delete_eq.
Qed.

Lemma transition_issued st st' : transition st st' → (ws_next_identity st ≤ ws_next_identity st')%N.
Proof.
  intros Htr. destruct Htr; simpl; try lia.
  - destruct release; simpl; rewrite ?release_semantic_spec; simpl; lia.
  - rewrite release_semantic_spec. simpl. lia.
Qed.

Lemma transition_absent st st' id :
  transition st st' → (id < ws_next_identity st)%N → ws_writes st !! id = None → ws_writes st' !! id = None.
Proof.
  assert (Hins : ∀ i x y, ws_writes st !! i = Some x → ws_writes st !! id = None →
    <[i := y]> (ws_writes st) !! id = None).
  { intros i x y Hx Hn. rewrite lookup_insert_ne; [done|]. intros ->. congruence. }
  intros Htr Hlt Hn. destruct Htr; simpl; try done; try by eapply Hins.
  - destruct release; simpl; rewrite ?release_semantic_spec; simpl; eauto.
  - rewrite lookup_insert_ne; [done|lia].
  - apply lookup_delete_None. by right.
Qed.

Lemma perform_absent now op s id :
  store_reachable capacity s → (id < ws_next_identity (ms_state s))%N →
  (id < ws_next_identity (ms_state (perform now op s).2))%N ∧
  (ws_writes (ms_state s) !! id = None → ws_writes (ms_state (perform now op s).2) !! id = None).
Proof.
  intros Hreach Hlt. destruct (reachable_ok _ _ Hreach) as (Hok & _ & _).
  destruct (perform_steps now op s Hok) as (s1 & Hs1 & Hs').
  assert (Hst : transition (ms_state s1) (ms_state (perform now op s).2)).
  { destruct Hs' as [[Ht _ _]| ->]; [done|apply tr_same]. }
  pose proof (transition_issued _ _ Hst). pose proof (transition_absent _ _ id Hst).
  destruct Hs1 as [->|[n ->]]; simpl in *; split; auto; lia.
Qed.

(** ** The wait *)

Section wait_invariant.
Context (receipt_id : ReceiptId) (predicate : Receipt → bool).

Definition state_ok (w : WaitWorld) : Prop :=
  let writes := ws_writes (ms_state (ww_store w)) in
  match ww_state w with
  | WaitRead => True
  | WaitRecv => (∃ o, (receipt_id, o) ∈ drop (ww_position w) (ms_changes (ww_store w))) ∨
                ∃ r, writes !! receipt_id = Some r ∧ predicate r = false ∧ receipt_is_terminal r = false
  | WaitDone (Ok (r, reached)) =>
      reached = predicate r ∧ (reached = false → receipt_is_terminal r = true) ∧
      rc_receipt_id r = receipt_id ∧ receipt_sound r
  | WaitDone (Err e) => e = ReceiptMissing receipt_id ∧ writes !! receipt_id = None
  end.

Record wait_ok (w : WaitWorld) : Prop := {
  wk_store : store_reachable capacity (ww_store w);
  wk_sound : receipts_sound (ms_state (ww_store w));
  wk_issued : (receipt_id < ws_next_identity (ms_state (ww_store w)))%N;
  wk_position : ww_position w ≤ length (ms_changes (ww_store w));
  wk_removed : (receipt_id, None) ∈ drop (ww_position w) (ms_changes (ww_store w)) →
               ws_writes (ms_state (ww_store w)) !! receipt_id = None;
  wk_state : state_ok w
}.

Lemma reachable_sound s : store_reachable capacity s → receipts_sound (ms_state s).
Proof.
  induction 1 as [|now op s Hr IH]; [intros id r; simpl; by rewrite lookup_empty|].
  by apply (perform_announces now op s).
Qed.

Lemma wait_start_ok s :
  store_reachable capacity s → (receipt_id < ws_next_identity (ms_state s))%N → wait_ok (wait_start s).
Proof.
  intros Hr Hi. split; simpl; try done; [by apply reachable_sound|]. rewrite drop_all. intros Hin.
  by apply not_elem_of_nil in Hin.
Qed.

Lemma wait_store_ok now op w :
  wait_ok w → wait_ok (mkWait (perform now op (ww_store w)).2 (ww_position w) (ww_state w)).
Proof.
  intros [H1 H2 H3 H4 H5 H6]. destruct (perform_announces now op _ H1 H2) as (Hs & l & Hl & Hch & Hgone).
  destruct (perform_absent now op _ receipt_id H1 H3) as [Hi Ha].
  split; simpl; try done; [by apply reach_perform|rewrite Hl, length_app; lia|..].
  - rewrite Hl, drop_app_le by done. intros [Hin|Hin]%elem_of_app; auto.
  - unfold state_ok in *. simpl. destruct (ww_state w) as [| |[[r reached]|e]]; try done.
    + rewrite Hl, drop_app_le by done. destruct H6 as [[o Ho]|(r & Hr & Hp)].
      { left. exists o. apply elem_of_app. by left. }
      destruct (decide (ws_writes (ms_state (perform now op (ww_store w)).2) !! receipt_id =
                        ws_writes (ms_state (ww_store w)) !! receipt_id)) as [E|E].
      * right. exists r. by rewrite E.
      * left. destruct (Hch _ E) as [o Ho]. exists o. apply elem_of_app. by right.
    + destruct H6. auto.
Qed.

Lemma wait_turn_ok w : wait_ok w → wait_ok (wait_turn receipt_id predicate w).
Proof.
  intros [H1 H2 H3 H4 H5 H6]. unfold wait_turn. destruct (ww_state w) eqn:Est; [..|by split].
  - split; try done. unfold state_ok, wait_read, MemoryStore.receipt. simpl.
    destruct (ws_writes _ !! receipt_id) as [r|] eqn:Hr; [|done].
    destruct (reachable_ok _ _ H1) as (Hok & _ & _).
    pose proof (ro_receipt_id _ _ _ (so_writes _ Hok _ _ Hr)).
    destruct (predicate r) eqn:Hp; [by split_and!; eauto|].
    destruct (receipt_is_terminal r) eqn:Ht; [by split_and!; eauto|]. right. eauto.
  - unfold changes_recv. case_bool_decide as Hlag.
    { split; simpl; try done; [lia|]. intros Hin. apply H5. eapply elem_of_drop_mono; [|exact Hin]. lia. }
    destruct (ms_changes (ww_store w) !! ww_position w) as [[id o]|] eqn:Hat; [|by split].
    assert (Hdrop : drop (ww_position w) (ms_changes (ww_store w)) =
      (id, o) :: drop (S (ww_position w)) (ms_changes (ww_store w))) by (by apply drop_S).
    split; simpl; try done.
    + apply lookup_lt_Some in Hat. lia.
    + intros Hin. apply H5. rewrite Hdrop. by right.
    + unfold state_ok in *. rewrite Est in H6. simpl. unfold wait_item.
      assert (Hother : id ≠ receipt_id → state_ok (mkWait (ww_store w) (S (ww_position w)) WaitRecv)).
      { intros Hne. unfold state_ok. simpl. destruct H6 as [[o' Ho]|?]; [|by right]. left. exists o'.
        rewrite Hdrop in Ho. apply elem_of_cons in Ho as [[=]|Ho]; [congruence|done]. }
      destruct o as [r|]; case_bool_decide as Hid; try done; try by apply Hother.
      split; [done|]. apply H5. rewrite Hdrop, Hid. left.
Qed.

Lemma wait_reachable_ok w : wait_reachable receipt_id predicate capacity w → wait_ok w.
Proof.
  induction 1; [by apply wait_start_ok|by apply wait_store_ok|by apply wait_turn_ok].
Qed.

Definition unread (w : WaitWorld) : nat := length (ms_changes (ww_store w)) - ww_position w.

(** A wait whose receipt is ready ends before it has read what is queued. *)
Lemma ready_ends r w :
  wait_ok w → ws_writes (ms_state (ww_store w)) !! receipt_id = Some r →
  predicate r || receipt_is_terminal r = true →
  ∃ n answer, n ≤ unread w + 2 ∧ ww_state (Nat.iter n (wait_turn receipt_id predicate) w) = WaitDone answer.
Proof.
  remember (unread w) as k eqn:Hk. revert w Hk. induction (lt_wf k) as [k _ IH]. intros w Hk Hw Hr Hready.
  assert (Hread : ∀ w', ww_store w' = ww_store w → ww_state w' = WaitRead →
    ∃ answer, ww_state (wait_turn receipt_id predicate w') = WaitDone answer).
  { intros w' Es Ew. unfold wait_turn, wait_read, MemoryStore.receipt. rewrite Ew, Es, Hr. simpl.
    destruct (predicate r); [eauto|]. simpl in Hready. rewrite Hready. eauto. }
  destruct (ww_state w) as [| |answer] eqn:Ew; [..|by exists 0, answer; split; [lia|]].
  { destruct (Hread w eq_refl Ew) as [answer Ha]. exists 1, answer. split; [lia|done]. }
  pose proof (wait_turn_ok w Hw) as Hw'.
  assert (Hnext : ∃ item position, changes_recv (ms_changes (ww_store w)) (ww_position w) = Some (item, position) ∧
    (item = ChangeLagged ∨ position = S (ww_position w) ∧ position ≤ length (ms_changes (ww_store w)))).
  { unfold changes_recv. case_bool_decide; [eauto|].
    destruct (ms_changes (ww_store w) !! ww_position w) as [[id o]|] eqn:Hat.
    - eexists _, _. split; [done|]. right. split; [done|]. by apply lookup_lt_Some in Hat.
    - exfalso. apply lookup_ge_None in Hat. pose proof (wk_state _ Hw) as Hs. unfold state_ok in Hs.
      rewrite Ew, drop_ge in Hs by done. destruct Hs as [[o Ho]|(r' & Hr' & Hp & Ht)].
      + by apply not_elem_of_nil in Ho.
      + assert (r' = r) as -> by congruence. by rewrite Hp, Ht in Hready. }
  destruct Hnext as (item & position & Hrecv & Hitem).
  assert (Hturn : wait_turn receipt_id predicate w = mkWait (ww_store w) position (wait_item receipt_id item))
    by (unfold wait_turn; by rewrite Ew, Hrecv).
  destruct (wait_item receipt_id item) as [| |answer] eqn:Ei.
  - destruct (Hread (wait_turn receipt_id predicate w)) as [answer Ha]; [by rewrite Hturn..|].
    exists 2, answer. split; [lia|]. done.
  - destruct Hitem as [->|[-> Hlt]]; [done|].
    destruct (IH (unread (wait_turn receipt_id predicate w))
                (ltac:(rewrite Hturn; unfold unread in *; simpl; lia)) _ eq_refl Hw')
      as (n & answer & Hn & Ha); [by rewrite Hturn|done|].
    exists (S n), answer. split.
    + rewrite Hturn in Hn. unfold unread in *. simpl in Hn. lia.
    + by rewrite Nat.iter_succ_r.
  - exists 1, answer. split; [lia|]. simpl. by rewrite Hturn.
Qed.

Lemma wait_turns_ok n w : wait_ok w → wait_ok (Nat.iter n (wait_turn receipt_id predicate) w).
Proof. intros Hw. induction n as [|n IH]; [done|]. by apply wait_turn_ok. Qed.
End wait_invariant.

(** C30. Waiting for a write never oversleeps.  However the store's operations
    interleave with the wait, and however many changes it has missed, a wait
    whose receipt satisfies the predicate or is closed answers after at most two
    steps more than there are changes it has not read, with a receipt and the
    truth about it: reached exactly when the predicate holds, and otherwise only
    because the receipt is closed. *)
Theorem settled_answers (receipt_id : ReceiptId) (predicate : Receipt → bool) (w : WaitWorld) (r : Receipt)
    (Hreach : wait_reachable receipt_id predicate capacity w)
    (Hheld : MemoryStore.receipt receipt_id (ms_state (ww_store w)) = Some r)
    (Hready : predicate r || receipt_is_terminal r = true) :
  ∃ n r' reached,
    n ≤ unread w + 2 ∧
    ww_state (Nat.iter n (wait_turn receipt_id predicate) w) = WaitDone (Ok (r', reached)) ∧
    rc_receipt_id r' = receipt_id ∧ reached = predicate r' ∧ (reached = false → receipt_is_terminal r' = true).
Proof.
  apply wait_reachable_ok in Hreach as Hw. destruct (ready_ends receipt_id predicate r w Hw Hheld Hready) as (n & answer & Hn & Ha).
  pose proof (wait_turns_ok receipt_id predicate n w Hw) as Hw'. pose proof (wk_state _ _ _ Hw') as Hs. unfold state_ok in Hs.
  rewrite Ha in Hs. destruct answer as [[r' reached]|e]; [naive_solver|]. exfalso. destruct Hs as [_ Hnone].
  assert (Hstore : ∀ k, ww_store (Nat.iter k (wait_turn receipt_id predicate) w) = ww_store w).
  { induction k as [|k IH]; [done|]. simpl. unfold wait_turn at 1. repeat case_match; simpl; done. }
  rewrite Hstore in Hnone. unfold MemoryStore.receipt in Hheld. congruence.
Qed.

(** C31. Waiting for every destination to be terminal fails only for a cancelled
    write.  Whatever the store has been through, [settled(all_terminal())] either
    answers with a receipt whose route is settled and whose every desired
    destination has a terminal outcome, or reports a receipt that was cancelled,
    or reports that the receipt is gone, and then the store does not have it. *)
Theorem all_terminal_settles (receipt_id : ReceiptId) (w : WaitWorld)
    (answer : result PublicationError (Receipt * bool))
    (Hreach : wait_reachable receipt_id all_terminal capacity w) (Hdone : ww_state w = WaitDone answer) :
  match settled_answer answer with
  | Ok r => rc_route_settled r = true ∧
            ∀ session, session ∈ rc_desired_destinations r →
              ∃ outcome, rc_destinations r !! session = Some outcome ∧ outcome_is_terminal outcome = true
  | Err (NotReached r) => rc_outcome r = Cancelled
  | Err e => e = PublishPublication (ReceiptMissing receipt_id) ∧
             MemoryStore.receipt receipt_id (ms_state (ww_store w)) = None
  end.
Proof.
  apply wait_reachable_ok in Hreach as [_ _ _ _ _ Hs]. unfold state_ok in Hs. rewrite Hdone in Hs.
  destruct answer as [[r [|]]|e]; simpl; [..|by destruct Hs as [-> ?]].
  - destruct Hs as (Hp & _). symmetry in Hp. apply andb_true_iff in Hp as [Hset Hall]. split; [done|].
    intros session Hin. rewrite forallb_elem in Hall. specialize (Hall session ltac:(by apply elem_of_ordered_elements)).
    destruct (rc_destinations r !! session); [eauto|done].
  - destruct Hs as (Hp & Ht & _ & [Hk Hc]). destruct (rc_outcome r) eqn:Ho; [|done|..];
      [unfold receipt_is_terminal in Ht; by rewrite Ho in Ht; specialize (Ht eq_refl)|..]; exfalso;
      destruct (Hc ltac:(auto)) as [Hset Hall]; symmetry in Hp; apply andb_false_iff in Hp as [Hp|Hp]; try congruence;
      apply not_true_iff_false in Hp; apply Hp, forallb_elem; intros session Hin%elem_of_ordered_elements%Hk%elem_of_dom;
      destruct Hin as [o Hin]; rewrite Hin; by eapply Hall.
Qed.
End waiting.

Module SettlementWitness.
Import Sample StoreRuns.

(** A wait for all destinations on an authorized write: it reads once, the write
    is signed and delivered meanwhile, and it wakes up. *)
Definition delivered_ops : list StoreOperation :=
  [DoInstallSigned 1 1 1 7 (signed 7 10 1); DoBeginAttempt 1 1 1 7 "wss://a" 1;
   DoRecordOutcome 1 1 1 7 "wss://a" 1 (Acknowledged "saved")].

Definition while_waiting (ops : list StoreOperation) (w : WaitWorld) : WaitWorld :=
  foldl (λ w op, mkWait (perform 0 op (ww_store w)).2 (ww_position w) (ww_state w)) w ops.

Lemma while_waiting_reachable predicate ops w :
  wait_reachable 1 predicate 4 w → wait_reachable 1 predicate 4 (while_waiting ops w).
Proof. revert w. induction ops as [|op ops IH]; intros w Hw; [done|]. simpl. by apply IH, wait_store. Qed.

Definition parked (predicate : Receipt → bool) : WaitWorld :=
  wait_turn 1 predicate (wait_start (run 4 to_authorized)).

Lemma parked_reachable predicate : wait_reachable 1 predicate 4 (parked predicate).
Proof. apply wait_turns, wait_begins; [apply run_reachable|vm_compute; reflexivity]. Qed.

Definition woken : WaitWorld := while_waiting delivered_ops (parked all_acknowledged).

Lemma settled_answers_witness :
  ww_state (parked all_acknowledged) = WaitRecv ∧
  ∃ n r reached, n ≤ 5 ∧ ww_state (Nat.iter n (wait_turn 1 all_acknowledged) woken) = WaitDone (Ok (r, reached)).
Proof.
  split; [vm_compute; reflexivity|].
  destruct (settled_answers 4 1 all_acknowledged woken (receipt_of (ww_store woken)))
    as (n & r & reached & Hn & Ha & _).
  - apply while_waiting_reachable, parked_reachable.
  - vm_compute. reflexivity.
  - vm_compute. reflexivity.
  - exists n, r, reached. split; [exact Hn|exact Ha].
Defined.

(** The same wait on a write the application cancels. *)
Definition cancelled_wait : WaitWorld :=
  Nat.iter 2 (wait_turn 1 all_acknowledged) (while_waiting [DoCancel 1] (parked all_acknowledged)).

Example cancelled_not_reached :
  match ww_state cancelled_wait with
  | WaitDone answer => match settled_answer answer with Err (NotReached r) => rc_outcome r = Cancelled | _ => False end
  | _ => False
  end.
Proof. vm_compute. reflexivity. Qed.

Definition terminal_wait : WaitWorld :=
  Nat.iter 2 (wait_turn 1 all_terminal) (while_waiting delivered_ops (parked all_terminal)).

Lemma all_terminal_settles_witness :
  ∃ r, ww_state terminal_wait = WaitDone (Ok (r, true)) ∧ rc_route_settled r = true.
Proof.
  assert (Hr : wait_reachable 1 all_terminal 4 terminal_wait)
    by (apply wait_turns, wait_turns, while_waiting_reachable, parked_reachable).
  set (r := receipt_of (ww_store terminal_wait)).
  assert (Hd : ww_state terminal_wait = WaitDone (Ok (r, true))) by (vm_compute; reflexivity).
  pose proof (all_terminal_settles 4 1 terminal_wait (Ok (r, true)) Hr Hd) as H.
  exists r. split; [exact Hd|exact (proj1 H)].
Defined.
End SettlementWitness.
