(* ===== verification/Facade.v ===== *)
(** * The application's door ([crates/fava])

    [Fava] holds the publication owner with the store and the session it shares
    with the facade, or just these two in an assembly that selected no
    publication.  The publication expressions ([publish], [to(..)],
    [with_account(..)] and their combinations) convert one payload into a write
    intent, place it under an authority and hand it to the owner
    ([publication.rs]); the account and signer calls go to the session
    ([session.rs]); [build] assembles the parts from selected providers, refusing
    in its own order ([builder.rs]).

    The clock is read once per call.  Providers are parameters or opaque values;
    the observation owner [build] also creates is [Observer]'s. *)

From S2P Require Import Prelude Nostr Relay State Write Query Routing Receipts MemoryStore StoreInvariant.
From S2P Require Import Session Edits Publication PublicationProps Settlement Nip02 PublicationWitness.

(** ** Payloads *)

(** The implementors of [PublishPayload]. *)
Inductive PublishPayload :=
| PublishUnsigned (event : UnsignedEvent)
| PublishBuilder (builder : EventBuilder)
| PublishAuthored (builder : AuthoredEventBuilder)
| PublishSigned (event : Event)
| PublishEdit (edit : EventEdit).

Definition intent_result {A} (r : result WriteIntentError A) : result PublishError A :=
  match r with Ok a => Ok a | Err e => Err (PublishIntent e) end.

Definition merge_builder_routing (builder_routing facade_routing : WriteRouting) : result PublishError WriteRouting :=
  if is_explicit builder_routing && is_explicit facade_routing then Err (PublishIntent ConflictingExplicitRoutes)
  else Ok (match builder_routing with Automatic => facade_routing | Explicit _ => builder_routing end).

Definition explicit_routing (relays : list RelayUrl) : result PublishError WriteRouting :=
  intent_result (explicit relays).

Section intents.
Context `{Nostr} (now : Timestamp).

(** The tail the two builder implementations share. *)
Definition authored_intent (builder : AuthoredEventBuilder) (facade_routing : WriteRouting)
    : result PublishError WriteIntent :=
  '(event, builder_routing) ←
    match into_event_and_routing builder with
    | Ok built => Ok built
    | Err e => Err (PublishIntent (intent_error_from e))
    end;
  routing ← merge_builder_routing builder_routing facade_routing;
  intent_result (intent_event now event routing).

Definition into_intent (payload : PublishPayload) (author : option PublicKey) (routing : WriteRouting)
    : result PublishError WriteIntent :=
  match payload with
  | PublishUnsigned event => intent_result (intent_event now event routing)
  | PublishBuilder builder =>
      author ← ok_or author MissingAuthor;
      authored_intent (builder_by author builder) routing
  | PublishAuthored builder => authored_intent builder routing
  | PublishSigned event => intent_result (intent_presigned now event routing)
  | PublishEdit edit =>
      author ← ok_or author MissingAuthor;
      intent_result (intent_edit_as edit author routing)
  end.
End intents.

(** ** The engine *)

Section facade.
Context {signer future A : Type} `{Nostr} `{!Signer signer future}.
Local Notation Pub := (@Publication signer future).
Local Notation Sess := (@Session signer).

Record Fava := mkFava {
  (** the owner with the store and session it shares, or the two alone *)
  fv_core : Pub + MemoryWriteStore * Sess;
  fv_authentication : bool;
  fv_diagnostics_capacity : nat
}.

Definition fava_publication (f : Fava) : option Pub := match fv_core f with inl p => Some p | inr _ => None end.
Definition fava_store (f : Fava) : MemoryWriteStore := match fv_core f with inl p => pn_store p | inr (s, _) => s end.
Definition fava_session (f : Fava) : Sess := match fv_core f with inl p => pn_session p | inr (_, s) => s end.

Definition with_core (core : Pub + MemoryWriteStore * Sess) (f : Fava) : Fava :=
  mkFava core (fv_authentication f) (fv_diagnostics_capacity f).
Definition put_store (s : MemoryWriteStore) (f : Fava) : Fava :=
  with_core (match fv_core f with inl p => inl (pn_set_store s p) | inr (_, ses) => inr (s, ses) end) f.
Definition put_session (s : Sess) (f : Fava) : Fava :=
  with_core (match fv_core f with inl p => inl (set_session s p) | inr (st, _) => inr (st, s) end) f.

(** One accepted publication obligation ([Write]). *)
Record WriteHandle := mkWrite { wr_write_id : WriteId; wr_receipt_id : ReceiptId }.

Definition write_receipt (w : WriteHandle) (f : Fava) : result PublishError Receipt :=
  ok_or (MemoryStore.receipt (wr_receipt_id w) (ms_state (fava_store f)))
    (PublishPublication (ReceiptMissing (wr_receipt_id w))).

(** *** Publication expressions *)

Context (runtime : bool) (now : Timestamp).
Context (event_source : Query → result string SourceSnapshot).
Context (evaluator : Query → list SourceSnapshot → result string QuerySnapshot).
Context (routers : list (Router A)).
Local Notation accept := (publication_accept runtime now event_source evaluator routers).

Definition publish_scoped (payload : PublishPayload) (author : option PublicKey) (routing : WriteRouting)
    (access : Authority) (f : Fava) : outcome (result PublishError WriteHandle) * Fava :=
  match into_intent now payload author routing with
  | Err e => (Returned (Err e), f)
  | Ok intent =>
      let intent := under intent access in
      match fv_core f with
      | inr _ => (Returned (Err (PublishPublication NotConfigured)), f)
      | inl publication =>
          let '(accepted, publication) := accept intent publication in
          (match accepted with
           | Panicked => Panicked
           | Returned (Err e) => Returned (Err (PublishPublication e))
           | Returned (Ok accepted) => Returned (Ok (mkWrite (aw_write_id accepted) (aw_receipt_id accepted)))
           end, with_core (inl publication) f)
      end
  end.

(** [Fava::publish]. *)
Definition publish (payload : PublishPayload) (f : Fava) : outcome (result PublishError WriteHandle) * Fava :=
  publish_scoped payload (session_current_account (fava_session f)) Automatic Unauthenticated f.

Record PublishAs := mkPublishAs { pa_account : PublicKey; pa_routing : WriteRouting }.
Record PublishTo := mkPublishTo { pt_routing : WriteRouting }.

Definition with_account (account : PublicKey) : PublishAs := mkPublishAs account Automatic.
Definition to (relays : list RelayUrl) : result PublishError PublishTo :=
  routing ← explicit_routing relays; Ok (mkPublishTo routing).
Definition publish_as_to (relays : list RelayUrl) (scope : PublishAs) : result PublishError PublishAs :=
  routing ← explicit_routing relays; Ok (mkPublishAs (pa_account scope) routing).
Definition publish_to_with_account (account : PublicKey) (scope : PublishTo) : PublishAs :=
  mkPublishAs account (pt_routing scope).

(** [PublishAs::publish] and [PublishTo::publish]. *)
Definition publish_as (scope : PublishAs) (payload : PublishPayload) (f : Fava)
    : outcome (result PublishError WriteHandle) * Fava :=
  publish_scoped payload (Some (pa_account scope)) (pa_routing scope) (As (pa_account scope)) f.
Definition publish_to (scope : PublishTo) (payload : PublishPayload) (f : Fava)
    : outcome (result PublishError WriteHandle) * Fava :=
  publish_scoped payload (session_current_account (fava_session f)) (pt_routing scope) Unauthenticated f.

(** *** The other calls of [lib.rs] *)

Definition fava_receipt (receipt_id : ReceiptId) (f : Fava) : result PublicationError (option Receipt) :=
  publication ← ok_or (fava_publication f) NotConfigured;
  Ok (publication_receipt publication receipt_id).

(** [cancel_write] goes to the store, past the owner. *)
Definition cancel_write (receipt_id : ReceiptId) (f : Fava) : result WriteStoreError bool * Fava :=
  let '(r, s) := MemoryStore.cancel receipt_id (fava_store f) in
  (match r with Ok receipt => Ok (bool_decide (is_Some receipt)) | Err e => Err e end, put_store s f).

Definition open_receipts (f : Fava) : list Receipt := recover_open (ms_state (fava_store f)).

(** A call of the owner, refused when there is none. *)
Definition on_publication {B} (op : @PubOp signer future B) (f : Fava)
    : outcome (result PublicationError B) * Fava :=
  match fv_core f with
  | inr _ => (Returned (Err NotConfigured), f)
  | inl publication => let '(r, publication) := op publication in (r, with_core (inl publication) f)
  end.
Definition cancel_publication (receipt_id : ReceiptId) : Fava → outcome (result PublicationError (option Receipt)) * Fava :=
  on_publication (publication_cancel receipt_id).
Definition fava_remove_receipt (receipt_id : ReceiptId) : Fava → outcome (result PublicationError bool) * Fava :=
  on_publication (publication_remove_receipt receipt_id).

(** *** Accounts and signers ([session.rs]) *)

Definition on_session {B} (op : @SessionOp signer B) (f : Fava) : result SessionError B * Fava :=
  let '(r, s) := op (fava_session f) in (r, put_session s f).

Definition fava_add_account (k : PublicKey) := on_session (add_account k).
Definition fava_select_account (k : PublicKey) := on_session (select_account k).
Definition fava_clear_current_account := on_session clear_current_account.
Definition fava_remove_account (k : PublicKey) := on_session (remove_account k).
Definition fava_add_signer (sg : signer) := on_session (add_signer sg).
Definition fava_replace_signer (sg : signer) := on_session (replace_signer sg).
Definition fava_remove_signer (k : PublicKey) := on_session (remove_signer k).

(** [sign] looks the signer up and then invokes it; the session may change in
    between, and the future it hands over is awaited. *)
Definition sign_check (event : UnsignedEvent) (f : Fava) : result SignerError N :=
  let author := un_pubkey event in
  '(generation, availability) ← ok_or (session_signer (fava_session f) author)
    (SignerUnavailable ("no signer attached for " +:+ public_key_to_hex author));
  _ ← ensure (match availability with Available => true | Unavailable => false end)
        (SignerUnavailable ("signer attached for " +:+ public_key_to_hex author +:+ " is unavailable"));
  Ok generation.
Definition sign_invoke (event : UnsignedEvent) (generation : N) (f : Fava) : result SignerError future :=
  let author := un_pubkey event in
  ok_or (invoke_signer (fava_session f) author generation event)
    (SignerUnavailable ("signer attachment changed for " +:+ public_key_to_hex author)).
End facade.

(** ** Assembly ([builder.rs]) *)

Inductive BuildError :=
| MissingEventCache
| MissingWriteStore
| MissingQueryEvaluator
| MissingPublisher
| MissingDeliveryPolicy
| MissingAuthenticationTransport
| BuildRuntime (reason : string)
| MissingPublicationTransport
| BuildPublication (reason : string)
| BuildSession (e : SessionError).

Section assembly.
Context {signer future A transport publisher policy : Type} `{Nostr} `{!Signer signer future}.
Local Notation Pub := (@Publication signer future).

Record FavaBuilder := mkFavaBuilder {
  fb_event_cache : option (Query → result string SourceSnapshot);
  fb_write_store : option MemoryWriteStore;
  fb_evaluator : option (Query → list SourceSnapshot → result string QuerySnapshot);
  fb_transport : option transport;
  fb_routers : list (Router A);
  fb_signers : list signer;
  fb_appliers : list HostApplier;
  fb_publisher : option publisher;
  fb_delivery : option policy;
  fb_authentication : option policy;
  fb_diagnostics_capacity : option nat
}.

(** What [build] leaves behind whatever it returns: whether the authentication
    owner has begun to answer relays, and the write store. *)
Record BuildEffects := mkEffects { be_answering : bool; be_store : option MemoryWriteStore }.

Definition publication_selected (b : FavaBuilder) : bool :=
  bool_decide (is_Some (fb_publisher b)) || bool_decide (is_Some (fb_delivery b)) ||
  match fb_signers b with [] => false | _ => true end || match fb_appliers b with [] => false | _ => true end.

(** [runtime]: a Tokio runtime is running.  [answer]: whether the engine's
    runtime registers the task of [answer_requests]. *)
Context (runtime : bool) (now : Timestamp) (answer : result string unit).

Definition build_authentication (b : FavaBuilder) : result BuildError bool :=
  match fb_authentication b, fb_transport b with
  | Some _, Some _ => match answer with Ok _ => Ok true | Err reason => Err (BuildRuntime reason) end
  | Some _, None => Err MissingAuthenticationTransport
  | None, _ => Ok false
  end.

(** The publication branch up to [recover]. *)
Definition build_owner (b : FavaBuilder) (store : MemoryWriteStore) (session : @Session signer)
    : result BuildError Pub :=
  _ ← ok_or (fb_publisher b) MissingPublisher;
  _ ← ok_or (fb_delivery b) MissingDeliveryPolicy;
  _ ← ok_or (fb_transport b) MissingPublicationTransport;
  match Publication_new store (fb_appliers b) session with
  | Ok publication => Ok publication
  | Err e => Err (BuildPublication (publication_error_text e))
  end.

(** Everything selected up to the publication branch. *)
Record Selected := mkSelected {
  sel_event_source : Query → result string SourceSnapshot;
  sel_store : MemoryWriteStore;
  sel_evaluator : Query → list SourceSnapshot → result string QuerySnapshot;
  sel_session : @Session signer;
  sel_answering : bool
}.

Definition build_selected (b : FavaBuilder) : result BuildError Selected :=
  event_source ← ok_or (fb_event_cache b) MissingEventCache;
  store ← ok_or (fb_write_store b) MissingWriteStore;
  evaluator ← ok_or (fb_evaluator b) MissingQueryEvaluator;
  session ← match Session_new (fb_signers b) with Ok session => Ok session | Err e => Err (BuildSession e) end;
  answering ← build_authentication b;
  Ok (mkSelected event_source store evaluator session answering).

Definition build (b : FavaBuilder) : outcome (result BuildError (@Fava signer future)) * BuildEffects :=
  match build_selected b with
  | Err e => (Returned (Err e), mkEffects false (fb_write_store b))
  | Ok sel =>
      let effects store := mkEffects (sel_answering sel) (Some store) in
      let assembled core := mkFava core (sel_answering sel) (default 256 (fb_diagnostics_capacity b)) in
      if publication_selected b then
        match build_owner b (sel_store sel) (sel_session sel) with
        | Err e => (Returned (Err e), effects (sel_store sel))
        | Ok publication =>
            let '(recovered, publication) :=
              recover runtime now (sel_event_source sel) (sel_evaluator sel) (fb_routers b) publication in
            (match recovered with
             | Panicked => Panicked
             | Returned (Err e) => Returned (Err (BuildPublication (publication_error_text e)))
             | Returned (Ok _) => Returned (Ok (assembled (inl publication)))
             end, effects (pn_store publication))
        end
      else (Returned (Ok (assembled (inr (sel_store sel, sel_session sel)))), effects (sel_store sel))
  end.
End assembly.

(** ** What a publication expression asks for *)

(** The scopes of one expression: an account, explicit relays, both or neither. *)
Record Door := mkDoor { door_account : option PublicKey; door_relays : option (list RelayUrl) }.

(** Author, kind, time, tags and content. *)
Definition Stated : Type := PublicKey * Kind * Timestamp * list Tag * string.

Definition value_stated (v : EventValue) : Stated :=
  (value_author v, value_kind v, value_created_at v, value_tags v, value_content v).

(** What a payload states, once an authorless builder has its author. *)
Definition payload_stated (payload : PublishPayload) (author : option PublicKey) : option Stated :=
  match payload with
  | PublishUnsigned e => Some (un_pubkey e, un_kind e, un_created_at e, un_tags e, un_content e)
  | PublishBuilder b =>
      (λ author, (author, eb_kind b, eb_created_at b, eb_tags b, eb_content b)) <$> author
  | PublishAuthored b => Some (ab_author b, ab_kind b, ab_created_at b, ab_tags b, ab_content b)
  | PublishSigned e => Some (ev_pubkey e, ev_kind e, ev_created_at e, ev_tags e, ev_content e)
  | PublishEdit _ => None
  end.

(** The relays a builder has collected. *)
Definition payload_routing (payload : PublishPayload) : WriteRouting :=
  match payload with
  | PublishBuilder b => eb_routing b
  | PublishAuthored b => ab_routing b
  | _ => Automatic
  end.

Definition asked_routing (door : Door) (payload : PublishPayload) : WriteRouting :=
  match payload_routing payload with
  | Explicit relays => Explicit relays
  | Automatic => match door_relays door with
                 | Some relays => Explicit (first_occurrences relays)
                 | None => Automatic
                 end
  end.

Definition asked_access (door : Door) : Authority :=
  match door_account door with Some account => As account | None => Unauthenticated end.

Lemma explicit_Ok relays routing : explicit relays = Ok routing → routing = Explicit (first_occurrences relays).
Proof.
  intros E. assert (Hraw : length relays ≤ MAX_RAW_EXPLICIT_RELAYS).
  { unfold explicit, refuse_raw_input in E. apply bind_Ok in E as ([] & Hr%ensure_Ok & _). by apply bool_decide_eq_true in Hr. }
  rewrite explicit_unfold in E by done. repeat case_bool_decide; try done. by injection E as <-.
Qed.

Lemma intent_result_Ok {A} (r : result WriteIntentError A) a : intent_result r = Ok a → r = Ok a.
Proof. destruct r; [|done]. by intros [= ->]. Qed.

Section doors.
Context {signer future A : Type} `{Nostr} `{!NostrValueLaws} `{!Signer signer future}.
Local Notation Fav := (@Fava signer future).
Context (runtime : bool) (now : Timestamp).
Context (event_source : Query → result string SourceSnapshot).
Context (evaluator : Query → list SourceSnapshot → result string QuerySnapshot).
Context (routers : list (Router A)).
Local Notation publish := (publish runtime now event_source evaluator routers).
Local Notation publish_to := (publish_to runtime now event_source evaluator routers).
Local Notation publish_as := (publish_as runtime now event_source evaluator routers).
Local Notation publish_scoped := (publish_scoped runtime now event_source evaluator routers).

Definition door_author (door : Door) (f : Fav) : option PublicKey :=
  match door_account door with Some account => Some account | None => session_current_account (fava_session f) end.

(** The expression an application writes for a door. *)
Definition publish_through (door : Door) (payload : PublishPayload) (f : Fav)
    : outcome (result PublishError WriteHandle) * Fav :=
  match door_account door, door_relays door with
  | None, None => publish payload f
  | None, Some relays =>
      match to relays with Ok scope => publish_to scope payload f | Err e => (Returned (Err e), f) end
  | Some account, None => publish_as (with_account account) payload f
  | Some account, Some relays =>
      match publish_as_to relays (with_account account) with
      | Ok scope => publish_as scope payload f
      | Err e => (Returned (Err e), f)
      end
  end.

(** The scopes may be given in either order. *)
Lemma scopes_commute account relays :
  publish_as_to relays (with_account account) = (scope ← to relays; Ok (publish_to_with_account account scope)).
Proof. unfold publish_as_to, to. by destruct (explicit_routing relays). Qed.

(** Every door is one scoped publication. *)
Lemma publish_through_scoped door payload f w f' :
  publish_through door payload f = (Returned (Ok w), f') →
  publish_scoped payload (door_author door f)
    (match door_relays door with Some relays => Explicit (first_occurrences relays) | None => Automatic end)
    (asked_access door) f = (Returned (Ok w), f').
Proof.
  unfold publish_through, door_author, asked_access. destruct (door_account door), (door_relays door) as [relays|]; try done.
  - unfold publish_as_to, explicit_routing. destruct (explicit relays) as [routing|] eqn:E; [|done].
    apply explicit_Ok in E as ->. done.
  - unfold to, explicit_routing. destruct (explicit relays) as [routing|] eqn:E; [|done].
    apply explicit_Ok in E as ->. done.
Qed.

(** The intent carries what the payload states and the merged route. *)
Lemma intent_event_Ok event routing intent :
  intent_event now event routing = Ok intent →
  intent = mkIntent (PayloadEvent (unsigned_ensure_id event)) routing Unauthenticated.
Proof.
  unfold intent_event. intros (? & _ & (? & _ & (? & _ & (? & _ & E)%bind_Ok)%bind_Ok)%bind_Ok)%bind_Ok.
  by injection E as <-.
Qed.

Lemma ensure_id_stated u : value_stated (Unsigned (unsigned_ensure_id u)) = value_stated (Unsigned u).
Proof. unfold value_stated. simpl. by destruct (ensure_id_fields u) as (_ & -> & -> & -> & -> & ->). Qed.

Definition intent_value (intent : WriteIntent) : option EventValue :=
  match in_payload intent with
  | PayloadEvent event => Some (Unsigned event)
  | PayloadPresigned event => Some (Signed event)
  | PayloadEdit _ _ => None
  end.

Lemma authored_intent_Ok b facade intent :
  authored_intent now b facade = Ok intent →
  in_routing intent = match ab_routing b with Automatic => facade | Explicit l => Explicit l end ∧
  ∃ v, intent_value intent = Some v ∧ is_signed v = false ∧
       value_stated v = (ab_author b, ab_kind b, ab_created_at b, ab_tags b, ab_content b).
Proof.
  unfold authored_intent, into_event_and_routing, build_event. intros ([event routing] & Hb & E)%bind_Ok.
  assert (Hev : event = unsigned_event b ∧ routing = ab_routing b).
  { destruct (bool_decide (length (ab_tags b) ≤ MAX_TAGS)); [|done]. simpl in Hb.
    destruct (unsigned_json_len (unsigned_event b)) as [bytes|]; [|done].
    destruct (bool_decide (bytes ≤ MAX_EVENT_BYTES)); [|done]. by injection Hb as <- <-. }
  destruct Hev as [-> ->]. apply bind_Ok in E as (merged & Hm & E%intent_result_Ok%intent_event_Ok). subst intent.
  split.
  - unfold merge_builder_routing in Hm. destruct (is_explicit _ && is_explicit _); [done|]. injection Hm as <-.
    by destruct (ab_routing b).
  - eexists. split; [done|]. split; [done|]. rewrite ensure_id_stated. unfold unsigned_event.
    by rewrite ensure_id_stated.
Qed.

Lemma into_intent_Ok payload author facade intent stated :
  into_intent now payload author facade = Ok intent → payload_stated payload author = Some stated →
  in_routing intent = match payload_routing payload with Automatic => facade | Explicit l => Explicit l end ∧
  ∃ v, intent_value intent = Some v ∧ value_stated v = stated ∧
       match payload with PublishSigned e => v = Signed e | _ => is_signed v = false end.
Proof.
  destruct payload as [event|b|b|event|edit]; simpl; intros Hi Hst; try done.
  - injection Hst as <-. apply intent_result_Ok, intent_event_Ok in Hi as ->. simpl. split; [done|].
    eexists. split; [done|]. by rewrite ensure_id_stated.
  - destruct author as [author|]; [|done]. injection Hst as <-.
    apply authored_intent_Ok in Hi as [Hr (v & ? & ? & ?)]. split; [by rewrite Hr|]. eauto.
  - injection Hst as <-. apply authored_intent_Ok in Hi as [Hr (v & ? & ? & ?)]. split; [by rewrite Hr|]. eauto.
  - injection Hst as <-. unfold intent_presigned in Hi.
    apply intent_result_Ok, bind_Ok in Hi as (? & _ & (? & _ & (? & _ & (? & _ & E)%bind_Ok)%bind_Ok)%bind_Ok).
    injection E as <-. simpl. split; [done|]. by eexists.
Qed.

(** ** Acceptance of whole events *)

Lemma accept_event_Ok intent v s a s' :
  intent_value intent = Some v → MemoryStore.accept intent s = (Ok a, s') →
  let id := ws_next_identity (ms_state s) in
  aw_receipt_id a = id ∧ aw_write_id a = id ∧ lw_event (aw_current a) = v ∧
  ws_writes (ms_state s') =
    <[id := open_receipt id id (aw_current a) (in_routing intent) (in_access intent)]> (ws_writes (ms_state s)).
Proof.
  intros Hv Hrun id.
  assert (Hwp : wp (MemoryStore.accept intent) (λ r s', ∀ a, r = Ok a →
    aw_receipt_id a = id ∧ aw_write_id a = id ∧ lw_event (aw_current a) = v ∧
    ws_writes (ms_state s') =
      <[id := open_receipt id id (aw_current a) (in_routing intent) (in_access intent)]> (ws_writes (ms_state s))) s).
  { unfold MemoryStore.accept. do 4 op_step ltac:(done). unfold intent_value in Hv.
    destruct (in_payload intent) as [event|edit author|event]; [|done|]; injection Hv as <-; op_step idtac;
      repeat op_step ltac:(done); intros ? [= <-]; simpl;
      match goal with E : LocalWriteEvent_new _ _ = Ok _ |- _ => destruct (local_new_Ok _ _ _ E) as (-> & _) end; done. }
  unfold wp in Hwp. rewrite Hrun in Hwp. by apply Hwp.
Qed.

(** An owner of a write that has none yet: registered and started, nothing else. *)
Definition owner_started (id : ReceiptId) (p p' : @Publication signer future) : Prop :=
  pn_tasks p' = pn_tasks p ++ [RunOwner id None] ∧ pn_cancellations p' = {[id]} ∪ pn_cancellations p ∧
  pn_session p' = pn_session p ∧ pn_appliers p' = pn_appliers p ∧ pn_stale p' = pn_stale p ∧
  pn_cancelled p' = pn_cancelled p ∧ pn_streams p' = pn_streams p ∧ pn_next_stream p' = pn_next_stream p.

(** The owner's acceptance of a whole event. *)
Lemma publication_accept_event intent v (p p' : @Publication signer future) a :
  intent_value intent = Some v →
  publication_accept runtime now event_source evaluator routers intent p = (Returned (Ok a), p') →
  MemoryStore.accept intent (pn_store p) = (Ok a, pn_store p') ∧
  (aw_receipt_id a ∉ pn_cancellations p → owner_started (aw_receipt_id a) p p').
Proof.
  intros Hv. unfold publication_accept, check_runtime. unfold mbind at 1, pub_bind at 1, pub_try at 1, pub_call at 1.
  destruct (ensure runtime RuntimeUnavailable); [|done].
  assert (Hgo : (accepted ← pub_store_try (MemoryStore.accept intent);
                 _ ← start_owned (aw_receipt_id accepted) None; mret accepted) p = (Returned (Ok a), p') →
    MemoryStore.accept intent (pn_store p) = (Ok a, pn_store p') ∧
    (aw_receipt_id a ∉ pn_cancellations p → owner_started (aw_receipt_id a) p p')).
  { unfold pub_store_try, pub_store, start_owned, mbind, pub_bind, pub_try, pub_call, pub_get, mret, pub_ret.
    destruct (MemoryStore.accept intent (pn_store p)) as [[a'|e] s'] eqn:E; [|done]. simpl.
    case_bool_decide as Hin; simpl; intros [= <- <-]; [by split|]. split; [done|]. intros _. by split_and!. }
  unfold intent_value in Hv. by destruct (in_payload intent).
Qed.

(** C29. An application publishes what it asked for.  When an expression (plain,
    to explicit relays, under an account, or both) accepts an event, a builder
    or a signed event, the store holds one new open receipt under the returned
    identity: its event says what the payload says, by the payload's own author
    or, for an authorless builder, the named account or the current one; it goes
    to the builder's relays, to the named ones in order and without repetition,
    or is routed automatically; its work runs as the named account and otherwise
    unauthenticated, whoever the author is.  Its identity had no owner before; now
    one task has been started for it and it is registered, and no other receipt,
    task, registration or stream and nothing of the session has changed. *)
Theorem published_as_asked (capacity : nat) (door : Door) (payload : PublishPayload) (f f' : Fav)
    (stranded : list EventCoordinate) (p : @Publication signer future) (w : WriteHandle) (stated : Stated)
    (Hconfigured : fv_core f = inl p) (Hreach : owner_reachable (A := A) capacity stranded p)
    (Hstated : payload_stated payload (door_author door f) = Some stated)
    (Hrun : publish_through door payload f = (Returned (Ok w), f')) :
  MemoryStore.receipt (wr_receipt_id w) (ms_state (fava_store f)) = None ∧
  (∃ r, write_receipt w f' = Ok r ∧
     value_stated (lw_event (rc_current r)) = stated ∧
     match payload with
     | PublishSigned e => lw_event (rc_current r) = Signed e
     | _ => is_signed (lw_event (rc_current r)) = false
     end ∧
     rc_routing r = asked_routing door payload ∧ rc_access r = asked_access door ∧ rc_outcome r = Open) ∧
  (∀ id, id ≠ wr_receipt_id w →
     MemoryStore.receipt id (ms_state (fava_store f')) = MemoryStore.receipt id (ms_state (fava_store f))) ∧
  wr_receipt_id w ∉ pn_cancellations p ∧
  ∃ p', f' = mkFava (inl p') (fv_authentication f) (fv_diagnostics_capacity f) ∧ owner_started (wr_receipt_id w) p p'.
Proof.
  apply publish_through_scoped in Hrun. unfold Facade.publish_scoped in Hrun.
  destruct (into_intent now payload _ _) as [intent|] eqn:Hi; [|done]. rewrite Hconfigured in Hrun.
  destruct (into_intent_Ok _ _ _ _ _ Hi Hstated) as (Hroute & v & Hv & Hval & Hsig).
  set (asked := under intent (asked_access door)) in *. assert (Hv' : intent_value asked = Some v) by done.
  destruct (publication_accept _ _ _ _ _ asked p) as [[[a|e]|] p'] eqn:Ha; [|done..]. injection Hrun as <- <-.
  destruct (publication_accept_event asked v p p' a Hv' Ha) as (Hs & Hown).
  destruct (accept_event_Ok asked v _ _ _ Hv' Hs) as (Hid & Hw & Hev & Hwrites). simpl in *.
  destruct (owner_reachable_ok capacity stranded p Hreach) as (Hstore & Hreg & _).
  destruct (reachable_ok _ _ Hstore) as (Hok & _ & _).
  assert (Hfresh : aw_receipt_id a ∉ pn_cancellations p).
  { rewrite Hid. intros Hin%Hreg. unfold next_id in Hin. lia. }
  unfold fava_store, write_receipt, MemoryStore.receipt. rewrite Hconfigured. simpl.
  split_and!; [..|done|by eexists; split; [|apply Hown]]; rewrite Hid in *.
  - destruct (ws_writes (ms_state (pn_store p)) !! ws_next_identity (ms_state (pn_store p))) as [r|] eqn:Hr; [|done].
    pose proof (ro_issued _ _ _ (so_writes _ Hok _ _ Hr)). lia.
  - eexists. unfold fava_store. simpl. rewrite Hwrites, lookup_insert_eq. split; [done|]. simpl. rewrite Hev, Hroute.
    split_and!; [done|by destruct payload|..|done|done]. unfold asked_routing. by destruct (payload_routing payload).
  - intros id Hne. by rewrite Hwrites, lookup_insert_ne.
Qed.

(** *** Refusals *)

Definition authorless (payload : PublishPayload) : bool :=
  match payload with PublishBuilder _ | PublishEdit _ => true | _ => false end.

Lemma into_intent_missing payload author routing :
  into_intent now payload author routing = Err MissingAuthor ↔ authorless payload = true ∧ author = None.
Proof.
  assert (Hres : ∀ B (r : result WriteIntentError B), intent_result r ≠ Err MissingAuthor) by (by intros B []).
  assert (Haut : ∀ b, authored_intent now b routing ≠ Err MissingAuthor).
  { intros b. unfold authored_intent. destruct (into_event_and_routing b) as [[event r]|]; [|done]. simpl.
    unfold merge_builder_routing. destruct (_ && _); [done|]. apply Hres. }
  destruct payload; simpl; try (split; [intros E; by apply Hres in E|naive_solver]);
    try (split; [intros E; by apply Haut in E|naive_solver]); (destruct author; simpl; [|by split]);
    split; [intros E; by apply Haut in E|naive_solver|intros E; by apply Hres in E|naive_solver].
Qed.

(** An authorless payload is refused for want of an author exactly when the
    expression names no account and none is selected, and a payload that states
    its author never is; the engine is then as it was. *)
Theorem missing_author_exact door payload (f f' : Fav) :
  match door_relays door with Some relays => is_ok (explicit relays) | None => true end = true →
  publish_through door payload f = (Returned (Err MissingAuthor), f') ↔
  f' = f ∧ authorless payload = true ∧ door_author door f = None.
Proof.
  intros Hrelays.
  set (routing := match door_relays door with Some relays => Explicit (first_occurrences relays) | None => Automatic end).
  assert (Hthrough : publish_through door payload f =
                     publish_scoped payload (door_author door f) routing (asked_access door) f).
  { unfold publish_through, door_author, asked_access, routing in *. destruct (door_account door), (door_relays door) as [relays|];
      try done; unfold publish_as_to, to, explicit_routing; destruct (explicit relays) as [r|] eqn:E; try done;
      by apply explicit_Ok in E as ->. }
  rewrite Hthrough. unfold Facade.publish_scoped.
  pose proof (into_intent_missing payload (door_author door f) routing) as Hm.
  destruct (into_intent now payload (door_author door f) routing) as [intent|e].
  - split; [|intros (_ & H1 & H2); discriminate (proj2 Hm (conj H1 H2))].
    destruct (fv_core f) as [p|]; [|done]. destruct (publication_accept _ _ _ _ _ _ p) as [[[a|e]|] p']; done.
  - split.
    + intros [= -> <-]. split; [done|]. by apply Hm.
    + intros (-> & H1 & H2). by injection (proj2 Hm (conj H1 H2)) as ->.
Qed.
End doors.

(** ** Assembly *)

Section assemblies.
Context {signer future A transport publisher policy : Type} `{Nostr} `{!Signer signer future}.
Context (runtime : bool) (now : Timestamp) (answer : result string unit).
Local Notation build := (build (future := future) runtime now answer).

(** What a built engine was assembled from: a cache, a store and an evaluator
    were selected; an owner is there exactly when some part of publication was
    selected, and then a publisher, a policy and a transport were; relays are
    answered exactly when a policy was selected, and then over a transport; the
    engine's store is the one left behind. *)
Theorem build_assembles (b : @FavaBuilder signer A transport publisher policy) f effects :
  build b = (Returned (Ok f), effects) →
  is_Some (fb_event_cache b) ∧ is_Some (fb_write_store b) ∧ is_Some (fb_evaluator b) ∧
  (is_Some (fava_publication f) ↔ publication_selected b = true) ∧
  (publication_selected b = true → is_Some (fb_publisher b) ∧ is_Some (fb_delivery b) ∧ is_Some (fb_transport b)) ∧
  fv_authentication f = bool_decide (is_Some (fb_authentication b)) ∧
  (is_Some (fb_authentication b) → is_Some (fb_transport b)) ∧
  effects = mkEffects (fv_authentication f) (Some (fava_store f)).
Proof.
  unfold Facade.build. destruct (build_selected answer b) as [sel|] eqn:Hsel; [|done].
  unfold build_selected in Hsel. apply bind_Ok in Hsel as (cache & Hcache%ok_or_Ok & Hsel).
  apply bind_Ok in Hsel as (store & Hstore%ok_or_Ok & Hsel). apply bind_Ok in Hsel as (ev & Hev%ok_or_Ok & Hsel).
  apply bind_Ok in Hsel as (session & _ & Hsel). apply bind_Ok in Hsel as (answering & Hauth & [= <-]). simpl.
  assert (Ha : answering = bool_decide (is_Some (fb_authentication b)) ∧
               (is_Some (fb_authentication b) → is_Some (fb_transport b))).
  { unfold build_authentication in Hauth. destruct (fb_authentication b), (fb_transport b); try done.
    - destruct answer; [|done]. injection Hauth as <-. rewrite bool_decide_eq_true_2; eauto.
    - injection Hauth as <-. split; [by rewrite bool_decide_eq_false_2 by (by intros [])|by intros []].
    - injection Hauth as <-. split; [by rewrite bool_decide_eq_false_2 by (by intros [])|by intros []]. }
  destruct Ha as [Ha1 Ha2]. destruct (publication_selected b) eqn:Hps.
  - unfold build_owner. destruct (fb_publisher b) as [pu|]; [|done]. destruct (fb_delivery b) as [de|]; [|done].
    destruct (fb_transport b) as [tr|]; [|done]. simpl.
    destruct (Publication_new store (fb_appliers b) session) as [p|]; [|done].
    destruct (recover runtime now cache ev (fb_routers b) p) as [[[n|]|] p']; try done. intros [= <- <-]. simpl.
    unfold fava_publication. simpl. rewrite Hcache, Hstore, Hev. naive_solver.
  - intros [= <- <-]. simpl. unfold fava_publication. simpl. rewrite Hcache, Hstore, Hev.
    split_and!; eauto; try done.
Qed.
End assemblies.

(** ** Concrete expressions *)

Module FacadeWitness.
Import EditSample SessionWitness Nip02Witness PublicationWitness.
Local Notation Engine := (@Fava TestSigner (result SignerError Event)).

Definition sample_fava : Engine := mkFava (inl the_owner) false 256.
Definition publishing (now : Timestamp) : Door → PublishPayload → Engine → outcome (result PublishError WriteHandle) * Engine :=
  publish_through (signer := TestSigner) (future := result SignerError Event) (A := unit)
    true now contact_cache standard_evaluator [].

(** A note without an author, as account 2, to two relays named thrice. *)
Definition note : PublishPayload := PublishBuilder (builder_content "gm" (EventBuilder_new 15 1)).
Definition as_two : Door := mkDoor (Some 2%N) (Some ["wss://a"; "wss://b"; "wss://a"]%string).

Lemma published_as_asked_witness :
  ∃ r, write_receipt (mkWrite 1 1) (publishing 20 as_two note sample_fava).2 = Ok r ∧
    value_stated (lw_event (rc_current r)) = (2%N, 1%N, 15%N, [], "gm"%string) ∧
    rc_routing r = Explicit ["wss://a"; "wss://b"]%string ∧ rc_access r = As 2.
Proof.
  destruct (published_as_asked (A := unit) true 20 contact_cache standard_evaluator [] 4 as_two note sample_fava
    (publishing 20 as_two note sample_fava).2 [] the_owner (mkWrite 1 1) (2%N, 1%N, 15%N, [], "gm"%string))
    as (_ & (r & Hr & Hs & _ & Hroute & Haccess & _) & _).
  - reflexivity.
  - apply the_owner_reachable.
  - reflexivity.
  - assert (E : (publishing 20 as_two note sample_fava).1 = Returned (Ok (mkWrite 1 1))) by (vm_compute; reflexivity).
    rewrite <- E. apply surjective_pairing.
  - exists r. split; [exact Hr|]. split; [exact Hs|]. split; [exact Hroute|exact Haccess].
Defined.

(** Two edits of one list by its author: the first as public work, the second
    under the author's own account.  The second composes into the first, whose
    authority stays: what was to go out over the account's connection goes out
    unauthenticated. *)
Definition to_a : option (list RelayUrl) := Some ["wss://a"%string].
Definition first_edit := publishing 20 (mkDoor None to_a) (PublishEdit (edit_of 7 Remove)) sample_fava.
Definition second_edit := publishing 30 (mkDoor (Some 1%N) to_a) (PublishEdit (edit_of 9 Add)) first_edit.2.

Theorem composed_edit_drops_account :
  second_edit.1 = Returned (Ok (mkWrite 1 1)) ∧
  (λ r, (rc_access r, pub_revision_id (lw_publication (rc_current r)))) <$>
    MemoryStore.receipt 1 (ms_state (fava_store second_edit.2)) = Some (Unauthenticated, 2%N).
Proof. split; vm_compute; reflexivity. Qed.

(** An assembly with a policy, a transport and a signer but no publisher. *)
Definition without_publisher : @FavaBuilder TestSigner unit unit unit unit :=
  mkFavaBuilder (Some contact_cache) (Some (store_bounded 4)) (Some standard_evaluator) (Some tt) []
    [mkTestSigner 1 false] [] None None (Some tt) None.

(** It is refused, and relays are answered with its signers from then on. *)
Theorem refused_build_keeps_answering :
  build (future := result SignerError Event) true 20 (Ok tt) without_publisher =
  (Returned (Err MissingPublisher), mkEffects true (Some (store_bounded 4))).
Proof. vm_compute. reflexivity. Qed.
End FacadeWitness.
