(* ===== verification/Cancel.v ===== *)
(** * Cancellation tokens ([crates/fava-runtime/src/cancel.rs])

    A token is a node of a tree: its flag, weak references to its children and a
    strong one to its parent.  [child] and [cancel] run on many threads, so each
    of their atomic operations is one definition here: [child] checks the
    parent, records the child and checks again; [cancel] fires one node at a time
    (swap the flag, then take the children).  [Tokens] holds the tree, the tokens
    owners hold, and the calls in progress; [token_step] interleaves them.

    A node lives while a token, a call in progress or a living child refers to
    it ([strong]). *)

From S2P Require Import Prelude.

Record Node := mkNode {
  nd_cancelled : bool;
  nd_children : list nat;
  nd_parent : option nat
}.

(** A [child] call that found its parent not fired: the node it made, and
    whether the parent refers to it yet. *)
Record Deriving := mkDeriving {
  dv_parent : nat;
  dv_child : nat;
  dv_pushed : bool
}.

(** A [cancel] call: the node whose flag it has swapped and whose children it has
    still to take, and the nodes still to fire. *)
Record Cancelling := mkCancelling {
  cl_taking : option nat;
  cl_pending : list nat
}.

Record Tokens := mkTokens {
  tk_nodes : gmap nat Node;
  tk_next : nat;
  tk_held : gset nat;
  tk_deriving : list Deriving;
  tk_cancelling : list Cancelling
}.

Definition with_nodes (nodes : gmap nat Node) (tk : Tokens) : Tokens :=
  mkTokens nodes (tk_next tk) (tk_held tk) (tk_deriving tk) (tk_cancelling tk).
Definition with_held (held : gset nat) (tk : Tokens) : Tokens :=
  mkTokens (tk_nodes tk) (tk_next tk) held (tk_deriving tk) (tk_cancelling tk).
Definition with_deriving (l : list Deriving) (tk : Tokens) : Tokens :=
  mkTokens (tk_nodes tk) (tk_next tk) (tk_held tk) l (tk_cancelling tk).
Definition with_cancelling (l : list Cancelling) (tk : Tokens) : Tokens :=
  mkTokens (tk_nodes tk) (tk_next tk) (tk_held tk) (tk_deriving tk) l.

(** ** Ancestors and references *)

Definition parent_of (nodes : gmap nat Node) (n : nat) : option nat := nodes !! n ≫= nd_parent.

Fixpoint lineage (nodes : gmap nat Node) (fuel n : nat) : list nat :=
  match fuel with
  | 0 => []
  | S fuel => n :: match parent_of nodes n with Some p => lineage nodes fuel p | None => [] end
  end.

(** What refers to a node from outside the tree. *)
Definition token_roots (tk : Tokens) : list nat :=
  elements (tk_held tk) ++
  (tk_deriving tk ≫= λ d, [dv_parent d; dv_child d]) ++
  (tk_cancelling tk ≫= λ k, option_list (cl_taking k) ++ cl_pending k).

(** [Weak::upgrade] succeeds, [strong_count() > 0].  A parent has a smaller
    number than its children, so a lineage is no longer than its first node. *)
Definition strong (tk : Tokens) (n : nat) : bool :=
  existsb (λ r, bool_decide (n ∈ lineage (tk_nodes tk) (S r) r)) (token_roots tk).

Definition is_cancelled (nodes : gmap nat Node) (n : nat) : bool :=
  match nodes !! n with Some node => nd_cancelled node | None => false end.

Definition set_cancelled (node : Node) : Node := mkNode true (nd_children node) (nd_parent node).
Definition set_children (l : list nat) (node : Node) : Node := mkNode (nd_cancelled node) l (nd_parent node).

(** ** Atomic operations *)

(** [CancellationToken::root]. *)
Definition root : Tokens := mkTokens {[0 := mkNode false [] None]} 1 {[0]} [] [].

(** The first check of [child]. *)
Definition child_start (p : nat) (tk : Tokens) : Tokens :=
  let c := tk_next tk in
  let fired := is_cancelled (tk_nodes tk) p in
  let nodes := <[c := mkNode fired [] (Some p)]> (tk_nodes tk) in
  if fired
  then mkTokens nodes (S c) ({[c]} ∪ tk_held tk) (tk_deriving tk) (tk_cancelling tk)
  else mkTokens nodes (S c) (tk_held tk) (tk_deriving tk ++ [mkDeriving p c false]) (tk_cancelling tk).

(** [children.retain(..); children.push(..)]. *)
Definition child_push (i : nat) (tk : Tokens) : Tokens :=
  match tk_deriving tk !! i with
  | Some (mkDeriving p c false) =>
      with_deriving (<[i := mkDeriving p c true]> (tk_deriving tk))
        (with_nodes (alter (λ node, set_children (List.filter (strong tk) (nd_children node) ++ [c]) node) p
                       (tk_nodes tk)) tk)
  | _ => tk
  end.

(** The second check; the token is handed out. *)
Definition child_finish (i : nat) (tk : Tokens) : Tokens :=
  match tk_deriving tk !! i with
  | Some (mkDeriving p c true) =>
      let nodes := if is_cancelled (tk_nodes tk) p then alter set_cancelled c (tk_nodes tk) else tk_nodes tk in
      with_deriving (delete i (tk_deriving tk)) (with_held ({[c]} ∪ tk_held tk) (with_nodes nodes tk))
  | _ => tk
  end.

Definition cancel_start (n : nat) (tk : Tokens) : Tokens :=
  with_cancelling (tk_cancelling tk ++ [mkCancelling None [n]]) tk.

(** [pending.pop()] and the swap of [fire]. *)
Definition cancel_fire (i : nat) (tk : Tokens) : Tokens :=
  match tk_cancelling tk !! i with
  | Some (mkCancelling None pending) =>
      match last pending with
      | Some n =>
          let rest := take (length pending - 1) pending in
          if is_cancelled (tk_nodes tk) n
          then with_cancelling (<[i := mkCancelling None rest]> (tk_cancelling tk)) tk
          else with_cancelling (<[i := mkCancelling (Some n) rest]> (tk_cancelling tk))
                 (with_nodes (alter set_cancelled n (tk_nodes tk)) tk)
      | None => tk
      end
  | _ => tk
  end.

(** [mem::take(children)], upgraded, and [pending.extend(..)]. *)
Definition cancel_take (i : nat) (tk : Tokens) : Tokens :=
  match tk_cancelling tk !! i with
  | Some (mkCancelling (Some n) pending) =>
      let taken := match tk_nodes tk !! n with Some node => nd_children node | None => [] end in
      with_cancelling (<[i := mkCancelling None (pending ++ List.filter (strong tk) taken)]> (tk_cancelling tk))
        (with_nodes (alter (set_children []) n (tk_nodes tk)) tk)
  | _ => tk
  end.

(** [while let Some(node) = pending.pop()] ends. *)
Definition cancel_done (i : nat) (tk : Tokens) : Tokens :=
  match tk_cancelling tk !! i with
  | Some (mkCancelling None []) => with_cancelling (delete i (tk_cancelling tk)) tk
  | _ => tk
  end.

Definition drop_token (n : nat) (tk : Tokens) : Tokens := with_held (tk_held tk ∖ {[n]}) tk.

(** ** Runs *)

Inductive TokenOp :=
| TChild (p : nat)
| TPush (i : nat)
| TDerived (i : nat)
| TCancel (n : nat)
| TFire (i : nat)
| TTake (i : nat)
| TDone (i : nat)
| TDrop (n : nat).

Definition token_step (op : TokenOp) (tk : Tokens) : Tokens :=
  match op with
  | TChild p => child_start p tk
  | TPush i => child_push i tk
  | TDerived i => child_finish i tk
  | TCancel n => cancel_start n tk
  | TFire i => cancel_fire i tk
  | TTake i => cancel_take i tk
  | TDone i => cancel_done i tk
  | TDrop n => drop_token n tk
  end.

(** Calls are made on tokens their caller holds. *)
Definition token_allowed (op : TokenOp) (tk : Tokens) : Prop :=
  match op with TChild n | TCancel n => n ∈ tk_held tk | _ => True end.

(** Any interleaving, with the tokens [cancel] was called on. *)
Inductive token_run : gset nat → Tokens → Prop :=
| token_root : token_run ∅ root
| token_next targets tk op :
    token_run targets tk → token_allowed op tk →
    token_run (match op with TCancel n => {[n]} ∪ targets | _ => targets end) (token_step op tk).

(** ** Ancestors *)

Inductive below (nodes : gmap nat Node) : nat → nat → Prop :=
| below_refl n : below nodes n n
| below_up a p n : parent_of nodes n = Some p → below nodes a p → below nodes a n.

Lemma below_trans nodes a b c : below nodes a b → below nodes b c → below nodes a c.
Proof. intros Hab. induction 1 as [|b p c Hp _ IH]; [done|]. eapply below_up; eauto. Qed.

Lemma lineage_below nodes fuel n a :
  (∀ c p, parent_of nodes c = Some p → p < c) → n < fuel → a ∈ lineage nodes fuel n ↔ below nodes a n.
Proof.
  intros Hlt. revert n. induction fuel as [|fuel IH]; intros n Hn; [lia|]. simpl. rewrite elem_of_cons. split.
  - intros [->|Ha]; [constructor|]. destruct (parent_of nodes n) as [p|] eqn:Hp; [|by apply not_elem_of_nil in Ha].
    pose proof (Hlt _ _ Hp). eapply below_up; [done|]. apply IH; [lia|done].
  - intros Hb. destruct Hb as [|a p n Hp Hb]; [by left|]. right. rewrite Hp. pose proof (Hlt _ _ Hp).
    apply IH; [lia|done].
Qed.

Definition nodes_ok (nodes : gmap nat Node) (next : nat) : Prop :=
  ∀ c node, nodes !! c = Some node → c < next ∧ ∀ p, nd_parent node = Some p → p < c ∧ is_Some (nodes !! p).

Lemma parent_of_Some nodes n p : parent_of nodes n = Some p ↔ ∃ node, nodes !! n = Some node ∧ nd_parent node = Some p.
Proof. unfold parent_of. apply bind_Some. Qed.

Lemma parent_of_lt nodes next c p : nodes_ok nodes next → parent_of nodes c = Some p → p < c.
Proof. intros Hok (node & Hn & Hp)%parent_of_Some. by apply (Hok c node Hn). Qed.

Lemma strong_spec tk n :
  nodes_ok (tk_nodes tk) (tk_next tk) →
  strong tk n = true ↔ ∃ r, r ∈ token_roots tk ∧ below (tk_nodes tk) n r.
Proof.
  intros Hok. unfold strong. rewrite existsb_elem. setoid_rewrite bool_decide_eq_true.
  setoid_rewrite lineage_below; [done|intros c p; by apply parent_of_lt with (next := tk_next tk)|lia].
Qed.

Lemma elem_of_option_list {A} (o : option A) x : x ∈ option_list o ↔ o = Some x.
Proof. destruct o; simpl; rewrite ?list_elem_of_singleton, ?elem_of_nil; naive_solver. Qed.

Lemma elem_of_token_roots tk r :
  r ∈ token_roots tk ↔
  r ∈ tk_held tk ∨ (∃ d, d ∈ tk_deriving tk ∧ (r = dv_parent d ∨ r = dv_child d)) ∨
  (∃ k, k ∈ tk_cancelling tk ∧ (cl_taking k = Some r ∨ r ∈ cl_pending k)).
Proof.
  unfold token_roots. rewrite !elem_of_app, elem_of_elements, !list_elem_of_bind.
  setoid_rewrite elem_of_app. setoid_rewrite elem_of_option_list. setoid_rewrite elem_of_cons.
  setoid_rewrite list_elem_of_singleton. naive_solver.
Qed.

(** ** The invariant *)

(** Why a living child of [p] will fire when [p] does: it has fired, its
    derivation has still to check [p] again, [p] still refers to it, or a
    [cancel] call is about to fire it. *)
Definition reached (tk : Tokens) (c p : nat) : Prop :=
  is_cancelled (tk_nodes tk) c = true ∨
  (∃ d, d ∈ tk_deriving tk ∧ dv_child d = c ∧ (dv_pushed d = false ∨ is_cancelled (tk_nodes tk) p = true)) ∨
  (∃ np, tk_nodes tk !! p = Some np ∧ c ∈ nd_children np ∧
     (nd_cancelled np = false ∨ ∃ k, k ∈ tk_cancelling tk ∧ cl_taking k = Some p)) ∨
  (∃ k, k ∈ tk_cancelling tk ∧ c ∈ cl_pending k).

Record tokens_ok (targets : gset nat) (tk : Tokens) : Prop := {
  to_nodes : nodes_ok (tk_nodes tk) (tk_next tk);
  to_roots : ∀ r, r ∈ token_roots tk → is_Some (tk_nodes tk !! r);
  to_deriving : ∀ d, d ∈ tk_deriving tk →
    parent_of (tk_nodes tk) (dv_child d) = Some (dv_parent d) ∧ dv_child d ∉ tk_held tk ∧
    ∀ g, parent_of (tk_nodes tk) g ≠ Some (dv_child d);
  to_distinct : NoDup (dv_child <$> tk_deriving tk);
  to_children : ∀ p np c, tk_nodes tk !! p = Some np → c ∈ nd_children np → parent_of (tk_nodes tk) c = Some p;
  to_reach : ∀ c p, parent_of (tk_nodes tk) c = Some p → strong tk c = true → reached tk c p;
  to_taking : ∀ k n, k ∈ tk_cancelling tk → cl_taking k = Some n → is_cancelled (tk_nodes tk) n = true;
  to_targets : ∀ a, a ∈ targets → is_cancelled (tk_nodes tk) a = true ∨ ∃ k, k ∈ tk_cancelling tk ∧ a ∈ cl_pending k;
  to_fired : ∀ n, is_cancelled (tk_nodes tk) n = true → ∃ a, a ∈ targets ∧ below (tk_nodes tk) a n;
  to_pending : ∀ k n, k ∈ tk_cancelling tk → n ∈ cl_pending k → ∃ a, a ∈ targets ∧ below (tk_nodes tk) a n
}.

Lemma root_ok : tokens_ok ∅ root.
Proof.
  assert (Hr : ∀ n node, tk_nodes root !! n = Some node → n = 0 ∧ node = mkNode false [] None).
  { intros n node Hn. cbn in Hn. by apply lookup_singleton_Some in Hn as [<- <-]. }
  split; simpl.
  - intros c node [-> ->]%Hr. simpl. split; [lia|done].
  - intros r. rewrite elem_of_token_roots. simpl. intros [->%elem_of_singleton|[(? & ?%not_elem_of_nil & _)|(? & ?%not_elem_of_nil & _)]]; done.
  - by intros d ?%not_elem_of_nil.
  - constructor.
  - intros p np c [-> ->]%Hr. by intros ?%not_elem_of_nil.
  - intros c p (node & [-> ->]%Hr & Hp)%parent_of_Some. done.
  - by intros k n ?%not_elem_of_nil.
  - done.
  - intros n. unfold is_cancelled. destruct (tk_nodes root !! n) as [node|] eqn:Hn; simpl in Hn; rewrite Hn; [|done].
    by apply Hr in Hn as [_ ->].
  - by intros k n ?%not_elem_of_nil.
Qed.

(** Operations that leave the shape of the tree alone. *)
Record same_shape (nodes nodes' : gmap nat Node) : Prop := {
  sh_parent : ∀ n, parent_of nodes' n = parent_of nodes n;
  sh_present : ∀ n, is_Some (nodes' !! n) ↔ is_Some (nodes !! n);
  sh_fired : ∀ n, is_cancelled nodes n = true → is_cancelled nodes' n = true
}.

Lemma same_shape_refl nodes : same_shape nodes nodes.
Proof. by split. Qed.

Lemma same_shape_alter f n nodes :
  (∀ node, nd_parent (f node) = nd_parent node ∧ (nd_cancelled node = true → nd_cancelled (f node) = true)) →
  same_shape nodes (alter f n nodes).
Proof.
  intros Hf. assert (Hl : ∀ m, alter f n nodes !! m = if decide (m = n) then f <$> nodes !! m else nodes !! m).
  { intros m. case_decide as E; [subst; apply lookup_alter_eq|by apply lookup_alter_ne]. }
  split; intros m; unfold parent_of, is_cancelled; rewrite Hl; case_decide; try done;
    destruct (nodes !! m) as [node|] eqn:E; simpl; try done; destruct (Hf node) as [Hp Hc]; auto.
Qed.

Lemma below_same nodes nodes' a n : same_shape nodes nodes' → below nodes' a n ↔ below nodes a n.
Proof.
  intros [Hp _ _]. split; induction 1; try constructor; eapply below_up; eauto; [by rewrite <- Hp|by rewrite Hp].
Qed.

Lemma nodes_ok_same nodes nodes' next : same_shape nodes nodes' → nodes_ok nodes next → nodes_ok nodes' next.
Proof.
  intros [Hp Hs _] Hok c node Hc. destruct (proj1 (Hs c) (mk_is_Some _ _ Hc)) as [node0 Hc0].
  destruct (Hok c node0 Hc0) as [Hlt Hpar]. split; [done|]. intros p Hnp.
  assert (Hp0 : nd_parent node0 = Some p).
  { specialize (Hp c). unfold parent_of in Hp. rewrite Hc, Hc0 in Hp. simpl in Hp. congruence. }
  destruct (Hpar p Hp0) as [? ?]. split; [done|]. by apply Hs.
Qed.

(** Nothing becomes alive that was not. *)
Lemma strong_same tk tk' n :
  nodes_ok (tk_nodes tk) (tk_next tk) → same_shape (tk_nodes tk) (tk_nodes tk') → tk_next tk' = tk_next tk →
  (∀ r, r ∈ token_roots tk' → strong tk r = true) → strong tk' n = true → strong tk n = true.
Proof.
  intros Hok Hsh Hn Hr Hs. apply strong_spec in Hs as (r & Hin & Hb).
  2: { rewrite Hn. by eapply nodes_ok_same. }
  apply Hr, strong_spec in Hin as (r0 & Hr0 & Hb0); [|done]. apply strong_spec; [done|]. exists r0. split; [done|].
  eapply below_trans; [|done]. by apply (below_same _ _ _ _ Hsh).
Qed.

Lemma root_strong tk r : nodes_ok (tk_nodes tk) (tk_next tk) → r ∈ token_roots tk → strong tk r = true.
Proof. intros Hok Hr. apply strong_spec; [done|]. exists r. split; [done|constructor]. Qed.

Lemma below_present nodes next a n : nodes_ok nodes next → below nodes a n → is_Some (nodes !! n) → is_Some (nodes !! a).
Proof.
  intros Hok. induction 1 as [|a p n Hp _ IH]; [done|]. intros _. apply IH.
  apply parent_of_Some in Hp as (node & Hn & Hp). by apply (Hok n node Hn).
Qed.

Lemma strong_present targets tk n : tokens_ok targets tk → strong tk n = true → is_Some (tk_nodes tk !! n).
Proof.
  intros Hok (r & Hr & Hb)%strong_spec; [|apply Hok]. eapply below_present; [apply Hok|done|]. by apply (to_roots _ _ Hok).
Qed.

(** What an operation on a tree of the same shape has left to show. *)
Lemma tokens_ok_same targets targets' tk tk' :
  tokens_ok targets tk → same_shape (tk_nodes tk) (tk_nodes tk') → tk_next tk' = tk_next tk →
  targets ⊆ targets' →
  (∀ r, r ∈ token_roots tk' → strong tk r = true) →
  (∀ d', d' ∈ tk_deriving tk' → (∃ d, d ∈ tk_deriving tk ∧ dv_child d = dv_child d' ∧ dv_parent d = dv_parent d') ∧
                                dv_child d' ∉ tk_held tk') →
  NoDup (dv_child <$> tk_deriving tk') →
  (∀ p np' c, tk_nodes tk' !! p = Some np' → c ∈ nd_children np' →
     (∃ np, tk_nodes tk !! p = Some np ∧ c ∈ nd_children np) ∨ parent_of (tk_nodes tk) c = Some p) →
  (∀ c p, parent_of (tk_nodes tk) c = Some p → strong tk c = true → reached tk c p → reached tk' c p) →
  (∀ k n, k ∈ tk_cancelling tk' → cl_taking k = Some n → is_cancelled (tk_nodes tk') n = true) →
  (∀ a, a ∈ targets' → is_cancelled (tk_nodes tk') a = true ∨ ∃ k, k ∈ tk_cancelling tk' ∧ a ∈ cl_pending k) →
  (∀ n, is_cancelled (tk_nodes tk') n = true → is_cancelled (tk_nodes tk) n = true ∨
     ∃ a, a ∈ targets' ∧ below (tk_nodes tk) a n) →
  (∀ k n, k ∈ tk_cancelling tk' → n ∈ cl_pending k → ∃ a, a ∈ targets' ∧ below (tk_nodes tk) a n) →
  tokens_ok targets' tk'.
Proof.
  intros Hok Hsh Hn Ht Hroots Hder Hnd Hch Hre Hta Htg Hfi Hpe. pose proof (to_nodes _ _ Hok) as Hno.
  assert (Hb : ∀ a n, below (tk_nodes tk) a n → below (tk_nodes tk') a n) by (intros a n; by apply below_same).
  split.
  - rewrite Hn. by eapply nodes_ok_same.
  - intros r Hr. apply (sh_present _ _ Hsh). by eapply strong_present, Hroots.
  - intros d' Hd'. destruct (Hder d' Hd') as ((d & Hd & <- & <-) & Hh).
    destruct (to_deriving _ _ Hok d Hd) as (Hp & _ & Hg). rewrite (sh_parent _ _ Hsh). split_and!; [done..|].
    intros g. rewrite (sh_parent _ _ Hsh). apply Hg.
  - done.
  - intros p np' c Hp Hc. rewrite (sh_parent _ _ Hsh). destruct (Hch p np' c Hp Hc) as [(np & Hnp & Hc')|]; [|done].
    by apply (to_children _ _ Hok p np c).
  - intros c p Hp Hs. rewrite (sh_parent _ _ Hsh) in Hp. apply (strong_same tk) in Hs; [|done..].
    apply (Hre c p Hp Hs). by apply (to_reach _ _ Hok).
  - done.
  - done.
  - intros n [Hc|(a & Ha & Hba)]%Hfi; [|eauto]. destruct (to_fired _ _ Hok n Hc) as (a & Ha & Hba). eauto.
  - intros k n Hk Hin. destruct (Hpe k n Hk Hin) as (a & Ha & Hba). eauto.
Qed.

(** ** Every operation keeps the invariant *)

Lemma drop_ok targets n tk : tokens_ok targets tk → tokens_ok targets (drop_token n tk).
Proof.
  intros Hok. apply (tokens_ok_same targets targets tk); [done|apply same_shape_refl|done|done|..]; simpl.
  - intros r. rewrite elem_of_token_roots. simpl. intros Hr. apply root_strong; [apply Hok|].
    apply elem_of_token_roots. set_solver.
  - intros d Hd. destruct (to_deriving _ _ Hok d Hd) as (_ & Hh & _). split; [eauto|set_solver].
  - apply Hok.
  - intros p np c Hp Hc. left. eauto.
  - done.
  - apply Hok.
  - apply Hok.
  - intros m Hm. by left.
  - apply Hok.
Qed.

Lemma cancel_start_ok targets n tk :
  tokens_ok targets tk → n ∈ tk_held tk → tokens_ok ({[n]} ∪ targets) (cancel_start n tk).
Proof.
  intros Hok Hn. apply (tokens_ok_same targets _ tk); [done|apply same_shape_refl|done|set_solver|..]; simpl.
  - intros r. rewrite elem_of_token_roots. simpl. intros Hr. apply root_strong; [apply Hok|].
    apply elem_of_token_roots. destruct Hr as [?|[?|(k & [Hk| ->%list_elem_of_singleton]%elem_of_app & Hr)]]; [auto|auto| |].
    + right; right. eauto.
    + simpl in Hr. destruct Hr as [?| ->%list_elem_of_singleton]; [done|]. by left.
  - intros d Hd. destruct (to_deriving _ _ Hok d Hd) as (_ & Hh & _). eauto.
  - apply Hok.
  - intros p np c Hp Hc. left. eauto.
  - intros c p _ _ [?|[?|[(np & ? & ? & [?|(k & ? & ?)])|(k & ? & ?)]]]; unfold reached; simpl;
      [auto|auto|right; right; left; eauto 10| |]; setoid_rewrite elem_of_app; eauto 12.
  - intros k m [Hk| ->%list_elem_of_singleton]%elem_of_app; [by apply (to_taking _ _ Hok)|done].
  - intros a [->%elem_of_singleton|Ha]%elem_of_union.
    + right. exists (mkCancelling None [n]). rewrite elem_of_app, list_elem_of_singleton. split; [by right|by left].
    + destruct (to_targets _ _ Hok a Ha) as [?|(k & ? & ?)]; [by left|]. right. exists k. rewrite elem_of_app. auto.
  - intros m Hm. by left.
  - intros k m [Hk| ->%list_elem_of_singleton]%elem_of_app Hm.
    + destruct (to_pending _ _ Hok k m Hk Hm) as (a & ? & ?). exists a. split; [set_solver|done].
    + apply list_elem_of_singleton in Hm as ->. exists n. split; [set_solver|constructor].
Qed.

Lemma elem_of_delete {A} (l : list A) i x k : l !! i = Some x → k ∈ l → k = x ∨ k ∈ delete i l.
Proof.
  intros Hi Hk. rewrite <- (take_drop_middle _ _ _ Hi) in Hk. rewrite delete_take_drop.
  rewrite elem_of_app, elem_of_cons in Hk. rewrite elem_of_app. tauto.
Qed.

Lemma elem_of_deleted {A} (l : list A) i k : k ∈ delete i l → k ∈ l.
Proof. intros Hk. eapply elem_of_submseteq; [done|]. apply sublist_submseteq, sublist_delete. Qed.

Lemma cancel_done_ok targets i tk : tokens_ok targets tk → tokens_ok targets (cancel_done i tk).
Proof.
  intros Hok. unfold cancel_done. destruct (tk_cancelling tk !! i) as [[[t|] [|n pending]]|] eqn:Hi; try done.
  assert (Hin : ∀ k, k ∈ delete i (tk_cancelling tk) → k ∈ tk_cancelling tk).
  { intros k. apply elem_of_deleted. }
  assert (Hback : ∀ k, k ∈ tk_cancelling tk → k = mkCancelling None [] ∨ k ∈ delete i (tk_cancelling tk)).
  { intros k. by apply elem_of_delete. }
  apply (tokens_ok_same targets targets tk); [done|apply same_shape_refl|done|done|..]; simpl.
  - intros r. rewrite elem_of_token_roots. simpl. intros Hr. apply root_strong; [apply Hok|].
    apply elem_of_token_roots. destruct Hr as [?|[?|(k & Hk & Hr)]]; eauto 10.
  - intros d Hd. destruct (to_deriving _ _ Hok d Hd) as (_ & Hh & _). eauto.
  - apply Hok.
  - intros p np c Hp Hc. left. eauto.
  - intros c p _ _ [?|[?|[(np & ? & ? & [?|(k & Hk & Ht)])|(k & Hk & Hp)]]]; unfold reached; simpl; [auto|auto|right; right; left; eauto 10|..];
      (destruct (Hback k Hk) as [->|Hk']; [by (discriminate Ht || apply not_elem_of_nil in Hp)|]).
    + right; right; left. eauto 12.
    + eauto 12.
  - intros k n Hk. by apply (to_taking _ _ Hok), Hin.
  - intros a Ha. destruct (to_targets _ _ Hok a Ha) as [?|(k & Hk & Hp)]; [by left|]. right.
    destruct (Hback k Hk) as [->|Hk']; [by apply not_elem_of_nil in Hp|]. eauto.
  - intros m Hm. by left.
  - intros k n Hk. by apply (to_pending _ _ Hok), Hin.
Qed.

(** Replacing one call. *)
Lemma elem_of_replaced {A} (l : list A) i x y k : l !! i = Some x → k ∈ <[i := y]> l → k = y ∨ k ∈ l.
Proof.
  intros Hi Hk. rewrite (insert_take_drop _ _ _ (lookup_lt_Some _ _ _ Hi)), elem_of_app, elem_of_cons in Hk.
  rewrite <- (take_drop_middle _ _ _ Hi), elem_of_app, elem_of_cons. tauto.
Qed.

Lemma elem_of_replaced_back {A} (l : list A) i x y k :
  l !! i = Some x → k ∈ l → k = x ∨ k ∈ <[i := y]> l.
Proof.
  intros Hi Hk. rewrite (insert_take_drop _ _ _ (lookup_lt_Some _ _ _ Hi)), elem_of_app, elem_of_cons.
  rewrite <- (take_drop_middle _ _ _ Hi), elem_of_app, elem_of_cons in Hk. tauto.
Qed.

Lemma elem_of_new {A} (l : list A) i x y : l !! i = Some x → y ∈ <[i := y]> l.
Proof.
  intros Hi. rewrite (insert_take_drop _ _ _ (lookup_lt_Some _ _ _ Hi)), elem_of_app, elem_of_cons. auto.
Qed.

Lemma last_rest {A} (l : list A) n : last l = Some n → l = take (length l - 1) l ++ [n].
Proof.
  intros Hl. apply last_Some in Hl as [l' ->]. rewrite length_app. simpl.
  replace (length l' + 1 - 1) with (length l') by lia. by rewrite take_app_length.
Qed.

Lemma is_cancelled_alter nodes n m :
  is_cancelled (alter set_cancelled n nodes) m = true ↔ is_cancelled nodes m = true ∨ (m = n ∧ is_Some (nodes !! n)).
Proof.
  unfold is_cancelled. destruct (decide (m = n)) as [->|Hne].
  - rewrite lookup_alter_eq. destruct (nodes !! n) as [node|]; simpl; [|naive_solver].
    split; [right; eauto|done].
  - rewrite lookup_alter_ne by done. naive_solver.
Qed.

Lemma is_cancelled_children nodes f n m :
  is_cancelled (alter (λ node, set_children (f node) node) n nodes) m = is_cancelled nodes m.
Proof.
  unfold is_cancelled. destruct (decide (m = n)) as [->|Hne]; [|by rewrite lookup_alter_ne].
  rewrite lookup_alter_eq. by destruct (nodes !! n).
Qed.

(** The node a call takes off its list fires, or has fired. *)
Lemma cancel_fire_ok targets i tk : tokens_ok targets tk → tokens_ok targets (cancel_fire i tk).
Proof.
  intros Hok. unfold cancel_fire. destruct (tk_cancelling tk !! i) as [[[t|] pending]|] eqn:Hi; try done.
  destruct (last pending) as [n|] eqn:Hl; [|done]. pose proof (last_rest _ _ Hl) as Hpend.
  set (rest := take (length pending - 1) pending) in *.
  assert (Hk0 : mkCancelling None pending ∈ tk_cancelling tk) by (by eapply list_elem_of_lookup_2).
  assert (Hnp : n ∈ pending) by (rewrite Hpend; set_solver).
  assert (Hn : is_Some (tk_nodes tk !! n)).
  { apply (to_roots _ _ Hok), elem_of_token_roots. eauto 10. }
  set (k' := mkCancelling (if is_cancelled (tk_nodes tk) n then None else Some n) rest).
  set (nodes' := if is_cancelled (tk_nodes tk) n then tk_nodes tk else alter set_cancelled n (tk_nodes tk)).
  assert (Hfired : ∀ m, is_cancelled nodes' m = true ↔ is_cancelled (tk_nodes tk) m = true ∨ m = n).
  { intros m. unfold nodes'. destruct (is_cancelled (tk_nodes tk) n) eqn:Hc; [naive_solver|].
    rewrite is_cancelled_alter. naive_solver. }
  assert (Hsh : same_shape (tk_nodes tk) nodes').
  { unfold nodes'. destruct (is_cancelled _ _); [apply same_shape_refl|]. by apply same_shape_alter. }
  assert (Hchild : ∀ p np', nodes' !! p = Some np' → ∃ np, tk_nodes tk !! p = Some np ∧ nd_children np' = nd_children np).
  { unfold nodes'. intros p np'. destruct (is_cancelled _ _); [eauto|]. destruct (decide (p = n)) as [->|Hne].
    - rewrite lookup_alter_eq. intros (np & Hp & ->)%fmap_Some. eauto.
    - rewrite lookup_alter_ne by done. eauto. }
  replace (if is_cancelled (tk_nodes tk) n then _ else _)
    with (with_cancelling (<[i := k']> (tk_cancelling tk)) (with_nodes nodes' tk))
    by (unfold k', nodes'; destruct (is_cancelled (tk_nodes tk) n); [by destruct tk|done]).
  assert (Hrest : ∀ m, m ∈ rest → m ∈ pending) by (intros m Hm; rewrite Hpend; set_solver).
  assert (Hpe : ∀ m, m ∈ pending → m = n ∨ m ∈ rest) by (intros m; rewrite Hpend at 1; set_solver).
  apply (tokens_ok_same targets targets tk); [done|done|done|done|..]; simpl.
  - intros r. rewrite elem_of_token_roots. simpl. intros Hr. apply root_strong; [apply Hok|].
    apply elem_of_token_roots. destruct Hr as [?|[?|(k & Hk & Hr)]]; [auto|auto|]. right; right.
    destruct (elem_of_replaced _ _ _ _ _ Hi Hk) as [->|Hk']; [|eauto]. exists (mkCancelling None pending).
    split; [done|]. right. simpl in Hr. destruct Hr as [Hr|Hr]; [|auto].
    by destruct (is_cancelled _ _); [|injection Hr as <-].
  - intros d Hd. destruct (to_deriving _ _ Hok d Hd) as (_ & Hh & _). eauto.
  - apply Hok.
  - intros p np' c Hp Hc. destruct (Hchild p np' Hp) as (np & Hnp' & E). rewrite E in Hc. eauto.
  - intros c p _ _ Hre. unfold reached in *. simpl.
    destruct Hre as [Hc|[(d & Hd & Hdc & Hd')|[(np & Hp & Hcin & Hnp')|(k & Hk & Hcp)]]].
    + left. apply Hfired. auto.
    + right; left. exists d. split_and!; [done..|]. destruct Hd' as [?|?]; [auto|]. right. apply Hfired. auto.
    + right; right; left. destruct (proj2 (sh_present _ _ Hsh p) (mk_is_Some _ _ Hp)) as [np' Hp'].
      destruct (Hchild p np' Hp') as (np0 & Hp0 & E). rewrite Hp in Hp0. injection Hp0 as <-.
      exists np'. split_and!; [done|by rewrite E|]. destruct Hnp' as [Hf|(k & Hk & Ht)].
      * destruct (nd_cancelled np') eqn:Hc'; [|by left]. right. exists k'.
        split; [by eapply elem_of_new|]. assert (is_cancelled nodes' p = true) as Hcp.
        { unfold is_cancelled. by rewrite Hp'. }
        assert (Hpf : is_cancelled (tk_nodes tk) p = false) by (unfold is_cancelled; by rewrite Hp).
        apply Hfired in Hcp as [?| ->]; [congruence|]. unfold k'. by rewrite Hpf.
      * right. destruct (elem_of_replaced_back _ _ _ k' _ Hi Hk) as [->|Hk']; [done|eauto].
    + destruct (elem_of_replaced_back _ _ _ k' _ Hi Hk) as [->|Hk']; [|eauto 10].
      simpl in Hcp. destruct (Hpe c Hcp) as [->|Hc]; [left; apply Hfired; auto|].
      right; right; right. exists k'. split; [by eapply elem_of_new|done].
  - intros k m Hk Ht. apply Hfired. destruct (elem_of_replaced _ _ _ _ _ Hi Hk) as [->|Hk'].
    + unfold k' in Ht. simpl in Ht. destruct (is_cancelled (tk_nodes tk) n); [done|]. injection Ht as ->. auto.
    + left. by apply (to_taking _ _ Hok k).
  - intros a Ha. destruct (to_targets _ _ Hok a Ha) as [?|(k & Hk & Hp)]; [left; apply Hfired; auto|].
    destruct (elem_of_replaced_back _ _ _ k' _ Hi Hk) as [->|Hk']; [|eauto].
    destruct (Hpe a Hp) as [->|Hc]; [left; apply Hfired; auto|]. right. exists k'.
    split; [by eapply elem_of_new|done].
  - intros m [?| ->]%Hfired; [by left|]. right. by apply (to_pending _ _ Hok (mkCancelling None pending)).
  - intros k m Hk Hm. destruct (elem_of_replaced _ _ _ _ _ Hi Hk) as [->|Hk'].
    + apply (to_pending _ _ Hok (mkCancelling None pending)); [done|]. by apply Hrest.
    + by apply (to_pending _ _ Hok k).
Qed.

Lemma cancel_take_ok targets i tk : tokens_ok targets tk → tokens_ok targets (cancel_take i tk).
Proof.
  intros Hok. unfold cancel_take. destruct (tk_cancelling tk !! i) as [[[n|] pending]|] eqn:Hi; try done.
  assert (Hk0 : mkCancelling (Some n) pending ∈ tk_cancelling tk) by (by eapply list_elem_of_lookup_2).
  pose proof (to_taking _ _ Hok _ n Hk0 eq_refl) as Hfn.
  destruct (tk_nodes tk !! n) as [node|] eqn:Hn; [|by unfold is_cancelled in Hfn; rewrite Hn in Hfn].
  set (taken := List.filter (strong tk) (nd_children node)). set (k' := mkCancelling None (pending ++ taken)).
  assert (Htk : ∀ c, c ∈ taken ↔ strong tk c = true ∧ c ∈ nd_children node) by (intros c; apply elem_of_filterb).
  assert (Hch : ∀ c, c ∈ nd_children node → parent_of (tk_nodes tk) c = Some n).
  { intros c Hc. by apply (to_children _ _ Hok n node). }
  assert (Hfired : ∀ m, is_cancelled (alter (set_children []) n (tk_nodes tk)) m = is_cancelled (tk_nodes tk) m).
  { intros m. apply (is_cancelled_children (tk_nodes tk) (λ _, [])). }
  apply (tokens_ok_same targets targets tk); [done| |done|done|..]; simpl.
  - by apply same_shape_alter.
  - intros r. rewrite elem_of_token_roots. simpl. intros Hr. pose proof (to_nodes _ _ Hok) as Hno.
    destruct Hr as [?|[?|(k & Hk & Hr)]]; [apply root_strong, elem_of_token_roots; auto..|].
    destruct (elem_of_replaced _ _ _ _ _ Hi Hk) as [->|Hk']; [|apply root_strong, elem_of_token_roots; eauto 10].
    destruct Hr as [?|[Hr|Hr]%elem_of_app]; [done| |by apply Htk].
    apply root_strong, elem_of_token_roots; [done|]. right; right. exists (mkCancelling (Some n) pending). auto.
  - intros d Hd. destruct (to_deriving _ _ Hok d Hd) as (_ & Hh & _). eauto.
  - apply Hok.
  - intros p np' c Hp Hc. left. destruct (decide (p = n)) as [->|Hne].
    + rewrite lookup_alter_eq, Hn in Hp. injection Hp as <-. by apply not_elem_of_nil in Hc.
    + rewrite lookup_alter_ne in Hp by done. eauto.
  - intros c p Hp Hs Hre. unfold reached in *. simpl. setoid_rewrite Hfired.
    destruct Hre as [Hc|[Hd|[(np & Hnp & Hcin & Hnp')|(k & Hk & Hcp)]]]; [auto|auto| |].
    + destruct (decide (p = n)) as [->|Hne].
      * right; right; right. exists k'. split; [by eapply elem_of_new|]. simpl. apply elem_of_app. right.
        apply Htk. split; [done|]. congruence.
      * right; right; left. exists np. rewrite lookup_alter_ne by done. split_and!; [done..|].
        destruct Hnp' as [?|(k & Hk & Ht)]; [auto|]. right.
        destruct (elem_of_replaced_back _ _ _ k' _ Hi Hk) as [->|Hk']; [simpl in Ht; congruence|eauto].
    + destruct (elem_of_replaced_back _ _ _ k' _ Hi Hk) as [->|Hk']; [|eauto 10].
      right; right; right. exists k'. split; [by eapply elem_of_new|]. simpl in *. apply elem_of_app. auto.
  - intros k m Hk Ht. rewrite Hfired. destruct (elem_of_replaced _ _ _ _ _ Hi Hk) as [->|Hk']; [done|].
    by apply (to_taking _ _ Hok k).
  - intros a Ha. rewrite Hfired. destruct (to_targets _ _ Hok a Ha) as [?|(k & Hk & Hp)]; [auto|]. right.
    destruct (elem_of_replaced_back _ _ _ k' _ Hi Hk) as [->|Hk']; [|eauto].
    exists k'. split; [by eapply elem_of_new|]. simpl in *. apply elem_of_app. auto.
  - intros m. rewrite Hfired. auto.
  - intros k m Hk Hm. destruct (elem_of_replaced _ _ _ _ _ Hi Hk) as [->|Hk']; [|by apply (to_pending _ _ Hok k)].
    apply elem_of_app in Hm as [Hm|Hm]; [by apply (to_pending _ _ Hok _ _ Hk0)|].
    apply Htk in Hm as [_ Hm%Hch]. destruct (to_fired _ _ Hok n Hfn) as (a & Ha & Hb). exists a. split; [done|].
    by eapply below_up.
Qed.

Lemma child_push_ok targets i tk : tokens_ok targets tk → tokens_ok targets (child_push i tk).
Proof.
  intros Hok. unfold child_push. destruct (tk_deriving tk !! i) as [[p c [|]]|] eqn:Hi; try done.
  set (d' := mkDeriving p c true). assert (Hd0 : mkDeriving p c false ∈ tk_deriving tk) by (by eapply list_elem_of_lookup_2).
  destruct (to_deriving _ _ Hok _ Hd0) as (Hpar & Hheld & _). simpl in Hpar, Hheld.
  set (push := λ node, set_children (List.filter (strong tk) (nd_children node) ++ [c]) node).
  assert (Hfired : ∀ m, is_cancelled (alter push p (tk_nodes tk)) m = is_cancelled (tk_nodes tk) m).
  { intros m. apply (is_cancelled_children (tk_nodes tk) (λ node, List.filter (strong tk) (nd_children node) ++ [c])). }
  destruct (to_roots _ _ Hok p) as [np Hnp]; [apply elem_of_token_roots; eauto 10|].
  apply (tokens_ok_same targets targets tk); [done| |done|done|..]; simpl.
  - by apply same_shape_alter.
  - intros r. rewrite elem_of_token_roots. simpl. intros Hr. apply root_strong; [apply Hok|].
    apply elem_of_token_roots. destruct Hr as [?|[(d & Hd & Hr)|?]]; [auto| |auto]. right; left.
    destruct (elem_of_replaced _ _ _ _ _ Hi Hd) as [->|Hd2]; [|eauto]. exists (mkDeriving p c false). auto.
  - intros d Hd. destruct (elem_of_replaced _ _ _ _ _ Hi Hd) as [->|Hd2].
    + split; [|done]. by exists (mkDeriving p c false).
    + destruct (to_deriving _ _ Hok d Hd2) as (_ & Hh & _). eauto.
  - rewrite list_fmap_insert. simpl. rewrite list_insert_id; [apply Hok|]. by rewrite list_lookup_fmap, Hi.
  - intros q nq c0 Hq Hc. destruct (decide (q = p)) as [->|Hne].
    + rewrite lookup_alter_eq, Hnp in Hq. injection Hq as <-. simpl in Hc.
      apply elem_of_app in Hc as [[_ Hc]%elem_of_filterb| ->%list_elem_of_singleton]; [eauto|by right].
    + rewrite lookup_alter_ne in Hq by done. eauto.
  - intros c0 q Hq Hs Hre. unfold reached in *. simpl. setoid_rewrite Hfired.
    assert (Hin : is_cancelled (tk_nodes tk) p = false → ∃ np', alter push p (tk_nodes tk) !! p = Some np' ∧
      c ∈ nd_children np' ∧ nd_cancelled np' = false).
    { intros Hf. exists (push np). rewrite lookup_alter_eq, Hnp. unfold is_cancelled in Hf. rewrite Hnp in Hf.
      split_and!; [done| |done]. simpl. set_solver. }
    destruct Hre as [Hc|[(d & Hd & <- & Hd2)|[(nq & Hnq & Hcin & Hq2)|Hk]]]; [auto| | |auto].
    + destruct (elem_of_replaced_back _ _ _ d' _ Hi Hd) as [->|Hd3]; [|eauto 10]. simpl in *.
      rewrite Hpar in Hq. injection Hq as <-. destruct (is_cancelled (tk_nodes tk) p) eqn:Hf.
      * right; left. exists d'. split; [by eapply elem_of_new|]. auto.
      * right; right; left. destruct (Hin eq_refl) as (np' & ? & ? & ?). eauto 10.
    + right; right; left. destruct (decide (q = p)) as [->|Hne].
      * rewrite Hnp in Hnq. injection Hnq as <-. exists (push np). rewrite lookup_alter_eq, Hnp.
        split_and!; [done| |done]. simpl. apply elem_of_app. left. by apply elem_of_filterb.
      * exists nq. by rewrite lookup_alter_ne.
  - intros k m Hk Ht. rewrite Hfired. by apply (to_taking _ _ Hok k).
  - intros a Ha. rewrite Hfired. by apply (to_targets _ _ Hok).
  - intros m. rewrite Hfired. auto.
  - apply Hok.
Qed.

Lemma child_finish_ok targets i tk : tokens_ok targets tk → tokens_ok targets (child_finish i tk).
Proof.
  intros Hok. unfold child_finish. destruct (tk_deriving tk !! i) as [[p c [|]]|] eqn:Hi; try done.
  assert (Hd0 : mkDeriving p c true ∈ tk_deriving tk) by (by eapply list_elem_of_lookup_2).
  destruct (to_deriving _ _ Hok _ Hd0) as (Hpar & Hheld & Hleaf). simpl in Hpar, Hheld, Hleaf.
  set (nodes' := if is_cancelled (tk_nodes tk) p then alter set_cancelled c (tk_nodes tk) else tk_nodes tk).
  assert (Hcs : is_Some (tk_nodes tk !! c)) by (apply (to_roots _ _ Hok), elem_of_token_roots; eauto 10).
  assert (Hfired : ∀ m, is_cancelled nodes' m = true ↔
    is_cancelled (tk_nodes tk) m = true ∨ (m = c ∧ is_cancelled (tk_nodes tk) p = true)).
  { intros m. unfold nodes'. destruct (is_cancelled (tk_nodes tk) p); [|naive_solver].
    rewrite is_cancelled_alter. naive_solver. }
  assert (Hsh : same_shape (tk_nodes tk) nodes').
  { unfold nodes'. destruct (is_cancelled _ _); [|apply same_shape_refl]. by apply same_shape_alter. }
  assert (Hother : ∀ q, q ≠ c → nodes' !! q = tk_nodes tk !! q).
  { unfold nodes'. intros q Hne. destruct (is_cancelled _ _); [|done]. by rewrite lookup_alter_ne. }
  apply (tokens_ok_same targets targets tk); [done|done|done|done|..]; simpl.
  - intros r. rewrite elem_of_token_roots. simpl. intros Hr. apply root_strong; [apply Hok|].
    apply elem_of_token_roots. destruct Hr as [[->%elem_of_singleton|?]%elem_of_union|[(d & Hd & Hr)|?]]; [|auto| |auto].
    + right; left. exists (mkDeriving p c true). auto.
    + right; left. exists d. split; [by eapply elem_of_deleted|done].
  - intros d Hd. pose proof (elem_of_deleted _ _ _ Hd) as Hd2. destruct (to_deriving _ _ Hok d Hd2) as (_ & Hh & _).
    split; [eauto|]. apply not_elem_of_union. split; [|done]. apply not_elem_of_singleton. intros E.
    pose proof (to_distinct _ _ Hok) as Hnd. rewrite <- (take_drop_middle _ _ _ Hi), fmap_app, fmap_cons in Hnd.
    apply NoDup_app in Hnd as (_ & Hout & [Hout2 _]%NoDup_cons). simpl in Hout, Hout2.
    rewrite delete_take_drop in Hd. apply elem_of_app in Hd as [Hd|Hd]; apply (list_elem_of_fmap_2 dv_child) in Hd.
    + apply (Hout _ Hd). rewrite E. left.
    + by rewrite E in Hd.
  - eapply sublist_NoDup; [apply (to_distinct _ _ Hok)|]. apply fmap_sublist, sublist_delete.
  - intros q nq c0 Hq Hc. left. destruct (decide (q = c)) as [->|Hne]; [|rewrite Hother in Hq by done; eauto].
    revert Hq. unfold nodes'. destruct (is_cancelled _ _); [|eauto]. rewrite lookup_alter_eq.
    intros (nc & Hnc & ->)%fmap_Some. eauto.
  - intros c0 q Hq Hs Hre. unfold reached in *. simpl.
    destruct Hre as [Hc|[(d & Hd & <- & Hd2)|[(nq & Hnq & Hcin & Hq2)|Hk]]]; [|..|auto].
    + left. apply Hfired. auto.
    + destruct (elem_of_delete _ _ _ _ Hi Hd) as [->|Hd3]; simpl in *.
      * left. apply Hfired. right. split; [done|]. rewrite Hpar in Hq. injection Hq as <-. by destruct Hd2.
      * right; left. exists d. split_and!; [done..|]. destruct Hd2; [auto|]. right. apply Hfired. auto.
    + right; right; left. exists nq. rewrite Hother; [done|]. intros ->. by apply (Hleaf c0).
  - intros k m Hk Ht. apply Hfired. left. by apply (to_taking _ _ Hok k).
  - intros a Ha. rewrite Hfired. destruct (to_targets _ _ Hok a Ha); auto.
  - intros m [?|[-> Hp]]%Hfired; [auto|]. right. destruct (to_fired _ _ Hok p Hp) as (a & Ha & Hb). exists a.
    split; [done|]. by eapply below_up.
  - apply Hok.
Qed.

(** A fresh leaf under [p]. *)
Section fresh.
Context (targets : gset nat) (tk : Tokens) (p : nat) (fired : bool).
Context (Hok : tokens_ok targets tk) (Hp : is_Some (tk_nodes tk !! p)).
Let nodes' : gmap nat Node := <[tk_next tk := mkNode fired [] (Some p)]> (tk_nodes tk).

Lemma fresh_absent : tk_nodes tk !! tk_next tk = None.
Proof.
  destruct (tk_nodes tk !! tk_next tk) as [node|] eqn:E; [|done].
  destruct (to_nodes _ _ Hok _ _ E) as [Hlt _]. lia.
Qed.

Lemma fresh_parent n : parent_of nodes' n = if decide (n = tk_next tk) then Some p else parent_of (tk_nodes tk) n.
Proof.
  unfold parent_of, nodes'. case_decide as E; [subst; by rewrite lookup_insert_eq|]. by rewrite lookup_insert_ne.
Qed.

Lemma fresh_cancelled n :
  is_cancelled nodes' n = if decide (n = tk_next tk) then fired else is_cancelled (tk_nodes tk) n.
Proof.
  unfold is_cancelled, nodes'. case_decide as E; [subst; by rewrite lookup_insert_eq|]. by rewrite lookup_insert_ne.
Qed.

Lemma fresh_not_parent n : parent_of (tk_nodes tk) n ≠ Some (tk_next tk).
Proof.
  intros (node & Hn & Hpar)%parent_of_Some. destruct (to_nodes _ _ Hok _ _ Hn) as [_ H].
  destruct (H _ Hpar) as [_ [x Hx]]. by rewrite fresh_absent in Hx.
Qed.

Lemma fresh_below_old a n : is_Some (tk_nodes tk !! n) → below nodes' a n ↔ below (tk_nodes tk) a n.
Proof.
  intros Hn. assert (Hne : n ≠ tk_next tk) by (intros ->; rewrite fresh_absent in Hn; by destruct Hn).
  split; intros Hb; revert Hn Hne; induction Hb as [|a q n Hq _ IH]; intros Hn Hne; try constructor.
  - rewrite fresh_parent, decide_False in Hq by done. eapply below_up; [done|]. apply IH.
    + apply parent_of_Some in Hq as (node & Hnn & Hpar). by apply (to_nodes _ _ Hok n node Hnn).
    + intros ->. by apply fresh_not_parent in Hq.
  - apply (below_up _ _ q); [by rewrite fresh_parent, decide_False|]. apply IH.
    + apply parent_of_Some in Hq as (node & Hnn & Hpar). by apply (to_nodes _ _ Hok n node Hnn).
    + intros ->. by apply fresh_not_parent in Hq.
Qed.

Lemma fresh_below_new a : below nodes' a (tk_next tk) → a = tk_next tk ∨ below (tk_nodes tk) a p.
Proof.
  intros Hb. inversion Hb as [|? q ? Hq Hb' ]; subst; [by left|].
  rewrite fresh_parent, decide_True in Hq by done. injection Hq as <-. right. by apply fresh_below_old in Hb'.
Qed.

Lemma fresh_nodes_ok : nodes_ok nodes' (S (tk_next tk)).
Proof.
  intros c node. unfold nodes'. destruct (decide (c = tk_next tk)) as [->|Hne].
  - rewrite lookup_insert_eq. intros [= <-]. split; [lia|]. intros q [= <-].
    destruct Hp as [np Hnp]. destruct (to_nodes _ _ Hok p np Hnp) as [Hlt _]. split; [done|].
    rewrite lookup_insert_ne by lia. eauto.
  - rewrite lookup_insert_ne by done. intros Hc. destruct (to_nodes _ _ Hok c node Hc) as [Hlt Hpar]. split; [lia|].
    intros q Hq. destruct (Hpar q Hq) as [? [nq Hnq]]. split; [done|]. rewrite lookup_insert_ne by lia. eauto.
Qed.

(** Roots besides the fresh node are roots of before, and [p] is one. *)
Lemma fresh_strong tk' n :
  tk_nodes tk' = nodes' → tk_next tk' = S (tk_next tk) → p ∈ token_roots tk →
  (∀ r, r ∈ token_roots tk' → r = tk_next tk ∨ r ∈ token_roots tk) →
  n ≠ tk_next tk → strong tk' n = true → strong tk n = true.
Proof.
  intros Hn' Hx Hpr Hroots Hne Hs. apply strong_spec in Hs as (r & Hr & Hb).
  2: { rewrite Hn', Hx. apply fresh_nodes_ok. }
  apply strong_spec; [apply Hok|]. rewrite Hn' in Hb. destruct (Hroots r Hr) as [->|Hold].
  - apply fresh_below_new in Hb as [?|Hb]; [done|]. eauto.
  - exists r. split; [done|]. apply fresh_below_old; [|done]. by apply (to_roots _ _ Hok).
Qed.
End fresh.

Lemma child_start_ok targets p tk : tokens_ok targets tk → p ∈ tk_held tk → tokens_ok targets (child_start p tk).
Proof.
  intros Hok Hheld. assert (Hpr : p ∈ token_roots tk) by (apply elem_of_token_roots; auto).
  pose proof (to_roots _ _ Hok p Hpr) as Hp. set (c := tk_next tk). set (fired := is_cancelled (tk_nodes tk) p).
  pose proof (fresh_absent _ _ Hok) as Habs. fold c in Habs.
  set (nodes' := <[c := mkNode fired [] (Some p)]> (tk_nodes tk)).
  pose proof (fresh_parent tk p fired) as Hpar. fold c nodes' in Hpar.
  pose proof (fresh_cancelled tk p fired) as Hcan. fold c nodes' in Hcan.
  assert (Hcn : c ∉ tk_held tk).
  { intros Hc. destruct (to_roots _ _ Hok c) as [x Hx]; [apply elem_of_token_roots; auto|congruence]. }
  assert (Hpc : p ≠ c) by (intros ->; done).
  assert (Hcalls : tk_cancelling (child_start p tk) = tk_cancelling tk)
    by (unfold child_start; by destruct (is_cancelled _ _)).
  assert (Hnodes : tk_nodes (child_start p tk) = nodes') by (unfold child_start, nodes', fired; by destruct (is_cancelled _ _)).
  assert (Hnext : tk_next (child_start p tk) = S c) by (unfold child_start; by destruct (is_cancelled _ _)).
  assert (Hder : ∀ d, d ∈ tk_deriving (child_start p tk) → d ∈ tk_deriving tk ∨ (d = mkDeriving p c false ∧ fired = false)).
  { unfold child_start, fired. destruct (is_cancelled _ _); simpl; [auto|]. intros d.
    rewrite elem_of_app, list_elem_of_singleton. naive_solver. }
  assert (Hder' : ∀ d, d ∈ tk_deriving tk → d ∈ tk_deriving (child_start p tk)).
  { unfold child_start. destruct (is_cancelled _ _); simpl; [auto|]. intros d. rewrite elem_of_app. auto. }
  assert (Hh : ∀ n, n ∈ tk_held (child_start p tk) → n ∈ tk_held tk ∨ (n = c ∧ fired = true)).
  { unfold child_start, fired. destruct (is_cancelled _ _); simpl; [|auto]. set_solver. }
  assert (Hroots : ∀ r, r ∈ token_roots (child_start p tk) → r = c ∨ r ∈ token_roots tk).
  { intros r. rewrite !elem_of_token_roots, Hcalls. intros [[?|[-> _]]%Hh|[(d & [Hd|[-> _]]%Hder & Hr)|?]]; eauto 10.
    simpl in Hr. destruct Hr as [->| ->]; auto. }
  assert (Hbel : ∀ a n, is_Some (tk_nodes tk !! n) → below (tk_nodes tk) a n → below nodes' a n).
  { intros a n Hn. by apply (fresh_below_old targets tk p fired). }
  assert (Hpres : ∀ n, n ≠ c → nodes' !! n = tk_nodes tk !! n) by (intros n Hne; by apply lookup_insert_ne).
  assert (Hdp : ∀ d, d ∈ tk_deriving tk → dv_child d ≠ c).
  { intros d Hd E. destruct (to_roots _ _ Hok (dv_child d)) as [x Hx]; [apply elem_of_token_roots; eauto 10|]. congruence. }
  split; rewrite ?Hnodes, ?Hnext, ?Hcalls.
  - by apply (fresh_nodes_ok targets tk p fired).
  - intros r [->|Hr]%Hroots; [unfold nodes'; by rewrite lookup_insert_eq|]. destruct (to_roots _ _ Hok r Hr) as [x Hx].
    rewrite Hpres by congruence. eauto.
  - intros d [Hd|[-> Hf]]%Hder.
    + destruct (to_deriving _ _ Hok d Hd) as (Hdpar & Hdh & Hleaf). rewrite Hpar, decide_False by (by apply Hdp).
      split_and!; [done|by intros [?|[? _]]%Hh; [|by apply (Hdp d Hd)]|]. intros g. rewrite Hpar. case_decide; [|apply Hleaf].
      intros [= E]. apply Hdh. by rewrite <- E.
    + simpl. rewrite Hpar, decide_True by done. split_and!; [done|intros [?|[_ ?]]%Hh; [done|congruence]|].
      intros g. rewrite Hpar. case_decide; [congruence|]. by apply fresh_not_parent with (targets := targets).
  - unfold child_start. fold fired c. destruct fired; simpl; [apply Hok|]. rewrite fmap_app. apply NoDup_snoc; [apply Hok|].
    intros (d & E & Hd)%list_elem_of_fmap. by apply (Hdp d Hd).
  - intros q nq x Hq Hx. destruct (decide (q = c)) as [->|Hne].
    + unfold nodes' in Hq. rewrite lookup_insert_eq in Hq. injection Hq as <-. by apply not_elem_of_nil in Hx.
    + rewrite Hpres in Hq by done. pose proof (to_children _ _ Hok q nq x Hq Hx) as Hxq. rewrite Hpar, decide_False; [done|].
      intros ->. apply parent_of_Some in Hxq as (node & Hn & _). congruence.
  - intros x q Hxq Hs. rewrite Hpar in Hxq. unfold reached. rewrite Hnodes, Hcalls. setoid_rewrite Hcan.
    case_decide as E.
    + injection Hxq as <-. subst x. destruct fired eqn:Hf; [by left|]. right; left. exists (mkDeriving p c false).
      split_and!; [|done|auto]. unfold child_start. fold fired. rewrite Hf. simpl. fold c. set_solver.
    + assert (q ≠ c) as Hqc by (intros ->; by apply (fresh_not_parent targets tk Hok) in Hxq).
      rewrite (decide_False (P := q = c)) by done. rewrite Hpres by done.
      assert (Hso : strong tk x = true).
      { by apply (fresh_strong targets tk p fired Hok Hp (child_start p tk)). }
      destruct (to_reach _ _ Hok x q Hxq Hso) as [?|[(d & ? & ? & ?)|[?|?]]]; eauto 10.
  - intros k n Hk Ht. rewrite Hcan. pose proof (to_taking _ _ Hok k n Hk Ht) as Hc. case_decide as E; [|done].
    subst n. unfold is_cancelled in Hc. by rewrite Habs in Hc.
  - intros a Ha. rewrite Hcan. destruct (to_targets _ _ Hok a Ha) as [Hc|?]; [|auto]. left. case_decide as E; [|done].
    subst a. unfold is_cancelled in Hc. by rewrite Habs in Hc.
  - intros n. rewrite Hcan. case_decide as E.
    + intros Hf. destruct (to_fired _ _ Hok p Hf) as (a & Ha & Hb). exists a. split; [done|]. subst n.
      apply (below_up _ _ p); [by rewrite Hpar, decide_True|]. by apply Hbel.
    + intros Hc. destruct (to_fired _ _ Hok n Hc) as (a & Ha & Hb). exists a. split; [done|]. apply Hbel; [|done].
      unfold is_cancelled in Hc. by destruct (tk_nodes tk !! n).
  - intros k n Hk Hn. destruct (to_pending _ _ Hok k n Hk Hn) as (a & Ha & Hb). exists a. split; [done|].
    apply Hbel; [|done]. apply (to_roots _ _ Hok), elem_of_token_roots. eauto 10.
Qed.

Lemma token_run_ok targets tk : token_run targets tk → tokens_ok targets tk.
Proof.
  induction 1 as [|targets tk op _ IH Ha]; [apply root_ok|]. destruct op; simpl in *.
  - by apply child_start_ok.
  - by apply child_push_ok.
  - by apply child_finish_ok.
  - by apply cancel_start_ok.
  - by apply cancel_fire_ok.
  - by apply cancel_take_ok.
  - by apply cancel_done_ok.
  - by apply drop_ok.
Qed.

Lemma strong_parent targets tk n p :
  tokens_ok targets tk → parent_of (tk_nodes tk) n = Some p → strong tk n = true → strong tk p = true.
Proof.
  intros Hok Hp (r & Hr & Hb)%strong_spec; [|apply Hok]. apply strong_spec; [apply Hok|]. exists r. split; [done|].
  eapply below_trans; [|done]. eapply below_up; [done|constructor].
Qed.

Lemma fired_reaches targets tk a n :
  tokens_ok targets tk → tk_deriving tk = [] → tk_cancelling tk = [] →
  is_cancelled (tk_nodes tk) a = true → below (tk_nodes tk) a n → strong tk n = true →
  is_cancelled (tk_nodes tk) n = true.
Proof.
  intros Hok Hd Hk Ha. induction 1 as [|a p n Hp _ IH]; [done|]. intros Hs.
  pose proof (IH Ha (strong_parent _ _ _ _ Hok Hp Hs)) as Hcp.
  destruct (to_reach _ _ Hok n p Hp Hs) as [?|[(d & Hin & _)|[(np & Hnp & _ & [Hf|(k & Hin & _)])|(k & Hin & _)]]]; [done|..].
  - rewrite Hd in Hin. by apply not_elem_of_nil in Hin.
  - unfold is_cancelled in Hcp. rewrite Hnp in Hcp. congruence.
  - rewrite Hk in Hin. by apply not_elem_of_nil in Hin.
  - rewrite Hk in Hin. by apply not_elem_of_nil in Hin.
Qed.

(** C34. Cancellation reaches exactly the subtree.  However derivations,
    cancellations and drops of tokens interleave on any number of threads, once
    no [child] or [cancel] call is in progress a token that is still referred to
    has fired exactly when [cancel] was called on it or on one of its ancestors,
    whether it was derived before, during or after that call and whichever
    tokens in between were dropped. *)
Theorem cancellation_exact (targets : gset nat) (tk : Tokens) (n : nat)
    (Hrun : token_run targets tk) (Hderived : tk_deriving tk = []) (Hcancelled : tk_cancelling tk = [])
    (Hlive : strong tk n = true) :
  is_cancelled (tk_nodes tk) n = true ↔ ∃ a, a ∈ targets ∧ below (tk_nodes tk) a n.
Proof.
  apply token_run_ok in Hrun as Hok. split; [apply Hok|]. intros (a & Ha & Hb).
  destruct (to_targets _ _ Hok a Ha) as [Hc|(k & Hk & _)]; [by eapply fired_reaches|].
  rewrite Hcancelled in Hk. by apply not_elem_of_nil in Hk.
Qed.

(** ** Every [cancel] call ends *)

Definition node_work (nodes : gmap nat Node) (n : nat) : nat :=
  match nodes !! n with
  | Some node => length (nd_children node) + (if nd_cancelled node then 0 else 2)
  | None => 0
  end.

Definition call_work (k : Cancelling) : nat :=
  1 + (match cl_taking k with Some _ => 1 | None => 0 end) + length (cl_pending k).

Definition cancel_work (tk : Tokens) : nat :=
  sum_list_with call_work (tk_cancelling tk) + sum_list_with (node_work (tk_nodes tk)) (seq 0 (tk_next tk)).

Lemma sum_list_with_ext {A} (f g : A → nat) l : (∀ x, x ∈ l → f x = g x) → sum_list_with f l = sum_list_with g l.
Proof.
  induction l as [|x l IH]; intros H; simpl; [done|]. rewrite (H x) by left. f_equal. apply IH. intros y Hy. apply H. by right.
Qed.

Lemma sum_list_with_change (f g : nat → nat) l n :
  NoDup l → n ∈ l → (∀ m, m ≠ n → g m = f m) → sum_list_with g l + f n = sum_list_with f l + g n.
Proof.
  intros Hnd Hn Hfg. induction l as [|x l IH]; [by apply not_elem_of_nil in Hn|]. apply NoDup_cons in Hnd as [Hx Hnd].
  simpl. apply elem_of_cons in Hn as [->|Hn].
  - rewrite (sum_list_with_ext g f l); [lia|]. intros y Hy. apply Hfg. by intros ->.
  - rewrite (Hfg x) by (by intros ->). specialize (IH Hnd Hn). lia.
Qed.

Lemma sum_list_with_insert {A} (f : A → nat) l i x y :
  l !! i = Some x → sum_list_with f (<[i := y]> l) + f x = sum_list_with f l + f y.
Proof.
  intros Hi. rewrite (insert_take_drop _ _ _ (lookup_lt_Some _ _ _ Hi)).
  rewrite <- (take_drop_middle _ _ _ Hi) at 3. rewrite !sum_list_with_app. simpl. lia.
Qed.

Lemma sum_list_with_delete {A} (f : A → nat) l i x :
  l !! i = Some x → sum_list_with f (delete i l) + f x = sum_list_with f l.
Proof.
  intros Hi. rewrite <- (take_drop_middle _ _ _ Hi) at 2. rewrite delete_take_drop, !sum_list_with_app. simpl. lia.
Qed.

(** One node changed. *)
Lemma nodes_work_alter targets tk f n node :
  tokens_ok targets tk → tk_nodes tk !! n = Some node →
  sum_list_with (node_work (alter f n (tk_nodes tk))) (seq 0 (tk_next tk)) + node_work (tk_nodes tk) n =
  sum_list_with (node_work (tk_nodes tk)) (seq 0 (tk_next tk)) + node_work {[n := f node]} n.
Proof.
  intros Hok Hn. assert (E : node_work {[n := f node]} n = node_work (alter f n (tk_nodes tk)) n).
  { unfold node_work. by rewrite lookup_alter_eq, Hn, lookup_singleton_eq. }
  rewrite E. apply sum_list_with_change.
  - apply NoDup_seq.
  - apply elem_of_seq. destruct (to_nodes _ _ Hok n node Hn). lia.
  - intros m Hne. unfold node_work. by rewrite lookup_alter_ne.
Qed.

(** The next step of a call. *)
Definition call_step (i : nat) (k : Cancelling) : TokenOp :=
  match k with
  | mkCancelling (Some _) _ => TTake i
  | mkCancelling None [] => TDone i
  | mkCancelling None _ => TFire i
  end.

(** Cancelling ends.  In every reachable state each [cancel] call in
    progress has a next step, and that step strictly lessens the work left to
    all calls together; so without new derivations the calls end after at most
    [cancel_work] steps, in whichever order they are scheduled and however deep
    the tree. *)
Theorem cancel_calls_end (targets : gset nat) (tk : Tokens) (i : nat) (k : Cancelling)
    (Hrun : token_run targets tk) (Hcall : tk_cancelling tk !! i = Some k) :
  cancel_work (token_step (call_step i k) tk) < cancel_work tk.
Proof.
  apply token_run_ok in Hrun as Hok. assert (Hk : k ∈ tk_cancelling tk) by (by eapply list_elem_of_lookup_2).
  unfold cancel_work. destruct k as [[n|] pending]; simpl.
  - unfold cancel_take. rewrite Hcall. simpl. pose proof (to_taking _ _ Hok _ n Hk eq_refl) as Hf.
    unfold is_cancelled in Hf. destruct (tk_nodes tk !! n) as [node|] eqn:Hn; [|done].
    pose proof (nodes_work_alter _ _ (set_children []) n node Hok Hn) as Hw.
    pose proof (sum_list_with_insert call_work _ _ _
      (mkCancelling None (pending ++ List.filter (strong tk) (nd_children node))) Hcall) as Hc.
    pose proof (List.filter_length_le (strong tk) (nd_children node)) as Hl.
    unfold call_work in Hc at 2 4. simpl in Hc. rewrite length_app in Hc.
    unfold node_work in Hw at 2 4. rewrite lookup_singleton_eq, Hn in Hw. simpl in Hw. rewrite Hf in Hw. lia.
  - destruct (last pending) as [n|] eqn:Hl; cycle 1.
    { apply last_None in Hl as ->. simpl. unfold cancel_done. rewrite Hcall. simpl.
      pose proof (sum_list_with_delete call_work _ _ _ Hcall) as Hc. unfold call_work in Hc at 2. simpl in Hc. lia. }
    pose proof (last_rest _ _ Hl) as Hp. set (rest := take (length pending - 1) pending) in *.
    assert (Hlen : length pending = S (length rest)) by (rewrite Hp at 1; rewrite length_app; simpl; lia).
    assert (E : call_step i (mkCancelling None pending) = TFire i) by (by destruct pending).
    simpl in E. rewrite E. simpl. unfold cancel_fire. rewrite Hcall, Hl. fold rest.
    destruct (is_cancelled (tk_nodes tk) n) eqn:Hf; simpl.
    + pose proof (sum_list_with_insert call_work _ _ _ (mkCancelling None rest) Hcall) as Hc.
      unfold call_work in Hc at 2 4. simpl in Hc. lia.
    + pose proof (sum_list_with_insert call_work _ _ _ (mkCancelling (Some n) rest) Hcall) as Hc.
      unfold call_work in Hc at 2 4. simpl in Hc.
      destruct (to_roots _ _ Hok n) as [node Hn].
      { apply elem_of_token_roots. right; right. exists (mkCancelling None pending). split; [done|]. right.
        simpl. rewrite Hp. set_solver. }
      pose proof (nodes_work_alter _ _ set_cancelled n node Hok Hn) as Hw.
      unfold is_cancelled in Hf. rewrite Hn in Hf.
      unfold node_work in Hw at 2 4. rewrite lookup_singleton_eq, Hn in Hw. simpl in Hw. rewrite Hf in Hw. lia.
Qed.

Module CancelWitness.
Definition tokens_after (ops : list TokenOp) : Tokens := foldl (λ tk op, token_step op tk) root ops.

Definition target_of (op : TokenOp) (targets : gset nat) : gset nat :=
  match op with TCancel n => {[n]} ∪ targets | _ => targets end.
Definition targets_after (ops : list TokenOp) : gset nat := foldl (λ targets op, target_of op targets) ∅ ops.

Definition allowed (op : TokenOp) (tk : Tokens) : bool :=
  match op with TChild n | TCancel n => bool_decide (n ∈ tk_held tk) | _ => true end.
Fixpoint all_allowed (ops : list TokenOp) (tk : Tokens) : bool :=
  match ops with [] => true | op :: ops => allowed op tk && all_allowed ops (token_step op tk) end.

Lemma tokens_after_run ops : all_allowed ops root = true → token_run (targets_after ops) (tokens_after ops).
Proof.
  unfold tokens_after, targets_after. generalize token_root. generalize (∅ : gset nat), root.
  induction ops as [|op ops IH]; intros targets tk Hr Ha; [exact Hr|]. simpl in *.
  apply andb_true_iff in Ha as [Ha Hrest]. apply IH; [|exact Hrest].
  apply (token_next targets tk op Hr). destruct op; simpl in *; try exact I; by apply bool_decide_eq_true in Ha.
Qed.

(** A child and a grandchild, the child dropped, the root cancelled while the
    grandchild derives another token. *)
Definition raced : list TokenOp :=
  [TChild 0; TPush 0; TDerived 0; TChild 1; TPush 0; TDerived 0; TDrop 1;
   TCancel 0; TFire 0; TChild 2; TTake 0; TFire 0; TTake 0; TFire 0; TTake 0; TDone 0; TPush 0; TDerived 0].

Lemma cancellation_exact_witness :
  is_cancelled (tk_nodes (tokens_after raced)) 3 = true ↔
  ∃ a, a ∈ targets_after raced ∧ below (tk_nodes (tokens_after raced)) a 3.
Proof.
  apply (cancellation_exact (targets_after raced) (tokens_after raced) 3).
  - apply tokens_after_run. vm_compute. reflexivity.
  - vm_compute. reflexivity.
  - vm_compute. reflexivity.
  - vm_compute. reflexivity.
Defined.

Example raced_fires : is_cancelled (tk_nodes (tokens_after raced)) 3 = true.
Proof. vm_compute. reflexivity. Qed.

Lemma cancel_calls_end_witness :
  cancel_work (token_step (call_step 0 (mkCancelling (Some 0) [])) (tokens_after (take 10 raced))) <
  cancel_work (tokens_after (take 10 raced)).
Proof.
  apply (cancel_calls_end (targets_after (take 10 raced)) (tokens_after (take 10 raced)) 0 (mkCancelling (Some 0) [])).
  - apply tokens_after_run. vm_compute. reflexivity.
  - vm_compute. reflexivity.
Defined.
End CancelWitness.
