(* ===== verification/Runtime.v ===== *)
(** * The task runtime ([crates/fava-runtime])

    [Runtime] owns every task: a registry of join handles, a count of running
    provider operations, and a shutdown that joins what is registered.  Its
    calls run on many threads, so [register], [reserve_provider_slot], the end of
    a task and [shutdown] are split at their atomic operations; [RtWorld] holds
    the runtime, the tasks that run and the calls in progress, and [rt_step]
    interleaves them.  [Channel] is a bounded command channel, [provider_answer]
    what [call_provider] makes of an answer, and [panic_detail] the text it keeps
    of a panic.

    The executor and the channels of tokio are modelled by what they hold; the
    root token is the flag [in_fired], its tree is [Cancel].  [abort] marks a task,
    which goes on until the executor drops it at an await, or to its end.  A caller
    may drop a [shutdown] that awaits a join.  Task ordinals are unbounded where the
    code counts modulo 2^64. *)

From S2P Require Import Prelude Nostr Relay State Write Query Cancel.

(** ** Bounded channels ([channel.rs]) *)

Inductive SendRefusal := Full (depth : nat) | ChannelClosed | DeadlineExpired.

Record SendRefused (T : Type) := mkSendRefused { sr_value : T; sr_reason : SendRefusal }.
Arguments mkSendRefused {T}.
Arguments sr_value {T}.
Arguments sr_reason {T}.

Record Channel (T : Type) := mkChannel {
  ch_queue : list T;
  ch_depth : nat;
  ch_closed : bool
}.
Arguments mkChannel {T}.
Arguments ch_queue {T}.
Arguments ch_depth {T}.
Arguments ch_closed {T}.

Section channel.
Context {T : Type}.
Implicit Types (c : Channel T).

Definition channel_build (depth : nat) (closed : bool) : Channel T := mkChannel [] depth closed.

Definition try_send (value : T) c : result (SendRefused T) unit * Channel T :=
  if ch_closed c then (Err (mkSendRefused value ChannelClosed), c)
  else if bool_decide (ch_depth c ≤ length (ch_queue c)) then (Err (mkSendRefused value (Full (ch_depth c))), c)
  else (Ok tt, mkChannel (ch_queue c ++ [value]) (ch_depth c) (ch_closed c)).

(** [send_before]: the channel as it is when the wait for capacity ends, by room,
    by closing or ([expired]) by the deadline. *)
Definition send_before (value : T) (expired : bool) c : result (SendRefused T) unit * Channel T :=
  if expired then (Err (mkSendRefused value DeadlineExpired), c)
  else if ch_closed c then (Err (mkSendRefused value ChannelClosed), c)
  else (Ok tt, mkChannel (ch_queue c ++ [value]) (ch_depth c) (ch_closed c)).

(** The wait of [send_before] is over without the deadline. *)
Definition send_ready c : bool := ch_closed c || bool_decide (length (ch_queue c) < ch_depth c).

Definition try_recv c : option T * Channel T :=
  match ch_queue c with
  | [] => (None, c)
  | value :: queue => (Some value, mkChannel queue (ch_depth c) (ch_closed c))
  end.

Definition channel_close c : Channel T := mkChannel (ch_queue c) (ch_depth c) true.
Definition channel_len c : nat := length (ch_queue c).
End channel.

(** ** Panics ([provider.rs]) *)

Definition PANIC_DETAIL_CAPACITY : nat := 512.

Inductive PanicPayload := PanicText (text : string) | PanicOther.

(** [truncate]. *)
Definition truncate_detail (detail : string) : string :=
  if bool_decide (String.length detail ≤ PANIC_DETAIL_CAPACITY) then detail
  else String.substring 0 (boundary_at_most detail PANIC_DETAIL_CAPACITY) detail.

Definition panic_detail (payload : PanicPayload) : string :=
  truncate_detail (match payload with PanicText text => text | PanicOther => "unknown panic payload" end).

Definition OperationName : Type := string.
Definition TaskName : Type := string.

Inductive ProviderCompletion (T : Type) :=
| Completed (operation : OperationName) (generation : Round) (value : T)
| TimedOut (operation : OperationName) (generation : Round) (after : N)
| Panicked (operation : OperationName) (generation : Round) (detail : string)
| CallCancelled (operation : OperationName) (generation : Round)
| CallRefused (operation : OperationName) (generation : Round).
Arguments Completed {T}.
Arguments TimedOut {T}.
Arguments Panicked {T}.
Arguments CallCancelled {T}.
Arguments CallRefused {T}.

Definition completion_generation {T} (c : ProviderCompletion T) : Round :=
  match c with
  | Completed _ g _ | TimedOut _ g _ | Panicked _ g _ | CallCancelled _ g | CallRefused _ g => g
  end.
Definition completion_operation {T} (c : ProviderCompletion T) : OperationName :=
  match c with
  | Completed o _ _ | TimedOut o _ _ | Panicked o _ _ | CallCancelled o _ | CallRefused o _ => o
  end.
Definition completion_value {T} (c : ProviderCompletion T) : option T :=
  match c with Completed _ _ value => Some value | _ => None end.

(** What the one-shot channel of a provider task holds when the wait ends. *)
Inductive ProviderAnswer (T : Type) :=
| Answered (value : T)
| AnswerPanicked (payload : PanicPayload)
| AnswerDropped
| NoAnswer.
Arguments Answered {T}.
Arguments AnswerPanicked {T}.
Arguments AnswerDropped {T}.
Arguments NoAnswer {T}.

(** The biased select of [call_provider]; [NoAnswer] is the deadline's. *)
Definition provider_answer {T} (operation : OperationName) (generation : Round) (deadline : N)
    (fired : bool) (answer : ProviderAnswer T) : ProviderCompletion T :=
  if fired then CallCancelled operation generation
  else match answer with
       | Answered value => Completed operation generation value
       | AnswerPanicked payload => Panicked operation generation (panic_detail payload)
       | AnswerDropped => CallCancelled operation generation
       | NoAnswer => TimedOut operation generation deadline
       end.

(** [TaskHandle::join] ([task.rs]). *)
Inductive TaskFailure := TaskPanicked (name : TaskName) (detail : string) | TaskAborted (name : TaskName).

Definition task_join {T} (name : TaskName) (outcome : option (result PanicPayload T)) : result TaskFailure T :=
  match outcome with
  | Some (Ok value) => Ok value
  | Some (Err payload) => Err (TaskPanicked name (panic_detail payload))
  | None => Err (TaskAborted name)
  end.

(** ** The runtime ([runtime.rs]) *)

Record RuntimeConfig := mkConfig {
  default_channel_depth : nat;
  max_tasks : nat;
  max_provider_operations : nat
}.

Inductive RuntimeError :=
| TaskLimit (limit : nat)
| ProviderOperationLimit (limit : nat)
| ShuttingDown
| ShutdownIncomplete (tasks : list TaskName).

Record Inner := mkInner {
  in_config : RuntimeConfig;
  in_fired : bool;
  in_shutting_down : bool;
  in_next_ordinal : N;
  in_registry : gmap N TaskName;
  in_provider_operations : nat
}.

Definition Runtime_new (config : RuntimeConfig) : Inner := mkInner config false false 0 ∅ 0.

Definition set_operations (n : nat) (i : Inner) : Inner :=
  mkInner (in_config i) (in_fired i) (in_shutting_down i) (in_next_ordinal i) (in_registry i) n.
Definition set_registry (m : gmap N TaskName) (i : Inner) : Inner :=
  mkInner (in_config i) (in_fired i) (in_shutting_down i) (in_next_ordinal i) m (in_provider_operations i).
Definition issue_ordinal (i : Inner) : Inner :=
  mkInner (in_config i) (in_fired i) (in_shutting_down i) (in_next_ordinal i + 1) (in_registry i)
    (in_provider_operations i).
Definition begin_shutdown (i : Inner) : Inner :=
  mkInner (in_config i) (in_fired i) true (in_next_ordinal i) (in_registry i) (in_provider_operations i).
Definition fire_root (i : Inner) : Inner :=
  mkInner (in_config i) true (in_shutting_down i) (in_next_ordinal i) (in_registry i) (in_provider_operations i).

Definition deregister (ordinal : N) (i : Inner) : Inner := set_registry (delete ordinal (in_registry i)) i.
Definition release_provider_slot (i : Inner) : Inner := set_operations (in_provider_operations i - 1) i.
Definition outstanding_tasks (i : Inner) : list TaskName := values (in_registry i).
Definition running_provider_operations (i : Inner) : nat := in_provider_operations i.

Definition runtime_channel {T} (depth : nat) (i : Inner) : Channel T := channel_build depth (in_shutting_down i).
Definition default_channel {T} (i : Inner) : Channel T :=
  runtime_channel (default_channel_depth (in_config i)) i.

(** *** Tasks and calls in progress *)

(** A task: its future runs; it has answered; it has released its slot and will
    deregister itself. *)
Inductive TaskPhase := TaskRuns | TaskAnswered | TaskReleased.
#[global] Instance TaskPhase_eq_dec : EqDecision TaskPhase.
Proof. solve_decision. Defined.

(** [ta_aborted]: the handle was aborted.  The task goes on until its next await,
    where it is dropped, or to its end. *)
Record Task := mkTask { ta_name : TaskName; ta_slot : bool; ta_phase : TaskPhase; ta_aborted : bool }.

Definition set_aborted (t : Task) : Task := mkTask (ta_name t) (ta_slot t) (ta_phase t) true.

(** A [shutdown] call: what it does next. *)
Inductive ShutdownCall :=
| SdCancel
| SdTake
| SdJoin (taken : list (N * TaskName)) (unjoined : list TaskName).

Record RtWorld := mkWorld {
  rt_inner : Inner;
  rt_tasks : gmap N Task;
  (** [register] calls between the shutdown check and the lock, with whether
      they hold a provider slot *)
  rt_registering : list (TaskName * bool);
  (** [reserve_provider_slot] calls between the check and the increment *)
  rt_reserving : list OperationName;
  (** [call_provider] calls that hold a slot and have not reached [register] *)
  rt_reserved : list OperationName;
  (** slots of refused calls, still to be taken back *)
  rt_overshot : nat;
  rt_shutdowns : list ShutdownCall;
  (** what [shutdown] calls have returned *)
  rt_returned : list (result RuntimeError unit);
  (** [shutdown] calls dropped by their caller at a join *)
  rt_abandoned : list ShutdownCall;
  (** aborted tasks dropped at an await *)
  rt_dropped : list Task
}.

Definition rt_start (config : RuntimeConfig) : RtWorld := mkWorld (Runtime_new config) ∅ [] [] [] 0 [] [] [] [].

Definition put_inner (i : Inner) (w : RtWorld) : RtWorld :=
  mkWorld i (rt_tasks w) (rt_registering w) (rt_reserving w) (rt_reserved w) (rt_overshot w) (rt_shutdowns w)
    (rt_returned w) (rt_abandoned w) (rt_dropped w).
Definition put_tasks (m : gmap N Task) (w : RtWorld) : RtWorld :=
  mkWorld (rt_inner w) m (rt_registering w) (rt_reserving w) (rt_reserved w) (rt_overshot w) (rt_shutdowns w)
    (rt_returned w) (rt_abandoned w) (rt_dropped w).
Definition put_registering (l : list (TaskName * bool)) (w : RtWorld) : RtWorld :=
  mkWorld (rt_inner w) (rt_tasks w) l (rt_reserving w) (rt_reserved w) (rt_overshot w) (rt_shutdowns w)
    (rt_returned w) (rt_abandoned w) (rt_dropped w).
Definition put_reserving (l : list OperationName) (w : RtWorld) : RtWorld :=
  mkWorld (rt_inner w) (rt_tasks w) (rt_registering w) l (rt_reserved w) (rt_overshot w) (rt_shutdowns w)
    (rt_returned w) (rt_abandoned w) (rt_dropped w).
Definition put_reserved (l : list OperationName) (w : RtWorld) : RtWorld :=
  mkWorld (rt_inner w) (rt_tasks w) (rt_registering w) (rt_reserving w) l (rt_overshot w) (rt_shutdowns w)
    (rt_returned w) (rt_abandoned w) (rt_dropped w).
Definition put_overshot (n : nat) (w : RtWorld) : RtWorld :=
  mkWorld (rt_inner w) (rt_tasks w) (rt_registering w) (rt_reserving w) (rt_reserved w) n (rt_shutdowns w)
    (rt_returned w) (rt_abandoned w) (rt_dropped w).
Definition put_shutdowns (l : list ShutdownCall) (w : RtWorld) : RtWorld :=
  mkWorld (rt_inner w) (rt_tasks w) (rt_registering w) (rt_reserving w) (rt_reserved w) (rt_overshot w) l
    (rt_returned w) (rt_abandoned w) (rt_dropped w).
Definition put_returned (l : list (result RuntimeError unit)) (w : RtWorld) : RtWorld :=
  mkWorld (rt_inner w) (rt_tasks w) (rt_registering w) (rt_reserving w) (rt_reserved w) (rt_overshot w) (rt_shutdowns w)
    l (rt_abandoned w) (rt_dropped w).
Definition put_abandoned (l : list ShutdownCall) (w : RtWorld) : RtWorld :=
  mkWorld (rt_inner w) (rt_tasks w) (rt_registering w) (rt_reserving w) (rt_reserved w) (rt_overshot w) (rt_shutdowns w)
    (rt_returned w) l (rt_dropped w).
Definition put_dropped (l : list Task) (w : RtWorld) : RtWorld :=
  mkWorld (rt_inner w) (rt_tasks w) (rt_registering w) (rt_reserving w) (rt_reserved w) (rt_overshot w) (rt_shutdowns w)
    (rt_returned w) (rt_abandoned w) l.

(** The shutdown check of [register]. *)
Definition register_check (name : TaskName) (slot : bool) (w : RtWorld) : result RuntimeError unit * RtWorld :=
  if in_shutting_down (rt_inner w) then (Err ShuttingDown, w)
  else (Ok tt, put_registering (rt_registering w ++ [(name, slot)]) w).

(** A refused [register]: [call_provider] has still to release its slot. *)
Definition register_refused (slot : bool) (w : RtWorld) : RtWorld :=
  if slot then put_overshot (S (rt_overshot w)) w else w.

(** The rest of [register], under the registry lock. *)
Definition register_commit (i : nat) (w : RtWorld) : result RuntimeError N * RtWorld :=
  match (rt_registering w !! i : option (TaskName * bool)) with
  | None => (Err ShuttingDown, w)
  | Some (name, slot) =>
      let inner := rt_inner w in
      let w := put_registering (delete i (rt_registering w)) w in
      if bool_decide (max_tasks (in_config inner) ≤ size (in_registry inner))
      then (Err (TaskLimit (max_tasks (in_config inner))), register_refused slot w)
      else
        let ordinal := in_next_ordinal inner in
        (Ok ordinal,
         put_inner (set_registry (<[ordinal := name]> (in_registry inner)) (issue_ordinal inner))
           (put_tasks (<[ordinal := mkTask name slot TaskRuns false]> (rt_tasks w)) w))
  end.

(** [reserve_provider_slot]: the check. *)
Definition reserve_check (operation : OperationName) (w : RtWorld) : bool * RtWorld :=
  if in_shutting_down (rt_inner w) then (false, w)
  else (true, put_reserving (rt_reserving w ++ [operation]) w).

(** The increment; a call within the bound holds its slot. *)
Definition reserve_add (i : nat) (w : RtWorld) : bool * RtWorld :=
  match rt_reserving w !! i with
  | None => (false, w)
  | Some operation =>
      let prior := in_provider_operations (rt_inner w) in
      let inner := set_operations (S prior) (rt_inner w) in
      let w := put_inner inner (put_reserving (delete i (rt_reserving w)) w) in
      if bool_decide (max_provider_operations (in_config inner) ≤ prior)
      then (false, put_overshot (S (rt_overshot w)) w)
      else (true, put_reserved (rt_reserved w ++ [operation]) w)
  end.

(** A [call_provider] with its slot reaches the check of [register]. *)
Definition call_register (i : nat) (w : RtWorld) : result RuntimeError unit * RtWorld :=
  match rt_reserved w !! i with
  | None => (Err ShuttingDown, w)
  | Some operation =>
      match register_check operation true (put_reserved (delete i (rt_reserved w)) w) with
      | (Ok _, w) => (Ok tt, w)
      | (Err e, w) => (Err e, register_refused true w)
      end
  end.

(** The decrement of a refused call. *)
Definition reserve_release (w : RtWorld) : RtWorld :=
  match rt_overshot w with
  | 0 => w
  | S n => put_inner (release_provider_slot (rt_inner w)) (put_overshot n w)
  end.

(** The future of a task has resolved or panicked, and its answer is sent. *)
Definition task_answers (ordinal : N) (w : RtWorld) : RtWorld :=
  match rt_tasks w !! ordinal with
  | Some (mkTask name slot TaskRuns aborted) =>
      put_tasks (<[ordinal := mkTask name slot TaskAnswered aborted]> (rt_tasks w)) w
  | _ => w
  end.

(** The executor drops an aborted task at an await: neither [finish] nor its
    answer follows. *)
Definition task_dropped (ordinal : N) (w : RtWorld) : RtWorld :=
  match rt_tasks w !! ordinal with
  | Some (mkTask name slot TaskRuns true) =>
      put_tasks (delete ordinal (rt_tasks w)) (put_dropped (rt_dropped w ++ [mkTask name slot TaskRuns true]) w)
  | _ => w
  end.

(** [finish]: the slot, then the registry; with it the task is over. *)
Definition finish_slot (ordinal : N) (w : RtWorld) : RtWorld :=
  match rt_tasks w !! ordinal with
  | Some (mkTask name slot TaskAnswered aborted) =>
      let w := put_tasks (<[ordinal := mkTask name slot TaskReleased aborted]> (rt_tasks w)) w in
      if slot then put_inner (release_provider_slot (rt_inner w)) w else w
  | _ => w
  end.

Definition finish_deregister (ordinal : N) (w : RtWorld) : RtWorld :=
  match rt_tasks w !! ordinal with
  | Some (mkTask name slot TaskReleased _) =>
      put_inner (deregister ordinal (rt_inner w)) (put_tasks (delete ordinal (rt_tasks w)) w)
  | _ => w
  end.

(** *** [shutdown] *)

Definition shutdown_store (w : RtWorld) : RtWorld :=
  put_inner (begin_shutdown (rt_inner w)) (put_shutdowns (rt_shutdowns w ++ [SdCancel]) w).

Definition shutdown_cancel (i : nat) (w : RtWorld) : RtWorld :=
  match rt_shutdowns w !! i with
  | Some SdCancel => put_inner (fire_root (rt_inner w)) (put_shutdowns (<[i := SdTake]> (rt_shutdowns w)) w)
  | _ => w
  end.

(** [mem::take(&mut *registry).into_values()]. *)
Definition shutdown_take (i : nat) (w : RtWorld) : RtWorld :=
  match rt_shutdowns w !! i with
  | Some SdTake =>
      put_inner (set_registry ∅ (rt_inner w))
        (put_shutdowns (<[i := SdJoin (entries (in_registry (rt_inner w))) []]> (rt_shutdowns w)) w)
  | _ => w
  end.

(** One join: the task is over, or the deadline is: [abort] then marks the task,
    where it has not ended since, and is not awaited. *)
Definition shutdown_join (i : nat) (expired : bool) (w : RtWorld) : RtWorld :=
  match rt_shutdowns w !! i with
  | Some (SdJoin ((ordinal, name) :: taken) unjoined) =>
      if expired then
        put_shutdowns (<[i := SdJoin taken (unjoined ++ [name])]> (rt_shutdowns w))
          (put_tasks (alter set_aborted ordinal (rt_tasks w)) w)
      else
        match rt_tasks w !! ordinal with
        | None => put_shutdowns (<[i := SdJoin taken unjoined]> (rt_shutdowns w)) w
        | Some _ => w
        end
  | _ => w
  end.

Definition shutdown_return (i : nat) (w : RtWorld) : RtWorld :=
  match rt_shutdowns w !! i with
  | Some (SdJoin [] unjoined) =>
      put_shutdowns (delete i (rt_shutdowns w))
        (put_returned (rt_returned w ++ [if bool_decide (unjoined = []) then Ok tt else Err (ShutdownIncomplete unjoined)]) w)
  | _ => w
  end.

(** The caller drops a [shutdown] that awaits a join: the handles it took go with
    it, which detaches their tasks. *)
Definition shutdown_abandon (i : nat) (w : RtWorld) : RtWorld :=
  match rt_shutdowns w !! i with
  | Some (SdJoin (joining :: taken) unjoined) =>
      put_shutdowns (delete i (rt_shutdowns w))
        (put_abandoned (rt_abandoned w ++ [SdJoin (joining :: taken) unjoined]) w)
  | _ => w
  end.

(** ** Runs *)

Inductive RtOp :=
| RtSpawn (name : TaskName)
| RtRegister (i : nat)
| RtCall (operation : OperationName)
| RtReserve (i : nat)
| RtCallRegister (i : nat)
| RtUnreserve
| RtAnswer (ordinal : N)
| RtDropTask (ordinal : N)
| RtFreeSlot (ordinal : N)
| RtDeregister (ordinal : N)
| RtShutdown
| RtFireRoot (i : nat)
| RtTake (i : nat)
| RtJoin (i : nat) (expired : bool)
| RtReturn (i : nat)
| RtAbandon (i : nat).

Definition rt_step (op : RtOp) (w : RtWorld) : RtWorld :=
  match op with
  | RtSpawn name => (register_check name false w).2
  | RtRegister i => (register_commit i w).2
  | RtCall operation => (reserve_check operation w).2
  | RtReserve i => (reserve_add i w).2
  | RtCallRegister i => (call_register i w).2
  | RtUnreserve => reserve_release w
  | RtAnswer o => task_answers o w
  | RtDropTask o => task_dropped o w
  | RtFreeSlot o => finish_slot o w
  | RtDeregister o => finish_deregister o w
  | RtShutdown => shutdown_store w
  | RtFireRoot i => shutdown_cancel i w
  | RtTake i => shutdown_take i w
  | RtJoin i expired => shutdown_join i expired w
  | RtReturn i => shutdown_return i w
  | RtAbandon i => shutdown_abandon i w
  end.

(** Any interleaving. *)
Inductive rt_reachable (config : RuntimeConfig) : RtWorld → Prop :=
| rt_new : rt_reachable config (rt_start config)
| rt_next op w : rt_reachable config w → rt_reachable config (rt_step op w).

(** ** Provider slots *)

Definition holds_slot (t : Task) : bool := ta_slot t && negb (bool_decide (ta_phase t = TaskReleased)).

Definition slots (m : gmap N Task) : nat := size (filter (λ p : N * Task, holds_slot p.2 = true) m).

Definition registering_slots (l : list (TaskName * bool)) : nat :=
  sum_list_with (λ p : TaskName * bool, if p.2 then 1 else 0) l.

Definition dropped_slots (l : list Task) : nat := sum_list_with (λ t, if holds_slot t then 1 else 0) l.

Lemma slots_fresh m o t : m !! o = None → slots (<[o := t]> m) = slots m + (if holds_slot t then 1 else 0).
Proof.
  intros Ho. unfold slots. rewrite map_filter_insert. simpl. destruct (holds_slot t) eqn:Ht.
  - rewrite decide_True by done. rewrite map_size_insert_None; [lia|]. by apply map_lookup_filter_None_2; left.
  - rewrite decide_False by done. rewrite delete_id by done. lia.
Qed.

Lemma slots_delete m o t : m !! o = Some t → slots (delete o m) + (if holds_slot t then 1 else 0) = slots m.
Proof. intros Ho. rewrite <- (insert_delete_id m o t Ho) at 2. by rewrite slots_fresh by apply lookup_delete_eq. Qed.

Lemma slots_update m o t t' :
  m !! o = Some t →
  slots (<[o := t']> m) + (if holds_slot t then 1 else 0) = slots m + (if holds_slot t' then 1 else 0).
Proof.
  intros Ho. rewrite <- insert_delete_eq, slots_fresh by apply lookup_delete_eq. pose proof (slots_delete m o t Ho). lia.
Qed.

(** ** The invariant *)

Definition in_hands (calls : list ShutdownCall) (o : N) (name : TaskName) : Prop :=
  ∃ taken unjoined, SdJoin taken unjoined ∈ calls ∧ (o, name) ∈ taken.

Definition listed (calls : list ShutdownCall) (name : TaskName) : Prop :=
  ∃ taken unjoined, SdJoin taken unjoined ∈ calls ∧ name ∈ unjoined.

Definition reported (returned : list (result RuntimeError unit)) (name : TaskName) : Prop :=
  ∃ names, Err (ShutdownIncomplete names) ∈ returned ∧ name ∈ names.

(** A shutdown that has aborted the task names it, in progress, returned or
    dropped by its caller. *)
Definition named (w : RtWorld) (name : TaskName) : Prop :=
  listed (rt_shutdowns w) name ∨ reported (rt_returned w) name ∨ listed (rt_abandoned w) name.

Definition accounted (w : RtWorld) (o : N) (task : Task) : Prop :=
  in_registry (rt_inner w) !! o = Some (ta_name task) ∨ in_hands (rt_shutdowns w) o (ta_name task) ∨
  in_hands (rt_abandoned w) o (ta_name task) ∨ (ta_aborted task = true ∧ named w (ta_name task)).

Record rt_ok (config : RuntimeConfig) (w : RtWorld) : Prop := {
  ok_config : in_config (rt_inner w) = config;
  ok_bound : size (in_registry (rt_inner w)) ≤ max_tasks config;
  ok_flag : rt_shutdowns w ≠ [] → in_shutting_down (rt_inner w) = true;
  ok_registry : ∀ o name, in_registry (rt_inner w) !! o = Some name →
    ∃ task, rt_tasks w !! o = Some task ∧ ta_name task = name ∧ ta_aborted task = false;
  ok_tasks : ∀ o task, rt_tasks w !! o = Some task → (o < in_next_ordinal (rt_inner w))%N ∧
    (ta_phase task = TaskRuns → accounted w o task);
  ok_taken : ∀ o name, in_hands (rt_shutdowns w) o name →
    (o < in_next_ordinal (rt_inner w))%N ∧ in_registry (rt_inner w) !! o = None ∧
    ∀ task, rt_tasks w !! o = Some task → ta_name task = name;
  ok_count : in_provider_operations (rt_inner w) =
    slots (rt_tasks w) + length (rt_reserved w) + registering_slots (rt_registering w) + rt_overshot w +
    dropped_slots (rt_dropped w);
  ok_slots : slots (rt_tasks w) + length (rt_reserved w) + registering_slots (rt_registering w) +
    dropped_slots (rt_dropped w) ≤ max_provider_operations config
}.

Lemma start_ok config : rt_ok config (rt_start config).
Proof.
  split; simpl; try done.
  - rewrite map_size_empty. lia.
  - intros o name (taken & unjoined & Hin & _). by apply not_elem_of_nil in Hin.
  - unfold slots. rewrite map_filter_empty, map_size_empty. simpl. lia.
Qed.

Lemma accounted_calls w w' o task :
  in_registry (rt_inner w') = in_registry (rt_inner w) → rt_shutdowns w' = rt_shutdowns w →
  rt_returned w' = rt_returned w → rt_abandoned w' = rt_abandoned w → accounted w o task → accounted w' o task.
Proof. unfold accounted, named. by intros -> -> -> ->. Qed.

(** Changes that touch counters and calls only. *)
Lemma rt_ok_counts config w w' :
  rt_ok config w → rt_tasks w' = rt_tasks w → in_registry (rt_inner w') = in_registry (rt_inner w) →
  in_config (rt_inner w') = in_config (rt_inner w) → in_next_ordinal (rt_inner w') = in_next_ordinal (rt_inner w) →
  rt_shutdowns w' = rt_shutdowns w → in_shutting_down (rt_inner w') = in_shutting_down (rt_inner w) →
  rt_returned w' = rt_returned w → rt_abandoned w' = rt_abandoned w → rt_dropped w' = rt_dropped w →
  in_provider_operations (rt_inner w') + length (rt_reserved w) + registering_slots (rt_registering w) + rt_overshot w =
    in_provider_operations (rt_inner w) + length (rt_reserved w') + registering_slots (rt_registering w') + rt_overshot w' →
  slots (rt_tasks w) + length (rt_reserved w') + registering_slots (rt_registering w') + dropped_slots (rt_dropped w)
    ≤ max_provider_operations config →
  rt_ok config w'.
Proof.
  intros [Hc Hb Hf Hr Ht Hk Hn Hs] Et Er Ec En Es Ef Ee Ea Ed Hsum Hmax.
  split; rewrite ?Et, ?Er, ?En, ?Es, ?Ef, ?Ed; try done; try lia.
  - congruence.
  - intros o task Hto. destruct (Ht o task Hto) as [Hlt Hrun]. split; [done|]. intros Hph.
    by eapply accounted_calls, Hrun.
Qed.

Lemma registering_slots_delete (l : list (TaskName * bool)) i name (slot : bool) :
  l !! i = Some (name, slot) → registering_slots (delete i l) + (if slot then 1 else 0) = registering_slots l.
Proof.
  intros Hi. unfold registering_slots. rewrite <- (take_drop_middle _ _ _ Hi) at 2.
  rewrite delete_take_drop, !sum_list_with_app. simpl. lia.
Qed.

Lemma registering_slots_snoc l name (slot : bool) :
  registering_slots (l ++ [(name, slot)]) = registering_slots l + (if slot then 1 else 0).
Proof. unfold registering_slots. rewrite sum_list_with_app. simpl. lia. Qed.

Lemma dropped_slots_snoc l t : dropped_slots (l ++ [t]) = dropped_slots l + (if holds_slot t then 1 else 0).
Proof. unfold dropped_slots. rewrite sum_list_with_app. simpl. lia. Qed.

Lemma rt_spawn_ok config name w : rt_ok config w → rt_ok config (register_check name false w).2.
Proof.
  intros Hok. unfold register_check. destruct (in_shutting_down (rt_inner w)); [done|].
  apply (rt_ok_counts config w); try done; simpl; rewrite registering_slots_snoc; [lia|]. pose proof (ok_slots _ _ Hok). lia.
Qed.

Lemma reserve_ok config i w : rt_ok config w → rt_ok config (reserve_add i w).2.
Proof.
  intros Hok. unfold reserve_add. destruct (rt_reserving w !! i) as [operation|]; [|done].
  pose proof (ok_slots _ _ Hok) as Hs. pose proof (ok_count _ _ Hok) as Hn. cbn [in_config set_operations].
  rewrite (ok_config _ _ Hok). case_bool_decide as E; simpl; apply (rt_ok_counts config w); try done; simpl;
    rewrite ?length_app; simpl; lia.
Qed.

Lemma call_register_ok config i w : rt_ok config w → rt_ok config (call_register i w).2.
Proof.
  intros Hok. unfold call_register. destruct (rt_reserved w !! i) as [operation|] eqn:Hi; [|done].
  pose proof (ok_slots _ _ Hok) as Hs. assert (Hlt : i < length (rt_reserved w)) by (by eapply lookup_lt_Some).
  pose proof (length_delete (rt_reserved w) i (ex_intro _ _ Hi)) as Hd.
  unfold register_check. simpl. destruct (in_shutting_down (rt_inner w)); simpl;
    apply (rt_ok_counts config w); try done; simpl; rewrite ?registering_slots_snoc; lia.
Qed.

Lemma unreserve_ok config w : rt_ok config w → rt_ok config (reserve_release w).
Proof.
  intros Hok. unfold reserve_release. destruct (rt_overshot w) as [|n] eqn:E; [done|].
  pose proof (ok_count _ _ Hok) as Hn. rewrite E in Hn.
  apply (rt_ok_counts config w); try done; simpl; [lia|apply Hok].
Qed.

Lemma rt_register_ok config i w : rt_ok config w → rt_ok config (register_commit i w).2.
Proof.
  intros Hok. unfold register_commit. destruct (rt_registering w !! i) as [[name slot]|] eqn:Hi; [|done].
  pose proof (registering_slots_delete _ _ _ _ Hi) as Hd. pose proof (ok_count _ _ Hok) as Hn.
  pose proof (ok_slots _ _ Hok) as Hs. rewrite (ok_config _ _ Hok). case_bool_decide as E; simpl.
  { destruct slot; simpl; apply (rt_ok_counts config w); try done; simpl; lia. }
  set (o := in_next_ordinal (rt_inner w)).
  assert (Hto : rt_tasks w !! o = None).
  { destruct (rt_tasks w !! o) as [task|] eqn:Ho; [|done]. apply (ok_tasks _ _ Hok) in Ho as [Hlt _]. unfold o in Hlt. lia. }
  assert (Hro : in_registry (rt_inner w) !! o = None).
  { destruct (in_registry (rt_inner w) !! o) as [x|] eqn:Ho; [|done].
    apply (ok_registry _ _ Hok) in Ho as (task & Ht & _). congruence. }
  split; simpl.
  - apply Hok.
  - rewrite map_size_insert_None by done. lia.
  - apply Hok.
  - intros o' name' Hr. destruct (decide (o' = o)) as [->|Hne].
    + rewrite lookup_insert_eq in Hr. injection Hr as <-. rewrite lookup_insert_eq. eauto.
    + rewrite lookup_insert_ne in Hr by done. rewrite lookup_insert_ne by done. by apply (ok_registry _ _ Hok).
  - intros o' task Ht. unfold accounted. simpl. destruct (decide (o' = o)) as [->|Hne].
    + rewrite lookup_insert_eq in Ht. injection Ht as <-. rewrite lookup_insert_eq. split; [unfold o; lia|auto].
    + rewrite lookup_insert_ne in Ht by done. destruct (ok_tasks _ _ Hok o' task Ht) as [Hlt Hrun].
      split; [lia|]. rewrite lookup_insert_ne by done. exact Hrun.
  - intros o' name' Hh. destruct (ok_taken _ _ Hok _ _ Hh) as (Hlt & Hreg & Hname).
    assert (o' ≠ o) as Hne by (unfold o; lia). rewrite !lookup_insert_ne by done. split_and!; [lia|done|done].
  - rewrite slots_fresh by done. unfold holds_slot. simpl. rewrite andb_true_r. lia.
  - rewrite slots_fresh by done. unfold holds_slot. simpl. rewrite andb_true_r. lia.
Qed.

(** Changes of one task that keep its name and whether it is aborted, and end its
    future. *)
Lemma rt_ok_task config w o t t' ops :
  rt_ok config w → rt_tasks w !! o = Some t → ta_name t' = ta_name t → ta_aborted t' = ta_aborted t →
  ta_phase t' ≠ TaskRuns →
  ops + (if holds_slot t then 1 else 0) = in_provider_operations (rt_inner w) + (if holds_slot t' then 1 else 0) →
  (holds_slot t = false → holds_slot t' = false) →
  rt_ok config (put_inner (set_operations ops (rt_inner w)) (put_tasks (<[o := t']> (rt_tasks w)) w)).
Proof.
  intros Hok Ho Hname Hab Hph Hops Hle. pose proof (slots_update _ _ _ t' Ho) as Hu. pose proof (ok_count _ _ Hok) as Hn.
  pose proof (ok_slots _ _ Hok) as Hs. destruct Hok as [Hc Hb Hf Hr Ht Hk _ _]. split; simpl; try done.
  - intros o' name Hreg. destruct (Hr o' name Hreg) as (task & Htask & Hn' & Ha). destruct (decide (o' = o)) as [->|Hne].
    + rewrite lookup_insert_eq. exists t'. split; [done|]. split; congruence.
    + rewrite lookup_insert_ne by done. eauto.
  - intros o' task. destruct (decide (o' = o)) as [->|Hne]; [|rewrite lookup_insert_ne by done; apply Ht].
    rewrite lookup_insert_eq. intros [= <-]. split; [by apply (Ht o t)|done].
  - intros o' name Hh. destruct (Hk _ _ Hh) as (? & ? & Hnm). split_and!; [done..|].
    intros task. destruct (decide (o' = o)) as [->|Hne]; [|rewrite lookup_insert_ne by done; apply Hnm].
    rewrite lookup_insert_eq. intros [= <-]. rewrite Hname. by apply Hnm.
  - destruct (holds_slot t), (holds_slot t'); try lia.
  - destruct (holds_slot t) eqn:E1, (holds_slot t') eqn:E2; lia.
Qed.

Lemma answer_ok config o w : rt_ok config w → rt_ok config (task_answers o w).
Proof.
  intros Hok. unfold task_answers. destruct (rt_tasks w !! o) as [[name slot [] aborted]|] eqn:Ho; try done.
  assert (Hw : rt_ok config (put_inner (set_operations (in_provider_operations (rt_inner w)) (rt_inner w))
    (put_tasks (<[o := mkTask name slot TaskAnswered aborted]> (rt_tasks w)) w))) by (by eapply rt_ok_task; [|exact Ho|..]).
  by destruct w as [[] ? ? ? ? ? ? ? ? ?].
Qed.

Lemma free_slot_ok config o w : rt_ok config w → rt_ok config (finish_slot o w).
Proof.
  intros Hok. unfold finish_slot. destruct (rt_tasks w !! o) as [[name slot [] aborted]|] eqn:Ho; try done.
  pose proof (slots_delete _ _ _ Ho) as Hd. pose proof (ok_count _ _ Hok) as Hn. unfold holds_slot in Hd. simpl in Hd.
  destruct slot; simpl in *.
  - eapply (rt_ok_task config w o _ (mkTask name true TaskReleased aborted)); [done|exact Ho|done..| |done].
    unfold holds_slot. simpl. lia.
  - assert (Hw : rt_ok config (put_inner (set_operations (in_provider_operations (rt_inner w)) (rt_inner w))
      (put_tasks (<[o := mkTask name false TaskReleased aborted]> (rt_tasks w)) w))) by (by eapply rt_ok_task; [|exact Ho|..]).
    by destruct w as [[] ? ? ? ? ? ? ? ? ?].
Qed.

(** A task leaves. *)
Lemma deregister_ok config o w : rt_ok config w → rt_ok config (finish_deregister o w).
Proof.
  intros Hok. unfold finish_deregister. destruct (rt_tasks w !! o) as [[name slot [] aborted]|] eqn:Ho; try done.
  pose proof (slots_delete _ _ _ Ho) as Hd. pose proof (ok_count _ _ Hok) as Hn. pose proof (ok_slots _ _ Hok) as Hs.
  unfold holds_slot in Hd. simpl in Hd. rewrite andb_false_r in Hd.
  destruct Hok as [Hc Hb Hf Hr Ht Hk _ _]. split; simpl; try done; try lia.
  - etransitivity; [|exact Hb]. by apply map_subseteq_size, delete_subseteq.
  - intros o' name' [Hne Hreg]%lookup_delete_Some. rewrite lookup_delete_ne by done. by apply Hr.
  - intros o' task [Hne Htask]%lookup_delete_Some. unfold accounted. simpl. rewrite lookup_delete_ne by done. by apply Ht.
  - intros o' name' Hh. destruct (Hk _ _ Hh) as (? & ? & Hnm).
    split_and!; [done|by apply lookup_delete_None; right|]. intros task [_ Htask]%lookup_delete_Some. by apply Hnm.
Qed.

(** An aborted task leaves with its slot. *)
Lemma task_dropped_ok config o w : rt_ok config w → rt_ok config (task_dropped o w).
Proof.
  intros Hok. unfold task_dropped. destruct (rt_tasks w !! o) as [[name slot [] []]|] eqn:Ho; try done.
  pose proof (slots_delete _ _ _ Ho) as Hd. pose proof (dropped_slots_snoc (rt_dropped w) (mkTask name slot TaskRuns true)) as Hdr.
  destruct Hok as [Hc Hb Hf Hr Ht Hk Hn Hs]. split; simpl; try done; try lia.
  - intros o' name' Hreg. destruct (Hr o' name' Hreg) as (task & Htask & Hn' & Ha).
    exists task. rewrite lookup_delete_ne; [done|]. intros <-. rewrite Ho in Htask. by injection Htask as <-.
  - intros o' task [Hne Htask]%lookup_delete_Some. by apply Ht.
  - intros o' name' Hh. destruct (Hk _ _ Hh) as (? & ? & Hnm).
    split_and!; [done..|]. intros task [_ Htask]%lookup_delete_Some. by apply Hnm.
Qed.

(** Changes of the shutdown calls. *)
Lemma rt_ok_shutdowns config w calls returned abandoned :
  let w' := put_shutdowns calls (put_returned returned (put_abandoned abandoned w)) in
  rt_ok config w → (calls ≠ [] → in_shutting_down (rt_inner w) = true) →
  (∀ o task, rt_tasks w !! o = Some task → ta_phase task = TaskRuns → in_hands (rt_shutdowns w) o (ta_name task) →
     in_hands calls o (ta_name task) ∨ in_hands abandoned o (ta_name task)) →
  (∀ o name, in_hands (rt_abandoned w) o name → in_hands abandoned o name) →
  (∀ name, named w name → named w' name) →
  (∀ o name, in_hands calls o name → in_hands (rt_shutdowns w) o name) →
  rt_ok config w'.
Proof.
  intros w' [Hc Hb Hf Hr Ht Hk Hn Hs] Hflag Hkeep Hab Hnm Hback. split; simpl; try done.
  - intros o task Hto. destruct (Ht o task Hto) as [Hlt Hrun]. split; [done|]. intros Hph. unfold accounted. simpl.
    destruct (Hrun Hph) as [?|[Hh|[?|[Ha ?]]]]; [by left|destruct (Hkeep o task Hto Hph Hh); auto|auto|].
    do 3 right. split; [done|]. by apply Hnm.
  - intros o name Hh. by apply Hk, Hback.
Qed.

Lemma in_hands_replace calls i call call' o name :
  calls !! i = Some call → (∀ taken unjoined, call = SdJoin taken unjoined → (o, name) ∈ taken → in_hands [call'] o name) →
  in_hands calls o name → in_hands (<[i := call']> calls) o name.
Proof.
  intros Hi Hcall (taken & unjoined & Hsd & Hin). destruct (elem_of_replaced_back _ _ _ call' _ Hi Hsd) as [Hc|]; [|by exists taken, unjoined].
  destruct (Hcall taken unjoined (eq_sym Hc) Hin) as (taken' & unjoined' & Hn%list_elem_of_singleton & Hin').
  exists taken', unjoined'. split; [|done]. rewrite Hn. by eapply elem_of_new.
Qed.

Lemma in_hands_replaced calls i call call' o name :
  calls !! i = Some call → in_hands (<[i := call']> calls) o name → in_hands [call'] o name ∨ in_hands calls o name.
Proof.
  intros Hi (taken & unjoined & Hsd & Hin). destruct (elem_of_replaced _ _ _ _ _ Hi Hsd) as [Hc|]; [left|right]; exists taken, unjoined; [|done].
  split; [|done]. rewrite Hc. by apply list_elem_of_singleton.
Qed.

Lemma listed_replace calls i call call' name :
  calls !! i = Some call → (∀ taken unjoined, call = SdJoin taken unjoined → name ∈ unjoined → listed [call'] name) →
  listed calls name → listed (<[i := call']> calls) name.
Proof.
  intros Hi Hcall (taken & unjoined & Hsd & Hin). destruct (elem_of_replaced_back _ _ _ call' _ Hi Hsd) as [Hc|]; [|by exists taken, unjoined].
  destruct (Hcall taken unjoined (eq_sym Hc) Hin) as (taken' & unjoined' & Hn%list_elem_of_singleton & Hin').
  exists taken', unjoined'. split; [|done]. rewrite Hn. by eapply elem_of_new.
Qed.

Lemma put_calls_id (w : RtWorld) calls :
  put_shutdowns calls (put_returned (rt_returned w) (put_abandoned (rt_abandoned w) w)) = put_shutdowns calls w.
Proof. by destruct w. Qed.

Lemma shutdown_ok config w : rt_ok config w → rt_ok config (shutdown_store w).
Proof.
  intros Hok. unfold shutdown_store.
  assert (Hw : rt_ok config (put_inner (begin_shutdown (rt_inner w)) w)) by (by destruct Hok; split).
  apply (rt_ok_shutdowns config _ (rt_shutdowns w ++ [SdCancel]) (rt_returned w) (rt_abandoned w)) in Hw; [by destruct w|done|..|done| |]; simpl.
  - intros o task _ _ (taken & unjoined & Hsd & Hin). left. exists taken, unjoined. split; [set_solver|done].
  - intros name [(taken & unjoined & Hsd & Hin)|?]; [left|by right]. exists taken, unjoined. split; [simpl; set_solver|done].
  - intros o name (taken & unjoined & [?|[=]%list_elem_of_singleton]%elem_of_app & Hin). by exists taken, unjoined.
Qed.

Lemma fire_root_ok config i w : rt_ok config w → rt_ok config (shutdown_cancel i w).
Proof.
  intros Hok. unfold shutdown_cancel. destruct (rt_shutdowns w !! i) as [[]|] eqn:Hi; try done.
  assert (Hfl : in_shutting_down (rt_inner w) = true) by (apply (ok_flag _ _ Hok); by intros E; rewrite E in Hi).
  assert (Hw : rt_ok config (put_inner (fire_root (rt_inner w)) w)) by (by destruct Hok; split).
  apply (rt_ok_shutdowns config _ (<[i := SdTake]> (rt_shutdowns w)) (rt_returned w) (rt_abandoned w)) in Hw;
    [by destruct w|done|..|done| |]; simpl.
  - intros o task _ _ Hh. left. by eapply in_hands_replace.
  - intros name [Hl|?]; [left|by right]. by eapply listed_replace.
  - intros o name Hh. destruct (in_hands_replaced _ _ _ _ _ _ Hi Hh) as [(? & ? & [=]%list_elem_of_singleton & _)|]; done.
Qed.

Lemma shutdown_take_ok config i w : rt_ok config w → rt_ok config (shutdown_take i w).
Proof.
  intros Hok. unfold shutdown_take. destruct (rt_shutdowns w !! i) as [[]|] eqn:Hi; try done.
  assert (Hfl : in_shutting_down (rt_inner w) = true) by (apply (ok_flag _ _ Hok); by intros E; rewrite E in Hi).
  destruct Hok as [Hc Hb Hf Hr Ht Hk Hn Hs]. split; simpl; try done.
  - rewrite map_size_empty. lia.
  - intros o task Hto. destruct (Ht o task Hto) as [Hlt Hrun]. split; [done|]. intros Hph. unfold accounted, named. simpl. right.
    destruct (Hrun Hph) as [Hreg|[Hh|[?|[Ha Hnm]]]]; [left|left; by eapply in_hands_replace|by right; left|do 2 right].
    + eexists _, []. split; [by eapply elem_of_new|]. by apply elem_of_entries.
    + split; [done|]. destruct Hnm as [Hl|?]; [left; by eapply listed_replace|by right].
  - intros o name Hh. rewrite lookup_empty.
    destruct (in_hands_replaced _ _ _ _ _ _ Hi Hh) as [(taken & unjoined & [= -> ->]%list_elem_of_singleton & Hin)|Hold].
    + apply elem_of_entries in Hin. destruct (Hr o name Hin) as (task & Htask & Hname & _).
      split_and!; [by apply (Ht o task)|done|]. intros task' Ht'. congruence.
    + destruct (Hk _ _ Hold) as (? & _ & ?). auto.
Qed.

Lemma in_hands_head calls i o name taken unjoined :
  calls !! i = Some (SdJoin ((o, name) :: taken) unjoined) → in_hands calls o name.
Proof. intros Hi. eexists _, _. split; [by eapply list_elem_of_lookup_2|apply list_elem_of_here]. Qed.

Lemma in_hands_rest calls i o name taken unjoined unjoined' o' name' :
  calls !! i = Some (SdJoin ((o, name) :: taken) unjoined) →
  in_hands (<[i := SdJoin taken unjoined']> calls) o' name' → in_hands calls o' name'.
Proof.
  intros Hi Hh. destruct (in_hands_replaced _ _ _ _ _ _ Hi Hh) as [(t & u & [= -> ->]%list_elem_of_singleton & Hin)|]; [|done].
  eexists _, _. split; [by eapply list_elem_of_lookup_2|by right].
Qed.

(** The next of a join: the other tasks stay in its hands. *)
Lemma in_hands_next calls i o name taken unjoined unjoined' o' name' :
  calls !! i = Some (SdJoin ((o, name) :: taken) unjoined) → in_hands calls o' name' →
  (o', name') = (o, name) ∨ in_hands (<[i := SdJoin taken unjoined']> calls) o' name'.
Proof.
  intros Hi (t & u & Hsd & Hin). destruct (elem_of_replaced_back _ _ _ (SdJoin taken unjoined') _ Hi Hsd) as [[= -> ->]|]; [|right; by exists t, u].
  apply elem_of_cons in Hin as [?|Hin]; [by left|right]. exists taken, unjoined'. split; [by eapply elem_of_new|done].
Qed.

Lemma listed_next calls i o name taken unjoined more name' :
  calls !! i = Some (SdJoin ((o, name) :: taken) unjoined) → listed calls name' →
  listed (<[i := SdJoin taken (unjoined ++ more)]> calls) name'.
Proof.
  intros Hi. eapply listed_replace; [done|]. intros t u [= <- <-] Hin. exists taken, (unjoined ++ more). set_solver.
Qed.

Lemma slots_alter_aborted m o : slots (alter set_aborted o m) = slots m.
Proof.
  destruct (m !! o) as [t|] eqn:Ho; [|by rewrite alter_id by (intros; congruence)].
  assert (alter set_aborted o m = <[o := set_aborted t]> m) as ->.
  { apply map_eq. intros k. destruct (decide (k = o)) as [->|Hne].
    - by rewrite lookup_alter_eq, lookup_insert_eq, Ho.
    - by rewrite lookup_alter_ne, lookup_insert_ne. }
  pose proof (slots_update _ _ _ (set_aborted t) Ho) as Hu.
  unfold holds_slot in Hu. simpl in Hu. lia.
Qed.

Lemma shutdown_join_ok config i expired w : rt_ok config w → rt_ok config (shutdown_join i expired w).
Proof.
  intros Hok. unfold shutdown_join. destruct (rt_shutdowns w !! i) as [[| |[|[o name] taken] unjoined]|] eqn:Hi; try done.
  assert (Hfl : in_shutting_down (rt_inner w) = true) by (apply (ok_flag _ _ Hok); by intros E; rewrite E in Hi).
  destruct expired.
  - destruct (ok_taken _ _ Hok o name (in_hands_head _ _ _ _ _ _ Hi)) as (Hlt & Hro & Hname).
    destruct Hok as [Hc Hb Hf Hr Ht Hk Hn Hs]. split; simpl; try done; try (rewrite slots_alter_aborted; lia).
    + intros o' name' Hreg. rewrite lookup_alter_ne by congruence. by apply Hr.
    + intros o' task Hto. unfold accounted, named. simpl. destruct (decide (o' = o)) as [->|Hne].
      * rewrite lookup_alter_eq in Hto. apply fmap_Some in Hto as (task' & Htask & ->). split; [done|]. intros Hph. simpl.
        do 3 right. split; [done|left]. exists taken, (unjoined ++ [name]). split; [by eapply elem_of_new|].
        rewrite (Hname _ Htask). set_solver.
      * rewrite lookup_alter_ne in Hto by done. destruct (Ht o' task Hto) as [? Hrun]. split; [done|]. intros Hph.
        destruct (Hrun Hph) as [?|[Hh|[?|[Ha Hnm]]]]; [by left| |by do 2 right; left|].
        -- destruct (in_hands_next _ _ _ _ _ _ (unjoined ++ [name]) _ _ Hi Hh) as [[= -> _]|?]; [done|by right; left].
        -- do 3 right. split; [done|]. destruct Hnm as [Hl|?]; [left|by right]. by eapply listed_next.
    + intros o' name' Hh. destruct (Hk _ _ (in_hands_rest _ _ _ _ _ _ _ _ _ Hi Hh)) as (? & ? & Hnm). split_and!; [done..|].
      intros task Hto. destruct (decide (o' = o)) as [->|Hne]; [|rewrite lookup_alter_ne in Hto by done; by apply Hnm].
      rewrite lookup_alter_eq in Hto. apply fmap_Some in Hto as (task' & Htask & ->). exact (Hnm _ Htask).
  - destruct (rt_tasks w !! o) as [task|] eqn:Ho; [done|]. rewrite <- put_calls_id. apply rt_ok_shutdowns; [done..| |done| |].
    + intros o' task Hto _ Hh. left. destruct (in_hands_next _ _ _ _ _ _ unjoined _ _ Hi Hh) as [[= -> _]|?]; [congruence|done].
    + intros name' [Hl|?]; [left|by right]. eapply listed_replace; [done| |done].
      intros t u [= <- <-] Hin. exists taken, unjoined. set_solver.
    + intros o' name' Hh. by eapply in_hands_rest.
Qed.

Lemma in_hands_delete calls i call o name :
  calls !! i = Some call → in_hands calls o name → in_hands [call] o name ∨ in_hands (delete i calls) o name.
Proof.
  intros Hi (t & u & Hsd & Hin). destruct (elem_of_delete _ _ _ _ Hi Hsd) as [<-|]; [left|right]; exists t, u; [|done]. set_solver.
Qed.

Lemma listed_delete calls i call name :
  calls !! i = Some call → listed calls name → listed [call] name ∨ listed (delete i calls) name.
Proof.
  intros Hi (t & u & Hsd & Hin). destruct (elem_of_delete _ _ _ _ Hi Hsd) as [<-|]; [left|right]; exists t, u; [|done]. set_solver.
Qed.

Lemma in_hands_deleted calls i o name : in_hands (delete i calls) o name → in_hands calls o name.
Proof. intros (t & u & Hsd & Hin). exists t, u. split; [by eapply elem_of_deleted|done]. Qed.

Lemma shutdown_return_ok config i w : rt_ok config w → rt_ok config (shutdown_return i w).
Proof.
  intros Hok. unfold shutdown_return. destruct (rt_shutdowns w !! i) as [[| |[|] unjoined]|] eqn:Hi; try done.
  set (answer := if bool_decide (unjoined = []) then Ok tt else Err (ShutdownIncomplete unjoined)).
  assert (Hw : rt_ok config (put_shutdowns (delete i (rt_shutdowns w))
    (put_returned (rt_returned w ++ [answer]) (put_abandoned (rt_abandoned w) w)))); [|by destruct w].
  apply rt_ok_shutdowns; [done|..|done| |]; simpl.
  - intros _. apply (ok_flag _ _ Hok). by intros E; rewrite E in Hi.
  - intros o task _ _ Hh. left. destruct (in_hands_delete _ _ _ _ _ Hi Hh) as [(t & u & [= -> ->]%list_elem_of_singleton & Hin)|?]; [|done].
    by apply not_elem_of_nil in Hin.
  - unfold named. simpl. intros name [Hl|[(names & Hr & Hin)|?]]; [|right; left; exists names; set_solver|by right; right].
    destruct (listed_delete _ _ _ _ Hi Hl) as [(t & u & [= -> ->]%list_elem_of_singleton & Hin)|?]; [|by left].
    right. left. exists unjoined. split; [|done]. apply elem_of_app. right. apply list_elem_of_singleton. unfold answer.
    case_bool_decide as E; [|done]. subst unjoined. by apply not_elem_of_nil in Hin.
  - intros o name. apply in_hands_deleted.
Qed.

Lemma shutdown_abandon_ok config i w : rt_ok config w → rt_ok config (shutdown_abandon i w).
Proof.
  intros Hok. unfold shutdown_abandon. destruct (rt_shutdowns w !! i) as [[| |[|joining taken] unjoined]|] eqn:Hi; try done.
  set (call := SdJoin (joining :: taken) unjoined) in *.
  assert (Hnew : ∀ o name, in_hands [call] o name ∨ in_hands (rt_abandoned w) o name → in_hands (rt_abandoned w ++ [call]) o name).
  { intros o name [(t & u & Hc & Hin)|(t & u & Hc & Hin)]; exists t, u; set_solver. }
  assert (Hl : ∀ name, listed [call] name ∨ listed (rt_abandoned w) name → listed (rt_abandoned w ++ [call]) name).
  { intros name [(t & u & Hc & Hin)|(t & u & Hc & Hin)]; exists t, u; set_solver. }
  assert (Hw : rt_ok config (put_shutdowns (delete i (rt_shutdowns w))
    (put_returned (rt_returned w) (put_abandoned (rt_abandoned w ++ [call]) w)))); [|by destruct w].
  apply rt_ok_shutdowns; [done|..]; simpl.
  - intros _. apply (ok_flag _ _ Hok). by intros E; rewrite E in Hi.
  - intros o task _ _ Hh. destruct (in_hands_delete _ _ _ _ _ Hi Hh); auto.
  - auto.
  - unfold named. simpl. intros name [Hl'|[?|?]]; [|by right; left|auto]. destruct (listed_delete _ _ _ _ Hi Hl'); auto.
  - intros o name. apply in_hands_deleted.
Qed.

Lemma rt_reachable_ok config w : rt_reachable config w → rt_ok config w.
Proof.
  induction 1 as [|op w _ IH]; [apply start_ok|]. destruct op; simpl.
  - by apply rt_spawn_ok.
  - by apply rt_register_ok.
  - unfold reserve_check. destruct (in_shutting_down (rt_inner w)); [done|]. by destruct IH; split.
  - by apply reserve_ok.
  - by apply call_register_ok.
  - by apply unreserve_ok.
  - by apply answer_ok.
  - by apply task_dropped_ok.
  - by apply free_slot_ok.
  - by apply deregister_ok.
  - by apply shutdown_ok.
  - by apply fire_root_ok.
  - by apply shutdown_take_ok.
  - by apply shutdown_join_ok.
  - by apply shutdown_return_ok.
  - by apply shutdown_abandon_ok.
Qed.

(** C35. The runtime accounts for all of its work.  However spawns, provider
    calls, ends of tasks and shutdowns interleave on any number of threads, and
    whichever shutdowns their callers drop while they join, the registry stays
    within [max_tasks]; every task whose future still runs is in the registry, or
    in the hands of a shutdown that will join or abort it, or was in those of a
    shutdown its caller dropped, or has been aborted by a shutdown that names it
    among its unjoined tasks; the provider operations that run never exceed their
    bound, and the counter exceeds them only by calls that hold a slot and are
    about to register or be refused, and by the slots of aborted tasks that were
    dropped before they could release them. *)
Theorem runtime_invariant (config : RuntimeConfig) (w : RtWorld) (Hreach : rt_reachable config w) :
  length (outstanding_tasks (rt_inner w)) ≤ max_tasks config ∧
  (∀ o task, rt_tasks w !! o = Some task → ta_phase task = TaskRuns →
     in_registry (rt_inner w) !! o = Some (ta_name task) ∨ in_hands (rt_shutdowns w) o (ta_name task) ∨
     in_hands (rt_abandoned w) o (ta_name task) ∨ (ta_aborted task = true ∧ named w (ta_name task))) ∧
  slots (rt_tasks w) ≤ max_provider_operations config ∧
  running_provider_operations (rt_inner w) =
    slots (rt_tasks w) + length (rt_reserved w) + registering_slots (rt_registering w) + rt_overshot w +
    dropped_slots (rt_dropped w).
Proof.
  apply rt_reachable_ok in Hreach as Hok. unfold outstanding_tasks. rewrite length_values. split_and!; [apply Hok|..|apply Hok].
  - intros o task Ht. by apply (ok_tasks _ _ Hok o task).
  - pose proof (ok_slots _ _ Hok). lia.
Qed.

(** *** After a shutdown *)

Definition drained (w : RtWorld) : Prop :=
  in_shutting_down (rt_inner w) = true ∧ rt_registering w = [] ∧ in_registry (rt_inner w) = ∅.

Lemma drained_step op w : drained w → drained (rt_step op w).
Proof.
  intros (Hf & Hr & He). unfold drained. destruct op; simpl.
  - unfold register_check. rewrite Hf. done.
  - unfold register_commit. rewrite Hr. done.
  - unfold reserve_check. rewrite Hf. done.
  - unfold reserve_add. case_match; [|done]. by case_bool_decide.
  - unfold call_register. case_match; [|done]. unfold register_check. simpl. rewrite Hf. done.
  - unfold reserve_release. by case_match.
  - unfold task_answers. repeat case_match; done.
  - unfold task_dropped. repeat case_match; done.
  - unfold finish_slot. repeat case_match; done.
  - unfold finish_deregister. repeat case_match; try done. simpl. by rewrite He, delete_empty.
  - done.
  - unfold shutdown_cancel. repeat case_match; done.
  - unfold shutdown_take. repeat case_match; done.
  - unfold shutdown_join. repeat case_match; done.
  - unfold shutdown_return. repeat case_match; done.
  - unfold shutdown_abandon. repeat case_match; done.
Qed.

Definition rt_steps (ops : list RtOp) (w : RtWorld) : RtWorld := foldl (λ w op, rt_step op w) w ops.

Lemma rt_steps_reachable config ops w : rt_reachable config w → rt_reachable config (rt_steps ops w).
Proof. revert w. induction ops as [|op ops IH]; intros w Hw; [done|]. simpl. by apply IH, rt_next. Qed.

Lemma drained_steps ops w : drained w → drained (rt_steps ops w).
Proof. revert w. induction ops as [|op ops IH]; intros w Hw; [done|]. simpl. by apply IH, drained_step. Qed.

(** C36. Shutdown leaves nothing behind that it does not report.  If a shutdown
    takes the registry while no registration is under way between its check and
    the lock, then however the rest interleaves, once no shutdown call is in
    progress and none was dropped by its caller, every task whose future still
    runs has been aborted and is named in an error a shutdown returned; so none
    runs when every shutdown returned [Ok].  None is outstanding, and every later
    spawn, provider call and channel is refused or closed. *)
Theorem shutdown_leaves_nothing (config : RuntimeConfig) (w : RtWorld) (i : nat) (ops : list RtOp)
    (Hreach : rt_reachable config w) (Htake : rt_shutdowns w !! i = Some SdTake) (Hcalm : rt_registering w = [])
    (Hend : rt_shutdowns (rt_steps ops (shutdown_take i w)) = [])
    (Hkept : rt_abandoned (rt_steps ops (shutdown_take i w)) = []) :
  let w' := rt_steps ops (shutdown_take i w) in
  (∀ o task, rt_tasks w' !! o = Some task → ta_phase task = TaskRuns →
     ta_aborted task = true ∧ reported (rt_returned w') (ta_name task)) ∧
  ((∀ r, r ∈ rt_returned w' → r = Ok tt) → ∀ o task, rt_tasks w' !! o = Some task → ta_phase task ≠ TaskRuns) ∧
  outstanding_tasks (rt_inner w') = [] ∧
  (∀ name slot, (register_check name slot w').1 = Err ShuttingDown) ∧
  (∀ operation, (reserve_check operation w').1 = false) ∧
  (∀ j, (call_register j w').1 = Err ShuttingDown) ∧
  ∀ T depth, ch_closed (runtime_channel (T := T) depth (rt_inner w')) = true.
Proof.
  intros w'. assert (Hd : drained (shutdown_take i w)).
  { assert (Hfl : in_shutting_down (rt_inner w) = true).
    { apply (ok_flag _ _ (rt_reachable_ok _ _ Hreach)). intros E. by rewrite E in Htake. }
    unfold shutdown_take, drained. by rewrite Htake. }
  pose proof (drained_steps ops _ Hd) as (Hf & _ & He). fold w' in Hf, He, Hend, Hkept.
  assert (Hr' : rt_reachable config w').
  { apply rt_steps_reachable. exact (rt_next config (RtTake i) w Hreach). }
  pose proof (rt_reachable_ok _ _ Hr') as Hok.
  assert (Hrun : ∀ o task, rt_tasks w' !! o = Some task → ta_phase task = TaskRuns →
    ta_aborted task = true ∧ reported (rt_returned w') (ta_name task)).
  { intros o task Ht Hph. destruct (ok_tasks _ _ Hok o task Ht) as [_ Hrun]. specialize (Hrun Hph).
    unfold accounted, named, in_hands, listed in Hrun. rewrite He, Hend, Hkept in Hrun.
    destruct Hrun as [[=]|[(? & ? & []%not_elem_of_nil & _)|[(? & ? & []%not_elem_of_nil & _)|[Ha Hnm]]]].
    split; [done|]. by destruct Hnm as [(? & ? & []%not_elem_of_nil & _)|[?|(? & ? & []%not_elem_of_nil & _)]]. }
  split_and!.
  - exact Hrun.
  - intros Hall o task Ht Hph. destruct (Hrun o task Ht Hph) as [_ (names & Hin & _)]. by apply Hall in Hin.
  - unfold outstanding_tasks. by rewrite He.
  - intros name slot. unfold register_check. by rewrite Hf.
  - intros operation. unfold reserve_check. by rewrite Hf.
  - intros j. unfold call_register, register_check. case_match; [|done]. simpl. by rewrite Hf.
  - done.
Qed.

(** ** Channels and panics *)

(** A bounded channel holds at most its depth, delivers in order and gives
    back what it refuses. *)
Theorem channel_bounded {T} (c : Channel T) (value : T) (Hc : length (ch_queue c) ≤ ch_depth c) :
  let '(r, c') := try_send value c in
  length (ch_queue c') ≤ ch_depth c' ∧ ch_depth c' = ch_depth c ∧
  match r with
  | Ok _ => ch_queue c' = ch_queue c ++ [value] ∧ ch_closed c = false
  | Err refused => c' = c ∧ sr_value refused = value ∧
      sr_reason refused = (if ch_closed c then ChannelClosed else Full (ch_depth c)) ∧
      (ch_closed c = true ∨ length (ch_queue c) = ch_depth c)
  end.
Proof.
  unfold try_send. destruct (ch_closed c) eqn:Hcl; [simpl; split_and!; auto|].
  case_bool_decide as E; simpl; rewrite ?Hcl.
  - split_and!; auto. right. lia.
  - rewrite length_app. simpl. split_and!; [lia|done..].
Qed.

(** What is kept of a panic is at most 512 bytes, ends on a character
    boundary and is a prefix of what the panic said. *)
Theorem panic_detail_bounded (text : string) :
  String.length (panic_detail (PanicText text)) ≤ PANIC_DETAIL_CAPACITY ∧
  is_char_boundary text (String.length (panic_detail (PanicText text))) = true ∧
  ∃ rest, text = (panic_detail (PanicText text) +:+ rest)%string.
Proof.
  unfold panic_detail, truncate_detail. case_bool_decide as E.
  - split_and!; [done|apply is_char_boundary_length|]. 
    destruct (substring_prefix_app text (String.length text)) as [rest Hr]; [done|]. rewrite substring_all in Hr. eauto.
  - pose proof (boundary_at_most_le text PANIC_DETAIL_CAPACITY) as Hle.
    rewrite length_substring_prefix by lia. split_and!; [done|apply boundary_at_most_boundary|].
    apply substring_prefix_app. lia.
Qed.

Module RuntimeWitness.
Definition config : RuntimeConfig := mkConfig 4 2 1.

(** A task and a provider call start, the task ends, shutdown joins one and
    aborts the other, which runs on and releases its slot. *)
Definition to_shutdown : list RtOp :=
  [RtSpawn "task"; RtRegister 0; RtCall "call"; RtReserve 0; RtCallRegister 0; RtRegister 0;
   RtAnswer 0; RtFreeSlot 0; RtShutdown; RtFireRoot 0].
Definition to_end : list RtOp :=
  [RtDeregister 0; RtJoin 0 false; RtJoin 0 true; RtReturn 0].

Lemma rt_run_reachable ops : rt_reachable config (rt_steps ops (rt_start config)).
Proof. apply rt_steps_reachable, rt_new. Qed.

Lemma runtime_invariant_witness :
  length (outstanding_tasks (rt_inner (rt_steps to_shutdown (rt_start config)))) ≤ 2 ∧
  slots (rt_tasks (rt_steps to_shutdown (rt_start config))) ≤ 1 ∧
  running_provider_operations (rt_inner (rt_steps (to_shutdown ++ [RtTake 0] ++ to_end ++ [RtAnswer 1; RtFreeSlot 1])
    (rt_start config))) = 0.
Proof.
  destruct (runtime_invariant config (rt_steps to_shutdown (rt_start config)) (rt_run_reachable to_shutdown))
    as (Hn & _ & Hs & _). split_and!; [exact Hn|exact Hs|]. vm_compute. reflexivity.
Defined.

Lemma shutdown_leaves_nothing_witness :
  let w := rt_steps to_end (shutdown_take 0 (rt_steps to_shutdown (rt_start config))) in
  outstanding_tasks (rt_inner w) = [] ∧
  rt_tasks w !! 1%N = Some (mkTask "call" true TaskRuns true) ∧ reported (rt_returned w) "call" ∧
  rt_returned w = [Err (ShutdownIncomplete ["call"%string])].
Proof.
  intros w. destruct (shutdown_leaves_nothing config (rt_steps to_shutdown (rt_start config)) 0 to_end)
    as (Hrun & _ & Hout & _).
  - apply rt_run_reachable.
  - vm_compute. reflexivity.
  - vm_compute. reflexivity.
  - vm_compute. reflexivity.
  - vm_compute. reflexivity.
  - assert (Ht : rt_tasks w !! 1%N = Some (mkTask "call" true TaskRuns true)) by (vm_compute; reflexivity).
    split_and!; [exact Hout|exact Ht| |vm_compute; reflexivity].
    exact (proj2 (Hrun 1%N (mkTask "call" true TaskRuns true) Ht eq_refl)).
Defined.

(** ** What the code does not mean to allow *)

(** A registration that has passed its check when shutdown begins is registered
    after shutdown has taken the registry: shutdown returns [Ok] and the task
    runs on. *)
Theorem registration_outlives_shutdown :
  let w := rt_steps [RtSpawn "late"; RtShutdown; RtFireRoot 0; RtTake 0; RtReturn 0; RtRegister 0] (rt_start config) in
  rt_returned w = [Ok tt] ∧ rt_shutdowns w = [] ∧
  rt_tasks w !! 0%N = Some (mkTask "late" false TaskRuns false) ∧ outstanding_tasks (rt_inner w) = ["late"%string].
Proof. vm_compute. done. Qed.

(** A second shutdown returns [Ok] while the first still joins. *)
Theorem second_shutdown_returns_early :
  let w := rt_steps [RtSpawn "task"; RtRegister 0; RtShutdown; RtFireRoot 0; RtTake 0;
                     RtShutdown; RtFireRoot 1; RtTake 1; RtReturn 1] (rt_start config) in
  rt_returned w = [Ok tt] ∧ rt_tasks w !! 0%N = Some (mkTask "task" false TaskRuns false).
Proof. vm_compute. done. Qed.

(** A shutdown dropped by its caller loses the tasks it took: they run on, no
    longer registered, and the next shutdown returns [Ok]. *)
Theorem dropped_shutdown_loses_tasks :
  let w := rt_steps [RtSpawn "task"; RtRegister 0; RtShutdown; RtFireRoot 0; RtTake 0; RtAbandon 0;
                     RtShutdown; RtFireRoot 0; RtTake 0; RtReturn 0] (rt_start config) in
  rt_returned w = [Ok tt] ∧ outstanding_tasks (rt_inner w) = [] ∧
  rt_tasks w !! 0%N = Some (mkTask "task" false TaskRuns false).
Proof. vm_compute. done. Qed.

(** A provider call that shutdown aborts and the executor drops keeps its slot. *)
Theorem aborted_provider_keeps_slot :
  let w := rt_steps (to_shutdown ++ [RtTake 0] ++ to_end ++ [RtDropTask 1]) (rt_start config) in
  rt_tasks w = ∅ ∧ rt_shutdowns w = [] ∧ running_provider_operations (rt_inner w) = 1.
Proof. vm_compute. done. Qed.
End RuntimeWitness.
