(* ===== verification/FetchCache.v ===== *)
(** * The fetch cache and its services ([crates/fava-fetch-cache])

    [MemoryFetchCache] keeps the last outcome of each keyed fetch with the time
    it was fetched; [resolve] (NIP-05) and [fetch] (NIP-11) answer from it or ask
    the HTTP fetcher and record what came back.  Both are split where they await
    the fetcher: the first part answers or names the URL to get, the second takes
    the response; the cache may have changed in between.  [Instant]s and
    [Duration]s are numbers; [now] is the clock at the lookup and [fetched_at] the
    clock read after it, when the fetch begins.

    The HTTP fetcher and the JSON parser are the code's parameters: a response is
    an argument, and [from_str], [get] and [as_str] are those of [serde_json]. *)

From S2P Require Import Prelude.

Record FetchAge := mkAge { fa_fetched_at : N; fa_age : N; fa_is_fresh : bool }.

(** [FetchAge::compute]; [Instant::elapsed] saturates at zero. *)
Definition age_compute (now fetched_at ttl : N) : FetchAge :=
  let age := (now - fetched_at)%N in mkAge fetched_at age (bool_decide (age ≤ ttl)%N).

Inductive FetchOutcome :=
| FetchOk (body : string) (age : FetchAge)
| FetchNotFound (age : FetchAge)
| FetchError (reason : string) (age : FetchAge)
| Absent.

Definition is_fresh_ok (o : FetchOutcome) : bool := match o with FetchOk _ age => fa_is_fresh age | _ => false end.
Definition is_fresh_not_found (o : FetchOutcome) : bool :=
  match o with FetchNotFound age => fa_is_fresh age | _ => false end.
Definition is_stale (o : FetchOutcome) : bool :=
  match o with FetchOk _ age | FetchNotFound age | FetchError _ age => negb (fa_is_fresh age) | Absent => false end.

Inductive StoredOutcome :=
| StoredOk (body : string) (fetched_at : N)
| StoredNotFound (fetched_at : N)
| StoredError (reason : string) (fetched_at : N).

Definition to_fetch_outcome (now ttl : N) (s : StoredOutcome) : FetchOutcome :=
  match s with
  | StoredOk body at_ => FetchOk body (age_compute now at_ ttl)
  | StoredNotFound at_ => FetchNotFound (age_compute now at_ ttl)
  | StoredError reason at_ => FetchError reason (age_compute now at_ ttl)
  end.

Definition MemoryFetchCache : Type := gmap string StoredOutcome.

Definition cache_get (now : N) (key : string) (ttl : N) (c : MemoryFetchCache) : FetchOutcome :=
  match c !! key with None => Absent | Some stored => to_fetch_outcome now ttl stored end.
Definition set_ok (key body : string) (at_ : N) (c : MemoryFetchCache) : MemoryFetchCache :=
  <[key := StoredOk body at_]> c.
Definition set_not_found (key : string) (at_ : N) (c : MemoryFetchCache) : MemoryFetchCache :=
  <[key := StoredNotFound at_]> c.
Definition set_error (key reason : string) (at_ : N) (c : MemoryFetchCache) : MemoryFetchCache :=
  <[key := StoredError reason at_]> c.
Definition evict (key : string) (c : MemoryFetchCache) : MemoryFetchCache := delete key c.

Record HttpResponse := mkResponse { hr_status : N; hr_body : string }.

(** A fetch to be made: the key it is recorded under, the URL and the time. *)
Record PendingFetch := mkPendingFetch { pf_key : string; pf_url : string; pf_at : N }.

(** ** NIP-05 ([nip05.rs]) *)

Inductive Nip05Result :=
| Nip05Fresh (pubkey_hex : string)
| Nip05NotFound
| NegativeCached (age : FetchAge)
| Nip05Stale (pubkey_hex : string) (age : FetchAge)
| Nip05Error (reason : string).

(** [str::split_once('@')]. *)
Fixpoint split_once_at (s : string) : option (string * string) :=
  match s with
  | EmptyString => None
  | String c s =>
      if bool_decide (c = "@"%char) then Some (EmptyString, s)
      else match split_once_at s with Some (a, b) => Some (String c a, b) | None => None end
  end.

Definition well_known (name domain : string) : string :=
  let scheme := if String.prefix "127." domain || bool_decide (domain = "localhost"%string) then "http"%string
                else "https"%string in
  scheme +:+ "://" +:+ domain +:+ "/.well-known/nostr.json?name=" +:+ name.

Section nip05.
Context {Value : Type} (from_str : string → option Value) (get : Value → string → option Value)
  (as_str : Value → option string).

Definition parse_names_for (body name : string) : option string :=
  json ← from_str body; names ← get json "names"; entry ← get names name; as_str entry.

(** Up to the fetch: an answer, or the fetch to make. *)
Definition resolve_start (now fetched_at : N) (identifier : string) (ttl : N) (c : MemoryFetchCache)
    : Nip05Result + (string * PendingFetch) :=
  match split_once_at identifier with
  | None => inl (Nip05Error ("invalid NIP-05 identifier: " +:+ identifier))
  | Some (name, domain) =>
      if bool_decide (name = ""%string) || bool_decide (domain = ""%string)
      then inl (Nip05Error "NIP-05 identifier has empty name or domain")
      else
        let url := well_known name domain in
        let pending := inr (name, mkPendingFetch url url fetched_at) in
        match cache_get now url ttl c with
        | FetchOk body age =>
            if fa_is_fresh age
            then inl (match parse_names_for body name with Some hex => Nip05Fresh hex | None => Nip05NotFound end)
            else inl (Nip05Stale (default ""%string (parse_names_for body name)) age)
        | FetchNotFound age => if fa_is_fresh age then inl (NegativeCached age) else pending
        | FetchError _ age =>
            if fa_is_fresh age then inl (Nip05Error "NIP-05 fetch previously failed (cached)") else pending
        | Absent => pending
        end
  end.

(** The response, recorded and answered. *)
Definition resolve_finish (name : string) (p : PendingFetch) (response : result string HttpResponse)
    (c : MemoryFetchCache) : Nip05Result * MemoryFetchCache :=
  match response with
  | Err e => (Nip05Error e, set_error (pf_key p) e (pf_at p) c)
  | Ok resp =>
      if bool_decide (hr_status resp = 404%N) then (Nip05NotFound, set_not_found (pf_key p) (pf_at p) c)
      else if bool_decide (hr_status resp = 200%N) then
        match parse_names_for (hr_body resp) name with
        | Some hex => (Nip05Fresh hex, set_ok (pf_key p) (hr_body resp) (pf_at p) c)
        | None => (Nip05NotFound, set_not_found (pf_key p) (pf_at p) c)
        end
      else
        let reason := "NIP-05 HTTP " +:+ pretty (hr_status resp) in
        (Nip05Error reason, set_error (pf_key p) reason (pf_at p) c)
  end.
End nip05.

(** ** NIP-11 ([nip11.rs]) *)

Inductive Nip11Result :=
| Nip11Fresh (info_json : string)
| Nip11Stale (info_json : string) (age : FetchAge)
| Nip11Error (reason : string).

Definition strip_prefix (prefix s : string) : option string :=
  if String.prefix prefix s
  then Some (String.substring (String.length prefix) (String.length s - String.length prefix) s) else None.

Definition relay_url_to_http (relay_url : string) : string :=
  match strip_prefix "wss://" relay_url with
  | Some rest => "https://" +:+ rest
  | None => match strip_prefix "ws://" relay_url with
            | Some rest => "http://" +:+ rest
            | None => relay_url
            end
  end.

Definition nip11_start (now fetched_at : N) (relay_url : string) (ttl : N) (c : MemoryFetchCache)
    : Nip11Result + PendingFetch :=
  let pending := inr (mkPendingFetch relay_url (relay_url_to_http relay_url) fetched_at) in
  match cache_get now relay_url ttl c with
  | FetchOk body age => inl (if fa_is_fresh age then Nip11Fresh body else Nip11Stale body age)
  | FetchError _ age => if fa_is_fresh age then inl (Nip11Error "NIP-11 fetch previously failed (cached)") else pending
  | Absent | FetchNotFound _ => pending
  end.

Definition nip11_finish (p : PendingFetch) (response : result string HttpResponse) (c : MemoryFetchCache)
    : Nip11Result * MemoryFetchCache :=
  match response with
  | Err e => (Nip11Error e, set_error (pf_key p) e (pf_at p) c)
  | Ok resp =>
      if bool_decide (hr_status resp = 200%N)
      then (Nip11Fresh (hr_body resp), set_ok (pf_key p) (hr_body resp) (pf_at p) c)
      else
        let reason := "NIP-11 HTTP " +:+ pretty (hr_status resp) in
        (Nip11Error reason, set_error (pf_key p) reason (pf_at p) c)
  end.

(** ** Properties *)

Section properties.
Context {Value : Type} (from_str : string → option Value) (get : Value → string → option Value)
  (as_str : Value → option string).
Local Notation resolve_start := (resolve_start from_str get as_str).
Local Notation resolve_finish := (resolve_finish from_str get as_str).

(** What [resolve] answers later, given what it answered when it fetched: the
    same within the lifetime; past it a key is repeated as stale, and anything
    else is fetched again. *)
Definition later_answer (at_ now ttl : N) (first : Nip05Result) (answer : Nip05Result + (string * PendingFetch))
    : Prop :=
  let age := age_compute now at_ ttl in
  match first with
  | Nip05Fresh hex => answer = inl (if fa_is_fresh age then Nip05Fresh hex else Nip05Stale hex age)
  | Nip05NotFound => if fa_is_fresh age then answer = inl (NegativeCached age) else ∃ p, answer = inr p
  | Nip05Error _ =>
      if fa_is_fresh age then answer = inl (Nip05Error "NIP-05 fetch previously failed (cached)")
      else ∃ p, answer = inr p
  | _ => False
  end.

(** A NIP-05 answer lasts its lifetime.  When [resolve] has had to fetch,
    whatever the cache has become meanwhile, every later call for the same identifier answers from the cache while the
    entry is fresh: a key as that key, a missing name from the negative cache,
    a failure as a cached failure; past the lifetime a missing name or a failure
    is fetched again, and a key is repeated as stale with its age. *)
Theorem resolve_lasts (identifier name : string) (before at_ now again ttl ttl' : N)
    (c c1 c' : MemoryFetchCache) (p : PendingFetch) (response : result string HttpResponse) (answer : Nip05Result)
    (Hstart : resolve_start before at_ identifier ttl c = inr (name, p))
    (Hfinish : resolve_finish name p response c1 = (answer, c')) :
  later_answer at_ now ttl' answer (resolve_start now again identifier ttl' c').
Proof.
  unfold FetchCache.resolve_start in *. destruct (split_once_at identifier) as [[n d]|]; [|done].
  destruct (bool_decide (n = ""%string) || bool_decide (d = ""%string)); [done|].
  set (url := well_known n d) in *.
  assert (Hp : n = name ∧ p = mkPendingFetch url url at_).
  { destruct (cache_get before url ttl c) as [body age|age|reason age|]; try (destruct (fa_is_fresh age)); by simplify_eq. }
  destruct Hp as [-> ->]. unfold FetchCache.resolve_finish in Hfinish. simpl in Hfinish.
  assert (Hget : ∀ s, cache_get now url ttl' (<[url := s]> c1) = to_fetch_outcome now ttl' s).
  { intros s. unfold cache_get. by rewrite (lookup_insert_eq (M := gmap string) c1 url s). }
  destruct response as [resp|e].
  - case_bool_decide; [injection Hfinish as <- <-; unfold set_not_found; rewrite Hget; simpl; case_bool_decide; [done|eauto]|].
    case_bool_decide; [|injection Hfinish as <- <-; unfold set_error; rewrite Hget; simpl; case_bool_decide; [done|eauto]].
    destruct (parse_names_for from_str get as_str (hr_body resp) name) as [hex|] eqn:Hhex; injection Hfinish as <- <-.
    + unfold set_ok. rewrite Hget. simpl. rewrite Hhex. by case_bool_decide.
    + unfold set_not_found. rewrite Hget. simpl. case_bool_decide; [done|eauto].
  - injection Hfinish as <- <-. unfold set_error. rewrite Hget. simpl. case_bool_decide; [done|eauto].
Qed.

(** A key once found is never looked up again: no later call fetches, however
    long ago the entry was fetched, until something evicts it. *)
Theorem found_key_never_refetched (identifier name domain body : string) (at_ now again ttl : N) (c : MemoryFetchCache)
    (Hid : split_once_at identifier = Some (name, domain))
    (Hheld : c !! well_known name domain = Some (StoredOk body at_)) :
  ∃ answer, resolve_start now again identifier ttl c = inl answer.
Proof.
  unfold FetchCache.resolve_start. rewrite Hid. case_match; [eauto|]. unfold cache_get. rewrite Hheld. simpl. case_match; eauto.
Qed.

(** A NIP-11 document once fetched is never fetched again either. *)
Theorem relay_document_never_refetched (relay_url body : string) (at_ now again ttl : N) (c : MemoryFetchCache)
    (Hheld : c !! relay_url = Some (StoredOk body at_)) :
  ∃ answer, nip11_start now again relay_url ttl c = inl answer ∧
    answer = if fa_is_fresh (age_compute now at_ ttl) then Nip11Fresh body
             else Nip11Stale body (age_compute now at_ ttl).
Proof. unfold nip11_start, cache_get. rewrite Hheld. simpl. eauto. Qed.
End properties.

Module FetchWitness.
(** A parser whose documents name one key: the body [bob:key] maps bob to it. *)
Definition from_str (body : string) : option (list string) :=
  if bool_decide (body = "bob:key"%string) then Some ["bob"; "key"]%string else None.
Definition get (value : list string) (key : string) : option (list string) :=
  match value with
  | [name; hex] => if bool_decide (key = "names"%string) then Some value
                   else if bool_decide (key = name) then Some [hex] else None
  | _ => None
  end.
Definition as_str (value : list string) : option string := match value with [hex] => Some hex | _ => None end.
Local Notation resolve_start := (resolve_start from_str get as_str).

Definition pending : PendingFetch :=
  mkPendingFetch (well_known "bob" "example.com") (well_known "bob" "example.com") 100.
Definition found : Nip05Result * MemoryFetchCache :=
  resolve_finish from_str get as_str "bob" pending (Ok (mkResponse 200 "bob:key")) ∅.

Lemma resolve_lasts_witness :
  later_answer 100 150 60 (Nip05Fresh "key") (resolve_start 150 151 "bob@example.com" 60 found.2).
Proof.
  apply (resolve_lasts from_str get as_str "bob@example.com" "bob" 99 100 150 151 60 60 ∅ ∅ found.2
           pending (Ok (mkResponse 200 "bob:key")) (Nip05Fresh "key")); vm_compute; reflexivity.
Defined.

(** Ten years later the same key, without asking. *)
Example ten_years_later :
  resolve_start 315360100 315360100 "bob@example.com" 60 found.2 =
  inl (Nip05Stale "key" (mkAge 100 315360000 false)).
Proof. vm_compute. reflexivity. Qed.

(** The identifier's domain goes into the URL as it is, with its path and query,
    and two identifiers of different names may share one URL and one entry. *)
Theorem identifier_chooses_path :
  resolve_start 0 0 "x@evil.example/other?q=" 60 ∅ =
    inr ("x"%string, mkPendingFetch "https://evil.example/other?q=/.well-known/nostr.json?name=x"
                       "https://evil.example/other?q=/.well-known/nostr.json?name=x" 0) ∧
  well_known "bob" "d.example/.well-known/nostr.json?name=a" =
    well_known "a/.well-known/nostr.json?name=bob" "d.example".
Proof. split; vm_compute; reflexivity. Qed.
End FetchWitness.
